(* ===== verification/_CoqProject ===== *)
-Q . S2P
Prelude.v
Bits.v
ChunkGen.v
AddrRange.v
AddrRangeMap.v
EventQueue.v
Host.v
Request.v
MemCmd.v
Packet.v
PacketQueue.v
Clocked.v
XBarLayer.v
AbstractMem.v
MemInterface.v
XBar.v
XBarRun.v
XBarMemory.v
SimpleMem.v
Spm.v
Functional.v
PortProxy.v
MemoryImage.v
PageTable.v
FreeList.v
MemPool.v
Vma.v
MemState.v
Process.v
VirtMem.v
ProcessInv.v
Fault.v
View.v
Region.v
MemSyscalls.v
CInt.v
Futex.v
FutexCall.v
Dma.v
DmaTiming.v
DmaVirt.v
AtomicCpu.v
DmaPeer.v
TimingCpu.v
Idma.v
IdmaTiming.v
MiniLibc.v
MatMul.v
Driver.v
System.v
Soc.v
SpmTest.v
HybridMemory.v
ProcessSystem.v
