(* ===== verification/Prelude.v ===== *)
(** * The memory system of the Zircon many-core simulator

    The program is a fork of the gem5 simulator (under [src/gem5_sim/src], to which
    all file names below are relative unless they start with [tests] or [configs])
    extended by a hybrid memory system: scratchpad memories with a second port for DMA
    ([mem/spm/spm.cc]) and a memory-mapped DMA engine, the iDMA ([mem/spm/idma.cc]),
    which copies between them over a crossbar.  This library models that system from
    the event queue up, with the parts of gem5 it is made of; the data accesses of
    the processors that use it; the memory of the processes that run on it under
    system-call emulation; and the test programs of the fork ([tests]
    and [configs] are those of [src/gem5_sim]).

    ** Conventions

    The code is embedded shallowly.  Pure functions are functions; an object is a
    [Record] of its fields, and a method takes the object and returns the new one.
    What a method may do instead of returning (a failed assertion, [panic],
    [fatal], undefined behaviour) is a value of [res] (this file).  Integers are
    [Z], and the wrap-around of a machine type is written out ([u8] ... [u64])
    wherever the code computes in that type, with two exceptions: simulated time
    ([Tick], picoseconds in 64 bits) does not wrap around, and neither do the signed
    64-bit sizes of the page table, which the theorems keep below [2^63].  Pointers to bytes are [ptr] into a
    heap of buffers ([Host]), so that a packet, the device that sent it and a
    memory's backing store share bytes exactly when they do in the code.  What is
    decided outside of the modelled code (the answer of a peer port, a random
    latency, the order of events) is an argument of the operation or a choice of
    the step relation.  When a method calls a peer that calls back before the
    method goes on, the calls made on the way are an argument of the operation
    (for example [reqs] in [PacketQueue.sendDeferredPacket]).  Output for humans
    (traces, statistics that nothing reads) is left out.

    ** Parts, and the files that model them

    Foundations:
    - [Bits]: [base/bitfield.hh], [base/intmath.hh].
    - [ChunkGen]: [base/chunk_generator.hh], the cutting of a region into chunks.
    - [AddrRange]: [base/addr_range.hh], contiguous and interleaved ranges.
    - [AddrRangeMap]: [base/addr_range_map.hh], the decoder of the crossbars.
    - [EventQueue]: [sim/eventq.{hh,cc}], the two-level linked list of events as a
      heap of events with their pointers, refined to a sorted list of stacks.
    - [Clocked]: [sim/clocked_object.hh], [sim/clock_domain.{hh,cc}].
    - [Host]: byte buffers, [sim/byteswap.hh], [sim/bufval.cc].

    What travels:
    - [Request]: [base/flags.hh], [mem/request.hh].
    - [MemCmd], [Packet]: [mem/packet.{hh,cc}], [mem/packet_access.hh].
    - [PacketQueue]: [mem/packet_queue.{hh,cc}].

    Memories:
    - [AbstractMem]: [mem/abstract_mem.{hh,cc}], accesses and reservations.
    - [MemInterface]: the class [ByteMemory], what a memory promises to those that
      access it.  [SimpleMem], [Spm], [XBarMemory] and the sum of two memories
      are its instances; the theorems of the DMA engine are proved against it.
    - [SimpleMem]: [mem/simple_mem.{hh,cc}]; [Spm]: [mem/spm/spm.{hh,cc}].
    - [Functional]: functional accesses of the memories and the crossbar, and the
      class [FunctionalMemory] of what they promise.
    - [PortProxy]: [mem/port_proxy.{hh,cc}], blocks, values and strings over the
      class [BlobProxy]; [MemoryImage]: [base/loader/memory_image.{hh,cc}].

    Interconnect:
    - [XBarLayer]: the arbitration of one output, [BaseXBar::Layer] of
      [mem/xbar.{hh,cc}].
    - [XBar]: decoding, range announcements, packet timing, timing requests and
      responses of [mem/xbar.cc] and [mem/noncoherent_xbar.cc].
    - [XBarRun]: its runs, with retries, releases and queued responses.
    - [XBarMemory]: its atomic and functional accesses, as a memory.

    DMA:
    - [Dma]: [dev/dma_device.{hh,cc}]; [DmaTiming]: its runs in timing mode;
      [DmaPeer]: those runs together with the memory that serves the packets.
    - [DmaVirt]: [dev/dma_virt_device.{hh,cc}]; [Idma]: [mem/spm/idma.{hh,cc}];
      [IdmaTiming]: the runs of the iDMA in timing mode.
    - [System]: memories behind a crossbar, the processors, the iDMA and its driver
      on top.

    Processors:
    - [AtomicCpu]: loads and stores of [cpu/simple/atomic.cc]; [TimingCpu]: those of
      [cpu/simple/timing.cc], with their refusals, retries, responses and events.
    - [Soc]: the processor in atomic mode, its crossbar with the memories and the
      registers of the device behind it ([PioPort] of [dev/io_device.hh]), and the
      crossbar of the device in front of the same memories; loads and stores of words
      ([arch/generic/memhelpers.hh]).

    Processes under system-call emulation:
    - [PageTable]: [mem/translation_gen.hh], [mem/page_table.{hh,cc}].
    - [FreeList]: [base/free_list.hh]; [MemPool]: [sim/mem_pool.{hh,cc}], the pools
      of physical pages.
    - [Vma]: [sim/vma.{hh,cc}]; [MemState]: the record of [sim/mem_state.hh].
    - [Process]: the operations of [sim/process.cc], [sim/mem_state.cc] and the
      translating proxies ([mem/translating_port_proxy.cc],
      [mem/se_translating_port_proxy.cc]).
    - [VirtMem], [ProcessInv]: accesses at virtual addresses, and the invariant of
      page table, frames and pools; [Fault]: page faults ([MemState::fixupFault]).
    - [View]: the memory of a process as a map from addresses to bytes, the abstract
      state that the operations on regions ([Region]) and the system calls refine.
    - [MemSyscalls]: [brk], [mmap], [munmap] and [mremap] of
      [sim/syscall_emul.{hh,cc}].
    - [Futex]: [sim/futex_map.{hh,cc}]; [FutexCall]: [futexFunc] of
      [sim/syscall_emul.hh].
    - [ProcessSystem]: the theorems on processes at a concrete process whose frames
      are in a scratchpad.

    Programs:
    - [CInt]: the C the programs use; [MiniLibc]: their library
      [tests/test-progs/spm_test/include/mini_libc.h].
    - [MatMul]: [tests/test-progs/matmul], the threads of the many-core program.
    - [Driver]: [dma_start] and [dma_wait] of the test program
      [tests/test-progs/spm_test/src/spm_test.c], as packets that reach the device.
    - [SpmTest]: its tests, as programs on the machine of [Soc].
    - [HybridMemory]: the configuration [configs/tutorial/part1/hybrid_memory.py]
      they are meant for, with its memories, crossbars and mappings, in atomic mode.

    ** What is proved

    - The system: a copy started by the driver between any two memories behind the
      crossbar moves exactly the bytes it should, in timing mode whatever the
      interleaving of time, packets, retries, responses and completion events
      ([System.driver_copy]), in atomic mode whatever the order of the completion
      events ([System.hybrid_copy], [Idma.idma_copy]); nothing fails on the way,
      and completion can always be reached.
    - The whole machine: the tests of [spm_test.c], run by the atomic processor on a
      chip such as that of [HybridMemory], end as they should whatever the order of
      the polls of the program and the events of the device
      ([SpmTest.l1i_test_passes], [SpmTest.l2_test_copies]).
    - The DMA port: in atomic mode a read and a write copy a region
      ([Dma.dma_copy]); in timing mode, in every run, every byte of a transfer is
      answered, in flight or still to be sent, and each transfer completes exactly
      once ([DmaTiming.dma_timing_runs]).
    - The crossbar: responses go back to the port that sent the request
      ([XBarRun.crossbar_runs]), its address map follows the announcements
      ([XBar.recvRangeChange_spec], [XBar.findPort_spec]), every waiting port is
      served ([XBarLayer.layer_runs]), and it behaves as one memory
      ([XBarMemory.crossbar_write_read]).
    - The processors: an access, split at cache lines and translated part by part,
      is one access to the virtual memory; in timing mode it completes whatever the
      interleaving of refusals, retries, responses and events, but for one: a
      response of the first part that overtakes the retry of the second is an
      assertion failure ([AtomicCpu.cpu_access], [TimingCpu.timing_cpu_access]).
    - Processes: what a process sees is one flat memory, in which a write changes
      exactly its bytes and a page fault nothing ([View.virtual_access],
      [View.page_fault_unseen]); mapping, unmapping and moving regions, and the
      system calls that do so, change it as they should, on every branch, errors
      included, and give back exactly the pages they should ([Region.region_operations],
      [MemSyscalls]); physical pages are held once ([MemPool.mem_pool_runs]); the page
      table maps, unmaps and moves exactly the pages it should, or says why not
      ([PageTable.page_table_spec]).
    - Futexes: a suspended thread waits in exactly one queue, wake-ups wake those
      that have waited longest, and every waiter is woken once enough have been
      asked for ([Futex]); the call compares and writes the word that the process
      sees ([FutexCall.futex_call]).
    - Programs: the threads of the matrix multiplication compute what the sequential
      kernel does ([MatMul.matmul_threads]); [printf] is equivalent to a reference
      definition on parsed formats ([MiniLibc.printf_spec]).
    - The memories: reads return what was written, reservations are kept as
      store-conditionals need them, no response is lost, duplicated, early or out
      of order, and which requests are accepted, refused or a panic ([AbstractMem],
      [SimpleMem], [Spm], [PacketQueue]).
    - The event queue: the order of events, insertion and removal, and that exactly
      the events due that are not squashed are processed ([EventQueue]).
    - The arithmetic below: tiling of regions by chunks, interleaving and merging
      of ranges, translation of regions, clock edges, round trips of values.

    Runs are sequences of steps of an [Inductive] relation, started in any state
    that satisfies the component's invariant; their theorems say what holds in
    every reachable state, and that no handler fails there, or when one does.  Loops of the code
    that are not structural have fuel computed from their arguments (the number
    of chunks of a region, of pages of a mapping, of events in the queue); the
    theorems show that it is enough, that is, that the result is [Ok].  Where the
    fuel is an argument (the depth of nested fixes of a page fault, the search for
    a free range of addresses), the theorems state the bound from which it is enough
    as a hypothesis, which the witnesses satisfy.

    Witnesses apply the theorems that have hypotheses at concrete states; those that
    need memories are in [System] and [ProcessSystem].  Lemmas named in the findings
    evaluate the definitions at inputs where the code does not do what it means to.

    ** What is not modelled, and why

    - Instruction fetch, decoding and execution, and the pipelines of the processor
      models ([cpu/o3], [cpu/minor]): the instruction sets ([arch]) are generated by
      the build from descriptions; the memory system is only reached through the
      accesses modelled.  Of these, locked, swapping and local accesses and hardware
      transactions need the instruction sets, and are left out.
    - The interleaving of the timing processor with the device in timing mode, the
      mode of [hybrid_memory.py]: both are proved on their own against memories that
      answer when they want to ([TimingCpu], [IdmaTiming]); together they are proved
      in atomic mode ([SpmTest]).
    - Page walks, 32-bit and pointer-masked addresses and full-system mode: they interpret tables of the guest operating
      system; the fork runs its programs under system-call emulation.
    - Caches, coherence and DRAM timing ([mem/cache], [mem/coherent_xbar.cc],
      [mem/ruby], [mem/mem_ctrl.cc]): not part of the hybrid memory system, and the
      protocols of Ruby are generated.
    - System calls that talk to the host (files, sockets, time), the loader of object
      files, clones of processes: they are effects on the host operating system; the
      calls that change the memory of a process or let threads wait are modelled.
    - Other devices, GPU models, the SystemC bridge, the Python configuration layer
      and external libraries: the memory path does not call them.
    - Of the modelled files, memory backdoors, debug output, statistics objects and
      checkpoint files are left out. *)

From Stdlib Require Export ZArith Lia Bool.
From stdpp Require Export prelude gmap sorting.

Open Scope Z_scope.

(** ** Failures of the C++ code as values *)

Inductive failure :=
  | AssertFailure
  | PanicFailure
  | FatalFailure
  | UndefinedBehaviour
  | OutOfFuel.

Inductive res (A : Type) :=
  | Ok (a : A)
  | Fail (f : failure).
Arguments Ok {A} a.
Arguments Fail {A} f.

#[export] Instance failure_eq_dec : EqDecision failure.
Proof. solve_decision. Defined.

#[export] Instance res_ret : MRet res := λ A, Ok.
#[export] Instance res_bind : MBind res := λ A B k m,
  match m with Ok a => k a | Fail f => Fail f end.

Definition ensure (f : failure) (b : bool) : res unit :=
  if b then Ok tt else Fail f.

(** The checks of the code: [assert], and what it says with [panic_if] and
    [fatal_if], by the condition under which it goes on. *)
Declare Scope sim_scope.
Delimit Scope sim_scope with sim.
Notation "'assert!' b ; k" := (ensure AssertFailure b ≫= λ _, k)
  (at level 20, b at level 100, k at level 200) : sim_scope.
Notation "'panic_unless!' b ; k" := (ensure PanicFailure b ≫= λ _, k)
  (at level 20, b at level 100, k at level 200) : sim_scope.
Notation "'fatal_unless!' b ; k" := (ensure FatalFailure b ≫= λ _, k)
  (at level 20, b at level 100, k at level 200) : sim_scope.
Notation "'defined!' b ; k" := (ensure UndefinedBehaviour b ≫= λ _, k)
  (at level 20, b at level 100, k at level 200) : sim_scope.
Open Scope sim_scope.

(** ** Machine integers *)

Definition u8 (x : Z) : Z := x mod 2 ^ 8.
Definition u16 (x : Z) : Z := x mod 2 ^ 16.
Definition u32 (x : Z) : Z := x mod 2 ^ 32.
Definition u64 (x : Z) : Z := x mod 2 ^ 64.

Definition is_u64 (x : Z) : Prop := 0 <= x < 2 ^ 64.

(** ** Lemmas *)

Lemma u64_small x : is_u64 x → u64 x = x.
Proof. apply Z.mod_small. Qed.

Lemma res_bind_Ok {A B} (x : A) (k : A → res B) : (Ok x ≫= k) = k x.
Proof. done. Qed.

Lemma bind_Ok {A B} (m : res A) (k : A → res B) (b : B) :
  (m ≫= k) = Ok b ↔ ∃ a, m = Ok a ∧ k a = Ok b.
Proof. destruct m; cbn; naive_solver. Qed.

Lemma ensure_Ok f b x : ensure f b = Ok x ↔ b = true.
Proof. destruct b, x; simpl; split; done. Qed.

(** Decompose [H : m ≫= k = Ok x] into the successes of its parts. *)
Ltac inv_res H :=
  lazymatch type of H with
  | (_ ≫= _) = Ok _ =>
      let y := fresh "y" in let E := fresh "E" in
      apply bind_Ok in H as (y & E & H); inv_res E;
      repeat match goal with z : (_ * _)%type |- _ => destruct z end; inv_res H
  | ensure _ _ = Ok _ => apply ensure_Ok in H
  | Ok _ = Ok _ => injection H as H; subst
  | Fail _ = Ok _ => discriminate H
  | _ => idtac
  end.

(** Values that fit their width. *)
Create HintDb width.
#[export] Hint Extern 1 (is_u64 _) => unfold is_u64 in *; lia : width.
#[export] Hint Extern 2 (_ <= _) => unfold is_u64 in *; lia : width.
#[export] Hint Extern 2 (_ < _) => unfold is_u64 in *; lia : width.

(** [lia] with division and remainder by constants. *)
Ltac zlia := Z.to_euclidean_division_equations; lia.

Lemma u64_range x : is_u64 (u64 x).
Proof. apply Z.mod_pos_bound. lia. Qed.

#[export] Hint Resolve u64_range : width.

Lemma u64_u64 x : u64 (u64 x) = u64 x.
Proof. apply u64_small, u64_range. Qed.

Lemma testbit_high x n i : 0 <= x < 2 ^ n → n <= i → Z.testbit x i = false.
Proof.
  intros Hx Hi. destruct (decide (x = 0)) as [->|]; [apply Z.bits_0|].
  apply Z.bits_above_log2; [lia|].
  assert (Z.log2 x < n); [|lia]. apply Z.log2_lt_pow2; lia.
Qed.

(** A non-negative integer whose bits from [n] up are clear is below [2^n]. *)
Lemma lt_pow2_bits x n :
  0 <= n → 0 <= x → (∀ i, n <= i → Z.testbit x i = false) → x < 2 ^ n.
Proof.
  intros Hn Hx Hb. destruct (decide (x = 0)) as [->|]; [lia|].
  destruct (Z_lt_le_dec x (2 ^ n)) as [|Hle]; [done|].
  assert (n <= Z.log2 x) by (apply Z.log2_le_pow2; lia).
  pose proof (Z.bit_log2 x). rewrite Hb in *; naive_solver lia.
Qed.

Lemma u64_bits x i :
  Z.testbit (u64 x) i = if decide (0 <= i < 64) then Z.testbit x i else false.
Proof.
  unfold u64. case_decide as Hi.
  - apply Z.mod_pow2_bits_low. lia.
  - destruct (decide (i < 0)); [by apply Z.testbit_neg_r|].
    apply Z.mod_pow2_bits_high. lia.
Qed.

Lemma Forall_impl2 {A} (P Q R : A → Prop) l :
  Forall P l → Forall Q l → (∀ x, P x → Q x → R x) → Forall R l.
Proof. rewrite !Forall_forall. naive_solver. Qed.
