(* ===== verification/Bits.v ===== *)
(** Bit-field and integer helpers of [src/gem5_sim/src/base/bitfield.hh] and
    [base/intmath.hh], on 64-bit values held as [Z]. *)

From S2P Require Import Prelude.

(** ** base/bitfield.hh *)

Module Bitfield.

Definition mask (nbits : Z) : Z :=
  if 64 <=? nbits then 2 ^ 64 - 1 else u64 (Z.shiftl 1 nbits - 1).

Definition bits (val first last : Z) : Z :=
  let nbits := u32 (first - last + 1) in
  Z.land (Z.shiftr val last) (mask nbits).

Definition bit (val b : Z) : Z := bits val b b.

(** [~x] on an unsigned 64-bit operand. *)
Definition not64 (x : Z) : Z := 2 ^ 64 - 1 - x.

Definition mbits (val first last : Z) : Z :=
  Z.land val (Z.land (mask (u32 (first + 1))) (not64 (mask last))).

Definition mask2 (first last : Z) : Z := mbits (2 ^ 64 - 1) first last.

Definition sext (N val : Z) : Z :=
  if bit val (N - 1) =? 0 then val else Z.lor val (not64 (mask N)).

Definition szext (N val : Z) : Z :=
  if bit val (N - 1) =? 0 then Z.land val (mask N)
  else Z.lor val (not64 (mask N)).

Definition insertBits (val first last bit_val : Z) : Z :=
  let bmask := mask2 first last in
  let val := Z.land val (not64 bmask) in
  Z.lor val (Z.land (u64 (Z.shiftl bit_val last)) bmask).

Definition insertBit (val b bit_val : Z) : Z := insertBits val b b bit_val.

(** One step of the binary search of [findMsbSet]: if the upper half
    [first..last] is non-zero, skip the lower [last] bits. *)
Definition findMsbSet (val : Z) : Z :=
  let msb := 0 in
  if val =? 0 then 0 else
  let '(msb, val) := if bits val 63 32 =? 0 then (msb, val)
                     else (msb + 32, Z.shiftr val 32) in
  let '(msb, val) := if bits val 31 16 =? 0 then (msb, val)
                     else (msb + 16, Z.shiftr val 16) in
  let '(msb, val) := if bits val 15 8 =? 0 then (msb, val)
                     else (msb + 8, Z.shiftr val 8) in
  let '(msb, val) := if bits val 7 4 =? 0 then (msb, val)
                     else (msb + 4, Z.shiftr val 4) in
  let '(msb, val) := if bits val 3 2 =? 0 then (msb, val)
                     else (msb + 2, Z.shiftr val 2) in
  if bits val 1 1 =? 0 then msb else msb + 1.

Definition findLsbSetFallback (val : Z) : Z :=
  let lsb := 0 in
  if val =? 0 then 64 else
  let '(lsb, val) := if bits val 31 0 =? 0 then (lsb + 32, Z.shiftr val 32)
                     else (lsb, val) in
  let '(lsb, val) := if bits val 15 0 =? 0 then (lsb + 16, Z.shiftr val 16)
                     else (lsb, val) in
  let '(lsb, val) := if bits val 7 0 =? 0 then (lsb + 8, Z.shiftr val 8)
                     else (lsb, val) in
  let '(lsb, val) := if bits val 3 0 =? 0 then (lsb + 4, Z.shiftr val 4)
                     else (lsb, val) in
  let '(lsb, val) := if bits val 1 0 =? 0 then (lsb + 2, Z.shiftr val 2)
                     else (lsb, val) in
  if bits val 0 0 =? 0 then lsb + 1 else lsb.

(** [__builtin_ctzll]: the position of the lowest set bit of a positive
    number, by recursion on its binary representation. *)
Fixpoint pos_ctz (p : positive) : Z :=
  match p with
  | xO q => 1 + pos_ctz q
  | _ => 0
  end.

Definition ctz64 (value : Z) : Z :=
  match value with Zpos p => pos_ctz p | _ => 64 end.

Definition ctz32 (value : Z) : Z :=
  match value with Zpos p => pos_ctz p | _ => 32 end.

(** [__builtin_clzll]/[__builtin_clz] on a [w]-bit operand. *)
Definition clz64 (value : Z) : Z :=
  if value =? 0 then 64 else 63 - Z.log2 value.

Definition clz32 (value : Z) : Z :=
  if value =? 0 then 32 else 31 - Z.log2 value.

Definition findLsbSet (val : Z) : Z :=
  if val =? 0 then 64 else ctz64 val.

(** [__builtin_popcountl]: the number of one bits. *)
Fixpoint pos_popcount (p : positive) : Z :=
  match p with
  | xH => 1
  | xO q => pos_popcount q
  | xI q => 1 + pos_popcount q
  end.

Definition popCount (val : Z) : Z :=
  match val with Zpos p => pos_popcount p | _ => 0 end.

(** *** Bit-level specifications *)

Lemma mask_eq nbits : 0 <= nbits → mask nbits = Z.ones (Z.min nbits 64).
Proof.
  intros Hn. unfold mask. case_match eqn:E; [rewrite Z.min_r by lia; done|].
  rewrite Z.min_l by lia. unfold u64. rewrite Z.ones_equiv, Z.shiftl_1_l.
  rewrite Z.sub_1_r. apply Z.mod_small.
  assert (0 < 2 ^ nbits) by (apply Z.pow_pos_nonneg; lia).
  assert (2 ^ nbits <= 2 ^ 64) by (apply Z.pow_le_mono_r; lia). lia.
Qed.

Lemma mask_bits nbits i :
  0 <= nbits → Z.testbit (mask nbits) i = bool_decide (0 <= i < nbits ∧ i < 64).
Proof.
  intros Hn. rewrite mask_eq by done. rewrite Z.testbit_ones by lia. 
  destruct (Z.leb_spec 0 i), (Z.ltb_spec i (Z.min nbits 64)); simpl;
    case_bool_decide; lia.
Qed.

Lemma mask_range nbits : 0 <= nbits → is_u64 (mask nbits).
Proof.
  intros Hn. rewrite mask_eq by done. rewrite Z.ones_equiv.
  assert (0 < 2 ^ Z.min nbits 64) by (apply Z.pow_pos_nonneg; lia).
  assert (2 ^ Z.min nbits 64 <= 2 ^ 64) by (apply Z.pow_le_mono_r; lia).
  auto with width.
Qed.

Lemma not64_lxor x : is_u64 x → not64 x = Z.lxor x (Z.ones 64).
Proof.
  intros Hx. unfold not64. change (2 ^ 64 - 1) with (Z.ones 64).
  rewrite Z.sub_nocarry_ldiff; apply Z.bits_inj'; intros j Hj;
    rewrite ?Z.ldiff_spec, ?Z.lxor_spec, Z.testbit_ones, ?Z.bits_0 by lia;
    destruct (Z.ltb_spec j 64), (Z.leb_spec 0 j); try lia; simpl;
    try (rewrite (testbit_high x 64) by (unfold is_u64 in *; lia));
    by rewrite ?xorb_true_r, ?andb_false_r.
Qed.

Lemma not64_bits x i :
  is_u64 x → 0 <= i →
  Z.testbit (not64 x) i = bool_decide (i < 64) && negb (Z.testbit x i).
Proof.
  intros Hx Hi. rewrite not64_lxor, Z.lxor_spec, Z.testbit_ones by (done || lia).
  destruct (Z.ltb_spec i 64), (Z.leb_spec 0 i); try lia; simpl;
    try (rewrite (testbit_high x 64) by (unfold is_u64 in *; lia));
    case_bool_decide; first [by rewrite ?xorb_true_r | lia].
Qed.

Lemma land_range x y : is_u64 x → 0 <= y → is_u64 (Z.land x y).
Proof.
  intros Hx Hy. split; [apply Z.land_nonneg; unfold is_u64 in *; lia|].
  apply lt_pow2_bits; [lia|apply Z.land_nonneg; unfold is_u64 in *; lia|].
  intros i Hi. rewrite Z.land_spec, (testbit_high x 64) by (unfold is_u64 in *; lia).
  done.
Qed.

Lemma lor_range x y : is_u64 x → is_u64 y → is_u64 (Z.lor x y).
Proof.
  unfold is_u64. intros Hx Hy. assert (0 <= Z.lor x y) by (apply Z.lor_nonneg; lia).
  split; [done|]. apply lt_pow2_bits; [lia..|].
  intros i Hi. by rewrite Z.lor_spec, !(testbit_high _ 64) by lia.
Qed.

Lemma not64_range x : is_u64 x → is_u64 (not64 x).
Proof. unfold is_u64, not64. lia. Qed.

Lemma shiftr_range x n : is_u64 x → 0 <= n → is_u64 (Z.shiftr x n).
Proof.
  unfold is_u64. intros Hx Hn. rewrite Z.shiftr_div_pow2 by done.
  assert (0 < 2 ^ n) by (apply Z.pow_pos_nonneg; lia).
  split; [apply Z.div_pos; lia|]. apply Z.le_lt_trans with x; [|lia].
  apply Z.div_le_upper_bound; nia.
Qed.

Lemma bits_bits val first last i :
  0 <= last <= first → first < 2 ^ 31 → 0 <= i →
  Z.testbit (bits val first last) i =
    bool_decide (i <= first - last ∧ i < 64) && Z.testbit val (i + last).
Proof.
  intros. unfold bits, u32. rewrite Z.mod_small by lia.
  rewrite Z.land_spec, Z.shiftr_spec, mask_bits by lia.
  rewrite andb_comm. repeat case_bool_decide; lia || done.
Qed.

Lemma mbits_bits val first last i :
  0 <= last <= first → first < 2 ^ 31 → 0 <= i →
  Z.testbit (mbits val first last) i =
    bool_decide (last <= i <= first ∧ i < 64) && Z.testbit val i.
Proof.
  intros. unfold mbits, u32. rewrite Z.mod_small by lia.
  rewrite !Z.land_spec, not64_bits, !mask_bits by (apply mask_range || lia; lia).
  repeat case_bool_decide; simpl; rewrite ?andb_false_r, ?andb_true_r; lia || done.
Qed.

Lemma mask2_bits first last i :
  0 <= last <= first → first < 2 ^ 31 → 0 <= i →
  Z.testbit (mask2 first last) i = bool_decide (last <= i <= first ∧ i < 64).
Proof.
  intros. unfold mask2. rewrite mbits_bits by lia.
  change (2 ^ 64 - 1) with (Z.ones 64). rewrite Z.testbit_ones by lia.
  destruct (Z.leb_spec 0 i), (Z.ltb_spec i 64); case_bool_decide; lia || done.
Qed.

Lemma mask2_range first last : 0 <= last <= first → first < 2 ^ 31 → is_u64 (mask2 first last).
Proof.
  intros. unfold mask2, mbits. apply land_range; [auto with width|].
  unfold u32. rewrite Z.mod_small by lia. apply Z.land_nonneg. left.
  apply mask_range. lia.
Qed.

(** The bits of the result of [insertBits]: those of [bit_val] in the field,
    those of [val] elsewhere. *)
Lemma insertBits_bits val first last bit_val i :
  is_u64 val → 0 <= last <= first → first < 64 → 0 <= i →
  Z.testbit (insertBits val first last bit_val) i =
    if bool_decide (last <= i <= first) then Z.testbit bit_val (i - last)
    else Z.testbit val i.
Proof.
  intros Hv Hl Hf Hi. unfold insertBits.
  rewrite Z.lor_spec, !Z.land_spec, not64_bits, !mask2_bits, u64_bits
    by (apply mask2_range || lia; lia).
  case_decide; [|lia || (rewrite (testbit_high val 64) by (unfold is_u64 in *; lia))].
  - rewrite Z.shiftl_spec by lia.
    repeat case_bool_decide; simpl; rewrite ?andb_false_r, ?andb_true_r, ?orb_false_r; lia || done.
  - repeat case_bool_decide; simpl; lia || done.
Qed.

Lemma insertBits_range val first last bit_val :
  is_u64 val → 0 <= last <= first → first < 64 →
  is_u64 (insertBits val first last bit_val).
Proof.
  intros. pose proof (mask2_range first last) as Hm.
  pose proof (not64_range (mask2 first last)) as Hn.
  apply lor_range; apply land_range; try apply u64_range; try done;
    unfold is_u64 in *; lia.
Qed.

Lemma bits_mod val first last :
  0 <= last <= first → first - last < 63 →
  bits val first last = (val / 2 ^ last) mod 2 ^ (first - last + 1).
Proof.
  intros. unfold bits, u32. rewrite Z.mod_small by lia.
  rewrite mask_eq, Z.min_l, Z.land_ones, Z.shiftr_div_pow2 by lia. done.
Qed.

(** Each stage of [findMsbSet] keeps [msb + log2 val] and halves the width. *)
Lemma findMsbSet_stage k msb val msb' val' :
  0 < k <= 32 → 0 < val < 2 ^ (2 * k) →
  (if bits val (2 * k - 1) k =? 0 then (msb, val)
   else (msb + k, Z.shiftr val k)) = (msb', val') →
  0 < val' < 2 ^ k ∧ msb' + Z.log2 val' = msb + Z.log2 val.
Proof.
  intros Hk Hv. rewrite bits_mod by lia.
  replace (2 * k) with (k + k) in Hv by lia. rewrite Z.pow_add_r in Hv by lia.
  assert (0 < 2 ^ k) by (apply Z.pow_pos_nonneg; lia).
  replace (2 * k - 1 - k + 1) with k by lia.
  rewrite Z.mod_small by (split; [apply Z.div_pos|apply Z.div_lt_upper_bound]; lia).
  destruct (Z.eqb_spec (val / 2 ^ k) 0) as [E|E]; intros [= <- <-].
  - apply Z.div_small_iff in E; lia.
  - pose proof (Z.div_pos val (2 ^ k)).
    rewrite Z.log2_shiftr, Z.shiftr_div_pow2 by lia.
    assert (val / 2 ^ k < 2 ^ k) by (apply Z.div_lt_upper_bound; lia).
    split; [lia|]. assert (k <= Z.log2 val); [|lia].
    apply Z.log2_le_pow2; [lia|]. destruct (Z_lt_le_dec val (2 ^ k)); [|lia].
    rewrite Z.div_small in E; lia.
Qed.

(** Run one stage of a binary search by the stage lemma [lem] at width [k]. *)
Ltac search_stage lem k :=
  match goal with
  | |- context [let '(_, _) := ?e in _] =>
      let H := fresh "H" in
      destruct e as [??] eqn:H; apply (lem k) in H; [destruct H|lia|lia]
  end.

Lemma findMsbSet_log2 val : 0 < val < 2 ^ 64 → findMsbSet val = Z.log2 val.
Proof.
  intros Hv. unfold findMsbSet. destruct (Z.eqb_spec val 0); [lia|].
  search_stage findMsbSet_stage 32. search_stage findMsbSet_stage 16.
  search_stage findMsbSet_stage 8. search_stage findMsbSet_stage 4.
  search_stage findMsbSet_stage 2.
  match goal with |- (if bits ?v 1 1 =? 0 then ?m else ?m + 1) = _ =>
    assert (v = 1 ∨ v = 2 ∨ v = 3) as Hc by lia;
    destruct Hc as [->|[->| ->]]; vm_compute (bits _ _ _); simpl in * end; lia.
Qed.

(** *** Trailing zeros and population count *)

Lemma pos_ctz_spec p :
  0 <= pos_ctz p ∧ Z.testbit (Zpos p) (pos_ctz p) = true ∧
  ∀ i, 0 <= i < pos_ctz p → Z.testbit (Zpos p) i = false.
Proof.
  induction p as [p IH|p IH|]; cbn [pos_ctz].
  - split_and!; [lia|done|lia].
  - destruct IH as (H0 & H1 & H2). split_and!; [lia| |].
    + replace (1 + pos_ctz p) with (Z.succ (pos_ctz p)) by lia.
      rewrite Pos2Z.inj_xO, Z.double_bits_succ. done.
    + intros i Hi. rewrite Pos2Z.inj_xO.
      destruct (decide (i = 0)) as [->|]; [apply Z.testbit_even_0|].
      replace i with (Z.succ (Z.pred i)) by lia.
      rewrite Z.double_bits_succ. apply H2. lia.
  - split_and!; [lia|done|lia].
Qed.

Lemma ctz64_spec x :
  0 < x → 0 <= ctz64 x ∧ Z.testbit x (ctz64 x) = true ∧
  ∀ i, 0 <= i < ctz64 x → Z.testbit x i = false.
Proof. destruct x; [lia|intros _; apply pos_ctz_spec|lia]. Qed.

Lemma ctz64_unique x k :
  0 < x → 0 <= k → Z.testbit x k = true →
  (∀ i, 0 <= i < k → Z.testbit x i = false) → ctz64 x = k.
Proof.
  intros Hx Hk Ht Hl. destruct (ctz64_spec x Hx) as (H0 & H1 & H2).
  destruct (Z.lt_trichotomy (ctz64 x) k) as [?|[?|?]]; [|done|].
  - rewrite Hl in H1; [done|lia].
  - rewrite H2 in Ht; [done|lia].
Qed.

Lemma ctz64_lt x n : 0 < x < 2 ^ n → ctz64 x < n.
Proof.
  intros Hx. destruct (ctz64_spec x) as (H0 & H1 & H2); [lia|].
  destruct (Z_lt_le_dec (ctz64 x) n); [done|].
  rewrite (testbit_high x n) in H1 by lia. done.
Qed.

Lemma popCount_step x : 0 <= x → popCount x = x mod 2 + popCount (x / 2).
Proof.
  intros Hx. destruct x as [|p|]; [done| |lia].
  destruct p as [p|p|]; [..|done].
  - assert (Z.pos p~1 / 2 = Z.pos p ∧ Z.pos p~1 mod 2 = 1) as [-> ->]; [|done].
    rewrite Pos2Z.inj_xI. zlia.
  - assert (Z.pos p~0 / 2 = Z.pos p ∧ Z.pos p~0 mod 2 = 0) as [-> ->]; [|done].
    rewrite Pos2Z.inj_xO. zlia.
Qed.

(** Removing one bit of a number removes it from its population count. *)
Lemma popCount_clearbit x k :
  0 <= x → 0 <= k →
  popCount x = popCount (Z.clearbit x k) + Z.b2z (Z.testbit x k).
Proof.
  intros Hx Hk. revert x Hx. pattern k. apply natlike_ind; [| |done]; clear k Hk.
  - intros x Hx. assert (Z.clearbit x 0 = 2 * (x / 2)) as ->.
    { apply Z.bits_inj'; intros i Hi. rewrite Z.clearbit_eqb by lia.
      destruct (Z.eqb_spec 0 i) as [<-|].
      - rewrite Z.testbit_even_0. apply andb_false_r.
      - destruct (Z.succ_pred i). rewrite Z.testbit_even_succ, andb_true_r by lia.
        by rewrite Z.div2_bits by lia. }
    pose proof (Z.div_pos x 2). rewrite (popCount_step x), (popCount_step (2 * _)) by lia.
    rewrite Z.mul_comm, Z.mod_mul, Z.div_mul, Z.bit0_mod by lia. lia.
  - intros k Hk IH x Hx.
    assert (0 <= Z.clearbit x (Z.succ k)) by (apply Z.ldiff_nonneg; lia).
    assert (Z.clearbit x (Z.succ k) / 2 = Z.clearbit (x / 2) k) as E1.
    { apply Z.bits_inj'; intros i Hi.
      rewrite Z.div2_bits, !Z.clearbit_eqb, Z.div2_bits by lia.
      by destruct (Z.eqb_spec (Z.succ k) (Z.succ i)), (Z.eqb_spec k i); try lia. }
    assert (Z.clearbit x (Z.succ k) mod 2 = x mod 2) as E2.
    { rewrite !Zmod_odd, <-!Z.bit0_odd, Z.clearbit_eqb by lia.
      destruct (Z.eqb_spec (Z.succ k) 0); [lia|]. by rewrite andb_true_r. }
    pose proof (Z.div_pos x 2).
    rewrite (popCount_step x), (popCount_step (Z.clearbit _ _)), E1, E2, (IH (x / 2)) by lia.
    rewrite Z.div2_bits by lia. lia.
Qed.

Lemma ctz64_shiftr x k :
  0 < x → 0 <= k <= ctz64 x →
  0 < Z.shiftr x k ∧ ctz64 (Z.shiftr x k) = ctz64 x - k.
Proof.
  intros Hx Hk. destruct (ctz64_spec x Hx) as (H0 & H1 & H2).
  assert (Z.testbit (Z.shiftr x k) (ctz64 x - k) = true) as Hb.
  { rewrite Z.shiftr_spec by lia. by replace (ctz64 x - k + k) with (ctz64 x) by lia. }
  assert (0 < Z.shiftr x k) as Hpos.
  { assert (0 <= Z.shiftr x k) by (apply Z.shiftr_nonneg; lia).
    destruct (decide (Z.shiftr x k = 0)) as [E|]; [|lia].
    rewrite E, Z.bits_0 in Hb. done. }
  split; [done|]. apply ctz64_unique; [done|lia|done|].
  intros i Hi. rewrite Z.shiftr_spec by lia. apply H2. lia.
Qed.

Lemma bits_low_zero val k :
  0 < val → 0 < k <= 32 → bits val (k - 1) 0 = 0 ↔ k <= ctz64 val.
Proof.
  intros Hv Hk. destruct (ctz64_spec val Hv) as (H0 & H1 & H2). split.
  - intros E. destruct (Z_le_gt_dec k (ctz64 val)); [done|exfalso].
    assert (Z.testbit (bits val (k - 1) 0) (ctz64 val) = false) as Hf
      by (rewrite E; apply Z.bits_0).
    rewrite bits_bits, Z.add_0_r, H1 in Hf by lia. case_bool_decide; [done|lia].
  - intros Hle. apply Z.bits_inj'; intros i Hi. rewrite bits_bits, Z.bits_0 by lia.
    case_bool_decide; [|done]. apply H2. lia.
Qed.

Lemma findLsbSet_stage k lsb val lsb' val' :
  0 < k <= 32 → 0 < val ∧ ctz64 val < 2 * k →
  (if bits val (k - 1) 0 =? 0 then (lsb + k, Z.shiftr val k)
   else (lsb, val)) = (lsb', val') →
  (0 < val' ∧ ctz64 val' < k) ∧ lsb' + ctz64 val' = lsb + ctz64 val.
Proof.
  intros Hk [Hv Hc]. pose proof (bits_low_zero val k Hv Hk) as Hb.
  destruct (Z.eqb_spec (bits val (k - 1) 0) 0) as [E|E]; intros [= <- <-].
  - destruct (ctz64_shiftr val k) as [? ->]; naive_solver lia.
  - naive_solver lia.
Qed.

Lemma findLsbSetFallback_ctz64 val :
  0 <= val < 2 ^ 64 → findLsbSetFallback val = ctz64 val.
Proof.
  intros Hv. unfold findLsbSetFallback. destruct (Z.eqb_spec val 0) as [->|]; [done|].
  pose proof (ctz64_lt val 64).
  search_stage findLsbSet_stage 32. search_stage findLsbSet_stage 16.
  search_stage findLsbSet_stage 8. search_stage findLsbSet_stage 4.
  search_stage findLsbSet_stage 2.
  match goal with |- (if bits ?v 0 0 =? 0 then _ else _) = _ =>
    destruct (bits_low_zero v 1) as [Hz1 Hz2]; [lia|lia|];
    destruct (ctz64_spec v) as (? & _ & _); [lia|]; simpl in Hz1, Hz2;
    destruct (Z.eqb_spec (bits v 0 0) 0); [specialize (Hz1 ltac:(done))|] end; [lia|].
  destruct (Z_le_gt_dec 1 (ctz64 z8)); [tauto|lia].
Qed.

End Bitfield.

(** ** base/intmath.hh *)

Module Intmath.
Import Bitfield.

(** [ts] is [sizeof(T)]. *)
Definition floorLog2 (ts x : Z) : Z :=
  let y := 0 in
  let ux := x in
  let '(y, ux) := if (8 <=? ts) && negb (Z.land ux 0xffffffff00000000 =? 0)
                  then (y + 32, Z.shiftr ux 32) else (y, ux) in
  let '(y, ux) := if (4 <=? ts) && negb (Z.land ux 0x00000000ffff0000 =? 0)
                  then (y + 16, Z.shiftr ux 16) else (y, ux) in
  let '(y, ux) := if (2 <=? ts) && negb (Z.land ux 0x000000000000ff00 =? 0)
                  then (y + 8, Z.shiftr ux 8) else (y, ux) in
  let '(y, ux) := if negb (Z.land ux 0x00000000000000f0 =? 0)
                  then (y + 4, Z.shiftr ux 4) else (y, ux) in
  let '(y, ux) := if negb (Z.land ux 0x000000000000000c =? 0)
                  then (y + 2, Z.shiftr ux 2) else (y, ux) in
  if negb (Z.land ux 0x0000000000000002 =? 0) then y + 1 else y.

Definition ceilLog2 (ts n : Z) : Z :=
  if n =? 1 then 0 else floorLog2 ts (n - 1) + 1.

Definition isPowerOf2 (n : Z) : bool :=
  negb (n =? 0) && (Z.land n (u64 (n - 1)) =? 0).

Definition divCeil (a b : Z) : Z := u64 (a + b - 1) / b.

Definition mulUnsignedManual (val_a val_b : Z) : Z * Z :=
  let low := u64 (val_a * val_b) in
  let A := u32 (Z.shiftr val_a 32) in
  let a := u32 val_a in
  let B := u32 (Z.shiftr val_b 32) in
  let b := u32 val_b in
  let ab := u64 (a * b) in
  let Ab := u64 (A * b) in
  let aB := u64 (a * B) in
  let AB := u64 (A * B) in
  let c1 := u32 (Z.shiftr ab 32) in
  let c2 := u64 (u64 (Z.shiftr c1 1 + Z.shiftr Ab 1) + Z.shiftr aB 1) in
  let c2 := u64 (c2 + Z.shiftr (Z.land c1 1 + Z.land Ab 1 + Z.land aB 1) 1) in
  let c2 := Z.shiftr c2 31 in
  (u64 (AB + c2), low).

Definition mulUnsigned (val_a val_b : Z) : Z * Z :=
  let val := val_a * val_b in
  (u64 (Z.shiftr val 64), u64 val).

(** Two's complement reading of a 64-bit pattern. *)
Definition s64 (x : Z) : Z := (x + 2 ^ 63) mod 2 ^ 64 - 2 ^ 63.

Definition mulSignedManual (val_a val_b : Z) : Z * Z :=
  let '(u_high, u_low) := mulUnsigned (u64 val_a) (u64 val_b) in
  let u_high := if val_a <? 0 then u64 (u_high - u64 val_b) else u_high in
  let u_high := if val_b <? 0 then u64 (u_high - u64 val_a) else u_high in
  (s64 u_high, s64 u_low).

Definition roundUp (val align : Z) : Z :=
  let mask := u64 (align - 1) in
  Z.land (u64 (val + mask)) (not64 mask).

Definition roundDown (val align : Z) : Z :=
  let mask := u64 (align - 1) in
  Z.land val (not64 mask).

Definition log2i (value : Z) : Z := ctz32 value.

(** *** Specifications *)

Lemma land_high_half x k :
  0 <= k → 0 <= x < 2 ^ (2 * k) →
  Z.land x (Z.shiftl (Z.ones k) k) = Z.shiftl (Z.shiftr x k) k.
Proof.
  intros Hk Hx. apply Z.bits_inj'; intros i Hi.
  rewrite Z.land_spec, !Z.shiftl_spec by lia.
  destruct (decide (i < k)).
  - rewrite !(Z.testbit_neg_r _ (i - k)) by lia. apply andb_false_r.
  - rewrite Z.shiftr_spec, Z.testbit_ones by lia.
    replace (i - k + k) with i by lia. destruct (Z.ltb_spec (i - k) k).
    + destruct (Z.leb_spec 0 (i - k)); [apply andb_true_r|lia].
    + rewrite (testbit_high x (2 * k)) by lia. done.
Qed.

(** A stage of [floorLog2]; [en] is the [sizeof] test of the stage. *)
Lemma floorLog2_stage k (en : bool) y ux y' ux' :
  0 < k <= 32 → 0 < ux < 2 ^ (2 * k) ∧ (en = false → ux < 2 ^ k) →
  (if en && negb (Z.land ux (Z.shiftl (Z.ones k) k) =? 0)
   then (y + k, Z.shiftr ux k) else (y, ux)) = (y', ux') →
  0 < ux' < 2 ^ k ∧ ux' <= ux ∧ y' + Z.log2 ux' = y + Z.log2 ux.
Proof.
  intros Hk [Hv Hen]. rewrite land_high_half, Z.shiftl_mul_pow2 by lia.
  rewrite Z.shiftr_div_pow2 by lia.
  assert (0 < 2 ^ k) by (apply Z.pow_pos_nonneg; lia).
  replace (2 * k) with (k + k) in Hv by lia. rewrite Z.pow_add_r in Hv by lia.
  pose proof (Z.div_pos ux (2 ^ k)).
  destruct en; simpl; [|intros [= <- <-]; naive_solver lia].
  destruct (Z.eqb_spec (ux / 2 ^ k * 2 ^ k) 0) as [E|E]; simpl; intros [= <- <-].
  - assert (ux / 2 ^ k = 0) as E0 by nia. apply Z.div_small_iff in E0; lia.
  - assert (ux / 2 ^ k < 2 ^ k) by (apply Z.div_lt_upper_bound; lia).
    split; [nia|]. split; [apply Z.div_le_upper_bound; nia|].
    rewrite <-Z.shiftr_div_pow2, Z.log2_shiftr by lia.
    assert (k <= Z.log2 ux); [|lia].
    apply Z.log2_le_pow2; [lia|]. destruct (Z_lt_le_dec ux (2 ^ k)); [|lia].
    rewrite Z.div_small in E; lia.
Qed.

Lemma floorLog2_log2 ts x :
  ts = 1 ∨ ts = 2 ∨ ts = 4 ∨ ts = 8 → 0 < x < 2 ^ (8 * ts) →
  floorLog2 ts x = Z.log2 x.
Proof.
  intros Hts Hx. unfold floorLog2.
  change 0xffffffff00000000 with (Z.shiftl (Z.ones 32) 32).
  change 0x00000000ffff0000 with (Z.shiftl (Z.ones 16) 16).
  change 0x000000000000ff00 with (Z.shiftl (Z.ones 8) 8).
  change 0x00000000000000f0 with (Z.shiftl (Z.ones 4) 4).
  change 0x000000000000000c with (Z.shiftl (Z.ones 2) 2).
  assert (x < 2 ^ 64 ∧ ((8 <=? ts) = false → x < 2 ^ 32) ∧
    ((4 <=? ts) = false → x < 2 ^ 16) ∧ ((2 <=? ts) = false → x < 2 ^ 8))
    as (Hx64 & H8 & H4 & H2).
  { destruct Hts as [->|[->|[->| ->]]]; simpl in *; split_and!; try done; lia. }
  search_stage floorLog2_stage 32. search_stage floorLog2_stage 16.
  search_stage floorLog2_stage 8.
  change (negb ?b) with (true && negb b).
  search_stage floorLog2_stage 4. search_stage floorLog2_stage 2.
  match goal with |- context [Z.land ?v 2] =>
    assert (v = 1 ∨ v = 2 ∨ v = 3) as Hc by lia;
    destruct Hc as [->|[->| ->]] end; simpl in *; lia.
Qed.

Lemma ceilLog2_log2_up ts n :
  ts = 1 ∨ ts = 2 ∨ ts = 4 ∨ ts = 8 → 0 < n < 2 ^ (8 * ts) →
  ceilLog2 ts n = Z.log2_up n.
Proof.
  intros Hts Hn. unfold ceilLog2. destruct (Z.eqb_spec n 1) as [->|]; [done|].
  rewrite floorLog2_log2, Z.log2_up_eqn, Z.sub_1_r by lia. lia.
Qed.

Lemma isPowerOf2_spec n :
  is_u64 n → isPowerOf2 n = true ↔ ∃ k, 0 <= k < 64 ∧ n = 2 ^ k.
Proof.
  intros Hn. unfold isPowerOf2. rewrite andb_true_iff, negb_true_iff, Z.eqb_neq, Z.eqb_eq.
  unfold is_u64 in Hn. split.
  - intros [Hnz Hl]. exists (Z.log2 n).
    rewrite u64_small in Hl by auto with width.
    pose proof (Z.log2_spec n ltac:(lia)) as [Hlo Hhi].
    assert (Z.log2 n < 64) by (apply Z.log2_lt_pow2; lia).
    split; [pose proof (Z.log2_nonneg n); lia|].
    destruct (decide (n = 2 ^ Z.log2 n)) as [|Hne]; [done|exfalso].
    assert (Z.log2 (n - 1) = Z.log2 n) as Hlog
      by (apply Z.log2_unique; [apply Z.log2_nonneg|]; lia).
    assert (Z.testbit (Z.land n (n - 1)) (Z.log2 n) = true) as Hb.
    { rewrite Z.land_spec, Z.bit_log2 by lia. rewrite <-Hlog, Z.bit_log2; [done|].
      pose proof (Z.log2_nonneg n).
      assert (n ≠ 1) by (intros ->; done). lia. }
    rewrite Hl, Z.bits_0 in Hb. done.
  - intros (k & Hk & ->). assert (0 < 2 ^ k) by (apply Z.pow_pos_nonneg; lia).
    split; [lia|]. rewrite u64_small by auto with width.
    rewrite Z.sub_1_r, <-Z.ones_equiv, Z.land_ones by lia. apply Z.mod_same. lia.
Qed.

(** Rounding to a power of two. *)
Lemma roundDown_spec val k :
  is_u64 val → 0 <= k < 64 → roundDown val (2 ^ k) = val - val mod 2 ^ k.
Proof.
  intros Hv Hk. unfold roundDown.
  assert (0 < 2 ^ k) by (apply Z.pow_pos_nonneg; lia).
  assert (2 ^ k < 2 ^ 64) by (apply Z.pow_lt_mono_r; lia).
  rewrite (u64_small (2 ^ k - 1)) by auto with width.
  rewrite not64_lxor by auto with width. rewrite Z.sub_1_r, <-Z.ones_equiv.
  rewrite <-(Z.land_ones val), Z.sub_nocarry_ldiff by
    (lia || (rewrite <-Z.ldiff_ldiff_l, Z.ldiff_diag, Z.ldiff_0_l; done)
     || (apply Z.bits_inj'; intros i Hi; rewrite Z.ldiff_spec, Z.land_spec, Z.bits_0;
         by destruct (Z.testbit val i); rewrite ?andb_false_r)).
  apply Z.bits_inj'; intros i Hi.
  rewrite Z.ldiff_spec, !Z.land_spec, Z.lxor_spec, !Z.testbit_ones by lia.
  destruct (Z.ltb_spec i 64).
  - destruct (Z.leb_spec 0 i); [|lia]. simpl. rewrite xorb_true_r.
    by destruct (Z.testbit val i).
  - rewrite (testbit_high val 64) by (unfold is_u64 in *; lia). done.
Qed.

Lemma roundUp_spec val k :
  0 <= val → 0 <= k < 64 → val + 2 ^ k - 1 < 2 ^ 64 →
  roundUp val (2 ^ k) = 2 ^ k * ((val + 2 ^ k - 1) / 2 ^ k).
Proof.
  intros Hv Hk Hov. assert (0 < 2 ^ k) by (apply Z.pow_pos_nonneg; lia).
  assert (roundUp val (2 ^ k) = roundDown (val + 2 ^ k - 1) (2 ^ k)) as ->.
  { unfold roundUp, roundDown. rewrite (u64_small (2 ^ k - 1)) by auto with width.
    f_equal. rewrite u64_small by auto with width. lia. }
  rewrite roundDown_spec by auto with width.
  pose proof (Z.div_mod (val + 2 ^ k - 1) (2 ^ k)). lia.
Qed.

(** *** Wide multiplication *)

Lemma land_1_mod x : Z.land x 1 = x mod 2.
Proof. change 1 with (Z.ones 1). by rewrite Z.land_ones by lia. Qed.

(** The carry between the two place values, computed by halving each term
    first so that the sum cannot overflow. *)
Lemma carry_by_halves x y z :
  0 <= x → 0 <= y → 0 <= z →
  (x / 2 + y / 2 + z / 2 + (x mod 2 + y mod 2 + z mod 2) / 2) / 2 ^ 31 =
  (x + y + z) / 2 ^ 32.
Proof.
  intros. change (2 ^ 32) with (2 * 2 ^ 31). rewrite <-Z.div_div by lia. f_equal. zlia.
Qed.

Lemma mul_split p A B a b :
  0 < p → 0 <= a < p → 0 <= b < p →
  (p * A + a) * (p * B + b) / (p * p) = A * B + (a * b / p + A * b + a * B) / p.
Proof.
  intros Hp Ha Hb. rewrite <-Z.div_div by lia.
  assert ((p * A + a) * (p * B + b) = (A * B * p + (A * b + a * B)) * p + a * b) as -> by ring.
  rewrite Z.div_add_l by lia.
  assert (A * B * p + (A * b + a * B) + a * b / p = A * B * p + (a * b / p + A * b + a * B)) as -> by lia.
  by rewrite Z.div_add_l by lia.
Qed.

Lemma half_products_range A a B b :
  0 <= A < 2 ^ 32 → 0 <= a < 2 ^ 32 → 0 <= B < 2 ^ 32 → 0 <= b < 2 ^ 32 →
  is_u64 (a * b) ∧ is_u64 (A * B) ∧
  0 <= A * b <= 2 ^ 64 - 2 ^ 33 + 1 ∧ 0 <= a * B <= 2 ^ 64 - 2 ^ 33 + 1.
Proof. unfold is_u64. intros. split_and!; nia. Qed.

Lemma mulUnsignedManual_mulUnsigned val_a val_b :
  is_u64 val_a → is_u64 val_b →
  mulUnsignedManual val_a val_b = mulUnsigned val_a val_b.
Proof.
  unfold is_u64. intros Ha Hb. unfold mulUnsignedManual, mulUnsigned, u32.
  rewrite !land_1_mod, !Z.shiftr_div_pow2 by lia.
  rewrite (Z.mod_small (val_a / 2 ^ 32)), (Z.mod_small (val_b / 2 ^ 32)) by zlia.
  pose proof (Z.div_mod val_a (2 ^ 32) ltac:(lia)) as Ea.
  pose proof (Z.div_mod val_b (2 ^ 32) ltac:(lia)) as Eb.
  pose proof (Z.mod_pos_bound val_a (2 ^ 32) ltac:(lia)).
  pose proof (Z.mod_pos_bound val_b (2 ^ 32) ltac:(lia)).
  assert (0 <= val_a / 2 ^ 32 < 2 ^ 32 ∧ 0 <= val_b / 2 ^ 32 < 2 ^ 32) as [? ?] by zlia.
  set (A := val_a / 2 ^ 32) in *. set (B := val_b / 2 ^ 32) in *.
  set (a := val_a mod 2 ^ 32) in *. set (b := val_b mod 2 ^ 32) in *.
  destruct (half_products_range A a B b) as (Hab & HAB & HAb & HaB); [done..|].
  rewrite (u64_small (a * b)), (u64_small (A * b)), (u64_small (a * B)),
    (u64_small (A * B)) by (done || (unfold is_u64 in *; lia)).
  unfold is_u64 in Hab. rewrite (Z.mod_small (a * b / 2 ^ 32)) by zlia.
  assert (0 <= a * b / 2 ^ 32 < 2 ^ 32) by zlia.
  f_equal. f_equal. change (2 ^ 64) with (2 ^ 32 * 2 ^ 32) at 1.
  rewrite Ea, Eb, mul_split by done. f_equal.
  change (2 ^ 1) with 2.
  rewrite (u64_small (a * b / 2 ^ 32 / 2 + _)) by (unfold is_u64; zlia).
  rewrite (u64_small (a * b / 2 ^ 32 / 2 + _ + _)) by (unfold is_u64; zlia).
  rewrite u64_small by (unfold is_u64; zlia).
  apply carry_by_halves; lia.
Qed.

Lemma s64_unique x y k : x = y + k * 2 ^ 64 → - 2 ^ 63 <= y < 2 ^ 63 → s64 x = y.
Proof.
  intros -> Hy. unfold s64.
  replace (y + k * 2 ^ 64 + 2 ^ 63) with (y + 2 ^ 63 + k * 2 ^ 64) by lia.
  rewrite Z.mod_add, Z.mod_small by lia. lia.
Qed.

Lemma s64_u64 x : s64 (u64 x) = s64 x.
Proof. unfold s64, u64. rewrite Zplus_mod_idemp_l. done. Qed.

Lemma u64_sub_l x y : u64 (u64 x - y) = u64 (x - y).
Proof. unfold u64. apply Zminus_mod_idemp_l. Qed.

Lemma s64_sub_l x y z : s64 (u64 x - y - z) = s64 (x - y - z).
Proof.
  rewrite <-(s64_u64 (u64 x - y - z)), <-(u64_sub_l (u64 x - y)), (u64_sub_l x).
  by rewrite u64_sub_l, s64_u64.
Qed.

Lemma u64_neg x : - 2 ^ 63 <= x < 2 ^ 63 → u64 x = x + (if x <? 0 then 2 ^ 64 else 0).
Proof.
  intros Hx. unfold u64. destruct (Z.ltb_spec x 0).
  - rewrite <-(Z.mod_add _ 1), Z.mod_small by lia. lia.
  - rewrite Z.mod_small by lia. lia.
Qed.

(** The signed product: the two result words put together are [a * b]. *)
Lemma mulSignedManual_spec val_a val_b :
  - 2 ^ 63 <= val_a < 2 ^ 63 → - 2 ^ 63 <= val_b < 2 ^ 63 →
  let '(high, low) := mulSignedManual val_a val_b in
  high * 2 ^ 64 + u64 low = val_a * val_b.
Proof.
  intros Ha Hb. unfold mulSignedManual, mulUnsigned. rewrite Z.shiftr_div_pow2 by lia.
  set (p := val_a * val_b).
  assert (- 2 ^ 126 <= p <= 2 ^ 126) as Hp by nia.
  assert (u64 val_a * u64 val_b = p + (val_a * (if val_b <? 0 then 1 else 0) +
    val_b * (if val_a <? 0 then 1 else 0) +
    (if val_a <? 0 then if val_b <? 0 then 2 ^ 64 else 0 else 0)) * 2 ^ 64) as Euv.
  { rewrite !u64_neg by done. unfold p.
    destruct (val_a <? 0), (val_b <? 0); ring. }
  rewrite Euv, Z.div_add by lia.
  assert (- 2 ^ 63 <= p / 2 ^ 64 < 2 ^ 63) as Hdiv by zlia.
  rewrite s64_u64.
  assert (u64 (s64 (p + _ * 2 ^ 64)) = p mod 2 ^ 64) as ->.
  { unfold u64, s64. rewrite Zminus_mod_idemp_l.
    match goal with |- (?x + 2 ^ 63 - 2 ^ 63) mod _ = _ =>
      replace (x + 2 ^ 63 - 2 ^ 63) with x by lia end.
    by rewrite Z.mod_add by lia. }
  assert (∀ h, s64 h = p / 2 ^ 64 → s64 h * 2 ^ 64 + p mod 2 ^ 64 = p) as Hfin.
  { intros h ->. pose proof (Z.div_mod p (2 ^ 64)). lia. }
  apply Hfin. rewrite !(u64_neg val_a), !(u64_neg val_b) by done.
  destruct (val_a <? 0), (val_b <? 0); rewrite ?u64_sub_l, ?s64_u64, ?s64_sub_l;
    [eapply (s64_unique _ _ (-1)); lia|eapply (s64_unique _ _ 0); lia..].
Qed.

End Intmath.
