(* ===== verification/ChunkGen.v ===== *)
(** [ChunkGenerator] of [src/gem5_sim/src/base/chunk_generator.hh]: splits a
    memory region into chunks aligned to a power of two.  Every DMA request
    ([DmaPort]) and every functional port proxy access is cut by it. *)

From S2P Require Import Prelude Bits.
Import Bitfield Intmath.

Module ChunkGenerator.

Record t := mk {
  curAddr : Z;
  nextAddr : Z;
  curSize : Z;
  nextSize : Z;
  sizeLeft : Z;
  startAddr : Z;
  chunkSize : Z;
}.

#[global] Instance t_eq_dec : EqDecision t.
Proof. solve_decision. Defined.

(** The constructor. *)
Definition create (startAddr totalSize chunkSize : Z) : res t :=
  assert! ((chunkSize =? 0) || isPowerOf2 chunkSize);
  let curAddr := startAddr in
  let nextAddr :=
    if chunkSize =? 0 then u64 (startAddr + totalSize)
    else
      let nextAddr := roundUp startAddr chunkSize in
      let nextAddr := if curAddr =? nextAddr then u64 (nextAddr + chunkSize)
                      else nextAddr in
      Z.min nextAddr (u64 (startAddr + totalSize)) in
  let curSize := u64 (nextAddr - curAddr) in
  let sizeLeft := u64 (totalSize - curSize) in
  let nextSize := Z.min sizeLeft chunkSize in
  Ok (mk curAddr nextAddr curSize nextSize sizeLeft startAddr chunkSize).

Definition addr (g : t) : Z := curAddr g.

Definition size (g : t) : Z := curSize g.

Definition complete (g : t) : Z := u64 (curAddr g - startAddr g).

Definition done (g : t) : bool := curSize g =? 0.

Definition last (g : t) : bool := sizeLeft g =? 0.

Definition setNext (next : Z) (g : t) : res t :=
  assert! (nextAddr g <=? next);
  let skipping := Z.min (u64 (next - nextAddr g)) (sizeLeft g) in
  let sizeLeft' := u64 (sizeLeft g - skipping) in
  let curSize' := u64 (curSize g + skipping) in
  assert! (negb (chunkSize g =? 0));
  let nextSize' := u64 (roundUp next (chunkSize g) - next) in
  let nextSize' := if nextSize' =? 0 then Z.min sizeLeft' (chunkSize g)
                   else nextSize' in
  Ok (mk (curAddr g) next curSize' nextSize' sizeLeft' (startAddr g) (chunkSize g)).

(** [next()]: the flag is the C++ return value. *)
Definition next (g : t) : t * bool :=
  if last g then
    (mk (curAddr g) (nextAddr g) 0 (nextSize g) (sizeLeft g)
        (startAddr g) (chunkSize g), false)
  else
    let curAddr' := nextAddr g in
    let curSize' := nextSize g in
    let sizeLeft' := u64 (sizeLeft g - curSize') in
    let nextAddr' := u64 (nextAddr g + curSize') in
    let nextSize' := Z.min sizeLeft' (chunkSize g) in
    (mk curAddr' nextAddr' curSize' nextSize' sizeLeft' (startAddr g) (chunkSize g), true).

(** The documented loop
    [for (ChunkGenerator gen(..); !gen.done(); gen.next()) use(gen.addr(), gen.size())]
    as the list of chunks it visits; [None] when [fuel] is exhausted. *)
Fixpoint run (fuel : nat) (g : t) : option (list (Z * Z)) :=
  if done g then Some [] else
  match fuel with
  | O => None
  | S fuel => l ← run fuel (fst (next g)); Some ((addr g, size g) :: l)
  end.

(** ** Abstract specification: tilings of a region *)

(** [tiles a n l]: the chunks [l] are non-empty and follow one another from
    [a], covering exactly [n] bytes. *)
Inductive tiles : Z → Z → list (Z * Z) → Prop :=
  | tiles_nil a : tiles a 0 []
  | tiles_cons a n s l : 0 < s → tiles (a + s) (n - s) l → tiles a n ((a, s) :: l).

(** A chunk that stays inside one aligned block of [c] bytes. *)
Definition in_block (c : Z) (p : Z * Z) : Prop :=
  fst p / c = (fst p + snd p - 1) / c.

Lemma in_block_size b a n : 0 < b → 0 < n → in_block b (a, n) → n <= b.
Proof.
  unfold in_block. simpl. intros Hb Hn Heq.
  pose proof (Z.div_mod a b ltac:(lia)). pose proof (Z.mod_pos_bound a b Hb).
  pose proof (Z.div_mod (a + n - 1) b ltac:(lia)). pose proof (Z.mod_pos_bound (a + n - 1) b Hb).
  rewrite <-Heq in *. lia.
Qed.

(** ** Invariant *)

(** The state of a generator for a region ending at [fin], cut in blocks of
    [2^k] bytes. *)
Record wf (k fin : Z) (g : t) : Prop := {
  wf_chunk : chunkSize g = 2 ^ k;
  wf_next : nextAddr g = curAddr g + curSize g;
  wf_fin : nextAddr g + sizeLeft g = fin;
  wf_order : 0 <= startAddr g <= curAddr g;
  wf_sizes : 0 <= curSize g ∧ 0 <= sizeLeft g;
  wf_nextSize : nextSize g = Z.min (sizeLeft g) (2 ^ k);
  wf_block : 0 < curSize g → in_block (2 ^ k) (curAddr g, curSize g);
  wf_aligned : 0 < sizeLeft g → 0 < curSize g ∧ nextAddr g mod 2 ^ k = 0;
}.

Section Proofs.
Context (k : Z) (Hk : 0 <= k < 64).

Lemma pow_pos : 0 < 2 ^ k.
Proof. apply Z.pow_pos_nonneg; lia. Qed.

Lemma aligned_in_block a s : a mod 2 ^ k = 0 → 0 < s <= 2 ^ k → in_block (2 ^ k) (a, s).
Proof using Hk.
  pose proof pow_pos. intros Ha Hs. unfold in_block; simpl.
  apply Z.div_exact in Ha; [|lia]. set (q := a / 2 ^ k) in *.
  replace (a + s - 1) with (q * 2 ^ k + (s - 1)) by lia.
  rewrite Z.div_add_l, (Z.div_small (s - 1)) by lia. lia.
Qed.

(** The first chunk ends at the next block boundary, or at the end of the
    region. *)
Lemma create_wf start total g :
  0 <= start → 0 <= total → start + total < 2 ^ 64 - 2 ^ k →
  create start total (2 ^ k) = Ok g →
  wf k (start + total) g ∧ startAddr g = start ∧ curAddr g = start ∧
  (done g = true ↔ total = 0).
Proof using Hk.
  pose proof pow_pos as Hp. intros H0 Ht Hov.
  assert (2 ^ k < 2 ^ 64) by (apply Z.pow_lt_mono_r; lia).
  unfold create. destruct (Z.eqb_spec (2 ^ k) 0) as [|_]; [lia|].
  destruct (isPowerOf2 (2 ^ k)); simpl; [|done]. intros [= <-].
  pose proof (Z.div_mod start (2 ^ k) ltac:(lia)) as Ed.
  pose proof (Z.mod_pos_bound start (2 ^ k) Hp) as Hm.
  set (q := start / 2 ^ k) in *. set (r := start mod 2 ^ k) in *.
  assert (roundUp start (2 ^ k) = if decide (r = 0) then start else 2 ^ k * (q + 1)) as Eru.
  { rewrite roundUp_spec by lia. case_decide as Hr.
    - replace (start + 2 ^ k - 1) with (q * 2 ^ k + (2 ^ k - 1)) by lia.
      rewrite Z.div_add_l, Z.div_small by lia. lia.
    - replace (start + 2 ^ k - 1) with ((q + 1) * 2 ^ k + (r - 1)) by lia.
      rewrite Z.div_add_l, Z.div_small by lia. lia. }
  assert (0 <= q) by (apply Z.div_pos; lia).
  assert ((if start =? roundUp start (2 ^ k) then u64 (roundUp start (2 ^ k) + 2 ^ k)
           else roundUp start (2 ^ k)) = 2 ^ k * (q + 1)) as ->.
  { rewrite Eru. case_decide.
    - rewrite Z.eqb_refl, u64_small by auto with width. lia.
    - destruct (Z.eqb_spec start (2 ^ k * (q + 1))); lia. }
  rewrite (u64_small (start + total)) by auto with width.
  set (nx := Z.min (2 ^ k * (q + 1)) (start + total)).
  assert (start <= nx <= start + total) by lia.
  rewrite (u64_small (nx - start)) by auto with width.
  rewrite u64_small by auto with width.
  split; [split; simpl; try lia|].
  - intros Hs. unfold in_block; simpl.
    replace (start + (nx - start) - 1) with (q * 2 ^ k + (nx - 1 - q * 2 ^ k)) by lia.
    rewrite Z.div_add_l, (Z.div_small (nx - 1 - _)) by lia. unfold q. lia.
  - intros Hs. split; [lia|]. replace nx with ((q + 1) * 2 ^ k) by lia.
    apply Z.mod_mul. lia.
  - simpl. split_and!; try done. unfold done; simpl. rewrite Z.eqb_eq. lia.
Qed.

Lemma next_wf fin g :
  fin < 2 ^ 64 → wf k fin g → sizeLeft g ≠ 0 →
  wf k fin (next g).1 ∧ startAddr (next g).1 = startAddr g ∧ (next g).2 = true ∧
  curAddr (next g).1 = curAddr g + curSize g ∧ 0 < curSize (next g).1.
Proof using Hk.
  pose proof pow_pos as Hp. intros Hf [H1 H2 H3 H4 H5 H6 H7 H8] HsL.
  unfold next, last. destruct (Z.eqb_spec (sizeLeft g) 0) as [E|E]; [lia|].
  destruct H8 as [Hc Ha]; [lia|]. simpl.
  rewrite !u64_small by auto with width.
  split_and!; try lia. split; simpl; try lia.
  - intros _. apply aligned_in_block; lia.
  - intros Hs. split; [lia|]. replace (nextSize g) with (2 ^ k) by lia.
    rewrite <-Z.add_mod_idemp_r, Z.mod_same, Z.add_0_r by lia. lia.
Qed.

Lemma next_last g : sizeLeft g = 0 → done (next g).1 = true.
Proof. unfold next, last. by intros ->. Qed.

(** The loop terminates and its chunks tile the rest of the region. *)
Lemma run_wf fin fuel g :
  fin < 2 ^ 64 → wf k fin g → 0 < curSize g →
  (Z.to_nat (fin - curAddr g) <= fuel)%nat →
  ∃ l, run fuel g = Some l ∧ tiles (curAddr g) (fin - curAddr g) l ∧
       Forall (in_block (2 ^ k)) l ∧ Forall (λ p, p.2 <= 2 ^ k) l.
Proof using Hk.
  intros Hf. revert g. induction fuel as [|fuel IH]; intros g Hwf Hc Hfuel.
  { destruct Hwf. lia. }
  pose proof (wf_block _ _ _ Hwf Hc) as Hb.
  assert (curSize g <= 2 ^ k) as Hsz.
  { pose proof pow_pos. unfold in_block in Hb; simpl in Hb. destruct Hwf.
    pose proof (Z.div_mod (curAddr g) (2 ^ k)). pose proof (Z.div_mod (curAddr g + curSize g - 1) (2 ^ k)).
    pose proof (Z.mod_pos_bound (curAddr g) (2 ^ k)).
    pose proof (Z.mod_pos_bound (curAddr g + curSize g - 1) (2 ^ k)). nia. }
  simpl. unfold done at 1. destruct (Z.eqb_spec (curSize g) 0); [lia|].
  destruct (decide (sizeLeft g = 0)) as [E|E].
  - assert (run fuel (next g).1 = Some []) as ->.
    { destruct fuel; simpl; by rewrite next_last. }
    eexists; split; [done|]. split_and!; [|by repeat constructor..].
    constructor; [done|]. destruct Hwf. unfold size, addr in *.
    replace (fin - curAddr g - curSize g) with 0 by lia. constructor.
  - destruct (next_wf fin g Hf Hwf E) as (Hwf' & _ & _ & Hcur & Hc').
    destruct (IH _ Hwf' Hc') as (l & -> & Ht & Hl & Hm).
    { rewrite Hcur. destruct Hwf. lia. }
    eexists; split; [done|]. split_and!; [|by constructor..].
    rewrite Hcur in Ht. unfold addr, size. constructor; [done|].
    by replace (fin - curAddr g - curSize g) with (fin - (curAddr g + curSize g)) by lia.
Qed.

End Proofs.

(** ** Facts about tilings *)

Lemma tiles_total a n l : tiles a n l → n = foldr (λ p acc, p.2 + acc) 0 l.
Proof. induction 1; simpl; lia. Qed.

Lemma tiles_cons_inv a n p l :
  tiles a n (p :: l) → p.1 = a ∧ 0 < p.2 ∧ tiles (a + p.2) (n - p.2) l.
Proof. inversion 1; subst. done. Qed.

Lemma tiles_nonneg a n l : tiles a n l → 0 <= n.
Proof. induction 1; lia. Qed.

Lemma tiles_app a n1 n2 l1 l2 :
  tiles a n1 l1 → tiles (a + n1) n2 l2 → tiles a (n1 + n2) (l1 ++ l2).
Proof.
  induction 1 as [|a n s l Hs _ IH]; intros H2; simpl.
  - by rewrite Z.add_0_r in H2.
  - constructor; [done|]. replace (n + n2 - s) with (n - s + n2) by lia. apply IH.
    by replace (a + s + (n - s)) with (a + n) by lia.
Qed.

(** Each address of the region is in exactly one chunk. *)
Lemma tiles_unique a n l x :
  tiles a n l → a <= x < a + n →
  exists! p, p ∈ l ∧ p.1 <= x < p.1 + p.2.
Proof.
  induction 1 as [|a n s l Hs Ht IH]; [lia|]. intros Hx.
  assert (∀ p, p ∈ l → a + s <= p.1) as Hge.
  { clear -Ht Hs. remember (a + s) as b. clear Heqb. induction Ht as [|b m t l Ht' _ IH].
    - intros p Hp. by apply not_elem_of_nil in Hp.
    - intros p [->|Hp]%elem_of_cons; simpl; [lia|]. specialize (IH p Hp). lia. }
  destruct (Z_lt_le_dec x (a + s)).
  - exists (a, s). split; [split; [left|simpl; lia]|].
    intros p [[->|Hp]%elem_of_cons Hpx]; [done|]. specialize (Hge p Hp). lia.
  - destruct IH as (p & [Hp Hpx] & Hu); [lia|]. exists p. split; [split; [by right|done]|].
    intros p' [[->|Hp']%elem_of_cons Hpx']; [simpl in *; lia|]. by apply Hu.
Qed.

(** The generator loop on a region below the topmost block of the address
    space cuts it into chunks. *)
Lemma create_run_tiles start total k g :
  0 <= k < 64 → 0 <= start → 0 <= total → start + total < 2 ^ 64 - 2 ^ k →
  create start total (2 ^ k) = Ok g →
  ∃ l, run (Z.to_nat total) g = Some l ∧ tiles start total l ∧
       Forall (in_block (2 ^ k)) l ∧ Forall (λ p, p.2 <= 2 ^ k) l.
Proof.
  intros Hk Hs Ht Hov Hg. pose proof (pow_pos k Hk).
  destruct (create_wf k Hk start total g) as (Hwf & _ & Hcur & Hd); [done..|].
  destruct (decide (total = 0)) as [->|].
  - exists []. simpl. destruct Hd as [_ ->]; [|done]. split_and!; [done| |done..]. constructor.
  - assert (0 < curSize g).
    { destruct (done g) eqn:E; [naive_solver lia|]. unfold done in E.
      destruct Hwf. apply Z.eqb_neq in E. lia. }
    destruct (run_wf k Hk (start + total) (Z.to_nat total) g) as (l & ? & Hl & ?);
      [lia|done|done|lia|].
    exists l. rewrite Hcur in Hl. replace (start + total - start) with total in Hl by lia.
    naive_solver.
Qed.

Lemma create_Ok start total k : 0 <= k < 64 → ∃ g, create start total (2 ^ k) = Ok g.
Proof.
  intros Hk. pose proof (pow_pos k Hk). unfold create.
  destruct (Z.eqb_spec (2 ^ k) 0); [lia|]. cbn [negb orb].
  assert (2 ^ k < 2 ^ 64) by (apply Z.pow_lt_mono_r; lia).
  rewrite (proj2 (isPowerOf2_spec (2 ^ k) ltac:(auto with width))) by by exists k.
  eexists. reflexivity.
Qed.

(** C36: for a region below the topmost block of the address space and a
    power-of-two chunk size, the generator loop terminates; its chunks are
    non-empty, contiguous, cover exactly the region, every address of the
    region is in exactly one of them, and none crosses a block boundary. *)
Theorem chunk_loop_tiles start total k :
  0 <= k < 64 → 0 <= start → 0 <= total → start + total < 2 ^ 64 - 2 ^ k →
  ∃ g l, create start total (2 ^ k) = Ok g ∧ run (Z.to_nat total) g = Some l ∧
    tiles start total l ∧ Forall (in_block (2 ^ k)) l ∧ Forall (λ p, p.2 <= 2 ^ k) l ∧
    ∀ x, start <= x < start + total →
      exists! p, p ∈ l ∧ p.1 <= x < p.1 + p.2.
Proof.
  intros Hk Hs Ht Hov. destruct (create_Ok start total k Hk) as [g Hg].
  destruct (create_run_tiles start total k g) as (l & Hr & Htl & Hb & Hm); [done..|].
  exists g, l. split_and!; try done. intros x Hx. by eapply tiles_unique.
Qed.

Lemma chunk_loop_tiles_witness :
  ∃ g, create 100 200 (2 ^ 6) = Ok g ∧
    run 200 g = Some [(100, 28); (128, 64); (192, 64); (256, 44)].
Proof.
  destruct (chunk_loop_tiles 100 200 6) as (g & l & Hg & Hr & _); [lia..|].
  exists g. split; [exact Hg|]. vm_compute in Hg. injection Hg as <-. reflexivity.
Defined.

(** ** Skipping ahead *)

Lemma run_S n g l :
  done g = false → run n (next g).1 = Some l → run (S n) g = Some ((addr g, size g) :: l).
Proof. simpl. by intros -> ->. Qed.

(** [setNext] to an aligned address of the region merges the bytes skipped
    into the current chunk; the loop then terminates and the chunks still tile
    the rest of the region. *)
Theorem setNext_tiles k fin nxt g :
  0 <= k < 64 → wf k fin g → 0 < curSize g → nextAddr g <= nxt < fin → fin < 2 ^ 64 - 2 ^ k →
  nxt mod 2 ^ k = 0 →
  ∃ g' l, setNext nxt g = Ok g' ∧ run (S (Z.to_nat (fin - nxt))) g' = Some l ∧
    tiles (curAddr g) (fin - curAddr g) l ∧ head l = Some (curAddr g, nxt - curAddr g) ∧
    Forall (in_block (2 ^ k)) (tail l).
Proof.
  intros Hk [H1 H2 H3 H4 H5 H6 H7 H8] Hc Hn Hf Hal. pose proof (pow_pos k Hk) as Hp.
  assert (roundUp nxt (2 ^ k) = nxt) as Hr.
  { rewrite roundUp_spec by lia. pose proof (Z.div_mod nxt (2 ^ k)).
    replace ((nxt + 2 ^ k - 1) / 2 ^ k) with (nxt / 2 ^ k); [lia|].
    apply (Z.div_unique _ _ _ (2 ^ k - 1)); lia. }
  unfold setNext. rewrite H1, Hr. destruct (Z.leb_spec (nextAddr g) nxt); [|lia].
  destruct (Z.eqb_spec (2 ^ k) 0); [lia|]. cbn -[u64 Z.pow Z.sub Z.add].
  rewrite !(u64_small (nxt - nextAddr g)), (u64_small (nxt - nxt)) by auto with width.
  rewrite (Z.min_l (nxt - nextAddr g)) by lia. rewrite !u64_small by auto with width.
  replace (nxt - nxt =? 0) with true by lia.
  eexists. set (g' := mk _ _ _ _ _ _ _).
  assert (wf k fin (next g').1 ∧ 0 < curSize (next g').1 ∧ curAddr (next g').1 = nxt) as (Hwf & Hc' & Ha').
  { unfold next, last, g'. simpl. destruct (Z.eqb_spec (sizeLeft g - (nxt - nextAddr g)) 0); [lia|].
    simpl. rewrite !u64_small by auto with width.
    split; [split; simpl; try lia|split; lia].
    - intros _. apply aligned_in_block; lia.
    - intros Hs. split; [lia|].
      replace (Z.min _ _) with (2 ^ k) by lia.
      rewrite <-Z.add_mod_idemp_r, Z.mod_same, Z.add_0_r by lia. done. }
  destruct (run_wf k Hk fin (Z.to_nat (fin - nxt)) _ ltac:(lia) Hwf Hc') as (l & Hl & Ht & Hb & _);
    [lia|].
  exists ((curAddr g, nxt - curAddr g) :: l). split; [done|]. split; [|split_and!; try done].
  - etransitivity; [apply (run_S _ g' l); [unfold done, g'; simpl; lia|done]|]. unfold addr, size, g'. simpl. do 2 f_equal. f_equal. lia.
  - constructor; [lia|]. rewrite Ha' in Ht.
    replace (curAddr g + (nxt - curAddr g)) with nxt by lia.
    by replace (fin - curAddr g - (nxt - curAddr g)) with (fin - nxt) by lia.
Qed.

Lemma setNext_tiles_witness :
  ∃ g g', create 0 300 64 = Ok g ∧ setNext 128 g = Ok g' ∧
    run 173 g' = Some [(0, 128); (128, 64); (192, 64); (256, 44)].
Proof.
  destruct (create_Ok 0 300 6) as [g Hg]; [lia|]. change (2 ^ 6) with 64 in Hg.
  destruct (create_wf 6 ltac:(lia) 0 300 g) as (Hwf & _); [lia..|exact Hg|].
  vm_compute in Hg. injection Hg as <-.
  change (0 + 300) with 300 in Hwf.
  destruct (setNext_tiles 6 300 128 _ ltac:(lia) Hwf) as (g' & l & Hs & _);
    [cbn; lia|cbn; lia|lia|reflexivity|].
  eexists. exists g'. split; [vm_compute; reflexivity|]. split; [exact Hs|].
  vm_compute in Hs. injection Hs as <-. vm_compute. reflexivity.
Defined.

(** [setNext] does not bound the next chunk by the bytes left: from an address
    that is not aligned, the last chunk runs past the end of the region and the
    number of bytes left wraps around. *)
Lemma setNext_unaligned_overrun :
  (g ← create 0 70 64; g' ← setNext 65 g;
   let g2 := (next g').1 in Ok (curAddr g2, curSize g2, sizeLeft g2)) =
  Ok (65, 63, 2 ^ 64 - 58).
Proof. vm_compute. reflexivity. Qed.

(** In the topmost block of the address space the rounded-up address wraps
    around to 0, and the first chunk ends there instead of at the region's end. *)
Lemma create_top_block :
  (g ← create (2 ^ 64 - 32) 16 64; Ok (curSize g, sizeLeft g)) = Ok (32, 2 ^ 64 - 16).
Proof. vm_compute. reflexivity. Qed.

End ChunkGenerator.
