(* ===== verification/AddrRange.v ===== *)
(** [AddrRange] of [src/gem5_sim/src/base/addr_range.hh]: contiguous and
    interleaved physical address ranges.  Crossbars route by them and memories
    turn an address into an offset of their backing store with them. *)

From stdpp Require Import sorting.
From S2P Require Import Prelude Bits.
Import Bitfield Intmath.

Module AddrRange.

Record t := mk {
  _start : Z;
  _end : Z;
  masks : list Z;
  intlvMatch : Z;
}.

#[global] Instance t_eq_dec : EqDecision t.
Proof. solve_decision. Defined.

Definition MaxAddr : Z := 2 ^ 64 - 1.

(** The default constructor: an invalid range. *)
Definition invalid : t := mk 1 0 [] 0.

(** [AddrRange(start, end)]. *)
Definition plain (start end_ : Z) : t := mk start end_ [] 0.

(** [1ULL << n], undefined for a shift count of 64 or more. *)
Definition shl1 (n : Z) : res Z :=
  defined! (n <? 64);
  Ok (Z.shiftl 1 n).

(** [AddrRange(start, end, masks, match)]. *)
Definition with_masks (start end_ : Z) (ms : list Z) (intlv_match : Z) : res t :=
  bad ← (if bool_decide (ms = []) then Ok false
         else lim ← shl1 (Z.of_nat (length ms)); Ok (lim <=? intlv_match));
  fatal_unless! (negb bad);
  Ok (mk start end_ ms intlv_match).

(** Iteration [i] of the loop of the legacy constructor. *)
Definition legacy_mask (intlv_high_bit xor_high_bit i : Z) : res Z :=
  let bit1 := u8 (intlv_high_bit - i) in
  mask ← shl1 bit1;
  if xor_high_bit =? 0 then Ok mask
  else
    let bit2 := u8 (xor_high_bit - i) in
    m2 ← shl1 bit2;
    Ok (Z.lor mask m2).

(** The legacy constructor.  Iteration [i] writes [masks[intlv_bits - i - 1]]. *)
Definition legacy (start end_ intlv_high_bit xor_high_bit intlv_bits intlv_match : Z)
    : res t :=
  bad ← (if intlv_bits =? 0 then Ok false
         else lim ← shl1 intlv_bits; Ok (lim <=? intlv_match));
  fatal_unless! (negb bad);
  fatal_unless!
        (if negb (intlv_bits =? 0) && negb (xor_high_bit =? 0) then
           if xor_high_bit =? intlv_high_bit then false
           else if intlv_high_bit <? xor_high_bit then
             negb (xor_high_bit - intlv_high_bit <? intlv_bits)
           else negb (intlv_high_bit - xor_high_bit <? intlv_bits)
         else true);
  ms ← mapM (λ j, legacy_mask intlv_high_bit xor_high_bit (intlv_bits - 1 - Z.of_nat j))
         (seq 0 (Z.to_nat intlv_bits));
  Ok (mk start end_ ms intlv_match).

Definition interleaved (r : t) : bool := negb (bool_decide (masks r = [])).

Definition nmasks (r : t) : Z := Z.of_nat (length (masks r)).

Definition size (r : t) : Z := Z.shiftr (u64 (_end r - _start r)) (nmasks r).

Definition stripes (r : t) : Z := u32 (Z.shiftl 1 (nmasks r)).

(** Two's complement reading of the low 32 bits, the C++ conversion to [int]. *)
Definition s32 (x : Z) : Z := (x + 2 ^ 31) mod 2 ^ 32 - 2 ^ 31.

(** [combined_mask] is declared [auto combined_mask = 0], an [int]. *)
Definition granularity (r : t) : res Z :=
  if interleaved r then
    let combined_mask := foldl (λ c m, s32 (Z.lor (u64 c) m)) 0 (masks r) in
    let lowest_bit := u8 (ctz64 (u64 combined_mask)) in
    shl1 lowest_bit
  else Ok (size r).

Definition valid (r : t) : bool := _start r <=? _end r.

Definition mergesWith (r r' : t) : bool :=
  (_start r' =? _start r) && (_end r' =? _end r) && bool_decide (masks r' = masks r).

(** The selector of an address: bit [i] is the parity of [a & masks[i]]. *)
Fixpoint sel_from (i : Z) (ms : list Z) (a : Z) : Z :=
  match ms with
  | [] => 0
  | m :: ms => Z.lor (Z.shiftl (popCount (Z.land a m) mod 2) i) (sel_from (i + 1) ms a)
  end.

Definition sel (r : t) (a : Z) : Z := sel_from 0 (masks r) a.

Definition contains (r : t) (a : Z) : bool :=
  let in_range := (_start r <=? a) && (a <? _end r) in
  if in_range then sel r a =? intlvMatch r else false.

Definition intersects (r r' : t) : res bool :=
  if (_end r' <=? _start r) || (_end r <=? _start r') then Ok false
  else if negb (interleaved r) && negb (interleaved r') then Ok true
  else if size r' =? 1 then Ok (contains r (_start r'))
  else if mergesWith r r' then Ok (intlvMatch r =? intlvMatch r')
  else Fail PanicFailure.

Definition isSubset (r r' : t) : res bool :=
  panic_unless! (negb (interleaved r));
  if interleaved r' then
    if contains r' (_start r) && contains r' (u64 (_end r - 1)) then
      g ← granularity r';
      Ok (size r <=? g)
    else Ok false
  else if _end r <=? _start r then
    Ok ((_start r' <=? _start r) && (_end r' =? 0))
  else if _end r' <=? _start r' then Ok (_start r' <=? _start r)
  else Ok ((_start r' <=? _start r) && (_end r <=? _end r')).

(** The sorted least significant bits of the masks. *)
Definition sorted_lsbs (r : t) : list Z := merge_sort Z.le (ctz64 <$> masks r).

Fixpoint remove_loop (i : Z) (lsbs : list Z) (a : Z) : Z :=
  match lsbs with
  | [] => a
  | intlv_bit :: lsbs =>
      let a' := if 0 <? intlv_bit
                then insertBits (Z.shiftr a 1) (u32 (intlv_bit - i - 1)) 0 a
                else Z.shiftr a 1 in
      remove_loop (i + 1) lsbs a'
  end.

Definition removeIntlvBits (r : t) (a : Z) : Z :=
  if interleaved r then remove_loop 0 (sorted_lsbs r) a else a.

Fixpoint add_loop (lsbs : list Z) (a : Z) : Z :=
  match lsbs with
  | [] => a
  | intlv_bit :: lsbs =>
      let a' := if 0 <? intlv_bit
                then insertBits (u64 (Z.shiftl a 1)) (u32 (intlv_bit - 1)) 0 a
                else u64 (Z.shiftl a 1) in
      add_loop lsbs a'
  end.

(** [~(1 << lsb)] with an [int] one, widened to [Addr]. *)
Definition not_int_bit (lsb : Z) : res Z :=
  defined! (lsb <? 32);
  Ok (u64 (- s32 (Z.shiftl 1 lsb) - 1)).

Fixpoint set_loop (i : Z) (ms : list Z) (intlv_match a : Z) : res Z :=
  match ms with
  | [] => Ok a
  | m :: ms =>
      let lsb := ctz64 m in
      let intlv_bit := bit intlv_match i in
      nb ← not_int_bit lsb;
      let masked := Z.land (Z.land a m) nb in
      let a' := insertBit a lsb (Z.lxor intlv_bit (popCount masked)) in
      set_loop (i + 1) ms intlv_match a'
  end.

Definition addIntlvBits (r : t) (a : Z) : res Z :=
  if interleaved r then set_loop 0 (masks r) (intlvMatch r) (add_loop (sorted_lsbs r) a)
  else Ok a.

Definition getOffset (r : t) (a : Z) : Z :=
  let in_range := (_start r <=? a) && (a <? _end r) in
  if in_range then
    if interleaved r then u64 (removeIntlvBits r a - removeIntlvBits r (_start r))
    else a - _start r
  else MaxAddr.

(** [operator<]. *)
Definition ltb (r r' : t) : bool :=
  if _start r =? _start r' then
    if interleaved r && interleaved r' then intlvMatch r <? intlvMatch r'
    else interleaved r
  else _start r <? _start r'.

(** [std::list::sort]: a stable sort by [operator<]. *)
Fixpoint sort_insert (x : t) (l : list t) : list t :=
  match l with
  | [] => [x]
  | y :: l' => if ltb y x then y :: sort_insert x l' else x :: l
  end.

Definition sort (l : list t) : list t := foldr sort_insert [] l.

Fixpoint exclude_loop (r : t) (sorted : list t) (next_start : Z) (ranges : list t)
    : res (list t) :=
  match sorted with
  | [] => Ok (if next_start <? _end r then ranges ++ [plain next_start (_end r)] else ranges)
  | e :: sorted =>
      assert! (negb (interleaved e));
      i ← intersects r e;
      if negb i then exclude_loop r sorted next_start ranges
      else if _start e <=? next_start then
        if _end e <? _end r then
          exclude_loop r sorted (if next_start <? _end e then _end e else next_start) ranges
        else Ok ranges
      else
        let ranges := ranges ++ [plain next_start (_start e)] in
        if _end e <? _end r then exclude_loop r sorted (_end e) ranges
        else Ok ranges
  end.

Definition exclude (r : t) (exclude_ranges : list t) : res (list t) :=
  assert! (negb (interleaved r));
  exclude_loop r (sort exclude_ranges) (_start r) [].

(** The file-level [exclude] on a list of ranges. *)
Fixpoint exclude_each (base to_exclude : list t) : res (list t) :=
  match base with
  | [] => Ok []
  | r :: base =>
      l ← exclude r to_exclude;
      l' ← exclude_each base to_exclude;
      Ok (l ++ l')
  end.

Definition exclude_list (base to_exclude : list t) : res (list t) :=
  exclude_each base (sort to_exclude).

(** [operator&]. *)
Definition intersection (r r' : t) : res t :=
  panic_unless! (negb (interleaved r || interleaved r'));
  let start := Z.max (_start r) (_start r') in
  let end_ := Z.min (_end r) (_end r') in
  Ok (if end_ <=? start then plain 0 0 else plain start end_).

Definition RangeEx (start end_ : Z) : t := plain start end_.
Definition RangeIn (start end_ : Z) : t := plain start (u64 (end_ + 1)).
Definition RangeSize (start size : Z) : t := plain start (u64 (start + size)).

(** The merging constructor [AddrRange(std::vector<AddrRange>)]. *)
Fixpoint merge_check (r : t) (m : Z) (l : list t) : res unit :=
  match l with
  | [] => Ok tt
  | x :: l =>
      fatal_unless! (mergesWith r x);
      fatal_unless! (intlvMatch x =? m);
      merge_check r (u8 (m + 1)) l
  end.

Definition merge (l : list t) : res t :=
  match l with
  | [] => Ok invalid
  | r :: _ =>
      if (1 <? Z.of_nat (length l)) then
        fatal_unless! (Z.of_nat (length l) =? Z.shiftl 1 (nmasks r));
        _ ← merge_check r 0 l;
        Ok (mk (_start r) (_end r) [] 0)
      else Ok r
  end.

(** ** The selector *)

Lemma popCount_mod2_range x : 0 <= popCount x mod 2 < 2.
Proof. apply Z.mod_pos_bound. lia. Qed.

Lemma shiftl_bit01 b i j :
  0 <= b < 2 → 0 <= i → 0 <= j →
  Z.testbit (Z.shiftl b i) j = bool_decide (i = j) && (b =? 1).
Proof.
  intros Hb Hi Hj. rewrite Z.shiftl_spec by done.
  assert (b = 0 ∨ b = 1) as [->| ->] by lia.
  - rewrite Z.bits_0, andb_false_r. done.
  - case_bool_decide; simpl.
    + subst. by rewrite Z.sub_diag.
    + destruct (decide (i <= j)); [|by rewrite Z.testbit_neg_r by lia].
      rewrite (testbit_high 1 1) by lia. done.
Qed.

Lemma sel_from_nonneg i ms a : 0 <= i → 0 <= sel_from i ms a.
Proof.
  revert i. induction ms as [|m ms IH]; intros i Hi; simpl; [done|].
  apply Z.lor_nonneg. split; [|apply IH; lia].
  apply Z.shiftl_nonneg. pose proof (popCount_mod2_range (Z.land a m)). lia.
Qed.

(** Bit [j] of the selector is the parity of the address bits picked by mask
    [j - i]. *)
Lemma sel_from_bits i ms a j :
  0 <= i → 0 <= j →
  Z.testbit (sel_from i ms a) j =
    if decide (i <= j) then
      match ms !! Z.to_nat (j - i) with
      | Some m => popCount (Z.land a m) mod 2 =? 1
      | None => false
      end
    else false.
Proof.
  revert i. induction ms as [|m ms IH]; intros i Hi Hj; simpl.
  { rewrite Z.bits_0. by case_decide. }
  rewrite Z.lor_spec, shiftl_bit01, IH by (apply popCount_mod2_range || lia).
  destruct (decide (i = j)) as [->|Hne].
  - rewrite bool_decide_eq_true_2, (decide_False (P:=j + 1 <= j)), (decide_True (P:=j <= j)) by lia.
    rewrite Z.sub_diag. simpl. apply orb_false_r.
  - rewrite bool_decide_eq_false_2 by done. simpl.
    destruct (decide (i <= j)).
    + rewrite (decide_True (P:=i + 1 <= j)) by lia.
      replace (Z.to_nat (j - i)) with (S (Z.to_nat (j - (i + 1)))) by lia. done.
    + by rewrite decide_False by lia.
Qed.

Lemma sel_range r a : 0 <= sel r a < 2 ^ nmasks r.
Proof.
  assert (0 <= sel r a) by (apply sel_from_nonneg; lia). split; [done|].
  apply lt_pow2_bits; [unfold nmasks; lia|done|]. intros j Hj. unfold sel, nmasks in *.
  rewrite sel_from_bits by lia. case_decide; [|done].
  rewrite lookup_ge_None_2; [done|]. lia.
Qed.

Lemma contains_iff r a :
  contains r a = true ↔ _start r <= a < _end r ∧ sel r a = intlvMatch r.
Proof.
  unfold contains. destruct (Z.leb_spec (_start r) a), (Z.ltb_spec a (_end r)); simpl;
    rewrite ?Z.eqb_eq; naive_solver lia.
Qed.

Lemma contains_plain s e a : contains (plain s e) a = true ↔ s <= a < e.
Proof. rewrite contains_iff. simpl. naive_solver. Qed.

(** Not interleaved and match value 0 ([plain] ranges and merged ranges). *)
Definition contiguous (r : t) : Prop := masks r = [] ∧ intlvMatch r = 0.

Lemma contiguous_interleaved r : contiguous r → interleaved r = false.
Proof. intros [H _]. unfold interleaved. by rewrite H. Qed.

Lemma contains_contiguous r a :
  contiguous r → contains r a = true ↔ _start r <= a < _end r.
Proof. intros [H1 H2]. rewrite contains_iff. unfold sel. rewrite H1, H2. simpl. naive_solver. Qed.

(** ** Removing and restoring the interleaving bits *)

(** [x] and [y] have the same bits outside the positions [l]. *)
Definition agree_off (l : list Z) (x y : Z) : Prop :=
  ∀ j, 0 <= j → j ∉ l → Z.testbit x j = Z.testbit y j.

(** [y] is [x] with the bit at position [p] deleted. *)
Definition deleted (p x y : Z) : Prop :=
  ∀ j, 0 <= j → Z.testbit y j = Z.testbit x (if decide (j < p) then j else j + 1).

(** One iteration of [removeIntlvBits] at position [p = intlv_bit - i]. *)
Definition del_bit (p a : Z) : Z :=
  if decide (p = 0) then Z.shiftr a 1 else insertBits (Z.shiftr a 1) (p - 1) 0 a.

Lemma del_bit_range p a : is_u64 a → 0 <= p < 64 → is_u64 (del_bit p a).
Proof.
  intros Ha Hp. unfold del_bit. case_decide; [by apply shiftr_range|].
  apply insertBits_range; [by apply shiftr_range|lia..].
Qed.

Lemma del_bit_deleted p a : is_u64 a → 0 <= p < 64 → deleted p a (del_bit p a).
Proof.
  intros Ha Hp j Hj. unfold del_bit. case_decide as Hp0.
  - rewrite Z.shiftr_spec by done. by rewrite decide_False by lia.
  - rewrite insertBits_bits by (try apply shiftr_range; done || lia).
    case_bool_decide; [rewrite decide_True by lia; f_equal; lia|].
    rewrite decide_False, Z.shiftr_spec by lia. done.
Qed.

(** The loop body is [del_bit], also when the bit to drop has reached
    position 0: the unsigned [intlv_bit - i - 1] then wraps to an empty mask. *)
Lemma remove_step i b a :
  is_u64 a → 0 <= i <= b → b < 64 →
  (if 0 <? b then insertBits (Z.shiftr a 1) (u32 (b - i - 1)) 0 a else Z.shiftr a 1)
  = del_bit (b - i) a.
Proof.
  intros Ha Hi Hb. unfold del_bit. destruct (Z.ltb_spec 0 b).
  - case_decide as Hd.
    + replace (b - i - 1) with (-1) by lia. unfold insertBits.
      change (mask2 (u32 (-1)) 0) with 0. rewrite Z.land_0_r, Z.lor_0_r.
      apply Z.bits_inj'; intros j Hj.
      rewrite Z.land_spec, not64_bits, Z.bits_0, andb_true_r by auto with width.
      case_bool_decide; [apply andb_true_r|]. rewrite andb_false_r.
      pose proof (shiftr_range a 1 Ha ltac:(lia)). symmetry.
      apply (testbit_high _ 64); unfold is_u64 in *; lia.
    + unfold u32. by rewrite Z.mod_small by lia.
  - rewrite decide_True by lia. done.
Qed.

Lemma remove_loop_cons i b ls a :
  is_u64 a → 0 <= i <= b → b < 64 →
  remove_loop i (b :: ls) a = remove_loop (i + 1) ls (del_bit (b - i) a).
Proof. intros. cbn [remove_loop]. by rewrite remove_step. Qed.

(** Deleting a lower bit [p] and then a higher one is the same as deleting
    the higher one first. *)
Lemma del_bit_comm p q a :
  is_u64 a → 0 <= p < q → q < 64 →
  del_bit (q - 1) (del_bit p a) = del_bit p (del_bit q a).
Proof.
  intros Ha Hp Hq. apply Z.bits_inj'; intros j Hj.
  rewrite !del_bit_deleted by (try apply del_bit_range; done || lia || (case_decide; lia)).
  f_equal. repeat case_decide; lia.
Qed.

Lemma remove_loop_range i ls a :
  is_u64 a → 0 <= i → StronglySorted Z.lt ls → Forall (λ b, i <= b < 64) ls →
  is_u64 (remove_loop i ls a).
Proof.
  revert i a. induction ls as [|b ls IH]; intros i a Ha Hi Hs Hf; [done|].
  apply StronglySorted_inv in Hs as [Hs Hlt]. inversion_clear Hf.
  rewrite remove_loop_cons by lia || done.
  apply IH; [apply del_bit_range; lia || done|lia|done|].
  eapply Forall_impl2; [exact Hlt|eassumption|]. simpl. lia.
Qed.

Lemma remove_loop_shift p i ls a :
  is_u64 a → 0 <= p → 0 <= i → StronglySorted Z.lt ls →
  Forall (λ b, p + i < b < 64) ls →
  remove_loop (i + 1) ls (del_bit p a) = del_bit p (remove_loop i ls a).
Proof.
  revert i a. induction ls as [|b ls IH]; intros i a Ha Hp Hi Hs Hf; [done|].
  apply StronglySorted_inv in Hs as [Hs Hlt]. inversion_clear Hf.
  rewrite !remove_loop_cons by (try apply del_bit_range; done || lia).
  replace (b - (i + 1)) with (b - i - 1) by lia. rewrite del_bit_comm by done || lia.
  apply IH; [apply del_bit_range; done || lia|lia..|done|].
  eapply Forall_impl2; [exact Hlt|eassumption|]. simpl. lia.
Qed.

(** Peeling the lowest interleaving bit off [removeIntlvBits]. *)
Lemma remove_loop_peel b ls a :
  is_u64 a → StronglySorted Z.lt (b :: ls) → Forall (λ b, 0 <= b < 64) (b :: ls) →
  remove_loop 0 (b :: ls) a = del_bit b (remove_loop 0 ls a).
Proof.
  intros Ha [Hs Hlt]%StronglySorted_inv [Hb Hf]%Forall_cons_1.
  rewrite remove_loop_cons, Z.sub_0_r by done || lia.
  apply (remove_loop_shift b 0); [done|lia..|done|].
  eapply Forall_impl2; [exact Hlt|eassumption|]. simpl. lia.
Qed.

(** One iteration of the first loop of [addIntlvBits]. *)
Definition ins_bit (b a : Z) : Z :=
  if 0 <? b then insertBits (u64 (Z.shiftl a 1)) (u32 (b - 1)) 0 a else u64 (Z.shiftl a 1).

Lemma ins_bit_range b a : 0 <= b < 64 → is_u64 (ins_bit b a).
Proof.
  intros Hb. unfold ins_bit. destruct (Z.ltb_spec 0 b); [|apply u64_range].
  unfold u32. rewrite Z.mod_small by lia. apply insertBits_range; [apply u64_range|lia..].
Qed.

Lemma ins_bit_bits b a j :
  0 <= b < 64 → 0 <= j < 64 → j ≠ b →
  Z.testbit (ins_bit b a) j = Z.testbit a (if decide (j < b) then j else j - 1).
Proof.
  intros Hb Hj Hjb. unfold ins_bit. destruct (Z.ltb_spec 0 b).
  - unfold u32. rewrite Z.mod_small by lia.
    rewrite insertBits_bits by (apply u64_range || lia).
    case_bool_decide; [rewrite decide_True by lia; f_equal; lia|].
    rewrite u64_bits, decide_True, decide_False, Z.shiftl_spec by lia. done.
  - rewrite u64_bits, decide_True, decide_False, Z.shiftl_spec by lia. done.
Qed.

(** The first loop of [addIntlvBits] puts every bit that is not an
    interleaving bit back in place. *)
Lemma add_remove_agree S ls x y :
  is_u64 x → is_u64 y → StronglySorted Z.lt ls → Forall (λ b, 0 <= b < 64) ls →
  (∀ p b, p ∈ S → b ∈ ls → p < b) →
  agree_off S y (remove_loop 0 ls x) →
  is_u64 (add_loop ls y) ∧ agree_off (S ++ ls) (add_loop ls y) x.
Proof.
  revert S y. induction ls as [|b ls IH]; intros S y Hx Hy Hs Hf HS Hag.
  { rewrite app_nil_r. done. }
  rewrite remove_loop_peel in Hag by done.
  pose proof Hs as [Hs' Hlt]%StronglySorted_inv. pose proof Hf as [Hb Hf']%Forall_cons_1.
  assert (is_u64 (remove_loop 0 ls x)) as Hr by (apply remove_loop_range; done).
  change (add_loop (b :: ls) y) with (add_loop ls (ins_bit b y)).
  replace (S ++ b :: ls) with ((S ++ [b]) ++ ls) by (by rewrite <-app_assoc).
  apply IH; [done|by apply ins_bit_range|done..| |].
  - intros p q [Hp| ->%list_elem_of_singleton]%elem_of_app Hq;
      [apply HS; set_solver|]. rewrite Forall_forall in Hlt. by apply Hlt.
  - intros j Hj [HjS Hjb]%not_elem_of_app. apply not_elem_of_cons in Hjb as [Hjb _].
    destruct (decide (j < 64)).
    2:{ rewrite !(testbit_high _ 64);
          pose proof (ins_bit_range b y Hb); unfold is_u64 in *; lia || done. }
    rewrite ins_bit_bits by lia. case_decide.
    + rewrite Hag by done. rewrite del_bit_deleted by done. by rewrite decide_True by lia.
    + rewrite Hag; [|lia|intros Hin; specialize (HS _ b Hin ltac:(left)); lia].
      rewrite del_bit_deleted, decide_False by done || lia. f_equal. lia.
Qed.

(** Masks that determine the interleaving bits: 64-bit, non-zero, and no mask
    uses the lowest bit of a later one. *)
Inductive triangular : list Z → Prop :=
  | triangular_nil : triangular []
  | triangular_cons m ms :
      0 < m < 2 ^ 64 → Forall (λ m', Z.testbit m (ctz64 m') = false) ms →
      triangular ms → triangular (m :: ms).

Lemma triangular_lsbs ms :
  triangular ms → Forall (λ b, 0 <= b < 64) (ctz64 <$> ms) ∧ NoDup (ctz64 <$> ms).
Proof.
  induction 1 as [|m ms Hm Hf _ [IH1 IH2]]; [by split; constructor|].
  pose proof (ctz64_lt m 64 Hm). destruct (ctz64_spec m) as (? & Hb & _); [lia|].
  split; [by constructor|]. cbn. constructor; [|done].
  intros (m' & Heq & Hin)%list_elem_of_fmap. rewrite Forall_forall in Hf.
  specialize (Hf m' Hin). rewrite <-Heq in Hf. congruence.
Qed.

Lemma sorted_lsbs_spec r :
  triangular (masks r) →
  StronglySorted Z.lt (sorted_lsbs r) ∧ Forall (λ b, 0 <= b < 64) (sorted_lsbs r) ∧
  sorted_lsbs r ≡ₚ (ctz64 <$> masks r).
Proof.
  intros [Hf Hnd]%triangular_lsbs. unfold sorted_lsbs.
  pose proof (merge_sort_Permutation Z.le (ctz64 <$> masks r)) as Hp.
  split_and!; [|by rewrite Hp|done].
  assert (NoDup (merge_sort Z.le (ctz64 <$> masks r))) as Hnd' by (by rewrite Hp).
  pose proof (StronglySorted_merge_sort Z.le (ctz64 <$> masks r)) as Hs.
  revert Hs Hnd'. generalize (merge_sort Z.le (ctz64 <$> masks r)). clear.
  induction 1 as [|b l _ IH Hle]; intros Hnd; [constructor|].
  apply NoDup_cons in Hnd as [Hnot Hnd]. constructor; [by apply IH|].
  rewrite Forall_forall in *. intros c Hc. specialize (Hle c Hc).
  assert (b ≠ c) by (intros ->; done). lia.
Qed.

(** The parity of a masked address, split at the lowest bit of the mask. *)
Lemma parity_split a m :
  0 <= a → 0 < m →
  (popCount (Z.land a m) mod 2 =? 1) =
    xorb (popCount (Z.clearbit (Z.land a m) (ctz64 m)) mod 2 =? 1) (Z.testbit a (ctz64 m)).
Proof.
  intros Ha Hm. destruct (ctz64_spec m Hm) as (Hc & Hb & _).
  assert (0 <= Z.land a m) by (apply Z.land_nonneg; lia).
  rewrite (popCount_clearbit (Z.land a m) (ctz64 m)) by done.
  rewrite Z.land_spec, Hb, andb_true_r.
  set (n := popCount (Z.clearbit _ _)). pose proof (Z.mod_pos_bound n 2).
  destruct (Z.testbit a (ctz64 m)); simpl.
  - destruct (Z.eqb_spec ((n + 1) mod 2) 1), (Z.eqb_spec (n mod 2) 1); simpl; zlia || done.
  - rewrite Z.add_0_r, xorb_false_r. done.
Qed.

Lemma agree_clearbit a x m ms :
  0 < m → Forall (λ m', Z.testbit m (ctz64 m') = false) ms →
  agree_off (ctz64 <$> m :: ms) a x →
  Z.clearbit (Z.land a m) (ctz64 m) = Z.clearbit (Z.land x m) (ctz64 m).
Proof.
  intros Hm Hf Hag. destruct (ctz64_spec m Hm) as (Hc & _ & _).
  apply Z.bits_inj'; intros j Hj. rewrite !Z.clearbit_eqb, !Z.land_spec by done.
  destruct (Z.eqb_spec (ctz64 m) j); [by rewrite !andb_false_r|]. f_equal.
  destruct (decide (j ∈ ctz64 <$> ms)) as [(m' & -> & Hin)%list_elem_of_fmap|Hn].
  - rewrite Forall_forall in Hf. rewrite (Hf m') by done. by rewrite !andb_false_r.
  - rewrite Hag; [done..|]. rewrite fmap_cons, not_elem_of_cons. naive_solver.
Qed.

Lemma land_not_int_bit y b :
  is_u64 y → 0 <= b < 31 →
  ∃ nb, not_int_bit b = Ok nb ∧ Z.land y nb = Z.clearbit y b.
Proof.
  intros Hy Hb. unfold not_int_bit. destruct (Z.ltb_spec b 32); [simpl|lia].
  eexists; split; [done|].
  assert (0 < 2 ^ b) by (apply Z.pow_pos_nonneg; lia).
  assert (2 ^ b < 2 ^ 31) by (apply Z.pow_lt_mono_r; lia).
  rewrite Z.shiftl_1_l. unfold s32. rewrite Z.mod_small by lia.
  replace (u64 (- (2 ^ b + 2 ^ 31 - 2 ^ 31) - 1)) with (not64 (2 ^ b)).
  2:{ unfold not64, u64. apply (Zmod_unique _ _ (-1)); lia. }
  apply Z.bits_inj'; intros j Hj.
  rewrite Z.land_spec, not64_bits, Z.clearbit_eqb, Z.pow2_bits_eqb by auto with width.
  case_bool_decide; [done|]. rewrite (testbit_high y 64) by (unfold is_u64 in *; lia). done.
Qed.

Lemma bit_single v i : 0 <= i < 2 ^ 31 → bit v i = Z.b2z (Z.testbit v i).
Proof.
  intros Hi. unfold bit. rewrite bits_mod by lia.
  rewrite Z.sub_diag. change (2 ^ (0 + 1)) with 2.
  rewrite <-Z.bit0_mod, Z.div_pow2_bits by lia. done.
Qed.

(** The second loop of [addIntlvBits] recovers the interleaving bits of any
    address selected by the range. *)
Lemma set_loop_restores i ms mt a x :
  triangular ms → Forall (λ m, ctz64 m < 31) ms → 0 <= i →
  i + Z.of_nat (length ms) < 2 ^ 31 → is_u64 a → is_u64 x →
  (∀ k m, ms !! k = Some m →
    Z.testbit mt (i + Z.of_nat k) = (popCount (Z.land x m) mod 2 =? 1)) →
  agree_off (ctz64 <$> ms) a x →
  set_loop i ms mt a = Ok x.
Proof.
  intros Ht. revert i a. induction Ht as [|m ms Hm Hf Ht IH];
    intros i a Hl Hi Hlen Ha Hx Hsel Hag; simpl.
  { f_equal. apply Z.bits_inj'; intros j Hj. apply Hag; [done|]. apply not_elem_of_nil. }
  apply Forall_cons_1 in Hl as [Hl31 Hl].
  destruct (ctz64_spec m) as (Hc & Hmb & _); [lia|].
  destruct (land_not_int_bit (Z.land a m) (ctz64 m)) as (nb & -> & Enb);
    [apply land_range; [done|lia]|lia|]. simpl. rewrite Enb.
  rewrite (agree_clearbit a x m ms) by (done || lia).
  simpl in Hlen. rewrite bit_single by lia.
  apply IH; [done|lia|lia|apply insertBits_range; done || lia|done| |].
  { intros k m' Hk. rewrite <-(Hsel (S k) m') by done. f_equal. lia. }
  intros j Hj Hjn. unfold insertBit. rewrite insertBits_bits by done || lia.
  case_bool_decide as Hjc.
  - assert (j = ctz64 m) as -> by lia. rewrite Z.sub_diag, Z.lxor_spec, Z.b2z_bit0.
    pose proof (Hsel 0%nat m eq_refl) as H0. rewrite Z.add_0_r in H0. rewrite H0.
    rewrite parity_split by (unfold is_u64 in *; lia).
    set (n := popCount (Z.clearbit _ _)).
    assert (Z.testbit n 0 = (n mod 2 =? 1)) as ->.
    { rewrite Z.bit0_eqb. done. }
    by destruct (n mod 2 =? 1), (Z.testbit x (ctz64 m)).
  - apply Hag; [done|]. rewrite fmap_cons, not_elem_of_cons. split; [lia|done].
Qed.

(** Well-formed interleaving: masks that determine the interleaving bits. *)
Definition wf_intlv (r : t) : Prop :=
  triangular (masks r) ∧ Z.of_nat (length (masks r)) < 2 ^ 31.

Lemma contains_sel_bits r a :
  contains r a = true →
  ∀ k m, masks r !! k = Some m →
    Z.testbit (intlvMatch r) (0 + Z.of_nat k) = (popCount (Z.land a m) mod 2 =? 1).
Proof.
  intros [_ <-]%contains_iff k m Hk. unfold sel.
  rewrite sel_from_bits, decide_True by lia.
  replace (Z.to_nat _) with k by lia. by rewrite Hk.
Qed.

Lemma remove_range r a : wf_intlv r → is_u64 a → is_u64 (removeIntlvBits r a).
Proof.
  intros [Ht _] Ha. unfold removeIntlvBits. destruct (interleaved r); [|done].
  destruct (sorted_lsbs_spec r Ht) as (Hs & Hf & _).
  by apply remove_loop_range.
Qed.

(** C34: for an address [a] selected by an interleaved range whose masks
    determine the interleaving bits (no mask uses the lowest bit of a later
    one), all of them below bit 31, [addIntlvBits] undoes [removeIntlvBits]. *)
Theorem add_remove_intlv r a :
  wf_intlv r → Forall (λ m, ctz64 m < 31) (masks r) → is_u64 a →
  contains r a = true → addIntlvBits r (removeIntlvBits r a) = Ok a.
Proof.
  intros Hwf Hl Ha Hc. pose proof (remove_range r a Hwf Ha) as Hr. destruct Hwf as [Ht Hlen].
  unfold addIntlvBits, removeIntlvBits in *. destruct (interleaved r) eqn:E; [|done].
  destruct (sorted_lsbs_spec r Ht) as (Hs & Hf & Hp).
  destruct (add_remove_agree [] (sorted_lsbs r) a (remove_loop 0 (sorted_lsbs r) a))
    as [Hu Hag]; [done..| |done|].
  { intros p b Hin. by apply not_elem_of_nil in Hin. }
  apply set_loop_restores; [done..|lia|lia|done|done|by apply contains_sel_bits|].
  intros j Hj Hn. apply Hag; [done|]. by rewrite app_nil_l, Hp.
Qed.

(** Two addresses with the same selector that agree outside the
    interleaving bits are equal. *)
Lemma agree_parity_eq ms a x :
  triangular ms → 0 <= a → 0 <= x →
  (∀ m, m ∈ ms → (popCount (Z.land a m) mod 2 =? 1) = (popCount (Z.land x m) mod 2 =? 1)) →
  agree_off (ctz64 <$> ms) a x → a = x.
Proof.
  intros Ht Ha Hx. induction Ht as [|m ms Hm Hf Ht IH]; intros Hpar Hag.
  { apply Z.bits_inj'; intros j Hj. apply Hag; [done|]. apply not_elem_of_nil. }
  apply IH; [intros m' Hm'; apply Hpar; by right|]. intros j Hj Hjn.
  destruct (decide (j = ctz64 m)) as [->|].
  - pose proof (Hpar m ltac:(left)) as Hp. rewrite !parity_split in Hp by lia.
    rewrite (agree_clearbit a x m ms) in Hp by (done || lia).
    revert Hp. generalize (popCount (Z.clearbit (Z.land x m) (ctz64 m)) mod 2 =? 1).
    intros []; destruct (Z.testbit a _), (Z.testbit x _); done.
  - apply Hag; [done|]. rewrite fmap_cons, not_elem_of_cons. done.
Qed.

Lemma removeIntlvBits_inj r a b :
  triangular (masks r) → is_u64 a → is_u64 b → sel r a = sel r b →
  removeIntlvBits r a = removeIntlvBits r b → a = b.
Proof.
  intros Ht Ha Hb Hsel Heq. unfold removeIntlvBits in Heq.
  destruct (interleaved r); [|done].
  destruct (sorted_lsbs_spec r Ht) as (Hs & Hf & Hp).
  assert (∀ x, is_u64 x → agree_off (sorted_lsbs r)
    (add_loop (sorted_lsbs r) (remove_loop 0 (sorted_lsbs r) x)) x) as Hadd.
  { intros x Hx. eapply (add_remove_agree [] (sorted_lsbs r) x); [done| |done..| |done].
    - by apply remove_loop_range.
    - intros p q Hin. by apply not_elem_of_nil in Hin. }
  unfold is_u64 in *. apply (agree_parity_eq (masks r)); [done|lia..| |].
  - intros m [k Hk]%list_elem_of_lookup.
    assert (∀ x, Z.testbit (sel r x) (Z.of_nat k) = (popCount (Z.land x m) mod 2 =? 1)) as Hbit.
    { intros x. unfold sel. rewrite sel_from_bits, decide_True by lia.
      replace (Z.to_nat _) with k by lia. by rewrite Hk. }
    by rewrite <-!Hbit, Hsel.
  - intros j Hj Hn. rewrite <-Hp in Hn.
    rewrite <-(Hadd a), <-(Hadd b) by done. by rewrite Heq.
Qed.

(** Inside a range (interleaved or not), [getOffset] never gives two
    addresses the same offset. *)
Theorem getOffset_inj r a b :
  triangular (masks r) → is_u64 (_start r) → is_u64 (_end r) →
  contains r a = true → contains r b = true →
  getOffset r a = getOffset r b → a = b.
Proof.
  intros Ht Hs He [Hra Hsa]%contains_iff [Hrb Hsb]%contains_iff.
  unfold getOffset, is_u64 in *.
  rewrite !(proj2 (Z.leb_le _ _)), !(proj2 (Z.ltb_lt _ _)) by lia. simpl.
  destruct (interleaved r) eqn:E; [|lia]. intros Heq.
  apply (removeIntlvBits_inj r); [done|auto with width..|congruence|].
  destruct (sorted_lsbs_spec r Ht) as (Hso & Hf & _).
  assert (∀ x, is_u64 x → is_u64 (removeIntlvBits r x)) as Hr.
  { intros x Hx. unfold removeIntlvBits. rewrite E. by apply remove_loop_range. }
  pose proof (Hr a ltac:(auto with width)). pose proof (Hr b ltac:(auto with width)).
  pose proof (Hr (_start r) ltac:(auto with width)). unfold is_u64, u64 in *.
  revert Heq. zlia.
Qed.

(** The stripes of an interleaved range partition it: every address of
    [start, end) is in exactly one of the [2^n] ranges with the same masks. *)
Theorem stripes_partition s e ms a :
  s <= a < e →
  exists! m, 0 <= m < 2 ^ Z.of_nat (length ms) ∧ contains (mk s e ms m) a = true.
Proof.
  intros Ha. exists (sel (mk s e ms 0) a). split.
  - split; [apply (sel_range (mk s e ms 0) a)|]. by apply contains_iff.
  - intros m [_ [_ Hm]%contains_iff]. exact Hm.
Qed.

Lemma merge_check_spec r m l :
  merge_check r m l = Ok tt → 0 <= m → m + Z.of_nat (length l) <= 256 →
  ∀ i x, l !! i = Some x → mergesWith r x = true ∧ intlvMatch x = m + Z.of_nat i.
Proof.
  revert m. induction l as [|y l IH]; intros m Hc Hm Hl i x Hi; [done|].
  simpl in Hc, Hl. destruct (mergesWith r y) eqn:E1; [|done].
  destruct (Z.eqb_spec (intlvMatch y) m) as [E2|]; [|done]. simpl in Hc.
  destruct i as [|i]; simpl in Hi.
  - injection Hi as <-. rewrite Z.add_0_r. done.
  - destruct l as [|z l']; [done|]. simpl in Hl.
    unfold u8 in Hc. rewrite Z.mod_small in Hc by lia.
    destruct (IH (m + 1) Hc ltac:(lia) ltac:(simpl; lia) i x Hi). split; [done|lia].
Qed.

Lemma mergesWith_iff r x :
  mergesWith r x = true ↔ _start x = _start r ∧ _end x = _end r ∧ masks x = masks r.
Proof.
  unfold mergesWith. rewrite !andb_true_iff, !Z.eqb_eq, bool_decide_eq_true. naive_solver.
Qed.

(** When the merging constructor accepts a set of up to 256 interleaved
    ranges, the merged range contains exactly the addresses of the members. *)
Theorem merge_contains l r a :
  (1 < length l <= 256)%nat → merge l = Ok r →
  contains r a = true ↔ ∃ x, x ∈ l ∧ contains x a = true.
Proof.
  intros Hl Hm. destruct l as [|r0 l0]; [simpl in Hl; lia|]. unfold merge in Hm.
  set (l := r0 :: l0) in *.
  destruct (Z.ltb_spec 1 (Z.of_nat (length l))); [|lia].
  destruct (Z.eqb_spec (Z.of_nat (length l)) (Z.shiftl 1 (nmasks r0))) as [En|]; [|done].
  destruct (merge_check r0 0 l) as [[]|] eqn:Ec; [|done]. injection Hm as <-. pose proof (merge_check_spec r0 0 l Ec ltac:(lia) ltac:(lia)) as Hspec.
  assert (0 <= nmasks r0) by (unfold nmasks; lia). rewrite Z.shiftl_1_l in En.
  rewrite contains_contiguous by done. simpl. split.
  - intros Ha. pose proof (sel_range r0 a).
    destruct (lookup_lt_is_Some_2 l (Z.to_nat (sel r0 a))) as [x Hx]; [lia|].
    destruct (Hspec _ _ Hx) as [(E1 & E2 & E3)%mergesWith_iff E4].
    exists x. split; [by eapply list_elem_of_lookup_2|]. apply contains_iff.
    rewrite E1, E2, E4. split; [done|]. unfold sel. rewrite E3. fold (sel r0 a). lia.
  - intros (x & [i Hi]%list_elem_of_lookup & [Hr _]%contains_iff).
    destruct (Hspec _ _ Hi) as [(E1 & E2 & _)%mergesWith_iff _]. by rewrite E1, E2 in Hr.
Qed.

(** ** Exclusion *)

Definition covered (l : list t) (a : Z) : Prop := ∃ x, x ∈ l ∧ contains x a = true.

(** The ranges [exclude] is meant for. *)
Definition excludable (r : t) : Prop := contiguous r ∧ _start r <= _end r.

Lemma covered_nil a : covered [] a ↔ False.
Proof. split; [|done]. intros (x & Hx & _). by apply not_elem_of_nil in Hx. Qed.

Lemma covered_cons x l a : covered (x :: l) a ↔ contains x a = true ∨ covered l a.
Proof.
  unfold covered. split.
  - intros (y & [->|Hy]%elem_of_cons & Hc); eauto.
  - intros [Hc|(y & Hy & Hc)]; [exists x|exists y]; (split; [by constructor|done]).
Qed.

Lemma ltb_contiguous x y :
  contiguous x → contiguous y → ltb x y = (_start x <? _start y).
Proof.
  intros Hx Hy. unfold ltb. rewrite !contiguous_interleaved by done. simpl.
  destruct (Z.eqb_spec (_start x) (_start y)), (Z.ltb_spec (_start x) (_start y)); lia || done.
Qed.

Lemma sort_insert_perm x l : sort_insert x l ≡ₚ x :: l.
Proof.
  induction l as [|y l IH]; simpl; [done|]. destruct (ltb y x); [|done].
  rewrite IH. by constructor.
Qed.

Lemma sort_perm l : sort l ≡ₚ l.
Proof. induction l as [|x l IH]; simpl; [done|]. by rewrite sort_insert_perm, IH. Qed.

Definition start_le (x y : t) : Prop := _start x <= _start y.

Lemma sort_sorted l : Forall contiguous l → StronglySorted start_le (sort l).
Proof.
  induction 1 as [|x l Hx Hl IH]; simpl; [constructor|].
  assert (Forall contiguous (sort l)) as Hc by (by rewrite sort_perm).
  revert IH Hc. generalize (sort l). induction 1 as [|y l' Hs IH Hle]; intros Hc; simpl.
  { repeat constructor. }
  apply Forall_cons_1 in Hc as [Hy Hc]. rewrite ltb_contiguous by done.
  destruct (Z.ltb_spec (_start y) (_start x)).
  - constructor; [by apply IH|]. rewrite sort_insert_perm. constructor; [unfold start_le; lia|done].
  - constructor; [by constructor|]. constructor; [unfold start_le; lia|].
    eapply Forall_impl; [exact Hle|]. unfold start_le. lia.
Qed.

Lemma intersects_contiguous r e :
  contiguous r → contiguous e →
  intersects r e = Ok (negb ((_end e <=? _start r) || (_end r <=? _start e))).
Proof.
  intros Hr He. unfold intersects. rewrite !contiguous_interleaved by done.
  by destruct ((_end e <=? _start r) || (_end r <=? _start e)).
Qed.

(** The loop of [exclude] appends the part of [next_start, end) not covered
    by the remaining exclusions. *)
Lemma exclude_loop_spec r es next ranges :
  contiguous r → Forall excludable es → StronglySorted start_le es →
  _start r <= next →
  ∃ l, exclude_loop r es next ranges = Ok (ranges ++ l) ∧ Forall contiguous l ∧
       ∀ a, covered l a ↔ next <= a < _end r ∧ ¬ covered es a.
Proof.
  intros Hr Hes. revert next ranges. induction Hes as [|e es [He Hv] Hes IH];
    intros next ranges Hs Hn; simpl.
  - destruct (Z.ltb_spec next (_end r)).
    + eexists; split; [done|]. split; [by repeat constructor|].
      intros a. rewrite covered_cons, !covered_nil, contains_plain. intuition lia.
    + exists []. rewrite app_nil_r. split; [done|]. split; [constructor|].
      intros a. rewrite !covered_nil. intuition lia.
  - apply StronglySorted_inv in Hs as [Hs Hle].
    assert (∀ a, covered es a → _start e <= a) as Hlow.
    { intros a (x & Hx & Hc). rewrite Forall_forall in Hle. specialize (Hle x Hx).
      unfold start_le in Hle. apply contains_iff in Hc as [??]. lia. }
    rewrite contiguous_interleaved, intersects_contiguous by done. simpl.
    rewrite negb_involutive. setoid_rewrite covered_cons.
    setoid_rewrite (contains_contiguous e); [|done].
    destruct (Z.leb_spec (_end e) (_start r)); simpl.
    { destruct (IH next ranges) as (l & -> & ? & Hcov); [done..|].
      exists l. split_and!; [done..|]. intros a. rewrite Hcov. intuition lia. }
    destruct (Z.leb_spec (_end r) (_start e)); simpl.
    { destruct (IH next ranges) as (l & -> & ? & Hcov); [done..|].
      exists l. split_and!; [done..|]. intros a. rewrite Hcov. intuition lia. }
    destruct (Z.leb_spec (_start e) next), (Z.ltb_spec (_end e) (_end r)).
    + set (next' := if next <? _end e then _end e else next).
      assert (next' = Z.max next (_end e)) as E
        by (unfold next'; destruct (Z.ltb_spec next (_end e)); lia).
      destruct (IH next' ranges) as (l & -> & ? & Hcov); [done|lia|].
      exists l. split_and!; [done..|]. intros a. rewrite Hcov. intuition lia.
    + exists []. rewrite app_nil_r. split_and!; [done|constructor|].
      intros a. rewrite covered_nil. intuition lia.
    + destruct (IH (_end e) (ranges ++ [plain next (_start e)])) as (l & -> & ? & Hcov);
        [done|lia|].
      exists (plain next (_start e) :: l). rewrite <-app_assoc.
      split_and!; [done|by constructor|]. intros a.
      rewrite covered_cons, Hcov, contains_plain.
      pose proof (Hlow a); destruct (Z_lt_le_dec a (_start e)); intuition lia.
    + eexists; split; [done|]. split; [by repeat constructor|]. intros a.
      rewrite covered_cons, covered_nil, contains_plain.
      pose proof (Hlow a); destruct (Z_lt_le_dec a (_start e)); intuition lia.
Qed.

(** [exclude] never fails on contiguous ranges, and the ranges it returns
    contain exactly the addresses of [r] that no excluded range contains. *)
Theorem exclude_spec r es :
  contiguous r → Forall excludable es →
  ∃ l, exclude r es = Ok l ∧ Forall contiguous l ∧
       ∀ a, covered l a ↔ contains r a = true ∧ ¬ covered es a.
Proof.
  intros Hr Hes. unfold exclude. rewrite contiguous_interleaved by done. simpl.
  destruct (exclude_loop_spec r (sort es) (_start r) []) as (l & -> & Hc & Hcov).
  - done.
  - by rewrite sort_perm.
  - apply sort_sorted. eapply Forall_impl; [exact Hes|]. by intros x [? _].
  - lia.
  - exists l. split_and!; [done..|]. intros a. rewrite Hcov, contains_contiguous by done.
    assert (covered (sort es) a ↔ covered es a) as ->; [|done].
    unfold covered. by setoid_rewrite sort_perm.
Qed.

(** ** Subsets *)

Lemma foldl_lor_bits ms c i :
  Z.testbit (foldl Z.lor c ms) i = Z.testbit c i || existsb (λ m, Z.testbit m i) ms.
Proof.
  revert c. induction ms as [|m ms IH]; intros c; simpl; [by rewrite orb_false_r|].
  by rewrite IH, Z.lor_spec, orb_assoc.
Qed.

Lemma lor_lt_pow2 x y n : 0 <= n → 0 <= x < 2 ^ n → 0 <= y < 2 ^ n → 0 <= Z.lor x y < 2 ^ n.
Proof.
  intros Hn Hx Hy. assert (0 <= Z.lor x y) by (apply Z.lor_nonneg; lia).
  split; [done|]. apply lt_pow2_bits; [lia..|].
  intros i Hi. by rewrite Z.lor_spec, !(testbit_high _ n) by lia.
Qed.

(** With every mask below [2^31] the [int] accumulator does not truncate. *)
Lemma combined_mask_eq ms c :
  0 <= c < 2 ^ 31 → Forall (λ m, 0 < m < 2 ^ 31) ms →
  foldl (λ c m, s32 (Z.lor (u64 c) m)) c ms = foldl Z.lor c ms ∧
  0 <= foldl Z.lor c ms < 2 ^ 31.
Proof.
  intros Hc Hf. revert c Hc. induction Hf as [|m ms Hm Hf IH]; intros c Hc; simpl; [done|].
  rewrite u64_small by auto with width.
  pose proof (lor_lt_pow2 c m 31 ltac:(lia) Hc ltac:(lia)) as Hl.
  assert (s32 (Z.lor c m) = Z.lor c m) as ->; [|by apply IH].
  unfold s32. rewrite Z.mod_small by lia. lia.
Qed.

(** The granularity is a power of two below which no mask has a bit. *)
Lemma granularity_spec r :
  interleaved r = true → Forall (λ m, 0 < m < 2 ^ 31) (masks r) →
  ∃ k, 0 <= k < 31 ∧ granularity r = Ok (2 ^ k) ∧
       ∀ m i, m ∈ masks r → 0 <= i < k → Z.testbit m i = false.
Proof.
  intros Hi Hf. unfold granularity. rewrite Hi.
  destruct (combined_mask_eq (masks r) 0 ltac:(lia) Hf) as [-> Hc].
  set (c := foldl Z.lor 0 (masks r)) in *.
  assert (∀ m i, m ∈ masks r → Z.testbit m i = true → Z.testbit c i = true) as Hin.
  { intros m i Hm Hb. unfold c. rewrite foldl_lor_bits, Z.bits_0. simpl.
    apply existsb_exists. exists m. by rewrite <-list_elem_of_In. }
  assert (0 < c) as Hpos.
  { unfold interleaved in Hi. destruct (masks r) as [|m ms] eqn:E; [done|].
    apply Forall_cons_1 in Hf as [Hm _]. destruct (ctz64_spec m) as (_ & Hb & _); [lia|].
    pose proof (Hin m (ctz64 m) ltac:(left) Hb) as Hcb.
    destruct (decide (c = 0)) as [E0|]; [|lia]. rewrite E0, Z.bits_0 in Hcb. done. }
  rewrite u64_small by auto with width.
  destruct (ctz64_spec c Hpos) as (Hl0 & _ & Hlow). pose proof (ctz64_lt c 31 ltac:(lia)).
  exists (ctz64 c). split; [lia|]. split.
  - unfold u8. rewrite Z.mod_small by lia. unfold shl1.
    destruct (Z.ltb_spec (ctz64 c) 64); [|lia]. simpl. by rewrite Z.shiftl_1_l.
  - intros m i Hm Hik. destruct (Z.testbit m i) eqn:E; [|done].
    rewrite <-(Hlow i Hik). symmetry. eauto.
Qed.

Lemma sel_granule r k a b :
  0 <= k → (∀ m i, m ∈ masks r → 0 <= i < k → Z.testbit m i = false) →
  a / 2 ^ k = b / 2 ^ k → sel r a = sel r b.
Proof.
  intros Hk Hm Hab. assert (∀ m, m ∈ masks r → Z.land a m = Z.land b m) as Hl.
  { intros m Hin. apply Z.bits_inj'; intros i Hi. rewrite !Z.land_spec.
    destruct (decide (i < k)); [rewrite (Hm m i) by (done || lia); by rewrite !andb_false_r|].
    f_equal. replace i with (i - k + k) by lia. rewrite <-!Z.div_pow2_bits by lia.
    by rewrite Hab. }
  unfold sel. revert Hl. generalize 0. generalize (masks r).
  induction l as [|m ms IH]; intros n Hl; simpl; [done|].
  rewrite (Hl m) by left. rewrite (IH (n + 1)); [done|]. intros m' Hm'. apply Hl. by right.
Qed.

(** A contiguous non-empty range accepted by [isSubset] as a subset of an
    interleaved range lies inside it. *)
Theorem isSubset_interleaved_sound r r' :
  contiguous r → 0 <= _start r < _end r → _end r < 2 ^ 64 →
  interleaved r' = true → Forall (λ m, 0 < m < 2 ^ 31) (masks r') →
  isSubset r r' = Ok true → ∀ a, contains r a = true → contains r' a = true.
Proof.
  intros Hr Hse He Hi Hf Hsub a Ha. unfold isSubset in Hsub.
  rewrite (contiguous_interleaved r), Hi in Hsub by done. simpl in Hsub.
  destruct (contains r' (_start r)) eqn:E1; [|done].
  rewrite u64_small in Hsub by auto with width.
  destruct (contains r' (_end r - 1)) eqn:E2; [|done]. simpl in Hsub.
  destruct (granularity_spec r' Hi Hf) as (k & Hk & Hg & Hm). rewrite Hg in Hsub.
  injection Hsub as Hsz%Z.leb_le. unfold size, nmasks in Hsz.
  destruct Hr as [Hnm Hmt]. rewrite Hnm in Hsz. simpl in Hsz.
  rewrite u64_small, Z.shiftr_0_r in Hsz by auto with width.
  apply contains_contiguous in Ha; [|done].
  apply contains_iff in E1 as [[??] Es]. apply contains_iff in E2 as [[??] Ee].
  apply contains_iff. split; [lia|]. assert (0 < 2 ^ k) by (apply Z.pow_pos_nonneg; lia).
  assert (a / 2 ^ k = _start r / 2 ^ k ∨ a / 2 ^ k = (_end r - 1) / 2 ^ k) as [E|E].
  { pose proof (Z.div_le_mono (_start r) a (2 ^ k)).
    pose proof (Z.div_le_mono a (_end r - 1) (2 ^ k)).
    pose proof (Z.div_le_mono (_end r - 1) (_start r + 1 * 2 ^ k) (2 ^ k)).
    rewrite Z.div_add in * by lia. lia. }
  - by rewrite <-Es, (sel_granule r' k a (_start r)) by (done || lia).
  - by rewrite <-Ee, (sel_granule r' k a (_end r - 1)) by (done || lia).
Qed.

(** Between contiguous non-empty ranges [isSubset] decides inclusion. *)
Lemma isSubset_contiguous r r' :
  contiguous r → contiguous r' → _start r < _end r → _start r' < _end r' →
  ∃ b, isSubset r r' = Ok b ∧
       (b = true ↔ ∀ a, contains r a = true → contains r' a = true).
Proof.
  intros Hr Hr' Hse Hse'. unfold isSubset. rewrite !contiguous_interleaved by done. simpl.
  destruct (Z.leb_spec (_end r) (_start r)); [lia|].
  destruct (Z.leb_spec (_end r') (_start r')); [lia|].
  eexists; split; [done|]. rewrite andb_true_iff, !Z.leb_le.
  setoid_rewrite contains_contiguous; [|done..]. split; [lia|].
  intros Hall. pose proof (Hall (_start r)). pose proof (Hall (_end r - 1)). lia.
Qed.

(** An empty second range is taken for one that wraps around the end of the
    address space. *)
Lemma isSubset_empty_range :
  isSubset (plain 5 6) (plain 3 3) = Ok true ∧ contains (plain 3 3) 5 = false.
Proof. done. Qed.

(** ** Interleaving bits at or above bit 31 *)

(** [addIntlvBits] builds the mask that drops the lowest mask bit with an
    [int] shift; at bit 31 the result, widened to 64 bits, also drops every
    bit above, and the round trip is lost. *)
Lemma add_remove_intlv_bit31 :
  let r := mk 0 (2 ^ 41) [2 ^ 31 + 2 ^ 40] 1 in
  contains r (2 ^ 40) = true ∧ addIntlvBits r (removeIntlvBits r (2 ^ 40)) = Ok (2 ^ 40 + 2 ^ 31) ∧
  contains r (2 ^ 40 + 2 ^ 31) = false.
Proof. vm_compute. done. Qed.

(** [granularity] accumulates the masks in an [int]: with interleaving bits
    above bit 31 only, the accumulator is 0 and the shift count 64. *)
Lemma granularity_bit32 :
  granularity (mk 0 (2 ^ 40) [2 ^ 32] 0) = Fail UndefinedBehaviour.
Proof. done. Qed.

(** ** Two channels interleaved on bit 6 xor bit 12 *)

Definition channel (m : Z) : t := mk 0 8192 [2 ^ 6 + 2 ^ 12] m.

Lemma channel_triangular m : triangular (masks (channel m)).
Proof. constructor; [lia|constructor|constructor]. Qed.

Lemma add_remove_intlv_witness :
  addIntlvBits (channel 1) (removeIntlvBits (channel 1) 4100) = Ok 4100.
Proof.
  apply (add_remove_intlv (channel 1) 4100).
  - split; [apply channel_triangular|reflexivity].
  - constructor; [reflexivity|constructor].
  - split; vm_compute; congruence.
  - reflexivity.
Defined.

Lemma getOffset_inj_witness :
  getOffset (channel 1) (4096 + 4) = 2052 ∧ 4096 + 4 = 4100.
Proof.
  split; [reflexivity|].
  apply (getOffset_inj (channel 1) (4096 + 4) 4100);
    [apply channel_triangular| | |reflexivity|reflexivity|reflexivity];
    split; vm_compute; congruence.
Defined.

Lemma stripes_partition_witness :
  exists! m, 0 <= m < 2 ∧ contains (channel m) 4100 = true.
Proof. apply (stripes_partition 0 8192 [2 ^ 6 + 2 ^ 12] 4100). lia. Defined.

Lemma merge_contains_witness :
  contains (plain 0 8192) 4100 = true ↔
  ∃ x, x ∈ [channel 0; channel 1] ∧ contains x 4100 = true.
Proof. apply (merge_contains [channel 0; channel 1]); [simpl; lia|reflexivity]. Defined.

Lemma exclude_spec_witness :
  ∃ l, exclude (plain 0 100) [plain 30 40; plain 10 20] = Ok l ∧
    l = [plain 0 10; plain 20 30; plain 40 100].
Proof.
  destruct (exclude_spec (plain 0 100) [plain 30 40; plain 10 20]) as (l & Hl & _).
  - split; reflexivity.
  - constructor; [|constructor; [|constructor]]; (split; [split; reflexivity|simpl; lia]).
  - exists l. split; [exact Hl|]. vm_compute in Hl. injection Hl as <-. reflexivity.
Defined.

Lemma isSubset_interleaved_witness : contains (channel 0) 40 = true.
Proof.
  apply (isSubset_interleaved_sound (plain 0 64) (channel 0));
    [split; reflexivity|simpl; lia|simpl; lia|reflexivity| |reflexivity|reflexivity].
  constructor; [simpl; lia|constructor].
Defined.

End AddrRange.
