(* ===== verification/AddrRangeMap.v ===== *)
(** [AddrRangeMap] of [src/gem5_sim/src/base/addr_range_map.hh]: the address
    decoder of the crossbars, an ordered map from ranges to values with a small
    most-recently-used cache of entries in front of it. *)

From S2P Require Import Prelude Bits AddrRange.

Module AddrRangeMap.
Import AddrRange (contiguous, contains, isSubset, intersects, mergesWith, ltb, plain, RangeSize).

Section Map.
Context {V : Type}.

Notation entry := (AddrRange.t * V)%type.

(** The STL map is a list sorted by [operator<]; an iterator is the entry it
    points to. *)
Record t := mk {
  tree : list entry;
  cache : list entry;
}.

(** [max_cache_size], a template argument. *)
Context (max_cache_size : nat).

Definition addNewEntryToCache (it : entry) (c : list entry) : list entry :=
  if bool_decide (max_cache_size = 0%nat) then c
  else if bool_decide (max_cache_size <= length c)%nat then it :: removelast c
  else it :: c.

(** Scan the cache; on a hit the entry moves to the front. *)
Fixpoint cache_find (cond : AddrRange.t → res bool) (pre c : list entry)
    : res (option (entry * list entry)) :=
  match c with
  | [] => Ok None
  | it :: c =>
      b ← cond it.1;
      if b : bool then Ok (Some (it, it :: pre ++ c))
      else cache_find cond (pre ++ [it]) c
  end.

(** The do-while loop over the predecessors, given in reverse order. *)
Fixpoint find_back (cond : AddrRange.t → res bool) (preds : list entry)
    : res (option entry) :=
  match preds with
  | [] => Ok None
  | i :: preds' =>
      b ← cond i.1;
      if b : bool then Ok (Some i)
      else match preds' with
           | [] => Ok None
           | next :: _ => if mergesWith next.1 i.1 then find_back cond preds' else Ok None
           end
  end.

(** [tree.upper_bound(r)]: the entries not after [r], and those after it. *)
Fixpoint upper_bound (r : AddrRange.t) (l : list entry) : list entry * list entry :=
  match l with
  | [] => ([], [])
  | e :: l' => if ltb r e.1 then ([], l)
               else let '(p, s) := upper_bound r l' in (e :: p, s)
  end.

Definition find (r : AddrRange.t) (cond : AddrRange.t → res bool) (m : t)
    : res (option entry * t) :=
  hit ← cache_find cond [] (cache m);
  match hit with
  | Some (it, c') => Ok (Some it, mk (tree m) c')
  | None =>
      let '(before, after) := upper_bound r (tree m) in
      nextb ← match after with next :: _ => cond next.1 | [] => Ok false end;
      match after, nextb : bool with
      | next :: _, true => Ok (Some next, mk (tree m) (addNewEntryToCache next (cache m)))
      | _, _ =>
          o ← find_back cond (rev before);
          Ok (o, match o with
                 | Some i => mk (tree m) (addNewEntryToCache i (cache m))
                 | None => m
                 end)
      end
  end.

Definition contains_range (r : AddrRange.t) (m : t) : res (option entry * t) :=
  find r (λ r1, isSubset r r1) m.

Definition contains_addr (a : Z) (m : t) : res (option entry * t) :=
  contains_range (RangeSize a 1) m.

Definition intersects_range (r : AddrRange.t) (m : t) : res (option entry * t) :=
  find r (λ r1, intersects r r1) m.

(** [std::map::insert]: keeps an existing equivalent key. *)
Fixpoint tree_insert (r : AddrRange.t) (d : V) (l : list entry) : list entry :=
  match l with
  | [] => [(r, d)]
  | e :: l' => if ltb e.1 r then e :: tree_insert r d l'
               else if ltb r e.1 then (r, d) :: l
               else l
  end.

(** [insert]: the flag says whether the returned iterator is not [end()]. *)
Definition insert (r : AddrRange.t) (d : V) (m : t) : res (bool * t) :=
  '(o, m') ← intersects_range r m;
  match o with
  | Some _ => Ok (false, m')
  | None => Ok (true, mk (tree_insert r d (tree m')) (cache m'))
  end.

Definition list_remove (p : AddrRange.t) (l : list entry) : list entry :=
  base.filter (λ e, e.1 ≠ p) l.

Definition erase (p : AddrRange.t) (m : t) : t :=
  mk (list_remove p (tree m)) (list_remove p (cache m)).

(** [erase(p, q)] for the run [ps] of keys from [p] up to [q]: the loop
    removes [p], not the loop variable, from the cache. *)
Definition erase_run (ps : list AddrRange.t) (m : t) : t :=
  match ps with
  | [] => m
  | p :: _ =>
      mk (foldl (λ l q, list_remove q l) (tree m) ps)
         (foldl (λ c _, list_remove p c) (cache m) ps)
  end.

Definition clear (m : t) : t := mk [] [].

(** ** Invariant *)

Definition proper (e : entry) : Prop :=
  contiguous e.1 ∧ 0 <= AddrRange._start e.1 < AddrRange._end e.1 ∧
  AddrRange._end e.1 < 2 ^ 64.

Definition precedes (e e' : entry) : Prop := AddrRange._end e.1 <= AddrRange._start e'.1.

(** The tree holds disjoint contiguous ranges in address order, and the cache
    only refers to entries of the tree. *)
Record wf (m : t) : Prop := {
  wf_proper : Forall proper (tree m);
  wf_sorted : StronglySorted precedes (tree m);
  wf_cache : Forall (λ e, e ∈ tree m) (cache m);
}.

(** ** Lookup *)

Lemma upper_bound_app r l : (upper_bound r l).1 ++ (upper_bound r l).2 = l.
Proof.
  induction l as [|e l IH]; simpl; [done|]. destruct (ltb r e.1); [done|].
  destruct (upper_bound r l). simpl in *. by f_equal.
Qed.

Lemma upper_bound_before r l :
  contiguous r → Forall proper l →
  Forall (λ e, AddrRange._start e.1 <= AddrRange._start r) (upper_bound r l).1.
Proof.
  intros Hr. induction 1 as [|e l [He _] _ IH]; simpl; [constructor|].
  rewrite AddrRange.ltb_contiguous by done.
  destruct (Z.ltb_spec (AddrRange._start r) (AddrRange._start e.1)); [constructor|].
  destruct (upper_bound r l). by constructor.
Qed.

Lemma upper_bound_after r l e s :
  contiguous r → Forall proper l → (upper_bound r l).2 = e :: s →
  AddrRange._start r < AddrRange._start e.1.
Proof.
  intros Hr. induction 1 as [|e' l [He _] _ IH]; simpl; [done|].
  rewrite AddrRange.ltb_contiguous by done.
  destruct (Z.ltb_spec (AddrRange._start r) (AddrRange._start e'.1)); [naive_solver|].
  by destruct (upper_bound r l).
Qed.

Lemma precedes_in_order (l1 l2 : list entry) e e' :
  StronglySorted precedes (l1 ++ l2) → e ∈ l1 → e' ∈ l2 → precedes e e'.
Proof.
  induction l1 as [|x l1 IH]; intros Hs He He'; [by apply not_elem_of_nil in He|].
  apply StronglySorted_inv in Hs as [Hs Hf]. apply elem_of_cons in He as [->|He]; [|by apply IH].
  rewrite Forall_forall in Hf. apply Hf. set_solver.
Qed.

(** Two entries of the tree that contain the same address are the same. *)
Lemma tree_unique l e e' a :
  Forall proper l → StronglySorted precedes l → e ∈ l → e' ∈ l →
  contains e.1 a = true → contains e'.1 a = true → e = e'.
Proof.
  intros Hp Hs He He'. rewrite Forall_forall in Hp.
  pose proof (Hp e He) as [Hc _]. pose proof (Hp e' He') as [Hc' _].
  rewrite !AddrRange.contains_contiguous by done. intros Ha Ha'.
  apply list_elem_of_lookup in He as [i Hi]. apply list_elem_of_lookup in He' as [j Hj].
  assert (∀ (i j : nat) e e', (i < j)%nat → l !! i = Some e → l !! j = Some e' → precedes e e') as Hord.
  { clear -Hs. intros i j e e' Hij Hi Hj. rewrite <-(take_drop j l) in Hs.
    eapply precedes_in_order; [exact Hs| |].
    - apply list_elem_of_lookup. exists i. by rewrite lookup_take_lt.
    - apply list_elem_of_lookup. exists 0%nat. by rewrite lookup_drop, Nat.add_0_r. }
  unfold precedes in Hord. destruct (Nat.lt_trichotomy i j) as [Hij|[->|Hij]].
  - specialize (Hord i j e e' Hij Hi Hj). lia.
  - congruence.
  - specialize (Hord j i e' e Hij Hj Hi). lia.
Qed.

(** The decision taken by a lookup condition [cond] on proper ranges. *)
Definition decides (cond : AddrRange.t → res bool) (P : AddrRange.t → Prop) : Prop :=
  ∀ e : entry, proper e → ∃ b, cond e.1 = Ok b ∧ (b = true ↔ P e.1).

Lemma cache_find_spec cond P pre c :
  decides cond P → Forall proper c →
  (∃ it c', cache_find cond pre c = Ok (Some (it, c')) ∧ it ∈ c ∧ P it.1 ∧ c' ⊆ pre ++ c) ∨
  (cache_find cond pre c = Ok None ∧ Forall (λ e, ¬ P e.1) c).
Proof.
  intros Hd Hc. revert pre. induction Hc as [|it c Hit Hc IH]; intros pre; simpl.
  { right. done. }
  destruct (Hd it Hit) as ([] & -> & Hb); simpl.
  - left. exists it, (it :: pre ++ c). split_and!; [done|left|by apply Hb|set_solver].
  - destruct (IH (pre ++ [it])) as [(x & c' & -> & Hx & HP & Hsub)|[-> Hf]].
    + left. exists x, c'. split_and!; [done|by right|done|set_solver].
    + right. split; [done|]. constructor; [naive_solver|done].
Qed.

Lemma addNew_sub it c : addNewEntryToCache it c ⊆ it :: c.
Proof.
  unfold addNewEntryToCache. repeat case_bool_decide; [set_solver| |done].
  intros x [->|Hx]%elem_of_cons; [left|]. right. revert Hx. clear. induction c as [|y c IH]; simpl; [done|].
  destruct c; [by intros ?%not_elem_of_nil|]. set_solver.
Qed.

Lemma mergesWith_ordered (e e' : entry) :
  proper e → precedes e e' → mergesWith e.1 e'.1 = false.
Proof.
  intros (_ & He & _) Hp. unfold precedes in Hp.
  destruct (mergesWith e.1 e'.1) eqn:E; [|done].
  apply AddrRange.mergesWith_iff in E as (Hs & _ & _). lia.
Qed.

Lemma wf_find m it c :
  wf m → it ∈ tree m → c ⊆ it :: cache m → wf (mk (tree m) c).
Proof.
  intros [H1 H2 H3] Hit Hc. split; simpl; [done..|].
  apply Forall_forall. intros x [->|Hx]%Hc%elem_of_cons; [done|].
  rewrite Forall_forall in H3. by apply H3.
Qed.

(** On an ordered tree only the closest predecessor is tried. *)
Lemma find_back_spec cond P (before : list entry) :
  decides cond P → Forall proper before → StronglySorted precedes before →
  ∃ o, find_back cond (rev before) = Ok o ∧
       match o with
       | Some e => last before = Some e ∧ P e.1
       | None => ∀ e, last before = Some e → ¬ P e.1
       end.
Proof.
  intros Hd Hp Hs. destruct before as [|x before _] using rev_ind; [by exists None|].
  rewrite rev_unit. cbn [find_back]. pose proof (last_snoc x before) as Hl.
  apply Forall_app in Hp as [Hp Hx]. apply Forall_cons_1 in Hx as [Hx _].
  destruct (Hd x Hx) as ([] & -> & Hb); simpl; [exists (Some x); naive_solver|].
  exists None. split; [|intros e; rewrite Hl; naive_solver]. destruct (rev before) as [|y l] eqn:E; [done|].
  assert (y ∈ before) as Hy by (rewrite list_elem_of_In, in_rev, E; by left).
  rewrite mergesWith_ordered; [done|rewrite Forall_forall in Hp; by apply Hp|].
  eapply precedes_in_order; [exact Hs|done|]. by apply list_elem_of_singleton.
Qed.

(** The two candidates of a lookup: the first entry after [r] and the last
    one before it. *)
Definition local (r : AddrRange.t) (P : AddrRange.t → Prop) (l : list entry) : Prop :=
  ∀ e, e ∈ l → P e.1 →
    (∃ x, head (upper_bound r l).2 = Some x ∧ P x.1) ∨
    (∃ x, last (upper_bound r l).1 = Some x ∧ P x.1).

Lemma find_spec r cond P m :
  wf m → contiguous r → decides cond P → local r P (tree m) →
  ∃ o m', find r cond m = Ok (o, m') ∧ tree m' = tree m ∧ wf m' ∧
    match o with
    | Some e => e ∈ tree m ∧ P e.1
    | None => ∀ e, e ∈ tree m → ¬ P e.1
    end.
Proof.
  intros Hwf Hr Hd Hloc. pose proof Hwf as [Hp Hs Hcache].
  assert (Forall proper (cache m)) as Hpc.
  { eapply Forall_impl; [exact Hcache|]. rewrite Forall_forall in Hp. auto. }
  unfold find.
  destruct (cache_find_spec _ P [] (cache m) Hd Hpc) as [(it & c' & -> & Hit & HP & Hsub)|[-> Hf]]; simpl.
  { rewrite Forall_forall in Hcache. specialize (Hcache it Hit).
    eexists _, _; split; [done|]. split; [done|]. split; [|done].
    eapply wf_find; [done|exact Hcache|set_solver]. }
  pose proof (upper_bound_app r (tree m)) as Happ. unfold local in Hloc.
  destruct (upper_bound r (tree m)) as [before after]; simpl in *.
  rewrite <-Happ in Hp, Hs. apply Forall_app in Hp as [Hpb Hpa].
  assert (StronglySorted precedes before) as Hsb by (by eapply StronglySorted_app_1_l).
  destruct (find_back_spec cond P before Hd Hpb Hsb) as (o & Ho & HoP).
  assert (∀ x, last before = Some x → x ∈ tree m) as Hlast.
  { intros x Hx. rewrite <-Happ. apply elem_of_app. left.
    rewrite last_lookup in Hx. by eapply list_elem_of_lookup_2. }
  assert (∀ x c, x ∈ tree m → c = addNewEntryToCache x (cache m) → wf (mk (tree m) c)) as Hwf'.
  { intros x c Hx ->. eapply wf_find; [done|exact Hx|apply addNew_sub]. }
  destruct after as [|next after]; simpl.
  - rewrite Ho. simpl. eexists _, _; split; [done|]. destruct o as [x|]; simpl.
    + destruct HoP as [Hx HPx]. specialize (Hlast x Hx). eauto 6.
    + split_and!; [done..|]. intros e He HPe. destruct (Hloc e He HPe) as [(?&?&?)|(x&?&?)]; [done|].
      naive_solver.
  - assert (next ∈ tree m) as Hn by (rewrite <-Happ; set_solver).
    apply Forall_cons_1 in Hpa as [Hpn _]. destruct (Hd next Hpn) as ([] & -> & Hb); simpl.
    { eexists _, _; split; [done|]. split_and!; [done|by eapply Hwf'|done|by apply Hb]. }
    rewrite Ho. simpl. eexists _, _; split; [done|]. destruct o as [x|]; simpl.
    + destruct HoP as [Hx HPx]. specialize (Hlast x Hx). eauto 6.
    + split_and!; [done..|]. intros e He HPe.
      destruct (Hloc e He HPe) as [(?&[= <-]&?)|(x&?&?)]; naive_solver.
Qed.

(** An entry that includes the first address of [r] is the last one before
    the upper bound. *)
Lemma start_local r (l : list entry) e :
  contiguous r → Forall proper l → StronglySorted precedes l → e ∈ l →
  AddrRange._start e.1 <= AddrRange._start r < AddrRange._end e.1 →
  last (upper_bound r l).1 = Some e.
Proof.
  intros Hr. induction 1 as [|x l [Hx [Hxs _]] Hp IH]; intros Hs He Hr0;
    [by apply not_elem_of_nil in He|].
  apply StronglySorted_inv in Hs as [Hs Hf]. simpl. rewrite AddrRange.ltb_contiguous by done.
  assert (AddrRange._start x.1 <= AddrRange._start e.1) as Hle.
  { apply elem_of_cons in He as [->|He]; [done|]. rewrite Forall_forall in Hf.
    specialize (Hf e He). unfold precedes in Hf. lia. }
  destruct (Z.ltb_spec (AddrRange._start r) (AddrRange._start x.1)); [lia|].
  apply elem_of_cons in He as [->|He].
  - destruct l as [|y l]; [done|]. simpl. apply Forall_cons_1 in Hf as [Hxy _].
    apply Forall_cons_1 in Hp as [[Hy _] _]. rewrite AddrRange.ltb_contiguous by done.
    unfold precedes in Hxy. destruct (Z.ltb_spec (AddrRange._start r) (AddrRange._start y.1)); [done|lia].
  - specialize (IH Hs He Hr0). destruct (upper_bound r l) as [b a]. simpl in *.
    destruct b; done.
Qed.

(** [contains(range)] on contiguous ranges: with or without a cache hit, the
    lookup finds the entry that includes the range, if there is one. *)
Lemma contains_range_spec r m :
  wf m → contiguous r → AddrRange._start r < AddrRange._end r →
  ∃ o m', contains_range r m = Ok (o, m') ∧ tree m' = tree m ∧ wf m' ∧
    ∀ e, o = Some e ↔ e ∈ tree m ∧ ∀ a, contains r a = true → contains e.1 a = true.
Proof.
  intros Hwf Hr Hne. pose proof Hwf as [Hp Hs _].
  assert (contains r (AddrRange._start r) = true) as Hr0
    by (apply AddrRange.contains_contiguous; [done|lia]).
  destruct (find_spec r (λ r1, isSubset r r1)
    (λ r1, ∀ a, contains r a = true → contains r1 a = true) m) as (o & m' & Hfind & Ht & Hwf' & Ho).
  - done.
  - done.
  - intros e (He & Hr1 & _). apply AddrRange.isSubset_contiguous; done || lia.
  - intros e He HP. right. exists e. split; [|done]. apply start_local; [done..|].
    apply HP in Hr0. rewrite Forall_forall in Hp.
    apply AddrRange.contains_contiguous in Hr0; [done|by apply Hp].
  - exists o, m'. split_and!; [done..|]. intros e. destruct o as [x|].
    + split; [intros [= <-]; done|]. intros [He HPe]. destruct Ho as [Hx HPx].
      f_equal. eapply tree_unique; eauto.
    + split; [done|]. intros [He HPe]. destruct (Ho e He HPe).
Qed.

(** ** Insertion and removal *)

Definition overlaps (r r1 : AddrRange.t) : Prop :=
  ∃ a, contains r a = true ∧ contains r1 a = true.

Lemma overlaps_iff r r1 :
  contiguous r → contiguous r1 → AddrRange._start r < AddrRange._end r →
  AddrRange._start r1 < AddrRange._end r1 →
  overlaps r r1 ↔ AddrRange._start r < AddrRange._end r1 ∧ AddrRange._start r1 < AddrRange._end r.
Proof.
  intros Hr Hr1 Hn Hn1. unfold overlaps. setoid_rewrite AddrRange.contains_contiguous; [|done..].
  split; [intros (a & ? & ?); lia|]. intros.
  exists (Z.max (AddrRange._start r) (AddrRange._start r1)). lia.
Qed.

Lemma after_local r (l : list entry) e :
  contiguous r → Forall proper l → StronglySorted precedes l → e ∈ l →
  AddrRange._start r < AddrRange._start e.1 →
  ∃ x, head (upper_bound r l).2 = Some x ∧ x ∈ l ∧
       AddrRange._start r < AddrRange._start x.1 <= AddrRange._start e.1.
Proof.
  intros Hr. induction 1 as [|x l [Hx [Hxs _]] Hp IH]; intros Hs He Hlt;
    [by apply not_elem_of_nil in He|].
  apply StronglySorted_inv in Hs as [Hs Hf]. simpl. rewrite AddrRange.ltb_contiguous by done.
  destruct (Z.ltb_spec (AddrRange._start r) (AddrRange._start x.1)).
  - exists x. split_and!; [done|left|done|]. apply elem_of_cons in He as [->|He]; [done|].
    rewrite Forall_forall in Hf. specialize (Hf e He). unfold precedes in Hf. lia.
  - apply elem_of_cons in He as [->|He]; [lia|]. destruct (IH Hs He Hlt) as (y & Hy & Hin & ?).
    destruct (upper_bound r l). exists y. split_and!; [done|by right|lia..].
Qed.

Lemma intersects_range_spec r m :
  wf m → contiguous r → AddrRange._start r < AddrRange._end r →
  ∃ o m', intersects_range r m = Ok (o, m') ∧ tree m' = tree m ∧ wf m' ∧
    match o with
    | Some e => e ∈ tree m ∧ overlaps r e.1
    | None => ∀ e, e ∈ tree m → ¬ overlaps r e.1
    end.
Proof.
  intros Hwf Hr Hne. pose proof Hwf as [Hp Hs _].
  apply find_spec; [done..| |].
  - intros e (He & Hr1 & _). rewrite AddrRange.intersects_contiguous by done.
    eexists; split; [done|]. rewrite overlaps_iff by (done || lia).
    rewrite negb_true_iff, orb_false_iff, !Z.leb_gt. lia.
  - intros e He HP. pose proof Hp as Hp'. rewrite Forall_forall in Hp'.
    pose proof (Hp' e He) as (Hce & Hre & _).
    apply overlaps_iff in HP; [|done || lia..].
    destruct (Z_le_gt_dec (AddrRange._start e.1) (AddrRange._start r)).
    + right. exists e. split; [apply start_local; done || lia|]. apply overlaps_iff; done || lia.
    + left. destruct (after_local r (tree m) e) as (x & Hx & Hin & ?); [done..|lia|].
      exists x. split; [done|]. destruct (Hp' x Hin) as (? & ? & _). apply overlaps_iff; done || lia.
Qed.

Lemma tree_insert_spec r d (l : list entry) :
  proper (r, d) → Forall proper l → StronglySorted precedes l →
  (∀ e, e ∈ l → ¬ overlaps r e.1) →
  tree_insert r d l ≡ₚ (r, d) :: l ∧ StronglySorted precedes (tree_insert r d l).
Proof.
  intros Hrd Hp. induction Hp as [|x l Hx Hp IH]; intros Hs Hno; simpl.
  { split; [done|]. repeat constructor. }
  pose proof Hs as [Hs' Hf]%StronglySorted_inv.
  pose proof Hrd as (Hr & Hr0 & _). pose proof Hx as (Hcx & Hx0 & _). simpl in Hr, Hr0.
  rewrite !AddrRange.ltb_contiguous by done.
  assert (¬ overlaps r x.1) as Hnx by (apply Hno; left).
  rewrite overlaps_iff in Hnx by (done || lia).
  destruct (Z.ltb_spec (AddrRange._start x.1) (AddrRange._start r)).
  - destruct IH as [IHp IHs]; [done|intros e He; apply Hno; by right|].
    split; [rewrite IHp; by constructor|]. constructor; [done|]. rewrite IHp.
    constructor; [unfold precedes; simpl; lia|done].
  - destruct (Z.ltb_spec (AddrRange._start r) (AddrRange._start x.1)); [|lia].
    split; [done|]. constructor; [done|]. constructor; [unfold precedes; simpl; lia|].
    eapply Forall_impl; [exact Hf|]. unfold precedes. simpl. lia.
Qed.

(** Insertion into a well-formed map. *)
Lemma insert_entry r d m :
  wf m → proper (r, d) →
  ∃ b m', insert r d m = Ok (b, m') ∧ wf m' ∧
    (b = true ↔ ∀ e, e ∈ tree m → ¬ overlaps r e.1) ∧
    tree m' ≡ₚ (if b then [(r, d)] else []) ++ tree m.
Proof.
  intros Hwf Hrd. pose proof Hrd as (Hr & Hr0 & _). simpl in Hr, Hr0.
  unfold insert. destruct (intersects_range_spec r m) as (o & m1 & -> & Ht & Hwf1 & Ho);
    [done..|lia|]. simpl. destruct o as [e|].
  - exists false, m1. rewrite Ht. split_and!; [done..| |done]. destruct Ho as [He Ho].
    split; [done|]. intros Hno. destruct (Hno e He Ho).
  - eexists true, _. split; [done|]. destruct Hwf1 as [Hp Hs Hc]. rewrite Ht in *.
    destruct (tree_insert_spec r d (tree m)) as [Hperm Hs']; [done..|].
    split_and!; [|done|done]. split; simpl; rewrite ?Hperm; [by constructor|done|].
    eapply Forall_impl; [exact Hc|]. intros x Hx. rewrite Hperm. by right.
Qed.

(** C35: [insert] of a contiguous range succeeds exactly when the range
    overlaps no entry; the map then holds the new entry, and stays ordered,
    disjoint and consistent with its cache. *)
Theorem insert_spec r d m :
  wf m → proper (r, d) →
  ∃ b m', insert r d m = Ok (b, m') ∧ wf m' ∧
    (b = true ↔ ∀ e, e ∈ tree m → ¬ overlaps r e.1) ∧
    tree m' ≡ₚ (if b then [(r, d)] else []) ++ tree m.
Proof. apply insert_entry. Qed.

Lemma list_remove_sub p (l : list entry) : list_remove p l ⊆ l.
Proof. unfold list_remove. intros x Hx. by apply list_elem_of_filter in Hx as [_ ?]. Qed.

Lemma StronglySorted_filter (R : entry → entry → Prop) (P : entry → Prop)
    `{!∀ x, Decision (P x)} l :
  StronglySorted R l → StronglySorted R (base.filter P l).
Proof.
  induction 1 as [|x l Hs IH Hf]; [constructor|]. rewrite filter_cons. case_decide; [|done].
  constructor; [done|]. rewrite Forall_forall in *. intros y Hy.
  apply Hf. by apply list_elem_of_filter in Hy as [_ ?].
Qed.

Lemma erase_wf p m : wf m → wf (erase p m).
Proof.
  intros [Hp Hs Hc]. unfold erase, list_remove. split; simpl.
  - rewrite Forall_forall in *. intros x Hx. apply Hp. by apply list_elem_of_filter in Hx as [_ ?].
  - by apply StronglySorted_filter.
  - rewrite Forall_forall in *. intros x [Hne Hx]%list_elem_of_filter.
    apply list_elem_of_filter. split; [done|]. by apply Hc.
Qed.

(** Decoding an address of a well-formed map returns the value of the
    entry containing it, whatever the cache holds, and nothing otherwise. *)
Lemma contains_addr_lookup a m :
  wf m → 0 <= a < 2 ^ 64 - 1 →
  ∃ o m', contains_addr a m = Ok (o, m') ∧ tree m' = tree m ∧ wf m' ∧
    ∀ e, o = Some e ↔ e ∈ tree m ∧ contains e.1 a = true.
Proof.
  intros Hwf Ha. unfold contains_addr, RangeSize. rewrite u64_small by auto with width.
  destruct (contains_range_spec (plain a (a + 1)) m) as (o & m' & Hf & Ht & Hwf' & Ho);
    [done|done|simpl; lia|].
  exists o, m'. split_and!; [done..|]. intros e. rewrite Ho.
  setoid_rewrite AddrRange.contains_plain. split; intros [He Hc]; (split; [done|]).
  - apply Hc. lia.
  - intros a' ?. by assert (a' = a) as -> by lia.
Qed.

End Map.

Arguments t : clear implicits.
Arguments mk {V} tree cache.

(** [erase(p, q)] leaves in the cache the entries of the run other than [p],
    which are no longer in the tree. *)
Lemma erase_run_stale :
  let e1 := (plain 0 16, 1%nat) in let e2 := (plain 16 32, 2%nat) in
  let m := mk [e1; e2] [e2; e1] in
  wf m ∧ e2 ∈ cache (erase_run [e1.1; e2.1] m) ∧ tree (erase_run [e1.1; e2.1] m) = [].
Proof.
  split_and!.
  - split; simpl; repeat constructor; simpl; unfold precedes; simpl; set_solver || lia.
  - vm_compute. left.
  - done.
Qed.

(** A run of address decodes, each on the map (and cache) the previous one left. *)
Fixpoint decode_all {V : Type} (max_cache_size : nat) (addrs : list Z) (m : t V)
    : res (list (option (AddrRange.t * V))) :=
  match addrs with
  | [] => Ok []
  | a :: addrs =>
      '(o, m) ← contains_addr max_cache_size a m;
      os ← decode_all max_cache_size addrs m;
      Ok (o :: os)
  end.

(** In any sequence of lookups, each returns the entry containing its
    address, or nothing when there is none: the recently-used cache is never
    observable. *)
Theorem contains_addr_spec {V : Type} (n : nat) addrs (m : t V) :
  wf m → Forall (λ a, 0 <= a < 2 ^ 64 - 1) addrs →
  ∃ os, decode_all (V:=V) n addrs m = Ok os ∧
    Forall2 (λ a o, ∀ e, o = Some e ↔ e ∈ tree m ∧ contains e.1 a = true) addrs os.
Proof.
  intros Hwf Ha. revert m Hwf. induction Ha as [|a addrs Ha _ IH]; intros m Hwf; simpl.
  { exists []. split; [done|constructor]. }
  destruct (contains_addr_lookup n a m Hwf Ha) as (o & m' & -> & Ht & Hwf' & Ho). simpl.
  destruct (IH m' Hwf') as (os & -> & Hos). simpl. eexists. split; [done|].
  constructor; [done|]. by rewrite Ht in Hos.
Qed.

Definition demo : t nat := mk [(plain 0 16, 1%nat); (plain 32 64, 2%nat)] [].

Lemma demo_map_wf : wf demo.
Proof.
  split; [|repeat constructor; unfold precedes; simpl; lia|constructor].
  constructor; [|constructor; [|constructor]]; (split; [split; reflexivity|simpl; lia]).
Qed.

Lemma contains_addr_witness :
  ∃ os, decode_all 1 [40; 3; 20] demo = Ok os ∧ map (option_map snd) os = [Some 2%nat; Some 1%nat; None].
Proof.
  destruct (contains_addr_spec 1 [40; 3; 20] demo demo_map_wf) as (os & Hos & _).
  - repeat constructor; vm_compute; congruence.
  - exists os. split; [exact Hos|]. vm_compute in Hos. injection Hos as <-. reflexivity.
Defined.

Lemma insert_spec_witness :
  ∃ m', insert 1 (plain 16 32) 3%nat demo = Ok (true, m') ∧ wf m'.
Proof.
  destruct (insert_spec 1 (plain 16 32) 3%nat demo demo_map_wf) as (b & m' & Hi & Hwf & _).
  - split; [split; reflexivity|simpl; lia].
  - exists m'. split; [|exact Hwf]. rewrite Hi. vm_compute in Hi. congruence.
Defined.

End AddrRangeMap.
