(* ===== verification/EventQueue.v ===== *)
(** The discrete-event core, [src/gem5_sim/src/sim/eventq.{hh,cc}]: events are
    linked in a list of bins ([nextBin]), one per (time, priority), each bin a
    stack ([nextInBin]).  The pointers live in a heap of events, stale
    [nextBin] pointers included; the queue is refined to an ordered list of
    stacks. *)

From S2P Require Import Prelude.

Module EventQueue.

Notation id := positive.

Record Event := mkEvent {
  nextBin : option id;
  nextInBin : option id;
  _when : Z;
  _priority : Z;
  squashed : bool;
  scheduled : bool;
  managed : bool;
  isExitEvent : bool;
  isMainQueue : bool;
  initialized : bool;
  queue : option positive;
}.

Notation heap := (gmap id Event).

Definition set_nextBin (p : option id) (e : Event) : Event :=
  mkEvent p (nextInBin e) (_when e) (_priority e)
    (squashed e) (scheduled e) (managed e) (isExitEvent e) (isMainQueue e)
    (initialized e) (queue e).

Definition set_nextInBin (p : option id) (e : Event) : Event :=
  mkEvent (nextBin e) p (_when e) (_priority e)
    (squashed e) (scheduled e) (managed e) (isExitEvent e) (isMainQueue e)
    (initialized e) (queue e).

(** [setWhen(when, q)]. *)
Definition setWhen (w : Z) (q : positive) (e : Event) : Event :=
  mkEvent (nextBin e) (nextInBin e) w (_priority e)
    (squashed e) (scheduled e) (managed e) (isExitEvent e) (isMainQueue e)
    (initialized e) (Some q).

Definition set_squashed (b : bool) (e : Event) : Event :=
  mkEvent (nextBin e) (nextInBin e) (_when e) (_priority e)
    b (scheduled e) (managed e) (isExitEvent e) (isMainQueue e)
    (initialized e) (queue e).

Definition set_scheduled (b : bool) (e : Event) : Event :=
  mkEvent (nextBin e) (nextInBin e) (_when e) (_priority e)
    (squashed e) b (managed e) (isExitEvent e) (isMainQueue e)
    (initialized e) (queue e).

(** Pointer dereference. *)
Definition deref (h : heap) (p : id) : res Event :=
  match h !! p with Some e => Ok e | None => Fail UndefinedBehaviour end.

(** [operator<], [operator<=] and [operator==] on events. *)
Definition ev_ltb (l r : Event) : bool :=
  (_when l <? _when r) || ((_when l =? _when r) && (_priority l <? _priority r)).

Definition ev_leb (l r : Event) : bool :=
  (_when l <? _when r) || ((_when l =? _when r) && (_priority l <=? _priority r)).

Definition ev_eqb (l r : Event) : bool :=
  (_when l =? _when r) && (_priority l =? _priority r).

Definition insertBefore (h : heap) (event : id) (curr : option id) : res heap :=
  e ← deref h event;
  match curr with
  | None => Ok (<[event := set_nextInBin None (set_nextBin None e)]> h)
  | Some c =>
      ce ← deref h c;
      if ev_ltb e ce
      then Ok (<[event := set_nextInBin None (set_nextBin (Some c) e)]> h)
      else Ok (<[event := set_nextInBin (Some c) (set_nextBin (nextBin ce) e)]> h)
  end.

(** The search loop shared by [insert] and [remove]:
    [while (curr && *curr < *event) { prev = curr; curr = curr->nextBin; }]. *)
Fixpoint walk (fuel : nat) (h : heap) (e : Event) (prev : id) (curr : option id)
    : res (id * option id) :=
  match curr with
  | None => Ok (prev, None)
  | Some c =>
      ce ← deref h c;
      if ev_ltb ce e then
        match fuel with
        | O => Fail OutOfFuel
        | S fuel => walk fuel h e c (nextBin ce)
        end
      else Ok (prev, Some c)
  end.

Definition insert (h : heap) (head : option id) (event : id) : res (heap * option id) :=
  match head with
  | None => h' ← insertBefore h event None; Ok (h', Some event)
  | Some hd =>
      he ← deref h hd;
      e ← deref h event;
      if ev_leb e he then
        h' ← insertBefore h event (Some hd);
        Ok (h', Some event)
      else
        '(prev, curr) ← walk (size h) h e hd (nextBin he);
        h' ← insertBefore h event curr;
        pe ← deref h' prev;
        Ok (<[prev := set_nextBin (Some event) pe]> h', Some hd)
  end.

(** The loop of [removeItem]: returns the node whose [nextInBin] is [event]. *)
Fixpoint find_in_bin (fuel : nat) (h : heap) (event curr : id) (next : option id) : res id :=
  if bool_decide (next = Some event) then Ok curr
  else
    match next with
    | None => Fail PanicFailure
    | Some n =>
        match fuel with
        | O => Fail OutOfFuel
        | S fuel => ne ← deref h n; find_in_bin fuel h event n (nextInBin ne)
        end
    end.

Definition removeItem (h : heap) (event top : id) : res (heap * option id) :=
  te ← deref h top;
  if bool_decide (event = top) then
    match nextInBin te with
    | None => Ok (h, nextBin te)
    | Some n =>
        ne ← deref h n;
        Ok (<[n := set_nextBin (nextBin te) ne]> h, Some n)
    end
  else
    curr ← find_in_bin (size h) h event top (nextInBin te);
    ce ← deref h curr;
    ne ← deref h event;
    Ok (<[curr := set_nextInBin (nextInBin ne) ce]> h, Some top).

Definition remove (this : positive) (h : heap) (head : option id) (event : id)
    : res (heap * option id) :=
  match head with
  | None => Fail PanicFailure
  | Some hd =>
      e ← deref h event;
      assert! (bool_decide (queue e = Some this));
      he ← deref h hd;
      if ev_eqb he e then removeItem h event hd
      else
        '(prev, curr) ← walk (size h) h e hd (nextBin he);
        match curr with
        | None => Fail PanicFailure
        | Some c =>
            ce ← deref h c;
            if ev_eqb ce e then
              '(h', top) ← removeItem h event c;
              pe ← deref h' prev;
              Ok (<[prev := set_nextBin top pe]> h', Some hd)
            else Fail PanicFailure
        end
  end.

(** ** The queue object *)

(** [this] is the address of the queue, which its events record. *)
Record t := mk {
  this : positive;
  events : heap;
  head : option id;
  _curTick : Z;
  async_queue : list id;
}.

Definition set_events (h : heap) (q : t) : t := mk (this q) h (head q) (_curTick q) (async_queue q).

Definition update_event (f : Event → Event) (ev : id) (q : t) : t :=
  set_events (alter f ev (events q)) q.

Definition empty (q : t) : bool := bool_decide (head q = None).

Definition nextTick (q : t) : res Z :=
  match head q with
  | None => Fail UndefinedBehaviour
  | Some hd => he ← deref (events q) hd; Ok (_when he)
  end.

(** [release()]: a managed event that is not scheduled deletes itself. *)
Definition release (ev : id) (q : t) : res t :=
  e ← deref (events q) ev;
  if managed e && negb (scheduled e) then Ok (set_events (delete ev (events q)) q)
  else Ok q.

Definition insertq (ev : id) (q : t) : res t :=
  '(h, hd) ← insert (events q) (head q) ev;
  Ok (mk (this q) h hd (_curTick q) (async_queue q)).

(** [schedule]; [remote] is the condition under which the insertion goes to
    the asynchronous queue,
    [inParallelMode && (this != curEventQueue() || global)]. *)
Definition schedule (ev : id) (when : Z) (remote : bool) (q : t) : res t :=
  e ← deref (events q) ev;
  assert! (_curTick q <=? when);
  assert! (negb (scheduled e));
  assert! (initialized e);
  let q := update_event (setWhen when (this q)) ev q in
  q ← (if remote then Ok (mk (this q) (events q) (head q) (_curTick q) (async_queue q ++ [ev]))
       else insertq ev q);
  Ok (update_event (set_scheduled true) ev q).

Definition removeq (ev : id) (q : t) : res t :=
  '(h, hd) ← remove (this q) (events q) (head q) ev;
  Ok (mk (this q) h hd (_curTick q) (async_queue q)).

(** [deschedule]; [foreign] is [inParallelMode && this != curEventQueue()]. *)
Definition deschedule (ev : id) (foreign : bool) (q : t) : res t :=
  e ← deref (events q) ev;
  assert! (scheduled e);
  assert! (initialized e);
  assert! (negb foreign);
  q ← removeq ev q;
  release ev (update_event (set_scheduled false) ev (update_event (set_squashed false) ev q)).

Definition reschedule (ev : id) (when : Z) (always foreign : bool) (q : t) : res t :=
  e ← deref (events q) ev;
  assert! (_curTick q <=? when);
  assert! (always || scheduled e);
  assert! (initialized e);
  assert! (negb foreign);
  q ← (if scheduled e then removeq ev q else Ok q);
  q ← insertq ev (update_event (setWhen when (this q)) ev q);
  Ok (update_event (set_scheduled true) ev (update_event (set_squashed false) ev q)).

(** The part of [serviceOne] that unlinks the head. *)
Definition pop_head (q : t) : res (id * t) :=
  match head q with
  | None => Fail UndefinedBehaviour
  | Some ev =>
      let q := update_event (set_scheduled false) ev q in
      e ← deref (events q) ev;
      match nextInBin e with
      | Some n =>
          ne ← deref (events q) n;
          Ok (ev, mk (this q) (<[n := set_nextBin (nextBin e) ne]> (events q)) (Some n)
                     (_curTick q) (async_queue q))
      | None => Ok (ev, mk (this q) (events q) (nextBin e) (_curTick q) (async_queue q))
      end
  end.

(** [Event::squash]. *)
Definition squash (ev : id) (q : t) : t := update_event (set_squashed true) ev q.

(** [serviceOne]; [process ev] is the virtual [Event::process] of [ev], which
    acts on the queue and on the rest of the simulation, [W].  The result has
    the exit event, if one was serviced. *)
Definition serviceOne {W} (process : id → t → W → res (t * W)) (q : t) (s : W)
    : res (option id * t * W) :=
  '(ev, q) ← pop_head q;
  e ← deref (events q) ev;
  if squashed e then
    q ← release ev (update_event (set_squashed false) ev q);
    Ok (None, q, s)
  else
    '(q, s) ← process ev (mk (this q) (events q) (head q) (_when e) (async_queue q)) s;
    e ← deref (events q) ev;
    if isExitEvent e then
      assert! (negb (managed e) || negb (isMainQueue e));
      Ok (Some ev, q, s)
    else q ← release ev q; Ok (None, q, s).

(** [serviceEvents(when)], with a bound on the number of events serviced. *)
Fixpoint serviceEvents {W} (fuel : nat) (process : id → t → W → res (t * W)) (when : Z)
    (q : t) (s : W) : res (t * W) :=
  if empty q then Ok (mk (this q) (events q) (head q) when (async_queue q), s)
  else
    nt ← nextTick q;
    if when <? nt then Ok (mk (this q) (events q) (head q) when (async_queue q), s)
    else
      match fuel with
      | O => Fail OutOfFuel
      | S fuel => '(_, q, s) ← serviceOne process q s; serviceEvents fuel process when q s
      end.

Fixpoint insert_all (evs : list id) (q : t) : res t :=
  match evs with
  | [] => Ok q
  | ev :: evs => q ← insertq ev q; insert_all evs q
  end.

(** [handleAsyncInsertions]; [current] is [this == curEventQueue()]. *)
Definition handleAsyncInsertions (current : bool) (q : t) : res t :=
  assert! current;
  q' ← insert_all (async_queue q) q;
  Ok (mk (this q') (events q') (head q') (_curTick q') []).

(** ** Abstract specification: an ordered list of stacks *)

Notation key := (Z * Z)%type.

Definition ekey (e : Event) : key := (_when e, _priority e).

Definition key_lt (k k' : key) : Prop := k.1 < k'.1 ∨ (k.1 = k'.1 ∧ k.2 < k'.2).

#[global] Instance key_lt_dec k k' : Decision (key_lt k k').
Proof. unfold key_lt. apply _. Defined.

Notation aqueue := (list (key * list id)).

Fixpoint abs_insert (k : key) (ev : id) (q : aqueue) : aqueue :=
  match q with
  | [] => [(k, [ev])]
  | (k', b) :: q' =>
      if decide (key_lt k k') then (k, [ev]) :: q
      else if decide (k = k') then (k', ev :: b) :: q'
      else (k', b) :: abs_insert k ev q'
  end.

Definition push_bin (k : key) (b : list id) (q : aqueue) : aqueue :=
  if decide (b = []) then q else (k, b) :: q.

Fixpoint abs_remove (ev : id) (k : key) (q : aqueue) : aqueue :=
  match q with
  | [] => []
  | (k', b) :: q' =>
      if decide (k = k') then push_bin k' (base.filter (λ x, x ≠ ev) b) q'
      else (k', b) :: abs_remove ev k q'
  end.

Definition flat (q : aqueue) : list id := concat (q.*2).

(** ** The representation relation *)

(** [in_bin h k p l]: following [nextInBin] from [p] visits [l], all with key [k]. *)
Inductive in_bin (h : heap) (k : key) : option id → list id → Prop :=
  | in_bin_nil : in_bin h k None []
  | in_bin_cons x e l :
      h !! x = Some e → ekey e = k → in_bin h k (nextInBin e) l →
      in_bin h k (Some x) (x :: l).

(** [bins h p q]: the bins linked from [p]; only the [nextBin] of the top of
    each bin counts. *)
Inductive bins (h : heap) : option id → aqueue → Prop :=
  | bins_nil : bins h None []
  | bins_cons x e l q :
      h !! x = Some e → in_bin h (ekey e) (nextInBin e) l → bins h (nextBin e) q →
      bins h (Some x) ((ekey e, x :: l) :: q).

Definition ordered (q : aqueue) : Prop := StronglySorted (λ a b, key_lt a.1 b.1) q.

(** The linked structure [h, p] represents the queue [q]. *)
Record rep (h : heap) (p : option id) (q : aqueue) : Prop := {
  rep_bins : bins h p q;
  rep_ordered : ordered q;
  rep_nodup : NoDup (flat q);
}.

Lemma deref_Some h p e : h !! p = Some e → deref h p = Ok e.
Proof. unfold deref. by intros ->. Qed.

(** ** Comparisons *)

Lemma ev_ltb_key l r : ev_ltb l r = bool_decide (key_lt (ekey l) (ekey r)).
Proof.
  apply eq_true_iff_eq. unfold ev_ltb, key_lt, ekey. rewrite bool_decide_eq_true. simpl. lia.
Qed.

Lemma ev_leb_key l r : ev_leb l r = bool_decide (¬ key_lt (ekey r) (ekey l)).
Proof.
  apply eq_true_iff_eq. unfold ev_leb, key_lt, ekey. rewrite bool_decide_eq_true. simpl. lia.
Qed.

Lemma ev_eqb_key l r : ev_eqb l r = bool_decide (ekey l = ekey r).
Proof.
  apply eq_true_iff_eq. unfold ev_eqb, ekey. rewrite bool_decide_eq_true.
  rewrite andb_true_iff, !Z.eqb_eq. split; [intros []; congruence | intros [= ]; auto].
Qed.

Lemma key_lt_irrefl k : ¬ key_lt k k.
Proof. unfold key_lt. lia. Qed.

Lemma key_lt_trans k1 k2 k3 : key_lt k1 k2 → key_lt k2 k3 → key_lt k1 k3.
Proof. unfold key_lt. lia. Qed.

Lemma key_total k1 k2 : key_lt k1 k2 ∨ k1 = k2 ∨ key_lt k2 k1.
Proof.
  destruct k1 as [w1 p1], k2 as [w2 p2]. unfold key_lt. simpl.
  destruct (decide (w1 = w2)) as [->|]; [|lia].
  destruct (decide (p1 = p2)) as [->|]; [auto|lia].
Qed.

(** ** Frames *)

(** What the list operations leave alone: everything but the two links. *)
Definition payload (e : Event) : Event := set_nextBin None (set_nextInBin None e).

Definition same_payload (h h' : heap) : Prop := payload <$> h = payload <$> h'.

Lemma same_payload_insert (h : heap) x e e' :
  h !! x = Some e → payload e' = payload e → same_payload h (<[x := e']> h).
Proof.
  intros Hx Hp. unfold same_payload. rewrite fmap_insert, Hp.
  by rewrite insert_id; [|rewrite lookup_fmap, Hx].
Qed.

Lemma same_payload_lookup h h' x e :
  same_payload h h' → h !! x = Some e → ∃ e', h' !! x = Some e' ∧ payload e = payload e'.
Proof.
  intros Hs Hx. pose proof (f_equal (lookup x) Hs) as Heq.
  rewrite !lookup_fmap, Hx in Heq. destruct (h' !! x) as [e'|]; [|discriminate].
  injection Heq as Heq. exists e'. split; [done|]. destruct e, e'. cbv in *. congruence.
Qed.

Lemma payload_ekey e e' : payload e = payload e' → ekey e = ekey e'.
Proof. destruct e, e'. unfold payload. simpl. intros [= ]. by subst. Qed.

(** Two heaps agree on the fields of [x] the structure uses. *)
Definition same_links (h h' : heap) (x : id) : Prop :=
  ∀ e, h !! x = Some e →
    ∃ e', h' !! x = Some e' ∧ ekey e' = ekey e ∧ nextInBin e' = nextInBin e ∧
          nextBin e' = nextBin e.

Definition same_stack (h h' : heap) (x : id) : Prop :=
  ∀ e, h !! x = Some e →
    ∃ e', h' !! x = Some e' ∧ ekey e' = ekey e ∧ nextInBin e' = nextInBin e.

Lemma same_links_eq h h' x : h' !! x = h !! x → same_links h h' x.
Proof. intros Heq e He. exists e. by rewrite Heq. Qed.

Lemma same_links_stack h h' x : same_links h h' x → same_stack h h' x.
Proof. intros H e He. destruct (H e He) as (e' & ? & ? & ? & ?). eauto. Qed.

Lemma in_bin_frame h h' k p l :
  in_bin h k p l → (∀ x, x ∈ l → same_stack h h' x) → in_bin h' k p l.
Proof.
  induction 1 as [|x e l Hx Hk _ IH]; intros Hs; [constructor|].
  destruct (Hs x ltac:(left) e Hx) as (e' & Hx' & Hk' & Hn).
  apply (in_bin_cons _ _ _ e'); [done|congruence|].
  rewrite Hn. apply IH. intros y Hy. apply Hs. by right.
Qed.

Lemma bins_frame h h' p q :
  bins h p q → (∀ x, x ∈ flat q → same_links h h' x) → bins h' p q.
Proof.
  induction 1 as [|x e l q Hx Hl _ IH]; intros Hs; [constructor|].
  assert (x ∈ flat ((ekey e, x :: l) :: q)) as Hin by (cbn; left).
  destruct (Hs x Hin e Hx) as (e' & Hx' & Hk & Hn & Hb).
  rewrite <-Hk. constructor; [done| |].
  - rewrite Hk, Hn. apply (in_bin_frame h); [done|]. intros y Hy.
    apply same_links_stack, Hs. cbn. right. apply elem_of_app. by left.
  - rewrite Hb. apply IH. intros y Hy. apply Hs. cbn. right. apply elem_of_app. by right.
Qed.

Lemma in_bin_elem h k p l x : in_bin h k p l → x ∈ l → ∃ e, h !! x = Some e ∧ ekey e = k.
Proof.
  induction 1 as [|y e l Hy Hk _ IH]; intros Hx; [by apply not_elem_of_nil in Hx|].
  apply elem_of_cons in Hx as [->|Hx]; [eauto|auto].
Qed.

Lemma bins_elem h p q x :
  bins h p q → x ∈ flat q → ∃ e b, h !! x = Some e ∧ (ekey e, b) ∈ q ∧ x ∈ b.
Proof.
  induction 1 as [|y e l q Hy Hl _ IH]; intros Hx; [by apply not_elem_of_nil in Hx|].
  change (x ∈ (y :: l) ++ flat q) in Hx. apply elem_of_app in Hx as [Hx|Hx].
  - assert (∃ e', h !! x = Some e' ∧ ekey e' = ekey e) as (e' & He' & Hk).
    { apply elem_of_cons in Hx as [->|Hx]; [eauto|by eapply in_bin_elem]. }
    exists e', (y :: l). rewrite Hk. split_and!; [done|left|done].
  - destruct (IH Hx) as (e' & b & ? & ? & ?). exists e', b. split_and!; [done|by right|done].
Qed.

(** ** Fuel: the loops are bounded by the number of events *)

Lemma NoDup_size (h : heap) l :
  NoDup l → (∀ x, x ∈ l → is_Some (h !! x)) → (length l <= size h)%nat.
Proof.
  intros Hnd Hin. rewrite <-size_dom, <-(size_list_to_set (C:=gset id)) by done.
  apply subseteq_size. intros x Hx%elem_of_list_to_set. apply elem_of_dom. auto.
Qed.

Lemma bins_length h p q : bins h p q → (length q <= length (flat q))%nat.
Proof.
  induction 1 as [|x e l q _ _ _ IH]; [done|].
  unfold flat in *. cbn. rewrite length_app. lia.
Qed.

Lemma bins_fuel h p q : bins h p q → NoDup (flat q) → (length q <= size h)%nat.
Proof.
  intros Hb Hnd. etransitivity; [by eapply bins_length|]. apply NoDup_size; [done|]. intros x Hx.
  destruct (bins_elem _ _ _ _ Hb Hx) as (e & b & ? & _). eauto.
Qed.

(** ** Insertion *)

Definition hd_not_before (k : key) (q : aqueue) : Prop :=
  match q with [] => True | (k', _) :: _ => ¬ key_lt k' k end.

Lemma insertBefore_spec h ev e curr q :
  h !! ev = Some e → ev ∉ flat q → bins h curr q → hd_not_before (ekey e) q →
  ∃ e', insertBefore h ev curr = Ok (<[ev := e']> h) ∧ payload e' = payload e ∧
        bins (<[ev := e']> h) (Some ev) (abs_insert (ekey e) ev q).
Proof.
  intros He Hnin Hb Hhd. unfold insertBefore, deref. rewrite He. simpl.
  assert (∀ e' p q', (∀ x, x ∈ flat q' → x ∈ flat q) →
    bins h p q' → bins (<[ev := e']> h) p q') as Hfr.
  { intros e' p q' Hsub Hq'. apply (bins_frame h); [done|]. intros x Hx%Hsub.
    apply same_links_eq, lookup_insert_ne. congruence. }
  destruct Hb as [|x xe l q Hx Hl Hq]; simpl in *.
  - eexists. split_and!; [done|done|].
    apply (bins_cons _ _ (set_nextInBin None (set_nextBin None e)));
      [by rewrite lookup_insert_eq|constructor|constructor].
  - rewrite Hx. simpl. rewrite ev_ltb_key. case_decide as Hlt.
    + rewrite bool_decide_true by done. eexists. split_and!; [done|done|].
      apply (bins_cons _ _ (set_nextInBin None (set_nextBin (Some x) e)));
        [by rewrite lookup_insert_eq|constructor|].
      simpl. apply Hfr; [done|]. by constructor.
    + rewrite bool_decide_false by done.
      destruct (key_total (ekey e) (ekey xe)) as [?|[Hk|?]]; [done| |done].
      rewrite decide_True by done. eexists. split_and!; [done|done|].
      rewrite <-Hk in *.
      apply (bins_cons _ _ (set_nextInBin (Some x) (set_nextBin (nextBin xe) e)));
        [by rewrite lookup_insert_eq| |].
      * change (ekey (set_nextInBin _ _)) with (ekey e). simpl.
        apply (in_bin_frame h); [by apply (in_bin_cons _ _ _ xe)|].
        intros y Hy. apply same_links_stack, same_links_eq, lookup_insert_ne.
        intros ->. apply Hnin. change (y ∈ (x :: l) ++ flat q). apply elem_of_app. by left.
      * simpl. apply Hfr; [|done]. intros y Hy. change (y ∈ (x :: l) ++ flat q).
        apply elem_of_app. by right.
Qed.

Lemma abs_insert_after k ev k' b q :
  key_lt k' k → abs_insert k ev ((k', b) :: q) = (k', b) :: abs_insert k ev q.
Proof.
  intros Hlt. simpl. rewrite decide_False.
  2:{ intros Hlt'. apply (key_lt_irrefl k). by eapply key_lt_trans. }
  rewrite decide_False; [done|]. intros ->. by apply (key_lt_irrefl k').
Qed.

(** Relinking the [nextBin] of the top [p] of a bin. *)
Lemma bins_relink h p pe l nb q e' :
  h !! p = Some pe → in_bin h (ekey pe) (nextInBin pe) l →
  p ∉ l → p ∉ flat q → payload e' = payload pe → nextInBin e' = nextInBin pe →
  nextBin e' = nb → bins h nb q →
  bins (<[p := e']> h) (Some p) ((ekey pe, p :: l) :: q).
Proof.
  intros Hp Hl Hpl Hpq Hpay Hin <- Hq.
  rewrite (payload_ekey _ _ (eq_sym Hpay)) in *.
  constructor; [by rewrite lookup_insert_eq| |].
  - rewrite Hin. apply (in_bin_frame h); [done|]. intros y Hy.
    apply same_links_stack, same_links_eq, lookup_insert_ne. congruence.
  - apply (bins_frame h); [done|]. intros y Hy.
    apply same_links_eq, lookup_insert_ne. congruence.
Qed.

Lemma flat_cons k b q : flat ((k, b) :: q) = b ++ flat q.
Proof. done. Qed.

Lemma walk_stop fuel h e p curr q :
  bins h curr q → hd_not_before (ekey e) q → walk fuel h e p curr = Ok (p, curr).
Proof.
  intros Hb Hhd. destruct Hb as [|x xe l q Hx _ _]; destruct fuel; simpl in *; try done;
    unfold deref; rewrite Hx; simpl; rewrite ev_ltb_key, bool_decide_false; done.
Qed.

Lemma walk_step fuel h e p x xe :
  h !! x = Some xe → key_lt (ekey xe) (ekey e) →
  walk (S fuel) h e p (Some x) = walk fuel h e x (nextBin xe).
Proof.
  intros Hx Hlt. simpl. unfold deref. rewrite Hx. simpl.
  by rewrite ev_ltb_key, bool_decide_true.
Qed.

Lemma hd_not_before_dec k q :
  hd_not_before k q ∨ ∃ k' b q', q = (k', b) :: q' ∧ key_lt k' k.
Proof.
  destruct q as [|[k' b] q]; [by left|].
  destruct (decide (key_lt k' k)); [right; eauto 6|by left].
Qed.

Lemma elem_of_abs_insert k ev q x : x ∈ flat (abs_insert k ev q) ↔ x = ev ∨ x ∈ flat q.
Proof.
  induction q as [|[k' b] q IH]; [cbn; set_solver|]. simpl. repeat case_decide; subst.
  - cbn. set_solver.
  - cbn. set_solver.
  - rewrite !flat_cons, !elem_of_app, IH. tauto.
Qed.

(** The structure after inserting [ev] behind the bin of [p]: the shared
    conclusion of the cases of the search. *)
Definition inserted (h h' : heap) (ev : id) (k : key) (p : id) (pe : Event)
    (l : list id) (q : aqueue) : Prop :=
  same_payload h h' ∧ (∀ x, x ∉ ev :: p :: flat q → h' !! x = h !! x) ∧
  bins h' (Some p) ((ekey pe, p :: l) :: abs_insert k ev q).

Lemma insert_here h ev e p pe l q :
  h !! ev = Some e → h !! p = Some pe → in_bin h (ekey pe) (nextInBin pe) l →
  bins h (nextBin pe) q → NoDup ((p :: l) ++ flat q) → ev ∉ (p :: l) ++ flat q →
  hd_not_before (ekey e) q →
  ∃ h1 pe1, insertBefore h ev (nextBin pe) = Ok h1 ∧ h1 !! p = Some pe1 ∧
    inserted h (<[p := set_nextBin (Some ev) pe1]> h1) ev (ekey e) p pe l q.
Proof.
  intros Hev Hp Hl Hq Hnd Hnin Hhd.
  assert (p ≠ ev ∧ p ∉ l ∧ p ∉ flat q ∧ ev ∉ l ∧ ev ∉ flat q) as (? & ? & ? & ? & ?).
  { apply NoDup_cons in Hnd as [? _]. set_solver. }
  destruct (insertBefore_spec h ev e (nextBin pe) q) as (e' & Hib & Hpay & Hb'); try done.
  exists (<[ev := e']> h), pe. rewrite lookup_insert_ne by done.
  assert (same_payload h (<[ev := e']> h)) as Hs by by apply (same_payload_insert _ _ e).
  split_and!; [done|done|]. split_and!.
  - unfold same_payload. rewrite Hs. apply (same_payload_insert _ _ pe); [|done].
    by rewrite lookup_insert_ne.
  - intros x Hx. rewrite !lookup_insert_ne; set_solver.
  - eapply bins_relink; [by rewrite lookup_insert_ne| |done| |done|done|done|done].
    + apply (in_bin_frame h); [done|]. intros y Hy.
      apply same_links_stack, same_links_eq, lookup_insert_ne. congruence.
    + rewrite elem_of_abs_insert. naive_solver.
Qed.

(** The search loop and the relinking that follows it insert [ev] behind [p]. *)
Lemma walk_insert h ev e q : ∀ fuel p pe l,
  h !! ev = Some e → h !! p = Some pe → in_bin h (ekey pe) (nextInBin pe) l →
  bins h (nextBin pe) q → NoDup ((p :: l) ++ flat q) → ev ∉ (p :: l) ++ flat q →
  (length q <= fuel)%nat →
  ∃ prev curr h1 pe1, walk fuel h e p (nextBin pe) = Ok (prev, curr) ∧
    insertBefore h ev curr = Ok h1 ∧ h1 !! prev = Some pe1 ∧
    inserted h (<[prev := set_nextBin (Some ev) pe1]> h1) ev (ekey e) p pe l q.
Proof.
  induction q as [|[k b] q IH]; intros fuel p pe l Hev Hp Hl Hq Hnd Hnin Hfuel.
  - destruct (insert_here h ev e p pe l []) as (h1 & pe1 & ? & ? & ?); try done.
    exists p, (nextBin pe), h1, pe1. split; [|done]. by apply (walk_stop _ _ _ _ _ []).
  - destruct (hd_not_before_dec (ekey e) ((k, b) :: q)) as [Hhd|(k' & b' & q' & [= <- <- <-] & Hlt)].
    { destruct (insert_here h ev e p pe l ((k, b) :: q)) as (h1 & pe1 & ? & ? & ?); try done.
      exists p, (nextBin pe), h1, pe1. split; [|done]. by apply (walk_stop _ _ _ _ _ ((k, b) :: q)). }
    destruct fuel as [|fuel]; [simpl in *; lia|].
    inversion Hq as [|x xe lx q' Hx Hlx Hqx Hnb]; subst.
    rewrite flat_cons in *. apply NoDup_app in Hnd as (Hnd1 & Hdisj & Hnd2).
    destruct (IH fuel x xe lx) as (prev & curr & h1 & pe1 & Hw & Hib & Hprev & Hs & Hfr & Hb');
      try done; [set_solver|simpl in *; lia|].
    exists prev, curr, h1, pe1. rewrite (walk_step _ _ _ _ _ xe) by done.
    split_and!; [done|done|done|]. split_and!; [done| |].
    + intros y Hy. apply Hfr. set_solver.
    + rewrite abs_insert_after by done.
      assert (∀ y, y ∈ p :: l → <[prev:=set_nextBin (Some ev) pe1]> h1 !! y = h !! y) as Hpl.
      { intros y Hy. apply Hfr. specialize (Hdisj y Hy). set_solver. }
      constructor.
      * rewrite Hpl; [done|left].
      * apply (in_bin_frame h); [done|]. intros y Hy.
        apply same_links_stack, same_links_eq, Hpl. by right.
      * by rewrite <-Hnb.
Qed.

Lemma abs_insert_ordered k ev q : ordered q → ordered (abs_insert k ev q).
Proof.
  assert (∀ k0 q, Forall (λ b, key_lt k0 b.1) q → key_lt k0 k →
    Forall (λ b, key_lt k0 b.1) (abs_insert k ev q)) as Haux.
  { intros k0 q' Hall Hlt. induction Hall as [|[k' b] q' Hk Hall IH]; simpl.
    { by apply Forall_singleton. }
    repeat case_decide; subst; rewrite ?Forall_cons; done. }
  induction 1 as [|[k' b] q Hq IH Hall]; simpl; [by repeat constructor|].
  change (StronglySorted (λ a b, key_lt a.1 b.1) q) in Hq.
  case_decide as H1; [|case_decide as H2].
  - constructor; [by constructor|]. constructor; [done|].
    eapply Forall_impl; [done|]. intros [k2 b2]; simpl. intros. by eapply key_lt_trans.
  - by constructor.
  - constructor; [done|]. apply Haux; [done|].
    destruct (key_total k k') as [?|[?|?]]; done.
Qed.

Lemma abs_insert_perm k ev q : flat (abs_insert k ev q) ≡ₚ ev :: flat q.
Proof.
  induction q as [|[k' b] q IH]; [done|]. simpl. repeat case_decide; [done|done|].
  rewrite !flat_cons, IH. solve_Permutation.
Qed.

(** [EventQueue::insert] refines the insertion into the ordered list of
    stacks: it returns, keeps every event's payload and links exactly the new
    event. *)
Lemma insert_refines h hd q ev e :
  rep h hd q → h !! ev = Some e → ev ∉ flat q →
  ∃ h' hd', insert h hd ev = Ok (h', hd') ∧ rep h' hd' (abs_insert (ekey e) ev q) ∧
    same_payload h h'.
Proof.
  intros [Hb Ho Hnd] Hev Hnin.
  assert (ordered (abs_insert (ekey e) ev q)) as Ho' by by apply abs_insert_ordered.
  assert (NoDup (flat (abs_insert (ekey e) ev q))) as Hnd'.
  { rewrite abs_insert_perm. by constructor. }
  assert (hd_not_before (ekey e) q → ∃ h', insertBefore h ev hd = Ok h' ∧
    rep h' (Some ev) (abs_insert (ekey e) ev q) ∧ same_payload h h') as Hfront.
  { intros Hhd. destruct (insertBefore_spec h ev e hd q) as (e' & Hib & Hpay & Hb'); try done.
    eexists. split_and!; [done|by constructor|by eapply same_payload_insert]. }
  pose proof (bins_fuel _ _ _ Hb Hnd) as Hfuel.
  unfold insert. destruct Hb as [|x xe l q Hx Hl Hq].
  - destruct Hfront as (h' & -> & ? & ?); [done|]. simpl. eauto.
  - unfold deref. rewrite Hx, Hev. simpl. rewrite ev_leb_key. case_bool_decide as Hle.
    + destruct Hfront as (h' & -> & ? & ?); [done|]. simpl. eauto.
    + destruct (walk_insert h ev e q (size h) x xe l)
        as (prev & curr & h1 & pe1 & Hw & Hib & Hp & Hs & _ & Hb'); try done.
      { simpl in Hfuel. lia. }
      rewrite Hw. simpl. rewrite Hib. simpl. rewrite Hp. simpl. do 2 eexists.
      split_and!; [done| |done]. constructor; [|done|done].
      by rewrite <-(abs_insert_after (ekey e) ev) in Hb'.
Qed.

(** ** Removal *)

Lemma filter_ne_notin (ev : id) (l : list id) : ev ∉ l → base.filter (λ x, x ≠ ev) l = l.
Proof.
  induction l as [|x l IH]; [done|]. intros Hn.
  rewrite filter_cons_True by set_solver. rewrite IH by set_solver. done.
Qed.

Lemma find_in_bin_spec h k ev l : ∀ fuel curr ce,
  h !! curr = Some ce → in_bin h k (nextInBin ce) l → NoDup (curr :: l) → ev ∈ l →
  (length l <= fuel)%nat →
  ∃ c ce1 ne ce2, find_in_bin fuel h ev curr (nextInBin ce) = Ok c ∧
    h !! c = Some ce1 ∧ h !! ev = Some ne ∧ c ∈ curr :: l ∧
    <[c := set_nextInBin (nextInBin ne) ce1]> h !! curr = Some ce2 ∧
    nextBin ce2 = nextBin ce ∧ ekey ce2 = ekey ce ∧
    in_bin (<[c := set_nextInBin (nextInBin ne) ce1]> h) k (nextInBin ce2)
      (base.filter (λ x, x ≠ ev) l).
Proof.
  induction l as [|x l IH]; intros fuel curr ce Hc Hl Hnd Hin Hfuel;
    [by apply not_elem_of_nil in Hin|].
  inversion Hl as [|x' xe l' Hx Hk Hl' Hn]; subst.
  apply NoDup_cons in Hnd as [Hcl Hnd]. pose proof Hnd as [Hxl _]%NoDup_cons.
  destruct fuel as [|fuel]; [simpl in *; lia|]. cbn [find_in_bin].
  destruct (decide (x = ev)) as [->|Hne].
  - rewrite bool_decide_true by done.
    exists curr, ce, xe, (set_nextInBin (nextInBin xe) ce).
    rewrite lookup_insert_eq. split_and!; try done; [left|].
    rewrite filter_cons_False, filter_ne_notin by naive_solver. simpl.
    apply (in_bin_frame h); [done|]. intros y Hy.
    apply same_links_stack, same_links_eq, lookup_insert_ne. set_solver.
  - rewrite bool_decide_false by congruence. unfold deref at 1. rewrite Hx. simpl.
    destruct (IH fuel x xe) as (c & ce1 & ne & ce2 & Hf & Hc1 & Hev & Hcin & Hx2 & _ & Hk2 & Hl2);
      try done; [set_solver|simpl in *; lia|].
    assert (c ≠ curr) by set_solver.
    exists c, ce1, ne, ce. rewrite lookup_insert_ne by done.
    split_and!; try done; [by right|]. rewrite <-Hn.
    rewrite filter_cons_True by done. by apply (in_bin_cons _ _ _ ce2).
Qed.

Lemma removeItem_spec h ev c ce l q :
  h !! c = Some ce → in_bin h (ekey ce) (nextInBin ce) l → bins h (nextBin ce) q →
  NoDup ((c :: l) ++ flat q) → ev ∈ c :: l →
  ∃ h' p, removeItem h ev c = Ok (h', p) ∧ same_payload h h' ∧
    (∀ x, x ∉ c :: l → h' !! x = h !! x) ∧
    bins h' p (push_bin (ekey ce) (base.filter (λ x, x ≠ ev) (c :: l)) q).
Proof.
  intros Hc Hl Hq Hnd Hin. pose proof Hnd as (Hnd1 & Hdisj & _)%NoDup_app.
  pose proof Hnd1 as [Hcl Hndl]%NoDup_cons.
  unfold removeItem, deref. rewrite Hc. simpl.
  destruct (decide (ev = c)) as [->|Hne].
  - rewrite bool_decide_true by done.
    rewrite filter_cons_False, filter_ne_notin by naive_solver.
    inversion Hl as [|n ne l' Hn Hk Hl' Hnx]; subst.
    { exists h, (nextBin ce). split_and!; done. }
    rewrite Hn. simpl. do 2 eexists. split_and!; [done| | |].
    + by apply (same_payload_insert _ _ ne).
    + intros x Hx. apply lookup_insert_ne. set_solver.
    + unfold push_bin. rewrite decide_False, <-Hk by done. rewrite <-Hk in Hl'.
      apply NoDup_cons in Hndl as [? _].
      eapply bins_relink; [done|done|done| |done|done|done|done].
      apply Hdisj. set_solver.
  - rewrite bool_decide_false by done. apply elem_of_cons in Hin as [?|Hin]; [done|].
    destruct (find_in_bin_spec h (ekey ce) ev l (size h) c ce)
      as (c' & ce1 & ne & ce2 & -> & Hc1 & Hev & Hcin & Hc2 & Hb2 & Hk2 & Hl2); try done.
    { apply NoDup_size; [done|]. intros x Hx.
      destruct (in_bin_elem _ _ _ _ _ Hl Hx) as (? & ? & _). eauto. }
    simpl. rewrite Hc1. simpl. rewrite Hev. simpl. do 2 eexists. split_and!; [done| | |].
    + by apply (same_payload_insert _ _ ce1).
    + intros x Hx. apply lookup_insert_ne. set_solver.
    + rewrite filter_cons_True by done. unfold push_bin. rewrite decide_False by done.
      rewrite <-Hk2 in *. constructor; [done|done|]. rewrite Hb2.
      apply (bins_frame h); [done|]. intros x Hx.
      apply same_links_eq, lookup_insert_ne. specialize (Hdisj c' Hcin). congruence.
Qed.

Lemma abs_remove_after ev k k' b q :
  key_lt k' k → abs_remove ev k ((k', b) :: q) = (k', b) :: abs_remove ev k q.
Proof.
  intros Hlt. simpl. rewrite decide_False; [done|]. intros ->. by apply (key_lt_irrefl k').
Qed.

Lemma elem_of_push_bin k b q x : x ∈ flat (push_bin k b q) ↔ x ∈ b ∨ x ∈ flat q.
Proof.
  unfold push_bin. case_decide; subst; [set_solver|]. rewrite flat_cons. set_solver.
Qed.

Lemma elem_of_abs_remove ev k q x : x ∈ flat (abs_remove ev k q) → x ∈ flat q.
Proof.
  induction q as [|[k' b] q IH]; [done|]. simpl. case_decide.
  - rewrite elem_of_push_bin, flat_cons, list_elem_of_filter. set_solver.
  - rewrite !flat_cons. set_solver.
Qed.

Lemma ordered_cons_inv k b q :
  ordered ((k, b) :: q) → ordered q ∧ ∀ k' b', (k', b') ∈ q → key_lt k k'.
Proof.
  intros [Ho Hall]%StronglySorted_inv. split; [done|]. intros k' b' Hin.
  by apply (proj1 (Forall_forall _ _) Hall (k', b')).
Qed.

Lemma bins_stack h p q k b x :
  bins h p ((k, b) :: q) → x ∈ b → ∃ e, h !! x = Some e ∧ ekey e = k.
Proof.
  inversion 1; subst. intros [->|?]%elem_of_cons; [eauto|by eapply in_bin_elem].
Qed.

(** What removing [ev] behind the bin of [p] achieves. *)
Definition removed (h h' : heap) (ev : id) (k : key) (p : id) (pe : Event)
    (l : list id) (q : aqueue) : Prop :=
  same_payload h h' ∧ (∀ x, x ∉ p :: flat q → h' !! x = h !! x) ∧
  bins h' (Some p) ((ekey pe, p :: l) :: abs_remove ev k q).

Lemma remove_here h ev k b p pe l q :
  h !! p = Some pe → in_bin h (ekey pe) (nextInBin pe) l →
  bins h (nextBin pe) ((k, b) :: q) → NoDup ((p :: l) ++ b ++ flat q) → ev ∈ b →
  ∃ c ce h1 top pe1, nextBin pe = Some c ∧
    h !! c = Some ce ∧ ekey ce = k ∧ removeItem h ev c = Ok (h1, top) ∧
    h1 !! p = Some pe1 ∧
    removed h (<[p := set_nextBin top pe1]> h1) ev (k) p pe l ((k, b) :: q).
Proof.
  intros Hp Hl Hq (Hnd1 & Hdisj & Hnd2)%NoDup_app Hev.
  inversion Hq as [|c ce lc q' Hc Hlc Hqc Hnb]; subst.
  destruct (removeItem_spec h ev c ce lc q) as (h1 & top & Hri & Hs & Hfr & Hb'); try done.
  assert (∀ x, x ∈ p :: l → h1 !! x = h !! x) as Hpl.
  { intros x Hx. apply Hfr. specialize (Hdisj x Hx). set_solver. }
  exists c, ce, h1, top, pe.
  assert (h1 !! p = Some pe) as Hp1 by (rewrite Hpl; [done|left]).
  split_and!; try done. split_and!.
  - unfold same_payload. rewrite Hs. by apply (same_payload_insert _ _ pe).
  - intros x Hx. rewrite flat_cons in Hx. rewrite lookup_insert_ne by set_solver.
    apply Hfr. set_solver.
  - simpl. rewrite decide_True by done.     apply NoDup_cons in Hnd1 as [Hpl1 _].
    eapply bins_relink; [done| |done| |done|done|done|done].
    + apply (in_bin_frame h); [done|]. intros y Hy.
      apply same_links_stack, same_links_eq, Hpl. by right.
    + rewrite elem_of_push_bin, list_elem_of_filter. specialize (Hdisj p ltac:(left)). set_solver.
Qed.

(** The search and unlinking behind the bin of [p], for an event of a later bin. *)
Lemma walk_remove h ev e b q : ∀ fuel p pe l,
  h !! p = Some pe → in_bin h (ekey pe) (nextInBin pe) l →
  bins h (nextBin pe) q → NoDup ((p :: l) ++ flat q) → ordered q →
  (ekey e, b) ∈ q → ev ∈ b → (length q <= fuel)%nat →
  ∃ prev c ce h1 top pe1, walk fuel h e p (nextBin pe) = Ok (prev, Some c) ∧
    h !! c = Some ce ∧ ekey ce = ekey e ∧ removeItem h ev c = Ok (h1, top) ∧
    h1 !! prev = Some pe1 ∧
    removed h (<[prev := set_nextBin top pe1]> h1) ev (ekey e) p pe l q.
Proof.
  induction q as [|[k b'] q IH]; intros fuel p pe l Hp Hl Hq Hnd Ho Hbq Hevb Hfuel;
    [by apply not_elem_of_nil in Hbq|].
  destruct (ordered_cons_inv _ _ _ Ho) as [Ho' Hlt]. rewrite flat_cons in Hnd.
  apply elem_of_cons in Hbq as [[= <- <-]|Hbq].
  - destruct (remove_here h ev (ekey e) b p pe l q) as (c & ce & h1 & top & pe1 & Hn & Hc & Hk & Hrest);
      try done.
    exists p, c, ce, h1, top, pe1. split; [|done]. rewrite <-Hn.
    apply (walk_stop _ _ _ _ _ ((ekey e, b) :: q)); [done|]. apply key_lt_irrefl.
  - specialize (Hlt _ _ Hbq). destruct fuel as [|fuel]; [simpl in *; lia|].
    apply NoDup_app in Hnd as (Hnd1 & Hdisj & Hnd2).
    inversion Hq as [|x xe lx q' Hx Hlx Hqx Hnb]; subst.
    destruct (IH fuel x xe lx)
      as (prev & c & ce & h1 & top & pe1 & Hw & Hc & Hk & Hri & Hp1 & Hs & Hfr & Hb');
      try done; [simpl in *; lia|].
    exists prev, c, ce, h1, top, pe1. rewrite (walk_step _ _ _ _ _ xe) by done.
    split_and!; try done. split_and!; [done| |].
    + intros y Hy. rewrite flat_cons in Hy. apply Hfr. set_solver.
    + rewrite abs_remove_after by done.
      assert (∀ y, y ∈ p :: l → <[prev:=set_nextBin top pe1]> h1 !! y = h !! y) as Hpl.
      { intros y Hy. apply Hfr. specialize (Hdisj y Hy). set_solver. }
      constructor.
      * rewrite Hpl; [done|left].
      * apply (in_bin_frame h); [done|]. intros y Hy.
        apply same_links_stack, same_links_eq, Hpl. by right.
      * by rewrite <-Hnb.
Qed.

Lemma abs_remove_ordered ev k q : ordered q → ordered (abs_remove ev k q).
Proof.
  assert (∀ k0 q, Forall (λ b, key_lt k0 b.1) q →
    Forall (λ b, key_lt k0 b.1) (abs_remove ev k q)) as Haux.
  { intros k0 q'. induction 1 as [|[k' b] q' Hk Hall IH]; simpl; [done|].
    case_decide; [|by constructor]. unfold push_bin. case_decide; [done|by constructor]. }
  induction 1 as [|[k' b] q Hq IH Hall]; simpl; [constructor|].
  case_decide; [|constructor; [done|by apply Haux]].
  unfold push_bin. case_decide; [done|by constructor].
Qed.

Lemma flat_push_bin k b q : flat (push_bin k b q) = b ++ flat q.
Proof. unfold push_bin. case_decide; by subst. Qed.

(** Removing an event from its stack takes exactly it out of the queue. *)
Lemma abs_remove_flat ev k b q :
  ordered q → NoDup (flat q) → (k, b) ∈ q → ev ∈ b →
  flat (abs_remove ev k q) = base.filter (λ x, x ≠ ev) (flat q).
Proof.
  induction q as [|[k' b'] q IH]; intros Ho Hnd Hin Hev; [by apply not_elem_of_nil in Hin|].
  destruct (ordered_cons_inv _ _ _ Ho) as [Ho' Hlt]. rewrite flat_cons in Hnd.
  apply NoDup_app in Hnd as (_ & Hdisj & Hnd). simpl abs_remove.
  apply elem_of_cons in Hin as [[= <- <-]|Hin].
  - rewrite decide_True by done. rewrite flat_push_bin, flat_cons, filter_app. f_equal.
    symmetry. apply filter_ne_notin. auto.
  - rewrite decide_False by (intros ->; eapply key_lt_irrefl; eauto).
    rewrite !flat_cons, filter_app, IH by done. f_equal. symmetry. apply filter_ne_notin.
    intros Hev'. apply (Hdisj _ Hev'). apply list_elem_of_In, in_concat. exists b.
    split; [|by apply list_elem_of_In]. apply in_map_iff. exists (k, b).
    by rewrite <-list_elem_of_In.
Qed.

(** [EventQueue::remove] refines the removal: an event that is queued is found
    (neither of the panics is reached) and exactly it is unlinked. *)
Lemma remove_refines me h hd q ev e :
  rep h hd q → h !! ev = Some e → ev ∈ flat q → queue e = Some me →
  ∃ h' hd', remove me h hd ev = Ok (h', hd') ∧ rep h' hd' (abs_remove ev (ekey e) q) ∧
    same_payload h h' ∧ flat (abs_remove ev (ekey e) q) = base.filter (λ x, x ≠ ev) (flat q).
Proof.
  intros [Hb Ho Hnd] Hev Hin Hme.
  destruct (bins_elem _ _ _ _ Hb Hin) as (e' & b & He' & Hbq & Hevb); simplify_eq.
  pose proof (abs_remove_flat ev (ekey e) b q Ho Hnd Hbq Hevb) as Hflat.
  assert (ordered (abs_remove ev (ekey e) q)) as Ho' by by apply abs_remove_ordered.
  assert (NoDup (flat (abs_remove ev (ekey e) q))) as Hnd'.
  { rewrite Hflat. by apply NoDup_filter. }
  pose proof (bins_fuel _ _ _ Hb Hnd) as Hfuel. unfold remove.
  destruct Hb as [|x xe l q Hx Hl Hq]; [by apply not_elem_of_nil in Hin|].
  destruct (ordered_cons_inv _ _ _ Ho) as [Hoq Hlt].
  rewrite (deref_Some _ _ _ Hev), res_bind_Ok, bool_decide_true by done. cbn [ensure].
  rewrite res_bind_Ok, (deref_Some _ _ _ Hx), res_bind_Ok, ev_eqb_key.
  apply elem_of_cons in Hbq as [Heq|Hbq].
  - assert (ekey e = ekey xe) as Hk by congruence. assert (b = x :: l) as -> by congruence.
    rewrite bool_decide_true by done.
    destruct (removeItem_spec h ev x xe l q) as (h' & p & Hri & Hs & _ & Hb'); try done.
    exists h', p. split_and!; try done. constructor; [|done|done].
    simpl. by rewrite decide_True.
  - specialize (Hlt _ _ Hbq).
    rewrite bool_decide_false by (intros Heq; rewrite Heq in Hlt; by eapply key_lt_irrefl).
    destruct (walk_remove h ev e b q (size h) x xe l)
      as (prev & c & ce & h1 & top & pe1 & Hw & Hc & Hk & Hri & Hp1 & Hs & _ & Hb');
      try done; [simpl in Hfuel; lia|].
    rewrite Hw, res_bind_Ok, (deref_Some _ _ _ Hc), res_bind_Ok, ev_eqb_key, bool_decide_true by done.
    rewrite Hri, res_bind_Ok, (deref_Some _ _ _ Hp1), res_bind_Ok.
    do 2 eexists. split_and!; try done. constructor; [|done|done].
    by rewrite <-(abs_remove_after ev (ekey e)) in Hb'.
Qed.

(** ** The queue object *)

(** The events without their links. *)
Definition view (q : t) : heap := payload <$> events q.

(** The bookkeeping of the flags: [Scheduled] is set exactly on the events of
    [l], none of them is before time [c] and all of them belong to the queue
    [me]; every event has been constructed, and none is both managed and
    handled by the main queue. *)
Record book (me : positive) (m : heap) (l : list id) (c : Z) : Prop := {
  book_sched x e : m !! x = Some e → (scheduled e = true ↔ x ∈ l);
  book_dom x : x ∈ l → is_Some (m !! x);
  book_future x e : m !! x = Some e → scheduled e = true → c <= _when e;
  book_main x e : m !! x = Some e → negb (managed e) || negb (isMainQueue e) = true;
  book_init x e : m !! x = Some e → initialized e = true;
  book_queue x e : m !! x = Some e → scheduled e = true → queue e = Some me;
}.

(** The invariant of an [EventQueue]: its linked structure represents [a], and
    the bookkeeping holds of the events of [a] and of the asynchronous queue. *)
Record wf (q : t) (a : aqueue) : Prop := {
  wf_rep : rep (events q) (head q) a;
  wf_nodup : NoDup (flat a ++ async_queue q);
  wf_book : book (this q) (view q) (flat a ++ async_queue q) (_curTick q);
}.

Lemma lookup_alter_cases (f : Event → Event) ev (m : heap) x e' :
  alter f ev m !! x = Some e' →
  (x = ev ∧ ∃ e, m !! ev = Some e ∧ e' = f e) ∨ (x ≠ ev ∧ m !! x = Some e').
Proof.
  destruct (decide (x = ev)) as [->|Hne].
  - rewrite lookup_alter_eq. destruct (m !! ev) as [e|]; simpl; [|done]. intros [= <-]. eauto.
  - rewrite lookup_alter_ne by done. auto.
Qed.

Lemma book_add me m l l' c ev w :
  book me m l c → is_Some (m !! ev) → c <= w → (∀ x, x ∈ l' ↔ x = ev ∨ x ∈ l) →
  book me (alter (set_scheduled true ∘ setWhen w me) ev m) l' c.
Proof.
  intros [Hs Hd Hf Hm Hi Hq] [e He] Hw Hl. constructor.
  2:{ intros x [->|Hx]%Hl; apply lookup_alter_is_Some; [by eexists|auto]. }
  all: intros x e' [[-> (e0 & He0 & ->)]|[Hne Hx]]%lookup_alter_cases; simpl; eauto.
  - rewrite Hl. tauto.
  - rewrite Hl, (Hs _ _ Hx). naive_solver.
Qed.

Lemma book_del me m l l' c ev :
  book me m l c → (∀ x, x ∈ l' ↔ x ∈ l ∧ x ≠ ev) →
  book me (alter (set_scheduled false) ev m) l' c.
Proof.
  intros [Hs Hd Hf Hm Hi Hq] Hl. constructor.
  2:{ intros x [Hx _]%Hl. apply lookup_alter_is_Some. auto. }
  all: intros x e' [[-> (e0 & He0 & ->)]|[Hne Hx]]%lookup_alter_cases; simpl; eauto; try done.
  - rewrite Hl. naive_solver.
  - rewrite Hl, (Hs _ _ Hx). naive_solver.
Qed.

Lemma book_squash me m l c ev b : book me m l c → book me (alter (set_squashed b) ev m) l c.
Proof.
  intros [Hs Hd Hf Hm Hi Hq]. constructor.
  2:{ intros x Hx. apply lookup_alter_is_Some. auto. }
  all: intros x e' [[-> (e0 & He0 & ->)]|[Hne Hx]]%lookup_alter_cases; simpl; eauto.
Qed.

Lemma book_delete me m l c ev : book me m l c → ev ∉ l → book me (delete ev m) l c.
Proof.
  intros [Hs Hd Hf Hm Hi Hq] Hn. constructor.
  2:{ intros x Hx. rewrite lookup_delete_ne; [auto|congruence]. }
  all: intros x e [_ Hx]%lookup_delete_Some; eauto.
Qed.

Lemma payload_alter f ev (h : heap) :
  (∀ e, payload (f e) = f (payload e)) → payload <$> alter f ev h = alter f ev (payload <$> h).
Proof.
  intros Hf. apply map_eq. intros x. rewrite lookup_fmap.
  destruct (decide (x = ev)) as [->|Hne].
  - rewrite !lookup_alter_eq, lookup_fmap. destruct (h !! ev); simpl; by rewrite ?Hf.
  - by rewrite !lookup_alter_ne, lookup_fmap.
Qed.

Lemma view_Some q ev e : events q !! ev = Some e → view q !! ev = Some (payload e).
Proof. unfold view. rewrite lookup_fmap. by intros ->. Qed.

Lemma rep_frame h h' p a :
  rep h p a → (∀ x, x ∈ flat a → same_links h h' x) → rep h' p a.
Proof. intros [Hb Ho Hnd] Hs. constructor; [by eapply bins_frame|done|done]. Qed.

(** Updating an event that is not linked, or one whose links stay. *)
Lemma rep_alter f ev h p a :
  rep h p a →
  ev ∉ flat a ∨ (∀ e, ekey (f e) = ekey e ∧ nextInBin (f e) = nextInBin e ∧
                      nextBin (f e) = nextBin e) →
  rep (alter f ev h) p a.
Proof.
  intros Hr Hor. eapply rep_frame; [done|]. intros x Hx e He.
  destruct (decide (x = ev)) as [->|Hne].
  - destruct Hor as [?|Hf]; [done|]. exists (f e). rewrite lookup_alter_eq, He. naive_solver.
  - exists e. by rewrite lookup_alter_ne.
Qed.

Lemma lookup_alter_ev f (h : heap) ev e : h !! ev = Some e → alter f ev h !! ev = Some (f e).
Proof. intros He. by rewrite lookup_alter_eq, He. Qed.

(** [insert] and [remove] at the level of the queue object. *)
Lemma insertq_refines q a ev e :
  rep (events q) (head q) a → events q !! ev = Some e → ev ∉ flat a →
  ∃ h' hd', insertq ev q = Ok (mk (this q) h' hd' (_curTick q) (async_queue q)) ∧
    rep h' hd' (abs_insert (ekey e) ev a) ∧ payload <$> h' = view q.
Proof.
  intros Hr He Hn. destruct (insert_refines _ _ _ _ _ Hr He Hn) as (h' & hd' & Hi & Hr' & Hs).
  exists h', hd'. unfold insertq. by rewrite Hi.
Qed.

Lemma removeq_refines q a ev e :
  rep (events q) (head q) a → events q !! ev = Some e → ev ∈ flat a →
  queue e = Some (this q) →
  ∃ h' hd', removeq ev q = Ok (mk (this q) h' hd' (_curTick q) (async_queue q)) ∧
    rep h' hd' (abs_remove ev (ekey e) a) ∧ payload <$> h' = view q ∧
    flat (abs_remove ev (ekey e) a) = base.filter (λ x, x ≠ ev) (flat a).
Proof.
  intros Hr He Hn Hq.
  destruct (remove_refines _ _ _ _ _ _ Hr He Hn Hq) as (h' & hd' & Hi & Hr' & Hs & Hf).
  exists h', hd'. unfold removeq. by rewrite Hi.
Qed.

Lemma wf_unscheduled q a ev e :
  wf q a → events q !! ev = Some e → scheduled e = false → ev ∉ flat a ++ async_queue q.
Proof.
  intros [_ _ [Hs _ _ _ _ _]] He Hf. rewrite <-(Hs ev (payload e)) by by apply view_Some.
  simpl. by rewrite Hf.
Qed.

Lemma wf_init q a ev e : wf q a → events q !! ev = Some e → initialized e = true.
Proof. intros [_ _ Hb] He. by apply (book_init _ _ _ _ Hb ev (payload e)), view_Some. Qed.

Lemma wf_linked q a ev e :
  wf q a → events q !! ev = Some e → ev ∈ flat a → scheduled e = true ∧ queue e = Some (this q).
Proof.
  intros [_ _ Hb] He Hin.
  assert (scheduled (payload e) = true) as Hsc.
  { apply (book_sched _ _ _ _ Hb ev); [by apply view_Some|set_solver]. }
  split; [done|]. by apply (book_queue _ _ _ _ Hb ev (payload e)); [apply view_Some|].
Qed.

(** Scheduling an idle event at a time that is not past succeeds, and puts it
    on the top of the stack of its time and priority. *)
Lemma schedule_wf q a ev e when :
  wf q a → events q !! ev = Some e → scheduled e = false → _curTick q <= when →
  ∃ q', schedule ev when false q = Ok q' ∧
    wf q' (abs_insert (when, _priority e) ev a) ∧
    _curTick q' = _curTick q ∧ async_queue q' = async_queue q ∧
    view q' = alter (set_scheduled true ∘ setWhen when (this q)) ev (view q).
Proof.
  intros Hwf He Hsc Hw. pose proof (wf_unscheduled _ _ _ _ Hwf He Hsc) as Hnin.
  pose proof (wf_init _ _ _ _ Hwf He) as Hin. destruct Hwf as [Hr Hnd Hb].
  unfold schedule. rewrite (deref_Some _ _ _ He), res_bind_Ok, Hsc, Hin.
  replace (_curTick q <=? when) with true by lia. cbn [ensure negb]. rewrite !res_bind_Ok.
  destruct (insertq_refines (update_event (setWhen when (this q)) ev q) a ev (setWhen when (this q) e))
    as (h' & hd' & Hi & Hr' & Hv'); [|by apply lookup_alter_ev|set_solver|].
  { apply rep_alter; [done|]. left. set_solver. }
  rewrite Hi, res_bind_Ok.
  assert (payload <$> alter (set_scheduled true) ev h' =
          alter (set_scheduled true ∘ setWhen when (this q)) ev (view q)) as Hv.
  { rewrite payload_alter, Hv' by done. unfold view, update_event. simpl.
    by rewrite payload_alter, alter_alter_eq. }
  eexists. split_and!; [done| |done|done|done].
  constructor.
  - apply rep_alter; [done|]. by right.
  - simpl. rewrite abs_insert_perm. by constructor.
  - unfold view at 1. simpl. rewrite Hv. eapply book_add; [done| |done|].
    + rewrite (view_Some _ _ _ He). by eexists.
    + intros x. rewrite abs_insert_perm. set_solver.
Qed.

Lemma release_wf q a ev e :
  wf q a → events q !! ev = Some e →
  ∃ q', release ev q = Ok q' ∧ wf q' a ∧ _curTick q' = _curTick q ∧
    async_queue q' = async_queue q ∧
    events q' = (if managed e && negb (scheduled e) then delete ev (events q) else events q).
Proof.
  intros Hwf He. unfold release. rewrite (deref_Some _ _ _ He), res_bind_Ok.
  destruct (managed e && negb (scheduled e)) eqn:Hm; [|by eauto 6].
  apply andb_true_iff in Hm as [_ Hsc%negb_true_iff].
  pose proof (wf_unscheduled _ _ _ _ Hwf He Hsc) as Hnin.
  destruct Hwf as [Hr Hnd Hb]. eexists. split_and!; [done| |done|done|done].
  constructor; [|done|].
  - simpl. eapply rep_frame; [done|]. intros x Hx. apply same_links_eq, lookup_delete_ne. set_solver.
  - unfold view. simpl. rewrite fmap_delete. by apply book_delete.
Qed.

(** Descheduling a queued event succeeds and takes exactly it out, clearing its
    flags or destroying it when it is managed. *)
Lemma deschedule_wf q a ev e :
  wf q a → events q !! ev = Some e → ev ∈ flat a →
  ∃ q', deschedule ev false q = Ok q' ∧ wf q' (abs_remove ev (ekey e) a) ∧
    flat (abs_remove ev (ekey e) a) = base.filter (λ x, x ≠ ev) (flat a) ∧
    _curTick q' = _curTick q ∧ async_queue q' = async_queue q ∧
    view q' = if managed e then delete ev (view q)
              else alter (set_scheduled false ∘ set_squashed false) ev (view q).
Proof.
  intros Hwf He Hin. destruct (wf_linked _ _ _ _ Hwf He Hin) as [Hsc Hme].
  pose proof (wf_init _ _ _ _ Hwf He) as Hini. destruct Hwf as [Hr Hnd Hb].
  destruct (removeq_refines _ _ _ _ Hr He Hin Hme) as (h' & hd' & Hq & Hr' & Hv & Hflat).
  unfold deschedule. rewrite (deref_Some _ _ _ He), res_bind_Ok, Hsc, Hini.
  cbn [ensure negb]. rewrite !res_bind_Ok, Hq, res_bind_Ok.
  assert (∃ e', h' !! ev = Some e' ∧ payload e' = payload e) as (e' & He' & Hpe).
  { pose proof (view_Some _ _ _ He) as Hx. rewrite <-Hv, lookup_fmap in Hx.
    destruct (h' !! ev) as [e'|]; [|discriminate]. apply (inj Some) in Hx. by exists e'. }
  assert (managed e' = managed e) as Hm by (pose proof (f_equal managed Hpe); done).
  apply NoDup_app in Hnd as (Hnd1 & Hdisj & Hnd2).
  assert (payload <$> alter (set_scheduled false) ev (alter (set_squashed false) ev h') =
    alter (set_scheduled false ∘ set_squashed false) ev (view q)) as Hv'.
  { by rewrite !payload_alter, Hv, alter_alter_eq by done. }
  edestruct (release_wf (mk (this q) (alter (set_scheduled false) ev (alter (set_squashed false) ev h'))
    hd' (_curTick q) (async_queue q)) (abs_remove ev (ekey e) a) ev) as (q' & Hrel & Hwf' & Hc & Ha & Hh).
  - constructor; simpl.
    + apply rep_alter; [apply rep_alter; [done|by right]|by right].
    + rewrite Hflat. apply NoDup_app. split_and!; [by apply NoDup_filter| |done].
      intros x [_ Hx]%list_elem_of_filter. auto.
    + unfold view. simpl. rewrite !payload_alter, Hv by done.
      eapply book_del; [by apply book_squash|]. intros x.
      rewrite Hflat, !elem_of_app, list_elem_of_filter. specialize (Hdisj ev Hin). naive_solver.
  - simpl. by apply lookup_alter_ev, lookup_alter_ev.
  - exists q'. split_and!; [done..|]. simpl in Hh. rewrite Hm in Hh.
    unfold view at 1. rewrite Hh. destruct (managed e); simpl; [|done].
    by rewrite fmap_delete, Hv', delete_alter_eq.
Qed.

(** The event at the head leaves the queue; the rest stays linked. *)
Lemma pop_head_wf q k ev l a :
  wf q ((k, ev :: l) :: a) →
  ∃ e q', events q !! ev = Some e ∧ ekey e = k ∧ pop_head q = Ok (ev, q') ∧
    wf q' (push_bin k l a) ∧ _curTick q' = _curTick q ∧ async_queue q' = async_queue q ∧
    view q' = alter (set_scheduled false) ev (view q).
Proof.
  intros [Hr Hnd Hb]. pose proof Hr as [Hbins Ho Hndf].
  assert (head q = Some ev) as Hh by by inversion Hbins.
  destruct (rep_alter (set_scheduled false) ev _ _ _ Hr ltac:(by right)) as [Hbins' _ _].
  inversion Hbins as [|x e lx ax He Hl Ha Hnb Hk]; subst.
  pose proof (lookup_alter_ev (set_scheduled false) _ _ _ He) as He'.
  rewrite Hh in Hbins'. inversion Hbins' as [|x e2 lx' ax' He2 Hl' Ha' Hnb' Hk']; subst.
  rewrite He' in He2. injection He2 as <-.
  destruct (removeItem_spec _ ev ev _ l a He' Hl' Ha' Hndf ltac:(left))
    as (h' & p & Hri & Hs & _ & Hb').
  apply NoDup_app in Hndf as (Hnd1 & _ & _). apply NoDup_cons in Hnd1 as [Hev _].
  rewrite filter_cons_False, filter_ne_notin in Hb' by naive_solver.
  exists e, (mk (this q) h' p (_curTick q) (async_queue q)).
  assert (view (mk (this q) h' p (_curTick q) (async_queue q)) = alter (set_scheduled false) ev (view q)) as Hv.
  { unfold view. simpl. by rewrite <-Hs, payload_alter. }
  change (ekey (set_scheduled false e)) with (ekey e) in Hb'.
  change (NoDup (ev :: (l ++ flat a) ++ async_queue q)) in Hnd.
  apply NoDup_cons in Hnd as [Hevn Hnd'].
  split_and!; [done|done| | |done|done|done].
  - unfold pop_head. rewrite Hh. unfold update_event. simpl.
    unfold removeItem in Hri. rewrite (deref_Some _ _ _ He'), res_bind_Ok, bool_decide_true in Hri by done.
    rewrite (deref_Some _ _ _ He'), res_bind_Ok.
    destruct (nextInBin (set_scheduled false e)); [|by simplify_eq].
    destruct (deref _ _); simplify_eq/=. done.
  - constructor; simpl.
    + constructor; [done| |].
      * unfold push_bin. destruct (ordered_cons_inv _ _ _ Ho) as [? Hlt]. case_decide; [done|].
        apply StronglySorted_inv in Ho as [_ Hall]. by constructor.
      * rewrite flat_push_bin. by apply NoDup_app in Hnd' as (? & _ & _).
    + by rewrite flat_push_bin.
    + rewrite Hv, flat_push_bin. eapply book_del; [done|]. intros x.
      change (flat ((ekey e, ev :: l) :: a)) with (ev :: (l ++ flat a)). set_solver.
Qed.

(** ** Servicing events *)

(** The part of the queue at or before time [w], and its number of events. *)
Definition due_part (w : Z) (a : aqueue) : aqueue := base.filter (λ kb, kb.1.1 <= w) a.

Definition due (w : Z) (a : aqueue) : nat := length (flat (due_part w a)).

(** [ev] exists and is not squashed. *)
Definition live (q : t) (ev : id) : bool :=
  match events q !! ev with Some e => negb (squashed e) | None => false end.

(** The events of a bin to be processed, with their time. *)
Definition bin_agenda (q : t) (kb : key * list id) : list (id * Z) :=
  (λ x : id, (x, kb.1.1)) <$> base.filter (λ x, live q x = true) kb.2.

(** The events to be processed by [w], in order, each with its time. *)
Definition agenda (w : Z) (q : t) (a : aqueue) : list (id * Z) :=
  concat (bin_agenda q <$> due_part w a).

Section Service.
Context {W : Type} (process : id → t → W → res (t * W)) (w : Z).

(** What [serviceOne] needs of [process]: run on a consistent queue from which
    the event has been taken, it returns a consistent queue at the same time,
    does not destroy the event, and does not add events due by [w]. *)
Definition good_process : Prop :=
  ∀ ev q a s, wf q a → async_queue q = [] → ev ∉ flat a → is_Some (events q !! ev) →
  ∃ q' a' s', process ev q s = Ok (q', s') ∧ wf q' a' ∧ async_queue q' = [] ∧
    is_Some (events q' !! ev) ∧ _curTick q' = _curTick q ∧ (due w a' <= due w a)%nat.

(** [process] does not touch the events due by [w]: it neither adds, removes
    nor squashes one. *)
Definition quiet : Prop :=
  ∀ ev q q' a a' s s', wf q a → process ev q s = Ok (q', s') → wf q' a' →
  due_part w a' = due_part w a ∧ ∀ x, x ∈ flat (due_part w a) → live q' x = live q x.

(** [calls tr s s']: processing the events of [tr], each at its time, takes
    the simulation from [s] to [s']. *)
Inductive calls : list (id * Z) → W → W → Prop :=
  | calls_nil s : calls [] s s
  | calls_cons ev q q' s s' s'' tr :
      process ev q s = Ok (q', s') → calls tr s' s'' →
      calls ((ev, _curTick q) :: tr) s s''.

Lemma calls_app tr1 tr2 s s' s'' : calls tr1 s s' → calls tr2 s' s'' → calls (tr1 ++ tr2) s s''.
Proof. induction 1; [done|]. intros. simpl. econstructor; eauto. Qed.

End Service.

Lemma filter_ext_in {A} (P Q : A → Prop) `{∀ x, Decision (P x)} `{∀ x, Decision (Q x)} (l : list A) :
  (∀ x, x ∈ l → P x ↔ Q x) → base.filter P l = base.filter Q l.
Proof.
  induction l as [|x l IH]; intros Hl; [done|].
  specialize (IH (λ y Hy, Hl y ltac:(by right))). specialize (Hl x ltac:(left)).
  destruct (decide (P x)).
  - by rewrite !filter_cons_True, IH by tauto.
  - by rewrite !filter_cons_False, IH by tauto.
Qed.

Lemma agenda_ext w q q' a a' :
  due_part w a' = due_part w a → (∀ x, x ∈ flat (due_part w a) → live q' x = live q x) →
  agenda w q' a' = agenda w q a.
Proof.
  intros Ha Hl. unfold agenda. rewrite Ha. f_equal. apply list_fmap_ext.
  intros i [k b] Hi. unfold bin_agenda. simpl. f_equal. apply filter_ext_in. intros x Hx.
  rewrite Hl; [done|]. apply list_elem_of_In, in_concat. exists b.
  rewrite <-!list_elem_of_In. split; [|done]. apply list_elem_of_fmap. exists (k, b).
  split; [done|]. by eapply list_elem_of_lookup_2.
Qed.

Lemma live_view q x : live q x = match view q !! x with Some e => negb (squashed e) | None => false end.
Proof. unfold view, live. rewrite lookup_fmap. by destruct (events q !! x). Qed.

Lemma live_scheduled q q' ev b x :
  view q' = alter (set_scheduled b) ev (view q) → live q' x = live q x.
Proof.
  intros Hv. rewrite !live_view, Hv. destruct (decide (x = ev)) as [->|Hne].
  - rewrite lookup_alter_eq. by destruct (view q !! ev).
  - by rewrite lookup_alter_ne.
Qed.

Lemma elem_of_due_part w a x : x ∈ flat (due_part w a) → x ∈ flat a.
Proof.
  unfold due_part. induction a as [|[k b] a IH]; [done|].
  destruct (decide (k.1 <= w)).
  - rewrite filter_cons_True, !flat_cons, !elem_of_app by done. naive_solver.
  - rewrite filter_cons_False, !flat_cons, !elem_of_app by done. naive_solver.
Qed.

(** Advancing the time up to the earliest queued event keeps the invariant. *)
Lemma wf_advance q a c :
  wf q a → async_queue q = [] → (∀ k b, (k, b) ∈ a → c <= k.1) →
  wf (mk (this q) (events q) (head q) c []) a.
Proof.
  intros [Hr Hnd [Hs Hd Hf Hm Hi Hq]] Ha Hc. rewrite Ha in *. rewrite app_nil_r in *.
  constructor; simpl; rewrite ?app_nil_r; [done|done|].
  constructor; [done|done| |done|done|done]. intros x e Hx Hsc.
  apply (Hs x e Hx) in Hsc. destruct Hr as [Hb _ _].
  destruct (bins_elem _ _ _ _ Hb Hsc) as (e' & b & He' & Hb' & _).
  change (view q !! x = Some e) in Hx.
  rewrite (view_Some _ _ _ He') in Hx. injection Hx as <-.
  apply (Hc _ _ Hb').
Qed.

Lemma elem_of_push_bin_pair k l a k' b' :
  (k', b') ∈ push_bin k l a → k' = k ∨ (k', b') ∈ a.
Proof. unfold push_bin. case_decide; [by right|]. intros [[= ]|?]%elem_of_cons; auto. Qed.

Lemma due_push_bin w k x l a :
  k.1 <= w → due w ((k, x :: l) :: a) = S (due w (push_bin k l a)).
Proof.
  intros Hk. unfold due, due_part. rewrite filter_cons_True by done. unfold push_bin.
  case_decide; subst; [done|]. by rewrite filter_cons_True.
Qed.

Lemma agenda_push_bin w q k x l a :
  k.1 <= w → agenda w q ((k, x :: l) :: a) =
    (if live q x then [(x, k.1)] else []) ++ agenda w q (push_bin k l a).
Proof.
  intros Hk. unfold agenda, due_part. rewrite filter_cons_True by done.
  rewrite fmap_cons. simpl concat.
  assert (bin_agenda q (k, x :: l) = (if live q x then [(x, k.1)] else []) ++ bin_agenda q (k, l)) as ->.
  { unfold bin_agenda. simpl. destruct (live q x) eqn:Hl; [by rewrite filter_cons_True|].
    by rewrite filter_cons_False by congruence. }
  unfold push_bin. case_decide as Hb; [by subst; rewrite <-app_assoc|].
  by rewrite filter_cons_True, fmap_cons, <-app_assoc by done.
Qed.

(** The head of a consistent queue: it is due, it exists, and taking it out
    leaves the rest. *)
Lemma head_popped q k ev l a :
  wf q ((k, ev :: l) :: a) → async_queue q = [] →
  ∃ e1 q1, pop_head q = Ok (ev, q1) ∧ wf q1 (push_bin k l a) ∧ _curTick q1 = _curTick q ∧
    async_queue q1 = [] ∧ events q1 !! ev = Some e1 ∧ squashed e1 = negb (live q ev) ∧
    _when e1 = k.1 ∧ _curTick q <= k.1 ∧ ev ∉ flat (push_bin k l a) ∧
    (∀ k' b, (k', b) ∈ push_bin k l a → k.1 <= k'.1) ∧ (∀ x, live q1 x = live q x).
Proof.
  intros Hwf Ha. pose proof (wf_book _ _ Hwf) as Hbook.
  pose proof (rep_ordered _ _ _ (wf_rep _ _ Hwf)) as Ho.
  pose proof (rep_nodup _ _ _ (wf_rep _ _ Hwf)) as Hndf.
  destruct (ordered_cons_inv _ _ _ Ho) as [_ Hlt].
  destruct (pop_head_wf _ _ _ _ _ Hwf) as (e & q1 & He & Hk & Hpop & Hwf1 & Hc1 & Ha1 & Hv1).
  assert (∃ e1, events q1 !! ev = Some e1 ∧ squashed e1 = squashed e ∧ ekey e1 = k)
    as (e1 & He1 & Hsq & Hk1).
  { assert (view q1 !! ev = Some (set_scheduled false (payload e))) as Hx.
    { rewrite Hv1. by apply lookup_alter_ev, view_Some. }
    unfold view in Hx. rewrite lookup_fmap in Hx. destruct (events q1 !! ev) as [e1|]; [|done].
    exists e1. injection Hx. intros. rewrite <-Hk. unfold ekey. split_and!; congruence. }
  exists e1, q1. split_and!; try done; [congruence| | | | | |].
  - unfold live. rewrite He, negb_involutive. done.
  - by rewrite <-Hk1.
  - rewrite <-Hk. apply (book_future _ _ _ _ Hbook ev (payload e)); [by apply view_Some|].
    apply (book_sched _ _ _ _ Hbook ev (payload e)); [by apply view_Some|]. cbn. left.
  - rewrite flat_push_bin. by apply NoDup_cons in Hndf as [? _].
  - intros k' b' [->|Hin]%elem_of_push_bin_pair; [lia|].
    specialize (Hlt _ _ Hin). unfold key_lt in Hlt. lia.
  - intros x. by eapply live_scheduled.
Qed.

Lemma live_release q q' ev e x :
  events q !! ev = Some e →
  events q' = (if managed e && negb (scheduled e) then delete ev (events q) else events q) →
  x ≠ ev → live q' x = live q x.
Proof.
  intros He Hq Hx. unfold live. rewrite Hq. case_match; [|done]. by rewrite lookup_delete_ne.
Qed.

Section ServiceOne.
Context {W : Type} (process : id → t → W → res (t * W)) (w : Z).

(** What one step of the service does with the head [ev] of the queue: it
    processes it at its time unless it is squashed, and drops it. *)
Definition serviced (ev : id) (k : key) (rest : aqueue) (q : t) (s : W) (q' : t) (s' : W)
    (a' : aqueue) : Prop :=
  wf q' a' ∧ async_queue q' = [] ∧ _curTick q <= _curTick q' <= k.1 ∧
  (due w a' <= due w rest)%nat ∧
  calls process (if live q ev then [(ev, k.1)] else []) s s' ∧
  (quiet process w → agenda w q' a' = agenda w q rest).

Lemma serviceOne_squashed q s k ev l a :
  wf q ((k, ev :: l) :: a) → async_queue q = [] → live q ev = false →
  ∃ q', serviceOne process q s = Ok (None, q', s) ∧
    serviced ev k (push_bin k l a) q s q' s (push_bin k l a).
Proof.
  intros Hwf Ha Hl.
  destruct (head_popped _ _ _ _ _ Hwf Ha)
    as (e1 & q1 & Hpop & Hwf1 & Hc1 & Ha1 & He1 & Hsq & Hk1 & Hck & Hev & _ & Hlive).
  unfold serviceOne. rewrite Hpop, res_bind_Ok, (deref_Some _ _ _ He1), res_bind_Ok, Hsq, Hl.
  destruct (release_wf (update_event (set_squashed false) ev q1) (push_bin k l a) ev
    (set_squashed false e1)) as (q' & -> & Hwf' & Hc' & Ha' & Hh').
  { destruct Hwf1 as [Hr Hn Hb]. constructor; [|done|].
    - apply rep_alter; [done|by right].
    - unfold view, update_event. simpl. rewrite payload_alter by done. by apply book_squash. }
  { by apply lookup_alter_ev. }
  rewrite res_bind_Ok. exists q'. split; [done|]. simpl in *.
  split_and!; [done|congruence|lia|lia|done|rewrite Hl; constructor|].
  intros _. apply agenda_ext; [done|]. intros x Hx%elem_of_due_part.
  assert (x ≠ ev) by congruence.
  rewrite (live_release (update_event (set_squashed false) ev q1) q' ev (set_squashed false e1) x);
    [|by apply lookup_alter_ev|done|done].
  rewrite <-Hlive. unfold live. simpl. by rewrite lookup_alter_ne.
Qed.

Lemma serviceOne_live q s k ev l a :
  good_process process w → wf q ((k, ev :: l) :: a) → async_queue q = [] → live q ev = true →
  ∃ r q' s' a', serviceOne process q s = Ok (r, q', s') ∧
    serviced ev k (push_bin k l a) q s q' s' a'.
Proof.
  intros Hp Hwf Ha Hl.
  destruct (head_popped _ _ _ _ _ Hwf Ha)
    as (e1 & q1 & Hpop & Hwf1 & Hc1 & Ha1 & He1 & Hsq & Hk1 & Hck & Hev & Hge & Hlive).
  unfold serviceOne. rewrite Hpop, res_bind_Ok, (deref_Some _ _ _ He1), res_bind_Ok, Hsq, Hl, Hk1, Ha1.
  cbn [negb]. set (q1' := mk (this q1) (events q1) (head q1) k.1 []).
  assert (wf q1' (push_bin k l a)) as Hwf1' by by apply wf_advance.
  destruct (Hp ev q1' (push_bin k l a) s)
    as (q2 & a2 & s2 & Hpr & Hwf2 & Ha2 & [e2 He2] & Hc2 & Hdue); [done|done|done|by eexists|].
  assert (calls process (if live q ev then [(ev, k.1)] else []) s s2) as Hcalls.
  { rewrite Hl. change k.1 with (_curTick q1'). econstructor; [done|constructor]. }
  assert (quiet process w → due_part w a2 = due_part w (push_bin k l a) ∧
    ∀ x, x ∈ flat (due_part w (push_bin k l a)) → live q2 x = live q x) as Hquiet.
  { intros Hqt. destruct (Hqt _ _ _ _ _ _ _ Hwf1' Hpr Hwf2) as [? Hlv]. split; [done|].
    intros x Hx. by rewrite Hlv, <-Hlive. }
  rewrite Hpr, res_bind_Ok, (deref_Some _ _ _ He2), res_bind_Ok.
  pose proof (book_main _ _ _ _ (wf_book _ _ Hwf2) ev _ (view_Some _ _ _ He2)) as Hm.
  simpl in Hm, Hc2. destruct (isExitEvent e2).
  - rewrite Hm. cbn [ensure]. rewrite res_bind_Ok. exists (Some ev), q2, s2, a2.
    split; [done|]. split_and!; [done|done|lia|lia|done|done|]. intros [? ?]%Hquiet. by apply agenda_ext.
  - destruct (release_wf q2 a2 ev e2) as (q' & -> & Hwf' & Hc' & Ha' & Hh'); [done|done|].
    rewrite res_bind_Ok. exists None, q', s2, a2.
    split; [done|]. split_and!; [done|congruence|lia|lia|done|done|]. intros [Hd Hlv]%Hquiet.
    apply agenda_ext; [done|]. intros x Hx. rewrite (live_release q2 q' ev e2) by
      (done || intros ->; by apply Hev, (elem_of_due_part w)). auto.
Qed.

Lemma serviceOne_wf q s k ev l a :
  good_process process w → wf q ((k, ev :: l) :: a) → async_queue q = [] →
  ∃ r q' s' a', serviceOne process q s = Ok (r, q', s') ∧
    serviced ev k (push_bin k l a) q s q' s' a'.
Proof.
  intros Hp Hwf Ha. destruct (live q ev) eqn:Hl.
  - by apply serviceOne_live.
  - destruct (serviceOne_squashed q s k ev l a) as (q' & ? & ?); [done..|]. by eauto 7.
Qed.

End ServiceOne.

Lemma head_bins h p a : bins h p a → (p = None ∧ a = []) ∨
  ∃ x e l a', p = Some x ∧ h !! x = Some e ∧ a = (ekey e, x :: l) :: a'.
Proof. destruct 1; [by left|]. right. by eauto 8. Qed.

Lemma filter_none {A} (P : A → Prop) `{∀ x, Decision (P x)} (l : list A) :
  Forall (λ x, ¬ P x) l → base.filter P l = [].
Proof. induction 1; [done|]. by rewrite filter_cons_False. Qed.

Lemma due_later w k b a : ordered ((k, b) :: a) → w < k.1 → due w ((k, b) :: a) = 0%nat.
Proof.
  intros [_ Hlt]%ordered_cons_inv Hw. unfold due, due_part.
  assert (base.filter (λ kb : key * list id, kb.1.1 <= w) ((k, b) :: a) = []) as ->; [|done].
  apply filter_none. constructor; [simpl; lia|]. apply Forall_forall. intros [k' b'] Hin.
  specialize (Hlt k' b' Hin). unfold key_lt in Hlt. simpl. lia.
Qed.

Lemma due_pos w a :
  ordered a → (∀ k b, (k, b) ∈ a → b ≠ []) → due w a ≠ 0%nat →
  ∃ k x l a', a = (k, x :: l) :: a' ∧ k.1 <= w.
Proof.
  intros Ho Hne Hd. destruct a as [|[k b] a]; [done|].
  destruct (Z_lt_le_dec w k.1) as [?|Hle]; [by rewrite due_later in Hd|].
  destruct b as [|x l]; [by destruct (Hne k [] ltac:(left))|]. eauto 8.
Qed.

Lemma due_zero w a k b : due w a = 0%nat → (k, b) ∈ a → b ≠ [] → w < k.1.
Proof.
  intros Hd Hin Hb. destruct (Z_lt_le_dec w k.1) as [|Hle]; [done|]. exfalso.
  unfold due, due_part in Hd. apply nil_length_inv in Hd. destruct b as [|x b]; [done|].
  apply (not_elem_of_nil (A:=id) x). rewrite <-Hd. apply list_elem_of_In, in_concat.
  exists (x :: b). split; [|by left]. apply in_map_iff. exists (k, x :: b). split; [done|].
  apply list_elem_of_In, list_elem_of_filter. done.
Qed.

Lemma bins_nonempty h p a k b : bins h p a → (k, b) ∈ a → b ≠ [].
Proof. induction 1; [by intros ?%not_elem_of_nil|]. intros [[= ]|?]%elem_of_cons; naive_solver. Qed.

Lemma serviceEvents_idle {W} (process : id → t → W → res (t * W)) w q s a n :
  wf q a → async_queue q = [] → due w a = 0%nat →
  serviceEvents n process w q s = Ok (mk (this q) (events q) (head q) w [], s) ∧
  wf (mk (this q) (events q) (head q) w []) a ∧ agenda w q a = [].
Proof.
  intros Hwf Ha Hd. pose proof (rep_bins _ _ _ (wf_rep _ _ Hwf)) as Hbins.
  assert (∀ k b, (k, b) ∈ a → w < k.1) as Hlater.
  { intros k b Hin. eapply due_zero; [done|done|]. by eapply bins_nonempty. }
  split_and!.
  2:{ apply wf_advance; [done|done|intros k b ?%Hlater; lia]. }
  2:{ unfold agenda, due_part. rewrite filter_none; [done|]. apply Forall_forall.
      intros [k b] ?%Hlater. simpl. lia. }
  destruct (head_bins _ _ _ Hbins) as [[Hh ->]|(x & e & l & a' & Hh & He & ->)];
    destruct n; cbn [serviceEvents]; unfold empty, nextTick; rewrite Hh, Ha; try done;
    rewrite bool_decide_false, (deref_Some _ _ _ He), !res_bind_Ok by done;
    specialize (Hlater _ _ ltac:(left)); simpl in Hlater;
    replace (w <? _when e) with true by lia; done.
Qed.

(** One iteration of [serviceEvents], while something is due. *)
Lemma serviceEvents_step {W} (process : id → t → W → res (t * W)) w q s k x l a r q' s' n :
  wf q ((k, x :: l) :: a) → k.1 <= w → serviceOne process q s = Ok (r, q', s') →
  serviceEvents (S n) process w q s = serviceEvents n process w q' s'.
Proof.
  intros Hwf Hk Hs. pose proof (rep_bins _ _ _ (wf_rep _ _ Hwf)) as Hbins.
  inversion Hbins as [|x' e l' a'' Hx _ _ Hh Hek]; subst. cbn [serviceEvents].
  unfold empty, nextTick. rewrite <-Hh, bool_decide_false, (deref_Some _ _ _ Hx), !res_bind_Ok by done.
  simpl in Hk. replace (w <? _when e) with false by lia. by rewrite Hs, res_bind_Ok.
Qed.

(** C32: [serviceEvents(w)] terminates when no serviced event schedules another
    one due by [w], in as many steps as there are such events at most: it
    leaves nothing due by [w], the time at [w] and the queue consistent, and
    the simulation is changed by calls of [process] only.  When processing an
    event leaves the other due ones alone, exactly the events due by [w] that
    are not squashed are processed, each once, at its time, in the order of
    the queue. *)
Theorem serviceEvents_spec {W} (process : id → t → W → res (t * W)) w q s a n :
  good_process process w → wf q a → async_queue q = [] → _curTick q <= w →
  (due w a <= n)%nat →
  ∃ q' a' s' tr, serviceEvents n process w q s = Ok (q', s') ∧ wf q' a' ∧ _curTick q' = w ∧
    due w a' = 0%nat ∧ calls process tr s s' ∧ (length tr <= due w a)%nat ∧
    (∀ ev tick, (ev, tick) ∈ tr → _curTick q <= tick <= w) ∧
    (quiet process w → tr = agenda w q a).
Proof.
  intros Hp. revert q s a. induction n as [|n IH]; intros q s a Hwf Ha Hc Hn;
    (destruct (decide (due w a = 0%nat)) as [Hz|Hz];
      [edestruct (serviceEvents_idle process w q s a) as (Hse & ? & Hag); [done..|];
       rewrite Hse; eexists _, a, s, []; split_and!; try done;
       [constructor|simpl; lia|by intros ?? ?%not_elem_of_nil]|]); [lia|].
  pose proof (rep_bins _ _ _ (wf_rep _ _ Hwf)) as Hbins.
  destruct (due_pos w a) as (k & x & l & a' & -> & Hk);
    [apply Hwf|by intros; eapply bins_nonempty|done|].
  destruct (serviceOne_wf process w q s k x l a')
    as (r & q' & s' & a2 & Hs & Hwf' & Ha' & Hc' & Hd & Hcalls & Hag); [done..|].
  rewrite due_push_bin in * by done.
  destruct (IH q' s' a2) as (q2 & a3 & s2 & tr & He & ? & ? & ? & Hcs & Hlen & Htr & Hq);
    [done|done|lia|lia|].
  exists q2, a3, s2, ((if live q x then [(x, k.1)] else []) ++ tr).
  split_and!; [by erewrite serviceEvents_step|done|done|done|by eapply calls_app| | |].
  - rewrite length_app. destruct (live q x); simpl; lia.
  - intros ev tick [Hin|Hin]%elem_of_app; [|destruct (Htr _ _ Hin); lia].
    destruct (live q x); [|by apply not_elem_of_nil in Hin].
    apply list_elem_of_singleton in Hin as [= -> ->]. lia.
  - intros Hqt. by rewrite agenda_push_bin, Hq, Hag by done.
Qed.

Lemma abs_remove_insert k ev a :
  ordered a → Forall (λ kb, kb.2 ≠ []) a → ev ∉ flat a →
  abs_remove ev k (abs_insert k ev a) = a.
Proof.
  intros Ho Hne Hn. induction a as [|[k' b] a IH]; simpl.
  { rewrite decide_True by done. unfold push_bin. by rewrite filter_cons_False, filter_nil by naive_solver. }
  rewrite flat_cons in Hn. apply Forall_cons_1 in Hne as [Hb Hne].
  destruct (ordered_cons_inv _ _ _ Ho) as [Ho' _].
  case_decide as Hlt; [|case_decide as Heq].
  - simpl. rewrite decide_True by done. rewrite filter_cons_False by naive_solver. done.
  - subst. simpl. rewrite decide_True by done.
    rewrite filter_cons_False, filter_ne_notin by set_solver. unfold push_bin.
    by rewrite decide_False.
  - simpl. rewrite decide_False by done. rewrite IH by set_solver. done.
Qed.

Lemma insert_all_wf evs : ∀ q a,
  rep (events q) (head q) a → NoDup (flat a ++ evs) →
  (∀ x, x ∈ evs → is_Some (events q !! x)) →
  ∃ q' a', insert_all evs q = Ok q' ∧ rep (events q') (head q') a' ∧
    flat a' ≡ₚ flat a ++ evs ∧ view q' = view q ∧ _curTick q' = _curTick q ∧ this q' = this q.
Proof.
  induction evs as [|ev evs IH]; intros q a Hr Hnd Hd.
  { exists q, a. by rewrite app_nil_r. }
  destruct (Hd ev ltac:(left)) as [e He].
  rewrite <-Permutation_middle in Hnd. apply NoDup_cons in Hnd as [Hev Hnd].
  destruct (insertq_refines q a ev e) as (h' & hd' & Hi & Hr' & Hv); [done|done|set_solver|].
  simpl. rewrite Hi, res_bind_Ok.
  destruct (IH (mk (this q) h' hd' (_curTick q) (async_queue q)) (abs_insert (ekey e) ev a))
    as (q' & a' & -> & Hr2 & Hp2 & Hv2 & Hc2 & Ht2); [done| | |].
  - rewrite abs_insert_perm. by constructor.
  - intros x Hx. destruct (Hd x ltac:(by right)) as [ex Hx'].
    pose proof (view_Some _ _ _ Hx') as Hx2. rewrite <-Hv, lookup_fmap in Hx2. simpl.
    destruct (h' !! x); [by eexists|discriminate].
  - exists q', a'. split_and!; [done|done| |by rewrite Hv2|done|done].
    rewrite Hp2, abs_insert_perm. solve_Permutation.
Qed.

(** [handleAsyncInsertions] drains the asynchronous queue into the queue:
    afterwards exactly the events that were in either are queued. *)
Theorem handleAsyncInsertions_wf q a :
  wf q a →
  ∃ q' a', handleAsyncInsertions true q = Ok q' ∧ wf q' a' ∧ async_queue q' = [] ∧
    flat a' ≡ₚ flat a ++ async_queue q ∧ _curTick q' = _curTick q.
Proof.
  intros [Hr Hnd Hb]. unfold handleAsyncInsertions. cbn [ensure]. rewrite res_bind_Ok.
  destruct (insert_all_wf (async_queue q) q a) as (q' & a' & -> & Hr' & Hp & Hv & Hc & Ht); [done|done| |].
  { intros x Hx. assert (is_Some (view q !! x)) as Hx'.
    { apply (book_dom _ _ _ _ Hb). set_solver. }
    unfold view in Hx'. rewrite lookup_fmap in Hx'. by apply fmap_is_Some in Hx'. }
  rewrite res_bind_Ok. do 2 eexists. split_and!; [done| |done|done|done].
  constructor; simpl; rewrite ?app_nil_r.
  - done.
  - by rewrite Hp.
  - change (view (mk (this q') (events q') (head q') (_curTick q') [])) with (view q').
    rewrite Hv, Hc, Ht. destruct Hb as [Hs Hd Hf Hm Hi Hq].
    constructor; [|setoid_rewrite Hp; done|done|done|done|done].
    intros x e Hx. rewrite Hp. eauto.
Qed.

(** rescheduling a queued event succeeds, takes it out of the stack of its
    old time and puts it on top of the stack of the new one. *)
Theorem reschedule_wf q a ev e when :
  wf q a → events q !! ev = Some e → ev ∈ flat a → _curTick q <= when →
  ∃ q', reschedule ev when false false q = Ok q' ∧
    wf q' (abs_insert (when, _priority e) ev (abs_remove ev (ekey e) a)) ∧
    _curTick q' = _curTick q ∧ async_queue q' = async_queue q.
Proof.
  intros Hwf He Hin Hw. destruct (wf_linked _ _ _ _ Hwf He Hin) as [Hsc Hme].
  pose proof (wf_init _ _ _ _ Hwf He) as Hini. destruct Hwf as [Hr Hnd Hb].
  destruct (removeq_refines _ _ _ _ Hr He Hin Hme) as (h1 & hd1 & Hq & Hr1 & Hv1 & Hflat).
  unfold reschedule. rewrite (deref_Some _ _ _ He), res_bind_Ok, Hsc, Hini.
  replace (_curTick q <=? when) with true by lia. cbn [ensure negb orb].
  rewrite !res_bind_Ok, Hq, res_bind_Ok.
  assert (∃ e1, h1 !! ev = Some e1 ∧ payload e1 = payload e) as (e1 & He1 & Hpe1).
  { pose proof (view_Some _ _ _ He) as Hx. rewrite <-Hv1, lookup_fmap in Hx.
    destruct (h1 !! ev) as [e1|]; [|discriminate].
    apply (inj Some) in Hx. by exists e1. }
  set (q1 := mk (this q) h1 hd1 (_curTick q) (async_queue q)).
  change (this q1) with (this q).
  assert (ev ∉ flat (abs_remove ev (ekey e) a)) as Hev.
  { rewrite Hflat, list_elem_of_filter. naive_solver. }
  destruct (insertq_refines (update_event (setWhen when (this q)) ev q1)
    (abs_remove ev (ekey e) a) ev (setWhen when (this q) e1)) as (h2 & hd2 & Hi & Hr2 & Hv2);
    [by apply rep_alter; [|left]|by apply lookup_alter_ev|done|].
  rewrite Hi, res_bind_Ok. eexists. split_and!; [done| |done|done].
  replace (ekey (setWhen when (this q) e1)) with (when, _priority e) in Hr2
    by (apply payload_ekey in Hpe1; unfold ekey in *; simpl; congruence).
  apply NoDup_app in Hnd as (Hnd1 & Hdisj & Hnd2).
  constructor; simpl.
  - apply rep_alter; [apply rep_alter; [done|by right]|by right].
  - rewrite abs_insert_perm, Hflat. constructor.
    + rewrite elem_of_app, list_elem_of_filter. specialize (Hdisj ev Hin). naive_solver.
    + apply NoDup_app. split_and!; [by apply NoDup_filter| |done].
      intros x [_ Hx]%list_elem_of_filter. auto.
  - unfold view, update_event. simpl. rewrite !payload_alter, Hv2 by done.
    unfold view, update_event. simpl. rewrite payload_alter, Hv1 by done.
    replace (alter (set_scheduled true) ev _) with
      (alter (set_scheduled true ∘ setWhen when (this q)) ev (alter (set_squashed false) ev (view q)))
      by by rewrite !alter_alter_eq.
    eapply book_add; [by apply book_squash| |done|].
    + apply lookup_alter_is_Some. rewrite (view_Some _ _ _ He). by eexists.
    + intros x. rewrite abs_insert_perm, Hflat. cbn.
      rewrite elem_of_cons, !elem_of_app, list_elem_of_filter.
      destruct (decide (x = ev)); naive_solver.
Qed.

Lemma abs_insert_split k ev a :
  ordered a → ∃ a1 a2, a = a1 ++ a2 ∧ flat (abs_insert k ev a) = flat a1 ++ ev :: flat a2 ∧
    (∀ k' b, (k', b) ∈ a1 → key_lt k' k) ∧ (∀ k' b, (k', b) ∈ a2 → ¬ key_lt k' k).
Proof.
  induction a as [|[k' b] a IH]; intros Ho.
  { exists [], []. split_and!; [done|done|set_solver|set_solver]. }
  destruct (ordered_cons_inv _ _ _ Ho) as [Ho' Hall].
  destruct (decide (key_lt k' k)) as [Hlt|Hge].
  - destruct (IH Ho') as (a1 & a2 & -> & Hf & H1 & H2).
    exists ((k', b) :: a1), a2. rewrite abs_insert_after, !flat_cons, Hf, <-app_assoc by done.
    split_and!; [done|done| |done]. intros k2 b2 [[= -> ->]|?]%elem_of_cons; eauto.
  - exists [], ((k', b) :: a). split_and!; [done| |set_solver|].
    + simpl. case_decide; [done|]. rewrite decide_True; [done|].
      destruct (key_total k k') as [?|[?|?]]; done.
    + intros k2 b2 [[= -> ->]|Hin]%elem_of_cons; [done|]. intros Hk2.
      apply Hge. eapply key_lt_trans; [by eapply Hall|done].
Qed.

Lemma flat_app a1 a2 : flat (a1 ++ a2) = flat a1 ++ flat a2.
Proof. unfold flat. by rewrite fmap_app, concat_app. Qed.

Lemma bins_key h p a1 a2 x :
  bins h p (a1 ++ a2) → NoDup (flat (a1 ++ a2)) →
  (x ∈ flat a1 → ∃ e b, h !! x = Some e ∧ (ekey e, b) ∈ a1) ∧
  (x ∈ flat a2 → ∃ e b, h !! x = Some e ∧ (ekey e, b) ∈ a2).
Proof.
  intros Hb Hnd. rewrite flat_app in Hnd. apply NoDup_app in Hnd as (_ & Hdisj & _).
  assert (∀ k b (a : aqueue), (k, b) ∈ a → x ∈ b → x ∈ flat a) as Hin.
  { intros k b a ? ?. apply list_elem_of_In, in_concat. exists b.
    rewrite <-!list_elem_of_In. split; [|done]. apply list_elem_of_fmap. by exists (k, b). }
  split; intros Hx; destruct (bins_elem _ _ _ x Hb) as (e & b & He & Hbin & Hxb);
    try (rewrite flat_app; set_solver); exists e, b; (split; [done|]);
    apply elem_of_app in Hbin as [?|?]; try done; exfalso; eapply (Hdisj x); eauto.
Qed.

(** C30: [schedule] keeps the service order: the new event goes behind every
    queued event of an earlier (time, priority), in front of every other one
    (so the most recently scheduled of equal events is serviced first), and the
    order of the others is kept. *)
Theorem schedule_order q a ev e when :
  wf q a → events q !! ev = Some e → scheduled e = false → _curTick q <= when →
  ∃ q' a' l1 l2, schedule ev when false q = Ok q' ∧ wf q' a' ∧
    flat a = l1 ++ l2 ∧ flat a' = l1 ++ ev :: l2 ∧
    (∀ x, x ∈ l1 → ∃ ex, events q !! x = Some ex ∧ key_lt (ekey ex) (when, _priority e)) ∧
    (∀ x, x ∈ l2 → ∃ ex, events q !! x = Some ex ∧ ¬ key_lt (ekey ex) (when, _priority e)).
Proof.
  intros Hwf He Hsc Hw.
  destruct (schedule_wf q a ev e when) as (q' & Hs & Hwf' & _); [done..|].
  destruct Hwf as [[Hb Ho Hnd] _ _].
  destruct (abs_insert_split (when, _priority e) ev a Ho) as (a1 & a2 & -> & Hf & H1 & H2).
  exists q', (abs_insert (when, _priority e) ev (a1 ++ a2)), (flat a1), (flat a2).
  rewrite flat_app. split_and!; try done; intros x Hx;
    destruct (bins_key _ _ _ _ x Hb Hnd) as [Hk1 Hk2];
    [destruct (Hk1 Hx) as (ex & b & Hex & ?)|destruct (Hk2 Hx) as (ex & b & Hex & ?)];
    exists ex; eauto.
Qed.

(** Descheduling the event just scheduled gives back the queue before. *)
Lemma schedule_undone q a ev e when :
  wf q a → events q !! ev = Some e → scheduled e = false → _curTick q <= when →
  ∃ q1 q2, schedule ev when false q = Ok q1 ∧ deschedule ev false q1 = Ok q2 ∧
    wf q2 a ∧ _curTick q2 = _curTick q ∧ async_queue q2 = async_queue q.
Proof.
  intros Hwf He Hsc Hw. pose proof (wf_unscheduled _ _ _ _ Hwf He Hsc) as Hnin.
  pose proof (wf_rep _ _ Hwf) as [Hb Ho Hnd].
  destruct (schedule_wf q a ev e when) as (q1 & Hs & Hwf1 & Hc1 & Ha1 & Hv1); [done..|].
  assert (∃ e1, events q1 !! ev = Some e1 ∧ ekey e1 = (when, _priority e)) as (e1 & He1 & Hk1).
  { pose proof (lookup_alter_ev (set_scheduled true ∘ setWhen when (this q)) _ _ _ (view_Some _ _ _ He)) as Hx.
    rewrite <-Hv1 in Hx. unfold view in Hx. rewrite lookup_fmap in Hx.
    destruct (events q1 !! ev) as [e1|]; [|done]. injection Hx. intros. exists e1.
    split; [done|]. unfold ekey. congruence. }
  destruct (deschedule_wf q1 _ ev e1 Hwf1 He1) as (q2 & Hd & Hwf2 & _ & Hc2 & Ha2 & _).
  { rewrite abs_insert_perm. left. }
  exists q1, q2. rewrite Hk1, abs_remove_insert in Hwf2; [by split_and!; try congruence|done| |set_solver].
  apply Forall_forall. intros [k b] Hin. by eapply bins_nonempty.
Qed.

(** C31: [deschedule] of any event that is in the queue finds it (no panic, no
    assertion failure) and takes exactly it out: the others keep their order,
    their flags and their times, the event itself loses its flags, or is
    destroyed when it is managed.  On an event that is not scheduled it fails
    its assertion.  Descheduling the event just scheduled gives back the queue
    before. *)
Theorem schedule_deschedule q a ev e :
  wf q a → events q !! ev = Some e →
  (ev ∈ flat a → ∃ q' a', deschedule ev false q = Ok q' ∧ wf q' a' ∧
    flat a' = base.filter (λ x, x ≠ ev) (flat a) ∧
    _curTick q' = _curTick q ∧ async_queue q' = async_queue q ∧
    view q' = if managed e then delete ev (view q)
              else alter (set_scheduled false ∘ set_squashed false) ev (view q)) ∧
  (scheduled e = false → deschedule ev false q = Fail AssertFailure) ∧
  (∀ when, scheduled e = false → _curTick q <= when →
    ∃ q1 q2, schedule ev when false q = Ok q1 ∧ deschedule ev false q1 = Ok q2 ∧
      wf q2 a ∧ _curTick q2 = _curTick q ∧ async_queue q2 = async_queue q).
Proof.
  intros Hwf He. split_and!.
  - intros Hin. destruct (deschedule_wf q a ev e) as (q' & ?); [done..|]. naive_solver.
  - intros Hsc. unfold deschedule. by rewrite (deref_Some _ _ _ He), res_bind_Ok, Hsc.
  - intros when ? ?. by apply (schedule_undone q a ev e).
Qed.

(** ** A small queue *)

Definition demo_event (prio : Z) : Event :=
  mkEvent None None 0 prio false false false false false true None.

Definition demo : t :=
  mk 1 (<[1%positive := demo_event 0]> (<[2%positive := demo_event 1]> ∅)) None 5 [].

Lemma demo_wf : wf demo [].
Proof.
  constructor; [repeat constructor|constructor|].
  assert (∀ x e, view demo !! x = Some e → scheduled e = false ∧ managed e = false ∧ initialized e = true) as Hd.
  { intros x e. unfold view, demo. simpl. rewrite !fmap_insert, fmap_empty.
    intros [[<- <-]|[_ [[<- <-]|[_ Hx]]%lookup_insert_Some]]%lookup_insert_Some;
      [done|done|]. by rewrite lookup_empty in Hx. }
  constructor.
  - intros x e [-> _]%Hd. simpl. split; [done|by intros ?%not_elem_of_nil].
  - by intros x ?%not_elem_of_nil.
  - intros x e [-> _]%Hd. done.
  - intros x e (_ & -> & _)%Hd. done.
  - intros x e (_ & _ & ->)%Hd. done.
  - intros x e [-> _]%Hd. done.
Qed.

(** Events whose [process] only records that they were processed. *)
Definition note (ev : id) (q : t) (log : list id) : res (t * list id) := Ok (q, log ++ [ev]).

Lemma note_good w : good_process note w.
Proof. intros ev q a log ? ? ? ?. eexists q, a, _. by split_and!. Qed.

Lemma in_bin_unique h k p l l' : in_bin h k p l → in_bin h k p l' → l = l'.
Proof.
  intros H. revert l'. induction H as [|x e l Hx Hk _ IH]; intros l' H'; inversion H' as [|x' e' l'']; [done|].
  simplify_eq. f_equal. auto.
Qed.

Lemma bins_unique h p a a' : bins h p a → bins h p a' → a = a'.
Proof.
  intros H. revert a'. induction H as [|x e l a Hx Hl _ IH]; intros a' H';
    inversion H' as [|x' e' l' a'']; [done|].
  simplify_eq. f_equal; [|auto]. do 2 f_equal. by eapply in_bin_unique.
Qed.

Lemma note_quiet w : quiet note w.
Proof.
  intros ev q q' a a' log log' Ha [= <- <-] Ha'.
  by rewrite (bins_unique _ _ _ _ (rep_bins _ _ _ (wf_rep _ _ Ha)) (rep_bins _ _ _ (wf_rep _ _ Ha'))).
Qed.

Lemma note_calls tr s s' : calls note tr s s' → s' = s ++ tr.*1.
Proof.
  induction 1 as [|ev q q' s s' s'' tr [= <- <-] _ IH]; [by rewrite app_nil_r|].
  rewrite IH, <-app_assoc. done.
Qed.

Lemma squash_wf q a ev : wf q a → wf (squash ev q) a.
Proof.
  intros [Hr Hnd Hb]. constructor; [apply rep_alter; [done|by right]|done|].
  unfold view, squash, update_event. simpl. rewrite payload_alter by done. by apply book_squash.
Qed.

Lemma schedule_order_witness : ∃ q' a', schedule 1 7 false demo = Ok q' ∧ wf q' a'.
Proof.
  destruct (schedule_order demo [] 1 (demo_event 0) 7) as (q' & a' & _ & _ & H & ? & _);
    [apply demo_wf|reflexivity|reflexivity|vm_compute; congruence|].
  eauto.
Defined.

Lemma schedule_deschedule_witness :
  ∃ q1 q2, schedule 1 7 false demo = Ok q1 ∧ deschedule 1 false q1 = Ok q2 ∧ wf q2 [].
Proof.
  destruct (schedule_deschedule demo [] 1 (demo_event 0)) as (_ & _ & Hround);
    [apply demo_wf|reflexivity|].
  destruct (Hround 7) as (q1 & q2 & ? & ? & ? & _); [reflexivity|vm_compute; congruence|].
  eauto.
Defined.

Lemma reschedule_witness :
  ∃ q1 q2, schedule 1 7 false demo = Ok q1 ∧ reschedule 1 9 false false q1 = Ok q2 ∧
    _curTick q2 = 5.
Proof.
  destruct (schedule_wf demo [] 1 (demo_event 0) 7) as (q1 & Hs & Hwf & Hc & _);
    [apply demo_wf|reflexivity|reflexivity|vm_compute; congruence|].
  vm_compute in Hs. injection Hs as <-.
  destruct (reschedule_wf _ _ 1 (mkEvent None None 7 0 false true false false false true (Some 1%positive)) 9 Hwf) as (q2 & Hr & _ & Hc2 & _);
    [reflexivity|simpl; left|vm_compute; congruence|].
  eexists _, q2. split_and!; [reflexivity|exact Hr|exact Hc2].
Defined.

(** Two events are due, one of them squashed: only the other is processed. *)
Lemma serviceEvents_witness :
  ∃ q1 q2 q3, schedule 1 7 false demo = Ok q1 ∧ schedule 2 6 false q1 = Ok q2 ∧
    serviceEvents 2 note 8 (squash 2 q2) [] = Ok (q3, [1%positive]) ∧ _curTick q3 = 8.
Proof.
  destruct (schedule_wf demo [] 1 (demo_event 0) 7) as (q1 & Hs1 & Hwf1 & Hc1 & Ha1 & _);
    [apply demo_wf|reflexivity|reflexivity|vm_compute; congruence|].
  assert (Hs1' := Hs1). vm_compute in Hs1'. injection Hs1' as <-.
  destruct (schedule_wf _ _ 2 (demo_event 1) 6 Hwf1) as (q2 & Hs2 & Hwf2 & Hc2 & Ha2 & _);
    [reflexivity|reflexivity|vm_compute; congruence|].
  assert (Hs2' := Hs2). vm_compute in Hs2'. injection Hs2' as <-.
  destruct (serviceEvents_spec note 8 (squash 2 _) [] _ 2 (note_good 8) (squash_wf _ _ 2 Hwf2))
    as (q3 & a3 & log & tr & H3 & _ & Hc3 & _ & Hcalls & _ & _ & Htr);
    [reflexivity|vm_compute; congruence|vm_compute; lia|].
  rewrite (Htr (note_quiet 8)) in Hcalls. apply note_calls in Hcalls as ->.
  eexists _, _, q3. split_and!; [exact Hs1|exact Hs2|exact H3|exact Hc3].
Defined.

Lemma handleAsyncInsertions_witness : ∃ q', handleAsyncInsertions true demo = Ok q' ∧
  async_queue q' = [].
Proof. destruct (handleAsyncInsertions_wf demo [] demo_wf) as (q' & _ & ? & _ & ? & _). eauto. Defined.

End EventQueue.
