(* ===== verification/Host.v ===== *)
(** The simulator's own memory: buffers of bytes behind [uint8_t *] pointers,
    [memcpy], scalar loads and stores through cast pointers, byte swapping
    ([sim/byteswap.hh]) and variable-width buffer values ([sim/bufval.cc]).
    Packets, memories and devices share buffers through these pointers. *)

From S2P Require Import Prelude.

Module Host.

(** Allocated blocks of bytes; a pointer is a block and an offset in it. *)
Notation hmem := (gmap positive (list Z)).

Record ptr := Ptr { block : positive; offset : Z }.

#[global] Instance ptr_eq_dec : EqDecision ptr.
Proof. solve_decision. Defined.

Definition ptr_add (p : ptr) (n : Z) : ptr := Ptr (block p) (offset p + n).

Lemma ptr_add_add d x y : ptr_add (ptr_add d x) y = ptr_add d (x + y).
Proof. unfold ptr_add. simpl. f_equal. lia. Qed.

Lemma ptr_add_0 d : ptr_add d 0 = d.
Proof. unfold ptr_add. rewrite Z.add_0_r. by destruct d. Qed.

(** [n] bytes from [p] are inside the block. *)
Definition in_bounds (h : hmem) (p : ptr) (n : Z) : bool :=
  match h !! block p with
  | None => false
  | Some l => (0 <=? offset p) && (0 <=? n) && (offset p + n <=? Z.of_nat (length l))
  end.

Definition load_bytes (h : hmem) (p : ptr) (n : Z) : res (list Z) :=
  defined! (in_bounds h p n);
  Ok (take (Z.to_nat n) (drop (Z.to_nat (offset p)) (default [] (h !! block p)))).

Definition store_bytes (h : hmem) (p : ptr) (bs : list Z) : res hmem :=
  defined! (in_bounds h p (Z.of_nat (length bs)));
  Ok (alter (λ l, take (Z.to_nat (offset p)) l ++ bs ++
                  drop (Z.to_nat (offset p) + length bs) l) (block p) h).

(** [std::memcpy]: undefined on overlapping ranges. *)
Definition memcpy (h : hmem) (dst src : ptr) (n : Z) : res hmem :=
  defined!
        (negb (bool_decide (block dst = block src) &&
               (Z.max (offset dst) (offset src) <? Z.min (offset dst) (offset src) + n)));
  bs ← load_bytes h src n;
  store_bytes h dst bs.

(** [new uint8_t[n]]; the initial contents are unspecified, here zero. *)
Definition alloc (h : hmem) (n : Z) : positive * hmem :=
  let b := fresh (dom h) in
  (b, <[b := replicate (Z.to_nat n) 0]> h).

(** ** Scalars in memory (the host is little-endian) *)

Fixpoint le_bytes (n : nat) (v : Z) : list Z :=
  match n with
  | O => []
  | S n => v mod 256 :: le_bytes n (v / 256)
  end.

Fixpoint le_value (bs : list Z) : Z :=
  match bs with
  | [] => 0
  | b :: bs => b + 256 * le_value bs
  end.

(** [*(T * )p] for an unsigned [T] of [n] bytes. *)
Definition load_int (h : hmem) (p : ptr) (n : nat) : res Z :=
  bs ← load_bytes h p (Z.of_nat n); Ok (le_value bs).

Definition store_int (h : hmem) (p : ptr) (n : nat) (v : Z) : res hmem :=
  store_bytes h p (le_bytes n v).

(** The portable branch of [swap_byte64], [swap_byte32] and [swap_byte16]. *)
Definition swap_byte64 (x : Z) : Z :=
  Z.lor (u64 (Z.shiftl (Z.land x 0xff) 56))
  (Z.lor (u64 (Z.shiftl (Z.land x 0xff00) 40))
  (Z.lor (u64 (Z.shiftl (Z.land x 0xff0000) 24))
  (Z.lor (u64 (Z.shiftl (Z.land x 0xff000000) 8))
  (Z.lor (Z.shiftr (Z.land x 0xff00000000) 8)
  (Z.lor (Z.shiftr (Z.land x 0xff0000000000) 24)
  (Z.lor (Z.shiftr (Z.land x 0xff000000000000) 40)
         (Z.shiftr (Z.land x 0xff00000000000000) 56))))))).

Definition swap_byte32 (x : Z) : Z :=
  Z.lor (u32 (Z.shiftl (Z.land x 0xff) 24))
  (Z.lor (u32 (Z.shiftl (Z.land x 0xff00) 8))
  (Z.lor (Z.shiftr (Z.land x 0xff0000) 8)
         (Z.shiftr (Z.land x 0xff000000) 24))).

Definition swap_byte16 (x : Z) : Z :=
  u16 (Z.lor (Z.shiftl (Z.land x 0xff) 8) (Z.shiftr (Z.land x 0xff00) 8)).

Inductive ByteOrder := big | little.

(** [swap_byte<T>] for [sizeof(T) = n]; other sizes do not compile. *)
Definition swap_byte (n : nat) (x : Z) : Z :=
  match n with
  | 8%nat => swap_byte64 x
  | 4%nat => swap_byte32 x
  | 2%nat => swap_byte16 x
  | _ => x
  end.

Definition htog (n : nat) (value : Z) (order : ByteOrder) : Z :=
  match order with big => swap_byte n value | little => value end.

Definition gtoh (n : nat) (value : Z) (order : ByteOrder) : Z :=
  match order with big => swap_byte n value | little => value end.

Definition word_size (bytes : Z) : option nat :=
  if bytes =? 8 then Some 8%nat
  else if bytes =? 4 then Some 4%nat
  else if bytes =? 2 then Some 2%nat
  else if bytes =? 1 then Some 1%nat
  else None.

(** [getUintX]: [None] is the [{0, false}] result. *)
Definition getUintX (h : hmem) (buf : ptr) (bytes : Z) (endian : ByteOrder) : res (option Z) :=
  match word_size bytes with
  | Some n => v ← load_int h buf n; Ok (Some (gtoh n v endian))
  | None => Ok None
  end.

Definition setUintX (val : Z) (h : hmem) (buf : ptr) (bytes : Z) (endian : ByteOrder)
    : res (option hmem) :=
  match word_size bytes with
  | Some n => h ← store_int h buf n (htog n (val mod 256 ^ Z.of_nat n) endian); Ok (Some h)
  | None => Ok None
  end.

(** ** Loads and stores *)

(** The byte at offset [i] of block [b]. *)
Definition peek (h : hmem) (b : positive) (i : Z) : option Z :=
  l ← h !! b; if 0 <=? i then l !! Z.to_nat i else None.

Lemma in_bounds_iff h p n :
  in_bounds h p n = true ↔
  ∃ l, h !! block p = Some l ∧ 0 <= offset p ∧ 0 <= n ∧ offset p + n <= Z.of_nat (length l).
Proof.
  unfold in_bounds. destruct (h !! block p) as [l|]; [|naive_solver].
  rewrite !andb_true_iff, !Z.leb_le. naive_solver.
Qed.

Lemma load_bytes_Ok h p n bs :
  load_bytes h p n = Ok bs ↔
  in_bounds h p n = true ∧
  bs = take (Z.to_nat n) (drop (Z.to_nat (offset p)) (default [] (h !! block p))).
Proof.
  unfold load_bytes, ensure. destruct (in_bounds h p n); simpl; [|naive_solver].
  split; [intros [= ->]|intros [_ ->]]; done.
Qed.

Lemma load_bytes_length h p n bs : load_bytes h p n = Ok bs → Z.of_nat (length bs) = n.
Proof.
  intros [(l & Hl & ? & ? & ?)%in_bounds_iff ->]%load_bytes_Ok. rewrite Hl. simpl.
  rewrite length_take, length_drop. lia.
Qed.

Lemma load_bytes_peek h p n bs i :
  load_bytes h p n = Ok bs → 0 <= i < n →
  bs !! Z.to_nat i = peek h (block p) (offset p + i).
Proof.
  intros [(l & Hl & ? & ? & ?)%in_bounds_iff ->]%load_bytes_Ok Hi.
  unfold peek. rewrite Hl. simpl. replace (0 <=? offset p + i) with true by lia.
  rewrite lookup_take_lt, lookup_drop by lia. f_equal. lia.
Qed.

Lemma load_bytes_in_bounds h p n :
  in_bounds h p n = true → ∃ bs, load_bytes h p n = Ok bs.
Proof. intros H. unfold load_bytes. rewrite H. simpl. eauto. Qed.

Lemma store_bytes_in_bounds h p bs :
  in_bounds h p (Z.of_nat (length bs)) = true → ∃ h', store_bytes h p bs = Ok h'.
Proof. intros H. unfold store_bytes. rewrite H. simpl. eauto. Qed.

Lemma store_bytes_peek h p bs h' b i :
  store_bytes h p bs = Ok h' →
  peek h' b i =
    if decide (b = block p ∧ offset p <= i < offset p + Z.of_nat (length bs))
    then bs !! Z.to_nat (i - offset p) else peek h b i.
Proof.
  unfold store_bytes, ensure. destruct (in_bounds _ _ _) eqn:Hb; simpl; [|done]. intros [= <-].
  apply in_bounds_iff in Hb as (l & Hl & ? & ? & ?). unfold peek.
  case_decide as Hd.
  - destruct Hd as [-> Hi]. rewrite lookup_alter_eq, Hl. simpl.
    replace (0 <=? i) with true by lia.
    rewrite lookup_app_r by (rewrite length_take; lia).
    rewrite length_take, Nat.min_l by lia. rewrite lookup_app_l by lia. f_equal. lia.
  - destruct (decide (b = block p)) as [->|?]; [|by rewrite lookup_alter_ne].
    rewrite lookup_alter_eq, Hl. simpl. destruct (Z.leb_spec 0 i); [|done].
    destruct (Z_lt_le_dec i (offset p)).
    + rewrite lookup_app_l by (rewrite length_take; lia). by rewrite lookup_take_lt by lia.
    + rewrite lookup_app_r by (rewrite length_take; lia).
      rewrite length_take, Nat.min_l by lia. rewrite lookup_app_r by lia.
      rewrite lookup_drop. f_equal. lia.
Qed.

(** Stores never change the size of a block. *)
Lemma store_bytes_in_bounds_frame h p bs h' q n :
  store_bytes h p bs = Ok h' → in_bounds h' q n = in_bounds h q n.
Proof.
  unfold store_bytes, ensure. destruct (in_bounds h p _) eqn:Hb; simpl; [|done]. intros [= <-].
  apply in_bounds_iff in Hb as (l & Hl & ? & ? & ?). unfold in_bounds.
  destruct (decide (block q = block p)) as [->|]; [|by rewrite lookup_alter_ne].
  rewrite lookup_alter_eq, Hl. simpl.
  rewrite !length_app, length_take, length_drop.
  replace (offset p `max` 0) with (offset p) by lia.
  repeat f_equal; lia.
Qed.

Lemma peek_in_bounds h p n i :
  in_bounds h p n = true → 0 <= i < n → is_Some (peek h (block p) (offset p + i)).
Proof.
  intros (l & Hl & ? & ? & ?)%in_bounds_iff Hi. unfold peek. rewrite Hl. simpl.
  replace (0 <=? offset p + i) with true by lia. apply lookup_lt_is_Some_2. lia.
Qed.

(** Loads are determined by the bytes in range. *)
Lemma load_bytes_ext h h' p p' n :
  in_bounds h p n = true → in_bounds h' p' n = true →
  (∀ i, 0 <= i < n → peek h (block p) (offset p + i) = peek h' (block p') (offset p' + i)) →
  load_bytes h p n = load_bytes h' p' n.
Proof.
  intros Hb Hb' Heq.
  destruct (load_bytes_in_bounds h p n Hb) as [bs Hbs].
  destruct (load_bytes_in_bounds h' p' n Hb') as [bs' Hbs']. rewrite Hbs, Hbs'. f_equal.
  pose proof (load_bytes_length _ _ _ _ Hbs). pose proof (load_bytes_length _ _ _ _ Hbs').
  apply list_eq. intros i. destruct (decide (i < length bs)%nat).
  - rewrite <-(Nat2Z.id i), (load_bytes_peek _ _ _ _ _ Hbs), (load_bytes_peek _ _ _ _ _ Hbs') by lia.
    apply Heq. lia.
  - rewrite !lookup_ge_None_2 by lia. done.
Qed.

Lemma load_store_same h p bs h' :
  store_bytes h p bs = Ok h' → load_bytes h' p (Z.of_nat (length bs)) = Ok bs.
Proof.
  intros Hs. assert (in_bounds h p (Z.of_nat (length bs)) = true) as Hb.
  { unfold store_bytes, ensure in Hs. by destruct (in_bounds h p _). }
  destruct (load_bytes_in_bounds h' p (Z.of_nat (length bs))) as [bs' Hl].
  { by rewrite (store_bytes_in_bounds_frame _ _ _ _ _ _ Hs). }
  rewrite Hl. f_equal. pose proof (load_bytes_length _ _ _ _ Hl).
  apply list_eq. intros i. destruct (decide (i < length bs)%nat).
  - rewrite <-(Nat2Z.id i), (load_bytes_peek _ _ _ _ _ Hl) by lia.
    rewrite (store_bytes_peek _ _ _ _ _ _ Hs), decide_True by lia. f_equal. lia.
  - rewrite !lookup_ge_None_2 by lia. done.
Qed.

(** A store leaves alone the ranges it does not overlap. *)
Definition disjoint_ranges (p : ptr) (n : Z) (q : ptr) (m : Z) : Prop :=
  block p ≠ block q ∨ offset p + n <= offset q ∨ offset q + m <= offset p.

Lemma load_store_disjoint h p bs h' q n :
  store_bytes h p bs = Ok h' → disjoint_ranges p (Z.of_nat (length bs)) q n →
  load_bytes h' q n = load_bytes h q n.
Proof.
  intros Hs Hd. pose proof (store_bytes_in_bounds_frame _ _ _ _ q n Hs) as Hf.
  destruct (in_bounds h q n) eqn:Hb.
  - apply load_bytes_ext; [done|done|]. intros i Hi.
    rewrite (store_bytes_peek _ _ _ _ _ _ Hs), decide_False; [done|].
    unfold disjoint_ranges in Hd. intros [? ?]. naive_solver lia.
  - unfold load_bytes. by rewrite Hf, Hb.
Qed.

(** A [memcpy] between ranges that do not overlap succeeds when both are in
    bounds, and copies. *)
Lemma memcpy_Ok h dst src n :
  in_bounds h dst n = true → in_bounds h src n = true → disjoint_ranges dst n src n →
  ∃ bs h', load_bytes h src n = Ok bs ∧ store_bytes h dst bs = Ok h' ∧ memcpy h dst src n = Ok h'.
Proof.
  intros Hd Hs Hdis. destruct (load_bytes_in_bounds h src n Hs) as [bs Hl].
  pose proof (load_bytes_length _ _ _ _ Hl) as Hlen.
  destruct (store_bytes_in_bounds h dst bs) as [h' Hst]; [by rewrite Hlen|].
  exists bs, h'. split_and!; [done|done|]. unfold memcpy. rewrite Hl.
  replace (negb _) with true; [done|]. symmetry. apply negb_true_iff, andb_false_iff.
  destruct Hdis as [?|?]; [left; by apply bool_decide_eq_false|right; lia].
Qed.

(** ** Little-endian bytes *)

Definition is_byte (b : Z) : Prop := 0 <= b < 256.

Lemma le_bytes_length n v : length (le_bytes n v) = n.
Proof. revert v. induction n as [|n IH]; intros v; simpl; [done|]. by rewrite IH. Qed.

Lemma le_bytes_are_bytes n v : Forall is_byte (le_bytes n v).
Proof.
  revert v. induction n as [|n IH]; intros v; simpl; constructor; [|done].
  apply Z.mod_pos_bound. lia.
Qed.

Lemma pow256_S n : 256 ^ Z.of_nat (S n) = 256 * 256 ^ Z.of_nat n.
Proof. rewrite Nat2Z.inj_succ, Z.pow_succ_r by lia. done. Qed.

Lemma le_value_bytes n v : le_value (le_bytes n v) = v mod 256 ^ Z.of_nat n.
Proof.
  revert v. induction n as [|n IH]; intros v; simpl le_bytes; simpl le_value.
  { by rewrite Z.mod_1_r. }
  rewrite IH, pow256_S. rewrite Z.rem_mul_r by lia. done.
Qed.

Lemma le_value_range bs : Forall is_byte bs → 0 <= le_value bs < 256 ^ Z.of_nat (length bs).
Proof.
  induction 1 as [|b bs Hb _ IH]; [simpl; lia|]. cbn [length le_value].
  rewrite pow256_S. unfold is_byte in Hb. lia.
Qed.

Lemma le_bytes_value bs : Forall is_byte bs → le_bytes (length bs) (le_value bs) = bs.
Proof.
  induction 1 as [|b bs Hb _ IH]; [done|]. simpl. unfold is_byte in Hb.
  rewrite <-(Z.mod_unique (b + 256 * le_value bs) 256 (le_value bs) b) by lia.
  rewrite <-(Z.div_unique (b + 256 * le_value bs) 256 (le_value bs) b) by lia.
  by rewrite IH.
Qed.

(** ** Byte swapping *)

Lemma land_byte x k : 0 <= k → Z.land x (Z.shiftl 255 k) = (x / 2 ^ k) mod 256 * 2 ^ k.
Proof.
  intros Hk. change 255 with (Z.ones 8). change 256 with (2 ^ 8).
  rewrite <-Z.land_ones, <-Z.shiftr_div_pow2, <-!Z.shiftl_mul_pow2 by lia.
  rewrite Z.shiftl_land. apply Z.bits_inj'. intros i Hi.
  rewrite !Z.land_spec. destruct (Z_lt_le_dec i k).
  - by rewrite !(Z.shiftl_spec_low _ _ i), !andb_false_r by lia.
  - rewrite (Z.shiftl_spec (Z.shiftr x k)), Z.shiftr_spec by lia. do 2 f_equal. lia.
Qed.

Lemma lor_high a b k : 0 <= k → 0 <= a < 2 ^ k → Z.lor (b * 2 ^ k) a = b * 2 ^ k + a.
Proof.
  intros Hk Ha. rewrite Z.add_nocarry_lxor.
  - symmetry. apply Z.bits_inj'. intros i Hi. rewrite Z.lxor_spec, Z.lor_spec.
    destruct (Z_lt_le_dec i k).
    + rewrite Z.mul_pow2_bits_low by lia. by destruct (Z.testbit a i).
    + rewrite (testbit_high a k i) by lia. by destruct (Z.testbit (b * 2 ^ k) i).
  - apply Z.bits_inj'. intros i Hi. rewrite Z.land_spec, Z.bits_0.
    destruct (Z_lt_le_dec i k).
    + by rewrite Z.mul_pow2_bits_low by lia.
    + by rewrite (testbit_high a k i), andb_false_r by lia.
Qed.

(** Byte [i] of [x]. *)
Definition byte_of (x i : Z) : Z := (x / 2 ^ (8 * i)) mod 256.

Lemma byte_of_range x i : 0 <= byte_of x i < 256.
Proof. apply Z.mod_pos_bound. lia. Qed.

Lemma le_bytes_byte_of n : ∀ x, le_bytes n x = (λ i, byte_of x (Z.of_nat i)) <$> seq 0 n.
Proof.
  induction n as [|n IH]; intros x; [done|]. simpl.
  rewrite <-fmap_S_seq, <-list_fmap_compose. f_equal.
  - unfold byte_of. rewrite Z.mul_0_r, Z.pow_0_r, Z.div_1_r. done.
  - rewrite IH. apply list_fmap_ext. intros i j _. unfold byte_of. simpl.
    rewrite Z.div_div by lia. do 2 f_equal.
    replace (8 * Z.of_nat (S j)) with (8 + 8 * Z.of_nat j) by lia.
    rewrite Z.pow_add_r by lia. done.
Qed.

(** Moving byte [i] of [x] to byte [j]. *)
Lemma move_byte_left x i j w : 0 <= i <= j ∧ 8 * j + 8 <= w →
  (Z.shiftl (Z.land x (Z.shiftl 255 (8 * i))) (8 * (j - i))) mod 2 ^ w =
  byte_of x i * 2 ^ (8 * j).
Proof.
  intros [Hi Hw]. pose proof (byte_of_range x i).
  rewrite land_byte by lia. fold (byte_of x i). rewrite Z.shiftl_mul_pow2 by lia.
  rewrite <-Z.mul_assoc, <-Z.pow_add_r by lia.
  replace (8 * i + 8 * (j - i)) with (8 * j) by lia. apply Z.mod_small. split; [nia|].
  apply Z.lt_le_trans with (2 ^ (8 * j + 8)); [|apply Z.pow_le_mono_r; lia].
  rewrite Z.pow_add_r by lia. nia.
Qed.

Lemma move_byte_right x i j : 0 <= j <= i →
  Z.shiftr (Z.land x (Z.shiftl 255 (8 * i))) (8 * (i - j)) = byte_of x i * 2 ^ (8 * j).
Proof.
  intros Hi. rewrite land_byte by lia. fold (byte_of x i). rewrite Z.shiftr_div_pow2 by lia.
  replace (8 * i) with (8 * j + 8 * (i - j)) by lia. rewrite Z.pow_add_r, Z.mul_assoc by lia.
  apply Z.div_mul. lia.
Qed.

Ltac eval_bytes :=
  cbn -[byte_of Z.pow Z.mul Z.add];
  repeat match goal with |- context [Z.of_nat ?n] =>
    let z := eval vm_compute in (Z.of_nat n) in change (Z.of_nat n) with z
  end; lia.

Ltac gather_bytes x :=
  unfold u64, u32, u16;
  repeat match goal with
  | |- context [Z.lor (byte_of x ?i * 2 ^ ?k) ?a] =>
      lazymatch a with context [Z.lor _ _] => fail | _ => idtac end;
      rewrite (lor_high a (byte_of x i) k) by
        (pose proof (byte_of_range x 0); pose proof (byte_of_range x 1);
         pose proof (byte_of_range x 2); pose proof (byte_of_range x 3);
         pose proof (byte_of_range x 4); pose proof (byte_of_range x 5);
         pose proof (byte_of_range x 6); pose proof (byte_of_range x 7); lia)
  end.

Lemma swap_byte64_rev x : swap_byte64 x = le_value (rev (le_bytes 8 x)).
Proof.
  rewrite le_bytes_byte_of. unfold swap_byte64, u64.
  assert (Z.shiftl (Z.land x 0xff) 56 mod 2 ^ 64 = byte_of x 0 * 2 ^ 56) as ->
    by (apply (move_byte_left x 0 7 64); lia).
  assert (Z.shiftl (Z.land x 0xff00) 40 mod 2 ^ 64 = byte_of x 1 * 2 ^ 48) as ->
    by (apply (move_byte_left x 1 6 64); lia).
  assert (Z.shiftl (Z.land x 0xff0000) 24 mod 2 ^ 64 = byte_of x 2 * 2 ^ 40) as ->
    by (apply (move_byte_left x 2 5 64); lia).
  assert (Z.shiftl (Z.land x 0xff000000) 8 mod 2 ^ 64 = byte_of x 3 * 2 ^ 32) as ->
    by (apply (move_byte_left x 3 4 64); lia).
  assert (Z.shiftr (Z.land x 0xff00000000) 8 = byte_of x 4 * 2 ^ 24) as ->
    by (apply (move_byte_right x 4 3); lia).
  assert (Z.shiftr (Z.land x 0xff0000000000) 24 = byte_of x 5 * 2 ^ 16) as ->
    by (apply (move_byte_right x 5 2); lia).
  assert (Z.shiftr (Z.land x 0xff000000000000) 40 = byte_of x 6 * 2 ^ 8) as ->
    by (apply (move_byte_right x 6 1); lia).
  assert (Z.shiftr (Z.land x 0xff00000000000000) 56 = byte_of x 7 * 2 ^ 0) as ->
    by (apply (move_byte_right x 7 0); lia).
  gather_bytes x. eval_bytes.
Qed.

Lemma swap_byte32_rev x : swap_byte32 x = le_value (rev (le_bytes 4 x)).
Proof.
  rewrite le_bytes_byte_of. unfold swap_byte32, u32.
  assert (Z.shiftl (Z.land x 0xff) 24 mod 2 ^ 32 = byte_of x 0 * 2 ^ 24) as ->
    by (apply (move_byte_left x 0 3 32); lia).
  assert (Z.shiftl (Z.land x 0xff00) 8 mod 2 ^ 32 = byte_of x 1 * 2 ^ 16) as ->
    by (apply (move_byte_left x 1 2 32); lia).
  assert (Z.shiftr (Z.land x 0xff0000) 8 = byte_of x 2 * 2 ^ 8) as ->
    by (apply (move_byte_right x 2 1); lia).
  assert (Z.shiftr (Z.land x 0xff000000) 24 = byte_of x 3 * 2 ^ 0) as ->
    by (apply (move_byte_right x 3 0); lia).
  gather_bytes x. eval_bytes.
Qed.

Lemma swap_byte16_rev x : swap_byte16 x = le_value (rev (le_bytes 2 x)).
Proof.
  rewrite le_bytes_byte_of. unfold swap_byte16, u16.
  pose proof (byte_of_range x 0). pose proof (byte_of_range x 1).
  assert (Z.shiftl (Z.land x 0xff) 8 = byte_of x 0 * 2 ^ 8) as ->.
  { change (Z.land x 0xff) with (Z.land x (Z.shiftl 255 (8 * 0))).
    rewrite land_byte, Z.shiftl_mul_pow2 by lia. fold (byte_of x 0). lia. }
  assert (Z.shiftr (Z.land x 0xff00) 8 = byte_of x 1) as ->.
  { etransitivity; [apply (move_byte_right x 1 0); lia|]. cbn -[byte_of]. lia. }
  rewrite lor_high, Z.mod_small by lia. eval_bytes.
Qed.

Lemma swap_byte_rev n x :
  n ∈ [1; 2; 4; 8]%nat → 0 <= x < 256 ^ Z.of_nat n →
  swap_byte n x = le_value (rev (le_bytes n x)).
Proof.
  intros Hn Hx. rewrite !elem_of_cons in Hn.
  destruct Hn as [->|[->|[->|[->|Hn%not_elem_of_nil]]]]; [|..|done]; simpl swap_byte.
  - cbn. rewrite Z.mod_small by (simpl in Hx; lia). lia.
  - apply swap_byte16_rev.
  - apply swap_byte32_rev.
  - apply swap_byte64_rev.
Qed.

Lemma swap_byte_range n x :
  n ∈ [1; 2; 4; 8]%nat → 0 <= x < 256 ^ Z.of_nat n → 0 <= swap_byte n x < 256 ^ Z.of_nat n.
Proof.
  intros Hn Hx. rewrite swap_byte_rev by done.
  pose proof (le_value_range (rev (le_bytes n x))) as Hr.
  rewrite length_rev, le_bytes_length in Hr. apply Hr.
  apply Forall_rev, le_bytes_are_bytes.
Qed.

(** Swapping twice gives the value back. *)
Lemma swap_byte_involutive n x :
  n ∈ [1; 2; 4; 8]%nat → 0 <= x < 256 ^ Z.of_nat n → swap_byte n (swap_byte n x) = x.
Proof.
  intros Hn Hx. pose proof (swap_byte_range n x Hn Hx).
  rewrite (swap_byte_rev n (swap_byte n x)), (swap_byte_rev n x) by done.
  assert (le_bytes n (le_value (rev (le_bytes n x))) = rev (le_bytes n x)) as ->.
  { rewrite <-(le_bytes_length n x) at 1. rewrite <-length_rev.
    apply le_bytes_value, Forall_rev, le_bytes_are_bytes. }
  rewrite rev_involutive, le_value_bytes. by apply Z.mod_small.
Qed.

(** A value survives being stored and loaded in the same byte order. *)
Lemma gtoh_htog n v order :
  n ∈ [1; 2; 4; 8]%nat → 0 <= v < 256 ^ Z.of_nat n →
  gtoh n (le_value (le_bytes n (htog n v order))) order = v.
Proof.
  intros Hn Hv. rewrite le_value_bytes. destruct order; simpl.
  - rewrite Z.mod_small by by apply swap_byte_range. by apply swap_byte_involutive.
  - by apply Z.mod_small.
Qed.

Lemma word_size_Some bytes n :
  word_size bytes = Some n → n ∈ [1; 2; 4; 8]%nat ∧ bytes = Z.of_nat n.
Proof.
  unfold word_size. repeat case_match; intros [= <-]; (split; [set_solver|lia]).
Qed.

(** Into a buffer that has room, [setUintX] of a supported width writes what
    [getUintX] reads back, truncated to the width, in either byte order, and
    touches no other byte; other widths are reported, not written. *)
Theorem setUintX_getUintX val h buf bytes endian :
  in_bounds h buf bytes = true →
  if decide (bytes ∈ [1; 2; 4; 8]) then
    ∃ h', setUintX val h buf bytes endian = Ok (Some h') ∧
      getUintX h' buf bytes endian = Ok (Some (val mod 256 ^ bytes)) ∧
      ∀ b o, ¬ (b = block buf ∧ offset buf <= o < offset buf + bytes) → peek h' b o = peek h b o
  else setUintX val h buf bytes endian = Ok None.
Proof.
  intros Hb. unfold setUintX, getUintX. destruct (word_size bytes) as [n|] eqn:Hw.
  2:{ rewrite decide_False; [done|]. unfold word_size in Hw. repeat case_match; try done.
      rewrite !not_elem_of_cons. lia || (split_and!; try lia; apply not_elem_of_nil). }
  apply word_size_Some in Hw as [Hn ->]. rewrite decide_True by set_solver. unfold store_int.
  destruct (store_bytes_in_bounds h buf (le_bytes n (htog n (val mod 256 ^ Z.of_nat n) endian)))
    as [h' Hs]; [by rewrite le_bytes_length|].
  exists h'. rewrite Hs. split; [done|].
  pose proof (load_store_same _ _ _ _ Hs) as Hl. rewrite le_bytes_length in Hl. split.
  - unfold load_int. rewrite Hl. simpl. do 2 f_equal. apply gtoh_htog; [done|].
    apply Z.mod_pos_bound; lia.
  - intros b o Hbo. by rewrite (store_bytes_peek _ _ _ _ b o Hs), le_bytes_length, decide_False.
Qed.

Lemma setUintX_getUintX_witness :
  ∃ h', setUintX 0x12345678 (<[1%positive := replicate 8 0]> ∅) (Ptr 1 2) 4 big = Ok (Some h') ∧
    getUintX h' (Ptr 1 2) 4 big = Ok (Some 0x12345678).
Proof.
  destruct (setUintX_getUintX 0x12345678 (<[1%positive := replicate 8 0]> ∅) (Ptr 1 2) 4 big)
    as (h' & Hs & Hg & _); [reflexivity|]. exists h'. split; [exact Hs|exact Hg].
Defined.

(** ** Characters and C strings *)

Definition byte (h : hmem) (p : ptr) : res Z := load_int h p 1.

(** The string at [p] is [l]. *)
Definition cstring (h : hmem) (p : ptr) (l : list Z) : Prop :=
  Forall (λ c, c ≠ 0) l ∧
  ∀ i c, (l ++ [0]) !! i = Some c → peek h (block p) (offset p + Z.of_nat i) = Some c.

Lemma byte_peek h p c : peek h (block p) (offset p) = Some c → byte h p = Ok c.
Proof.
  unfold peek, byte, load_int, load_bytes, in_bounds. destruct (h !! block p) as [l|]; [|done].
  intros Hc. destruct (Z.leb_spec 0 (offset p)); [|done]. simpl in Hc. change (Z.of_nat 1) with 1.
  pose proof (lookup_lt_Some _ _ _ Hc) as Hlt. rewrite (proj2 (Z.leb_le (offset p + 1) _)) by lia.
  simpl. change (Z.to_nat 1) with 1%nat. rewrite (drop_S l c (Z.to_nat (offset p))) by done. simpl. f_equal. lia.
Qed.

Lemma cstring_cons h p c l :
  cstring h p (c :: l) → c ≠ 0 ∧ byte h p = Ok c ∧ cstring h (ptr_add p 1) l.
Proof.
  intros [Hz Hp]. apply Forall_cons_1 in Hz as [Hc Hz]. split; [done|]. split.
  - apply byte_peek. specialize (Hp 0%nat c eq_refl). by rewrite Z.add_0_r in Hp.
  - split; [done|]. intros i x Hx. specialize (Hp (S i) x Hx). simpl. rewrite <-Hp. f_equal. lia.
Qed.

Lemma cstring_nil h p : cstring h p [] → byte h p = Ok 0.
Proof.
  intros [_ Hp]. apply byte_peek. specialize (Hp 0%nat 0 eq_refl). by rewrite Z.add_0_r in Hp.
Qed.

Lemma cstring_size h p l : cstring h p l → in_bounds h p (Z.of_nat (length l) + 1) = true.
Proof.
  intros [_ Hp]. pose proof (Hp 0%nat) as H0. specialize (Hp (length l) 0).
  rewrite list_lookup_middle in Hp by done. specialize (Hp eq_refl). unfold peek in Hp, H0. unfold in_bounds.
  destruct (h !! block p) as [b|]; [|done]. simpl in *.
  destruct (Z.leb_spec 0 (offset p)) as [Ho|Ho].
  - destruct (Z.leb_spec 0 (offset p + Z.of_nat (length l))); [|done]. pose proof (lookup_lt_Some _ _ _ Hp).
    rewrite (proj2 (Z.leb_le _ _)), (proj2 (Z.leb_le _ _)) by lia. done.
  - rewrite Z.add_0_r in H0. replace (0 <=? offset p) with false in H0 by lia.
    destruct l; simpl in H0; by specialize (H0 _ eq_refl).
Qed.

Lemma cstring_fuel h p l : cstring h p l → (length l < S (length (default [] (h !! block p))))%nat.
Proof.
  intros (b & Hb & ? & ? & ?)%cstring_size%in_bounds_iff. rewrite Hb. simpl. lia.
Qed.

Lemma store_byte_ok h p c :
  in_bounds h p 1 = true → 0 <= c < 256 →
  ∃ h', store_int h p 1 c = Ok h' ∧ (∀ q l, in_bounds h' q l = in_bounds h q l) ∧
    ∀ b i, peek h' b i = if decide (b = block p ∧ i = offset p) then Some c else peek h b i.
Proof.
  intros Hb Hc. unfold store_int. simpl. rewrite Z.mod_small by lia.
  destruct (store_bytes_in_bounds h p [c] Hb) as [h' Hh]. exists h'. split; [done|]. split.
  - intros q l. by eapply store_bytes_in_bounds_frame.
  - intros b i. rewrite (store_bytes_peek _ _ _ _ b i Hh). simpl. change (Z.of_nat 1) with 1.
    do 2 case_decide; try lia; [|done]. by replace (i - offset p) with 0 by lia.
Qed.

Lemma in_bounds_part h p n i m : in_bounds h p n = true → 0 <= i → 0 <= m → i + m <= n → in_bounds h (ptr_add p i) m = true.
Proof.
  intros (l & Hl & ? & ? & ?)%in_bounds_iff ? ? ?. apply in_bounds_iff. exists l. simpl. split_and!; [done|lia..].
Qed.

End Host.
