(* ===== verification/Request.v ===== *)
(** [Flags] of [base/flags.hh] and [Request] of [mem/request.hh]: the part of
    a request that travels unchanged from the requestor to the memory. *)

From S2P Require Import Prelude.

(** ** [base/flags.hh] *)

Module Flags.

Definition isSet (f m : Z) : bool := negb (Z.land f m =? 0).

Definition allSet (f m : Z) : bool := Z.land f m =? m.

Definition noneSet (f m : Z) : bool := Z.land f m =? 0.

Definition clear (f m : Z) : Z := Z.ldiff f m.

Definition set (f m : Z) : Z := Z.lor f m.

Definition set_cond (f m : Z) (condition : bool) : Z :=
  if condition then set f m else clear f m.

Definition replace (f flags m : Z) : Z := Z.lor (Z.ldiff f m) (Z.land flags m).

(** [m] is a single-bit mask. *)
Definition one_bit (m : Z) : Prop := ∃ i, 0 <= i ∧ m = 2 ^ i.

Lemma land_bit f i : 0 <= i → Z.land f (2 ^ i) = if Z.testbit f i then 2 ^ i else 0.
Proof.
  intros Hi. apply Z.bits_inj'. intros j Hj. rewrite Z.land_spec.
  destruct (decide (i = j)) as [->|Hne].
  - rewrite Z.pow2_bits_true, andb_true_r by lia. destruct (Z.testbit f j) eqn:E.
    + by rewrite Z.pow2_bits_true.
    + by rewrite Z.bits_0.
  - rewrite Z.pow2_bits_false, andb_false_r by lia.
    destruct (Z.testbit f i); [by rewrite Z.pow2_bits_false|by rewrite Z.bits_0].
Qed.

Lemma isSet_bit f i : 0 <= i → isSet f (2 ^ i) = Z.testbit f i.
Proof.
  intros Hi. unfold isSet. rewrite land_bit by done.
  destruct (Z.testbit f i); [|done]. apply negb_true_iff, Z.eqb_neq. lia.
Qed.

Lemma isSet_set f i m : 0 <= i → isSet (set f m) (2 ^ i) = isSet f (2 ^ i) || Z.testbit m i.
Proof. intros Hi. unfold set. rewrite !isSet_bit, Z.lor_spec by done. done. Qed.

Lemma isSet_clear f i m :
  0 <= i → isSet (clear f m) (2 ^ i) = isSet f (2 ^ i) && negb (Z.testbit m i).
Proof. intros Hi. unfold clear. rewrite !isSet_bit, Z.ldiff_spec by done. done. Qed.

Lemma isSet_noneSet f m : isSet f m = negb (noneSet f m).
Proof. done. Qed.

Lemma replace_clear_set f flags m : replace f flags m = set (clear f m) (Z.land flags m).
Proof. done. Qed.

End Flags.

(** ** [mem/request.hh] *)

Module Request.

Import Flags.

Definition INST_FETCH : Z := 0x00000100.
Definition UNCACHEABLE : Z := 0x00000400.
Definition LOCKED_RMW : Z := 0x00100000.
Definition LLSC : Z := 0x00200000.
Definition MEM_SWAP : Z := 0x00400000.
Definition MEM_SWAP_COND : Z := 0x00800000.
Definition PREFETCH : Z := 0x01000000.
Definition PF_EXCLUSIVE : Z := 0x02000000.
Definition SECURE : Z := 0x10000000.
Definition ATOMIC_RETURN_OP : Z := 0x40000000.
Definition ATOMIC_NO_RETURN_OP : Z := 0x80000000.
Definition INVALIDATE : Z := 0x0000000100000000.
Definition CLEAN : Z := 0x0000000200000000.
Definition HTM_START : Z := 0x0000010000000000.
Definition HTM_COMMIT : Z := 0x0000020000000000.
Definition HTM_CANCEL : Z := 0x0000040000000000.
Definition HTM_ABORT : Z := 0x0000080000000000.
Definition STICKY_FLAGS : Z := INST_FETCH.

Definition VALID_SIZE : Z := 0x0001.
Definition VALID_PADDR : Z := 0x0002.
Definition VALID_VADDR : Z := 0x0004.
Definition VALID_PC : Z := 0x0010.
Definition VALID_CONTEXT_ID : Z := 0x0020.
Definition VALID_EXTRA_DATA : Z := 0x0080.
Definition STICKY_PRIVATE_FLAGS : Z := VALID_CONTEXT_ID.

(** The fields the modelled components use.  An atomic operation is the
    function it applies to the bytes at the accessed address. *)
Record t := mk {
  _paddr : Z;
  _size : Z;
  _byteEnable : list bool;
  _requestorId : Z;
  _flags : Z;
  privateFlags : Z;
  _time : Z;
  _vaddr : Z;
  _extraData : Z;
  _contextId : Z;
  _pc : Z;
  atomicOpFunctor : option (list Z → list Z);
}.

Definition MaxAddr : Z := 2 ^ 64 - 1.
Definition InvalidContextID : Z := -1.

(** [Request(paddr, size, flags, id)] at time [now]. *)
Definition funcRequestorId : Z := 1.

Definition create_phys (now paddr size flags id : Z) : t :=
  mk paddr size (replicate (Z.to_nat size) true) id flags
     (Z.lor VALID_PADDR VALID_SIZE) now MaxAddr 0 InvalidContextID MaxAddr None.

(** A request before any address is assigned to it. *)
Definition blank : t :=
  mk 0 0 [] (2 ^ 16 - 1) 0 0 (2 ^ 64 - 1) MaxAddr 0 InvalidContextID MaxAddr None.

Definition setVirt (now vaddr size flags id pc : Z) (amo_op : option (list Z → list Z))
    (r : t) : t :=
  mk (_paddr r) size (_byteEnable r) id
     (set (Z.land (_flags r) STICKY_FLAGS) flags)
     (set (Z.land (privateFlags r) STICKY_PRIVATE_FLAGS)
          (Z.lor VALID_VADDR (Z.lor VALID_SIZE VALID_PC)))
     now vaddr (_extraData r) (_contextId r) pc amo_op.

Definition setContext (context_id : Z) (r : t) : t :=
  mk (_paddr r) (_size r) (_byteEnable r) (_requestorId r) (_flags r)
     (set (privateFlags r) VALID_CONTEXT_ID) (_time r) (_vaddr r) (_extraData r)
     context_id (_pc r) (atomicOpFunctor r).

Definition set_byteEnable (be : list bool) (r : t) : t :=
  mk (_paddr r) (_size r) be (_requestorId r) (_flags r) (privateFlags r) (_time r)
     (_vaddr r) (_extraData r) (_contextId r) (_pc r) (atomicOpFunctor r).

(** [Request(vaddr, size, flags, id, pc, cid, atomic_op)] at time [now]. *)
Definition create_virt (now vaddr size flags id pc cid : Z)
    (atomic_op : option (list Z → list Z)) : t :=
  set_byteEnable (replicate (Z.to_nat size) true)
    (setContext cid (setVirt now vaddr size flags id pc atomic_op blank)).

Definition setPaddr (paddr : Z) (r : t) : t :=
  mk paddr (_size r) (_byteEnable r) (_requestorId r) (_flags r)
     (set (privateFlags r) VALID_PADDR) (_time r) (_vaddr r) (_extraData r)
     (_contextId r) (_pc r) (atomicOpFunctor r).

Definition setExtraData (x : Z) (r : t) : t :=
  mk (_paddr r) (_size r) (_byteEnable r) (_requestorId r) (_flags r)
     (set (privateFlags r) VALID_EXTRA_DATA) (_time r) (_vaddr r) x
     (_contextId r) (_pc r) (atomicOpFunctor r).

Definition hasPaddr (r : t) : bool := isSet (privateFlags r) VALID_PADDR.

Definition getPaddr (r : t) : res Z :=
  assert! (hasPaddr r); Ok (_paddr r).

Definition hasVaddr (r : t) : bool := isSet (privateFlags r) VALID_VADDR.

Definition getVaddr (r : t) : res Z :=
  assert! (hasVaddr r); Ok (_vaddr r).

Definition hasSize (r : t) : bool := isSet (privateFlags r) VALID_SIZE.

Definition getSize (r : t) : res Z :=
  assert! (hasSize r); Ok (_size r).

Definition setByteEnable (be : list bool) (r : t) : res t :=
  assert! (Z.of_nat (length be) =? _size r); Ok (set_byteEnable be r).

(** Sets the given flags, in addition to those that are set. *)
Definition setFlags (f : Z) (r : t) : res t :=
  assert! (hasPaddr r || hasVaddr r);
  Ok (mk (_paddr r) (_size r) (_byteEnable r) (_requestorId r) (set (_flags r) f) (privateFlags r) (_time r)
        (_vaddr r) (_extraData r) (_contextId r) (_pc r) (atomicOpFunctor r)).

Definition isMasked (r : t) : bool := existsb negb (_byteEnable r).

Definition getExtraData (r : t) : res Z :=
  assert! (isSet (privateFlags r) VALID_EXTRA_DATA); Ok (_extraData r).

Definition hasContextId (r : t) : bool := isSet (privateFlags r) VALID_CONTEXT_ID.

Definition contextId (r : t) : res Z :=
  assert! (hasContextId r); Ok (_contextId r).

Definition isInstFetch (r : t) : bool := isSet (_flags r) INST_FETCH.
Definition isUncacheable (r : t) : bool := isSet (_flags r) UNCACHEABLE.
Definition isPrefetch (r : t) : bool := isSet (_flags r) (Z.lor PREFETCH PF_EXCLUSIVE).
Definition isPrefetchEx (r : t) : bool := isSet (_flags r) PF_EXCLUSIVE.
Definition isLLSC (r : t) : bool := isSet (_flags r) LLSC.
Definition isLockedRMW (r : t) : bool := isSet (_flags r) LOCKED_RMW.
Definition isSwap (r : t) : bool := isSet (_flags r) (Z.lor MEM_SWAP MEM_SWAP_COND).
Definition isCondSwap (r : t) : bool := isSet (_flags r) MEM_SWAP_COND.
Definition isSecure (r : t) : bool := isSet (_flags r) SECURE.
Definition isHTMAbort (r : t) : bool := isSet (_flags r) HTM_ABORT.

Definition isHTMCmd (r : t) : bool :=
  isSet (_flags r) HTM_START || isSet (_flags r) HTM_COMMIT ||
  isSet (_flags r) HTM_CANCEL || isHTMAbort r.

Definition isAtomic (r : t) : bool :=
  isSet (_flags r) ATOMIC_RETURN_OP || isSet (_flags r) ATOMIC_NO_RETURN_OP.

Definition isCacheClean (r : t) : bool := isSet (_flags r) CLEAN.
Definition isCacheInvalidate (r : t) : bool := isSet (_flags r) INVALIDATE.

Definition set_size_vaddr (size vaddr : Z) (r : t) : t :=
  mk (_paddr r) size (_byteEnable r) (_requestorId r) (_flags r) (privateFlags r) (_time r)
     vaddr (_extraData r) (_contextId r) (_pc r) (atomicOpFunctor r).

(** [splitOnVaddr]: the byte enables are cut at [begin() + req1->_size], which
    must not be past the end of the vector. *)
Definition splitOnVaddr (split_addr : Z) (r : t) : res (t * t) :=
  assert! (hasVaddr r);
  assert! (negb (hasPaddr r));
  assert!
        ((_vaddr r <? split_addr) && (split_addr <? u64 (_vaddr r + _size r)));
  let size1 := u32 (u64 (split_addr - _vaddr r)) in
  let size2 := u32 (_size r - size1) in
  defined! (size1 <=? Z.of_nat (length (_byteEnable r)));
  Ok (set_byteEnable (take (Z.to_nat size1) (_byteEnable r))
        (set_size_vaddr size1 (_vaddr r) r),
      set_byteEnable (drop (Z.to_nat size1) (_byteEnable r))
        (set_size_vaddr size2 split_addr r)).

(** ** Properties *)

Lemma create_phys_unmasked now paddr size flags id :
  isMasked (create_phys now paddr size flags id) = false.
Proof.
  unfold isMasked, create_phys. simpl. induction (Z.to_nat size) as [|n IH]; [done|]. simpl. done.
Qed.

Lemma create_phys_valid now paddr size flags id :
  hasPaddr (create_phys now paddr size flags id) = true ∧
  hasSize (create_phys now paddr size flags id) = true.
Proof. done. Qed.

Lemma create_virt_valid now vaddr size flags id pc cid amo :
  let r := create_virt now vaddr size flags id pc cid amo in
  hasVaddr r = true ∧ hasPaddr r = false ∧ hasSize r = true ∧ hasContextId r = true.
Proof. done. Qed.

(** A request whose fields are consistent. *)
Record wf (r : t) : Prop := {
  wf_size : 0 <= _size r < 2 ^ 32;
  wf_enable : Z.of_nat (length (_byteEnable r)) = _size r;
  wf_vaddr : 0 <= _vaddr r ∧ _vaddr r + _size r < 2 ^ 64;
}.

(** Splitting a virtual request inside its range gives two requests that
    follow one another, cover exactly the original bytes with the original byte
    enables, and keep every other field. *)
Theorem splitOnVaddr_spec r split_addr :
  wf r → hasVaddr r = true → hasPaddr r = false →
  _vaddr r < split_addr < _vaddr r + _size r →
  ∃ r1 r2, splitOnVaddr split_addr r = Ok (r1, r2) ∧
    wf r1 ∧ wf r2 ∧ _vaddr r1 = _vaddr r ∧ _vaddr r2 = split_addr ∧
    _vaddr r1 + _size r1 = _vaddr r2 ∧ _size r1 + _size r2 = _size r ∧
    0 < _size r1 ∧ 0 < _size r2 ∧
    _byteEnable r1 ++ _byteEnable r2 = _byteEnable r ∧
    isMasked r = isMasked r1 || isMasked r2 ∧
    _flags r1 = _flags r ∧ _flags r2 = _flags r ∧
    _requestorId r1 = _requestorId r ∧ _requestorId r2 = _requestorId r ∧
    privateFlags r1 = privateFlags r ∧ privateFlags r2 = privateFlags r.
Proof.
  intros [Hs Hb Hv] Hva Hpa Hsp. unfold splitOnVaddr. rewrite Hva, Hpa.
  rewrite (u64_small (_vaddr r + _size r)) by auto with width.
  replace (_vaddr r <? split_addr) with true by lia.
  replace (split_addr <? _vaddr r + _size r) with true by lia.
  rewrite (u64_small (split_addr - _vaddr r)) by auto with width.
  unfold u32. rewrite !Z.mod_small by lia.
  replace (split_addr - _vaddr r <=? Z.of_nat (length (_byteEnable r))) with true by lia.
  simpl. do 2 eexists. split; [done|]. simpl.
  rewrite take_drop. split_and!; try lia; try done.
  - constructor; simpl; rewrite ?length_take; lia.
  - constructor; simpl; rewrite ?length_drop; lia.
  - unfold isMasked. simpl. rewrite <-existsb_app, take_drop. done.
Qed.

Lemma splitOnVaddr_witness :
  ∃ r1 r2, splitOnVaddr 4096 (create_virt 0 4090 10 0 1 0 0 None) = Ok (r1, r2) ∧
    _size r1 = 6 ∧ _size r2 = 4.
Proof.
  destruct (splitOnVaddr_spec (create_virt 0 4090 10 0 1 0 0 None) 4096)
    as (r1 & r2 & H & _); [constructor; simpl; lia|reflexivity|reflexivity|simpl; lia|].
  exists r1, r2. split; [exact H|]. vm_compute in H. injection H as <- <-. split; reflexivity.
Defined.

End Request.
