(* ===== verification/MemCmd.v ===== *)
(** [MemCmd] of [mem/packet.hh] and its attribute table in [mem/packet.cc]. *)

From Stdlib Require Import String.
From S2P Require Import Prelude.

Module MemCmd.

Inductive Command :=
  | InvalidCmd
  | ReadReq
  | ReadResp
  | ReadRespWithInvalidate
  | WriteReq
  | WriteResp
  | WriteCompleteResp
  | WritebackDirty
  | WritebackClean
  | WriteClean
  | CleanEvict
  | SoftPFReq
  | SoftPFExReq
  | HardPFReq
  | SoftPFResp
  | HardPFResp
  | WriteLineReq
  | UpgradeReq
  | SCUpgradeReq
  | UpgradeResp
  | SCUpgradeFailReq
  | UpgradeFailResp
  | ReadExReq
  | ReadExResp
  | ReadCleanReq
  | ReadSharedReq
  | LoadLockedReq
  | StoreCondReq
  | StoreCondFailReq
  | StoreCondResp
  | LockedRMWReadReq
  | LockedRMWReadResp
  | LockedRMWWriteReq
  | LockedRMWWriteResp
  | SwapReq
  | SwapResp
  | MemFenceReq
  | MemSyncReq
  | MemSyncResp
  | MemFenceResp
  | CleanSharedReq
  | CleanSharedResp
  | CleanInvalidReq
  | CleanInvalidResp
  | InvalidDestError
  | BadAddressError
  | ReadError
  | WriteError
  | FunctionalReadError
  | FunctionalWriteError
  | PrintReq
  | FlushReq
  | InvalidateReq
  | InvalidateResp
  | HTMReq
  | HTMReqResp
  | HTMAbort
  | TlbiExtSync.

#[global] Instance Command_eq_dec : EqDecision Command.
Proof. solve_decision. Defined.

(** The enumerators' values; two deprecated ones leave a gap after [SwapResp]. *)
Definition toInt (c : Command) : Z :=
  match c with
  | InvalidCmd => 0
  | ReadReq => 1
  | ReadResp => 2
  | ReadRespWithInvalidate => 3
  | WriteReq => 4
  | WriteResp => 5
  | WriteCompleteResp => 6
  | WritebackDirty => 7
  | WritebackClean => 8
  | WriteClean => 9
  | CleanEvict => 10
  | SoftPFReq => 11
  | SoftPFExReq => 12
  | HardPFReq => 13
  | SoftPFResp => 14
  | HardPFResp => 15
  | WriteLineReq => 16
  | UpgradeReq => 17
  | SCUpgradeReq => 18
  | UpgradeResp => 19
  | SCUpgradeFailReq => 20
  | UpgradeFailResp => 21
  | ReadExReq => 22
  | ReadExResp => 23
  | ReadCleanReq => 24
  | ReadSharedReq => 25
  | LoadLockedReq => 26
  | StoreCondReq => 27
  | StoreCondFailReq => 28
  | StoreCondResp => 29
  | LockedRMWReadReq => 30
  | LockedRMWReadResp => 31
  | LockedRMWWriteReq => 32
  | LockedRMWWriteResp => 33
  | SwapReq => 34
  | SwapResp => 35
  | MemFenceReq => 38
  | MemSyncReq => 39
  | MemSyncResp => 40
  | MemFenceResp => 41
  | CleanSharedReq => 42
  | CleanSharedResp => 43
  | CleanInvalidReq => 44
  | CleanInvalidResp => 45
  | InvalidDestError => 46
  | BadAddressError => 47
  | ReadError => 48
  | WriteError => 49
  | FunctionalReadError => 50
  | FunctionalWriteError => 51
  | PrintReq => 52
  | FlushReq => 53
  | InvalidateReq => 54
  | InvalidateResp => 55
  | HTMReq => 56
  | HTMReqResp => 57
  | HTMAbort => 58
  | TlbiExtSync => 59
  end.

Inductive Attribute :=
  | IsRead
  | IsWrite
  | IsUpgrade
  | IsInvalidate
  | IsClean
  | NeedsWritable
  | IsRequest
  | IsResponse
  | NeedsResponse
  | IsEviction
  | IsSWPrefetch
  | IsHWPrefetch
  | IsLlsc
  | IsLockedRMW
  | HasData
  | IsError
  | IsPrint
  | IsFlush
  | FromCache.

Definition attribute_index (a : Attribute) : Z :=
  match a with
  | IsRead => 0
  | IsWrite => 1
  | IsUpgrade => 2
  | IsInvalidate => 3
  | IsClean => 4
  | NeedsWritable => 5
  | IsRequest => 6
  | IsResponse => 7
  | NeedsResponse => 8
  | IsEviction => 9
  | IsSWPrefetch => 10
  | IsHWPrefetch => 11
  | IsLlsc => 12
  | IsLockedRMW => 13
  | HasData => 14
  | IsError => 15
  | IsPrint => 16
  | IsFlush => 17
  | FromCache => 18
  end.

(** [buildAttributes]: the bit set as an [unsigned long long]. *)
Definition buildAttributes (attrs : list Attribute) : Z :=
  fold_left (λ ret attr, Z.lor ret (u64 (Z.shiftl 1 (attribute_index attr)))) attrs 0.

Record CommandInfo := mkInfo {
  attributes : Z;
  response : Command;
  str : string;
}.

Notation info attrs resp s := (mkInfo (buildAttributes attrs) resp s%string).

(** [commandInfo], indexed by the value of the enumerator. *)
Definition commandInfo : list CommandInfo := [
  info [] InvalidCmd "InvalidCmd";
  info [IsRead; IsRequest; NeedsResponse] ReadResp "ReadReq";
  info [IsRead; IsResponse; HasData] InvalidCmd "ReadResp";
  info [IsRead; IsResponse; HasData; IsInvalidate] InvalidCmd "ReadRespWithInvalidate";
  info [IsWrite; NeedsWritable; IsRequest; NeedsResponse; HasData] WriteResp "WriteReq";
  info [IsWrite; IsResponse] InvalidCmd "WriteResp";
  info [IsWrite; IsResponse] InvalidCmd "WriteCompleteResp";
  info [IsWrite; IsRequest; IsEviction; HasData; FromCache] InvalidCmd "WritebackDirty";
  info [IsWrite; IsRequest; IsEviction; HasData; FromCache] InvalidCmd "WritebackClean";
  info [IsWrite; IsRequest; HasData; FromCache] InvalidCmd "WriteClean";
  info [IsRequest; IsEviction; FromCache] InvalidCmd "CleanEvict";
  info [IsRead; IsRequest; IsSWPrefetch; NeedsResponse] SoftPFResp "SoftPFReq";
  info [IsRead; NeedsWritable; IsInvalidate; IsRequest; IsSWPrefetch; NeedsResponse] SoftPFResp "SoftPFExReq";
  info [IsRead; IsRequest; IsHWPrefetch; NeedsResponse; FromCache] HardPFResp "HardPFReq";
  info [IsRead; IsResponse; IsSWPrefetch; HasData] InvalidCmd "SoftPFResp";
  info [IsRead; IsResponse; IsHWPrefetch; HasData] InvalidCmd "HardPFResp";
  info [IsWrite; NeedsWritable; IsRequest; NeedsResponse; HasData] WriteResp "WriteLineReq";
  info [IsInvalidate; NeedsWritable; IsUpgrade; IsRequest; NeedsResponse; FromCache] UpgradeResp "UpgradeReq";
  info [IsInvalidate; NeedsWritable; IsUpgrade; IsLlsc; IsRequest; NeedsResponse; FromCache] UpgradeResp "SCUpgradeReq";
  info [IsUpgrade; IsResponse] InvalidCmd "UpgradeResp";
  info [IsRead; NeedsWritable; IsInvalidate; IsLlsc; IsRequest; NeedsResponse; FromCache] UpgradeFailResp "SCUpgradeFailReq";
  info [IsRead; IsResponse; HasData] InvalidCmd "UpgradeFailResp";
  info [IsRead; NeedsWritable; IsInvalidate; IsRequest; NeedsResponse; FromCache] ReadExResp "ReadExReq";
  info [IsRead; IsResponse; HasData] InvalidCmd "ReadExResp";
  info [IsRead; IsRequest; NeedsResponse; FromCache] ReadResp "ReadCleanReq";
  info [IsRead; IsRequest; NeedsResponse; FromCache] ReadResp "ReadSharedReq";
  info [IsRead; IsLlsc; IsRequest; NeedsResponse] ReadResp "LoadLockedReq";
  info [IsWrite; NeedsWritable; IsLlsc; IsRequest; NeedsResponse; HasData] StoreCondResp "StoreCondReq";
  info [IsWrite; NeedsWritable; IsLlsc; IsRequest; NeedsResponse; HasData] StoreCondResp "StoreCondFailReq";
  info [IsWrite; IsLlsc; IsResponse] InvalidCmd "StoreCondResp";
  info [IsRead; IsLockedRMW; NeedsWritable; IsRequest; NeedsResponse] LockedRMWReadResp "LockedRMWReadReq";
  info [IsRead; IsLockedRMW; NeedsWritable; IsResponse; HasData] InvalidCmd "LockedRMWReadResp";
  info [IsWrite; IsLockedRMW; NeedsWritable; IsRequest; NeedsResponse; HasData] LockedRMWWriteResp "LockedRMWWriteReq";
  info [IsWrite; IsLockedRMW; NeedsWritable; IsResponse] InvalidCmd "LockedRMWWriteResp";
  info [IsRead; IsWrite; NeedsWritable; IsRequest; HasData; NeedsResponse] SwapResp "SwapReq";
  info [IsRead; IsWrite; IsResponse; HasData] InvalidCmd "SwapResp";
  info [] InvalidCmd "Deprecated_MessageReq";
  info [] InvalidCmd "Deprecated_MessageResp";
  info [IsRequest; NeedsResponse] MemFenceResp "MemFenceReq";
  info [IsRequest; NeedsResponse] MemSyncResp "MemSyncReq";
  info [IsResponse] InvalidCmd "MemSyncResp";
  info [IsResponse] InvalidCmd "MemFenceResp";
  info [IsRequest; IsClean; NeedsResponse; FromCache] CleanSharedResp "CleanSharedReq";
  info [IsResponse; IsClean] InvalidCmd "CleanSharedResp";
  info [IsRequest; IsInvalidate; IsClean; NeedsResponse; FromCache] CleanInvalidResp "CleanInvalidReq";
  info [IsResponse; IsInvalidate; IsClean] InvalidCmd "CleanInvalidResp";
  info [IsResponse; IsError] InvalidCmd "InvalidDestError";
  info [IsResponse; IsError] InvalidCmd "BadAddressError";
  info [IsRead; IsResponse; IsError] InvalidCmd "ReadError";
  info [IsWrite; IsResponse; IsError] InvalidCmd "WriteError";
  info [IsRead; IsResponse; IsError] InvalidCmd "FunctionalReadError";
  info [IsWrite; IsResponse; IsError] InvalidCmd "FunctionalWriteError";
  info [IsRequest; IsPrint] InvalidCmd "PrintReq";
  info [IsRequest; IsFlush; NeedsWritable] InvalidCmd "FlushReq";
  info [IsInvalidate; IsRequest; NeedsWritable; NeedsResponse; FromCache] InvalidateResp "InvalidateReq";
  info [IsInvalidate; IsResponse] InvalidCmd "InvalidateResp";
  info [IsRead; IsRequest; NeedsResponse] HTMReqResp "HTMReq";
  info [IsRead; IsResponse] InvalidCmd "HTMReqResp";
  info [IsRead; IsRequest] InvalidCmd "HTMAbort";
  info [IsRequest] InvalidCmd "TlbiExtSync"
].

Definition info_of (c : Command) : CommandInfo :=
  nth (Z.to_nat (toInt c)) commandInfo (mkInfo 0 InvalidCmd EmptyString).

Definition testCmdAttrib (c : Command) (a : Attribute) : bool :=
  Z.testbit (attributes (info_of c)) (attribute_index a).

Definition isRead (c : Command) : bool := testCmdAttrib c IsRead.
Definition isWrite (c : Command) : bool := testCmdAttrib c IsWrite.
Definition isUpgrade (c : Command) : bool := testCmdAttrib c IsUpgrade.
Definition isRequest (c : Command) : bool := testCmdAttrib c IsRequest.
Definition isResponse (c : Command) : bool := testCmdAttrib c IsResponse.
Definition needsWritable (c : Command) : bool := testCmdAttrib c NeedsWritable.
Definition needsResponse (c : Command) : bool := testCmdAttrib c NeedsResponse.
Definition isInvalidate (c : Command) : bool := testCmdAttrib c IsInvalidate.
Definition isEviction (c : Command) : bool := testCmdAttrib c IsEviction.
Definition isClean (c : Command) : bool := testCmdAttrib c IsClean.
Definition fromCache (c : Command) : bool := testCmdAttrib c FromCache.
Definition isWriteback (c : Command) : bool :=
  testCmdAttrib c IsEviction && testCmdAttrib c HasData.
Definition hasData (c : Command) : bool := testCmdAttrib c HasData.
Definition isLLSC (c : Command) : bool := testCmdAttrib c IsLlsc.
Definition isLockedRMW (c : Command) : bool := testCmdAttrib c IsLockedRMW.
Definition isSWPrefetch (c : Command) : bool := testCmdAttrib c IsSWPrefetch.
Definition isHWPrefetch (c : Command) : bool := testCmdAttrib c IsHWPrefetch.
Definition isPrefetch (c : Command) : bool := isSWPrefetch c || isHWPrefetch c.
Definition isError (c : Command) : bool := testCmdAttrib c IsError.
Definition isPrint (c : Command) : bool := testCmdAttrib c IsPrint.
Definition isFlush (c : Command) : bool := testCmdAttrib c IsFlush.

Definition isDemand (c : Command) : bool :=
  match c with
  | ReadReq | WriteReq | WriteLineReq | ReadExReq | ReadCleanReq | ReadSharedReq => true
  | _ => false
  end.

Definition responseCommand (c : Command) : Command := response (info_of c).

Definition toString (c : Command) : string := str (info_of c).

(** ** Consistency of the table *)

(** The name of each enumerator. *)
Definition name (c : Command) : string :=
  match c with
  | InvalidCmd => "InvalidCmd"
  | ReadReq => "ReadReq"
  | ReadResp => "ReadResp"
  | ReadRespWithInvalidate => "ReadRespWithInvalidate"
  | WriteReq => "WriteReq"
  | WriteResp => "WriteResp"
  | WriteCompleteResp => "WriteCompleteResp"
  | WritebackDirty => "WritebackDirty"
  | WritebackClean => "WritebackClean"
  | WriteClean => "WriteClean"
  | CleanEvict => "CleanEvict"
  | SoftPFReq => "SoftPFReq"
  | SoftPFExReq => "SoftPFExReq"
  | HardPFReq => "HardPFReq"
  | SoftPFResp => "SoftPFResp"
  | HardPFResp => "HardPFResp"
  | WriteLineReq => "WriteLineReq"
  | UpgradeReq => "UpgradeReq"
  | SCUpgradeReq => "SCUpgradeReq"
  | UpgradeResp => "UpgradeResp"
  | SCUpgradeFailReq => "SCUpgradeFailReq"
  | UpgradeFailResp => "UpgradeFailResp"
  | ReadExReq => "ReadExReq"
  | ReadExResp => "ReadExResp"
  | ReadCleanReq => "ReadCleanReq"
  | ReadSharedReq => "ReadSharedReq"
  | LoadLockedReq => "LoadLockedReq"
  | StoreCondReq => "StoreCondReq"
  | StoreCondFailReq => "StoreCondFailReq"
  | StoreCondResp => "StoreCondResp"
  | LockedRMWReadReq => "LockedRMWReadReq"
  | LockedRMWReadResp => "LockedRMWReadResp"
  | LockedRMWWriteReq => "LockedRMWWriteReq"
  | LockedRMWWriteResp => "LockedRMWWriteResp"
  | SwapReq => "SwapReq"
  | SwapResp => "SwapResp"
  | MemFenceReq => "MemFenceReq"
  | MemSyncReq => "MemSyncReq"
  | MemSyncResp => "MemSyncResp"
  | MemFenceResp => "MemFenceResp"
  | CleanSharedReq => "CleanSharedReq"
  | CleanSharedResp => "CleanSharedResp"
  | CleanInvalidReq => "CleanInvalidReq"
  | CleanInvalidResp => "CleanInvalidResp"
  | InvalidDestError => "InvalidDestError"
  | BadAddressError => "BadAddressError"
  | ReadError => "ReadError"
  | WriteError => "WriteError"
  | FunctionalReadError => "FunctionalReadError"
  | FunctionalWriteError => "FunctionalWriteError"
  | PrintReq => "PrintReq"
  | FlushReq => "FlushReq"
  | InvalidateReq => "InvalidateReq"
  | InvalidateResp => "InvalidateResp"
  | HTMReq => "HTMReq"
  | HTMReqResp => "HTMReqResp"
  | HTMAbort => "HTMAbort"
  | TlbiExtSync => "TlbiExtSync"
  end%string.

(** The table is aligned with the enumeration, across the gap. *)
Lemma toString_name c : toString c = name c.
Proof. destruct c; reflexivity. Qed.

Lemma toInt_inj : Inj (=) (=) toInt.
Proof.
  intros c c' Heq. assert (toString c = toString c') as Hs.
  { unfold toString, info_of. by rewrite Heq. }
  rewrite !toString_name in Hs. destruct c, c'; try reflexivity; discriminate.
Qed.

(** The command table is consistent: its rows are in the order of the
    enumeration; no command is both a request and a response; a request that
    needs a response has one, which is a response that needs none itself and
    moves data in the same direction (for every command but the transactional
    ones a read is answered with data and nothing else but a swap carries
    data back); and a request without a response command needs none. *)
Theorem command_table_consistent c :
  toString c = name c ∧
  (isRequest c && isResponse c = false) ∧
  (needsResponse c = true →
     isRequest c = true ∧ responseCommand c ≠ InvalidCmd ∧
     isResponse (responseCommand c) = true ∧ needsResponse (responseCommand c) = false ∧
     isRead (responseCommand c) = isRead c ∧ isWrite (responseCommand c) = isWrite c ∧
     (c ≠ HTMReq → hasData (responseCommand c) = isRead c)) ∧
  (needsResponse c = false → responseCommand c = InvalidCmd).
Proof. destruct c; vm_compute; intuition congruence. Qed.

(** An error response moves no data. *)
Lemma error_no_data c : isError c = true → hasData c = false ∧ isResponse c = true.
Proof. destruct c; vm_compute; intuition congruence. Qed.

Lemma needsResponse_request c : needsResponse c = true → isRequest c = true.
Proof. destruct c; vm_compute; congruence. Qed.

Lemma response_isResponse c : needsResponse c = true → isResponse (responseCommand c) = true.
Proof. destruct c; vm_compute; congruence. Qed.

Lemma response_isRead c : needsResponse c = true → isRead (responseCommand c) = isRead c.
Proof. destruct c; vm_compute; congruence. Qed.

Lemma response_isWrite c : needsResponse c = true → isWrite (responseCommand c) = isWrite c.
Proof. destruct c; vm_compute; congruence. Qed.

End MemCmd.
