(* ===== verification/Packet.v ===== *)
(** [Packet] of [mem/packet.{hh,cc}] and [mem/packet_access.hh]: what travels
    between ports.  The data pointer is a pointer into the simulator's memory
    ([Host]), so that packets with static data share the buffer of the device
    that sent them. *)

From S2P Require Import Prelude Bits AddrRange Host Request MemCmd.
Import Host Flags.

Module Packet.

Definition COPY_FLAGS : Z := 0x000000FF.
Definition RESPONDER_FLAGS : Z := 0x00000009.
Definition HAS_SHARERS : Z := 0x00000001.
Definition EXPRESS_SNOOP : Z := 0x00000002.
Definition RESPONDER_HAD_WRITABLE : Z := 0x00000004.
Definition CACHE_RESPONDING : Z := 0x00000008.
Definition WRITE_THROUGH : Z := 0x00000010.
Definition SATISFIED : Z := 0x00000020.
Definition FAILS_TRANSACTION : Z := 0x00000040.
Definition FROM_TRANSACTION : Z := 0x00000080.
Definition VALID_ADDR : Z := 0x00000100.
Definition VALID_SIZE : Z := 0x00000200.
Definition STATIC_DATA : Z := 0x00001000.
Definition DYNAMIC_DATA : Z := 0x00002000.
Definition SUPPRESS_FUNC_ERROR : Z := 0x00008000.
Definition BLOCK_CACHED : Z := 0x00010000.

Inductive HtmCacheFailure := NO_FAIL | FAIL_SELF | FAIL_REMOTE | FAIL_OTHER.

#[global] Instance HtmCacheFailure_eq_dec : EqDecision HtmCacheFailure.
Proof. solve_decision. Defined.

(** The sender states form a stack of opaque identities. *)
Record t := mk {
  flags : Z;
  cmd : MemCmd.Command;
  req : Request.t;
  data : option ptr;
  addr : Z;
  _isSecure : bool;
  size : Z;
  bytesValid : list bool;
  _qosValue : Z;
  htmReturnReason : HtmCacheFailure;
  htmTransactionUid : Z;
  headerDelay : Z;
  snoopDelay : Z;
  payloadDelay : Z;
  senderState : list positive;
}.

Definition set_flags (f : Z) (p : t) : t :=
  mk f (cmd p) (req p) (data p) (addr p) (_isSecure p) (size p) (bytesValid p)
     (_qosValue p) (htmReturnReason p) (htmTransactionUid p) (headerDelay p) (snoopDelay p) (payloadDelay p) (senderState p).

Definition set_cmd (c : MemCmd.Command) (p : t) : t :=
  mk (flags p) c (req p) (data p) (addr p) (_isSecure p) (size p) (bytesValid p)
     (_qosValue p) (htmReturnReason p) (htmTransactionUid p) (headerDelay p) (snoopDelay p) (payloadDelay p) (senderState p).

Definition set_req (r : Request.t) (p : t) : t :=
  mk (flags p) (cmd p) r (data p) (addr p) (_isSecure p) (size p) (bytesValid p)
     (_qosValue p) (htmReturnReason p) (htmTransactionUid p) (headerDelay p) (snoopDelay p) (payloadDelay p) (senderState p).

Definition set_data (d : option ptr) (p : t) : t :=
  mk (flags p) (cmd p) (req p) d (addr p) (_isSecure p) (size p) (bytesValid p)
     (_qosValue p) (htmReturnReason p) (htmTransactionUid p) (headerDelay p) (snoopDelay p) (payloadDelay p) (senderState p).

Definition set_addr (a : Z) (p : t) : t :=
  mk (flags p) (cmd p) (req p) (data p) a (_isSecure p) (size p) (bytesValid p)
     (_qosValue p) (htmReturnReason p) (htmTransactionUid p) (headerDelay p) (snoopDelay p) (payloadDelay p) (senderState p).

Definition set_size (n : Z) (p : t) : t :=
  mk (flags p) (cmd p) (req p) (data p) (addr p) (_isSecure p) n (bytesValid p)
     (_qosValue p) (htmReturnReason p) (htmTransactionUid p) (headerDelay p) (snoopDelay p) (payloadDelay p) (senderState p).

Definition set_bytesValid (v : list bool) (p : t) : t :=
  mk (flags p) (cmd p) (req p) (data p) (addr p) (_isSecure p) (size p) v
     (_qosValue p) (htmReturnReason p) (htmTransactionUid p) (headerDelay p) (snoopDelay p) (payloadDelay p) (senderState p).

Definition set_delays (header payload : Z) (p : t) : t :=
  mk (flags p) (cmd p) (req p) (data p) (addr p) (_isSecure p) (size p) (bytesValid p)
     (_qosValue p) (htmReturnReason p) (htmTransactionUid p) header (snoopDelay p) payload (senderState p).

Definition set_senderState (s : list positive) (p : t) : t :=
  mk (flags p) (cmd p) (req p) (data p) (addr p) (_isSecure p) (size p) (bytesValid p)
     (_qosValue p) (htmReturnReason p) (htmTransactionUid p) (headerDelay p) (snoopDelay p) (payloadDelay p) s.

Definition set_htm (rc : HtmCacheFailure) (uid : Z) (p : t) : t :=
  mk (flags p) (cmd p) (req p) (data p) (addr p) (_isSecure p) (size p) (bytesValid p)
     (_qosValue p) rc uid (headerDelay p) (snoopDelay p) (payloadDelay p) (senderState p).

(** [flags.isSet] and [flags.set] on the packet. *)
Definition flag (p : t) (m : Z) : bool := isSet (flags p) m.

Definition set_flag (m : Z) (p : t) : t := set_flags (set (flags p) m) p.

Definition clear_flag (m : Z) (p : t) : t := set_flags (clear (flags p) m) p.

(** ** Constructors *)

(** [Packet(req, cmd)]. *)
Definition create (r : Request.t) (c : MemCmd.Command) : res t :=
  let p := mk 0 c r None 0 false 0 [] 0 NO_FAIL 0 0 0 0 [] in
  p ← (if Request.hasPaddr r
       then a ← Request.getPaddr r;
            Ok (mk VALID_ADDR c r None a (Request.isSecure r) 0 [] 0 NO_FAIL 0 0 0 0 [])
       else Ok p);
  p ← (if Request.isHTMCmd r
       then assert! (addr p =? 0); Ok (set_flag VALID_ADDR p)
       else Ok p);
  if Request.hasSize r
  then n ← Request.getSize r; Ok (set_flag VALID_SIZE (set_size n p))
  else Ok p.

(** [Packet(req, cmd, blkSize)]; [~(_blkSize - 1)] is an [int], sign-extended. *)
Definition create_blk (r : Request.t) (c : MemCmd.Command) (blkSize : Z) : res t :=
  p ← (if Request.hasPaddr r
       then a ← Request.getPaddr r;
            Ok (mk VALID_ADDR c r None (Z.ldiff a (u64 (blkSize - 1))) (Request.isSecure r)
                   0 [] 0 NO_FAIL 0 0 0 0 [])
       else Ok (mk 0 c r None 0 false 0 [] 0 NO_FAIL 0 0 0 0 []));
  Ok (set_flag VALID_SIZE (set_size blkSize p)).

Definition makeReadCmd (r : Request.t) : MemCmd.Command :=
  if Request.isHTMCmd r then
    if Request.isHTMAbort r then MemCmd.HTMAbort else MemCmd.HTMReq
  else if Request.isLLSC r then MemCmd.LoadLockedReq
  else if Request.isPrefetchEx r then MemCmd.SoftPFExReq
  else if Request.isPrefetch r then MemCmd.SoftPFReq
  else if Request.isLockedRMW r then MemCmd.LockedRMWReadReq
  else MemCmd.ReadReq.

Definition makeWriteCmd (r : Request.t) : MemCmd.Command :=
  if Request.isLLSC r then MemCmd.StoreCondReq
  else if Request.isSwap r || Request.isAtomic r then MemCmd.SwapReq
  else if Request.isCacheInvalidate r then
    if Request.isCacheClean r then MemCmd.CleanInvalidReq else MemCmd.InvalidateReq
  else if Request.isCacheClean r then MemCmd.CleanSharedReq
  else if Request.isLockedRMW r then MemCmd.LockedRMWWriteReq
  else MemCmd.WriteReq.

Definition createRead (r : Request.t) : res t := create r (makeReadCmd r).

Definition createWrite (r : Request.t) : res t := create r (makeWriteCmd r).

(** ** Accessors and flags *)

Definition isRead (p : t) : bool := MemCmd.isRead (cmd p).
Definition isWrite (p : t) : bool := MemCmd.isWrite (cmd p).
Definition isRequest (p : t) : bool := MemCmd.isRequest (cmd p).
Definition isResponse (p : t) : bool := MemCmd.isResponse (cmd p).
Definition needsResponse (p : t) : bool := MemCmd.needsResponse (cmd p).
Definition isInvalidate (p : t) : bool := MemCmd.isInvalidate (cmd p).
Definition isEviction (p : t) : bool := MemCmd.isEviction (cmd p).
Definition isClean (p : t) : bool := MemCmd.isClean (cmd p).
Definition fromCache (p : t) : bool := MemCmd.fromCache (cmd p).
Definition hasData (p : t) : bool := MemCmd.hasData (cmd p).
Definition hasRespData (p : t) : bool := MemCmd.hasData (MemCmd.responseCommand (cmd p)).
Definition isLLSC (p : t) : bool := MemCmd.isLLSC (cmd p).
Definition isError (p : t) : bool := MemCmd.isError (cmd p).
Definition isPrint (p : t) : bool := MemCmd.isPrint (cmd p).

Definition needsWritable (p : t) : res bool :=
  assert! (isRequest p); Ok (MemCmd.needsWritable (cmd p)).

Definition isMaskedWrite (p : t) : bool :=
  bool_decide (cmd p = MemCmd.WriteReq) && Request.isMasked (req p).

Definition getAddr (p : t) : res Z :=
  assert! (flag p VALID_ADDR); Ok (addr p).

Definition setAddr (a : Z) (p : t) : res t :=
  assert! (flag p VALID_ADDR); Ok (set_addr a p).

Definition getSize (p : t) : res Z :=
  assert! (flag p VALID_SIZE); Ok (size p).

Definition setSize (n : Z) (p : t) : res t :=
  assert! (negb (flag p VALID_SIZE));
  Ok (set_flag VALID_SIZE (set_size n p)).

Definition isSecure (p : t) : res bool :=
  assert! (flag p VALID_ADDR); Ok (_isSecure p).

Definition getAddrRange (p : t) : res AddrRange.t :=
  a ← getAddr p; n ← getSize p; Ok (AddrRange.RangeSize a n).

Definition getOffset (p : t) (blk_size : Z) : res Z :=
  a ← getAddr p; Ok (Z.land a (u32 (blk_size - 1))).

Definition getBlockAddr (p : t) (blk_size : Z) : res Z :=
  a ← getAddr p; Ok (Z.ldiff a (u32 (blk_size - 1))).

Definition isWholeLineWrite (p : t) (blk_size : Z) : res bool :=
  if bool_decide (cmd p = MemCmd.WriteReq ∨ cmd p = MemCmd.WriteLineReq) then
    off ← getOffset p blk_size;
    if off =? 0 then
      n ← getSize p; Ok ((n =? blk_size) && negb (isMaskedWrite p))
    else Ok false
  else Ok false.

Definition cacheResponding (p : t) : bool := flag p CACHE_RESPONDING.

Definition setCacheResponding (p : t) : res t :=
  assert! (isRequest p);
  assert! (negb (flag p CACHE_RESPONDING));
  Ok (set_flag CACHE_RESPONDING p).

Definition setHasSharers (p : t) : t := set_flag HAS_SHARERS p.
Definition hasSharers (p : t) : bool := flag p HAS_SHARERS.
Definition setExpressSnoop (p : t) : t := set_flag EXPRESS_SNOOP p.
Definition isExpressSnoop (p : t) : bool := flag p EXPRESS_SNOOP.
Definition responderHadWritable (p : t) : bool := flag p RESPONDER_HAD_WRITABLE.

Definition setResponderHadWritable (p : t) : res t :=
  assert! (cacheResponding p);
  assert! (negb (responderHadWritable p));
  Ok (set_flag RESPONDER_HAD_WRITABLE p).

Definition copyResponderFlags (pkt p : t) : res t :=
  assert! (isRequest p);
  assert! (negb (cacheResponding pkt) || negb (cacheResponding p));
  Ok (set_flag (Z.land (flags pkt) RESPONDER_FLAGS) p).

Definition setWriteThrough (p : t) : res t :=
  assert!
        (isWrite p && (isEviction p || bool_decide (cmd p = MemCmd.WriteClean)));
  Ok (set_flag WRITE_THROUGH p).

Definition setSatisfied (p : t) : res t :=
  assert! (isClean p);
  assert! (negb (flag p SATISFIED));
  Ok (set_flag SATISFIED p).

Definition satisfied (p : t) : bool := flag p SATISFIED.

Definition setBadAddress (p : t) : res t :=
  assert! (isResponse p); Ok (set_cmd MemCmd.BadAddressError p).

Definition setBadCommand (p : t) : res t :=
  assert! (isResponse p);
  Ok (set_cmd (if isWrite p then MemCmd.WriteError else MemCmd.ReadError) p).

Definition copyError (pkt p : t) : res t :=
  assert! (isError pkt); Ok (set_cmd (cmd pkt) p).

Definition convertScToWrite (p : t) : res t :=
  assert! (isLLSC p);
  assert! (isWrite p);
  Ok (set_cmd MemCmd.WriteReq p).

Definition convertLlToRead (p : t) : res t :=
  assert! (isLLSC p);
  assert! (isRead p);
  Ok (set_cmd MemCmd.ReadReq p).

Definition makeResponse (p : t) : res t :=
  assert! (needsResponse p);
  assert! (isRequest p);
  Ok (clear_flag EXPRESS_SNOOP (set_cmd (MemCmd.responseCommand (cmd p)) p)).

Definition htmTransactionFailedInCache (p : t) : bool := flag p FAILS_TRANSACTION.

Definition setHtmTransactionFailedInCache (rc : HtmCacheFailure) (p : t) : t :=
  let p := if decide (rc = NO_FAIL) then p else set_flag FAILS_TRANSACTION p in
  set_htm rc (htmTransactionUid p) p.

Definition isHtmTransactional (p : t) : bool := flag p FROM_TRANSACTION.

Definition setHtmTransactional (uid : Z) (p : t) : t :=
  set_htm (htmReturnReason p) uid (set_flag FROM_TRANSACTION p).

Definition getHtmTransactionUid (p : t) : res Z :=
  assert! (isHtmTransactional p); Ok (htmTransactionUid p).

Definition makeHtmTransactionalReqResponse (rc : HtmCacheFailure) (p : t) : res t :=
  assert! (needsResponse p);
  assert! (isRequest p);
  Ok (clear_flag EXPRESS_SNOOP
        (setHtmTransactionFailedInCache rc (set_cmd (MemCmd.responseCommand (cmd p)) p))).

Definition setFunctionalResponseStatus (success : bool) (p : t) : t :=
  if success then p
  else set_cmd (if isWrite p then MemCmd.FunctionalWriteError
                else MemCmd.FunctionalReadError) p.

Definition matchAddr (a : Z) (is_secure : bool) (p : t) : res bool :=
  x ← getAddr p;
  if x =? a then s ← isSecure p; Ok (bool_decide (s = is_secure)) else Ok false.

Definition matchAddr_pkt (pkt p : t) : res bool :=
  a ← getAddr pkt; s ← isSecure pkt; matchAddr a s p.

Definition matchBlockAddr (a : Z) (is_secure : bool) (blk_size : Z) (p : t) : res bool :=
  x ← getBlockAddr p blk_size;
  if x =? a then s ← isSecure p; Ok (bool_decide (s = is_secure)) else Ok false.

Definition matchBlockAddr_pkt (pkt : t) (blk_size : Z) (p : t) : res bool :=
  a ← getBlockAddr pkt blk_size; s ← isSecure pkt; matchBlockAddr a s blk_size p.

Definition mustCheckAbove (p : t) : bool :=
  bool_decide (cmd p = MemCmd.HardPFReq) || isEviction p.

Definition isCleanEviction (p : t) : bool :=
  bool_decide (cmd p = MemCmd.CleanEvict ∨ cmd p = MemCmd.WritebackClean).

Definition pushSenderState (s : positive) (p : t) : t :=
  set_senderState (s :: senderState p) p.

Definition popSenderState (p : t) : res (positive * t) :=
  match senderState p with
  | [] => Fail AssertFailure
  | s :: ss => Ok (s, set_senderState ss p)
  end.

(** [findNextSenderState<T>]; [is_T] is the [dynamic_cast]. *)
Definition findNextSenderState (is_T : positive → bool) (p : t) : option positive :=
  find is_T (senderState p).

(** ** Data *)

Definition dataStatic (d : ptr) (p : t) : res t :=
  assert! (noneSet (flags p) (Z.lor STATIC_DATA DYNAMIC_DATA));
  Ok (set_flag STATIC_DATA (set_data (Some d) p)).

Definition dataDynamic (d : ptr) (p : t) : res t :=
  assert! (noneSet (flags p) (Z.lor STATIC_DATA DYNAMIC_DATA));
  Ok (set_flag DYNAMIC_DATA (set_data (Some d) p)).

(** Reading through the data member: a null pointer is undefined behaviour. *)
Definition data_ptr (p : t) : res ptr :=
  match data p with Some d => Ok d | None => Fail UndefinedBehaviour end.

Definition getPtr (p : t) : res ptr :=
  assert! (isSet (flags p) (Z.lor STATIC_DATA DYNAMIC_DATA));
  assert! (negb (isMaskedWrite p));
  data_ptr p.

Definition getConstPtr (p : t) : res ptr :=
  assert! (isSet (flags p) (Z.lor STATIC_DATA DYNAMIC_DATA));
  data_ptr p.

(** [allocate()]: a fresh buffer when the command or its response has data. *)
Definition allocate (h : hmem) (p : t) : res (t * hmem) :=
  if hasData p || hasRespData p then
    assert! (noneSet (flags p) (Z.lor STATIC_DATA DYNAMIC_DATA));
    n ← getSize p;
    let '(b, h) := alloc h n in
    Ok (set_data (Some (Ptr b 0)) (set_flag DYNAMIC_DATA p), h)
  else Ok (p, h).

Definition deleteData (h : hmem) (p : t) : t * hmem :=
  let h := match data p with
           | Some d => if flag p DYNAMIC_DATA then delete (block d) h else h
           | None => h
           end in
  (set_data None (clear_flag (Z.lor STATIC_DATA DYNAMIC_DATA) p), h).

(** The copying constructor [Packet(pkt, clear_flags, alloc_data)]. *)
Definition copy (h : hmem) (pkt : t) (clear_flags alloc_data : bool) : res (t * hmem) :=
  let f := if clear_flags then 0 else Z.land (flags pkt) COPY_FLAGS in
  let f := set f (Z.land (flags pkt) (Z.lor VALID_ADDR VALID_SIZE)) in
  let p := mk f (cmd pkt) (req pkt) None (addr pkt) (_isSecure pkt) (size pkt)
              (bytesValid pkt) (_qosValue pkt) NO_FAIL 0 (headerDelay pkt) 0
              (payloadDelay pkt) (senderState pkt) in
  let p := if isHtmTransactional pkt then setHtmTransactional (htmTransactionUid pkt) p else p in
  let p := if htmTransactionFailedInCache pkt
           then setHtmTransactionFailedInCache (htmReturnReason pkt) p else p in
  if alloc_data then
    if flag pkt STATIC_DATA then Ok (set_flag STATIC_DATA (set_data (data pkt) p), h)
    else allocate h p
  else Ok (p, h).

(** [getRaw<T>] and [setRaw<T>] for [sizeof(T) = n]. *)
Definition getRaw (h : hmem) (n : nat) (p : t) : res Z :=
  assert! (isSet (flags p) (Z.lor STATIC_DATA DYNAMIC_DATA));
  assert! (Z.of_nat n <=? size p);
  d ← data_ptr p; load_int h d n.

Definition setRaw (h : hmem) (n : nat) (v : Z) (p : t) : res hmem :=
  assert! (isSet (flags p) (Z.lor STATIC_DATA DYNAMIC_DATA));
  assert! (Z.of_nat n <=? size p);
  d ← data_ptr p; store_int h d n v.

Definition get (h : hmem) (n : nat) (endian : ByteOrder) (p : t) : res Z :=
  v ← getRaw h n p; Ok (gtoh n v endian).

Definition set_value (h : hmem) (n : nat) (v : Z) (endian : ByteOrder) (p : t) : res hmem :=
  setRaw h n (htog n v endian) p.

Definition getLE (h : hmem) (n : nat) (p : t) : res Z := get h n little p.
Definition setLE (h : hmem) (n : nat) (v : Z) (p : t) : res hmem := set_value h n v little p.

Definition getUintX (h : hmem) (endian : ByteOrder) (p : t) : res Z :=
  d ← getConstPtr p; n ← getSize p;
  o ← Host.getUintX h d n endian;
  match o with Some v => Ok v | None => Fail PanicFailure end.

Definition setUintX (h : hmem) (w : Z) (endian : ByteOrder) (p : t) : res hmem :=
  d ← getPtr p; n ← getSize p;
  o ← Host.setUintX w h d n endian;
  match o with Some h => Ok h | None => Fail PanicFailure end.

(** [setData(src)]: copies into the packet, unless the packet already carries
    that very pointer, which only static data may. *)
Definition setData (h : hmem) (src : ptr) (p : t) : res hmem :=
  d ← getPtr p;
  assert! (negb (bool_decide (src = d)) || flag p STATIC_DATA);
  if bool_decide (src = d) then Ok h
  else n ← getSize p; memcpy h d src n.

Definition setDataFromBlock (h : hmem) (blk_data : ptr) (blkSize : Z) (p : t) : res hmem :=
  off ← getOffset p blkSize; setData h (ptr_add blk_data off) p.

(** The byte-enabled copy of [writeData]. *)
Fixpoint masked_copy (h : hmem) (dst src : ptr) (be : list bool) : res hmem :=
  match be with
  | [] => Ok h
  | b :: be =>
      h ← (if b : bool then bs ← load_bytes h src 1; store_bytes h dst bs else Ok h);
      masked_copy h (ptr_add dst 1) (ptr_add src 1) be
  end.

Definition writeData (h : hmem) (dst : ptr) (p : t) : res hmem :=
  d ← getConstPtr p;
  n ← getSize p;
  if isMaskedWrite p then
    assert! (Z.of_nat (length (Request._byteEnable (req p))) =? n);
    masked_copy h dst d (Request._byteEnable (req p))
  else memcpy h dst d n.

Definition writeDataToBlock (h : hmem) (blk_data : ptr) (blkSize : Z) (p : t) : res hmem :=
  off ← getOffset p blkSize; writeData h (ptr_add blk_data off) p.

(** ** Functional accesses *)

(** The bookkeeping of a functional read that found the bytes
    [func_offset, func_offset + overlap) of [n]: the new valid bytes, and
    whether all are valid now.  As in the code, the bytes before and after the
    range are tested, the range itself is not. *)
Definition mark_valid (n : Z) (valid : list bool) (func_offset overlap : Z)
    : list bool * bool :=
  let valid := match valid with [] => replicate (Z.to_nat n) false | _ => valid end in
  let fo := Z.to_nat func_offset in
  let fe := Z.to_nat (func_offset + overlap) in
  let valid' := take fo valid ++ replicate (Z.to_nat overlap) true ++ drop fe valid in
  (valid', forallb id (take fo valid) && forallb id (drop fe valid)).

(** [trySatisfyFunctional(obj, addr, is_secure, size, data)]. *)
Definition trySatisfyFunctional (h : hmem) (val_start : Z) (is_secure : bool)
    (val_size : Z) (val_data : option ptr) (p : t) : res (bool * t * hmem) :=
  func_start ← getAddr p;
  n ← getSize p;
  let func_end := u64 (func_start + n - 1) in
  let val_end := u64 (val_start + val_size - 1) in
  if negb (bool_decide (is_secure = _isSecure p)) || (val_end <? func_start) ||
     (func_end <? val_start) then Ok (false, p, h)
  else if isPrint p then
    assert! (bool_decide (val_data = None)); Ok (false, p, h)
  else
    match val_data with
    | None => Ok (false, p, h)
    | Some vd =>
        let val_offset := if val_start <? func_start then func_start - val_start else 0 in
        let func_offset := if func_start <? val_start then val_start - func_start else 0 in
        let overlap_size := u64 (Z.min val_end func_end + 1 - Z.max val_start func_start) in
        if isRead p then
          d ← getPtr p;
          h ← memcpy h (ptr_add d func_offset) (ptr_add vd val_offset) overlap_size;
          let '(valid, all) := mark_valid n (bytesValid p) func_offset overlap_size in
          Ok (all, set_bytesValid valid p, h)
        else if isWrite p then
          d ← getConstPtr p;
          h ← memcpy h (ptr_add vd val_offset) (ptr_add d func_offset) overlap_size;
          Ok (false, p, h)
        else Fail PanicFailure
    end.

(** [trySatisfyFunctional(other)]. *)
Definition trySatisfyFunctional_pkt (h : hmem) (other p : t) : res (bool * t * hmem) :=
  if isMaskedWrite other then
    so ← isSecure other;
    (* the addresses are compared for a warning only *)
    _ ← (if bool_decide (_isSecure p = so)
         then _ ← getAddr p; _ ← getAddr other; _ ← getSize other; Ok tt else Ok tt);
    Ok (false, p, h)
  else
    a ← getAddr other; s ← isSecure other; n ← getSize other;
    d ← (if hasData other then d ← getPtr other; Ok (Some d) else Ok None);
    trySatisfyFunctional h a s n d p.

(** ** Responses *)

(** Turning a request that needs a response around succeeds; the result is
    a response to the same address, size and data, moving data in the same
    direction, never express, and with every other flag kept. *)
Theorem makeResponse_spec p :
  needsResponse p = true →
  ∃ p', makeResponse p = Ok p' ∧ isResponse p' = true ∧ isRequest p' = false ∧
    isRead p' = isRead p ∧ isWrite p' = isWrite p ∧ isExpressSnoop p' = false ∧
    addr p' = addr p ∧ size p' = size p ∧ data p' = data p ∧ req p' = req p ∧
    senderState p' = senderState p ∧
    ∀ i, 0 <= i → 2 ^ i ≠ EXPRESS_SNOOP → flag p' (2 ^ i) = flag p (2 ^ i).
Proof.
  intros Hn. unfold makeResponse. rewrite Hn.
  replace (isRequest p) with true by (symmetry; by apply MemCmd.needsResponse_request).
  eexists. split; [done|].
  unfold isResponse, isRequest, isRead, isWrite, isExpressSnoop, flag, needsResponse in *. simpl.
  split_and!; try done.
  - by apply MemCmd.response_isResponse.
  - revert Hn. generalize (cmd p). intros c. destruct c; vm_compute; congruence.
  - by apply MemCmd.response_isRead.
  - by apply MemCmd.response_isWrite.
  - change EXPRESS_SNOOP with (2 ^ 1). rewrite isSet_clear by lia.
    change (Z.testbit (2 ^ 1) 1) with true. by rewrite andb_false_r.
  - intros i Hi Hne. rewrite isSet_clear by done.
    replace (Z.testbit EXPRESS_SNOOP i) with false; [by rewrite andb_true_r|].
    change EXPRESS_SNOOP with (2 ^ 1) in *. symmetry. apply Z.pow2_bits_false. congruence.
Qed.

(** ** Data *)

(** The packet has [n] bytes of data at [d]. *)
Record has_buffer (h : hmem) (p : t) (d : ptr) (n : Z) : Prop := {
  hb_data : data p = Some d;
  hb_flag : isSet (flags p) (Z.lor STATIC_DATA DYNAMIC_DATA) = true;
  hb_size : size p = n;
  hb_vsize : flag p VALID_SIZE = true;
  hb_bounds : in_bounds h d n = true;
}.

Lemma getConstPtr_buffer h p d n : has_buffer h p d n → getConstPtr p = Ok d.
Proof. intros [Hd Hf _ _ _]. unfold getConstPtr, data_ptr. by rewrite Hf, Hd. Qed.

Lemma getPtr_buffer h p d n : has_buffer h p d n → isMaskedWrite p = false → getPtr p = Ok d.
Proof. intros [Hd Hf _ _ _] Hm. unfold getPtr, data_ptr. by rewrite Hf, Hd, Hm. Qed.

Lemma getSize_buffer h p d n : has_buffer h p d n → getSize p = Ok n.
Proof. intros [_ _ Hs Hv _]. unfold getSize. by rewrite Hv, Hs. Qed.

(** [h'] is [h] with the selected bytes of [dst, dst + n) taken from [src]. *)
Definition copied (h h' : hmem) (dst src : ptr) (n : Z) (sel : Z → Prop)
    `{∀ i, Decision (sel i)} : Prop :=
  ∀ b i, peek h' b i =
    if decide (b = block dst ∧ offset dst <= i < offset dst + n ∧ sel (i - offset dst))
    then peek h (block src) (offset src + (i - offset dst)) else peek h b i.

Lemma memcpy_copied h dst src n :
  in_bounds h dst n = true → in_bounds h src n = true → disjoint_ranges dst n src n →
  ∃ h', memcpy h dst src n = Ok h' ∧ copied h h' dst src n (λ _, True) ∧
    ∀ q m, in_bounds h' q m = in_bounds h q m.
Proof.
  intros Hd Hs Hdis. destruct (memcpy_Ok h dst src n Hd Hs Hdis) as (bs & h' & Hl & Hst & Hm).
  pose proof (load_bytes_length _ _ _ _ Hl) as Hlen.
  exists h'. split_and!; [done| |intros; by eapply store_bytes_in_bounds_frame].
  intros b i. rewrite (store_bytes_peek _ _ _ _ _ _ Hst), Hlen.
  case_decide as H1; case_decide as H2; try tauto.
  rewrite (load_bytes_peek _ _ _ _ _ Hl) by lia. done.
Qed.

Definition enabled (be : list bool) (i : Z) : Prop := be !! Z.to_nat i = Some true.

#[global] Instance enabled_dec be i : Decision (enabled be i).
Proof. unfold enabled. apply _. Defined.

Lemma in_bounds_sub h p n m k :
  in_bounds h p n = true → 0 <= k → 0 <= m → k + m <= n → in_bounds h (ptr_add p k) m = true.
Proof.
  rewrite !in_bounds_iff. intros (l & Hl & ? & ? & ?) ? ? ?. exists l. simpl. split; [done|lia].
Qed.

Lemma enabled_cons b be k :
  0 <= k → enabled (b :: be) k ↔ (k = 0 ∧ b = true) ∨ (0 < k ∧ enabled be (k - 1)).
Proof.
  intros Hk. unfold enabled. destruct (decide (k = 0)) as [->|Hne].
  - simpl. split; [intros [= ->]; auto|]. intros [[_ ->]|[? _]]; [done|lia].
  - rewrite lookup_cons_ne_0 by lia. replace (pred (Z.to_nat k)) with (Z.to_nat (k - 1)) by lia.
    intuition lia.
Qed.

Lemma masked_copy_copied be : ∀ h dst src,
  in_bounds h dst (Z.of_nat (length be)) = true →
  in_bounds h src (Z.of_nat (length be)) = true →
  disjoint_ranges dst (Z.of_nat (length be)) src (Z.of_nat (length be)) →
  ∃ h', masked_copy h dst src be = Ok h' ∧
    copied h h' dst src (Z.of_nat (length be)) (enabled be) ∧
    ∀ q m, in_bounds h' q m = in_bounds h q m.
Proof.
  induction be as [|b be IH]; intros h dst src Hd Hs Hdis.
  { exists h. split_and!; [done| |done]. intros c i. case_decide; [simpl in *; lia|done]. }
  cbn [length] in *. rewrite Nat2Z.inj_succ in *.
  assert (∃ h1, (if b then bs ← load_bytes h src 1; store_bytes h dst bs else Ok h) = Ok h1 ∧
    copied h h1 dst src 1 (λ _, b = true) ∧ ∀ q m, in_bounds h1 q m = in_bounds h q m)
    as (h1 & Hh1 & Hc1 & Hb1).
  { destruct b.
    - destruct (memcpy_Ok h dst src 1) as (bs & h' & Hl & Hst & _).
      { by rewrite <-(in_bounds_sub h dst _ 1 0 Hd) by lia; unfold ptr_add; rewrite Z.add_0_r; destruct dst. }
      { by rewrite <-(in_bounds_sub h src _ 1 0 Hs) by lia; unfold ptr_add; rewrite Z.add_0_r; destruct src. }
      { unfold disjoint_ranges in *. lia. }
      pose proof (load_bytes_length _ _ _ _ Hl) as Hlen. rewrite Hl. simpl.
      exists h'. split_and!; [done| |intros; by eapply store_bytes_in_bounds_frame].
      intros c i. rewrite (store_bytes_peek _ _ _ _ _ _ Hst), Hlen.
      case_decide as H1; case_decide as H2; try tauto.
      rewrite (load_bytes_peek _ _ _ _ _ Hl) by lia. done.
    - exists h. split_and!; [done| |done]. intros c i. case_decide; [naive_solver|done]. }
  simpl. rewrite Hh1. simpl.
  destruct (IH h1 (ptr_add dst 1) (ptr_add src 1)) as (h' & Hh' & Hc & Hb').
  - rewrite Hb1. eapply in_bounds_sub; [done|lia..].
  - rewrite Hb1. eapply in_bounds_sub; [done|lia..].
  - unfold disjoint_ranges in *. simpl. lia.
  - exists h'. split_and!; [done| |intros; by rewrite Hb', Hb1].
    intros c i. rewrite Hc, !Hc1. cbn [block offset ptr_add].
    destruct (decide (c = block dst ∧ offset dst <= i < offset dst + Z.succ (Z.of_nat (length be))))
      as [[-> Hi]|Hout].
    2:{ rewrite !(decide_False (P:=c = block dst ∧ _)) by (intros (? & ? & ?); apply Hout; split; [done|lia]).
        done. }
    destruct (decide (i = offset dst)) as [->|Hne].
    + rewrite (decide_False (P:=_ ∧ offset dst + 1 <= _ < _ ∧ _)) by lia.
      rewrite Z.sub_diag, Z.add_0_r. pose proof (enabled_cons b be 0 ltac:(lia)) as Hen.
      apply decide_ext. intuition lia.
    + rewrite (decide_False (P:=block dst = block dst ∧ offset dst <= i < offset dst + 1 ∧ _)) by lia.
      rewrite (decide_False (P:=block src = block dst ∧ _))
        by (unfold disjoint_ranges in Hdis; lia).
      replace (offset src + 1 + (i - (offset dst + 1))) with (offset src + (i - offset dst)) by lia.
      replace (i - (offset dst + 1)) with (i - offset dst - 1) by lia.
      pose proof (enabled_cons b be (i - offset dst) ltac:(lia)) as Hen.
      apply decide_ext. rewrite Hen.
      split; intros (_ & ? & Hd'); (split; [done|]); (split; [lia|]).
      * right. split; [lia|done].
      * destruct Hd' as [[? _]|[_ ?]]; [lia|done].
Qed.

(** The bytes of the packet that [writeData] stores. *)
Definition stored (p : t) (i : Z) : Prop :=
  isMaskedWrite p = true → enabled (Request._byteEnable (req p)) i.

#[global] Instance stored_dec p i : Decision (stored p i).
Proof. unfold stored. apply _. Defined.

(** A masked write has one byte enable per byte. *)
Definition wf_mask (p : t) : Prop :=
  isMaskedWrite p = true → Z.of_nat (length (Request._byteEnable (req p))) = size p.

(** [writeData] copies exactly the enabled bytes of the packet. *)
Lemma writeData_copied h dst p d n :
  has_buffer h p d n → wf_mask p → in_bounds h dst n = true → disjoint_ranges dst n d n →
  ∃ h', writeData h dst p = Ok h' ∧ copied h h' dst d n (stored p) ∧
    ∀ q m, in_bounds h' q m = in_bounds h q m.
Proof.
  intros Hb Hm Hd Hdis. unfold writeData.
  rewrite (getConstPtr_buffer _ _ _ _ Hb), (getSize_buffer _ _ _ _ Hb). simpl.
  destruct Hb as [_ _ Hs _ Hbd]. destruct (isMaskedWrite p) eqn:E.
  - specialize (Hm E). rewrite Hm, Hs. replace (n =? n) with true by lia. simpl.
    destruct (masked_copy_copied (Request._byteEnable (req p)) h dst d) as (h' & Hh' & Hc & Hi);
      [by rewrite Hm, Hs..|].
    exists h'. split_and!; [done| |done]. intros b i. rewrite Hc, Hm, Hs.
    apply decide_ext. unfold stored. rewrite E. intuition.
  - destruct (memcpy_copied h dst d n) as (h' & Hh' & Hc & Hi); [done..|].
    exists h'. split_and!; [done| |done]. intros b i. rewrite Hc.
    apply decide_ext. unfold stored. rewrite E. intuition done.
Qed.

(** [setData] copies the source into the packet's buffer. *)
Lemma setData_copied h src p d n :
  has_buffer h p d n → isMaskedWrite p = false → in_bounds h src n = true →
  disjoint_ranges d n src n → 0 < n →
  ∃ h', setData h src p = Ok h' ∧ copied h h' d src n (λ _, True) ∧
    ∀ q m, in_bounds h' q m = in_bounds h q m.
Proof.
  intros Hb Hm Hsrc Hdis Hn. unfold setData. rewrite (getPtr_buffer _ _ _ _ Hb Hm). simpl.
  assert (src ≠ d) as Hne. { intros ->. unfold disjoint_ranges in Hdis. lia. }
  rewrite bool_decide_false by done. simpl. rewrite (getSize_buffer _ _ _ _ Hb). simpl.
  apply memcpy_copied; [apply Hb|done|done].
Qed.

(** ** Functional reads *)

Lemma forallb_replicate n : forallb id (replicate n true) = true.
Proof. induction n; done. Qed.

Lemma mark_valid_spec n valid off ov :
  valid = [] ∨ Z.of_nat (length valid) = n → 0 <= off → 0 < ov → off + ov <= n →
  let '(valid', all) := mark_valid n valid off ov in
  Z.of_nat (length valid') = n ∧ all = forallb id valid' ∧
  ∀ i, 0 <= i < n → valid' !! Z.to_nat i = Some true ↔
    off <= i < off + ov ∨ valid !! Z.to_nat i = Some true.
Proof.
  intros Hv Ho Hov Hn. unfold mark_valid.
  set (v := match valid with [] => replicate (Z.to_nat n) false | _ => valid end).
  assert (Z.of_nat (length v) = n ∧ ∀ i, v !! i = Some true ↔ valid !! i = Some true) as [Hlen Hsame].
  { unfold v. destruct valid as [|b valid]; [|destruct Hv as [?|Hv]; [done|by split]].
    rewrite length_replicate. split; [lia|]. intros i. rewrite lookup_nil, lookup_replicate.
    naive_solver. }
  split_and!.
  - rewrite !length_app, length_take, length_replicate, length_drop. lia.
  - rewrite !forallb_app, forallb_replicate. done.
  - intros i Hi. destruct (Z_lt_le_dec i off).
    { rewrite lookup_app_l by (rewrite length_take; lia).
      rewrite lookup_take_lt by lia. rewrite Hsame. intuition lia. }
    rewrite lookup_app_r by (rewrite length_take; lia). rewrite length_take, Nat.min_l by lia.
    destruct (Z_lt_le_dec i (off + ov)).
    { rewrite lookup_app_l by (rewrite length_replicate; lia).
      rewrite lookup_replicate_2 by lia. intuition. }
    rewrite lookup_app_r by (rewrite length_replicate; lia). rewrite lookup_drop, length_replicate.
    replace (Z.to_nat (off + ov) + (Z.to_nat i - Z.to_nat off - Z.to_nat ov))%nat
      with (Z.to_nat i) by lia.
    rewrite Hsame. intuition lia.
Qed.

Opaque mark_valid.

(** A functional read checked against a value in memory copies exactly the
    overlapping bytes into the packet, records them as valid, and reports
    completion exactly when every byte of the packet has been supplied. *)
Theorem trySatisfyFunctional_read h p d n a vs vd :
  has_buffer h p d n → 0 < n → 0 <= addr p → addr p + n < 2 ^ 64 → flag p VALID_ADDR = true →
  isRead p = true → isPrint p = false → isMaskedWrite p = false →
  bytesValid p = [] ∨ Z.of_nat (length (bytesValid p)) = n →
  0 < vs → 0 <= a → a + vs < 2 ^ 64 → in_bounds h vd vs = true → block vd ≠ block d →
  Z.max a (addr p) < Z.min (a + vs) (addr p + n) →
  let lo := Z.max a (addr p) - addr p in
  let hi := Z.min (a + vs) (addr p + n) - addr p in
  ∃ done p' h', trySatisfyFunctional h a (_isSecure p) vs (Some vd) p = Ok (done, p', h') ∧
    (∀ i, 0 <= i < n →
       peek h' (block d) (offset d + i) =
         if decide (lo <= i < hi) then peek h (block vd) (offset vd + (addr p + i - a))
         else peek h (block d) (offset d + i)) ∧
    (∀ i, 0 <= i < n → bytesValid p' !! Z.to_nat i = Some true ↔
       lo <= i < hi ∨ bytesValid p !! Z.to_nat i = Some true) ∧
    Z.of_nat (length (bytesValid p')) = n ∧ done = forallb id (bytesValid p').
Proof.
  intros Hb Hn Ha Han Hva Hr Hpr Hm Hv Hvs Ha0 Havs Hvd Hne Hov lo hi.
  unfold trySatisfyFunctional, getAddr. rewrite Hva. simpl. rewrite (getSize_buffer _ _ _ _ Hb). simpl.
  rewrite !(u64_small (_ - 1)) by auto with width.
  rewrite bool_decide_true by done. simpl.
  replace (a + vs - 1 <? addr p) with false by lia.
  replace (addr p + n - 1 <? a) with false by lia. simpl. rewrite Hpr, Hr.
  rewrite (getPtr_buffer _ _ _ _ Hb Hm), res_bind_Ok.
  set (vo := if a <? addr p then addr p - a else 0).
  set (fo := if addr p <? a then a - addr p else 0).
  assert (fo = lo) as Hfo by (unfold fo, lo; destruct (Z.ltb_spec (addr p) a); lia).
  assert (vo = addr p + lo - a) as Hvo by (unfold vo, lo; destruct (Z.ltb_spec a (addr p)); lia).
  rewrite u64_small by auto with width.
  replace (Z.min (a + vs - 1) (addr p + n - 1) + 1 - Z.max a (addr p)) with (hi - lo) by (unfold hi, lo; lia).
  assert (0 <= lo < hi ∧ hi <= n) as Hlh by (unfold lo, hi; lia).
  destruct (memcpy_copied h (ptr_add d fo) (ptr_add vd vo) (hi - lo)) as (h' & -> & Hc & _).
  { apply (in_bounds_sub _ _ n); [apply Hb|lia..]. }
  { apply (in_bounds_sub _ _ vs); [done|unfold lo, hi in *; lia..]. }
  { left. simpl. congruence. }
  rewrite res_bind_Ok. pose proof (mark_valid_spec n (bytesValid p) fo (hi - lo) Hv ltac:(lia) ltac:(lia) ltac:(lia)) as Hmv.
  destruct (mark_valid n (bytesValid p) fo (hi - lo)) as [valid all].
  destruct Hmv as (Hlen & Hall & Hval).
  exists all, (set_bytesValid valid p), h'. split_and!; try done.
  - intros i Hi. rewrite Hc. simpl. rewrite Hfo, Hvo.
    repeat case_decide; try lia; [|done].
    f_equal. lia.
  - intros i Hi. cbn [bytesValid set_bytesValid]. rewrite Hval by done. rewrite Hfo.
    replace (lo + (hi - lo)) with hi by lia. done.
Qed.

Transparent mark_valid.

(** ** A read packet with an eight-byte buffer *)

Definition demo_heap : hmem :=
  <[1%positive := replicate 16 7]> (<[2%positive := replicate 8 0]> ∅).

Definition demo_read : t :=
  mk (Z.lor VALID_ADDR (Z.lor VALID_SIZE STATIC_DATA)) MemCmd.ReadReq
     (Request.create_phys 0 100 8 0 1) (Some (Ptr 2 0)) 100 false 8 [] 0 NO_FAIL 0 0 0 0 [].

Lemma demo_read_created :
  (p ← createRead (Request.create_phys 0 100 8 0 1); dataStatic (Ptr 2 0) p) = Ok demo_read.
Proof. reflexivity. Qed.

Lemma demo_read_buffer : has_buffer demo_heap demo_read (Ptr 2 0) 8.
Proof. constructor; reflexivity. Qed.

Lemma makeResponse_witness :
  ∃ p', makeResponse demo_read = Ok p' ∧ isResponse p' = true ∧ isRead p' = true.
Proof.
  destruct (makeResponse_spec demo_read) as (p' & H & H1 & _ & H2 & _); [reflexivity|].
  exists p'. split; [exact H|]. split; [exact H1|]. rewrite H2. reflexivity.
Defined.

Lemma trySatisfyFunctional_witness :
  ∃ p' h', trySatisfyFunctional demo_heap 104 false 16 (Some (Ptr 1 0)) demo_read =
    Ok (false, p', h') ∧ h' !! 2%positive = Some [0; 0; 0; 0; 7; 7; 7; 7].
Proof.
  destruct (trySatisfyFunctional_read demo_heap demo_read (Ptr 2 0) 8 104 16 (Ptr 1 0))
    as (b & p' & h' & H & _); try reflexivity; try (simpl; lia).
  - apply demo_read_buffer.
  - left. reflexivity.
  - exists p', h'. change (_isSecure demo_read) with false in H. rewrite H. vm_compute in H. injection H as <- <- <-.
    split; reflexivity.
Defined.

Lemma set_value_get h n v endian p d h' :
  has_buffer h p d (Z.of_nat n) → n ∈ [1; 2; 4; 8]%nat → 0 <= v < 256 ^ Z.of_nat n →
  set_value h n v endian p = Ok h' → get h' n endian p = Ok v.
Proof.
  intros [Hd Hf Hs _ _] Hn Hv. unfold set_value, setRaw, get, getRaw, data_ptr.
  rewrite Hf, Hd, Hs. replace (Z.of_nat n <=? Z.of_nat n) with true by lia. simpl.
  unfold store_int, load_int. intros Hst. apply load_store_same in Hst.
  rewrite le_bytes_length in Hst. rewrite Hst. simpl. f_equal. by apply gtoh_htog.
Qed.

(** Storing a scalar of the packet's size succeeds. *)
Lemma set_value_Ok h n v endian p d :
  has_buffer h p d (Z.of_nat n) → ∃ h', set_value h n v endian p = Ok h'.
Proof.
  intros [Hd Hf Hs _ Hb]. unfold set_value, setRaw, data_ptr. rewrite Hf, Hd, Hs.
  replace (Z.of_nat n <=? Z.of_nat n) with true by lia. simpl. unfold store_int, store_bytes.
  rewrite le_bytes_length, Hb. simpl. eauto.
Qed.

(** A scalar stored into a packet in one byte order is read back from it in
    the same byte order. *)
Theorem set_get_value h n v endian p d :
  has_buffer h p d (Z.of_nat n) → n ∈ [1; 2; 4; 8]%nat → 0 <= v < 256 ^ Z.of_nat n →
  ∃ h', set_value h n v endian p = Ok h' ∧ get h' n endian p = Ok v.
Proof.
  intros Hb Hn Hv. destruct (set_value_Ok h n v endian p d Hb) as [h' Hh].
  exists h'. split; [done|]. by eapply set_value_get.
Qed.

Lemma set_get_value_witness :
  ∃ h', set_value demo_heap 8 0x1122334455667788 big demo_read = Ok h' ∧
    get h' 8 big demo_read = Ok 0x1122334455667788.
Proof.
  apply (set_get_value demo_heap 8 0x1122334455667788 big demo_read (Ptr 2 0)).
  - apply demo_read_buffer.
  - do 3 right. left.
  - vm_compute. split; congruence.
Defined.

(** ** Answers *)

(** The response to a packet, which may have been delayed on its way back. *)
Definition answers (p p' : t) : Prop :=
  ∃ r hd pd, makeResponse p = Ok r ∧ p' = set_delays hd pd r.

Lemma answers_response p p' : makeResponse p = Ok p' → answers p p'.
Proof. intros H. exists p', (headerDelay p'), (payloadDelay p'). by destruct p'. Qed.

Lemma answers_delayed hd pd p p' : answers p p' → answers p (set_delays hd pd p').
Proof. intros (r & hd' & pd' & H & ->). by exists r, hd, pd. Qed.

(** ** Packets by address *)

Definition valid_addr (p : t) : Prop := flag p VALID_ADDR = true.

(** What [matchAddr] compares. *)
Definition key (p : t) : Z * bool := (addr p, _isSecure p).

(** The packets for one address, in queue order. *)
Definition for_key (k : Z * bool) (l : list t) : list t :=
  base.filter (λ p, key p = k) l.

Lemma matchAddr_pkt_key p q :
  valid_addr p → valid_addr q → matchAddr_pkt p q = Ok (bool_decide (key q = key p)).
Proof.
  intros Hp Hq. unfold matchAddr_pkt, matchAddr, getAddr, isSecure.
  unfold valid_addr in *. rewrite Hp, Hq. simpl. unfold key.
  destruct (Z.eqb_spec (addr q) (addr p)) as [Heq|Hne]; f_equal.
  - apply bool_decide_ext. rewrite Heq. intuition congruence.
  - symmetry. apply bool_decide_false. congruence.
Qed.

Lemma for_key_app k l1 l2 : for_key k (l1 ++ l2) = for_key k l1 ++ for_key k l2.
Proof. apply filter_app. Qed.

Lemma for_key_ne k p l : key p ≠ k → for_key k (p :: l) = for_key k l.
Proof. intros Hk. by apply filter_cons_False. Qed.

(** A packet put behind all others for its address is the last one for it. *)
Lemma for_key_insert k p l1 l2 :
  Forall (λ y, key y ≠ key p) l2 → for_key k (l1 ++ p :: l2) = for_key k ((l1 ++ l2) ++ [p]).
Proof.
  intros Hall. rewrite !for_key_app, <-app_assoc. f_equal.
  destruct (decide (key p = k)) as [<-|Hne].
  - assert (for_key (key p) l2 = []) as Hnil.
    { unfold for_key. apply elem_of_nil_inv. intros x [Hx Hin]%list_elem_of_filter.
      rewrite Forall_forall in Hall. by destruct (Hall x Hin). }
    change (p :: l2) with ([p] ++ l2). by rewrite for_key_app, Hnil, app_nil_r.
  - rewrite !(for_key_ne k p) by done. by rewrite app_nil_r.
Qed.

End Packet.
