(* ===== verification/PacketQueue.v ===== *)
(** [PacketQueue] of [mem/packet_queue.{hh,cc}]: the packets a queued port holds
    back until they are due, sent one at a time with flow control. *)

From S2P Require Import Prelude Host Request MemCmd Packet.
Import Host.

Module PacketQueue.
Import Packet(valid_addr, key, for_key, matchAddr_pkt_key, for_key_app, for_key_ne, for_key_insert).

(** A [DeferredPacket] is a packet with the tick it may be sent at; [sendEvent]
    holds the tick it is scheduled for, and [draining] is [drainState() ==
    DrainState::Draining]. *)
Record t := mk {
  transmitList : list (Packet.t * Z);
  sendEvent : option Z;
  _disableSanityCheck : bool;
  forceOrder : bool;
  waitingOnRetry : bool;
  draining : bool;
}.

Definition create (force_order disable_sanity_check : bool) : t :=
  mk [] None disable_sanity_check force_order false false.

Definition set_list (l : list (Packet.t * Z)) (s : t) : t :=
  mk l (sendEvent s) (_disableSanityCheck s) (forceOrder s) (waitingOnRetry s) (draining s).

Definition set_event (e : option Z) (s : t) : t :=
  mk (transmitList s) e (_disableSanityCheck s) (forceOrder s) (waitingOnRetry s) (draining s).

Definition set_waiting (b : bool) (s : t) : t :=
  mk (transmitList s) (sendEvent s) (_disableSanityCheck s) (forceOrder s) b (draining s).

Definition set_draining (b : bool) (s : t) : t :=
  mk (transmitList s) (sendEvent s) (_disableSanityCheck s) (forceOrder s) (waitingOnRetry s) b.

Definition MaxTick : Z := 0xffffffffffffffff.

Definition deferredPacketReady (now : Z) (s : t) : bool :=
  match transmitList s with [] => false | (_, tick) :: _ => tick <=? now end.

Definition deferredPacketReadyTime (s : t) : Z :=
  match transmitList s with [] => MaxTick | (_, tick) :: _ => tick end.

Fixpoint checkConflict_in (p : Packet.t) (blk_size : Z) (l : list (Packet.t * Z)) : res bool :=
  match l with
  | [] => Ok false
  | x :: l => b ← Packet.matchBlockAddr_pkt p blk_size x.1;
              if b : bool then Ok true else checkConflict_in p blk_size l
  end.

Definition checkConflict (p : Packet.t) (blk_size : Z) (s : t) : res bool :=
  checkConflict_in p blk_size (transmitList s).

(** The loop of [trySatisfyFunctional]; labels only matter for print requests. *)
Fixpoint satisfy_in (l : list (Packet.t * Z)) (p : Packet.t) (h : hmem)
    : res (bool * Packet.t * hmem) :=
  match l with
  | [] => Ok (false, p, h)
  | x :: l =>
      '(found, p, h) ← Packet.trySatisfyFunctional_pkt h x.1 p;
      if found : bool then Ok (true, p, h) else satisfy_in l p h
  end.

Definition trySatisfyFunctional (p : Packet.t) (s : t) (h : hmem) : res (bool * Packet.t * hmem) :=
  satisfy_in (transmitList s) p h.

(** [schedSendEvent]; the flag says whether the end of draining is signalled. *)
Definition schedSendEvent (now when : Z) (s : t) : res (bool * t) :=
  if waitingOnRetry s then
    assert! (bool_decide (sendEvent s = None));
    Ok (false, s)
  else if negb (when =? MaxTick) then
    let when := Z.max when (u64 (now + 1)) in
    match sendEvent s with
    | None => assert! (now <=? when); Ok (false, set_event (Some when) s)
    | Some x =>
        if when <? x then
          assert! (now <=? when); Ok (false, set_event (Some when) s)
        else Ok (false, s)
    end
  else
    if draining s && bool_decide (transmitList s = []) && bool_decide (sendEvent s = None)
    then Ok (true, set_draining false s) else Ok (false, s).

(** The search from the end, on the reversed list: [None] when it reaches the
    beginning. *)
Fixpoint insert_rev (force_order : bool) (p : Packet.t) (when : Z) (rl : list (Packet.t * Z))
    : res (option (list (Packet.t * Z))) :=
  match rl with
  | [] => Ok None
  | it :: rest =>
      same ← (if force_order then Packet.matchAddr_pkt p it.1 else Ok false);
      if same || (it.2 <=? when) then Ok (Some ((p, when) :: rl))
      else o ← insert_rev force_order p when rest; Ok (option_map (cons it) o)
  end.

Definition schedSendTiming (now : Z) (p : Packet.t) (when : Z) (s : t) : res t :=
  assert! (now <=? when);
  assert! (negb (Packet.isExpressSnoop p));
  panic_unless!
        (_disableSanityCheck s || negb (1024 <? Z.of_nat (length (transmitList s))));
  o ← insert_rev (forceOrder s) p when (rev (transmitList s));
  match o with
  | Some rl => Ok (set_list (rev rl) s)
  | None =>
      '(_, s) ← schedSendEvent now when (set_list ((p, when) :: transmitList s) s);
      Ok s
  end.

(** The packets queued while the peer handles the one being sent. *)
Fixpoint reenter (now : Z) (reqs : list (Packet.t * Z)) (s : t) : res t :=
  match reqs with
  | [] => Ok s
  | (p, when) :: reqs => s ← schedSendTiming now p when s; reenter now reqs s
  end.

(** [sendDeferredPacket]; [accepted] is the answer of [sendTiming], and [reqs]
    are the packets queued on the way.  The results are the packet sent and
    whether the end of draining is signalled. *)
Definition sendDeferredPacket (now : Z) (reqs : list (Packet.t * Z)) (accepted : bool) (s : t)
    : res (option (Packet.t * Z) * bool * t) :=
  assert! (negb (waitingOnRetry s));
  assert! (deferredPacketReady now s);
  match transmitList s with
  | [] => Fail UndefinedBehaviour
  | dp :: rest =>
      s ← reenter now reqs (set_list rest s);
      let s := set_waiting (negb accepted) s in
      if accepted then
        '(d, s) ← schedSendEvent now (deferredPacketReadyTime s) s;
        Ok (Some dp, d, s)
      else Ok (None, false, set_list (dp :: transmitList s) s)
  end.

Definition retry (now : Z) (reqs : list (Packet.t * Z)) (accepted : bool) (s : t)
    : res (option (Packet.t * Z) * bool * t) :=
  assert! (waitingOnRetry s);
  sendDeferredPacket now reqs accepted (set_waiting false s).

(** The run of [sendEvent], which is off the event queue by then. *)
Definition processSendEvent (now : Z) (reqs : list (Packet.t * Z)) (accepted : bool) (s : t)
    : res (option (Packet.t * Z) * bool * t) :=
  let s := set_event None s in
  assert! (negb (waitingOnRetry s));
  sendDeferredPacket now reqs accepted s.

(** [drain()]: true when drained at once. *)
Definition drain (s : t) : bool * t :=
  let d := bool_decide (transmitList s = []) in (d, set_draining (negb d) s).

(** ** Insertion *)

Lemma fmap_rev' {A B} (f : A → B) (l : list A) : f <$> rev l = rev (f <$> l).
Proof. apply map_rev. Qed.

Lemma defer_rev_spec fo p w rl :
  valid_addr p → Forall valid_addr rl.*1 →
  ∃ o, insert_rev fo p w rl = Ok o ∧
    match o with
    | Some rl' => ∃ l1 y l2, rl = l1 ++ y :: l2 ∧ rl' = l1 ++ (p, w) :: y :: l2 ∧
        Forall (λ x, w < x.2) l1 ∧ (fo = true → Forall (λ x, key x ≠ key p) l1.*1) ∧
        (fo = false → y.2 <= w)
    | None => Forall (λ x, w < x.2) rl ∧ (fo = true → Forall (λ x, key x ≠ key p) rl.*1)
    end.
Proof.
  intros Hp. induction rl as [|y rl IH]; simpl.
  { exists None. split_and!; try done. }
  intros [Hy Hrl]%Forall_cons_1. destruct (IH Hrl) as (o & Ho & Hspec).
  assert ((if fo then Packet.matchAddr_pkt p y.1 else Ok false) =
          Ok (fo && bool_decide (key y.1 = key p))) as ->.
  { destruct fo; [|done]. simpl. by apply matchAddr_pkt_key. }
  rewrite res_bind_Ok. destruct (fo && bool_decide (key y.1 = key p)) eqn:E; simpl.
  { eexists. split; [done|]. exists [], y, rl. split_and!; try done. intros ->. done. }
  assert (fo = true → key y.1 ≠ key p) as Hk.
  { intros ->. simpl in E. by apply bool_decide_eq_false_1 in E. }
  destruct (Z.leb_spec y.2 w) as [Hle|Hlt].
  { eexists. split; [done|]. exists [], y, rl. split_and!; try done. }
  rewrite Ho, res_bind_Ok. eexists. split; [done|]. destruct o as [rl'|]; simpl.
  - destruct Hspec as (l1 & z & l2 & -> & -> & H1 & H2 & H3). exists (y :: l1), z, l2.
    split_and!; try done; [by constructor|]. intros ->. constructor; auto.
  - destruct Hspec as [H1 H2]. split; [by constructor|]. intros ->. constructor; auto.
Qed.

(** Where [schedSendTiming] puts a packet: behind the last one that is due no
    later or (if ordered) is for the same address, or else in front. *)
Lemma defer_spec fo p w l :
  valid_addr p → Forall valid_addr l.*1 →
  ∃ o, insert_rev fo p w (rev l) = Ok o ∧
    match o with
    | Some rl => ∃ l1 y l2, l = l1 ++ y :: l2 ∧ rev rl = l1 ++ y :: (p, w) :: l2 ∧
        Forall (λ x, w < x.2) l2 ∧ (fo = true → Forall (λ x, key x ≠ key p) l2.*1) ∧
        (fo = false → y.2 <= w)
    | None => Forall (λ x, w < x.2) l ∧ (fo = true → Forall (λ x, key x ≠ key p) l.*1)
    end.
Proof.
  intros Hp Hl. destruct (defer_rev_spec fo p w (rev l) Hp) as (o & Ho & Hspec).
  { rewrite fmap_rev'. by apply Forall_rev. }
  exists o. split; [done|]. destruct o as [rl|].
  - destruct Hspec as (l1 & y & l2 & Hr & -> & H1 & H2 & H3). exists (rev l2), y, (rev l1).
    split_and!; try done.
    + rewrite <-(rev_involutive l), Hr, rev_app_distr. simpl. by rewrite <-app_assoc.
    + rewrite rev_app_distr. simpl. by rewrite <-!app_assoc.
    + by apply Forall_rev.
    + intros Hf. rewrite fmap_rev'. by apply Forall_rev, H2.
  - destruct Hspec as [H1 H2]. rewrite fmap_rev' in H2. split.
    + rewrite <-(rev_involutive l). by apply Forall_rev.
    + intros Hf. rewrite <-(rev_involutive l.*1). by apply Forall_rev, H2.
Qed.

(** ** Runs of a queue *)

(** The queue in its environment: the time, the packets queued, and the packets
    sent with the tick they were due and the tick they were sent. *)
Record sys := mkSys {
  now : Z;
  st : t;
  taken : list Packet.t;
  sent : list (Packet.t * Z * Z);
}.

Definition sent_at (n : Z) (o : option (Packet.t * Z)) : list (Packet.t * Z * Z) :=
  match o with Some x => [(x, n)] | None => [] end.

Record sane (n : Z) (r : Packet.t * Z) : Prop := {
  sane_when : n <= r.2 < MaxTick;
  sane_addr : valid_addr r.1;
}.

(** While it refuses a packet, the peer causes no other one to be queued. *)
Definition polite (n : Z) (reqs : list (Packet.t * Z)) (accepted : bool) : Prop :=
  Forall (sane n) reqs ∧ (accepted = false → reqs = []).

Inductive step : sys → sys → Prop :=
  | step_time c n :
      now c <= n < MaxTick → (∀ x, sendEvent (st c) = Some x → n <= x) →
      step c (mkSys n (st c) (taken c) (sent c))
  | step_sched c p when s' :
      sane (now c) (p, when) → schedSendTiming (now c) p when (st c) = Ok s' →
      step c (mkSys (now c) s' (taken c ++ [p]) (sent c))
  | step_send c reqs accepted o d s' :
      polite (now c) reqs accepted → sendEvent (st c) = Some (now c) →
      processSendEvent (now c) reqs accepted (st c) = Ok (o, d, s') →
      step c (mkSys (now c) s' (taken c ++ reqs.*1) (sent c ++ sent_at (now c) o))
  | step_retry c reqs accepted o d s' :
      polite (now c) reqs accepted → waitingOnRetry (st c) = true →
      retry (now c) reqs accepted (st c) = Ok (o, d, s') →
      step c (mkSys (now c) s' (taken c ++ reqs.*1) (sent c ++ sent_at (now c) o))
  | step_drain c :
      step c (mkSys (now c) (drain (st c)).2 (taken c) (sent c)).

(** A waiting packet has exactly one of an event to send it, not before it is
    due, and a peer that owes a retry. *)
Definition pending_ok (n : Z) (s : t) : Prop :=
  match transmitList s with
  | [] => waitingOnRetry s = false ∧ sendEvent s = None
  | (_, tick) :: _ =>
      if waitingOnRetry s then sendEvent s = None ∧ tick <= n
      else ∃ x, sendEvent s = Some x ∧ n <= x ∧ tick <= x
  end.

(** The packets are valid and, unless the order of addresses is enforced,
    sorted by the tick they are due. *)
Record list_ok (s : t) : Prop := {
  l_valid : Forall valid_addr (transmitList s).*1;
  l_ticks : Forall (λ x, x.2 < MaxTick) (transmitList s);
  l_sorted : forceOrder s = false → StronglySorted (λ x y, x.2 <= y.2) (transmitList s);
}.

Record ok (c : sys) : Prop := {
  ok_now : 0 <= now c < MaxTick;
  ok_pending : pending_ok (now c) (st c);
  ok_list : list_ok (st c);
  ok_due : Forall (λ x, x.1.2 <= x.2) (sent c);
  ok_all : taken c ≡ₚ (sent c).*1.*1 ++ (transmitList (st c)).*1;
  ok_order k : forceOrder (st c) = true →
    for_key k (taken c) = for_key k ((sent c).*1.*1 ++ (transmitList (st c)).*1);
}.

(** Between taking a packet off the list and having sent it, an event is only
    scheduled if the first packet left is due by then. *)
Definition sending_ok (n : Z) (s : t) : Prop :=
  waitingOnRetry s = false ∧
  ∀ x, sendEvent s = Some x → n <= x ∧ ∃ p tick q, transmitList s = (p, tick) :: q ∧ tick <= x.

Lemma pending_sending n s : pending_ok n s → waitingOnRetry s = false → sending_ok n s.
Proof.
  unfold pending_ok. intros H Hw. split; [done|]. intros x Hx.
  destruct (transmitList s) as [|[p tick] q]; [destruct H; congruence|].
  rewrite Hw in H. destruct H as (y & Hy & ? & ?). assert (y = x) as -> by congruence. eauto 6.
Qed.

(** [schedSendEvent] for the first packet of the list. *)
Lemma schedSendEvent_front n s :
  0 <= n < MaxTick → sending_ok n s → Forall (λ x, x.2 < MaxTick) (transmitList s) →
  ∃ d s', schedSendEvent n (deferredPacketReadyTime s) s = Ok (d, s') ∧
    pending_ok n s' ∧ transmitList s' = transmitList s ∧ forceOrder s' = forceOrder s ∧
    waitingOnRetry s' = false.
Proof.
  intros Hn [Hw He] Hf. unfold schedSendEvent, deferredPacketReadyTime. rewrite Hw.
  assert (u64 (n + 1) = n + 1) as -> by (apply u64_small; unfold is_u64, MaxTick in *; lia).
  destruct (transmitList s) as [|[p tick] q] eqn:Hl.
  - rewrite Z.eqb_refl. simpl.
    assert (sendEvent s = None) as Hnone.
    { destruct (sendEvent s) as [x|]; [|done]. by destruct (He x eq_refl) as (_ & ? & ? & ? & ? & _). }
    destruct (_ && _) eqn:E; do 2 eexists; (split; [done|]); unfold pending_ok; simpl; by rewrite Hl.
  - apply Forall_cons_1 in Hf as [Ht _]. simpl in Ht.
    replace (tick =? MaxTick) with false by lia. simpl.
    replace (n <=? Z.max tick (n + 1)) with true by lia. simpl.
    destruct (sendEvent s) as [x|] eqn:Hx.
    + destruct (He x eq_refl) as (Hnx & p' & tick' & q' & [= <- <- <-] & Hle).
      destruct (Z.ltb_spec (Z.max tick (n + 1)) x); do 2 eexists; (split; [done|]);
        unfold pending_ok; simpl; rewrite Hl, Hw; (split; [eexists; split; [done|lia]|done]).
    + do 2 eexists. split; [done|]. unfold pending_ok. simpl. rewrite Hl, Hw.
      split; [|done]. eexists. split; [done|lia].
Qed.

Lemma sorted_insert (w : Z) (x y : Packet.t * Z) l1 l2 :
  StronglySorted (λ x y, x.2 <= y.2) (l1 ++ y :: l2) → y.2 <= x.2 → Forall (λ z, x.2 < z.2) l2 →
  StronglySorted (λ x y, x.2 <= y.2) (l1 ++ y :: x :: l2).
Proof.
  intros (H12 & H1 & Hy)%StronglySorted_app Hyx Hl2. apply StronglySorted_inv in Hy as [H2 Hy2].
  apply StronglySorted_app. split_and!; [|done|].
  - intros a b Ha Hb. assert (a.2 <= y.2) by (apply H12; [done|left]).
    apply elem_of_cons in Hb as [->|[->|Hb]%elem_of_cons]; [done|lia|]. apply H12; [done|by right].
  - constructor; [constructor; [done|]|constructor; done].
    eapply Forall_impl; [exact Hl2|]. simpl. lia.
Qed.

(** What [schedSendTiming] does to the list. *)
Definition queued (p : Packet.t) (s s' : t) : Prop :=
  (transmitList s').*1 ≡ₚ (transmitList s).*1 ++ [p] ∧ forceOrder s' = forceOrder s ∧ list_ok s' ∧
  (forceOrder s = true → ∀ k,
     for_key k (transmitList s').*1 = for_key k ((transmitList s).*1 ++ [p])).

Lemma insert_queued p w l1 l2 y s s' :
  list_ok s → valid_addr p → w < MaxTick → forceOrder s' = forceOrder s →
  transmitList s = l1 ++ y :: l2 → transmitList s' = l1 ++ y :: (p, w) :: l2 →
  Forall (λ x, w < x.2) l2 → (forceOrder s = true → Forall (λ x, key x ≠ key p) l2.*1) →
  (forceOrder s = false → y.2 <= w) → queued p s s'.
Proof.
  intros [Hv Ht Hs] Hp Hw Hf Hl Hl' H2 Hk Hy. unfold queued. rewrite Hl, Hl' in *.
  split_and!; [|done| |].
  - rewrite !fmap_app, !fmap_cons. simpl. solve_Permutation.
  - constructor; rewrite Hl'.
    + rewrite !fmap_app, !fmap_cons in *. apply Forall_app in Hv as [? [? ?]%Forall_cons_1].
      apply Forall_app. repeat (split || constructor); done.
    + apply Forall_app in Ht as [? [? ?]%Forall_cons_1].
      apply Forall_app. repeat (split || constructor); done.
    + rewrite Hf. intros Hff. apply (sorted_insert w (p, w)); [by apply Hs|by apply Hy|done].
  - intros Hff k. rewrite !fmap_app, !fmap_cons. simpl.
    change (l1.*1 ++ y.1 :: p :: l2.*1) with (l1.*1 ++ [y.1] ++ p :: l2.*1).
    rewrite app_assoc, for_key_insert by by apply Hk. by rewrite <-!app_assoc.
Qed.

Lemma front_queued p w s s' :
  list_ok s → valid_addr p → w < MaxTick → forceOrder s' = forceOrder s →
  transmitList s' = (p, w) :: transmitList s → Forall (λ x, w < x.2) (transmitList s) →
  (forceOrder s = true → Forall (λ x, key x ≠ key p) (transmitList s).*1) → queued p s s'.
Proof.
  intros [Hv Ht Hs] Hp Hw Hf Hl' H2 Hk. unfold queued. rewrite Hl'. simpl.
  split_and!; [solve_Permutation|done| |].
  - constructor; rewrite Hl'; simpl; [by constructor..|]. rewrite Hf. intros Hff.
    constructor; [by apply Hs|]. eapply Forall_impl; [exact H2|]. simpl. lia.
  - intros Hff k. by apply (for_key_insert k p []), Hk.
Qed.

(** A packet is queued whenever the queue has room, and what was true of the
    event and the retry stays true. *)
Lemma schedSendTiming_ok n p w s s' :
  0 <= n < MaxTick → sane n (p, w) → list_ok s → pending_ok n s ∨ sending_ok n s →
  schedSendTiming n p w s = Ok s' →
  queued p s s' ∧ (pending_ok n s → pending_ok n s') ∧ (sending_ok n s → sending_ok n s').
Proof.
  intros Hn [Hw Hp] Hlist Hst H. simpl in Hw, Hp. unfold schedSendTiming in H.
  do 3 apply bind_Ok in H as ([] & _ & H).
  destruct (defer_spec (forceOrder s) p w (transmitList s) Hp (l_valid s Hlist)) as (o & Ho & Hspec).
  rewrite Ho, res_bind_Ok in H. destruct o as [rl|].
  - injection H as <-. destruct Hspec as (l1 & y & l2 & Hl & Hrl & H2 & Hk & Hy).
    split; [apply (insert_queued p w l1 l2 y); try done; lia|].
    unfold pending_ok, sending_ok. simpl. rewrite Hrl, Hl. split; [by destruct l1|].
    intros [Hwt He]. split; [done|]. intros x Hx. destruct (He x Hx) as (Hnx & p0 & tk & q & Hq & ?).
    split; [done|]. destruct l1; simpl in Hq |- *; injection Hq as -> ?; eauto.
  - destruct Hspec as [H2 Hk].
    assert (sending_ok n s) as Hs.
    { destruct Hst as [Hpend|?]; [|done]. apply pending_sending; [done|].
      destruct (waitingOnRetry s) eqn:E; [|done]. exfalso. unfold pending_ok in Hpend. rewrite E in Hpend.
      destruct (transmitList s) as [|[p0 tk] q]; [by destruct Hpend|].
      apply Forall_cons_1 in H2 as [H2 _]. simpl in H2. lia. }
    assert (sending_ok n (set_list ((p, w) :: transmitList s) s)) as Hs1.
    { destruct Hs as [Hwt He]. split; [done|]. simpl. intros x Hx.
      destruct (He x Hx) as (Hnx & p0 & tk & q & Hq & ?). rewrite Hq in H2.
      apply Forall_cons_1 in H2 as [H2 _]. simpl in H2. split; [done|].
      do 3 eexists. split; [done|lia]. }
    destruct (schedSendEvent_front n (set_list ((p, w) :: transmitList s) s))
      as (d & s1 & He1 & Hp1 & Hl1 & Hf1 & Hw1); [done..| |].
    { simpl. constructor; [simpl; lia|apply Hlist]. }
    unfold deferredPacketReadyTime in He1. simpl in He1. rewrite He1, res_bind_Ok in H.
    injection H as <-. split; [apply (front_queued p w); try done; lia|].
    split; [done|]. intros _. by apply pending_sending.
Qed.

Definition queued_all (ps : list Packet.t) (s s' : t) : Prop :=
  (transmitList s').*1 ≡ₚ (transmitList s).*1 ++ ps ∧ forceOrder s' = forceOrder s ∧ list_ok s' ∧
  (forceOrder s = true → ∀ k,
     for_key k (transmitList s').*1 = for_key k ((transmitList s).*1 ++ ps)).

Lemma reenter_ok n reqs s s' :
  0 <= n < MaxTick → Forall (sane n) reqs → list_ok s → sending_ok n s →
  reenter n reqs s = Ok s' → queued_all reqs.*1 s s' ∧ sending_ok n s'.
Proof.
  intros Hn Hr. revert s. induction Hr as [|[p w] reqs Hp Hr IH]; intros s Hl Hs H; simpl in H.
  { injection H as <-. split; [|done]. unfold queued_all. simpl. by rewrite app_nil_r. }
  apply bind_Ok in H as (s1 & H1 & H).
  destruct (schedSendTiming_ok n p w s s1) as ((Hp1 & Hf1 & Hl1 & Ho1) & _ & Hs1); [done..|by right|done|].
  destruct (IH s1 Hl1 (Hs1 Hs) H) as [(Hp2 & Hf2 & Hl2 & Ho2) Hs2].
  split; [|done]. unfold queued_all. simpl. split_and!; [|congruence|done|].
  - rewrite Hp2, Hp1. by rewrite <-app_assoc.
  - intros Hf k. rewrite Ho2 by congruence. rewrite for_key_app, (Ho1 Hf), <-for_key_app.
    by rewrite <-app_assoc.
Qed.

Lemma list_ok_tail x l s : transmitList s = x :: l → list_ok s → list_ok (set_list l s).
Proof.
  intros Hl [Hv Ht Hs]. rewrite Hl in *. constructor; simpl.
  - by apply Forall_cons_1 in Hv as [_ ?].
  - by apply Forall_cons_1 in Ht as [_ ?].
  - intros Hf. by apply Hs, StronglySorted_inv in Hf as [? _].
Qed.

(** [sendDeferredPacket] when no event is scheduled: the first packet, which is
    due, is sent or stays first. *)
Lemma sendDeferredPacket_ok n reqs accepted s o d s' :
  0 <= n < MaxTick → polite n reqs accepted → list_ok s → sendEvent s = None →
  sendDeferredPacket n reqs accepted s = Ok (o, d, s') →
  pending_ok n s' ∧ list_ok s' ∧ Forall (λ x, x.1.2 <= x.2) (sent_at n o) ∧
  forceOrder s' = forceOrder s ∧
  (transmitList s).*1 ++ reqs.*1 ≡ₚ (sent_at n o).*1.*1 ++ (transmitList s').*1 ∧
  (forceOrder s = true → ∀ k, for_key k ((transmitList s).*1 ++ reqs.*1) =
     for_key k ((sent_at n o).*1.*1 ++ (transmitList s').*1)).
Proof.
  intros Hn [Hr Hpol] Hl He H. unfold sendDeferredPacket in H.
  apply bind_Ok in H as ([] & Hw & H). apply bind_Ok in H as ([] & Hd & H).
  apply ensure_Ok, negb_true_iff in Hw. apply ensure_Ok in Hd. unfold deferredPacketReady in Hd.
  destruct (transmitList s) as [|[p tick] q] eqn:Hq; [done|]. apply Z.leb_le in Hd.
  apply bind_Ok in H as (s1 & H1 & H).
  destruct (reenter_ok n reqs (set_list q s) s1) as [(Hp1 & Hf1 & Hl1 & Ho1) [Hw1 Hs1]];
    [done..|by eapply list_ok_tail| |done|].
  { split; [done|]. simpl. rewrite He. done. }
  destruct accepted.
  - destruct (schedSendEvent_front n (set_waiting false s1)) as (d' & s2 & H2 & Hp2 & Hl2 & Hf2 & _);
      [done|by split|apply Hl1|].
    simpl in H. rewrite H2, res_bind_Ok in H. injection H as <- <- <-. simpl in *.
    split_and!; [done| |by repeat constructor|congruence| |].
    + destruct Hl1 as [Hv Ht Hso]. constructor; rewrite Hl2; [done..|]. rewrite Hf2. done.
    + rewrite Hl2, Hp1. done.
    + intros Hf k.
      change (for_key k ([p] ++ (q.*1 ++ reqs.*1)) = for_key k ([p] ++ (transmitList s2).*1)).
      rewrite !(for_key_app k [p]), Hl2, Ho1 by done. done.
  - rewrite (Hpol eq_refl) in *. simpl in H1. injection H1 as <-. injection H as <- <- <-. simpl.
    unfold pending_ok. simpl. rewrite app_nil_r, He. split_and!; try done.
    destruct Hl as [Hv Ht Hso]. rewrite Hq in *. by constructor.
Qed.

Lemma queue_pending_time n n' s :
  pending_ok n s → n <= n' → (∀ x, sendEvent s = Some x → n' <= x) → pending_ok n' s.
Proof.
  unfold pending_ok. destruct (transmitList s) as [|[p tick] q]; [done|].
  destruct (waitingOnRetry s); [intros [? ?] ?; split; [done|lia]|].
  intros (x & Hx & ? & ?) ? Hle. exists x. specialize (Hle x Hx). split; [done|lia].
Qed.

Lemma sent_ok c reqs accepted s o d s' :
  ok c → polite (now c) reqs accepted → list_ok s → sendEvent s = None →
  transmitList s = transmitList (st c) → forceOrder s = forceOrder (st c) →
  sendDeferredPacket (now c) reqs accepted s = Ok (o, d, s') →
  ok (mkSys (now c) s' (taken c ++ reqs.*1) (sent c ++ sent_at (now c) o)).
Proof.
  intros [Hn Hp Hl Hd Ha Ho] Hpol Hls He Hq Hf H.
  destruct (sendDeferredPacket_ok _ _ _ _ _ _ _ Hn Hpol Hls He H) as (Hp' & Hl' & Hd' & Hf' & Hall & Hord).
  rewrite Hq, Hf in *. constructor; simpl; try done; [by apply Forall_app| |].
  - rewrite Ha, !fmap_app, <-!app_assoc. by rewrite Hall.
  - intros k Hff. rewrite for_key_app, Ho by congruence.
    rewrite !fmap_app, <-for_key_app, <-!app_assoc, for_key_app, Hord, <-for_key_app by congruence. done.
Qed.

Lemma list_ok_ext s s' :
  transmitList s' = transmitList s → forceOrder s' = forceOrder s → list_ok s → list_ok s'.
Proof. intros Hl Hf []. constructor; rewrite ?Hl, ?Hf; done. Qed.

Lemma queue_step_ok c c' : ok c → step c c' → ok c'.
Proof.
  intros Hok Hstep. pose proof Hok as [Hn Hp Hl Hd Ha Ho].
  destruct Hstep as [c n Hle He|c p w s' Hsane H|c reqs acc o d s' Hpol He H
    |c reqs acc o d s' Hpol Hw H|c].
  - constructor; simpl; try done; [lia|]. eapply queue_pending_time; [done|lia|done].
  - destruct (schedSendTiming_ok (now c) p w (st c) s') as ((Hp1 & Hf1 & Hl1 & Ho1) & Hp2 & _);
      [done..|by left|done|].
    constructor; simpl; auto.
    + rewrite Ha, Hp1. by rewrite app_assoc.
    + intros k Hf. rewrite for_key_app, Ho, !for_key_app, Ho1, for_key_app by congruence.
      by rewrite app_assoc.
  - unfold processSendEvent in H. apply bind_Ok in H as ([] & _ & H).
    refine (sent_ok c reqs acc _ o d s' Hok Hpol _ _ _ _ H); try done. by apply (list_ok_ext (st c)).
  - unfold retry in H. apply bind_Ok in H as ([] & _ & H).
    refine (sent_ok c reqs acc _ o d s' Hok Hpol _ _ _ _ H); try done.
    { by apply (list_ok_ext (st c)). }
    simpl. unfold pending_ok in Hp. rewrite Hw in Hp.
    by destruct (transmitList (st c)) as [|[? ?] ?]; destruct Hp.
  - constructor; simpl; try done. by apply (list_ok_ext (st c)).
Qed.

(** ** The handlers never fail *)

(** The queue has room for [m] more packets. *)
Definition room (m : nat) (s : t) : Prop :=
  m = 0%nat ∨ _disableSanityCheck s = true ∨ (length (transmitList s) + m <= 1025)%nat.

(** A packet that may be queued. *)
Definition queueable (n : Z) (r : Packet.t * Z) : Prop := sane n r ∧ Packet.isExpressSnoop r.1 = false.

Lemma schedSendTiming_total n p w s :
  0 <= n < MaxTick → queueable n (p, w) → list_ok s → pending_ok n s ∨ sending_ok n s → room 1 s →
  ∃ s', schedSendTiming n p w s = Ok s' ∧ _disableSanityCheck s' = _disableSanityCheck s.
Proof.
  intros Hn [[Hw Hp] Hx] Hlist Hst Hroom. simpl in Hw, Hp, Hx. unfold schedSendTiming.
  rewrite Hx. replace (n <=? w) with true by lia. cbn [negb ensure]. rewrite !res_bind_Ok.
  replace (_disableSanityCheck s || _) with true.
  2:{ symmetry. apply orb_true_iff. destruct Hroom as [?|[?|?]]; [lia|by left|right].
      apply negb_true_iff, Z.ltb_ge. lia. }
  cbn [ensure]. rewrite res_bind_Ok.
  destruct (defer_spec (forceOrder s) p w (transmitList s) Hp (l_valid s Hlist)) as (o & -> & Hspec).
  rewrite res_bind_Ok. destruct o as [rl|]; [by eauto|]. destruct Hspec as [H2 _].
  assert (waitingOnRetry s = false) as Hwt.
  { destruct Hst as [Hpend|[? _]]; [|done]. unfold pending_ok in Hpend. destruct (waitingOnRetry s); [|done].
    destruct (transmitList s) as [|[? ?] ?]; destruct Hpend as [? ?]; [done|].
    apply Forall_cons_1 in H2 as [H2 _]. simpl in H2. lia. }
  unfold schedSendEvent. simpl. rewrite Hwt. replace (w =? MaxTick) with false by lia. simpl.
  replace (n <=? Z.max w (u64 (n + 1))) with true by lia. simpl.
  destruct (sendEvent s) as [x|]; [destruct (_ <? x)|]; rewrite res_bind_Ok; eauto.
Qed.

Lemma schedSendTiming_full n p w s :
  queueable n (p, w) → _disableSanityCheck s = false → (1024 < length (transmitList s))%nat →
  schedSendTiming n p w s = Fail PanicFailure.
Proof.
  intros [[Hw _] Hx] Hs Hl. simpl in *. unfold schedSendTiming. rewrite Hx, Hs. replace (n <=? w) with true by lia. simpl.
  by replace (1024 <? Z.of_nat (length (transmitList s))) with true by lia.
Qed.

Lemma queue_reenter_total n reqs : ∀ s,
  0 <= n < MaxTick → Forall (queueable n) reqs → list_ok s → sending_ok n s → room (length reqs) s →
  ∃ s', reenter n reqs s = Ok s'.
Proof.
  induction reqs as [|[p w] reqs IH]; intros s Hn Hr Hl Hs Hroom; simpl; [by eauto|].
  apply Forall_cons_1 in Hr as [Hp Hr].
  destruct (schedSendTiming_total n p w s Hn Hp Hl (or_intror Hs)) as (s1 & H1 & Hd1).
  { right. destruct Hroom as [?|[?|?]]; [done|by left|right; simpl in *; lia]. }
  rewrite H1, res_bind_Ok.
  destruct (schedSendTiming_ok n p w s s1 Hn (proj1 Hp) Hl (or_intror Hs) H1) as ((Hp1 & _ & Hl1 & _) & _ & Hs1).
  apply IH; auto. destruct Hroom as [?|[?|Hlen]]; [done|right; left; congruence|right; right].
  apply Permutation_length in Hp1. rewrite length_app, !length_fmap in Hp1. simpl in *. lia.
Qed.

Lemma sendDeferredPacket_total n reqs accepted s x q :
  0 <= n < MaxTick → Forall (queueable n) reqs → room (length reqs) s → list_ok s → sendEvent s = None →
  waitingOnRetry s = false → transmitList s = x :: q → x.2 <= n →
  ∃ d s', sendDeferredPacket n reqs accepted s = Ok (if accepted : bool then Some x else None, d, s').
Proof.
  intros Hn Hr Hroom Hl He Hw Hq Hx. unfold sendDeferredPacket, deferredPacketReady.
  rewrite Hw, Hq. destruct x as [p tick]. simpl in Hx. replace (tick <=? n) with true by lia.
  cbn [negb ensure]. rewrite !res_bind_Ok. pose proof (list_ok_tail _ _ _ Hq Hl) as Hl'.
  assert (sending_ok n (set_list q s)) as Hs by (split; [done|]; simpl; by rewrite He).
  destruct (queue_reenter_total n reqs (set_list q s) Hn Hr Hl' Hs) as (s1 & Hre).
  { destruct Hroom as [?|[?|?]]; [by left|by right; left|right; right]. rewrite Hq in *. simpl in *. lia. }
  rewrite Hre, res_bind_Ok. destruct accepted; [|by eauto].
  destruct (reenter_ok n reqs (set_list q s) s1 Hn) as [(_ & _ & Hl1 & _) [_ Hs1]]; try done.
  { eapply Forall_impl; [exact Hr|]. by intros ? []. }
  destruct (schedSendEvent_front n (set_waiting (negb true) s1)) as (d & s' & -> & _);
    [done|by split|apply Hl1|rewrite res_bind_Ok; by eauto].
Qed.

(** What [retry] and the event do when they come. *)
Lemma queue_handlers_total n s reqs accepted :
  0 <= n < MaxTick → pending_ok n s → list_ok s → Forall (queueable n) reqs → room (length reqs) s →
  (sendEvent s = Some n → ∃ x q d s', transmitList s = x :: q ∧
     processSendEvent n reqs accepted s = Ok (if accepted : bool then Some x else None, d, s')) ∧
  (waitingOnRetry s = true → ∃ x q d s', transmitList s = x :: q ∧
     retry n reqs accepted s = Ok (if accepted : bool then Some x else None, d, s')).
Proof.
  intros Hn Hp Hl Hr Hroom. unfold pending_ok in Hp. split.
  - intros He. unfold processSendEvent.
    destruct (transmitList s) as [|[p tick] q] eqn:Hq; [by rewrite He in Hp; destruct Hp|].
    rewrite He in Hp. exists (p, tick), q.
    destruct (waitingOnRetry s) eqn:Hw; [by destruct Hp|]. simpl. rewrite Hw. simpl.
    destruct Hp as (x & [= <-] & _ & Ht).
    destruct (sendDeferredPacket_total n reqs accepted (set_event None s) (p, tick) q)
      as (d & s' & ->); try done; [|by eauto]. by apply (list_ok_ext s).
  - intros Hw. unfold retry. rewrite Hw in *. cbn [ensure]. rewrite res_bind_Ok.
    destruct (transmitList s) as [|[p tick] q] eqn:Hq; [by destruct Hp|].
    destruct Hp as [He Ht]. exists (p, tick), q.
    destruct (sendDeferredPacket_total n reqs accepted (set_waiting false s) (p, tick) q)
      as (d & s' & ->); try done; [|by eauto]. by apply (list_ok_ext s).
Qed.


Definition demo : sys := mkSys 10 (create true false) [] [].

Lemma demo_queue_ok : ok demo.
Proof. by constructor. Qed.

(** Two reads of one address, the second due before the first: the first one is
    sent at tick 20, when it is due, and the second one follows. *)
Definition demo_second : Packet.t := Packet.set_senderState [1%positive] Packet.demo_read.

Definition demo_sent : sys :=
  mkSys 20 (mk [(demo_second, 15)] (Some 21) false true false false)
    [Packet.demo_read; demo_second] [(Packet.demo_read, 20, 20)].

Lemma demo_run : rtc step demo demo_sent.
Proof.
  eapply rtc_l; [apply (step_sched demo Packet.demo_read 20)|].
  { by constructor. } { vm_compute. reflexivity. }
  eapply rtc_l; [eapply (step_sched _ demo_second 15)|].
  { by constructor. } { vm_compute. reflexivity. }
  eapply rtc_l; [eapply (step_time _ 20)|].
  { vm_compute. split; congruence. } { by intros x [= <-]. }
  eapply rtc_l; [eapply (step_send _ [] true)|].
  { by split. } { reflexivity. } { vm_compute. reflexivity. }
  apply rtc_refl.
Qed.


End PacketQueue.
