(* ===== verification/Clocked.v ===== *)
(** The clocks of the simulated components: [Clocked] of
    [sim/clocked_object.hh], which tracks the next clock edge, and the tree of
    clock domains of [sim/clock_domain.{hh,cc}], whose period can be changed
    while the simulation runs. *)

From S2P Require Import Prelude Bits.
Import Intmath.

Module Clocked.

(** [tick] is the next clock edge at the time of the last [update()], and
    [cycle] its number. *)
Record t := mk { tick : Z; cycle : Z }.

Definition create : t := mk 0 0.

(** [update()] at time [now] in a domain of period [period]. *)
Definition update (now period : Z) (c : t) : res t :=
  if now <=? tick c then Ok c
  else
    let c := mk (u64 (tick c + period)) (u64 (cycle c + 1)) in
    if now <=? tick c then Ok c
    else
      defined! (negb (period =? 0));
      let elapsedCycles := divCeil (u64 (now - tick c)) period in
      Ok (mk (u64 (tick c + u64 (elapsedCycles * period))) (u64 (cycle c + elapsedCycles))).

Definition resetClock (now period : Z) : res t :=
  defined! (negb (period =? 0));
  let elapsedCycles := divCeil now period in
  Ok (mk (u64 (elapsedCycles * period)) elapsedCycles).

Definition clockEdge (now period cycles : Z) (c : t) : res (Z * t) :=
  c ← update now period c;
  Ok (u64 (tick c + u64 (period * cycles)), c).

Definition curCycle (now period : Z) (c : t) : res (Z * t) :=
  c ← update now period c; Ok (cycle c, c).

Definition nextCycle (now period : Z) (c : t) : res (Z * t) := clockEdge now period 1 c.

Definition ticksToCycles (period ticks : Z) : res Z :=
  defined! (negb (period =? 0)); Ok (divCeil ticks period).

Definition cyclesToTicks (period cycles : Z) : Z := u64 (period * cycles).

(** ** Clock domains *)

(** A [DerivedClockDomain]: its divider, its period, the objects in it and the
    domains derived from it. *)
Inductive domain :=
  | Derived (clockDivider _clockPeriod : Z) (members : list t) (children : list domain).

Record SrcClockDomain := mkSrc {
  freqOpPoints : list Z;
  _perfLevel : Z;
  _clockPeriod : Z;
  members : list t;
  children : list domain;
}.

Fixpoint update_all (now period : Z) (l : list t) : res (list t) :=
  match l with
  | [] => Ok []
  | c :: l => c ← update now period c; l ← update_all now period l; Ok (c :: l)
  end.

(** [DerivedClockDomain::updateClockPeriod()], with the parent's new period. *)
Fixpoint updateClockPeriod (now parent : Z) (d : domain) : res domain :=
  match d with
  | Derived clockDivider period members children =>
      members ← update_all now period members;
      let period := u64 (parent * clockDivider) in
      children ← (fix update_children (l : list domain) : res (list domain) :=
                    match l with
                    | [] => Ok []
                    | d :: l => d ← updateClockPeriod now period d;
                                l ← update_children l; Ok (d :: l)
                    end) children;
      Ok (Derived clockDivider period members children)
  end.

Definition update_children (now period : Z) : list domain → res (list domain) :=
  fix go l :=
    match l with
    | [] => Ok []
    | d :: l => d ← updateClockPeriod now period d; l ← go l; Ok (d :: l)
    end.

(** [SrcClockDomain::clockPeriod(clock_period)]. *)
Definition set_clockPeriod (now clock_period : Z) (s : SrcClockDomain) : res SrcClockDomain :=
  fatal_unless! (negb (clock_period =? 0));
  members ← update_all now (_clockPeriod s) (members s);
  children ← update_children now clock_period (children s);
  Ok (mkSrc (freqOpPoints s) (_perfLevel s) clock_period members children).

Definition clkPeriodAtPerfLevel (s : SrcClockDomain) : res Z :=
  match freqOpPoints s !! Z.to_nat (_perfLevel s) with
  | Some p => Ok p
  | None => Fail UndefinedBehaviour
  end.

Definition validPerfLevel (s : SrcClockDomain) (perf_level : Z) : bool :=
  perf_level <? Z.of_nat (length (freqOpPoints s)).

(** [signalPerfLevelUpdate()]; the voltage domain is informed first. *)
Definition signalPerfLevelUpdate (now : Z) (s : SrcClockDomain) : res SrcClockDomain :=
  p ← clkPeriodAtPerfLevel s;
  set_clockPeriod now p s.

Definition set_perfLevel (now perf_level : Z) (s : SrcClockDomain) : res SrcClockDomain :=
  assert! (validPerfLevel s perf_level);
  if perf_level =? _perfLevel s then Ok s
  else signalPerfLevelUpdate now
         (mkSrc (freqOpPoints s) perf_level (_clockPeriod s) (members s) (children s)).

(** ** Clock edges *)

(** A clock never counts more cycles than ticks. *)
Definition wf (c : t) : Prop := 0 <= cycle c <= tick c.

(** The reference: the first edge that is not in the past, [k] cycles on. *)
Definition next_edge (now period : Z) (c c' : t) : Prop :=
  ∃ k, 0 <= k ∧ tick c' = tick c + k * period ∧ cycle c' = cycle c + k ∧ now <= tick c' ∧
    (0 < k → tick c' < now + period).

Lemma update_edge now period c :
  wf c → 0 < period → tick c < 2 ^ 64 → now + 2 * period < 2 ^ 64 →
  ∃ c', update now period c = Ok c' ∧ wf c' ∧ next_edge now period c c'.
Proof.
  intros [Hc Ht] Hp Ht64 Hn. unfold update.
  destruct (Z.leb_spec now (tick c)) as [H0|H0].
  { exists c. split; [done|]. split; [done|]. exists 0. split_and!; lia. }
  rewrite !(u64_small (_ + _)) by auto with width. cbn [tick cycle].
  destruct (Z.leb_spec now (tick c + period)) as [H1|H1].
  { eexists. split; [done|]. unfold wf, next_edge. simpl. split; [lia|]. exists 1. split_and!; lia. }
  replace (period =? 0) with false by lia. cbn [negb ensure]. rewrite res_bind_Ok.
  rewrite (u64_small (now - (tick c + period))) by auto with width.
  set (x := now - (tick c + period)).
  assert (divCeil x period = (x + period - 1) / period) as Hd.
  { unfold divCeil. rewrite u64_small; [done|]. unfold is_u64, x. lia. }
  pose proof (Z.div_mod (x + period - 1) period ltac:(lia)) as Hdm.
  pose proof (Z.mod_pos_bound (x + period - 1) period ltac:(lia)) as Hmb.
  set (k := (x + period - 1) / period) in *. set (r := (x + period - 1) mod period) in *.
  assert (0 <= k) as Hk by (apply Z.div_pos; unfold x; lia).
  assert (k <= k * period) by nia. unfold x in *. rewrite Hd.
  rewrite (u64_small (k * period)) by (unfold is_u64; nia).
  rewrite !u64_small by (unfold is_u64; nia).
  eexists. split; [done|]. unfold wf, next_edge. simpl. split; [nia|]. exists (k + 1). split_and!; nia.
Qed.

Lemma clockEdge_ok now period n c :
  wf c → 0 < period → tick c < now + period → 0 <= n → now + (n + 2) * period < 2 ^ 64 →
  ∃ e c', clockEdge now period n c = Ok (e, c') ∧
    now + n * period <= e < now + (n + 1) * period ∧ (e - tick c) mod period = 0 ∧
    wf c' ∧ now <= tick c' < now + period ∧ tick c' - tick c = (cycle c' - cycle c) * period.
Proof.
  intros Hwf Hp Ht Hn Hov. unfold clockEdge.
  destruct (update_edge now period c Hwf Hp) as (c' & -> & Hwf' & k & Hk & Htk & Hck & Hle & Hlt); [nia..|].
  rewrite res_bind_Ok. assert (tick c' < now + period) as Hlt' by (destruct (decide (0 < k)); [auto|nia]).
  destruct Hwf as [? ?], Hwf' as [? ?].
  rewrite (u64_small (period * n)) by (unfold is_u64; nia). rewrite u64_small by (unfold is_u64; nia).
  do 2 eexists. split; [done|]. split_and!; try (done || nia).
  replace (tick c' + period * n - tick c) with ((k + n) * period) by nia. by apply Z.mod_mul; lia.
Qed.

(** C40: on a clock whose last known edge is less than a period ahead,
    [clockEdge(n)] is the clock's edge in the period that starts [n] cycles from
    now: it is aligned with the edges before, and the clock is left in the same
    situation, with its cycle counter advanced as its edge. *)
Theorem clockEdge_spec now period n c :
  wf c → 0 < period → tick c < now + period → 0 <= n → now + (n + 2) * period < 2 ^ 64 →
  ∃ e c', clockEdge now period n c = Ok (e, c') ∧
    now + n * period <= e < now + (n + 1) * period ∧ (e - tick c) mod period = 0 ∧
    wf c' ∧ now <= tick c' < now + period ∧ tick c' - tick c = (cycle c' - cycle c) * period.
Proof. intros. by apply clockEdge_ok. Qed.

Lemma clockEdge_witness :
  ∃ e c', clockEdge 2345 1000 2 (mk 1000 1) = Ok (e, c') ∧ 4345 <= e < 5345.
Proof.
  destruct (clockEdge_spec 2345 1000 2 (mk 1000 1)) as (e & c' & H & Hb & _);
    [split; simpl; lia|lia|simpl; lia|lia|lia|]. exists e, c'. split; [exact H|exact Hb].
Defined.

(** After the frequency is raised, the next edge can be more than a (new) period
    ahead, against the comment of [clockEdge]. *)
Lemma clockEdge_after_speedup :
  update 1 1000 (mk 0 0) = Ok (mk 1000 1) ∧ clockEdge 1 100 0 (mk 1000 1) = Ok (1000, mk 1000 1).
Proof. done. Qed.

(** ** Changing the period *)

(** The clocks of a domain and those below it, each with its period. *)
Fixpoint clocks (d : domain) : list (Z * t) :=
  match d with
  | Derived _ period members children => (pair period <$> members) ++ concat (clocks <$> children)
  end.

Definition src_clocks (s : SrcClockDomain) : list (Z * t) :=
  (pair (_clockPeriod s) <$> members s) ++ concat (clocks <$> children s).

(** Every derived period is the parent's times the divider. *)
Inductive coherent (parent : Z) : domain → Prop :=
  | coherent_domain div ms ch :
      Forall (coherent (u64 (parent * div))) ch →
      coherent parent (Derived div (u64 (parent * div)) ms ch).

Lemma domain_nested_ind (P : domain → Prop) :
  (∀ div p ms ch, Forall P ch → P (Derived div p ms ch)) → ∀ d, P d.
Proof.
  intros H. fix IH 1. intros [div p ms ch]. apply H.
  induction ch as [|d ch IHch]; constructor; [apply IH|exact IHch].
Qed.

Definition clock_ok (now : Z) (x : Z * t) : Prop :=
  wf x.2 ∧ 0 < x.1 ∧ tick x.2 < 2 ^ 64 ∧ now + 2 * x.1 < 2 ^ 64.

(** The clock has been moved to its next edge, found with the old period. *)
Definition aligned (now : Z) (x y : Z * t) : Prop :=
  update now x.1 x.2 = Ok y.2 ∧ next_edge now x.1 x.2 y.2 ∧ wf y.2.

Lemma update_all_ok now p p' l :
  Forall (clock_ok now) (pair p <$> l) →
  ∃ l', update_all now p l = Ok l' ∧ Forall2 (aligned now) (pair p <$> l) (pair p' <$> l').
Proof.
  induction l as [|c l IH]; simpl; intros H.
  { exists []. split; [done|constructor]. }
  apply Forall_cons_1 in H as [(Hwf & Hp & Ht & Hn) Hl]. simpl in *.
  destruct (update_edge now p c) as (c' & Hu & Hwf' & He); [done..|]. rewrite Hu, res_bind_Ok.
  destruct (IH Hl) as (l' & -> & Hal). rewrite res_bind_Ok. eexists. split; [done|].
  by constructor.
Qed.

Lemma update_children_cons now p d ch :
  update_children now p (d :: ch) =
    (d ← updateClockPeriod now p d; l ← update_children now p ch; Ok (d :: l)).
Proof. done. Qed.

Lemma updateClockPeriod_eq now parent div p ms ch :
  updateClockPeriod now parent (Derived div p ms ch) =
    (ms ← update_all now p ms;
     ch ← update_children now (u64 (parent * div)) ch;
     Ok (Derived div (u64 (parent * div)) ms ch)).
Proof. done. Qed.

Definition domain_updated (now parent : Z) (d d' : domain) : Prop :=
  coherent parent d' ∧ Forall2 (aligned now) (clocks d) (clocks d').

Lemma update_children_ok now p ch :
  Forall (λ d, ∀ parent, Forall (clock_ok now) (clocks d) →
    ∃ d', updateClockPeriod now parent d = Ok d' ∧ domain_updated now parent d d') ch →
  Forall (clock_ok now) (concat (clocks <$> ch)) →
  ∃ ch', update_children now p ch = Ok ch' ∧ Forall (coherent p) ch' ∧
    Forall2 (aligned now) (concat (clocks <$> ch)) (concat (clocks <$> ch')).
Proof.
  induction 1 as [|d ch Hd _ IH]; intros Hok.
  { exists []. split; [done|]. split; [done|constructor]. }
  rewrite update_children_cons. apply Forall_app in Hok as [Hok1 Hok2]. destruct (Hd p Hok1) as (d' & -> & Hc & Ha). rewrite res_bind_Ok.
  destruct (IH Hok2) as (ch' & Hu & Hc' & Ha'). rewrite Hu, res_bind_Ok.
  eexists. split; [done|]. split; [by constructor|]. by apply Forall2_app.
Qed.

Lemma updateClockPeriod_ok now d parent :
  Forall (clock_ok now) (clocks d) →
  ∃ d', updateClockPeriod now parent d = Ok d' ∧ domain_updated now parent d d'.
Proof.
  revert d parent. apply (domain_nested_ind (λ d, ∀ parent, Forall (clock_ok now) (clocks d) →
    ∃ d', updateClockPeriod now parent d = Ok d' ∧ domain_updated now parent d d')).
  intros div p ms ch IH parent [Hms Hch]%Forall_app. rewrite updateClockPeriod_eq.
  destruct (update_all_ok now p (u64 (parent * div)) ms Hms) as (ms' & -> & Ha). rewrite res_bind_Ok.
  destruct (update_children_ok now (u64 (parent * div)) ch IH Hch) as (ch' & Hu & Hc & Ha').
  rewrite Hu, res_bind_Ok. eexists. split; [done|].
  split; [by constructor|]. by apply Forall2_app.
Qed.

(** Changing the period of a source clock domain while the simulation runs
    succeeds; afterwards each derived domain has its parent's period times its
    divider, and every clock of the tree has first been moved to the edge its old
    period gives, so that no edge that was due is lost or moved. *)
Theorem set_clockPeriod_spec now p s :
  0 < p → Forall (clock_ok now) (src_clocks s) →
  ∃ s', set_clockPeriod now p s = Ok s' ∧ _clockPeriod s' = p ∧
    Forall (coherent p) (children s') ∧ Forall2 (aligned now) (src_clocks s) (src_clocks s').
Proof.
  intros Hp [Hms Hch]%Forall_app. unfold set_clockPeriod.
  replace (p =? 0) with false by lia. cbn [negb ensure]. rewrite res_bind_Ok.
  destruct (update_all_ok now (_clockPeriod s) p (members s) Hms) as (ms' & -> & Ha). rewrite res_bind_Ok.
  destruct (update_children_ok now p (children s)) as (ch' & -> & Hc & Ha'); [|done|].
  { apply Forall_true. intros d parent. apply updateClockPeriod_ok. }
  rewrite res_bind_Ok. eexists. split; [done|]. split_and!; [done..|]. by apply Forall2_app.
Qed.

Definition demo_src : SrcClockDomain :=
  mkSrc [1000; 2000] 0 1000 [mk 0 0] [Derived 2 2000 [mk 4000 2] []].

Lemma set_clockPeriod_witness :
  ∃ s', set_clockPeriod 1500 3000 demo_src = Ok s' ∧
    src_clocks s' = [(3000, mk 2000 2); (6000, mk 4000 2)] ∧ Forall (coherent 3000) (children s').
Proof.
  destruct (set_clockPeriod_spec 1500 3000 demo_src) as (s' & H & _ & Hc & _).
  - lia.
  - repeat constructor; simpl; lia.
  - exists s'. split; [exact H|]. split; [|exact Hc]. vm_compute in H. injection H as <-. reflexivity.
Defined.

End Clocked.
