(* ===== verification/XBarLayer.v ===== *)
(** [BaseXBar::Layer] of [mem/xbar.{hh,cc}]: the arbitration of one output of a
    crossbar among the ports that send to it. *)

From S2P Require Import Prelude.

Module Layer.

Inductive State := IDLE | BUSY | RETRY.

#[export] Instance State_eq_dec : EqDecision State.
Proof. solve_decision. Defined.

(** Ports are named by their ids; [releaseEvent] holds the tick it is scheduled
    for, and [draining] is [drainState() == DrainState::Draining]. *)
Record t := mk {
  state : State;
  waitingForLayer : list Z;
  waitingForPeer : option Z;
  releaseEvent : option Z;
  occupancy : Z;
  draining : bool;
}.

Definition create : t := mk IDLE [] None None 0 false.

Definition set_state (x : State) (l : t) : t :=
  mk x (waitingForLayer l) (waitingForPeer l) (releaseEvent l) (occupancy l) (draining l).

Definition set_waiting (w : list Z) (peer : option Z) (l : t) : t :=
  mk (state l) w peer (releaseEvent l) (occupancy l) (draining l).

Definition set_draining (b : bool) (l : t) : t :=
  mk (state l) (waitingForLayer l) (waitingForPeer l) (releaseEvent l) (occupancy l) b.

Definition is_state (x : State) (l : t) : bool := bool_decide (state l = x).

Definition occupyLayer (now until : Z) (l : t) : res t :=
  assert! (is_state BUSY l);
  assert! (negb (until =? 0));
  assert! (now <=? until);
  assert! (bool_decide (releaseEvent l = None));
  Ok (mk (state l) (waitingForLayer l) (waitingForPeer l) (Some until)
         (occupancy l + (until - now)) (draining l)).

Definition tryTiming (src_port : Z) (l : t) : res (bool * t) :=
  if is_state BUSY l || negb (bool_decide (waitingForPeer l = None)) then
    assert! (negb (bool_decide (src_port ∈ waitingForLayer l)));
    Ok (false, set_waiting (waitingForLayer l ++ [src_port]) (waitingForPeer l) l)
  else Ok (true, set_state BUSY l).

Definition succeededTiming (now busy_time : Z) (l : t) : res t :=
  assert! (is_state BUSY l);
  occupyLayer now busy_time l.

Definition failedTiming (now src_port busy_time : Z) (l : t) : res t :=
  assert! (bool_decide (waitingForPeer l = None));
  let l := set_waiting (waitingForLayer l) (Some src_port) l in
  assert! (is_state BUSY l);
  occupyLayer now busy_time l.

(** What a crossbar does with its layer for a packet from a port: the packet is
    offered to the peer if the layer is free, and the layer is occupied until
    [until] whether the peer accepts it or not.  True when it is passed on. *)
Record attempt := mkAttempt { from : Z; accepted : bool; until : Z }.

Definition forward (now : Z) (a : attempt) (l : t) : res (bool * t) :=
  '(free, l) ← tryTiming (from a) l;
  if free : bool then
    l ← (if accepted a then succeededTiming now (until a) l
         else failedTiming now (from a) (until a) l);
    Ok (accepted a, l)
  else Ok (false, l).

(** The attempts the peer of a port makes while it handles a retry; the results
    are the ports whose attempt was refused. *)
Fixpoint reenter (now : Z) (reqs : list attempt) (l : t) : res (list Z * t) :=
  match reqs with
  | [] => Ok ([], l)
  | a :: reqs =>
      '(b, l) ← forward now a l;
      '(rs, l) ← reenter now reqs l;
      Ok ((if b : bool then [] else [from a]) ++ rs, l)
  end.

(** [retryWaiting] before and after the call of [sendRetry], where [edge] is
    [xbar.clockEdge()]; the first part gives the port that is told to retry. *)
Definition retry_start (l : t) : res (Z * t) :=
  match waitingForLayer l with
  | [] => Fail AssertFailure
  | retryingPort :: rest =>
      assert! (is_state IDLE l);
      Ok (retryingPort, set_waiting rest (waitingForPeer l) (set_state RETRY l))
  end.

Definition retry_finish (now edge : Z) (l : t) : res t :=
  if is_state RETRY l then occupyLayer now edge (set_state BUSY l) else Ok l.

(** [retryWaiting], where [reqs] are the attempts made from within [sendRetry].
    The results are the port told to retry and the ports refused on the way. *)
Definition retryWaiting (now edge : Z) (reqs : list attempt) (l : t) : res (Z * list Z * t) :=
  '(p, l) ← retry_start l;
  '(rs, l) ← reenter now reqs l;
  l ← retry_finish now edge l;
  Ok (p, rs, l).

(** [releaseLayer], the run of [releaseEvent], up to the call of [retryWaiting]:
    whether it is called, and whether the end of draining is signalled. *)
Definition release_start (l : t) : res (bool * bool * t) :=
  let l := mk (state l) (waitingForLayer l) (waitingForPeer l) None (occupancy l) (draining l) in
  assert! (is_state BUSY l);
  let l := set_state IDLE l in
  if negb (bool_decide (waitingForLayer l = [])) then
    Ok (bool_decide (waitingForPeer l = None), false, l)
  else if bool_decide (waitingForPeer l = None) && draining l then
    Ok (false, true, set_draining false l)
  else Ok (false, false, l).

Definition releaseLayer (now edge : Z) (reqs : list attempt) (l : t)
    : res (option Z * list Z * bool * t) :=
  '(r, d, l) ← release_start l;
  if r : bool then '(p, rs, l) ← retryWaiting now edge reqs l; Ok (Some p, rs, d, l)
  else Ok (None, [], d, l).

(** [recvRetry] up to the call of [retryWaiting]. *)
Definition recvRetry_start (l : t) : res (bool * t) :=
  match waitingForPeer l with
  | None => Fail AssertFailure
  | Some p =>
      let l := set_waiting (p :: waitingForLayer l) None l in
      if is_state IDLE l then Ok (true, l)
      else assert! (is_state BUSY l); Ok (false, l)
  end.

Definition recvRetry (now edge : Z) (reqs : list attempt) (l : t) : res (option Z * list Z * t) :=
  '(r, l) ← recvRetry_start l;
  if r : bool then '(p, rs, l) ← retryWaiting now edge reqs l; Ok (Some p, rs, l)
  else Ok (None, [], l).

(** [drain()]: true when drained at once. *)
Definition drain (l : t) : bool * t :=
  let d := is_state IDLE l in (d, set_draining (negb d) l).

(** ** Runs of a layer *)

Definition option_list {A} (o : option A) : list A :=
  match o with Some x => [x] | None => [] end.

(** The ports that wait for a retry of this layer. *)
Definition waiting (l : t) : list Z := option_list (waitingForPeer l) ++ waitingForLayer l.

(** The layer in its environment: the time, the ports refused and the ports told
    to retry so far. *)
Record sys := mkSys {
  now : Z;
  st : t;
  refused : list Z;
  retried : list Z;
}.

(** A port makes no attempt while it waits for a retry, and a packet occupies
    the layer for some time. *)
Definition sane (n : Z) (a : attempt) (l : t) : Prop :=
  from a ∉ waiting l ∧ n <= until a ∧ 0 < until a.

Fixpoint sane_all (n : Z) (reqs : list attempt) (l : t) : Prop :=
  match reqs with
  | [] => True
  | a :: reqs => sane n a l ∧ ∀ b l', forward n a l = Ok (b, l') → sane_all n reqs l'
  end.

(** The state in which the attempts following a retry are made. *)
Definition retrying (l : t) : t :=
  match waiting l with
  | [] => l
  | _ :: rest => mk RETRY rest None None (occupancy l) (draining l)
  end.

Inductive step : sys → sys → Prop :=
  | step_time c n :
      now c <= n → (∀ x, releaseEvent (st c) = Some x → n <= x) →
      step c (mkSys n (st c) (refused c) (retried c))
  | step_forward c a b l' :
      sane (now c) a (st c) → forward (now c) a (st c) = Ok (b, l') →
      step c (mkSys (now c) l' (refused c ++ if b then [] else [from a]) (retried c))
  | step_release c edge reqs o rs d l' :
      now c <= edge → releaseEvent (st c) = Some (now c) → sane_all (now c) reqs (retrying (st c)) →
      releaseLayer (now c) edge reqs (st c) = Ok (o, rs, d, l') →
      step c (mkSys (now c) l' (refused c ++ rs) (retried c ++ option_list o))
  | step_retry c edge reqs o rs l' :
      now c <= edge → waitingForPeer (st c) ≠ None → sane_all (now c) reqs (retrying (st c)) →
      recvRetry (now c) edge reqs (st c) = Ok (o, rs, l') →
      step c (mkSys (now c) l' (refused c ++ rs) (retried c ++ option_list o))
  | step_drain c :
      step c (mkSys (now c) (drain (st c)).2 (refused c) (retried c)).

(** Outside its handlers a layer is busy, with its release scheduled, or idle,
    with nobody waiting for it unless the peer owes a retry; it retries only
    within a handler. *)
Record inv (n : Z) (l : t) : Prop := {
  i_waiting : NoDup (waiting l);
  i_occupancy : occupancy l <= default n (releaseEvent l);
  i_state :
    match state l with
    | BUSY => ∃ x, releaseEvent l = Some x ∧ n <= x ∧ 0 < x
    | IDLE => releaseEvent l = None ∧ (waitingForLayer l ≠ [] → waitingForPeer l ≠ None) ∧
              (waiting l ≠ [] → 0 < n)
    | RETRY => releaseEvent l = None ∧ waitingForPeer l = None ∧ 0 < n
    end;
}.

Record ok (c : sys) : Prop := {
  ok_time : 0 <= now c;
  ok_inv : inv (now c) (st c);
  ok_settled : state (st c) ≠ RETRY;
  ok_ledger : refused c ≡ₚ retried c ++ waiting (st c);
}.

Lemma occupyLayer_ok n u l :
  NoDup (waiting l) → occupancy l <= n → state l = BUSY → releaseEvent l = None → n <= u → 0 < u →
  ∃ l', occupyLayer n u l = Ok l' ∧ inv n l' ∧ waiting l' = waiting l ∧ state l' = BUSY.
Proof.
  intros Hnd Ho Hs Hr Hu Hu0. unfold occupyLayer, is_state. rewrite Hs, Hr.
  replace (u =? 0) with false by lia. replace (n <=? u) with true by lia.
  rewrite !bool_decide_true by done. cbn [negb ensure]. rewrite !res_bind_Ok.
  eexists. split; [done|]. split; [|done]. constructor; simpl; [done|lia|eauto].
Qed.

(** A packet is only offered to the peer by a free layer. *)
Definition free (l : t) : bool := negb (is_state BUSY l) && bool_decide (waitingForPeer l = None).

(** A handler that is not a release neither frees the layer nor leaves it in the
    middle of a retry. *)
Definition keeps (l l' : t) : Prop :=
  (state l ≠ IDLE → state l' ≠ IDLE) ∧ (state l ≠ RETRY → state l' ≠ RETRY).

Lemma keeps_busy l l' : state l' = BUSY → keeps l l'.
Proof. intros H. unfold keeps. by rewrite H. Qed.

Lemma keeps_same l l' : state l' = state l → keeps l l'.
Proof. intros H. unfold keeps. by rewrite H. Qed.

(** A port refused by the layer joins those that wait for it. *)
Lemma tryTiming_busy n src l :
  inv n l → src ∉ waiting l → free l = false →
  ∃ l', tryTiming src l = Ok (false, l') ∧ inv n l' ∧ state l' = state l ∧
    waiting l' = waiting l ++ [src].
Proof.
  intros [Hnd Ho Hst] Hfr E. unfold tryTiming. unfold free in E.
  replace (is_state BUSY l || negb (bool_decide (waitingForPeer l = None))) with true
    by by destruct (is_state BUSY l), (bool_decide (waitingForPeer l = None)).
  assert (src ∉ waitingForLayer l) as Hw by (unfold waiting in Hfr; set_solver).
  rewrite (bool_decide_false (src ∈ waitingForLayer l)) by done. cbn [negb ensure].
  rewrite !res_bind_Ok. eexists. split; [done|]. split; [|unfold waiting; simpl; by rewrite app_assoc].
  constructor; [|done|].
  - unfold waiting. simpl. rewrite app_assoc. apply NoDup_app. split_and!; [done| |apply NoDup_singleton].
    intros x Hx ->%list_elem_of_singleton. done.
  - unfold is_state in E. simpl. destruct (state l); [|done|].
    + destruct Hst as (? & ? & Hn). apply bool_decide_eq_false_1 in E. split_and!; [done|done|].
      intros _. apply Hn. unfold waiting. by destruct (waitingForPeer l).
    + destruct Hst as (_ & Hp & _). apply bool_decide_eq_false_1 in E. done.
Qed.

Lemma tryTiming_free src l : free l = true → tryTiming src l = Ok (true, set_state BUSY l).
Proof.
  intros [Eb Ep]%andb_true_iff. apply negb_true_iff in Eb. unfold tryTiming. by rewrite Eb, Ep.
Qed.

(** Nothing is scheduled on a free layer. *)
Lemma free_idle n l :
  inv n l → free l = true →
  releaseEvent l = None ∧ waitingForPeer l = None ∧ occupancy l <= n ∧ NoDup (waiting l).
Proof.
  intros [Hnd Ho Hst] [Eb Ep]%andb_true_iff. apply negb_true_iff, bool_decide_eq_false_1 in Eb.
  apply bool_decide_eq_true_1 in Ep.
  assert (releaseEvent l = None) as Hr by (destruct (state l); [apply Hst|done|apply Hst]).
  by rewrite Hr in Ho.
Qed.

(** A packet offered to the peer occupies the layer whether it is accepted or
    not; if it is not, its port waits for the peer. *)
Lemma succeededTiming_ok n u l :
  inv n l → free l = true → n <= u → 0 < u →
  ∃ l', succeededTiming n u (set_state BUSY l) = Ok l' ∧ inv n l' ∧ state l' = BUSY ∧
    waiting l' = waiting l.
Proof.
  intros Hi Hf Hu Hu0. destruct (free_idle n l Hi Hf) as (Hr & Hp & Ho & Hnd).
  unfold succeededTiming, is_state. rewrite (bool_decide_true (state (set_state BUSY l) = BUSY)) by done.
  cbn [ensure]. rewrite res_bind_Ok.
  destruct (occupyLayer_ok n u (set_state BUSY l)) as (l' & -> & ? & ? & ?); try done. eauto.
Qed.

Lemma failedTiming_ok n src u l :
  inv n l → free l = true → src ∉ waiting l → n <= u → 0 < u →
  ∃ l', failedTiming n src u (set_state BUSY l) = Ok l' ∧ inv n l' ∧ state l' = BUSY ∧
    waiting l' = src :: waiting l.
Proof.
  intros Hi Hf Hs Hu Hu0. destruct (free_idle n l Hi Hf) as (Hr & Hp & Ho & Hnd).
  unfold failedTiming, is_state. simpl. rewrite Hp, !bool_decide_true by done. cbn [ensure].
  rewrite !res_bind_Ok.
  destruct (occupyLayer_ok n u (set_waiting (waitingForLayer l) (Some src) (set_state BUSY l)))
    as (l' & -> & Hi' & Hw & Hs'); try done.
  { unfold waiting in *. rewrite Hp in *. simpl in *. by constructor. }
  exists l'. split_and!; try done. rewrite Hw. unfold waiting. by rewrite Hp.
Qed.

Lemma forward_busy n a l :
  inv n l → sane n a l → free l = false →
  ∃ l', forward n a l = Ok (false, l') ∧ inv n l' ∧ state l' = state l ∧
    waiting l' = waiting l ++ [from a].
Proof.
  intros Hi (Hfr & _) E. unfold forward.
  destruct (tryTiming_busy n (from a) l Hi Hfr E) as (l' & -> & ?). rewrite res_bind_Ok. eauto.
Qed.

Lemma forward_free n a l :
  inv n l → sane n a l → free l = true →
  ∃ l', forward n a l = Ok (accepted a, l') ∧ inv n l' ∧ state l' = BUSY ∧
    waiting l' = (if accepted a then [] else [from a]) ++ waiting l.
Proof.
  intros Hi (Hfr & Hu & Hu0) E. unfold forward. rewrite (tryTiming_free _ _ E), res_bind_Ok.
  destruct (accepted a).
  - destruct (succeededTiming_ok n (until a) l) as (l' & -> & ?); [done..|]. rewrite res_bind_Ok. eauto.
  - destruct (failedTiming_ok n (from a) (until a) l) as (l' & -> & ?); [done..|]. rewrite res_bind_Ok. eauto.
Qed.

Lemma forward_ok n a l :
  inv n l → sane n a l →
  ∃ l', forward n a l = Ok (accepted a && free l, l') ∧ inv n l' ∧
    (state l ≠ IDLE → state l' ≠ IDLE) ∧ (state l ≠ RETRY → state l' ≠ RETRY) ∧
    waiting l' ≡ₚ waiting l ++ (if accepted a && free l then [] else [from a]).
Proof.
  intros Hi Hs. destruct (free l) eqn:E.
  - destruct (forward_free n a l Hi Hs E) as (l' & -> & Hi' & Hb & Hw). exists l'.
    rewrite andb_true_r, Hb, Hw. split_and!; [done..|]. by rewrite Permutation_app_comm.
  - destruct (forward_busy n a l Hi Hs E) as (l' & -> & Hi' & Hb & Hw). exists l'.
    rewrite andb_false_r, Hb, Hw. split_and!; done.
Qed.

Lemma reenter_layer_ok n reqs l :
  inv n l → sane_all n reqs l →
  ∃ rs l', reenter n reqs l = Ok (rs, l') ∧ inv n l' ∧ (state l ≠ IDLE → state l' ≠ IDLE) ∧
    waiting l' ≡ₚ waiting l ++ rs.
Proof.
  revert l. induction reqs as [|a reqs IH]; intros l Hi Hs; simpl.
  { exists [], l. split_and!; try done. by rewrite app_nil_r. }
  destruct Hs as [Hs Hall]. destruct (forward_ok n a l Hi Hs) as (l1 & H1 & Hi1 & Hid1 & _ & Hw1).
  rewrite H1, res_bind_Ok. specialize (Hall _ _ H1).
  destruct (IH l1 Hi1 Hall) as (rs & l2 & -> & Hi2 & Hid2 & Hw2). rewrite res_bind_Ok.
  do 2 eexists. split_and!; [done|done|auto|]. rewrite Hw2, Hw1. by rewrite app_assoc.
Qed.

(** An idle layer that [p] may use next. *)
Record ready (n p : Z) (rest : list Z) (l : t) : Prop := {
  rd_waiting : NoDup (p :: rest);
  rd_occupancy : occupancy l <= n;
  rd_state : state l = IDLE;
  rd_peer : waitingForPeer l = None;
  rd_layer : waitingForLayer l = p :: rest;
  rd_event : releaseEvent l = None;
  rd_now : 0 < n;
}.

Lemma retry_start_ok n p rest l :
  ready n p rest l →
  let l' := mk RETRY rest None None (occupancy l) (draining l) in
  retry_start l = Ok (p, l') ∧ inv n l'.
Proof.
  intros [[_ Hnd]%NoDup_cons Ho Hs Hp Hw Hr Hn]. unfold retry_start, is_state. rewrite Hw, Hs.
  rewrite (bool_decide_true (IDLE = IDLE)) by done. cbn [ensure]. rewrite res_bind_Ok.
  unfold set_waiting, set_state. simpl. rewrite Hp, Hr. split; [done|by constructor].
Qed.

Lemma retry_finish_ok n edge l :
  inv n l → state l ≠ IDLE → n <= edge →
  ∃ l', retry_finish n edge l = Ok l' ∧ inv n l' ∧ state l' = BUSY ∧ waiting l' = waiting l.
Proof.
  intros Hi Hid He. pose proof Hi as [Hnd Ho Hs]. unfold retry_finish, is_state.
  destruct (state l) eqn:E; [done| |].
  - rewrite (bool_decide_false (BUSY = RETRY)) by done. by exists l.
  - rewrite (bool_decide_true (RETRY = RETRY)) by done. destruct Hs as (Hr & _ & Hn).
    rewrite Hr in Ho. destruct (occupyLayer_ok n edge (set_state BUSY l)) as (l2 & ? & ? & ? & ?);
      try done; [lia|]. eauto.
Qed.

(** [retryWaiting] on an idle layer: the port that waited longest is told to
    retry, and the layer is busy afterwards, whatever the port does. *)
Lemma retryWaiting_ok n edge reqs l p rest :
  ready n p rest l → n <= edge →
  sane_all n reqs (mk RETRY rest None None (occupancy l) (draining l)) →
  ∃ rs l', retryWaiting n edge reqs l = Ok (p, rs, l') ∧ inv n l' ∧ state l' = BUSY ∧
    waiting l' ≡ₚ rest ++ rs.
Proof.
  intros Hrd He Hreqs. destruct (retry_start_ok n p rest l Hrd) as [Hst Hi].
  unfold retryWaiting. rewrite Hst, res_bind_Ok.
  destruct (reenter_layer_ok n reqs _ Hi Hreqs) as (rs & l1 & -> & Hi1 & Hid1 & Hw1). rewrite res_bind_Ok.
  destruct (retry_finish_ok n edge l1 Hi1 (Hid1 ltac:(done)) He) as (l2 & -> & Hi2 & Hs2 & Hw2).
  rewrite res_bind_Ok. do 2 eexists. split_and!; [done..|]. by rewrite Hw2, Hw1.
Qed.

(** [releaseLayer] and [recvRetry] up to the call of [retryWaiting]: either it is
    called for the next port, or the layer is left as it is. *)
Lemma release_start_ok n l :
  inv n l → releaseEvent l = Some n →
  ∃ r d l', release_start l = Ok (r, d, l') ∧ waiting l' = waiting l ∧
    (if r : bool then ∃ p rest, ready n p rest l' ∧ waiting l = p :: rest ∧ retrying l = retrying l'
     else inv n l' ∧ state l' = IDLE) ∧
    (waitingForPeer l = None → r = negb (bool_decide (waitingForLayer l = []))).
Proof.
  intros [Hnd Ho Hst] Hr. rewrite Hr in *. simpl in Ho.
  destruct (state l) eqn:Hs; [by destruct Hst| |by destruct Hst].
  destruct Hst as (x & [= <-] & _ & Hn). unfold release_start, is_state. simpl.
  rewrite Hs, (bool_decide_true (BUSY = BUSY)) by done. cbn [ensure]. rewrite res_bind_Ok. unfold set_state. simpl.
  unfold retrying, waiting in *. destruct (waitingForLayer l) as [|p rest] eqn:Hw; simpl.
  - destruct (_ && _) eqn:E.
    all: do 3 eexists; (split; [done|]); simpl; rewrite ?Hw; (split; [done|]); (split; [|done]); (split; [|done]).
    all: constructor; simpl; [by unfold waiting; rewrite ?Hw|done|split_and!; done].
  - destruct (waitingForPeer l) as [q|] eqn:Hp.
    + rewrite (bool_decide_false (Some q = None)) by done. do 3 eexists. split; [done|]. simpl.
      rewrite ?Hw, ?Hp. split; [done|]. split; [|done]. split; [|done].
      constructor; simpl; [by unfold waiting; rewrite ?Hw, ?Hp|done|split_and!; done].
    + rewrite (bool_decide_true (@None Z = None)) by done. do 3 eexists. split; [done|]. simpl.
      rewrite ?Hw, ?Hp. split; [done|]. split; [|done]. exists p, rest. split; [|done].
      constructor; simpl; done.
Qed.

Lemma recvRetry_start_ok n l p :
  inv n l → state l ≠ RETRY → waitingForPeer l = Some p →
  ∃ r l', recvRetry_start l = Ok (r, l') ∧ waiting l' = waiting l ∧
    (if r : bool then ∃ rest, ready n p rest l' ∧ waiting l = p :: rest ∧ retrying l = retrying l'
     else inv n l' ∧ state l' = BUSY) ∧
    (state l = IDLE → r = true).
Proof.
  intros [Hnd Ho Hst] Hnr Hp. unfold recvRetry_start, is_state. rewrite Hp. simpl.
  unfold waiting in *. rewrite Hp in *. simpl in Hnd.
  destruct (state l) eqn:Hs; [| |done].
  - rewrite (bool_decide_true (IDLE = IDLE)) by done. destruct Hst as (Hr & _ & Hn). rewrite Hr in Ho.
    do 2 eexists. split; [done|]. split; [done|]. split; [|done]. exists (waitingForLayer l).
    unfold retrying, waiting. simpl. rewrite Hp. split; [|done].
    constructor; simpl; try done. by apply Hn.
  - rewrite (bool_decide_false (BUSY = IDLE)), (bool_decide_true (BUSY = BUSY)) by done.
    cbn [ensure]. rewrite res_bind_Ok. do 2 eexists. split; [done|]. split; [done|]. split; [|done].
    split; [|done]. constructor; simpl; rewrite ?Hs; done.
Qed.

(** What a handler that may tell a port to retry does to the ports waiting. *)
Definition settles (n : Z) (l l' : t) (o : option Z) (rs : list Z) : Prop :=
  inv n l' ∧ state l' ≠ RETRY ∧ waiting l ++ rs ≡ₚ option_list o ++ waiting l'.

Lemma retry_settles n edge reqs l l' p rest :
  ready n p rest l' → waiting l = p :: rest → retrying l = retrying l' → waiting l' = waiting l →
  n <= edge → sane_all n reqs (retrying l) →
  ∃ rs l2, retryWaiting n edge reqs l' = Ok (p, rs, l2) ∧ settles n l l2 (Some p) rs.
Proof.
  intros Hrd Hw Hrt Hw' He Hreqs. rewrite Hrt in Hreqs. unfold retrying in Hreqs.
  rewrite Hw', Hw in Hreqs.
  destruct (retryWaiting_ok n edge reqs l' p rest Hrd He Hreqs) as (rs & l2 & H2 & Hi2 & Hs2 & Hw2).
  exists rs, l2. split; [done|]. unfold settles. rewrite Hs2, Hw. split_and!; [done..|]. simpl. by rewrite Hw2.
Qed.

Lemma releaseLayer_ok n edge reqs l :
  inv n l → releaseEvent l = Some n → n <= edge → sane_all n reqs (retrying l) →
  ∃ o rs d l', releaseLayer n edge reqs l = Ok (o, rs, d, l') ∧ settles n l l' o rs ∧
    (waitingForPeer l = None → o = head (waitingForLayer l)).
Proof.
  intros Hi Hr He Hreqs. unfold releaseLayer.
  destruct (release_start_ok n l Hi Hr) as (r & d & l' & -> & Hw & Hcase & Hhead). rewrite res_bind_Ok.
  destruct r.
  - destruct Hcase as (p & rest & Hrd & Hwl & Hrt).
    destruct (retry_settles n edge reqs l l' p rest) as (rs & l2 & -> & Hset); [done..|].
    rewrite res_bind_Ok. do 4 eexists. split; [done|]. split; [done|]. intros Hp.
    unfold waiting in Hwl. rewrite Hp in Hwl. simpl in Hwl. by rewrite Hwl.
  - destruct Hcase as [Hi' Hs']. do 4 eexists. split; [done|]. unfold settles. rewrite Hs', Hw, app_nil_r.
    split; [done|]. intros Hp. specialize (Hhead Hp). by destruct (waitingForLayer l).
Qed.

Lemma recvRetry_ok n edge reqs l p :
  inv n l → state l ≠ RETRY → waitingForPeer l = Some p → n <= edge → sane_all n reqs (retrying l) →
  ∃ o rs l', recvRetry n edge reqs l = Ok (o, rs, l') ∧ settles n l l' o rs ∧
    (state l = IDLE → o = Some p).
Proof.
  intros Hi Hnr Hp He Hreqs. unfold recvRetry.
  destruct (recvRetry_start_ok n l p Hi Hnr Hp) as (r & l' & -> & Hw & Hcase & Hidle). rewrite res_bind_Ok.
  destruct r.
  - destruct Hcase as (rest & Hrd & Hwl & Hrt).
    destruct (retry_settles n edge reqs l l' p rest) as (rs & l2 & -> & Hset); [done..|].
    rewrite res_bind_Ok. do 3 eexists. split; [done|]. done.
  - destruct Hcase as [Hi' Hs']. do 3 eexists. split; [done|]. unfold settles. rewrite Hs', Hw, app_nil_r.
    split; [done|]. intros Hs. by specialize (Hidle Hs).
Qed.

Lemma inv_time n n' l :
  inv n l → n <= n' → (∀ x, releaseEvent l = Some x → n' <= x) → inv n' l.
Proof.
  intros [Hnd Ho Hst] Hn Hx. constructor; [done| |].
  - destruct (releaseEvent l); simpl in *; lia.
  - destruct (state l).
    + destruct Hst as (? & ? & Hw). split_and!; [done|done|]. intros ?%Hw. lia.
    + destruct Hst as (x & Hr & _ & ?). eauto.
    + destruct Hst as (? & ? & ?). split_and!; [done|done|lia].
Qed.

Lemma layer_step_ok c c' : ok c → step c c' → ok c'.
Proof.
  intros [Ht Hi Hs Hl] Hstep.
  destruct Hstep as [c n Hn Hx|c a b l' Hsane H|c edge reqs o rs d l' He Hr Hsane H
    |c edge reqs o rs l' He Hp Hsane H|c].
  - constructor; simpl; try done; [lia|by eapply inv_time].
  - destruct (forward_ok _ _ _ Hi Hsane) as (l1 & H1 & Hi1 & _ & Hs1 & Hw1).
    rewrite H1 in H. injection H as <- <-. constructor; simpl; auto. rewrite Hw1, Hl.
    by rewrite app_assoc.
  - destruct (releaseLayer_ok _ edge reqs _ Hi Hr He Hsane) as (o1 & rs1 & d1 & l1 & H1 & (Hi1 & Hs1 & Hw1) & _).
    rewrite H1 in H. injection H as <- <- <- <-. constructor; simpl; try done.
    by rewrite Hl, <-!app_assoc, Hw1.
  - destruct (waitingForPeer (st c)) as [p|] eqn:E; [|done].
    destruct (recvRetry_ok _ edge reqs _ p Hi Hs E He Hsane) as (o1 & rs1 & l1 & H1 & (Hi1 & Hs1 & Hw1) & _).
    rewrite H1 in H. injection H as <- <- <-. constructor; simpl; try done.
    by rewrite Hl, <-!app_assoc, Hw1.
  - constructor; simpl; try done. by destruct Hi.
Qed.

(** ** Every waiting port is served *)

Lemma retryWaiting_nil n edge l p rest :
  state l = IDLE → waitingForLayer l = p :: rest → waitingForPeer l = None → releaseEvent l = None →
  0 < n → n <= edge →
  ∃ l', retryWaiting n edge [] l = Ok (p, [], l') ∧ waiting l' = rest.
Proof.
  intros Hs Hw Hp Hr Hn He. unfold retryWaiting, retry_start, retry_finish, is_state, occupyLayer. rewrite Hw, Hs, Hp.
  rewrite (bool_decide_true (IDLE = IDLE)) by done. cbn [ensure reenter]. rewrite !res_bind_Ok.
  simpl. unfold is_state. simpl. rewrite Hr. replace (edge =? 0) with false by lia.
  replace (n <=? edge) with true by lia. rewrite !bool_decide_true by done. simpl. eauto.
Qed.

Lemma serve_idle c p rest :
  ok c → state (st c) = IDLE → waiting (st c) = p :: rest →
  ∃ c', rtc step c c' ∧ retried c' = retried c ++ [p] ∧ waiting (st c') = rest.
Proof.
  intros [Ht [Hnd Ho Hst] Hs Hl] Hid Hw. rewrite Hid in Hst. destruct Hst as (Hr & Hpeer & Hn).
  specialize (Hn ltac:(congruence)). unfold waiting in Hw.
  destruct (waitingForPeer (st c)) as [q|] eqn:Hp; simpl in Hw.
  2:{ destruct Hpeer; congruence. }
  injection Hw as -> Hrest.
  destruct (retryWaiting_nil (now c) (now c) (set_waiting (p :: waitingForLayer (st c)) None (st c))
              p (waitingForLayer (st c))) as (l' & H & Hw'); try (done || lia).
  eexists. split_and!; [apply rtc_once, (step_retry c (now c) [] (Some p) [] l')|done|].
  - lia. - congruence. - done.
  - unfold recvRetry, recvRetry_start, is_state. rewrite Hp. simpl. rewrite Hid, (bool_decide_true (IDLE = IDLE)) by done.
    by rewrite res_bind_Ok, H.
  - simpl. congruence.
Qed.

Lemma serve_next c p rest :
  ok c → waiting (st c) = p :: rest →
  ∃ c', rtc step c c' ∧ retried c' = retried c ++ [p] ∧ waiting (st c') = rest.
Proof.
  intros Hok Hw. pose proof Hok as [Ht [Hnd Ho Hst] Hs Hl].
  destruct (state (st c)) eqn:Hbusy; [by apply serve_idle| |done]. destruct Hst as (x & Hr & Hx & Hx0).
  pose (c1 := mkSys x (st c) (refused c) (retried c)).
  assert (step c c1) as H1. { apply (step_time c x); [done|]. rewrite Hr. by intros y [= ->]. }
  pose proof (layer_step_ok _ _ Hok H1) as [_ Hi1 _ _].
  destruct (releaseLayer_ok x x [] (st c) Hi1 Hr) as (o & rs & d & l2 & H2 & (Hi2 & Hs2 & Hw2) & Ho2); [done..|].
  unfold waiting in Hw. destruct (waitingForPeer (st c)) as [q|] eqn:Hp; simpl in Hw.
  - injection Hw as -> Hrest.
    assert (step c1 (mkSys x l2 (refused c ++ rs) (retried c ++ option_list o))) as Hstep.
    { eapply (step_release c1 x []); simpl; done. }
    assert (o = None ∧ state l2 = IDLE ∧ waiting l2 = p :: rest) as (-> & Hid & Hw').
    { revert H2. unfold releaseLayer, release_start, is_state. simpl. rewrite Hbusy, Hp, Hrest.
      rewrite (bool_decide_true (BUSY = BUSY)) by done. simpl. case_bool_decide; simpl;
        intros [= <- <- <- <-]; unfold waiting; simpl; rewrite ?Hp, ?Hrest; done. }
    destruct (serve_idle (mkSys x l2 (refused c ++ rs) (retried c ++ option_list (@None Z))) p rest)
      as (c' & Hrun & Hret & Hw3); [|done|done|].
    { eapply layer_step_ok; [|exact Hstep]. by eapply layer_step_ok. }
    exists c'. simpl in Hret. rewrite app_nil_r in Hret. split_and!; [|done|done].
    by eapply rtc_l; [exact H1|eapply rtc_l].
  - assert (o = Some p ∧ waiting l2 = rest) as [-> Hw'].
    { rewrite (Ho2 eq_refl), Hw. split; [done|]. revert H2. unfold releaseLayer, release_start, is_state. simpl.
      rewrite Hbusy, Hp, Hw. rewrite (bool_decide_true (BUSY = BUSY)) by done. simpl.
      destruct (retryWaiting_nil x x (set_state IDLE (mk BUSY (p :: rest) None None (occupancy (st c))
        (draining (st c)))) p rest) as (l' & -> & Hw'); try done. rewrite res_bind_Ok. intros [= _ _ _ <-]. done. }
    eexists. split; [eapply rtc_l; [exact H1|]|].
    { eapply rtc_once, (step_release c1 x [] (Some p) rs d l2); done. }
    done.
Qed.

Lemma serve_all c :
  ok c → ∃ c', rtc step c c' ∧ retried c' = retried c ++ waiting (st c) ∧ waiting (st c') = [].
Proof.
  remember (waiting (st c)) as w eqn:Hw. revert c Hw.
  induction w as [|p w IH]; intros c Hw Hok.
  { exists c. rewrite app_nil_r. split_and!; [apply rtc_refl|done|done]. }
  destruct (serve_next c p w Hok (eq_sym Hw)) as (c1 & Hrun1 & Hret1 & Hw1).
  assert (ok c1) as Hok1 by (clear -Hok Hrun1; induction Hrun1; eauto using layer_step_ok).
  destruct (IH c1 (eq_sym Hw1) Hok1) as (c2 & Hrun2 & Hret2 & Hw2).
  exists c2. split_and!; [by etrans| |done]. by rewrite Hret2, Hret1, <-app_assoc.
Qed.

(** C25: in every run of a crossbar layer in which a port does not try again before
    it is told to, whatever the ports do within a retry: the ports refused are
    those told to retry since and those waiting, each waiting once; an idle layer
    leaves nobody waiting unless its peer owes a retry, and a busy one has its
    release scheduled; it is never occupied for longer than the time that has
    passed; no handler fails an assertion; a packet is passed on exactly if the
    layer is free and the peer accepts it; and the waiting ports can all be
    served, in the order in which they wait. *)
Theorem layer_runs c c' :
  ok c → rtc step c c' →
  let n := now c' in let l := st c' in
  refused c' ≡ₚ retried c' ++ waiting l ∧ inv n l ∧
  (∀ a, sane n a l → ∃ b l', forward n a l = Ok (b, l') ∧
     (b = true ↔ accepted a = true ∧ state l = IDLE ∧ waitingForPeer l = None)) ∧
  (∀ edge reqs, n <= edge → sane_all n reqs (retrying l) → releaseEvent l = Some n →
     ∃ r, releaseLayer n edge reqs l = Ok r) ∧
  (∀ edge reqs, n <= edge → sane_all n reqs (retrying l) → waitingForPeer l ≠ None →
     ∃ r, recvRetry n edge reqs l = Ok r) ∧
  ∃ c'', rtc step c' c'' ∧ retried c'' = retried c' ++ waiting l ∧ waiting (st c'') = [].
Proof.
  intros Hok Hrun. assert (ok c') as Hok' by (induction Hrun; eauto using layer_step_ok).
  pose proof Hok' as [Ht Hi Hs Hl]. simpl. split_and!; try done.
  - intros a Ha. destruct (forward_ok _ _ _ Hi Ha) as (l' & -> & _). do 2 eexists. split; [done|].
    unfold free, is_state. rewrite !andb_true_iff, negb_true_iff, bool_decide_eq_false, bool_decide_eq_true.
    destruct (state (st c')); intuition congruence.
  - intros edge reqs He Hr Hn. destruct (releaseLayer_ok _ edge reqs _ Hi Hn He Hr) as (? & ? & ? & ? & -> & _). eauto.
  - intros edge reqs He Hr Hn. destruct (waitingForPeer (st c')) as [p|] eqn:E; [|done].
    destruct (recvRetry_ok _ edge reqs _ p Hi Hs E He Hr) as (? & ? & ? & -> & _). eauto.
  - by apply serve_all.
Qed.

Definition demo : sys := mkSys 5 create [] [].

Lemma demo_layer_ok : ok demo.
Proof. constructor; try done. constructor; [constructor|done|]. by split_and!. Qed.

(** Port 0 takes the layer until tick 20, and port 1 is refused. *)
Definition demo_waiting : sys := mkSys 5 (mk BUSY [1] None (Some 20) 15 false) [1] [].

Lemma demo_layer_run : rtc step demo demo_waiting.
Proof.
  eapply rtc_l; [apply (step_forward demo (mkAttempt 0 true 20) true)|].
  { split; [apply not_elem_of_nil|done]. } { reflexivity. }
  eapply rtc_l; [eapply (step_forward _ (mkAttempt 1 true 30) false)|].
  { split; [apply not_elem_of_nil|done]. } { reflexivity. }
  apply rtc_refl.
Qed.

Lemma layer_runs_witness :
  ∃ c, rtc step demo c ∧ retried c = [1] ∧ waiting (st c) = [].
Proof.
  destruct (layer_runs demo demo_waiting demo_layer_ok demo_layer_run)
    as (_ & _ & _ & _ & _ & c & Hrun & Hret & Hw).
  exists c. split; [etrans; [exact demo_layer_run|exact Hrun]|]. split; [exact Hret|exact Hw].
Defined.

End Layer.
