(* ===== verification/AbstractMem.v ===== *)
(** [AbstractMemory] of [mem/abstract_mem.{hh,cc}]: a block of physical memory
    backed by a buffer of the simulator, with load-locked/store-conditional
    tracking.  Both the DRAM and the scratchpads of the hybrid memory system
    are instances. *)

From S2P Require Import Prelude Bits AddrRange Host Request MemCmd Packet.
Import Host Flags.

Module AbstractMemory.

(** [LockedAddr]: a reservation of a 16-byte block by a hardware context. *)
Record LockedAddr := mkLocked { l_addr : Z; l_contextId : Z }.

#[global] Instance LockedAddr_eq_dec : EqDecision LockedAddr.
Proof. solve_decision. Defined.

(** [LockedAddr::mask]. *)
Definition lock_mask (paddr : Z) : Z := Z.ldiff paddr 0xf.

Definition matchesContext (l : LockedAddr) (r : Request.t) : res bool :=
  assert! (negb (l_contextId l =? Request.InvalidContextID));
  c ← Request.contextId r;
  Ok (l_contextId l =? c).

(** The [MemStats] counters, per requestor. *)
Record Stats := mkStats {
  bytesRead : gmap Z Z;
  bytesInstRead : gmap Z Z;
  bytesWritten : gmap Z Z;
  numReads : gmap Z Z;
  numWrites : gmap Z Z;
  numOther : gmap Z Z;
}.

Definition no_stats : Stats := mkStats ∅ ∅ ∅ ∅ ∅ ∅.

Definition bump (id n : Z) (m : gmap Z Z) : gmap Z Z := <[id := default 0 (m !! id) + n]> m.

(** [cleared] records the contexts whose exclusive monitor was cleared through
    [ThreadContext::getIsaPtr()->globalClearExclusive()]. *)
Record t := mk {
  range : AddrRange.t;
  pmemAddr : option ptr;
  backdoor : option ptr;
  writeable : bool;
  collectStats : bool;
  lockedAddrList : list LockedAddr;
  stats : Stats;
  cleared : list Z;
}.

Definition set_locked (l : list LockedAddr) (m : t) : t :=
  mk (range m) (pmemAddr m) (backdoor m) (writeable m) (collectStats m) l (stats m) (cleared m).

Definition set_stats (s : Stats) (m : t) : t :=
  mk (range m) (pmemAddr m) (backdoor m) (writeable m) (collectStats m) (lockedAddrList m) s
     (cleared m).

Definition add_cleared (c : list Z) (m : t) : t :=
  mk (range m) (pmemAddr m) (backdoor m) (writeable m) (collectStats m) (lockedAddrList m)
     (stats m) (cleared m ++ c).

(** The constructor's check. *)
Definition create (r : AddrRange.t) (w collect : bool) : res t :=
  panic_unless! (AddrRange.valid r && negb (AddrRange.size r =? 0));
  Ok (mk r None None w collect [] no_stats []).

Definition setBackingStore (pmem : ptr) (m : t) : t :=
  mk (range m) (Some pmem) (if AddrRange.interleaved (range m) then None else Some pmem)
     (writeable m) (collectStats m) (lockedAddrList m) (stats m) (cleared m).

(** [getBackdoor]: offered only while nothing is reserved. *)
Definition getBackdoor (m : t) : option ptr :=
  if bool_decide (lockedAddrList m = []) then backdoor m else None.

Definition addLockedAddr (l : LockedAddr) (m : t) : t :=
  set_locked (lockedAddrList m ++ [l]) m.

Definition toHostAddr (m : t) (pmem : ptr) (a : Z) : ptr :=
  ptr_add pmem (a - AddrRange._start (range m)).

(** The search of [trackLoadLocked]: the list with the record of the context
    updated, or [None]. *)
Fixpoint update_lock (r : Request.t) (paddr : Z) (l : list LockedAddr)
    : res (option (list LockedAddr)) :=
  match l with
  | [] => Ok None
  | x :: l =>
      b ← matchesContext x r;
      if b : bool then Ok (Some (mkLocked paddr (l_contextId x) :: l))
      else
        o ← update_lock r paddr l;
        Ok (option_map (cons x) o)
  end.

Definition trackLoadLocked (p : Packet.t) (m : t) : res t :=
  let r := Packet.req p in
  a ← Request.getPaddr r;
  let paddr := lock_mask a in
  o ← update_lock r paddr (lockedAddrList m);
  match o with
  | Some l => Ok (set_locked l m)
  | None =>
      c ← Request.contextId r;
      Ok (set_locked (mkLocked paddr c :: lockedAddrList m) m)
  end.

(** The search for the reservation of a store conditional. *)
Fixpoint has_lock (r : Request.t) (paddr : Z) (l : list LockedAddr) : res bool :=
  match l with
  | [] => Ok false
  | x :: l =>
      if l_addr x =? paddr then
        b ← matchesContext x r;
        if b : bool then Ok true else has_lock r paddr l
      else has_lock r paddr l
  end.

(** The erasing loop: the records left, and the contexts to notify. *)
Fixpoint erase_locks (r : Request.t) (paddr : Z) (l : list LockedAddr)
    : res (list LockedAddr * list Z) :=
  match l with
  | [] => Ok ([], [])
  | x :: l =>
      if l_addr x =? paddr then
        assert! (negb (l_contextId x =? Request.InvalidContextID));
        let requestor_cid := if Request.hasContextId r then Request._contextId r
                             else Request.InvalidContextID in
        '(l, c) ← erase_locks r paddr l;
        Ok (l, if l_contextId x =? requestor_cid then c else l_contextId x :: c)
      else
        '(l, c) ← erase_locks r paddr l;
        Ok (x :: l, c)
  end.

Definition checkLockedAddrList (p : Packet.t) (m : t) : res (bool * Packet.t * t) :=
  let r := Packet.req p in
  a ← Request.getPaddr r;
  let paddr := lock_mask a in
  '(allowStore, p) ←
    (if Packet.isLLSC p then
       b ← has_lock r paddr (lockedAddrList m);
       Ok (b, Packet.set_req (Request.setExtraData (if b : bool then 1 else 0) r) p)
     else Ok (true, p));
  if allowStore : bool then
    '(l, c) ← erase_locks r paddr (lockedAddrList m);
    Ok (true, p, add_cleared c (set_locked l m))
  else Ok (false, p, m).

Definition writeOK (p : Packet.t) (m : t) : res (bool * Packet.t * t) :=
  if negb (writeable m) then Ok (false, p, m)
  else if bool_decide (lockedAddrList m = []) then
    if Packet.isLLSC p
    then Ok (false, Packet.set_req (Request.setExtraData 0 (Packet.req p)) p, m)
    else Ok (true, p, m)
  else checkLockedAddrList p m.

Definition count_read (p : Packet.t) (n : Z) (m : t) : t :=
  if collectStats m then
    let id := Request._requestorId (Packet.req p) in
    let s := stats m in
    set_stats (mkStats (bump id n (bytesRead s))
                 (if Request.isInstFetch (Packet.req p) then bump id n (bytesInstRead s)
                  else bytesInstRead s)
                 (bytesWritten s) (bump id 1 (numReads s)) (numWrites s) (numOther s)) m
  else m.

Definition count_write (p : Packet.t) (n : Z) (m : t) : t :=
  if collectStats m then
    let id := Request._requestorId (Packet.req p) in
    let s := stats m in
    set_stats (mkStats (bytesRead s) (bytesInstRead s) (bump id n (bytesWritten s))
                 (numReads s) (bump id 1 (numWrites s)) (numOther s)) m
  else m.

Definition count_other (p : Packet.t) (m : t) : t :=
  if collectStats m then
    let s := stats m in
    set_stats (mkStats (bytesRead s) (bytesInstRead s) (bytesWritten s) (numReads s)
                 (numWrites s) (bump (Request._requestorId (Packet.req p)) 1 (numOther s))) m
  else m.

(** The [SwapReq] branch of [access].  Only a [WriteReq] is a masked write, so
    [writeData] copies all bytes of the packet here. *)
Definition access_swap (p : Packet.t) (m : t) (h : hmem) : res (t * hmem) :=
  a ← Packet.getAddr p;
  if Request.isAtomic (Packet.req p) then
    match pmemAddr m with
    | None => Ok (m, h)
    | Some pmem =>
        let host_addr := toHostAddr m pmem a in
        h ← Packet.setData h host_addr p;
        match Request.atomicOpFunctor (Packet.req p) with
        | None => Fail AssertFailure
        | Some f =>
            n ← Packet.getSize p;
            bs ← load_bytes h host_addr n;
            h ← store_bytes h host_addr (f bs);
            Ok (m, h)
        end
    end
  else
    match pmemAddr m with
    | None => Fail PanicFailure
    | Some pmem =>
        let host_addr := toHostAddr m pmem a in
        n ← Packet.getSize p;
        d ← Packet.getConstPtr p;
        overwrite_val ← load_bytes h d n;
        h ← Packet.setData h host_addr p;
        overwrite_mem ←
          (if Request.isCondSwap (Packet.req p) then
             match word_size n with
             | Some k =>
                 panic_unless! (bool_decide (k = 8 ∨ k = 4)%nat);
                 c ← Request.getExtraData (Packet.req p);
                 bs ← load_bytes h host_addr n;
                 Ok (bool_decide (bs = le_bytes k c))
             | None => Fail PanicFailure
             end
           else Ok true);
        h ← (if overwrite_mem : bool then store_bytes h host_addr overwrite_val else Ok h);
        assert! (negb (Request.isInstFetch (Packet.req p)));
        Ok (count_other p m, h)
    end.

Definition access_read (p : Packet.t) (m : t) (h : hmem) : res (t * hmem) :=
  assert! (negb (Packet.isWrite p));
  m ← (if Packet.isLLSC p then
         assert! (negb (Packet.fromCache p));
         trackLoadLocked p m
       else Ok m);
  a ← Packet.getAddr p;
  n ← Packet.getSize p;
  h ← (match pmemAddr m with
       | Some pmem => Packet.setData h (toHostAddr m pmem a) p
       | None => Ok h
       end);
  Ok (count_read p n m, h).

Definition access_write (p : Packet.t) (m : t) (h : hmem) : res (Packet.t * t * hmem) :=
  '(ok, p, m) ← writeOK p m;
  if ok : bool then
    a ← Packet.getAddr p;
    n ← Packet.getSize p;
    h ← (match pmemAddr m with
         | Some pmem => Packet.writeData h (toHostAddr m pmem a) p
         | None => Ok h
         end);
    assert! (negb (Request.isInstFetch (Packet.req p)));
    Ok (p, count_write p n m, h)
  else Ok (p, m, h).

(** [access]: performs the packet and turns it into its response. *)
Definition access (p : Packet.t) (m : t) (h : hmem) : res (Packet.t * t * hmem) :=
  if Packet.cacheResponding p then Ok (p, m, h)
  else if Packet.isCleanEviction p then Ok (p, m, h)
  else
    r ← Packet.getAddrRange p;
    sub ← AddrRange.isSubset r (range m);
    assert! sub;
    '(p, m, h) ←
      (if bool_decide (Packet.cmd p = MemCmd.SwapReq) then
         '(m, h) ← access_swap p m h; Ok (p, m, h)
       else if Packet.isRead p then
         '(m, h) ← access_read p m h; Ok (p, m, h)
       else if Packet.isInvalidate p || Packet.isClean p then
         assert! (negb (Packet.isWrite p)); Ok (p, m, h)
       else if Packet.isWrite p then access_write p m h
       else Fail PanicFailure);
    if Packet.needsResponse p then p ← Packet.makeResponse p; Ok (p, m, h)
    else Ok (p, m, h).

(** [functionalAccess]; the print request of the debugger only prints. *)
Definition functionalAccess (p : Packet.t) (m : t) (h : hmem) : res (Packet.t * hmem) :=
  r ← Packet.getAddrRange p;
  sub ← AddrRange.isSubset r (range m);
  assert! sub;
  a ← Packet.getAddr p;
  if Packet.isRead p then
    h ← (match pmemAddr m with
         | Some pmem => Packet.setData h (toHostAddr m pmem a) p
         | None => Ok h
         end);
    p ← Packet.makeResponse p; Ok (p, h)
  else if Packet.isWrite p then
    h ← (match pmemAddr m with
         | Some pmem => Packet.writeData h (toHostAddr m pmem a) p
         | None => Ok h
         end);
    p ← Packet.makeResponse p; Ok (p, h)
  else if Packet.isPrint p then
    assert! (negb (bool_decide (Packet.senderState p = []))); Ok (p, h)
  else Fail PanicFailure.

(** ** The memory as a map from addresses to bytes *)

(** The byte at guest address [a]. *)
Definition contents (m : t) (h : hmem) (a : Z) : option Z :=
  match pmemAddr m with
  | Some pm =>
      if decide (AddrRange._start (range m) <= a < AddrRange._end (range m))
      then peek h (block pm) (offset pm + (a - AddrRange._start (range m))) else None
  | None => None
  end.

(** A contiguous memory whose backing store covers its range. *)
Record wf (m : t) (h : hmem) (pm : ptr) : Prop := {
  wf_range : AddrRange.contiguous (range m);
  wf_bounds : 0 <= AddrRange._start (range m) < AddrRange._end (range m) ∧
              AddrRange._end (range m) < 2 ^ 64;
  wf_pmem : pmemAddr m = Some pm;
  wf_store : in_bounds h pm (AddrRange._end (range m) - AddrRange._start (range m)) = true;
  wf_locks : Forall (λ l, l_contextId l ≠ Request.InvalidContextID) (lockedAddrList m);
}.

(** The packet lies inside the memory. *)
Record inside (p : Packet.t) (m : t) : Prop := {
  in_vaddr : Packet.flag p Packet.VALID_ADDR = true;
  in_size : 0 < Packet.size p;
  in_low : AddrRange._start (range m) <= Packet.addr p;
  in_high : Packet.addr p + Packet.size p <= AddrRange._end (range m);
}.

Lemma access_range p m h pm d n :
  wf m h pm → inside p m → Packet.has_buffer h p d n →
  (r ← Packet.getAddrRange p; AddrRange.isSubset r (range m)) = Ok true ∧
  Packet.getAddr p = Ok (Packet.addr p).
Proof.
  intros [Hr Hbd _ _ _] [Hv Hs Hl Hh] Hb. unfold Packet.getAddrRange.
  assert (Packet.getAddr p = Ok (Packet.addr p)) as Ha by (unfold Packet.getAddr; by rewrite Hv).
  rewrite Ha. simpl. split; [|done]. unfold Packet.getSize. destruct Hb as [_ _ _ Hvs _]. rewrite Hvs. simpl.
  unfold AddrRange.RangeSize. rewrite u64_small by auto with width.
  destruct (AddrRange.isSubset_contiguous (AddrRange.plain (Packet.addr p) (Packet.addr p + Packet.size p))
    (range m)) as (b & -> & Hb); [done|done|simpl; lia|lia|].
  f_equal. apply Hb. intros a Ha'. apply AddrRange.contains_plain in Ha'.
  apply AddrRange.contains_contiguous; [done|]. lia.
Qed.

Lemma host_in_bounds p m h pm :
  wf m h pm → inside p m →
  in_bounds h (toHostAddr m pm (Packet.addr p)) (Packet.size p) = true.
Proof.
  intros [_ Hbd _ Hst _] [_ Hs Hl Hh]. eapply Packet.in_bounds_sub; [done|lia..].
Qed.

(** [wf] and [contents] only depend on the configuration and the bytes. *)
Definition same_config (m m' : t) : Prop :=
  range m' = range m ∧ pmemAddr m' = pmemAddr m ∧ backdoor m' = backdoor m ∧
  writeable m' = writeable m.

Lemma same_config_trans m1 m2 m3 : same_config m1 m2 → same_config m2 m3 → same_config m1 m3.
Proof. unfold same_config. intuition congruence. Qed.

Lemma contents_config m m' h a : same_config m m' → contents m' h a = contents m h a.
Proof. intros (Hr & Hp & _). unfold contents. by rewrite Hr, Hp. Qed.

Lemma wf_config m m' h h' pm :
  wf m h pm → same_config m m' → (∀ q n, in_bounds h' q n = in_bounds h q n) →
  Forall (λ l, l_contextId l ≠ Request.InvalidContextID) (lockedAddrList m') → wf m' h' pm.
Proof.
  intros [H1 H2 H3 H4 H5] (Hr & Hp & _) Hb Hl. constructor; rewrite ?Hr, ?Hp, ?Hb; done.
Qed.

Lemma contents_frame m h h' pm a :
  pmemAddr m = Some pm → (∀ i, peek h' (block pm) i = peek h (block pm) i) →
  contents m h' a = contents m h a.
Proof. intros Hp Hf. unfold contents. rewrite Hp. case_decide; [|done]. by rewrite Hf. Qed.

(** ** Reads and writes *)

(** An ordinary read request: not a swap, not load-locked. *)
Definition plain_read (p : Packet.t) : Prop :=
  Packet.isRead p = true ∧ Packet.isWrite p = false ∧ Packet.isLLSC p = false ∧
  Packet.cacheResponding p = false ∧ Packet.needsResponse p = true ∧
  Packet.isMaskedWrite p = false ∧ Packet.isCleanEviction p = false.

Lemma plain_read_swap p : plain_read p → Packet.cmd p ≠ MemCmd.SwapReq.
Proof. intros (_ & Hw & _) Hc. unfold Packet.isWrite in Hw. by rewrite Hc in Hw. Qed.

Lemma count_read_config p n m : same_config m (count_read p n m) ∧
  lockedAddrList (count_read p n m) = lockedAddrList m.
Proof. unfold count_read. by destruct (collectStats m). Qed.

Lemma count_write_config p n m : same_config m (count_write p n m) ∧
  lockedAddrList (count_write p n m) = lockedAddrList m.
Proof. unfold count_write. by destruct (collectStats m). Qed.

Lemma makeResponse_Ok p :
  Packet.needsResponse p = true →
  Packet.makeResponse p =
    Ok (Packet.clear_flag Packet.EXPRESS_SNOOP
          (Packet.set_cmd (MemCmd.responseCommand (Packet.cmd p)) p)).
Proof.
  intros Hn. unfold Packet.makeResponse. rewrite Hn.
  replace (Packet.isRequest p) with true by (symmetry; by apply MemCmd.needsResponse_request).
  done.
Qed.

(** The response [access] makes of a request. *)
Definition response_of (p p' : Packet.t) : Prop := Packet.makeResponse p = Ok p'.

(** An ordinary read copies the memory into the packet's buffer and changes
    nothing else. *)
Lemma access_plain_read p m h pm d n :
  wf m h pm → inside p m → plain_read p → Packet.has_buffer h p d n → block d ≠ block pm →
  ∃ p' m' h', access p m h = Ok (p', m', h') ∧ response_of p p' ∧
    wf m' h' pm ∧ same_config m m' ∧ lockedAddrList m' = lockedAddrList m ∧
    (∀ i, 0 <= i < n → peek h' (block d) (offset d + i) = contents m h (Packet.addr p + i)) ∧
    (∀ b i, b ≠ block d ∨ ¬ offset d <= i < offset d + n → peek h' b i = peek h b i) ∧
    (∀ q k, in_bounds h' q k = in_bounds h q k).
Proof.
  intros Hwf Hin Hp Hb Hne. pose proof (plain_read_swap p Hp) as Hsw.
  destruct Hp as (Hrd & Hwr & Hll & Hcr & Hnr & Hmw & Hce).
  destruct (access_range p m h pm d n Hwf Hin Hb) as [Hsub Ha].
  pose proof (host_in_bounds p m h pm Hwf Hin) as Hhb.
  assert (Packet.size p = n) as Hsz by apply Hb.
  assert (0 < n) as Hn by (rewrite <-Hsz; apply Hin).
  unfold access. rewrite Hcr, Hce. destruct (Packet.getAddrRange p) as [r|]; [|done].
  simpl in Hsub |- *. rewrite Hsub. simpl. rewrite bool_decide_false by done. rewrite Hrd.
  unfold access_read. rewrite Hwr, Hll. simpl. rewrite Ha. simpl.
  rewrite (Packet.getSize_buffer _ _ _ _ Hb). simpl. rewrite (wf_pmem _ _ _ Hwf).
  destruct (Packet.setData_copied h (toHostAddr m pm (Packet.addr p)) p d n)
    as (h' & -> & Hc & Hbd); [done|done|by rewrite <-Hsz|by left|done|].
  simpl. rewrite Hnr, (makeResponse_Ok p Hnr). simpl.
  destruct (count_read_config p n m) as [Hcfg Hlk].
  eexists _, _, _. split; [done|]. split_and!; try done.
  - unfold response_of. by apply makeResponse_Ok.
  - eapply wf_config; [done|done|done|]. rewrite Hlk. apply Hwf.
  - intros i Hi. rewrite Hc, decide_True by (split; [done|]; lia). unfold contents.
    rewrite (wf_pmem _ _ _ Hwf). destruct Hin as [_ _ Hlo Hhi].
    rewrite decide_True by lia. simpl. f_equal. lia.
  - intros b i Hbi. rewrite Hc, decide_False; [done|]. naive_solver.
Qed.

Lemma Forall_filter_all {A} (P Q : A → Prop) `{∀ x, Decision (Q x)} (l : list A) :
  Forall P l → Forall P (base.filter Q l).
Proof. rewrite !Forall_forall. intros Hl x [_ Hx]%list_elem_of_filter. auto. Qed.

(** An ordinary write request. *)
Definition plain_write (p : Packet.t) : Prop :=
  Packet.isWrite p = true ∧ Packet.isRead p = false ∧ Packet.isLLSC p = false ∧
  Packet.cacheResponding p = false ∧ Packet.needsResponse p = true ∧
  Packet.isInvalidate p = false ∧ Packet.isClean p = false ∧
  Packet.isCleanEviction p = false ∧ Packet.wf_mask p ∧
  Request.hasPaddr (Packet.req p) = true ∧ Request.isInstFetch (Packet.req p) = false.

(** The 16-byte block a request reserves or writes. *)
Definition lock_block (p : Packet.t) : Z := lock_mask (Request._paddr (Packet.req p)).

Definition valid_ctx (l : LockedAddr) : Prop := l_contextId l ≠ Request.InvalidContextID.

Lemma erase_locks_spec r paddr l :
  Forall valid_ctx l →
  ∃ c, erase_locks r paddr l = Ok (base.filter (λ x, l_addr x ≠ paddr) l, c) ∧
    ∀ x, x ∈ c ↔ ∃ y, y ∈ l ∧ l_addr y = paddr ∧ l_contextId y = x ∧
      x ≠ (if Request.hasContextId r then Request._contextId r else Request.InvalidContextID).
Proof.
  induction 1 as [|y l Hy _ IH]; simpl.
  { exists []. split; [done|]. intros x. split; [by intros ?%not_elem_of_nil|].
    intros (z & Hz%not_elem_of_nil & _). done. }
  destruct IH as (c & Hc & Hx). rewrite Hc. unfold valid_ctx in Hy.
  destruct (Z.eqb_spec (l_addr y) paddr) as [Heq|Hne].
  - replace (l_contextId y =? Request.InvalidContextID) with false by lia. simpl.
    rewrite filter_cons_False by naive_solver. eexists. split; [done|]. intros x.
    destruct (Z.eqb_spec (l_contextId y) (if Request.hasContextId r then Request._contextId r
      else Request.InvalidContextID)) as [Hr|Hr].
    + rewrite Hx. setoid_rewrite elem_of_cons. naive_solver.
    + rewrite elem_of_cons, Hx. setoid_rewrite elem_of_cons. naive_solver.
  - simpl. rewrite filter_cons_True by done. eexists. split; [done|]. intros x. rewrite Hx.
    setoid_rewrite elem_of_cons. naive_solver.
Qed.

Lemma writeOK_plain p m h pm :
  wf m h pm → writeable m = true → Packet.isLLSC p = false →
  Request.hasPaddr (Packet.req p) = true →
  ∃ m', writeOK p m = Ok (true, p, m') ∧ same_config m m' ∧
    lockedAddrList m' = base.filter (λ x, l_addr x ≠ lock_block p) (lockedAddrList m).
Proof.
  intros Hwf Hw Hll Hpa. unfold writeOK. rewrite Hw, Hll. simpl. case_bool_decide as Hl.
  { exists m. rewrite Hl. done. }
  unfold checkLockedAddrList, Request.getPaddr. rewrite Hpa, Hll. simpl.
  destruct (erase_locks_spec (Packet.req p) (lock_block p) (lockedAddrList m)) as (c & Hc & _);
    [apply Hwf|].
  unfold lock_block in Hc. rewrite Hc. simpl. eexists. split; [done|]. done.
Qed.

(** The command of a write that reaches [writeOK] and needs a response. *)
Record write_command (p : Packet.t) : Prop := {
  wc_write : Packet.isWrite p = true;
  wc_read : Packet.isRead p = false;
  wc_cache : Packet.cacheResponding p = false;
  wc_response : Packet.needsResponse p = true;
  wc_invalidate : Packet.isInvalidate p = false;
  wc_clean : Packet.isClean p = false;
  wc_evict : Packet.isCleanEviction p = false;
}.

(** [access] on a write: up to [writeOK] (and when it refuses the store). *)
Lemma access_write_cmd p m h pm d n :
  wf m h pm → inside p m → write_command p → Packet.has_buffer h p d n →
  access p m h =
    ('(p, m, h) ← access_write p m h;
     if Packet.needsResponse p then p ← Packet.makeResponse p; Ok (p, m, h) else Ok (p, m, h)).
Proof.
  intros Hwf Hin [Hwr Hrd Hcr Hnr Hiv Hcl Hce] Hb.
  destruct (access_range p m h pm d n Hwf Hin Hb) as [Hsub Ha].
  unfold access. rewrite Hcr, Hce. destruct (Packet.getAddrRange p) as [r|]; [|done].
  simpl in Hsub |- *. rewrite Hsub. simpl. rewrite bool_decide_false.
  2:{ intros Hc. unfold Packet.isRead in Hrd. by rewrite Hc in Hrd. }
  by rewrite Hrd, Hiv, Hcl, Hwr.
Qed.

(** [access] on a write that [writeOK] allows stores exactly the enabled bytes.
    [writeOK] may have updated the request's extra data. *)
Lemma access_write_stores p r1 m m1 h pm d n :
  wf m h pm → inside p m → write_command p → Packet.has_buffer h p d n → block d ≠ block pm →
  writeOK p m = Ok (true, Packet.set_req r1 p, m1) → same_config m m1 →
  Forall valid_ctx (lockedAddrList m1) → Packet.wf_mask (Packet.set_req r1 p) →
  Request.isInstFetch r1 = false →
  ∃ p' m' h', access p m h = Ok (p', m', h') ∧ response_of (Packet.set_req r1 p) p' ∧
    wf m' h' pm ∧ same_config m m' ∧ lockedAddrList m' = lockedAddrList m1 ∧
    (∀ a, contents m' h' a =
       if decide (Packet.addr p <= a < Packet.addr p + n ∧
                  Packet.stored (Packet.set_req r1 p) (a - Packet.addr p))
       then peek h (block d) (offset d + (a - Packet.addr p)) else contents m h a) ∧
    (∀ b i, b ≠ block pm → peek h' b i = peek h b i) ∧
    (∀ q k, in_bounds h' q k = in_bounds h q k).
Proof.
  intros Hwf Hin Hcmd Hb Hne Hwo Hcfg1 Hlk1 Hm Hif.
  rewrite (access_write_cmd p m h pm d n) by done.
  destruct (access_range p m h pm d n Hwf Hin Hb) as [_ Ha].
  pose proof (host_in_bounds p m h pm Hwf Hin) as Hhb.
  assert (Packet.size p = n) as Hsz by apply Hb. rewrite Hsz in Hhb.
  set (p1 := Packet.set_req r1 p) in *.
  assert (Packet.has_buffer h p1 d n) as Hb1 by (destruct Hb; by constructor).
  assert (Packet.getAddr p1 = Ok (Packet.addr p)) as Ha1 by done.
  assert (Packet.needsResponse p1 = true) as Hnr by apply Hcmd.
  unfold access_write. rewrite Hwo, res_bind_Ok, Ha1, res_bind_Ok.
  rewrite (Packet.getSize_buffer _ _ _ _ Hb1), res_bind_Ok.
  pose proof Hcfg1 as (Hr1 & Hp1 & _). rewrite Hp1, (wf_pmem _ _ _ Hwf).
  assert (toHostAddr m1 pm (Packet.addr p) = toHostAddr m pm (Packet.addr p)) as ->
    by (unfold toHostAddr; by rewrite Hr1).
  destruct (Packet.writeData_copied h (toHostAddr m pm (Packet.addr p)) p1 d n)
    as (h' & -> & Hc & Hbd); [done|done|done|left; simpl; congruence|].
  rewrite res_bind_Ok. change (Packet.req p1) with r1. rewrite Hif. cbn [negb ensure].
  rewrite !res_bind_Ok, Hnr, (makeResponse_Ok p1 Hnr), res_bind_Ok.
  destruct (count_write_config p1 n m1) as [Hcfg Hlk].
  pose proof (same_config_trans _ _ _ Hcfg1 Hcfg) as Hcfg2.
  eexists _, _, _. split; [done|]. split_and!; try done.
  - unfold response_of. by apply makeResponse_Ok.
  - eapply wf_config; [done|done|done|]. by rewrite Hlk.
  - intros a. rewrite (contents_config _ _ _ _ Hcfg2). unfold contents.
    rewrite (wf_pmem _ _ _ Hwf). destruct Hin as [_ _ Hlo Hhi].
    destruct (decide (AddrRange._start (range m) <= a < AddrRange._end (range m))).
    + rewrite Hc. simpl.
      replace (offset pm + (a - AddrRange._start (range m)) -
        (offset pm + (Packet.addr p - AddrRange._start (range m)))) with (a - Packet.addr p) by lia.
      apply decide_ext. intuition lia.
    + rewrite decide_False; [done|]. lia.
  - intros b i Hbi. rewrite Hc, decide_False; [done|]. simpl. naive_solver.
Qed.

Lemma set_req_id p : Packet.set_req (Packet.req p) p = p.
Proof. by destruct p. Qed.

(** An ordinary write to a writeable memory stores exactly the enabled bytes of
    the packet, drops the reservations of its block, and changes nothing else. *)
Lemma access_plain_write p m h pm d n :
  wf m h pm → inside p m → plain_write p → writeable m = true →
  Packet.has_buffer h p d n → block d ≠ block pm →
  ∃ p' m' h', access p m h = Ok (p', m', h') ∧ response_of p p' ∧
    wf m' h' pm ∧ same_config m m' ∧
    lockedAddrList m' = base.filter (λ x, l_addr x ≠ lock_block p) (lockedAddrList m) ∧
    (∀ a, contents m' h' a =
       if decide (Packet.addr p <= a < Packet.addr p + n ∧ Packet.stored p (a - Packet.addr p))
       then peek h (block d) (offset d + (a - Packet.addr p)) else contents m h a) ∧
    (∀ b i, b ≠ block pm → peek h' b i = peek h b i) ∧
    (∀ q k, in_bounds h' q k = in_bounds h q k).
Proof.
  intros Hwf Hin Hp Hw Hb Hne.
  destruct Hp as (Hwr & Hrd & Hll & Hcr & Hnr & Hiv & Hcl & Hce & Hm & Hpa & Hif).
  destruct (writeOK_plain p m h pm Hwf Hw Hll Hpa) as (m1 & Hwo & Hcfg1 & Hl1).
  destruct (access_write_stores p (Packet.req p) m m1 h pm d n)
    as (p' & m' & h' & Hacc & Hrsp & Hwf' & Hcfg & Hlk & Hcon & Hfr & Hbd); rewrite ?set_req_id in *; try done.
  - rewrite Hl1. apply Forall_filter_all, Hwf.
  - exists p', m', h'. rewrite Hlk. split_and!; done.
Qed.

(** C8: memory is memory: a read that follows a write to the same range returns,
    byte by byte, what the write stored (its enabled bytes) or what was there
    before (its disabled ones); both requests become their responses. *)
Theorem access_write_read pw pr m h pm dw dr n :
  wf m h pm → writeable m = true → inside pw m → plain_write pw → plain_read pr →
  Packet.has_buffer h pw dw n → Packet.has_buffer h pr dr n →
  Packet.flag pr Packet.VALID_ADDR = true → Packet.addr pr = Packet.addr pw →
  block dw ≠ block pm → block dr ≠ block pm →
  ∃ pw' m1 h1 pr' m2 h2,
    access pw m h = Ok (pw', m1, h1) ∧ access pr m1 h1 = Ok (pr', m2, h2) ∧
    response_of pw pw' ∧ response_of pr pr' ∧
    ∀ i, 0 <= i < n →
      peek h2 (block dr) (offset dr + i) =
        if decide (Packet.stored pw i) then peek h (block dw) (offset dw + i)
        else contents m h (Packet.addr pw + i).
Proof.
  intros Hwf Hw Hin Hpw Hpr Hbw Hbr Hva Hadr Hdw Hdr.
  destruct (access_plain_write pw m h pm dw n)
    as (pw' & m1 & h1 & Ha1 & Hr1 & Hwf1 & Hcfg & _ & Hc1 & _ & Hbd1); [done..|].
  assert (Packet.size pw = n ∧ Packet.size pr = n) as [Hsw Hsr] by (split; [apply Hbw|apply Hbr]).
  assert (inside pr m1) as Hin1.
  { destruct Hin as [_ ? ? ?]. destruct Hcfg as (Hr & _).
    constructor; rewrite ?Hr, ?Hadr; [done|lia|lia|lia]. }
  assert (Packet.has_buffer h1 pr dr n) as Hbr1.
  { destruct Hbr. constructor; [done..|]. by rewrite Hbd1. }
  destruct (access_plain_read pr m1 h1 pm dr n)
    as (pr' & m2 & h2 & Ha2 & Hr2 & _ & _ & _ & Hc2 & _); [done..|].
  exists pw', m1, h1, pr', m2, h2. split_and!; try done.
  intros i Hi. rewrite Hc2 by done. rewrite Hadr, Hc1.
  replace (Packet.addr pw + i - Packet.addr pw) with i by lia.
  apply decide_ext. intuition lia.
Qed.

(** ** What [access] never changes *)

(** The packet keeps its address, space, size and data. *)
Definition same_target (p p' : Packet.t) : Prop :=
  Packet.addr p' = Packet.addr p ∧ Packet._isSecure p' = Packet._isSecure p ∧
  Packet.size p' = Packet.size p ∧ Packet.data p' = Packet.data p ∧
  Packet.senderState p' = Packet.senderState p ∧
  ∀ i, 0 <= i → i ≠ 1 → Packet.flag p' (2 ^ i) = Packet.flag p (2 ^ i).

Lemma same_target_set_req r p : same_target p (Packet.set_req r p).
Proof. done. Qed.

Lemma same_target_trans p1 p2 p3 : same_target p1 p2 → same_target p2 p3 → same_target p1 p3.
Proof.
  intros (H1 & H2 & H3 & H4 & H5 & H6) (K1 & K2 & K3 & K4 & K5 & K6).
  unfold same_target. split_and!; try congruence. intros i ? ?. by rewrite K6, H6.
Qed.

Lemma makeResponse_target p p' : Packet.makeResponse p = Ok p' → same_target p p'.
Proof.
  unfold Packet.makeResponse. intros H. inv_res H. unfold same_target. split_and!; try done.
  intros i Hi Hne. unfold Packet.flag. simpl. rewrite isSet_clear by done.
  change Packet.EXPRESS_SNOOP with (2 ^ 1). rewrite (Z.pow2_bits_false 1 i) by lia.
  by rewrite andb_true_r.
Qed.

Definition same_command (p p' : Packet.t) : Prop := same_target p p' ∧ Packet.cmd p' = Packet.cmd p.

Lemma writeOK_target p m b p' m' : writeOK p m = Ok (b, p', m') → same_command p p'.
Proof.
  unfold writeOK. destruct (negb (writeable m)); [by intros [= _ <- _]|].
  case_bool_decide; [destruct (Packet.isLLSC p); by intros [= _ <- _]|].
  unfold checkLockedAddrList. intros H0. apply bind_Ok in H0 as (a & _ & H0).
  apply bind_Ok in H0 as ([ok p1] & Hp1 & H0).
  assert (same_command p p1) as Ht.
  { destruct (Packet.isLLSC p); [|by injection Hp1 as _ <-].
    apply bind_Ok in Hp1 as (x & _ & Hp1). by injection Hp1 as _ <-. }
  destruct ok; [|by injection H0 as _ <- _].
  apply bind_Ok in H0 as ([l c] & _ & H0). by injection H0 as _ <- _.
Qed.

(** A packet that is not just dropped is turned into a response if it needs one. *)
Lemma access_cases p m h p' m' h' :
  access p m h = Ok (p', m', h') →
  (Packet.cacheResponding p = true ∨ Packet.isCleanEviction p = true) ∧ p' = p ∨
  ∃ p1, same_command p p1 ∧ (if Packet.needsResponse p1 then Packet.makeResponse p1 = Ok p' else p' = p1).
Proof.
  unfold access. destruct (Packet.cacheResponding p); [intros [= <- _ _]; auto|].
  destruct (Packet.isCleanEviction p); [intros [= <- _ _]; auto|]. intros H. right.
  apply bind_Ok in H as (r & _ & H). apply bind_Ok in H as (sub & _ & H).
  apply bind_Ok in H as ([] & _ & H). apply bind_Ok in H as ([[p1 m1] h1] & H1 & H). exists p1. split.
  - case_bool_decide; [apply bind_Ok in H1 as ([] & _ & H1); by injection H1 as <- _ _|].
    destruct (Packet.isRead p); [apply bind_Ok in H1 as ([] & _ & H1); by injection H1 as <- _ _|].
    destruct (Packet.isInvalidate p || Packet.isClean p);
      [apply bind_Ok in H1 as ([] & _ & H1); by injection H1 as <- _ _|].
    destruct (Packet.isWrite p); [|done]. unfold access_write in H1.
    apply bind_Ok in H1 as ([[ok p2] m2] & Hwo & H1). apply writeOK_target in Hwo.
    destruct ok; [|by injection H1 as <- _ _]. inv_res H1. done.
  - destruct (Packet.needsResponse p1); [|by injection H as <- _ _].
    apply bind_Ok in H as (p2 & Hmr & H). by injection H as <- _ _.
Qed.

Lemma access_target p m h p' m' h' : access p m h = Ok (p', m', h') → same_target p p'.
Proof.
  intros [[_ ->]|(p1 & [Ht _] & H)]%access_cases; [done|].
  destruct (Packet.needsResponse p1); [|by subst]. eapply same_target_trans; [done|]. by apply makeResponse_target.
Qed.

Lemma access_responds p m h p' m' h' :
  access p m h = Ok (p', m', h') → Packet.cacheResponding p = false → Packet.needsResponse p = true →
  Packet.isResponse p' = true.
Proof.
  intros Ha Hc Hn. apply access_cases in Ha as [[[?|Hce] _]|(p1 & [_ Hcmd] & H)]; [congruence| |].
  - unfold Packet.isCleanEviction, Packet.needsResponse in *. by destruct (Packet.cmd p).
  - unfold Packet.needsResponse in *. rewrite Hcmd, Hn in H. unfold Packet.makeResponse, Packet.isRequest in H. inv_res H.
    unfold Packet.needsResponse, Packet.isResponse in *. simpl in *. by destruct (Packet.cmd p1).
Qed.

(** ** Load locked and store conditional *)

(** The packet's context. *)
Definition ctx (p : Packet.t) : Z := Request._contextId (Packet.req p).

(** Context [c] holds a reservation of block [b]. *)
Definition reserved (m : t) (c b : Z) : Prop := mkLocked b c ∈ lockedAddrList m.

#[global] Instance reserved_dec m c b : Decision (reserved m c b).
Proof. unfold reserved. apply _. Defined.

Definition one_per_context (m : t) : Prop := NoDup (l_contextId <$> lockedAddrList m).

Record llsc_request (p : Packet.t) : Prop := {
  lr_paddr : Request.hasPaddr (Packet.req p) = true;
  lr_ctx : Request.hasContextId (Packet.req p) = true;
  lr_valid : ctx p ≠ Request.InvalidContextID;
}.

Lemma matchesContext_Ok l p :
  valid_ctx l → llsc_request p → matchesContext l (Packet.req p) = Ok (l_contextId l =? ctx p).
Proof.
  intros Hl [_ Hc _]. unfold matchesContext, Request.contextId, valid_ctx in *. rewrite Hc.
  replace (l_contextId l =? Request.InvalidContextID) with false by lia. done.
Qed.

Lemma has_lock_spec p b l :
  Forall valid_ctx l → llsc_request p →
  has_lock (Packet.req p) b l = Ok (bool_decide (mkLocked b (ctx p) ∈ l)).
Proof.
  intros Hl Hp. induction Hl as [|[a c] l Hx _ IH]; cbn [has_lock].
  { rewrite bool_decide_false; [done|by apply not_elem_of_nil]. }
  rewrite IH, (matchesContext_Ok _ p Hx Hp), res_bind_Ok. cbn [l_addr l_contextId].
  destruct (Z.eqb_spec a b) as [->|Hne].
  - destruct (Z.eqb_spec c (ctx p)) as [->|Hne].
    + rewrite bool_decide_true; [done|left].
    + f_equal. apply bool_decide_ext. rewrite elem_of_cons. naive_solver.
  - f_equal. apply bool_decide_ext. rewrite elem_of_cons. naive_solver.
Qed.

Lemma update_lock_spec p b l :
  Forall valid_ctx l → llsc_request p →
  ∃ o, update_lock (Packet.req p) b l = Ok o ∧
    match o with
    | None => ctx p ∉ l_contextId <$> l
    | Some l' => Forall valid_ctx l' ∧ mkLocked b (ctx p) ∈ l' ∧
        l_contextId <$> l' = l_contextId <$> l ∧
        (NoDup (l_contextId <$> l) → ∀ x, l_contextId x ≠ ctx p → x ∈ l' ↔ x ∈ l)
    end.
Proof.
  intros Hl Hp. induction Hl as [|x l Hx Hl IH]; simpl.
  { exists None. split; [done|by apply not_elem_of_nil]. }
  rewrite (matchesContext_Ok _ p Hx Hp). simpl.
  destruct (Z.eqb_spec (l_contextId x) (ctx p)) as [Heq|Hne].
  - eexists. split; [done|]. split_and!; [by constructor|rewrite Heq; left|done|].
    intros _ y Hy. rewrite !elem_of_cons. split; (intros [->|?]; [|auto]); simpl in Hy; congruence.
  - destruct IH as (o & -> & Ho). simpl. eexists. split; [done|]. destruct o as [l'|]; simpl.
    + destruct Ho as (Hv & Hin & Hmap & Hsame).
      split_and!; [by constructor|by right|by f_equal|].
      intros [_ Hnd]%NoDup_cons y Hy. rewrite !elem_of_cons, (Hsame Hnd y Hy). done.
    + rewrite not_elem_of_cons. split; [congruence|done].
Qed.

(** A load-locked leaves its context exactly one reservation, of its block, and
    the other contexts theirs. *)
Theorem trackLoadLocked_spec p m :
  Forall valid_ctx (lockedAddrList m) → one_per_context m → llsc_request p →
  ∃ m', trackLoadLocked p m = Ok m' ∧ same_config m m' ∧
    Forall valid_ctx (lockedAddrList m') ∧ one_per_context m' ∧
    reserved m' (ctx p) (lock_block p) ∧
    ∀ c b, c ≠ ctx p → reserved m' c b ↔ reserved m c b.
Proof.
  intros Hl Hnd Hp. unfold trackLoadLocked, Request.getPaddr. rewrite (lr_paddr _ Hp). simpl.
  destruct (update_lock_spec p (lock_block p) (lockedAddrList m) Hl Hp) as (o & Ho & Hspec).
  unfold lock_block in Ho at 1. rewrite Ho. simpl. destruct o as [l'|].
  - destruct Hspec as (Hv & Hin & Hmap & Hsame). eexists. split; [done|].
    split_and!; try done.
    + unfold one_per_context. simpl. by rewrite Hmap.
    + intros c b Hc. unfold reserved. simpl. by apply Hsame.
  - unfold Request.contextId. rewrite (lr_ctx _ Hp). simpl. eexists. split; [done|].
    split_and!; try done.
    + simpl. constructor; [apply Hp|done].
    + unfold one_per_context. simpl. by constructor.
    + unfold reserved. simpl. left.
    + intros c b Hc. unfold reserved. simpl. rewrite elem_of_cons.
      split; [|auto]. intros [[= -> ->]|?]; [|done]. by destruct Hc.
Qed.

(** A store conditional: a write with the LL/SC attribute. *)
Definition store_cond (p : Packet.t) : Prop :=
  Packet.cmd p = MemCmd.StoreCondReq ∧ Packet.cacheResponding p = false ∧
  Request.isInstFetch (Packet.req p) = false ∧ llsc_request p.

Lemma writeOK_cond p m h pm :
  wf m h pm → writeable m = true → store_cond p →
  let ok := bool_decide (reserved m (ctx p) (lock_block p)) in
  ∃ m', writeOK p m =
      Ok (ok, Packet.set_req (Request.setExtraData (if ok then 1 else 0) (Packet.req p)) p, m') ∧
    same_config m m' ∧ Forall valid_ctx (lockedAddrList m') ∧
    lockedAddrList m' = if ok then base.filter (λ x, l_addr x ≠ lock_block p) (lockedAddrList m)
                        else lockedAddrList m.
Proof.
  intros Hwf Hw (Hc & _ & _ & Hlr) ok. unfold writeOK. rewrite Hw.
  assert (Packet.isLLSC p = true) as Hll by (unfold Packet.isLLSC; by rewrite Hc).
  rewrite Hll. simpl. pose proof (wf_locks _ _ _ Hwf) as Hlk. case_bool_decide as Hl.
  { assert (ok = false) as ->.
    { apply bool_decide_false. unfold reserved. rewrite Hl. apply not_elem_of_nil. }
    exists m. done. }
  unfold checkLockedAddrList, Request.getPaddr. rewrite (lr_paddr _ Hlr), Hll. simpl.
  assert (has_lock (Packet.req p) (lock_mask (Request._paddr (Packet.req p))) (lockedAddrList m)
          = Ok ok) as -> by by apply has_lock_spec.
  simpl. destruct ok; [|by exists m].
  destruct (erase_locks_spec (Packet.req p) (lock_block p) (lockedAddrList m) Hlk) as (c & He & _).
  unfold lock_block in He at 1. rewrite He. simpl. eexists. split; [done|]. split_and!; try done.
  simpl. by apply Forall_filter_all.
Qed.

(** C26: a store conditional succeeds exactly when its context still holds a
    reservation of its 16-byte block.  It then stores its data, reports 1 and
    ends every context's reservation of the block; otherwise it reports 0 and
    changes neither the memory nor any reservation. *)
Theorem store_conditional_spec p m h pm d n :
  wf m h pm → inside p m → store_cond p → writeable m = true →
  Packet.has_buffer h p d n → block d ≠ block pm →
  ∃ p' m' h', access p m h = Ok (p', m', h') ∧ wf m' h' pm ∧
    Packet.cmd p' = MemCmd.StoreCondResp ∧
    if decide (reserved m (ctx p) (lock_block p)) then
      Request._extraData (Packet.req p') = 1 ∧ (∀ c, ¬ reserved m' c (lock_block p)) ∧
      (∀ a, contents m' h' a =
         if decide (Packet.addr p <= a < Packet.addr p + n)
         then peek h (block d) (offset d + (a - Packet.addr p)) else contents m h a)
    else
      Request._extraData (Packet.req p') = 0 ∧ lockedAddrList m' = lockedAddrList m ∧
      (∀ a, contents m' h' a = contents m h a).
Proof.
  intros Hwf Hin Hsc Hw Hb Hne.
  destruct (writeOK_cond p m h pm Hwf Hw Hsc) as (m1 & Hwo & Hcfg1 & Hv1 & Hl1).
  pose proof Hsc as (Hc & Hcr & Hif & Hlr).
  assert (write_command p) as Hcmd by (destruct p; simpl in *; subst; by constructor).
  assert (∀ r, Packet.isMaskedWrite (Packet.set_req r p) = false) as Hmask.
  { intros r. unfold Packet.isMaskedWrite. simpl. by rewrite Hc. }
  case_decide as Hr.
  - rewrite bool_decide_true in Hwo, Hl1 by done.
    destruct (access_write_stores p (Request.setExtraData 1 (Packet.req p)) m m1 h pm d n)
      as (p' & m' & h' & Hacc & Hrsp & Hwf' & Hcfg & Hlk & Hcon & _); try done.
    { intros Hx. by rewrite Hmask in Hx. }
    unfold response_of in Hrsp. rewrite makeResponse_Ok in Hrsp by apply Hcmd.
    injection Hrsp as <-. eexists _, m', h'. split_and!; try done.
    + simpl. by rewrite Hc.
    + intros c Hin'. unfold reserved in Hin'. rewrite Hlk, Hl1 in Hin'.
      by apply list_elem_of_filter in Hin' as [? _].
    + intros a. rewrite Hcon. apply decide_ext. unfold Packet.stored. rewrite Hmask. intuition done.
  - rewrite bool_decide_false in Hwo, Hl1 by done.
    rewrite (access_write_cmd p m h pm d n) by done. unfold access_write. rewrite Hwo. simpl.
    rewrite makeResponse_Ok by apply Hcmd.
    replace (Packet.needsResponse (Packet.set_req _ p)) with true by (symmetry; apply Hcmd).
    simpl. eexists _, m1, h. split; [done|]. split_and!; try done.
    + eapply wf_config; [done|done|done|]. done.
    + simpl. by rewrite Hc.
    + intros a. by apply contents_config.
Qed.

(** ** A small memory *)

Definition demo_heap : hmem :=
  <[1%positive := replicate 256 0]>
  (<[2%positive := [1; 2; 3; 4; 5; 6; 7; 8]]> (<[3%positive := replicate 8 0]> ∅)).

Definition demo : t :=
  mk (AddrRange.plain 0x1000 0x1100) (Some (Ptr 1 0)) (Some (Ptr 1 0)) true true
     [mkLocked 0x1010 1; mkLocked 0x1010 2] no_stats [].

Definition demo_pkt (c : MemCmd.Command) (a : Z) (b : positive) : Packet.t :=
  Packet.mk (Z.lor Packet.VALID_ADDR (Z.lor Packet.VALID_SIZE Packet.STATIC_DATA)) c
    (Request.setContext 1 (Request.create_phys 0 a 8 0 1)) (Some (Ptr b 0)) a false 8 []
    0 Packet.NO_FAIL 0 0 0 0 [].

Lemma demo_mem_wf : wf demo demo_heap (Ptr 1 0).
Proof.
  constructor; simpl; try done.
  constructor; [discriminate|]. constructor; [discriminate|constructor].
Qed.

Lemma demo_inside c a b : 0x1000 <= a <= 0x10f8 → inside (demo_pkt c a b) demo.
Proof. intros Ha. constructor; simpl; [done|lia..]. Qed.

Lemma demo_buffer c a b :
  in_bounds demo_heap (Ptr b 0) 8 = true → Packet.has_buffer demo_heap (demo_pkt c a b) (Ptr b 0) 8.
Proof. intros Hb. constructor; done. Qed.

Lemma demo_plain_write a : plain_write (demo_pkt MemCmd.WriteReq a 2).
Proof. unfold plain_write. split_and!; done. Qed.

Lemma demo_plain_read a : plain_read (demo_pkt MemCmd.ReadReq a 3).
Proof. unfold plain_read. split_and!; done. Qed.

Lemma access_write_read_witness :
  ∃ pw m1 h1 pr m2 h2,
    access (demo_pkt MemCmd.WriteReq 0x1020 2) demo demo_heap = Ok (pw, m1, h1) ∧
    access (demo_pkt MemCmd.ReadReq 0x1020 3) m1 h1 = Ok (pr, m2, h2) ∧
    peek h2 3 5 = Some 6.
Proof.
  destruct (access_write_read (demo_pkt MemCmd.WriteReq 0x1020 2)
    (demo_pkt MemCmd.ReadReq 0x1020 3) demo demo_heap (Ptr 1 0) (Ptr 2 0) (Ptr 3 0) 8)
    as (pw & m1 & h1 & pr & m2 & h2 & H1 & H2 & _ & _ & H3).
  - apply demo_mem_wf.
  - reflexivity.
  - apply demo_inside. lia.
  - apply demo_plain_write.
  - apply demo_plain_read.
  - apply demo_buffer. reflexivity.
  - apply demo_buffer. reflexivity.
  - reflexivity.
  - reflexivity.
  - discriminate.
  - discriminate.
  - exists pw, m1, h1, pr, m2, h2. split; [exact H1|]. split; [exact H2|].
    specialize (H3 5 ltac:(lia)). etransitivity; [exact H3|reflexivity].
Defined.

Lemma store_conditional_witness :
  ∃ p' m' h', access (demo_pkt MemCmd.StoreCondReq 0x1018 2) demo demo_heap = Ok (p', m', h') ∧
    Request._extraData (Packet.req p') = 1.
Proof.
  destruct (store_conditional_spec (demo_pkt MemCmd.StoreCondReq 0x1018 2) demo demo_heap
    (Ptr 1 0) (Ptr 2 0) 8) as (p' & m' & h' & H & _ & _ & Hif).
  - apply demo_mem_wf.
  - apply demo_inside. lia.
  - unfold store_cond. split_and!; done.
  - reflexivity.
  - apply demo_buffer. reflexivity.
  - discriminate.
  - exists p', m', h'. split; [exact H|].
    destruct (decide _) as [_|Hn]; [exact (proj1 Hif)|].
    exfalso. apply Hn. unfold reserved. vm_compute. left.
Defined.

Lemma trackLoadLocked_witness :
  ∃ m', trackLoadLocked (demo_pkt MemCmd.LoadLockedReq 0x1048 3) demo = Ok m' ∧
    reserved m' 1 0x1040.
Proof.
  destruct (trackLoadLocked_spec (demo_pkt MemCmd.LoadLockedReq 0x1048 3) demo)
    as (m' & H & _ & _ & _ & Hr & _).
  - apply demo_mem_wf.
  - unfold one_per_context. vm_compute. repeat constructor; set_solver.
  - constructor; [done|done|discriminate].
  - exists m'. split; [exact H|exact Hr].
Defined.

(** ** Limits of the reservation tracking *)

(** A write only ends the reservations of the block its first byte is in: a
    wider write (such as the 64-byte chunks of a DMA transfer) leaves the
    reservations of the other blocks it overwrites, and a later store
    conditional to them succeeds. *)
Lemma wide_write_keeps_reservation :
  let p := Packet.mk (Z.lor Packet.VALID_ADDR (Z.lor Packet.VALID_SIZE Packet.STATIC_DATA))
    MemCmd.WriteReq (Request.create_phys 0 0x1000 64 0 9) (Some (Ptr 4 0)) 0x1000 false 64 []
    0 Packet.NO_FAIL 0 0 0 0 [] in
  ∃ m' p' h', access p demo (<[4%positive := replicate 64 9]> demo_heap) = Ok (p', m', h') ∧
    contents m' h' 0x1010 = Some 9 ∧ reserved m' 1 0x1010.
Proof.
  eexists _, _, _. split; [vm_compute; reflexivity|]. split; [reflexivity|].
  unfold reserved. simpl. left.
Qed.

(** A swap stores into a memory that is not writeable. *)
Lemma swap_ignores_writeable :
  let m := mk (AddrRange.plain 0x1000 0x1100) (Some (Ptr 1 0)) None false false [] no_stats [] in
  ∃ p' m' h', access (demo_pkt MemCmd.SwapReq 0x1000 2) m demo_heap = Ok (p', m', h') ∧
    contents m demo_heap 0x1000 = Some 0 ∧ contents m' h' 0x1000 = Some 1.
Proof. eexists _, _, _. split; [vm_compute; reflexivity|]. split; reflexivity. Qed.

End AbstractMemory.
