(* ===== verification/MemInterface.v ===== *)
(** What a component that answers atomic accesses promises to its requestors:
    the interface between the memories ([SimpleMem], [Spm]), the crossbar that
    combines them ([XBar]) and the DMA engine that uses them ([Dma], [Idma]). *)

From S2P Require Import Prelude AddrRange ChunkGen Host Request MemCmd Packet AbstractMem.
Import Host ChunkGenerator(in_block).

(** What does not change of a memory: its range, or the decoder of a crossbar and
    the memories behind it. *)
Inductive shape :=
  | Leaf (r : AddrRange.t)
  | Node (ports : list (AddrRange.t * Z)) (parts : list shape).

(** A component whose state is [M] and that is a memory to its requestors. *)
Class ByteMemory (M : Type) := {
  (** [recvAtomic(pkt)], with the random part of the latency as an argument;
      returns the packet (now a response), and the latency. *)
  recvAtomic : Z → Packet.t → M → hmem → res (Packet.t * M * hmem * Z);
  (** The byte at a guest address. *)
  contents : M → hmem → Z → option Z;
  (** The simulator buffers the memory is backed by. *)
  owns : M → positive → Prop;
  (** The accesses (address, size) it serves. *)
  accepts : M → Z → Z → Prop;
  layout : M → shape;
  inv : M → hmem → Prop;

  (** Another state of the same memory. *)
  same_memory (m m' : M) : Prop :=
    (∀ b, owns m' b ↔ owns m b) ∧ (∀ a n, accepts m' a n ↔ accepts m a n) ∧ layout m' = layout m;

  (** The state only depends on the buffers it owns. *)
  memory_frame m h h' :
    inv m h → (∀ b i, owns m b → peek h' b i = peek h b i) →
    (∀ q n, owns m (block q) → in_bounds h' q n = in_bounds h q n) →
    inv m h' ∧ ∀ a, contents m h' a = contents m h a;

  (** Reading fills the packet's buffer and changes nothing else. *)
  memory_read j p m h d n :
    inv m h → AbstractMemory.plain_read p → Packet.flag p Packet.VALID_ADDR = true →
    Packet.has_buffer h p d n → 0 < n → ¬ owns m (block d) → accepts m (Packet.addr p) n →
    ∃ p' m' h' lat, recvAtomic j p m h = Ok (p', m', h', lat) ∧
      Packet.answers p p' ∧ inv m' h' ∧ same_memory m m' ∧
      (∀ i, 0 <= i < n → peek h' (block d) (offset d + i) = contents m h (Packet.addr p + i)) ∧
      (∀ a, contents m' h' a = contents m h a) ∧
      (∀ b i, b ≠ block d ∨ ¬ offset d <= i < offset d + n → peek h' b i = peek h b i) ∧
      (∀ q k, in_bounds h' q k = in_bounds h q k);

  (** Writing stores the packet's bytes and changes nothing else. *)
  memory_write j p m h d n :
    inv m h → AbstractMemory.plain_write p → Packet.isMaskedWrite p = false →
    Packet.flag p Packet.VALID_ADDR = true →
    Packet.has_buffer h p d n → 0 < n → ¬ owns m (block d) → accepts m (Packet.addr p) n →
    ∃ p' m' h' lat, recvAtomic j p m h = Ok (p', m', h', lat) ∧
      Packet.answers p p' ∧ inv m' h' ∧ same_memory m m' ∧
      (∀ a, contents m' h' a =
         if decide (Packet.addr p <= a < Packet.addr p + n)
         then peek h (block d) (offset d + (a - Packet.addr p)) else contents m h a) ∧
      (∀ b i, ¬ owns m b → peek h' b i = peek h b i) ∧
      (∀ q k, in_bounds h' q k = in_bounds h q k);
}.

Lemma same_memory_refl `{ByteMemory M} m : same_memory m m.
Proof. done. Qed.

Lemma same_memory_trans `{ByteMemory M} m1 m2 m3 :
  same_memory m1 m2 → same_memory m2 m3 → same_memory m1 m3.
Proof. intros (H1 & H2 & H3) (H4 & H5 & H6). split_and!; intros; [by rewrite H4|by rewrite H5|congruence]. Qed.

Lemma same_memory_sym `{ByteMemory M} m1 m2 : same_memory m1 m2 → same_memory m2 m1.
Proof. intros (H1 & H2 & H3). split_and!; intros; [by rewrite H1|by rewrite H2|done]. Qed.

(** Memories of two kinds, as one kind. *)
Section Sum.
Context {A B : Type} `{!ByteMemory A, !ByteMemory B}.

Definition sum_recvAtomic (j : Z) (p : Packet.t) (m : A + B) (h : hmem)
    : res (Packet.t * (A + B) * hmem * Z) :=
  match m with
  | inl a => '(p, a, h, lat) ← recvAtomic j p a h; Ok (p, inl a, h, lat)
  | inr b => '(p, b, h, lat) ← recvAtomic j p b h; Ok (p, inr b, h, lat)
  end.

#[global] Program Instance sum_memory : ByteMemory (A + B) := {
  recvAtomic := sum_recvAtomic;
  contents m h := match m with inl a => contents a h | inr b => contents b h end;
  owns m := match m with inl a => owns a | inr b => owns b end;
  accepts m := match m with inl a => accepts a | inr b => accepts b end;
  layout m := match m with inl a => layout a | inr b => layout b end;
  inv m h := match m with inl a => inv a h | inr b => inv b h end;
}.
Next Obligation. intros [m|m] h h' ? ? ?; by apply memory_frame. Qed.
Next Obligation.
  intros j p [m|m] h d n ? ? ? ? ? ? ?;
    destruct (memory_read j p m h d n) as (p' & m' & h' & lat & Hr & ? & ? & [? ?] & ?); try done.
  - exists p', (inl m'), h', lat. cbn. by rewrite Hr.
  - exists p', (inr m'), h', lat. cbn. by rewrite Hr.
Qed.
Next Obligation.
  intros j p [m|m] h d n ? ? ? ? ? ? ? ?;
    destruct (memory_write j p m h d n) as (p' & m' & h' & lat & Hr & ? & ? & [? ?] & ?); try done.
  - exists p', (inl m'), h', lat. cbn. by rewrite Hr.
  - exists p', (inr m'), h', lat. cbn. by rewrite Hr.
Qed.

End Sum.

(** ** Transfers in pieces *)

Section Transfer.
Context {M : Type} `{!ByteMemory M}.

(** What a memory must serve for a transfer of [size] bytes at [a]: each piece
    of it inside a block. *)
Definition serves (m : M) (k a size : Z) : Prop :=
  ∀ z n, 0 <= z → 0 < n → z + n <= size → in_block (2 ^ k) (a + z, n) → accepts m (a + z) n.

Lemma serves_same m m' k a size : same_memory m m' → serves m k a size → serves m' k a size.
Proof. intros (_ & Ha & _) Hs z n ? ? ? ?. apply Ha. by apply Hs. Qed.

(** The state of memory and heap after [z] bytes of a read into [d]. *)
Record read_inv (m0 : M) (h0 : hmem) (d : ptr) (a z : Z) (m : M) (h : hmem) : Prop := {
  rd_inv : inv m h;
  rd_same : same_memory m0 m;
  rd_contents x : contents m h x = contents m0 h0 x;
  rd_bounds q n : in_bounds h q n = in_bounds h0 q n;
  rd_buffer i : 0 <= i < z → peek h (block d) (offset d + i) = contents m0 h0 (a + i);
  rd_frame b i : b ≠ block d ∨ ¬ offset d <= i < offset d + z → peek h b i = peek h0 b i;
}.

(** The state of memory and heap after [z] bytes of a write from [d]. *)
Record write_inv (m0 : M) (h0 : hmem) (d : ptr) (a z : Z) (m : M) (h : hmem) : Prop := {
  wr_inv : inv m h;
  wr_same : same_memory m0 m;
  wr_contents x : contents m h x =
    if decide (a <= x < a + z) then peek h0 (block d) (offset d + (x - a)) else contents m0 h0 x;
  wr_bounds q n : in_bounds h q n = in_bounds h0 q n;
  wr_frame b i : ¬ owns m0 b → peek h b i = peek h0 b i;
}.

(** Reading or writing a further piece extends the invariant to it. *)
Lemma read_inv_extend m0 h0 d a z n m h m' h' :
  read_inv m0 h0 d a z m h → 0 <= z → 0 < n → inv m' h' → same_memory m m' →
  (∀ i, 0 <= i < n → peek h' (block d) (offset d + z + i) = contents m h (a + z + i)) →
  (∀ x, contents m' h' x = contents m h x) →
  (∀ b i, b ≠ block d ∨ ¬ offset d + z <= i < offset d + z + n → peek h' b i = peek h b i) →
  (∀ q k, in_bounds h' q k = in_bounds h q k) →
  read_inv m0 h0 d a (z + n) m' h'.
Proof.
  intros [Hi Hs Hc Hbd Hbuf Hfr] Hz Hn Hi' Hs' Hbuf' Hc' Hfr' Hbd'. constructor; try done.
  - by eapply same_memory_trans.
  - intros x. by rewrite Hc'.
  - intros q l. by rewrite Hbd'.
  - intros y Hy. destruct (Z_lt_le_dec y z).
    + rewrite Hfr' by (right; lia). apply Hbuf. lia.
    + replace (offset d + y) with (offset d + z + (y - z)) by lia.
      rewrite Hbuf', Hc by lia. f_equal. lia.
  - intros b y Hy. rewrite Hfr' by (destruct Hy; [by left|right; lia]).
    apply Hfr. destruct Hy; [by left|right; lia].
Qed.

Lemma write_inv_extend m0 h0 d a z n m h m' h' :
  ¬ owns m0 (block d) → write_inv m0 h0 d a z m h → 0 <= z → 0 < n → inv m' h' → same_memory m m' →
  (∀ x, contents m' h' x =
     if decide (a + z <= x < a + z + n) then peek h (block d) (offset d + z + (x - (a + z)))
     else contents m h x) →
  (∀ b i, ¬ owns m b → peek h' b i = peek h b i) →
  (∀ q k, in_bounds h' q k = in_bounds h q k) →
  write_inv m0 h0 d a (z + n) m' h'.
Proof.
  intros Ho [Hi Hs Hc Hbd Hfr] Hz Hn Hi' Hs' Hc' Hfr' Hbd'. constructor; try done.
  - by eapply same_memory_trans.
  - intros x. rewrite Hc'. case_decide as Hx.
    + rewrite decide_True by lia. rewrite Hfr by done. f_equal. lia.
    + rewrite Hc. apply decide_ext. lia.
  - intros q l. by rewrite Hbd'.
  - intros b y Hy. rewrite Hfr' by by rewrite (proj1 Hs). by apply Hfr.
Qed.

End Transfer.
