(* ===== verification/XBar.v ===== *)
(** The crossbar between the DMA engine, the memories and the processors:
    [BaseXBar] of [mem/xbar.{hh,cc}] (address decoding, range announcements,
    packet timing) and [NoncoherentXBar] of [mem/noncoherent_xbar.cc]. *)

From S2P Require Import Prelude Bits AddrRange AddrRangeMap Host Request MemCmd Packet PacketQueue.
From S2P Require Import Clocked XBarLayer AbstractMem MemInterface.
Import Host.

Module XBar.

Definition InvalidPortID : Z := -1.

(** The constants of a crossbar: its latencies in cycles, its width in bytes, its
    default port, the period of its clock and the ticks of a microsecond. *)
Record Config := mkConfig {
  frontendLatency : Z;
  forwardLatency : Z;
  responseLatency : Z;
  width : Z;
  useDefaultRange : bool;
  defaultPortID : Z;
  clockPeriod : Z;
  us : Z;
}.

(** [routeTo] maps the address of a request object to the id of its source. *)
Record t := mk {
  cfg : Config;
  portMap : AddrRangeMap.t Z;
  routeTo : gmap positive Z;
  xbarRanges : list AddrRange.t;
  defaultRange : AddrRange.t;
  gotAddrRanges : list bool;
  gotAllAddrRanges : bool;
  clock : Clocked.t;
  reqLayers : list Layer.t;
  respLayers : list Layer.t;
  cpuSidePorts : list PacketQueue.t;
}.

(** [NoncoherentXBar(p)]: ports and layers for [mem] memory-side ports, a default
    port if [dflt], and [cpu] CPU-side ports. *)
Definition create (frontend forward response width : Z) (use_default : bool) (period us : Z)
    (mem : nat) (dflt : bool) (cpu : nat) : t :=
  let n := (if dflt then mem + 1 else mem)%nat in
  mk (mkConfig frontend forward response width use_default
        (if dflt then Z.of_nat mem else InvalidPortID) period us)
     (AddrRangeMap.mk [] []) ∅ [] AddrRange.invalid (replicate n false) false Clocked.create
     (replicate n Layer.create) (replicate cpu Layer.create)
     (replicate cpu (PacketQueue.create false false)).

Definition set_portMap (m : AddrRangeMap.t Z) (s : t) : t :=
  mk (cfg s) m (routeTo s) (xbarRanges s) (defaultRange s) (gotAddrRanges s) (gotAllAddrRanges s)
     (clock s) (reqLayers s) (respLayers s) (cpuSidePorts s).

Definition set_routeTo (m : gmap positive Z) (s : t) : t :=
  mk (cfg s) (portMap s) m (xbarRanges s) (defaultRange s) (gotAddrRanges s) (gotAllAddrRanges s)
     (clock s) (reqLayers s) (respLayers s) (cpuSidePorts s).

Definition set_ranges (xr : list AddrRange.t) (d : AddrRange.t) (s : t) : t :=
  mk (cfg s) (portMap s) (routeTo s) xr d (gotAddrRanges s) (gotAllAddrRanges s)
     (clock s) (reqLayers s) (respLayers s) (cpuSidePorts s).

Definition set_got (g : list bool) (all : bool) (s : t) : t :=
  mk (cfg s) (portMap s) (routeTo s) (xbarRanges s) (defaultRange s) g all
     (clock s) (reqLayers s) (respLayers s) (cpuSidePorts s).

Definition set_clock (c : Clocked.t) (s : t) : t :=
  mk (cfg s) (portMap s) (routeTo s) (xbarRanges s) (defaultRange s) (gotAddrRanges s)
     (gotAllAddrRanges s) c (reqLayers s) (respLayers s) (cpuSidePorts s).

Definition set_reqLayers (l : list Layer.t) (s : t) : t :=
  mk (cfg s) (portMap s) (routeTo s) (xbarRanges s) (defaultRange s) (gotAddrRanges s)
     (gotAllAddrRanges s) (clock s) l (respLayers s) (cpuSidePorts s).

Definition set_respLayers (l : list Layer.t) (s : t) : t :=
  mk (cfg s) (portMap s) (routeTo s) (xbarRanges s) (defaultRange s) (gotAddrRanges s)
     (gotAllAddrRanges s) (clock s) (reqLayers s) l (cpuSidePorts s).

Definition set_cpuSidePorts (l : list PacketQueue.t) (s : t) : t :=
  mk (cfg s) (portMap s) (routeTo s) (xbarRanges s) (defaultRange s) (gotAddrRanges s)
     (gotAllAddrRanges s) (clock s) (reqLayers s) (respLayers s) l.

(** Indexing a [std::vector] with a port id, undefined out of range. *)
Definition at_port {A} (l : list A) (id : Z) : res A :=
  defined! (0 <=? id);
  match l !! Z.to_nat id with Some x => Ok x | None => Fail UndefinedBehaviour end.

Definition put_at {A} (id : Z) (x : A) (l : list A) : list A := <[Z.to_nat id := x]> l.

(** ** Address decoding *)

(** [findPort(addr_range)], with the three-entry cache of [portMap]. *)
Definition findPort (r : AddrRange.t) (s : t) : res (Z * t) :=
  assert! (gotAllAddrRanges s);
  '(o, m) ← AddrRangeMap.contains_range 3 r (portMap s);
  let s := set_portMap m s in
  match o with
  | Some i => Ok (i.2, s)
  | None =>
      if useDefaultRange (cfg s) then
        b ← AddrRange.isSubset r (defaultRange s);
        if b : bool then Ok (defaultPortID (cfg s), s) else Fail FatalFailure
      else if negb (defaultPortID (cfg s) =? InvalidPortID) then Ok (defaultPortID (cfg s), s)
      else Fail FatalFailure
  end.

Definition findPort_pkt (p : Packet.t) (s : t) : res (Z * t) :=
  r ← Packet.getAddrRange p; findPort r s.

(** The loop that erases the entries of a port. *)
Definition erase_port (id : Z) (m : AddrRangeMap.t Z) : AddrRangeMap.t Z :=
  foldl (λ m e, if e.2 =? id then AddrRangeMap.erase e.1 m else m) m (AddrRangeMap.tree m).

(** The loop that adds the ranges of a port. *)
Fixpoint add_ranges (id : Z) (ranges : list AddrRange.t) (m : AddrRangeMap.t Z)
    : res (AddrRangeMap.t Z) :=
  match ranges with
  | [] => Ok m
  | r :: ranges =>
      '(b, m) ← AddrRangeMap.insert 3 r id m;
      fatal_unless! b;
      add_ranges id ranges m
  end.

(** A range that is not part of the default range is passed on. *)
Definition keep (r : AddrRange.t) (s : t) (xr : list AddrRange.t) : res (list AddrRange.t) :=
  b ← (if useDefaultRange (cfg s) then AddrRange.isSubset r (defaultRange s) else Ok false);
  Ok (if b : bool then xr else xr ++ [r]).

(** Merge the interleaved ranges collected so far, if any. *)
Definition flush (intlv : list AddrRange.t) (s : t) (xr : list AddrRange.t)
    : res (list AddrRange.t) :=
  match intlv with
  | [] => Ok xr
  | _ => merged ← AddrRange.merge intlv; keep merged s xr
  end.

Fixpoint aggregate (l : list (AddrRange.t * Z)) (intlv : list AddrRange.t) (s : t)
    (xr : list AddrRange.t) : res (list AddrRange.t) :=
  match l with
  | [] => flush intlv s xr
  | (r, _) :: l =>
      if AddrRange.interleaved r then
        match last intlv with
        | Some b =>
            if AddrRange.mergesWith b r then aggregate l (intlv ++ [r]) s xr
            else xr ← flush intlv s xr; aggregate l [r] s xr
        | None => aggregate l [r] s xr
        end
      else xr ← keep r s xr; aggregate l intlv s xr
  end.

(** No range may overlap the default range without being part of it. *)
Fixpoint check_default (d : AddrRange.t) (xr : list AddrRange.t) : res unit :=
  match xr with
  | [] => Ok tt
  | r :: xr =>
      i ← AddrRange.intersects r d;
      _ ← (if i : bool then b ← AddrRange.isSubset r d; ensure FatalFailure b else Ok tt);
      check_default d xr
  end.

(** The part of [recvRangeChange] that tells the ranges of the crossbar to its
    CPU side, once all ports have announced theirs. *)
Definition announce (s : t) : res t :=
  xr ← (if useDefaultRange (cfg s) then
          got ← at_port (gotAddrRanges s) (defaultPortID (cfg s));
          fatal_unless! got;
          Ok [defaultRange s]
        else Ok []);
  xr ← aggregate (AddrRangeMap.tree (portMap s)) [] s xr;
  _ ← (if useDefaultRange (cfg s) then check_default (defaultRange s) xr else Ok tt);
  Ok (set_ranges xr (defaultRange s) s).

(** [recvRangeChange(id)], where [ranges] is what the peer of the memory-side
    port answers to [getAddrRanges()]. *)
Definition recvRangeChange (id : Z) (ranges : list AddrRange.t) (s : t) : res t :=
  _ ← at_port (gotAddrRanges s) id;
  let got := put_at id true (gotAddrRanges s) in
  let s := set_got got (gotAllAddrRanges s || forallb (λ b, b) got) s in
  s ← (if id =? defaultPortID (cfg s) then
         if useDefaultRange (cfg s) then
           match ranges with
           | [r] => Ok (set_ranges (xbarRanges s) r s)
           | _ => Fail FatalFailure
           end
         else Ok s
       else
         m ← add_ranges id ranges (erase_port id (portMap s));
         Ok (set_portMap m s));
  if gotAllAddrRanges s then announce s else Ok s.

Definition getAddrRanges (s : t) : res (list AddrRange.t) :=
  assert! (gotAllAddrRanges s); Ok (xbarRanges s).

(** ** Packets in timing mode *)

(** [clockEdge(Cycles(n))] of the crossbar. *)
Definition clockEdge (now n : Z) (s : t) : res (Z * t) :=
  '(e, c) ← Clocked.clockEdge now (clockPeriod (cfg s)) n (clock s);
  Ok (e, set_clock c s).

Definition calcPacketTiming (now header_delay : Z) (p : Packet.t) (s : t) : res (Packet.t * t) :=
  '(edge, s) ← clockEdge now 0 s;
  let offset := u64 (edge - now) in
  let header := u32 (Packet.headerDelay p + u64 (offset + header_delay)) in
  panic_unless! (header <=? us (cfg s));
  payload ← (if Packet.hasData p then
               n ← Packet.getSize p;
               defined! (negb (width (cfg s) =? 0));
               Ok (u32 (Z.max (Packet.payloadDelay p)
                     (u64 (u32 (n + width (cfg s) - 1) / width (cfg s) * clockPeriod (cfg s)))))
             else Ok (Packet.payloadDelay p));
  Ok (Packet.set_delays header payload p, s).

(** [recvTimingReq] once the layer [l] of port [id] is free: [rq] is the address
    of [pkt->req], and [accepted] the answer of the memory-side peer. *)
Definition offer (now : Z) (rq : positive) (p : Packet.t) (src id : Z) (l : Layer.t) (accepted : bool)
    (s : t) : res (bool * Packet.t * t) :=
  let old_header_delay := Packet.headerDelay p in
  let xbar_delay :=
    u64 (u64 (frontendLatency (cfg s) + forwardLatency (cfg s)) * clockPeriod (cfg s)) in
  '(p, s) ← calcPacketTiming now xbar_delay p s;
  '(next, s) ← clockEdge now 1 s;
  let packetFinishTime := u64 (next + Packet.payloadDelay p) in
  let expect_response := Packet.needsResponse p && negb (Packet.cacheResponding p) in
  if negb accepted then
    l ← Layer.failedTiming now src next l;
    Ok (false, Packet.set_delays old_header_delay (Packet.payloadDelay p) p,
        set_reqLayers (put_at id l (reqLayers s)) s)
  else
    s ← (if expect_response then
           assert! (bool_decide (routeTo s !! rq = None));
           Ok (set_routeTo (<[rq := src]> (routeTo s)) s)
         else Ok s);
    l ← Layer.succeededTiming now packetFinishTime l;
    Ok (true, p, set_reqLayers (put_at id l (reqLayers s)) s).

(** [recvTimingReq(pkt, src)].  The results are the answer to the source and the
    packet as it is then. *)
Definition recvTimingReq (now : Z) (rq : positive) (p : Packet.t) (src : Z) (accepted : bool) (s : t)
    : res (bool * Packet.t * t) :=
  _ ← at_port (cpuSidePorts s) src;
  assert! (negb (Packet.isExpressSnoop p));
  '(id, s) ← findPort_pkt p s;
  l ← at_port (reqLayers s) id;
  '(free, l) ← Layer.tryTiming src l;
  let s := set_reqLayers (put_at id l (reqLayers s)) s in
  if negb free then Ok (false, p, s) else offer now rq p src id l accepted s.

(** [recvTimingResp] once the layer [l] of the CPU-side port [cpu] is free. *)
Definition deliver (now : Z) (rq : positive) (p : Packet.t) (cpu : Z) (l : Layer.t) (s : t)
    : res (bool * t) :=
  let xbar_delay := u64 (responseLatency (cfg s) * clockPeriod (cfg s)) in
  '(p, s) ← calcPacketTiming now xbar_delay p s;
  '(next, s) ← clockEdge now 1 s;
  let packetFinishTime := u64 (next + Packet.payloadDelay p) in
  let latency := Packet.headerDelay p in
  let p := Packet.set_delays 0 (Packet.payloadDelay p) p in
  q ← at_port (cpuSidePorts s) cpu;
  q ← PacketQueue.schedSendTiming now p (u64 (now + latency)) q;
  let s := set_cpuSidePorts (put_at cpu q (cpuSidePorts s)) s in
  let s := set_routeTo (delete rq (routeTo s)) s in
  l ← Layer.succeededTiming now packetFinishTime l;
  Ok (true, set_respLayers (put_at cpu l (respLayers s)) s).

(** [recvTimingResp(pkt, id)]. *)
Definition recvTimingResp (now : Z) (rq : positive) (p : Packet.t) (id : Z) (s : t)
    : res (bool * t) :=
  match routeTo s !! rq with
  | None => Fail AssertFailure
  | Some cpu =>
      assert! (negb (cpu =? InvalidPortID));
      assert! (cpu <? Z.of_nat (length (respLayers s)));
      l ← at_port (respLayers s) cpu;
      '(free, l) ← Layer.tryTiming id l;
      let s := set_respLayers (put_at cpu l (respLayers s)) s in
      if negb free then Ok (false, s) else deliver now rq p cpu l s
  end.

(** ** The decoder *)

Import AddrRangeMap(tree, proper, overlaps).

(** A crossbar without a default port that decodes disjoint contiguous ranges. *)
Record decoder (s : t) : Prop := {
  dec_map : AddrRangeMap.wf (portMap s);
  dec_default : defaultPortID (cfg s) = InvalidPortID;
  dec_range : useDefaultRange (cfg s) = false;
}.

Lemma entry_unique (m : AddrRangeMap.t Z) e e' :
  AddrRangeMap.wf m → e ∈ tree m → e' ∈ tree m → e.1 = e'.1 → e = e'.
Proof.
  intros [Hp Hs _] He He' Heq. pose proof (proj1 (Forall_forall _ _) Hp e He) as (Hc & Hse & _).
  assert (AddrRange.contains e.1 (AddrRange._start e.1) = true) as Ha
    by (apply AddrRange.contains_contiguous; [done|lia]).
  eapply AddrRangeMap.tree_unique; [done..|by rewrite <-Heq].
Qed.

Lemma erase_entries id l (m : AddrRangeMap.t Z) :
  AddrRangeMap.wf m →
  let m' := foldl (λ m e, if e.2 =? id then AddrRangeMap.erase e.1 m else m) m l in
  AddrRangeMap.wf m' ∧
  ∀ e, e ∈ tree m' ↔ e ∈ tree m ∧ ∀ e0, e0 ∈ l → e0.2 = id → e0.1 ≠ e.1.
Proof.
  revert m. induction l as [|x l IH]; intros m Hwf; simpl.
  { split; [done|]. intros e. split; [|by intros [? _]]. intros He. split; [done|].
    by intros ? ?%not_elem_of_nil. }
  destruct (Z.eqb_spec x.2 id) as [Hx|Hx].
  - destruct (IH (AddrRangeMap.erase x.1 m)) as [Hwf' He]; [by apply AddrRangeMap.erase_wf|].
    split; [done|]. intros e. rewrite He. simpl. unfold AddrRangeMap.list_remove.
    rewrite list_elem_of_filter. split.
    + intros [[Hne Hin] Hl]. split; [done|]. intros e0 [->|?]%elem_of_cons; [congruence|auto].
    + intros [Hin Hl]. split; [split; [|done]|]; [intros Heq; eapply (Hl x); [left|done|done]|].
      intros e0 He0. apply Hl. by right.
  - destruct (IH m Hwf) as [Hwf' He]. split; [done|]. intros e. rewrite He. split.
    + intros [Hin Hl]. split; [done|]. intros e0 [->|?]%elem_of_cons; [congruence|auto].
    + intros [Hin Hl]. split; [done|]. intros e0 He0. apply Hl. by right.
Qed.

Lemma erase_port_ok id (m : AddrRangeMap.t Z) :
  AddrRangeMap.wf m →
  AddrRangeMap.wf (erase_port id m) ∧ ∀ e, e ∈ tree (erase_port id m) ↔ e ∈ tree m ∧ e.2 ≠ id.
Proof.
  intros Hwf. destruct (erase_entries id (tree m) m Hwf) as [Hwf' He]. split; [done|].
  intros e. unfold erase_port. rewrite He. split; intros [Hin Hne]; (split; [done|]).
  - intros Heq. by apply (Hne e Hin Heq).
  - intros e0 He0 Heq Hk. apply Hne. by rewrite <-(entry_unique m e0 e).
Qed.

(** The ranges announced by a port overlap neither each other nor [l]. *)
Fixpoint separate (ranges : list AddrRange.t) (l : list AddrRange.t) : Prop :=
  match ranges with
  | [] => True
  | r :: ranges => (∀ r', r' ∈ l → ¬ overlaps r r') ∧ separate ranges (r :: l)
  end.

Lemma separate_ext ranges l l' :
  (∀ r, r ∈ l ↔ r ∈ l') → separate ranges l ↔ separate ranges l'.
Proof.
  revert l l'. induction ranges as [|r ranges IH]; intros l l' Hl; simpl; [done|].
  rewrite (IH (r :: l) (r :: l')) by (intros; rewrite !elem_of_cons, Hl; done).
  by setoid_rewrite Hl.
Qed.

Lemma add_ranges_ok id ranges (m : AddrRangeMap.t Z) :
  AddrRangeMap.wf m → Forall proper ((λ r, (r, id)) <$> ranges) → separate ranges (tree m).*1 →
  ∃ m', add_ranges id ranges m = Ok m' ∧ AddrRangeMap.wf m' ∧
    ∀ e, e ∈ tree m' ↔ e ∈ tree m ∨ (e.2 = id ∧ e.1 ∈ ranges).
Proof.
  revert m. induction ranges as [|r ranges IH]; intros m Hwf Hp Hs; simpl.
  { exists m. split_and!; try done. intros e. rewrite elem_of_nil. naive_solver. }
  apply Forall_cons_1 in Hp as [Hr Hp]. destruct Hs as [Hs0 Hs].
  destruct (AddrRangeMap.insert_entry 3 r id m Hwf Hr) as (b & m1 & -> & Hwf1 & Hb & Ht).
  rewrite res_bind_Ok. assert (b = true) as ->.
  { apply Hb. intros e He. apply Hs0, list_elem_of_fmap. eauto. }
  simpl. destruct (IH m1 Hwf1 Hp) as (m' & -> & Hwf' & He).
  { eapply separate_ext; [|exact Hs]. intros x. by rewrite Ht. }
  exists m'. split_and!; try done. intros [x y]. rewrite He, Ht. simpl. rewrite !elem_of_cons. naive_solver.
Qed.

Lemma add_ranges_conflict id ranges (m : AddrRangeMap.t Z) :
  AddrRangeMap.wf m → Forall proper ((λ r, (r, id)) <$> ranges) → ¬ separate ranges (tree m).*1 →
  add_ranges id ranges m = Fail FatalFailure.
Proof.
  revert m. induction ranges as [|r ranges IH]; intros m Hwf Hp Hs; simpl; [by destruct Hs|].
  apply Forall_cons_1 in Hp as [Hr Hp].
  destruct (AddrRangeMap.insert_entry 3 r id m Hwf Hr) as (b & m1 & -> & Hwf1 & Hb & Ht).
  rewrite res_bind_Ok. destruct b; [|done]. simpl. apply IH; [done..|].
  intros Hsep. apply Hs. split.
  - intros r' (e & -> & He)%list_elem_of_fmap. by apply Hb.
  - eapply separate_ext; [|exact Hsep]. intros x. by rewrite Ht.
Qed.

(** A crossbar of contiguous ranges announces them as they are. *)
Lemma aggregate_contiguous l s xr :
  useDefaultRange (cfg s) = false → Forall proper l → aggregate l [] s xr = Ok (xr ++ l.*1).
Proof.
  intros Hu. revert xr. induction l as [|[r d] l IH]; intros xr Hp; simpl; [by rewrite app_nil_r|].
  apply Forall_cons_1 in Hp as [(Hc & _) Hp]. simpl in Hc.
  rewrite AddrRange.contiguous_interleaved by done. unfold keep. rewrite Hu, !res_bind_Ok.
  rewrite IH by done. by rewrite <-app_assoc.
Qed.

Lemma at_port_in {A} (l : list A) id :
  0 <= id < Z.of_nat (length l) → ∃ x, at_port l id = Ok x ∧ l !! Z.to_nat id = Some x.
Proof.
  intros Hid. unfold at_port. replace (0 <=? id) with true by lia. simpl.
  destruct (lookup_lt_is_Some_2 l (Z.to_nat id)) as [x Hx]; [lia|]. rewrite Hx. eauto.
Qed.

(** The ranges of the other ports. *)
Definition ranges_of_others (id : Z) (s : t) : list AddrRange.t :=
  (base.filter (λ e, e.2 ≠ id) (tree (portMap s))).*1.

(** The decoder after port [id] has announced [ranges]. *)
Record announced (id : Z) (ranges : list AddrRange.t) (s s' : t) : Prop := {
  an_decoder : decoder s';
  an_entries e : e ∈ tree (portMap s') ↔
    (e.2 = id ∧ e.1 ∈ ranges) ∨ (e.2 ≠ id ∧ e ∈ tree (portMap s));
  an_got : gotAddrRanges s' = put_at id true (gotAddrRanges s);
  an_all : gotAllAddrRanges s' = gotAllAddrRanges s || forallb (λ b, b) (gotAddrRanges s');
  an_ranges : gotAllAddrRanges s' = true → getAddrRanges s' = Ok (tree (portMap s')).*1;
}.

Lemma separate_others id ranges s :
  AddrRangeMap.wf (portMap s) →
  separate ranges (ranges_of_others id s) ↔ separate ranges (tree (erase_port id (portMap s))).*1.
Proof.
  intros Hwf. destruct (erase_port_ok id (portMap s) Hwf) as [_ He]. apply separate_ext.
  intros r. unfold ranges_of_others. rewrite !list_elem_of_fmap.
  split; intros (e & -> & Hin); exists e; (split; [done|]).
  - apply list_elem_of_filter in Hin as [? ?]. by apply He.
  - apply He in Hin as [? ?]. by apply list_elem_of_filter.
Qed.

(** C33: when a memory-side port announces new ranges, they replace exactly its old
    ones in the address map of the crossbar if they overlap neither each other
    nor another port's ranges, and are a fatal error otherwise; once every port
    has announced its ranges, the crossbar answers with all of them. *)
Theorem recvRangeChange_spec id ranges s :
  decoder s → 0 <= id < Z.of_nat (length (gotAddrRanges s)) →
  Forall proper ((λ r, (r, id)) <$> ranges) →
  (separate ranges (ranges_of_others id s) →
     ∃ s', recvRangeChange id ranges s = Ok s' ∧ announced id ranges s s') ∧
  (¬ separate ranges (ranges_of_others id s) → recvRangeChange id ranges s = Fail FatalFailure).
Proof.
  intros [Hwf Hd Hu] Hid Hp. unfold recvRangeChange.
  destruct (at_port_in (gotAddrRanges s) id Hid) as (b & -> & _). rewrite res_bind_Ok. simpl.
  rewrite Hd. replace (id =? InvalidPortID) with false by (unfold InvalidPortID; lia).
  rewrite (separate_others id ranges s Hwf).
  destruct (erase_port_ok id (portMap s) Hwf) as [Hwf1 He1]. split; intros Hsep.
  - destruct (add_ranges_ok id ranges (erase_port id (portMap s))) as (m & -> & Hwf2 & He2); [done..|].
    rewrite !res_bind_Ok. simpl.
    assert (∀ e, e ∈ tree m ↔ (e.2 = id ∧ e.1 ∈ ranges) ∨ (e.2 ≠ id ∧ e ∈ tree (portMap s))) as He.
    { intros e. rewrite He2, He1. naive_solver. }
    destruct (_ || _) eqn:Hall; simpl.
    + unfold announce. simpl. rewrite Hu, res_bind_Ok, aggregate_contiguous; [|done|apply Hwf2].
      rewrite !res_bind_Ok. eexists. split; [done|]. constructor; simpl; try done.
    + eexists. split; [done|]. constructor; simpl; try done.
  - by rewrite add_ranges_conflict.
Qed.

(** Looking up a range only changes the cache of the map. *)
Definition same_decoder (s s' : t) : Prop :=
  decoder s' ∧ tree (portMap s') = tree (portMap s) ∧ ∃ m, s' = set_portMap m s.

Lemma findPort_ok r s :
  decoder s → gotAllAddrRanges s = true → AddrRange.contiguous r →
  AddrRange._start r < AddrRange._end r →
  (∀ e, e ∈ tree (portMap s) → (∀ a, AddrRange.contains r a = true → AddrRange.contains e.1 a = true) →
     ∃ s', findPort r s = Ok (e.2, s') ∧ same_decoder s s') ∧
  ((∀ e, e ∈ tree (portMap s) → ¬ (∀ a, AddrRange.contains r a = true → AddrRange.contains e.1 a = true)) →
     findPort r s = Fail FatalFailure).
Proof.
  intros [Hwf Hd Hu] Hall Hc Hne. unfold findPort. rewrite Hall. cbn [ensure]. rewrite res_bind_Ok.
  destruct (AddrRangeMap.contains_range_spec 3 r (portMap s) Hwf Hc Hne) as (o & m & -> & Ht & Hwf' & Ho).
  rewrite res_bind_Ok. split.
  - intros e He Hsub. rewrite (proj2 (Ho e) (conj He Hsub)). eexists. split; [done|].
    split; [by constructor|]. split; [done|eauto].
  - intros Hno. destruct o as [e|].
    + destruct (proj1 (Ho e) eq_refl) as [He Hsub]. by destruct (Hno e He).
    + simpl. by rewrite Hu, Hd.
Qed.

Lemma packet_range p a n :
  Packet.getAddr p = Ok a → Packet.getSize p = Ok n → 0 <= a → 0 < n → a + n < 2 ^ 64 →
  ∃ r, Packet.getAddrRange p = Ok r ∧ AddrRange.contiguous r ∧ AddrRange._start r < AddrRange._end r ∧
    ∀ x, AddrRange.contains r x = true ↔ a <= x < a + n.
Proof.
  intros Ha Hn H0 H1 H2. unfold Packet.getAddrRange. rewrite Ha, res_bind_Ok, Hn, res_bind_Ok.
  eexists. split; [done|]. unfold AddrRange.RangeSize. rewrite u64_small by auto with width.
  assert (AddrRange.contiguous (AddrRange.plain a (a + n))) as Hc by done.
  split_and!; [done|simpl; lia|]. intros x. rewrite AddrRange.contains_contiguous by done. simpl. lia.
Qed.

Lemma findPort_pkt_ok p a n s :
  decoder s → gotAllAddrRanges s = true →
  Packet.getAddr p = Ok a → Packet.getSize p = Ok n → 0 <= a → 0 < n → a + n < 2 ^ 64 →
  (∀ r id, (r, id) ∈ tree (portMap s) → AddrRange._start r <= a → a + n <= AddrRange._end r →
     ∃ s', findPort_pkt p s = Ok (id, s') ∧ same_decoder s s') ∧
  ((∀ r id, (r, id) ∈ tree (portMap s) → ¬ (AddrRange._start r <= a ∧ a + n <= AddrRange._end r)) →
     findPort_pkt p s = Fail FatalFailure).
Proof.
  intros Hdec Hall Ha Hn H0 H1 H2.
  destruct (packet_range p a n) as (r & Hr & Hc & Hne & Hx); [done..|].
  unfold findPort_pkt. rewrite Hr, res_bind_Ok.
  destruct (findPort_ok r s Hdec Hall Hc Hne) as [Hin Hout].
  assert (∀ e, e ∈ tree (portMap s) → (∀ x, AddrRange.contains r x = true → AddrRange.contains e.1 x = true) ↔
    AddrRange._start e.1 <= a ∧ a + n <= AddrRange._end e.1) as Hsub.
  { intros e He. destruct Hdec as [[Hp _ _] _ _].
    destruct (proj1 (Forall_forall _ _) Hp e He) as (Hce & _).
    setoid_rewrite (AddrRange.contains_contiguous e.1); [|done]. setoid_rewrite Hx. split.
    - intros H. pose proof (H a ltac:(lia)). pose proof (H (a + n - 1) ltac:(lia)). lia.
    - intros [? ?] x ?. lia. }
  split.
  - intros r' id He Hs1 Hs2. apply (Hin (r', id) He), Hsub; done.
  - intros Hno. apply Hout. intros [r' id] He. rewrite Hsub by done. by eapply Hno.
Qed.

(** Once all ranges are known, a packet is sent to the port that announced a
    range with all its bytes, whatever was looked up before, and is a fatal error
    if no single range has them all. *)
Theorem findPort_spec p a n s :
  decoder s → gotAllAddrRanges s = true →
  Packet.getAddr p = Ok a → Packet.getSize p = Ok n → 0 <= a → 0 < n → a + n < 2 ^ 64 →
  (∀ r id, (r, id) ∈ tree (portMap s) → AddrRange._start r <= a → a + n <= AddrRange._end r →
     ∃ s', findPort_pkt p s = Ok (id, s') ∧ same_decoder s s') ∧
  ((∀ r id, (r, id) ∈ tree (portMap s) → ¬ (AddrRange._start r <= a ∧ a + n <= AddrRange._end r)) →
     findPort_pkt p s = Fail FatalFailure).
Proof. intros. by apply findPort_pkt_ok. Qed.

(** ** Packets through the crossbar *)

(** The clock is at its next edge or behind. *)
Definition clock_ok (now : Z) (s : t) : Prop :=
  let p := clockPeriod (cfg s) in
  Clocked.wf (clock s) ∧ 0 < p ∧ Clocked.tick (clock s) < now + p ∧ 0 <= now ∧ now + 3 * p < 2 ^ 64.

Lemma clockEdge_at now n s :
  clock_ok now s → 0 <= n <= 1 →
  ∃ e c, clockEdge now n s = Ok (e, set_clock c s) ∧ clock_ok now (set_clock c s) ∧
    now + n * clockPeriod (cfg s) <= e < now + (n + 1) * clockPeriod (cfg s).
Proof.
  intros (Hwf & Hp & Ht & Hn & Hov) Hc. unfold clockEdge.
  destruct (Clocked.clockEdge_ok now (clockPeriod (cfg s)) n (clock s)) as (e & c & -> & He & _ & Hwf' & Hc' & _);
    [done|done|done|lia|nia|].
  rewrite res_bind_Ok. exists e, c. split; [done|]. split; [|done]. unfold clock_ok. simpl.
  split_and!; try done; lia.
Qed.

(** The header of the packet stays below the limit of a microsecond. *)
Definition delay_ok (xbar_delay : Z) (p : Packet.t) (s : t) : Prop :=
  0 <= Packet.headerDelay p ∧ 0 <= xbar_delay ∧ us (cfg s) < 2 ^ 32 ∧
  Packet.headerDelay p + clockPeriod (cfg s) + xbar_delay <= us (cfg s) ∧
  0 < width (cfg s) ∧ 0 <= Packet.payloadDelay p ∧
  (Packet.hasData p = true → ∃ n, Packet.getSize p = Ok n ∧ 0 <= n ∧ n + width (cfg s) < 2 ^ 32 ∧
     (n / width (cfg s) + 1) * clockPeriod (cfg s) < 2 ^ 32) ∧ Packet.payloadDelay p < 2 ^ 32.

(** Packets that only differ in their delays. *)
Definition same_packet (p p' : Packet.t) : Prop := ∃ hd pd, p' = Packet.set_delays hd pd p.

Lemma calcPacketTiming_ok now d p s :
  clock_ok now s → delay_ok d p s →
  ∃ hd pd c, calcPacketTiming now d p s = Ok (Packet.set_delays hd pd p, set_clock c s) ∧
    clock_ok now (set_clock c s) ∧
    Packet.headerDelay p + d <= hd < Packet.headerDelay p + d + clockPeriod (cfg s) ∧
    Packet.payloadDelay p <= pd < 2 ^ 32.
Proof.
  intros Hc (Hh & Hd & Hus & Hlim & Hw & Hpd0 & Hsz & Hpd). unfold calcPacketTiming.
  destruct (clockEdge_at now 0 s Hc ltac:(lia)) as (e & c & -> & Hc' & He). rewrite res_bind_Ok.
  rewrite (u64_small (e - now)) by auto with width.
  rewrite (u64_small (e - now + d)) by auto with width.
  assert (u32 (Packet.headerDelay p + (e - now + d)) = Packet.headerDelay p + (e - now + d)) as ->
    by (apply Z.mod_small; lia).
  cbn [cfg set_clock]. replace (_ <=? us (cfg s)) with true by lia. cbn [ensure]. rewrite res_bind_Ok.
  destruct (Packet.hasData p).
  2:{ rewrite res_bind_Ok. do 3 eexists. split; [done|]. split; [done|]. split; lia. }
  destruct (Hsz eq_refl) as (n & -> & Hn & Hn1 & Hn2). rewrite res_bind_Ok.
  replace (width (cfg s) =? 0) with false by lia. cbn [negb ensure]. rewrite !res_bind_Ok.
  do 3 eexists. split; [done|]. split; [done|]. split; [lia|].
  set (w := width (cfg s)) in *. set (q := clockPeriod (cfg s)) in *.
  assert (u32 (n + w - 1) = n + w - 1) as -> by (apply Z.mod_small; lia).
  assert (0 <= (n + w - 1) / w <= n / w + 1) as Hdiv.
  { split; [apply Z.div_pos; lia|].
    replace (n / w + 1) with ((n + 1 * w) / w) by (apply Z.div_add; lia). apply Z.div_le_mono; lia. }
  rewrite u64_small by (unfold is_u64; nia). unfold u32. rewrite Z.mod_small by nia. nia.
Qed.

(** A crossbar that has all its ranges and can pass packets on. *)
Record xinv (now : Z) (s : t) : Prop := {
  xi_decoder : decoder s;
  xi_all : gotAllAddrRanges s = true;
  xi_clock : clock_ok now s;
  xi_req : Forall (Layer.inv now) (reqLayers s);
  xi_resp : Forall (Layer.inv now) (respLayers s);
  xi_ids e : e ∈ tree (portMap s) → 0 <= e.2 < Z.of_nat (length (reqLayers s));
  xi_ports : length (respLayers s) = length (cpuSidePorts s);
  xi_route rq c : routeTo s !! rq = Some c → 0 <= c < Z.of_nat (length (cpuSidePorts s));
  xi_queues : Forall (λ q, PacketQueue.list_ok q ∧ PacketQueue.pending_ok now q) (cpuSidePorts s);
}.

Lemma at_port_Some {A} (l : list A) id x :
  0 <= id → l !! Z.to_nat id = Some x → at_port l id = Ok x.
Proof. intros Hid Hx. unfold at_port. replace (0 <=? id) with true by lia. simpl. by rewrite Hx. Qed.

Lemma put_at_lookup {A} (l : list A) id (x y : A) :
  l !! Z.to_nat id = Some y → put_at id x l !! Z.to_nat id = Some x.
Proof. intros Hy. apply list_lookup_insert_eq. by eapply lookup_lt_Some. Qed.

Lemma put_at_twice {A} (l : list A) id (x y : A) : put_at id x (put_at id y l) = put_at id x l.
Proof. apply list_insert_insert_eq. Qed.

Definition request_delay (s : t) : Z :=
  (frontendLatency (cfg s) + forwardLatency (cfg s)) * clockPeriod (cfg s).

(** A request that the crossbar has to handle. *)
Record request (now : Z) (rq : positive) (p : Packet.t) (src id : Z) (l : Layer.t) (s : t) : Prop := {
  rq_port : 0 <= src < Z.of_nat (length (cpuSidePorts s));
  rq_snoop : Packet.isExpressSnoop p = false;
  rq_range : ∃ a n r, Packet.getAddr p = Ok a ∧ Packet.getSize p = Ok n ∧ 0 <= a ∧ 0 < n ∧
    a + n < 2 ^ 64 ∧ (r, id) ∈ tree (portMap s) ∧ AddrRange._start r <= a ∧ a + n <= AddrRange._end r;
  rq_latency : 0 <= frontendLatency (cfg s) + forwardLatency (cfg s) < 2 ^ 64;
  rq_delay : delay_ok (request_delay s) p s;
  rq_end : now + 2 * clockPeriod (cfg s) + 2 ^ 32 < 2 ^ 64;
  rq_new : routeTo s !! rq = None;
  rq_layer : reqLayers s !! Z.to_nat id = Some l;
  rq_polite : src ∉ Layer.waiting l;
}.

(** The request layer of the destination is replaced, and nothing else changes
    but the decoder's cache, the clock and the route of the request. *)
Definition request_effect (id : Z) (l' : Layer.t) (route : gmap positive Z) (s s' : t) : Prop :=
  ∃ m c, s' = set_routeTo route (set_reqLayers (put_at id l' (reqLayers s)) (set_clock c (set_portMap m s))).

Lemma request_effect_inv now id l l' route s m c :
  xinv now s → reqLayers s !! Z.to_nat id = Some l → Layer.inv now l' →
  same_decoder s (set_portMap m s) → clock_ok now (set_clock c s) →
  (∀ rq x, route !! rq = Some x → 0 <= x < Z.of_nat (length (cpuSidePorts s))) →
  xinv now (set_routeTo route (set_reqLayers (put_at id l' (reqLayers s)) (set_clock c (set_portMap m s)))).
Proof.
  intros [Hd Ha Hc Hrq Hrs Hid Hp Hr Hq] Hl Hl' ([Hwf Hdp Hdr] & Ht & _) Hc' Hroute.
  constructor; simpl; try done.
  - unfold put_at. by apply Forall_insert.
  - intros e He. unfold put_at. rewrite length_insert. apply Hid. simpl in Ht. by rewrite <-Ht.
Qed.

(** The outcome of a request for the layer [l] of port [id]. *)
Definition request_outcome (rq : positive) (p : Packet.t) (src id : Z) (l : Layer.t) (s : t)
    (sent : bool) (p' : Packet.t) (l' : Layer.t) (s' : t) : Prop :=
  same_packet p p' ∧
  if sent then
    request_effect id l' (if Packet.needsResponse p && negb (Packet.cacheResponding p)
                          then <[rq := src]> (routeTo s) else routeTo s) s s' ∧
    Layer.waiting l' = Layer.waiting l ∧
    Packet.headerDelay p + request_delay s <= Packet.headerDelay p' <
      Packet.headerDelay p + request_delay s + clockPeriod (cfg s)
  else
    request_effect id l' (routeTo s) s s' ∧ Packet.headerDelay p' = Packet.headerDelay p ∧
    Layer.waiting l' ≡ₚ src :: Layer.waiting l.

Lemma offer_ok now rq p src id l accepted s m :
  xinv now s → request now rq p src id l s → Layer.free l = true → same_decoder s (set_portMap m s) →
  ∃ p' l' s', offer now rq p src id (Layer.set_state Layer.BUSY l) accepted
      (set_reqLayers (put_at id (Layer.set_state Layer.BUSY l) (reqLayers s)) (set_portMap m s))
      = Ok (accepted, p', s') ∧
    xinv now s' ∧ Layer.keeps l l' ∧ request_outcome rq p src id l s accepted p' l' s'.
Proof.
  intros Hx Hrq Hfree Hsame. pose proof Hx as [Hd Hall Hc Hls _ _ _ Hroute _].
  destruct Hrq as [Hport _ _ Hlat Hdel Hend Hnew Hl Hpol]. pose proof Hc as (_ & Hper & _ & Hnow & _).
  assert (Layer.inv now l) as Hli by (rewrite Forall_forall in Hls; apply Hls, list_elem_of_lookup; eauto).
  unfold offer. cbn [cfg set_reqLayers set_portMap].
  rewrite (u64_small (frontendLatency _ + _)) by done. pose proof Hdel as (Hh0 & Hrd & Hus & Hlim & _).
  fold (request_delay s). rewrite (u64_small (request_delay s)) by auto with width.
  destruct (calcPacketTiming_ok now (request_delay s) p
    (set_reqLayers (put_at id (Layer.set_state Layer.BUSY l) (reqLayers s)) (set_portMap m s)))
    as (hd & pd & c & -> & Hc1 & Hhd & Hpd); [done|done|]. rewrite res_bind_Ok.
  destruct (clockEdge_at now 1 _ Hc1) as (next & c' & -> & Hc2 & Hnext); [lia|]. rewrite res_bind_Ok.
  cbn [cfg set_clock set_reqLayers set_portMap clockPeriod] in Hnext, Hhd. simpl in Hpd.
  destruct Hdel as (_ & _ & _ & _ & _ & Hpd0 & _).
  destruct accepted; cbn [negb].
  - rewrite (u64_small (next + _)) by (unfold is_u64; simpl; lia).
    destruct (Layer.succeededTiming_ok now (next + pd) l Hli Hfree) as (l' & Hsucc & Hi' & Hb & Hw); [lia..|].
    set (route := if Packet.needsResponse p && negb (Packet.cacheResponding p)
                  then <[rq := src]> (routeTo s) else routeTo s).
    exists (Packet.set_delays hd pd p), l',
      (set_routeTo route (set_reqLayers (put_at id l' (reqLayers s)) (set_clock c' (set_portMap m s)))).
    split.
    { unfold Packet.needsResponse, Packet.cacheResponding, Packet.flag in *. simpl. rewrite Hnew.
      rewrite (bool_decide_true (@None Z = None)) by done. unfold route.
      destruct (MemCmd.needsResponse _ && _); simpl; rewrite Hsucc, res_bind_Ok; simpl; by rewrite put_at_twice. }
    split; [apply (request_effect_inv now id l); try done|].
    { unfold route. destruct (_ && _); [|done]. intros k x [[<- <-]|[_ ?]]%lookup_insert_Some; eauto. }
    split; [by apply Layer.keeps_busy|]. split; [by exists hd, pd|]. split; [by exists m, c'|]. split; [done|]. simpl. lia.
  - destruct (Layer.failedTiming_ok now src next l Hli Hfree Hpol) as (l' & -> & Hi' & Hb & Hw); [lia..|].
    rewrite res_bind_Ok. do 3 eexists. split; [done|]. cbn. rewrite put_at_twice.
    split; [apply (request_effect_inv now id l l' (routeTo s) s m c'); done|]. split; [by apply Layer.keeps_busy|].
    split; [by exists (Packet.headerDelay p), pd|]. split; [by exists m, c'|]. split; [done|]. by rewrite Hw.
Qed.

Lemma recvTimingReq_ok now rq p src id l accepted s :
  xinv now s → request now rq p src id l s →
  ∃ p' l' s', recvTimingReq now rq p src accepted s = Ok (accepted && Layer.free l, p', s') ∧
    xinv now s' ∧ Layer.keeps l l' ∧
    request_outcome rq p src id l s (accepted && Layer.free l) p' l' s'.
Proof.
  intros Hx Hreq. pose proof Hx as [Hd Hall Hc Hrq Hrs Hid Hp Hr Hq].
  pose proof Hreq as [Hport Hsn (a & n & r & Ha & Hn & H0 & H1 & H2 & Hin & Hs & He) _ _ _ _ Hl Hpol].
  unfold recvTimingReq.
  destruct (at_port_in (cpuSidePorts s) src Hport) as (q & -> & _). rewrite res_bind_Ok, Hsn. cbn [negb ensure].
  rewrite res_bind_Ok. destruct (findPort_pkt_ok p a n s Hd Hall Ha Hn H0 H1 H2) as [Hfind _].
  destruct (Hfind r id Hin Hs He) as (s1 & -> & Hsame). rewrite res_bind_Ok.
  pose proof Hsame as (Hdec1 & Ht1 & m & ->). cbn [reqLayers set_portMap].
  assert (0 <= id) as Hid0 by (pose proof (Hid _ Hin); simpl in *; lia).
  rewrite (at_port_Some _ id l Hid0 Hl), res_bind_Ok.
  assert (Layer.inv now l) as Hli by (rewrite Forall_forall in Hrq; apply Hrq, list_elem_of_lookup; eauto).
  destruct (Layer.free l) eqn:Hfree.
  - rewrite (Layer.tryTiming_free _ _ Hfree), res_bind_Ok, andb_true_r. cbn [negb].
    by apply offer_ok.
  - destruct (Layer.tryTiming_busy now src l Hli Hpol Hfree) as (l' & -> & Hi' & Hb & Hw).
    rewrite res_bind_Ok, andb_false_r. cbn [negb]. do 3 eexists. split; [done|]. split.
    { apply (request_effect_inv now id l l' (routeTo s) s m (clock s)); try done. }
    split; [by apply Layer.keeps_same|].
    split; [by exists (Packet.headerDelay p), (Packet.payloadDelay p); destruct p|].
    split; [by exists m, (clock s); destruct s|]. split; [done|]. rewrite Hw. by rewrite Permutation_app_comm.
Qed.

Definition response_delay (s : t) : Z := responseLatency (cfg s) * clockPeriod (cfg s).

(** A response that the crossbar has to handle, for the port [cpu]. *)
Record response (now : Z) (rq : positive) (p : Packet.t) (id cpu : Z) (l : Layer.t) (q : PacketQueue.t)
    (s : t) : Prop := {
  rs_route : routeTo s !! rq = Some cpu;
  rs_snoop : Packet.isExpressSnoop p = false;
  rs_addr : Packet.valid_addr p;
  rs_delay : delay_ok (response_delay s) p s;
  rs_end : now + 2 * clockPeriod (cfg s) + 2 ^ 32 < PacketQueue.MaxTick;
  rs_layer : respLayers s !! Z.to_nat cpu = Some l;
  rs_polite : id ∉ Layer.waiting l;
  rs_queue : cpuSidePorts s !! Z.to_nat cpu = Some q;
  rs_room : PacketQueue._disableSanityCheck q = true ∨
            (length (PacketQueue.transmitList q) <= 1024)%nat;
}.

(** The response is queued at the port that sent the request, to be sent after
    the latency of the crossbar, and the request is forgotten; or the memory-side
    port has to wait for the layer. *)
Definition response_outcome (now : Z) (rq : positive) (p : Packet.t) (id cpu : Z) (l : Layer.t)
    (q : PacketQueue.t) (s s' : t) (l' : Layer.t) : Prop :=
  respLayers s' = put_at cpu l' (respLayers s) ∧ reqLayers s' = reqLayers s ∧ Layer.keeps l l' ∧
  if Layer.free l then
    ∃ p' q' w, same_packet p p' ∧ PacketQueue.queued p' q q' ∧
      cpuSidePorts s' = put_at cpu q' (cpuSidePorts s) ∧ routeTo s' = delete rq (routeTo s) ∧
      now + Packet.headerDelay p + response_delay s <= w <
        now + Packet.headerDelay p + response_delay s + clockPeriod (cfg s) ∧
      PacketQueue.schedSendTiming now p' w q = Ok q'
  else
    cpuSidePorts s' = cpuSidePorts s ∧ routeTo s' = routeTo s ∧
    id ∈ Layer.waiting l'.

Lemma xinv_lookup now s cpu l q :
  xinv now s → respLayers s !! Z.to_nat cpu = Some l → cpuSidePorts s !! Z.to_nat cpu = Some q →
  Layer.inv now l ∧ PacketQueue.list_ok q ∧ PacketQueue.pending_ok now q.
Proof.
  intros [_ _ _ _ Hresp _ _ _ Hqs] Hl Hq. rewrite Forall_forall in Hresp. rewrite Forall_forall in Hqs.
  split; [apply Hresp|apply Hqs]; apply list_elem_of_lookup; eauto.
Qed.

Lemma queue_takes now hd pd p q :
  0 <= now ∧ 0 <= hd ∧ now + hd < PacketQueue.MaxTick →
  PacketQueue.list_ok q → PacketQueue.pending_ok now q →
  Packet.valid_addr p → Packet.isExpressSnoop p = false →
  PacketQueue._disableSanityCheck q = true ∨ (length (PacketQueue.transmitList q) <= 1024)%nat →
  ∃ q', PacketQueue.schedSendTiming now (Packet.set_delays 0 pd p) (now + hd) q = Ok q' ∧
    PacketQueue.queued (Packet.set_delays 0 pd p) q q' ∧ PacketQueue.pending_ok now q'.
Proof.
  intros Hn Hlist Hpend Hva Hsn Hroom.
  assert (PacketQueue.sane now (Packet.set_delays 0 pd p, now + hd)) as Hsane
    by (constructor; [simpl; lia|done]).
  destruct (PacketQueue.schedSendTiming_total now (Packet.set_delays 0 pd p) (now + hd) q)
    as (q' & Hq' & _); [lia|done|done|by left| |].
  { right. destruct Hroom as [?|?]; [by left|right; lia]. }
  destruct (PacketQueue.schedSendTiming_ok now (Packet.set_delays 0 pd p) (now + hd) q q')
    as (Hqd & Hpend' & _); try done; [lia|by left|]. eauto.
Qed.

Lemma deliver_ok now rq p id cpu l q s :
  xinv now s → response now rq p id cpu l q s → Layer.free l = true →
  ∃ s' l', deliver now rq p cpu (Layer.set_state Layer.BUSY l)
          (set_respLayers (put_at cpu (Layer.set_state Layer.BUSY l) (respLayers s)) s) = Ok (true, s') ∧
    xinv now s' ∧ response_outcome now rq p id cpu l q s s' l'.
Proof.
  intros Hx [Hroute Hsn Hva Hdel Hend Hl Hpol Hq Hroom] Hfree.
  destruct (xinv_lookup _ _ _ _ _ Hx Hl Hq) as (Hli & Hlist & Hpend).
  pose proof Hx as [[Hwf Hdp Hdr] Hall Hc Hreq Hresp Hids Hports Hrt Hqs].
  pose proof (Hrt rq cpu Hroute) as Hcpu. unfold deliver. cbn [cfg set_respLayers].
  pose proof Hdel as (Hh0 & Hrd & Hus & Hlim & _ & Hpd0 & _). pose proof Hc as (_ & Hper & _ & Hnow & _).
  fold (response_delay s). rewrite (u64_small (response_delay s)) by auto with width.
  destruct (calcPacketTiming_ok now (response_delay s) p
    (set_respLayers (put_at cpu (Layer.set_state Layer.BUSY l) (respLayers s)) s))
    as (hd & pd & c & -> & Hc1 & Hhd & Hpd); [done|done|]. rewrite res_bind_Ok.
  destruct (clockEdge_at now 1 _ Hc1) as (next & c' & -> & Hc2 & Hnext); [lia|]. rewrite res_bind_Ok.
  cbn [cfg set_clock set_respLayers clockPeriod] in Hnext, Hhd. simpl in Hpd. unfold PacketQueue.MaxTick in *.
  rewrite !(u64_small (_ + _)) by (unfold is_u64; simpl; lia). simpl.
  rewrite (at_port_Some _ cpu q) by (done || lia). rewrite res_bind_Ok.
  destruct (queue_takes now hd pd p q) as (q' & Hq' & Hqd & Hpend'); [unfold PacketQueue.MaxTick; lia|done..|].
  change (PacketQueue.schedSendTiming now _ (now + hd) q)
    with (PacketQueue.schedSendTiming now (Packet.set_delays 0 pd p) (now + hd) q).
  rewrite Hq', res_bind_Ok.
  destruct (Layer.succeededTiming_ok now (next + pd) l Hli Hfree) as (l' & -> & Hi' & Hb & Hw); [lia..|].
  rewrite res_bind_Ok. eexists _, l'. split; [done|]. cbn. rewrite put_at_twice. split.
  - constructor; cbn; try done; unfold put_at; rewrite ?length_insert; try done.
    + by apply Forall_insert.
    + intros k x Hk%lookup_delete_Some. destruct Hk as [_ Hk]. eauto.
    + apply Forall_insert; [done|]. destruct Hqd as (_ & _ & ? & _). auto.
  - unfold response_outcome. rewrite Hfree. split; [done|]. split; [done|]. split; [by apply Layer.keeps_busy|].
    exists (Packet.set_delays 0 pd p), q', (now + hd).
    split_and!; try done; try lia. by exists 0, pd.
Qed.

Lemma recvTimingResp_ok now rq p id cpu l q s :
  xinv now s → response now rq p id cpu l q s →
  ∃ s' l', recvTimingResp now rq p id s = Ok (Layer.free l, s') ∧ xinv now s' ∧
    response_outcome now rq p id cpu l q s s' l'.
Proof.
  intros Hx Hrs. pose proof Hrs as [Hroute _ _ _ _ Hl Hpol Hq _].
  destruct (xinv_lookup _ _ _ _ _ Hx Hl Hq) as (Hli & Hlist & Hpend).
  pose proof Hx as [[Hwf Hdp Hdr] Hall Hc Hreq Hresp Hids Hports Hrt Hqs].
  pose proof (Hrt rq cpu Hroute) as Hcpu. unfold recvTimingResp. rewrite Hroute.
  replace (cpu =? InvalidPortID) with false by (unfold InvalidPortID; lia).
  rewrite Hports. replace (cpu <? _) with true by lia. cbn [negb ensure]. rewrite !res_bind_Ok.
  rewrite (at_port_Some _ cpu l) by (done || lia). rewrite res_bind_Ok.
  destruct (Layer.free l) eqn:Hfree.
  - rewrite (Layer.tryTiming_free _ _ Hfree), res_bind_Ok. cbn [negb].
    destruct (deliver_ok now rq p id cpu l q s Hx Hrs Hfree) as (s' & l' & -> & ? & ?). eauto.
  - destruct (Layer.tryTiming_busy now id l Hli Hpol Hfree) as (l' & -> & Hi' & Hb & Hw).
    rewrite res_bind_Ok. cbn [negb]. do 2 eexists. split; [done|]. split.
    + constructor; simpl; try done; unfold put_at; [by apply Forall_insert|by rewrite length_insert].
    + unfold response_outcome. rewrite Hfree. split_and!; try done; [by apply Layer.keeps_same|]. rewrite Hw. set_solver.
Qed.

(** ** A small crossbar *)

(** Two memory-side and two CPU-side ports; a clock period of 500 ticks. *)
Definition demo_new : t := create 1 1 1 16 false 500 1000000 2 false 2.

(** A memory at 0x1000 behind port 0 and one at 0x8000 behind port 1. *)
Definition demo_ranges (id : Z) : list AddrRange.t :=
  if id =? 0 then [AddrRange.plain 0x1000 0x1100] else [AddrRange.plain 0x8000 0x8100].

Definition demo : t :=
  match (s ← recvRangeChange 0 (demo_ranges 0) demo_new; recvRangeChange 1 (demo_ranges 1) s) with
  | Ok s => s
  | Fail _ => demo_new
  end.

Lemma demo_tree :
  tree (portMap demo) = [(AddrRange.plain 0x1000 0x1100, 0); (AddrRange.plain 0x8000 0x8100, 1)].
Proof. vm_compute. reflexivity. Qed.

Lemma demo_decoder : decoder demo.
Proof.
  constructor; [|vm_compute; reflexivity..]. constructor.
  - rewrite demo_tree. constructor; [|constructor; [|constructor]]; (split; [done|simpl; lia]).
  - rewrite demo_tree. constructor; [constructor; [constructor|constructor]|constructor; [|constructor]].
    unfold AddrRangeMap.precedes. simpl. lia.
  - vm_compute. constructor.
Qed.

(** The second memory may not announce a range of the first. *)
Lemma recvRangeChange_witness :
  (∃ s, recvRangeChange 1 [AddrRange.plain 0x2000 0x2100] demo = Ok s ∧
     getAddrRanges s = Ok (tree (portMap s)).*1) ∧
  recvRangeChange 1 [AddrRange.plain 0x1080 0x2000] demo = Fail FatalFailure.
Proof.
  split.
  - destruct (recvRangeChange_spec 1 [AddrRange.plain 0x2000 0x2100] demo demo_decoder) as [Hok _].
    + vm_compute. split; congruence.
    + constructor; [split; [done|simpl; lia]|constructor].
    + destruct Hok as (s & Hs & Han).
      * split; [|exact I]. intros r Hr. vm_compute in Hr. apply list_elem_of_singleton in Hr as ->.
        intros (a & Ha & Ha'). apply AddrRange.contains_contiguous in Ha; [|done].
        apply AddrRange.contains_contiguous in Ha'; [|done]. simpl in *. lia.
      * exists s. split; [exact Hs|]. apply (an_ranges _ _ _ _ Han).
        rewrite (an_all _ _ _ _ Han). vm_compute. reflexivity.
  - destruct (recvRangeChange_spec 1 [AddrRange.plain 0x1080 0x2000] demo demo_decoder) as [_ Hbad].
    + vm_compute. split; congruence.
    + constructor; [split; [done|simpl; lia]|constructor].
    + apply Hbad. intros [Hsep _]. apply (Hsep (AddrRange.plain 0x1000 0x1100)).
      * vm_compute. left.
      * exists 0x1080. split; vm_compute; reflexivity.
Defined.

Definition demo_pkt (a : Z) : Packet.t := AbstractMemory.demo_pkt MemCmd.ReadReq a 1.

Lemma findPort_witness :
  (∃ s, findPort_pkt (demo_pkt 0x8010) demo = Ok (1, s)) ∧
  findPort_pkt (demo_pkt 0x10fc) demo = Fail FatalFailure.
Proof.
  split.
  - destruct (findPort_spec (demo_pkt 0x8010) 0x8010 8 demo demo_decoder) as [Hok _]; [reflexivity..|lia|lia|lia|].
    destruct (Hok (AddrRange.plain 0x8000 0x8100) 1) as (s & Hs & _); [|simpl; lia..|].
    + rewrite demo_tree. right. left.
    + exists s. exact Hs.
  - destruct (findPort_spec (demo_pkt 0x10fc) 0x10fc 8 demo demo_decoder) as [_ Hbad]; [reflexivity..|lia|lia|lia|].
    apply Hbad. intros r id. rewrite demo_tree.
    intros [[= -> ->]|[[= -> ->]|[]%elem_of_nil]%elem_of_cons]%elem_of_cons; simpl; lia.
Defined.

End XBar.
