(* ===== verification/XBarRun.v ===== *)
(** Runs of the non-coherent crossbar of [mem/noncoherent_xbar.cc] in timing mode:
    requests, responses, the release of its layers, the retries of its peers and
    the sending of its queued responses, in any order. *)

From S2P Require Import Prelude AddrRange AddrRangeMap Host Request MemCmd Packet PacketQueue.
From S2P Require Import Clocked XBarLayer XBar.
Import XBar AddrRangeMap(tree).

Module XBarRun.

(** A request layer belongs to a memory-side port, a response layer to a CPU-side
    port. *)
Inductive side := Requests | Responses.

#[export] Instance side_eq_dec : EqDecision side.
Proof. solve_decision. Defined.

Definition layers (d : side) (s : XBar.t) : list Layer.t :=
  match d with Requests => reqLayers s | Responses => respLayers s end.

Definition set_layer (d : side) (id : Z) (l : Layer.t) (s : XBar.t) : XBar.t :=
  match d with
  | Requests => set_reqLayers (put_at id l (reqLayers s)) s
  | Responses => set_respLayers (put_at id l (respLayers s)) s
  end.

(** A request of a CPU-side peer, with the answer of the memory-side peer it is
    passed on to, and a response of a memory-side peer. *)
Inductive call :=
  | Req (rq : positive) (p : Packet.t) (src : Z) (accepted : bool)
  | Resp (rq : positive) (p : Packet.t) (id : Z).

(** What is seen of the crossbar: a request of port [src] that a memory has
    accepted and has to answer, and a response queued at port [cpu]. *)
Inductive event :=
  | Forwarded (rq : positive) (src : Z)
  | Delivered (rq : positive) (cpu : Z).

(** The CPU-side port whose queue has got longer. *)
Definition grown (s s' : XBar.t) : option Z :=
  option_map (λ e, Z.of_nat e.1)
    (list_find (λ x, (length (PacketQueue.transmitList x.1) < length (PacketQueue.transmitList x.2))%nat)
       (zip (cpuSidePorts s) (cpuSidePorts s'))).

Definition handle (now : Z) (c : call) (s : XBar.t) : res (list event * XBar.t) :=
  match c with
  | Req rq p src accepted =>
      '(b, _, s') ← recvTimingReq now rq p src accepted s;
      Ok (if b && (Packet.needsResponse p && negb (Packet.cacheResponding p))
          then [Forwarded rq src] else [], s')
  | Resp rq p id =>
      '(b, s') ← recvTimingResp now rq p id s;
      Ok (match (if b : bool then grown s s' else None) with
          | Some cpu => [Delivered rq cpu] | None => []
          end, s')
  end.

Fixpoint handle_all (now : Z) (cs : list call) (s : XBar.t) : res (list event * XBar.t) :=
  match cs with
  | [] => Ok ([], s)
  | c :: cs =>
      '(ev, s) ← handle now c s;
      '(evs, s) ← handle_all now cs s;
      Ok (ev ++ evs, s)
  end.

(** [retryWaiting] of a layer; [cs] are the calls the peer makes on the way. *)
Definition retryWaiting (now : Z) (d : side) (id : Z) (cs : list call) (s : XBar.t)
    : res (list event * XBar.t) :=
  l ← at_port (layers d s) id;
  '(_, l) ← Layer.retry_start l;
  '(ev, s) ← handle_all now cs (set_layer d id l s);
  l ← at_port (layers d s) id;
  if Layer.is_state Layer.RETRY l then
    '(edge, s) ← clockEdge now 0 s;
    l ← Layer.retry_finish now edge l;
    Ok (ev, set_layer d id l s)
  else Ok (ev, s).

(** The run of a layer's [releaseEvent]. *)
Definition releaseLayer (now : Z) (d : side) (id : Z) (cs : list call) (s : XBar.t)
    : res (list event * XBar.t) :=
  l ← at_port (layers d s) id;
  '(r, _, l) ← Layer.release_start l;
  let s := set_layer d id l s in
  if r : bool then retryWaiting now d id cs s else Ok ([], s).

(** [recvReqRetry(id)]. *)
Definition recvReqRetry (now : Z) (id : Z) (cs : list call) (s : XBar.t)
    : res (list event * XBar.t) :=
  l ← at_port (reqLayers s) id;
  '(r, l) ← Layer.recvRetry_start l;
  let s := set_layer Requests id l s in
  if r : bool then retryWaiting now Requests id cs s else Ok ([], s).

(** The send event of a CPU-side port, and the retry of its peer. *)
Definition sendResponse (now cpu : Z) (again accepted : bool) (s : XBar.t) : res XBar.t :=
  q ← at_port (cpuSidePorts s) cpu;
  '(_, _, q) ← (if again then PacketQueue.retry now [] accepted q
                else PacketQueue.processSendEvent now [] accepted q);
  Ok (set_cpuSidePorts (put_at cpu q (cpuSidePorts s)) s).

(** ** Runs *)

(** A CPU-side peer sends no request while it waits for a retry of the layer, nor
    one that it has sent before; a memory answers what it has been sent. *)
Definition sane (now : Z) (c : call) (s : XBar.t) : Prop :=
  match c with
  | Req rq p src _ => ∃ id l, request now rq p src id l s
  | Resp rq p id => ∃ cpu l q, response now rq p id cpu l q s
  end.

Fixpoint sane_all (now : Z) (cs : list call) (s : XBar.t) : Prop :=
  match cs with
  | [] => True
  | c :: cs => sane now c s ∧ ∀ ev s', handle now c s = Ok (ev, s') → sane_all now cs s'
  end.

(** The calls made while the next port that waits for a layer is told to retry. *)
Definition sane_retry (now : Z) (d : side) (id : Z) (cs : list call) (s : XBar.t) : Prop :=
  ∀ l, layers d s !! Z.to_nat id = Some l → sane_all now cs (set_layer d id (Layer.retrying l) s).

Record sys := mkSys {
  now : Z;
  st : XBar.t;
  log : list event;
}.

(** No event is missed by going to time [n]. *)
Definition reaches (n : Z) (s : XBar.t) : Prop :=
  (∀ d l x, l ∈ layers d s → Layer.releaseEvent l = Some x → n <= x) ∧
  (∀ q x, q ∈ cpuSidePorts s → PacketQueue.sendEvent q = Some x → n <= x).

(** What happens to the crossbar. *)
Inductive action :=
  | Call (c : call)
  | Release (d : side) (id : Z) (cs : list call)
  | Retry (id : Z) (cs : list call)
  | Send (cpu : Z) (again accepted : bool).

Definition perform (now : Z) (a : action) (s : XBar.t) : res (list event * XBar.t) :=
  match a with
  | Call c => handle now c s
  | Release d id cs => releaseLayer now d id cs s
  | Retry id cs => recvReqRetry now id cs s
  | Send cpu again accepted => s ← sendResponse now cpu again accepted s; Ok ([], s)
  end.

Definition enabled (now : Z) (a : action) (s : XBar.t) : Prop :=
  match a with
  | Call c => sane now c s
  | Release d id cs =>
      0 <= id ∧ (∃ l, layers d s !! Z.to_nat id = Some l ∧ Layer.releaseEvent l = Some now) ∧
      sane_retry now d id cs s
  | Retry id cs =>
      0 <= id ∧ (∃ l, reqLayers s !! Z.to_nat id = Some l ∧ Layer.waitingForPeer l ≠ None) ∧
      sane_retry now Requests id cs s
  | Send cpu again _ =>
      0 <= cpu ∧ ∃ q, cpuSidePorts s !! Z.to_nat cpu = Some q ∧
        if again then PacketQueue.waitingOnRetry q = true else PacketQueue.sendEvent q = Some now
  end.

Inductive step : sys → sys → Prop :=
  | step_time c n :
      now c <= n → n + 3 * clockPeriod (cfg (st c)) < PacketQueue.MaxTick → reaches n (st c) →
      step c (mkSys n (st c) (log c))
  | step_action c a ev s' :
      enabled (now c) a (st c) → perform (now c) a (st c) = Ok (ev, s') →
      step c (mkSys (now c) s' (log c ++ ev)).

Definition forwarded (l : list event) : list (positive * Z) :=
  omap (λ e, match e with Forwarded rq src => Some (rq, src) | _ => None end) l.

Definition delivered (l : list event) : list (positive * Z) :=
  omap (λ e, match e with Delivered rq cpu => Some (rq, cpu) | _ => None end) l.

(** The events between two states account for the change of the routing table. *)
Definition ledger (ev : list event) (s s' : XBar.t) : Prop :=
  map_to_list (routeTo s) ++ forwarded ev ≡ₚ delivered ev ++ map_to_list (routeTo s').

(** The layers of a side are those of before, up to a handler that is no release. *)
Definition layers_kept (s s' : XBar.t) : Prop :=
  ∀ d, Forall2 Layer.keeps (layers d s) (layers d s').

Definition settled (s : XBar.t) : Prop :=
  ∀ d, Forall (λ l, Layer.state l ≠ Layer.RETRY) (layers d s).

Record ok (c : sys) : Prop := {
  ok_now : 0 <= now c < PacketQueue.MaxTick;
  ok_inv : xinv (now c) (st c);
  ok_settled : settled (st c);
  ok_log : forwarded (log c) ≡ₚ delivered (log c) ++ map_to_list (routeTo (st c));
}.

(** ** The parts of a step *)

Lemma forwarded_app l l' : forwarded (l ++ l') = forwarded l ++ forwarded l'.
Proof. apply omap_app. Qed.

Lemma delivered_app l l' : delivered (l ++ l') = delivered l ++ delivered l'.
Proof. apply omap_app. Qed.

Lemma ledger_refl s s' : routeTo s' = routeTo s → ledger [] s s'.
Proof. intros H. unfold ledger. simpl. by rewrite H, app_nil_r. Qed.

Lemma ledger_trans e1 e2 s1 s2 s3 : ledger e1 s1 s2 → ledger e2 s2 s3 → ledger (e1 ++ e2) s1 s3.
Proof.
  unfold ledger. intros H1 H2. rewrite forwarded_app, delivered_app, app_assoc, H1.
  rewrite <-!app_assoc. by rewrite H2.
Qed.

Lemma kept_refl s s' : reqLayers s' = reqLayers s → respLayers s' = respLayers s → layers_kept s s'.
Proof.
  intros H1 H2 d. apply Forall2_same_length_lookup_2; [by destruct d; simpl; rewrite ?H1, ?H2|].
  intros i l l' Hl Hl'. apply Layer.keeps_same. destruct d; simpl in *; congruence.
Qed.

Lemma keeps_trans l1 l2 l3 : Layer.keeps l1 l2 → Layer.keeps l2 l3 → Layer.keeps l1 l3.
Proof. unfold Layer.keeps. naive_solver. Qed.

Lemma kept_trans s1 s2 s3 : layers_kept s1 s2 → layers_kept s2 s3 → layers_kept s1 s3.
Proof.
  intros H1 H2 d. specialize (H1 d). specialize (H2 d). revert H2. generalize (layers d s3).
  induction H1 as [|l1 l2 k1 k2 H H1 IH]; intros k3 H2; inversion H2; subst; constructor; eauto using keeps_trans.
Qed.

Lemma keeps_put id l l' ls :
  ls !! Z.to_nat id = Some l → Layer.keeps l l' → Forall2 Layer.keeps ls (put_at id l' ls).
Proof.
  intros Hl Hk. apply Forall2_same_length_lookup_2; [unfold put_at; by rewrite length_insert|].
  intros i x y Hx [(<- & <- & _)|[_ Hy]]%list_lookup_insert_Some; [congruence|].
  apply Layer.keeps_same. congruence.
Qed.

Lemma keeps_refl ls : Forall2 Layer.keeps ls ls.
Proof. induction ls; constructor; [by apply Layer.keeps_same|done]. Qed.

Lemma grown_at s s' cpu q q' :
  0 <= cpu → cpuSidePorts s !! Z.to_nat cpu = Some q → cpuSidePorts s' = put_at cpu q' (cpuSidePorts s) →
  (length (PacketQueue.transmitList q) < length (PacketQueue.transmitList q'))%nat →
  grown s s' = Some cpu.
Proof.
  intros Hc Hq Hs Hlen. unfold grown. rewrite Hs.
  rewrite (proj2 (list_find_Some _ _ (Z.to_nat cpu) (q, q'))); [simpl; f_equal; lia|].
  unfold put_at. split; [|split; [done|]].
  - apply lookup_zip_Some. split; [done|]. apply list_lookup_insert_eq. by eapply lookup_lt_Some.
  - intros j [x y] Hj Hjc. apply lookup_zip_Some in Hj as [Hx Hy].
    rewrite list_lookup_insert_ne in Hy by lia. simpl. assert (x = y) as -> by congruence. lia.
Qed.

(** What a call, and what is made of calls, does to the crossbar. *)
Definition proceeds (now : Z) (ev : list event) (s s' : XBar.t) : Prop :=
  xinv now s' ∧ ledger ev s s' ∧ layers_kept s s'.

Lemma handle_req_ok n rq p src acc s :
  xinv n s → sane n (Req rq p src acc) s →
  ∃ ev s', handle n (Req rq p src acc) s = Ok (ev, s') ∧ proceeds n ev s s'.
Proof.
  intros Hx (id & l & Hreq).
  destruct (recvTimingReq_ok n rq p src id l acc s Hx Hreq) as (p' & l' & s' & Hr & Hx' & Hk & _ & Ho).
  simpl. rewrite Hr, res_bind_Ok. do 2 eexists. split; [done|]. split; [done|].
  destruct Hreq as [_ _ _ _ _ _ Hnew Hl _].
  assert (∀ m c route, layers_kept s (set_routeTo route
    (set_reqLayers (put_at id l' (reqLayers s)) (set_clock c (set_portMap m s))))) as Hkept.
  { intros m c route [|]; simpl; [by eapply keeps_put|apply keeps_refl]. }
  destruct (acc && Layer.free l); simpl.
  - destruct Ho as [(m & c & ->) _]. split; [|apply Hkept]. unfold ledger. simpl.
    destruct (_ && _); simpl; [|by rewrite app_nil_r]. rewrite map_to_list_insert by done.
    by rewrite Permutation_app_comm.
  - destruct Ho as [(m & c & ->) _]. split; [by apply ledger_refl|apply Hkept].
Qed.

Lemma handle_resp_ok n rq p id s :
  xinv n s → sane n (Resp rq p id) s →
  ∃ ev s', handle n (Resp rq p id) s = Ok (ev, s') ∧ proceeds n ev s s'.
Proof.
  intros Hx (cpu & l & q & Hresp).
  destruct (recvTimingResp_ok n rq p id cpu l q s Hx Hresp) as (s' & l' & Hr & Hx' & Hl' & Hrq & Hk & Ho).
  simpl. rewrite Hr, res_bind_Ok. do 2 eexists. split; [done|]. split; [done|].
  destruct Hresp as [Hroute _ _ _ _ Hl _ Hq _]. split.
  - destruct (Layer.free l).
    + destruct Ho as (p' & q' & w & _ & (Hperm & _) & Hports & Hdel & _).
      pose proof (xi_route _ _ Hx _ _ Hroute) as Hcpu.
      rewrite (grown_at s s' cpu q q'); [|lia|done|done|].
      * unfold ledger. simpl. rewrite Hdel, app_nil_r. by rewrite <-(map_to_list_delete (routeTo s) rq cpu).
      * apply Permutation_length in Hperm. rewrite length_app, !length_fmap in Hperm. simpl in Hperm. lia.
    + destruct Ho as (_ & Ho & _). by apply ledger_refl.
  - intros [|]; simpl; [rewrite Hrq; apply keeps_refl|]. rewrite Hl'. by eapply keeps_put.
Qed.

Lemma handle_ok n c s :
  xinv n s → sane n c s → ∃ ev s', handle n c s = Ok (ev, s') ∧ proceeds n ev s s'.
Proof. destruct c; [apply handle_req_ok|apply handle_resp_ok]. Qed.

Lemma proceeds_trans n e1 e2 s1 s2 s3 :
  proceeds n e1 s1 s2 → proceeds n e2 s2 s3 → proceeds n (e1 ++ e2) s1 s3.
Proof.
  intros (_ & ? & ?) (? & ? & ?). split_and!; [done|by eapply ledger_trans|by eapply kept_trans].
Qed.

Lemma handle_all_ok n cs s :
  xinv n s → sane_all n cs s → ∃ ev s', handle_all n cs s = Ok (ev, s') ∧ proceeds n ev s s'.
Proof.
  revert s. induction cs as [|c cs IH]; intros s Hx Hs; simpl.
  { do 2 eexists. split; [done|]. split_and!; [done|by apply ledger_refl|by apply kept_refl]. }
  destruct Hs as [Hs Hall]. destruct (handle_ok n c s Hx Hs) as (e1 & s1 & H1 & Hp1).
  rewrite H1, res_bind_Ok. destruct (IH s1) as (e2 & s2 & -> & Hp2); [apply Hp1|by eapply Hall|].
  rewrite res_bind_Ok. do 2 eexists. split; [done|]. by eapply proceeds_trans.
Qed.

(** Replacing one layer. *)
Lemma layers_set d id l s : layers d (set_layer d id l s) = put_at id l (layers d s).
Proof. by destruct d. Qed.

Lemma layers_set_other d d' id l s : d ≠ d' → layers d' (set_layer d id l s) = layers d' s.
Proof. by destruct d, d'. Qed.

Lemma set_layer_twice d id l l' s : set_layer d id l (set_layer d id l' s) = set_layer d id l s.
Proof. destruct d; unfold set_layer; simpl; by rewrite put_at_twice. Qed.

Lemma route_set d id l s : routeTo (set_layer d id l s) = routeTo s.
Proof. by destruct d. Qed.

Lemma layer_inv n d i l s : xinv n s → layers d s !! i = Some l → Layer.inv n l.
Proof.
  intros [_ _ _ Hrq Hrs _ _ _ _] Hl. rewrite Forall_forall in Hrq. rewrite Forall_forall in Hrs.
  destruct d; [apply Hrq|apply Hrs]; apply list_elem_of_lookup; eauto.
Qed.

Lemma set_layer_inv n d id l s : xinv n s → Layer.inv n l → xinv n (set_layer d id l s).
Proof.
  intros [[] Ha Hc Hrq Hrs Hid Hp Hr Hq] Hl. destruct d; constructor; simpl; try done; unfold put_at.
  - by apply Forall_insert.
  - by rewrite length_insert.
  - by apply Forall_insert.
  - by rewrite length_insert.
Qed.

(** All layers but one are settled. *)
Definition settled_but (d : side) (i : nat) (s : XBar.t) : Prop :=
  ∀ d' i' l, (d', i') ≠ (d, i) → layers d' s !! i' = Some l → Layer.state l ≠ Layer.RETRY.

Lemma settled_weaken d i s : settled s → settled_but d i s.
Proof. intros H d' i' l _ Hl. specialize (H d'). rewrite Forall_lookup in H. eauto. Qed.

Lemma settled_set d id l l0 s :
  settled_but d (Z.to_nat id) s → layers d s !! Z.to_nat id = Some l0 → Layer.state l ≠ Layer.RETRY →
  settled (set_layer d id l s).
Proof.
  intros H Hl0 Hl d'. apply Forall_lookup. intros i x Hx.
  destruct (decide (d' = d)) as [->|Hne]; [|rewrite layers_set_other in Hx by done; eapply (H d' i); [congruence|done]].
  rewrite layers_set in Hx. apply list_lookup_insert_Some in Hx as [(<- & <- & _)|[Hi Hx]]; [done|].
  eapply (H d i); [congruence|done].
Qed.

Lemma settled_but_set d id l s :
  settled_but d (Z.to_nat id) s → settled_but d (Z.to_nat id) (set_layer d id l s).
Proof.
  intros H d' i' x Hne Hx. destruct (decide (d' = d)) as [->|Hd].
  - rewrite layers_set in Hx. unfold put_at in Hx. rewrite list_lookup_insert_ne in Hx by congruence. eauto.
  - rewrite layers_set_other in Hx by done. eauto.
Qed.

Lemma kept_lookup s s' d i l' :
  layers_kept s s' → layers d s' !! i = Some l' → ∃ l, layers d s !! i = Some l ∧ Layer.keeps l l'.
Proof. intros H Hl. by eapply Forall2_lookup_r. Qed.

Lemma settled_kept d i s s' : settled_but d i s → layers_kept s s' → settled_but d i s'.
Proof.
  intros H Hk d' i' l Hne Hl. destruct (kept_lookup _ _ _ _ _ Hk Hl) as (l0 & Hl0 & [_ Hr]). eauto.
Qed.

(** ** Releases and retries *)

(** What a handler outside of all others does. *)
Definition completes (now : Z) (ev : list event) (s s' : XBar.t) : Prop :=
  xinv now s' ∧ ledger ev s s' ∧ settled s'.

Lemma retrying_ready n p rest l :
  Layer.ready n p rest l → Layer.retrying l = Layer.mk Layer.RETRY rest None None (Layer.occupancy l) (Layer.draining l).
Proof. intros []. unfold Layer.retrying, Layer.waiting. by rewrite rd_peer, rd_layer. Qed.

Lemma retryWaiting_completes n d id cs s l p rest :
  0 <= id → layers d s !! Z.to_nat id = Some l → Layer.ready n p rest l →
  xinv n (set_layer d id (Layer.retrying l) s) → settled_but d (Z.to_nat id) s →
  sane_all n cs (set_layer d id (Layer.retrying l) s) →
  ∃ ev s', retryWaiting n d id cs s = Ok (ev, s') ∧ completes n ev s s'.
Proof.
  intros Hid Hl Hrd Hx Hset Hs. unfold retryWaiting.
  rewrite (at_port_Some _ id l Hid Hl), res_bind_Ok.
  destruct (Layer.retry_start_ok n p rest l Hrd) as [-> _]. rewrite res_bind_Ok.
  rewrite <-(retrying_ready n p rest l Hrd).
  destruct (handle_all_ok n cs _ Hx Hs) as (ev & s1 & -> & Hx1 & Hled & Hk). rewrite res_bind_Ok.
  pose proof (settled_kept d (Z.to_nat id) _ s1 (settled_but_set d id _ s Hset) Hk) as Hset1.
  assert (ledger ev s s1) as Hled1 by (unfold ledger in *; by rewrite route_set in Hled).
  assert (∃ l1, layers d s1 !! Z.to_nat id = Some l1 ∧ Layer.state l1 ≠ Layer.IDLE) as (l1 & Hl1 & Hidle).
  { destruct (Forall2_lookup_l _ _ _ (Z.to_nat id) (Layer.retrying l) (Hk d)) as (l1 & Hl1 & [Hi _]).
    - rewrite layers_set. by eapply put_at_lookup.
    - exists l1. split; [done|]. apply Hi. by rewrite (retrying_ready n p rest). }
  rewrite (at_port_Some _ id l1 Hid Hl1), res_bind_Ok. unfold Layer.is_state.
  destruct (bool_decide _) eqn:Hr; [apply bool_decide_eq_true in Hr|apply bool_decide_eq_false in Hr].
  - destruct (clockEdge_at n 0 s1 (xi_clock _ _ Hx1) ltac:(lia)) as (edge & c & -> & Hc & Hedge).
    rewrite res_bind_Ok.
    destruct (Layer.retry_finish_ok n edge l1 (layer_inv _ _ _ _ _ Hx1 Hl1) Hidle ltac:(lia))
      as (l2 & -> & Hi2 & Hs2 & _). rewrite res_bind_Ok. do 2 eexists. split; [done|].
    assert (xinv n (set_clock c s1)) as Hx2 by (destruct Hx1 as [[] ? ? ? ? ? ? ? ?]; by constructor).
    split_and!; [by apply set_layer_inv|unfold ledger; by rewrite route_set|].
    apply (settled_set d id l2 l1); [by destruct d| |by rewrite Hs2].
    by destruct d.
  - do 2 eexists. split; [done|]. split_and!; [done..|]. intros d'. apply Forall_lookup. intros i x Hx'.
    destruct (decide ((d', i) = (d, Z.to_nat id))) as [[= -> ->]|Hne]; [congruence|]. by eapply Hset1.
Qed.

Lemma release_ok n d id cs s l :
  0 <= id → layers d s !! Z.to_nat id = Some l → Layer.releaseEvent l = Some n →
  xinv n s → settled s → sane_retry n d id cs s →
  ∃ ev s', releaseLayer n d id cs s = Ok (ev, s') ∧ completes n ev s s'.
Proof.
  intros Hid Hl He Hx Hset Hs. pose proof (layer_inv _ _ _ _ _ Hx Hl) as Hi. unfold releaseLayer.
  rewrite (at_port_Some _ id l Hid Hl), res_bind_Ok.
  destruct (Layer.release_start_ok n l Hi He) as (r & dr & l' & -> & Hw & Hcase & _). rewrite res_bind_Ok.
  pose proof (settled_weaken d (Z.to_nat id) s Hset) as Hset'. destruct r.
  - destruct Hcase as (p & rest & Hrd & Hwl & Hrt). specialize (Hs l Hl). rewrite Hrt in Hs.
    destruct (retryWaiting_completes n d id cs (set_layer d id l' s) l' p rest) as (ev & s2 & -> & Hx2 & Hled & ?);
      rewrite ?set_layer_twice; try done.
    + rewrite layers_set. by eapply put_at_lookup.
    + apply set_layer_inv; [done|]. rewrite (retrying_ready n p rest) by done.
      by destruct (Layer.retry_start_ok n p rest l' Hrd).
    + by apply settled_but_set.
    + do 2 eexists. split; [done|]. split_and!; [done| |done]. unfold ledger in *. by rewrite route_set in Hled.
  - destruct Hcase as [Hi' Hs']. do 2 eexists. split; [done|].
    split_and!; [by apply set_layer_inv|apply ledger_refl, route_set|].
    eapply settled_set; [done..|]. by rewrite Hs'.
Qed.

Lemma retry_ok n id cs s l :
  0 <= id → reqLayers s !! Z.to_nat id = Some l → Layer.waitingForPeer l ≠ None →
  xinv n s → settled s → sane_retry n Requests id cs s →
  ∃ ev s', recvReqRetry n id cs s = Ok (ev, s') ∧ completes n ev s s'.
Proof.
  intros Hid Hl He Hx Hset Hs. pose proof (layer_inv _ Requests _ _ _ Hx Hl) as Hi. unfold recvReqRetry.
  rewrite (at_port_Some _ id l Hid Hl), res_bind_Ok.
  destruct (Layer.waitingForPeer l) as [p|] eqn:Hp; [|done].
  assert (Layer.state l ≠ Layer.RETRY) as Hnr.
  { specialize (Hset Requests). rewrite Forall_lookup in Hset. by eapply Hset. }
  destruct (Layer.recvRetry_start_ok n l p Hi Hnr Hp) as (r & l' & -> & Hw & Hcase & _). rewrite res_bind_Ok.
  pose proof (settled_weaken Requests (Z.to_nat id) s Hset) as Hset'. destruct r.
  - destruct Hcase as (rest & Hrd & Hwl & Hrt). specialize (Hs l Hl). rewrite Hrt in Hs.
    destruct (retryWaiting_completes n Requests id cs (set_layer Requests id l' s) l' p rest)
      as (ev & s2 & -> & Hx2 & Hled & ?); rewrite ?set_layer_twice; try done.
    + rewrite layers_set. by eapply put_at_lookup.
    + apply set_layer_inv; [done|]. rewrite (retrying_ready n p rest) by done.
      by destruct (Layer.retry_start_ok n p rest l' Hrd).
    + by apply settled_but_set.
    + do 2 eexists. split; [done|]. split_and!; done.
  - destruct Hcase as [Hi' Hs']. do 2 eexists. split; [done|].
    split_and!; [by apply set_layer_inv|by apply ledger_refl|].
    eapply (settled_set Requests); [done..|]. by rewrite Hs'.
Qed.

Lemma queue_send_ok n (again accepted : bool) q :
  0 <= n < PacketQueue.MaxTick → PacketQueue.list_ok q → PacketQueue.pending_ok n q →
  (if again then PacketQueue.waitingOnRetry q = true else PacketQueue.sendEvent q = Some n) →
  ∃ o d q', (if again then PacketQueue.retry n [] accepted q
             else PacketQueue.processSendEvent n [] accepted q) = Ok (o, d, q') ∧
    PacketQueue.list_ok q' ∧ PacketQueue.pending_ok n q'.
Proof.
  intros Hn Hl Hp Hev.
  assert (∃ x l, PacketQueue.transmitList q = x :: l ∧ x.2 <= n ∧
    PacketQueue.waitingOnRetry q = again ∧ (again = true → PacketQueue.sendEvent q = None)) as (x & l & Hq & Hxn & Hw & He).
  { unfold PacketQueue.pending_ok in Hp. destruct (PacketQueue.transmitList q) as [|[p tick] l].
    { destruct Hp. destruct again; congruence. }
    exists (p, tick), l. simpl. destruct (PacketQueue.waitingOnRetry q), again; try done.
    - destruct Hp. by split_and!.
    - destruct Hp; congruence.
    - destruct Hp as (x & Hx & ? & ?). assert (x = n) as -> by congruence. done. }
  set (q0 := if again then PacketQueue.set_waiting false q else PacketQueue.set_event None q).
  assert (PacketQueue.list_ok q0 ∧ PacketQueue.sendEvent q0 = None ∧ PacketQueue.waitingOnRetry q0 = false ∧
    PacketQueue.transmitList q0 = x :: l) as (Hl0 & He0 & Hw0 & Hq0).
  { unfold q0. destruct again; (split; [by apply (PacketQueue.list_ok_ext q)|]); simpl; auto. }
  destruct (PacketQueue.sendDeferredPacket_total n [] accepted q0 x l) as (d & q' & Hs);
    [done|done|by left|done..|].
  destruct (PacketQueue.sendDeferredPacket_ok n [] accepted q0 (if accepted then Some x else None) d q' Hn)
    as (Hp' & Hl' & _); [by split|done..|].
  exists (if accepted then Some x else None), d, q'. split; [|done]. unfold q0 in *.
  destruct again; unfold PacketQueue.retry, PacketQueue.processSendEvent; simpl; rewrite Hw; simpl; by rewrite <-Hs.
Qed.

Lemma sendResponse_ok n cpu again accepted s q :
  0 <= n < PacketQueue.MaxTick → 0 <= cpu → cpuSidePorts s !! Z.to_nat cpu = Some q →
  (if again : bool then PacketQueue.waitingOnRetry q = true else PacketQueue.sendEvent q = Some n) →
  xinv n s → settled s →
  ∃ s', sendResponse n cpu again accepted s = Ok s' ∧ completes n [] s s'.
Proof.
  intros Hn Hcpu Hq Hev Hx Hset. unfold sendResponse. rewrite (at_port_Some _ cpu q Hcpu Hq), res_bind_Ok.
  pose proof Hx as [[] Ha Hc Hrq Hrs Hid Hp Hr Hqs]. pose proof (proj1 (Forall_lookup _ _) Hqs _ _ Hq) as [Hl Hpd].
  destruct (queue_send_ok n again accepted q Hn Hl Hpd Hev) as (o & d & q' & -> & Hl' & Hp').
  rewrite res_bind_Ok. eexists. split; [done|]. split_and!; [|by apply ledger_refl|].
  - constructor; simpl; try done; unfold put_at; rewrite ?length_insert; try done. by apply Forall_insert.
  - intros d'. specialize (Hset d'). by destruct d'.
Qed.

Lemma settled_of_kept s s' : settled s → layers_kept s s' → settled s'.
Proof.
  intros H Hk d. apply Forall_lookup. intros i l Hl.
  destruct (kept_lookup _ _ _ _ _ Hk Hl) as (l0 & Hl0 & [_ Hr]). apply Hr.
  specialize (H d). rewrite Forall_lookup in H. eauto.
Qed.

(** Whatever happens, the handler does not fail. *)
Lemma perform_ok c a :
  ok c → enabled (now c) a (st c) →
  ∃ ev s', perform (now c) a (st c) = Ok (ev, s') ∧ completes (now c) ev (st c) s'.
Proof.
  intros [Hn Hx Hset _] Hen. destruct a as [cl|d id cs|id cs|cpu again acc]; simpl in Hen |- *.
  - destruct (handle_ok _ _ _ Hx Hen) as (ev & s' & -> & ? & ? & ?). do 2 eexists. split; [done|].
    split_and!; [done..|]. by eapply settled_of_kept.
  - destruct Hen as (Hid & (l & Hl & He) & Hs). by eapply release_ok.
  - destruct Hen as (Hid & (l & Hl & He) & Hs). by eapply retry_ok.
  - destruct Hen as (Hid & q & Hq & He).
    destruct (sendResponse_ok (now c) cpu again acc (st c) q) as (s' & -> & ?); try done. rewrite res_bind_Ok. eauto.
Qed.

Lemma time_inv n n' s :
  xinv n s → n <= n' → n' + 3 * clockPeriod (cfg s) < PacketQueue.MaxTick → reaches n' s → xinv n' s.
Proof.
  intros [? ? Hc Hrq Hrs ? ? ? Hqs] Hn Hb [Hr1 Hr2]. constructor; try done.
  - destruct Hc as (? & ? & ? & ? & ?). unfold clock_ok, PacketQueue.MaxTick in *. split_and!; try done; lia.
  - apply Forall_forall. intros l Hl. rewrite Forall_forall in Hrq. apply (Layer.inv_time n); auto.
    intros x. by apply (Hr1 Requests).
  - apply Forall_forall. intros l Hl. rewrite Forall_forall in Hrs. apply (Layer.inv_time n); auto.
    intros x. by apply (Hr1 Responses).
  - apply Forall_forall. intros q Hq. rewrite Forall_forall in Hqs. destruct (Hqs q Hq) as [? ?].
    split; [done|]. eapply PacketQueue.queue_pending_time; [done|done|]. intros x. by apply Hr2.
Qed.

Lemma crossbar_step_ok c c' : ok c → step c c' → ok c'.
Proof.
  intros Hok Hst. pose proof Hok as [Hn Hx Hset Hlog]. destruct Hst as [c n Hle Hb Hr|c a ev s' Hen Hp].
  - constructor; simpl; try done; [|by eapply time_inv].
    destruct (xi_clock _ _ Hx) as (_ & ? & _). lia.
  - destruct (perform_ok c a Hok Hen) as (ev' & s'' & Hp' & Hx' & Hled & Hset').
    rewrite Hp in Hp'. injection Hp' as <- <-. constructor; simpl; try done.
    rewrite forwarded_app, delivered_app, Hlog, <-!app_assoc. by apply Permutation_app_head.
Qed.

(** C6: in every run of the crossbar, with requests, responses, releases of its
    layers, retries and the calls they cause in any order, every request that a
    memory has accepted and has to answer is either still in the routing table,
    with the port that sent it, or its response has been queued at that port,
    once; and no handler fails, whatever happens next. *)
Theorem crossbar_runs c0 c :
  ok c0 → rtc step c0 c →
  forwarded (log c) ≡ₚ delivered (log c) ++ map_to_list (routeTo (st c)) ∧
  (∀ a, enabled (now c) a (st c) → ∃ ev s', perform (now c) a (st c) = Ok (ev, s')).
Proof.
  intros Hok Hrun. assert (ok c) as Hc.
  { induction Hrun as [|c0 c1 c2 Hst _ IH]; [done|]. by apply IH, (crossbar_step_ok c0). }
  split; [apply Hc|]. intros a Hen. destruct (perform_ok c a Hc Hen) as (ev & s' & ? & _). eauto.
Qed.

(** ** A run of the small crossbar *)

(** Port 1 reads 8 bytes at 0x8010; the memory answers at tick 2000. *)
Definition demo_start : sys := mkSys 1000 XBar.demo [].

Definition demo_resp : Packet.t :=
  match Packet.makeResponse (demo_pkt 0x8010) with Ok p => p | Fail _ => demo_pkt 0x8010 end.

Definition after (c : sys) (a : action) : sys :=
  match perform (now c) a (st c) with
  | Ok (ev, s) => mkSys (now c) s (log c ++ ev)
  | Fail _ => c
  end.

Definition demo_sent : sys := after demo_start (Call (Req 1 (demo_pkt 0x8010) 1 true)).

Definition demo_later : sys := mkSys 1500 (st demo_sent) (log demo_sent).

Definition demo_free : sys := after demo_later (Release Requests 1 []).

Definition demo_end : sys := after demo_free (Call (Resp 1 demo_resp 1)).

Lemma demo_start_ok : ok demo_start.
Proof.
  assert (Layer.inv 1000 Layer.create) as Hl by (constructor; simpl; [constructor|lia|done]).
  constructor; [vm_compute; split; congruence| | |vm_compute; constructor].
  - constructor.
    + exact demo_decoder.
    + vm_compute. reflexivity.
    + split; [by vm_compute|]. vm_compute. by split_and!.
    + change (Forall (Layer.inv 1000) [Layer.create; Layer.create]). by repeat constructor.
    + change (Forall (Layer.inv 1000) [Layer.create; Layer.create]). by repeat constructor.
    + simpl st. rewrite demo_tree.
      intros e [->|[->|[]%elem_of_nil]%elem_of_cons]%elem_of_cons; vm_compute; split; congruence.
    + vm_compute. reflexivity.
    + intros rq c. vm_compute. discriminate.
    + change (Forall (λ q, PacketQueue.list_ok q ∧ PacketQueue.pending_ok 1000 q)
        [PacketQueue.create false false; PacketQueue.create false false]).
      repeat constructor; vm_compute; congruence || constructor.
  - intros [|]; vm_compute; repeat constructor; discriminate.
Qed.

(** The delays of a packet that comes without any. *)
Lemma demo_delay d p s :
  cfg s = cfg XBar.demo → 0 <= d <= 1000 →
  Packet.headerDelay p = 0 → Packet.payloadDelay p = 0 → Packet.getSize p = Ok 8 → delay_ok d p s.
Proof.
  intros Hc Hd Hh Hp Hn. unfold delay_ok. rewrite Hc, Hh, Hp, Hn.
  change (us (cfg XBar.demo)) with 1000000. change (clockPeriod (cfg XBar.demo)) with 500.
  change (width (cfg XBar.demo)) with 16. split_and!; try lia. intros _. exists 8. by split_and!.
Qed.

Lemma demo_request : enabled 1000 (Call (Req 1 (demo_pkt 0x8010) 1 true)) XBar.demo.
Proof.
  exists 1, Layer.create. constructor.
  - vm_compute. split; congruence.
  - reflexivity.
  - exists 0x8010, 8, (AddrRange.plain 0x8000 0x8100). rewrite demo_tree.
    split_and!; [reflexivity|reflexivity|lia|lia|lia|right; left|simpl; lia|simpl; lia].
  - vm_compute. split; congruence.
  - by apply demo_delay.
  - vm_compute. reflexivity.
  - vm_compute. reflexivity.
  - vm_compute. reflexivity.
  - vm_compute. intros ?%elem_of_nil. done.
Qed.

Lemma demo_release : enabled 1500 (Release Requests 1 []) (st demo_later).
Proof.
  split; [lia|]. split; [|by intros l _].
  exists (Layer.mk Layer.BUSY [] None (Some 1500) 500 false). split; vm_compute; reflexivity.
Qed.

Lemma demo_response : enabled 1500 (Call (Resp 1 demo_resp 1)) (st demo_free).
Proof.
  exists 1, Layer.create, (PacketQueue.create false false). constructor.
  - vm_compute. reflexivity.
  - reflexivity.
  - reflexivity.
  - by apply demo_delay; [vm_compute|vm_compute; split|..].
  - vm_compute. reflexivity.
  - vm_compute. reflexivity.
  - intros ?%elem_of_nil. done.
  - vm_compute. reflexivity.
  - right. simpl. lia.
Qed.

Lemma demo_reaches : reaches 1500 (st demo_sent).
Proof.
  split.
  - intros [|] l x Hl; vm_compute in Hl;
      apply elem_of_cons in Hl as [->|[->|[]%elem_of_nil]%elem_of_cons]; simpl; intros [=]; lia.
  - intros q x Hq; vm_compute in Hq.
    apply elem_of_cons in Hq as [->|[->|[]%elem_of_nil]%elem_of_cons]; simpl; intros [=].
Qed.

Lemma after_step c a :
  enabled (now c) a (st c) → (if perform (now c) a (st c) then true else false) = true → step c (after c a).
Proof.
  intros He Hp. unfold after. destruct (perform (now c) a (st c)) as [[ev s]|f] eqn:E; [|done].
  by apply (step_action c a).
Qed.

Lemma demo_crossbar_run : rtc step demo_start demo_end.
Proof.
  apply (rtc_l _ _ demo_sent), (rtc_l _ _ demo_later), (rtc_l _ _ demo_free), rtc_once.
  - apply after_step; [exact demo_request|]. vm_compute. reflexivity.
  - apply (step_time demo_sent 1500); [vm_compute; congruence..|exact demo_reaches].
  - apply after_step; [exact demo_release|]. vm_compute. reflexivity.
  - apply after_step; [exact demo_response|]. vm_compute. reflexivity.
Qed.

Lemma crossbar_runs_witness :
  rtc step demo_start demo_end ∧ forwarded (log demo_end) ≡ₚ [(1%positive, 1)] ∧
  delivered (log demo_end) = [(1%positive, 1)].
Proof.
  destruct (crossbar_runs demo_start demo_end demo_start_ok demo_crossbar_run) as [Hlog _].
  split; [exact demo_crossbar_run|]. split; [exact Hlog|]. vm_compute. reflexivity.
Defined.

End XBarRun.
