(* ===== verification/XBarMemory.v ===== *)
(** A crossbar with memories behind its ports, seen from its CPU side: the
    atomic and functional accesses of [mem/noncoherent_xbar.cc], and the proof
    that the whole is a memory again. *)

From S2P Require Import Prelude AddrRange AddrRangeMap Host Request MemCmd Packet PacketQueue.
From S2P Require Import AbstractMem MemInterface XBar.
Import Host XBar AddrRangeMap(tree).

Module XBarMemory.

(** The memories by the id of the memory-side port they are connected to. *)
Record t (M : Type) := mk {
  xbar : XBar.t;
  mems : list M;
}.
Arguments mk {M} xbar mems.
Arguments xbar {M} t.
Arguments mems {M} t.

Section Hybrid.
Context {M : Type} `{!ByteMemory M}.

(** [recvAtomicBackdoor(pkt, src, nullptr)], [j] being the random part of the
    memory's latency. *)
Definition recvAtomic (j : Z) (p : Packet.t) (s : t M) (h : hmem)
    : res (Packet.t * t M * hmem * Z) :=
  '(id, x) ← findPort_pkt p (xbar s);
  m ← at_port (mems s) id;
  '(p, m, h, response_latency) ← MemInterface.recvAtomic j p m h;
  Ok (Packet.set_delays (Packet.headerDelay p) (u32 response_latency) p,
      mk x (put_at id m (mems s)), h, response_latency).

(** The queued responses that may hold newer data than the memories. *)
Fixpoint check_ports (l : list PacketQueue.t) (p : Packet.t) (h : hmem)
    : res (bool * Packet.t * hmem) :=
  match l with
  | [] => Ok (false, p, h)
  | q :: l =>
      '(found, p, h) ← PacketQueue.trySatisfyFunctional p q h;
      if found : bool then Ok (true, p, h) else check_ports l p h
  end.

(** [recvFunctional(pkt, src)]; [send] is the functional access of a memory. *)
Definition recvFunctional (send : Packet.t → M → hmem → res (Packet.t * M * hmem)) (p : Packet.t)
    (s : t M) (h : hmem) : res (Packet.t * t M * hmem) :=
  '(found, p, h) ← check_ports (cpuSidePorts (xbar s)) p h;
  if found : bool then
    p ← (if Packet.needsResponse p then Packet.makeResponse p else Ok p);
    Ok (p, s, h)
  else
    '(id, x) ← findPort_pkt p (xbar s);
    m ← at_port (mems s) id;
    '(p, m, h) ← send p m h;
    Ok (p, mk x (put_at id m (mems s)), h).

(** ** The crossbar and its memories as one memory *)

(** The port that an address is routed to. *)
Definition route (s : t M) (a : Z) : option Z :=
  option_map (λ e, e.2.2)
    (list_find (λ e, AddrRange.contains e.1 a = true) (tree (portMap (xbar s)))).

(** The byte at an address is that of the memory it is routed to. *)
Definition contents (s : t M) (h : hmem) (a : Z) : option Z :=
  match route s a with
  | Some id => match mems s !! Z.to_nat id with Some m => MemInterface.contents m h a | None => None end
  | None => None
  end.

Definition owns (s : t M) (b : positive) : Prop :=
  ∃ i m, mems s !! i = Some m ∧ MemInterface.owns m b.

Definition accepts (s : t M) (a n : Z) : Prop :=
  ∃ r id m, (r, id) ∈ tree (portMap (xbar s)) ∧ mems s !! Z.to_nat id = Some m ∧
    AddrRange._start r <= a ∧ a + n <= AddrRange._end r ∧ MemInterface.accepts m a n.

(** All ranges are known, and no two memories share a buffer; a range that is not
    a memory's may be a device's. *)
Record inv (s : t M) (h : hmem) : Prop := {
  inv_decoder : decoder (xbar s);
  inv_all : gotAllAddrRanges (xbar s) = true;
  inv_ids e : e ∈ tree (portMap (xbar s)) → 0 <= e.2;
  inv_mems i m : mems s !! i = Some m → MemInterface.inv m h;
  inv_apart i j m m' b : mems s !! i = Some m → mems s !! j = Some m' →
    MemInterface.owns m b → MemInterface.owns m' b → i = j;
}.

Lemma route_at s r id a :
  AddrRangeMap.wf (portMap (xbar s)) → (r, id) ∈ tree (portMap (xbar s)) →
  AddrRange._start r <= a < AddrRange._end r → route s a = Some id.
Proof.
  intros [Hp Hs _] He Ha. destruct (proj1 (Forall_forall _ _) Hp _ He) as (Hc & _).
  apply AddrRange.contains_contiguous in Ha; [|done]. unfold route.
  destruct (list_find _ _) as [[i e']|] eqn:Hf; simpl.
  - apply list_find_Some in Hf as (Hi & He' & _).
    assert (e' = (r, id)) as ->; [|done].
    eapply AddrRangeMap.tree_unique; [done|done|apply list_elem_of_lookup; eauto|done|done|done].
  - apply list_find_None in Hf. rewrite Forall_forall in Hf. by destruct (Hf _ He).
Qed.

Lemma route_id s h a id : inv s h → route s a = Some id → 0 <= id.
Proof.
  intros Hi. unfold route. destruct (list_find _ _) as [[i e]|] eqn:Hf; [|done]. intros [= <-].
  apply list_find_Some in Hf as (Hf & _). eapply inv_ids; [done|]. apply list_elem_of_lookup; eauto.
Qed.

(** An access that changes the memory of port [id] and leaves the buffers of the
    others alone. *)
Record access (id : Z) (m m' : M) (s : t M) (h h' : hmem) : Prop := {
  ac_id : 0 <= id;
  ac_mem : mems s !! Z.to_nat id = Some m;
  ac_same : same_memory m m';
  ac_inv : MemInterface.inv m' h';
  ac_bounds q k : in_bounds h' q k = in_bounds h q k;
  ac_others j mj b i : j ≠ Z.to_nat id → mems s !! j = Some mj → MemInterface.owns mj b →
    peek h' b i = peek h b i;
}.

Section Access.
Variables (id : Z) (m m' : M) (s : t M) (h h' : hmem) (x : XBar.t).
Hypothesis (Hinv : inv s h) (Hx : same_decoder (xbar s) x) (Hac : access id m m' s h h').

Let s' := mk x (put_at id m' (mems s)).

Lemma mems_after j mj :
  mems s' !! j = Some mj →
  (j = Z.to_nat id ∧ mj = m') ∨ (j ≠ Z.to_nat id ∧ mems s !! j = Some mj).
Proof.
  unfold s', put_at. simpl. intros [(<- & <- & _)|[? ?]]%list_lookup_insert_Some; auto.
Qed.

Lemma mems_before j mj :
  mems s !! j = Some mj →
  ∃ mj', mems s' !! j = Some mj' ∧ same_memory mj mj'.
Proof.
  destruct Hac as [_ Hm Hsame _ _ _]. intros Hj. destruct (decide (j = Z.to_nat id)) as [->|Hne].
  - simplify_eq. exists m'. split; [|done]. by eapply put_at_lookup.
  - exists mj. split; [|apply same_memory_refl]. unfold s', put_at. simpl.
    by rewrite list_lookup_insert_ne.
Qed.

Lemma mems_after_same j mj :
  mems s' !! j = Some mj → ∃ mj', mems s !! j = Some mj' ∧ same_memory mj' mj.
Proof.
  intros [[-> ->]|[_ Hj]]%mems_after; [exists m; by destruct Hac|]. exists mj.
  split; [done|apply same_memory_refl].
Qed.

Lemma access_inv : inv s' h'.
Proof.
  pose proof Hx as (Hd & Ht & mp & Heq). constructor.
  - done.
  - simpl. rewrite Heq. apply (inv_all _ _ Hinv).
  - simpl. rewrite Ht. apply (inv_ids _ _ Hinv).
  - intros j mj [[-> ->]|[Hne Hj]]%mems_after; [by destruct Hac|].
    refine (proj1 (memory_frame mj h h' (inv_mems _ _ Hinv j mj Hj) _ _)).
    + intros b i Hb. by apply (ac_others _ _ _ _ _ _ Hac j mj).
    + intros q k _. apply (ac_bounds _ _ _ _ _ _ Hac).
  - intros i j mi mj b (mi' & Hi & Hoi & _)%mems_after_same (mj' & Hj & Hoj & _)%mems_after_same Hbi Hbj.
    eapply (inv_apart _ _ Hinv i j mi' mj' b); [done..|by apply Hoi|by apply Hoj].
Qed.

Lemma access_same :
  (∀ b, owns s' b ↔ owns s b) ∧ (∀ a n, accepts s' a n ↔ accepts s a n) ∧
  Node (tree (portMap (xbar s'))) (MemInterface.layout <$> mems s') =
    Node (tree (portMap (xbar s))) (MemInterface.layout <$> mems s).
Proof.
  pose proof Hx as (_ & Ht & _). split_and!.
  - intros b. split; intros (i & mi & Hi & Hb).
    + apply mems_after_same in Hi as (mj & Hj & Ho & _). exists i, mj. split; [done|]. by apply Ho.
    + apply mems_before in Hi as (mj & Hj & Ho & _). exists i, mj. split; [done|]. by apply Ho.
  - intros a n. unfold accepts. simpl. rewrite Ht.
    split; intros (r & i & mi & Hr & Hi & ? & ? & Hb); exists r, i.
    + apply mems_after_same in Hi as (mj & Hj & _ & Ho & _). exists mj. split_and!; try done. by apply Ho.
    + apply mems_before in Hi as (mj & Hj & _ & Ho & _). exists mj. split_and!; try done. by apply Ho.
  - f_equal; [done|]. unfold s', put_at. simpl. destruct Hac as [_ Hm (_ & _ & Hl) _ _ _].
    rewrite list_fmap_insert, Hl. apply list_insert_id. by rewrite list_lookup_fmap, Hm.
Qed.

Lemma access_contents a :
  contents s' h' a = if decide (route s a = Some id) then MemInterface.contents m' h' a else contents s h a.
Proof.
  pose proof Hx as (_ & Ht & _). unfold contents.
  assert (route s' a = route s a) as -> by (unfold route; simpl; by rewrite Ht).
  destruct (route s a) as [i|] eqn:Hr; [|by case_decide].
  pose proof (route_id _ _ _ _ Hinv Hr) as Hi. case_decide as Heq.
  - injection Heq as ->. unfold s'. simpl. by rewrite (put_at_lookup _ _ m' m) by (by destruct Hac).
  - assert (Z.to_nat i ≠ Z.to_nat id) as Hne by (intros ?; apply Heq; f_equal; pose proof (ac_id _ _ _ _ _ _ Hac); lia).
    unfold s', put_at. simpl. rewrite list_lookup_insert_ne by done.
    destruct (mems s !! Z.to_nat i) as [mi|] eqn:Hmi; [|done].
    refine (proj2 (memory_frame mi h h' (inv_mems _ _ Hinv _ _ Hmi) _ _) a).
    + intros b k Hb. by apply (ac_others _ _ _ _ _ _ Hac (Z.to_nat i) mi).
    + intros q k _. apply (ac_bounds _ _ _ _ _ _ Hac).
Qed.

End Access.

(** The memory that serves an access, and the decoder that finds it. *)
Lemma access_find s h p d n :
  inv s h → Packet.flag p Packet.VALID_ADDR = true → Packet.has_buffer h p d n → 0 < n →
  accepts s (Packet.addr p) n →
  ∃ id m x, findPort_pkt p (xbar s) = Ok (id, x) ∧ same_decoder (xbar s) x ∧ 0 <= id ∧
    mems s !! Z.to_nat id = Some m ∧ MemInterface.accepts m (Packet.addr p) n ∧
    (∀ a, Packet.addr p <= a < Packet.addr p + n → route s a = Some id).
Proof.
  intros Hinv Hva Hb Hn (r & id & m & Hin & Hm & Hs & He & Hacc).
  pose proof (inv_decoder _ _ Hinv) as Hd. destruct (dec_map _ Hd) as [Hp _ _].
  destruct (proj1 (Forall_forall _ _) Hp _ Hin) as (_ & Hr & Hr'). simpl in Hr, Hr'.
  assert (Packet.getAddr p = Ok (Packet.addr p)) as Ha by (unfold Packet.getAddr; by rewrite Hva).
  destruct (findPort_pkt_ok p (Packet.addr p) n (xbar s) Hd (inv_all _ _ Hinv) Ha
    (Packet.getSize_buffer _ _ _ _ Hb)) as [Hf _]; [lia..|].
  destruct (Hf r id Hin Hs He) as (x & Hx & Hsame).
  exists id, m, x. pose proof (inv_ids _ _ Hinv _ Hin) as Hid. simpl in Hid. split_and!; try done.
  intros a Har. eapply route_at; [apply Hd|done|lia].
Qed.

#[global] Program Instance crossbar_memory : ByteMemory (t M) := {
  MemInterface.recvAtomic := recvAtomic;
  MemInterface.contents := contents;
  MemInterface.owns := owns;
  MemInterface.accepts := accepts;
  MemInterface.layout s := Node (tree (portMap (xbar s))) (MemInterface.layout <$> mems s);
  MemInterface.inv := inv;
}.
Next Obligation.
  intros s h h' Hinv Hp Hb.
  assert (∀ i m, mems s !! i = Some m →
    MemInterface.inv m h' ∧ ∀ a, MemInterface.contents m h' a = MemInterface.contents m h a) as Hf.
  { intros i m Hi. apply memory_frame; [by eapply inv_mems| |].
    - intros b k Ho. apply Hp. by exists i, m.
    - intros q n Ho. apply Hb. by exists i, m. }
  split.
  - destruct Hinv. constructor; try done. intros i m Hi. by destruct (Hf i m Hi).
  - intros a. unfold contents. destruct (route s a) as [id|]; [|done].
    destruct (mems s !! Z.to_nat id) as [m|] eqn:Hm; [|done]. by destruct (Hf _ _ Hm).
Qed.
Next Obligation.
  intros j p s h d n Hinv Hpl Hva Hb Hn Ho Hacc. unfold recvAtomic.
  destruct (access_find s h p d n) as (id & m & x & -> & Hx & Hid & Hm & Ham & Hroute); [done..|].
  rewrite res_bind_Ok, (at_port_Some _ _ m) by done. rewrite res_bind_Ok.
  destruct (memory_read j p m h d n) as (p' & m' & h' & lat & -> & Hans & Hi' & Hsame & Hd & Hc & Hpk & Hbd);
    try done; [by eapply inv_mems|intros ?; apply Ho; by exists (Z.to_nat id), m|].
  assert (access id m m' s h h') as Hac.
  { constructor; try done. intros k mk b i Hk Hmk Hob. apply Hpk. left. intros ->. apply Ho. by exists k, mk. }
  rewrite res_bind_Ok. do 4 eexists. split; [done|]. split; [by apply Packet.answers_delayed|].
  split; [by eapply access_inv|]. split; [by eapply access_same|]. split.
  - intros i Hir. rewrite Hd by done. unfold contents. by rewrite Hroute, Hm by lia.
  - split; [|done]. intros a. rewrite (access_contents id m m' s h h' x) by done.
    case_decide as Hr; [|done]. rewrite Hc. unfold contents. by rewrite Hr, Hm.
Qed.
Next Obligation.
  intros j p s h d n Hinv Hpl Hmw Hva Hb Hn Ho Hacc. unfold recvAtomic.
  destruct (access_find s h p d n) as (id & m & x & -> & Hx & Hid & Hm & Ham & Hroute); [done..|].
  rewrite res_bind_Ok, (at_port_Some _ _ m) by done. rewrite res_bind_Ok.
  destruct (memory_write j p m h d n) as (p' & m' & h' & lat & -> & Hans & Hi' & Hsame & Hc & Hpk & Hbd);
    try done; [by eapply inv_mems|intros ?; apply Ho; by exists (Z.to_nat id), m|].
  assert (access id m m' s h h') as Hac.
  { constructor; try done. intros k mk b i Hk Hmk Hob. apply Hpk. intros Hob'. apply Hk.
    by apply (inv_apart _ _ Hinv k (Z.to_nat id) mk m b). }
  rewrite res_bind_Ok. do 4 eexists. split; [done|]. split; [by apply Packet.answers_delayed|].
  split; [by eapply access_inv|]. split; [by eapply access_same|]. split; [|split; [|done]].
  - intros a. rewrite (access_contents id m m' s h h' x) by done. rewrite Hc.
    destruct (decide (route s a = Some id)) as [Hr|Hr], (decide (_ <= a < _)) as [Ha|Ha]; try done.
    + unfold contents. by rewrite Hr, Hm.
    + by rewrite Hroute in Hr.
  - intros b i Hnb. apply Hpk. intros Hob. apply Hnb. by exists (Z.to_nat id), m.
Qed.

(** C9: a write through the crossbar followed by a read, each inside the range of
    some memory: both are answered, and the read returns the bytes written where
    the two overlap and the bytes of the memories elsewhere, whichever memories
    they are routed to. *)
Theorem crossbar_write_read j j' p d n q e n' s h :
  inv s h → ¬ owns s (block d) → ¬ owns s (block e) → accepts s (Packet.addr p) n →
  accepts s (Packet.addr q) n' → 0 < n → 0 < n' →
  AbstractMemory.plain_write p → Packet.isMaskedWrite p = false →
  Packet.flag p Packet.VALID_ADDR = true → Packet.has_buffer h p d n →
  AbstractMemory.plain_read q → Packet.flag q Packet.VALID_ADDR = true → Packet.has_buffer h q e n' →
  ∃ p' s1 h1 lat q' s2 h2 lat',
    recvAtomic j p s h = Ok (p', s1, h1, lat) ∧ recvAtomic j' q s1 h1 = Ok (q', s2, h2, lat') ∧
    Packet.answers p p' ∧ Packet.answers q q' ∧ inv s2 h2 ∧
    ∀ i, 0 <= i < n' → peek h2 (block e) (offset e + i) =
      if decide (Packet.addr p <= Packet.addr q + i < Packet.addr p + n)
      then peek h (block d) (offset d + (Packet.addr q + i - Packet.addr p))
      else contents s h (Packet.addr q + i).
Proof.
  intros Hinv Hd He Hap Haq Hn Hn' Hpw Hmw Hvp Hbp Hqr Hvq Hbq.
  destruct (memory_write j p s h d n) as (p' & s1 & h1 & lat & Hw & Hans & Hi1 & (Ho1 & Ha1 & _) & Hc & Hpk & Hbd);
    [done..|].
  destruct (memory_read j' q s1 h1 e n') as (q' & s2 & h2 & lat' & Hr & Hans' & Hi2 & _ & Hb & _); try done.
  - destruct Hbq. constructor; try done. by rewrite Hbd.
  - by intros ?%Ho1.
  - by apply Ha1.
  - exists p', s1, h1, lat, q', s2, h2, lat'. split_and!; try done. intros i Hi. by rewrite Hb, Hc.
Qed.

End Hybrid.
End XBarMemory.
