(* ===== verification/SimpleMem.v ===== *)
(** [SimpleMemory] of [mem/simple_mem.{hh,cc}]: the memory with a latency, a
    bandwidth limit and a queue of delayed responses. *)

From S2P Require Import Prelude AddrRange Host Request MemCmd Packet AbstractMem MemInterface.
Import Host.

Module SimpleMemory.
Import Packet(valid_addr, key, for_key, matchAddr_pkt_key, for_key_app, for_key_ne, for_key_insert).

(** [releaseEvent] and [dequeueEvent] hold the tick they are scheduled for;
    [draining] is [drainState() == DrainState::Draining]. *)
Record t := mk {
  mem : AbstractMemory.t;
  latency : Z;
  latency_var : Z;
  packetQueue : list (Packet.t * Z);
  isBusy : bool;
  retryReq : bool;
  retryResp : bool;
  releaseEvent : option Z;
  dequeueEvent : option Z;
  draining : bool;
}.

Definition set_mem (m : AbstractMemory.t) (s : t) : t :=
  mk m (latency s) (latency_var s) (packetQueue s) (isBusy s) (retryReq s) (retryResp s)
     (releaseEvent s) (dequeueEvent s) (draining s).

Definition create (m : AbstractMemory.t) (lat var : Z) : t :=
  mk m lat var [] false false false None None false.

(** [getLatency()]; [jitter] is the number drawn from [0, latency_var]. *)
Definition getLatency (jitter : Z) (s : t) : Z :=
  latency s + (if latency_var s =? 0 then 0 else jitter).

Definition recvAtomic (jitter : Z) (p : Packet.t) (s : t) (h : hmem)
    : res (Packet.t * t * hmem * Z) :=
  panic_unless! (negb (Packet.cacheResponding p));
  '(p, m, h) ← AbstractMemory.access p (mem s) h;
  let s := set_mem m s in
  Ok (p, s, h, getLatency jitter s).

Definition recvAtomicBackdoor (jitter : Z) (p : Packet.t) (s : t) (h : hmem)
    : res (Packet.t * t * hmem * Z * option ptr) :=
  '(p, s, h, lat) ← recvAtomic jitter p s h;
  Ok (p, s, h, lat, AbstractMemory.getBackdoor (mem s)).

(** The loop of [recvFunctional] over the queued responses. *)
Fixpoint check_queue (q : list (Packet.t * Z)) (p : Packet.t) (h : hmem) : res (Packet.t * hmem) :=
  match q with
  | [] => Ok (p, h)
  | (x, _) :: q =>
      '(done, p, h) ← Packet.trySatisfyFunctional_pkt h x p;
      if done : bool then Ok (p, h) else check_queue q p h
  end.

Definition recvFunctional (p : Packet.t) (s : t) (h : hmem) : res (Packet.t * hmem) :=
  '(p, h) ← AbstractMemory.functionalAccess p (mem s) h;
  check_queue (packetQueue s) p h.

(** The insertion of [recvTimingReq], on the reversed queue: from the back,
    past the entries that are due later and are for another address, but never
    past the first one.  (On an empty queue the code decrements [end()], which
    the circular list of the C++ library takes back to the same place.) *)
Fixpoint insert_rev (p : Packet.t) (when_to_send : Z) (rq : list (Packet.t * Z))
    : res (list (Packet.t * Z)) :=
  match rq with
  | [] => Ok [(p, when_to_send)]
  | [y] => Ok [(p, when_to_send); y]
  | y :: rest =>
      if when_to_send <? y.2 then
        same ← Packet.matchAddr_pkt p y.1;
        if same : bool then Ok ((p, when_to_send) :: rq)
        else rest ← insert_rev p when_to_send rest; Ok (y :: rest)
      else Ok ((p, when_to_send) :: rq)
  end.

Definition enqueue (p : Packet.t) (when_to_send : Z) (q : list (Packet.t * Z))
    : res (list (Packet.t * Z)) :=
  rq ← insert_rev p when_to_send (rev q); Ok (rev rq).

(** [schedule(event, when)] on one of the memory's events. *)
Definition schedule_at (now when : Z) (e : option Z) : res (option Z) :=
  assert! (now <=? when);
  assert! (bool_decide (e = None));
  Ok (Some when).

(** An idle response side schedules its event for [packetQueue.back()]. *)
Definition schedule_back (now : Z) (retry : bool) (e : option Z) (q : list (Packet.t * Z))
    : res (option Z) :=
  if negb retry && bool_decide (e = None) then
    match last q with
    | Some b => schedule_at now b.2 e
    | None => Fail UndefinedBehaviour
    end
  else Ok e.

(** [recvTimingReq(pkt)] at time [now]; [duration] is [pkt->getSize() * bandwidth],
    converted to ticks, and [jitter] the random part of the response latency. *)
Definition recvTimingReq (now duration jitter : Z) (p : Packet.t) (s : t) (h : hmem)
    : res (bool * t * hmem) :=
  panic_unless! (negb (Packet.cacheResponding p));
  panic_unless! (Packet.isRead p || Packet.isWrite p);
  if retryReq s then Ok (false, s, h)
  else if isBusy s then
    Ok (false, mk (mem s) (latency s) (latency_var s) (packetQueue s) (isBusy s) true
                  (retryResp s) (releaseEvent s) (dequeueEvent s) (draining s), h)
  else
    let receive_delay := Packet.headerDelay p + Packet.payloadDelay p in
    let p := Packet.set_delays 0 0 p in
    _ ← Packet.getSize p;
    '(busy, rel) ← (if duration =? 0 then Ok (isBusy s, releaseEvent s)
                    else r ← schedule_at now (now + duration) (releaseEvent s); Ok (true, r));
    let needsResponse := Packet.needsResponse p in
    '(p, s1, h, _) ← recvAtomic jitter p s h;
    if needsResponse then
      assert! (Packet.isResponse p);
      let when_to_send := now + receive_delay + getLatency jitter s1 in
      q ← enqueue p when_to_send (packetQueue s);
      deq ← schedule_back now (retryResp s) (dequeueEvent s) q;
      Ok (true, mk (mem s1) (latency s) (latency_var s) q busy (retryReq s) (retryResp s) rel deq
                   (draining s), h)
    else
      Ok (true, mk (mem s1) (latency s) (latency_var s) (packetQueue s) busy (retryReq s)
                   (retryResp s) rel (dequeueEvent s) (draining s), h).

(** [release()], run by its event; the flag says whether a request retry is sent. *)
Definition release (s : t) : res (bool * t) :=
  assert! (isBusy s);
  Ok (retryReq s, mk (mem s) (latency s) (latency_var s) (packetQueue s) false false (retryResp s)
                     None (dequeueEvent s) (draining s)).

(** The requests the peer makes while it handles a response, each with its
    [duration] and [jitter]; the peer is told which ones are refused. *)
Fixpoint reenter (now : Z) (reqs : list (Z * Z * Packet.t)) (s : t) (h : hmem) : res (t * hmem) :=
  match reqs with
  | [] => Ok (s, h)
  | (duration, jitter, p) :: reqs =>
      '(_, s, h) ← recvTimingReq now duration jitter p s h;
      reenter now reqs s h
  end.

(** [dequeue()] at time [now], with its event already off the queue when the
    event runs it; [accepted] is the peer's answer to [sendTimingResp], and
    [reqs] are the requests that get in between.  The results are the response
    sent and whether draining is complete. *)
Definition dequeue (now : Z) (reqs : list (Z * Z * Packet.t)) (accepted : bool) (s : t) (h : hmem)
    : res (option (Packet.t * Z) * bool * t * hmem) :=
  match packetQueue s with
  | [] => Fail AssertFailure
  | deferred_pkt :: _ =>
      '(s, h) ← reenter now reqs s h;
      if accepted then
        let q := tail (packetQueue s) in
        let drained := bool_decide (q = []) && draining s in
        let deq := match q with
                   | [] => dequeueEvent s
                   | (_, tick) :: _ => Some (Z.max tick now)
                   end in
        Ok (Some deferred_pkt, drained,
            mk (mem s) (latency s) (latency_var s) q (isBusy s) (retryReq s) false
               (releaseEvent s) deq (if drained then false else draining s), h)
      else
        Ok (None, false,
            mk (mem s) (latency s) (latency_var s) (packetQueue s) (isBusy s) (retryReq s) true
               (releaseEvent s) (dequeueEvent s) (draining s), h)
  end.

(** The event is no longer scheduled when it is processed. *)
Definition clear_event (s : t) : t :=
  mk (mem s) (latency s) (latency_var s) (packetQueue s) (isBusy s) (retryReq s) (retryResp s)
     (releaseEvent s) None (draining s).

(** The run of [dequeueEvent]. *)
Definition process_dequeue (now : Z) (reqs : list (Z * Z * Packet.t)) (accepted : bool) (s : t)
    (h : hmem) : res (option (Packet.t * Z) * bool * t * hmem) :=
  dequeue now reqs accepted (clear_event s) h.

Definition recvRespRetry (now : Z) (reqs : list (Z * Z * Packet.t)) (accepted : bool) (s : t)
    (h : hmem) : res (option (Packet.t * Z) * bool * t * hmem) :=
  assert! (retryResp s);
  dequeue now reqs accepted s h.

(** [drain()]: true when drained at once. *)
Definition drain (s : t) : bool * t :=
  let d := bool_decide (packetQueue s = []) in
  (d, mk (mem s) (latency s) (latency_var s) (packetQueue s) (isBusy s) (retryReq s) (retryResp s)
         (releaseEvent s) (dequeueEvent s) (negb d)).

(** ** The memory as a [ByteMemory] *)

Definition sm_inv (s : t) (h : hmem) : Prop :=
  ∃ pm, AbstractMemory.wf (mem s) h pm ∧ AbstractMemory.writeable (mem s) = true.

Definition sm_owns (s : t) (b : positive) : Prop :=
  ∃ pm, AbstractMemory.pmemAddr (mem s) = Some pm ∧ b = block pm.

Definition sm_accepts (s : t) (a n : Z) : Prop :=
  AddrRange._start (AbstractMemory.range (mem s)) <= a ∧
  a + n <= AddrRange._end (AbstractMemory.range (mem s)).

Lemma sm_same m m' s :
  AbstractMemory.same_config (mem s) m' → m = set_mem m' s →
  (∀ b, sm_owns m b ↔ sm_owns s b) ∧ (∀ a n, sm_accepts m a n ↔ sm_accepts s a n) ∧
  Leaf (AbstractMemory.range (mem m)) = Leaf (AbstractMemory.range (mem s)).
Proof.
  intros (Hr & Hp & _) ->. unfold sm_owns, sm_accepts. simpl. by rewrite Hp, Hr.
Qed.

Lemma sm_inside s p n :
  Packet.flag p Packet.VALID_ADDR = true → Packet.size p = n → 0 < n →
  sm_accepts s (Packet.addr p) n → AbstractMemory.inside p (mem s).
Proof. intros Hv <- Hn [? ?]. by constructor. Qed.

#[global] Program Instance simple_memory : ByteMemory t := {
  MemInterface.recvAtomic := recvAtomic;
  MemInterface.contents s := AbstractMemory.contents (mem s);
  MemInterface.owns := sm_owns;
  MemInterface.accepts := sm_accepts;
  MemInterface.layout s := Leaf (AbstractMemory.range (mem s));
  MemInterface.inv := sm_inv;
}.
Next Obligation.
  intros s h h' (pm & Hwf & Hw) Hp Hb.
  assert (sm_owns s (block pm)) as Ho by (exists pm; split; [apply Hwf|done]).
  split.
  - exists pm. split; [|done]. destruct Hwf. constructor; try done. by rewrite Hb.
  - intros a. apply (AbstractMemory.contents_frame _ _ _ pm); [apply Hwf|]. auto.
Qed.
Next Obligation.
  intros j p s h d n (pm & Hwf & Hw) Hpr Hva Hbuf Hn Ho Hacc.
  assert (block d ≠ block pm) as Hne.
  { intros Heq. apply Ho. exists pm. split; [apply Hwf|done]. }
  destruct (AbstractMemory.access_plain_read p (mem s) h pm d n)
    as (p' & m' & h' & Ha & Hr & Hwf' & Hcfg & _ & Hd & Hfr & Hbd);
    [done|eapply sm_inside; [done|apply Hbuf|done|done]|done|done|done|].
  exists p', (set_mem m' s), h'. eexists. unfold recvAtomic.
  rewrite (proj1 (proj2 (proj2 (proj2 Hpr)))). cbn [negb ensure]. rewrite res_bind_Ok, Ha.
  split; [done|]. split; [by apply Packet.answers_response|]. split_and!; try done.
  - exists pm. split; [done|]. destruct Hcfg as (_ & _ & _ & Hw1). simpl. by rewrite Hw1.
  - intros b. apply (sm_same _ m' s Hcfg eq_refl).
  - intros a k. apply (sm_same _ m' s Hcfg eq_refl).
  - apply (sm_same _ m' s Hcfg eq_refl).
  - intros a. simpl. rewrite (AbstractMemory.contents_config _ _ _ _ Hcfg).
    eapply AbstractMemory.contents_frame; [apply Hwf|]. intros i. apply Hfr. by left.
Qed.
Next Obligation.
  intros j p s h d n (pm & Hwf & Hw) Hpw Hmask Hva Hbuf Hn Ho Hacc.
  assert (block d ≠ block pm) as Hne.
  { intros Heq. apply Ho. exists pm. split; [apply Hwf|done]. }
  destruct (AbstractMemory.access_plain_write p (mem s) h pm d n)
    as (p' & m' & h' & Ha & Hr & Hwf' & Hcfg & _ & Hc & Hfr & Hbd);
    [done|eapply sm_inside; [done|apply Hbuf|done|done]|done|done|done|done|].
  exists p', (set_mem m' s), h'. eexists. unfold recvAtomic.
  rewrite (proj1 (proj2 (proj2 (proj2 Hpw)))). cbn [negb ensure]. rewrite res_bind_Ok, Ha.
  split; [done|]. split; [by apply Packet.answers_response|]. split_and!; try done.
  - exists pm. split; [done|]. destruct Hcfg as (_ & _ & _ & Hw1). simpl. by rewrite Hw1.
  - intros b. apply (sm_same _ m' s Hcfg eq_refl).
  - intros a k. apply (sm_same _ m' s Hcfg eq_refl).
  - apply (sm_same _ m' s Hcfg eq_refl).
  - intros a. simpl. rewrite Hc. apply decide_ext. unfold Packet.stored. rewrite Hmask. intuition done.
  - intros b i Hb. apply Hfr. intros ->. apply Hb. exists pm. split; [apply Hwf|done].
Qed.

(** ** The response queue *)

(** Insertion in the reversed queue: no packet for the same address is
    overtaken, and the first one stays first. *)
Lemma insert_rev_spec p w rq :
  valid_addr p → Forall valid_addr rq.*1 →
  ∃ l1 l2, insert_rev p w rq = Ok (l1 ++ (p, w) :: l2) ∧ rq = l1 ++ l2 ∧
    Forall (λ y, key y.1 ≠ key p ∧ w < y.2) l1 ∧ (rq ≠ [] → l2 ≠ []).
Proof.
  intros Hp. induction rq as [|y rest IH]; simpl.
  { exists [], []. split_and!; try done. }
  intros [Hy Hrest]%Forall_cons_1. specialize (IH Hrest).
  destruct rest as [|z rest].
  { exists [], [y]. split_and!; try done. }
  destruct (Z.ltb_spec w y.2) as [Hlt|Hge].
  2:{ exists [], (y :: z :: rest). split_and!; try done. }
  rewrite matchAddr_pkt_key by done. simpl. case_bool_decide as Hk.
  { exists [], (y :: z :: rest). split_and!; try done. }
  destruct IH as (l1 & l2 & Hi & Hr & Hall & Hne). simpl in Hi. rewrite Hi. simpl.
  exists (y :: l1), l2. split_and!; [done|by rewrite Hr|by constructor|]. intros _. by apply Hne.
Qed.

Lemma enqueue_spec p w q :
  valid_addr p → Forall valid_addr q.*1 →
  ∃ l1 l2, enqueue p w q = Ok (l1 ++ (p, w) :: l2) ∧ q = l1 ++ l2 ∧
    Forall (λ y, key y.1 ≠ key p ∧ w < y.2) l2 ∧ (q ≠ [] → l1 ≠ []).
Proof.
  intros Hp Hq. unfold enqueue.
  destruct (insert_rev_spec p w (rev q) Hp) as (l1 & l2 & Hi & Hr & Hall & Hne).
  { apply Forall_forall. intros x (y & -> & Hy)%list_elem_of_fmap.
    rewrite Forall_forall in Hq. apply Hq, list_elem_of_fmap. exists y. split; [done|].
    by apply list_elem_of_In, in_rev, list_elem_of_In. }
  rewrite Hi. simpl. rewrite rev_app_distr. simpl. rewrite <-app_assoc. simpl.
  exists (rev l2), (rev l1). split_and!; [done| |by apply Forall_rev|].
  - rewrite <-rev_app_distr, <-Hr. by rewrite rev_involutive.
  - intros Hq0. assert (l2 ≠ []).
    { apply Hne. intros Hr0. apply Hq0. rewrite <-(rev_involutive q), Hr0. done. }
    intros Hl2. apply (f_equal (@rev _)) in Hl2. rewrite rev_involutive in Hl2. done.
Qed.

(** A packet joins the queue behind all those for its address. *)
Lemma enqueue_order p w q q' :
  valid_addr p → Forall valid_addr q.*1 → enqueue p w q = Ok q' →
  ∀ k, for_key k (q'.*1) = for_key k (q.*1 ++ [p]).
Proof.
  intros Hp Hq He k. destruct (enqueue_spec p w q Hp Hq) as (l1 & l2 & He' & -> & Hall & _).
  rewrite He in He'. injection He' as ->.
  rewrite !fmap_app, fmap_cons. apply for_key_insert, Forall_fmap.
  eapply Forall_impl; [exact Hall|]. by intros y [? _].
Qed.

(** ** Runs of the memory *)

(** The memory in its environment: the time, the packets taken that need a
    response (as they were queued), and the responses sent with the tick they
    were due and the tick they were sent. *)
Record sys := mkSys {
  now : Z;
  st : t;
  hm : hmem;
  taken : list Packet.t;
  sent : list (Packet.t * Z * Z);
}.

Definition sent_at (n : Z) (o : option (Packet.t * Z)) : list (Packet.t * Z * Z) :=
  match o with Some x => [(x, n)] | None => [] end.

(** The response queued by an accepted request. *)
Definition queued_by (jitter : Z) (p : Packet.t) (s : t) (h : hmem) (b : bool) : list Packet.t :=
  if b && Packet.needsResponse p then
    match recvAtomic jitter (Packet.set_delays 0 0 p) s h with
    | Ok (p', _, _, _) => [p']
    | Fail _ => []
    end
  else [].

Fixpoint queued_by_all (n : Z) (reqs : list (Z * Z * Packet.t)) (s : t) (h : hmem)
    : list Packet.t :=
  match reqs with
  | [] => []
  | (duration, jitter, p) :: reqs =>
      match recvTimingReq n duration jitter p s h with
      | Ok (b, s', h') => queued_by jitter p s h b ++ queued_by_all n reqs s' h'
      | Fail _ => []
      end
  end.

Record sane (r : Z * Z * Packet.t) : Prop := {
  sane_duration : 0 <= r.1.1;
  sane_jitter : 0 <= r.1.2;
  sane_header : 0 <= Packet.headerDelay r.2;
  sane_payload : 0 <= Packet.payloadDelay r.2;
  sane_addr : valid_addr r.2;
}.

(** While it refuses a response, the peer makes no request. *)
Definition polite (reqs : list (Z * Z * Packet.t)) (accepted : bool) : Prop :=
  Forall sane reqs ∧ (accepted = false → reqs = []).

Inductive step : sys → sys → Prop :=
  | step_time c n :
      now c <= n → (∀ x, releaseEvent (st c) = Some x → n <= x) →
      (∀ x, dequeueEvent (st c) = Some x → n <= x) →
      step c (mkSys n (st c) (hm c) (taken c) (sent c))
  | step_request c duration jitter p b s' h' :
      sane (duration, jitter, p) →
      recvTimingReq (now c) duration jitter p (st c) (hm c) = Ok (b, s', h') →
      step c (mkSys (now c) s' h' (taken c ++ queued_by jitter p (st c) (hm c) b) (sent c))
  | step_release c b s' :
      releaseEvent (st c) = Some (now c) → release (st c) = Ok (b, s') →
      step c (mkSys (now c) s' (hm c) (taken c) (sent c))
  | step_dequeue c reqs accepted o d s' h' :
      polite reqs accepted → dequeueEvent (st c) = Some (now c) →
      process_dequeue (now c) reqs accepted (st c) (hm c) = Ok (o, d, s', h') →
      step c (mkSys (now c) s' h'
        (taken c ++ queued_by_all (now c) reqs (clear_event (st c)) (hm c))
        (sent c ++ sent_at (now c) o))
  | step_retry c reqs accepted o d s' h' :
      polite reqs accepted → retryResp (st c) = true →
      recvRespRetry (now c) reqs accepted (st c) (hm c) = Ok (o, d, s', h') →
      step c (mkSys (now c) s' h' (taken c ++ queued_by_all (now c) reqs (st c) (hm c))
        (sent c ++ sent_at (now c) o))
  | step_drain c :
      step c (mkSys (now c) (drain (st c)).2 (hm c) (taken c) (sent c)).

(** A pending response always has somebody who will send it. *)
Definition pending_ok (n : Z) (s : t) : Prop :=
  match packetQueue s with
  | [] => retryResp s = false ∧ dequeueEvent s = None
  | (_, tick) :: _ =>
      if retryResp s then dequeueEvent s = None ∧ tick <= n
      else ∃ x, dequeueEvent s = Some x ∧ n <= x ∧ tick <= x
  end.

(** The memory is busy exactly while its release is scheduled, and only owes a
    request retry while it is busy. *)
Definition busy_ok (n : Z) (s : t) : Prop :=
  match releaseEvent s with
  | Some x => isBusy s = true ∧ n <= x
  | None => isBusy s = false ∧ retryReq s = false
  end.

Record ok (c : sys) : Prop := {
  ok_latency : 0 <= latency (st c);
  ok_pending : pending_ok (now c) (st c);
  ok_busy : busy_ok (now c) (st c);
  ok_valid : Forall valid_addr (packetQueue (st c)).*1;
  ok_due : Forall (λ x, x.1.2 <= x.2) (sent c);
  ok_order k :
    for_key k (taken c) = for_key k ((sent c).*1.*1 ++ (packetQueue (st c)).*1);
}.

Lemma pending_time n n' s :
  pending_ok n s → n <= n' → (∀ x, dequeueEvent s = Some x → n' <= x) → pending_ok n' s.
Proof.
  unfold pending_ok. destruct (packetQueue s) as [|[p tick] q]; [done|].
  destruct (retryResp s); [intros [? ?] ?; split; [done|lia]|].
  intros (x & Hx & ? & ?) ? Hle. exists x. specialize (Hle x Hx). split; [done|lia].
Qed.

Lemma busy_time n n' s :
  busy_ok n s → (∀ x, releaseEvent s = Some x → n' <= x) → busy_ok n' s.
Proof. unfold busy_ok. destruct (releaseEvent s); [|done]. intros [? _] Hle. split; auto. Qed.

(** The event of the front response is never early. *)
Lemma pending_due n s p tick q :
  pending_ok n s → packetQueue s = (p, tick) :: q →
  dequeueEvent s = Some n ∨ retryResp s = true → tick <= n.
Proof.
  intros Hp Hq. unfold pending_ok in Hp. rewrite Hq in Hp. destruct (retryResp s).
  - destruct Hp as [-> ?]. intros [?|_]; done.
  - destruct Hp as (x & -> & _ & ?). intros [[= ->]|?]; done.
Qed.

Lemma recvAtomic_fields j p s h p' s' h' lat :
  recvAtomic j p s h = Ok (p', s', h', lat) →
  latency s' = latency s ∧ latency_var s' = latency_var s ∧ lat = getLatency j s' ∧
  AbstractMemory.same_target p p'.
Proof.
  unfold recvAtomic. intros H. apply bind_Ok in H as ([] & _ & H).
  apply bind_Ok in H as ([[p1 m1] h1] & Ha & H). injection H as <- <- <- <-.
  split_and!; try done. by eapply AbstractMemory.access_target.
Qed.

Lemma same_target_key p p' :
  AbstractMemory.same_target p p' → key p' = key p ∧ (valid_addr p → valid_addr p').
Proof.
  intros (Ha & Hs & _ & _ & _ & Hf). unfold key, valid_addr. rewrite Ha, Hs. split; [done|].
  change Packet.VALID_ADDR with (2 ^ 8). by rewrite Hf.
Qed.

(** What a request does to the memory: nothing to the responses if it is
    refused or needs none, otherwise one joins the queue. *)
Lemma recvTimingReq_effect n duration jitter p s h b s' h' :
  sane (duration, jitter, p) → recvTimingReq n duration jitter p s h = Ok (b, s', h') →
  0 <= latency s →
  latency s' = latency s ∧ retryResp s' = retryResp s ∧ (busy_ok n s → busy_ok n s') ∧
  ((packetQueue s' = packetQueue s ∧ dequeueEvent s' = dequeueEvent s ∧
    queued_by jitter p s h b = []) ∨
   ∃ p' w, n <= w ∧ valid_addr p' ∧ queued_by jitter p s h b = [p'] ∧
     enqueue p' w (packetQueue s) = Ok (packetQueue s') ∧
     schedule_back n (retryResp s) (dequeueEvent s) (packetQueue s') = Ok (dequeueEvent s')).
Proof.
  intros [Hd Hj Hhd Hpd Hva] H Hlat. simpl in *. unfold recvTimingReq in H.
  apply bind_Ok in H as ([] & _ & H). apply bind_Ok in H as ([] & _ & H).
  destruct (retryReq s) eqn:Hrr; [injection H as <- <- <-; by eauto 10|].
  destruct (isBusy s) eqn:Hbusy.
  { injection H as <- <- <-. split_and!; try done; [|by left]. unfold busy_ok. simpl.
    destruct (releaseEvent s); intros [? ?]; [done|congruence]. }
  apply bind_Ok in H as (sz & _ & H). apply bind_Ok in H as ([busy rel] & Hbr & H).
  apply bind_Ok in H as ([[[p1 s1] h1] lat] & Hra & H).
  destruct (recvAtomic_fields _ _ _ _ _ _ _ _ Hra) as (Hl1 & Hlv1 & _ & Ht).
  apply same_target_key in Ht as [_ Hva1]. specialize (Hva1 Hva).
  assert (∀ m l v q rr d dr, busy_ok n s → busy_ok n (mk m l v q busy false rr rel d dr)) as Hbok.
  { intros m l v q rr d dr Hb. unfold busy_ok in *. simpl. destruct (duration =? 0) eqn:E.
    - injection Hbr as <- <-. rewrite Hbusy in *. by destruct (releaseEvent s).
    - apply bind_Ok in Hbr as (r & Hr & Hbr). injection Hbr as <- <-.
      unfold schedule_at in Hr. inv_res Hr. split; [done|lia]. }
  unfold queued_by. rewrite Hra. change (Packet.needsResponse (Packet.set_delays 0 0 p))
    with (Packet.needsResponse p) in H.
  destruct (Packet.needsResponse p).
  - apply bind_Ok in H as ([] & _ & H). apply bind_Ok in H as (q & Hq & H).
    apply bind_Ok in H as (deq & Hdeq & H). injection H as <- <- <-. simpl.
    assert (0 <= getLatency jitter s1).
    { unfold getLatency. destruct (latency_var s1 =? 0); lia. }
    split_and!; [done|done|apply Hbok|]. right. eexists p1, _. split_and!; [|done|done|exact Hq|done].
    lia.
  - injection H as <- <- <-. simpl. split_and!; [done|done|apply Hbok|]. by left.
Qed.

(** The queue keeps its first response, its addresses and its order. *)
Lemma enqueue_keeps p w q q' :
  valid_addr p → Forall valid_addr q.*1 → enqueue p w q = Ok q' →
  Forall valid_addr q'.*1 ∧ (∀ k, for_key k q'.*1 = for_key k (q.*1 ++ [p])) ∧
  (∀ x r, q = x :: r → ∃ y r', q' = x :: y :: r') ∧ (q = [] → q' = [(p, w)]).
Proof.
  intros Hp Hq He. split; [|split; [by eapply enqueue_order|]];
    destruct (enqueue_spec p w q Hp Hq) as (l1 & l2 & He' & -> & _ & Hne);
    rewrite He in He'; injection He' as ->.
  - rewrite !fmap_app in *. apply Forall_app in Hq as [? ?]. apply Forall_app. split; [done|].
    by constructor.
  - split.
    + intros x r Hx. destruct l1 as [|x1 l1]; [rewrite Hx in Hne; by specialize (Hne ltac:(done))|].
      simpl in Hx. injection Hx as -> _. destruct l1; simpl; eauto.
    + intros [-> ->]%app_eq_nil. done.
Qed.

Lemma pending_request n s s' p w :
  pending_ok n s → Forall valid_addr (packetQueue s).*1 → valid_addr p → n <= w →
  enqueue p w (packetQueue s) = Ok (packetQueue s') → retryResp s' = retryResp s →
  schedule_back n (retryResp s) (dequeueEvent s) (packetQueue s') = Ok (dequeueEvent s') →
  pending_ok n s'.
Proof.
  intros Hp Hv Hvp Hw He Hr Hs.
  destruct (enqueue_keeps _ _ _ _ Hvp Hv He) as (_ & _ & Hfront & Hsingle).
  unfold pending_ok in *. rewrite Hr. destruct (packetQueue s) as [|[p0 tick] q].
  - rewrite (Hsingle eq_refl) in *. destruct Hp as [Hr0 Hd]. rewrite Hr0, Hd in *.
    unfold schedule_back, schedule_at in Hs. simpl in Hs.
    replace (n <=? w) with true in Hs by lia. simpl in Hs. injection Hs as <-.
    exists w. split; [done|lia].
  - destruct (Hfront _ _ eq_refl) as (y & r' & Hq'). rewrite Hq' in *.
    destruct (retryResp s); simpl in Hs; [by injection Hs as <-|].
    destruct Hp as (x & Hx & ? & ?). rewrite Hx in Hs. injection Hs as <-. eauto.
Qed.

(** Requests that get in between never overtake the response being sent. *)
Lemma reenter_effect n reqs s h s' h' x q :
  Forall sane reqs → reenter n reqs s h = Ok (s', h') → 0 <= latency s →
  Forall valid_addr (packetQueue s).*1 → packetQueue s = x :: q →
  latency s' = latency s ∧ (busy_ok n s → busy_ok n s') ∧ Forall valid_addr (packetQueue s').*1 ∧
  (∀ k, for_key k (packetQueue s').*1 =
        for_key k ((packetQueue s).*1 ++ queued_by_all n reqs s h)) ∧
  ∃ q', packetQueue s' = x :: q' ∧ (q' = [] → q = [] ∧ dequeueEvent s' = dequeueEvent s).
Proof.
  intros Hsane. revert s h q. induction Hsane as [|[[d j] p] reqs Hs Hss IH]; intros s h q H Hl Hv Hq.
  { injection H as <- <-. simpl. split_and!; try done; [intros k; by rewrite app_nil_r|]. eauto. }
  simpl in H. apply bind_Ok in H as ([[b s1] h1] & Hr & H). simpl. rewrite Hr.
  destruct (recvTimingReq_effect _ _ _ _ _ _ _ _ _ Hs Hr Hl) as (Hl1 & _ & Hb1 & Hcase).
  assert (Forall valid_addr (packetQueue s1).*1 ∧
    (∀ k, for_key k (packetQueue s1).*1 = for_key k ((packetQueue s).*1 ++ queued_by j p s h b)) ∧
    ∃ q1, packetQueue s1 = x :: q1 ∧ (q1 = [] → q = [] ∧ dequeueEvent s1 = dequeueEvent s))
    as (Hv1 & Ho1 & q1 & Hq1 & He1).
  { destruct Hcase as [(-> & -> & ->)|(p' & w & _ & Hvp & -> & He & _)].
    - split_and!; [done|intros k; by rewrite app_nil_r|]. exists q. by rewrite Hq.
    - destruct (enqueue_keeps _ _ _ _ Hvp Hv He) as (? & ? & Hf & _).
      destruct (Hf _ _ Hq) as (y & r & Hq'). split_and!; [done|done|]. by exists (y :: r). }
  destruct (IH s1 h1 q1 H ltac:(lia) Hv1 Hq1) as (Hl2 & Hb2 & Hv2 & Ho2 & q2 & Hq2 & He2).
  split_and!; [lia|auto|done| |].
  - intros k. rewrite Ho2, !for_key_app, Ho1, for_key_app. by rewrite app_assoc.
  - exists q2. split; [done|]. intros Hn. destruct (He2 Hn) as [Hn1 ->]. by apply He1.
Qed.

(** [dequeue] on a consistent memory whose first response may be sent now. *)
Lemma dequeue_ok n reqs accepted s h o d s' h' :
  dequeue n reqs accepted s h = Ok (o, d, s', h') → polite reqs accepted → 0 <= latency s →
  dequeueEvent s = None → Forall valid_addr (packetQueue s).*1 →
  (∀ x q, packetQueue s = x :: q → x.2 <= n) →
  pending_ok n s' ∧ (busy_ok n s → busy_ok n s') ∧ latency s' = latency s ∧
  Forall valid_addr (packetQueue s').*1 ∧ Forall (λ x, x.1.2 <= x.2) (sent_at n o) ∧
  (∀ k, for_key k ((sent_at n o).*1.*1 ++ (packetQueue s').*1) =
        for_key k ((packetQueue s).*1 ++ queued_by_all n reqs s h)).
Proof.
  intros H [Hsane Hpol] Hl He Hv Hdue. unfold dequeue in H.
  destruct (packetQueue s) as [|x q] eqn:Hq; [done|]. specialize (Hdue x q eq_refl).
  apply bind_Ok in H as ([s1 h1] & Hre & H). rewrite <-Hq in Hv.
  destruct (reenter_effect _ _ _ _ _ _ _ _ Hsane Hre Hl Hv Hq)
    as (Hl1 & Hb1 & Hv1 & Ho1 & q1 & Hq1 & He1). rewrite Hq in Ho1. rewrite Hq1 in *.
  destruct accepted.
  - injection H as <- <- <- <-. simpl in *. apply Forall_cons_1 in Hv1 as [_ Hv1].
    split_and!; try done; [|by repeat constructor].
    unfold pending_ok. simpl. destruct q1 as [|[y w] q1].
    + destruct (He1 eq_refl) as [_ ->]. by rewrite He.
    + eexists. split; [done|lia].
  - rewrite (Hpol eq_refl) in *. injection Hre as <- <-. injection H as <- <- <- <-.
    unfold pending_ok. simpl in *. split_and!; try done. destruct x as [y w]. simpl in *. done.
Qed.

Lemma step_dequeue_ok c reqs accepted o d s s' h' :
  ok c → dequeue (now c) reqs accepted s (hm c) = Ok (o, d, s', h') → polite reqs accepted →
  dequeueEvent s = None → packetQueue s = packetQueue (st c) → latency s = latency (st c) →
  busy_ok (now c) s → (∀ x q, packetQueue s = x :: q → x.2 <= now c) →
  ok (mkSys (now c) s' h' (taken c ++ queued_by_all (now c) reqs s (hm c))
        (sent c ++ sent_at (now c) o)).
Proof.
  intros [Hlat _ _ Hv Hdue Hord] Hd Hpol He Hq Hl Hb Ht.
  destruct (dequeue_ok _ _ _ _ _ _ _ _ _ Hd Hpol) as (Hp & Hb' & Hl' & Hv' & Hs & Hsq);
    [by rewrite Hl|done|by rewrite Hq|done|].
  constructor; simpl; [lia|done|auto|done|by apply Forall_app|].
  intros k. specialize (Hsq k). rewrite !fmap_app, !for_key_app in *. rewrite Hord, for_key_app.
  by rewrite <-!app_assoc, <-Hq, <-Hsq.
Qed.

Lemma step_request_ok c duration jitter p b s' h' :
  ok c → sane (duration, jitter, p) →
  recvTimingReq (now c) duration jitter p (st c) (hm c) = Ok (b, s', h') →
  ok (mkSys (now c) s' h' (taken c ++ queued_by jitter p (st c) (hm c) b) (sent c)).
Proof.
  intros [Hlat Hp Hb Hv Hdue Hord] Hs H.
  destruct (recvTimingReq_effect _ _ _ _ _ _ _ _ _ Hs H Hlat) as (Hl & Hr & Hb' & Hcase).
  destruct Hcase as [(Hq & He & ->)|(p' & w & Hw & Hvp & -> & Hq & Hsch)].
  - rewrite app_nil_r. constructor; simpl; rewrite ?Hq, ?Hl; auto.
    unfold pending_ok in *. by rewrite Hq, Hr, He.
  - destruct (enqueue_keeps _ _ _ _ Hvp Hv Hq) as (Hv' & Ho & _).
    constructor; simpl; rewrite ?Hl; auto; [by eapply pending_request|].
    intros k. by rewrite !for_key_app, Hord, !for_key_app, Ho, for_key_app, app_assoc.
Qed.

Lemma step_ok c c' : ok c → step c c' → ok c'.
Proof.
  intros Hok Hstep. pose proof Hok as [Hlat Hp Hb Hv Hdue Hord].
  destruct Hstep as [c n Hn Hr Hd|c duration jitter p b s' h' ? H|c b s' He H
    |c reqs accepted o d s' h' Hpol He H|c reqs accepted o d s' h' Hpol Hr H|c].
  - constructor; simpl; try done; [by eapply pending_time|by eapply busy_time].
  - by eapply step_request_ok.
  - unfold release in H. inv_res H. by constructor.
  - eapply step_dequeue_ok; [done|exact H|done..|].
    intros [p tick] q Hq. eapply pending_due; [done|exact Hq|by left].
  - unfold recvRespRetry in H. apply bind_Ok in H as ([] & _ & H).
    eapply step_dequeue_ok; [done|exact H|done| |done|done|done|].
    + unfold pending_ok in Hp. destruct (packetQueue (st c)) as [|[p tick] q]; [naive_solver|].
      rewrite Hr in Hp. naive_solver.
    + intros [p tick] q Hq. eapply pending_due; [done|exact Hq|by right].
  - constructor; simpl; done.
Qed.

(** A packet that may be sent to the memory. *)
Record acceptable (r : Z * Z * Packet.t) : Prop := {
  acc_sane : sane r;
  acc_cache : Packet.cacheResponding r.2 = false;
  acc_command : Packet.isRead r.2 || Packet.isWrite r.2 = true;
  acc_size : Packet.flag r.2 Packet.VALID_SIZE = true;
}.

(** The memory refuses requests while it is busy or owes a retry. *)
Definition refuses (s : t) : bool := retryReq s || isBusy s.

(** What is behind the queues can perform the packet. *)
Definition performs (jitter : Z) (p : Packet.t) (s : t) (h : hmem) : Prop :=
  ∃ r, recvAtomic jitter (Packet.set_delays 0 0 p) s h = Ok r.

Lemma last_due p w q q' n :
  valid_addr p → Forall valid_addr q.*1 → enqueue p w q = Ok q' → n <= w → ∃ b, last q' = Some b ∧ n <= b.2.
Proof.
  intros Hp Hq He Hw. destruct (enqueue_spec p w q Hp Hq) as (l1 & l2 & He' & _ & Hall & _).
  rewrite He in He'. injection He' as ->. destruct (last l2) as [b|] eqn:Hl.
  - apply last_Some in Hl as [l ->]. apply Forall_app in Hall as [_ [[_ Hb] _]%Forall_cons_1]. exists b.
    rewrite app_comm_cons, app_assoc, last_snoc. split; [done|lia].
  - apply last_None in Hl as ->. exists (p, w). by rewrite last_snoc.
Qed.

(** A request is refused exactly when the memory is busy, and fails no assertion of
    its own: an accepted one can schedule its events. *)
Lemma recvTimingReq_total n duration jitter p s h :
  acceptable (duration, jitter, p) → (refuses s = false → performs jitter p s h) →
  0 <= latency s → busy_ok n s → Forall valid_addr (packetQueue s).*1 →
  ∃ s' h', recvTimingReq n duration jitter p s h = Ok (negb (refuses s), s', h').
Proof.
  intros [[Hd Hj Hhd Hpd Hva] Hc Hcmd Hsz] Hper Hlat Hb Hv. simpl in *. unfold recvTimingReq, refuses in *. rewrite Hc, Hcmd. simpl.
  destruct (retryReq s) eqn:Hrr; [simpl; eauto|]. destruct (isBusy s) eqn:Hbusy; [simpl; eauto|]. simpl.
  destruct (Hper eq_refl) as [[[[p1 s1] h1] lat] Hra]. destruct (recvAtomic_fields _ _ _ _ _ _ _ _ Hra) as (Hl1 & _ & _ & Ht).
  apply same_target_key in Ht as [_ Hva1]. specialize (Hva1 Hva).
  assert (Packet.getSize (Packet.set_delays 0 0 p) = Ok (Packet.size p)) as -> by (unfold Packet.getSize, Packet.flag in *; simpl; by rewrite Hsz).
  rewrite res_bind_Ok. assert (releaseEvent s = None) as Hre by (unfold busy_ok in Hb; destruct (releaseEvent s); [destruct Hb; congruence|done]).
  assert (∃ br, (if duration =? 0 then Ok (false, releaseEvent s) else r ← schedule_at n (n + duration) (releaseEvent s); Ok (true, r)) = Ok br)
    as [[busy rel] ->].
  { destruct (duration =? 0); [eauto|]. unfold schedule_at. rewrite Hre. replace (n <=? n + duration) with true by lia. simpl. eauto. }
  rewrite res_bind_Ok, Hra, res_bind_Ok. change (Packet.needsResponse (Packet.set_delays 0 0 p)) with (Packet.needsResponse p).
  destruct (Packet.needsResponse p) eqn:Hnr; [|eauto].
  assert (Packet.isResponse p1 = true) as ->.
  { unfold recvAtomic in Hra. apply bind_Ok in Hra as ([] & _ & Hra). apply bind_Ok in Hra as ([[p2 m2] h2] & Ha & [= <- _ _ _]).
    by apply (AbstractMemory.access_responds _ _ _ _ _ _ Ha). }
  cbn [ensure]. rewrite res_bind_Ok. set (w := n + _ + _).
  assert (n <= w). { unfold w, getLatency. destruct (latency_var s1 =? 0); lia. }
  destruct (enqueue_spec p1 w (packetQueue s) Hva1 Hv) as (l1 & l2 & He & _). rewrite He, res_bind_Ok.
  destruct (last_due p1 w _ _ n Hva1 Hv He) as (b & Hlast & Hbw); [done|]. unfold schedule_back. rewrite Hlast.
  case_bool_decide as Hdq; [|rewrite andb_false_r; eauto]. rewrite Hdq. destruct (retryResp s); simpl; [eauto|].
  unfold schedule_at. replace (n <=? b.2) with true by lia. simpl. eauto.
Qed.

(** The requests that get in between can be performed, each when its turn comes. *)
Fixpoint perform_all (n : Z) (reqs : list (Z * Z * Packet.t)) (s : t) (h : hmem) : Prop :=
  match reqs with
  | [] => True
  | (duration, jitter, p) :: reqs =>
      acceptable (duration, jitter, p) ∧ (refuses s = false → performs jitter p s h) ∧
      ∀ b s' h', recvTimingReq n duration jitter p s h = Ok (b, s', h') → perform_all n reqs s' h'
  end.

Lemma reenter_total n reqs : ∀ s h,
  perform_all n reqs s h → 0 <= latency s → busy_ok n s → Forall valid_addr (packetQueue s).*1 →
  ∃ s' h', reenter n reqs s h = Ok (s', h').
Proof.
  induction reqs as [|[[d j] p] reqs IH]; intros s h Hall Hl Hb Hv; simpl; [eauto|].
  destruct Hall as (Hacc & Hper & Hnext).
  destruct (recvTimingReq_total n d j p s h Hacc Hper Hl Hb Hv) as (s1 & h1 & Hr). rewrite Hr, res_bind_Ok.
  destruct (recvTimingReq_effect _ _ _ _ _ _ _ _ _ (acc_sane _ Hacc) Hr Hl) as (Hl1 & _ & Hb1 & Hcase).
  apply IH; [by eapply Hnext|lia|auto|]. destruct Hcase as [(-> & _)|(p' & w & _ & Hvp & _ & He & _)]; [done|].
  by apply (enqueue_keeps _ _ _ _ Hvp Hv He).
Qed.

(** [dequeue] sends the first response exactly if the peer accepts it. *)
Lemma dequeue_total n reqs accepted s h x q :
  packetQueue s = x :: q → perform_all n reqs s h → 0 <= latency s → busy_ok n s →
  Forall valid_addr (packetQueue s).*1 →
  ∃ d s' h', dequeue n reqs accepted s h = Ok (if accepted : bool then Some x else None, d, s', h').
Proof.
  intros Hq Hall Hl Hb Hv. destruct (reenter_total n reqs s h Hall Hl Hb Hv) as (s1 & h1 & Hr).
  unfold dequeue. rewrite Hq, Hr, res_bind_Ok. destruct accepted; eauto.
Qed.

(** No assertion of the event handlers fails, and a response the peer accepts
    is sent. *)
Lemma handlers_total n s h :
  pending_ok n s → busy_ok n s → 0 <= latency s → Forall valid_addr (packetQueue s).*1 →
  (∀ reqs accepted, dequeueEvent s = Some n → perform_all n reqs (clear_event s) h →
     ∃ x q d s' h', packetQueue s = x :: q ∧
       process_dequeue n reqs accepted s h = Ok (if accepted : bool then Some x else None, d, s', h')) ∧
  (∀ reqs accepted, retryResp s = true → perform_all n reqs s h →
     ∃ x q d s' h', packetQueue s = x :: q ∧
       recvRespRetry n reqs accepted s h = Ok (if accepted : bool then Some x else None, d, s', h')) ∧
  (releaseEvent s = Some n → ∃ s', release s = Ok (retryReq s, s')).
Proof.
  intros Hp Hb Hl Hv. unfold pending_ok in Hp. split_and!.
  - intros reqs accepted He Hall. destruct (packetQueue s) as [|[p tick] q] eqn:Hq; [destruct Hp; congruence|].
    destruct (dequeue_total n reqs accepted (clear_event s) h (p, tick) q) as (d & s' & h' & H); try done; [simpl; by rewrite Hq|]. eauto 10.
  - intros reqs accepted Hr Hall. destruct (packetQueue s) as [|[p tick] q] eqn:Hq; [destruct Hp; congruence|].
    destruct (dequeue_total n reqs accepted s h (p, tick) q) as (d & s' & h' & H); try done; [by rewrite Hq|].
    unfold recvRespRetry. rewrite Hr. simpl. eauto 10.
  - intros He. unfold busy_ok in Hb. rewrite He in Hb. destruct Hb as [Hb _].
    unfold release. rewrite Hb. simpl. eauto.
Qed.


Definition demo : sys :=
  mkSys 100 (create AbstractMemory.demo 30 0) AbstractMemory.demo_heap [] [].

Lemma demo_ok : ok demo.
Proof. by constructor. Qed.

Definition demo_read : Packet.t := AbstractMemory.demo_pkt MemCmd.ReadReq 0x1020 3.


End SimpleMemory.
