(* ===== verification/Spm.v ===== *)
(** [ScratchpadMemory] of [mem/spm/spm.{hh,cc}]: a [SimpleMemory] with a second
    port for DMA traffic, which answers timing requests from a FIFO of its own. *)

From S2P Require Import Prelude Host Request MemCmd Packet AbstractMem MemInterface SimpleMem.
Import Host.

Module Spm.

(** [dmaDequeueEvent] holds the tick it is scheduled for. *)
Record DmaPort := mkPort {
  dmaPacketQueue : list (Packet.t * Z);
  retryResp : bool;
  dmaDequeueEvent : option Z;
}.

Record t := mk {
  base : SimpleMemory.t;
  dmaPort : DmaPort;
}.

Definition create (m : AbstractMemory.t) (lat var : Z) : t :=
  mk (SimpleMemory.create m lat var) (mkPort [] false None).

(** [processDmaRequest], which is the inherited [SimpleMemory::recvAtomic]. *)
Definition processDmaRequest (jitter : Z) (p : Packet.t) (s : t) (h : hmem)
    : res (Packet.t * t * hmem * Z) :=
  '(p, b, h, lat) ← SimpleMemory.recvAtomic jitter p (base s) h;
  Ok (p, mk b (dmaPort s), h, lat).

(** [scheduleDmaEvent]. *)
Definition scheduleDmaEvent (now when : Z) (e : option Z) : res (option Z) :=
  SimpleMemory.schedule_at now when e.

Definition getAddrRanges (s : t) : list AddrRange.AddrRange.t :=
  [AbstractMemory.range (SimpleMemory.mem (base s))].

(** [DmaPort::recvAtomic] and [DmaPort::recvFunctional] forward to the owner. *)
Definition recvAtomic (jitter : Z) (p : Packet.t) (s : t) (h : hmem)
    : res (Packet.t * t * hmem * Z) :=
  '(p, b, h, lat) ← SimpleMemory.recvAtomic jitter p (base s) h;
  Ok (p, mk b (dmaPort s), h, lat).

Definition recvFunctional (p : Packet.t) (s : t) (h : hmem) : res (Packet.t * hmem) :=
  SimpleMemory.recvFunctional p (base s) h.

(** [DmaPort::recvTimingReq], which accepts every request. *)
Definition recvTimingReq (now jitter : Z) (p : Packet.t) (s : t) (h : hmem)
    : res (bool * t * hmem) :=
  let needs_response := Packet.needsResponse p in
  '(p, s, h, lat) ← processDmaRequest jitter p s h;
  if needs_response then
    let when_to_send := now + lat in
    let port := dmaPort s in
    let q := dmaPacketQueue port ++ [(p, when_to_send)] in
    e ← (if negb (retryResp port) && bool_decide (dmaDequeueEvent port = None)
         then scheduleDmaEvent now when_to_send (dmaDequeueEvent port)
         else Ok (dmaDequeueEvent port));
    Ok (true, mk (base s) (mkPort q (retryResp port) e), h)
  else Ok (true, s, h).

(** The requests the peer makes on this port while it handles a response. *)
Fixpoint reenter (now : Z) (reqs : list (Z * Packet.t)) (s : t) (h : hmem) : res (t * hmem) :=
  match reqs with
  | [] => Ok (s, h)
  | (jitter, p) :: reqs =>
      '(_, s, h) ← recvTimingReq now jitter p s h;
      reenter now reqs s h
  end.

(** [DmaPort::dmaDequeue]; [accepted] is the peer's answer to [sendTimingResp],
    and [reqs] the requests it makes on this port before answering. *)
Definition dmaDequeue (now : Z) (reqs : list (Z * Packet.t)) (accepted : bool) (s : t) (h : hmem)
    : res (option (Packet.t * Z) * t * hmem) :=
  match dmaPacketQueue (dmaPort s) with
  | [] => Ok (None, s, h)
  | x :: _ =>
      '(s, h) ← reenter now reqs s h;
      let port := dmaPort s in
      if accepted then
        let q := tail (dmaPacketQueue port) in
        e ← (match q with
             | [] => Ok (dmaDequeueEvent port)
             | (_, next_time) :: _ =>
                 if bool_decide (dmaDequeueEvent port = None)
                 then scheduleDmaEvent now (Z.max next_time (now + 1)) (dmaDequeueEvent port)
                 else Ok (dmaDequeueEvent port)
             end);
        Ok (Some x, mk (base s) (mkPort q false e), h)
      else
        Ok (None, mk (base s) (mkPort (dmaPacketQueue port) true (dmaDequeueEvent port)), h)
  end.

(** The event is off the event queue when it is processed. *)
Definition clear_event (s : t) : t :=
  mk (base s) (mkPort (dmaPacketQueue (dmaPort s)) (retryResp (dmaPort s)) None).

Definition clear_retry (s : t) : t :=
  mk (base s) (mkPort (dmaPacketQueue (dmaPort s)) false (dmaDequeueEvent (dmaPort s))).

(** The run of [dmaDequeueEvent]. *)
Definition process_dmaDequeue (now : Z) (reqs : list (Z * Packet.t)) (accepted : bool) (s : t)
    (h : hmem) : res (option (Packet.t * Z) * t * hmem) :=
  dmaDequeue now reqs accepted (clear_event s) h.

Definition recvRespRetry (now : Z) (reqs : list (Z * Packet.t)) (accepted : bool) (s : t)
    (h : hmem) : res (option (Packet.t * Z) * t * hmem) :=
  assert! (retryResp (dmaPort s));
  dmaDequeue now reqs accepted (clear_retry s) h.

(** ** The scratchpad as a [ByteMemory], through its DMA port *)

#[global] Program Instance spm_memory : ByteMemory t := {
  MemInterface.recvAtomic := recvAtomic;
  MemInterface.contents s := contents (base s);
  MemInterface.owns s := owns (base s);
  MemInterface.accepts s := accepts (base s);
  MemInterface.layout s := layout (base s);
  MemInterface.inv s := inv (base s);
}.
Next Obligation. intros s h h' ? ? ?. by apply memory_frame. Qed.
Next Obligation.
  intros j p s h d n ? ? ? ? ? ? ?.
  destruct (memory_read j p (base s) h d n) as (p' & m' & h' & lat & Hr & ? & ? & [? ?] & ?); [done..|].
  exists p', (mk m' (dmaPort s)), h', lat. unfold recvAtomic. simpl in Hr. rewrite Hr.
  split; [done|]. split; [done|]. split; [done|]. split; [|done]. by split.
Qed.
Next Obligation.
  intros j p s h d n ? ? ? ? ? ? ? ?.
  destruct (memory_write j p (base s) h d n) as (p' & m' & h' & lat & Hr & ? & ? & [? ?] & ?); [done..|].
  exists p', (mk m' (dmaPort s)), h', lat. unfold recvAtomic. simpl in Hr. rewrite Hr.
  split; [done|]. split; [done|]. split; [done|]. split; [|done]. by split.
Qed.

(** ** Runs of the DMA port *)

(** The port in its environment: the time, the responses queued and the
    responses sent, each with its ready time, and the time it was sent. *)
Record sys := mkSys {
  now : Z;
  st : t;
  hm : hmem;
  taken : list (Packet.t * Z);
  sent : list (Packet.t * Z * Z);
}.

(** The entry a request adds to the response queue. *)
Definition entry_of (n jitter : Z) (p : Packet.t) (s : t) (h : hmem) : list (Packet.t * Z) :=
  if Packet.needsResponse p then
    match processDmaRequest jitter p s h with
    | Ok (p', _, _, lat) => [(p', n + lat)]
    | Fail _ => []
    end
  else [].

Fixpoint entries_of (n : Z) (reqs : list (Z * Packet.t)) (s : t) (h : hmem) : list (Packet.t * Z) :=
  match reqs with
  | [] => []
  | (j, p) :: reqs =>
      entry_of n j p s h ++
      match recvTimingReq n j p s h with
      | Ok (_, s, h) => entries_of n reqs s h
      | Fail _ => []
      end
  end.

Definition sent_at (n : Z) (o : option (Packet.t * Z)) : list (Packet.t * Z * Z) :=
  match o with Some x => [(x, n)] | None => [] end.

(** While it refuses a response, the peer makes no request. *)
Definition polite (reqs : list (Z * Packet.t)) (accepted : bool) : Prop :=
  accepted = false → reqs = [].

Inductive step : sys → sys → Prop :=
  | step_time c n :
      now c <= n → (∀ x, dmaDequeueEvent (dmaPort (st c)) = Some x → n <= x) →
      step c (mkSys n (st c) (hm c) (taken c) (sent c))
  | step_request c jitter p b s' h' :
      recvTimingReq (now c) jitter p (st c) (hm c) = Ok (b, s', h') →
      step c (mkSys (now c) s' h' (taken c ++ entry_of (now c) jitter p (st c) (hm c)) (sent c))
  | step_dequeue c reqs accepted o s' h' :
      polite reqs accepted → dmaDequeueEvent (dmaPort (st c)) = Some (now c) →
      process_dmaDequeue (now c) reqs accepted (st c) (hm c) = Ok (o, s', h') →
      step c (mkSys (now c) s' h' (taken c ++ entries_of (now c) reqs (clear_event (st c)) (hm c))
                (sent c ++ sent_at (now c) o))
  | step_retry c reqs accepted o s' h' :
      polite reqs accepted → retryResp (dmaPort (st c)) = true →
      recvRespRetry (now c) reqs accepted (st c) (hm c) = Ok (o, s', h') →
      step c (mkSys (now c) s' h' (taken c ++ entries_of (now c) reqs (clear_retry (st c)) (hm c))
                (sent c ++ sent_at (now c) o)).

(** ** The invariant of the DMA port *)

(** A queued response has exactly one of an event to send it, not before it is
    due, and a peer that owes a retry. *)
Definition pending_ok (n : Z) (d : DmaPort) : Prop :=
  match dmaPacketQueue d with
  | [] => retryResp d = false ∧ dmaDequeueEvent d = None
  | (_, ready) :: _ =>
      if retryResp d then dmaDequeueEvent d = None ∧ ready <= n
      else ∃ x, dmaDequeueEvent d = Some x ∧ n <= x ∧ ready <= x
  end.

(** The fixed latency, [latency_var] being zero. *)
Definition fixed_latency (s : t) : Prop :=
  0 <= SimpleMemory.latency (base s) ∧ SimpleMemory.latency_var (base s) = 0.

(** No response is due later than one taken now would be. *)
Definition bounded (n : Z) (s : t) : Prop :=
  Forall (λ x, x.2 <= n + SimpleMemory.latency (base s)) (dmaPacketQueue (dmaPort s)).

Record ok (c : sys) : Prop := {
  ok_latency : fixed_latency (st c);
  ok_pending : pending_ok (now c) (dmaPort (st c));
  ok_bounded : bounded (now c) (st c);
  ok_due : Forall (λ x, x.1.2 <= x.2) (sent c);
  ok_fifo : taken c = (sent c).*1 ++ dmaPacketQueue (dmaPort (st c));
}.

Lemma schedule_at_Ok n w : n <= w → SimpleMemory.schedule_at n w None = Ok (Some w).
Proof. intros H. unfold SimpleMemory.schedule_at. by replace (n <=? w) with true by lia. Qed.

Lemma processDmaRequest_fields j p s h p' s' h' lat :
  processDmaRequest j p s h = Ok (p', s', h', lat) → fixed_latency s →
  dmaPort s' = dmaPort s ∧ fixed_latency s' ∧ lat = SimpleMemory.latency (base s) ∧
  SimpleMemory.latency (base s') = SimpleMemory.latency (base s).
Proof.
  unfold processDmaRequest. intros H [Hl Hv].
  apply bind_Ok in H as ([[[p1 b1] h1] l1] & Ha & H). injection H as <- <- <- <-.
  apply SimpleMemory.recvAtomic_fields in Ha as (Hl' & Hv' & -> & _).
  unfold fixed_latency, SimpleMemory.getLatency. simpl. rewrite Hv', Hl', Hv. simpl.
  split_and!; try done. lia.
Qed.

(** What a request does to the port: its response joins the back of the queue,
    and an idle port schedules its event for it. *)
Lemma recvTimingReq_port n j p s h b s' h' :
  recvTimingReq n j p s h = Ok (b, s', h') → fixed_latency s →
  b = true ∧ fixed_latency s' ∧
  SimpleMemory.latency (base s') = SimpleMemory.latency (base s) ∧
  dmaPacketQueue (dmaPort s') = dmaPacketQueue (dmaPort s) ++ entry_of n j p s h ∧
  Forall (λ x, x.2 = n + SimpleMemory.latency (base s)) (entry_of n j p s h) ∧
  retryResp (dmaPort s') = retryResp (dmaPort s) ∧
  dmaDequeueEvent (dmaPort s') =
    (if negb (retryResp (dmaPort s)) && bool_decide (dmaDequeueEvent (dmaPort s) = None)
     then snd <$> head (entry_of n j p s h) else dmaDequeueEvent (dmaPort s)).
Proof.
  unfold recvTimingReq. intros H Hf. apply bind_Ok in H as ([[[p1 s1] h1] lat] & Hp & H).
  unfold entry_of. rewrite Hp.
  destruct (processDmaRequest_fields _ _ _ _ _ _ _ _ Hp Hf) as (Hd & Hf1 & -> & Hl).
  destruct Hf as [Hl0 _]. destruct (Packet.needsResponse p).
  - rewrite Hd in H. apply bind_Ok in H as (e & He & H). injection H as <- <- <-. simpl.
    split_and!; try done; [by repeat constructor|].
    destruct (negb _ && _) eqn:E; [|by injection He].
    apply andb_true_iff in E as [_ E%bool_decide_eq_true_1]. unfold scheduleDmaEvent in He.
    rewrite E, schedule_at_Ok in He by lia. by injection He.
  - injection H as <- <- <-. rewrite Hd, app_nil_r. split_and!; try done.
    destruct (negb _ && _) eqn:E; [|done].
    by apply andb_true_iff in E as [_ ->%bool_decide_eq_true_1].
Qed.

Lemma reenter_port n reqs s h s' h' :
  reenter n reqs s h = Ok (s', h') → fixed_latency s →
  fixed_latency s' ∧ SimpleMemory.latency (base s') = SimpleMemory.latency (base s) ∧
  dmaPacketQueue (dmaPort s') = dmaPacketQueue (dmaPort s) ++ entries_of n reqs s h ∧
  Forall (λ x, x.2 = n + SimpleMemory.latency (base s)) (entries_of n reqs s h) ∧
  retryResp (dmaPort s') = retryResp (dmaPort s) ∧
  dmaDequeueEvent (dmaPort s') =
    (if negb (retryResp (dmaPort s)) && bool_decide (dmaDequeueEvent (dmaPort s) = None)
     then snd <$> head (entries_of n reqs s h) else dmaDequeueEvent (dmaPort s)).
Proof.
  revert s h. induction reqs as [|[j p] reqs IH]; intros s h H Hf; simpl in *.
  { injection H as <- <-. rewrite app_nil_r. split_and!; try done.
    destruct (negb _ && _) eqn:E; [|done].
    by apply andb_true_iff in E as [_ ->%bool_decide_eq_true_1]. }
  apply bind_Ok in H as ([[b s1] h1] & Hr & H). rewrite Hr.
  destruct (recvTimingReq_port _ _ _ _ _ _ _ _ Hr Hf) as (_ & Hf1 & Hl & Hq & Ha & Hrr & He).
  destruct (IH s1 h1 H Hf1) as (Hf' & Hl' & Hq' & Ha' & Hrr' & He').
  rewrite Hl in Ha'. split_and!; [done|congruence|by rewrite Hq', Hq, app_assoc| |congruence|].
  { by apply Forall_app. }
  rewrite He', Hrr, He. destruct (retryResp (dmaPort s)); simpl; [done|].
  destruct (dmaDequeueEvent (dmaPort s)); simpl; [done|].
  by destruct (entry_of n j p s h) as [|y l].
Qed.

(** [dmaDequeue] on a port whose front response is due and which has neither
    an event nor a retry to come. *)
Lemma dmaDequeue_ok n reqs accepted s h o s' h' :
  dmaDequeue n reqs accepted s h = Ok (o, s', h') → polite reqs accepted → fixed_latency s →
  retryResp (dmaPort s) = false → dmaDequeueEvent (dmaPort s) = None → bounded n s →
  (∀ x q, dmaPacketQueue (dmaPort s) = x :: q → x.2 <= n) → dmaPacketQueue (dmaPort s) ≠ [] →
  fixed_latency s' ∧ pending_ok n (dmaPort s') ∧ bounded n s' ∧
  Forall (λ x, x.1.2 <= x.2) (sent_at n o) ∧
  dmaPacketQueue (dmaPort s) ++ entries_of n reqs s h =
    (sent_at n o).*1 ++ dmaPacketQueue (dmaPort s').
Proof.
  intros H Hpol Hf Hr He Hb Hdue Hne. unfold dmaDequeue in H. unfold bounded in *.
  destruct (dmaPacketQueue (dmaPort s)) as [|x q] eqn:Hq; [done|]. specialize (Hdue x q eq_refl).
  apply bind_Ok in H as ([s1 h1] & Hre & H).
  destruct (reenter_port _ _ _ _ _ _ Hre Hf) as (Hf1 & Hl1 & Hq1 & Ha & Hr1 & He1).
  rewrite Hr, He in He1. rewrite Hq in Hq1. cbn [negb andb bool_decide decide_rel] in He1.
  rewrite bool_decide_true in He1 by done.
  assert (Forall (λ y, y.2 <= n + SimpleMemory.latency (base s)) (q ++ entries_of n reqs s h)) as Hb'.
  { apply Forall_cons_1 in Hb as [_ Hb]. apply Forall_app. split; [done|].
    eapply Forall_impl; [exact Ha|]. simpl. lia. }
  destruct accepted.
  - rewrite Hq1 in H. simpl in H. apply bind_Ok in H as (e & Hs & H). injection H as <- <- <-.
    split_and!; [done| |by simpl; rewrite Hl1|by repeat constructor|done].
    unfold pending_ok. simpl. rewrite He1 in Hs.
    destruct (q ++ entries_of n reqs s h) as [|[y w] l] eqn:Hl; [|].
    + apply app_eq_nil in Hl as [_ Hl]. rewrite Hl in Hs. injection Hs as <-. done.
    + apply Forall_cons_1 in Hb' as [Hw _]. simpl in Hw. destruct Hf as [Hlat _].
      destruct (entries_of n reqs s h) as [|z es]; simpl in Hs.
      * unfold scheduleDmaEvent in Hs. rewrite schedule_at_Ok in Hs by lia. injection Hs as <-.
        eexists. split; [done|lia].
      * injection Hs as <-. apply Forall_cons_1 in Ha as [Hz _]. eexists. split; [done|lia].
  - rewrite (Hpol eq_refl) in *. simpl in *. injection Hre as <- <-. injection H as <- <- <-.
    unfold pending_ok. simpl. rewrite Hq, app_nil_r. split_and!; try done.
    by destruct x.
Qed.

Lemma dma_pending_time n n' d :
  pending_ok n d → n <= n' → (∀ x, dmaDequeueEvent d = Some x → n' <= x) → pending_ok n' d.
Proof.
  unfold pending_ok. destruct (dmaPacketQueue d) as [|[p r] q]; [done|].
  destruct (retryResp d); [intros [? ?] ?; split; [done|lia]|].
  intros (x & Hx & ? & ?) ? Hle. exists x. specialize (Hle x Hx). split; [done|lia].
Qed.

(** When its event runs or its retry comes, the port has a due response, and
    the other of the two is not to come. *)
Lemma pending_ready n d :
  pending_ok n d → dmaDequeueEvent d = Some n ∨ retryResp d = true →
  dmaPacketQueue d ≠ [] ∧ (∀ x q, dmaPacketQueue d = x :: q → x.2 <= n) ∧
  (dmaDequeueEvent d = Some n → retryResp d = false) ∧
  (retryResp d = true → dmaDequeueEvent d = None).
Proof.
  unfold pending_ok. destruct (dmaPacketQueue d) as [|[p r] q].
  { intros [-> ->] [?|?]; done. }
  destruct (retryResp d).
  - intros [-> ?] _. split_and!; try done. by intros x q' [= <- <-].
  - intros (x & -> & ? & ?) [[= ->]|?]; [|done]. split_and!; try done. by intros y q' [= <- <-].
Qed.

Lemma dma_pending_request n j p s h b s' h' :
  recvTimingReq n j p s h = Ok (b, s', h') → fixed_latency s →
  pending_ok n (dmaPort s) → pending_ok n (dmaPort s').
Proof.
  intros H Hf Hp.
  destruct (recvTimingReq_port _ _ _ _ _ _ _ _ H Hf) as (_ & _ & _ & Hq & Ha & Hr & He).
  destruct Hf as [Hl _]. unfold pending_ok in *. rewrite Hq, Hr, He.
  destruct (dmaPacketQueue (dmaPort s)) as [|[p0 r0] q]; simpl.
  - destruct Hp as [-> ->]. simpl. destruct (entry_of n j p s h) as [|[y w] l]; [done|].
    apply Forall_cons_1 in Ha as [Hw _]. simpl in Hw |- *. eexists. split; [done|lia].
  - destruct (retryResp (dmaPort s)); simpl; [done|].
    destruct Hp as (x & -> & ? & ?). simpl. eauto.
Qed.

Lemma step_send_ok c reqs accepted o s s' h' :
  ok c → dmaDequeue (now c) reqs accepted s (hm c) = Ok (o, s', h') → polite reqs accepted →
  base s = base (st c) → dmaPacketQueue (dmaPort s) = dmaPacketQueue (dmaPort (st c)) →
  retryResp (dmaPort s) = false → dmaDequeueEvent (dmaPort s) = None →
  (∀ x q, dmaPacketQueue (dmaPort s) = x :: q → x.2 <= now c) → dmaPacketQueue (dmaPort s) ≠ [] →
  ok (mkSys (now c) s' h' (taken c ++ entries_of (now c) reqs s (hm c))
        (sent c ++ sent_at (now c) o)).
Proof.
  intros [Hf _ Hb Hd Hfifo] H Hpol Hbase Hq Hr He Hdue Hne.
  destruct (dmaDequeue_ok _ _ _ _ _ _ _ _ H Hpol) as (Hf' & Hp' & Hb' & Hs & Hsq); try done.
  { unfold fixed_latency. by rewrite Hbase. }
  { unfold bounded. by rewrite Hbase, Hq. }
  constructor; simpl; try done; [by apply Forall_app|].
  by rewrite Hfifo, <-app_assoc, <-Hq, Hsq, fmap_app, app_assoc.
Qed.

Lemma dma_step_ok c c' : ok c → step c c' → ok c'.
Proof.
  intros Hok Hstep. pose proof Hok as [Hf Hp Hb Hd Hfifo].
  destruct Hstep as [c n Hn He|c j p b s' h' H|c reqs acc o s' h' Hpol He H
    |c reqs acc o s' h' Hpol Hr H].
  - constructor; simpl; try done; [by eapply dma_pending_time|].
    eapply Forall_impl; [exact Hb|]. simpl. lia.
  - destruct (recvTimingReq_port _ _ _ _ _ _ _ _ H Hf) as (_ & Hf' & Hl & Hq & Ha & _).
    constructor; simpl; try done; [by eapply dma_pending_request| |by rewrite Hfifo, Hq, app_assoc].
    unfold bounded. rewrite Hl, Hq. apply Forall_app. split; [done|].
    eapply Forall_impl; [exact Ha|]. simpl. lia.
  - destruct (pending_ready _ _ Hp (or_introl He)) as (Hne & Hdue & Hr & _).
    eapply step_send_ok; [done|exact H|done..|by apply Hr|done|done|done].
  - destruct (pending_ready _ _ Hp (or_intror Hr)) as (Hne & Hdue & _ & He).
    unfold recvRespRetry in H. apply bind_Ok in H as ([] & _ & H).
    eapply step_send_ok; [done|exact H|done..|by apply He|done|done].
Qed.

(** A request the memory can serve is always accepted. *)
Lemma recvTimingReq_accepts n j p s h r :
  processDmaRequest j p s h = Ok r → fixed_latency s →
  ∃ s' h', recvTimingReq n j p s h = Ok (true, s', h').
Proof.
  destruct r as [[[p1 s1] h1] lat]. intros H Hf. unfold recvTimingReq. rewrite H.
  destruct (processDmaRequest_fields _ _ _ _ _ _ _ _ H Hf) as (Hd & _ & -> & _).
  destruct Hf as [Hl _]. rewrite res_bind_Ok. destruct (Packet.needsResponse p); [|by eauto].
  destruct (negb _ && _) eqn:E; [|rewrite res_bind_Ok; by eauto].
  apply andb_true_iff in E as [_ E%bool_decide_eq_true_1]. unfold scheduleDmaEvent.
  rewrite E, schedule_at_Ok by lia. rewrite res_bind_Ok. eauto.
Qed.

(** A due response that the peer accepts is sent. *)
Lemma dmaDequeue_sends n x q s h :
  dmaPacketQueue (dmaPort s) = x :: q →
  ∃ s', dmaDequeue n [] true s h = Ok (Some x, s', h).
Proof.
  intros Hq. unfold dmaDequeue. rewrite Hq. cbn [reenter]. rewrite res_bind_Ok, Hq. simpl.
  destruct q as [|[y w] q]; [rewrite res_bind_Ok; by eauto|].
  case_bool_decide as E; [|rewrite res_bind_Ok; by eauto].
  unfold scheduleDmaEvent. rewrite E, schedule_at_Ok by lia. rewrite res_bind_Ok. eauto.
Qed.

(** C22: in every run of the scratchpad's DMA port with a fixed latency, from a
    consistent state and with requests arriving at any time, also while a
    response is being delivered: the responses are sent in the order their
    requests were taken, none lost or duplicated, and none before it is due; a
    pending response has either its event scheduled or a retry to come, never
    both; when either comes and the peer accepts, the first pending response is
    sent; and any request the memory can serve is accepted, even while a
    response waits for a retry. *)
Theorem spm_dma_runs c c' :
  ok c → rtc step c c' →
  taken c' = (sent c').*1 ++ dmaPacketQueue (dmaPort (st c')) ∧
  Forall (λ x, x.1.2 <= x.2) (sent c') ∧ pending_ok (now c') (dmaPort (st c')) ∧
  (dmaDequeueEvent (dmaPort (st c')) = Some (now c') → ∃ x q s',
     dmaPacketQueue (dmaPort (st c')) = x :: q ∧
     process_dmaDequeue (now c') [] true (st c') (hm c') = Ok (Some x, s', hm c')) ∧
  (retryResp (dmaPort (st c')) = true → ∃ x q s',
     dmaPacketQueue (dmaPort (st c')) = x :: q ∧
     recvRespRetry (now c') [] true (st c') (hm c') = Ok (Some x, s', hm c')) ∧
  (∀ j p r, processDmaRequest j p (st c') (hm c') = Ok r →
     ∃ s' h', recvTimingReq (now c') j p (st c') (hm c') = Ok (true, s', h')).
Proof.
  intros Hok Hrun. assert (ok c') as [Hf Hp _ Hd Hfifo] by (induction Hrun; eauto using dma_step_ok).
  split_and!; try done.
  - intros He. destruct (pending_ready _ _ Hp (or_introl He)) as (Hne & _).
    destruct (dmaPacketQueue (dmaPort (st c'))) as [|x q] eqn:Hq; [done|].
    destruct (dmaDequeue_sends (now c') x q (clear_event (st c')) (hm c') Hq). by eauto.
  - intros Hr. destruct (pending_ready _ _ Hp (or_intror Hr)) as (Hne & _).
    destruct (dmaPacketQueue (dmaPort (st c'))) as [|x q] eqn:Hq; [done|].
    destruct (dmaDequeue_sends (now c') x q (clear_retry (st c')) (hm c') Hq).
    unfold recvRespRetry. rewrite Hr. simpl. by eauto.
  - intros j p r Hr. by eapply recvTimingReq_accepts.
Qed.

Definition demo : sys :=
  mkSys 100 (create AbstractMemory.demo 30 0) AbstractMemory.demo_heap [] [].

Lemma demo_spm_ok : ok demo.
Proof. constructor; try done. by constructor. Qed.

(** A read is taken at tick 100; its response is due at tick 130. *)
Lemma spm_dma_runs_witness :
  ∃ c', rtc step demo c' ∧ dmaDequeueEvent (dmaPort (st c')) = Some 130 ∧
    length (taken c') = 1%nat ∧ taken c' = dmaPacketQueue (dmaPort (st c')).
Proof.
  destruct (recvTimingReq 100 0 SimpleMemory.demo_read (st demo) (hm demo))
    as [[[b s'] h']|f] eqn:H; [|vm_compute in H; discriminate H].
  assert (rtc step demo _) as Hrun by (eapply rtc_once, (step_request demo 0 _ b s' h' H)).
  destruct (spm_dma_runs demo _ demo_spm_ok Hrun) as (Hfifo & _).
  eexists. split; [exact Hrun|]. split_and!; [| |exact Hfifo].
  - vm_compute in H. injection H as <- <- <-. reflexivity.
  - vm_compute. reflexivity.
Defined.

End Spm.
