(* ===== verification/Functional.v ===== *)
(** Functional accesses: what memories promise to those that read and write them
    outside of simulated time (the loader, debuggers, system-call emulation). *)

From S2P Require Import Prelude AddrRange Host Request MemCmd Packet PacketQueue AbstractMem MemInterface.
From S2P Require Import XBarLayer XBar XBarMemory SimpleMem Spm.
Import Host.

(** A memory that nothing is queued in can be read and written functionally. *)
Class FunctionalMemory (M : Type) {HM : ByteMemory M} := {
  (** [recvFunctional(pkt)] *)
  recvFunctional : Packet.t → M → hmem → res (Packet.t * M * hmem);
  (** No packet is queued that holds data of the memory. *)
  calm : M → Prop;

  functional_read p m h d n :
    inv m h → calm m → AbstractMemory.plain_read p → Packet.flag p Packet.VALID_ADDR = true →
    Packet.has_buffer h p d n → 0 < n → ¬ owns m (block d) → accepts m (Packet.addr p) n →
    ∃ p' m' h', recvFunctional p m h = Ok (p', m', h') ∧ inv m' h' ∧ calm m' ∧ same_memory m m' ∧
      (∀ i, 0 <= i < n → peek h' (block d) (offset d + i) = contents m h (Packet.addr p + i)) ∧
      (∀ a, contents m' h' a = contents m h a) ∧
      (∀ b i, b ≠ block d ∨ ¬ offset d <= i < offset d + n → peek h' b i = peek h b i) ∧
      (∀ q k, in_bounds h' q k = in_bounds h q k);

  functional_write p m h d n :
    inv m h → calm m → AbstractMemory.plain_write p → Packet.isMaskedWrite p = false →
    Packet.flag p Packet.VALID_ADDR = true →
    Packet.has_buffer h p d n → 0 < n → ¬ owns m (block d) → accepts m (Packet.addr p) n →
    ∃ p' m' h', recvFunctional p m h = Ok (p', m', h') ∧ inv m' h' ∧ calm m' ∧ same_memory m m' ∧
      (∀ a, contents m' h' a =
         if decide (Packet.addr p <= a < Packet.addr p + n)
         then peek h (block d) (offset d + (a - Packet.addr p)) else contents m h a) ∧
      (∀ b i, ¬ owns m b → peek h' b i = peek h b i) ∧
      (∀ q k, in_bounds h' q k = in_bounds h q k);
}.

(** ** [AbstractMemory] *)

Lemma functionalAccess_read p m h pm d n :
  AbstractMemory.wf m h pm → AbstractMemory.inside p m → AbstractMemory.plain_read p →
  Packet.has_buffer h p d n → block d ≠ block pm →
  ∃ p' h', AbstractMemory.functionalAccess p m h = Ok (p', h') ∧ AbstractMemory.wf m h' pm ∧
    (∀ i, 0 <= i < n → peek h' (block d) (offset d + i) = AbstractMemory.contents m h (Packet.addr p + i)) ∧
    (∀ b i, b ≠ block d ∨ ¬ offset d <= i < offset d + n → peek h' b i = peek h b i) ∧
    (∀ q k, in_bounds h' q k = in_bounds h q k).
Proof.
  intros Hwf Hin (Hrd & _ & _ & _ & Hnr & Hmw & _) Hb Hne.
  destruct (AbstractMemory.access_range p m h pm d n Hwf Hin Hb) as [Hsub Ha].
  pose proof (AbstractMemory.host_in_bounds p m h pm Hwf Hin) as Hhb.
  assert (Packet.size p = n) as Hsz by apply Hb. assert (0 < n) as Hn by (rewrite <-Hsz; apply Hin).
  unfold AbstractMemory.functionalAccess. destruct (Packet.getAddrRange p) as [r|]; [|done].
  simpl in Hsub |- *. rewrite Hsub. simpl. rewrite Ha. simpl. rewrite Hrd, (AbstractMemory.wf_pmem _ _ _ Hwf).
  destruct (Packet.setData_copied h (AbstractMemory.toHostAddr m pm (Packet.addr p)) p d n)
    as (h' & -> & Hc & Hbd); [done|done|by rewrite <-Hsz|by left|done|].
  rewrite res_bind_Ok, (AbstractMemory.makeResponse_Ok p Hnr), res_bind_Ok. eexists _, h'. split; [done|]. split_and!; try done.
  - eapply AbstractMemory.wf_config; [done|done|done|apply Hwf].
  - intros i Hi. rewrite Hc, decide_True by (split; [done|]; lia). unfold AbstractMemory.contents.
    rewrite (AbstractMemory.wf_pmem _ _ _ Hwf). destruct Hin as [_ _ Hlo Hhi].
    rewrite decide_True by lia. simpl. f_equal. lia.
  - intros b i Hbi. rewrite Hc, decide_False; [done|]. naive_solver.
Qed.

Lemma functionalAccess_write p m h pm d n :
  AbstractMemory.wf m h pm → AbstractMemory.inside p m → AbstractMemory.plain_write p →
  Packet.isMaskedWrite p = false → Packet.has_buffer h p d n → block d ≠ block pm →
  ∃ p' h', AbstractMemory.functionalAccess p m h = Ok (p', h') ∧ AbstractMemory.wf m h' pm ∧
    (∀ a, AbstractMemory.contents m h' a =
       if decide (Packet.addr p <= a < Packet.addr p + n)
       then peek h (block d) (offset d + (a - Packet.addr p)) else AbstractMemory.contents m h a) ∧
    (∀ b i, b ≠ block pm → peek h' b i = peek h b i) ∧
    (∀ q k, in_bounds h' q k = in_bounds h q k).
Proof.
  intros Hwf Hin (Hwr & Hrd & _ & _ & Hnr & _ & _ & _ & Hm & _) Hmw Hb Hne.
  destruct (AbstractMemory.access_range p m h pm d n Hwf Hin Hb) as [Hsub Ha].
  pose proof (AbstractMemory.host_in_bounds p m h pm Hwf Hin) as Hhb.
  assert (Packet.size p = n) as Hsz by apply Hb. rewrite Hsz in Hhb.
  unfold AbstractMemory.functionalAccess. destruct (Packet.getAddrRange p) as [r|]; [|done].
  simpl in Hsub |- *. rewrite Hsub. simpl. rewrite Ha. simpl. rewrite Hrd, Hwr, (AbstractMemory.wf_pmem _ _ _ Hwf).
  destruct (Packet.writeData_copied h (AbstractMemory.toHostAddr m pm (Packet.addr p)) p d n)
    as (h' & -> & Hc & Hbd); [done|done|done|left; simpl; congruence|].
  rewrite res_bind_Ok, (AbstractMemory.makeResponse_Ok p Hnr), res_bind_Ok. eexists _, h'. split; [done|]. split_and!; try done.
  - eapply AbstractMemory.wf_config; [done|done|done|apply Hwf].
  - intros a. unfold AbstractMemory.contents. rewrite (AbstractMemory.wf_pmem _ _ _ Hwf). destruct Hin as [_ _ Hlo Hhi].
    destruct (decide (AddrRange._start (AbstractMemory.range m) <= a < AddrRange._end (AbstractMemory.range m))).
    + rewrite Hc. simpl.
      replace (offset pm + (a - AddrRange._start (AbstractMemory.range m)) -
        (offset pm + (Packet.addr p - AddrRange._start (AbstractMemory.range m)))) with (a - Packet.addr p) by lia.
      apply decide_ext. unfold Packet.stored. rewrite Hmw. intuition lia.
    + rewrite decide_False; [done|]. lia.
  - intros b i Hbi. rewrite Hc, decide_False; [done|]. simpl. naive_solver.
Qed.

(** ** The memories *)

#[global] Program Instance simple_functional : FunctionalMemory SimpleMemory.t := {
  recvFunctional p s h := '(p, h) ← SimpleMemory.recvFunctional p s h; Ok (p, s, h);
  calm s := SimpleMemory.packetQueue s = [];
}.
Next Obligation.
  intros p s h d n (pm & Hwf & Hw) Hq Hpr Hva Hbuf Hn Ho Hacc.
  assert (block d ≠ block pm) as Hne by (intros Heq; apply Ho; exists pm; split; [apply Hwf|done]).
  destruct (functionalAccess_read p (SimpleMemory.mem s) h pm d n) as (p' & h' & Ha & Hwf' & Hd & Hfr & Hbd);
    [done|eapply SimpleMemory.sm_inside; [done|apply Hbuf|done|done]|done|done|done|].
  exists p', s, h'. unfold SimpleMemory.recvFunctional. rewrite Ha, res_bind_Ok, Hq. split; [done|].
  split; [by exists pm|]. split; [done|]. split; [apply same_memory_refl|]. split; [done|]. split; [|done].
  intros a. simpl. apply (AbstractMemory.contents_frame _ _ _ pm); [apply Hwf|]. intros i. apply Hfr. by left.
Qed.
Next Obligation.
  intros p s h d n (pm & Hwf & Hw) Hq Hpw Hmask Hva Hbuf Hn Ho Hacc.
  assert (block d ≠ block pm) as Hne by (intros Heq; apply Ho; exists pm; split; [apply Hwf|done]).
  destruct (functionalAccess_write p (SimpleMemory.mem s) h pm d n) as (p' & h' & Ha & Hwf' & Hd & Hfr & Hbd);
    [done|eapply SimpleMemory.sm_inside; [done|apply Hbuf|done|done]|done|done|done|done|].
  exists p', s, h'. unfold SimpleMemory.recvFunctional. rewrite Ha, res_bind_Ok, Hq. split; [done|].
  split; [by exists pm|]. split; [done|]. split; [apply same_memory_refl|]. split; [done|]. split; [|done].
  intros b i Hb. apply Hfr. intros ->. apply Hb. exists pm. split; [apply Hwf|done].
Qed.

#[global] Program Instance spm_functional : FunctionalMemory Spm.t := {
  recvFunctional p s h := '(p, h) ← Spm.recvFunctional p s h; Ok (p, s, h);
  calm s := calm (Spm.base s);
}.
Next Obligation.
  intros p s h d n ? ? ? ? ? ? ? ?.
  destruct (functional_read p (Spm.base s) h d n) as (p' & m' & h' & Hr & Hi & Hc & _ & Hd & Hm & ?); [done..|].
  simpl in Hr. unfold Spm.recvFunctional. destruct (SimpleMemory.recvFunctional p (Spm.base s) h) as [[p1 h1]|]; [|done].
  injection Hr as -> <- ->. exists p', s, h'. split; [done|]. split; [done|]. split; [done|].
  split; [apply same_memory_refl|done].
Qed.
Next Obligation.
  intros p s h d n ? ? ? ? ? ? ? ? ?.
  destruct (functional_write p (Spm.base s) h d n) as (p' & m' & h' & Hr & Hi & Hc & _ & Hd & Hm & ?); [done..|].
  simpl in Hr. unfold Spm.recvFunctional. destruct (SimpleMemory.recvFunctional p (Spm.base s) h) as [[p1 h1]|]; [|done].
  injection Hr as -> <- ->. exists p', s, h'. split; [done|]. split; [done|]. split; [done|].
  split; [apply same_memory_refl|done].
Qed.

Section Sum.
Context {A B : Type} {HA : ByteMemory A} {HB : ByteMemory B} `{!FunctionalMemory A, !FunctionalMemory B}.

Definition sum_recvFunctional (p : Packet.t) (m : A + B) (h : hmem) : res (Packet.t * (A + B) * hmem) :=
  match m with
  | inl a => '(p, a, h) ← recvFunctional p a h; Ok (p, inl a, h)
  | inr b => '(p, b, h) ← recvFunctional p b h; Ok (p, inr b, h)
  end.

Definition sum_calm (m : A + B) : Prop := match m with inl a => calm a | inr b => calm b end.

#[global] Program Instance sum_functional : FunctionalMemory (A + B) := {
  recvFunctional := sum_recvFunctional;
  calm := sum_calm;
}.
Next Obligation.
  intros p [m|m] h d n ? ? ? ? ? ? ? ?;
    destruct (functional_read p m h d n) as (p' & m' & h' & Hr & ? & ? & [? ?] & ?); try done.
  - exists p', (inl m'), h'. cbn. by rewrite Hr.
  - exists p', (inr m'), h'. cbn. by rewrite Hr.
Qed.
Next Obligation.
  intros p [m|m] h d n ? ? ? ? ? ? ? ? ?;
    destruct (functional_write p m h d n) as (p' & m' & h' & Hr & ? & ? & [? ?] & ?); try done.
  - exists p', (inl m'), h'. cbn. by rewrite Hr.
  - exists p', (inr m'), h'. cbn. by rewrite Hr.
Qed.
End Sum.

(** ** The crossbar *)

Section Crossbar.
Context {M : Type} {HM : ByteMemory M} {HF : FunctionalMemory M}.

Definition xbar_calm (s : XBarMemory.t M) : Prop :=
  Forall (λ q, PacketQueue.transmitList q = []) (XBar.cpuSidePorts (XBarMemory.xbar s)) ∧
  Forall calm (XBarMemory.mems s).

Lemma check_ports_calm l p h :
  Forall (λ q, PacketQueue.transmitList q = []) l → XBarMemory.check_ports l p h = Ok (false, p, h).
Proof.
  induction 1 as [|q l Hq _ IH]; [done|]. simpl. unfold PacketQueue.trySatisfyFunctional. by rewrite Hq.
Qed.

Lemma xbar_calm_after s x id m' :
  xbar_calm s → XBar.same_decoder (XBarMemory.xbar s) x → calm m' →
  xbar_calm (XBarMemory.mk x (XBar.put_at id m' (XBarMemory.mems s))).
Proof.
  intros [Hq Hm] (_ & _ & mp & Hx) Hm'. split; simpl; [by rewrite Hx|]. by apply Forall_insert.
Qed.

#[global] Program Instance crossbar_functional : FunctionalMemory (XBarMemory.t M) := {
  recvFunctional := XBarMemory.recvFunctional recvFunctional;
  calm := xbar_calm;
}.
Next Obligation.
  intros p s h d n Hinv Hcalm Hpl Hva Hb Hn Ho Hacc. unfold XBarMemory.recvFunctional.
  rewrite check_ports_calm, res_bind_Ok by apply Hcalm.
  destruct (XBarMemory.access_find s h p d n) as (id & m & x & -> & Hx & Hid & Hm & Ham & Hroute); [done..|].
  rewrite res_bind_Ok, (XBar.at_port_Some _ _ m), res_bind_Ok by done.
  destruct (functional_read p m h d n) as (p' & m' & h' & -> & Hi' & Hc' & Hsame & Hd & Hc & Hpk & Hbd);
    try done; [by eapply XBarMemory.inv_mems|by eapply (Forall_lookup_1 _ _ _ _ (proj2 Hcalm))
              |intros ?; apply Ho; by exists (Z.to_nat id), m|].
  assert (XBarMemory.access id m m' s h h') as Hac.
  { constructor; try done. intros k mk b i Hk Hmk Hob. apply Hpk. left. intros ->. apply Ho. by exists k, mk. }
  rewrite res_bind_Ok. do 3 eexists. split; [done|]. split; [exact (XBarMemory.access_inv id m m' s h h' x Hinv Hx Hac)|].
  split; [by eapply xbar_calm_after|]. split; [exact (XBarMemory.access_same id m m' s h h' x Hx Hac)|]. split.
  - intros i Hir. rewrite Hd by done. simpl. unfold XBarMemory.contents. by rewrite Hroute, Hm by lia.
  - split; [|done]. intros a. simpl. rewrite (XBarMemory.access_contents id m m' s h h' x Hinv Hx Hac).
    case_decide as Hr; [|done]. rewrite Hc. unfold XBarMemory.contents. by rewrite Hr, Hm.
Qed.
Next Obligation.
  intros p s h d n Hinv Hcalm Hpl Hmw Hva Hb Hn Ho Hacc. unfold XBarMemory.recvFunctional.
  rewrite check_ports_calm, res_bind_Ok by apply Hcalm.
  destruct (XBarMemory.access_find s h p d n) as (id & m & x & -> & Hx & Hid & Hm & Ham & Hroute); [done..|].
  rewrite res_bind_Ok, (XBar.at_port_Some _ _ m), res_bind_Ok by done.
  destruct (functional_write p m h d n) as (p' & m' & h' & -> & Hi' & Hc' & Hsame & Hc & Hpk & Hbd);
    try done; [by eapply XBarMemory.inv_mems|by eapply (Forall_lookup_1 _ _ _ _ (proj2 Hcalm))
              |intros ?; apply Ho; by exists (Z.to_nat id), m|].
  assert (XBarMemory.access id m m' s h h') as Hac.
  { constructor; try done. intros k mk b i Hk Hmk Hob. apply Hpk. intros Hob'. apply Hk.
    by apply (XBarMemory.inv_apart _ _ Hinv k (Z.to_nat id) mk m b). }
  rewrite res_bind_Ok. do 3 eexists. split; [done|]. split; [exact (XBarMemory.access_inv id m m' s h h' x Hinv Hx Hac)|].
  split; [by eapply xbar_calm_after|]. split; [exact (XBarMemory.access_same id m m' s h h' x Hx Hac)|]. split; [|split; [|done]].
  - intros a. simpl. rewrite (XBarMemory.access_contents id m m' s h h' x Hinv Hx Hac). rewrite Hc.
    destruct (decide (XBarMemory.route s a = Some id)) as [Hr|Hr], (decide (_ <= a < _)) as [Ha|Ha]; try done.
    + unfold XBarMemory.contents. by rewrite Hr, Hm.
    + by rewrite Hroute in Hr.
  - intros b i Hnb. apply Hpk. intros Hob. apply Hnb. by exists (Z.to_nat id), m.
Qed.

End Crossbar.
