(* ===== verification/PortProxy.v ===== *)
(** Port proxies ([mem/port_proxy.{hh,cc}]): reading and writing guest memory from
    the simulator, in blocks, as values and as strings. *)

From S2P Require Import Prelude ChunkGen Host Request MemCmd Packet AbstractMem MemInterface Functional.
Import Host ChunkGenerator(in_block).

(** What a proxy promises, however it reaches the memory: [tryReadBlob] and the
    others are its virtual methods. *)
Class BlobProxy (G : Type) := {
  tryReadBlob : Z → ptr → Z → G → hmem → res (bool * G * hmem);
  tryWriteBlob : Z → ptr → Z → G → hmem → res (bool * G * hmem);
  (** The byte at a guest address. *)
  guest : G → hmem → Z → option Z;
  (** The simulator buffers behind the guest memory. *)
  holds : G → positive → Prop;
  (** The regions (address, size) that can be accessed. *)
  spans : G → Z → Z → Prop;
  ok : G → hmem → Prop;

  keeps (s s' : G) : Prop :=
    (∀ b, holds s' b ↔ holds s b) ∧ (∀ a n, spans s a n → spans s' a n);

  ok_frame s h h' :
    ok s h → (∀ b i, holds s b → peek h' b i = peek h b i) →
    (∀ q n, holds s (block q) → in_bounds h' q n = in_bounds h q n) →
    ok s h' ∧ ∀ x, guest s h' x = guest s h x;
  ok_holds s h b : ok s h → holds s b → is_Some (h !! b);
  spans_range s a n : spans s a n → 0 <= a ∧ a + n <= 2 ^ 64;
  spans_part s a n z l : spans s a n → 0 <= z → 0 <= l → z + l <= n → spans s (a + z) l;

  read_blob a d n s h :
    ok s h → spans s a n → in_bounds h d n = true → ¬ holds s (block d) →
    ∃ s' h', tryReadBlob a d n s h = Ok (true, s', h') ∧ ok s' h' ∧ keeps s s' ∧
      (∀ x, guest s' h' x = guest s h x) ∧
      (∀ i, 0 <= i < n → peek h' (block d) (offset d + i) = guest s h (a + i)) ∧
      (∀ b i, b ≠ block d ∨ ¬ offset d <= i < offset d + n → peek h' b i = peek h b i) ∧
      (∀ q k, in_bounds h' q k = in_bounds h q k);

  write_blob a d n s h :
    ok s h → spans s a n → in_bounds h d n = true → ¬ holds s (block d) →
    ∃ s' h', tryWriteBlob a d n s h = Ok (true, s', h') ∧ ok s' h' ∧ keeps s s' ∧
      (∀ x, guest s' h' x =
         if decide (a <= x < a + n) then peek h (block d) (offset d + (x - a)) else guest s h x) ∧
      (∀ b i, ¬ holds s b → peek h' b i = peek h b i) ∧
      (∀ q k, in_bounds h' q k = in_bounds h q k);
}.

(** ... and fills regions. *)
Class BlobMemset (G : Type) {HB : BlobProxy G} := {
  tryMemsetBlob : Z → Z → Z → G → hmem → res (bool * G * hmem);

  memset_blob a v n s h :
    ok s h → spans s a n → 0 <= n → 0 <= v < 256 →
    ∃ s' h', tryMemsetBlob a v n s h = Ok (true, s', h') ∧ ok s' h' ∧ keeps s s' ∧
      (∀ x, guest s' h' x = if decide (a <= x < a + n) then Some v else guest s h x) ∧
      (∀ b i, ¬ holds s b → peek h' b i = peek h b i) ∧
      (∀ q k, in_bounds h' q k = in_bounds h q k);
}.

Module PortProxy.

(** ** The interface built on the virtual methods *)

Section Proxy.
Context {G : Type} {HB : BlobProxy G}.

Definition readBlob (addr : Z) (p : ptr) (size : Z) (s : G) (h : hmem) : res (G * hmem) :=
  '(r, s, h) ← tryReadBlob addr p size s h;
  fatal_unless! r;
  Ok (s, h).

Definition writeBlob (addr : Z) (p : ptr) (size : Z) (s : G) (h : hmem) : res (G * hmem) :=
  '(r, s, h) ← tryWriteBlob addr p size s h;
  fatal_unless! r;
  Ok (s, h).

(** [read<T>] and [write<T>] for an unsigned [T] of [n] bytes; the local variable is
    a block of its own while it lives. *)
Definition read (n : nat) (address : Z) (s : G) (h : hmem) : res (Z * G * hmem) :=
  let '(data, h) := alloc h (Z.of_nat n) in
  '(s, h) ← readBlob address (Ptr data 0) (Z.of_nat n) s h;
  v ← load_int h (Ptr data 0) n;
  Ok (v, s, delete data h).

Definition write (n : nat) (address v : Z) (s : G) (h : hmem) : res (G * hmem) :=
  let '(data, h) := alloc h (Z.of_nat n) in
  h ← store_int h (Ptr data 0) n v;
  '(s, h) ← writeBlob address (Ptr data 0) (Z.of_nat n) s h;
  Ok (s, delete data h).

Definition read_order (n : nat) (address : Z) (byte_order : ByteOrder) (s : G) (h : hmem)
    : res (Z * G * hmem) :=
  '(v, s, h) ← read n address s h;
  Ok (gtoh n v byte_order, s, h).

Definition write_order (n : nat) (address v : Z) (byte_order : ByteOrder) (s : G) (h : hmem)
    : res (G * hmem) :=
  write n address (htog n v byte_order) s h.

(** The string written ends within its block. *)
Fixpoint write_string_loop (fuel : nat) (addr : Z) (str : ptr) (s : G) (h : hmem)
    : res (bool * G * hmem) :=
  match fuel with
  | O => Fail OutOfFuel
  | S fuel =>
      '(r, s, h) ← tryWriteBlob addr str 1 s h;
      if negb r then Ok (false, s, h) else
      c ← byte h str;
      if c =? 0 then Ok (true, s, h)
      else write_string_loop fuel (u64 (addr + 1)) (ptr_add str 1) s h
  end.

Definition tryWriteString (addr : Z) (str : ptr) (s : G) (h : hmem) : res (bool * G * hmem) :=
  write_string_loop (S (length (default [] (h !! block str)))) addr str s h.

Definition writeString (addr : Z) (str : ptr) (s : G) (h : hmem) : res (G * hmem) :=
  '(r, s, h) ← tryWriteString addr str s h;
  fatal_unless! r;
  Ok (s, h).

(** [tryReadString] into a [std::string], which has no bound of its own. *)
Fixpoint tryReadString (fuel : nat) (str : list Z) (addr : Z) (s : G) (h : hmem)
    : res (bool * list Z * G * hmem) :=
  match fuel with
  | O => Fail OutOfFuel
  | S fuel =>
      let '(c, h) := alloc h 1 in
      '(r, s, h) ← tryReadBlob addr (Ptr c 0) 1 s h;
      if negb r then Ok (false, str, s, delete c h) else
      v ← byte h (Ptr c 0);
      let h := delete c h in
      if v =? 0 then Ok (true, str, s, h)
      else tryReadString fuel (str ++ [v]) (u64 (addr + 1)) s h
  end.

Definition readString (fuel : nat) (str : list Z) (addr : Z) (s : G) (h : hmem)
    : res (list Z * G * hmem) :=
  '(r, str, s, h) ← tryReadString fuel str addr s h;
  fatal_unless! r;
  Ok (str, s, h).

(** [tryReadString] into a buffer of [maxlen] bytes. *)
Fixpoint read_string_loop (maxlen : nat) (str : ptr) (addr : Z) (s : G) (h : hmem)
    : res (bool * G * hmem) :=
  match maxlen with
  | O => h ← store_int h (ptr_add str (-1)) 1 0; Ok (true, s, h)
  | S maxlen =>
      '(r, s, h) ← tryReadBlob addr str 1 s h;
      if negb r then Ok (false, s, h) else
      c ← byte h str;
      if c =? 0 then Ok (true, s, h)
      else read_string_loop maxlen (ptr_add str 1) (u64 (addr + 1)) s h
  end.

Definition tryReadString_buf (str : ptr) (addr : Z) (maxlen : nat) (s : G) (h : hmem)
    : res (bool * G * hmem) :=
  assert! (negb (maxlen =? 0)%nat);
  read_string_loop maxlen str addr s h.

Definition readString_buf (str : ptr) (addr : Z) (maxlen : nat) (s : G) (h : hmem) : res (G * hmem) :=
  '(r, s, h) ← tryReadString_buf str addr maxlen s h;
  fatal_unless! r;
  Ok (s, h).

(** ** Buffers that live during a call *)

Lemma alloc_ok h n :
  0 <= n →
  ∃ b h', alloc h n = (b, h') ∧ h !! b = None ∧ in_bounds h' (Ptr b 0) n = true ∧
    (∀ c i, c ≠ b → peek h' c i = peek h c i) ∧
    (∀ q k, block q ≠ b → in_bounds h' q k = in_bounds h q k).
Proof.
  intros Hn. eexists _, _. split; [done|]. pose proof (is_fresh (dom h)) as Hf.
  set (b := fresh (dom h)) in *. split_and!.
  - by apply not_elem_of_dom.
  - apply in_bounds_iff. eexists. split; [apply lookup_insert_eq|]. simpl. rewrite length_replicate. lia.
  - intros c i Hc. unfold peek. by rewrite lookup_insert_ne.
  - intros q k Hq. unfold in_bounds. by rewrite lookup_insert_ne.
Qed.

Lemma peek_delete h b c i : peek (delete b h) c i = if decide (c = b) then None else peek h c i.
Proof. unfold peek. case_decide as Hc; [subst; by rewrite lookup_delete_eq|by rewrite lookup_delete_ne]. Qed.

Lemma in_bounds_delete h b q k :
  in_bounds (delete b h) q k = if decide (block q = b) then false else in_bounds h q k.
Proof. unfold in_bounds. case_decide as Hc; [subst; by rewrite lookup_delete_eq|by rewrite lookup_delete_ne]. Qed.

(** The guest and the heap as they were. *)
Record unchanged (s : G) (h : hmem) (s' : G) (h' : hmem) : Prop := {
  un_ok : ok s' h';
  un_keeps : keeps s s';
  un_guest x : guest s' h' x = guest s h x;
  un_peek b i : peek h' b i = peek h b i;
  un_bounds q k : in_bounds h' q k = in_bounds h q k;
}.

(** [n] bytes at [a] have been replaced. *)
Record stored (f : Z → option Z) (a n : Z) (s : G) (h : hmem) (s' : G) (h' : hmem) : Prop := {
  st_ok : ok s' h';
  st_keeps : keeps s s';
  st_guest x : guest s' h' x = if decide (a <= x < a + n) then f x else guest s h x;
  st_peek b i : ¬ holds s b → peek h' b i = peek h b i;
  st_bounds q k : in_bounds h' q k = in_bounds h q k;
}.

Lemma same_guest_refl s : keeps s s.
Proof. done. Qed.

Lemma same_guest_trans s1 s2 s3 : keeps s1 s2 → keeps s2 s3 → keeps s1 s3.
Proof. intros [H1 H2] [H3 H4]. split; [intros b; by rewrite H3|auto]. Qed.

Lemma unchanged_refl s h : ok s h → unchanged s h s h.
Proof. done. Qed.

Lemma unchanged_trans s1 h1 s2 h2 s3 h3 :
  unchanged s1 h1 s2 h2 → unchanged s2 h2 s3 h3 → unchanged s1 h1 s3 h3.
Proof.
  intros [? ? ? ? ?] [? ? ? ? ?]. constructor; try done; [by eapply same_guest_trans|intros; congruence..].
Qed.

(** A fresh block is none of the guest's. *)
Lemma fresh_block s h b : ok s h → h !! b = None → ¬ holds s b.
Proof. intros Hok Hb Hh. destruct (ok_holds s h b Hok Hh). congruence. Qed.

(** Heaps that differ in such a block are the same to the guest. *)
Lemma ok_except s h h' b :
  ok s h → ¬ holds s b → (∀ c i, c ≠ b → peek h' c i = peek h c i) →
  (∀ q k, block q ≠ b → in_bounds h' q k = in_bounds h q k) →
  ok s h' ∧ ∀ x, guest s h' x = guest s h x.
Proof.
  intros Hok Hb Hp Hi. apply ok_frame; [done|..].
  - intros c i Hc. apply Hp. by intros ->.
  - intros q n Hq. apply Hi. by intros <-.
Qed.

(** There is a byte wherever the guest can be accessed. *)
Lemma guest_some s h a n x : ok s h → spans s a n → a <= x < a + n → is_Some (guest s h x).
Proof.
  intros Hok Hsp Hx. destruct (alloc_ok h n ltac:(lia)) as (b & h1 & _ & Hnone & Hb & Hp & Hi).
  pose proof (fresh_block s h b Hok Hnone) as Hnb. destruct (ok_except s h h1 b) as [Hok1 Hg1]; [done..|].
  destruct (read_blob a (Ptr b 0) n s h1) as (s' & h' & _ & _ & _ & _ & Hbuf & _ & Hbd); [done..|].
  specialize (Hbuf (x - a) ltac:(lia)). rewrite Hg1 in Hbuf. replace (a + (x - a)) with x in Hbuf by lia. rewrite <-Hbuf.
  apply (peek_in_bounds h' (Ptr b 0) n); [by rewrite Hbd|simpl; lia].
Qed.

(** Reading into a block that is released again. *)
Lemma read_scratch n a s h b h1 :
  ok s h → spans s a n → 0 <= n → alloc h n = (b, h1) →
  ∃ s' h' bs, tryReadBlob a (Ptr b 0) n s h1 = Ok (true, s', h') ∧
    load_bytes h' (Ptr b 0) n = Ok bs ∧
    (∀ i, 0 <= i < n → bs !! Z.to_nat i = guest s h (a + i)) ∧ unchanged s h s' (delete b h').
Proof.
  intros Hok Hsp Hn Ha. destruct (alloc_ok h n Hn) as (b' & h1' & Ha' & Hnone & Hb & Hp & Hi).
  rewrite Ha in Ha'. injection Ha' as <- <-. pose proof (fresh_block s h b Hok Hnone) as Hnb.
  destruct (ok_except s h h1 b) as [Hok1 Hg1]; [done..|].
  destruct (read_blob a (Ptr b 0) n s h1) as (s' & h' & -> & Hok' & Hk & Hg & Hbuf & Hfr & Hbd); [done..|].
  destruct (load_bytes_in_bounds h' (Ptr b 0) n) as [bs Hbs]; [by rewrite Hbd|].
  exists s', h', bs. split; [done|]. split; [done|]. split.
  { intros i Hir. rewrite (load_bytes_peek _ _ _ _ i Hbs Hir). by rewrite Hbuf, Hg1. }
  destruct (ok_except s' h' (delete b h') b) as [Hok2 Hg2].
  - done.
  - by rewrite (proj1 Hk).
  - intros c i Hc. by rewrite peek_delete, decide_False.
  - intros q k Hq. by rewrite in_bounds_delete, decide_False.
  - constructor; [done|done|..].
    + intros x. by rewrite Hg2, Hg.
    + intros c i. rewrite peek_delete. case_decide as Hc; [subst; unfold peek; by rewrite Hnone|].
      rewrite Hfr by by left. by apply Hp.
    + intros q k. rewrite in_bounds_delete. case_decide as Hc; [subst; unfold in_bounds; by rewrite Hnone|].
      rewrite Hbd. by apply Hi.
Qed.

(** What has been stored by way of a block is stored once the block is released. *)
Lemma release f a n s h b s' h' :
  ok s h → h !! b = None → ok s' h' → keeps s s' →
  (∀ x, guest s' h' x = if decide (a <= x < a + n) then f x else guest s h x) →
  (∀ c i, c ≠ b → ¬ holds s c → peek h' c i = peek h c i) →
  (∀ q k, block q ≠ b → in_bounds h' q k = in_bounds h q k) →
  stored f a n s h s' (delete b h').
Proof.
  intros Hok Hnone Hok' Hk Hg Hfr Hbd. pose proof (fresh_block s h b Hok Hnone) as Hnb.
  destruct (ok_except s' h' (delete b h') b) as [Hok3 Hg3].
  - done.
  - by rewrite (proj1 Hk).
  - intros c i Hc. by rewrite peek_delete, decide_False.
  - intros q k Hq. by rewrite in_bounds_delete, decide_False.
  - constructor; [done|done|..].
    + intros x. by rewrite Hg3, Hg.
    + intros c i Hc. rewrite peek_delete. case_decide as Hcb; [subst; unfold peek; by rewrite Hnone|]. by apply Hfr.
    + intros q k. rewrite in_bounds_delete. case_decide as Hc; [subst; unfold in_bounds; by rewrite Hnone|]. by apply Hbd.
Qed.

(** Writing from such a block. *)
Lemma write_scratch bs a s h b h1 :
  ok s h → spans s a (Z.of_nat (length bs)) → alloc h (Z.of_nat (length bs)) = (b, h1) →
  ∃ h2 s' h', store_bytes h1 (Ptr b 0) bs = Ok h2 ∧
    tryWriteBlob a (Ptr b 0) (Z.of_nat (length bs)) s h2 = Ok (true, s', h') ∧
    stored (λ x, bs !! Z.to_nat (x - a)) a (Z.of_nat (length bs)) s h s' (delete b h').
Proof.
  intros Hok Hsp Ha.
  destruct (alloc_ok h (Z.of_nat (length bs)) ltac:(lia)) as (b' & h1' & Ha' & Hnone & Hb & Hp & Hi).
  rewrite Ha in Ha'. injection Ha' as <- <-. pose proof (fresh_block s h b Hok Hnone) as Hnb.
  destruct (store_bytes_in_bounds h1 (Ptr b 0) bs Hb) as [h2 Hst].
  assert (∀ c i, c ≠ b → peek h2 c i = peek h c i) as Hp2.
  { intros c i Hc. rewrite (store_bytes_peek _ _ _ _ c i Hst), decide_False by (by intros [? _]). by apply Hp. }
  assert (∀ q k, in_bounds h2 q k = in_bounds h1 q k) as Hb2 by (intros; by eapply store_bytes_in_bounds_frame).
  destruct (ok_except s h h2 b) as [Hok2 Hg2]; [done..|intros q k Hq; rewrite Hb2; by apply Hi|].
  destruct (write_blob a (Ptr b 0) (Z.of_nat (length bs)) s h2) as (s' & h' & Hw & Hok' & Hk & Hg & Hfr & Hbd);
    [done..|by rewrite Hb2|done|].
  exists h2, s', h'. split; [done|]. split; [done|]. apply release; try done.
  - intros x. rewrite Hg. case_decide as Hx; [|apply Hg2].
    rewrite (store_bytes_peek _ _ _ _ _ _ Hst). simpl. rewrite decide_True by lia. f_equal. lia.
  - intros c i Hcb Hc. rewrite Hfr by done. by apply Hp2.
  - intros q k Hq. rewrite Hbd, Hb2. by apply Hi.
Qed.

(** Copying through such a block. *)
Lemma copy_scratch n a c s h b h1 :
  ok s h → spans s a n → spans s c n → 0 <= n → alloc h n = (b, h1) →
  ∃ s1 h2 s' h', tryReadBlob a (Ptr b 0) n s h1 = Ok (true, s1, h2) ∧
    tryWriteBlob c (Ptr b 0) n s1 h2 = Ok (true, s', h') ∧
    stored (λ x, guest s h (a + (x - c))) c n s h s' (delete b h').
Proof.
  intros Hok Hsa Hsc Hn Ha. destruct (alloc_ok h n Hn) as (b' & h1' & Ha' & Hnone & Hb & Hp & Hi).
  rewrite Ha in Ha'. injection Ha' as <- <-. pose proof (fresh_block s h b Hok Hnone) as Hnb.
  destruct (ok_except s h h1 b) as [Hok1 Hg1]; [done..|].
  destruct (read_blob a (Ptr b 0) n s h1) as (s1 & h2 & Hr & Hok2 & Hk & Hg & Hbuf & Hfr & Hbd); [done..|].
  destruct (write_blob c (Ptr b 0) n s1 h2) as (s' & h' & Hw & Hok' & Hk' & Hg' & Hfr' & Hbd');
    [done|by apply Hk|by rewrite Hbd|by rewrite (proj1 Hk)|].
  exists s1, h2, s', h'. split; [done|]. split; [done|]. apply release; try done.
  - by eapply same_guest_trans.
  - intros x. rewrite Hg'. case_decide; [|by rewrite Hg, Hg1]. rewrite Hbuf by lia. by rewrite Hg1.
  - intros d i Hd Hnd. rewrite Hfr' by by rewrite (proj1 Hk). rewrite Hfr by by left. by apply Hp.
  - intros q k Hq. rewrite Hbd', Hbd. by apply Hi.
Qed.

(** ** Values *)

Lemma read_ok n a s h :
  ok s h → spans s a (Z.of_nat n) →
  ∃ bs s' h', read n a s h = Ok (le_value bs, s', h') ∧ length bs = n ∧
    (∀ i, 0 <= i < Z.of_nat n → bs !! Z.to_nat i = guest s h (a + i)) ∧ unchanged s h s' h'.
Proof.
  intros Hok Hsp. unfold read. destruct (alloc h (Z.of_nat n)) as [b h1] eqn:Ha.
  destruct (read_scratch (Z.of_nat n) a s h b h1) as (s' & h' & bs & Hr & Hl & Hg & Hu); [done|done|lia|done|].
  exists bs, s', (delete b h'). unfold readBlob, load_int. rewrite Hr. simpl. rewrite Hl. simpl.
  split; [done|]. split; [|done]. apply load_bytes_length in Hl. lia.
Qed.

Lemma write_ok n a v s h :
  ok s h → spans s a (Z.of_nat n) →
  ∃ s' h', write n a v s h = Ok (s', h') ∧
    stored (λ x, le_bytes n v !! Z.to_nat (x - a)) a (Z.of_nat n) s h s' h'.
Proof.
  intros Hok Hsp. unfold write. destruct (alloc h (Z.of_nat n)) as [b h1] eqn:Ha.
  destruct (write_scratch (le_bytes n v) a s h b h1) as (h2 & s' & h' & Hs & Hw & Hd);
    rewrite ?le_bytes_length; try done. rewrite le_bytes_length in Hw, Hd.
  exists s', (delete b h'). unfold store_int, writeBlob. rewrite Hs. simpl. by rewrite Hw.
Qed.

(** ** Strings *)

(** The guest memory holds the string [l] at [a]. *)
Definition guest_string (s : G) (h : hmem) (a : Z) (l : list Z) : Prop :=
  Forall (λ c, c ≠ 0) l ∧ ∀ i c, (l ++ [0]) !! i = Some c → guest s h (a + Z.of_nat i) = Some c.

Lemma guest_string_cons s h a c l :
  guest_string s h a (c :: l) → c ≠ 0 ∧ guest s h a = Some c ∧ guest_string s h (a + 1) l.
Proof.
  intros [[Hc Hz]%Forall_cons_1 Hg]. split; [done|]. split.
  - specialize (Hg 0%nat c eq_refl). by rewrite Z.add_0_r in Hg.
  - split; [done|]. intros i x Hx. rewrite <-(Hg (S i) x Hx). f_equal. lia.
Qed.

Lemma guest_string_nil s h a : guest_string s h a [] → guest s h a = Some 0.
Proof. intros [_ Hg]. specialize (Hg 0%nat 0 eq_refl). by rewrite Z.add_0_r in Hg. Qed.

Lemma guest_string_same s h s' h' a l :
  (∀ x, guest s' h' x = guest s h x) → guest_string s h a l → guest_string s' h' a l.
Proof. intros Hg [Hz Hs]. split; [done|]. intros i c Hc. rewrite Hg. by apply Hs. Qed.

Lemma spans_next s a n : spans s a (n + 1) → 0 < n → spans s (a + 1) n ∧ u64 (a + 1) = a + 1.
Proof.
  intros Hs Hn. split; [apply (spans_part s a (n + 1)); [done|lia..]|].
  pose proof (spans_range _ _ _ Hs). apply u64_small. unfold is_u64. lia.
Qed.

Lemma byte_stored h p n bs :
  load_bytes h p n = Ok bs → n = 1 → ∃ c, bs = [c] ∧ byte h p = Ok c.
Proof.
  intros Hl ->. pose proof (load_bytes_length _ _ _ _ Hl) as Hlen.
  destruct bs as [|c [|]]; simpl in Hlen; [lia| |lia]. exists c. split; [done|].
  unfold byte, load_int. change (Z.of_nat 1) with 1. rewrite Hl. simpl. f_equal. lia.
Qed.

Lemma tryReadString_ok l : ∀ fuel str a s h,
  ok s h → guest_string s h a l → spans s a (Z.of_nat (length l) + 1) → (length l < fuel)%nat →
  ∃ s' h', tryReadString fuel str a s h = Ok (true, str ++ l, s', h') ∧ unchanged s h s' h'.
Proof.
  induction l as [|c l IH]; intros [|fuel] str a s h Hok Hgs Hsp Hf; simpl in Hf; try lia;
    assert (spans s a 1) as Hsp1 by (replace a with (a + 0) by lia; eapply spans_part; [done|simpl; lia..]);
    cbn [tryReadString]; destruct (alloc h 1) as [b h1] eqn:Ha;
    destruct (read_scratch 1 a s h b h1) as (s1 & h2 & bs & -> & Hl & Hbs & Hu); try done;
    destruct (byte_stored _ _ _ _ Hl eq_refl) as (x & -> & Hx); rewrite res_bind_Ok; cbn [negb]; rewrite Hx;
    specialize (Hbs 0 ltac:(lia)); simpl in Hbs; rewrite Z.add_0_r in Hbs; rewrite res_bind_Ok; cbv zeta.
  - rewrite (guest_string_nil _ _ _ Hgs) in Hbs. injection Hbs as ->. simpl. rewrite app_nil_r. eauto.
  - destruct (guest_string_cons _ _ _ _ _ Hgs) as (Hc & Hg & Hgs'). rewrite Hg in Hbs. injection Hbs as ->.
    destruct (Z.eqb_spec c 0); [done|].
    destruct (spans_next s a (Z.of_nat (length (c :: l)))) as [Hsp' Hu64]; [done|simpl; lia|]. rewrite Hu64.
    destruct (IH fuel (str ++ [c]) (a + 1) s1 (delete b h2)) as (s' & h' & Hr & Hu'); [..|lia|].
    + apply Hu.
    + eapply guest_string_same; [apply Hu|done].
    + apply Hu. simpl in Hsp'. by replace (Z.of_nat (length l) + 1) with (Z.of_nat (S (length l))) by lia.
    + exists s', h'. rewrite Hr, <-app_assoc. split; [done|]. by eapply unchanged_trans.
Qed.

Lemma stored_then f g a n m s1 h1 s2 h2 s3 h3 :
  0 <= n → 0 <= m → stored f a n s1 h1 s2 h2 → stored g (a + n) m s2 h2 s3 h3 →
  stored (λ x, if decide (x < a + n) then f x else g x) a (n + m) s1 h1 s3 h3.
Proof.
  intros Hn Hm [? Hk Hg Hp Hb] [? Hk' Hg' Hp' Hb']. constructor; [done|by eapply same_guest_trans|..].
  - intros x. rewrite Hg', Hg. repeat case_decide; (done || lia).
  - intros b i Hnb. rewrite Hp' by by rewrite (proj1 Hk). by apply Hp.
  - intros q k. by rewrite Hb'.
Qed.

Lemma stored_ext f g a n s h s' h' :
  (∀ x, a <= x < a + n → f x = g x) → stored f a n s h s' h' → stored g a n s h s' h'.
Proof.
  intros He [? ? Hg ? ?]. constructor; try done. intros x. rewrite Hg. case_decide; [by apply He|done].
Qed.

Lemma write_string_loop_ok l : ∀ fuel a str s h,
  ok s h → cstring h str l → ¬ holds s (block str) →
  spans s a (Z.of_nat (length l) + 1) → (length l < fuel)%nat →
  ∃ s' h', write_string_loop fuel a str s h = Ok (true, s', h') ∧
    stored (λ x, (l ++ [0]) !! Z.to_nat (x - a)) a (Z.of_nat (length l) + 1) s h s' h'.
Proof.
  induction l as [|c l IH]; intros [|fuel] a str s h Hok Hs Hnb Hsp Hf; simpl in Hf; try lia;
    assert (spans s a 1) as Hsp1 by (replace a with (a + 0) by lia; eapply spans_part; [done|simpl; lia..]);
    assert (in_bounds h str 1 = true) as Hb by
      (rewrite <-(ptr_add_0 str); eapply in_bounds_part; [by apply cstring_size|simpl; lia..]);
    destruct (write_blob a str 1 s h) as (s1 & h1 & Hw & Hok1 & Hk & Hg & Hp & Hbd); try done;
    cbn [write_string_loop]; rewrite Hw, res_bind_Ok; cbn [negb];
    pose proof (Hs : cstring h str _) as [_ Hpk];
    (assert (stored (λ x, peek h (block str) (offset str + (x - a))) a 1 s h s1 h1) as Hst by by constructor);
    (assert (∀ l, cstring h str l → cstring h1 str l) as Hcs by
      (intros l' [? Hpk']; split; [done|]; intros i x Hx; rewrite Hp by done; by apply Hpk')).
  - rewrite (cstring_nil h1 str) by by apply Hcs. rewrite res_bind_Ok. simpl. eexists _, _. split; [done|].
    eapply stored_ext; [|done]. intros x Hx. assert (x = a) as -> by lia. rewrite Z.sub_diag. apply (Hpk 0%nat 0 eq_refl).
  - destruct (cstring_cons h1 str c l (Hcs _ Hs)) as (Hc & -> & Hs'). rewrite res_bind_Ok.
    destruct (Z.eqb_spec c 0); [done|].
    destruct (spans_next s a (Z.of_nat (length (c :: l)))) as [Hsp' ->]; [done|simpl; lia|].
    destruct (IH fuel (a + 1) (ptr_add str 1) s1 h1) as (s' & h' & -> & Hst'); try done.
    + by rewrite (proj1 Hk).
    + apply Hk. simpl in Hsp'. by replace (Z.of_nat (length l) + 1) with (Z.of_nat (S (length l))) by lia.
    + lia.
    + eexists _, _. split; [done|]. replace (Z.of_nat (length (c :: l)) + 1) with (1 + (Z.of_nat (length l) + 1)) by (simpl; lia).
      eapply stored_ext; [|eapply stored_then; [lia|lia|done|done]]. intros x Hx. simpl. case_decide as Hxa.
      * assert (x = a) as -> by lia. rewrite Z.sub_diag. apply (Hpk 0%nat c eq_refl).
      * replace (Z.to_nat (x - a)) with (S (Z.to_nat (x - (a + 1)))) by lia. done.
Qed.

Lemma writeString_ok a str l s h :
  ok s h → cstring h str l → ¬ holds s (block str) → spans s a (Z.of_nat (length l) + 1) →
  ∃ s' h', writeString a str s h = Ok (s', h') ∧
    stored (λ x, (l ++ [0]) !! Z.to_nat (x - a)) a (Z.of_nat (length l) + 1) s h s' h'.
Proof.
  intros Hok Hs Hnb Hsp. destruct (write_string_loop_ok l (S (length (default [] (h !! block str)))) a str s h)
    as (s' & h' & Hr & Hst); try done; [by apply cstring_fuel|].
  exists s', h'. unfold writeString, tryWriteString. by rewrite Hr.
Qed.

Lemma stored_string l a s h s' h' :
  Forall (λ c, c ≠ 0) l →
  stored (λ x, (l ++ [0]) !! Z.to_nat (x - a)) a (Z.of_nat (length l) + 1) s h s' h' → guest_string s' h' a l.
Proof.
  intros Hz [_ _ Hg _ _]. split; [done|]. intros i c Hc. rewrite Hg.
  pose proof (lookup_lt_Some _ _ _ Hc) as Hlt. rewrite length_app in Hlt. simpl in Hlt.
  rewrite decide_True by lia. rewrite <-Hc. f_equal. lia.
Qed.

Lemma terminate_ok str s h :
  ok s h → ¬ holds s (block str) → in_bounds h (ptr_add str (-1)) 1 = true →
  ∃ h', store_int h (ptr_add str (-1)) 1 0 = Ok h' ∧ ok s h' ∧ (∀ x, guest s h' x = guest s h x) ∧
    (∀ q k, in_bounds h' q k = in_bounds h q k) ∧
    (∀ b i, peek h' b i = if decide (b = block str ∧ i = offset str + -1) then Some 0 else peek h b i).
Proof.
  intros Hok Hnb Hb. destruct (store_byte_ok h (ptr_add str (-1)) 0) as (h' & -> & Hbd & Hp); [done|lia|].
  destruct (ok_except s h h' (block str)) as [Hok' Hg']; [done..| |intros; apply Hbd|by exists h'].
  intros c i Hc. rewrite Hp. simpl. by rewrite decide_False by naive_solver.
Qed.

(** Where the next character or the terminator is put. *)
Definition room (h : hmem) (str : ptr) (m : nat) : Prop :=
  match m with
  | O => in_bounds h (ptr_add str (-1)) 1 = true
  | S _ => in_bounds h str (Z.of_nat m) = true
  end.

(** The bounded [readString] at [str], in terms of the last character it leaves:
    the end of the string, or that of the buffer. *)
Lemma read_string_loop_ok m : ∀ l str a s h,
  ok s h → guest_string s h a l → spans s a (Z.of_nat (length l) + 1) → ¬ holds s (block str) →
  room h str m →
  let last := Z.min (Z.of_nat (length l)) (Z.of_nat m - 1) in
  ∃ s' h', read_string_loop m str a s h = Ok (true, s', h') ∧ ok s' h' ∧ keeps s s' ∧
    (∀ x, guest s' h' x = guest s h x) ∧ (∀ q k, in_bounds h' q k = in_bounds h q k) ∧
    (∀ b i, b ≠ block str → peek h' b i = peek h b i) ∧
    (∀ i, peek h' (block str) (offset str + i) =
       if decide (i = last) then Some 0 else if decide (0 <= i < last) then l !! Z.to_nat i
       else peek h (block str) (offset str + i)).
Proof.
  induction m as [|m IH]; intros l str a s h Hok Hgs Hsp Hnb Hb last; cbn [read_string_loop].
  - destruct (terminate_ok str s h) as (h' & -> & Hok' & Hg' & Hbd & Hp); [done..|].
    exists s, h'. split; [done|]. split; [done|]. split; [done|]. split; [done|]. split; [done|]. split.
    + intros b i Hne. rewrite Hp. by rewrite decide_False by naive_solver.
    + intros i. rewrite Hp. subst last. repeat case_decide; (done || lia).
  - assert (spans s a 1) as Hsp1 by (replace a with (a + 0) by lia; eapply spans_part; [done|lia..]).
    assert (in_bounds h (ptr_add str 0) 1 = true) as Hb1.
    { eapply in_bounds_part; [done|lia..]. }
    rewrite ptr_add_0 in Hb1.
    destruct (read_blob a str 1 s h) as (s1 & h1 & -> & Hok1 & Hk & Hg & Hbuf & Hfr & Hbd); try done.
    rewrite res_bind_Ok. cbn [negb]. specialize (Hbuf 0 ltac:(lia)). rewrite !Z.add_0_r in Hbuf.
    destruct l as [|c l].
    + rewrite (guest_string_nil _ _ _ Hgs) in Hbuf. rewrite (byte_peek _ _ _ Hbuf), res_bind_Ok. simpl.
      exists s1, h1. split; [done|]. split; [done|]. split; [done|]. split; [done|]. split; [done|]. split.
      * intros b i Hne. apply Hfr. by left.
      * intros i. subst last. cbn [length]. case_decide as Hi.
        -- replace i with 0 by lia. by rewrite Z.add_0_r.
        -- rewrite decide_False by lia. apply Hfr. right. lia.
    + destruct (guest_string_cons _ _ _ _ _ Hgs) as (Hc & Hgc & Hgs'). rewrite Hgc in Hbuf.
      rewrite (byte_peek _ _ _ Hbuf), res_bind_Ok. destruct (Z.eqb_spec c 0); [done|].
      destruct (spans_next s a (Z.of_nat (length (c :: l)))) as [Hsp' ->]; [done|simpl; lia|].
      destruct (IH l (ptr_add str 1) (a + 1) s1 h1) as (s' & h' & -> & Hok' & Hk' & Hg' & Hbd' & Hne' & Hp'); try done.
      * eapply guest_string_same; done.
      * apply Hk. simpl in Hsp'. by replace (Z.of_nat (length l) + 1) with (Z.of_nat (S (length l))) by lia.
      * by rewrite (proj1 Hk).
      * unfold room in *. destruct m; rewrite Hbd; [by rewrite ptr_add_add, ptr_add_0|].
        eapply in_bounds_part; [exact Hb|lia..].
      * exists s', h'. split; [done|]. split; [done|]. split; [by eapply same_guest_trans|].
        split; [intros; by rewrite Hg'|]. split; [intros; by rewrite Hbd'|]. split.
        -- intros b i Hne. rewrite Hne' by done. apply Hfr. by left.
        -- intros i. specialize (Hp' (i - 1)). simpl in Hp'. replace (offset str + 1 + (i - 1)) with (offset str + i) in Hp' by lia.
           rewrite Hp'. subst last. simpl length.
           destruct (decide (i = 0)) as [->|Hi0].
           ++ rewrite Z.add_0_r, Hbuf. repeat case_decide; try lia; done.
           ++ rewrite Hfr by (right; lia). repeat case_decide; try lia; try done.
              replace (Z.to_nat i) with (S (Z.to_nat (i - 1))) by lia. done.
Qed.

Lemma readString_buf_ok l buf maxlen a s h :
  ok s h → guest_string s h a l → spans s a (Z.of_nat (length l) + 1) →
  (0 < maxlen)%nat → ¬ holds s (block buf) → in_bounds h buf (Z.of_nat maxlen) = true →
  ∃ s' h', readString_buf buf a maxlen s h = Ok (s', h') ∧ cstring h' buf (take (maxlen - 1) l) ∧
    (∀ x, guest s' h' x = guest s h x) ∧
    (∀ b i, b ≠ block buf ∨ ¬ offset buf <= i < offset buf + Z.of_nat maxlen → peek h' b i = peek h b i).
Proof.
  intros Hok Hgs Hsp Hml Hnb Hb.
  destruct (read_string_loop_ok maxlen l buf a s h) as (s' & h' & Hr & Hok' & _ & Hg & _ & Hne & Hp); try done.
  { by destruct maxlen; [lia|]. }
  unfold readString_buf, tryReadString_buf. rewrite (proj2 (Nat.eqb_neq _ _)), Hr by lia. simpl.
  exists s', h'. split; [done|]. split; [|split; [done|]].
  - split; [apply Forall_take, Hgs|]. intros i c Hc. rewrite Hp.
    pose proof (lookup_lt_Some _ _ _ Hc) as Hlt. rewrite length_app, length_take in Hlt. simpl in Hlt.
    destruct (decide (i < (maxlen - 1) `min` length l)%nat) as [Hi|Hi].
    + rewrite decide_False, decide_True by lia. rewrite lookup_app_l, lookup_take_lt in Hc by (rewrite ?length_take; lia).
      by rewrite Nat2Z.id.
    + rewrite decide_True by lia. rewrite lookup_app_r in Hc by (rewrite length_take; lia).
      rewrite length_take in Hc. by replace (i - _)%nat with 0%nat in Hc by lia.
  - intros b i Hbi. destruct (decide (b = block buf)) as [->|Hbb]; [|by apply Hne].
    destruct Hbi as [|Hi]; [done|]. specialize (Hp (i - offset buf)).
    replace (offset buf + (i - offset buf)) with i in Hp by lia. rewrite Hp, !decide_False by lia. done.
Qed.

(** A value written to guest memory through a proxy, in a byte order, is read back
    in that byte order; writing it changes none of the other bytes of the guest and
    reading it changes nothing, the buffers of the simulator included. *)
Theorem value_roundtrip n a v order s h :
  n ∈ [1; 2; 4; 8]%nat → 0 <= v < 256 ^ Z.of_nat n → ok s h → spans s a (Z.of_nat n) →
  ∃ s1 h1 s2 h2, write_order n a v order s h = Ok (s1, h1) ∧
    read_order n a order s1 h1 = Ok (v, s2, h2) ∧ unchanged s1 h1 s2 h2 ∧
    (∀ x, ¬ a <= x < a + Z.of_nat n → guest s1 h1 x = guest s h x) ∧
    (∀ b i, ¬ holds s b → peek h1 b i = peek h b i).
Proof.
  intros Hn Hv Hok Hsp. unfold write_order, read_order.
  destruct (write_ok n a (htog n v order) s h Hok Hsp) as (s1 & h1 & -> & [Hok1 Hk Hg Hp Hb]).
  destruct (read_ok n a s1 h1 Hok1) as (bs & s2 & h2 & Hr & Hlen & Hbs & Hu); [by apply Hk|].
  assert (bs = le_bytes n (htog n v order)) as ->.
  { apply list_eq_same_length with n; [by rewrite le_bytes_length|done|]. intros i x y Hi Hx Hy.
    specialize (Hbs (Z.of_nat i) ltac:(lia)). rewrite Nat2Z.id, Hx, Hg, decide_True in Hbs by lia.
    replace (Z.to_nat (a + Z.of_nat i - a)) with i in Hbs by lia. congruence. }
  exists s1, h1, s2, h2. rewrite Hr, res_bind_Ok, gtoh_htog by done. split_and!; try done.
  intros x Hx. by rewrite Hg, decide_False.
Qed.

(** A string written to guest memory is read back, as a string of any length and
    into a buffer, where it is cut to the size of the buffer and always terminated;
    the rest of the guest memory and of the buffers is left alone. *)
Theorem string_roundtrip l a str buf maxlen s h :
  ok s h → cstring h str l → ¬ holds s (block str) → spans s a (Z.of_nat (length l) + 1) →
  (0 < maxlen)%nat → ¬ holds s (block buf) → in_bounds h buf (Z.of_nat maxlen) = true →
  ∃ s1 h1, writeString a str s h = Ok (s1, h1) ∧
    (∀ x, ¬ a <= x <= a + Z.of_nat (length l) → guest s1 h1 x = guest s h x) ∧
    (∀ fuel, (length l < fuel)%nat →
       ∃ s2 h2, readString fuel [] a s1 h1 = Ok (l, s2, h2) ∧ unchanged s1 h1 s2 h2) ∧
    ∃ s2 h2, readString_buf buf a maxlen s1 h1 = Ok (s2, h2) ∧
      cstring h2 buf (take (maxlen - 1) l) ∧ (∀ x, guest s2 h2 x = guest s1 h1 x) ∧
      (∀ b i, b ≠ block buf ∨ ¬ offset buf <= i < offset buf + Z.of_nat maxlen → peek h2 b i = peek h1 b i).
Proof.
  intros Hok Hs Hnb Hsp Hml Hnb' Hb.
  destruct (writeString_ok a str l s h Hok Hs Hnb Hsp) as (s1 & h1 & -> & Hst).
  pose proof (stored_string l a s h s1 h1 (proj1 Hs) Hst) as Hgs. destruct Hst as [Hok1 Hk Hg Hp Hbd].
  exists s1, h1. split; [done|]. split; [intros x Hx; rewrite Hg, decide_False by lia; done|]. split.
  - intros fuel Hf. destruct (tryReadString_ok l fuel [] a s1 h1) as (s2 & h2 & Hr & Hu); [done..|by apply Hk|done|].
    exists s2, h2. unfold readString. by rewrite Hr.
  - destruct (readString_buf_ok l buf maxlen a s1 h1) as (s2 & h2 & Hr & Hc & Hg2 & Hfr); try done.
    + by apply Hk.
    + by rewrite (proj1 Hk).
    + by rewrite Hbd.
    + by exists s2, h2.
Qed.

End Proxy.

Section Memset.
Context {G : Type} {HB : BlobProxy G} {HS : BlobMemset G}.

Definition memsetBlob (addr v size : Z) (s : G) (h : hmem) : res (G * hmem) :=
  '(r, s, h) ← tryMemsetBlob addr v size s h;
  fatal_unless! r;
  Ok (s, h).

End Memset.

(** ** Physical addresses *)

Section Phys.
Context {M : Type} {HM : ByteMemory M} {HF : FunctionalMemory M}.

(** The tick at which the requests are made, and [_cacheLineSize]. *)
Context (now _cacheLineSize : Z).

(** The body of the loops of [readBlobPhys] and [writeBlobPhys]. *)
Definition send_chunk (c : MemCmd.Command) (flags : Z) (p : ptr) (gen : ChunkGenerator.t) (m : M) (h : hmem)
    : res (M * hmem) :=
  let req := Request.create_phys now (ChunkGenerator.addr gen) (u32 (ChunkGenerator.size gen)) flags
               Request.funcRequestorId in
  pkt ← Packet.create req c;
  pkt ← Packet.dataStatic p pkt;
  '(_, m, h) ← recvFunctional pkt m h;
  Ok (m, h).

Fixpoint blob_loop (fuel : nat) (c : MemCmd.Command) (flags : Z) (p : ptr) (gen : ChunkGenerator.t)
    (m : M) (h : hmem) : res (M * hmem) :=
  if ChunkGenerator.done gen then Ok (m, h) else
  match fuel with
  | O => Fail OutOfFuel
  | S fuel =>
      '(m, h) ← send_chunk c flags p gen m h;
      blob_loop fuel c flags (ptr_add p (ChunkGenerator.size gen)) (ChunkGenerator.next gen).1 m h
  end.

(** Each chunk has a byte at least. *)
Definition readBlobPhys (addr flags : Z) (p : ptr) (size : Z) (m : M) (h : hmem) : res (M * hmem) :=
  gen ← ChunkGenerator.create addr size _cacheLineSize;
  blob_loop (Z.to_nat size) MemCmd.ReadReq flags p gen m h.

Definition writeBlobPhys (addr flags : Z) (p : ptr) (size : Z) (m : M) (h : hmem) : res (M * hmem) :=
  gen ← ChunkGenerator.create addr size _cacheLineSize;
  blob_loop (Z.to_nat size) MemCmd.WriteReq flags p gen m h.

Definition memsetBlobPhys (addr flags v size : Z) (m : M) (h : hmem) : res (M * hmem) :=
  let '(buf, h) := alloc h size in
  h ← store_bytes h (Ptr buf 0) (replicate (Z.to_nat size) v);
  '(m, h) ← writeBlobPhys addr flags (Ptr buf 0) size m h;
  Ok (m, delete buf h).

(** The virtual methods of [PortProxy] itself. *)
Definition phys_tryReadBlob (addr : Z) (p : ptr) (size : Z) (m : M) (h : hmem) : res (bool * M * hmem) :=
  '(m, h) ← readBlobPhys addr 0 p size m h; Ok (true, m, h).

Definition phys_tryWriteBlob (addr : Z) (p : ptr) (size : Z) (m : M) (h : hmem) : res (bool * M * hmem) :=
  '(m, h) ← writeBlobPhys addr 0 p size m h; Ok (true, m, h).

Definition phys_tryMemsetBlob (addr v size : Z) (m : M) (h : hmem) : res (bool * M * hmem) :=
  '(m, h) ← memsetBlobPhys addr 0 v size m h; Ok (true, m, h).

(** ** Accesses at physical addresses *)

Definition blob_packet (c : MemCmd.Command) (d : ptr) (a n : Z) : Packet.t :=
  Packet.mk (Z.lor (Z.lor Packet.VALID_ADDR Packet.VALID_SIZE) Packet.STATIC_DATA) c
    (Request.create_phys now a n 0 Request.funcRequestorId) (Some d) a false n [] 0 Packet.NO_FAIL 0 0 0 0 [].

Lemma blob_packet_buffer c d a n h : in_bounds h d n = true → Packet.has_buffer h (blob_packet c d a n) d n.
Proof. intros. by constructor. Qed.

Lemma blob_packet_unmasked c d a n : Packet.isMaskedWrite (blob_packet c d a n) = false.
Proof. unfold Packet.isMaskedWrite. simpl. rewrite Request.create_phys_unmasked. apply andb_false_r. Qed.

Lemma blob_plain_read d a n : AbstractMemory.plain_read (blob_packet MemCmd.ReadReq d a n).
Proof. repeat split. Qed.

Lemma blob_plain_write d a n : AbstractMemory.plain_write (blob_packet MemCmd.WriteReq d a n).
Proof. repeat split. unfold Packet.wf_mask. by rewrite blob_packet_unmasked. Qed.

Section Line.
Context (k : Z) (Hk : 0 <= k < 32) (Hline : _cacheLineSize = 2 ^ k).

(** What sending a further chunk does to what is known of memory and heap. *)
Definition extends (c : MemCmd.Command) (a fin : Z) (d : ptr) (I : Z → M → hmem → Prop) : Prop :=
  ∀ z n m h, I z m h → 0 <= z → 0 < n → a + z + n <= fin → in_block (2 ^ k) (a + z, n) →
    ∃ p m' h', recvFunctional (blob_packet c (ptr_add d z) (a + z) n) m h = Ok (p, m', h') ∧ I (z + n) m' h'.

Lemma blob_loop_ok c a fin d I fuel : ∀ gen m h,
  0 <= a → fin < 2 ^ 64 → extends c a fin d I →
  ChunkGenerator.wf k fin gen → 0 < ChunkGenerator.curSize gen → a <= ChunkGenerator.curAddr gen →
  I (ChunkGenerator.curAddr gen - a) m h → (Z.to_nat (fin - ChunkGenerator.curAddr gen) <= fuel)%nat →
  ∃ m' h', blob_loop fuel c 0 (ptr_add d (ChunkGenerator.curAddr gen - a)) gen m h = Ok (m', h') ∧
    I (fin - a) m' h'.
Proof using Hk.
  induction fuel as [|fuel IH]; intros gen m h Ha Hfin Hext Hg Hsz Hcur HI Hf;
    pose proof Hg as [Hck Hnx Hfn Hord [_ Hleft] Hns Hblk _]; [lia|].
  assert (ChunkGenerator.curSize gen <= 2 ^ k) as Hle
    by (eapply ChunkGenerator.in_block_size; [apply Z.pow_pos_nonneg; lia|done|by apply Hblk]).
  assert (2 ^ k < 2 ^ 32) by (apply Z.pow_lt_mono_r; lia).
  set (z := ChunkGenerator.curAddr gen - a) in *.
  destruct (Hext z (ChunkGenerator.curSize gen) m h) as (p & m1 & h1 & Hr & HI1); [done|lia|done|lia| |].
  { replace (a + z) with (ChunkGenerator.curAddr gen) by lia. by apply Hblk. }
  replace (a + z) with (ChunkGenerator.curAddr gen) in Hr by lia.
  cbn [blob_loop]. unfold ChunkGenerator.done at 1. destruct (Z.eqb_spec (ChunkGenerator.curSize gen) 0); [lia|].
  assert (send_chunk c 0 (ptr_add d z) gen m h = Ok (m1, h1)) as ->.
  { unfold send_chunk, ChunkGenerator.addr, ChunkGenerator.size. unfold u32. rewrite Z.mod_small by lia.
    change (Packet.create _ _ ≫= _) with
      ('(_, m, h) ← recvFunctional (blob_packet c (ptr_add d z) (ChunkGenerator.curAddr gen) (ChunkGenerator.curSize gen)) m h;
       Ok (m, h)). by rewrite Hr. }
  rewrite res_bind_Ok, ptr_add_add. unfold ChunkGenerator.size.
  destruct (Z.eqb_spec (ChunkGenerator.sizeLeft gen) 0) as [Hz0|Hnz].
  - pose proof (ChunkGenerator.next_last gen Hz0) as Hd. exists m1, h1. split; [by destruct fuel; simpl; rewrite Hd|].
    by replace (fin - a) with (z + ChunkGenerator.curSize gen) by lia.
  - destruct (ChunkGenerator.next_wf k ltac:(lia) fin gen Hfin Hg Hnz) as (Hg' & _ & _ & Hcur' & Hsz').
    destruct (IH (ChunkGenerator.next gen).1 m1 h1) as (m' & h' & Hrun & HI'); try done.
    + lia.
    + rewrite Hcur'. by replace (_ - a) with (z + ChunkGenerator.curSize gen) by lia.
    + lia.
    + exists m', h'. split; [|done]. rewrite <-Hrun. do 2 f_equal. lia.
Qed.

Lemma blob_ok c a n d (I : Z → M → hmem → Prop) m h :
  0 <= a → 0 <= n → a + n < 2 ^ 64 - 2 ^ k → extends c a (a + n) d I → I 0 m h →
  ∃ m' h', (gen ← ChunkGenerator.create a n _cacheLineSize; blob_loop (Z.to_nat n) c 0 d gen m h) = Ok (m', h') ∧
    I n m' h'.
Proof using Hk Hline.
  intros Ha Hn Hov Hext HI. pose proof (Z.pow_pos_nonneg 2 k ltac:(lia) ltac:(lia)).
  destruct (ChunkGenerator.create_Ok a n k ltac:(lia)) as [g Hg]. rewrite Hline, Hg, res_bind_Ok.
  destruct (ChunkGenerator.create_wf k ltac:(lia) a n g) as (Hwf & _ & Hcur & Hdone); [lia..|done|].
  destruct (decide (n = 0)) as [->|Hn0].
  { exists m, h. split; [|done]. simpl. by rewrite (proj2 Hdone). }
  destruct (blob_loop_ok c a (a + n) d I (Z.to_nat n) g m h) as (m' & h' & Hrun & HI'); try done.
  - lia.
  - pose proof Hwf as [_ _ _ _ [? _] _ _ _]. unfold ChunkGenerator.done in Hdone.
    destruct (Z.eqb_spec (ChunkGenerator.curSize g) 0); [|lia]. exfalso. by apply Hn0, Hdone.
  - lia.
  - by rewrite Hcur, Z.sub_diag.
  - rewrite Hcur. lia.
  - exists m', h'. rewrite Hcur, Z.sub_diag, ptr_add_0 in Hrun. split; [done|]. by rewrite Z.add_simpl_l in HI'.
Qed.

Lemma read_extends a size d m0 h0 :
  ¬ owns m0 (block d) → in_bounds h0 d size = true → serves m0 k a size →
  extends MemCmd.ReadReq a (a + size) d (λ z m h, read_inv m0 h0 d a z m h ∧ calm m).
Proof.
  intros Ho Hb Hserv z n m h [HI Hcalm] Hz Hn Hfin Hblk. pose proof HI as [Hi Hs _ Hbd _ _].
  destruct (functional_read (blob_packet MemCmd.ReadReq (ptr_add d z) (a + z) n) m h (ptr_add d z) n)
    as (p' & m' & h' & Hr & Hi' & Hc' & Hs' & Hbuf' & Hct & Hfr' & Hbd');
    [done|done|apply blob_plain_read|done| |done| |eapply serves_same; [done..|lia|done|lia|done]|].
  { apply blob_packet_buffer. rewrite Hbd. eapply in_bounds_part; [done|lia..]. }
  { simpl. by rewrite (proj1 Hs). }
  exists p', m', h'. split; [done|]. split; [by apply (read_inv_extend m0 h0 d a z n m h)|done].
Qed.

Lemma write_extends a size d m0 h0 :
  ¬ owns m0 (block d) → in_bounds h0 d size = true → serves m0 k a size →
  extends MemCmd.WriteReq a (a + size) d (λ z m h, write_inv m0 h0 d a z m h ∧ calm m).
Proof.
  intros Ho Hb Hserv z n m h [HI Hcalm] Hz Hn Hfin Hblk. pose proof HI as [Hi Hs _ Hbd _].
  destruct (functional_write (blob_packet MemCmd.WriteReq (ptr_add d z) (a + z) n) m h (ptr_add d z) n)
    as (p' & m' & h' & Hr & Hi' & Hc' & Hs' & Hct & Hfr' & Hbd');
    [done|done|apply blob_plain_write|apply blob_packet_unmasked|done| |done| |eapply serves_same; [done..|lia|done|lia|done]|].
  { apply blob_packet_buffer. rewrite Hbd. eapply in_bounds_part; [done|lia..]. }
  { simpl. by rewrite (proj1 Hs). }
  exists p', m', h'. split; [done|]. split; [by apply (write_inv_extend m0 h0 d a z n m h)|done].
Qed.

(** ** The proxy *)

Definition phys_spans (m : M) (a n : Z) : Prop := 0 <= a ∧ a + n < 2 ^ 64 - 2 ^ k ∧ serves m k a n.

Definition backed (m : M) (h : hmem) : Prop := ∀ b, owns m b → is_Some (h !! b).

Definition phys_ok (m : M) (h : hmem) : Prop := inv m h ∧ calm m ∧ backed m h.

Lemma backed_bounds m m' h h' :
  (∀ b, owns m' b → owns m b) → (∀ b, owns m b → in_bounds h' (Ptr b 0) 0 = in_bounds h (Ptr b 0) 0) →
  backed m h → backed m' h'.
Proof.
  intros Ho Hb Hm b Hob. specialize (Hb b (Ho b Hob)). destruct (Hm b (Ho b Hob)) as [l Hl].
  assert (in_bounds h (Ptr b 0) 0 = true) as Hin by (apply in_bounds_iff; exists l; simpl; split_and!; [done|lia..]).
  rewrite Hin in Hb. apply in_bounds_iff in Hb as (l' & Hl' & _). by exists l'.
Qed.

#[program] Definition phys_proxy : BlobProxy M := {|
  tryReadBlob := phys_tryReadBlob;
  tryWriteBlob := phys_tryWriteBlob;
  guest := contents;
  holds := owns;
  spans := phys_spans;
  ok := phys_ok;
|}.
Next Obligation.
  intros m h h' (Hi & Hc & Hbk) Hp Hb. destruct (memory_frame m h h') as [Hi' Hct]; [done..|].
  split; [|done]. split; [done|]. split; [done|]. apply (backed_bounds m m h h'); [done| |done].
  intros b Hob. by apply Hb.
Qed.
Next Obligation. intros m h b (_ & _ & Hbk). by apply Hbk. Qed.
Next Obligation.
  intros m a n (? & ? & _). pose proof (Z.pow_pos_nonneg 2 k ltac:(lia) ltac:(lia)). lia.
Qed.
Next Obligation.
  intros m a n z l (? & ? & Hs) ? ? ?. split; [lia|]. split; [lia|]. intros y j ? ? ? Hblk.
  rewrite <-Z.add_assoc in Hblk |- *. apply Hs; [lia..|done].
Qed.
Next Obligation.
  intros a d n m h (Hi & Hc & Hbk) (Ha & Hov & Hs) Hb Ho. pose proof Hb as (? & _ & _ & Hn & _)%in_bounds_iff.
  destruct (blob_ok MemCmd.ReadReq a n d (λ z m' h', read_inv m h d a z m' h' ∧ calm m') m h)
    as (m' & h' & Hr & [[Hi' Hs' Hct Hbd Hbuf Hfr] Hc']); [done..|by apply read_extends| |].
  { split; [|done]. constructor; try (done || apply same_memory_refl). intros; lia. }
  exists m', h'. unfold phys_tryReadBlob, readBlobPhys. rewrite Hr. split; [done|].
  split. { split; [done|]. split; [done|]. eapply backed_bounds; [apply Hs'|intros; apply Hbd|done]. }
  split; [|done]. split; [apply Hs'|]. intros ? l (? & ? & Hl). split; [done|]. split; [done|]. by eapply serves_same.
Qed.
Next Obligation.
  intros a d n m h (Hi & Hc & Hbk) (Ha & Hov & Hs) Hb Ho. pose proof Hb as (? & _ & _ & Hn & _)%in_bounds_iff.
  destruct (blob_ok MemCmd.WriteReq a n d (λ z m' h', write_inv m h d a z m' h' ∧ calm m') m h)
    as (m' & h' & Hr & [[Hi' Hs' Hct Hbd Hfr] Hc']); [done..|by apply write_extends| |].
  { split; [|done]. constructor; try (done || apply same_memory_refl). intros y. by rewrite decide_False by lia. }
  exists m', h'. unfold phys_tryWriteBlob, writeBlobPhys. rewrite Hr. split; [done|].
  split. { split; [done|]. split; [done|]. eapply backed_bounds; [apply Hs'|intros; apply Hbd|done]. }
  split; [|done]. split; [apply Hs'|]. intros ? l (? & ? & Hl). split; [done|]. split; [done|]. by eapply serves_same.
Qed.

#[program] Definition phys_memset : @BlobMemset M phys_proxy := {| tryMemsetBlob := phys_tryMemsetBlob |}.
Next Obligation.
  intros a v n m h Hok Hsp Hn Hv. unfold phys_tryMemsetBlob, memsetBlobPhys.
  destruct (alloc h n) as [b h1] eqn:Ha. assert (Z.of_nat (length (replicate (Z.to_nat n) v)) = n) as Hlen.
  { rewrite length_replicate. lia. }
  destruct (@write_scratch M phys_proxy (replicate (Z.to_nat n) v) a m h b h1)
    as (h2 & m' & h' & -> & Hw & Hd); rewrite ?Hlen; try done. rewrite Hlen in Hw, Hd. rewrite res_bind_Ok.
  simpl in Hw. unfold phys_tryWriteBlob in Hw.
  destruct (writeBlobPhys a 0 (Ptr b 0) n m h2) as [[m1 h3]|]; [|done]. injection Hw as -> ->.
  destruct Hd as [Hok' Hk' Hg Hp Hb]. exists m', (delete b h'). split; [done|]. split; [done|]. split; [done|].
  split; [|done]. intros x. rewrite Hg. case_decide; [|done]. by rewrite lookup_replicate_2 by lia.
Qed.

End Line.
End Phys.
End PortProxy.
