(* ===== verification/MemoryImage.v ===== *)
(** The images of object files ([base/loader/memory_image.{hh,cc}]) and their
    loading into guest memory through a proxy. *)

From S2P Require Import Prelude Host Request PortProxy.
Import Host PortProxy.

Module MemoryImage.

(** The segments of an object file; the name of a segment is left out, and the file
    it comes from is the buffer its data is in. *)
Record Segment := mkSegment { base : Z; data : option ptr; size : Z }.

(** The data of an image file, and a segment that is part of it. *)
Record ImageFileData := mkFile { file : ptr; len : Z }.

Definition Segment_file (base : Z) (ifd : ImageFileData) (offset size : Z) : res Segment :=
  panic_unless! (u64 (offset + size) <=? len ifd);
  Ok (mkSegment base (Some (ptr_add (file ifd) offset)) size).

Definition Segment_whole (ifd : ImageFileData) : res Segment := Segment_file 0 ifd 0 (len ifd).

Notation t := (list Segment).

Definition addSegment (seg : Segment) (s : t) : t := s ++ [seg].

Definition addSegments (segs : list Segment) (s : t) : t := foldl (λ s seg, addSegment seg s) s segs.

Definition move (mapper : Z → Z) (s : t) : t := (λ seg, mkSegment (mapper (base seg)) (data seg) (size seg)) <$> s.

Definition offset_by (b : Z) (s : t) : t := move (λ a, u64 (b + a)) s.

Definition mask_by (m : Z) (s : t) : t := move (λ a, Z.land a m) s.

Definition maxAddr (s : t) : Z := foldl (λ m seg, Z.max m (u64 (base seg + size seg))) 0 s.

Definition minAddr (s : t) : Z := foldl (λ m seg, Z.min m (base seg)) Request.MaxAddr s.

Definition contains (addr : Z) (s : t) : bool :=
  existsb (λ seg, (base seg <=? addr) && (addr <? u64 (base seg + size seg))) s.

Section Write.
Context {G : Type} {HB : BlobProxy G} {HS : BlobMemset G}.

Definition writeSegment (seg : Segment) (s : G) (h : hmem) : res (bool * G * hmem) :=
  '(s, h) ← (if negb (size seg =? 0) then
               match data seg with
               | Some p => writeBlob (base seg) p (size seg) s h
               | None => memsetBlob (base seg) 0 (size seg) s h
               end
             else Ok (s, h));
  Ok (true, s, h).

Fixpoint write (image : t) (s : G) (h : hmem) : res (bool * G * hmem) :=
  match image with
  | [] => Ok (true, s, h)
  | seg :: image =>
      '(r, s, h) ← writeSegment seg s h;
      if negb r then Ok (false, s, h) else write image s h
  end.

(** ** What loading does *)

(** The byte of a segment at an address of it. *)
Definition seg_byte (h : hmem) (seg : Segment) (x : Z) : option Z :=
  match data seg with
  | Some p => peek h (block p) (offset p + (x - base seg))
  | None => Some 0
  end.

(** The byte at [x] once the segments have been written in turn over [old]. *)
Definition loaded (h : hmem) (image : t) (old : option Z) (x : Z) : option Z :=
  foldl (λ b seg, if decide (base seg <= x < base seg + size seg) then seg_byte h seg x else b) old image.

(** A segment whose data is there and that fits. *)
Record loadable (s : G) (h : hmem) (seg : Segment) : Prop := {
  ld_size : 0 <= size seg;
  ld_spans : spans s (base seg) (size seg);
  ld_data p : data seg = Some p → in_bounds h p (size seg) = true ∧ ¬ holds s (block p);
}.

Lemma writeSegment_ok seg s h :
  ok s h → loadable s h seg →
  ∃ s' h', writeSegment seg s h = Ok (true, s', h') ∧ stored (seg_byte h seg) (base seg) (size seg) s h s' h'.
Proof.
  intros Hok [Hsz Hsp Hd]. unfold writeSegment, seg_byte. destruct (Z.eqb_spec (size seg) 0) as [Hz|Hz]; simpl.
  - exists s, h. split; [done|]. constructor; try done. intros x. by rewrite decide_False by lia.
  - destruct (data seg) as [p|].
    + destruct (Hd p eq_refl) as [Hb Hnb]. unfold writeBlob.
      destruct (write_blob (base seg) p (size seg) s h) as (s' & h' & -> & ? & ? & ? & ? & ?); try done.
      exists s', h'. split; [done|]. by constructor.
    + unfold memsetBlob. destruct (memset_blob (base seg) 0 (size seg) s h) as (s' & h' & -> & ? & ? & ? & ? & ?); try done.
      exists s', h'. split; [done|]. by constructor.
Qed.

Lemma loadable_after f a n s h s' h' seg : stored f a n s h s' h' → loadable s h seg → loadable s' h' seg.
Proof.
  intros [_ Hk _ _ Hb] [Hsz Hsp Hd]. constructor; [done|by apply Hk|]. intros p Hp.
  destruct (Hd p Hp) as [Hin Hnb]. by rewrite Hb, (proj1 Hk).
Qed.

Lemma write_all image : ∀ s h,
  ok s h → Forall (loadable s h) image →
  ∃ s' h', write image s h = Ok (true, s', h') ∧ ok s' h' ∧ keeps s s' ∧
    (∀ x, guest s' h' x = loaded h image (guest s h x) x) ∧
    (∀ b i, ¬ holds s b → peek h' b i = peek h b i).
Proof.
  induction image as [|seg image IH]; intros s h Hok Hl; [by exists s, h|].
  apply Forall_cons_1 in Hl as [Hseg Hl]. simpl.
  destruct (writeSegment_ok seg s h Hok Hseg) as (s1 & h1 & -> & Hst). rewrite res_bind_Ok. cbn [negb].
  destruct (IH s1 h1) as (s' & h' & -> & Hok' & Hk' & Hg' & Hp').
  { apply Hst. }
  { eapply Forall_impl; [exact Hl|]. intros g. by eapply loadable_after. }
  exists s', h'. split; [done|]. split; [done|]. split; [by eapply same_guest_trans; [apply Hst|]|]. split.
  - intros x. rewrite Hg', (st_guest _ _ _ _ _ _ _ Hst). unfold loaded. clear -Hl Hst.
    generalize (if decide (base seg <= x < base seg + size seg) then seg_byte h seg x else guest s h x).
    induction Hl as [|y image Hy Hl IH]; intros o; [done|]. simpl. rewrite IH. f_equal. case_decide; [|done].
    unfold seg_byte. destruct (data y) as [p|] eqn:Hp; [|done]. destruct (ld_data _ _ _ Hy p Hp) as [_ Hnb].
    apply Hst, Hnb.
  - intros b i Hnb. rewrite Hp' by by rewrite (proj1 (st_keeps _ _ _ _ _ _ _ Hst)). by apply Hst.
Qed.

Lemma foldl_max_le (f : Segment → Z) (image : t) m seg :
  seg ∈ image → f seg <= foldl (λ m seg, Z.max m (f seg)) m image.
Proof.
  assert (∀ l m, m <= foldl (λ m seg, Z.max m (f seg)) m l) as Hm.
  { induction l as [|y l IH]; intros n; simpl; [lia|]. specialize (IH (Z.max n (f y))). lia. }
  intros Hin. revert m. induction Hin as [seg l|seg y l Hin IH]; intros m; simpl; [|apply IH].
  specialize (Hm l (Z.max m (f seg))). lia.
Qed.

Lemma foldl_min_ge (f : Segment → Z) (image : t) m seg :
  seg ∈ image → foldl (λ m seg, Z.min m (f seg)) m image <= f seg.
Proof.
  assert (∀ l m, foldl (λ m seg, Z.min m (f seg)) m l <= m) as Hm.
  { induction l as [|y l IH]; intros n; simpl; [lia|]. specialize (IH (Z.min n (f y))). lia. }
  intros Hin. revert m. induction Hin as [seg l|seg y l Hin IH]; intros m; simpl; [|apply IH].
  specialize (Hm l (Z.min m (f seg))). lia.
Qed.

(** Segments that end below the top of the address space. *)
Definition proper (seg : Segment) : Prop := 0 <= base seg ∧ 0 <= size seg ∧ base seg + size seg < 2 ^ 64.

Lemma image_contains_iff image x :
  Forall proper image →
  contains x image = true ↔ ∃ seg, seg ∈ image ∧ base seg <= x < base seg + size seg.
Proof.
  intros Hp. unfold contains. rewrite existsb_exists. split; intros (seg & Hin & Hx); exists seg.
  - apply list_elem_of_In in Hin. split; [done|]. rewrite Forall_forall in Hp. specialize (Hp _ Hin) as (? & ? & ?).
    rewrite u64_small in Hx by (unfold is_u64; lia). lia.
  - split; [by apply list_elem_of_In|]. rewrite Forall_forall in Hp. specialize (Hp _ Hin) as (? & ? & ?).
    rewrite u64_small by (unfold is_u64; lia). lia.
Qed.

Lemma loaded_outside h image old x :
  Forall proper image → contains x image = false → loaded h image old x = old.
Proof.
  intros Hp Hc. revert old. unfold loaded. induction Hp as [|seg image (? & ? & ?) Hp IH]; intros old; [done|].
  simpl in Hc. apply orb_false_iff in Hc as [Hs Hc]. rewrite u64_small in Hs by (unfold is_u64; lia).
  simpl. rewrite decide_False by lia. by apply IH.
Qed.

(** C29: loading a memory image succeeds and writes its segments, the later over the
    earlier and those without data as zeros; the bytes it does not contain keep
    their values, those it contains lie between its least and its greatest address. *)
Theorem image_write_spec image s h :
  ok s h → Forall (loadable s h) image → Forall proper image →
  ∃ s' h', write image s h = Ok (true, s', h') ∧
    (∀ x, guest s' h' x = loaded h image (guest s h x) x) ∧
    (∀ x, contains x image = false → guest s' h' x = guest s h x) ∧
    (∀ x, contains x image = true → minAddr image <= x < maxAddr image) ∧
    (∀ b i, ¬ holds s b → peek h' b i = peek h b i).
Proof.
  intros Hok Hl Hp. destruct (write_all image s h Hok Hl) as (s' & h' & Hw & Hok' & _ & Hg & Hpk).
  exists s', h'. split; [done|]. split; [done|]. split; [|split; [|done]].
  - intros x Hx. rewrite Hg. by apply loaded_outside.
  - intros x (seg & Hin & Hx)%image_contains_iff; [|done]. rewrite Forall_forall in Hp. specialize (Hp _ Hin) as (? & ? & ?).
    pose proof (foldl_min_ge base image Request.MaxAddr seg Hin).
    pose proof (foldl_max_le (λ seg, u64 (base seg + size seg)) image 0 seg Hin) as Hmax. simpl in Hmax.
    rewrite u64_small in Hmax by (unfold is_u64; lia). unfold minAddr, maxAddr. lia.
Qed.

End Write.
End MemoryImage.
