(* ===== verification/PageTable.v ===== *)
(** Address translation of emulated processes: the generator of translations of
    [mem/translation_gen.hh] and the page table of [mem/page_table.{hh,cc}]. *)

From S2P Require Import Prelude Bits ChunkGen Request.
Import Bitfield Intmath ChunkGenerator(tiles, tiles_nil, tiles_cons, in_block).

Module TranslationGen.

(** A fault is the address it happened at ([GenericPageTableFault]). *)
Record Range := mkRange {
  vaddr : Z;
  size : Z;
  paddr : Z;
  flags : Z;
  fault : option Z;
}.

(** [TranslationGenConstIterator]; [gen] says whether it has a generator. *)
Record iter := mkIter {
  current : Range;
  gen : bool;
  at_end : bool;
}.

Section Iterator.

(** The generator: its region, and the [translate] of its subclass. *)
Context (translate : Range → Range) (_start _size : Z).

Definition update (it : iter) : iter :=
  let cur := current it in
  let left := u64 (_size - u64 (vaddr cur - _start)) in
  if left =? 0 then mkIter (mkRange 0 left 0 (flags cur) (fault cur)) false true
  else mkIter (translate (mkRange (vaddr cur) left 0 (flags cur) (fault cur))) (gen it) (at_end it).

Definition begin : iter := update (mkIter (mkRange _start 0 0 0 None) true false).

Definition end_iter : iter := mkIter (mkRange 0 0 0 0 None) false true.

(** [operator++]. *)
Definition incr (it : iter) : res iter :=
  panic_unless! (negb (at_end it));
  assert! (gen it);
  let cur := current it in
  Ok (update (mkIter
    (match fault cur with
     | None => mkRange (u64 (vaddr cur + size cur)) (size cur) (paddr cur) (flags cur) None
     | Some _ => mkRange (vaddr cur) (size cur) (paddr cur) (flags cur) None
     end) (gen it) (at_end it))).

(** [operator==], between iterators of this generator. *)
Definition iter_eqb (a b : iter) : bool :=
  Bool.eqb (gen a) (gen b) && (vaddr (current a) =? vaddr (current b)).

(** The copy constructor, which leaves [end] at its default. *)
Definition copy (it : iter) : iter := mkIter (current it) (gen it) true.

(** The range-based [for] loop over the generator. *)
Fixpoint for_each {S} (fuel : nat) (body : Range → S → res S) (it : iter) (s : S) : res S :=
  if iter_eqb it end_iter then Ok s else
  match fuel with
  | O => Fail OutOfFuel
  | Datatypes.S fuel =>
      s ← body (current it) s;
      it ← incr it;
      for_each fuel body it s
  end.

End Iterator.

(** Running a loop body over a list of ranges. *)
Fixpoint run_body {S} (body : Range → S → res S) (l : list Range) (s : S) : res S :=
  match l with
  | [] => Ok s
  | r :: l => s ← body r s; run_body body l s
  end.

End TranslationGen.

Module EmulationPageTable.

Import TranslationGen (Range, mkRange).

Record Entry := mkEntry { paddr : Z; flags : Z }.

Record t := mk {
  pTable : gmap Z Entry;
  _pageSize : Z;
  offsetMask : Z;
}.

Definition Clobber : Z := 1.
Definition Uncacheable : Z := 4.
Definition ReadOnly : Z := 8.

Definition create (pageSize : Z) : res t :=
  assert! (isPowerOf2 pageSize);
  Ok (mk ∅ pageSize (mask (floorLog2 8 pageSize))).

Definition set_table (m : gmap Z Entry) (pt : t) : t := mk m (_pageSize pt) (offsetMask pt).

Definition pageAlign (pt : t) (a : Z) : Z := Z.land a (not64 (offsetMask pt)).
Definition pageOffset (pt : t) (a : Z) : Z := Z.land a (offsetMask pt).

(** The number of turns of a loop that counts [size] down by the page size. *)
Definition turns (pt : t) (size : Z) : nat := Z.to_nat (size / _pageSize pt + 1).

Fixpoint map_loop (fuel : nat) (vaddr paddr size flags : Z) (pt : t) : res t :=
  if size <=? 0 then Ok pt else
  match fuel with
  | O => Fail OutOfFuel
  | S fuel =>
      _ ← (match pTable pt !! vaddr with
           | Some _ => ensure PanicFailure (negb (Z.land flags Clobber =? 0))
           | None => Ok tt
           end);
      map_loop fuel (u64 (vaddr + _pageSize pt)) (u64 (paddr + _pageSize pt))
        (size - _pageSize pt) flags (set_table (<[vaddr := mkEntry paddr flags]> (pTable pt)) pt)
  end.

Definition map (vaddr paddr size flags : Z) (pt : t) : res t :=
  assert! (pageOffset pt vaddr =? 0);
  map_loop (turns pt size) vaddr paddr size flags pt.

Fixpoint remap_loop (fuel : nat) (vaddr size new_vaddr : Z) (pt : t) : res t :=
  if size <=? 0 then Ok pt else
  match fuel with
  | O => Fail OutOfFuel
  | S fuel =>
      match pTable pt !! vaddr, pTable pt !! new_vaddr with
      | Some e, None =>
          remap_loop fuel (u64 (vaddr + _pageSize pt)) (size - _pageSize pt)
            (u64 (new_vaddr + _pageSize pt))
            (set_table (delete vaddr (<[new_vaddr := e]> (pTable pt))) pt)
      | _, _ => Fail AssertFailure
      end
  end.

Definition remap (vaddr size new_vaddr : Z) (pt : t) : res t :=
  assert! (pageOffset pt vaddr =? 0);
  assert! (pageOffset pt new_vaddr =? 0);
  remap_loop (turns pt size) vaddr size new_vaddr pt.

Definition getMappings (pt : t) : list (Z * Z) :=
  (λ x, (x.1, paddr x.2)) <$> map_to_list (pTable pt).

Fixpoint unmap_loop (fuel : nat) (vaddr size : Z) (pt : t) : res t :=
  if size <=? 0 then Ok pt else
  match fuel with
  | O => Fail OutOfFuel
  | S fuel =>
      match pTable pt !! vaddr with
      | Some _ =>
          unmap_loop fuel (u64 (vaddr + _pageSize pt)) (size - _pageSize pt)
            (set_table (delete vaddr (pTable pt)) pt)
      | None => Fail AssertFailure
      end
  end.

Definition unmap (vaddr size : Z) (pt : t) : res t :=
  assert! (pageOffset pt vaddr =? 0);
  unmap_loop (turns pt size) vaddr size pt.

(** [offset] and [size] are [int64_t] in the code: the model is the code for
    sizes up to a page below [2^63], where [offset] cannot wrap. *)
Fixpoint isUnmapped_loop (fuel : nat) (vaddr offset size : Z) (pt : t) : res bool :=
  if size <=? offset then Ok true else
  match fuel with
  | O => Fail OutOfFuel
  | S fuel =>
      match pTable pt !! u64 (vaddr + offset) with
      | Some _ => Ok false
      | None => isUnmapped_loop fuel vaddr (offset + _pageSize pt) size pt
      end
  end.

Definition isUnmapped (vaddr size : Z) (pt : t) : res bool :=
  assert! (pageOffset pt vaddr =? 0);
  isUnmapped_loop (turns pt size) vaddr 0 size pt.

Definition lookup (pt : t) (vaddr : Z) : option Entry := pTable pt !! pageAlign pt vaddr.

Definition translate (pt : t) (vaddr : Z) : option Z :=
  match lookup pt vaddr with
  | None => None
  | Some e => Some (u64 (pageOffset pt vaddr + paddr e))
  end.

(** [translate(req)]: the fault, if any, and the request. *)
Definition translate_req (pt : t) (r : Request.t) : res (option Z * Request.t) :=
  v ← Request.getVaddr r;
  n ← Request.getSize r;
  assert! (pageAlign pt (u64 (v + n - 1)) =? pageAlign pt v);
  match translate pt v with
  | None => Ok (Some v, r)
  | Some pa =>
      let r := Request.setPaddr pa r in
      panic_unless!
            (negb (_pageSize pt <? Z.land pa (u64 (_pageSize pt - 1)) + n));
      Ok (None, r)
  end.

(** [PageTableTranslationGen::translate]. *)
Definition gen_translate (pt : t) (r : Range) : Range :=
  let page_size := _pageSize pt in
  let v := TranslationGen.vaddr r in
  let next := roundUp v page_size in
  let next := if next =? v then u64 (next + page_size) else next in
  let size := Z.min (TranslationGen.size r) (u64 (next - v)) in
  match translate pt v with
  | Some pa => mkRange v size pa (TranslationGen.flags r) (TranslationGen.fault r)
  | None => mkRange v size (TranslationGen.paddr r) (TranslationGen.flags r) (Some v)
  end.

(** The loop [for (const auto &range: *translateRange(vaddr, size)) body]. *)
Definition for_ranges {S} (pt : t) (vaddr size : Z) (body : Range → S → res S) (s : S) : res S :=
  TranslationGen.for_each (gen_translate pt) vaddr size (Z.to_nat (size / _pageSize pt + 2)) body
    (TranslationGen.begin (gen_translate pt) vaddr size) s.

(** The entries a checkpoint holds, and reading them back. *)
Definition serialize (pt : t) : list (Z * Z * Z) :=
  (λ x, (x.1, paddr x.2, flags x.2)) <$> map_to_list (pTable pt).

Fixpoint unserialize (l : list (Z * Z * Z)) (pt : t) : t :=
  match l with
  | [] => pt
  | (v, pa, f) :: l =>
      unserialize l (match pTable pt !! v with
                     | Some _ => pt
                     | None => set_table (<[v := mkEntry pa f]> (pTable pt)) pt
                     end)
  end.

(** ** Pages *)

(** A table of pages of [2^k] bytes. *)
Record wf (k : Z) (pt : t) : Prop := {
  wf_size : _pageSize pt = 2 ^ k;
  wf_mask : offsetMask pt = 2 ^ k - 1;
}.

Lemma pt_create_wf k : 0 <= k < 64 → ∃ pt, create (2 ^ k) = Ok pt ∧ wf k pt ∧ pTable pt = ∅.
Proof.
  intros Hk. assert (0 < 2 ^ k < 2 ^ 64).
  { split; [apply Z.pow_pos_nonneg; lia|]. apply Z.pow_lt_mono_r; lia. }
  unfold create. rewrite (proj2 (isPowerOf2_spec (2 ^ k) ltac:(auto with width))) by by exists k.
  eexists. split; [reflexivity|]. split; [|done]. constructor; simpl; [done|].
  rewrite floorLog2_log2, Z.log2_pow2 by lia.
  rewrite mask_eq, Z.min_l, Z.ones_equiv by lia. lia.
Qed.

Section Pages.

Context (k : Z) (Hk : 0 <= k < 64).

Lemma page_pos : 0 < 2 ^ k < 2 ^ 64.
Proof using Hk. split; [apply Z.pow_pos_nonneg; lia|]. apply Z.pow_lt_mono_r; lia. Qed.

(** The address space is a whole number of pages. *)
Lemma page_top : 2 ^ 64 = 2 ^ k * 2 ^ (64 - k).
Proof using Hk. rewrite <-Z.pow_add_r by lia. f_equal. lia. Qed.

Lemma pageOffset_mod pt a : wf k pt → pageOffset pt a = a mod 2 ^ k.
Proof using Hk.
  intros [_ Hm]. unfold pageOffset. rewrite Hm.
  replace (2 ^ k - 1) with (Z.ones k) by (rewrite Z.ones_equiv; lia). apply Z.land_ones. lia.
Qed.

Lemma pageAlign_mod pt a : wf k pt → is_u64 a → pageAlign pt a = a - a mod 2 ^ k.
Proof using Hk.
  intros [_ Hm] Ha. pose proof page_pos. rewrite <-(roundDown_spec a k) by done.
  unfold pageAlign, roundDown. rewrite Hm, u64_small; [done|]. auto with width.
Qed.

Lemma set_table_wf m pt : wf k pt → wf k (set_table m pt).
Proof. intros [? ?]. by constructor. Qed.

Lemma aligned_next a : a mod 2 ^ k = 0 → (a + 2 ^ k) mod 2 ^ k = 0.
Proof using Hk.
  pose proof page_pos. intros Ha. rewrite <-Zplus_mod_idemp_r, Z_mod_same_full, Z.add_0_r. done.
Qed.

(** A page that starts in the address space ends in it. *)
Lemma aligned_fits a : a mod 2 ^ k = 0 → a < 2 ^ 64 → a + 2 ^ k <= 2 ^ 64.
Proof using Hk.
  pose proof page_pos. pose proof page_top as Ht. intros Ha Hlt.
  apply Z.div_exact in Ha; [|lia]. rewrite Ht, Ha in *. revert Hlt.
  generalize (a / 2 ^ k), (2 ^ (64 - k)). intros q m Hlt.
  apply Z.mul_lt_mono_pos_l in Hlt; [|lia]. nia.
Qed.

(** The start of a page of the region of [n] bytes at [v]. *)
Definition page_of (v n a : Z) : Prop := v <= a < v + n ∧ (a - v) mod 2 ^ k = 0.

#[global] Instance page_of_dec v n a : Decision (page_of v n a).
Proof. unfold page_of. apply _. Defined.

Lemma page_of_step v n a : 0 < n → page_of v n a ↔ a = v ∨ page_of (v + 2 ^ k) (n - 2 ^ k) a.
Proof using Hk.
  pose proof page_pos. intros Hn. unfold page_of.
  assert ((a - (v + 2 ^ k)) mod 2 ^ k = (a - v) mod 2 ^ k) as Hmod.
  { replace (a - v) with (a - (v + 2 ^ k) + 1 * 2 ^ k) by lia. by rewrite Z.mod_add by lia. }
  rewrite Hmod. split.
  - intros [? Hm]. destruct (decide (a = v)); [by left|]. right. split; [|done].
    apply Z.mod_divide in Hm; [|lia]. apply Z.divide_pos_le in Hm; lia.
  - intros [->|[? ?]]; [|split; [lia|done]]. split; [lia|]. by rewrite Z.sub_diag, Z.mod_0_l by lia.
Qed.

Lemma page_of_empty v n a : n <= 0 → ¬ page_of v n a.
Proof. unfold page_of. lia. Qed.

(** One turn of a loop over pages: either it was the last, or the next page is
    still in the address space. *)
Lemma next_region v n :
  0 <= v → v + n <= 2 ^ 64 →
  ∃ v', u64 (v + 2 ^ k) = v' ∧ 0 <= v' ∧ v' + (n - 2 ^ k) <= 2 ^ 64 ∧
    (∀ a, page_of v' (n - 2 ^ k) a ↔ page_of (v + 2 ^ k) (n - 2 ^ k) a) ∧
    (0 < n - 2 ^ k → v' = v + 2 ^ k).
Proof using Hk.
  pose proof page_pos. intros. pose proof (u64_range (v + 2 ^ k)) as Hr. unfold is_u64 in Hr.
  eexists. split; [done|]. destruct (Z_le_gt_dec (n - 2 ^ k) 0).
  - split_and!; [lia..| |lia]. intros a. split; intros []%page_of_empty; lia.
  - rewrite u64_small by auto with width. split_and!; done || lia.
Qed.

Lemma turns_enough pt n : wf k pt → n <= Z.of_nat (turns pt n) * 2 ^ k.
Proof using Hk.
  pose proof page_pos. intros [Hs _]. unfold turns. rewrite Hs.
  pose proof (Z.mod_pos_bound n (2 ^ k) ltac:(lia)).
  pose proof (Z.div_mod n (2 ^ k) ltac:(lia)). set (q := n / 2 ^ k) in *.
  assert (q + 1 <= Z.of_nat (Z.to_nat (q + 1))) by lia. nia.
Qed.

Lemma map_loop_spec fuel v pa n fl pt :
  wf k pt → 0 <= v → v + n <= 2 ^ 64 → is_u64 pa → n <= Z.of_nat fuel * 2 ^ k →
  Z.land fl Clobber ≠ 0 ∨ (∀ a, page_of v n a → pTable pt !! a = None) →
  ∃ pt', map_loop fuel v pa n fl pt = Ok pt' ∧ wf k pt' ∧
    ∀ a, pTable pt' !! a =
      if decide (page_of v n a) then Some (mkEntry (u64 (pa + (a - v))) fl) else pTable pt !! a.
Proof using Hk.
  pose proof page_pos as Hp. revert v pa n pt. induction fuel as [|fuel IH];
    intros v pa n pt Hwf Hv Hn Hpa Hf Hfree; simpl; destruct (Z.leb_spec n 0) as [|Hpos]; try lia.
  1,2: exists pt; split_and!; [done|done|]; intros a; by rewrite decide_False by by apply page_of_empty.
  assert (∀ a, page_of v n a ↔ a = v ∨ page_of (v + 2 ^ k) (n - 2 ^ k) a) as Hstep
    by (intros; by apply page_of_step).
  assert ((match pTable pt !! v with
           | Some _ => ensure PanicFailure (negb (Z.land fl Clobber =? 0))
           | None => Ok tt end) = Ok tt) as ->.
  { destruct Hfree as [Hc|Hfree]; [|by rewrite Hfree by (apply Hstep; by left)].
    apply Z.eqb_neq in Hc. rewrite Hc. by case_match. }
  rewrite res_bind_Ok. rewrite (wf_size k pt Hwf).
  set (m := <[v := mkEntry pa fl]> (pTable pt)).
  destruct (next_region v n Hv Hn) as (v' & Hv' & ? & ? & Heq & Hnext).
  rewrite Hv'. destruct (IH v' (u64 (pa + 2 ^ k)) (n - 2 ^ k) (set_table m pt))
    as (pt' & Hpt' & Hwf' & Hlk); [by apply set_table_wf|done|done|apply u64_range|lia| |].
  { destruct Hfree as [?|Hfree]; [by left|right]. intros a Ha. simpl. unfold m.
    apply Heq in Ha. rewrite lookup_insert_ne by (unfold page_of in Ha; lia).
    apply Hfree, Hstep. by right. }
  exists pt'. split_and!; [done|done|]. intros a. rewrite Hlk. simpl. unfold m.
  destruct (decide (page_of v' (n - 2 ^ k) a)) as [Ha|Ha].
  - rewrite decide_True by (apply Hstep; right; by apply Heq). do 2 f_equal.
    rewrite Hnext by (unfold page_of in Ha; lia).
    unfold u64. rewrite Zplus_mod_idemp_l. f_equal. lia.
  - destruct (decide (a = v)) as [->|Hne].
    + rewrite lookup_insert_eq, decide_True by (apply Hstep; by left).
      rewrite Z.sub_diag, Z.add_0_r. by rewrite u64_small.
    + rewrite lookup_insert_ne, decide_False; [done| |done]. rewrite Hstep. rewrite <-Heq. tauto.
Qed.

Lemma unmap_loop_spec fuel v n pt :
  wf k pt → 0 <= v → v + n <= 2 ^ 64 → n <= Z.of_nat fuel * 2 ^ k →
  (∀ a, page_of v n a → is_Some (pTable pt !! a)) →
  ∃ pt', unmap_loop fuel v n pt = Ok pt' ∧ wf k pt' ∧
    ∀ a, pTable pt' !! a = if decide (page_of v n a) then None else pTable pt !! a.
Proof using Hk.
  pose proof page_pos as Hp. revert v n pt. induction fuel as [|fuel IH];
    intros v n pt Hwf Hv Hn Hf Hm; simpl; destruct (Z.leb_spec n 0) as [|Hpos]; try lia.
  1,2: exists pt; split_and!; [done|done|]; intros a; by rewrite decide_False by by apply page_of_empty.
  assert (∀ a, page_of v n a ↔ a = v ∨ page_of (v + 2 ^ k) (n - 2 ^ k) a) as Hstep
    by (intros; by apply page_of_step).
  destruct (Hm v) as [e He]; [apply Hstep; by left|]. rewrite He, (wf_size k pt Hwf).
  destruct (next_region v n Hv Hn) as (v' & -> & ? & ? & Heq & _).
  destruct (IH v' (n - 2 ^ k) (set_table (delete v (pTable pt)) pt))
    as (pt' & Hpt' & Hwf' & Hlk); [by apply set_table_wf|done|done|lia| |].
  { intros a Ha%Heq. simpl. rewrite lookup_delete_ne by (unfold page_of in Ha; lia).
    apply Hm, Hstep. by right. }
  exists pt'. split_and!; [done|done|]. intros a. rewrite Hlk. simpl.
  destruct (decide (a = v)) as [->|Hne].
  - rewrite lookup_delete_eq, (decide_True (P := page_of v n v)) by (apply Hstep; by left).
    by case_decide.
  - rewrite lookup_delete_ne by done. apply decide_ext. rewrite Hstep, Heq. tauto.
Qed.

(** The table after a step of [remap], when the rest of the pages have been moved. *)
Lemma remapped_lookup (t : gmap Z Entry) v n w e a :
  0 < n → t !! v = Some e → v ≠ w → (∀ b, page_of (v + 2 ^ k) (n - 2 ^ k) b → b ≠ v ∧ b ≠ w) →
  (∀ b, page_of (w + 2 ^ k) (n - 2 ^ k) b → b ≠ v ∧ b ≠ w ∧ v + (b - w) ≠ v ∧ v + (b - w) ≠ w) →
  let m := delete v (<[w := e]> t) in
  (if decide (page_of (w + 2 ^ k) (n - 2 ^ k) a) then m !! (v + 2 ^ k + (a - (w + 2 ^ k)))
   else if decide (page_of (v + 2 ^ k) (n - 2 ^ k) a) then None else m !! a) =
  (if decide (page_of w n a) then t !! (v + (a - w)) else if decide (page_of v n a) then None else t !! a).
Proof using Hk.
  intros Hpos He Hvw Hne1 Hne2 m.
  assert (∀ u b, page_of u n b ↔ b = u ∨ page_of (u + 2 ^ k) (n - 2 ^ k) b) as Hstep by (intros; by apply page_of_step).
  assert (∀ b, b ≠ v → b ≠ w → m !! b = t !! b) as Hother by (intros b ? ?; unfold m; by rewrite lookup_delete_ne, lookup_insert_ne).
  destruct (decide (a = w)) as [->|Haw'].
  - rewrite (decide_False (P := page_of (w + 2 ^ k) _ w)) by (intros Ha; by destruct (Hne2 _ Ha) as (_ & ? & _)).
    rewrite (decide_False (P := page_of (v + 2 ^ k) _ w)) by (intros Ha; by destruct (Hne1 _ Ha)).
    rewrite decide_True by (apply Hstep; by left). rewrite Z.sub_diag, Z.add_0_r, He.
    unfold m. by rewrite lookup_delete_ne, lookup_insert_eq.
  - destruct (decide (page_of (w + 2 ^ k) (n - 2 ^ k) a)) as [Ha|Ha].
    + rewrite decide_True by (apply Hstep; by right).
      replace (v + 2 ^ k + (a - (w + 2 ^ k))) with (v + (a - w)) by lia. apply Hother; by apply Hne2.
    + rewrite (decide_False (P := page_of w n a)) by (rewrite Hstep; tauto).
      destruct (decide (a = v)) as [->|Hav'].
      * rewrite (decide_True (P := page_of v n v)) by (apply Hstep; by left).
        case_decide; [done|]. apply lookup_delete_eq.
      * rewrite Hother by done. apply decide_ext. rewrite Hstep. tauto.
Qed.

(** [remap] between regions that share no page. *)
Lemma remap_loop_spec fuel v n w pt :
  wf k pt → 0 <= v → v + n <= 2 ^ 64 → 0 <= w → w + n <= 2 ^ 64 → n <= Z.of_nat fuel * 2 ^ k →
  (∀ a, page_of v n a → is_Some (pTable pt !! a)) →
  (∀ a, page_of w n a → pTable pt !! a = None) → (v + n <= w ∨ w + n <= v) →
  v mod 2 ^ k = 0 → w mod 2 ^ k = 0 →
  ∃ pt', remap_loop fuel v n w pt = Ok pt' ∧ wf k pt' ∧
    ∀ a, pTable pt' !! a =
      if decide (page_of w n a) then pTable pt !! (v + (a - w))
      else if decide (page_of v n a) then None else pTable pt !! a.
Proof using Hk.
  pose proof page_pos as Hp. revert v n w pt. induction fuel as [|fuel IH];
    intros v n w pt Hwf Hv Hn Hw Hwn Hf Hm Hfree Hdisj Hav Haw; simpl;
    destruct (Z.leb_spec n 0) as [|Hpos]; try lia.
  1,2: exists pt; split_and!; [done|done|]; intros a; by rewrite !decide_False by by apply page_of_empty.
  assert (∀ u a, page_of u n a ↔ a = u ∨ page_of (u + 2 ^ k) (n - 2 ^ k) a) as Hstep
    by (intros; by apply page_of_step).
  destruct (Hm v) as [e He]; [apply Hstep; by left|]. rewrite He, Hfree, (wf_size k pt Hwf)
    by (apply Hstep; by left).
  destruct (next_region v n Hv Hn) as (v' & -> & ? & ? & Heqv & Hnv).
  destruct (next_region w n Hw Hwn) as (w' & -> & ? & ? & Heqw & Hnw).
  set (m := delete v (<[w := e]> (pTable pt))).
  assert (v ≠ w) as Hvw by lia.
  assert (∀ a, a ≠ v → a ≠ w → m !! a = pTable pt !! a) as Hother.
  { intros a ? ?. unfold m. by rewrite lookup_delete_ne, lookup_insert_ne. }
  destruct (Z_le_gt_dec (n - 2 ^ k) 0) as [Hlast|Hmore].
  - assert (remap_loop fuel v' (n - 2 ^ k) w' (set_table m pt) = Ok (set_table m pt)) as ->.
    { destruct fuel; simpl; by rewrite (proj2 (Z.leb_le _ _)). }
    eexists. split_and!; [done|by apply set_table_wf|]. intros a. simpl.
    assert (∀ u, page_of u n a ↔ a = u) as Hone.
    { intros u. rewrite Hstep. split; [|by left]. intros [?|[]%page_of_empty]; done. }
    destruct (decide (a = w)) as [->|Hnw'].
    + rewrite decide_True by by apply Hone. rewrite Z.sub_diag, Z.add_0_r, He. unfold m.
      by rewrite lookup_delete_ne, lookup_insert_eq.
    + rewrite decide_False by by rewrite Hone. destruct (decide (a = v)) as [->|Hnv'].
      * rewrite decide_True by by apply Hone. apply lookup_delete_eq.
      * rewrite decide_False by by rewrite Hone. by apply Hother.
  - specialize (Hnv ltac:(lia)). specialize (Hnw ltac:(lia)). subst v' w'.
    assert (∀ a, page_of (v + 2 ^ k) (n - 2 ^ k) a → a ≠ v ∧ a ≠ w) as Hne1
      by (unfold page_of; lia).
    assert (∀ a, page_of (w + 2 ^ k) (n - 2 ^ k) a → a ≠ v ∧ a ≠ w) as Hne2
      by (unfold page_of; lia).
    destruct (IH (v + 2 ^ k) (n - 2 ^ k) (w + 2 ^ k) (set_table m pt))
      as (pt' & Hpt' & Hwf' & Hlk); try (done || lia); try (by apply aligned_next).
    { by apply set_table_wf. }
    { intros a Ha. destruct (Hne1 a Ha). simpl. rewrite Hother by done.
      apply Hm, Hstep. by right. }
    { intros a Ha. destruct (Hne2 a Ha). simpl. rewrite Hother by done.
      apply Hfree, Hstep. by right. }
    exists pt'. split_and!; [done|done|]. intros a. rewrite Hlk. simpl.
    apply remapped_lookup; try done. intros b Hb. destruct (Hne2 b Hb). unfold page_of in Hb. split_and!; (done || lia).
Qed.

(** ** Translation *)

Lemma translate_eq pt a :
  wf k pt → is_u64 a →
  translate pt a =
    match pTable pt !! (a - a mod 2 ^ k) with
    | Some e => Some (u64 (a mod 2 ^ k + paddr e))
    | None => None
    end.
Proof using Hk.
  intros Hwf Ha. unfold translate, lookup. by rewrite pageAlign_mod, pageOffset_mod.
Qed.

(** The bytes of a page translate together. *)
Lemma translate_page pt a x :
  wf k pt → is_u64 a → 0 <= x < 2 ^ k - a mod 2 ^ k →
  is_u64 (a + x) ∧
  translate pt (a + x) = match translate pt a with Some pa => Some (u64 (pa + x)) | None => None end.
Proof using Hk.
  intros Hwf Ha Hx. pose proof page_pos. unfold is_u64 in *.
  pose proof (Z.mod_pos_bound a (2 ^ k) ltac:(lia)).
  assert ((a - a mod 2 ^ k) mod 2 ^ k = 0) as Hal.
  { rewrite Zminus_mod_idemp_r, Z.sub_diag. apply Z.mod_0_l. lia. }
  pose proof (aligned_fits _ Hal ltac:(lia)).
  assert ((a + x) mod 2 ^ k = a mod 2 ^ k + x) as Hm.
  { rewrite <-Zplus_mod_idemp_l. apply Z.mod_small. lia. }
  split; [lia|]. rewrite !translate_eq by (done || auto with width). rewrite Hm.
  replace (a + x - (a mod 2 ^ k + x)) with (a - a mod 2 ^ k) by lia.
  case_match; [|done]. f_equal. unfold u64. rewrite Zplus_mod_idemp_l. f_equal. lia.
Qed.

Lemma translate_u64 pt a pa : translate pt a = Some pa → is_u64 pa.
Proof. unfold translate. case_match; [|done]. intros [= <-]. apply u64_range. Qed.

Lemma page_of_byte v n x :
  v mod 2 ^ k = 0 → 0 <= x < n →
  (v + x) mod 2 ^ k = x mod 2 ^ k ∧ page_of v n (v + x - (v + x) mod 2 ^ k).
Proof using Hk.
  pose proof page_pos. intros Hv Hx.
  assert ((v + x) mod 2 ^ k = x mod 2 ^ k) as Hm
    by by rewrite <-Zplus_mod_idemp_l, Hv.
  split; [done|]. rewrite Hm. unfold page_of. pose proof (Z.mod_pos_bound x (2 ^ k) ltac:(lia)).
  pose proof (Z.mod_le x (2 ^ k) ltac:(lia) ltac:(lia)). split; [lia|].
  replace (v + x - x mod 2 ^ k - v) with (x - x mod 2 ^ k) by lia.
  rewrite Zminus_mod_idemp_r, Z.sub_diag. apply Z.mod_0_l. lia.
Qed.

(** An address whose page is not in the region. *)
Lemma page_of_outside v n a :
  v mod 2 ^ k = 0 → page_of v n (a - a mod 2 ^ k) → 0 <= a - v < 2 ^ k * ((n + 2 ^ k - 1) / 2 ^ k).
Proof using Hk.
  pose proof page_pos. intros Hv [Hr Hm]. pose proof (Z.mod_pos_bound a (2 ^ k) ltac:(lia)).
  split; [lia|]. apply Z.mod_divide in Hm as [q Hq]; [|lia].
  assert (q < (n + 2 ^ k - 1) / 2 ^ k); [|nia].
  assert (q + 1 <= (n + 2 ^ k - 1) / 2 ^ k) by (apply Z.div_le_lower_bound; nia). lia.
Qed.

(** ** Ranges *)

Lemma roundUp_mod v :
  is_u64 v → roundUp v (2 ^ k) = u64 (v + 2 ^ k - 1 - (v + 2 ^ k - 1) mod 2 ^ k).
Proof using Hk.
  pose proof page_pos. unfold is_u64. intros Hv.
  assert (roundUp v (2 ^ k) = roundDown (u64 (v + 2 ^ k - 1)) (2 ^ k)) as ->.
  { unfold roundUp, roundDown. rewrite (u64_small (2 ^ k - 1)) by auto with width.
    do 2 f_equal. lia. }
  rewrite roundDown_spec by (try apply u64_range; lia). set (x := v + 2 ^ k - 1).
  assert (u64 x mod 2 ^ k = x mod 2 ^ k) as ->.
  { unfold u64. rewrite page_top, Z.rem_mul_r by (try lia; apply Z.pow_pos_nonneg; lia).
    rewrite Z.mul_comm, Z.mod_add by lia. apply Z.mod_mod. lia. }
  pose proof (Z.mod_pos_bound x (2 ^ k) ltac:(lia)).
  destruct (Z_lt_le_dec x (2 ^ 64)) as [Hlt|Hge].
  - rewrite !u64_small by auto with width. done.
  - assert (2 ^ 64 <= x - x mod 2 ^ k).
    { pose proof page_top as Ht. pose proof (Z.div_mod x (2 ^ k) ltac:(lia)).
      assert (2 ^ (64 - k) <= x / 2 ^ k) by (apply Z.div_le_lower_bound; lia). nia. }
    unfold u64. rewrite <-(Z.mod_unique x (2 ^ 64) 1 (x - 2 ^ 64)) by lia.
    rewrite <-(Z.mod_unique (x - x mod 2 ^ k) (2 ^ 64) 1 (x - x mod 2 ^ k - 2 ^ 64)) by lia. lia.
Qed.

(** What the generator makes of the address [v] with [n] bytes left. *)
Lemma gen_translate_eq pt v n f :
  wf k pt → is_u64 v →
  gen_translate pt (mkRange v n 0 f None) =
    let size := Z.min n (2 ^ k - v mod 2 ^ k) in
    match translate pt v with
    | Some pa => mkRange v size pa f None
    | None => mkRange v size 0 f (Some v)
    end.
Proof using Hk.
  pose proof page_pos. intros Hwf Hv. unfold gen_translate. simpl. rewrite (wf_size k pt Hwf).
  rewrite roundUp_mod by done. unfold is_u64 in Hv.
  pose proof (Z.mod_pos_bound v (2 ^ k) ltac:(lia)). set (r := v mod 2 ^ k) in *.
  assert (u64 ((if u64 (v + 2 ^ k - 1 - (v + 2 ^ k - 1) mod 2 ^ k) =? v
    then u64 (u64 (v + 2 ^ k - 1 - (v + 2 ^ k - 1) mod 2 ^ k) + 2 ^ k)
    else u64 (v + 2 ^ k - 1 - (v + 2 ^ k - 1) mod 2 ^ k)) - v) = 2 ^ k - r) as ->; [|done].
  assert ((v + 2 ^ k - 1) mod 2 ^ k = if decide (r = 0) then 2 ^ k - 1 else r - 1) as ->.
  { replace (v + 2 ^ k - 1) with (v - 1 + 1 * 2 ^ k) by lia. rewrite Z.mod_add by lia.
    rewrite <-Zminus_mod_idemp_l. fold r. case_decide as Hr.
    - rewrite Hr. symmetry. apply (Z.mod_unique _ _ (-1)); lia.
    - apply Z.mod_small. lia. }
  case_decide as Hr.
  - replace (v + 2 ^ k - 1 - (2 ^ k - 1)) with v by lia.
    rewrite (u64_small v) by done. rewrite Z.eqb_refl. unfold u64. rewrite Zminus_mod_idemp_l.
    rewrite Z.mod_small by lia. lia.
  - replace (v + 2 ^ k - 1 - (r - 1)) with (v + (2 ^ k - r)) by lia.
    destruct (Z.eqb_spec (u64 (v + (2 ^ k - r))) v) as [Heq|_].
    + exfalso. unfold u64 in Heq. destruct (Z_lt_le_dec (v + (2 ^ k - r)) (2 ^ 64)).
      * rewrite Z.mod_small in Heq by lia. lia.
      * rewrite <-(Z.mod_unique _ (2 ^ 64) 1 (v + (2 ^ k - r) - 2 ^ 64)) in Heq by lia. lia.
    + unfold u64. rewrite Zminus_mod_idemp_l. rewrite Z.mod_small by lia. lia.
Qed.

(** A translated range: inside one page, and byte for byte what the table says. *)
Record good_range (pt : t) (r : Range) : Prop := {
  good_fault : TranslationGen.fault r = None;
  good_flags : TranslationGen.flags r = 0;
  good_paddr : is_u64 (TranslationGen.paddr r);
  good_page : in_block (2 ^ k) (TranslationGen.vaddr r, TranslationGen.size r);
  good_bytes x : 0 <= x < TranslationGen.size r →
    translate pt (TranslationGen.vaddr r + x) = Some (u64 (TranslationGen.paddr r + x));
}.

Definition extent (r : Range) : Z * Z := (TranslationGen.vaddr r, TranslationGen.size r).

Lemma update_at pt start size d sz pa :
  is_u64 start → is_u64 size → 0 <= d < size →
  TranslationGen.update (gen_translate pt) start size
    (TranslationGen.mkIter (mkRange (u64 (start + d)) sz pa 0 None) true false) =
  TranslationGen.mkIter (gen_translate pt (mkRange (u64 (start + d)) (size - d) 0 0 None)) true false.
Proof.
  unfold is_u64. intros Hs Hz Hd. unfold TranslationGen.update. simpl.
  assert (u64 (size - u64 (u64 (start + d) - start)) = size - d) as ->.
  { unfold u64. rewrite (Zminus_mod_idemp_l (start + d)).
    rewrite (Z.mod_small (start + d - start)), Z.mod_small by lia. lia. }
  by destruct (Z.eqb_spec (size - d) 0); [lia|].
Qed.

Lemma update_end pt start size sz pa :
  is_u64 start → is_u64 size →
  TranslationGen.iter_eqb
    (TranslationGen.update (gen_translate pt) start size
      (TranslationGen.mkIter (mkRange (u64 (start + size)) sz pa 0 None) true false))
    TranslationGen.end_iter = true.
Proof.
  unfold is_u64. intros Hs Hz. unfold TranslationGen.update. simpl.
  assert (u64 (size - u64 (u64 (start + size) - start)) = 0) as ->; [|done].
  unfold u64. rewrite (Zminus_mod_idemp_l (start + size)).
  rewrite (Z.mod_small (start + size - start)) by lia. by rewrite Z.add_simpl_l, Z.sub_diag.
Qed.

Lemma page_range_in_block v n :
  0 < n <= 2 ^ k - v mod 2 ^ k → in_block (2 ^ k) (v, n).
Proof using Hk.
  pose proof page_pos. intros Hn. unfold in_block. simpl.
  pose proof (Z.mod_pos_bound v (2 ^ k) ltac:(lia)). pose proof (Z.div_mod v (2 ^ k) ltac:(lia)).
  apply (Z.div_unique _ _ _ (v mod 2 ^ k + n - 1)); lia.
Qed.

(** A loop body that gives up on a fault. *)
Definition stops_on_fault {S} (body : Range → S → res S) : Prop :=
  ∀ r s, TranslationGen.fault r ≠ None → ∃ f, body r s = Fail f.

(** The range of the page of [v], cut at the end of the region, and where the next one starts. *)
Lemma page_good_range pt v n q :
  wf k pt → is_u64 v → 0 < n → n <= 2 ^ k - v mod 2 ^ k → translate pt v = Some q → good_range pt (mkRange v n q 0 None).
Proof using Hk.
  intros Hwf Hu Hn Hle Htr. pose proof (Z.mod_pos_bound v (2 ^ k) ltac:(pose proof page_pos; lia)).
  constructor; [done|done|by eapply translate_u64|apply page_range_in_block; simpl; lia|].
  intros x Hx. simpl in Hx |- *. destruct (translate_page pt v x) as [_ ->]; [done|done|lia|]. by rewrite Htr.
Qed.

Lemma page_end v : (v + (2 ^ k - v mod 2 ^ k)) mod 2 ^ k = 0.
Proof using Hk. rewrite <-Zplus_mod_idemp_l, Z.add_sub_assoc, Z.add_simpl_l. apply Z_mod_same_full. Qed.

(** The loop over the bytes [d] to [size] of the region. *)
Lemma for_each_ranges pt start size fuel d sz pa :
  wf k pt → is_u64 start → is_u64 size → start + size <= 2 ^ 64 → 0 <= d <= size →
  (d < size → (start + d) mod 2 ^ k + (size - d) <= Z.of_nat fuel * 2 ^ k) →
  let it := TranslationGen.update (gen_translate pt) start size
    (TranslationGen.mkIter (mkRange (u64 (start + d)) sz pa 0 None) true false) in
  ∃ m l, tiles (start + d) m (extent <$> l) ∧ Forall (good_range pt) l ∧
    ((m = size - d ∧ ∀ S (body : Range → S → res S) s,
        TranslationGen.for_each (gen_translate pt) start size fuel body it s =
        TranslationGen.run_body body l s) ∨
     (0 <= m < size - d ∧ translate pt (start + d + m) = None ∧ ∃ r,
      TranslationGen.vaddr r = start + d + m ∧ TranslationGen.fault r = Some (start + d + m) ∧
      ∀ S (body : Range → S → res S) s, stops_on_fault body →
        TranslationGen.for_each (gen_translate pt) start size fuel body it s =
        (s ← TranslationGen.run_body body l s; body r s))).
Proof using Hk.
  pose proof page_pos as Hp. intros Hwf Hs Hz Hov. unfold is_u64 in Hs, Hz.
  revert d sz pa. induction fuel as [|fuel IH]; intros d sz pa Hd Hf it;
    pose proof (Z.mod_pos_bound (start + d) (2 ^ k) ltac:(lia)) as Hmod;
    (destruct (decide (d = size)) as [->|Hne];
     [exists 0, []; split; [constructor|]; split; [constructor|]; left; split; [lia|];
      intros S body s; simpl; unfold it; by rewrite update_end|]); [nia|].
  assert (is_u64 (start + d)) as Hu by auto with width.
  assert (it = TranslationGen.mkIter
    (gen_translate pt (mkRange (start + d) (size - d) 0 0 None)) true false) as Hit.
  { unfold it. rewrite update_at by auto with width. by rewrite u64_small. }
  rewrite gen_translate_eq in Hit by done. cbv zeta in Hit.
  set (n := Z.min (size - d) (2 ^ k - (start + d) mod 2 ^ k)) in *.
  destruct (translate pt (start + d)) as [q|] eqn:Htr.
  - destruct (IH (d + n) n q) as (m & l & Ht & Hg & Hcase); [lia| |].
    { intros Hlt. assert (n = 2 ^ k - (start + d) mod 2 ^ k) as Hn by lia.
      rewrite Z.add_assoc, Hn, page_end. lia. }
    set (r := mkRange (start + d) n q 0 None) in *.
    assert (∀ S (body : Range → S → res S) s,
      TranslationGen.for_each (gen_translate pt) start size (Datatypes.S fuel) body it s =
      (s ← body r s;
       TranslationGen.for_each (gen_translate pt) start size fuel body
         (TranslationGen.update (gen_translate pt) start size
           (TranslationGen.mkIter (mkRange (u64 (start + (d + n))) n q 0 None) true false)) s))
      as Hloop.
    { intros S body s. rewrite Hit. simpl. destruct (body r s); simpl; [|done].
      by rewrite Z.add_assoc. }
    exists (n + m), (r :: l). split_and!.
    + change (extent <$> r :: l) with ((start + d, n) :: (extent <$> l)).
      constructor; [lia|]. by rewrite <-Z.add_assoc, Z.add_simpl_l.
    + constructor; [|done]. apply page_good_range; try (done || lia).
    + destruct Hcase as [[-> Hrun]|(Hm & Hno & r' & Hv & Hfa & Hrun)].
      * left. split; [lia|]. intros S body s. rewrite Hloop. simpl.
        destruct (body r s); simpl; [apply Hrun|done].
      * right. rewrite (Z.add_assoc start d n), <-(Z.add_assoc (start + d) n m) in *.
        split; [lia|]. split; [done|]. exists r'. split; [done|]. split; [done|].
        intros S body s Hstop. rewrite Hloop. simpl.
        destruct (body r s); simpl; [by apply Hrun|done].
  - exists 0, []. split; [constructor|]. split; [constructor|]. right.
    rewrite Z.add_0_r. split; [lia|]. split; [done|]. eexists.
    split; [|split; [|intros S body s Hstop; rewrite Hit; simpl]]; [| |].
    3:{ destruct (Hstop (mkRange (start + d) n 0 0 (Some (start + d))) s) as [f Hf']; [done|].
        rewrite Hf'. simpl. symmetry. exact Hf'. }
    all: done.
Qed.

(** A region none of whose bytes is mapped has no page in the table. *)
Lemma unmapped_pages pt v n a :
  wf k pt → v mod 2 ^ k = 0 → 0 <= v → v + n <= 2 ^ 64 → page_of v n a →
  translate pt a = None → pTable pt !! a = None.
Proof using Hk.
  pose proof page_pos. intros Hwf Hv H0 Hn [Ha Hm] Htr.
  rewrite translate_eq in Htr by (done || auto with width).
  assert (a mod 2 ^ k = 0) as Hz.
  { replace a with (v + (a - v)) by lia. by rewrite Z.add_mod, Hv, Hm by lia. }
  rewrite Hz, Z.sub_0_r in Htr. by destruct (pTable pt !! a).
Qed.

Lemma map_loop_conflict fuel v pa n fl pt a :
  wf k pt → 0 <= v → v + n <= 2 ^ 64 → n <= Z.of_nat fuel * 2 ^ k → Z.land fl Clobber = 0 →
  page_of v n a → is_Some (pTable pt !! a) → map_loop fuel v pa n fl pt = Fail PanicFailure.
Proof using Hk.
  pose proof page_pos as Hp. revert v pa n pt. induction fuel as [|fuel IH];
    intros v pa n pt Hwf Hv Hn Hf Hc Ha Hs; simpl;
    (destruct (Z.leb_spec n 0) as [|Hpos]; [by apply page_of_empty in Ha|]); [lia|].
  rewrite Hc. simpl. destruct (pTable pt !! v) as [e|] eqn:He; simpl; [done|].
  apply page_of_step in Ha as [->|Ha]; [rewrite He in Hs; by destruct Hs| |done].
  rewrite (wf_size k pt Hwf). destruct (next_region v n Hv Hn) as (v' & -> & ? & ? & Heq & _).
  apply IH; try (done || lia); [by apply set_table_wf|by apply Heq|].
  simpl. rewrite lookup_insert_ne; [done|]. unfold page_of in Ha. lia.
Qed.

Lemma unmap_loop_missing fuel v n pt a :
  wf k pt → 0 <= v → v + n <= 2 ^ 64 → n <= Z.of_nat fuel * 2 ^ k →
  page_of v n a → pTable pt !! a = None → unmap_loop fuel v n pt = Fail AssertFailure.
Proof using Hk.
  pose proof page_pos as Hp. revert v n pt. induction fuel as [|fuel IH];
    intros v n pt Hwf Hv Hn Hf Ha Hs; simpl;
    (destruct (Z.leb_spec n 0) as [|Hpos]; [by apply page_of_empty in Ha|]); [lia|].
  destruct (pTable pt !! v) as [e|] eqn:He; [|done].
  apply page_of_step in Ha as [->|Ha]; [congruence| |done].
  rewrite (wf_size k pt Hwf). destruct (next_region v n Hv Hn) as (v' & -> & ? & ? & Heq & _).
  apply IH; try (done || lia); [by apply set_table_wf|by apply Heq|].
  simpl. rewrite lookup_delete_ne; [done|]. unfold page_of in Ha. lia.
Qed.

(** [remap] of a region with a page missing, or to one with a page taken. *)
Lemma remap_loop_refused fuel v n w pt a :
  wf k pt → 0 <= v → v + n <= 2 ^ 64 → 0 <= w → w + n <= 2 ^ 64 → n <= Z.of_nat fuel * 2 ^ k →
  v + n <= w ∨ w + n <= v →
  (page_of v n a ∧ pTable pt !! a = None) ∨ (page_of w n a ∧ is_Some (pTable pt !! a)) →
  remap_loop fuel v n w pt = Fail AssertFailure.
Proof using Hk.
  pose proof page_pos as Hp. revert v n w pt. induction fuel as [|fuel IH];
    intros v n w pt Hwf Hv Hn Hw Hwn Hf Hd Ha; simpl;
    (destruct (Z.leb_spec n 0) as [|Hpos];
      [destruct Ha as [[Ha _]|[Ha _]]; by apply page_of_empty in Ha|]); [lia|].
  destruct (pTable pt !! v) as [e|] eqn:He; [|done]. destruct (pTable pt !! w) as [|] eqn:Hew; [done|].
  assert (a ≠ v ∧ a ≠ w ∧ 0 < n - 2 ^ k ∧
    ((page_of (v + 2 ^ k) (n - 2 ^ k) a ∧ pTable pt !! a = None) ∨
     (page_of (w + 2 ^ k) (n - 2 ^ k) a ∧ is_Some (pTable pt !! a)))) as (Hav & Haw & Hmore & Ha').
  { destruct Ha as [[[->|Ha]%page_of_step Hs]|[[->|Ha]%page_of_step Hs]]; try done;
      [congruence| |by destruct Hs; congruence|]; unfold page_of in Ha; split_and!; try lia; auto. }
  rewrite (wf_size k pt Hwf). destruct (next_region v n Hv Hn) as (v' & -> & ? & ? & _ & Hv').
  destruct (next_region w n Hw Hwn) as (w' & -> & ? & ? & _ & Hw').
  rewrite Hv', Hw' in * by done.
  apply IH; try (done || lia); [by apply set_table_wf|].
  simpl. by rewrite lookup_delete_ne, lookup_insert_ne by done.
Qed.

Lemma isUnmapped_loop_spec fuel v off n pt :
  wf k pt → 0 <= off → 0 <= v → v + n <= 2 ^ 64 → n - off <= Z.of_nat fuel * 2 ^ k →
  ∃ b, isUnmapped_loop fuel v off n pt = Ok b ∧
    (b = true ↔ ∀ a, page_of (v + off) (n - off) a → pTable pt !! a = None).
Proof using Hk.
  pose proof page_pos as Hp. revert off. induction fuel as [|fuel IH];
    intros off Hwf Ho Hv Hn Hf; simpl; destruct (Z.leb_spec n off) as [|Hpos]; try lia.
  1,2: exists true; split; [done|]; split; [|done]; intros _ a []%page_of_empty; lia.
  rewrite u64_small by auto with width. assert (∀ a, page_of (v + off) (n - off) a ↔
    a = v + off ∨ page_of (v + (off + 2 ^ k)) (n - (off + 2 ^ k)) a) as Hstep.
  { intros a. rewrite page_of_step by lia. by rewrite <-Z.add_assoc, <-Z.sub_add_distr. }
  destruct (pTable pt !! (v + off)) as [e|] eqn:He.
  - exists false. split; [done|]. split; [done|]. intros Hall. rewrite Hall in He; [done|].
    apply Hstep. by left.
  - rewrite (wf_size k pt Hwf). destruct (IH (off + 2 ^ k)) as (b & -> & Hb); [done|lia..|].
    exists b. split; [done|]. rewrite Hb. split; intros Hall a Ha; [|apply Hall, Hstep; by right].
    apply Hstep in Ha as [->|Ha]; auto.
Qed.

Lemma for_ranges_spec pt v n :
  wf k pt → is_u64 v → is_u64 n → v + n <= 2 ^ 64 →
  ∃ m l, tiles v m (extent <$> l) ∧ Forall (good_range pt) l ∧
    ((m = n ∧ ∀ S (body : Range → S → res S) s,
        for_ranges pt v n body s = TranslationGen.run_body body l s) ∨
     (0 <= m < n ∧ translate pt (v + m) = None ∧ ∃ r,
      TranslationGen.vaddr r = v + m ∧ TranslationGen.fault r = Some (v + m) ∧
      ∀ S (body : Range → S → res S) s, stops_on_fault body →
        for_ranges pt v n body s = (s ← TranslationGen.run_body body l s; body r s))).
Proof using Hk.
  pose proof page_pos. intros Hwf Hv Hn Hov. unfold is_u64 in Hv, Hn.
  destruct (for_each_ranges pt v n (Z.to_nat (n / 2 ^ k + 2)) 0 0 0)
    as (m & l & Ht & Hg & Hcase); [done|done|done|done|lia| |].
  { intros _. rewrite Z.add_0_r, Z.sub_0_r.
    pose proof (Z.mod_pos_bound v (2 ^ k) ltac:(lia)).
    pose proof (Z.mod_pos_bound n (2 ^ k) ltac:(lia)).
    pose proof (Z.div_mod n (2 ^ k) ltac:(lia)). pose proof (Z.div_pos n (2 ^ k) ltac:(lia) ltac:(lia)).
    rewrite Z2Nat.id by lia. nia. }
  rewrite !Z.add_0_r, (u64_small v) in * by done. rewrite Z.sub_0_r in Hcase.
  exists m, l. unfold for_ranges. rewrite (wf_size k pt Hwf). done.
Qed.

End Pages.

Lemma unserialize_spec l pt :
  NoDup l.*1.*1 → (∀ v, v ∈ l.*1.*1 → pTable pt !! v = None) →
  _pageSize (unserialize l pt) = _pageSize pt ∧ offsetMask (unserialize l pt) = offsetMask pt ∧
  pTable (unserialize l pt) =
    list_to_map ((λ x, (x.1.1, mkEntry x.1.2 x.2)) <$> l) ∪ pTable pt.
Proof.
  revert pt. induction l as [|[[v pa] f] l IH]; intros pt Hnd Hfree; simpl.
  { by rewrite map_empty_union. }
  simpl in Hnd. apply NoDup_cons in Hnd as [Hv Hnd].
  rewrite Hfree by by left. destruct (IH (set_table (<[v := mkEntry pa f]> (pTable pt)) pt))
    as (Hs & Hm & Ht); [done| |].
  { intros w Hw. simpl. rewrite lookup_insert_ne by (intros ->; done). apply Hfree. by right. }
  rewrite Hs, Hm, Ht. simpl. split_and!; [done|done|].
  rewrite <-insert_union_l, insert_union_r; [done|].
  apply not_elem_of_list_to_map_1. rewrite <-list_fmap_compose. simpl.
  intros (x & -> & Hx)%list_elem_of_fmap. apply Hv. change (x.1.1 ∈ l.*1.*1).
  by do 2 apply list_elem_of_fmap_2.
Qed.

(** ** Types *)

(** Tables whose keys are addresses of pages and whose entries are addresses. *)
Record typed (k : Z) (pt : t) : Prop := {
  typed_wf : wf k pt;
  typed_entry a e : pTable pt !! a = Some e → is_u64 a ∧ a mod 2 ^ k = 0 ∧ is_u64 (paddr e);
}.

Lemma typed_insert k pt a e :
  typed k pt → is_u64 a → a mod 2 ^ k = 0 → is_u64 (paddr e) → typed k (set_table (<[a := e]> (pTable pt)) pt).
Proof.
  intros [Hwf He] Ha Hal Hp. constructor; [by apply set_table_wf|]. simpl.
  intros b x [[<- <-]|[_ Hx]]%lookup_insert_Some; [done|by apply He].
Qed.

Lemma typed_delete k pt a : typed k pt → typed k (set_table (delete a (pTable pt)) pt).
Proof.
  intros [Hwf He]. constructor; [by apply set_table_wf|]. simpl.
  intros b x [_ Hx]%lookup_delete_Some. by apply He.
Qed.

Lemma page_step k a : 0 <= k < 64 → a mod 2 ^ k = 0 → u64 (a + 2 ^ k) mod 2 ^ k = 0 ∧ is_u64 (u64 (a + 2 ^ k)).
Proof.
  intros Hk Ha. split; [|apply u64_range]. pose proof (page_pos k Hk). unfold u64. rewrite (page_top k Hk).
  rewrite Z.rem_mul_r by (try apply Z.pow_pos_nonneg; lia).
  rewrite (Z.mul_comm (2 ^ k)), Z.mod_add by lia. rewrite Z.mod_mod by lia. by apply aligned_next.
Qed.

(** A loop ends in a typed table or with an error of its own. *)
Definition typed_or (k : Z) (f : failure) (r : res t) : Prop :=
  match r with Ok pt => typed k pt | Fail f' => f' = f end.

Lemma map_loop_typed k fuel v pa n fl pt :
  0 <= k < 64 → typed k pt → is_u64 v → v mod 2 ^ k = 0 → is_u64 pa → n <= Z.of_nat fuel * 2 ^ k →
  typed_or k PanicFailure (map_loop fuel v pa n fl pt).
Proof.
  intros Hk. pose proof (page_pos k Hk) as Hp. revert v pa n pt. induction fuel as [|fuel IH];
    intros v pa n pt Ht Hv Hal Hpa Hf; simpl; destruct (Z.leb_spec n 0); [done|lia|done|].
  pose proof (wf_size _ _ (typed_wf _ _ Ht)) as Hs. rewrite Hs. destruct (page_step k v Hk Hal) as [Ha' Hv'].
  assert (typed_or k PanicFailure (map_loop fuel (u64 (v + 2 ^ k)) (u64 (pa + 2 ^ k)) (n - 2 ^ k) fl
    (set_table (<[v := mkEntry pa fl]> (pTable pt)) pt))) as Hr.
  { apply IH; [by apply typed_insert|done|done|apply u64_range|lia]. }
  destruct (pTable pt !! v); [|done]. unfold ensure. by destruct (Z.land fl Clobber =? 0).
Qed.

Lemma unmap_loop_typed k fuel v n pt :
  0 <= k < 64 → typed k pt → n <= Z.of_nat fuel * 2 ^ k → typed_or k AssertFailure (unmap_loop fuel v n pt).
Proof.
  intros Hk. pose proof (page_pos k Hk) as Hp. revert v n pt. induction fuel as [|fuel IH];
    intros v n pt Ht Hf; simpl; destruct (Z.leb_spec n 0); [done|lia|done|].
  destruct (pTable pt !! v); [|done]. rewrite (wf_size _ _ (typed_wf _ _ Ht)).
  apply IH; [by apply typed_delete|lia].
Qed.

Lemma remap_loop_typed k fuel v n w pt :
  0 <= k < 64 → typed k pt → is_u64 w → w mod 2 ^ k = 0 → n <= Z.of_nat fuel * 2 ^ k →
  typed_or k AssertFailure (remap_loop fuel v n w pt).
Proof.
  intros Hk. pose proof (page_pos k Hk) as Hp. revert v n w pt. induction fuel as [|fuel IH];
    intros v n w pt Ht Hw Hal Hf; simpl; destruct (Z.leb_spec n 0); [done|lia|done|].
  destruct (pTable pt !! v) as [e|] eqn:He; [|done]. destruct (pTable pt !! w); [done|].
  rewrite (wf_size _ _ (typed_wf _ _ Ht)). destruct (page_step k w Hk Hal) as [Ha' Hw'].
  apply IH; [|done|done|lia].
  refine (typed_delete k (set_table (<[w:=e]> (pTable pt)) pt) v _). apply typed_insert; try done.
  by eapply typed_entry.
Qed.

Lemma map_typed k v pa n fl pt pt' :
  0 <= k < 64 → typed k pt → is_u64 v → v mod 2 ^ k = 0 → is_u64 pa →
  map v pa n fl pt = Ok pt' → typed k pt'.
Proof.
  intros Hk Ht Hv Hal Hpa. pose proof (typed_wf _ _ Ht) as Hwf. unfold map.
  rewrite (pageOffset_mod k Hk), Hal by done. cbn [Z.eqb ensure]. rewrite res_bind_Ok. intros Hm.
  pose proof (map_loop_typed k (turns pt n) v pa n fl pt Hk Ht Hv Hal Hpa (turns_enough k Hk pt n Hwf)) as Hr.
  by rewrite Hm in Hr.
Qed.

(** The entries of a region, which was not mapped or is mapped anew. *)
Lemma map_table k v pa n fl pt :
  0 <= k < 64 → typed k pt → v mod 2 ^ k = 0 → 0 <= v → 0 < n → v + n <= 2 ^ 64 → is_u64 pa →
  Z.land fl Clobber ≠ 0 ∨ (∀ a, page_of k v n a → pTable pt !! a = None) →
  ∃ pt', map v pa n fl pt = Ok pt' ∧ typed k pt' ∧
    ∀ a, pTable pt' !! a = if decide (page_of k v n a) then Some (mkEntry (u64 (pa + (a - v))) fl) else pTable pt !! a.
Proof.
  intros Hk Ht Hal Hv Hn Htop Hpa Hfree. pose proof (typed_wf _ _ Ht) as Hwf. unfold map.
  rewrite (pageOffset_mod k Hk), Hal by done. cbn [Z.eqb ensure]. rewrite res_bind_Ok.
  pose proof (turns_enough k Hk pt n Hwf) as Hf.
  destruct (map_loop_spec k Hk (turns pt n) v pa n fl pt) as (pt' & Hm & _ & Hlk); try done.
  exists pt'. split; [done|]. split; [|done].
  pose proof (map_loop_typed k (turns pt n) v pa n fl pt Hk Ht ltac:(split; lia) Hal Hpa Hf) as Hr.
  by rewrite Hm in Hr.
Qed.

Lemma map_conflict k v pa n fl pt a :
  0 <= k < 64 → wf k pt → v mod 2 ^ k = 0 → 0 <= v → v + n <= 2 ^ 64 → is_u64 pa → Z.land fl Clobber = 0 →
  page_of k v n a → is_Some (pTable pt !! a) → map v pa n fl pt = Fail PanicFailure.
Proof.
  intros Hk Hwf Hal Hv Hn Hpa Hc Hpg Ha. unfold map. rewrite (pageOffset_mod k Hk), Hal by done.
  cbn [Z.eqb ensure]. rewrite res_bind_Ok. eapply (map_loop_conflict k Hk); try done. by apply turns_enough.
Qed.

Lemma unmap_page k v e pt :
  0 <= k < 64 → wf k pt → v mod 2 ^ k = 0 → pTable pt !! v = Some e →
  unmap v (2 ^ k) pt = Ok (set_table (delete v (pTable pt)) pt).
Proof.
  intros Hk Hwf Hal He. pose proof (page_pos k Hk). unfold unmap. rewrite (pageOffset_mod k Hk), Hal by done.
  cbn [Z.eqb ensure]. rewrite res_bind_Ok. unfold turns. rewrite (wf_size _ _ Hwf), Z.div_same by lia.
  change (Z.to_nat (1 + 1)) with 2%nat. cbn [unmap_loop]. destruct (Z.leb_spec (2 ^ k) 0); [lia|]. rewrite He.
  rewrite (wf_size _ _ Hwf), Z.sub_diag. done.
Qed.

Lemma remap_page k v e w pt :
  0 <= k < 64 → wf k pt → v mod 2 ^ k = 0 → w mod 2 ^ k = 0 → pTable pt !! v = Some e → pTable pt !! w = None →
  remap v (2 ^ k) w pt = Ok (set_table (delete v (<[w := e]> (pTable pt))) pt).
Proof.
  intros Hk Hwf Hv Hw He Hn. pose proof (page_pos k Hk). unfold remap. rewrite !(pageOffset_mod k Hk), Hv, Hw by done.
  cbn [Z.eqb ensure]. rewrite !res_bind_Ok. unfold turns. rewrite (wf_size _ _ Hwf), Z.div_same by lia.
  change (Z.to_nat (1 + 1)) with 2%nat. cbn [remap_loop]. destruct (Z.leb_spec (2 ^ k) 0); [lia|]. rewrite He, Hn.
  rewrite (wf_size _ _ Hwf), Z.sub_diag. done.
Qed.

Lemma isUnmapped_page k v pt :
  0 <= k < 64 → wf k pt → is_u64 v → v mod 2 ^ k = 0 →
  isUnmapped v (2 ^ k) pt = Ok (if pTable pt !! v then false else true).
Proof.
  intros Hk Hwf Hu Hv. pose proof (page_pos k Hk). unfold isUnmapped. rewrite (pageOffset_mod k Hk), Hv by done.
  cbn [Z.eqb ensure]. rewrite res_bind_Ok. unfold turns. rewrite (wf_size _ _ Hwf), Z.div_same by lia.
  change (Z.to_nat (1 + 1)) with 2%nat. cbn [isUnmapped_loop]. destruct (Z.leb_spec (2 ^ k) 0); [lia|].
  rewrite Z.add_0_r, u64_small by done. destruct (pTable pt !! v); [done|]. rewrite (wf_size _ _ Hwf), Z.add_0_l.
  by destruct (Z.leb_spec (2 ^ k) (2 ^ k)); [|lia].
Qed.

(** A page-aligned region of the address space, of a size the signed parameter
    of the operations can hold. *)
Definition region (k v n : Z) : Prop :=
  0 <= v ∧ v mod 2 ^ k = 0 ∧ v + n <= 2 ^ 64 ∧ n + 2 ^ k <= 2 ^ 63.

(** The flags a caller may pass are those of [MappingFlags]. *)
Definition known_flags (fl : Z) : Prop :=
  Z.land fl (Z.lor Clobber (Z.lor Uncacheable ReadOnly)) = fl.

(** A typed table whose entries are page frames with known flags. *)
Record tidy (k : Z) (pt : t) : Prop := {
  tidy_typed : typed k pt;
  tidy_entry a e : pTable pt !! a = Some e → paddr e mod 2 ^ k = 0 ∧ known_flags (flags e);
}.

Lemma tidy_frame k pa v a n :
  0 <= k < 64 → pa mod 2 ^ k = 0 → page_of k v n a → u64 (pa + (a - v)) mod 2 ^ k = 0.
Proof.
  intros Hk Hpa [_ Ha]. pose proof (page_pos k Hk). unfold u64. rewrite (page_top k Hk).
  rewrite Z.rem_mul_r by (try apply Z.pow_pos_nonneg; lia).
  rewrite (Z.mul_comm (2 ^ k)), Z.mod_add, Z.mod_mod by lia.
  by rewrite Z.add_mod, Hpa, Ha by lia.
Qed.

Section Operations.

Context (k : Z) (Hk : 0 <= k < 64) (pt : t) (Ht : tidy k pt).

Lemma tidy_wf : wf k pt.
Proof using Ht. apply Ht. Qed.

Lemma op_aligned v : v mod 2 ^ k = 0 → (pageOffset pt v =? 0) = true.
Proof using Hk Ht. intros Hv. rewrite (pageOffset_mod k Hk) by apply tidy_wf. by rewrite Hv. Qed.

Lemma map_spec v pa n fl :
  region k v n → is_u64 pa → pa mod 2 ^ k = 0 → known_flags fl → 0 < n →
  (Z.land fl Clobber ≠ 0 ∨ (∀ a, page_of k v n a → pTable pt !! a = None) →
   ∃ pt', map v pa n fl pt = Ok pt' ∧ tidy k pt' ∧
     ∀ a, pTable pt' !! a =
       if decide (page_of k v n a) then Some (mkEntry (u64 (pa + (a - v))) fl) else pTable pt !! a) ∧
  (∀ a, Z.land fl Clobber = 0 → page_of k v n a → is_Some (pTable pt !! a) →
   map v pa n fl pt = Fail PanicFailure).
Proof using Hk Ht.
  intros (Hv & Hal & Hn & _) Hpa Hpal Hfl Hpos. split.
  - intros Hfree. destruct (map_table k v pa n fl pt) as (pt' & Hm & Hty & Hlk); try done; [apply Ht|].
    exists pt'. split_and!; [done| |done]. constructor; [done|]. intros a e. rewrite Hlk.
    case_decide as Ha; [|apply Ht]. intros [= <-]. split; [by eapply tidy_frame|done].
  - intros a Hc Hpg Ha. eapply map_conflict; try done. apply tidy_wf.
Qed.

Lemma unmap_spec v n :
  region k v n →
  ((∀ a, page_of k v n a → is_Some (pTable pt !! a)) →
   ∃ pt', unmap v n pt = Ok pt' ∧ tidy k pt' ∧
     ∀ a, pTable pt' !! a = if decide (page_of k v n a) then None else pTable pt !! a) ∧
  (∀ a, page_of k v n a → pTable pt !! a = None → unmap v n pt = Fail AssertFailure).
Proof using Hk Ht.
  intros (Hv & Hal & Hn & _). pose proof tidy_wf as Hwf. pose proof (turns_enough k Hk pt n Hwf) as Hf.
  unfold unmap. rewrite (op_aligned v Hal). cbn [ensure]. rewrite res_bind_Ok. split.
  - intros Hall. destruct (unmap_loop_spec k Hk (turns pt n) v n pt) as (pt' & -> & Hwf' & Hlk); try done.
    exists pt'. split_and!; [done| |done]. constructor; [constructor; [done|]|];
      intros a e; rewrite Hlk; case_decide; try done; apply Ht.
  - intros a Ha Hno. by eapply (unmap_loop_missing k Hk).
Qed.

Lemma remap_spec v n w :
  region k v n → region k w n → v + n <= w ∨ w + n <= v →
  ((∀ a, page_of k v n a → is_Some (pTable pt !! a)) → (∀ a, page_of k w n a → pTable pt !! a = None) →
   ∃ pt', remap v n w pt = Ok pt' ∧ tidy k pt' ∧
     ∀ a, pTable pt' !! a =
       if decide (page_of k w n a) then pTable pt !! (v + (a - w))
       else if decide (page_of k v n a) then None else pTable pt !! a) ∧
  (∀ a, (page_of k v n a ∧ pTable pt !! a = None) ∨ (page_of k w n a ∧ is_Some (pTable pt !! a)) →
   remap v n w pt = Fail AssertFailure).
Proof using Hk Ht.
  intros (Hv & Hal & Hn & _) (Hw & Halw & Hnw & _) Hd. pose proof tidy_wf as Hwf.
  pose proof (turns_enough k Hk pt n Hwf) as Hf. pose proof (page_pos k Hk).
  unfold remap. rewrite (op_aligned v Hal), (op_aligned w Halw). cbn [ensure]. rewrite !res_bind_Ok. split.
  - intros Hall Hfree.
    destruct (remap_loop_spec k Hk (turns pt n) v n w pt) as (pt' & -> & Hwf' & Hlk); try done.
    exists pt'. split_and!; [done| |done]. destruct Ht as [[_ He] Hf'].
    constructor; [constructor; [done|]|]; intros a e; rewrite Hlk;
      (case_decide as Ha; [|case_decide; [done|apply He || apply Hf']]); intros Hx; [|by eapply Hf'].
    destruct Ha as [Ha Hm]. split; [split; lia|]. split; [|by eapply He].
    replace a with (w + (a - w)) by lia. by rewrite Z.add_mod, Halw, Hm by lia.
  - intros a Ha. by eapply (remap_loop_refused k Hk).
Qed.

Lemma isUnmapped_spec v n :
  region k v n →
  ∃ b, isUnmapped v n pt = Ok b ∧ (b = true ↔ ∀ a, page_of k v n a → pTable pt !! a = None).
Proof using Hk Ht.
  intros (Hv & Hal & Hn & _). pose proof tidy_wf as Hwf. unfold isUnmapped.
  rewrite (op_aligned v Hal). cbn [ensure]. rewrite res_bind_Ok.
  destruct (isUnmapped_loop_spec k Hk (turns pt n) v 0 n pt) as (b & -> & Hb); try (done || lia).
  { rewrite Z.sub_0_r. by apply turns_enough. }
  rewrite Z.add_0_r, Z.sub_0_r in Hb. eauto.
Qed.

Lemma inside_page v pa w n fl :
  v mod 2 ^ k ≠ 0 →
  map v pa n fl pt = Fail AssertFailure ∧ unmap v n pt = Fail AssertFailure ∧
  remap v n w pt = Fail AssertFailure ∧ remap w n v pt = Fail AssertFailure ∧
  isUnmapped v n pt = Fail AssertFailure.
Proof using Hk Ht.
  intros Hv. pose proof tidy_wf as Hwf. unfold map, unmap, remap, isUnmapped.
  rewrite !(pageOffset_mod k Hk) by done. apply Z.eqb_neq in Hv. rewrite Hv.
  split_and!; try done. by destruct (w mod 2 ^ k =? 0).
Qed.

End Operations.

(** C38: the page table does what its operations say, on a table of page frames
    with known flags, which they keep; a fresh table is an empty one.  [map]
    enters exactly the pages of the region, each with its own frame and the
    flags, and panics when one is mapped already and the clobber flag is not
    given; [unmap] removes exactly the pages of the region, and fails its
    assertion when one is missing; [remap] moves the entries to a region apart,
    and fails its assertion when a page is missing or the place is taken;
    [isUnmapped] says whether no page of the region is mapped; an address
    inside a page fails the assertion of all four. *)
Theorem page_table_spec k pt :
  0 <= k < 64 → tidy k pt →
  (∃ fresh, create (2 ^ k) = Ok fresh ∧ tidy k fresh ∧ pTable fresh = ∅) ∧
  (∀ v pa n fl, region k v n → is_u64 pa → pa mod 2 ^ k = 0 → known_flags fl → 0 < n →
    (Z.land fl Clobber ≠ 0 ∨ (∀ a, page_of k v n a → pTable pt !! a = None) →
     ∃ pt', map v pa n fl pt = Ok pt' ∧ tidy k pt' ∧
       ∀ a, pTable pt' !! a =
         if decide (page_of k v n a) then Some (mkEntry (u64 (pa + (a - v))) fl) else pTable pt !! a) ∧
    (∀ a, Z.land fl Clobber = 0 → page_of k v n a → is_Some (pTable pt !! a) →
     map v pa n fl pt = Fail PanicFailure)) ∧
  (∀ v n, region k v n →
    ((∀ a, page_of k v n a → is_Some (pTable pt !! a)) →
     ∃ pt', unmap v n pt = Ok pt' ∧ tidy k pt' ∧
       ∀ a, pTable pt' !! a = if decide (page_of k v n a) then None else pTable pt !! a) ∧
    (∀ a, page_of k v n a → pTable pt !! a = None → unmap v n pt = Fail AssertFailure)) ∧
  (∀ v n w, region k v n → region k w n → v + n <= w ∨ w + n <= v →
    ((∀ a, page_of k v n a → is_Some (pTable pt !! a)) →
     (∀ a, page_of k w n a → pTable pt !! a = None) →
     ∃ pt', remap v n w pt = Ok pt' ∧ tidy k pt' ∧
       ∀ a, pTable pt' !! a =
         if decide (page_of k w n a) then pTable pt !! (v + (a - w))
         else if decide (page_of k v n a) then None else pTable pt !! a) ∧
    (∀ a, (page_of k v n a ∧ pTable pt !! a = None) ∨
          (page_of k w n a ∧ is_Some (pTable pt !! a)) →
     remap v n w pt = Fail AssertFailure)) ∧
  (∀ v n, region k v n →
    ∃ b, isUnmapped v n pt = Ok b ∧ (b = true ↔ ∀ a, page_of k v n a → pTable pt !! a = None)) ∧
  (∀ v pa w n fl, v mod 2 ^ k ≠ 0 →
    map v pa n fl pt = Fail AssertFailure ∧ unmap v n pt = Fail AssertFailure ∧
    remap v n w pt = Fail AssertFailure ∧ remap w n v pt = Fail AssertFailure ∧
    isUnmapped v n pt = Fail AssertFailure).
Proof.
  intros Hk Ht. split_and!.
  - destruct (pt_create_wf k Hk) as (fresh & -> & Hf & Hm). exists fresh.
    split_and!; [done| |done]. constructor; [constructor; [done|]|]; rewrite Hm; intros a e; by rewrite lookup_empty.
  - intros. by apply map_spec.
  - intros. by apply unmap_spec.
  - intros. by apply remap_spec.
  - intros. by apply (isUnmapped_spec k).
  - intros. by apply (inside_page k).
Qed.

(** A region without a page in the table, or mapped with the clobber flag. *)
Lemma map_region k v pa n fl pt :
  0 <= k < 64 → wf k pt → v mod 2 ^ k = 0 → 0 <= v → v + n <= 2 ^ 64 → is_u64 pa →
  Z.land fl Clobber ≠ 0 ∨ (∀ x, 0 <= x < n → translate pt (v + x) = None) →
  ∃ pt', map v pa n fl pt = Ok pt' ∧ wf k pt' ∧
    (∀ x, 0 <= x < n → translate pt' (v + x) = Some (u64 (pa + x))) ∧
    (∀ a, is_u64 a → ¬ 0 <= a - v < 2 ^ k * ((n + 2 ^ k - 1) / 2 ^ k) →
       translate pt' a = translate pt a).
Proof.
  intros Hk Hwf Hal Hv Hn Hpa Hfree. unfold map. rewrite (pageOffset_mod k Hk) by done.
  rewrite Hal. cbn [Z.eqb ensure]. rewrite res_bind_Ok. pose proof (turns_enough k Hk pt n Hwf) as Ht.
  destruct (map_loop_spec k Hk (turns pt n) v pa n fl pt) as (pt' & -> & Hwf' & Hlk); try done.
  { destruct Hfree as [?|Hfree]; [by left|right]. intros a Ha.
    apply (unmapped_pages k Hk pt v n); try done. destruct Ha as [Ha _].
    replace a with (v + (a - v)) by lia. apply Hfree. lia. }
  exists pt'. split_and!; [done|done| |].
  - intros x Hx. destruct (page_of_byte k Hk v n x Hal Hx) as [Hm Hpg].
    rewrite (translate_eq k Hk) by (done || auto with width).
    rewrite Hlk, decide_True by done. simpl. rewrite Hm. f_equal.
    unfold u64. rewrite Zplus_mod_idemp_r. f_equal. lia.
  - intros a Ha Hout. rewrite !(translate_eq k Hk) by done.
    rewrite Hlk, decide_False; [done|]. intros Hpg. by apply (page_of_outside k Hk) in Hpg.
Qed.

(** A region is mapped byte for byte: after [map], each of its bytes
    translates to the corresponding physical byte, and addresses of other pages
    translate as before.  Without the clobber flag, a region with a page
    already mapped is refused. *)
Theorem map_translate k v pa n fl pt :
  0 <= k < 64 → wf k pt → v mod 2 ^ k = 0 → 0 <= v → v + n <= 2 ^ 64 → is_u64 pa →
  (Z.land fl Clobber ≠ 0 ∨ (∀ x, 0 <= x < n → translate pt (v + x) = None) →
   ∃ pt', map v pa n fl pt = Ok pt' ∧ wf k pt' ∧
     (∀ x, 0 <= x < n → translate pt' (v + x) = Some (u64 (pa + x))) ∧
     (∀ a, is_u64 a → ¬ 0 <= a - v < 2 ^ k * ((n + 2 ^ k - 1) / 2 ^ k) →
        translate pt' a = translate pt a)) ∧
  (∀ x, Z.land fl Clobber = 0 → 0 <= x < n → translate pt (v + x) ≠ None →
     map v pa n fl pt = Fail PanicFailure).
Proof.
  intros Hk Hwf Hal Hv Hn Hpa. split; [by apply map_region|].
  intros x Hc Hx Htr. destruct (page_of_byte k Hk v n x Hal Hx) as [_ Hpg].
  eapply map_conflict; try done.
  rewrite (translate_eq k Hk) in Htr by (done || auto with width). by case_match.
Qed.

(** [remap] moves a mapped region: each byte of the new region translates as
    the corresponding byte did, the old region is unmapped, and no assertion
    fails. *)
Theorem remap_translate k v n w pt :
  0 <= k < 64 → wf k pt → v mod 2 ^ k = 0 → w mod 2 ^ k = 0 → 0 <= v → 0 <= w →
  v + n <= 2 ^ 64 → w + n <= 2 ^ 64 → v + n <= w ∨ w + n <= v →
  (∀ x, 0 <= x < n → translate pt (v + x) ≠ None) →
  (∀ x, 0 <= x < n → translate pt (w + x) = None) →
  ∃ pt', remap v n w pt = Ok pt' ∧ wf k pt' ∧
    ∀ x, 0 <= x < n →
      translate pt' (w + x) = translate pt (v + x) ∧ translate pt' (v + x) = None.
Proof.
  intros Hk Hwf Hav Haw Hv Hw Hvn Hwn Hdisj Hm Hfree. unfold remap.
  rewrite !(pageOffset_mod k Hk) by done. rewrite Hav, Haw. cbn [Z.eqb ensure]. rewrite !res_bind_Ok.
  destruct (remap_loop_spec k Hk (turns pt n) v n w pt) as (pt' & -> & Hwf' & Hlk);
    try done; [by apply turns_enough| | |].
  { intros a [Ha Hmod]. specialize (Hm (a - v) ltac:(lia)).
    replace (v + (a - v)) with a in Hm by lia.
    destruct (pTable pt !! a) eqn:E; [by eexists|]. exfalso. apply Hm.
    rewrite (translate_eq k Hk) by (done || auto with width).
    assert (a mod 2 ^ k = 0) as ->; [|by rewrite Z.sub_0_r, E].
    pose proof (page_pos k Hk). replace a with (v + (a - v)) by lia.
    by rewrite Z.add_mod, Hav, Hmod by lia. }
  { intros a Ha. apply (unmapped_pages k Hk pt w n); try done. destruct Ha as [Ha _].
    replace a with (w + (a - w)) by lia. apply Hfree. lia. }
  exists pt'. split_and!; [done|done|]. intros x Hx.
  destruct (page_of_byte k Hk v n x Hav Hx) as [Hmv Hpv].
  destruct (page_of_byte k Hk w n x Haw Hx) as [Hmw Hpw].
  rewrite !(translate_eq k Hk) by (done || auto with width). rewrite !Hlk, Hmv, Hmw in *.
  rewrite (decide_True (P := page_of k w n (w + x - x mod 2 ^ k))) by done.
  rewrite (decide_False (P := page_of k w n (v + x - x mod 2 ^ k))) by (unfold page_of in *; lia).
  rewrite decide_True by done. split; [|done].
  by replace (v + (w + x - x mod 2 ^ k - w)) with (v + x - x mod 2 ^ k) by lia.
Qed.

(** Mapping a free page-aligned region and unmapping it gives the page table
    back, and no assertion fails in either. *)
Theorem map_unmap k v pa n fl pt :
  0 <= k < 64 → wf k pt → v mod 2 ^ k = 0 → 0 <= v → v + n <= 2 ^ 64 → is_u64 pa →
  (∀ x, 0 <= x < n → translate pt (v + x) = None) →
  ∃ pt', map v pa n fl pt = Ok pt' ∧ unmap v n pt' = Ok pt.
Proof.
  intros Hk Hwf Hal Hv Hn Hpa Hfree. unfold map. rewrite (pageOffset_mod k Hk) by done.
  rewrite Hal. cbn [Z.eqb ensure]. rewrite res_bind_Ok. pose proof (turns_enough k Hk pt n Hwf) as Ht.
  assert (∀ a, page_of k v n a → pTable pt !! a = None) as Hnone.
  { intros a Ha. apply (unmapped_pages k Hk pt v n); try done. destruct Ha as [Ha _].
    replace a with (v + (a - v)) by lia. apply Hfree. lia. }
  destruct (map_loop_spec k Hk (turns pt n) v pa n fl pt) as (pt1 & Hm1 & Hwf1 & Hlk1);
    try done; [by right|]. exists pt1. split; [done|].
  unfold unmap. rewrite (pageOffset_mod k Hk), Hal by done. cbn [Z.eqb ensure]. rewrite res_bind_Ok.
  destruct (unmap_loop_spec k Hk (turns pt1 n) v n pt1) as (pt2 & -> & Hwf2 & Hlk2);
    try done; [by apply turns_enough| |].
  { intros a Ha. rewrite Hlk1, decide_True by done. by eexists. }
  destruct pt as [tb sz mk0], pt2 as [tb2 sz2 mk2], Hwf as [Hs Hm], Hwf2 as [Hs2 Hm2].
  simpl in *. subst. do 2 f_equal. apply map_eq. intros a. rewrite Hlk2, Hlk1. simpl.
  destruct (decide (page_of k v n a)) as [Ha|Ha]; [|done]. symmetry. by apply Hnone.
Qed.

(** C37: iterating over [translateRange] terminates, on a region that is mapped
    for every loop body, on another one for a body that gives up on a fault
    (one that goes on is given the same range again, for ever).  Its ranges
    tile the region in order, each inside one page, and each byte of a range is
    translated as the page table says; if a byte is not mapped, the ranges
    before its page come first, followed by one with a fault at the first
    unmapped address. *)
Theorem translateRange_spec k pt v n :
  0 <= k < 64 → wf k pt → is_u64 v → is_u64 n → v + n <= 2 ^ 64 →
  ∃ m l, tiles v m (extent <$> l) ∧ Forall (good_range k pt) l ∧
    ((m = n ∧ ∀ S (body : Range → S → res S) s,
        for_ranges pt v n body s = TranslationGen.run_body body l s) ∨
     (0 <= m < n ∧ translate pt (v + m) = None ∧ ∃ r,
      TranslationGen.vaddr r = v + m ∧ TranslationGen.fault r = Some (v + m) ∧
      ∀ S (body : Range → S → res S) s, stops_on_fault body →
        for_ranges pt v n body s = (s ← TranslationGen.run_body body l s; body r s))).
Proof. intros Hk. by apply for_ranges_spec. Qed.

(** A checkpoint of the page table restores it. *)
Theorem serialize_unserialize pt :
  unserialize (serialize pt) (set_table ∅ pt) = pt.
Proof.
  assert ((serialize pt).*1.*1 = (map_to_list (pTable pt)).*1) as Hkeys.
  { unfold serialize. by rewrite <-!list_fmap_compose. }
  destruct (unserialize_spec (serialize pt) (set_table ∅ pt)) as (Hs & Hm & Ht).
  - rewrite Hkeys. apply NoDup_fst_map_to_list.
  - done.
  - destruct (unserialize (serialize pt) (set_table ∅ pt)) as [tb sz mk0], pt as [tb' sz' mk'].
    simpl in *. subst. f_equal. rewrite map_union_empty. unfold serialize. simpl.
    rewrite <-list_fmap_compose. rewrite (list_fmap_ext _ id).
    + by rewrite list_fmap_id, list_to_map_to_list.
    + by intros i [x [? ?]] _.
Qed.

(** ** Examples *)

Definition demo_pt : t := mk ∅ 4096 4095.

Lemma demo_pt_wf : wf 12 demo_pt.
Proof. by constructor. Qed.

Lemma demo_free v n : 0 <= v → v + n <= 2 ^ 64 → ∀ x, 0 <= x < n → translate demo_pt (v + x) = None.
Proof.
  intros Hv Hn x Hx. rewrite (translate_eq 12 ltac:(lia) demo_pt) by (apply demo_pt_wf || auto with width).
  done.
Qed.

(** Three pages at 0x10000, mapped to 0x80000000. *)
Lemma map_translate_witness :
  ∃ pt', map 0x10000 0x80000000 0x2800 0 demo_pt = Ok pt' ∧
    translate pt' (0x10000 + 0x1234) = Some 0x80001234.
Proof.
  destruct (map_translate 12 0x10000 0x80000000 0x2800 0 demo_pt) as [Hm _];
    [lia|apply demo_pt_wf|reflexivity|lia|lia|auto with width|].
  destruct Hm as (pt' & Hpt & _ & Ht & _); [right; apply demo_free; lia|].
  exists pt'. split; [exact Hpt|]. apply (Ht 0x1234). lia.
Defined.

Lemma demo_pt_typed : typed 12 demo_pt.
Proof. constructor; [apply demo_pt_wf|]. intros a e. simpl. by rewrite lookup_empty. Qed.

Lemma demo_pt_tidy : tidy 12 demo_pt.
Proof. constructor; [apply demo_pt_typed|]. intros a e. simpl. by rewrite lookup_empty. Qed.

Lemma page_table_spec_witness :
  ∃ pt', map 0xfffffffffffff000 0x80000000 0x1000 4 demo_pt = Ok pt' ∧
    pTable pt' !! 0xfffffffffffff000 = Some (mkEntry 0x80000000 4).
Proof.
  destruct (page_table_spec 12 demo_pt) as (_ & Hm & _); [lia|apply demo_pt_tidy|].
  destruct (Hm 0xfffffffffffff000 0x80000000 0x1000 4) as [Hmap _];
    [unfold region; split_and!; vm_compute; congruence|auto with width|reflexivity|reflexivity|lia|].
  destruct Hmap as (pt' & Hpt & _ & Hlk); [right; intros a _; apply lookup_empty|].
  exists pt'. split; [exact Hpt|]. rewrite Hlk. vm_compute. reflexivity.
Defined.

Definition demo_mapped : t :=
  match map 0x10000 0x80000000 0x2800 0 demo_pt with Ok pt => pt | Fail _ => demo_pt end.

Lemma demo_mapped_eq : map 0x10000 0x80000000 0x2800 0 demo_pt = Ok demo_mapped.
Proof. vm_compute. reflexivity. Qed.

Lemma demo_mapped_wf : wf 12 demo_mapped.
Proof. constructor; vm_compute; reflexivity. Qed.

(** The table of the example, by page. *)
Lemma demo_mapped_lookup a :
  pTable demo_mapped !! a =
    if decide (page_of 12 0x10000 0x2800 a)
    then Some (mkEntry (u64 (0x80000000 + (a - 0x10000))) 0) else None.
Proof.
  destruct (map_loop_spec 12 ltac:(lia) (turns demo_pt 0x2800) 0x10000 0x80000000 0x2800 0 demo_pt)
    as (pt' & Hm & _ & Hlk); [apply demo_pt_wf|lia|lia|auto with width|vm_compute; congruence|
    right; done|].
  assert (pt' = demo_mapped) as <-; [|apply Hlk].
  pose proof demo_mapped_eq as H. unfold map in H. apply bind_Ok in H as ([] & _ & H). congruence.
Qed.

Lemma demo_mapped_translate x :
  0 <= x < 0x2800 → translate demo_mapped (0x10000 + x) = Some (0x80000000 + x).
Proof.
  intros Hx. rewrite (translate_eq 12 ltac:(lia)) by (apply demo_mapped_wf || auto with width).
  destruct (page_of_byte 12 ltac:(lia) 0x10000 0x2800 x eq_refl Hx) as [Hm Hpg].
  rewrite demo_mapped_lookup, decide_True by done. simpl. rewrite Hm. f_equal.
  unfold u64. rewrite Zplus_mod_idemp_r. rewrite Z.mod_small; [lia|]. lia.
Qed.

Lemma remap_translate_witness :
  ∃ pt', remap 0x10000 0x2800 0x40000 demo_mapped = Ok pt' ∧
    translate pt' (0x40000 + 0x1234) = Some 0x80001234.
Proof.
  destruct (remap_translate 12 0x10000 0x2800 0x40000 demo_mapped) as (pt' & Hpt & _ & Ht);
    [lia|apply demo_mapped_wf|reflexivity|reflexivity|lia|lia|lia|lia|left; lia| | |].
  - intros x Hx. rewrite demo_mapped_translate by done. congruence.
  - intros x Hx. rewrite (translate_eq 12 ltac:(lia)) by (apply demo_mapped_wf || auto with width).
    rewrite demo_mapped_lookup, decide_False; [done|]. unfold page_of. zlia.
  - exists pt'. split; [exact Hpt|]. destruct (Ht 0x1234) as [-> _]; [lia|].
    apply (demo_mapped_translate 0x1234). lia.
Defined.

Lemma map_unmap_witness :
  ∃ pt', map 0x10000 0x80000000 0x2800 0 demo_pt = Ok pt' ∧ unmap 0x10000 0x2800 pt' = Ok demo_pt.
Proof.
  apply (map_unmap 12 0x10000 0x80000000 0x2800 0 demo_pt);
    [lia|apply demo_pt_wf|done|lia|lia|auto with width|apply demo_free; lia].
Defined.

Lemma translateRange_witness :
  ∃ m l, tiles 0x10ff0 m (extent <$> l) ∧
    for_ranges demo_mapped 0x10ff0 0x20 (λ r acc, Ok (acc ++ [extent r])) [] =
      Ok [(0x10ff0, 0x10); (0x11000, 0x10)].
Proof.
  destruct (translateRange_spec 12 demo_mapped 0x10ff0 0x20) as (m & l & Ht & _);
    [lia|apply demo_mapped_wf|auto with width|auto with width|lia|].
  exists m, l. split; [exact Ht|]. vm_compute. reflexivity.
Defined.

(** A copied iterator cannot be advanced, since the copy constructor leaves
    [end] set. *)
Lemma copied_iterator_stuck tr start size it :
  TranslationGen.incr tr start size (TranslationGen.copy it) = Fail PanicFailure.
Proof. done. Qed.

End EmulationPageTable.
