(* ===== verification/FreeList.v ===== *)
(** Free lists ([base/free_list.hh]): sorted lists of free ranges, with best-fit
    allocation and merging. *)

From S2P Require Import Prelude.

Module FreeList.

Record Range := mkRange { base : Z; size : Z }.

#[global] Instance Range_eq_dec : EqDecision Range.
Proof. solve_decision. Defined.

Definition contains (r : Range) (x : Z) : bool := (base r <=? x) && (x <? u64 (base r + size r)).
Definition precedes (r : Range) (x : Z) : bool := u64 (base r + size r) <=? x.
Definition overlaps (r o : Range) : bool := negb (precedes r (base o)) && negb (precedes o (base r)).

(** [_ranges] and [_size]. *)
Record t := mk { _ranges : list Range; _size : Z }.

Definition empty : t := mk [] 0.

(** [std::lower_bound]: the ranges before the insertion point, the last one first,
    and those behind. *)
Fixpoint lower_bound (b : Z) (before after : list Range) : list Range * list Range :=
  match after with
  | r :: after' => if base r <? b then lower_bound b (r :: before) after' else (before, after)
  | [] => (before, [])
  end.

Definition is_double (l : list Range) (r : Range) : bool :=
  match l with x :: _ => overlaps x r | [] => false end.

(** Merge left: the new range and the ranges before it. *)
Definition merge_left (before : list Range) (r : Range) : res (list Range * Range) :=
  match before with
  | prev :: before' =>
      assert! (u64 (base prev + size prev) <=? base r);
      if u64 (base prev + size prev) =? base r
      then Ok (before', mkRange (base prev) (u64 (size r + size prev)))
      else Ok (before, r)
  | [] => Ok ([], r)
  end.

Definition merge_right (after : list Range) (r : Range) : res (list Range * Range) :=
  match after with
  | it :: after' =>
      assert! (u64 (base r + size r) <=? base it);
      if u64 (base r + size r) =? base it
      then Ok (after', mkRange (base r) (u64 (size r + size it)))
      else Ok (after, r)
  | [] => Ok ([], r)
  end.

Definition insert (b n : Z) (s : t) : res t :=
  let '(before, after) := lower_bound b [] (_ranges s) in
  panic_unless! (negb (is_double after (mkRange b n)));
  panic_unless! (negb (is_double before (mkRange b n)));
  '(before, r) ← merge_left before (mkRange b n);
  '(after, r) ← merge_right after r;
  Ok (mk (rev before ++ r :: after) (u64 (_size s + n))).

Definition create (b n : Z) : res t := insert b n empty.

(** The best fit: the ranges before it, the last one first, and those behind. *)
Fixpoint best_fit (n : Z) (seen l : list Range) (best : option (list Range * Range * list Range)) (best_size : Z)
    : option (list Range * Range * list Range) :=
  match l with
  | [] => best
  | r :: l =>
      if (n <=? size r) && (size r <=? best_size)
      then best_fit n (r :: seen) l (Some (seen, r, l)) (size r)
      else best_fit n (r :: seen) l best best_size
  end.

Definition allocate (n : Z) (s : t) : res (option Z * t) :=
  assert! (0 <? n);
  match best_fit n [] (_ranges s) None (2 ^ 64 - 1) with
  | None => Ok (None, s)
  | Some (before, r, after) =>
      let r' := mkRange (u64 (base r + n)) (u64 (size r - n)) in
      Ok (Some (base r),
          mk (rev before ++ (if size r' =? 0 then after else r' :: after)) (u64 (_size s - n)))
  end.

(** ** What is free *)

Definition within (r : Range) (x : Z) : Prop := base r <= x < base r + size r.
Definition free (s : t) (x : Z) : Prop := ∃ r, r ∈ _ranges s ∧ within r x.

(** Ranges of addresses, and that one is before another without touching it. *)
Definition proper (r : Range) : Prop := 0 <= base r ∧ 0 < size r ∧ base r + size r < 2 ^ 64.
Definition before (r r' : Range) : Prop := base r + size r < base r'.

Definition total (l : list Range) : Z := foldr (λ r z, size r + z) 0 l.

Record wf (s : t) : Prop := {
  wf_proper : Forall proper (_ranges s);
  wf_sorted : StronglySorted before (_ranges s);
  wf_size : _size s = total (_ranges s);
}.

(** ** Insertion *)

Lemma end_proper r : proper r → u64 (base r + size r) = base r + size r.
Proof. intros (? & ? & ?). apply u64_small. unfold is_u64. lia. Qed.

Lemma overlaps_spec r o : proper r → proper o → overlaps r o = true ↔ ∃ x, within r x ∧ within o x.
Proof.
  intros Hr Ho. unfold overlaps, precedes, within. rewrite !end_proper by done.
  destruct Hr as (? & ? & ?), Ho as (? & ? & ?).
  rewrite andb_true_iff, !negb_true_iff, !Z.leb_gt. split.
  - intros [? ?]. exists (Z.max (base r) (base o)). lia.
  - intros (x & ? & ?). lia.
Qed.

Lemma lower_bound_spec b l acc before' after' :
  lower_bound b acc l = (before', after') →
  ∃ m, before' = rev m ++ acc ∧ l = m ++ after' ∧ Forall (λ r, base r < b) m ∧
    (∀ r, head after' = Some r → b <= base r).
Proof.
  revert acc. induction l as [|r l IH]; intros acc; simpl.
  - intros [= <- <-]. exists []. split_and!; [done|done|constructor|done].
  - destruct (Z.ltb_spec (base r) b) as [Hlt|Hge].
    + intros H. destruct (IH _ H) as (m & -> & -> & Hm & Ha). exists (r :: m). split_and!; [|done|by constructor|done].
      simpl. by rewrite <-app_assoc.
    + intros [= <- <-]. exists []. split_and!; [done|done|constructor|]. intros x [= <-]. lia.
Qed.

Lemma total_app l l' : total (l ++ l') = total l + total l'.
Proof. induction l as [|r l IH]; [done|]. simpl. lia. Qed.

Lemma total_nonneg l : Forall proper l → 0 <= total l.
Proof. intros Hp. induction Hp as [|r l (? & ? & ?) _ IH]; simpl; lia. Qed.

Lemma total_bound l : Forall proper l → StronglySorted before l → 0 <= total l < 2 ^ 64.
Proof.
  intros Hp Hs. assert (∀ r, head l = Some r → base r + total l < 2 ^ 64) as Hb.
  { induction l as [|r l IH]; [done|]. intros x [= <-]. apply Forall_cons_1 in Hp as [Hr Hp].
    apply StronglySorted_inv in Hs as [Hs Hf]. destruct Hr as (? & ? & ?). simpl. destruct l as [|r' l]; [simpl; lia|].
    specialize (IH Hp Hs r' eq_refl). apply Forall_cons_1 in Hf as [Hlt _]. unfold before in Hlt. lia. }
  split.
  - by apply total_nonneg.
  - destruct l as [|r l]; [simpl; lia|]. specialize (Hb r eq_refl). apply Forall_cons_1 in Hp as [(? & ? & ?) _]. lia.
Qed.

(** [x] is one of the addresses of [l]. *)
Definition covers (l : list Range) (x : Z) : Prop := ∃ r, r ∈ l ∧ within r x.

Lemma covers_app l l' x : covers (l ++ l') x ↔ covers l x ∨ covers l' x.
Proof. unfold covers. setoid_rewrite elem_of_app. naive_solver. Qed.

Lemma covers_cons r l x : covers (r :: l) x ↔ within r x ∨ covers l x.
Proof. unfold covers. setoid_rewrite elem_of_cons. naive_solver. Qed.

Lemma covers_nil x : ¬ covers [] x.
Proof. by intros (r & ?%not_elem_of_nil & _). Qed.

(** The sequence [l], then [r], with a gap or without. *)
Definition up_to (l : list Range) (r : Range) : Prop := Forall (λ x, base x + size x <= base r) l.
Definition from (l : list Range) (r : Range) : Prop := Forall (λ x, base r + size r <= base x) l.

Lemma merge_left_spec m r :
  Forall proper m → StronglySorted before m → proper r → up_to m r →
  ∃ m' r', merge_left (rev m) r = Ok (rev m', r') ∧ (∃ k, m = m' ++ k) ∧ proper r' ∧
    base r' + size r' = base r + size r ∧ Forall (λ x, before x r') m' ∧
    (∀ x, covers m' x ∨ within r' x ↔ covers m x ∨ within r x) ∧ total m' + size r' = total m + size r.
Proof.
  intros Hp Hs Hr Hu. destruct m as [|prev m _] using rev_ind.
  { exists [], r. split_and!; try done. by exists []. }
  rewrite rev_unit. unfold merge_left. apply Forall_app in Hp as [Hpm Hpp]. apply Forall_cons_1 in Hpp as [Hpp _].
  rewrite end_proper by done. apply Forall_app in Hu as [Hum Hup]. apply Forall_cons_1 in Hup as [Hup _].
  rewrite (proj2 (Z.leb_le _ _) Hup). simpl. assert (Forall (λ x, before x prev) m) as Hbm.
  { apply Forall_forall. intros x Hx. apply StronglySorted_app_1_elem_of with (x1 := x) (x2 := prev) in Hs; [done|done|by left]. }
  destruct (Z.eqb_spec (base prev + size prev) (base r)) as [Heq|Hne].
  - destruct Hpp as (? & ? & ?), Hr as (? & ? & ?).
    exists m, (mkRange (base prev) (u64 (size r + size prev))). rewrite u64_small by auto with width.
    split; [done|]. split; [by exists [prev]|]. split; [unfold proper; simpl; lia|]. split; [simpl; lia|].
    split; [done|]. split.
    + intros x. rewrite covers_app, covers_cons. unfold within. simpl. pose proof (covers_nil x). naive_solver lia.
    + rewrite total_app. simpl. lia.
  - exists (m ++ [prev]), r. rewrite rev_unit. split; [done|]. split; [by exists []; rewrite app_nil_r|]. split; [done|].
    split; [done|]. split; [|done]. apply Forall_app. split; [|constructor; [unfold before; lia|constructor]].
    eapply Forall_impl; [exact Hbm|]. unfold before. destruct Hpp as (? & ? & ?). simpl. lia.
Qed.

Lemma merge_right_spec l r :
  Forall proper l → StronglySorted before l → proper r → from l r →
  ∃ l' r', merge_right l r = Ok (l', r') ∧ (∃ k, l = k ++ l') ∧ proper r' ∧
    base r' = base r ∧ Forall (before r') l' ∧
    (∀ x, covers l' x ∨ within r' x ↔ covers l x ∨ within r x) ∧ total l' + size r' = total l + size r.
Proof.
  intros Hp Hs Hr Hu. destruct l as [|it l].
  { exists [], r. split_and!; try done. by exists []. }
  unfold merge_right. apply Forall_cons_1 in Hp as [Hpi Hpl]. apply Forall_cons_1 in Hu as [Hui Hul].
  apply StronglySorted_inv in Hs as [Hs Hf]. rewrite end_proper by done. rewrite (proj2 (Z.leb_le _ _) Hui). simpl.
  destruct (Z.eqb_spec (base r + size r) (base it)) as [Heq|Hne].
  - destruct Hpi as (? & ? & ?), Hr as (? & ? & ?).
    exists l, (mkRange (base r) (u64 (size r + size it))). rewrite u64_small by auto with width.
    split; [done|]. split; [by exists [it]|]. split; [unfold proper; simpl; lia|]. split; [done|].
    split; [eapply Forall_impl; [exact Hf|]; unfold before; simpl; lia|]. split.
    + intros x. rewrite covers_cons. unfold within. simpl. naive_solver lia.
    + simpl. lia.
  - exists (it :: l), r. split; [done|]. split; [by exists []|]. split; [done|]. split; [done|]. split; [|done].
    constructor; [unfold before; lia|]. eapply Forall_impl; [exact Hf|]. unfold before. destruct Hpi as (? & ? & ?). simpl. lia.
Qed.

Lemma sorted_middle l r l' :
  StronglySorted before l → StronglySorted before l' → Forall (λ x, before x r) l → Forall (before r) l' → 0 < size r →
  StronglySorted before (l ++ r :: l').
Proof.
  intros Hl Hl' Hb Ha Hr. induction Hl as [|x l Hl IH Hx]; simpl; [by constructor|].
  apply Forall_cons_1 in Hb as [Hxr Hb]. constructor; [by apply IH|]. apply Forall_app. split; [done|].
  constructor; [done|]. eapply Forall_impl; [exact Ha|]. unfold before in *. simpl. lia.
Qed.

Lemma insert_ok b n s :
  wf s → proper (mkRange b n) → (∀ x, b <= x < b + n → ¬ free s x) →
  ∃ s', insert b n s = Ok s' ∧ wf s' ∧ _size s' = _size s + n ∧
    ∀ x, free s' x ↔ free s x ∨ b <= x < b + n.
Proof.
  intros [Hp Hs Hz] Hr Hfree. unfold insert. destruct (lower_bound b [] (_ranges s)) as [bf af] eqn:Hlb.
  destruct (lower_bound_spec _ _ _ _ _ Hlb) as (m & -> & Hl & Hm & Ha). rewrite app_nil_r. unfold free in *.
  rewrite Hl in *. clear Hlb Hl. apply Forall_app in Hp as [Hpm Hpa].
  pose proof (StronglySorted_app_1_l _ _ _ Hs) as Hsm. pose proof (StronglySorted_app_1_r _ _ _ Hs) as Hsa.
  assert (∀ x, x ∈ m ++ af → overlaps x (mkRange b n) = false) as Hno.
  { intros x Hx. apply not_true_is_false. rewrite overlaps_spec; [|by apply elem_of_app in Hx as [Hx|Hx]; eapply Forall_forall in Hx; eauto|done].
    intros (y & Hy & Hy'). apply (Hfree y Hy'). by exists x. }
  assert (is_double af (mkRange b n) = false) as ->.
  { destruct af as [|it af]; [done|]. apply Hno, elem_of_app. right. by left. }
  assert (is_double (rev m) (mkRange b n) = false) as ->.
  { destruct m as [|prev m _] using rev_ind; [done|]. rewrite rev_unit. apply Hno, elem_of_app. left.
    apply elem_of_app. right. by left. }
  assert (∀ x, x ∈ m → base x + size x <= b) as Hum.
  { intros x Hx. specialize (Hno x (proj2 (elem_of_app _ _ _) (or_introl Hx))).
    pose proof (proj1 (Forall_forall _ _) Hm x Hx). pose proof (proj1 (Forall_forall _ _) Hpm x Hx) as Hpx.
    unfold overlaps, precedes in Hno. rewrite !end_proper in Hno by done. destruct Hpx as (? & ? & ?), Hr as (? & ? & ?).
    simpl in *. lia. }
  assert (∀ x, x ∈ af → b + n <= base x) as Hua.
  { intros x Hx. specialize (Hno x (proj2 (elem_of_app _ _ _) (or_intror Hx))).
    pose proof (proj1 (Forall_forall _ _) Hpa x Hx) as Hpx. assert (b <= base x).
    { destruct af as [|it af]; [by apply not_elem_of_nil in Hx|]. specialize (Ha it eq_refl).
      apply elem_of_cons in Hx as [->|Hx]; [done|]. apply StronglySorted_inv in Hsa as [_ Hsa].
      pose proof (proj1 (Forall_forall _ _) Hsa x Hx) as Hb. apply Forall_cons_1 in Hpa as [(? & ? & ?) _]. unfold before in Hb. lia. }
    unfold overlaps, precedes in Hno. rewrite !end_proper in Hno by done. destruct Hpx as (? & ? & ?), Hr as (? & ? & ?).
    simpl in *. lia. }
  destruct (merge_left_spec m (mkRange b n)) as (m' & r1 & -> & [k ->] & Hr1 & He1 & Hb1 & Hc1 & Ht1);
    [done|done|done|by apply Forall_forall|]. simpl.
  destruct (merge_right_spec af r1) as (af' & r2 & -> & [k' ->] & Hr2 & He2 & Hb2 & Hc2 & Ht2);
    [done|done|done|by apply Forall_forall; simpl in *; rewrite He1|]. simpl. rewrite rev_involutive.
  assert (StronglySorted before (m' ++ r2 :: af')) as Hsort.
  { apply sorted_middle; [by eapply StronglySorted_app_1_l|by eapply StronglySorted_app_1_r| |done|apply Hr2].
    unfold before in *. by rewrite He2. }
  assert (Forall proper (m' ++ r2 :: af')) as Hprop.
  { apply Forall_app in Hpm as [? _]. apply Forall_app in Hpa as [_ ?]. apply Forall_app. split; [done|by constructor]. }
  pose proof (total_bound _ Hprop Hsort) as Hb. rewrite !total_app in *. simpl in *.
  eexists. split; [done|]. simpl. rewrite (u64_small (_size s + n)) by (unfold is_u64; lia). split; [|split; [done|]].
  - constructor; simpl; [done|done|]. rewrite total_app. simpl. lia.
  - intros x. simpl. specialize (Hc1 x). specialize (Hc2 x). fold (covers (m' ++ r2 :: af') x).
    fold (covers ((m' ++ k) ++ k' ++ af') x). rewrite (covers_app m'), covers_cons, (covers_app (m' ++ k)).
    unfold within in Hc1 at 2. simpl in Hc1. tauto.
Qed.

Lemma insert_double b n s x :
  wf s → proper (mkRange b n) → b <= x < b + n → free s x → insert b n s = Fail PanicFailure.
Proof.
  intros [Hp Hs _] Hr Hx (r & Hin & Hrx). unfold insert. destruct (lower_bound b [] (_ranges s)) as [bf af] eqn:Hlb.
  destruct (lower_bound_spec _ _ _ _ _ Hlb) as (m & -> & Hl & Hm & Ha). rewrite app_nil_r, Hl in *. clear Hlb Hl.
  pose proof (StronglySorted_app_1_l _ _ _ Hs) as Hsm. pose proof (StronglySorted_app_1_r _ _ _ Hs) as Hsa.
  apply Forall_app in Hp as [Hpm Hpa]. apply elem_of_app in Hin as [Hin|Hin].
  - assert (is_double (rev m) (mkRange b n) = true) as ->; [|by destruct (is_double af _)].
    destruct m as [|prev m _] using rev_ind; [by apply not_elem_of_nil in Hin|]. rewrite rev_unit. simpl.
    apply Forall_app in Hpm as [_ Hpp]. apply Forall_cons_1 in Hpp as [Hpp _].
    apply Forall_app in Hm as [_ Hmp]. apply Forall_cons_1 in Hmp as [Hmp _].
    apply overlaps_spec; [done|done|]. exists x. split; [|done].
    apply elem_of_app in Hin as [Hin| ->%list_elem_of_singleton]; [|done].
    pose proof (StronglySorted_app_1_elem_of _ _ _ r prev Hsm Hin ltac:(by left)) as Hb. unfold before, within in *. lia.
  - assert (is_double af (mkRange b n) = true) as ->; [|done].
    destruct af as [|it af]; [by apply not_elem_of_nil in Hin|]. simpl. specialize (Ha it eq_refl).
    apply Forall_cons_1 in Hpa as [Hpi _]. apply overlaps_spec; [done|done|].
    apply elem_of_cons in Hin as [->|Hin]; [by exists x|]. apply StronglySorted_inv in Hsa as [_ Hsa].
    pose proof (proj1 (Forall_forall _ _) Hsa r Hin) as Hb. exists (base it).
    destruct Hpi as (? & ? & ?). unfold before, within in *. simpl. lia.
Qed.

(** ** Allocation *)

(** What [best_fit] has found among the ranges [seen] of [whole]. *)
Definition best_of (n : Z) (whole seen : list Range) (o : option (list Range * Range * list Range)) : Prop :=
  match o with
  | None => Forall (λ x, size x < n) seen
  | Some (bf, r, af) =>
      whole = rev bf ++ r :: af ∧ n <= size r ∧ Forall (λ x, n <= size x → size r <= size x) seen
  end.

Lemma best_fit_spec n whole seen l best best_size :
  Forall proper whole → whole = rev seen ++ l → best_of n whole seen best →
  best_size = match best with None => 2 ^ 64 - 1 | Some (_, r, _) => size r end →
  best_of n whole whole (best_fit n seen l best best_size).
Proof.
  intros Hp. revert seen best best_size. induction l as [|r l IH]; intros seen best bs Hw Hb Hs; simpl.
  - rewrite app_nil_r in Hw. destruct best as [[[bf r] af]|]; simpl in *.
    + destruct Hb as (? & ? & Hf). split; [done|]. split; [done|]. rewrite Hw. by apply Forall_rev.
    + rewrite Hw. by apply Forall_rev.
  - assert (whole = rev (r :: seen) ++ l) as Hw' by (simpl; by rewrite <-app_assoc).
    assert (proper r) as Hr by (rewrite Hw in Hp; by apply Forall_app in Hp as [_ [? _]%Forall_cons_1]).
    destruct Hr as (? & ? & ?). destruct (Z.leb_spec n (size r)); [destruct (Z.leb_spec (size r) bs)|]; simpl.
    + apply IH; [done| |done]. split; [done|]. split; [done|]. constructor; [done|].
      destruct best as [[[bf r0] af]|]; simpl in Hb.
      * destruct Hb as (_ & _ & Hf). eapply Forall_impl; [exact Hf|]. simpl. intros x Hx ?. specialize (Hx ltac:(done)). lia.
      * eapply Forall_impl; [exact Hb|]. simpl. lia.
    + apply IH; [done| |done]. destruct best as [[[bf r0] af]|]; simpl in *; [|lia].
      destruct Hb as (? & ? & Hf). split; [done|]. split; [done|]. constructor; [lia|done].
    + apply IH; [done| |done]. destruct best as [[[bf r0] af]|]; simpl in *; [|by constructor].
      destruct Hb as (? & ? & Hf). split; [done|]. split; [done|]. constructor; [lia|done].
Qed.

Lemma sorted_replace l r r' l' :
  StronglySorted before (l ++ r :: l') → base r <= base r' → base r' + size r' <= base r + size r →
  StronglySorted before (l ++ r' :: l').
Proof.
  induction l as [|x l IH]; simpl; intros Hs Hb He; apply StronglySorted_inv in Hs as [Hs Hf].
  - constructor; [done|]. eapply Forall_impl; [exact Hf|]. unfold before. lia.
  - constructor; [by apply IH|]. apply Forall_app in Hf as [Hf [Hx Hf']%Forall_cons_1]. apply Forall_app.
    split; [done|]. constructor; [unfold before in *; lia|done].
Qed.

Lemma sorted_remove l r l' : StronglySorted before (l ++ r :: l') → StronglySorted before (l ++ l').
Proof.
  induction l as [|x l IH]; simpl; intros Hs; apply StronglySorted_inv in Hs as [Hs Hf]; [done|].
  constructor; [by apply IH|]. apply Forall_app in Hf as [Hf [_ Hf']%Forall_cons_1]. by apply Forall_app.
Qed.

(** The ranges of a list share no address. *)
Lemma sorted_apart l r l' x :
  Forall proper (l ++ r :: l') → StronglySorted before (l ++ r :: l') → within r x → ¬ covers (l ++ l') x.
Proof.
  intros Hp Hs Hx (r' & [Hin|Hin]%elem_of_app & Hx').
  - pose proof (StronglySorted_app_1_elem_of _ _ _ r' r Hs Hin ltac:(by left)) as Hb.
    unfold before, within in *. lia.
  - apply StronglySorted_app_1_r, StronglySorted_inv in Hs as [_ Hf].
    pose proof (proj1 (Forall_forall _ _) Hf r' Hin) as Hb. unfold before, within in *. lia.
Qed.

Lemma allocate_ok n s :
  wf s → 0 < n →
  match allocate n s with
  | Ok (Some b, s') => wf s' ∧ _size s' = _size s - n ∧ (∀ x, b <= x < b + n → free s x) ∧
      (∀ x, free s' x ↔ free s x ∧ ¬ b <= x < b + n) ∧ b + n < 2 ^ 64 ∧
      ∃ r, r ∈ _ranges s ∧ base r = b ∧ Forall (λ x, n <= size x → size r <= size x) (_ranges s)
  | Ok (None, s') => s' = s ∧ Forall (λ r, size r < n) (_ranges s)
  | Fail _ => False
  end.
Proof.
  intros [Hp Hs Hz] Hn. unfold allocate. rewrite (proj2 (Z.ltb_lt _ _) Hn). simpl.
  pose proof (best_fit_spec n (_ranges s) [] (_ranges s) None (2 ^ 64 - 1) Hp eq_refl (Forall_nil_2 _) eq_refl) as Hb.
  destruct (best_fit n [] (_ranges s) None (2 ^ 64 - 1)) as [[[bf r] af]|]; [|done].
  destruct Hb as (Hw & Hle & Hbest). unfold free. rewrite Hw in *. pose proof (total_bound _ Hp Hs) as Htb.
  assert (proper r) as (? & ? & ?) by (by apply Forall_app in Hp as [_ [? _]%Forall_cons_1]).
  rewrite !u64_small by (unfold is_u64; lia).
  set (l := rev bf ++ (if size r - n =? 0 then af else mkRange (base r + n) (size r - n) :: af)).
  assert (StronglySorted before l) as Hsl.
  { unfold l. destruct (Z.eqb_spec (size r - n) 0); [by eapply sorted_remove|].
    eapply sorted_replace; [exact Hs|simpl; lia..]. }
  assert (Forall proper l) as Hpl.
  { apply Forall_app in Hp as [? [_ ?]%Forall_cons_1]. apply Forall_app. split; [done|].
    destruct (Z.eqb_spec (size r - n) 0); [done|]. constructor; [unfold proper; simpl; lia|done]. }
  apply Forall_app in Hp as Hp'. destruct Hp' as [?%total_nonneg [_ ?%total_nonneg]%Forall_cons_1].
  rewrite total_app in *. simpl in *. rewrite (u64_small (_size s - n)) by (unfold is_u64; lia).
  split; [|split; [done|split; [|split; [|split; [lia|]]]]].
  - constructor; simpl; [done|done|]. fold l. unfold l. rewrite Hz, total_app.
    destruct (Z.eqb_spec (size r - n) 0); simpl; lia.
  - intros x Hx. exists r. split; [apply elem_of_app; right; by left|]. unfold within. lia.
  - intros x. fold (covers (rev bf ++ r :: af) x). fold l. fold (covers l x).
    pose proof (sorted_apart _ _ _ x Hp Hs) as Hap. unfold l. rewrite covers_app in Hap |- *. rewrite (covers_app (rev bf)), covers_cons.
    unfold within in *. destruct (Z.eqb_spec (size r - n) 0); [|rewrite covers_cons; unfold within; simpl]; split; intros; naive_solver lia.
  - exists r. split; [apply elem_of_app; right; by left|]. done.
Qed.

(** A free list always consists of sorted ranges with gaps between them.
    Inserting a range adds exactly its elements, and panics exactly when one of
    them is already free; allocating takes a range out of the smallest one that is
    large enough, and fails only when there is none. *)
Theorem free_list_spec s b n :
  wf s → proper (mkRange b n) →
  ((∀ x, b <= x < b + n → ¬ free s x) →
     ∃ s', insert b n s = Ok s' ∧ wf s' ∧ _size s' = _size s + n ∧
    ∀ x, free s' x ↔ free s x ∨ b <= x < b + n) ∧
  (∀ x, b <= x < b + n → free s x → insert b n s = Fail PanicFailure) ∧
  match allocate n s with
  | Ok (Some a, s') => wf s' ∧ _size s' = _size s - n ∧ (∀ x, a <= x < a + n → free s x) ∧
      (∀ x, free s' x ↔ free s x ∧ ¬ a <= x < a + n) ∧ a + n < 2 ^ 64 ∧
      ∃ r, r ∈ _ranges s ∧ base r = a ∧ Forall (λ x, n <= size x → size r <= size x) (_ranges s)
  | Ok (None, s') => s' = s ∧ Forall (λ r, size r < n) (_ranges s)
  | Fail _ => False
  end.
Proof.
  intros Hwf Hp. split; [by apply insert_ok|]. split; [intros x; by apply insert_double|].
  apply allocate_ok; [done|]. apply Hp.
Qed.

(** Two free ranges, and one that joins them. *)
Definition demo : t := mk [mkRange 2 3; mkRange 8 4] 7.

Lemma demo_free_list : wf demo.
Proof.
  constructor; [| |done].
  - constructor; [unfold proper; simpl; lia|]. constructor; [unfold proper; simpl; lia|constructor].
  - constructor; [constructor; [constructor|constructor]|]. constructor; [unfold before; simpl; lia|constructor].
Qed.

Lemma free_list_spec_witness :
  (∃ s', insert 5 3 demo = Ok s' ∧ wf s' ∧ free s' 6 ∧ free s' 11) ∧ insert 4 2 demo = Fail PanicFailure.
Proof.
  split.
  - destruct (free_list_spec demo 5 3 demo_free_list) as (Hins & _ & _); [unfold proper; simpl; lia|].
    destruct Hins as (s' & Hs & Hwf & _ & Hf).
    + intros x Hx (r & [->|[->|[]%elem_of_nil]%elem_of_cons]%elem_of_cons & Hr); unfold within in Hr; simpl in Hr; lia.
    + exists s'. split; [exact Hs|]. split; [exact Hwf|]. split; apply Hf; [right; lia|left].
      exists (mkRange 8 4). split; [right; left|]. unfold within. simpl. lia.
  - destruct (free_list_spec demo 4 2 demo_free_list) as (_ & Hd & _); [unfold proper; simpl; lia|].
    apply (Hd 4); [lia|]. exists (mkRange 2 3). split; [left|]. unfold within. simpl. lia.
Defined.

End FreeList.
