(* ===== verification/MemPool.v ===== *)
(** The pools of physical pages that system-call emulation allocates from
    ([sim/mem_pool.{hh,cc}]). *)

From S2P Require Import Prelude Bits AddrRange FreeList.

Module MemPool.

Record t := mk {
  pageShift : Z;
  startPageNum : Z;
  _totalPages : Z;
  freePhysPages : FreeList.t;
}.

Definition create (page_shift ptr limit : Z) : res t :=
  let start := Z.shiftr ptr page_shift in
  let total := Z.shiftr (u64 (limit - ptr)) page_shift in
  f ← FreeList.create start total;
  Ok (mk page_shift start total f).

Definition startPage (s : t) : Z := startPageNum s.
Definition totalPages (s : t) : Z := _totalPages s.
Definition freePages (s : t) : Z := FreeList._size (freePhysPages s).
Definition allocatedPages (s : t) : Z := totalPages s - freePages s.
Definition startAddr (s : t) : Z := u64 (Z.shiftl (startPage s) (pageShift s)).
Definition allocatedBytes (s : t) : Z := u64 (Z.shiftl (allocatedPages s) (pageShift s)).
Definition freeBytes (s : t) : Z := u64 (Z.shiftl (freePages s) (pageShift s)).
Definition totalBytes (s : t) : Z := u64 (Z.shiftl (totalPages s) (pageShift s)).

Definition set_free (f : FreeList.t) (s : t) : t := mk (pageShift s) (startPageNum s) (_totalPages s) f.

Definition allocate (npages : Z) (s : t) : res (Z * t) :=
  '(page, f) ← FreeList.allocate npages (freePhysPages s);
  match page with
  | None => Fail FatalFailure
  | Some page => Ok (u64 (Z.shiftl page (pageShift s)), set_free f s)
  end.

Definition deallocate (start npages : Z) (s : t) : res t :=
  f ← FreeList.insert (Z.shiftr start (pageShift s)) npages (freePhysPages s);
  Ok (set_free f s).

(** [MemPools]: one pool per memory. *)
Record Pools := mkPools { shift : Z; pools : list t }.

Fixpoint populate (memories : list AddrRange.t) (s : Pools) : res Pools :=
  match memories with
  | [] => Ok s
  | r :: memories =>
      p ← create (shift s) (AddrRange._start r) (AddrRange._end r);
      populate memories (mkPools (shift s) (pools s ++ [p]))
  end.

Definition pool_at (id : nat) (s : Pools) : res t :=
  match pools s !! id with Some p => Ok p | None => Fail UndefinedBehaviour end.

Definition allocPhysPages (npages : Z) (id : nat) (s : Pools) : res (Z * Pools) :=
  p ← pool_at id s;
  '(a, p) ← allocate (u64 npages) p;
  Ok (a, mkPools (shift s) (<[id := p]> (pools s))).

Definition deallocPhysPages (page_addr npages : Z) (id : nat) (s : Pools) : res Pools :=
  p ← pool_at id s;
  p ← deallocate page_addr (u64 npages) p;
  Ok (mkPools (shift s) (<[id := p]> (pools s))).

Definition memSize (id : nat) (s : Pools) : res Z := p ← pool_at id s; Ok (totalBytes p).
Definition freeMemSize (id : nat) (s : Pools) : res Z := p ← pool_at id s; Ok (freeBytes p).

(** ** Runs of a pool *)

(** The pages from [x] on. *)
Definition pages (x n : Z) : gset Z := list_to_set (seqZ x n).

Lemma elem_of_pages x n y : y ∈ pages x n ↔ x <= y < x + n.
Proof. unfold pages. by rewrite elem_of_list_to_set, elem_of_seqZ. Qed.

Lemma size_pages x n : 0 <= n → Z.of_nat (size (pages x n)) = n.
Proof. intros Hn. unfold pages. rewrite size_list_to_set by apply NoDup_seqZ. rewrite length_seqZ. lia. Qed.

(** A pool and the pages its users hold. *)
Inductive step : t * gset Z → t * gset Z → Prop :=
  | step_allocate s al n a s' :
      0 < n → allocate n s = Ok (a, s') → step (s, al) (s', al ∪ pages (Z.shiftr a (pageShift s)) n)
  | step_deallocate s al x n s' :
      0 < n → pages x n ⊆ al → deallocate (Z.shiftl x (pageShift s)) n s = Ok s' →
      step (s, al) (s', al ∖ pages x n).

Record inv (ps start total : Z) (s : t) (al : gset Z) : Prop := {
  inv_shift : pageShift s = ps;
  inv_start : startPageNum s = start ∧ _totalPages s = total;
  inv_free : FreeList.wf (freePhysPages s);
  inv_parts x : start <= x < start + total ↔ FreeList.free (freePhysPages s) x ∨ x ∈ al;
  inv_apart x : x ∈ al → ¬ FreeList.free (freePhysPages s) x;
  inv_count : freePages s + Z.of_nat (size al) = total;
}.

Section Runs.

Context (ps start total : Z).
Context (Hps : 0 <= ps < 64) (Hpool : 0 <= start ∧ 0 < total ∧ (start + total) * 2 ^ ps < 2 ^ 64).

(** Pages have addresses. *)
Lemma page_address x : start <= x < start + total → u64 (Z.shiftl x ps) = x * 2 ^ ps ∧ Z.shiftr (x * 2 ^ ps) ps = x.
Proof using Hps Hpool.
  intros Hx. assert (0 < 2 ^ ps) by (apply Z.pow_pos_nonneg; lia). split.
  - rewrite Z.shiftl_mul_pow2 by lia. apply u64_small. unfold is_u64. nia.
  - rewrite Z.shiftr_div_pow2 by lia. apply Z.div_mul. lia.
Qed.

Lemma shiftr_shiftl_page x : Z.shiftr (Z.shiftl x ps) ps = x.
Proof using Hps. rewrite Z.shiftr_shiftl_l, Z.sub_diag by lia. apply Z.shiftl_0_r. Qed.

Lemma pool_proper x n : start <= x → 0 < n → x + n <= start + total → FreeList.proper (FreeList.mkRange x n).
Proof using Hps Hpool.
  intros ? ? ?. assert (0 < 2 ^ ps) by (apply Z.pow_pos_nonneg; lia). unfold FreeList.proper. simpl. nia.
Qed.

Lemma allocate_inv s al n :
  inv ps start total s al → 0 < n →
  (∃ x s', allocate n s = Ok (x * 2 ^ ps, s') ∧ Z.shiftr (x * 2 ^ ps) ps = x ∧
     (∀ y, x <= y < x + n → start <= y < start + total ∧ y ∉ al) ∧ inv ps start total s' (al ∪ pages x n)) ∨
  allocate n s = Fail FatalFailure ∧ Forall (λ r, FreeList.size r < n) (FreeList._ranges (freePhysPages s)).
Proof using Hps Hpool.
  intros [Hsh Hst Hfr Hparts Hap Hcnt] Hn. unfold allocate. pose proof (FreeList.allocate_ok n _ Hfr Hn) as Ha.
  destruct (FreeList.allocate n (freePhysPages s)) as [[[x|] f]|]; [| |done]; simpl.
  - left. destruct Ha as (Hwf & Hsz & Hfree & Hiff & _).
    assert (∀ y, x <= y < x + n → start <= y < start + total ∧ y ∉ al) as Hin.
    { intros y Hy. specialize (Hfree y Hy). split; [apply Hparts; by left|]. intros Hy'. by apply (Hap y). }
    destruct (page_address x) as [Hpa Hpa']; [apply Hin; lia|]. rewrite Hsh, Hpa.
    exists x, (set_free f s). split; [done|]. split; [done|]. split; [done|]. constructor; simpl; try done.
    + intros y. rewrite Hiff, Hparts, elem_of_union, elem_of_pages. specialize (Hfree y).
      destruct (decide (x <= y < x + n)); tauto.
    + intros y. rewrite Hiff, elem_of_union, elem_of_pages. specialize (Hap y). tauto.
    + assert (al ## pages x n) by (intros y Hy Hy'%elem_of_pages; by apply (Hin y Hy')).
      unfold freePages in *. simpl. rewrite size_union, Nat2Z.inj_add, size_pages by (done || lia). lia.
  - right. by destruct Ha as [-> ?].
Qed.

Lemma deallocate_inv s al x n :
  inv ps start total s al → 0 < n → pages x n ⊆ al →
  ∃ s', deallocate (Z.shiftl x ps) n s = Ok s' ∧ inv ps start total s' (al ∖ pages x n).
Proof using Hps Hpool.
  intros [Hsh Hst Hfr Hparts Hap Hcnt] Hn Hsub. unfold deallocate. rewrite Hsh, shiftr_shiftl_page.
  assert (∀ y, x <= y < x + n → y ∈ al) as Hin by (intros y Hy; apply Hsub, elem_of_pages; lia).
  assert (∀ y, x <= y < x + n → start <= y < start + total) as Hr by (intros y Hy; apply Hparts; right; by apply Hin).
  destruct (FreeList.insert_ok x n (freePhysPages s) Hfr) as (f & -> & Hwf & Hsz & Hiff).
  { pose proof (Hr x ltac:(lia)). pose proof (Hr (x + n - 1) ltac:(lia)). apply pool_proper; lia. }
  { intros y Hy. by apply Hap, Hin. }
  rewrite res_bind_Ok. eexists. split; [done|]. constructor; simpl; try done.
  - intros y. rewrite Hiff, Hparts, elem_of_difference, elem_of_pages. specialize (Hin y).
    destruct (decide (x <= y < x + n)); tauto.
  - intros y. rewrite Hiff, elem_of_difference, elem_of_pages. specialize (Hap y). tauto.
  - unfold freePages in *. simpl. pose proof (size_pages x n ltac:(lia)).
    rewrite size_difference by done. pose proof (subseteq_size _ _ Hsub). lia.
Qed.

Lemma deallocate_twice s al x n y :
  inv ps start total s al → start <= x → 0 < n → x + n <= start + total → x <= y < x + n → y ∉ al →
  deallocate (Z.shiftl x ps) n s = Fail PanicFailure.
Proof using Hps Hpool.
  intros [Hsh Hst Hfr Hparts Hap Hcnt] Hx Hn Hle Hy Hna. unfold deallocate. rewrite Hsh, shiftr_shiftl_page.
  rewrite (FreeList.insert_double x n _ y Hfr); [done|by apply pool_proper|done|].
  destruct (proj1 (Hparts y) ltac:(lia)); [done|done].
Qed.

Lemma step_inv s al s' al' : inv ps start total s al → step (s, al) (s', al') → inv ps start total s' al'.
Proof using Hps Hpool.
  intros Hi Hst. inversion Hst as [? ? n a ? Hn Ha|? ? x n ? Hn Hsub Hd]; subst.
  - destruct (allocate_inv s al n Hi Hn) as [(x & s2 & H & Hx & _ & Hi')|[H _]]; rewrite Ha in H; [|done].
    injection H as -> ->. by rewrite (inv_shift _ _ _ _ _ Hi), Hx.
  - destruct (deallocate_inv s al x n Hi Hn Hsub) as (s2 & H & Hi'). rewrite (inv_shift _ _ _ _ _ Hi), H in Hd.
    by injection Hd as ->.
Qed.

Lemma pool_runs_inv c c' : rtc step c c' → inv ps start total c.1 c.2 → inv ps start total c'.1 c'.2.
Proof using Hps Hpool. induction 1 as [|[s al] [s' al'] c' Hst _ IH]; [done|]. intros Hi. by apply IH, (step_inv s al). Qed.

End Runs.

(** A pool over memory that holds at least one page. *)
Lemma pool_create_inv page_shift ptr limit :
  0 <= page_shift < 64 → 0 <= ptr → limit < 2 ^ 64 → 2 ^ page_shift <= limit - ptr →
  let start := Z.shiftr ptr page_shift in let total := Z.shiftr (limit - ptr) page_shift in
  (0 <= start ∧ 0 < total ∧ (start + total) * 2 ^ page_shift < 2 ^ 64) ∧
  ∃ s, create page_shift ptr limit = Ok s ∧ inv page_shift start total s ∅.
Proof.
  intros Hps Hptr Hlim Hle start total. assert (0 < 2 ^ page_shift) as Hpos by (apply Z.pow_pos_nonneg; lia).
  assert (0 <= start ∧ 0 < total ∧ (start + total) * 2 ^ page_shift < 2 ^ 64) as Hpool.
  { unfold start, total. rewrite !Z.shiftr_div_pow2 by lia.
    pose proof (Z.div_str_pos (limit - ptr) (2 ^ page_shift) ltac:(lia)). pose proof (Z.div_pos ptr (2 ^ page_shift) ltac:(lia) Hpos).
    pose proof (Z.mul_div_le ptr (2 ^ page_shift) Hpos). pose proof (Z.mul_div_le (limit - ptr) (2 ^ page_shift) Hpos). nia. }
  split; [done|]. unfold create. rewrite u64_small by (unfold is_u64; lia). fold start total.
  destruct (FreeList.insert_ok start total FreeList.empty) as (f & Hf & Hwf & Hsz & Hiff).
  - by constructor; [constructor|constructor|].
  - apply (pool_proper page_shift start total Hps Hpool); lia.
  - intros x _ (r & ?%not_elem_of_nil & _). done.
  - unfold FreeList.create. rewrite Hf, res_bind_Ok. eexists. split; [done|]. constructor; simpl; try done.
    + intros x. rewrite Hiff. split; [by left; right|]. intros [[(r & ?%not_elem_of_nil & _)|?]|?%not_elem_of_empty]; done.
    + etransitivity; [apply Z.add_0_r|exact Hsz].
Qed.

(** C27: in every run of a pool of physical pages, where users only give back pages
    they hold, no page is held twice and all are in the pool; an allocation gives
    out pages nobody holds, at the address of the first, and is a fatal error only
    if no free range is large enough; giving back held pages succeeds, giving back
    others of the pool panics; and the counters are right. *)
Theorem mem_pool_runs ps ptr limit s0 s al :
  0 <= ps < 64 → 0 <= ptr → limit < 2 ^ 64 → 2 ^ ps <= limit - ptr →
  create ps ptr limit = Ok s0 → rtc step (s0, ∅) (s, al) →
  let first := Z.shiftr ptr ps in let last := first + Z.shiftr (limit - ptr) ps in
  (∀ x, x ∈ al → first <= x < last) ∧
  totalPages s = last - first ∧ allocatedPages s = Z.of_nat (size al) ∧
  (∀ n, 0 < n →
     (∃ x s', allocate n s = Ok (x * 2 ^ ps, s') ∧ ∀ y, x <= y < x + n → first <= y < last ∧ y ∉ al) ∨
     allocate n s = Fail FatalFailure ∧ Forall (λ r, FreeList.size r < n) (FreeList._ranges (freePhysPages s))) ∧
  (∀ x n, 0 < n → pages x n ⊆ al → ∃ s', deallocate (Z.shiftl x ps) n s = Ok s') ∧
  (∀ x n y, first <= x → x + n <= last → x <= y < x + n → y ∉ al →
     deallocate (Z.shiftl x ps) n s = Fail PanicFailure).
Proof.
  intros Hps Hptr Hlim Hle Hc Hr first last. destruct (pool_create_inv ps ptr limit) as (Hpool & s1 & Hs1 & Hi0); try done.
  rewrite Hc in Hs1. injection Hs1 as <-. fold first in Hpool, Hi0. set (total := Z.shiftr (limit - ptr) ps) in *.
  pose proof (pool_runs_inv ps first total Hps Hpool _ _ Hr Hi0) as Hi. simpl in Hi. split_and!.
  - intros x Hx. apply (inv_parts _ _ _ _ _ Hi). by right.
  - unfold totalPages, last. rewrite (proj2 (inv_start _ _ _ _ _ Hi)). lia.
  - unfold allocatedPages, totalPages. rewrite (proj2 (inv_start _ _ _ _ _ Hi)).
    pose proof (inv_count _ _ _ _ _ Hi). lia.
  - intros n Hn. destruct (allocate_inv ps first total Hps Hpool s al n Hi Hn) as [(x & s' & ? & _ & ? & _)|?]; [left|by right].
    eauto.
  - intros x n Hn Hsub. destruct (deallocate_inv ps first total Hps Hpool s al x n Hi Hn Hsub) as (s' & ? & _). eauto.
  - intros x n y Hx Hle' Hy Hna. apply (deallocate_twice ps first total Hps Hpool s al x n y); try done; lia.
Qed.

(** The pool over the first memory of the hybrid memory configuration, after the
    allocation of 3 pages. *)
Lemma mem_pool_runs_witness :
  ∃ s0 s a, create 12 0x80000000 0x80010000 = Ok s0 ∧ allocate 3 s0 = Ok (a, s) ∧
    allocatedPages s = 3 ∧ deallocate (Z.shiftl 0x80008 12) 1 s = Fail PanicFailure.
Proof.
  destruct (create 12 0x80000000 0x80010000) as [s0|] eqn:Hc; [|vm_compute in Hc; discriminate Hc].
  destruct (allocate 3 s0) as [[a s]|] eqn:Ha; [|vm_compute in Hc; injection Hc as <-; vm_compute in Ha; discriminate Ha].
  assert (rtc step (s0, ∅) (s, ∅ ∪ pages (Z.shiftr a (pageShift s0)) 3)) as Hr.
  { apply rtc_once. apply step_allocate; [lia|exact Ha]. }
  assert (Z.shiftr a (pageShift s0) = 0x80000) as Hp.
  { vm_compute in Hc. injection Hc as <-. vm_compute in Ha. injection Ha as <- <-. reflexivity. }
  destruct (mem_pool_runs 12 0x80000000 0x80010000 s0 s _ ltac:(lia) ltac:(lia) ltac:(lia) ltac:(lia) Hc Hr)
    as (_ & _ & Hn & _ & _ & Hd).
  exists s0, s, a. split; [reflexivity|]. split; [exact Ha|]. split.
  - rewrite Hn, Hp. vm_compute. reflexivity.
  - apply (Hd _ _ 0x80008); [vm_compute; discriminate|vm_compute; discriminate|lia|].
    rewrite Hp, elem_of_union, elem_of_pages. intros [?%not_elem_of_empty|?]; [done|lia].
Defined.

End MemPool.
