(* ===== verification/Vma.v ===== *)
(** Virtual memory areas ([sim/vma.{hh,cc}]): address ranges of a process, each backed
    by part of a host file or by zeros. *)

From S2P Require Import Prelude Bits AddrRange Host.
Import Host.

Module VMA.

(** A file of the host: where its contents are, and [st_size]. *)
Record file := mkFile { contents : ptr; st_size : Z }.

Record MappedFileBuffer := mkBuffer { _buffer : ptr; _length : Z; _offset : Z }.

(** [MappedFileBuffer(fd, length, offset)]; the host's [mmap] succeeds. *)
Definition map_file (f : file) (length offset : Z) : res MappedFileBuffer :=
  panic_unless! (negb (length =? 0));
  panic_unless! (offset <=? st_size f);
  let length := Z.min (u64 (st_size f - offset)) length in
  panic_unless! (negb (length =? 0));
  Ok (mkBuffer (ptr_add (contents f) offset) length offset).

(** The name, which is used for output only, is left out. *)
Record t := mk {
  _addrRange : AddrRange.t;
  _pageBytes : Z;
  _origHostBuf : option MappedFileBuffer;
  _hostBuf : option ptr;
  _hostBufLen : Z;
}.

Definition start (v : t) : Z := AddrRange._start (_addrRange v).
Definition end_ (v : t) : Z := AddrRange._end (_addrRange v).

Definition sanityCheck (v : t) : res t :=
  assert! (negb (start v =? end_ v));
  assert! (start v <? end_ v);
  assert! (start v mod _pageBytes v =? 0);
  assert! (end_ v mod _pageBytes v =? 0);
  Ok v.

Definition hasHostBuf (v : t) : bool := if _origHostBuf v then true else false.

Definition getFileMappingOffset (v : t) : Z :=
  match _origHostBuf v with Some f => _offset f | None => 0 end.

(** [VMA(r, page_bytes, name, fd, off)], with the file the descriptor is open on. *)
Definition create (r : AddrRange.t) (page_bytes : Z) (fd : option file) (off : Z) : res t :=
  match fd with
  | Some f =>
      b ← map_file f (AddrRange.size r) off;
      sanityCheck (mk r page_bytes (Some b) (Some (_buffer b)) (_length b))
  | None => sanityCheck (mk r page_bytes None None 0)
  end.

Definition set_range (r : AddrRange.t) (v : t) : t :=
  mk r (_pageBytes v) (_origHostBuf v) (_hostBuf v) (_hostBufLen v).

Definition remap (new_start : Z) (v : t) : res t :=
  sanityCheck (set_range (AddrRange.plain new_start (u64 (new_start + AddrRange.size (_addrRange v)))) v).

Definition isStrictSuperset (r : AddrRange.t) (v : t) : bool :=
  (start v <? AddrRange._start r) && (AddrRange._end r <? end_ v).

Definition intersects (r : AddrRange.t) (v : t) : res bool := AddrRange.intersects (_addrRange v) r.
Definition isSubset (r : AddrRange.t) (v : t) : res bool := AddrRange.isSubset (_addrRange v) r.
Definition contains (a : Z) (v : t) : bool := AddrRange.contains (_addrRange v) a.

(** Remove the part of the area right of an address. *)
Definition sliceRegionRight (slice_addr : Z) (v : t) : res t :=
  let len := if hasHostBuf v then Z.min (_hostBufLen v) (u64 (slice_addr - start v)) else _hostBufLen v in
  sanityCheck (mk (AddrRange.plain (start v) slice_addr) (_pageBytes v) (_origHostBuf v) (_hostBuf v) len).

(** Remove the part left of an address. When nothing of the file is left the buffer
    is dropped; what the source then adds to its null pointer is never used. *)
Definition sliceRegionLeft (slice_addr : Z) (v : t) : res t :=
  let r := AddrRange.plain slice_addr (end_ v) in
  if hasHostBuf v then
    let overlap_len := u64 (slice_addr - start v) in
    if _hostBufLen v <=? overlap_len
    then sanityCheck (mk r (_pageBytes v) None None 0)
    else sanityCheck (mk r (_pageBytes v) (_origHostBuf v)
                        ((λ p, ptr_add p overlap_len) <$> _hostBuf v) (u64 (_hostBufLen v - overlap_len)))
  else sanityCheck (set_range r v).

(** ** Lists of areas *)

(** The loop of [MemState::unmapRegion], over the areas that are left. *)
Fixpoint unmap_loop (r : AddrRange.t) (l : list t) : res (list t) :=
  match l with
  | [] => Ok []
  | v :: l =>
      if isStrictSuperset r v then
        clone ← sliceRegionRight (AddrRange._start r) v;
        v ← sliceRegionLeft (AddrRange._end r) v;
        Ok (v :: l ++ [clone])
      else
        sub ← isSubset r v;
        if sub : bool then unmap_loop r l else
        i ← intersects r v;
        v ← (if i : bool then
               if start v <? AddrRange._start r then sliceRegionRight (AddrRange._start r) v
               else sliceRegionLeft (AddrRange._end r) v
             else Ok v);
        l ← unmap_loop r l;
        Ok (v :: l)
  end.

(** The loop of [MemState::remapRegion]; the clones it appends are visited too. *)
Fixpoint remap_loop (fuel : nat) (r : AddrRange.t) (new_start : Z) (l : list t) : res (list t) :=
  match l with
  | [] => Ok []
  | v :: l =>
      match fuel with
      | O => Fail OutOfFuel
      | S fuel =>
          if isStrictSuperset r v then
            c1 ← sliceRegionRight (AddrRange._start r) v;
            c2 ← sliceRegionLeft (AddrRange._end r) v;
            v ← sliceRegionLeft (AddrRange._start r) v;
            v ← sliceRegionRight (AddrRange._end r) v;
            v ← remap new_start v;
            Ok (v :: l ++ [c1; c2])
          else
            sub ← isSubset r v;
            if sub : bool then
              v ← remap (u64 (start v - AddrRange._start r + new_start)) v;
              l ← remap_loop fuel r new_start l;
              Ok (v :: l)
            else
              i ← intersects r v;
              if i : bool then
                if start v <? AddrRange._start r then
                  c ← sliceRegionRight (AddrRange._start r) v;
                  v ← sliceRegionLeft (AddrRange._start r) v;
                  v ← remap new_start v;
                  l ← remap_loop fuel r new_start (l ++ [c]);
                  Ok (v :: l)
                else
                  c ← sliceRegionLeft (AddrRange._end r) v;
                  v ← sliceRegionRight (AddrRange._end r) v;
                  v ← remap (u64 (new_start + start v - AddrRange._start r)) v;
                  l ← remap_loop fuel r new_start (l ++ [c]);
                  Ok (v :: l)
              else l ← remap_loop fuel r new_start l; Ok (v :: l)
      end
  end.

(** ** Areas *)

(** The byte of the host behind an address of an area, if it is not zero-filled. *)
Definition backing (v : t) (x : Z) : option ptr :=
  if hasHostBuf v && (x - start v <? _hostBufLen v) then (λ p, ptr_add p (x - start v)) <$> _hostBuf v else None.

Definition inside (v : t) (x : Z) : Prop := start v <= x < end_ v.

(** What slicing keeps is kept of the areas that are left. *)
Lemma unmap_loop_Forall (P : t → Prop) r l l' :
  (∀ a v w, P v → sliceRegionRight a v = Ok w → P w) → (∀ a v w, P v → sliceRegionLeft a v = Ok w → P w) →
  Forall P l → unmap_loop r l = Ok l' → Forall P l'.
Proof.
  intros Hr Hl HP. revert l'. induction HP as [|v l Hv HP IH]; intros l'; cbn [unmap_loop]; [by intros [= <-]|].
  destruct (isStrictSuperset r v).
  - intros H. inv_res H. constructor; [by eapply Hl|]. apply Forall_app. split; [done|]. constructor; [by eapply Hr|done].
  - intros (sub & _ & H)%bind_Ok. destruct sub; [by apply IH|]. apply bind_Ok in H as (i & _ & H).
    apply bind_Ok in H as (w & Hw & H). apply bind_Ok in H as (l2 & Hl2 & [= <-]). constructor; [|by apply IH].
    destruct i; [|by injection Hw as <-]. destruct (start v <? AddrRange._start r); [by eapply Hr|by eapply Hl].
Qed.

Lemma remap_loop_Forall (P : t → Prop) r ns fuel l l' :
  (∀ a v w, P v → sliceRegionRight a v = Ok w → P w) → (∀ a v w, P v → sliceRegionLeft a v = Ok w → P w) →
  (∀ a v w, P v → remap a v = Ok w → P w) → Forall P l → remap_loop fuel r ns l = Ok l' → Forall P l'.
Proof.
  intros Hr Hl Hm. revert l l'. induction fuel as [|fuel IH]; intros [|v l] l' HP; cbn [remap_loop]; try by intros [= <-].
  apply Forall_cons_1 in HP as [Hv HP]. destruct (isStrictSuperset r v).
  - intros H. inv_res H. constructor; [eauto|]. apply Forall_app. split; [done|]. repeat (constructor; [eauto|]). constructor.
  - intros (sub & _ & H)%bind_Ok. destruct sub; [inv_res H; constructor; eauto|]. apply bind_Ok in H as (i & _ & H).
    destruct i; [|inv_res H; constructor; eauto]. destruct (start v <? AddrRange._start r); inv_res H;
      (constructor; [eauto|]); (eapply IH; [|eassumption]); apply Forall_app; (split; [done|]); by constructor; eauto.
Qed.

Section Areas.
Context (pb : Z) (Hpb : 0 < pb).

Definition aligned (a : Z) : Prop := a mod pb = 0.

Record ok (v : t) : Prop := {
  ok_range : _addrRange v = AddrRange.plain (start v) (end_ v);
  ok_bounds : 0 <= start v < end_ v;
  ok_top : end_ v < 2 ^ 64;
  ok_page : _pageBytes v = pb;
  ok_start : aligned (start v);
  ok_end : aligned (end_ v);
  ok_len : 0 <= _hostBufLen v < 2 ^ 64;
}.

Lemma contains_inside v x : ok v → contains x v = true ↔ inside v x.
Proof. intros Hv. unfold contains. rewrite (ok_range _ Hv). apply AddrRange.contains_plain. Qed.

Lemma sanityCheck_ok v : ok v → sanityCheck v = Ok v.
Proof.
  intros [_ Hb _ Hp Hs He _]. unfold sanityCheck, aligned in *. rewrite Hp, Hs, He.
  destruct (Z.eqb_spec (start v) (end_ v)); [lia|]. destruct (Z.ltb_spec (start v) (end_ v)); [|lia]. done.
Qed.

(** An area that has been cut at an address, moved or left alone. *)
Lemma slice_right_ok a v :
  ok v → aligned a → start v < a <= end_ v →
  ∃ v', sliceRegionRight a v = Ok v' ∧ ok v' ∧ start v' = start v ∧ end_ v' = a ∧
    ∀ x, start v <= x < a → backing v' x = backing v x.
Proof.
  intros [Hr Hb Ht Hp Hs He Hl] Ha Hle. unfold sliceRegionRight.
  rewrite (u64_small (a - start v)) by (unfold is_u64; lia). set (v' := mk _ _ _ _ _).
  assert (start v' = start v) as Hs' by done. assert (end_ v' = a) as He' by done.
  assert (ok v') as Hv'.
  { constructor; rewrite ?Hs', ?He'; try done; [lia|lia|]. simpl. destruct (hasHostBuf v); lia. }
  exists v'. split; [by apply sanityCheck_ok|]. split; [done|]. split; [done|]. split; [done|].
  intros x Hx. unfold backing. rewrite Hs'. unfold v', hasHostBuf. simpl. destruct (_origHostBuf v); [|done].
  simpl. do 2 case_match; (done || lia).
Qed.

Lemma slice_left_ok a v :
  ok v → aligned a → start v <= a < end_ v →
  ∃ v', sliceRegionLeft a v = Ok v' ∧ ok v' ∧ start v' = a ∧ end_ v' = end_ v ∧
    ∀ x, a <= x < end_ v → backing v' x = backing v x.
Proof.
  intros [Hr Hb Ht Hp Hs He Hl] Ha Hle. unfold sliceRegionLeft, set_range.
  rewrite (u64_small (a - start v)) by (unfold is_u64; lia).
  assert (∀ v' : t, _addrRange v' = AddrRange.plain a (end_ v) → _pageBytes v' = pb →
    0 <= _hostBufLen v' < 2 ^ 64 → (∀ x, a <= x < end_ v → backing v' x = backing v x) →
    ∃ w, sanityCheck v' = Ok w ∧ ok w ∧ start w = a ∧ end_ w = end_ v ∧
      ∀ x, a <= x < end_ v → backing w x = backing v x) as Hok.
  { intros v' Hr' Hp' Hl' Hb'.
    assert (start v' = a) as Hs' by (unfold start; by rewrite Hr').
    assert (end_ v' = end_ v) as He' by (unfold end_; by rewrite Hr').
    assert (ok v') by (constructor; rewrite ?Hs', ?He'; try done; lia).
    exists v'. split; [by apply sanityCheck_ok|done]. }
  unfold hasHostBuf. destruct (_origHostBuf v) as [f|] eqn:Ho; [|apply Hok; try done].
  - destruct (Z.leb_spec (_hostBufLen v) (a - start v)).
    + apply Hok; [done|done|simpl; lia|]. intros x Hx. unfold backing, hasHostBuf. rewrite Ho. simpl. case_match; (done || lia).
    + rewrite (u64_small (_hostBufLen v - (a - start v))) by (unfold is_u64; lia).
      apply Hok; [done|done|simpl; lia|]. intros x Hx. unfold backing, hasHostBuf. rewrite Ho. simpl.
      replace (start (mk _ _ _ _ _)) with a by done. do 2 case_match; try (done || lia).
      destruct (_hostBuf v) as [p|]; [|done]. simpl. rewrite ptr_add_add. do 2 f_equal. lia.
  - intros x Hx. unfold backing, hasHostBuf. simpl. by rewrite Ho.
Qed.

Lemma remap_ok a v :
  ok v → aligned a → 0 <= a → a + (end_ v - start v) < 2 ^ 64 →
  ∃ v', remap a v = Ok v' ∧ ok v' ∧ start v' = a ∧ end_ v' = a + (end_ v - start v) ∧
    ∀ x, backing v' x = backing v (x - a + start v).
Proof using Hpb.
  intros [Hr Hb Ht Hp Hs He Hl] Ha Ha0 Htop. unfold remap, set_range.
  assert (AddrRange.size (_addrRange v) = end_ v - start v) as ->.
  { unfold AddrRange.size, AddrRange.nmasks. rewrite Hr. simpl. rewrite u64_small by (unfold is_u64; lia). done. }
  rewrite u64_small by (unfold is_u64; lia). set (v' := mk _ _ _ _ _).
  assert (start v' = a) as Hs' by done. assert (end_ v' = a + (end_ v - start v)) as He' by done.
  assert (ok v').
  { constructor; rewrite ?Hs', ?He'; try done; [lia|]. unfold aligned in *.
    rewrite Z.add_mod, Zminus_mod, Ha, Hs, He by lia. done. }
  exists v'. split; [by apply sanityCheck_ok|]. split; [done|]. split; [done|]. split; [done|].
  intros x. unfold backing. rewrite Hs'. by replace (x - a + start v - start v) with (x - a) by lia.
Qed.

(** ** Lists of areas as maps of addresses *)

(** Some area has the address, backed by [b]. *)
Definition maps (l : list t) (x : Z) (b : option ptr) : Prop := ∃ v, v ∈ l ∧ inside v x ∧ backing v x = b.

Definition mapped (l : list t) (x : Z) : Prop := ∃ v, v ∈ l ∧ inside v x.

Lemma maps_cons v l x b : maps (v :: l) x b ↔ (inside v x ∧ backing v x = b) ∨ maps l x b.
Proof. unfold maps. setoid_rewrite elem_of_cons. naive_solver. Qed.

Lemma maps_app l l' x b : maps (l ++ l') x b ↔ maps l x b ∨ maps l' x b.
Proof. unfold maps. setoid_rewrite elem_of_app. naive_solver. Qed.

Lemma maps_nil x b : maps [] x b ↔ False.
Proof. split; [|done]. intros (v & []%elem_of_nil & _). Qed.

Lemma mapped_maps l x : mapped l x ↔ ∃ b, maps l x b.
Proof. unfold mapped, maps. naive_solver. Qed.

(** No address is in two areas. *)
Fixpoint apart (l : list t) : Prop :=
  match l with
  | [] => True
  | v :: l => (∀ x, inside v x → ¬ mapped l x) ∧ apart l
  end.

Lemma mapped_cons v l x : mapped (v :: l) x ↔ inside v x ∨ mapped l x.
Proof. unfold mapped. setoid_rewrite elem_of_cons. naive_solver. Qed.

Lemma mapped_app l l' x : mapped (l ++ l') x ↔ mapped l x ∨ mapped l' x.
Proof. unfold mapped. setoid_rewrite elem_of_app. naive_solver. Qed.

Lemma mapped_one v x : mapped [v] x ↔ inside v x.
Proof. unfold mapped. setoid_rewrite list_elem_of_singleton. naive_solver. Qed.

Lemma apart_app l l' : apart l → apart l' → (∀ x, mapped l x → ¬ mapped l' x) → apart (l ++ l').
Proof.
  induction l as [|v l IH]; [done|]. intros [Hv Hl] Hl' Hd. simpl. split.
  - intros x Hx [Hm|Hm]%mapped_app; [by apply (Hv x)|]. apply (Hd x); [apply mapped_cons; by left|done].
  - apply IH; [done..|]. intros x Hx. apply Hd. apply mapped_cons. by right.
Qed.

(** A list of areas of a process. *)
Definition wf (l : list t) : Prop := Forall ok l ∧ apart l.

Lemma isSubset_plain s e v :
  ok v → s < e → isSubset (AddrRange.plain s e) v = Ok ((s <=? start v) && (end_ v <=? e)).
Proof.
  intros Hv He. unfold isSubset. rewrite (ok_range _ Hv). unfold AddrRange.isSubset. simpl.
  pose proof (ok_bounds _ Hv). destruct (Z.leb_spec (end_ v) (start v)); [lia|]. by destruct (Z.leb_spec e s); [lia|].
Qed.

Lemma intersects_plain s e v :
  ok v → intersects (AddrRange.plain s e) v = Ok ((s <? end_ v) && (start v <? e)).
Proof.
  intros Hv. unfold intersects. rewrite (ok_range _ Hv). unfold AddrRange.intersects. simpl.
  destruct (Z.leb_spec e (start v)), (Z.leb_spec (end_ v) s); simpl;
    destruct (Z.ltb_spec s (end_ v)), (Z.ltb_spec (start v) e); (done || lia).
Qed.

Lemma apart_perm l l' : l ≡ₚ l' → apart l → apart l'.
Proof.
  assert (∀ l l' x, l ≡ₚ l' → mapped l x → mapped l' x) as Hm.
  { intros k k' x Hp (v & Hv & Hx). exists v. by rewrite <-Hp. }
  induction 1 as [|v l l' Hp IH|v w l|l1 l2 l3 _ IH1 _ IH2]; simpl; [done|..].
  - intros [Hv Hl]. split; [|by apply IH]. intros x Hx Hl'. by apply (Hv x Hx), (Hm l').
  - intros (Hv & Hw & Hl). split_and!; [|intros x Hx Hl'|done].
    + intros x Hx [Hx'|Hx']%mapped_cons; [|by apply (Hw x)]. apply (Hv x Hx'), mapped_cons. by left.
    + apply (Hv x Hx), mapped_cons. by right.
  - auto.
Qed.

Lemma wf_perm l l' : l ≡ₚ l' → wf l → wf l'.
Proof. intros Hp [Hok Hap]. split; [by rewrite <-Hp|by eapply apart_perm]. Qed.

Lemma maps_perm l l' x b : l ≡ₚ l' → maps l x b ↔ maps l' x b.
Proof. intros Hp. unfold maps. by setoid_rewrite Hp. Qed.

(** What is left of an area. *)
Definition pieces (P : Z → Prop) (v : t) (ws : list t) : Prop :=
  wf ws ∧ ∀ x b, maps ws x b ↔ inside v x ∧ P x ∧ backing v x = b.

Lemma pieces_cons P v ws l l' :
  (∀ x, inside v x → ¬ mapped l x) → pieces P v ws → wf l' →
  (∀ x b, maps l' x b ↔ maps l x b ∧ P x) →
  wf (ws ++ l') ∧ ∀ x b, maps (ws ++ l') x b ↔ maps (v :: l) x b ∧ P x.
Proof.
  intros Hd [[Hok Hap] Hw] [Hok' Hap'] Hl. split; [split|].
  - by apply Forall_app.
  - apply apart_app; [done..|]. intros x [b Hb]%mapped_maps [b' Hb']%mapped_maps.
    apply Hw in Hb as (Hx & _). apply Hl in Hb' as [Hb' _]. apply (Hd x Hx), mapped_maps. eauto.
  - intros x b. rewrite maps_app, Hw, Hl, maps_cons. tauto.
Qed.

Lemma piece_one P v w :
  ok w → (∀ x, inside w x ↔ inside v x ∧ P x) → (∀ x, inside w x → backing w x = backing v x) → pieces P v [w].
Proof.
  intros Hw Hi Hb. split.
  - split; [constructor; [done|constructor]|]. simpl. split; [|done]. intros x _ (? & []%elem_of_nil & _).
  - intros x b. rewrite maps_cons, maps_nil. split.
    + intros [[Hx <-]|[]]. pose proof (proj1 (Hi x) Hx) as [? ?]. by rewrite Hb.
    + intros (Hx & HP & <-). left. assert (inside w x) as Hwx by by apply Hi. by rewrite Hb.
Qed.

Lemma pieces_app P Q v ws ws' :
  pieces P v ws → pieces Q v ws' → (∀ x, P x → ¬ Q x) → pieces (λ x, P x ∨ Q x) v (ws ++ ws').
Proof.
  intros [[Hok Hap] Hw] [[Hok' Hap'] Hw'] Hd. split; [split|].
  - by apply Forall_app.
  - apply apart_app; [done..|]. intros x [b Hb]%mapped_maps [b' Hb']%mapped_maps.
    apply Hw in Hb as (_ & HP & _). apply Hw' in Hb' as (_ & HQ & _). by apply (Hd x).
  - intros x b. rewrite maps_app, Hw, Hw'. tauto.
Qed.

Lemma pieces_ext P Q v ws : (∀ x, inside v x → P x ↔ Q x) → pieces P v ws → pieces Q v ws.
Proof. intros He [Hw Hm]. split; [done|]. intros x b. rewrite Hm. specialize (He x). tauto. Qed.

Lemma right_piece a v :
  ok v → aligned a → start v < a <= end_ v →
  ∃ w, sliceRegionRight a v = Ok w ∧ pieces (λ x, x < a) v [w] ∧ start w = start v ∧ end_ w = a.
Proof using Hpb.
  intros Hv Ha Hle. destruct (slice_right_ok a v Hv Ha Hle) as (w & -> & Hw & Hs & He & Hb).
  exists w. split; [done|]. split; [|done]. apply piece_one; [done|..]; unfold inside; rewrite Hs, He; [lia|].
  intros x Hx. apply Hb. lia.
Qed.

Lemma left_piece a v :
  ok v → aligned a → start v <= a < end_ v →
  ∃ w, sliceRegionLeft a v = Ok w ∧ pieces (λ x, a <= x) v [w] ∧ start w = a ∧ end_ w = end_ v.
Proof using Hpb.
  intros Hv Ha Hle. destruct (slice_left_ok a v Hv Ha Hle) as (w & -> & Hw & Hs & He & Hb).
  exists w. split; [done|]. split; [|done]. apply piece_one; [done|..]; unfold inside; rewrite Hs, He; [lia|].
  intros x Hx. apply Hb. lia.
Qed.

Section Range.
Context (s e : Z) (Hs : aligned s) (He : aligned e) (Hse : 0 <= s < e).

(** The addresses that are kept. *)
Definition outside (x : Z) : Prop := ¬ s <= x < e.

Lemma unmap_loop_ok l :
  wf l →
  ∃ l', unmap_loop (AddrRange.plain s e) l = Ok l' ∧ wf l' ∧ ∀ x b, maps l' x b ↔ maps l x b ∧ outside x.
Proof using Hpb Hs He Hse.
  induction l as [|v l IH]; intros [Hok Hap].
  { exists []. split; [done|]. split; [done|]. intros x b. rewrite maps_nil. tauto. }
  apply Forall_cons_1 in Hok as [Hv Hok]. destruct Hap as [Hd Hap]. cbn [unmap_loop].
  pose proof (ok_bounds _ Hv) as Hb. unfold isStrictSuperset. simpl.
  destruct (decide (start v < s ∧ e < end_ v)) as [[Hls Hle]|Hns].
  { rewrite (proj2 (Z.ltb_lt _ _) Hls), (proj2 (Z.ltb_lt _ _) Hle). simpl.
    destruct (right_piece s v Hv Hs) as (c & -> & Hc & _); [lia|]. rewrite res_bind_Ok.
    destruct (left_piece e v Hv He) as (w & -> & Hw & _); [lia|]. rewrite res_bind_Ok.
    eexists. split; [done|]. assert ([c] ++ [w] ++ l ≡ₚ w :: l ++ [c]) as Hp by (simpl; solve_Permutation).
    destruct (pieces_cons outside v ([c] ++ [w]) l l Hd) as [Hwf Hm].
    - eapply pieces_ext; [|by apply pieces_app; [done..|intros x; simpl; lia]]. intros x. unfold outside. simpl. lia.
    - done.
    - intros x b. split; [|tauto]. intros Hx. split; [done|]. intros Hr. apply (Hd x); [unfold inside; lia|].
      apply mapped_maps. eauto.
    - rewrite <-app_assoc in Hwf, Hm. split; [by eapply wf_perm|]. intros x b. by rewrite <-(maps_perm _ _ x b Hp). }
  replace ((start v <? s) && (e <? end_ v)) with false by lia.
  rewrite isSubset_plain, res_bind_Ok by (done || lia).
  destruct IH as (l' & Hl' & Hwf' & Hm'); [done|].
  destruct (decide (s <= start v ∧ end_ v <= e)) as [[Hss Hee]|Hnsub].
  { rewrite (proj2 (Z.leb_le _ _) Hss), (proj2 (Z.leb_le _ _) Hee). simpl. exists l'. split; [done|].
    apply (pieces_cons outside v [] l l' Hd); [|done..]. split; [done|]. intros x b. rewrite maps_nil.
    unfold inside, outside. lia. }
  replace ((s <=? start v) && (end_ v <=? e)) with false by lia.
  rewrite intersects_plain, res_bind_Ok by done.
  destruct (decide (s < end_ v ∧ start v < e)) as [[Hi Hi']|Hni].
  - rewrite (proj2 (Z.ltb_lt _ _) Hi), (proj2 (Z.ltb_lt _ _) Hi'). simpl.
    destruct (Z.ltb_spec (start v) s).
    + destruct (right_piece s v Hv Hs) as (c & -> & Hc & _); [lia|]. rewrite res_bind_Ok, Hl'. eexists. split; [done|].
      apply (pieces_cons outside v [c] l l' Hd); [|done..]. eapply pieces_ext; [|done]. unfold inside, outside. simpl. lia.
    + destruct (left_piece e v Hv He) as (c & -> & Hc & _); [lia|]. rewrite res_bind_Ok, Hl'. eexists. split; [done|].
      apply (pieces_cons outside v [c] l l' Hd); [|done..]. eapply pieces_ext; [|done]. unfold inside, outside. simpl. lia.
  - replace ((s <? end_ v) && (start v <? e)) with false by lia. rewrite res_bind_Ok, Hl'. eexists. split; [done|].
    apply (pieces_cons outside v [v] l l' Hd); [|done..]. apply piece_one; [done| |done]. unfold inside, outside. lia.
Qed.

(** ** Moving a range *)

Context (ns : Z) (Hns : aligned ns) (Hns0 : 0 <= ns) (Htop : ns + (e - s) < 2 ^ 64).

Definition target (x : Z) : Prop := ns <= x < ns + (e - s).

(** The areas [l] with the range moved to [ns]. *)
Definition shifted (l : list t) (x : Z) (b : option ptr) : Prop :=
  (maps l x b ∧ outside x) ∨ (target x ∧ maps l (x - ns + s) b).

(** [w] is the part of [v] in the range, moved. *)
Record moved (v w : t) : Prop := {
  mv_ok : ok w;
  mv_inside x : inside w x ↔ target x ∧ inside v (x - ns + s);
  mv_backing x : inside w x → backing w x = backing v (x - ns + s);
}.

Lemma remap_moved v p a :
  ok p → (∀ x, inside p x ↔ inside v x ∧ s <= x < e) → (∀ x, inside p x → backing p x = backing v x) →
  a = ns + (start p - s) → ∃ w, remap a p = Ok w ∧ moved v w.
Proof using Hpb Hs Hns Hns0 Htop.
  intros Hp Hi Hb ->. pose proof (ok_bounds _ Hp) as Hbd.
  assert (s <= start p ∧ end_ p <= e) as [Hsp Hep].
  { pose proof (Hi (start p)) as H1. pose proof (Hi (end_ p - 1)) as H2. unfold inside in H1, H2. lia. }
  destruct (remap_ok (ns + (start p - s)) p Hp) as (w & -> & Hw & Hws & Hwe & Hwb); [|lia|lia|].
  { unfold aligned in *. rewrite Z.add_mod, Zminus_mod, Hns, Hs, (ok_start _ Hp) by lia. done. }
  exists w. split; [done|]. assert (∀ x, inside w x ↔ inside p (x - ns + s)) as Hwp.
  { intros x. unfold inside. rewrite Hws, Hwe. lia. }
  constructor; [done|..].
  - intros x. rewrite Hwp, Hi. unfold target. split; intros [? ?]; split; try done; lia.
  - intros x Hx. rewrite Hwb. replace (x - _ + start p) with (x - ns + s) by lia. by apply Hb, Hwp.
Qed.

Lemma shifted_rest v cs l x b :
  (∀ x, inside v x → ¬ mapped l x) → pieces outside v cs →
  shifted (l ++ cs) x b ↔ shifted l x b ∨ (inside v x ∧ outside x ∧ backing v x = b).
Proof.
  intros Hd [_ Hc]. unfold shifted. rewrite !maps_app, !Hc. unfold outside, target.
  split; [intros [[[?|?] ?]|[? [?|(_ & ? & _)]]]; [tauto..|lia]|]. tauto.
Qed.

Lemma remap_cons v w cs l l' :
  (∀ x, inside v x → ¬ mapped l x) → (∀ x, target x → ¬ mapped (v :: l) x) → moved v w →
  pieces outside v cs → wf l' → (∀ x b, maps l' x b ↔ shifted (l ++ cs) x b) →
  wf (w :: l') ∧ ∀ x b, maps (w :: l') x b ↔ shifted (v :: l) x b.
Proof.
  intros Hd Hnew [Hw Hwi Hwb] Hc [Hok Hap] Hl. split; [split|].
  - by constructor.
  - split; [|done]. intros x Hx [b Hb]%mapped_maps. apply Hl, (shifted_rest v) in Hb; [|done..].
    apply Hwi in Hx as [Ht Hx]. destruct Hb as [[[Hm _]|[_ Hm]]|(Hvx & _)].
    + apply (Hnew x Ht), mapped_cons. right. apply mapped_maps. eauto.
    + apply (Hd _ Hx), mapped_maps. eauto.
    + apply (Hnew x Ht), mapped_cons. by left.
  - intros x b. rewrite maps_cons, Hl, (shifted_rest v) by done. unfold shifted. rewrite !maps_cons. split.
    + intros [[Hx <-]|[?|?]]; [|tauto..]. rewrite Hwb by done. apply Hwi in Hx. tauto.
    + intros [[[?|?] ?]|[Ht [[Hx <-]|?]]]; [tauto..| |tauto]. left. assert (inside w x) by by apply Hwi.
      split; [done|]. by apply Hwb.
Qed.

Lemma remap_keep v l l' :
  (∀ x, inside v x → ¬ mapped l x) → (∀ x, target x → ¬ mapped (v :: l) x) → ok v →
  (∀ x, inside v x → outside x) → wf l' → (∀ x b, maps l' x b ↔ shifted l x b) →
  wf (v :: l') ∧ ∀ x b, maps (v :: l') x b ↔ shifted (v :: l) x b.
Proof.
  intros Hd Hnew Hv Ho [Hok Hap] Hl. split; [split|].
  - by constructor.
  - split; [|done]. intros x Hx [b [[Hm _]|[Ht _]]%Hl]%mapped_maps.
    + apply (Hd x Hx), mapped_maps. eauto.
    + apply (Hnew x Ht), mapped_cons. by left.
  - intros x b. rewrite maps_cons, Hl. unfold shifted. rewrite !maps_cons. split.
    + intros [[Hx <-]|[?|?]]; [|tauto..]. specialize (Ho x Hx). tauto.
    + intros [[[?|?] ?]|[Ht [[Hx <-]|?]]]; [tauto..| |tauto]. apply Ho in Hx. unfold outside, target in *. lia.
Qed.

(** The visits an area takes: its own, and that of its clone. *)
Definition visits (v : t) : nat := if (s <? end_ v) && (start v <? e) then 2 else 1.
Definition all_visits (l : list t) : nat := foldr (λ v n, (visits v + n)%nat) 0%nat l.

Lemma all_visits_app l l' : all_visits (l ++ l') = (all_visits l + all_visits l')%nat.
Proof. induction l as [|v l IH]; simpl; [done|]. rewrite IH. lia. Qed.

Lemma all_visits_le l : (all_visits l <= 2 * length l)%nat.
Proof. induction l as [|v l IH]; simpl; [lia|]. unfold visits. case_match; lia. Qed.

(** The areas have their range where it goes, and never overlap. *)
Definition remappable (l : list t) : Prop := wf l ∧ ∀ x, target x → ¬ mapped l x.

Lemma remappable_cons v l : remappable (v :: l) →
  ok v ∧ (∀ x, inside v x → ¬ mapped l x) ∧ (∀ x, target x → ¬ mapped (v :: l) x) ∧ remappable l.
Proof.
  intros [[[Hv Hok]%Forall_cons_1 [Hd Hap]] Ht]. split; [done|]. split; [done|]. split; [done|]. split; [done|].
  intros x Hx Hm. apply (Ht x Hx), mapped_cons. by right.
Qed.

Lemma remappable_clone v l c :
  remappable (v :: l) → pieces outside v [c] → remappable (l ++ [c]).
Proof.
  intros (Hv & Hd & Hn & [[Hok Hap] Ht])%remappable_cons [[Hokc Hapc] Hc].
  assert (∀ x, mapped [c] x → inside v x) as Hcv by (intros x [b Hb]%mapped_maps; by apply Hc in Hb as [? _]).
  split; [split|].
  - by apply Forall_app.
  - apply apart_app; [done..|]. intros x Hx Hx'. by apply (Hd x), Hx; apply Hcv.
  - intros x Htx [Hx|Hx]%mapped_app; [by apply (Ht x)|]. apply (Hn x Htx), mapped_cons. left. by apply Hcv.
Qed.

Lemma visits_clone v c : pieces outside v [c] → visits c = 1%nat.
Proof using Hse.
  intros [[[Hc _]%Forall_cons_1 _] Hm]. unfold visits. pose proof (ok_bounds _ Hc) as Hb.
  destruct (Z.ltb_spec s (end_ c)), (Z.ltb_spec (start c) e); try done. simpl.
  assert (inside c (Z.max s (start c))) as Hi by (unfold inside; lia).
  destruct (proj1 (Hm (Z.max s (start c)) (backing c (Z.max s (start c))))) as (_ & Ho & _).
  - apply maps_cons. by left.
  - unfold outside in Ho. lia.
Qed.

(** The area spans the whole range, which becomes one moved area and two clones. *)
Lemma remap_inside v l :
  remappable (v :: l) → start v < s → e < end_ v →
  ∃ c1 c2 p q w, sliceRegionRight s v = Ok c1 ∧ sliceRegionLeft e v = Ok c2 ∧ sliceRegionLeft s v = Ok p ∧
    sliceRegionRight e p = Ok q ∧ remap ns q = Ok w ∧
    wf (w :: l ++ [c1; c2]) ∧ ∀ x b, maps (w :: l ++ [c1; c2]) x b ↔ shifted (v :: l) x b.
Proof using Hpb Hs He Hse Hns Hns0 Htop.
  intros (Hv & Hd & Hn & [[Hok Hap] Ht])%remappable_cons Hls Hle.
  destruct (right_piece s v Hv Hs) as (c1 & Hc1 & Hp1 & _); [lia|].
  destruct (left_piece e v Hv He) as (c2 & Hc2 & Hp2 & _); [lia|].
  destruct (slice_left_ok s v Hv Hs) as (p & Hp & Hpok & Hps & Hpe & Hpb'); [lia|].
  destruct (slice_right_ok e p Hpok He) as (q & Hq & Hqok & Hqs & Hqe & Hqb); [lia|].
  destruct (remap_moved v q ns Hqok) as (w & Hw & Hm).
  { intros x. unfold inside. rewrite Hqs, Hqe, Hps. lia. }
  { intros x Hx. unfold inside in Hx. rewrite Hqs, Hqe, Hps in Hx. rewrite Hqb, Hpb' by lia. done. }
  { lia. }
  assert (pieces outside v [c1; c2]) as Hpc.
  { change [c1; c2] with ([c1] ++ [c2]). eapply pieces_ext; [|apply pieces_app; [done..|intros x; simpl; lia]].
    intros x. unfold outside. simpl. lia. }
  exists c1, c2, p, q, w. split_and!; try done. all: pose proof Hpc as [[Hokc Hapc] Hmc].
  all: assert (wf (l ++ [c1; c2])) as Hwf by (split; [by apply Forall_app|]; apply apart_app; [done..|];
    intros x Hx [b Hb]%mapped_maps; apply Hmc in Hb as [Hb _]; by apply (Hd x)).
  all: apply (remap_cons v w [c1; c2] l (l ++ [c1; c2])); try done.
  all: intros x b; unfold shifted; rewrite !maps_app, !Hmc.
  all: split; [intros [Hx|Hx]; left; (split; [tauto|]); [|tauto]; intros Hr; apply (Hd x); [unfold inside; lia|apply mapped_maps; eauto]|].
  all: intros [?|[Htx [Hx|(_ & Hx & _)]]]; [tauto| |unfold outside, target in *; lia].
  all: exfalso; apply (Hd (x - ns + s)); [unfold inside, target in *; lia|apply mapped_maps; eauto].
Qed.

Lemma remap_loop_ok fuel l :
  remappable l → (all_visits l <= fuel)%nat →
  ∃ l', remap_loop fuel (AddrRange.plain s e) ns l = Ok l' ∧ wf l' ∧ ∀ x b, maps l' x b ↔ shifted l x b.
Proof using Hpb Hs He Hse Hns Hns0 Htop.
  revert l. induction fuel as [|fuel IH]; intros [|v l] Hrm Hf;
    try (exists []; split; [done|]; split; [done|]; intros x b; unfold shifted; rewrite !maps_nil; tauto).
  { simpl in Hf. unfold visits in Hf. case_match; lia. }
  pose proof Hrm as (Hv & Hd & Hn & Hrl)%remappable_cons. pose proof (ok_bounds _ Hv) as Hb. pose proof (ok_top _ Hv).
  cbn [remap_loop]. unfold isStrictSuperset. cbn [AddrRange.plain AddrRange._start AddrRange._end].
  destruct (decide (start v < s ∧ e < end_ v)) as [[Hls Hle]|Hns'].
  { rewrite (proj2 (Z.ltb_lt _ _) Hls), (proj2 (Z.ltb_lt _ _) Hle). cbn [andb].
    destruct (remap_inside v l Hrm Hls Hle) as (c1 & c2 & p & q & w & -> & -> & Hp & Hq & Hw & Hwf & Hm).
    rewrite !res_bind_Ok, Hp, res_bind_Ok, Hq, res_bind_Ok, Hw, res_bind_Ok. by eexists. }
  replace ((start v <? s) && (e <? end_ v)) with false by lia.
  rewrite isSubset_plain, res_bind_Ok by (done || lia). simpl in Hf. unfold visits in Hf.
  destruct (decide (s <= start v ∧ end_ v <= e)) as [[Hss Hee]|Hnsub].
  { rewrite (proj2 (Z.leb_le _ _) Hss), (proj2 (Z.leb_le _ _) Hee). cbn [andb].
    rewrite u64_small by (unfold is_u64; lia).
    destruct (remap_moved v v (start v - s + ns) Hv) as (w & -> & Hm); [unfold inside; lia|done|lia|].
    destruct (IH l) as (l' & -> & Hwf & Hl'); [done|case_match; lia|]. eexists. split; [done|].
    apply (remap_cons v w [] l l'); try done; [|by rewrite app_nil_r]. split; [done|]. intros x b. rewrite maps_nil.
    unfold inside, outside. lia. }
  replace ((s <=? start v) && (end_ v <=? e)) with false by lia. rewrite intersects_plain, res_bind_Ok by done.
  destruct (decide (s < end_ v ∧ start v < e)) as [[Hi Hi']|Hni].
  - rewrite (proj2 (Z.ltb_lt _ _) Hi), (proj2 (Z.ltb_lt _ _) Hi') in Hf |- *. cbn [andb] in Hf |- *.
    assert (∀ c, pieces outside v [c] → ∃ l', remap_loop fuel (AddrRange.plain s e) ns (l ++ [c]) = Ok l' ∧ wf l' ∧
      ∀ x b, maps l' x b ↔ shifted (l ++ [c]) x b) as Hrec.
    { intros c Hc. apply IH; [by apply (remappable_clone v)|]. rewrite all_visits_app. simpl.
      rewrite (visits_clone v c Hc). lia. }
    destruct (Z.ltb_spec (start v) s).
    + destruct (right_piece s v Hv Hs) as (c & -> & Hc & _); [lia|]. rewrite res_bind_Ok.
      destruct (slice_left_ok s v Hv Hs) as (p & -> & Hp & Hps & Hpe & Hpb'); [lia|]. rewrite res_bind_Ok.
      destruct (remap_moved v p ns Hp) as (w & -> & Hm); [unfold inside; rewrite Hps, Hpe; lia| |lia|].
      { intros x Hx. unfold inside in Hx. apply Hpb'. lia. }
      apply (pieces_ext _ outside) in Hc; [|unfold inside, outside; simpl; lia].
      destruct (Hrec c Hc) as (l' & Hl' & Hwf & Hm'). rewrite res_bind_Ok, Hl'. eexists. split; [done|].
      by apply (remap_cons v w [c] l l').
    + destruct (left_piece e v Hv He) as (c & -> & Hc & _); [lia|]. rewrite res_bind_Ok.
      destruct (slice_right_ok e v Hv He) as (p & -> & Hp & Hps & Hpe & Hpb'); [lia|]. rewrite res_bind_Ok.
      rewrite u64_small by (unfold is_u64; lia).
      destruct (remap_moved v p (ns + start p - s) Hp) as (w & -> & Hm); [unfold inside; rewrite Hps, Hpe; lia| |lia|].
      { intros x Hx. unfold inside in Hx. apply Hpb'. lia. }
      apply (pieces_ext _ outside) in Hc; [|unfold inside, outside; simpl; lia].
      destruct (Hrec c Hc) as (l' & Hl' & Hwf & Hm'). rewrite res_bind_Ok, Hl'. eexists. split; [done|].
      by apply (remap_cons v w [c] l l').
  - replace ((s <? end_ v) && (start v <? e)) with false in Hf |- * by lia.
    destruct (IH l) as (l' & -> & Hwf & Hl'); [done|lia|]. eexists. split; [done|].
    apply (remap_keep v l l'); try done. unfold inside, outside. lia.
Qed.

End Range.
End Areas.
End VMA.
