(* ===== verification/MemState.v ===== *)
(** The record of the address space of a process, [MemState] of
    [sim/mem_state.hh]: the heap, the stack, and the list of areas. *)

From S2P Require Import Prelude Vma.

Module MemState.

Record t := mk {
  _pageBytes : Z;
  _brkPoint : Z;
  _stackBase : Z;
  _stackSize : Z;
  _maxStackSize : Z;
  _stackMin : Z;
  _nextThreadStackBase : Z;
  _mmapEnd : Z;
  _vmaList : list VMA.t;
}.

Definition create (page_bytes brk_point stack_base max_stack_size next_thread_stack_base mmap_end : Z) : t :=
  mk page_bytes brk_point stack_base max_stack_size max_stack_size (u64 (stack_base - max_stack_size))
     next_thread_stack_base mmap_end [].

Definition set_brkPoint (b : Z) (m : t) : t :=
  mk (_pageBytes m) b (_stackBase m) (_stackSize m) (_maxStackSize m) (_stackMin m)
     (_nextThreadStackBase m) (_mmapEnd m) (_vmaList m).

Definition set_stackMin (a : Z) (m : t) : t :=
  mk (_pageBytes m) (_brkPoint m) (_stackBase m) (_stackSize m) (_maxStackSize m) a
     (_nextThreadStackBase m) (_mmapEnd m) (_vmaList m).

Definition set_mmapEnd (a : Z) (m : t) : t :=
  mk (_pageBytes m) (_brkPoint m) (_stackBase m) (_stackSize m) (_maxStackSize m) (_stackMin m)
     (_nextThreadStackBase m) a (_vmaList m).

Definition set_vmaList (l : list VMA.t) (m : t) : t :=
  mk (_pageBytes m) (_brkPoint m) (_stackBase m) (_stackSize m) (_maxStackSize m) (_stackMin m)
     (_nextThreadStackBase m) (_mmapEnd m) l.

End MemState.
