(* ===== verification/Process.v ===== *)
(** The memory of a process under system-call emulation: its page table, physical
    pages and areas ([sim/process.cc], [sim/mem_state.{hh,cc}], [sim/vma.cc]), and the
    proxies that access it at virtual addresses
    ([mem/translating_port_proxy.cc], [mem/se_translating_port_proxy.cc]). *)

From S2P Require Import Prelude Bits AddrRange Host PageTable PortProxy FreeList MemPool Vma MemState.
Import Intmath Host PortProxy.

Module Process.
Import MemState (_pageBytes, _brkPoint, _stackBase, _maxStackSize, _stackMin, _mmapEnd, _vmaList,
  set_brkPoint, set_stackMin, set_mmapEnd, set_vmaList).

Section Process.

(** The physical memory, through the proxy of the system. *)
Context {G : Type} {HB : BlobProxy G} {HS : BlobMemset G}.

(** [contextIds] counts the contexts of the process. *)
Record t := mk {
  pTable : EmulationPageTable.t;
  seWorkload : MemPool.Pools;
  mem : G;
  memState : MemState.t;
  zeroPages : bool;
  contextIds : nat;
}.

Definition set_pTable (pt : EmulationPageTable.t) (p : t) : t :=
  mk pt (seWorkload p) (mem p) (memState p) (zeroPages p) (contextIds p).
Definition set_seWorkload (w : MemPool.Pools) (p : t) : t :=
  mk (pTable p) w (mem p) (memState p) (zeroPages p) (contextIds p).
Definition set_mem (m : G) (p : t) : t :=
  mk (pTable p) (seWorkload p) m (memState p) (zeroPages p) (contextIds p).
Definition set_memState (m : MemState.t) (p : t) : t :=
  mk (pTable p) (seWorkload p) (mem p) m (zeroPages p) (contextIds p).

Definition pageSize (p : t) : Z := EmulationPageTable._pageSize (pTable p).

(** ** Mapping *)

(** One page of the loop of [map]: its old contents go to the new physical address. *)
Definition copy_page (pt : EmulationPageTable.t) (vaddr new_paddr size : Z) (s : G) (h : hmem)
    : res (G * hmem) :=
  match EmulationPageTable.lookup pt vaddr with
  | None => Ok (s, h)
  | Some pte =>
      let old_paddr := Z.lor (EmulationPageTable.paddr pte) (EmulationPageTable.pageOffset pt vaddr) in
      let '(buf, h) := alloc h size in
      '(s, h) ← readBlob old_paddr (Ptr buf 0) size s h;
      '(s, h) ← writeBlob new_paddr (Ptr buf 0) size s h;
      Ok (s, delete buf h)
  end.

Fixpoint copy_loop (fuel : nat) (pt : EmulationPageTable.t) (cur_vaddr cur_new_paddr remaining : Z)
    (s : G) (h : hmem) : res (G * hmem) :=
  if 0 <? remaining then
    match fuel with
    | O => Fail OutOfFuel
    | S fuel =>
        let page_size := EmulationPageTable._pageSize pt in
        '(s, h) ← copy_page pt cur_vaddr cur_new_paddr (Z.min page_size remaining) s h;
        copy_loop fuel pt (u64 (cur_vaddr + page_size)) (u64 (cur_new_paddr + page_size))
          (remaining - page_size) s h
    end
  else Ok (s, h).

Definition map (vaddr paddr size : Z) (cacheable clobber : bool) (p : t) (h : hmem) : res (t * hmem) :=
  let flags := if cacheable then 0 else EmulationPageTable.Uncacheable in
  let flags := if clobber then Z.lor flags EmulationPageTable.Clobber else flags in
  '(m, h) ← (if clobber
             then copy_loop (EmulationPageTable.turns (pTable p) size) (pTable p) vaddr paddr size (mem p) h
             else Ok (mem p, h));
  pt ← EmulationPageTable.map vaddr paddr size flags (pTable p);
  Ok (set_pTable pt (set_mem m p), h).

(** The conversion to [int]. *)
Definition to_int (x : Z) : Z := AddrRange.s32 x.

Definition allocateMem (vaddr size : Z) (clobber : bool) (p : t) : res t :=
  let page_size := pageSize p in
  let page_addr := roundDown vaddr page_size in
  if negb clobber && (if EmulationPageTable.lookup (pTable p) page_addr then true else false) then Ok p else
  let npages := to_int (u64 (u64 (size + page_size) - 1) / page_size) in
  '(paddr, w) ← MemPool.allocPhysPages npages 0 (seWorkload p);
  pt ← EmulationPageTable.map page_addr paddr (u64 (npages * page_size))
         (if clobber then EmulationPageTable.Clobber else 0) (pTable p);
  Ok (set_pTable pt (set_seWorkload w p)).

(** ** Accesses at virtual addresses *)

Inductive Mode := Read | Write | Execute.
Inductive AllocType := Always | Never | NextPage.

Section Translating.

(** [Process::fixupFault], which itself writes to the memory of the process. *)
Context (fixupFault : Z → t → hmem → res (bool * t * hmem)).

(** [TLB::translateFunctional] of a 64-bit thread, without full system and
    pointer masking: [getValidAddr] returns the address. *)
Definition translateFunctional (mode : Mode) (vaddr : Z) (p : t) (h : hmem) : res (option Z * t * hmem) :=
  let found p :=
    (λ pte, Z.lor (EmulationPageTable.paddr pte) (EmulationPageTable.pageOffset (pTable p) vaddr)) <$>
      EmulationPageTable.lookup (pTable p) vaddr in
  match found p, mode with
  | Some pa, _ => Ok (Some pa, p, h)
  | None, Execute => Ok (None, p, h)
  | None, _ =>
      '(r, p, h) ← fixupFault vaddr p h;
      if r : bool then Ok (found p, p, h) else Ok (None, p, h)
  end.

(** [MMUTranslationGen::translate]: the size of the range, and its physical address
    unless there is a fault. *)
Definition translate (mode : Mode) (pageBytes vaddr size : Z) (p : t) (h : hmem)
    : res (Z * option Z * t * hmem) :=
  let next := roundUp vaddr pageBytes in
  let next := if next =? vaddr then u64 (next + pageBytes) else next in
  '(pa, p, h) ← translateFunctional mode vaddr p h;
  Ok (Z.min size (u64 (next - vaddr)), pa, p, h).

Definition fixupRange (allocating : AllocType) (mode : Mode) (vaddr size : Z) (p : t) (h : hmem)
    : res (bool * t * hmem) :=
  match mode, allocating with
  | Write, Always => p ← allocateMem vaddr size false p; Ok (true, p, h)
  | Write, NextPage => fixupFault vaddr p h
  | _, _ => Ok (false, p, h)
  end.

(** [tryOnBlob]: the ranges of [size] bytes that are left at [vaddr] are translated in
    turn; a fault is fixed and tried again once. The state of [func] is [S]. *)
Fixpoint tryOnBlob {S} (fuel : nat) (mode : Mode) (allocating : AllocType) (pageBytes vaddr size : Z)
    (faulting : bool) (func : Z → Z → S → t → hmem → res (S * t * hmem)) (s : S) (p : t) (h : hmem)
    : res (bool * t * hmem) :=
  if size =? 0 then Ok (true, p, h) else
  match fuel with
  | O => Fail OutOfFuel
  | Datatypes.S fuel =>
      '(n, pa, p, h) ← translate mode pageBytes vaddr size p h;
      match pa with
      | None =>
          if faulting then Ok (false, p, h) else
          '(r, p, h) ← fixupRange allocating mode vaddr n p h;
          if negb r then Ok (false, p, h) else
          tryOnBlob fuel mode allocating pageBytes vaddr size true func s p h
      | Some pa =>
          '(s, p, h) ← func pa n s p h;
          tryOnBlob fuel mode allocating pageBytes (u64 (vaddr + n)) (size - n) false func s p h
      end
  end.

(** Each page is visited twice at most. *)
Definition visits (pageBytes size : Z) : nat := Z.to_nat (2 * (size / pageBytes + 2)).

Definition tryReadBlob (allocating : AllocType) (pageBytes addr : Z) (d : ptr) (size : Z) (p : t) (h : hmem)
    : res (bool * t * hmem) :=
  tryOnBlob (visits pageBytes size) Read allocating pageBytes addr size false
    (λ pa n d p h, '(m, h) ← readBlob pa d n (mem p) h; Ok (ptr_add d n, set_mem m p, h)) d p h.

Definition tryWriteBlob (allocating : AllocType) (pageBytes addr : Z) (d : ptr) (size : Z) (p : t) (h : hmem)
    : res (bool * t * hmem) :=
  tryOnBlob (visits pageBytes size) Write allocating pageBytes addr size false
    (λ pa n d p h, '(m, h) ← writeBlob pa d n (mem p) h; Ok (ptr_add d n, set_mem m p, h)) d p h.

Definition tryMemsetBlob (allocating : AllocType) (pageBytes addr v size : Z) (p : t) (h : hmem)
    : res (bool * t * hmem) :=
  tryOnBlob (visits pageBytes size) Write allocating pageBytes addr size false
    (λ pa n u p h, '(m, h) ← memsetBlob pa v n (mem p) h; Ok (u, set_mem m p, h)) tt p h.

(** [writeBlob], which insists on success. *)
Definition virt_writeBlob (allocating : AllocType) (pageBytes addr : Z) (d : ptr) (size : Z) (p : t) (h : hmem)
    : res (t * hmem) :=
  '(r, p, h) ← tryWriteBlob allocating pageBytes addr d size p h;
  fatal_unless! r;
  Ok (p, h).

Definition virt_readBlob (allocating : AllocType) (pageBytes addr : Z) (d : ptr) (size : Z) (p : t) (h : hmem)
    : res (t * hmem) :=
  '(r, p, h) ← tryReadBlob allocating pageBytes addr d size p h;
  fatal_unless! r;
  Ok (p, h).

(** [VMA::fillMemPages], for each of the contexts of the process. *)
Definition fillMemPages (v : VMA.t) (start : Z) (p : t) (h : hmem) : res (t * hmem) :=
  let offset := u64 (start - VMA.start v) in
  if offset <? VMA._hostBufLen v then
    match VMA._hostBuf v with
    | Some b =>
        virt_writeBlob Always (pageSize p) start (ptr_add b offset)
          (Z.min (u64 (VMA._hostBufLen v - offset)) (VMA._pageBytes v)) p h
    | None => Fail UndefinedBehaviour
    end
  else Ok (p, h).

Fixpoint fill_all (n : nat) (v : VMA.t) (start : Z) (p : t) (h : hmem) : res (t * hmem) :=
  match n with
  | O => Ok (p, h)
  | S n => '(p, h) ← fillMemPages v start p h; fill_all n v start p h
  end.

End Translating.

(** Growing the stack down to an address, page by page. *)
Fixpoint grow_stack (fuel : nat) (vaddr : Z) (p : t) : res t :=
  let ms := memState p in
  if vaddr <? _stackMin ms then
    match fuel with
    | O => Fail OutOfFuel
    | S fuel =>
        let ms := set_stackMin (u64 (_stackMin ms - _pageBytes ms)) ms in
        fatal_unless! (u64 (_stackBase ms - _stackMin ms) <=? _maxStackSize ms);
        p ← allocateMem (_stackMin ms) (_pageBytes ms) false (set_memState ms p);
        grow_stack fuel vaddr p
    end
  else Ok p.

(** [MemState::fixupFault]; [depth] bounds the faults while a fault is fixed. *)
Fixpoint fixupFault (depth : nat) (vaddr : Z) (p : t) (h : hmem) : res (bool * t * hmem) :=
  match depth with
  | O => Fail OutOfFuel
  | S depth =>
      let ms := memState p in
      match List.find (VMA.contains vaddr) (_vmaList ms) with
      | Some v =>
          let vpage_start := roundDown vaddr (_pageBytes ms) in
          p ← allocateMem vpage_start (_pageBytes ms) false p;
          '(p, h) ← (if VMA.hasHostBuf v
                     then fill_all (fixupFault depth) (contextIds p) v vpage_start p h else Ok (p, h));
          Ok (true, p, h)
      | None =>
          if (_stackMin ms <=? vaddr) && (vaddr <? _stackBase ms) then
            p ← allocateMem (roundDown vaddr (_pageBytes ms)) (_pageBytes ms) false p;
            Ok (true, p, h)
          else if (vaddr <? _stackMin ms) && (u64 (_stackBase ms - _maxStackSize ms) <=? vaddr) then
            p ← grow_stack (Z.to_nat (_maxStackSize ms / _pageBytes ms + 1)) vaddr p;
            Ok (true, p, h)
          else Ok (false, p, h)
      end
  end.

(** ** Releasing pages *)

(** Its contents, so that it is zero when it is allocated again; thread 0, whose proxy
    is used, runs this process. *)
Definition zero_page (depth : nat) (page_vaddr : Z) (p : t) (h : hmem) : res (t * hmem) :=
  let page_size := pageSize p in
  let '(zero_page, h) := alloc h page_size in
  h ← store_bytes h (Ptr zero_page 0) (replicate (Z.to_nat page_size) 0);
  '(p, h) ← virt_writeBlob (fixupFault depth) Always page_size page_vaddr (Ptr zero_page 0) page_size p h;
  Ok (p, delete zero_page h).

(** One page of the loop of [deallocateMem]. *)
Definition deallocate_page (depth : nat) (page_vaddr : Z) (p : t) (h : hmem) : res (t * hmem) :=
  match EmulationPageTable.translate (pTable p) page_vaddr with
  | None => Ok (p, h)
  | Some page_paddr =>
      '(p, h) ← (if zeroPages p then zero_page depth page_vaddr p h else Ok (p, h));
      pt ← EmulationPageTable.unmap page_vaddr (pageSize p) (pTable p);
      w ← MemPool.deallocPhysPages page_paddr 1 0 (seWorkload p);
      Ok (set_pTable pt (set_seWorkload w p), h)
  end.

Fixpoint deallocate_loop (n : nat) (depth : nat) (page_vaddr : Z) (p : t) (h : hmem) : res (t * hmem) :=
  match n with
  | O => Ok (p, h)
  | S n =>
      '(p, h) ← deallocate_page depth page_vaddr p h;
      deallocate_loop n depth (u64 (page_vaddr + pageSize p)) p h
  end.

Definition deallocateMem (depth : nat) (vaddr size : Z) (p : t) (h : hmem) : res (t * hmem) :=
  let page_size := pageSize p in
  let page_vbase := roundDown vaddr page_size in
  let page_vend := roundUp (u64 (vaddr + size)) page_size in
  let npages := to_int (u64 (page_vend - page_vbase) / page_size) in
  deallocate_loop (Z.to_nat npages) depth page_vbase p h.

(** [replicatePage]; both contexts are of this process. *)
Definition replicatePage (depth : nat) (vaddr new_paddr : Z) (allocate_page : bool) (p : t) (h : hmem)
    : res (t * hmem) :=
  '(new_paddr, p) ← (if allocate_page
                     then '(a, w) ← MemPool.allocPhysPages 1 0 (seWorkload p); Ok (a, set_seWorkload w p)
                     else Ok (new_paddr, p));
  let buf_size := pageSize p in
  let '(buf_p, h) := alloc h buf_size in
  '(p, h) ← virt_readBlob (fixupFault depth) NextPage buf_size vaddr (Ptr buf_p 0) buf_size p h;
  pt ← EmulationPageTable.map vaddr new_paddr buf_size 1 (pTable p);
  '(p, h) ← virt_writeBlob (fixupFault depth) NextPage buf_size vaddr (Ptr buf_p 0) buf_size (set_pTable pt p) h;
  Ok (p, delete buf_p h).

(** ** Areas ([MemState]) *)

Fixpoint none_intersects (r : AddrRange.t) (l : list VMA.t) : res bool :=
  match l with
  | [] => Ok true
  | v :: l => i ← VMA.intersects r v; if i : bool then Ok false else none_intersects r l
  end.

(** No page of the range is in the page table, which would be a bug. *)
Fixpoint check_pages (fuel : nat) (start end_addr : Z) (p : t) : res bool :=
  if start <? end_addr then
    match fuel with
    | O => Fail OutOfFuel
    | S fuel =>
        panic_unless! (negb (if EmulationPageTable.lookup (pTable p) start then true else false));
        check_pages fuel (u64 (start + _pageBytes (memState p))) end_addr p
    end
  else Ok true.

Definition isUnmapped (start_addr length : Z) (p : t) : res bool :=
  let end_addr := u64 (start_addr + length) in
  free ← none_intersects (AddrRange.plain start_addr end_addr) (_vmaList (memState p));
  if negb free then Ok false
  else check_pages (Z.to_nat (length / _pageBytes (memState p) + 1)) start_addr end_addr p.

Definition mapRegion (start_addr length : Z) (fd : option VMA.file) (offset : Z) (p : t) : res t :=
  u ← isUnmapped start_addr length p;
  assert! u;
  v ← VMA.create (AddrRange.plain start_addr (u64 (start_addr + length))) (_pageBytes (memState p)) fd offset;
  Ok (set_memState (set_vmaList (_vmaList (memState p) ++ [v]) (memState p)) p).

(** The TLBs that are flushed hold nothing the page table does not say. *)
Definition unmapRegion (depth : nat) (start_addr length : Z) (p : t) (h : hmem) : res (t * hmem) :=
  let end_addr := u64 (start_addr + length) in
  l ← VMA.unmap_loop (AddrRange.plain start_addr end_addr) (_vmaList (memState p));
  deallocateMem depth start_addr length (set_memState (set_vmaList l (memState p)) p) h.

Fixpoint remap_pages (fuel : nat) (start_addr new_start_addr length : Z) (p : t) : res t :=
  match fuel with
  | O => Fail OutOfFuel
  | S fuel =>
      let pb := _pageBytes (memState p) in
      u ← EmulationPageTable.isUnmapped start_addr pb (pTable p);
      p ← (if negb u then pt ← EmulationPageTable.remap start_addr pb new_start_addr (pTable p); Ok (set_pTable pt p)
           else Ok p);
      let length := u64 (length - pb) in
      if 0 <? length then remap_pages fuel (u64 (start_addr + pb)) (u64 (new_start_addr + pb)) length p else Ok p
  end.

Definition remapRegion (depth : nat) (start_addr new_start_addr length : Z) (p : t) (h : hmem) : res (t * hmem) :=
  '(p, h) ← unmapRegion depth new_start_addr length p h;
  let end_addr := u64 (start_addr + length) in
  let l := _vmaList (memState p) in
  l ← VMA.remap_loop (2 * Datatypes.length l) (AddrRange.plain start_addr end_addr) new_start_addr l;
  p ← remap_pages (Z.to_nat (length / _pageBytes (memState p))) start_addr new_start_addr length
        (set_memState (set_vmaList l (memState p)) p);
  Ok (p, h).

Definition updateBrkRegion (depth : nat) (old_brk new_brk : Z) (p : t) (h : hmem) : res (t * hmem) :=
  let page_aligned_new_brk := roundUp new_brk (_pageBytes (memState p)) in
  let page_aligned_old_brk := roundUp old_brk (_pageBytes (memState p)) in
  let finish (p : t) h := Ok (set_memState (set_brkPoint new_brk (memState p)) p, h) in
  if new_brk <? old_brk then
    let length := u64 (page_aligned_old_brk - page_aligned_new_brk) in
    '(p, h) ← (if 0 <? length then unmapRegion depth page_aligned_new_brk length p h else Ok (p, h));
    finish p h
  else if page_aligned_old_brk <? page_aligned_new_brk then
    let length := u64 (page_aligned_new_brk - page_aligned_old_brk) in
    u ← isUnmapped page_aligned_old_brk length p;
    if negb u then Ok (p, h) else
    p ← mapRegion page_aligned_old_brk length None 0 p;
    finish p h
  else finish p h.

(** [extendMmap]; the mappings of the process grow down or up. *)
Fixpoint find_unmapped (fuel : nat) (down : bool) (start length : Z) (p : t) : res Z :=
  match fuel with
  | O => Fail OutOfFuel
  | S fuel =>
      u ← isUnmapped start length p;
      if u : bool then Ok start
      else find_unmapped fuel down (u64 (if down then start - _pageBytes (memState p)
                                         else start + _pageBytes (memState p))) length p
  end.

Definition extendMmap (fuel : nat) (down : bool) (length : Z) (p : t) : res (Z * t) :=
  let start := if down then u64 (_mmapEnd (memState p) - length) else _mmapEnd (memState p) in
  start ← find_unmapped fuel down start length p;
  let mmap_end := if down then start else u64 (start + length) in
  Ok (start, set_memState (set_mmapEnd mmap_end (memState p)) p).

(** ** Mapping over existing pages *)

(** The byte at a virtual address. *)
Definition virt (p : t) (h : hmem) (a : Z) : option Z :=
  pa ← EmulationPageTable.translate (pTable p) a; guest (mem p) h pa.

Section Copy.

Context (k : Z) (Hk : 0 <= k < 64) (pt : EmulationPageTable.t) (Ht : EmulationPageTable.typed k pt).

(** The bytes of a mapped page follow its first. *)
Lemma translated_page v z :
  is_u64 v → v mod 2 ^ k = 0 → 0 <= z < 2 ^ k →
  EmulationPageTable.translate pt (v + z) =
    (λ e, u64 (EmulationPageTable.paddr e + z)) <$> EmulationPageTable.lookup pt v.
Proof using Hk Ht.
  intros Hv Hal Hz. pose proof (EmulationPageTable.typed_wf _ _ Ht) as Hwf.
  pose proof (EmulationPageTable.page_pos k Hk). pose proof (EmulationPageTable.aligned_fits k Hk v Hal ltac:(apply Hv)).
  assert ((v + z) mod 2 ^ k = z) as Hm by (rewrite <-Zplus_mod_idemp_l, Hal; apply Z.mod_small; lia).
  rewrite (EmulationPageTable.translate_eq k Hk) by (done || (destruct Hv; split; lia)). rewrite Hm.
  unfold EmulationPageTable.lookup. rewrite (EmulationPageTable.pageAlign_mod k Hk), Hal by done.
  replace (v + z - z) with (v - 0) by lia.
  destruct (EmulationPageTable.pTable pt !! (v - 0)); simpl; [|done]. do 2 f_equal. lia.
Qed.

Lemma lookup_typed v e : EmulationPageTable.lookup pt v = Some e → is_u64 (EmulationPageTable.paddr e).
Proof using Ht. intros He. by destruct (EmulationPageTable.typed_entry _ _ Ht _ _ He) as (_ & _ & ?). Qed.

(** A page is copied, or left alone when it was not mapped. *)
Definition from_page (v c : Z) (s : G) (h : hmem) (x : Z) : option Z :=
  match EmulationPageTable.lookup pt v with
  | Some e => guest s h (EmulationPageTable.paddr e + (x - c))
  | None => guest s h x
  end.

Lemma copy_page_ok v c n s h :
  is_u64 v → v mod 2 ^ k = 0 → 0 < n <= 2 ^ k → ok s h → spans s c n →
  (∀ e, EmulationPageTable.lookup pt v = Some e → spans s (EmulationPageTable.paddr e) n) →
  ∃ s' h', copy_page pt v c n s h = Ok (s', h') ∧ stored (from_page v c s h) c n s h s' h'.
Proof using Hk Ht.
  intros Hv Hal Hn Hok Hc Hq. unfold copy_page, from_page.
  rewrite (EmulationPageTable.pageOffset_mod k Hk), Hal by apply (EmulationPageTable.typed_wf _ _ Ht).
  destruct (EmulationPageTable.lookup pt v) as [e|] eqn:He.
  - rewrite Z.lor_0_r. destruct (alloc h n) as [b h1] eqn:Ha.
    destruct (copy_scratch n (EmulationPageTable.paddr e) c s h b h1) as (s1 & h2 & s' & h' & Hr & Hw & Hst);
      [done|by apply Hq|done|lia|done|].
    unfold readBlob, writeBlob. rewrite Hr. simpl. rewrite Hw. simpl. by eexists _, _.
  - eexists _, _. split; [done|]. constructor; try done. intros x. by case_decide.
Qed.

(** The region: its old pages can be read, its new place written, and a page is not
    overwritten before it has been copied. *)
Record copyable (vaddr paddr size : Z) (s : G) : Prop := {
  cp_aligned : vaddr mod 2 ^ k = 0;
  cp_start : 0 <= vaddr;
  cp_end : vaddr + size <= 2 ^ 64;
  cp_new : spans s paddr size;
  cp_old d e : 0 <= d < size → d mod 2 ^ k = 0 → EmulationPageTable.lookup pt (vaddr + d) = Some e →
    spans s (EmulationPageTable.paddr e) (Z.min (2 ^ k) (size - d));
  cp_order z q : 0 <= z < size → EmulationPageTable.translate pt (vaddr + z) = Some q →
    ¬ paddr <= q < paddr + (z - z mod 2 ^ k);
}.

(** The bytes that move: those of the old pages, and what was at the new place
    where there was none. *)
Definition moving (vaddr paddr : Z) (s : G) (h : hmem) (x : Z) : option Z :=
  match EmulationPageTable.translate pt (vaddr + (x - paddr)) with
  | Some q => guest s h q
  | None => guest s h x
  end.

Lemma copy_page_moves vaddr paddr size d s0 h0 s h :
  copyable vaddr paddr size s0 → 0 <= d < size → d mod 2 ^ k = 0 →
  stored (moving vaddr paddr s0 h0) paddr d s0 h0 s h →
  ∃ s' h', copy_page pt (vaddr + d) (paddr + d) (Z.min (2 ^ k) (size - d)) s h = Ok (s', h') ∧
    stored (moving vaddr paddr s0 h0) paddr (d + Z.min (2 ^ k) (size - d)) s0 h0 s' h'.
Proof using Hk Ht.
  intros [Hal H0 He Hnew Hold Hord] Hd Hdm Hst. pose proof (EmulationPageTable.page_pos k Hk).
  remember (Z.min (2 ^ k) (size - d)) as n eqn:Hnn. assert (0 < n <= 2 ^ k) as Hn by lia.
  assert ((vaddr + d) mod 2 ^ k = 0) as Hdal by (by rewrite <-Zplus_mod_idemp_l, Hal).
  assert (is_u64 (vaddr + d)) as Hu by (split; lia). pose proof (st_keeps _ _ _ _ _ _ _ Hst) as [_ Hsp].
  destruct (copy_page_ok (vaddr + d) (paddr + d) n s h) as (s' & h' & Hcp & Hst'); try done.
  - by apply Hst.
  - apply Hsp, (spans_part s0 paddr size d n); (done || lia).
  - intros e Hl. rewrite Hnn. by apply Hsp, Hold.
  - exists s', h'. split; [done|]. pose proof (stored_then _ _ paddr d n _ _ _ _ _ _ ltac:(lia) ltac:(lia) Hst Hst') as H2.
    eapply stored_ext; [|exact H2]. simpl. intros x Hx. case_decide as Hxd; [done|]. unfold from_page, moving.
    pose proof (translated_page (vaddr + d) (x - (paddr + d)) Hu Hdal ltac:(lia)) as Htr.
    replace (vaddr + d + (x - (paddr + d))) with (vaddr + (x - paddr)) in Htr by lia. rewrite Htr.
    destruct (EmulationPageTable.lookup pt (vaddr + d)) as [e|] eqn:Hl; simpl.
    + pose proof (spans_range _ _ _ (Hold d e Hd Hdm Hl)). rewrite u64_small by (split; lia).
      rewrite (st_guest _ _ _ _ _ _ _ Hst), decide_False; [done|]. intros Hin.
      apply (Hord (x - paddr) (EmulationPageTable.paddr e + (x - (paddr + d)))); [lia| |].
      * rewrite Htr. simpl. rewrite u64_small by (split; lia). done.
      * replace ((x - paddr) mod 2 ^ k) with (x - paddr - d); [lia|].
        symmetry. replace (x - paddr) with (d + (x - paddr - d)) by lia.
        rewrite <-Zplus_mod_idemp_l, Hdm, Z.mod_small by lia. lia.
    + by rewrite (st_guest _ _ _ _ _ _ _ Hst), decide_False by lia.
Qed.

Lemma copy_loop_ok vaddr paddr size s0 h0 : ∀ fuel d s h,
  copyable vaddr paddr size s0 → 0 <= d → d mod 2 ^ k = 0 → size - d <= Z.of_nat fuel * 2 ^ k →
  stored (moving vaddr paddr s0 h0) paddr (Z.min d size) s0 h0 s h →
  ∃ s' h', copy_loop fuel pt (u64 (vaddr + d)) (u64 (paddr + d)) (size - d) s h = Ok (s', h') ∧
    stored (moving vaddr paddr s0 h0) paddr size s0 h0 s' h'.
Proof using Hk Ht.
  pose proof (EmulationPageTable.page_pos k Hk) as Hp.
  induction fuel as [|fuel IH]; intros d s h Hc Hd Hdm Hf Hst; simpl; destruct (Z.ltb_spec 0 (size - d)) as [Hlt|Hge];
    try (rewrite Z.min_r in Hst by lia; by eexists _, _); [lia|].
  rewrite (EmulationPageTable.wf_size _ _ (EmulationPageTable.typed_wf _ _ Ht)).
  pose proof (spans_range _ _ _ (cp_new _ _ _ _ Hc)). pose proof (cp_start _ _ _ _ Hc). pose proof (cp_end _ _ _ _ Hc).
  rewrite (u64_small (vaddr + d)), (u64_small (paddr + d)) by (split; lia). rewrite Z.min_l in Hst by lia.
  destruct (copy_page_moves vaddr paddr size d s0 h0 s h) as (s1 & h1 & -> & Hst1); [done|lia|done|done|].
  simpl. rewrite <-!Z.add_assoc, <-Z.sub_add_distr. apply IH; [done|lia| |lia|].
  - rewrite <-Zplus_mod_idemp_l, Hdm, Z.add_0_l. apply Z_mod_same_full.
  - by replace (Z.min (d + 2 ^ k) size) with (d + Z.min (2 ^ k) (size - d)) by lia.
Qed.

End Copy.

(** The end of the last page of a region. *)
Definition page_end (k size : Z) : Z := 2 ^ k * ((size + 2 ^ k - 1) / 2 ^ k).

Lemma page_end_fits k size : 0 <= k < 64 → size <= 2 ^ 64 → page_end k size <= 2 ^ 64.
Proof.
  intros Hk Hs. pose proof (EmulationPageTable.page_pos k Hk). unfold page_end.
  rewrite (EmulationPageTable.page_top k Hk) in *. apply Z.mul_le_mono_nonneg_l; [lia|].
  apply Z.lt_succ_r, Z.div_lt_upper_bound; lia.
Qed.

(** The bytes of the last page behind the region are mapped with it. *)
Lemma map_tail k pt vaddr paddr size z :
  0 <= k < 64 → EmulationPageTable.typed k pt → vaddr mod 2 ^ k = 0 → 0 <= vaddr → vaddr + size <= 2 ^ 64 →
  0 < size → size <= z < page_end k size → (∀ x, 0 <= x < size → EmulationPageTable.translate pt (vaddr + x) = Some (u64 (paddr + x))) →
  EmulationPageTable.translate pt (vaddr + z) = Some (u64 (paddr + z)).
Proof.
  intros Hk Ht Hal H0 Hend Hs Hz Htr. pose proof (EmulationPageTable.page_pos k Hk) as Hp. unfold page_end in Hz.
  set (d := z - z mod 2 ^ k). assert (d mod 2 ^ k = 0) as Hd.
  { unfold d. rewrite Zminus_mod_idemp_r, Z.sub_diag. done. }
  assert (0 <= d < size) as Hds.
  { unfold d. pose proof (Z.mod_pos_bound z (2 ^ k) ltac:(lia)). pose proof (Z.div_mod z (2 ^ k) ltac:(lia)).
    pose proof (Z.mul_div_le (size + 2 ^ k - 1) (2 ^ k) ltac:(lia)).
    pose proof (Z.div_pos z (2 ^ k) ltac:(lia) ltac:(lia)).
    pose proof (Z.div_lt_upper_bound z (2 ^ k) _ ltac:(lia) (proj2 Hz)). nia. }
  assert (is_u64 (vaddr + d)) as Hu by (split; lia).
  assert ((vaddr + d) mod 2 ^ k = 0) as Hda by (by rewrite <-Zplus_mod_idemp_l, Hal).
  pose proof (translated_page k Hk pt Ht (vaddr + d) 0 Hu Hda ltac:(lia)) as H1.
  pose proof (translated_page k Hk pt Ht (vaddr + d) (z mod 2 ^ k) Hu Hda (Z.mod_pos_bound z (2 ^ k) ltac:(lia))) as H2.
  rewrite Z.add_0_r, Htr in H1 by done. replace (vaddr + d + z mod 2 ^ k) with (vaddr + z) in H2 by (unfold d; lia).
  rewrite H2. destruct (EmulationPageTable.lookup pt (vaddr + d)) as [e|]; [|done]. simpl in *.
  injection H1 as H1. rewrite Z.add_0_r in H1. f_equal. unfold u64 in *.
  rewrite <-Zplus_mod_idemp_l, <-H1, Zplus_mod_idemp_l. f_equal. unfold d. lia.
Qed.

(** C28: a region is mapped over pages it may have (the clobber flag of [Process::map]):
    when no page is overwritten before it has been copied, the call succeeds and
    moves the region to its new place with its contents, byte for byte, leaving
    all other physical memory and all other translations as they were.  The rest
    of the region's last page moves as well, without its contents: it reads what
    was at its new place. *)
Theorem map_moves k vaddr paddr size cacheable p h :
  0 <= k < 64 → 0 < size → EmulationPageTable.typed k (pTable p) → ok (mem p) h →
  copyable k (pTable p) vaddr paddr size (mem p) →
  ∃ p' h', map vaddr paddr size cacheable true p h = Ok (p', h') ∧
    ok (mem p') h' ∧ EmulationPageTable.typed k (pTable p') ∧
    (∀ z, 0 <= z < page_end k size → EmulationPageTable.translate (pTable p') (vaddr + z) = Some (u64 (paddr + z))) ∧
    (∀ z, 0 <= z < size → EmulationPageTable.translate (pTable p) (vaddr + z) ≠ None →
       virt p' h' (vaddr + z) = virt p h (vaddr + z)) ∧
    (∀ z, size <= z < page_end k size → virt p' h' (vaddr + z) = guest (mem p) h (u64 (paddr + z))) ∧
    (∀ x, ¬ paddr <= x < paddr + size → guest (mem p') h' x = guest (mem p) h x) ∧
    (∀ a, is_u64 a → ¬ 0 <= a - vaddr < page_end k size →
       EmulationPageTable.translate (pTable p') a = EmulationPageTable.translate (pTable p) a).
Proof.
  intros Hk Hs Ht Hok Hc. pose proof Hc as [Hal H0 Hend Hnew _ _]. pose proof (spans_range _ _ _ Hnew) as [Hp1 Hp2].
  pose proof (EmulationPageTable.typed_wf _ _ Ht) as Hwf. assert (is_u64 paddr) by (split; lia). assert (is_u64 vaddr) by (split; lia).
  set (fl := Z.lor (if cacheable then 0 else EmulationPageTable.Uncacheable) EmulationPageTable.Clobber).
  destruct (copy_loop_ok k Hk (pTable p) Ht vaddr paddr size (mem p) h
    (EmulationPageTable.turns (pTable p) size) 0 (mem p) h Hc) as (m & h' & Hcp & Hst); [lia|done| | |].
  { rewrite Z.sub_0_r. by apply EmulationPageTable.turns_enough. }
  { constructor; try done. intros x. rewrite decide_False by lia. done. }
  destruct (EmulationPageTable.map_region k vaddr paddr size fl (pTable p)) as (pt & Hm & Hwf' & Hin & Hout); [done..| |].
  { left. by destruct cacheable. }
  assert (EmulationPageTable.typed k pt) as Ht' by (eapply (EmulationPageTable.map_typed k vaddr paddr); try done; exact Hm).
  assert (∀ z, 0 <= z < page_end k size → EmulationPageTable.translate pt (vaddr + z) = Some (u64 (paddr + z))) as Hall.
  { intros z Hz. destruct (decide (z < size)); [apply Hin; lia|]. eapply map_tail; (done || lia). }
  assert (size <= page_end k size) as Hpe.
  { unfold page_end. pose proof (EmulationPageTable.page_pos k Hk). zlia. }
  assert (∀ a q, EmulationPageTable.translate pt a = Some q → virt (set_pTable pt (set_mem m p)) h' a = guest m h' q) as Hv.
  { intros a q Hq. unfold virt. simpl. by rewrite Hq. }
  exists (set_pTable pt (set_mem m p)), h'. split; [|split_and!]; try done.
  - rewrite !Z.add_0_r, Z.sub_0_r, !u64_small in Hcp by done. unfold map. rewrite Hcp. simpl. fold fl. by rewrite Hm.
  - apply Hst.
  - intros z Hz Hmap. rewrite (Hv _ _ (Hall z ltac:(lia))). rewrite u64_small by (split; lia).
    rewrite (st_guest _ _ _ _ _ _ _ Hst), decide_True by lia. unfold moving, virt.
    replace (vaddr + (paddr + z - paddr)) with (vaddr + z) by lia.
    by destruct (EmulationPageTable.translate (pTable p) (vaddr + z)).
  - intros z Hz. rewrite (Hv _ _ (Hall z ltac:(lia))). rewrite (st_guest _ _ _ _ _ _ _ Hst), decide_False; [done|].
    pose proof (page_end_fits k size Hk ltac:(lia)). intros Hx. unfold u64 in Hx. zlia.
  - intros x Hx. simpl. by rewrite (st_guest _ _ _ _ _ _ _ Hst), decide_False.
Qed.

End Process.
End Process.
