(* ===== verification/VirtMem.v ===== *)
(** The memory of a process as its program sees it: accesses at virtual addresses
    through the proxy of system-call emulation, and what its page table and frames
    satisfy for them. *)

From S2P Require Import Prelude Bits AddrRange Host PageTable PortProxy FreeList MemPool Vma MemState Process.
Import Intmath Host PortProxy.

Module VirtMem.
Import Process (pTable, mem, set_mem, virt, pageSize).
Import EmulationPageTable (paddr, lookup).

(** ** Steps of the translating proxy *)

Lemma u64_mod k x : 0 <= k <= 64 → u64 x mod 2 ^ k = x mod 2 ^ k.
Proof.
  intros Hk. unfold u64. replace (2 ^ 64) with (2 ^ k * 2 ^ (64 - k)) by (rewrite <-Z.pow_add_r by lia; f_equal; lia).
  assert (0 < 2 ^ k) by (apply Z.pow_pos_nonneg; lia). assert (0 < 2 ^ (64 - k)) by (apply Z.pow_pos_nonneg; lia).
  rewrite Z.rem_mul_r, (Z.mul_comm (2 ^ k)), Z.mod_add, Z.mod_mod by lia. done.
Qed.

(** The end of the page of an address, also of the last one. *)
Definition page_left (k v : Z) : Z := 2 ^ k - v mod 2 ^ k.

Lemma next_page k v :
  0 <= k < 64 → is_u64 v →
  let next := roundUp v (2 ^ k) in
  let next := if next =? v then u64 (next + 2 ^ k) else next in
  u64 (next - v) = page_left k v.
Proof.
  intros Hk Hv next. pose proof (EmulationPageTable.page_pos k Hk) as Hp.
  assert (next = u64 (v + 2 ^ k - 1) - (v + 2 ^ k - 1) mod 2 ^ k) as Hn.
  { unfold next. etransitivity; [|rewrite <-(u64_mod k) by lia; apply roundDown_spec; auto with width].
    unfold roundUp, roundDown. rewrite (u64_small (2 ^ k - 1)) by (split; lia). do 2 f_equal. lia. }
  assert (u64 (next - v) = u64 (2 ^ k - 1 - (v + 2 ^ k - 1) mod 2 ^ k)) as Hd.
  { rewrite Hn, <-Z.sub_add_distr. unfold u64. rewrite Zminus_mod_idemp_l. f_equal. lia. }
  pose proof (Z.mod_pos_bound v (2 ^ k) ltac:(lia)) as Hr. unfold page_left.
  destruct (decide (v mod 2 ^ k = 0)) as [H0|H0].
  - assert (next = v) as Hnv.
    { assert ((v + 2 ^ k - 1) mod 2 ^ k = 2 ^ k - 1) as Hm.
      { rewrite <-Z.add_sub_assoc, <-Zplus_mod_idemp_l, H0, Z.mod_small by lia. lia. }
      assert (is_u64 (v + 2 ^ k - 1)).
      { pose proof (EmulationPageTable.aligned_fits k Hk v H0 ltac:(apply Hv)). destruct Hv. split; lia. }
      rewrite Hn, Hm, u64_small by done. lia. }
    rewrite Hnv, Z.eqb_refl, H0. unfold u64. rewrite Zminus_mod_idemp_l.
    replace (v + 2 ^ k - v) with (2 ^ k) by lia. rewrite Z.mod_small; lia.
  - assert ((v + 2 ^ k - 1) mod 2 ^ k = v mod 2 ^ k - 1) as Hm.
    { replace (v + 2 ^ k - 1) with (v - 1 + 1 * 2 ^ k) by lia. rewrite Z.mod_add by lia.
      rewrite <-Zminus_mod_idemp_l. apply Z.mod_small. lia. }
    rewrite Hm in Hd. destruct (Z.eqb_spec next v) as [Hnv|_].
    + rewrite Hnv, Z.sub_diag, u64_small, u64_small in Hd by (split; lia). lia.
    + rewrite Hd. rewrite u64_small by (split; lia). lia.
Qed.

Section Access.

Context {G : Type} {HB : BlobProxy G}.
Context (k : Z) (Hk : 0 <= k < 64).

(** A process whose pages have frames of their own, which can be accessed. *)
Record mapped_ok (p : Process.t (G := G)) (h : hmem) : Prop := {
  mo_typed : EmulationPageTable.typed k (pTable p);
  mo_frame v e : EmulationPageTable.pTable (pTable p) !! v = Some e →
    paddr e mod 2 ^ k = 0 ∧ spans (mem p) (paddr e) (2 ^ k);
  mo_apart v v' e e' : EmulationPageTable.pTable (pTable p) !! v = Some e →
    EmulationPageTable.pTable (pTable p) !! v' = Some e' → paddr e = paddr e' → v = v';
  mo_ok : ok (mem p) h;
}.

Lemma mo_wf p h : mapped_ok p h → EmulationPageTable.wf k (pTable p).
Proof. intros Hm. apply EmulationPageTable.typed_wf, Hm. Qed.

Lemma mo_page p h : mapped_ok p h → pageSize p = 2 ^ k.
Proof. intros Hm. unfold pageSize. by rewrite (EmulationPageTable.wf_size _ _ (mo_wf _ _ Hm)). Qed.

(** The entry of an address, and where the address is. *)
Lemma lookup_mapped p h v :
  mapped_ok p h → is_u64 v →
  match lookup (pTable p) v with
  | Some e => EmulationPageTable.pTable (pTable p) !! (v - v mod 2 ^ k) = Some e ∧
      EmulationPageTable.translate (pTable p) v = Some (paddr e + v mod 2 ^ k) ∧
      0 <= paddr e ∧ paddr e + 2 ^ k <= 2 ^ 64 ∧ spans (mem p) (paddr e) (2 ^ k) ∧
      Z.lor (paddr e) (EmulationPageTable.pageOffset (pTable p) v) = paddr e + v mod 2 ^ k
  | None => EmulationPageTable.translate (pTable p) v = None
  end.
Proof using Hk.
  intros Hm Hv. pose proof (mo_wf _ _ Hm) as Hwf. pose proof (EmulationPageTable.page_pos k Hk) as Hp.
  rewrite (EmulationPageTable.translate_eq k Hk) by done. unfold lookup.
  rewrite (EmulationPageTable.pageAlign_mod k Hk) by done.
  destruct (EmulationPageTable.pTable (pTable p) !! (v - v mod 2 ^ k)) as [e|] eqn:He; [|done].
  destruct (mo_frame _ _ Hm _ _ He) as [Hal Hs]. destruct (spans_range _ _ _ Hs).
  pose proof (Z.mod_pos_bound v (2 ^ k) ltac:(lia)). rewrite (EmulationPageTable.pageOffset_mod k Hk) by done.
  split; [done|]. split; [by rewrite u64_small, Z.add_comm by (split; lia)|]. split_and!; [done..|].
  rewrite (Z.div_mod (paddr e) (2 ^ k)), Hal, Z.add_0_r, (Z.mul_comm (2 ^ k)) by lia. apply lor_high; lia.
Qed.

Lemma translate_mapped fix_ mode n p h v q :
  mapped_ok p h → is_u64 v → EmulationPageTable.translate (pTable p) v = Some q →
  Process.translate fix_ mode (2 ^ k) v n p h = Ok (Z.min n (page_left k v), Some q, p, h).
Proof using Hk.
  intros Hm Hv Hq. unfold Process.translate. pose proof (next_page k v Hk Hv) as Hn. simpl in Hn. rewrite Hn.
  pose proof (lookup_mapped p h v Hm Hv) as Hl. unfold Process.translateFunctional.
  destruct (lookup (pTable p) v) as [e|]; [|congruence]. destruct Hl as (_ & Ht & _ & _ & _ & Ho).
  simpl. rewrite Ho. by rewrite Ht in Hq; injection Hq as ->.
Qed.

(** Addresses of a page are together in its frame. *)
Lemma translate_near p h v q z :
  mapped_ok p h → is_u64 v → EmulationPageTable.translate (pTable p) v = Some q → 0 <= z < page_left k v →
  EmulationPageTable.translate (pTable p) (v + z) = Some (q + z).
Proof using Hk.
  intros Hm Hv Hq Hz. pose proof (EmulationPageTable.page_pos k Hk) as Hp. unfold page_left in Hz.
  pose proof (Z.mod_pos_bound v (2 ^ k) ltac:(lia)).
  pose proof (lookup_mapped p h v Hm Hv) as Hl. unfold lookup in Hl.
  rewrite (EmulationPageTable.pageAlign_mod k Hk) in Hl by (done || apply (mo_wf _ _ Hm)).
  destruct (EmulationPageTable.pTable (pTable p) !! (v - v mod 2 ^ k)) as [e|] eqn:He; [|congruence].
  destruct Hl as (_ & Ht & ? & ? & _). rewrite Ht in Hq. injection Hq as <-.
  assert ((v + z) mod 2 ^ k = v mod 2 ^ k + z) as Hmod by (rewrite <-Zplus_mod_idemp_l; apply Z.mod_small; lia).
  assert (is_u64 (v + z)).
  { destruct (EmulationPageTable.typed_entry _ _ (mo_typed _ _ Hm) _ _ He) as ([? ?] & Hal & _).
    pose proof (EmulationPageTable.aligned_fits k Hk _ Hal ltac:(lia)). destruct Hv. split; lia. }
  rewrite (EmulationPageTable.translate_eq k Hk) by (done || apply (mo_wf _ _ Hm)). rewrite Hmod.
  replace (v + z - (v mod 2 ^ k + z)) with (v - v mod 2 ^ k) by lia. rewrite He.
  rewrite u64_small by (split; lia). f_equal. lia.
Qed.

(** No two addresses are in one place. *)
Lemma translate_apart p h v v' q :
  mapped_ok p h → is_u64 v → is_u64 v' → EmulationPageTable.translate (pTable p) v = Some q →
  EmulationPageTable.translate (pTable p) v' = Some q → v = v'.
Proof using Hk.
  intros Hm Hv Hv' Hq Hq'. pose proof (EmulationPageTable.page_pos k Hk) as Hp.
  pose proof (lookup_mapped p h v Hm Hv) as Hl. pose proof (lookup_mapped p h v' Hm Hv') as Hl'.
  destruct (lookup (pTable p) v) as [e|], (lookup (pTable p) v') as [e'|]; try congruence.
  destruct Hl as (He & Ht & _), Hl' as (He' & Ht' & _). rewrite Ht in Hq. rewrite Ht' in Hq'.
  injection Hq as <-. injection Hq' as Heq.
  destruct (mo_frame _ _ Hm _ _ He) as [Hal _], (mo_frame _ _ Hm _ _ He') as [Hal' _].
  pose proof (Z.mod_pos_bound v (2 ^ k) ltac:(lia)). pose proof (Z.mod_pos_bound v' (2 ^ k) ltac:(lia)).
  assert (v' mod 2 ^ k = v mod 2 ^ k) as Hmod.
  { rewrite <-(Z.mod_small (v' mod 2 ^ k) (2 ^ k)), <-(Z.mod_small (v mod 2 ^ k) (2 ^ k)) by lia.
    rewrite <-(Z.add_0_l (v' mod 2 ^ k)), <-Hal', <-(Z.add_0_l (v mod 2 ^ k)), <-Hal.
    by rewrite !Zplus_mod_idemp_l, Heq. }
  pose proof (mo_apart _ _ Hm _ _ _ _ He He' ltac:(lia)). lia.
Qed.

(** Over mapped addresses, each part of a page is handled in turn. *)
Lemma on_mapped {S} fix_ mode allocating (I : Z → S → Process.t → hmem → Prop) a n func pt :
  0 <= a → a + n <= 2 ^ 64 → (∀ z, 0 <= z < n → EmulationPageTable.translate pt (a + z) ≠ None) →
  (∀ z st p h, I z st p h → mapped_ok p h ∧ pTable p = pt) →
  (∀ z l q st p h, I z st p h → 0 <= z → 0 < l → z + l <= n → l <= page_left k (a + z) →
     EmulationPageTable.translate pt (a + z) = Some q →
     ∃ st' p' h', func q l st p h = Ok (st', p', h') ∧ I (z + l) st' p' h') →
  ∀ fuel z st p h, I z st p h → 0 <= z <= n → z = n ∨ n - z + (a + z) mod 2 ^ k <= Z.of_nat fuel * 2 ^ k →
  ∃ st' p' h', Process.tryOnBlob fix_ fuel mode allocating (2 ^ k) (u64 (a + z)) (n - z) false func st p h =
    Ok (true, p', h') ∧ I n st' p' h'.
Proof using Hk.
  intros Ha Hn Hmap HI Hf. pose proof (EmulationPageTable.page_pos k Hk) as Hp.
  induction fuel as [|fuel IH]; intros z st p h Hi Hz Hfuel;
    pose proof (Z.mod_pos_bound (a + z) (2 ^ k) ltac:(lia)) as Hmod; cbn [Process.tryOnBlob];
    destruct (Z.eqb_spec (n - z) 0) as [Hnz|Hnz].
  - exists st, p, h. replace n with z by lia. done.
  - lia.
  - exists st, p, h. replace n with z by lia. done.
  - rewrite u64_small by (split; lia). destruct (HI _ _ _ _ Hi) as [Hm Hpt].
    destruct (EmulationPageTable.translate pt (a + z)) as [q|] eqn:Hq; [|by destruct (Hmap z ltac:(lia))].
    rewrite (translate_mapped fix_ mode (n - z) p h (a + z) q) by (done || (split; lia) || by rewrite Hpt).
    rewrite res_bind_Ok. set (l := Z.min (n - z) (page_left k (a + z))). unfold page_left in l.
    destruct (Hf z l q st p h) as (st' & p' & h' & -> & Hi'); [done|lia|lia|lia|unfold page_left; lia|done|].
    rewrite res_bind_Ok. replace (a + z + l) with (a + (z + l)) by lia. replace (n - z - l) with (n - (z + l)) by lia.
    apply IH; [done|lia|]. destruct (decide (n - z <= 2 ^ k - (a + z) mod 2 ^ k)).
    + left. lia.
    + assert ((a + (z + l)) mod 2 ^ k = 0) as ->; [|right; lia].
      replace (a + (z + l)) with (a + z - (a + z) mod 2 ^ k + 1 * 2 ^ k) by lia. rewrite Z.mod_add by lia.
      rewrite Zminus_mod_idemp_r, Z.sub_diag. done.
Qed.

(** The addresses of a region are mapped. *)
Definition vspans (p : Process.t (G := G)) (a n : Z) : Prop :=
  0 <= a ∧ a + n <= 2 ^ 64 ∧ ∀ z, 0 <= z < n → EmulationPageTable.translate (pTable p) (a + z) ≠ None.

Lemma visits_enough a n : 0 <= n → n + a mod 2 ^ k <= Z.of_nat (Process.visits (2 ^ k) n) * 2 ^ k.
Proof using Hk.
  intros Hn. pose proof (EmulationPageTable.page_pos k Hk) as Hp. unfold Process.visits.
  pose proof (Z.mod_pos_bound a (2 ^ k) ltac:(lia)). pose proof (Z.div_mod n (2 ^ k) ltac:(lia)).
  pose proof (Z.mod_pos_bound n (2 ^ k) ltac:(lia)). pose proof (Z.div_pos n (2 ^ k) ltac:(lia) ltac:(lia)).
  rewrite Z2Nat.id by lia. nia.
Qed.

Lemma on_region {S} fix_ mode allocating (I : Z → S → Process.t → hmem → Prop) a n func st p h :
  vspans p a n → 0 <= n → I 0 st p h →
  (∀ z st' p' h', I z st' p' h' → mapped_ok p' h' ∧ pTable p' = pTable p) →
  (∀ z l q st' p' h', I z st' p' h' → 0 <= z → 0 < l → z + l <= n → l <= page_left k (a + z) →
     EmulationPageTable.translate (pTable p) (a + z) = Some q → spans (mem p') q l →
     ∃ st2 p2 h2, func q l st' p' h' = Ok (st2, p2, h2) ∧ I (z + l) st2 p2 h2) →
  ∃ st' p' h', Process.tryOnBlob fix_ (Process.visits (2 ^ k) n) mode allocating (2 ^ k) a n false func st p h =
    Ok (true, p', h') ∧ I n st' p' h'.
Proof using Hk.
  intros (Ha & Htop & Hmap) Hn Hi HI Hf. destruct (decide (n = 0)) as [->|Hn0].
  { exists st, p, h. split; [|done]. by destruct (Process.visits (2 ^ k) 0). }
  destruct (on_mapped fix_ mode allocating I a n func (pTable p) Ha Htop Hmap HI)
    with (fuel := Process.visits (2 ^ k) n) (z := 0) (st := st) (p := p) (h := h) as (st' & p' & h' & Hr & Hi').
  2: done. 2: lia. 2: right; rewrite Z.add_0_r, Z.sub_0_r; by apply visits_enough.
  2: rewrite Z.add_0_r, Z.sub_0_r, u64_small in Hr by (split; lia); eauto.
  intros z l q st' p' h' Hi' Hz Hl Hzl Hleft Hq. apply Hf; try done. destruct (HI _ _ _ _ Hi') as [Hm Hpt].
  pose proof (lookup_mapped p' h' (a + z) Hm ltac:(split; lia)) as Hlk. rewrite Hpt in Hlk.
  destruct (lookup (pTable p) (a + z)) as [e|]; [|congruence]. destruct Hlk as (_ & Ht & _ & _ & Hsp & _).
  rewrite Ht in Hq. injection Hq as <-. unfold page_left in Hleft.
  pose proof (Z.mod_pos_bound (a + z) (2 ^ k) ltac:(pose proof (EmulationPageTable.page_pos k Hk); lia)).
  apply (spans_part _ _ (2 ^ k)); (done || lia).
Qed.

(** ** Writing *)

(** The [z] bytes from [a] on have been replaced. *)
Record wrote (f : Z → option Z) (a z : Z) (p0 : Process.t) (h0 : hmem) (p : Process.t) (h : hmem) : Prop := {
  wr_same : p = set_mem (mem p) p0;
  wr_ok : ok (mem p) h;
  wr_keeps : keeps (mem p0) (mem p);
  wr_in v q : a <= v < a + z → EmulationPageTable.translate (pTable p0) v = Some q → guest (mem p) h q = f v;
  wr_out x : (∀ v, a <= v < a + z → EmulationPageTable.translate (pTable p0) v ≠ Some x) →
    guest (mem p) h x = guest (mem p0) h0 x;
  wr_peek b i : ¬ holds (mem p0) b → peek h b i = peek h0 b i;
  wr_bounds q n : in_bounds h q n = in_bounds h0 q n;
}.

Lemma mapped_ok_same p h m h' :
  mapped_ok p h → keeps (mem p) m → ok m h' → mapped_ok (set_mem m p) h'.
Proof.
  intros [Ht Hf Ha Ho] [Hh Hs] Hm. constructor; simpl; [done| |done|done].
  intros v e He. destruct (Hf v e He). auto.
Qed.

Lemma wrote_mapped f a z p0 h0 p h :
  mapped_ok p0 h0 → wrote f a z p0 h0 p h → mapped_ok p h ∧ pTable p = pTable p0.
Proof.
  intros Hm [Hs Ho Hk' _ _ _ _]. rewrite Hs. split; [|done]. apply (mapped_ok_same p0 h0); (done || by rewrite Hs in Ho).
Qed.

Lemma wrote_refl f a p h : mapped_ok p h → wrote f a 0 p h p h.
Proof.
  intros Hm. constructor; try done; [by destruct p|apply Hm|]. intros v q Hv. lia.
Qed.

Lemma wrote_with f g a z p0 h0 p h :
  (∀ x, a <= x < a + z → f x = g x) → wrote f a z p0 h0 p h → wrote g a z p0 h0 p h.
Proof. intros He [? ? ? Hin ? ? ?]. constructor; try done. intros v q Hv Hq. rewrite <-He by done. by apply Hin. Qed.

Lemma wrote_step f g a z l q p0 h0 p h m h' :
  mapped_ok p0 h0 → 0 <= a → 0 <= z → 0 < l → a + z + l <= 2 ^ 64 → l <= page_left k (a + z) →
  EmulationPageTable.translate (pTable p0) (a + z) = Some q →
  wrote f a z p0 h0 p h → stored g q l (mem p) h m h' → (∀ i, 0 <= i < l → g (q + i) = f (a + z + i)) →
  wrote f a (z + l) p0 h0 (set_mem m p) h'.
Proof using Hk.
  intros Hm Ha Hz Hl Htop Hleft Hq [Hs Ho Hkp Hin Hout Hpk Hbd] [Ho' Hkp' Hg Hpk' Hbd'] Hfg.
  assert (∀ i, 0 <= i < l → EmulationPageTable.translate (pTable p0) (a + z + i) = Some (q + i)) as Hnear.
  { intros i Hi. apply (translate_near p0 h0); (done || (split; lia) || lia). }
  constructor; simpl; try done.
  - rewrite Hs. done.
  - by eapply same_guest_trans.
  - intros v q' Hv Hq'. rewrite Hg. destruct (decide (v < a + z)) as [Hlt|Hge].
    + rewrite decide_False; [by apply Hin; [lia|]|]. intros Hx.
      pose proof (Hnear (q' - q) ltac:(lia)) as Hn. replace (q + (q' - q)) with q' in Hn by lia.
      assert (v = a + z + (q' - q)); [|lia]. eapply (translate_apart p0 h0 v _ q'); (done || (split; lia)).
    + pose proof (Hnear (v - (a + z)) ltac:(lia)) as Hn. replace (a + z + (v - (a + z))) with v in Hn by lia.
      rewrite Hq' in Hn. injection Hn as ->. rewrite decide_True by lia. rewrite Hfg by lia. f_equal. lia.
  - intros x Hx. rewrite Hg, decide_False.
    + apply Hout. intros v Hv. apply Hx. lia.
    + intros Hr. apply (Hx (a + z + (x - q))); [lia|]. rewrite Hnear by lia. f_equal. lia.
  - intros b i Hb. rewrite Hpk' by by rewrite (proj1 Hkp). by apply Hpk.
  - intros q' n. by rewrite Hbd'.
Qed.

(** The contents as the program sees them. *)
Definition vguest (p : Process.t) (h : hmem) (x : Z) : option Z :=
  if decide (is_u64 x) then virt p h x else None.

Lemma wrote_virt f a n p0 h0 p h :
  mapped_ok p0 h0 → vspans p0 a n → wrote f a n p0 h0 p h →
  ∀ x, vguest p h x = if decide (a <= x < a + n) then f x else vguest p0 h0 x.
Proof using Hk.
  intros Hm (Ha & Htop & Hmap) [Hs Ho Hkp Hin Hout Hpk Hbd] x. unfold vguest, virt.
  assert (pTable p = pTable p0) as -> by by rewrite Hs. repeat case_decide; try done.
  - specialize (Hmap (x - a) ltac:(lia)). replace (a + (x - a)) with x in Hmap by lia.
    destruct (EmulationPageTable.translate (pTable p0) x) as [q|] eqn:Hq; [|done]. simpl. by apply Hin.
  - destruct (EmulationPageTable.translate (pTable p0) x) as [q|] eqn:Hq; [|done]. simpl. apply Hout.
    intros v Hv Hv'. assert (v = x); [|lia]. apply (translate_apart p0 h0 v x q); (done || (split; lia)).
  - unfold is_u64 in *. lia.
Qed.

Lemma write_mapped fix_ allocating a d n p h :
  mapped_ok p h → vspans p a n → 0 <= n → in_bounds h d n = true → ¬ holds (mem p) (block d) →
  ∃ p' h', Process.tryWriteBlob fix_ allocating (2 ^ k) a d n p h = Ok (true, p', h') ∧
    wrote (λ v, peek h (block d) (offset d + (v - a))) a n p h p' h'.
Proof using Hk.
  intros Hm Hsp Hn Hb Hnh. set (f := λ v, peek h (block d) (offset d + (v - a))). unfold Process.tryWriteBlob.
  set (func := λ pa n d p h, _).
  destruct (on_region fix_ Process.Write allocating (λ z d' p' h', d' = ptr_add d z ∧ wrote f a z p h p' h') a n
    func d p h Hsp Hn) as (d' & p' & h' & Hr & _ & Hw).
  - split; [by rewrite ptr_add_0|by apply wrote_refl].
  - intros z st p1 h1 [_ Hw]. by apply (wrote_mapped f a z p h).
  - intros z l q st p1 h1 [-> Hw] Hz Hl Hzl Hleft Hq Hspl. pose proof (wr_keeps _ _ _ _ _ _ _ Hw) as [Hkh Hks].
    destruct (write_blob q (ptr_add d z) l (mem p1) h1) as (m & h' & Hwb & Ho & Hkp & Hg & Hfr & Hbd).
    + apply Hw.
    + done.
    + rewrite (wr_bounds _ _ _ _ _ _ _ Hw). apply (in_bounds_part h d n z l); (done || lia).
    + by rewrite Hkh.
    + unfold func, writeBlob. rewrite Hwb. simpl. eexists _, _, _. split; [done|]. split; [by rewrite ptr_add_add|].
      destruct Hsp as (? & ? & _). eapply wrote_step; try done; [lia| |].
      * constructor; try done. exact Hg.
      * intros i Hi. simpl. rewrite (wr_peek _ _ _ _ _ _ _ Hw) by done. unfold f. f_equal. lia.
  - by exists p', h'.
Qed.

(** A page that is written from a buffer of zeros, released again. *)
Lemma zero_page_ok depth a p h :
  mapped_ok p h → vspans p a (2 ^ k) →
  ∃ p' h', Process.zero_page depth a p h = Ok (p', h') ∧ wrote (λ _, Some 0) a (2 ^ k) p h p' h'.
Proof using Hk.
  intros Hm Hs. pose proof (EmulationPageTable.page_pos k Hk) as Hp. unfold Process.zero_page.
  rewrite (mo_page p h Hm). set (bs := replicate (Z.to_nat (2 ^ k)) 0).
  assert (Z.of_nat (length bs) = 2 ^ k) as Hlen by (unfold bs; rewrite length_replicate; lia).
  destruct (alloc_ok h (2 ^ k) ltac:(lia)) as (b & h1 & -> & Hnone & Hb & Hpk & Hbd).
  pose proof (fresh_block _ _ _ (mo_ok _ _ Hm) Hnone) as Hnb.
  destruct (store_bytes_in_bounds h1 (Ptr b 0) bs) as [h2 Hst]; [by rewrite Hlen|]. rewrite Hst, res_bind_Ok.
  assert (∀ c i, c ≠ b → peek h2 c i = peek h c i) as Hp2.
  { intros c i Hc. rewrite (store_bytes_peek _ _ _ _ c i Hst), decide_False by (by intros [? _]). by apply Hpk. }
  assert (∀ q n, in_bounds h2 q n = in_bounds h1 q n) as Hb2 by (intros; by eapply store_bytes_in_bounds_frame).
  destruct (ok_except (mem p) h h2 b (mo_ok _ _ Hm) Hnb Hp2) as [Hok2 Hg2].
  { intros q n Hq. rewrite Hb2. by apply Hbd. }
  assert (mapped_ok p h2) as Hm2 by (destruct Hm; by constructor).
  destruct (write_mapped (Process.fixupFault depth) Process.Always a (Ptr b 0) (2 ^ k) p h2 Hm2 Hs)
    as (p' & h' & Hw & [Hsm Ho Hkp Hin Hout Hpk' Hbd']); [lia|by rewrite Hb2|done|].
  unfold Process.virt_writeBlob. rewrite Hw. simpl. eexists _, _. split; [done|].
  destruct (ok_except (mem p') h' (delete b h') b) as [Hok3 Hg3].
  - done.
  - by rewrite (proj1 Hkp).
  - intros c i Hc. by rewrite peek_delete, decide_False.
  - intros q n Hq. by rewrite in_bounds_delete, decide_False.
  - constructor; try done.
    + intros v q Hv Hq. rewrite Hg3, (Hin v q Hv Hq). rewrite (store_bytes_peek _ _ _ _ _ _ Hst). simpl.
      rewrite Hlen, decide_True by lia. unfold bs. by rewrite lookup_replicate_2 by lia.
    + intros x Hx. by rewrite Hg3, Hout, Hg2.
    + intros c i Hc. rewrite peek_delete. case_decide as Hcb; [subst; unfold peek; by rewrite Hnone|].
      rewrite Hpk' by done. by apply Hp2.
    + intros q n. rewrite in_bounds_delete. case_decide as Hcb; [subst; unfold in_bounds; by rewrite Hnone|].
      rewrite Hbd', Hb2. by apply Hbd.
Qed.

Lemma memset_mapped {HS : BlobMemset G} fix_ allocating a v n p h :
  mapped_ok p h → vspans p a n → 0 <= n → 0 <= v < 256 →
  ∃ p' h', Process.tryMemsetBlob fix_ allocating (2 ^ k) a v n p h = Ok (true, p', h') ∧
    wrote (λ _, Some v) a n p h p' h'.
Proof using Hk.
  intros Hm Hsp Hn Hv. unfold Process.tryMemsetBlob. set (func := λ pa n d p h, _).
  destruct (on_region fix_ Process.Write allocating (λ z (_ : unit) p' h', wrote (λ _, Some v) a z p h p' h') a n
    func tt p h Hsp Hn) as (d' & p' & h' & Hr & Hw).
  - by apply wrote_refl.
  - intros z st p1 h1 Hw. by eapply wrote_mapped.
  - intros z l q st p1 h1 Hw Hz Hl Hzl Hleft Hq Hspl.
    destruct (memset_blob q v l (mem p1) h1) as (m & h' & Hwb & Ho & Hkp & Hg & Hfr & Hbd); [apply Hw|done|lia|done|].
    unfold func, memsetBlob. rewrite Hwb. simpl. eexists _, _, _. split; [done|].
    destruct Hsp as (? & ? & _). eapply wrote_step; try done; [lia| |].
    + constructor; try done. exact Hg.
    + done.
  - by exists p', h'.
Qed.

(** ** Reading *)

(** [z] bytes from [a] on have been copied to [d]. *)
Record fetched (a : Z) (d : ptr) (z : Z) (p0 : Process.t) (h0 : hmem) (p : Process.t) (h : hmem) : Prop := {
  fe_same : p = set_mem (mem p) p0;
  fe_ok : ok (mem p) h;
  fe_keeps : keeps (mem p0) (mem p);
  fe_guest x : guest (mem p) h x = guest (mem p0) h0 x;
  fe_buffer i : 0 <= i < z → peek h (block d) (offset d + i) = vguest p0 h0 (a + i);
  fe_peek b i : b ≠ block d ∨ ¬ offset d <= i < offset d + z → peek h b i = peek h0 b i;
  fe_bounds q n : in_bounds h q n = in_bounds h0 q n;
}.

Lemma read_mapped fix_ allocating a d n p h :
  mapped_ok p h → vspans p a n → 0 <= n → in_bounds h d n = true → ¬ holds (mem p) (block d) →
  ∃ p' h', Process.tryReadBlob fix_ allocating (2 ^ k) a d n p h = Ok (true, p', h') ∧ fetched a d n p h p' h'.
Proof using Hk.
  intros Hm Hsp Hn Hb Hnh. unfold Process.tryReadBlob. set (func := λ pa n d p h, _).
  destruct (on_region fix_ Process.Read allocating (λ z d' p' h', d' = ptr_add d z ∧ fetched a d z p h p' h') a n
    func d p h Hsp Hn) as (d' & p' & h' & Hr & _ & Hw).
  - split; [by rewrite ptr_add_0|]. constructor; try done; [by destruct p|apply Hm|lia].
  - intros z st p1 h1 [_ [Hs Ho Hkp _ _ _ _]]. rewrite Hs. split; [|done]. by apply (mapped_ok_same p h).
  - intros z l q st p1 h1 [-> [Hs Ho [Hkh Hks] Hg Hbuf Hpk Hbd]] Hz Hl Hzl Hleft Hq Hspl. destruct Hsp as (? & ? & _).
    destruct (read_blob q (ptr_add d z) l (mem p1) h1) as (m & h' & Hrb & Ho' & Hkp' & Hg' & Hbuf' & Hfr & Hbd').
    + done.
    + done.
    + rewrite Hbd. apply (in_bounds_part h d n z l); (done || lia).
    + by rewrite Hkh.
    + unfold func, readBlob. rewrite Hrb. simpl. eexists _, _, _. split; [done|]. split; [by rewrite ptr_add_add|].
      constructor; simpl; try done.
      * by rewrite Hs.
      * by eapply same_guest_trans.
      * intros x. by rewrite Hg'.
      * intros i Hi. destruct (decide (i < z)); [rewrite Hfr by (right; simpl; lia); apply Hbuf; lia|].
        specialize (Hbuf' (i - z) ltac:(lia)). simpl in Hbuf'. replace (offset d + z + (i - z)) with (offset d + i) in Hbuf' by lia.
        rewrite Hbuf', Hg. unfold vguest, virt. rewrite decide_True by (split; lia).
        replace (a + i) with (a + z + (i - z)) by lia. rewrite (translate_near p h (a + z) q); (done || (split; lia) || lia).
      * intros b i Hbi. rewrite Hfr by (simpl; destruct Hbi; [by left|right; lia]). apply Hpk. destruct Hbi; [by left|right; lia].
      * intros q' n'. by rewrite Hbd'.
  - by exists p', h'.
Qed.

(** ** The proxy as an interface *)

Lemma fetched_virt a d z p0 h0 p h : fetched a d z p0 h0 p h → ∀ x, vguest p h x = vguest p0 h0 x.
Proof.
  intros [Hs _ _ Hg _ _ _] x. unfold vguest, virt. assert (pTable p = pTable p0) as -> by by rewrite Hs.
  case_decide; [|done]. destruct (EmulationPageTable.translate (pTable p0) x); [|done]. simpl. apply Hg.
Qed.

Lemma mapped_ok_frame p h h' :
  mapped_ok p h → (∀ b i, holds (mem p) b → peek h' b i = peek h b i) →
  (∀ q n, holds (mem p) (block q) → in_bounds h' q n = in_bounds h q n) →
  mapped_ok p h' ∧ ∀ x, vguest p h' x = vguest p h x.
Proof.
  intros [Ht Hf Ha Ho] Hp Hb. destruct (ok_frame _ _ _ Ho Hp Hb) as [Ho' Hg]. split; [by constructor|].
  intros x. unfold vguest, virt. case_decide; [|done].
  destruct (EmulationPageTable.translate (pTable p) x); [|done]. simpl. apply Hg.
Qed.

Lemma vspans_same p p' a n : pTable p' = pTable p → vspans p a n → vspans p' a n.
Proof. intros Hp. unfold vspans. by rewrite Hp. Qed.

(** [TranslatingPortProxy] over mapped addresses, whatever it allocates. *)
Section Proxy.

Context (fix_ : Z → Process.t (G := G) → hmem → res (bool * Process.t (G := G) * hmem)).
Context (allocating : Process.AllocType).

#[program] Definition virt_proxy : BlobProxy (Process.t (G := G)) := {|
  tryReadBlob := Process.tryReadBlob fix_ allocating (2 ^ k);
  tryWriteBlob := Process.tryWriteBlob fix_ allocating (2 ^ k);
  guest := vguest;
  holds p := holds (mem p);
  spans := vspans;
  ok := mapped_ok;
|}.
Next Obligation. intros p h h' Hm Hp Hb. by apply mapped_ok_frame. Qed.
Next Obligation. intros p h b Hm Hb. by apply (ok_holds (mem p)); [apply Hm|]. Qed.
Next Obligation. by intros p a n (? & ? & _). Qed.
Next Obligation.
  intros p a n z l (? & ? & Hm) ? ? ?. split; [lia|]. split; [lia|]. intros y Hy.
  rewrite <-Z.add_assoc. apply Hm. lia.
Qed.
Next Obligation.
  intros a d n p h Hm Hs Hb Hnh. pose proof Hb as (? & _ & _ & Hn & _)%in_bounds_iff.
  destruct (read_mapped fix_ allocating a d n p h) as (p' & h' & Hr & Hf); [done..|].
  exists p', h'. split; [done|]. pose proof (fetched_virt _ _ _ _ _ _ _ Hf) as Hv.
  destruct Hf as [Hsm Ho Hkp Hg Hbuf Hpk Hbd]. assert (pTable p' = pTable p) as Hpt by by rewrite Hsm.
  split; [rewrite Hsm; by apply (mapped_ok_same p h)|]. split; [|done].
  split; [intros; apply Hkp|]. intros b l. by apply vspans_same.
Qed.
Next Obligation.
  intros a d n p h Hm Hs Hb Hnh. pose proof Hb as (? & _ & _ & Hn & _)%in_bounds_iff.
  destruct (write_mapped fix_ allocating a d n p h) as (p' & h' & Hr & Hw); [done..|].
  exists p', h'. split; [done|]. pose proof (wrote_virt _ _ _ _ _ _ _ Hm Hs Hw) as Hv.
  destruct (wrote_mapped _ _ _ _ _ _ _ Hm Hw) as [Hm' Hpt]. destruct Hw as [_ _ Hkp _ _ Hpk Hbd].
  split; [done|]. split; [|done]. split; [intros; apply Hkp|]. intros b l. by apply vspans_same.
Qed.

#[program] Definition virt_memset {HS : BlobMemset G} : @BlobMemset _ virt_proxy := {|
  tryMemsetBlob := Process.tryMemsetBlob fix_ allocating (2 ^ k)
|}.
Next Obligation.
  intros HS a v n p h Hm Hs Hn Hv. simpl in *.
  destruct (memset_mapped fix_ allocating a v n p h) as (p' & h' & Hr & Hw); [done..|].
  exists p', h'. split; [done|]. pose proof (wrote_virt _ _ _ _ _ _ _ Hm Hs Hw) as Hvg.
  destruct (wrote_mapped _ _ _ _ _ _ _ Hm Hw) as [Hm' Hpt]. destruct Hw as [_ _ Hkp _ _ Hpk Hbd].
  split; [done|]. split; [|done]. split; [exact (proj1 Hkp)|]. intros b l. by apply vspans_same.
Qed.

End Proxy.
End Access.

End VirtMem.
