(* ===== verification/ProcessInv.v ===== *)
(** What holds of the memory of a process while it allocates, faults and releases:
    every page has a frame of its own, and frames that are given out read zero. *)

From S2P Require Import Prelude Bits AddrRange Host PageTable PortProxy FreeList MemPool Vma MemState Process VirtMem.
Import Intmath Host PortProxy.

Module ProcessInv.
Import Process (pTable, mem, seWorkload, memState, zeroPages, set_mem, set_pTable, set_seWorkload, set_memState,
  virt, pageSize, allocateMem).
Import EmulationPageTable (paddr, page_of, mkEntry).
Import VirtMem.

Section Frames.

Context {G : Type} {HB : BlobProxy G}.

(** Pages of [2 ^ k] bytes; the pool has the frames from [first] on. The pages of
    [ext] may be mapped to memory outside the pool. *)
Context (k first total : Z) (ext : Z → Prop) (Hk : 0 <= k < 64).
Context (Hpool : 0 <= first ∧ 0 < total ∧ (first + total) * 2 ^ k < 2 ^ 64).

Definition pooled (f : Z) : Prop := first <= f < first + total.

(** The entries of the page table. *)
Definition entry (p : Process.t (G := G)) (v : Z) : option EmulationPageTable.Entry :=
  EmulationPageTable.pTable (pTable p) !! v.

(** [al]: the frames of the pool that have been given out. *)
Record inv (p : Process.t) (h : hmem) (al : gset Z) : Prop := {
  iv_mapped : mapped_ok k p h;
  iv_frame v e : entry p v = Some e → ∃ f, paddr e = f * 2 ^ k ∧ (f ∈ al ∨ ¬ pooled f ∧ ext v);
  iv_pool : ∃ pool, MemPool.pools (seWorkload p) !! 0%nat = Some pool ∧ MemPool.inv k first total pool al;
  iv_spans : spans (mem p) (first * 2 ^ k) (total * 2 ^ k);
  iv_zero : zeroPages p = true → ∀ f i, pooled f → f ∉ al → 0 <= i < 2 ^ k → guest (mem p) h (f * 2 ^ k + i) = Some 0;
}.

(** The page of an address, and the pages of [size] bytes. *)
Definition page (v : Z) : Z := v - v mod 2 ^ k.
Definition npages (size : Z) : Z := (size + 2 ^ k - 1) / 2 ^ k.

Lemma frame_eq f f' : f * 2 ^ k = f' * 2 ^ k → f = f'.
Proof using Hk. pose proof (EmulationPageTable.page_pos k Hk). intros H'. apply (Z.mul_reg_r _ _ (2 ^ k)); [lia|done]. Qed.

Lemma page_mod v : page v mod 2 ^ k = 0.
Proof. unfold page. rewrite Zminus_mod_idemp_r, Z.sub_diag. done. Qed.

(** The page of a region at a multiple of the page size. *)
Lemma page_of_multiple v n a : v mod 2 ^ k = 0 → page_of k v (n * 2 ^ k) a ↔ ∃ j, 0 <= j < n ∧ a = v + j * 2 ^ k.
Proof using Hk.
  clear Hpool. intros Hv. pose proof (EmulationPageTable.page_pos k Hk). unfold page_of. split.
  - intros [Ha Hm]. apply Z.mod_divide in Hm as [j Hj]; [|lia]. exists j. nia.
  - intros (j & Hj & ->). split; [nia|]. replace (v + j * 2 ^ k - v) with (j * 2 ^ k) by lia. apply Z.mod_mul. lia.
Qed.

(** ** New entries *)

(** The pages from [v] on have the frames from [x] on. *)
Record remaps (v n x fl : Z) (p p' : Process.t) (al' : gset Z) : Prop := {
  re_entry a : entry p' a = if decide (page_of k v (n * 2 ^ k) a) then Some (mkEntry (x * 2 ^ k + (a - v)) fl) else entry p a;
  re_keeps : keeps (mem p) (mem p');
  re_frame f : x <= f < x + n → spans (mem p) (f * 2 ^ k) (2 ^ k) ∧ (f ∈ al' ∨ ¬ pooled f ∧ ext (v + (f - x) * 2 ^ k));
  re_fresh f a e : x <= f < x + n → ¬ page_of k v (n * 2 ^ k) a → entry p a = Some e → paddr e ≠ f * 2 ^ k;
}.

Lemma remaps_inv v n x fl p p' h h' al al' pool :
  inv p h al → v mod 2 ^ k = 0 → EmulationPageTable.typed k (pTable p') → ok (mem p') h' → remaps v n x fl p p' al' →
  al ⊆ al' → MemPool.pools (seWorkload p') !! 0%nat = Some pool → MemPool.inv k first total pool al' →
  (zeroPages p' = true → ∀ f i, pooled f → f ∉ al' → 0 <= i < 2 ^ k → guest (mem p') h' (f * 2 ^ k + i) = Some 0) →
  inv p' h' al'.
Proof using Hk.
  intros [Hm Hf _ Hs _] Hv Ht Ho [He Hkp Hfr Hne] Hsub Hp Hpi Hz. pose proof (EmulationPageTable.page_pos k Hk) as Hpos.
  assert (∀ a e, entry p' a = Some e →
    (page_of k v (n * 2 ^ k) a ∧ ∃ j, 0 <= j < n ∧ a = v + j * 2 ^ k ∧ paddr e = (x + j) * 2 ^ k) ∨
    (¬ page_of k v (n * 2 ^ k) a ∧ entry p a = Some e)) as Hcase.
  { clear Hpool. intros a e. rewrite He. case_decide as Hd; [|eauto]. pose proof Hd as (j & Hj & ->)%page_of_multiple; [|done].
    intros [= <-]. left. split; [done|]. exists j. simpl. split; [done|]. split; [done|lia]. }
  constructor; [|..|by exists pool|by apply Hkp|done].
  - constructor; [done| | |done].
    + intros a e [(_ & j & Hj & _ & ->)|[_ Ha]]%Hcase; [|destruct (mo_frame _ _ _ Hm a e Ha); split; [done|by apply Hkp]].
      split; [apply Z.mod_mul; lia|]. apply Hkp, Hfr. lia.
    + intros a a' e e' [(Hpa & j & Hj & Ha & Hje)|[Hna Ha]]%Hcase [(Hpa' & j' & Hj' & Ha' & Hje')|[Hna' Ha']]%Hcase Heq.
      * rewrite Hje, Hje' in Heq. apply frame_eq in Heq. subst a a'. replace j' with j by lia. done.
      * destruct (Hne (x + j) a' e'); try done; [lia|congruence].
      * destruct (Hne (x + j') a e); try done; [lia|congruence].
      * by apply (mo_apart _ _ _ Hm a a' e e').
  - intros a e [(_ & j & Hj & -> & ->)|[_ Ha]]%Hcase; [exists (x + j); split; [done|]; destruct (Hfr (x + j)) as [_ Hfa]; [lia|]; by replace (x + j - x) with j in Hfa by lia|].
    destruct (Hf a e Ha) as (f & -> & Hfa). exists f. split; [done|]. destruct Hfa; [left; by apply Hsub|by right].
Qed.

(** ** Allocation *)

(** The pages from [v] on have the frames from [x] on, which were free. *)
Record gains (v n x fl : Z) (p p' : Process.t) (al : gset Z) : Prop := {
  ga_same : p' = set_pTable (pTable p') (set_seWorkload (seWorkload p') p);
  ga_entry a : entry p' a = if decide (page_of k v (n * 2 ^ k) a) then Some (mkEntry (x * 2 ^ k + (a - v)) fl) else entry p a;
  ga_free f : x <= f < x + n → pooled f ∧ f ∉ al;
}.

Lemma pooled_spans p h al f : inv p h al → pooled f → spans (mem p) (f * 2 ^ k) (2 ^ k).
Proof using Hk.
  clear Hpool. intros Hi [Hf1 Hf2]. pose proof (EmulationPageTable.page_pos k Hk).
  replace (f * 2 ^ k) with (first * 2 ^ k + (f - first) * 2 ^ k) by lia.
  apply (spans_part _ _ (total * 2 ^ k)); [apply Hi|nia|lia|nia].
Qed.

Lemma gains_inv v n x fl p p' h al pool :
  inv p h al → v mod 2 ^ k = 0 → EmulationPageTable.typed k (pTable p') → gains v n x fl p p' al →
  MemPool.pools (seWorkload p') !! 0%nat = Some pool → MemPool.inv k first total pool (al ∪ MemPool.pages x n) →
  inv p' h (al ∪ MemPool.pages x n).
Proof using Hk Hpool.
  intros Hi Hv Ht [Hsm He Hfree] Hp Hpi.
  assert (mem p' = mem p) as Hmem by by rewrite Hsm. assert (zeroPages p' = zeroPages p) as Hzp by by rewrite Hsm.
  eapply remaps_inv; try done; [rewrite Hmem; apply Hi| |set_solver|].
  - constructor; [done|by rewrite Hmem| |].
    + intros f Hf. split; [eapply pooled_spans; [done|by apply Hfree]|left]. rewrite elem_of_union, MemPool.elem_of_pages. by right.
    + intros f a e Hf _ Ha Heq. destruct (iv_frame _ _ _ Hi a e Ha) as (g & Hg & Hga). rewrite Heq in Hg.
      apply frame_eq in Hg as <-. destruct (Hfree f Hf). tauto.
  - rewrite Hzp, Hmem. intros Hzt f i Hfp Hnf Hi'. apply (iv_zero _ _ _ Hi); try done. set_solver.
Qed.

(** A size of some pages, at an address. *)
Record sized (v size : Z) : Prop := {
  sz_addr : is_u64 v;
  sz_pos : 0 < size;
  sz_int : npages size < 2 ^ 31;
  sz_bytes : npages size * 2 ^ k < 2 ^ 63;
  sz_top : page v + npages size * 2 ^ k <= 2 ^ 64;
}.

Lemma npages_pos size : 0 < size → 0 < npages size ∧ size <= npages size * 2 ^ k < size + 2 ^ k.
Proof using Hk.
  clear Hpool. intros Hs. pose proof (EmulationPageTable.page_pos k Hk). unfold npages.
  pose proof (Z.div_mod (size + 2 ^ k - 1) (2 ^ k) ltac:(lia)). pose proof (Z.mod_pos_bound (size + 2 ^ k - 1) (2 ^ k) ltac:(lia)).
  nia.
Qed.

(** The numbers [allocateMem] computes. *)
Lemma allocate_numbers p h v size :
  mapped_ok k p h → sized v size →
  roundDown v (pageSize p) = page v ∧
  Process.to_int (u64 (u64 (size + pageSize p) - 1) / pageSize p) = npages size ∧
  u64 (npages size * pageSize p) = npages size * 2 ^ k ∧ u64 (npages size) = npages size.
Proof using Hk.
  clear Hpool. intros Hm [Hv Hs Hi Hb Ht]. pose proof (EmulationPageTable.page_pos k Hk) as Hp.
  destruct (npages_pos size Hs) as (Hn & Hle & Hlt). rewrite (mo_page k p h Hm).
  assert (u64 (u64 (size + 2 ^ k) - 1) = size + 2 ^ k - 1) as ->.
  { unfold u64. rewrite Zminus_mod_idemp_l. assert (2 ^ k <= npages size * 2 ^ k) by nia. apply Z.mod_small. lia. }
  fold (npages size). split; [by apply roundDown_spec|]. split; [|split; apply u64_small; split; nia].
  unfold Process.to_int, AddrRange.s32. rewrite Z.mod_small; lia.
Qed.

Lemma lookup_page p h v :
  mapped_ok k p h → is_u64 v → EmulationPageTable.lookup (pTable p) (page v) = entry p (page v).
Proof using Hk.
  clear Hpool. intros Hm Hv. unfold EmulationPageTable.lookup, entry.
  pose proof (Z.mod_pos_bound v (2 ^ k) ltac:(pose proof (EmulationPageTable.page_pos k Hk); lia)).
  pose proof (Z.mod_le v (2 ^ k) ltac:(apply Hv) ltac:(pose proof (EmulationPageTable.page_pos k Hk); lia)).
  rewrite (EmulationPageTable.pageAlign_mod k Hk) by ((eapply mo_wf; done) || (destruct Hv; split; unfold page; lia)).
  by rewrite page_mod, Z.sub_0_r.
Qed.

Lemma page_range v : is_u64 v → 0 <= page v <= v.
Proof using Hk.
  clear Hpool. intros [? ?]. pose proof (EmulationPageTable.page_pos k Hk).
  pose proof (Z.mod_pos_bound v (2 ^ k) ltac:(lia)). pose proof (Z.mod_le v (2 ^ k) ltac:(lia) ltac:(lia)). unfold page. lia.
Qed.

Lemma page_below x b : b mod 2 ^ k = 0 → b <= x ↔ b <= page x.
Proof using Hk.
  clear Hpool. intros Hb. pose proof (EmulationPageTable.page_pos k Hk). pose proof (Z.mod_pos_bound x (2 ^ k) ltac:(lia)).
  pose proof (page_mod x) as Hm. apply Z.mod_divide in Hm as [i Hi]; [|lia]. apply Z.mod_divide in Hb as [j ->]; [|lia].
  unfold page in *. split; [|lia]. intros Hx. assert (j < i + 1) by (apply (Z.mul_lt_mono_pos_r (2 ^ k)); lia).
  rewrite Hi. apply Z.mul_le_mono_nonneg_r; lia.
Qed.

Lemma allocate_mapped p h al v size :
  inv p h al → sized v size → entry p (page v) ≠ None → allocateMem v size false p = Ok p.
Proof using Hk.
  clear Hpool. intros Hi Hs He. pose proof (iv_mapped _ _ _ Hi) as Hm. unfold allocateMem.
  destruct (allocate_numbers p h v size Hm Hs) as (-> & _). rewrite (lookup_page p h v Hm) by apply Hs.
  by destruct (entry p (page v)).
Qed.

Definition no_range (p : Process.t (G := G)) (n : Z) : Prop :=
  ∃ pool, MemPool.pools (seWorkload p) !! 0%nat = Some pool ∧
    Forall (λ r, FreeList.size r < n) (FreeList._ranges (MemPool.freePhysPages pool)).

Definition mapping_flags (clobber : bool) : Z := if clobber then EmulationPageTable.Clobber else 0.

Lemma allocate_new p h al v size clobber :
  inv p h al → sized v size → (∀ a, page_of k (page v) (npages size * 2 ^ k) a → entry p a = None) →
  (∃ x p', allocateMem v size clobber p = Ok p' ∧ gains (page v) (npages size) x (mapping_flags clobber) p p' al ∧
     inv p' h (al ∪ MemPool.pages x (npages size))) ∨
  allocateMem v size clobber p = Fail FatalFailure ∧ no_range p (npages size).
Proof using Hk Hpool.
  intros Hi Hs Hun. pose proof (iv_mapped _ _ _ Hi) as Hm. pose proof (EmulationPageTable.page_pos k Hk) as Hp.
  destruct (npages_pos size (sz_pos _ _ Hs)) as (Hn & _). pose proof (page_range v (sz_addr _ _ Hs)) as Hpv.
  pose proof (sz_top _ _ Hs) as Htop. destruct (iv_pool _ _ _ Hi) as (pool & Hpl & Hpi). unfold allocateMem.
  destruct (allocate_numbers p h v size Hm Hs) as (-> & -> & -> & Hnu). rewrite (lookup_page p h v Hm) by apply Hs.
  rewrite (Hun (page v)) by (apply page_of_multiple; [apply page_mod|]; exists 0; lia). rewrite andb_false_r.
  fold (mapping_flags clobber). unfold MemPool.allocPhysPages, MemPool.pool_at. rewrite Hpl, Hnu. simpl.
  destruct (MemPool.allocate_inv k first total Hk Hpool pool al (npages size) Hpi Hn) as [(x & pool' & -> & _ & Hfr & Hpi')|[-> Hr]];
    [left|right; split; [done|by exists pool]].
  simpl. set (w := MemPool.mkPools _ _). assert (∀ j, 0 <= j < npages size → is_u64 ((x + j) * 2 ^ k)) as Hu.
  { intros j Hj. destruct (Hfr (x + j) ltac:(lia)) as [? _]. split; nia. }
  destruct (EmulationPageTable.map_table k (page v) (x * 2 ^ k) (npages size * 2 ^ k) (mapping_flags clobber) (pTable p))
    as (pt & -> & Ht & Hlk); [done|apply Hm|apply page_mod|lia|nia|done|rewrite <-(Z.add_0_r x); apply Hu; lia|by right|].
  simpl. eexists x, _. split; [done|].
  assert (gains (page v) (npages size) x (mapping_flags clobber) p (set_pTable pt (set_seWorkload w p)) al) as Hg.
  { constructor; [done| |done]. intros a. unfold entry. simpl. rewrite Hlk. case_decide as Hd; [|done].
    apply page_of_multiple in Hd as (j & Hj & ->); [|apply page_mod].
    do 2 f_equal. rewrite u64_small; [done|]. replace (x * 2 ^ k + (page v + j * 2 ^ k - page v)) with ((x + j) * 2 ^ k) by lia. auto. }
  split; [done|]. eapply gains_inv; try done; [apply page_mod|].
  simpl. apply list_lookup_insert_eq. by eapply lookup_lt_Some.
Qed.

(** A later page that is mapped already is an error. *)
Lemma allocate_conflict p h al v size a :
  inv p h al → sized v size → entry p (page v) = None → page_of k (page v) (npages size * 2 ^ k) a → entry p a ≠ None →
  allocateMem v size false p = Fail PanicFailure ∨ allocateMem v size false p = Fail FatalFailure.
Proof using Hk Hpool.
  intros Hi Hs Hun Hpg Ha. pose proof (iv_mapped _ _ _ Hi) as Hm. destruct (npages_pos size (sz_pos _ _ Hs)) as (Hn & _).
  pose proof (page_range v (sz_addr _ _ Hs)) as Hpv. destruct (iv_pool _ _ _ Hi) as (pool & Hpl & Hpi). unfold allocateMem.
  destruct (allocate_numbers p h v size Hm Hs) as (-> & -> & -> & Hnu). rewrite (lookup_page p h v Hm) by apply Hs.
  rewrite Hun. simpl. unfold MemPool.allocPhysPages, MemPool.pool_at. rewrite Hpl, Hnu. simpl.
  destruct (MemPool.allocate_inv k first total Hk Hpool pool al (npages size) Hpi Hn) as [(x & pool' & -> & _ & Hfr & _)|[-> _]];
    [left|by right]. simpl. destruct (Hfr x ltac:(lia)) as [? _].
  rewrite (EmulationPageTable.map_conflict k (page v) _ (npages size * 2 ^ k) 0 (pTable p) a); try done.
  - apply (mo_wf _ _ _ Hm).
  - apply page_mod.
  - lia.
  - apply Hs.
  - pose proof (EmulationPageTable.page_pos k Hk). split; nia.
  - unfold entry in Ha. by destruct (_ !! a).
Qed.

Lemma allocate_returns p h al v size p' :
  inv p h al → sized v size → allocateMem v size false p = Ok p' →
  (p' = p ∧ entry p (page v) ≠ None) ∨
  (∀ a, page_of k (page v) (npages size * 2 ^ k) a → entry p a = None) ∧
  ∃ x, gains (page v) (npages size) x 0 p p' al ∧ inv p' h (al ∪ MemPool.pages x (npages size)).
Proof using Hk Hpool.
  intros Hi Hs Hr. destruct (entry p (page v)) as [e|] eqn:He.
  { left. rewrite (allocate_mapped p h al) in Hr by (done || by rewrite He). by injection Hr as <-. }
  right. assert (∀ a, page_of k (page v) (npages size * 2 ^ k) a → entry p a = None) as Hun.
  { intros a Ha. destruct (entry p a) eqn:Hea; [|done].
    destruct (allocate_conflict p h al v size a Hi Hs He Ha) as [H|H]; [by rewrite Hea|congruence..]. }
  split; [done|]. destruct (allocate_new p h al v size false Hi Hs Hun) as [(x & p2 & H & Hg & Hi')|[H _]]; [|congruence].
  rewrite H in Hr. injection Hr as ->. eauto.
Qed.

(** ** Contents *)

Lemma translate_entry p h v e i :
  mapped_ok k p h → entry p v = Some e → 0 <= i < 2 ^ k → EmulationPageTable.translate (pTable p) (v + i) = Some (paddr e + i).
Proof using Hk.
  clear Hpool. intros Hm He Hi. destruct (EmulationPageTable.typed_entry _ _ (mo_typed _ _ _ Hm) _ _ He) as (Hv & Hal & _).
  destruct (spans_range _ _ _ (proj2 (mo_frame _ _ _ Hm _ _ He))).
  pose proof (lookup_mapped k Hk p h v Hm Hv) as Hl. unfold EmulationPageTable.lookup in Hl.
  rewrite (EmulationPageTable.pageAlign_mod k Hk), Hal, Z.sub_0_r in Hl by (done || by eapply mo_wf). unfold entry in He.
  rewrite He in Hl. destruct Hl as (_ & Ht & _). rewrite Z.add_0_r in Ht.
  apply (translate_near k Hk p h); try done. unfold page_left. rewrite Hal. lia.
Qed.

Lemma translate_page_entry p h v :
  mapped_ok k p h → is_u64 v →
  EmulationPageTable.translate (pTable p) v = (λ e, paddr e + v mod 2 ^ k) <$> entry p (page v).
Proof using Hk.
  clear Hpool. intros Hm Hv. destruct (entry p (page v)) as [e|] eqn:He; simpl.
  - pose proof (Z.mod_pos_bound v (2 ^ k) ltac:(pose proof (EmulationPageTable.page_pos k Hk); lia)).
    replace v with (page v + v mod 2 ^ k) at 1 by (unfold page; lia). by apply (translate_entry p h).
  - rewrite (EmulationPageTable.translate_eq k Hk) by (done || by eapply mo_wf). unfold entry, page in He. by rewrite He.
Qed.

(** Pages that are left alone keep their contents. *)
Lemma virt_kept p h p' h' a :
  mapped_ok k p h → mapped_ok k p' h' → is_u64 a → entry p' (page a) = entry p (page a) →
  (∀ e, entry p (page a) = Some e → guest (mem p') h' (paddr e + a mod 2 ^ k) = guest (mem p) h (paddr e + a mod 2 ^ k)) →
  virt p' h' a = virt p h a.
Proof using Hk.
  clear Hpool. intros Hm Hm' Ha He Hg. unfold virt. rewrite (translate_page_entry p' h'), (translate_page_entry p h), He by done.
  destruct (entry p (page a)); [|done]. simpl. by apply Hg.
Qed.

(** New pages read zero. *)
Lemma gains_zero v n x fl p p' h al a :
  inv p h al → mapped_ok k p' h → gains v n x fl p p' al → zeroPages p = true → v mod 2 ^ k = 0 → is_u64 a → v <= a < v + n * 2 ^ k →
  virt p' h a = Some 0.
Proof using Hk Hpool.
  intros Hi Hm [Hsm He Hfr] Hz Hv Hu Ha. pose proof (EmulationPageTable.page_pos k Hk) as Hp.
  pose proof (EmulationPageTable.page_of_byte k Hk v (n * 2 ^ k) (a - v) Hv ltac:(lia)) as [_ Hpg].
  replace (v + (a - v)) with a in Hpg by lia. fold (page a) in Hpg.
  unfold virt. rewrite (translate_page_entry p' h) by done. rewrite He, decide_True by done. simpl.
  apply page_of_multiple in Hpg as (j & Hj & Hpa); [|done]. rewrite Hpa. assert (mem p' = mem p) as -> by by rewrite Hsm.
  replace (x * 2 ^ k + (v + j * 2 ^ k - v) + a mod 2 ^ k) with ((x + j) * 2 ^ k + a mod 2 ^ k) by lia.
  destruct (Hfr (x + j) ltac:(lia)). apply (iv_zero _ _ _ Hi); try done. apply Z.mod_pos_bound. lia.
Qed.

(** A write to mapped addresses leaves free frames alone. *)
Lemma wrote_inv f a n p h p' h' al : inv p h al → 0 <= a → a + n <= 2 ^ 64 → wrote f a n p h p' h' → inv p' h' al.
Proof using Hk Hpool.
  intros Hi Ha Htop Hw. destruct (wrote_mapped _ _ _ _ _ _ _ _ (iv_mapped _ _ _ Hi) Hw) as [Hm' Hpt].
  destruct Hw as [Hs Ho Hkp _ Hout _ _]. destruct Hi as [Hm Hf Hp Hsp Hz].
  assert (∀ v, entry p' v = entry p v) as He by (intros v; unfold entry; by rewrite Hpt).
  constructor; try done.
  - intros v e. rewrite He. apply Hf.
  - by rewrite Hs.
  - by apply Hkp.
  - assert (zeroPages p' = zeroPages p) as -> by by rewrite Hs. intros Hzt g i Hg Hga Hi.
    rewrite Hout; [by apply Hz|]. intros v Hv. rewrite (translate_page_entry p h) by (done || (split; lia)).
    destruct (entry p (page v)) as [e|] eqn:Hev; simpl; [|done]. intros [= Heq]. destruct (Hf _ _ Hev) as (g' & Hg' & Hgp).
    pose proof (Z.mod_pos_bound v (2 ^ k) ltac:(lia)). assert (g' = g); [|subst; tauto].
    assert (g' < g + 1) by (apply (Z.mul_lt_mono_pos_r (2 ^ k)); lia).
    assert (g < g' + 1) by (apply (Z.mul_lt_mono_pos_r (2 ^ k)); lia). lia.
Qed.

(** ** Release *)

(** The pages [D] are gone, and nothing else. *)
Record dropped (D : Z → Prop) (p : Process.t) (h : hmem) (p' : Process.t) (h' : hmem) : Prop := {
  dr_same : p' = set_mem (mem p') (set_pTable (pTable p') (set_seWorkload (seWorkload p') p));
  dr_gone a : D a → entry p' a = None;
  dr_kept a : ¬ D a → entry p' a = entry p a;
  dr_virt a : is_u64 a → ¬ D (page a) → virt p' h' a = virt p h a;
  dr_peek b i : ¬ holds (mem p) b → peek h' b i = peek h b i;
  dr_holds b : holds (mem p') b ↔ holds (mem p) b;
  dr_bounds q n : in_bounds h' q n = in_bounds h q n;
}.

Lemma dropped_refl p h (D : Z → Prop) : (∀ a, D a → entry p a = None) → dropped D p h p h.
Proof. intros HD. constructor; try done. by destruct p. Qed.

Lemma dropped_trans D D' p h p1 h1 p2 h2 :
  (∀ a, Decision (D a)) → dropped D p h p1 h1 → dropped D' p1 h1 p2 h2 → dropped (λ a, D a ∨ D' a) p h p2 h2.
Proof.
  intros Hdec [Hs Hg Hk1 Hv Hp Hh Hb] [Hs' Hg' Hk' Hv' Hp' Hh' Hb']. constructor.
  - rewrite Hs'. rewrite Hs. done.
  - intros a HD. destruct (decide (entry p2 a = None)) as [|Hn]; [done|]. destruct HD as [HD|HD]; [|by apply Hg'].
    assert (¬ D' a) as HnD by (intros HD'; by apply Hn, Hg'). by rewrite (Hk' a HnD), (Hg a HD).
  - intros a HD. rewrite Hk', Hk1 by tauto. done.
  - intros a Ha HD. rewrite Hv', Hv by tauto. done.
  - intros b i Hb0. rewrite Hp' by by rewrite Hh. by apply Hp.
  - intros b. by rewrite Hh'.
  - intros q n. by rewrite Hb'.
Qed.

Lemma dropped_iff (D D' : Z → Prop) p h p' h' : (∀ a, D a ↔ D' a) → dropped D p h p' h' → dropped D' p h p' h'.
Proof.
  intros HD [Hs Hg Hk1 Hv Hp Hh Hb]. constructor; try done; intros a; rewrite <-HD; auto.
Qed.

(** The frame [f] has been zeroed if the process does that. *)
Record cleared (f : Z) (p : Process.t) (h : hmem) (p' : Process.t) (h' : hmem) : Prop := {
  cl_same : p' = set_mem (mem p') p;
  cl_ok : ok (mem p') h';
  cl_keeps : keeps (mem p) (mem p');
  cl_zero i : zeroPages p = true → 0 <= i < 2 ^ k → guest (mem p') h' (f * 2 ^ k + i) = Some 0;
  cl_out x : ¬ f * 2 ^ k <= x < f * 2 ^ k + 2 ^ k → guest (mem p') h' x = guest (mem p) h x;
  cl_peek b i : ¬ holds (mem p) b → peek h' b i = peek h b i;
  cl_bounds q n : in_bounds h' q n = in_bounds h q n;
}.

Lemma clear_page_ok depth v e f p h :
  mapped_ok k p h → entry p v = Some e → paddr e = f * 2 ^ k →
  ∃ p' h', (if zeroPages p then Process.zero_page depth v p h else Ok (p, h)) = Ok (p', h') ∧ cleared f p h p' h'.
Proof using Hk.
  clear Hpool. intros Hm He Hf. pose proof (translate_entry p h v e) as Htr. rewrite Hf in Htr.
  destruct (EmulationPageTable.typed_entry _ _ (mo_typed _ _ _ Hm) _ _ He) as ([Hv0 Hv] & Hal & _).
  pose proof (EmulationPageTable.aligned_fits k Hk v Hal Hv). destruct (zeroPages p) eqn:Hz.
  - destruct (zero_page_ok k Hk depth v p h Hm) as (p' & h' & Hw & [Hs Ho Hkp Hin Hout Hpk Hbd]).
    { split; [done|]. split; [done|]. intros z Hr. by rewrite Htr. }
    exists p', h'. split; [done|]. constructor; try done.
    + intros i _ Hi. apply (Hin (v + i)); [lia|]. by apply Htr.
    + intros x Hx. apply Hout. intros w Hw'. replace w with (v + (w - v)) by lia. rewrite Htr by (done || lia).
      intros [= Heq]. lia.
  - exists p, h. split; [done|]. constructor; try done; [by destruct p|apply Hm|]. intros i Ht. congruence.
Qed.

(** A page of the pool is unmapped, and its frame given back. *)
Lemma unmapped_inv v e f p h al p1 h1 p2 pool :
  inv p h al → entry p v = Some e → paddr e = f * 2 ^ k → f ∈ al → cleared f p h p1 h1 →
  p2 = set_pTable (EmulationPageTable.set_table (delete v (EmulationPageTable.pTable (pTable p))) (pTable p)) (set_seWorkload (seWorkload p2) p1) →
  MemPool.pools (seWorkload p2) !! 0%nat = Some pool → MemPool.inv k first total pool (al ∖ MemPool.pages f 1) →
  inv p2 h1 (al ∖ MemPool.pages f 1).
Proof using Hk Hpool.
  intros [Hm Hf _ Hs Hz] He Hfe Hfa [Hsm Ho Hkp Hzr Hout _ _] Hp2 Hpl Hpi. pose proof (EmulationPageTable.page_pos k Hk) as Hpos.
  assert (∀ a, entry p2 a = if decide (a = v) then None else entry p a) as Hen.
  { intros a. unfold entry. rewrite Hp2. simpl. case_decide as Ha; [subst a; apply lookup_delete_eq|by apply lookup_delete_ne]. }
  assert (mem p2 = mem p1) as Hmem by by rewrite Hp2. assert (zeroPages p2 = zeroPages p) as Hzp by by rewrite Hp2, Hsm.
  assert (∀ a x, entry p2 a = Some x → a ≠ v ∧ entry p a = Some x) as Hold by (intros a x; rewrite Hen; by case_decide).
  assert (∀ g, g ∈ al ∖ MemPool.pages f 1 ↔ g ∈ al ∧ g ≠ f) as Hal.
  { intros g. rewrite elem_of_difference, MemPool.elem_of_pages. split; intros [? ?]; (split; [done|lia]). }
  constructor; rewrite ?Hmem, ?Hzp; try done.
  - constructor; rewrite ?Hmem.
    + rewrite Hp2. simpl. apply EmulationPageTable.typed_delete, Hm.
    + intros a x [_ Hx]%Hold. destruct (mo_frame _ _ _ Hm _ _ Hx). split; [done|]. by apply Hkp.
    + intros a a' x x' [_ Hx]%Hold [_ Hx']%Hold. by apply (mo_apart _ _ _ Hm).
    + done.
  - intros a x [Hav Hx]%Hold. destruct (Hf a x Hx) as (g & Hg & Hga). exists g. split; [done|]. rewrite Hal.
    destruct Hga as [Hga|Hga]; [left|by right]. split; [done|]. intros ->. apply Hav. apply (mo_apart _ _ _ Hm a v x e Hx He). congruence.
  - by exists pool.
  - by apply Hkp.
  - intros Hzt g i Hgp Hga Hi. destruct (decide (g = f)) as [->|Hgf]; [by apply Hzr|].
    rewrite Hout; [apply Hz; try done; intros Hg; apply Hga, Hal; done|nia].
Qed.

Lemma dropped_page v e f p h p1 h1 p2 :
  mapped_ok k p h → mapped_ok k p2 h1 → entry p v = Some e → paddr e = f * 2 ^ k → cleared f p h p1 h1 →
  p2 = set_pTable (EmulationPageTable.set_table (delete v (EmulationPageTable.pTable (pTable p))) (pTable p)) (set_seWorkload (seWorkload p2) p1) →
  dropped (eq v) p h p2 h1.
Proof using Hk.
  clear Hpool. intros Hm Hm2 He Hpe [Hsm Ho [Hkh Hks] Hzr Hout Hpk Hbd] Hp2. pose proof (EmulationPageTable.page_pos k Hk) as Hpos.
  assert (mem p2 = mem p1) as Hmem by by rewrite Hp2.
  assert (∀ a, v ≠ a → entry p2 a = entry p a) as Hkept.
  { intros a Ha. unfold entry. rewrite Hp2. by apply lookup_delete_ne. }
  constructor; rewrite ?Hmem; try done.
  - rewrite Hp2. by rewrite Hsm.
  - intros a <-. unfold entry. rewrite Hp2. apply lookup_delete_eq.
  - intros a Ha Hpg. specialize (Hkept (page a) Hpg). unfold virt.
    rewrite !(EmulationPageTable.translate_eq k Hk) by (done || by eapply mo_wf). fold (page a). unfold entry in *. rewrite Hkept.
    destruct (EmulationPageTable.pTable (pTable p) !! page a) as [x|] eqn:Hx; [|done]. simpl. rewrite Hmem. apply Hout.
    destruct (mo_frame _ _ _ Hm _ _ Hx) as [Hal Hsp]. destruct (spans_range _ _ _ Hsp).
    pose proof (Z.mod_pos_bound a (2 ^ k) ltac:(lia)). rewrite u64_small by (split; lia). intros Hin.
    apply Hpg, (mo_apart _ _ _ Hm v (page a) e x He Hx). apply Z.mod_divide in Hal as [g Hg]; [|lia]. assert (f < g + 1) by nia. assert (g < f + 1) by nia. replace g with f in Hg by lia. lia.
Qed.

(** The page at [a] is in the frame [f]. *)
Definition framed (p : Process.t) (a f : Z) : Prop := ∃ e, entry p a = Some e ∧ paddr e = f * 2 ^ k.

(** The frames of the pages [D] have gone back to the pool, and no others. *)
Definition returned (D : Z → Prop) (p : Process.t) (al al' : gset Z) : Prop :=
  ∀ f, f ∈ al' ↔ f ∈ al ∧ ¬ ∃ a, D a ∧ framed p a f.

Lemma returned_refl (D : Z → Prop) p al : (∀ a, D a → entry p a = None) → returned D p al al.
Proof. intros HD f. split; [|by intros [? _]]. intros Hf. split; [done|]. intros (a & Ha & e & He & _). by rewrite HD in He. Qed.

Lemma returned_page v e f p al :
  entry p v = Some e → paddr e = f * 2 ^ k → returned (eq v) p al (al ∖ MemPool.pages f 1).
Proof using Hk.
  clear Hpool. intros He Hf g. rewrite elem_of_difference, MemPool.elem_of_pages. split; intros [Hg Hn]; (split; [done|]).
  - intros (a & <- & e' & He' & Hg'). assert (e' = e) as -> by congruence. apply Hn.
    pose proof (frame_eq f g ltac:(congruence)). lia.
  - intros Hfg. apply Hn. exists v. split; [done|]. exists e. split; [done|]. by replace g with f by lia.
Qed.

Lemma returned_trans (D D' : Z → Prop) p h p1 h1 al al1 al2 :
  (∀ a, Decision (D a)) → dropped D p h p1 h1 → returned D p al al1 → returned D' p1 al1 al2 →
  returned (λ a, D a ∨ D' a) p al al2.
Proof.
  intros Hdec Hd H1 H2 f. rewrite (H2 f), (H1 f). split.
  - intros [[Hf Hn] Hn']. split; [done|]. intros (a & Ha & Hfr). destruct (decide (D a)) as [HD|HD]; [by apply Hn; exists a|].
    destruct Ha as [?|Ha]; [done|]. apply Hn'. exists a. split; [done|]. unfold framed. by rewrite (dr_kept _ _ _ _ _ Hd).
  - intros [Hf Hn]. split; [split; [done|]|].
    + intros (a & Ha & Hfr). apply Hn. exists a. split; [by left|done].
    + intros (a & Ha & e & He & Hfr). destruct (decide (D a)) as [HD|HD]; [by rewrite (dr_gone _ _ _ _ _ Hd) in He|].
      apply Hn. exists a. split; [by right|]. exists e. by rewrite <-(dr_kept _ _ _ _ _ Hd).
Qed.

Lemma returned_iff (D D' : Z → Prop) p al al' : (∀ a, D a ↔ D' a) → returned D p al al' → returned D' p al al'.
Proof. intros HD H f. rewrite (H f). by setoid_rewrite HD. Qed.

Lemma deallocate_page_ok depth v p h al :
  inv p h al → is_u64 v → v mod 2 ^ k = 0 →
  (∀ e, entry p v = Some e → ∃ f, f ∈ al ∧ paddr e = f * 2 ^ k) →
  ∃ p' h' al', Process.deallocate_page depth v p h = Ok (p', h') ∧ inv p' h' al' ∧ returned (eq v) p al al' ∧
    dropped (eq v) p h p' h'.
Proof using Hk Hpool.
  intros Hi Hv Hal Hpo. pose proof (iv_mapped _ _ _ Hi) as Hm. pose proof (EmulationPageTable.page_pos k Hk) as Hp.
  unfold Process.deallocate_page. rewrite (EmulationPageTable.translate_eq k Hk) by (done || by eapply mo_wf).
  rewrite Hal, Z.sub_0_r. fold (entry p v). destruct (entry p v) as [e|] eqn:He.
  2:{ exists p, h, al. split; [done|]. split; [done|]. split; [apply returned_refl|apply dropped_refl]; by intros a <-. }
  destruct (Hpo e eq_refl) as (f & Hf & Hpe). destruct (iv_pool _ _ _ Hi) as (pool & Hpl & Hpi).
  destruct (clear_page_ok depth v e f p h Hm He Hpe) as (p1 & h1 & -> & Hcl). rewrite res_bind_Ok.
  pose proof (cl_same _ _ _ _ _ Hcl) as Hs1. assert (pTable p1 = pTable p) as Hpt by by rewrite Hs1.
  assert (seWorkload p1 = seWorkload p) as Hw by by rewrite Hs1. unfold pageSize.
  rewrite Hpt, (EmulationPageTable.wf_size _ _ (mo_wf _ _ _ Hm)), (EmulationPageTable.unmap_page k v e), res_bind_Ok
    by (done || by eapply mo_wf).
  assert (MemPool.pages f 1 ⊆ al) as Hsub by (intros g Hg%MemPool.elem_of_pages; by replace g with f by lia).
  destruct (MemPool.deallocate_inv k first total Hk Hpool pool al f 1 Hpi ltac:(lia) Hsub) as (pool' & Hd & Hpi').
  assert (u64 (0 + paddr e) = Z.shiftl f k) as ->.
  { destruct (spans_range _ _ _ (proj2 (mo_frame _ _ _ Hm _ _ He))). rewrite u64_small by (split; lia).
    rewrite Z.shiftl_mul_pow2; lia. }
  unfold MemPool.deallocPhysPages, MemPool.pool_at. rewrite Hw, Hpl, res_bind_Ok.
  change (u64 1) with 1. rewrite Hd, !res_bind_Ok. set (p2 := set_pTable _ _).
  assert (inv p2 h1 (al ∖ MemPool.pages f 1)) as Hi2.
  { eapply (unmapped_inv v e f p h al p1 h1 p2 pool'); try done. apply list_lookup_insert_eq. by eapply lookup_lt_Some. }
  exists p2, h1, (al ∖ MemPool.pages f 1). split; [done|]. split; [done|]. split; [by eapply returned_page|].
  apply (dropped_page v e f p h p1 h1 p2); try done. apply Hi2.
Qed.

(** [n] pages are given back one after the other. *)
Lemma deallocate_loop_ok depth n : ∀ v p h al,
  inv p h al → 0 <= v → v mod 2 ^ k = 0 → v + Z.of_nat n * 2 ^ k <= 2 ^ 64 →
  (∀ a e, page_of k v (Z.of_nat n * 2 ^ k) a → entry p a = Some e → ∃ f, f ∈ al ∧ paddr e = f * 2 ^ k) →
  ∃ p' h' al', Process.deallocate_loop n depth v p h = Ok (p', h') ∧ inv p' h' al' ∧
    returned (page_of k v (Z.of_nat n * 2 ^ k)) p al al' ∧ dropped (page_of k v (Z.of_nat n * 2 ^ k)) p h p' h'.
Proof using Hk Hpool.
  pose proof (EmulationPageTable.page_pos k Hk) as Hp.
  induction n as [|n IH]; intros v p h al Hi Hv Hal Htop Hpo; cbn [Process.deallocate_loop].
  { exists p, h, al. split; [done|]. split; [done|]. split; [apply returned_refl|apply dropped_refl];
    intros a Ha; exfalso; by apply (EmulationPageTable.page_of_empty k Hk v (Z.of_nat 0 * 2 ^ k) a). }
  assert (∀ a, page_of k v (Z.of_nat (S n) * 2 ^ k) a ↔ v = a ∨ page_of k (v + 2 ^ k) (Z.of_nat n * 2 ^ k) a) as Hst.
  { intros a. rewrite (EmulationPageTable.page_of_step k Hk) by nia.
    replace (Z.of_nat (S n) * 2 ^ k - 2 ^ k) with (Z.of_nat n * 2 ^ k) by lia. split; intros [?|?]; auto. }
  destruct (deallocate_page_ok depth v p h al Hi) as (p1 & h1 & al1 & -> & Hi1 & Hsub & Hd).
  { split; lia. } { done. } { intros e. apply Hpo, Hst. by left. }
  rewrite res_bind_Ok, (mo_page k p1 h1) by apply Hi1.
  assert (n = 0%nat ∨ u64 (v + 2 ^ k) = v + 2 ^ k) as [->|Hu].
  { destruct n; [by left|right]. apply u64_small. split; lia. }
  - exists p1, h1, al1. split; [done|]. split; [done|]. assert (∀ a, v = a ↔ page_of k v (Z.of_nat 1 * 2 ^ k) a) as Hone.
    { intros a. rewrite Hst. split; [by left|]. intros [?|Ha]; [done|]. exfalso. by apply (EmulationPageTable.page_of_empty k Hk (v + 2 ^ k) (Z.of_nat 0 * 2 ^ k) a). }
    split; [by eapply returned_iff|by eapply dropped_iff].
  - rewrite Hu. destruct (IH (v + 2 ^ k) p1 h1 al1) as (p2 & h2 & al2 & -> & Hi2 & Hsub2 & Hd2); [done|lia| |lia| |].
    + by apply EmulationPageTable.aligned_next.
    + intros a e Ha He. pose proof (dr_kept _ _ _ _ _ Hd a) as Hka. destruct (decide (v = a)) as [<-|Hva].
      { by rewrite (dr_gone _ _ _ _ _ Hd v eq_refl) in He. }
      rewrite Hka in He by done. destruct (Hpo a e) as (f & Hf & Hfe); [apply Hst; by right|done|]. exists f. split; [|done].
      destruct (iv_frame _ _ _ Hi1 a e) as (g & Hg & Hga); [by rewrite Hka|].
      rewrite Hfe in Hg. apply frame_eq in Hg as <-. destruct Hga as [?|[[] _]]; [done|].
      destruct (iv_pool _ _ _ Hi) as (pool & _ & Hpi). apply (MemPool.inv_parts _ _ _ _ _ Hpi). by right.
    + exists p2, h2, al2. split; [done|]. split; [done|]. split.
      * eapply returned_iff; [|eapply returned_trans; [|exact Hd|exact Hsub|exact Hsub2]; intros a; apply _]. intros a. by rewrite Hst.
      * eapply dropped_iff; [|eapply dropped_trans; [|exact Hd|exact Hd2]; intros a; apply _]. intros a. by rewrite Hst.
Qed.

(** The pages of a range. *)
Definition touched (v size a : Z) : Prop := a mod 2 ^ k = 0 ∧ page v <= a < v + size.

Lemma touched_pages v size :
  is_u64 v → 0 <= size → v + size + 2 ^ k - 1 < 2 ^ 64 →
  ∃ n, roundUp (u64 (v + size)) (2 ^ k) - page v = n * 2 ^ k ∧ 0 <= n ∧ page v + n * 2 ^ k < 2 ^ 64 ∧
    ∀ a, page_of k (page v) (n * 2 ^ k) a ↔ touched v size a.
Proof using Hk.
  clear Hpool. intros Hv Hs Htop. pose proof (EmulationPageTable.page_pos k Hk) as Hp. pose proof (page_range v Hv) as Hpr.
  rewrite u64_small by (destruct Hv; split; lia). rewrite roundUp_spec by (auto with width || lia || (destruct Hv; split; lia)).
  pose proof (Z.div_mod (v + size + 2 ^ k - 1) (2 ^ k) ltac:(lia)) as Hd.
  pose proof (Z.mod_pos_bound (v + size + 2 ^ k - 1) (2 ^ k) ltac:(lia)) as Hr.
  set (m := (v + size + 2 ^ k - 1) / 2 ^ k) in *. pose proof (page_mod v) as Hpm.
  apply Z.mod_divide in Hpm as [j Hj]; [|lia]. exists (m - j). split; [lia|].
  assert (0 <= v mod 2 ^ k < 2 ^ k) as Hvm by (apply Z.mod_pos_bound; lia).
  assert (j * 2 ^ k < (m + 1) * 2 ^ k) as Hjm by (unfold page in *; lia). apply Z.mul_lt_mono_pos_r in Hjm; [|lia].
  split; [lia|]. split; [lia|]. intros a. rewrite page_of_multiple by apply page_mod. unfold touched. split.
  - intros (i & Hi & ->). split; [rewrite Hj, <-Z.mul_add_distr_r; apply Z.mod_mul; lia|].
    assert ((i + 1) * 2 ^ k <= (m - j) * 2 ^ k) by (apply Z.mul_le_mono_nonneg_r; lia). lia.
  - intros [Ha Hr']. apply Z.mod_divide in Ha as [i ->]; [|lia]. exists (i - j). split; [|lia].
    split; [apply Z.le_0_sub, (Z.mul_le_mono_pos_r _ _ (2 ^ k)); lia|].
    apply Z.sub_lt_mono_r, (Z.mul_lt_mono_pos_r (2 ^ k)); lia.
Qed.

Lemma deallocateMem_ok depth v size p h al :
  inv p h al → is_u64 v → 0 <= size → v + size + 2 ^ k - 1 < 2 ^ 64 → size + 2 * 2 ^ k <= 2 ^ 31 * 2 ^ k →
  (∀ a e, touched v size a → entry p a = Some e → ∃ f, f ∈ al ∧ paddr e = f * 2 ^ k) →
  ∃ p' h' al', Process.deallocateMem depth v size p h = Ok (p', h') ∧ inv p' h' al' ∧ returned (touched v size) p al al' ∧
    dropped (touched v size) p h p' h'.
Proof using Hk Hpool.
  intros Hi Hv Hs Htop Hint Hpo. pose proof (EmulationPageTable.page_pos k Hk) as Hp.
  destruct (touched_pages v size Hv Hs Htop) as (n & Hn & Hn0 & Hnt & Hiff). pose proof (page_range v Hv) as Hpr.
  unfold Process.deallocateMem. rewrite (mo_page k p h) by apply Hi. rewrite roundDown_spec by done. fold (page v).
  assert (0 <= n * 2 ^ k) by (apply Z.mul_nonneg_nonneg; lia). rewrite Hn, u64_small by (split; lia). rewrite Z.div_mul by lia.
  assert (n * 2 ^ k < size + 2 ^ k + 2 ^ k) as Hnsz.
  { destruct (decide (n = 0)) as [->|]; [lia|].
    assert (touched v size (page v + (n - 1) * 2 ^ k)) as [_ Ht].
    { apply Hiff, page_of_multiple; [apply page_mod|]. exists (n - 1). lia. }
    pose proof (Z.mod_pos_bound v (2 ^ k) ltac:(lia)). unfold page in *. lia. }
  assert (n < 2 ^ 31) by (apply (Z.mul_lt_mono_pos_r (2 ^ k)); lia).
  assert (Process.to_int n = n) as ->.
  { unfold Process.to_int, AddrRange.s32. rewrite Z.mod_small; lia. }
  destruct (deallocate_loop_ok depth (Z.to_nat n) (page v) p h al Hi) as (p' & h' & al' & Hl & Hi' & Hsub & Hd);
    rewrite ?Z2Nat.id by done; [lia|apply page_mod|lia|intros a e Ha; by apply Hpo, Hiff|].
  rewrite Z2Nat.id in Hd by done. rewrite Z2Nat.id in Hsub by done. exists p', h', al'. split; [done|]. split; [done|].
  split; [by eapply returned_iff|by eapply dropped_iff].
Qed.

End Frames.
End ProcessInv.
