(* ===== verification/Fault.v ===== *)
(** Page faults of a process under system-call emulation ([MemState::fixupFault]):
    a page of an area gets a frame with the contents of its file, a page of the
    stack one of zeros. *)

From S2P Require Import Prelude Bits AddrRange Host PageTable PortProxy FreeList MemPool Vma MemState Process VirtMem ProcessInv.
Import Intmath Host PortProxy.

Module Fault.
Import Process (pTable, mem, seWorkload, memState, zeroPages, contextIds, set_mem, set_pTable, set_seWorkload, set_memState,
  virt, pageSize, allocateMem).
Import EmulationPageTable (paddr, page_of, mkEntry).
Import VirtMem ProcessInv.

Section Fault.

Context {G : Type} {HB : BlobProxy G}.
Context (k : Z) (Hk : 0 <= k < 64).

(** ** Files *)

(** The buffer of an area, if it has one, is there and is none of the guest's. *)
Definition readable (p : Process.t (G := G)) (h : hmem) (v : VMA.t) : Prop :=
  VMA.hasHostBuf v = true →
  match VMA._hostBuf v with
  | Some b => in_bounds h b (VMA._hostBufLen v) = true ∧ ¬ holds (mem p) (block b)
  | None => VMA._hostBufLen v = 0
  end.

(** The bytes of the file in an area, and how many of them are in a page. *)
Definition file_byte (h : hmem) (v : VMA.t) (x : Z) : option Z :=
  match VMA._hostBuf v with Some b => peek h (block b) (offset b + (x - VMA.start v)) | None => None end.
Definition file_bytes (v : VMA.t) (a : Z) : Z :=
  Z.max 0 (Z.min (VMA._hostBufLen v - (a - VMA.start v)) (2 ^ k)).

Lemma wrote_again f g a z (p0 : Process.t (G := G)) h0 p h p' h' :
  wrote f a z p0 h0 p h → wrote g a z p h p' h' → (∀ x, a <= x < a + z → g x = f x) → wrote f a z p0 h0 p' h'.
Proof.
  intros [Hs Ho Hkp Hin Hout Hpk Hbd] [Hs' Ho' Hkp' Hin' Hout' Hpk' Hbd'] Hfg.
  assert (pTable p = pTable p0) as Hpt by by rewrite Hs. rewrite Hpt in *. constructor; try done.
  - rewrite Hs'. by rewrite Hs.
  - by eapply same_guest_trans.
  - intros v q Hv Hq. rewrite (Hin' v q) by done. by apply Hfg.
  - intros x Hx. by rewrite Hout', Hout.
  - intros b i Hb. rewrite Hpk' by by rewrite (proj1 Hkp). by apply Hpk.
  - intros q n. by rewrite Hbd'.
Qed.

Lemma page_spans p h a n : mapped_ok k p h → entry p a ≠ None → n <= 2 ^ k → vspans p a n.
Proof using Hk.
  intros Hm He Hn. destruct (entry p a) as [e|] eqn:Hea; [|done].
  destruct (EmulationPageTable.typed_entry _ _ (mo_typed _ _ _ Hm) _ _ Hea) as ([? ?] & Hal & _).
  pose proof (EmulationPageTable.aligned_fits k Hk a Hal ltac:(done)). split; [done|]. split; [lia|].
  intros z Hz. by rewrite (translate_entry k Hk p h a e) by (done || lia).
Qed.

Lemma fill_ok fix_ v a p h :
  mapped_ok k p h → VMA.ok (2 ^ k) v → VMA.hasHostBuf v = true → readable p h v → VMA.start v <= a < VMA.end_ v → entry p a ≠ None →
  ∃ p' h', Process.fillMemPages fix_ v a p h = Ok (p', h') ∧ wrote (file_byte h v) a (file_bytes v a) p h p' h'.
Proof using Hk.
  intros Hm Hv Hb Hr Ha He. pose proof (EmulationPageTable.page_pos k Hk) as Hp. specialize (Hr Hb).
  pose proof (VMA.ok_bounds _ _ Hv). pose proof (VMA.ok_top _ _ Hv). pose proof (VMA.ok_len _ _ Hv) as Hl.
  unfold Process.fillMemPages, file_bytes, file_byte. rewrite (u64_small (a - VMA.start v)) by (split; lia).
  destruct (Z.ltb_spec (a - VMA.start v) (VMA._hostBufLen v)) as [Hlt|Hge].
  - destruct (VMA._hostBuf v) as [b|]; [|lia]. destruct Hr as [Hbd Hnh].
    rewrite (u64_small (_ - _)), (VMA.ok_page _ _ Hv), (mo_page k p h Hm) by (split; lia). rewrite Z.max_r by lia.
    set (n := Z.min _ _). destruct (write_mapped k Hk fix_ Process.Always a (ptr_add b (a - VMA.start v)) n p h Hm)
      as (p' & h' & Hw & Hwr).
    + apply (page_spans p h); try done. lia.
    + lia.
    + apply (in_bounds_part h b (VMA._hostBufLen v)); (done || lia).
    + done.
    + unfold Process.virt_writeBlob. rewrite Hw. simpl. exists p', h'. split; [done|].
      eapply wrote_with; [|exact Hwr]. intros x Hx. simpl. f_equal. lia.
  - rewrite Z.max_l by lia. exists p, h. split; [done|]. by apply (wrote_refl k).
Qed.

(** Each context of the process writes the same bytes. *)
Lemma fill_all_ok fix_ n v a p h :
  (0 < n)%nat → mapped_ok k p h → VMA.ok (2 ^ k) v → VMA.hasHostBuf v = true → readable p h v →
  VMA.start v <= a < VMA.end_ v → entry p a ≠ None →
  ∃ p' h', Process.fill_all fix_ n v a p h = Ok (p', h') ∧ wrote (file_byte h v) a (file_bytes v a) p h p' h'.
Proof using Hk.
  intros Hn. revert p h. induction n as [|n IH]; [lia|]. intros p h Hm Hv Hb Hr Ha He. cbn [Process.fill_all].
  destruct (fill_ok fix_ v a p h) as (p1 & h1 & -> & Hw); try done. rewrite res_bind_Ok. destruct n as [|n].
  { by exists p1, h1. }
  destruct (wrote_mapped k _ _ _ _ _ _ _ Hm Hw) as [Hm1 Hpt].
  assert (∀ x, file_byte h1 v x = file_byte h v x) as Hsame.
  { intros x. unfold file_byte. specialize (Hr Hb). destruct (VMA._hostBuf v) as [b|]; [|done]. destruct Hr as [_ Hnh].
    by apply (wr_peek _ _ _ _ _ _ _ Hw). }
  destruct (IH ltac:(lia) p1 h1) as (p2 & h2 & -> & Hw2); try done.
  - intros Hb'. specialize (Hr Hb'). destruct (VMA._hostBuf v) as [b|]; [|done].
    rewrite (wr_bounds _ _ _ _ _ _ _ Hw), (proj1 (wr_keeps _ _ _ _ _ _ _ Hw)). done.
  - unfold entry in *. by rewrite Hpt.
  - exists p2, h2. split; [done|]. eapply wrote_again; [exact Hw|exact Hw2|]. intros x _. apply Hsame.
Qed.

(** ** Areas *)

Context (first total : Z) (ext : Z → Prop) (Hpool : 0 <= first ∧ 0 < total ∧ (first + total) * 2 ^ k < 2 ^ 64).

(** The areas of a process, with their files. *)
Record areas_ok (p : Process.t (G := G)) (h : hmem) : Prop := {
  ao_page : MemState._pageBytes (memState p) = 2 ^ k;
  ao_wf : VMA.wf (2 ^ k) (MemState._vmaList (memState p));
  ao_files : Forall (readable p h) (MemState._vmaList (memState p));
  ao_contexts : (0 < contextIds p)%nat;
  ao_zero : zeroPages p = true;
}.

(** What a byte of an area is before the program writes it. *)
Definition initial (h : hmem) (v : VMA.t) (x : Z) : option Z :=
  match VMA.backing v x with Some b => peek h (block b) (offset b) | None => Some 0 end.

(** The page at [a] is new; the others are as they were. *)
Record faulted_in (a : Z) (contents : Z → option Z) (p : Process.t) (h : hmem) (p' : Process.t) (h' : hmem) : Prop := {
  fi_page x : page k x = a → is_u64 x → virt p' h' x = contents x;
  fi_mapped : entry p' a ≠ None;
  fi_entry b : b ≠ a → entry p' b = entry p b;
  fi_virt x : is_u64 x → page k x ≠ a → virt p' h' x = virt p h x;
  fi_same : memState p' = memState p ∧ zeroPages p' = zeroPages p ∧ contextIds p' = contextIds p;
  fi_holds b : holds (mem p') b ↔ holds (mem p) b;
  fi_peek b i : ¬ holds (mem p) b → peek h' b i = peek h b i;
  fi_bounds q n : in_bounds h' q n = in_bounds h q n;
}.

Lemma page_inside v x : VMA.ok (2 ^ k) v → VMA.inside v x → VMA.start v <= page k x ∧ page k x + 2 ^ k <= VMA.end_ v.
Proof using Hk.
  clear Hpool. intros Hv [Hx1 Hx2]. pose proof (EmulationPageTable.page_pos k Hk) as Hp.
  pose proof (Z.mod_pos_bound x (2 ^ k) ltac:(lia)). pose proof (page_mod k x) as Hm.
  pose proof (VMA.ok_start _ _ Hv) as Hs. pose proof (VMA.ok_end _ _ Hv) as He. unfold VMA.aligned, page in *.
  apply Z.mod_divide in Hs as [i Hi]; [|lia]. apply Z.mod_divide in He as [j Hj]; [|lia].
  apply Z.mod_divide in Hm as [m Hm]; [|lia]. rewrite Hi, Hj in *.
  assert (i < m + 1) by (apply (Z.mul_lt_mono_pos_r (2 ^ k)); lia).
  assert (m < j) by (apply (Z.mul_lt_mono_pos_r (2 ^ k)); lia).
  assert (i * 2 ^ k <= m * 2 ^ k) by (apply Z.mul_le_mono_nonneg_r; lia).
  assert ((m + 1) * 2 ^ k <= j * 2 ^ k) by (apply Z.mul_le_mono_nonneg_r; lia). lia.
Qed.

Context (Hk63 : k < 63).

Lemma page_aligned a : a mod 2 ^ k = 0 → page k a = a.
Proof. clear. unfold page. lia. Qed.

Lemma one_page a : is_u64 a → a mod 2 ^ k = 0 → sized k a (2 ^ k) ∧ npages k (2 ^ k) = 1.
Proof using Hk Hk63.
  clear Hpool. intros Ha Hal. pose proof (EmulationPageTable.page_pos k Hk) as Hp.
  assert (npages k (2 ^ k) = 1) as Hn.
  { unfold npages. replace (2 ^ k + 2 ^ k - 1) with (2 ^ k - 1 + 1 * 2 ^ k) by lia. rewrite Z.div_add, Z.div_small by lia. done. }
  assert (2 ^ k < 2 ^ 63) by (apply Z.pow_lt_mono_r; lia).
  split; [|done]. constructor; rewrite ?Hn, ?(page_aligned a Hal); try done; try lia.
  pose proof (EmulationPageTable.aligned_fits k Hk a Hal ltac:(apply Ha)). lia.
Qed.

Lemma allocate_page a p h al :
  inv k first total ext p h al → is_u64 a → a mod 2 ^ k = 0 → entry p a = None →
  (∃ x p', allocateMem a (2 ^ k) false p = Ok p' ∧ gains k first total a 1 x 0 p p' al ∧
     inv k first total ext p' h (al ∪ MemPool.pages x 1)) ∨
  allocateMem a (2 ^ k) false p = Fail FatalFailure ∧ no_range p 1.
Proof using Hk Hpool Hk63.
  intros Hi Ha Hal He. destruct (one_page a Ha Hal) as [Hs Hn].
  pose proof (allocate_new k first total ext Hk Hpool p h al a (2 ^ k) false Hi Hs) as Hr. rewrite Hn, (page_aligned a Hal) in Hr.
  apply Hr. intros b (j & Hj & ->)%page_of_multiple; [|done|done]. replace (a + j * 2 ^ k) with a by lia. done.
Qed.

Lemma gains_page a x (p p' : Process.t (G := G)) al b :
  a mod 2 ^ k = 0 → gains k first total a 1 x 0 p p' al →
  entry p' b = if decide (b = a) then Some (mkEntry (x * 2 ^ k) 0) else entry p b.
Proof using Hk.
  clear Hpool. intros Hal Hg. rewrite (ga_entry _ _ _ _ _ _ _ _ _ _ Hg). pose proof (page_of_multiple k Hk a 1 b Hal) as Hiff.
  case_decide as Hd.
  - apply Hiff in Hd as (j & Hj & ->). rewrite decide_True by lia. do 2 f_equal. lia.
  - rewrite decide_False; [done|]. intros ->. apply Hd, Hiff. exists 0. lia.
Qed.

Lemma in_page a x : a mod 2 ^ k = 0 → page k x = a ↔ a <= x < a + 2 ^ k.
Proof using Hk.
  clear Hpool. intros Hal. pose proof (EmulationPageTable.page_pos k Hk) as Hp.
  pose proof (Z.mod_pos_bound x (2 ^ k) ltac:(lia)). unfold page. split; [lia|].
  intros Hx. replace x with (a + (x - a)) at 2 by lia. rewrite <-Zplus_mod_idemp_l, Hal, Z.mod_small; lia.
Qed.

(** A new page of zeros. *)
Lemma gains_fault a x p p1 h al :
  inv k first total ext p h al → mapped_ok k p1 h → gains k first total a 1 x 0 p p1 al → a mod 2 ^ k = 0 → zeroPages p = true →
  faulted_in a (λ _, Some 0) p h p1 h.
Proof using Hk Hpool.
  intros Hi Hm1 Hg Hal Hz. pose proof (λ b, gains_page a x p p1 al b Hal Hg) as Hen. pose proof (ga_same _ _ _ _ _ _ _ _ _ _ Hg) as Hs.
  constructor; try done.
  - intros y Hy Hu. apply (in_page a y Hal) in Hy. eapply (gains_zero k first total ext Hk Hpool a 1 x 0 p p1 h al); (done || lia).
  - by rewrite Hen, decide_True.
  - intros b Hb. by rewrite Hen, decide_False.
  - intros y Hu Hy. eapply (virt_kept k Hk); try done; [apply Hi|by rewrite Hen, decide_False|]. intros e _. by rewrite Hs.
  - by rewrite Hs.
  - intros b. by rewrite Hs.
Qed.

(** ... part of which is then written. *)
Lemma wrote_fault f c a n p h p1 p2 h2 :
  faulted_in a c p h p1 h → mapped_ok k p1 h → a mod 2 ^ k = 0 → n <= 2 ^ k → wrote f a n p1 h p2 h2 →
  faulted_in a (λ x, if decide (a <= x < a + n) then f x else c x) p h p2 h2.
Proof using Hk.
  clear Hpool. intros [Hp Hen He Hv Hs Hh Hpk Hb] Hm Hal Hn Hw.
  pose proof (wrote_virt k Hk f a n p1 h p2 h2 Hm (page_spans p1 h a n Hm Hen Hn) Hw) as Hvg.
  assert (∀ x, is_u64 x → virt p2 h2 x = if decide (a <= x < a + n) then f x else virt p1 h x) as Hvirt.
  { intros x Hx. specialize (Hvg x). unfold vguest in Hvg. by destruct (decide (is_u64 x)). }
  destruct Hw as [Hsm _ Hkp _ _ Hwp Hwb]. constructor.
  - intros x Hx Hu. rewrite Hvirt by done. case_decide; [done|]. by apply Hp.
  - unfold entry. by rewrite Hsm.
  - intros b Hba. unfold entry. rewrite Hsm. by apply He.
  - intros x Hu Hx. rewrite Hvirt, decide_False; [by apply Hv| |done]. intros Hr. apply Hx, (in_page a x Hal). lia.
  - by rewrite Hsm.
  - intros b. by rewrite (proj1 Hkp).
  - intros b i Hb'. rewrite Hwp by by rewrite Hh. by apply Hpk.
  - intros q m. by rewrite Hwb.
Qed.

Lemma faulted_in_ext a c c' p h p' h' :
  (∀ x, page k x = a → c x = c' x) → faulted_in a c p h p' h' → faulted_in a c' p h p' h'.
Proof. intros Hc [Hp ? ? ? ? ? ? ?]. constructor; try done. intros x Hx Hu. rewrite <-Hc by done. by apply Hp. Qed.

(** The file ends in a page, or covers it. *)
Lemma initial_file h p v a x :
  readable p h v → VMA.hasHostBuf v = true → a mod 2 ^ k = 0 → VMA.start v <= a → page k x = a →
  (if decide (a <= x < a + file_bytes v a) then file_byte h v x else Some 0) = initial h v x.
Proof using Hk.
  clear Hpool. intros Hr Hb Hal Hs Hx%in_page; [|done]. specialize (Hr Hb). unfold initial, VMA.backing, file_byte, file_bytes. rewrite Hb. simpl.
  destruct (Z.ltb_spec (x - VMA.start v) (VMA._hostBufLen v)).
  - rewrite decide_True by lia. destruct (VMA._hostBuf v) as [b|]; [done|lia].
  - by rewrite decide_False by lia.
Qed.

Lemma full p h al : inv k first total ext p h al → no_range p 1 → Z.of_nat (size al) = total.
Proof using Hk.
  clear Hpool. intros Hi (pool & Hp & Hr). destruct (iv_pool _ _ _ _ _ _ _ Hi) as (pool' & Hp' & Hpi).
  rewrite Hp in Hp'. injection Hp' as <-. pose proof (MemPool.inv_count _ _ _ _ _ Hpi) as Hc.
  destruct (MemPool.inv_free _ _ _ _ _ Hpi) as [Hpr _ Hsz]. unfold MemPool.freePages in Hc. rewrite Hsz in Hc.
  destruct (FreeList._ranges (MemPool.freePhysPages pool)) as [|r l]; [simpl in Hc; lia|].
  apply Forall_cons_1 in Hr as [Hr _]. apply Forall_cons_1 in Hpr as [(_ & ? & _) _]. lia.
Qed.

(** The fault is fixed as [Q] says, or [need] frames are not left. *)
Definition fixed (al : gset Z) (need : Z) (Q : Process.t → hmem → Prop) (r : res (bool * Process.t * hmem)) : Prop :=
  (∃ p' h' al', r = Ok (true, p', h') ∧ inv k first total ext p' h' al' ∧ Z.of_nat (size al') <= Z.of_nat (size al) + need ∧ Q p' h') ∨
  r = Fail FatalFailure ∧ total < Z.of_nat (size al) + need.

Lemma size_one (al : gset Z) x : Z.of_nat (size (al ∪ MemPool.pages x 1)) <= Z.of_nat (size al) + 1.
Proof.
  pose proof (MemPool.size_pages x 1 ltac:(lia)). pose proof (size_union_alt al (MemPool.pages x 1)).
  pose proof (subseteq_size (MemPool.pages x 1 ∖ al) (MemPool.pages x 1) ltac:(set_solver)). lia.
Qed.

(** A page of an area that is read or written for the first time. *)
Lemma fixup_area depth va v p h al :
  inv k first total ext p h al → areas_ok p h → is_u64 va →
  List.find (VMA.contains va) (MemState._vmaList (memState p)) = Some v → entry p (page k va) = None →
  fixed al 1 (faulted_in (page k va) (initial h v) p h) (Process.fixupFault (S depth) va p h).
Proof using Hk Hpool Hk63.
  intros Hi Hao Hva Hfind He. cbn [Process.fixupFault]. rewrite Hfind. set (a := page k va) in *.
  apply List.find_some in Hfind as [Hin Hc]. apply list_elem_of_In in Hin.
  pose proof (ao_wf _ _ Hao) as [Hok _]. rewrite Forall_forall in Hok. specialize (Hok v Hin).
  apply (VMA.contains_inside (2 ^ k)) in Hc; [|done]. pose proof (page_inside v va Hok Hc) as [Hpi1 Hpi2]. fold a in Hpi1, Hpi2.
  pose proof (ao_files _ _ Hao) as Hr. rewrite Forall_forall in Hr. specialize (Hr v Hin).
  rewrite (ao_page _ _ Hao), roundDown_spec by done. fold (page k va). fold a.
  assert (a mod 2 ^ k = 0) as Hal by apply page_mod. pose proof (page_range k Hk va Hva) as Hpr. fold a in Hpr.
  assert (is_u64 a) as Hau by (destruct Hva; split; lia).
  destruct (allocate_page a p h al Hi Hau Hal He) as [(x & p1 & -> & Hg & Hi1)|[-> Hnr]].
  2:{ right. split; [done|]. pose proof (full p h al Hi Hnr). lia. }
  left. rewrite res_bind_Ok. pose proof (iv_mapped _ _ _ _ _ _ _ Hi1) as Hm1. pose proof (ao_zero _ _ Hao) as Hz.
  pose proof (gains_fault a x p p1 h al Hi Hm1 Hg Hal Hz) as Hf. pose proof (ga_same _ _ _ _ _ _ _ _ _ _ Hg) as Hs.
  assert (entry p1 a ≠ None) as He1 by by rewrite (gains_page a x p p1 al a Hal Hg), decide_True.
  assert (mem p1 = mem p) as Hmem by by rewrite Hs. destruct (VMA.hasHostBuf v) eqn:Hb.
  - destruct (fill_all_ok (Process.fixupFault depth) (contextIds p1) v a p1 h) as (p2 & h2 & -> & Hw); try done.
    + rewrite Hs. apply Hao.
    + unfold readable. by rewrite Hmem.
    + lia.
    + rewrite res_bind_Ok. destruct (wrote_mapped k _ _ _ _ _ _ _ Hm1 Hw) as [_ Hpt].
      assert (0 <= file_bytes v a <= 2 ^ k) by (unfold file_bytes; pose proof (EmulationPageTable.page_pos k Hk); lia).
      pose proof (VMA.ok_top _ _ Hok). eexists p2, h2, _. split; [done|]. split; [|split; [apply size_one|]].
      * eapply (wrote_inv k first total ext Hk Hpool); [exact Hi1| | |exact Hw]; lia.
      * eapply faulted_in_ext; [|eapply (wrote_fault (file_byte h v) _ a (file_bytes v a)); [exact Hf|done|done|lia|exact Hw]].
        intros y Hy. apply (initial_file h p); done.
  - rewrite res_bind_Ok. eexists p1, h, _. split; [done|]. split; [exact Hi1|]. split; [apply size_one|].
    eapply faulted_in_ext; [|exact Hf]. intros y Hy. unfold initial, VMA.backing. by rewrite Hb.
Qed.

(** ** The stack *)

(** The pages from [lo] to [hi] are mapped, new ones to zeros. *)
Record grown (lo hi : Z) (p : Process.t) (h : hmem) (p' : Process.t) : Prop := {
  gw_mapped a : a mod 2 ^ k = 0 → lo <= a < hi → entry p' a ≠ None;
  gw_kept a : entry p a ≠ None ∨ ¬ lo <= a < hi → entry p' a = entry p a;
  gw_virt x : is_u64 x → entry p (page k x) ≠ None → virt p' h x = virt p h x;
  gw_zero x : is_u64 x → lo <= x < hi → entry p (page k x) = None → virt p' h x = Some 0;
  gw_same : mem p' = mem p ∧ zeroPages p' = zeroPages p ∧ contextIds p' = contextIds p;
}.

(** One page, which may be mapped already. *)
Lemma grow_page a p h al :
  inv k first total ext p h al → is_u64 a → a mod 2 ^ k = 0 → zeroPages p = true →
  (∃ p' al', allocateMem a (2 ^ k) false p = Ok p' ∧ inv k first total ext p' h al' ∧ grown a (a + 2 ^ k) p h p' ∧
     memState p' = memState p ∧ Z.of_nat (size al') <= Z.of_nat (size al) + 1) ∨
  allocateMem a (2 ^ k) false p = Fail FatalFailure ∧ Z.of_nat (size al) = total.
Proof using Hk Hpool Hk63.
  intros Hi Ha Hal Hz. destruct (one_page a Ha Hal) as [Hs _]. pose proof (EmulationPageTable.page_pos k Hk) as Hp.
  assert (∀ b, b mod 2 ^ k = 0 → a <= b < a + 2 ^ k → b = a) as Hone.
  { intros b Hb Hr. apply (in_page a b Hal) in Hr. by rewrite page_aligned in Hr. }
  destruct (entry p a) as [e|] eqn:He.
  - left. exists p, al. split; [eapply (allocate_mapped k first total ext Hk); try done; by rewrite page_aligned, He|].
    split; [done|]. split; [|split; [done|lia]]. constructor; try done.
    + intros b Hb Hr. by rewrite (Hone b Hb Hr), He.
    + intros x Hx Hr. rewrite (proj2 (in_page a x Hal) Hr). congruence.
  - destruct (allocate_page a p h al Hi Ha Hal He) as [(x & p1 & -> & Hg & Hi1)|[-> Hnr]]; [left|right; split; [done|by eapply full]].
    eexists p1, _. split; [done|]. split; [exact Hi1|]. pose proof (ga_same _ _ _ _ _ _ _ _ _ _ Hg) as Hsm.
    pose proof (gains_fault a x p p1 h al Hi (iv_mapped _ _ _ _ _ _ _ Hi1) Hg Hal Hz) as [Hfp _ Hfe Hfv _ _ _ _].
    split; [constructor|].
    + intros b Hb Hr. by rewrite (Hone b Hb Hr), (gains_page a x p p1 al a Hal Hg), decide_True.
    + intros b Hb. apply Hfe. intros ->. destruct Hb as [Hb|Hb]; [congruence|lia].
    + intros y Hy Hpy. apply Hfv; [done|]. congruence.
    + intros y Hy Hr _. apply Hfp; [by apply in_page|done].
    + by rewrite Hsm.
    + split; [by rewrite Hsm|apply size_one].
Qed.

Lemma grown_trans lo mid hi p h p1 p2 :
  lo <= mid <= hi → mid mod 2 ^ k = 0 → grown mid hi p h p1 → grown lo mid p1 h p2 → grown lo hi p h p2.
Proof using Hk.
  clear Hpool. intros Hle Hmid [Hm Hkp Hv Hz (Hs1 & Hs2 & Hs3)] [Hm' Hkp' Hv' Hz' (Hs1' & Hs2' & Hs3')].
  assert (∀ a, entry p a ≠ None → entry p1 a = entry p a) as Hk1 by auto.
  constructor.
  - intros a Ha Hr. destruct (decide (a < mid)); [by apply Hm'; [|lia]|]. rewrite Hkp'; [apply Hm; [done|lia]|right; lia].
  - intros a Ha. rewrite Hkp'.
    + apply Hkp. destruct Ha; [by left|right; lia].
    + destruct Ha as [Ha|Ha]; [left; by rewrite Hk1|right; lia].
  - intros x Hx Hp. rewrite Hv', Hv; try done. by rewrite Hk1.
  - intros x Hx Hr Hn. destruct (decide (entry p1 (page k x) = None)) as [Hn1|Hn1].
    + apply Hz'; [done| |done]. split; [lia|]. destruct (decide (x < mid)); [done|]. exfalso. apply (Hm (page k x)); [apply page_mod| |done].
      pose proof (EmulationPageTable.page_pos k Hk) as Hpos. pose proof (page_range k Hk x Hx).
      pose proof (Z.mod_pos_bound x (2 ^ k) ltac:(lia)). pose proof (page_mod k x) as Hpm.
      apply Z.mod_divide in Hpm as [i Hi]; [|lia]. apply Z.mod_divide in Hmid as [j Hj]; [|lia].
      unfold page in *. assert (j < i + 1) by (apply (Z.mul_lt_mono_pos_r (2 ^ k)); lia).
      assert (j * 2 ^ k <= i * 2 ^ k) by (apply Z.mul_le_mono_nonneg_r; lia). lia.
    + rewrite Hv' by done. apply Hz; [done| |done]. split; [|lia].
      destruct (decide (mid <= x)); [done|]. exfalso. apply Hn1. rewrite Hkp; [done|right].
      pose proof (page_range k Hk x Hx). lia.
  - split_and!; congruence.
Qed.

Lemma inv_memState ms p h al : inv k first total ext p h al → inv k first total ext (set_memState ms p) h al.
Proof. intros [[? ? ? ?] ? ? ? ?]. by constructor. Qed.

Lemma grow_stack_ok va h (n : nat) : ∀ fuel p al,
  (n <= fuel)%nat → inv k first total ext p h al → zeroPages p = true → is_u64 va →
  MemState._pageBytes (memState p) = 2 ^ k → MemState._stackMin (memState p) = page k va + Z.of_nat n * 2 ^ k →
  MemState._stackMin (memState p) <= MemState._stackBase (memState p) < 2 ^ 64 →
  MemState._stackBase (memState p) - MemState._maxStackSize (memState p) <= page k va →
  (∃ p' al', Process.grow_stack fuel va p = Ok p' ∧ inv k first total ext p' h al' ∧
     grown (page k va) (MemState._stackMin (memState p)) p h p' ∧
     memState p' = MemState.set_stackMin (page k va) (memState p) ∧
     Z.of_nat (size al') <= Z.of_nat (size al) + Z.of_nat n) ∨
  Process.grow_stack fuel va p = Fail FatalFailure ∧ total < Z.of_nat (size al) + Z.of_nat n.
Proof using Hk Hpool Hk63.
  pose proof (EmulationPageTable.page_pos k Hk) as Hp. pose proof (Z.mod_pos_bound va (2 ^ k) ltac:(lia)) as Hmod.
  induction n as [|n IH]; intros fuel p al Hf Hi Hz Hva Hpb Hmin Hbase Hmax; pose proof (page_range k Hk va Hva) as Hpr.
  { left. exists p, al. rewrite Z.mul_0_l, Z.add_0_r in Hmin. split.
    - destruct fuel; cbn [Process.grow_stack]; (destruct (Z.ltb_spec va (MemState._stackMin (memState p))); [lia|done]).
    - split; [done|]. split; [|split; [rewrite <-Hmin; by destruct (memState p)|lia]]. rewrite Hmin. constructor; (done || lia). }
  destruct fuel as [|fuel]; [lia|]. cbn [Process.grow_stack].
  destruct (Z.ltb_spec va (MemState._stackMin (memState p))) as [_|Hge]; [|unfold page in *; lia].
  set (m := page k va + Z.of_nat n * 2 ^ k). assert (u64 (MemState._stackMin (memState p) - 2 ^ k) = m) as Hm.
  { rewrite Hmin. rewrite u64_small by (split; lia). lia. }
  assert (0 <= Z.of_nat n * 2 ^ k) by (apply Z.mul_nonneg_nonneg; lia). rewrite Hpb, Hm.
  cbn [MemState._stackMin MemState._stackBase MemState._maxStackSize MemState._pageBytes MemState.set_stackMin].
  rewrite u64_small by (split; lia). rewrite (proj2 (Z.leb_le _ _)) by lia. cbn [ensure]. rewrite res_bind_Ok, Hpb.
  set (q := set_memState _ p). assert (inv k first total ext q h al) as Hq by by apply inv_memState.
  assert (m mod 2 ^ k = 0) as Hmal by (unfold m; rewrite Z.mod_add by lia; apply page_mod).
  destruct (grow_page m q h al Hq) as [(p1 & al1 & -> & Hi1 & Hg & Hms & Hsz)|[-> Hfull]]; [split; lia|done|done| |].
  - rewrite res_bind_Ok. destruct (IH fuel p1 al1) as [(p2 & al2 & -> & Hi2 & Hg2 & Hms2 & Hsz2)|[-> Hsz2]];
      rewrite ?Hms; simpl; try done; try lia; [rewrite (proj1 (proj2 (gw_same _ _ _ _ _ Hg))); done| |right; split; [done|lia]].
    left. exists p2, al2. split; [done|]. split; [done|]. split; [|split; [rewrite Hms2, Hms; done|lia]].
    rewrite Hms in Hg2. simpl in Hg2. rewrite Hmin. replace (page k va + Z.of_nat (S n) * 2 ^ k) with (m + 2 ^ k) by lia.
    assert (grown m (m + 2 ^ k) p h p1) as Hg' by (destruct Hg; by constructor).
    eapply grown_trans; [|exact Hmal|exact Hg'|exact Hg2]. lia.
  - right. split; [done|lia].
Qed.

(** ** Faults *)

(** The base of the stack and its limit need not be aligned. *)
Record stack_ok (ms : MemState.t) : Prop := {
  sk_base : 0 <= MemState._stackBase ms < 2 ^ 64;
  sk_min : 0 <= MemState._stackMin ms <= MemState._stackBase ms ∧ MemState._stackMin ms mod 2 ^ k = 0;
  sk_max : 0 <= MemState._maxStackSize ms <= MemState._stackBase ms;
  sk_limit : MemState._stackBase ms - MemState._maxStackSize ms <= MemState._stackMin ms;
}.

Lemma fixup_stack a p h al :
  inv k first total ext p h al → is_u64 a → a mod 2 ^ k = 0 → entry p a = None → zeroPages p = true →
  fixed al 1 (λ p' h', h' = h ∧ faulted_in a (λ _, Some 0) p h p' h')
    (p' ← allocateMem a (2 ^ k) false p; Ok (true, p', h)).
Proof using Hk Hpool Hk63.
  intros Hi Ha Hal He Hz. destruct (allocate_page a p h al Hi Ha Hal He) as [(x & p1 & -> & Hg & Hi1)|[-> Hnr]].
  - left. eexists p1, h, _. split; [done|]. split; [exact Hi1|]. split; [apply size_one|]. split; [done|].
    eapply gains_fault; try done. apply Hi1.
  - right. split; [done|]. pose proof (full p h al Hi Hnr). lia.
Qed.

(** The pages between an address and the bound of the stack. *)
Lemma stack_pages va ms :
  stack_ok ms → is_u64 va → MemState._stackBase ms - MemState._maxStackSize ms <= va < MemState._stackMin ms →
  ∃ n : nat, MemState._stackMin ms = page k va + Z.of_nat n * 2 ^ k ∧ (MemState._stackMin ms - page k va) / 2 ^ k = Z.of_nat n ∧
    (n <= Z.to_nat (MemState._maxStackSize ms / 2 ^ k + 1))%nat ∧ (0 < n)%nat.
Proof using Hk.
  clear Hpool. intros [Hb [Hm1 Hm2] Hx Hl] Hva Hr. pose proof (EmulationPageTable.page_pos k Hk) as Hp.
  pose proof (Z.mod_pos_bound va (2 ^ k) ltac:(lia)) as Hmod. pose proof (page_mod k va) as Hpm. pose proof (page_range k Hk va Hva).
  apply Z.mod_divide in Hm2 as [m Hm]; [|lia]. apply Z.mod_divide in Hpm as [j Hj]; [|lia].
  assert (j < m) by (apply (Z.mul_lt_mono_pos_r (2 ^ k)); unfold page in *; lia).
  pose proof (Z.div_mod (MemState._maxStackSize ms) (2 ^ k) ltac:(lia)).
  pose proof (Z.mod_pos_bound (MemState._maxStackSize ms) (2 ^ k) ltac:(lia)).
  pose proof (Z.div_pos (MemState._maxStackSize ms) (2 ^ k) ltac:(lia) ltac:(lia)).
  assert (m - j < MemState._maxStackSize ms / 2 ^ k + 2) by (apply (Z.mul_lt_mono_pos_r (2 ^ k)); unfold page in *; lia).
  exists (Z.to_nat (m - j)). rewrite Z2Nat.id by lia. split; [lia|]. split; [|split; lia].
  rewrite Hm, Hj, <-Z.mul_sub_distr_r. apply Z.div_mul. lia.
Qed.

Lemma fixup_grow va p h al :
  inv k first total ext p h al → zeroPages p = true → MemState._pageBytes (memState p) = 2 ^ k → stack_ok (memState p) → is_u64 va →
  MemState._stackBase (memState p) - MemState._maxStackSize (memState p) <= page k va → va < MemState._stackMin (memState p) →
  fixed al ((MemState._stackMin (memState p) - page k va) / 2 ^ k)
    (λ p' h', h' = h ∧ grown (page k va) (MemState._stackMin (memState p)) p h p' ∧
       memState p' = MemState.set_stackMin (page k va) (memState p))
    (p' ← Process.grow_stack (Z.to_nat (MemState._maxStackSize (memState p) / 2 ^ k + 1)) va p; Ok (true, p', h)).
Proof using Hk Hpool Hk63.
  intros Hi Hz Hpb Hs Hva Hlo Hlt. pose proof (page_range k Hk va Hva).
  destruct (stack_pages va _ Hs Hva ltac:(lia)) as (n & Hm & -> & Hn & _). pose proof Hs as [Hb [Hm1 _] Hx _].
  destruct (grow_stack_ok va h n _ p al Hn) as [(p' & al' & -> & Hi' & Hg & Hms & Hsz)|[-> Hsz]]; try done; try lia.
  - left. by exists p', h, al'.
  - right. split; [done|lia].
Qed.

(** Past the limit the simulation stops, even if pages are left. *)
Lemma grow_stack_over va h (n : nat) : ∀ fuel p al,
  (S n <= fuel)%nat → inv k first total ext p h al → zeroPages p = true → is_u64 va →
  MemState._pageBytes (memState p) = 2 ^ k → MemState._stackMin (memState p) = page k va + Z.of_nat (S n) * 2 ^ k →
  MemState._stackMin (memState p) <= MemState._stackBase (memState p) < 2 ^ 64 →
  page k va < MemState._stackBase (memState p) - MemState._maxStackSize (memState p) →
  Process.grow_stack fuel va p = Fail FatalFailure.
Proof using Hk Hpool Hk63.
  pose proof (EmulationPageTable.page_pos k Hk) as Hp. pose proof (Z.mod_pos_bound va (2 ^ k) ltac:(lia)) as Hmod.
  induction n as [|n IH]; intros fuel p al Hf Hi Hz Hva Hpb Hmin Hbase Hlim; pose proof (page_range k Hk va Hva) as Hpr;
    (destruct fuel as [|fuel]; [lia|]); cbn [Process.grow_stack];
    (destruct (Z.ltb_spec va (MemState._stackMin (memState p))) as [_|Hge]; [|unfold page in *; lia]).
  { rewrite Hpb. cbn [MemState._stackMin MemState._stackBase MemState._maxStackSize MemState.set_stackMin].
    rewrite !u64_small by (split; lia || (rewrite u64_small by (split; lia); lia)).
    rewrite (proj2 (Z.leb_gt _ _)) by (rewrite ?u64_small by (split; lia); lia). done. }
  set (m := page k va + Z.of_nat (S n) * 2 ^ k). assert (u64 (MemState._stackMin (memState p) - 2 ^ k) = m) as Hm.
  { rewrite Hmin. rewrite u64_small by (split; lia). lia. }
  rewrite Hpb, Hm. cbn [MemState._stackMin MemState._stackBase MemState._maxStackSize MemState._pageBytes MemState.set_stackMin].
  destruct (_ <=? _); [|done]. cbn [ensure]. rewrite res_bind_Ok, Hpb.
  set (q := set_memState _ p). assert (inv k first total ext q h al) as Hq by by apply inv_memState.
  assert (m mod 2 ^ k = 0) as Hmal by (unfold m; rewrite Z.mod_add by lia; apply page_mod).
  destruct (grow_page m q h al Hq) as [(p1 & al1 & -> & Hi1 & Hg & Hms & Hsz)|[-> Hfull]]; [split; lia|done|done| |done].
  rewrite res_bind_Ok. apply (IH fuel p1 al1); rewrite ?Hms; simpl; try done; try lia.
  by rewrite (proj1 (proj2 (gw_same _ _ _ _ _ Hg))).
Qed.

(** What a page fault of the process does ([MemState::fixupFault]).  At an address
    of an area the page gets a frame nobody has, which reads as the file behind the
    area, and as zero where there is none; on the stack it reads zero, and below the
    stack, within its limit, all pages down to the address are mapped, new ones to
    zeros, and the stack bound moves.  What was mapped keeps its contents, pages
    keep frames of their own, and other addresses are refused.  The errors are that
    the frames run out, and an address on the page that crosses the limit. *)
Lemma fixup_fault_spec depth va p h al :
  inv k first total ext p h al → areas_ok p h → stack_ok (memState p) → is_u64 va → entry p (page k va) = None →
  let ms := memState p in
  let r := Process.fixupFault (S depth) va p h in
  let limit := MemState._stackBase ms - MemState._maxStackSize ms in
  match List.find (VMA.contains va) (MemState._vmaList ms) with
  | Some v => fixed al 1 (faulted_in (page k va) (initial h v) p h) r
  | None =>
      if decide (MemState._stackMin ms <= va < MemState._stackBase ms) then
        fixed al 1 (λ p' h', h' = h ∧ faulted_in (page k va) (λ _, Some 0) p h p' h') r
      else if decide (limit <= page k va < MemState._stackMin ms) then
        fixed al ((MemState._stackMin ms - page k va) / 2 ^ k)
          (λ p' h', h' = h ∧ grown (page k va) (MemState._stackMin ms) p h p' ∧
             memState p' = MemState.set_stackMin (page k va) ms) r
      else r = if decide (page k va < limit <= va) then Fail FatalFailure else Ok (false, p, h)
  end.
Proof using Hk Hpool Hk63.
  intros Hi Hao Hst Hva He ms r limit. pose proof (ao_page _ _ Hao) as Hpb. pose proof (ao_zero _ _ Hao) as Hz. fold ms in Hpb, Hst.
  destruct (List.find (VMA.contains va) (MemState._vmaList ms)) as [v|] eqn:Hf.
  { by apply fixup_area. }
  unfold r. cbn [Process.fixupFault]. fold ms. rewrite Hf, Hpb. pose proof Hst as [Hb [Hm Hma] Hx Hl].
  pose proof (page_range k Hk va Hva) as Hpr. pose proof (page_below k Hk va _ Hma) as Hlt. assert (is_u64 (page k va)) as Hpa by (destruct Hva; split; lia).
  rewrite roundDown_spec by done. fold (page k va). rewrite (u64_small (_ - _)) by (split; lia). fold limit.
  destruct (decide (MemState._stackMin ms <= va < MemState._stackBase ms)) as [[H1 H2]|Hn].
  { rewrite (proj2 (Z.leb_le _ _) H1), (proj2 (Z.ltb_lt _ _) H2). simpl. apply fixup_stack; try done. apply page_mod. }
  replace ((MemState._stackMin ms <=? va) && (va <? MemState._stackBase ms)) with false by lia.
  destruct (decide (limit <= page k va < MemState._stackMin ms)) as [[H1 H2]|Hn'].
  { replace ((va <? MemState._stackMin ms) && (limit <=? va)) with true by lia. apply fixup_grow; (done || unfold limit, ms in *; lia). }
  destruct (decide (page k va < limit <= va)) as [[H1 H2]|Hn2].
  - replace ((va <? MemState._stackMin ms) && (limit <=? va)) with true by lia.
    destruct (stack_pages va ms Hst Hva ltac:(unfold limit in *; lia)) as ([|n] & Hmin & _ & Hfuel & Hpos); [lia|].
    rewrite (grow_stack_over va h n _ p al Hfuel); (done || unfold limit, ms in *; lia).
  - replace ((va <? MemState._stackMin ms) && (limit <=? va)) with false by lia. done.
Qed.

End Fault.
End Fault.
