(* ===== verification/View.v ===== *)
(** The memory of a process as a map from addresses to bytes: which pages have frames
    yet cannot be seen by the program, nor by accesses of the simulator. *)

From S2P Require Import Prelude Bits AddrRange Host PageTable PortProxy FreeList MemPool Vma MemState Process VirtMem ProcessInv Fault.
Import Intmath Host PortProxy.

Module View.
Import Process (pTable, mem, seWorkload, memState, zeroPages, contextIds, set_mem, virt).
Import MemState (_stackBase, _stackMin, _maxStackSize, _vmaList).
Import VirtMem ProcessInv Fault.

Section View.

Context {G : Type} {HB : BlobProxy G}.
Context (k first total : Z) (ext : Z → Prop) (Hk : 0 <= k < 64).

(** The pages that begin on the stack, as far as it may grow. *)
Definition on_stack (ms : MemState.t) (x : Z) : Prop :=
  _stackBase ms - _maxStackSize ms <= page k x < _stackBase ms.

#[global] Instance on_stack_dec ms x : Decision (on_stack ms x).
Proof. unfold on_stack. apply _. Defined.

(** What the areas and the stack say of a byte that has no frame. *)
Definition lazy (ms : MemState.t) (h : hmem) (x : Z) : option Z :=
  match List.find (VMA.contains x) (_vmaList ms) with
  | Some v => initial h v x
  | None => if decide (on_stack ms x) then Some 0 else None
  end.

Definition view (p : Process.t (G := G)) (h : hmem) (x : Z) : option Z :=
  if decide (is_u64 x) then
    match entry p (page k x) with Some _ => virt p h x | None => lazy (memState p) h x end
  else None.

Record state_ok (p : Process.t) (h : hmem) (al : gset Z) : Prop := {
  st_inv : inv k first total ext p h al;
  st_areas : areas_ok k p h;
  st_stack : stack_ok k (memState p);
  (** no area is where the stack grows to *)
  st_apart x : _stackBase (memState p) - _maxStackSize (memState p) <= page k x → x < _stackMin (memState p) →
    ¬ VMA.mapped (_vmaList (memState p)) x;
  (** a page that crosses the base of the stack is in an area *)
  st_top x : page k x < _stackBase (memState p) <= x → VMA.mapped (_vmaList (memState p)) x;
  (** the pages that have frames of the pool are in areas or on the stack *)
  st_tidy a : entry p a ≠ None → ¬ ext a → VMA.mapped (_vmaList (memState p)) a ∨ on_stack (memState p) a;
}.

(** The pages the stack may still grow by. *)
Definition room (ms : MemState.t) : Z := (_stackMin ms - (_stackBase ms - _maxStackSize ms)) / 2 ^ k.

(** The buffers of the simulator, except those of the guest. *)
Record host_same (p : Process.t (G := G)) (h : hmem) (p' : Process.t (G := G)) (h' : hmem) : Prop := {
  ho_holds b : holds (mem p') b ↔ holds (mem p) b;
  ho_peek b i : ¬ holds (mem p) b → peek h' b i = peek h b i;
  ho_bounds q n : in_bounds h' q n = in_bounds h q n;
}.

Lemma host_same_trans p h p1 h1 p2 h2 : host_same p h p1 h1 → host_same p1 h1 p2 h2 → host_same p h p2 h2.
Proof.
  intros [Hh Hp Hb] [Hh' Hp' Hb']. constructor.
  - intros b. by rewrite Hh'.
  - intros b i Hn. rewrite Hp' by by rewrite Hh. by apply Hp.
  - intros q n. by rewrite Hb'.
Qed.

Lemma readable_same p h p' h' v : host_same p h p' h' → readable p h v → readable p' h' v.
Proof.
  intros Hs Hr Hb. specialize (Hr Hb). destruct (VMA._hostBuf v); [|done].
  by rewrite (ho_bounds _ _ _ _ Hs), (ho_holds _ _ _ _ Hs).
Qed.

Lemma initial_same p h p' h' v x : host_same p h p' h' → readable p h v → initial h' v x = initial h v x.
Proof.
  intros Hs Hr. unfold initial, VMA.backing. destruct (VMA.hasHostBuf v) eqn:Hb; simpl; [|done].
  specialize (Hr Hb). destruct (_ <? _); [|done]. destruct (VMA._hostBuf v) as [b|]; [|done]. simpl.
  destruct Hr. by apply (ho_peek _ _ _ _ Hs).
Qed.

Lemma initial_some (p : Process.t (G := G)) h v x : readable p h v → VMA.start v <= x → is_Some (initial h v x).
Proof.
  intros Hr Hx. unfold initial, VMA.backing. destruct (VMA.hasHostBuf v) eqn:Hb; [|done]. specialize (Hr Hb).
  destruct (Z.ltb_spec (x - VMA.start v) (VMA._hostBufLen v)); [|done]. destruct (VMA._hostBuf v) as [b|]; [|lia].
  destruct Hr as [Hin _]. apply (peek_in_bounds h b (VMA._hostBufLen v)); [done|lia].
Qed.

(** [lazy] does not depend on how far the stack has grown. *)
Definition same_areas (ms ms' : MemState.t) : Prop :=
  _vmaList ms' = _vmaList ms ∧ _stackBase ms' = _stackBase ms ∧ _maxStackSize ms' = _maxStackSize ms ∧
  MemState._pageBytes ms' = MemState._pageBytes ms.

Lemma same_areas_trans m1 m2 m3 : same_areas m1 m2 → same_areas m2 m3 → same_areas m1 m3.
Proof. unfold same_areas. intros (? & ? & ? & ?) (? & ? & ? & ?). split_and!; congruence. Qed.

Lemma lazy_same p h p' h' ms' x :
  host_same p h p' h' → areas_ok k p h → same_areas (memState p) ms' → lazy ms' h' x = lazy (memState p) h x.
Proof.
  intros Hs Ha (Hl & Hb & Hm & _). unfold lazy. rewrite Hl.
  destruct (List.find _ _) as [v|] eqn:Hf; [|apply decide_ext; unfold on_stack; by rewrite Hb, Hm]. apply List.find_some in Hf as [Hin%list_elem_of_In _].
  pose proof (ao_files _ _ _ Ha) as Hr. rewrite Forall_forall in Hr. by apply (initial_same p h p' h'); [|apply Hr].
Qed.

Lemma areas_same p h p' h' :
  host_same p h p' h' → areas_ok k p h → same_areas (memState p) (memState p') →
  contextIds p' = contextIds p → zeroPages p' = zeroPages p → areas_ok k p' h'.
Proof.
  intros Hs [Hpb Hwf Hf Hc Hz] (Hl & _ & _ & Hpb') Hc' Hz'. constructor; rewrite ?Hl; try congruence.
  eapply Forall_impl; [exact Hf|]. intros v. by apply readable_same.
Qed.

(** Addresses of one page are in the same area. *)
Lemma find_page l x y :
  Forall (VMA.ok (2 ^ k)) l → page k x = page k y → List.find (VMA.contains x) l = List.find (VMA.contains y) l.
Proof using Hk.
  intros Hok Hp. induction Hok as [|v l Hv Hok IH]; [done|]. simpl. rewrite IH.
  assert (VMA.contains x v = VMA.contains y v) as ->; [|done]. apply eq_true_iff_eq.
  rewrite !(VMA.contains_inside (2 ^ k)) by done. pose proof (EmulationPageTable.page_pos k Hk).
  pose proof (Z.mod_pos_bound x (2 ^ k) ltac:(lia)). pose proof (Z.mod_pos_bound y (2 ^ k) ltac:(lia)).
  split; intros Hi; pose proof (page_inside k Hk v _ Hv Hi); unfold VMA.inside, page in *; lia.
Qed.

Context (Hpool : 0 <= first ∧ 0 < total ∧ (first + total) * 2 ^ k < 2 ^ 64) (Hk63 : k < 63).

(** ** Faults *)

(** [b] more frames can be had besides those the stack may take. *)
Definition budget (p : Process.t (G := G)) (al : gset Z) (b : Z) : Prop :=
  Z.of_nat (size al) + room (memState p) + b <= total.

(** A fault that has been fixed cannot be seen. *)
Record unseen (p : Process.t) (h : hmem) (p' : Process.t) (h' : hmem) : Prop := {
  us_view x : view p' h' x = view p h x;
  us_kept a : entry p a ≠ None → entry p' a = entry p a;
  us_host : host_same p h p' h';
  us_areas : same_areas (memState p) (memState p');
}.

Lemma faulted_unseen a c p h p' h' :
  areas_ok k p h → entry p a = None → faulted_in k a c p h p' h' →
  (∀ x, page k x = a → c x = lazy (memState p) h x) → unseen p h p' h'.
Proof using Hk.
  clear Hpool. intros Hao Hn [Hp Hm He Hv (Hms & Hzp & Hc) Hh Hpk Hb] Hl.
  assert (host_same p h p' h') as Hho by by constructor.
  constructor; [|intros b Hb'; apply He; congruence|done|by rewrite Hms].
  intros x. unfold view. destruct (decide (is_u64 x)) as [Hx|]; [|done].
  destruct (decide (page k x = a)) as [Ha|Ha].
  - rewrite Ha, Hn. destruct (entry p' a); [|done]. rewrite Hp by done. by apply Hl.
  - rewrite He by done. destruct (entry p (page k x)); [by apply Hv|]. rewrite Hms. by apply (lazy_same p h p' h').
Qed.

Lemma stack_lazy p h al x :
  state_ok p h al → _stackBase (memState p) - _maxStackSize (memState p) <= page k x → x < _stackMin (memState p) →
  lazy (memState p) h x = Some 0.
Proof using Hk.
  clear Hpool. intros [_ Hao Hsk Hap _] Hx Hx'. unfold lazy. destruct (List.find _ _) as [v|] eqn:Hf.
  2:{ rewrite decide_True; [done|]. pose proof (sk_min _ _ Hsk) as [? Hal]. pose proof (page_below k Hk x _ Hal). unfold on_stack. lia. }
  apply List.find_some in Hf as [Hin%list_elem_of_In Hc]. destruct (Hap x Hx Hx'). exists v. split; [done|].
  destruct (ao_wf _ _ _ Hao) as [Hok _]. rewrite Forall_forall in Hok. apply (VMA.contains_inside (2 ^ k)); [by apply Hok|done].
Qed.

Lemma grown_unseen lo p h al p' :
  state_ok p h al → lo mod 2 ^ k = 0 → _stackBase (memState p) - _maxStackSize (memState p) <= lo →
  grown k lo (_stackMin (memState p)) p h p' → memState p' = MemState.set_stackMin lo (memState p) → unseen p h p' h.
Proof using Hk.
  clear Hpool. intros Hst Hlo Hlo' [Hm Hkp Hv Hz (Hmem & _ & _)] Hms. pose proof (sk_min _ _ (st_stack _ _ _ Hst)) as [Hmin Hmal].
  assert (host_same p h p' h) as Hho by (constructor; rewrite ?Hmem; done).
  constructor; [|by auto|done|by rewrite Hms].
  intros x. unfold view. destruct (decide (is_u64 x)) as [Hx|]; [|done].
  destruct (entry p (page k x)) as [e|] eqn:He.
  - rewrite Hkp by (left; congruence). rewrite He. apply Hv; [done|congruence].
  - destruct (decide (lo <= page k x < _stackMin (memState p))) as [Hr|Hr].
    + specialize (Hm (page k x) (page_mod k x) Hr). destruct (entry p' (page k x)); [|done].
      assert (lo <= x < _stackMin (memState p)) as Hx'.
      { pose proof (page_below k Hk x lo Hlo). pose proof (page_below k Hk x _ Hmal). lia. }
      rewrite Hz by done. symmetry. eapply stack_lazy; [done|lia|lia].
    + rewrite Hkp by by right. rewrite He, Hms. apply (lazy_same p h p' h); [done|apply Hst|done].
Qed.

Lemma lazy_some p h x :
  areas_ok k p h → lazy (memState p) h x ≠ None → VMA.mapped (_vmaList (memState p)) x ∨ on_stack (memState p) x.
Proof using Hk.
  clear Hpool. intros Hao. unfold lazy. destruct (List.find _ _) as [v|] eqn:Hf; [intros _; left|by case_decide; [right|]].
  apply List.find_some in Hf as [Hin%list_elem_of_In Hc]. exists v. split; [done|].
  destruct (ao_wf _ _ _ Hao) as [Hok _]. rewrite Forall_forall in Hok. apply (VMA.contains_inside (2 ^ k)); [by apply Hok|done].
Qed.

Lemma virt_some p h a : mapped_ok k p h → is_u64 a → entry p (page k a) ≠ None → is_Some (virt p h a).
Proof using Hk.
  clear Hpool. intros Hm Ha He. unfold virt. rewrite (translate_page_entry k Hk p h) by done.
  destruct (entry p (page k a)) as [e|] eqn:Hea; [|done]. simpl. destruct (mo_frame _ _ _ Hm _ _ Hea) as [_ Hsp].
  pose proof (Z.mod_pos_bound a (2 ^ k) ltac:(pose proof (EmulationPageTable.page_pos k Hk); lia)).
  apply (guest_some _ _ (EmulationPageTable.paddr e) (2 ^ k)); [apply Hm|done|lia].
Qed.

(** What has a byte and no frame outside the pool is in an area or on the stack. *)
Lemma tidy_view p h al p' h' a :
  state_ok p h al → mapped_ok k p' h' → (∀ x, view p' h' x = view p h x) → entry p' a ≠ None → ¬ ext a →
  VMA.mapped (_vmaList (memState p)) a ∨ on_stack (memState p) a.
Proof using Hk.
  clear Hpool. intros Hst Hm Hv He Hx. destruct (entry p' a) as [e|] eqn:Hea; [|done].
  destruct (EmulationPageTable.typed_entry _ _ (mo_typed _ _ _ Hm) _ _ Hea) as (Ha & Hal & _).
  specialize (Hv a). unfold view in Hv. rewrite !decide_True, (page_aligned k a Hal), Hea in Hv by done.
  destruct (virt_some p' h' a Hm Ha) as [y Hy]; [rewrite (page_aligned k a Hal); congruence|]. rewrite Hy in Hv.
  destruct (entry p a) eqn:Hpa; [apply Hst; [congruence|done]|]. apply (lazy_some p h); [apply Hst|by rewrite <-Hv].
Qed.

Lemma state_unseen p h al p' h' al' :
  state_ok p h al → unseen p h p' h' → inv k first total ext p' h' al' → stack_ok k (memState p') →
  contextIds p' = contextIds p → zeroPages p' = zeroPages p → _stackMin (memState p') <= _stackMin (memState p) → state_ok p' h' al'.
Proof using Hk.
  clear Hpool. intros Hst [Hv _ Hho Hsa] Hi' Hs' Hc Hz Hmin. pose proof Hst as [Hi Hao Hs Hap Htp _].
  constructor; [done|by eapply areas_same|done|..]; pose proof Hsa as (Hl & Hb & Hm & _); unfold on_stack; rewrite Hl, ?Hb, ?Hm; [|done|].
  - intros x Hx Hx'. apply Hap; [done|lia].
  - intros a Ha Hx. eapply tidy_view; try done. apply Hi'.
Qed.

Lemma room_nonneg ms : stack_ok k ms → 0 <= room ms.
Proof using Hk.
  clear Hpool. intros [_ _ _ Hle]. pose proof (EmulationPageTable.page_pos k Hk). apply Z.div_pos; lia.
Qed.

(** Growing the stack takes the pages from its room. *)
Lemma room_grown ms lo :
  stack_ok k ms → lo mod 2 ^ k = 0 → room (MemState.set_stackMin lo ms) + (_stackMin ms - lo) / 2 ^ k = room ms.
Proof using Hk.
  clear Hpool. intros [_ [_ Hm] _ _] Hlo. pose proof (EmulationPageTable.page_pos k Hk). unfold room. simpl.
  apply Z.mod_divide in Hm as [m ->]; [|lia]. apply Z.mod_divide in Hlo as [l ->]; [|lia].
  rewrite <-Z.mul_sub_distr_r, Z.div_mul, <-Z.div_add by lia. f_equal. lia.
Qed.

(** The fault has been fixed, and how many frames are left. *)
Definition fault_fixed (va : Z) (p : Process.t) (h : hmem) (b : Z) (r : res (bool * Process.t * hmem)) : Prop :=
  ∃ p' h' al', r = Ok (true, p', h') ∧ state_ok p' h' al' ∧ unseen p h p' h' ∧
    entry p' (page k va) ≠ None ∧ budget p' al' (b - 1).

Lemma fault_page va c p h al b r :
  state_ok p h al → entry p (page k va) = None → (∀ x, page k x = page k va → c x = lazy (memState p) h x) →
  fixed k first total ext al 1 (faulted_in k (page k va) c p h) r →
  budget p al b → 0 < b → fault_fixed va p h b r.
Proof using Hk.
  clear Hpool. intros Hst He Hc [(p' & h' & al' & -> & Hi' & Hsz & Hfi)|[_ Hov]] Hb Hpos;
    pose proof (room_nonneg _ (st_stack _ _ _ Hst)); unfold budget in *; [|lia].
  assert (unseen p h p' h') as Hu by (eapply faulted_unseen; try done; apply Hst).
  destruct (fi_same _ _ _ _ _ _ _ Hfi) as (Hms & Hz & Hc').
  exists p', h', al'. split; [done|]. split; [eapply state_unseen; try done; rewrite Hms; [apply Hst|done]|].
  split; [done|]. split; [apply Hfi|]. unfold budget. rewrite Hms. lia.
Qed.

Lemma fault_grow va p h al b r :
  state_ok p h al → is_u64 va → _stackBase (memState p) - _maxStackSize (memState p) <= page k va < _stackMin (memState p) →
  fixed k first total ext al ((_stackMin (memState p) - page k va) / 2 ^ k)
    (λ p' h', h' = h ∧ grown k (page k va) (_stackMin (memState p)) p h p' ∧
       memState p' = MemState.set_stackMin (page k va) (memState p)) r →
  budget p al b → 0 < b → fault_fixed va p h b r.
Proof using Hk.
  clear Hpool. intros Hst Hva Hr Hfx Hb Hpos. pose proof (st_stack _ _ _ Hst) as Hs. pose proof Hs as [Hb1 [Hm1 Hm2] Hx1 _].
  pose proof (page_mod k va) as Hpm. pose proof (page_range k Hk va Hva) as Hpr. pose proof (EmulationPageTable.page_pos k Hk) as Hp.
  pose proof (room_grown (memState p) (page k va) Hs Hpm) as Hrg.
  assert (stack_ok k (MemState.set_stackMin (page k va) (memState p))) as Hs' by (constructor; simpl; (done || lia || (split; [lia|done]))).
  pose proof (room_nonneg _ Hs') as Hrn. unfold budget in *.
  destruct Hfx as [(p' & h' & al' & -> & Hi' & Hsz & -> & Hg & Hms)|[_ Hov]]; [|lia].
  assert (unseen p h p' h) as Hu by (eapply grown_unseen; try done; lia).
  destruct (gw_same _ _ _ _ _ _ Hg) as (_ & Hz & Hc).
  exists p', h, al'. split; [done|]. split; [eapply state_unseen; try done; rewrite Hms; [done|simpl; lia]|].
  split; [done|]. split; [|unfold budget; rewrite Hms; lia]. apply Hg; [done|]. unfold page in *.
  pose proof (Z.mod_pos_bound va (2 ^ k) ltac:(lia)). lia.
Qed.

(** The one address where a fault is fatal although a page is left: the page of the
    address crosses the limit of the stack. *)
Definition over_limit (ms : MemState.t) (va : Z) : Prop := page k va < _stackBase ms - _maxStackSize ms <= va.

#[global] Instance over_limit_dec ms va : Decision (over_limit ms va).
Proof. unfold over_limit. apply _. Defined.

Lemma lazy_none ms h x : List.find (VMA.contains x) (_vmaList ms) = None → lazy ms h x = if decide (on_stack ms x) then Some 0 else None.
Proof. unfold lazy. by intros ->. Qed.

Lemma fault_view depth va p h al b :
  state_ok p h al → is_u64 va → entry p (page k va) = None → budget p al b → 0 < b →
  match lazy (memState p) h va with
  | Some _ => fault_fixed va p h b (Process.fixupFault (S depth) va p h)
  | None => Process.fixupFault (S depth) va p h =
      if decide (over_limit (memState p) va) then Fail FatalFailure else Ok (false, p, h)
  end.
Proof using Hk Hpool Hk63.
  intros Hst Hva He Hb Hpos. pose proof (st_areas _ _ _ Hst) as Hao. destruct (ao_wf _ _ _ Hao) as [Hok _].
  pose proof (fixup_fault_spec k Hk first total ext Hpool Hk63 depth va p h al (st_inv _ _ _ Hst) Hao (st_stack _ _ _ Hst) Hva He) as Hfx.
  pose proof (st_stack _ _ _ Hst) as [Hbase [Hmin Hmal] Hmax Hlim]. pose proof (page_below k Hk va _ Hmal) as Hbel.
  pose proof (page_range k Hk va Hva) as Hpr.
  cbv zeta in Hfx. destruct (List.find (VMA.contains va) (_vmaList (memState p))) as [v|] eqn:Hf.
  - assert (lazy (memState p) h va = initial h v va) as -> by (unfold lazy; by rewrite Hf).
    assert (fault_fixed va p h b (Process.fixupFault (S depth) va p h)).
    { apply (fault_page va (initial h v) p h al b); try done. intros x Hx. unfold lazy. by rewrite (find_page _ x va), Hf. }
    apply List.find_some in Hf as [Hin%list_elem_of_In Hc]. pose proof (ao_files _ _ _ Hao) as Hr. rewrite Forall_forall in Hr, Hok.
    apply (VMA.contains_inside (2 ^ k)) in Hc; [|by apply Hok].
    by destruct (initial_some p h v va (Hr v Hin) (proj1 Hc)) as [y ->].
  - rewrite (lazy_none _ _ _ Hf).
    destruct (decide (_stackMin (memState p) <= va < _stackBase (memState p))) as [Hr|Hr].
    { rewrite (decide_True (P := on_stack _ va)) by (unfold on_stack; lia). apply (fault_page va (λ _, Some 0) p h al b); try done.
      - intros x Hx. rewrite (lazy_none _ _ x) by by rewrite (find_page _ x va). rewrite decide_True; [done|]. unfold on_stack. rewrite Hx. lia.
      - destruct Hfx as [(p' & h' & al' & ? & ? & ? & -> & ?)|?]; [left; eauto 10|by right]. }
    destruct (decide (_ <= page k va < _stackMin (memState p))) as [Hr'|Hr'].
    { rewrite (decide_True (P := on_stack _ va)) by (unfold on_stack; lia). by eapply fault_grow. }
    destruct (decide (on_stack (memState p) va)) as [Hon|_]; [|done]. exfalso. unfold on_stack in Hon.
    assert (_stackBase (memState p) <= va) as Htop by lia. destruct (st_top _ _ _ Hst va) as (v & Hv & Hi); [lia|].
    eapply List.find_none in Hf; [|by apply list_elem_of_In]. rewrite Forall_forall in Hok.
    apply (VMA.contains_inside (2 ^ k)) in Hi; [congruence|by apply Hok].
Qed.

(** ** Accesses *)

Definition accessible (p : Process.t (G := G)) (h : hmem) (x : Z) : Prop :=
  entry p (page k x) ≠ None ∨ lazy (memState p) h x ≠ None.

Lemma accessible_unseen p h al p' h' x : state_ok p h al → unseen p h p' h' → accessible p h x → accessible p' h' x.
Proof.
  intros Hst [_ Hkp Hho Hsa] [He|Hl]; [left; by rewrite Hkp|right]. rewrite (lazy_same p h p' h'); try done. apply Hst.
Qed.

Lemma translate_lazy depth mode n v p h al b :
  mode ≠ Process.Execute → state_ok p h al → is_u64 v → accessible p h v → budget p al b → 0 < b →
  ∃ p' h' al' q, Process.translate (Process.fixupFault (S depth)) mode (2 ^ k) v n p h = Ok (Z.min n (page_left k v), Some q, p', h') ∧
    state_ok p' h' al' ∧ unseen p h p' h' ∧ budget p' al' (b - 1) ∧ EmulationPageTable.translate (pTable p') v = Some q.
Proof using Hk Hpool Hk63.
  intros Hmode Hst Hv Hacc Hb Hpos. pose proof (iv_mapped _ _ _ _ _ _ _ (st_inv _ _ _ Hst)) as Hm.
  destruct (entry p (page k v)) as [e|] eqn:He.
  { assert (EmulationPageTable.translate (pTable p) v = Some (EmulationPageTable.paddr e + v mod 2 ^ k)) as Ht
      by by rewrite (translate_page_entry k Hk p h), He.
    exists p, h, al, (EmulationPageTable.paddr e + v mod 2 ^ k). split; [by apply translate_mapped|]. split; [done|].
    split; [by constructor|]. split; [unfold budget in *; lia|done]. }
  destruct Hacc as [?|Hl]; [done|]. pose proof (fault_view depth v p h al b Hst Hv He Hb Hpos) as Hf.
  destruct (lazy (memState p) h v); [|done]. destruct Hf as (p' & h' & al' & Hf & Hst' & Hu & He' & Hb').
  pose proof (iv_mapped _ _ _ _ _ _ _ (st_inv _ _ _ Hst')) as Hm'.
  destruct (entry p' (page k v)) as [e|] eqn:Hev; [|done].
  exists p', h', al', (EmulationPageTable.paddr e + v mod 2 ^ k). split; [|split; [done|]; split; [done|]; split; [done|]].
  2:{ by rewrite (translate_page_entry k Hk p' h'), Hev. }
  unfold Process.translate. pose proof (next_page k v Hk Hv) as Hn. cbv zeta in Hn. rewrite Hn. unfold Process.translateFunctional.
  assert (EmulationPageTable.lookup (pTable p) v = None) as ->.
  { unfold EmulationPageTable.lookup. rewrite (EmulationPageTable.pageAlign_mod k Hk) by (done || by eapply mo_wf). done. }
  assert (EmulationPageTable.lookup (pTable p') v = Some e) as Hlk.
  { unfold EmulationPageTable.lookup. rewrite (EmulationPageTable.pageAlign_mod k Hk) by (done || by eapply mo_wf). done. }
  pose proof (lookup_mapped k Hk p' h' v Hm' Hv) as Hlm. rewrite Hlk in Hlm. destruct Hlm as (_ & _ & _ & _ & _ & Hlor).
  cbn [fmap option_fmap option_map]. destruct mode; [| |done]; rewrite Hf, res_bind_Ok, Hlk; simpl; by rewrite Hlor.
Qed.

(** An access page by page, with the faults it takes. *)
Section Loop.

Context {S : Type} (depth : nat) (mode : Process.Mode) (allocating : Process.AllocType).
Context (I : Z → S → Process.t (G := G) → hmem → Prop) (a n : Z).
Context (func : Z → Z → S → Process.t (G := G) → hmem → res (S * Process.t (G := G) * hmem)).
Context (Hmode : mode ≠ Process.Execute) (Ha : 0 <= a) (Htop : a + n <= 2 ^ 64).
(** frames that are left for others *)
Context (c : Z) (Hc : 0 <= c).
Context (HI : ∀ z st p h al p' h', I z st p h → state_ok p h al → unseen p h p' h' → I z st p' h').
Context (Hacc : ∀ z st p h, I z st p h → 0 <= z < n → accessible p h (a + z)).
Context (Hf : ∀ z l q st p h al, I z st p h → state_ok p h al → 0 <= z → 0 < l → z + l <= n → l <= page_left k (a + z) →
  EmulationPageTable.translate (pTable p) (a + z) = Some q → spans (mem p) q l →
  ∃ st' p' h', func q l st p h = Ok (st', p', h') ∧ I (z + l) st' p' h' ∧ state_ok p' h' al ∧ memState p' = memState p).

Lemma on_lazy fuel : ∀ b z st p h al,
  I z st p h → state_ok p h al → budget p al (b + c) → 0 <= b → 0 <= z <= n →
  z = n ∨ n - z + (a + z) mod 2 ^ k <= Z.of_nat fuel * 2 ^ k ∧ n - z + (a + z) mod 2 ^ k <= b * 2 ^ k →
  ∃ st' p' h' al', Process.tryOnBlob (Process.fixupFault (Datatypes.S depth)) fuel mode allocating (2 ^ k) (u64 (a + z)) (n - z) false
    func st p h = Ok (true, p', h') ∧ I n st' p' h' ∧ state_ok p' h' al' ∧ budget p' al' c.
Proof using Hk Hpool Hk63 Hmode Ha Htop HI Hacc Hf Hc.
  pose proof (EmulationPageTable.page_pos k Hk) as Hp.
  induction fuel as [|fuel IH]; intros b z st p h al Hi Hst Hb Hbp Hz Hfuel;
    pose proof (Z.mod_pos_bound (a + z) (2 ^ k) ltac:(lia)) as Hmod; cbn [Process.tryOnBlob];
    destruct (Z.eqb_spec (n - z) 0) as [Hnz|Hnz]; try (exists st, p, h, al; replace n with z by lia; split; [done|]; split; [done|]; split; [done|]; unfold budget in Hb |- *; lia); [lia|].
  rewrite u64_small by (split; lia). assert (0 < b) as Hb0 by (apply (Z.mul_lt_mono_pos_r (2 ^ k)); lia).
  destruct (translate_lazy depth mode (n - z) (a + z) p h al (b + c)) as (p1 & h1 & al1 & q & -> & Hst1 & Hu & Hb1 & Hq);
    [done|done|split; lia|by apply (Hacc z st); [|lia]|done|lia|].
  rewrite res_bind_Ok. set (l := Z.min (n - z) (page_left k (a + z))). unfold page_left in l.
  pose proof (lookup_mapped k Hk p1 h1 (a + z) (iv_mapped _ _ _ _ _ _ _ (st_inv _ _ _ Hst1)) ltac:(split; lia)) as Hlk.
  destruct (Hf z l q st p1 h1 al1) as (st' & p' & h' & -> & Hi' & Hst' & Hms).
  { by eapply HI. } { done. } { lia. } { lia. } { lia. } { unfold page_left; lia. } { done. }
  { destruct (EmulationPageTable.lookup (pTable p1) (a + z)) as [e|]; [|congruence]. destruct Hlk as (_ & Ht & _ & _ & Hsp & _).
    rewrite Ht in Hq. injection Hq as <-. apply (spans_part _ _ (2 ^ k)); (done || lia). }
  rewrite res_bind_Ok. replace (a + z + l) with (a + (z + l)) by lia. replace (n - z - l) with (n - (z + l)) by lia.
  apply (IH (b - 1) _ _ _ _ al1); [done|done|unfold budget in *; rewrite Hms; lia|lia|lia|].
  destruct (decide (n - z <= 2 ^ k - (a + z) mod 2 ^ k)); [left; lia|right].
  assert ((a + (z + l)) mod 2 ^ k = 0) as ->; [|lia].
  replace (a + (z + l)) with (a + z - (a + z) mod 2 ^ k + 1 * 2 ^ k) by lia. rewrite Z.mod_add by lia.
  rewrite Zminus_mod_idemp_r, Z.sub_diag. done.
Qed.

(** The pages of the range, of which each may take a frame. *)
Definition pages_of : Z := (n + a mod 2 ^ k + 2 ^ k - 1) / 2 ^ k.

Lemma on_range st p h al :
  0 <= n → I 0 st p h → state_ok p h al → budget p al (pages_of + c) →
  ∃ st' p' h' al', Process.tryOnBlob (Process.fixupFault (Datatypes.S depth)) (Process.visits (2 ^ k) n) mode allocating (2 ^ k) a n false
    func st p h = Ok (true, p', h') ∧ I n st' p' h' ∧ state_ok p' h' al' ∧ budget p' al' c.
Proof using Hk Hpool Hk63 Hmode Ha Htop HI Hacc Hf Hc.
  intros Hn Hi Hst Hb. pose proof (EmulationPageTable.page_pos k Hk) as Hp. pose proof (Z.mod_pos_bound a (2 ^ k) ltac:(lia)).
  assert (0 <= pages_of) as Hpo by (apply Z.div_pos; lia). destruct (decide (n = 0)) as [H0|H0].
  { exists st, p, h, al. rewrite H0 in *. split; [by destruct (Process.visits (2 ^ k) 0)|]. split_and!; [done..|].
    unfold budget in *. lia. }
  destruct (on_lazy (Process.visits (2 ^ k) n) pages_of 0 st p h al) as (st' & p' & h' & al' & Hr & Hi' & Hst' & Hb'); [done|done|done|lia|lia| |].
  - right. rewrite Z.add_0_r, Z.sub_0_r. split; [by apply visits_enough|]. unfold pages_of. clear Hpool.
    pose proof (Z.div_mod (n + a mod 2 ^ k + 2 ^ k - 1) (2 ^ k) ltac:(lia)).
    pose proof (Z.mod_pos_bound (n + a mod 2 ^ k + 2 ^ k - 1) (2 ^ k) ltac:(lia)). lia.
  - rewrite Z.add_0_r, Z.sub_0_r, u64_small in Hr by (split; lia). eauto 10.
Qed.

End Loop.

(** ** Writing *)

Lemma wrote_view f a n p h p' h' al :
  state_ok p h al → vspans p a n → wrote f a n p h p' h' →
  state_ok p' h' al ∧ host_same p h p' h' ∧ memState p' = memState p ∧ (∀ b, entry p' b = entry p b) ∧
  ∀ x, view p' h' x = if decide (a <= x < a + n) then f x else view p h x.
Proof using Hk Hpool.
  intros Hst Hsp Hw. pose proof (st_inv _ _ _ Hst) as Hi. pose proof (iv_mapped _ _ _ _ _ _ _ Hi) as Hm.
  destruct (wrote_mapped k _ _ _ _ _ _ _ Hm Hw) as [Hm' Hpt]. pose proof Hsp as (Ha & Htop & Hmap).
  assert (inv k first total ext p' h' al) as Hi' by by apply (wrote_inv k first total ext Hk Hpool f a n p h).
  assert (∀ b, entry p' b = entry p b) as He by (intros b; unfold entry; by rewrite Hpt).
  pose proof (wrote_virt k Hk f a n p h p' h' Hm Hsp Hw) as Hv. destruct Hw as [Hs _ Hkp _ _ Hpk Hbd].
  assert (host_same p h p' h') as Hho by (constructor; [apply Hkp|done|done]).
  assert (memState p' = memState p) as Hms by by rewrite Hs.
  split; [|split; [done|]; split; [done|]; split; [done|]].
  - destruct Hst as [_ Hao Hsk Hap Htp Htd]. constructor; rewrite ?Hms; try done; [eapply areas_same; try done; by rewrite Hs|].
    intros b. rewrite He. apply Htd.
  - intros x. specialize (Hv x). unfold vguest, view in *. rewrite He. destruct (decide (is_u64 x)) as [Hx|Hx].
    + destruct (entry p (page k x)) eqn:Hex; [done|]. rewrite decide_False.
      * rewrite Hms. apply (lazy_same p h p' h'); [done|apply Hst|done].
      * intros Hr. apply (Hmap (x - a)); [lia|]. replace (a + (x - a)) with x by lia.
        by rewrite (translate_page_entry k Hk p h), Hex.
    + exact Hv.
Qed.

(** A write at part of a page. *)
Lemma write_part a d l q p h al :
  state_ok p h al → is_u64 a → 0 < l → a + l <= 2 ^ 64 → l <= page_left k a → EmulationPageTable.translate (pTable p) a = Some q →
  spans (mem p) q l → in_bounds h d l = true → ¬ holds (mem p) (block d) →
  ∃ m h', writeBlob q d l (mem p) h = Ok (m, h') ∧ vspans p a l ∧
    wrote (λ v, peek h (block d) (offset d + (v - a))) a l p h (set_mem m p) h'.
Proof using Hk.
  clear Hpool. intros Hst Hu Hl Htop Hleft Hq Hsp Hb Hnh. pose proof (iv_mapped _ _ _ _ _ _ _ (st_inv _ _ _ Hst)) as Hm.
  destruct (write_blob q d l (mem p) h (mo_ok _ _ _ Hm) Hsp Hb Hnh) as (m & h' & Hwb & Ho & Hkp & Hg & Hfr & Hbd).
  exists m, h'. unfold writeBlob. rewrite Hwb. split; [done|]. destruct Hu as [Hu1 Hu2]. split.
  - split; [lia|]. split; [lia|]. intros z Hz. rewrite (translate_near k Hk p h a q); (done || (split; lia) || lia).
  - eapply (wrote_step k Hk _ _ a 0 l q p h p h m h'); try done; rewrite ?Z.add_0_r; try done; [by apply (wrote_refl k)| |].
    + constructor; try done. exact Hg.
    + intros i Hi. simpl. f_equal. lia.
Qed.

Lemma view_write depth allocating c a d n p h al :
  state_ok p h al → 0 <= a → 0 <= n → a + n <= 2 ^ 64 → (∀ x, a <= x < a + n → accessible p h x) →
  budget p al (pages_of a n + c) → 0 <= c → in_bounds h d n = true → ¬ holds (mem p) (block d) →
  ∃ p' h' al', Process.tryWriteBlob (Process.fixupFault (S depth)) allocating (2 ^ k) a d n p h = Ok (true, p', h') ∧
    state_ok p' h' al' ∧ budget p' al' c ∧ host_same p h p' h' ∧ same_areas (memState p) (memState p') ∧
    ∀ x, view p' h' x = if decide (a <= x < a + n) then peek h (block d) (offset d + (x - a)) else view p h x.
Proof using Hk Hpool Hk63.
  intros Hst Ha Hn Htop Hacc Hbud Hc Hb Hnh. unfold Process.tryWriteBlob. set (func := λ pa n d p h, _).
  destruct (on_range depth Process.Write allocating (λ z d' p' h', d' = ptr_add d z ∧ host_same p h p' h' ∧ same_areas (memState p) (memState p') ∧
    (∀ x, a <= x < a + n → accessible p' h' x) ∧
    ∀ x, view p' h' x = if decide (a <= x < a + z) then peek h (block d) (offset d + (x - a)) else view p h x)
    a n func) with (c := c) (st := d) (p := p) (h := h) (al := al) as (d' & p' & h' & al' & Hr & (_ & Hho & Hsa & _ & Hv) & Hst' & Hbl); try done.
  - intros z st p1 h1 al1 p2 h2 (-> & Hho & Hsa & Hac & Hv) Hst1 Hu. split; [done|].
    split; [by eapply host_same_trans; [|apply Hu]|]. split; [by eapply same_areas_trans; [|apply Hu]|]. split; [intros x Hx; eapply accessible_unseen; [|done|]; eauto|].
    intros x. rewrite (us_view _ _ _ _ Hu). apply Hv.
  - intros z st p1 h1 (_ & _ & _ & Hac & _) Hz. apply Hac. lia.
  - intros z l q st p1 h1 al1 (-> & Hho & Hsa & Hac & Hv) Hst1 Hz Hl Hzl Hleft Hq Hsp.
    destruct (write_part (a + z) (ptr_add d z) l q p1 h1 al1) as (m & h2 & Hwb & Hvs & Hw); try done; [split; lia|lia| | |].
    { rewrite (ho_bounds _ _ _ _ Hho). apply (in_bounds_part h d n z l); (done || lia). }
    { by rewrite (ho_holds _ _ _ _ Hho). }
    unfold func. rewrite Hwb. simpl. destruct (wrote_view _ _ _ _ _ _ _ _ Hst1 Hvs Hw) as (Hst2 & Hho2 & Hms & He & Hv2).
    eexists _, _, _. split; [done|]. split; [|done]. split; [by rewrite ptr_add_add|]. split; [by eapply host_same_trans|].
    split; [by rewrite Hms|]. split.
    + intros x Hx. destruct (Hac x Hx) as [?|?]; [left; by rewrite He|right]. rewrite Hms, (lazy_same p1 h1 (set_mem m p1) h2); try done. apply Hst1.
    + intros x. rewrite Hv2, Hv. simpl. repeat case_decide; try done; try lia. rewrite (ho_peek _ _ _ _ Hho) by done. f_equal. lia.
  - split; [by rewrite ptr_add_0|]. split; [by constructor|]. split; [done|]. split; [done|]. intros x. by rewrite decide_False by lia.
  - by exists p', h', al'.
Qed.

(** ** Reading *)

(** The buffer [d] is none of the files of the process. *)
Definition no_file (d : ptr) (p : Process.t (G := G)) : Prop :=
  Forall (λ v, VMA.hasHostBuf v = true → ∀ b, VMA._hostBuf v = Some b → block b ≠ block d) (_vmaList (memState p)).

(** The guest as it was, and the heap but for [n] bytes at [d]. *)
Record fetched_to (d : ptr) (n : Z) (p : Process.t) (h : hmem) (p' : Process.t) (h' : hmem) : Prop := {
  ft_view x : view p' h' x = view p h x;
  ft_areas : same_areas (memState p) (memState p');
  ft_holds b : holds (mem p') b ↔ holds (mem p) b;
  ft_peek b i : ¬ holds (mem p) b → b ≠ block d ∨ ¬ offset d <= i < offset d + n → peek h' b i = peek h b i;
  ft_bounds q m : in_bounds h' q m = in_bounds h q m;
}.

Lemma fetch_state p h al m h' :
  state_ok p h al → ok m h' → keeps (mem p) m → (∀ x, guest m h' x = guest (mem p) h x) →
  (∀ q n, in_bounds h' q n = in_bounds h q n) → state_ok (set_mem m p) h' al.
Proof.
  intros [[Hm Hf Hp Hs Hz] [Hpb Hwf Hr Hc Hzp] Hsk Hap Htp Htd] Ho Hkp Hg Hb. constructor; [constructor|constructor|done..]; simpl; try done.
  - by apply (mapped_ok_same k p h).
  - by apply Hkp.
  - intros Hzt f i Hfp Hfa Hi. rewrite Hg. by apply Hz.
  - eapply Forall_impl; [exact Hr|]. intros v Hv Hb'. specialize (Hv Hb'). destruct (VMA._hostBuf v); [|done].
    simpl. rewrite Hb. by rewrite (proj1 Hkp).
Qed.

Lemma lazy_files ms h h' x :
  (∀ v b i, v ∈ _vmaList ms → VMA.hasHostBuf v = true → VMA._hostBuf v = Some b → peek h' (block b) i = peek h (block b) i) →
  lazy ms h' x = lazy ms h x.
Proof.
  intros Hp. unfold lazy. destruct (List.find _ _) as [v|] eqn:Hf; [|done]. apply List.find_some in Hf as [Hin%list_elem_of_In _].
  unfold initial, VMA.backing. destruct (VMA.hasHostBuf v) eqn:Hh; simpl; [|done]. destruct (_ <? _); [|done].
  destruct (VMA._hostBuf v) as [b|] eqn:Hb; [|done]. simpl. by apply (Hp v b).
Qed.

Lemma read_part a d l q p h al :
  state_ok p h al → no_file d p → is_u64 a → 0 < l → a + l <= 2 ^ 64 → l <= page_left k a →
  EmulationPageTable.translate (pTable p) a = Some q → spans (mem p) q l → in_bounds h d l = true → ¬ holds (mem p) (block d) →
  ∃ m h', readBlob q d l (mem p) h = Ok (m, h') ∧ state_ok (set_mem m p) h' al ∧ fetched_to d l p h (set_mem m p) h' ∧
    ∀ i, 0 <= i < l → peek h' (block d) (offset d + i) = view p h (a + i).
Proof using Hk.
  clear Hpool. intros Hst Hnf Hu Hl Htop Hleft Hq Hsp Hb Hnh. pose proof (iv_mapped _ _ _ _ _ _ _ (st_inv _ _ _ Hst)) as Hm.
  destruct (read_blob q d l (mem p) h (mo_ok _ _ _ Hm) Hsp Hb Hnh) as (m & h' & Hrb & Ho & Hkp & Hg & Hbuf & Hfr & Hbd).
  exists m, h'. unfold readBlob. rewrite Hrb. split; [done|]. split; [by eapply fetch_state|]. split.
  - constructor; try done; [|apply Hkp|by intros; apply Hfr]. intros x. unfold view. destruct (decide (is_u64 x)); [|done].
    change (entry (set_mem m p) (page k x)) with (entry p (page k x)). destruct (entry p (page k x)).
    + unfold virt. simpl. destruct (EmulationPageTable.translate (pTable p) x); [|done]. apply Hg.
    + simpl. apply lazy_files. intros v b j Hv Hh Hvb. apply Hfr. left. unfold no_file in Hnf. rewrite Forall_forall in Hnf. by apply (Hnf v).
  - intros i Hi. rewrite Hbuf by done. destruct Hu as [Hu1 Hu2].
    pose proof (translate_near k Hk p h a q i Hm ltac:(split; lia) Hq ltac:(lia)) as Htr.
    unfold view. rewrite decide_True by (split; lia). rewrite (translate_page_entry k Hk p h) in Htr by (done || (split; lia)).
    destruct (entry p (page k (a + i))) as [e|] eqn:He; [|done]. unfold virt.
    rewrite (translate_page_entry k Hk p h), He by (done || (split; lia)). injection Htr as Htr. simpl. by rewrite Htr.
Qed.

Lemma no_file_same d p p' : same_areas (memState p) (memState p') → no_file d p → no_file d p'.
Proof. unfold no_file. by intros (-> & _). Qed.

Lemma accessible_same p h p' h' x :
  (∀ b, entry p' b = entry p b) → lazy (memState p') h' x = lazy (memState p) h x → accessible p h x → accessible p' h' x.
Proof. unfold accessible. by intros -> ->. Qed.

(** What has been read so far. *)
Record reading (a : Z) (d : ptr) (n z : Z) (p : Process.t) (h : hmem) (p' : Process.t) (h' : hmem) : Prop := {
  rd_fetched : fetched_to d z p h p' h';
  rd_access x : a <= x < a + n → accessible p' h' x;
  rd_buffer i : 0 <= i < z → peek h' (block d) (offset d + i) = view p h (a + i);
}.

Lemma reading_unseen a d n z p h p1 h1 al1 p2 h2 :
  ¬ holds (mem p) (block d) → reading a d n z p h p1 h1 → state_ok p1 h1 al1 → unseen p1 h1 p2 h2 → reading a d n z p h p2 h2.
Proof.
  intros Hnh [[Hv Hsa Hh Hpk Hb] Hac Hbuf] Hst Hu. pose proof (us_host _ _ _ _ Hu) as [Hh2 Hp2 Hb2]. constructor; [constructor|..].
  - intros x. by rewrite (us_view _ _ _ _ Hu).
  - eapply same_areas_trans; [done|apply Hu].
  - intros b. by rewrite Hh2.
  - intros b i Hb' Hr. rewrite Hp2 by by rewrite Hh. by apply Hpk.
  - intros q m. by rewrite Hb2.
  - intros x Hx. eapply accessible_unseen; eauto.
  - intros i Hi. rewrite Hp2 by by rewrite Hh. by apply Hbuf.
Qed.

Lemma reading_step a d n z l p h p1 h1 p2 h2 :
  0 <= z → 0 < l → ¬ holds (mem p) (block d) → reading a d n z p h p1 h1 → fetched_to (ptr_add d z) l p1 h1 p2 h2 →
  (∀ b, entry p2 b = entry p1 b) → (∀ x, lazy (memState p2) h2 x = lazy (memState p1) h1 x) →
  (∀ i, 0 <= i < l → peek h2 (block d) (offset d + z + i) = view p1 h1 (a + z + i)) → reading a d n (z + l) p h p2 h2.
Proof.
  intros Hz Hl Hnh [[Hv Hsa Hh Hpk Hb] Hac Hbuf] [Hv2 Hsa2 Hh2 Hp2 Hb2] He Hlz Hbuf2. simpl in Hp2. constructor; [constructor|..].
  - intros x. by rewrite Hv2.
  - by eapply same_areas_trans.
  - intros b. by rewrite Hh2.
  - intros b i Hb' Hr. rewrite Hp2; [apply Hpk; [done|]|by rewrite Hh|]; (destruct Hr; [by left|right; lia]).
  - intros q m. by rewrite Hb2.
  - intros x Hx. eapply accessible_same; eauto.
  - intros i Hi. destruct (decide (i < z)).
    + rewrite Hp2; [apply Hbuf; lia|by rewrite Hh|right; lia].
    + replace (offset d + i) with (offset d + z + (i - z)) by lia. rewrite Hbuf2, Hv by lia. f_equal. lia.
Qed.

Lemma view_read depth allocating c a d n p h al :
  state_ok p h al → no_file d p → 0 <= a → 0 <= n → a + n <= 2 ^ 64 → (∀ x, a <= x < a + n → accessible p h x) →
  budget p al (pages_of a n + c) → 0 <= c → in_bounds h d n = true → ¬ holds (mem p) (block d) →
  ∃ p' h' al', Process.tryReadBlob (Process.fixupFault (S depth)) allocating (2 ^ k) a d n p h = Ok (true, p', h') ∧
    state_ok p' h' al' ∧ budget p' al' c ∧ fetched_to d n p h p' h' ∧ ∀ i, 0 <= i < n → peek h' (block d) (offset d + i) = view p h (a + i).
Proof using Hk Hpool Hk63.
  intros Hst Hnf Ha Hn Htop Hacc Hbud Hc Hb Hnh. unfold Process.tryReadBlob. set (func := λ pa n d p h, _).
  destruct (on_range depth Process.Read allocating (λ z d' p' h', d' = ptr_add d z ∧ reading a d n z p h p' h')
    a n func) with (c := c) (st := d) (p := p) (h := h) (al := al) as (d' & p' & h' & al' & Hr & (_ & [Hft _ Hbuf]) & Hst' & Hbl); try done.
  - intros z st p1 h1 al1 p2 h2 (-> & Hrd) Hst1 Hu. split; [done|]. by eapply reading_unseen.
  - intros z st p1 h1 (_ & Hrd) Hz. apply Hrd. lia.
  - intros z l q st p1 h1 al1 (-> & Hrd) Hst1 Hz Hl Hzl Hleft Hq Hsp. pose proof (rd_fetched _ _ _ _ _ _ _ _ Hrd) as Hft.
    assert (no_file (ptr_add d z) p1) as Hnf1 by by eapply no_file_same; [apply Hft|].
    destruct (read_part (a + z) (ptr_add d z) l q p1 h1 al1) as (m & h2 & Hrb & Hst2 & Hft2 & Hbuf2); try done; [split; lia|lia| | |].
    { rewrite (ft_bounds _ _ _ _ _ _ Hft). apply (in_bounds_part h d n z l); (done || lia). }
    { by rewrite (ft_holds _ _ _ _ _ _ Hft). }
    unfold func. rewrite Hrb. simpl. eexists _, _, _. split; [done|]. split; [|done]. split; [by rewrite ptr_add_add|].
    eapply reading_step; try done. intros x. apply lazy_files. intros v b j Hv Hh Hvb.
    unfold no_file in Hnf1. rewrite Forall_forall in Hnf1. pose proof (ao_files _ _ _ (st_areas _ _ _ Hst1)) as Hfs.
    rewrite Forall_forall in Hfs. specialize (Hfs v Hv Hh). rewrite Hvb in Hfs. apply Hft2; [apply Hfs|left; by apply (Hnf1 v)].
  - split; [by rewrite ptr_add_0|]. constructor; [by constructor|done|lia].
  - by exists p', h', al'.
Qed.

(** ** Buffers of the simulator *)

Lemma accessible_view p h al x : state_ok p h al → is_u64 x → accessible p h x ↔ view p h x ≠ None.
Proof using Hk.
  clear Hpool. intros Hst Hx. unfold accessible, view. rewrite decide_True by done.
  destruct (entry p (page k x)) eqn:He; [|split; [by intros [?|?]|by right]].
  split; [intros _|by left]. destruct (virt_some p h x) as [y ->]; [apply Hst|done|by rewrite He|done].
Qed.

(** A block of the simulator's own may change. *)
Lemma state_except b p h h' al :
  state_ok p h al → ¬ holds (mem p) b → no_file (Ptr b 0) p → (∀ c i, c ≠ b → peek h' c i = peek h c i) →
  (∀ q n, block q ≠ b → in_bounds h' q n = in_bounds h q n) → state_ok p h' al ∧ ∀ x, view p h' x = view p h x.
Proof.
  intros [[Hm Hf Hp Hs Hz] [Hpb Hwf Hr Hc Hzp] Hsk Hap Htp Htd] Hnb Hnf Hpk Hbd.
  destruct (ok_except (mem p) h h' b (mo_ok _ _ _ Hm) Hnb Hpk Hbd) as [Hok Hg]. unfold no_file in Hnf. rewrite Forall_forall in Hnf. split.
  - constructor; [constructor|constructor|done..]; try done.
    + destruct Hm. by constructor.
    + intros Hzt f i Hfp Hfa Hi. rewrite Hg. by apply Hz.
    + rewrite Forall_forall in Hr |- *. intros v Hv Hh. specialize (Hr v Hv Hh). specialize (Hnf v Hv Hh).
      destruct (VMA._hostBuf v) as [c|]; [|done]. rewrite Hbd; [done|by apply Hnf].
  - intros x. unfold view. destruct (decide (is_u64 x)); [|done]. destruct (entry p (page k x)).
    + unfold virt. destruct (EmulationPageTable.translate (pTable p) x); [|done]. apply Hg.
    + apply lazy_files. intros v c j Hv Hh Hvb. apply Hpk. by apply (Hnf v).
Qed.

(** A block that is not there is no file. *)
Lemma fresh_no_file p h al b : state_ok p h al → h !! b = None → no_file (Ptr b 0) p.
Proof.
  intros Hst Hb. pose proof (ao_files _ _ _ (st_areas _ _ _ Hst)) as Hf. unfold no_file. rewrite Forall_forall in Hf |- *.
  intros v Hv Hh c Hc Heq. specialize (Hf v Hv Hh). rewrite Hc in Hf. destruct Hf as [Hi _]. unfold in_bounds in Hi. simpl in Heq. by rewrite Heq, Hb in Hi.
Qed.

(** C18: a page fault is not observable ([MemState::fixupFault], with [Process::allocateMem],
    the pool of frames and [VMA::fillMemPages]).  The memory of a process is a map
    from addresses to bytes, given by the frames where pages are mapped and by the
    files of the areas, and zeros, where they are not.  With a frame to spare, a fault
    at an address that has a byte maps its page and leaves this map, every mapped page
    and all buffers of the simulator as they were; at another address it is refused
    and nothing changes, or is a fatal error when the page crosses the limit of the
    stack. *)
Theorem page_fault_unseen depth va p h al b :
  state_ok p h al → is_u64 va → entry p (page k va) = None → budget p al b → 0 < b →
  match view p h va with
  | Some _ =>
      ∃ p' h' al', Process.fixupFault (S depth) va p h = Ok (true, p', h') ∧ state_ok p' h' al' ∧
        (∀ x, view p' h' x = view p h x) ∧ (∀ a, entry p a ≠ None → entry p' a = entry p a) ∧
        host_same p h p' h' ∧ entry p' (page k va) ≠ None ∧ budget p' al' (b - 1)
  | None => Process.fixupFault (S depth) va p h =
      if decide (over_limit (memState p) va) then Fail FatalFailure else Ok (false, p, h)
  end.
Proof using Hk Hpool Hk63.
  intros Hst Hva He Hb Hpos. pose proof (fault_view depth va p h al b Hst Hva He Hb Hpos) as Hf.
  unfold view at 1. rewrite decide_True, He by done. destruct (lazy (memState p) h va); [|done].
  destruct Hf as (p' & h' & al' & ? & ? & Hu & ? & ?). exists p', h', al'. destruct Hu. done.
Qed.

(** C10: accesses to the memory of a process at virtual addresses
    ([TranslatingPortProxy], over [TLB::translateFunctional], page faults and the page
    table) read and write this map: with frames for the pages of the range, a write
    replaces exactly the bytes of the range and a read copies them to the buffer,
    across pages, whether they are mapped, faulted in or grown by the access, which
    takes at most one frame for each of them. *)
Theorem virtual_access depth allocating c a d n p h al :
  state_ok p h al → 0 <= a → 0 <= n → a + n <= 2 ^ 64 → (∀ x, a <= x < a + n → accessible p h x) →
  budget p al (pages_of a n + c) → 0 <= c → in_bounds h d n = true → ¬ holds (mem p) (block d) →
  (∃ p' h' al', Process.tryWriteBlob (Process.fixupFault (S depth)) allocating (2 ^ k) a d n p h = Ok (true, p', h') ∧
     state_ok p' h' al' ∧ budget p' al' c ∧ host_same p h p' h' ∧ same_areas (memState p) (memState p') ∧
     ∀ x, view p' h' x = if decide (a <= x < a + n) then peek h (block d) (offset d + (x - a)) else view p h x) ∧
  (no_file d p →
   ∃ p' h' al', Process.tryReadBlob (Process.fixupFault (S depth)) allocating (2 ^ k) a d n p h = Ok (true, p', h') ∧
     state_ok p' h' al' ∧ budget p' al' c ∧ (∀ x, view p' h' x = view p h x) ∧
     (∀ i, 0 <= i < n → peek h' (block d) (offset d + i) = view p h (a + i)) ∧
     ∀ b i, ¬ holds (mem p) b → b ≠ block d ∨ ¬ offset d <= i < offset d + n → peek h' b i = peek h b i).
Proof using Hk Hpool Hk63.
  intros Hst Ha Hn Htop Hacc Hb Hc Hbd Hnh. split; [by apply (view_write depth allocating c a d n p h al)|]. intros Hnf.
  destruct (view_read depth allocating c a d n p h al) as (p' & h' & al' & ? & ? & ? & [] & ?); try done. by exists p', h', al'.
Qed.

End View.
End View.
