(* ===== verification/Region.v ===== *)
(** The regions of a process ([MemState::mapRegion], [unmapRegion] and
    [remapRegion]) as operations on the map of its memory. *)

From S2P Require Import Prelude Bits AddrRange Host PageTable PortProxy FreeList MemPool Vma MemState Process VirtMem ProcessInv Fault View.
Import Intmath Host PortProxy.

Module Region.
Import Process (pTable, mem, seWorkload, memState, zeroPages, contextIds, set_mem, set_memState, virt).
Import MemState (_stackBase, _stackMin, _maxStackSize, _vmaList, _pageBytes, set_vmaList).
Import VirtMem ProcessInv Fault View.

Section Region.

Context {G : Type} {HB : BlobProxy G}.
Context (k first total : Z) (ext : Z → Prop) (Hk : 0 <= k < 64).

(** ** Areas as maps *)

Definition byte_of (h : hmem) (b : option ptr) : option Z :=
  match b with Some q => peek h (block q) (offset q) | None => Some 0 end.

Lemma inside_unique l v w x : VMA.apart l → v ∈ l → w ∈ l → VMA.inside v x → VMA.inside w x → v = w.
Proof.
  induction l as [|u l IH]; [by intros _ ?%elem_of_nil|]. intros [Hu Hl] Hv Hw Hx Hx'.
  assert (∀ y, y ∈ l → VMA.inside y x → VMA.inside u x → False) as Hno.
  { intros y Hy Hyx Hux. apply (Hu x Hux). by exists y. }
  apply elem_of_cons in Hv as [->|Hv], Hw as [->|Hw]; [done|by destruct (Hno w)|by destruct (Hno v)|by apply IH].
Qed.

Lemma lazy_mapped ms h x b : VMA.wf (2 ^ k) (_vmaList ms) → VMA.maps (_vmaList ms) x b → lazy k ms h x = byte_of h b.
Proof.
  intros [Hok Hap] (v & Hv & Hx & <-). rewrite Forall_forall in Hok. unfold lazy.
  destruct (List.find _ _) as [w|] eqn:Hf.
  - apply List.find_some in Hf as [Hw%list_elem_of_In Hc]. apply (VMA.contains_inside (2 ^ k)) in Hc; [|by apply Hok].
    by rewrite (inside_unique _ v w x Hap Hv Hw Hx Hc).
  - eapply List.find_none in Hf; [|by apply list_elem_of_In]. apply (VMA.contains_inside (2 ^ k)) in Hx; [congruence|by apply Hok].
Qed.

(** Where there is no area, the stack decides. *)
Definition stack_byte (ms : MemState.t) (x : Z) : option Z :=
  if decide (on_stack k ms x) then Some 0 else None.

Lemma lazy_unmapped ms h x : VMA.wf (2 ^ k) (_vmaList ms) → (∀ b, ¬ VMA.maps (_vmaList ms) x b) → lazy k ms h x = stack_byte ms x.
Proof.
  intros [Hok _] Hn. unfold lazy. destruct (List.find _ _) as [w|] eqn:Hf; [|done].
  apply List.find_some in Hf as [Hw%list_elem_of_In Hc]. rewrite Forall_forall in Hok.
  apply (VMA.contains_inside (2 ^ k)) in Hc; [|by apply Hok]. destruct (Hn (VMA.backing w x)). by exists w.
Qed.

Lemma mapped_dec ms x : VMA.wf (2 ^ k) (_vmaList ms) → (∃ b, VMA.maps (_vmaList ms) x b) ∨ (∀ b, ¬ VMA.maps (_vmaList ms) x b).
Proof.
  intros [Hok _]. rewrite Forall_forall in Hok. destruct (List.find (VMA.contains x) (_vmaList ms)) as [w|] eqn:Hf.
  - left. apply List.find_some in Hf as [Hw%list_elem_of_In Hc]. apply (VMA.contains_inside (2 ^ k)) in Hc; [|by apply Hok].
    exists (VMA.backing w x), w. done.
  - right. intros b (v & Hv & Hx & _). eapply List.find_none in Hf; [|by apply list_elem_of_In].
    apply (VMA.contains_inside (2 ^ k)) in Hx; [congruence|by apply Hok].
Qed.

(** Areas that map an address alike. *)
Lemma lazy_iff ms ms' h x :
  VMA.wf (2 ^ k) (_vmaList ms) → VMA.wf (2 ^ k) (_vmaList ms') → _stackBase ms' = _stackBase ms → _maxStackSize ms' = _maxStackSize ms →
  (∀ b, VMA.maps (_vmaList ms') x b ↔ VMA.maps (_vmaList ms) x b) → lazy k ms' h x = lazy k ms h x.
Proof.
  intros Hwf Hwf' Hb Hm Hiff. destruct (mapped_dec ms x Hwf) as [[b Hx]|Hn].
  - rewrite (lazy_mapped ms h x b), (lazy_mapped ms' h x b); try done. by apply Hiff.
  - rewrite (lazy_unmapped ms), (lazy_unmapped ms'); try done; [apply decide_ext; unfold on_stack; by rewrite Hb, Hm|]. intros b. rewrite Hiff. apply Hn.
Qed.

(** ** New regions *)

Lemma none_intersects_ok s e l :
  Forall (VMA.ok (2 ^ k)) l → s < e → (∀ x, s <= x < e → ¬ VMA.mapped l x) →
  Process.none_intersects (AddrRange.plain s e) l = Ok true.
Proof.
  intros Hok Hse Hn. induction Hok as [|v l Hv Hok IH]; [done|]. cbn [Process.none_intersects].
  rewrite (VMA.intersects_plain (2 ^ k)), res_bind_Ok by done. pose proof (VMA.ok_bounds _ _ Hv).
  destruct ((s <? VMA.end_ v) && (VMA.start v <? e)) eqn:Hi.
  - exfalso. apply (Hn (Z.max s (VMA.start v))); [lia|]. apply VMA.mapped_cons. left. unfold VMA.inside. lia.
  - apply IH. intros x Hx Hm. apply (Hn x Hx), VMA.mapped_cons. by right.
Qed.

Lemma check_pages_ok p h fuel : ∀ s e,
  mapped_ok k p h → _pageBytes (memState p) = 2 ^ k → 0 <= s → e < 2 ^ 64 → s mod 2 ^ k = 0 → e mod 2 ^ k = 0 →
  e - s <= Z.of_nat fuel * 2 ^ k → (∀ a, a mod 2 ^ k = 0 → s <= a < e → entry p a = None) →
  Process.check_pages fuel s e p = Ok true.
Proof using Hk.
  pose proof (EmulationPageTable.page_pos k Hk) as Hp.
  induction fuel as [|fuel IH]; intros s e Hm Hpb Hs Htop Hsa Hea Hf Hn; cbn [Process.check_pages];
    destruct (Z.ltb_spec s e) as [Hlt|Hge]; try done; [lia|].
  assert (EmulationPageTable.lookup (pTable p) s = None) as ->.
  { rewrite <-(page_aligned k s Hsa), (lookup_page k Hk p h) by (done || (split; lia)). rewrite page_aligned by done. apply Hn; [done|lia]. }
  assert (s + 2 ^ k <= e) as Hle.
  { apply Z.mod_divide in Hsa as [i ->]; [|lia]. apply Z.mod_divide in Hea as [j ->]; [|lia].
    assert (i < j) by (apply (Z.mul_lt_mono_pos_r (2 ^ k)); lia). assert ((i + 1) * 2 ^ k <= j * 2 ^ k) by (apply Z.mul_le_mono_nonneg_r; lia). lia. }
  cbn [ensure negb]. rewrite res_bind_Ok, Hpb, u64_small by (split; lia).
  apply IH; try done; [lia|by apply EmulationPageTable.aligned_next|lia|]. intros a Ha Hr. apply Hn; [done|lia].
Qed.

(** A region of whole pages away from the stack. *)
Record region_ok (s len : Z) (ms : MemState.t) : Prop := {
  ro_start : 0 <= s ∧ s mod 2 ^ k = 0;
  ro_len : 0 < len ∧ len mod 2 ^ k = 0;
  ro_top : s + len < 2 ^ 64;
  ro_stack : s + len <= _stackBase ms - _maxStackSize ms ∨ _stackBase ms <= s;
}.

Lemma region_end s len ms : region_ok s len ms → (s + len) mod 2 ^ k = 0 ∧ u64 (s + len) = s + len.
Proof.
  intros [[H1 H2] [H3 H4] H5 _]. split; [by rewrite <-Zplus_mod_idemp_l, H2|]. apply u64_small. split; lia.
Qed.

Lemma region_stack s len ms x :
  region_ok s len ms → s <= x < s + len → page k x < _stackBase ms - _maxStackSize ms ∨ _stackBase ms <= page k x.
Proof using Hk.
  intros [[Hs Hsal] _ Ht Hsk] Hx. pose proof (page_below k Hk x s Hsal). pose proof (page_range k Hk x ltac:(split; lia)). lia.
Qed.

Lemma region_top s len ms x :
  region_ok s len ms → stack_ok k ms → page k x < _stackBase ms <= x → ¬ s <= x < s + len.
Proof using Hk.
  intros Hr [_ _ Hmax _] Htop Hx. destruct Hr as [[_ Hsal] _ _ Hsk]. pose proof (page_below k Hk x s Hsal). lia.
Qed.

Lemma isUnmapped_ok s len p h al :
  state_ok k first total ext p h al → region_ok s len (memState p) →
  (∀ x, s <= x < s + len → ¬ VMA.mapped (_vmaList (memState p)) x) → (∀ a, a mod 2 ^ k = 0 → s <= a < s + len → entry p a = None) →
  Process.isUnmapped s len p = Ok true.
Proof using Hk.
  intros Hst Hr Hn Hpg. pose proof (EmulationPageTable.page_pos k Hk) as Hp. destruct (region_end s len _ Hr) as [He Hu].
  pose proof Hr as [[H1 H2] [H3 H4] H5 _]. pose proof (ao_page _ _ _ (st_areas _ _ _ _ _ _ _ Hst)) as Hpb.
  unfold Process.isUnmapped. rewrite Hu, none_intersects_ok, res_bind_Ok, Hpb; [|apply Hst|lia|done]. cbn [negb].
  eapply (check_pages_ok p h); try done; [apply Hst|].
  pose proof (Z.div_mod len (2 ^ k) ltac:(lia)). pose proof (Z.mod_pos_bound len (2 ^ k) ltac:(lia)).
  pose proof (Z.div_pos len (2 ^ k) ltac:(lia) ltac:(lia)). rewrite Z2Nat.id by lia. lia.
Qed.

(** The file behind a region, and what is read there at first. *)
Definition file_ok (p : Process.t (G := G)) (h : hmem) (fd : option VMA.file) (off : Z) : Prop :=
  match fd with
  | Some f => 0 <= off < VMA.st_size f ∧ VMA.st_size f < 2 ^ 64 ∧
      in_bounds h (VMA.contents f) (VMA.st_size f) = true ∧ ¬ holds (mem p) (block (VMA.contents f))
  | None => True
  end.

Definition region_byte (h : hmem) (fd : option VMA.file) (off s x : Z) : option Z :=
  match fd with
  | Some f =>
      if x - s <? VMA.st_size f - off
      then peek h (block (VMA.contents f)) (offset (VMA.contents f) + off + (x - s)) else Some 0
  | None => Some 0
  end.

Lemma create_ok s len ms fd off p h :
  region_ok s len ms → file_ok p h fd off →
  ∃ v, VMA.create (AddrRange.plain s (s + len)) (2 ^ k) fd off = Ok v ∧ VMA.ok (2 ^ k) v ∧ readable p h v ∧
    VMA.start v = s ∧ VMA.end_ v = s + len ∧
    ∀ x, s <= x < s + len → byte_of h (VMA.backing v x) = region_byte h fd off s x.
Proof.
  intros Hr Hf. destruct (region_end s len ms Hr) as [He _]. destruct Hr as [[Hs Hsa] [Hl Hla] Ht _].
  assert (∀ ob b n, 0 <= n < 2 ^ 64 → let v := VMA.mk (AddrRange.plain s (s + len)) (2 ^ k) ob b n in
    VMA.ok (2 ^ k) v ∧ VMA.sanityCheck v = Ok v) as Hv.
  { intros ob b n Hn v. assert (VMA.ok (2 ^ k) v) as Hv by (constructor; unfold VMA.aligned, VMA.start, VMA.end_; simpl; (done || lia)).
    split; [done|]. by apply (VMA.sanityCheck_ok (2 ^ k)). }
  unfold VMA.create, region_byte. destruct fd as [f|].
  - destruct Hf as (Ho & Hsz & Hb & Hnh). unfold VMA.map_file.
    assert (AddrRange.size (AddrRange.plain s (s + len)) = len) as ->.
    { unfold AddrRange.size, AddrRange.nmasks. simpl. replace (s + len - s) with len by lia. rewrite u64_small by (split; lia). done. }
    destruct (Z.eqb_spec len 0) as [|_]; [lia|]. destruct (Z.leb_spec off (VMA.st_size f)); [|lia]. cbn [negb ensure]. rewrite !res_bind_Ok.
    rewrite u64_small by (split; lia). set (n := Z.min (VMA.st_size f - off) len). destruct (Z.eqb_spec n 0) as [|_]; [lia|].
    cbn [negb ensure]. rewrite !res_bind_Ok. simpl.
    destruct (Hv (Some (VMA.mkBuffer (ptr_add (VMA.contents f) off) n off)) (Some (ptr_add (VMA.contents f) off)) n ltac:(lia)) as [Hok Hsc].
    eexists. split; [exact Hsc|]. split; [done|]. split; [|split; [done|]; split; [done|]].
    + intros _. simpl. split; [|done]. apply (in_bounds_part _ _ (VMA.st_size f)); (done || lia).
    + intros x Hx. unfold VMA.backing. simpl. change (VMA.start _) with s.
      destruct (Z.ltb_spec (x - s) n), (Z.ltb_spec (x - s) (VMA.st_size f - off)); try lia; done.
  - destruct (Hv None None 0 ltac:(lia)) as [Hok Hsc]. eexists. split; [exact Hsc|]. done.
Qed.

(** A region is mapped where there is nothing. *)
Lemma mapRegion_ok s len fd off p h al :
  state_ok k first total ext p h al → region_ok s len (memState p) → file_ok p h fd off →
  (∀ x, s <= x < s + len → ¬ VMA.mapped (_vmaList (memState p)) x) →
  (∀ a, a mod 2 ^ k = 0 → s <= a < s + len → entry p a = None) →
  ∃ p', Process.mapRegion s len fd off p = Ok p' ∧ state_ok k first total ext p' h al ∧
    (∃ l', p' = set_memState (set_vmaList l' (memState p)) p) ∧
    ∀ x, view k p' h x = if decide (s <= x < s + len) then region_byte h fd off s x else view k p h x.
Proof using Hk.
  intros Hst Hr Hf Hn Hpg. pose proof (EmulationPageTable.page_pos k Hk) as Hp. destruct (region_end s len _ Hr) as [_ Hu].
  unfold Process.mapRegion. rewrite (isUnmapped_ok s len p h al), res_bind_Ok by done. cbn [ensure]. rewrite res_bind_Ok, Hu.
  rewrite (ao_page _ _ _ (st_areas _ _ _ _ _ _ _ Hst)).
  destruct (create_ok s len (memState p) fd off p h Hr Hf) as (v & -> & Hok & Hrd & Hvs & Hve & Hvb). rewrite res_bind_Ok.
  eexists. split; [done|]. destruct Hst as [Hi [Hpb [Hoks Hap] Hfs Hc Hz] Hsk Hsa Hst Htd].
  assert (∀ x, VMA.inside v x ↔ s <= x < s + len) as Hin by (intros x; unfold VMA.inside; by rewrite Hvs, Hve).
  assert (VMA.wf (2 ^ k) (_vmaList (memState p) ++ [v])) as Hwf.
  { split; [apply Forall_app; split; [done|by constructor]|]. apply VMA.apart_app; [done| |].
    - split; [|done]. intros x _ (? & []%elem_of_nil & _).
    - intros x Hx Hx'%VMA.mapped_one. by apply (Hn x); [apply Hin|]. }
  split; [|split; [by eexists|]].
  - constructor; [by apply inv_memState|constructor|..]; simpl; try done.
    + apply Forall_app. split; [done|]. by constructor.
    + by destruct Hsk.
    + intros x Hx Hx' [Hm|Hm]%VMA.mapped_app; [by apply (Hsa x)|]. apply VMA.mapped_one, Hin in Hm.
      pose proof (region_stack s len _ x Hr Hm). pose proof (sk_min _ _ Hsk) as [? Hma]. pose proof (page_below k Hk x _ Hma). lia.
    + intros x Hx. apply VMA.mapped_app. left. by apply Hst.
    + intros a Ha Hx. destruct (Htd a Ha Hx); [left; apply VMA.mapped_app; by left|by right].
  - intros x. unfold view. change (entry (set_memState _ p) (page k x)) with (entry p (page k x)).
    change (virt (set_memState _ p) h x) with (virt p h x). destruct (decide (s <= x < s + len)) as [Hx|Hx].
    + destruct Hr as [[Hs Hsal] [Hl Hlal] Ht _]. rewrite decide_True by (split; lia). rewrite Hpg.
      * simpl. rewrite <-(Hvb x Hx). apply lazy_mapped; [done|]. apply VMA.maps_app. right. exists v. split; [by apply list_elem_of_singleton|].
        split; [by apply Hin|done].
      * apply page_mod.
      * pose proof (page_below k Hk x s Hsal). pose proof (page_range k Hk x ltac:(split; lia)). lia.
    + destruct (decide (is_u64 x)); [|done]. destruct (entry p (page k x)); [done|]. apply lazy_iff; try done. intros b. simpl.
      rewrite VMA.maps_app. split; [|by left]. intros [?|(w & Hw%list_elem_of_singleton & Hwx & _)]; [done|]. subst w. by apply Hin in Hwx.
Qed.

(** ** Regions that are unmapped *)

(** Slices of a buffer can be read. *)
Definition sliceable (p : Process.t (G := G)) (h : hmem) (v : VMA.t) : Prop := is_u64 (VMA._hostBufLen v) ∧ readable p h v.

Lemma sliceable_right p h a v w : sliceable p h v → VMA.sliceRegionRight a v = Ok w → sliceable p h w.
Proof.
  intros [[Hl1 Hl2] Hr] Hw. unfold VMA.sliceRegionRight, VMA.sanityCheck in Hw. inv_res Hw. simpl. pose proof (u64_range (a - VMA.start v)) as [? ?].
  split; simpl; [destruct (VMA.hasHostBuf v); split; lia|]. intros Hb. change (VMA.hasHostBuf v = true) in Hb. specialize (Hr Hb). simpl. rewrite Hb.
  destruct (VMA._hostBuf v) as [b|]; [|lia]. destruct Hr as [Hin ?]. split; [|done].
  rewrite <-(ptr_add_0 b). apply (in_bounds_part _ _ (VMA._hostBufLen v)); (done || lia).
Qed.

Lemma sliceable_left p h a v w : sliceable p h v → VMA.sliceRegionLeft a v = Ok w → sliceable p h w.
Proof.
  intros [[Hl1 Hl2] Hr] Hw. unfold VMA.sliceRegionLeft, VMA.sanityCheck, VMA.set_range in Hw. pose proof (u64_range (a - VMA.start v)) as [? ?].
  set (o := u64 (a - VMA.start v)) in *. destruct (VMA.hasHostBuf v) eqn:Hb; [|inv_res Hw; split; [done|intros Hb'; change (VMA.hasHostBuf v = true) in Hb'; congruence]].
  specialize (Hr Hb). destruct (Z.leb_spec (VMA._hostBufLen v) o); inv_res Hw.
  - split; [simpl; split; lia|done].
  - rewrite u64_small by (split; lia). split; [simpl; split; lia|]. intros _. simpl. destruct (VMA._hostBuf v) as [b|]; simpl; [|lia].
    destruct Hr as [Hin ?]. split; [|done]. apply (in_bounds_part _ _ (VMA._hostBufLen v)); (done || lia).
Qed.

Lemma sliceable_remap p h a v w : sliceable p h v → VMA.remap a v = Ok w → sliceable p h w.
Proof. intros Hs Hw. unfold VMA.remap, VMA.sanityCheck in Hw. inv_res Hw. exact Hs. Qed.

Lemma readable_sliceable (p : Process.t (G := G)) h l :
  Forall (VMA.ok (2 ^ k)) l → Forall (readable p h) l → Forall (sliceable p h) l.
Proof.
  rewrite !Forall_forall. intros Hok Hr v Hv. split; [apply (VMA.ok_len _ _ (Hok v Hv))|by apply Hr].
Qed.

Lemma dropped_host D p h p' h' : dropped k D p h p' h' → host_same (G := G) p h p' h'.
Proof. intros [_ _ _ _ Hp Hh Hb]. by constructor. Qed.

(** The areas that are left have the files they had. *)
Lemma areas_left s len p h al :
  state_ok k first total ext p h al → region_ok s len (memState p) →
  ∃ l', VMA.unmap_loop (AddrRange.plain s (s + len)) (_vmaList (memState p)) = Ok l' ∧ VMA.wf (2 ^ k) l' ∧ Forall (readable p h) l' ∧
    ∀ x b, VMA.maps l' x b ↔ VMA.maps (_vmaList (memState p)) x b ∧ ¬ s <= x < s + len.
Proof using Hk.
  intros Hst Hr. pose proof (EmulationPageTable.page_pos k Hk) as Hp. destruct (region_end s len _ Hr) as [He _].
  destruct Hr as [[Hs Hsal] [Hl _] _ _]. destruct (st_areas _ _ _ _ _ _ _ Hst) as [_ Hwf Hfs _ _].
  destruct (VMA.unmap_loop_ok (2 ^ k) ltac:(lia) s (s + len) Hsal He ltac:(lia) (_vmaList (memState p)) Hwf) as (l' & Hul & Hwf' & Hmaps).
  exists l'. split; [done|]. split; [done|]. split; [|done].
  assert (Forall (sliceable p h) l') as Hsl.
  { eapply VMA.unmap_loop_Forall; [..|exact Hul]; [apply sliceable_right|apply sliceable_left|]. by apply readable_sliceable; [apply Hwf|]. }
  eapply Forall_impl; [exact Hsl|]. by intros v [_ ?].
Qed.

(** What is left to see when pages and areas of a region are gone. *)
Lemma view_dropped s len p h l' p' h' al' :
  region_ok s len (memState p) → VMA.wf (2 ^ k) (_vmaList (memState p)) → VMA.wf (2 ^ k) l' → Forall (readable p h) l' →
  (∀ x b, VMA.maps l' x b ↔ VMA.maps (_vmaList (memState p)) x b ∧ ¬ s <= x < s + len) →
  inv k first total ext p' h' al' → memState p' = set_vmaList l' (memState p) → host_same p h p' h' →
  (∀ a, s <= a < s + len → entry p' a = None) →
  (∀ a, a mod 2 ^ k = 0 → ¬ s <= a < s + len → entry p' a = entry p a) →
  (∀ x, is_u64 x → ¬ s <= page k x < s + len → virt p' h' x = virt p h x) →
  ∀ x, view k p' h' x = if decide (s <= x < s + len) then None else view k p h x.
Proof using Hk.
  intros Hr Hwf Hwf' Hfs Hmaps Hi' Hms Hho Hgone Hkept Hvirt x. destruct (region_end s len _ Hr) as [He _].
  pose proof Hr as [[Hs Hsal] [Hl _] Ht Hsk]. unfold view. destruct (decide (is_u64 x)) as [Hx|Hx]; [|by case_decide].
  pose proof (page_below k Hk x s Hsal). pose proof (page_below k Hk x (s + len) He). pose proof (page_mod k x).
  rewrite Hms. destruct (decide (s <= x < s + len)) as [Hin|Hout].
  - rewrite Hgone by lia. rewrite lazy_unmapped; [|done|intros b Hb; by apply Hmaps in Hb as [_ Ho]].
    unfold stack_byte. rewrite decide_False; [done|]. pose proof (region_stack s len _ x Hr Hin). unfold on_stack. simpl. lia.
  - rewrite Hkept by (done || lia). destruct (entry p (page k x)); [apply Hvirt; [done|lia]|].
    etransitivity; [|apply (lazy_iff (memState p) (set_vmaList l' (memState p)))]; try done.
    + apply lazy_files. intros v b i Hv Hb Hvb. rewrite Forall_forall in Hfs. specialize (Hfs v Hv Hb). rewrite Hvb in Hfs.
      apply (ho_peek _ _ _ _ Hho), Hfs.
    + intros b. etransitivity; [apply Hmaps|]. tauto.
Qed.

Context (Hpool : 0 <= first ∧ 0 < total ∧ (first + total) * 2 ^ k < 2 ^ 64).

(** The frames of the pages of a region are back in the pool. *)
Definition vacated (s len : Z) (p : Process.t (G := G)) (al al' : gset Z) : Prop := returned k (λ a, s <= a < s + len) p al al'.

Lemma touched_vacated s len p h al al' :
  mapped_ok k p h → s mod 2 ^ k = 0 → returned k (touched k s len) p al al' → vacated s len p al al'.
Proof.
  intros Hm Hs Hr f. rewrite (Hr f). split; intros [? Hn]; (split; [done|]); intros (a & Ha & Hfr); apply Hn; exists a; (split; [|done]).
  - destruct Hfr as (e & He & _). destruct (EmulationPageTable.typed_entry _ _ (mo_typed _ _ _ Hm) _ _ He) as (_ & ? & _).
    split; [done|]. by rewrite (page_aligned k s).
  - destruct Ha as [_ Ha]. by rewrite (page_aligned k s) in Ha.
Qed.

Lemma unmapRegion_ok depth s len p h al :
  state_ok k first total ext p h al → region_ok s len (memState p) → len + 2 * 2 ^ k <= 2 ^ 31 * 2 ^ k → s + len + 2 ^ k - 1 < 2 ^ 64 →
  (∀ a, s <= a < s + len → ¬ ext a) →
  ∃ p' h' al' l', Process.unmapRegion depth s len p h = Ok (p', h') ∧ state_ok k first total ext p' h' al' ∧ vacated s len p al al' ∧ host_same p h p' h' ∧
    memState p' = set_vmaList l' (memState p) ∧ (∀ a, entry p' a = if decide (s <= a < s + len) then None else entry p a) ∧
    (∀ x, s <= x < s + len → ¬ VMA.mapped l' x) ∧
    ∀ x, view k p' h' x = if decide (s <= x < s + len) then None else view k p h x.
Proof using Hk Hpool.
  intros Hst Hr Hlen Htop2 Hpo. destruct (areas_left s len p h al Hst Hr) as (l' & Hul & Hwf' & Hfs' & Hmaps).
  destruct (region_end s len _ Hr) as [He Hu]. pose proof Hr as [[Hs Hsal] [Hl Hlal] Ht _].
  destruct Hst as [Hi [Hpb Hwf _ Hc Hz] Hstk Hap Htp Htd]. unfold Process.unmapRegion. rewrite Hu, Hul, res_bind_Ok.
  set (p1 := set_memState _ p). assert (inv k first total ext p1 h al) as Hi1 by by apply inv_memState.
  assert (∀ a, touched k s len a ↔ a mod 2 ^ k = 0 ∧ s <= a < s + len) as Htch by (intros a; unfold touched; by rewrite (page_aligned k s)).
  destruct (deallocateMem_ok k first total ext Hk Hpool depth s len p1 h al Hi1) as (p2 & h2 & al2 & Hd & Hi2 & Hsub & Hdr);
    [split; lia|lia|lia|done| |].
  { intros a e [_ Ha]%Htch Hea. destruct (iv_frame _ _ _ _ _ _ _ Hi a e Hea) as (f & ? & [?|[_ Hx]]); [by exists f|by destruct (Hpo a)]. }
  exists p2, h2, al2, l'. split; [done|]. pose proof (dr_same _ _ _ _ _ _ Hdr) as Hsm. assert (memState p2 = memState p1) as Hms by by rewrite Hsm.
  assert (host_same p h p2 h2) as Hho by (destruct (dropped_host _ _ _ _ _ Hdr); by constructor).
  assert (∀ a, s <= a < s + len → entry p2 a = None) as Hgone.
  { intros a Ha. destruct (decide (a mod 2 ^ k = 0)); [apply (dr_gone _ _ _ _ _ _ Hdr), Htch; done|].
    destruct (entry p2 a) as [e|] eqn:Hea; [|done].
    by destruct (EmulationPageTable.typed_entry _ _ (mo_typed _ _ _ (iv_mapped _ _ _ _ _ _ _ Hi2)) _ _ Hea) as (_ & ? & _). }
  assert (∀ a, ¬ s <= a < s + len → entry p2 a = entry p a) as Hkept.
  { intros a Hn. rewrite (dr_kept _ _ _ _ _ _ Hdr); [done|]. rewrite Htch. tauto. }
  assert (∀ x, VMA.mapped l' x → VMA.mapped (_vmaList (memState p)) x ∧ ¬ s <= x < s + len) as Hmp.
  { intros x [b [Hb Ho]%Hmaps]%VMA.mapped_maps. split; [apply VMA.mapped_maps; eauto|exact Ho]. }
  split; [|split; [by apply (touched_vacated s len p1 h); [apply Hi1|..]|]; split; [done|]; split; [done|];
    split; [intros a; case_decide; auto|]; split; [by intros x Hx [_ Hno]%Hmp|]].
  - constructor; [done|constructor|..]; rewrite ?Hms; try (by rewrite Hsm); try done.
    + eapply Forall_impl; [exact Hfs'|]. intros v. by apply readable_same.
    + by destruct Hstk.
    + intros x Hx Hx' [Hm _]%Hmp. by apply (Hap x).
    + intros x Hx. pose proof (region_top s len _ x Hr Hstk Hx). apply Htp, VMA.mapped_maps in Hx as [b Hb].
      apply VMA.mapped_maps. exists b. by apply Hmaps.
    + intros a Ha Hx. assert (¬ s <= a < s + len) as Hn by (intros Hr'; by apply Ha, Hgone).
      rewrite Hkept in Ha by done. destruct (Htd a Ha Hx) as [[b Hb]%VMA.mapped_maps|]; [left|by right].
      apply VMA.mapped_maps. exists b. by apply Hmaps.
  - eapply view_dropped; try done; [by auto|].
    intros x Hx Hn. rewrite (dr_virt _ _ _ _ _ _ Hdr); [done|done|]. rewrite Htch. tauto.
Qed.

(** ** Regions that move *)

(** The page tables after the pages from [s] on have gone to [w]. *)
Record moved_pages (s w n : Z) (p p' : Process.t (G := G)) : Prop := {
  mp_same : p' = Process.set_pTable (pTable p') p;
  mp_typed : EmulationPageTable.typed k (pTable p');
  mp_entry a : entry p' a =
    if decide (EmulationPageTable.page_of k w (n * 2 ^ k) a) then entry p (s + (a - w))
    else if decide (EmulationPageTable.page_of k s (n * 2 ^ k) a) then None else entry p a;
}.

(** One page, mapped or not. *)
Lemma move_page s w (p : Process.t (G := G)) :
  EmulationPageTable.typed k (pTable p) → is_u64 s → is_u64 w → s mod 2 ^ k = 0 → w mod 2 ^ k = 0 → s ≠ w → entry p w = None →
  ∃ p', (u ← EmulationPageTable.isUnmapped s (2 ^ k) (pTable p);
         if negb u then pt ← EmulationPageTable.remap s (2 ^ k) w (pTable p); Ok (Process.set_pTable pt p) else Ok p) = Ok p' ∧
    p' = Process.set_pTable (pTable p') p ∧ EmulationPageTable.typed k (pTable p') ∧
    ∀ a, entry p' a = if decide (a = w) then entry p s else if decide (a = s) then None else entry p a.
Proof using Hk.
  clear Hpool. intros Ht Hs Hw Hsa Hwa Hne Hn. pose proof (EmulationPageTable.typed_wf _ _ Ht) as Hwf.
  rewrite (EmulationPageTable.isUnmapped_page k), res_bind_Ok by done. fold (entry p s). destruct (entry p s) as [e|] eqn:He; cbn [negb].
  - rewrite (EmulationPageTable.remap_page k s e w), res_bind_Ok by done. eexists. split; [done|]. split; [done|]. split.
    + simpl. refine (EmulationPageTable.typed_delete k (EmulationPageTable.set_table (<[w:=e]> (EmulationPageTable.pTable (pTable p))) (pTable p)) s _).
      apply EmulationPageTable.typed_insert; try done. by eapply EmulationPageTable.typed_entry.
    + intros a. unfold entry at 1. simpl. case_decide as Ha.
      * subst a. rewrite lookup_delete_ne, lookup_insert_eq by done. done.
      * case_decide as Ha'; [subst a; apply lookup_delete_eq|]. by rewrite lookup_delete_ne, lookup_insert_ne.
  - exists p. split; [done|]. split; [by destruct p|]. split; [done|]. intros a. repeat case_decide; by subst.
Qed.

Lemma moved_none s w p : EmulationPageTable.typed k (pTable p) → moved_pages s w 0 p p.
Proof using Hk.
  clear Hpool. intros Ht. constructor; [by destruct p|done|]. intros a.
  rewrite !decide_False by (apply (EmulationPageTable.page_of_empty k Hk); lia). done.
Qed.

(** One page, and then the others. *)
Lemma moved_step s w n p p1 p2 :
  s mod 2 ^ k = 0 → w mod 2 ^ k = 0 → 0 <= n → s + (n + 1) * 2 ^ k <= w ∨ w + (n + 1) * 2 ^ k <= s →
  p1 = Process.set_pTable (pTable p1) p → (∀ a, entry p1 a = if decide (a = w) then entry p s else if decide (a = s) then None else entry p a) →
  moved_pages (s + 2 ^ k) (w + 2 ^ k) n p1 p2 → moved_pages s w (n + 1) p p2.
Proof using Hk.
  clear Hpool ext. intros Hsa Hwa Hn Hd Hsm He1 [Hsm2 Ht2 He2]. pose proof (EmulationPageTable.page_pos k Hk) as Hp.
  assert (0 <= n * 2 ^ k) by (apply Z.mul_nonneg_nonneg; lia).
  assert (∀ v a, EmulationPageTable.page_of k v ((n + 1) * 2 ^ k) a ↔ a = v ∨ EmulationPageTable.page_of k (v + 2 ^ k) (n * 2 ^ k) a) as Hstep.
  { intros v a. rewrite (EmulationPageTable.page_of_step k Hk) by lia. by replace ((n + 1) * 2 ^ k - 2 ^ k) with (n * 2 ^ k) by lia. }
  constructor; [by rewrite Hsm2, Hsm|done|]. intros a. rewrite He2, !He1. pose proof (Hstep w a) as Hw1. pose proof (Hstep s a) as Hs1.
  destruct (decide (EmulationPageTable.page_of k (w + 2 ^ k) (n * 2 ^ k) a)) as [Hin|Hin].
  { rewrite (decide_True (P := EmulationPageTable.page_of k w _ a)) by tauto. destruct Hin as [Hin _].
    rewrite (decide_False (P := _ = w)), (decide_False (P := _ = s)) by lia. f_equal. lia. }
  destruct (decide (a = w)) as [->|Haw].
  { rewrite (decide_True (P := EmulationPageTable.page_of k w _ w)) by tauto. rewrite decide_False; [f_equal; lia|]. intros [? _]. lia. }
  rewrite (decide_False (P := EmulationPageTable.page_of k w _ a)) by tauto.
  destruct (decide (EmulationPageTable.page_of k (s + 2 ^ k) (n * 2 ^ k) a)) as [Hin'|Hin']; [by rewrite decide_True by tauto|].
  destruct (decide (a = s)) as [->|Has]; [by rewrite decide_True by tauto|]. by rewrite decide_False by tauto.
Qed.

Lemma remap_pages_ok (n : nat) : ∀ s w p,
  EmulationPageTable.typed k (pTable p) → _pageBytes (memState p) = 2 ^ k → (0 < n)%nat → s mod 2 ^ k = 0 → w mod 2 ^ k = 0 →
  0 <= s → 0 <= w → s + Z.of_nat n * 2 ^ k < 2 ^ 64 → w + Z.of_nat n * 2 ^ k < 2 ^ 64 →
  s + Z.of_nat n * 2 ^ k <= w ∨ w + Z.of_nat n * 2 ^ k <= s →
  (∀ a, w <= a < w + Z.of_nat n * 2 ^ k → entry p a = None) →
  ∃ p', Process.remap_pages n s w (Z.of_nat n * 2 ^ k) p = Ok p' ∧ moved_pages s w (Z.of_nat n) p p'.
Proof using Hk.
  clear Hpool. pose proof (EmulationPageTable.page_pos k Hk) as Hp.
  induction n as [|n IH]; intros s w p Ht Hpb Hn Hsa Hwa Hs Hw Hst Hwt Hd Hfree; [lia|]. cbn [Process.remap_pages]. rewrite Hpb.
  assert (0 <= Z.of_nat n * 2 ^ k) by (apply Z.mul_nonneg_nonneg; lia).
  destruct (move_page s w p) as (p1 & Hm & Hsm & Ht1 & He1); [done|split; lia|split; lia|done|done|lia|apply Hfree; lia|].
  apply bind_Ok in Hm as (u & Hu & Hm). rewrite Hu, res_bind_Ok, Hm, res_bind_Ok.
  replace (Z.of_nat (S n)) with (Z.of_nat n + 1) in * by lia.
  replace ((Z.of_nat n + 1) * 2 ^ k - 2 ^ k) with (Z.of_nat n * 2 ^ k) by lia. rewrite (u64_small (Z.of_nat n * 2 ^ k)) by (split; lia).
  assert (∃ p2, (if 0 <? Z.of_nat n * 2 ^ k
    then Process.remap_pages n (u64 (s + 2 ^ k)) (u64 (w + 2 ^ k)) (Z.of_nat n * 2 ^ k) p1 else Ok p1) = Ok p2 ∧
    moved_pages (s + 2 ^ k) (w + 2 ^ k) (Z.of_nat n) p1 p2) as (p2 & -> & Hmv).
  { destruct n as [|n]; [exists p1; split; [done|by apply moved_none]|]. rewrite (proj2 (Z.ltb_lt _ _)) by lia.
    rewrite !(u64_small (_ + 2 ^ k)) by (split; lia).
    apply IH; try done; try lia; [by rewrite Hsm|by apply EmulationPageTable.aligned_next|by apply EmulationPageTable.aligned_next|].
    intros a Ha. rewrite He1. repeat case_decide; try done; [lia|]. apply Hfree. lia. }
  exists p2. split; [done|]. by apply (moved_step s w (Z.of_nat n) p p1 p2); try done; lia.
Qed.

(** Where an address of the moved pages was. *)
Definition origin (s w len x : Z) : Z := if decide (w <= x < w + len) then s + (x - w) else x.

Record moves (s w len : Z) : Prop := {
  mo_aligned : s mod 2 ^ k = 0 ∧ w mod 2 ^ k = 0 ∧ len mod 2 ^ k = 0;
  mo_range : 0 <= s ∧ 0 <= w ∧ 0 < len ∧ s + len < 2 ^ 64 ∧ w + len < 2 ^ 64;
  mo_disjoint : s + len <= w ∨ w + len <= s;
}.

Lemma origin_page s w len x : moves s w len → page k (origin s w len x) = origin s w len (page k x) ∧ origin s w len x mod 2 ^ k = x mod 2 ^ k.
Proof using Hk.
  clear Hpool. intros [(Hsa & Hwa & Hla) _ _]. pose proof (EmulationPageTable.page_pos k Hk).
  pose proof (page_below k Hk x w Hwa). pose proof (page_below k Hk x (w + len) ltac:(by rewrite <-Zplus_mod_idemp_l, Hwa)).
  assert (origin s w len x mod 2 ^ k = x mod 2 ^ k) as Hm.
  { unfold origin. case_decide; [|done]. replace (s + (x - w)) with (x + (s - w)) by lia.
    rewrite Z.add_mod, Zminus_mod, Hsa, Hwa, Z.mod_0_l, Z.add_0_r, Z.mod_mod by lia. done. }
  split; [|done]. unfold page at 1. rewrite Hm. unfold origin, page in *. repeat case_decide; lia.
Qed.

Section Moved.
Context (s w len : Z) (Hmv : moves s w len).
Context (p p' : Process.t (G := G)) (h : hmem) (al : gset Z).
Context (Hmp : moved_pages s w (len / 2 ^ k) p p') (Hi : inv k first total ext p h al).

Lemma moved_entry a : a mod 2 ^ k = 0 → entry p' a = if decide (s <= a < s + len) then None else entry p (origin s w len a).
Proof using Hk Hmv Hmp.
  clear Hpool. intros Ha. pose proof (EmulationPageTable.page_pos k Hk) as Hp. destruct Hmv as [(Hsa & Hwa & Hla) Hr Hd].
  rewrite (mp_entry _ _ _ _ _ Hmp). assert (len / 2 ^ k * 2 ^ k = len) as Hl.
  { rewrite Z.mul_comm. pose proof (Z.div_mod len (2 ^ k) ltac:(lia)). lia. }
  rewrite Hl. assert (∀ v, v mod 2 ^ k = 0 → EmulationPageTable.page_of k v len a ↔ v <= a < v + len) as Hpg.
  { intros v Hv. unfold EmulationPageTable.page_of. rewrite Zminus_mod, Ha, Hv. split; [tauto|]. intros; split; [done|]. apply Z.mod_0_l. lia. }
  rewrite (decide_ext _ _ _ _ (Hpg w Hwa)), (decide_ext _ _ _ _ (Hpg s Hsa)). unfold origin. repeat case_decide; (done || lia).
Qed.

Lemma moved_some a e : entry p' a = Some e → a mod 2 ^ k = 0 ∧ ¬ s <= a < s + len ∧ entry p (origin s w len a) = Some e.
Proof using Hk Hmv Hmp.
  clear Hpool Hi. intros He. destruct (EmulationPageTable.typed_entry _ _ (mp_typed _ _ _ _ _ Hmp) _ _ He) as (_ & Ha & _).
  rewrite moved_entry in He by done. by case_decide.
Qed.

Lemma moved_inv : (∀ a, w <= a < w + len → entry p a = None) → (∀ a, s <= a < s + len → ¬ ext a) → inv k first total ext p' h al.
Proof using Hk Hmv Hmp Hi.
  clear Hpool. intros Hfree Hnx. pose proof (mp_same _ _ _ _ _ Hmp) as Hsm. destruct Hi as [[Ht Hf Ha Ho] Hfr Hp Hs Hz].
  constructor; [constructor|..]; try (by rewrite Hsm).
  - apply Hmp.
  - intros a e (_ & _ & He)%moved_some. destruct (Hf _ _ He). split; [done|]. by rewrite Hsm.
  - intros a a' e e' (_ & Hn & He)%moved_some (_ & Hn' & He')%moved_some Heq. pose proof (Ha _ _ _ _ He He' Heq) as Ho'.
    destruct Hmv as [_ ? Hd]. unfold origin in Ho'. repeat case_decide; lia.
  - intros a e (_ & _ & He)%moved_some. destruct (Hfr _ _ He) as (f & ? & [?|[Hf1 Hx]]); exists f; (split; [done|]); [by left|].
    unfold origin in Hx. case_decide as Hc; [|by right]. destruct (Hnx (s + (a - w))); [lia|done].
Qed.

(** The contents have moved with the pages. *)
Lemma moved_virt x : inv k first total ext p' h al → is_u64 x → entry p' (page k x) ≠ None → virt p' h x = virt p h (origin s w len x).
Proof using Hk Hmv Hmp Hi.
  clear Hpool. intros Hi' Hx He. destruct (entry p' (page k x)) as [e|] eqn:Hex; [|done].
  destruct (moved_some _ _ Hex) as (_ & _ & Heo). destruct (origin_page s w len x Hmv) as [Hop Hom].
  assert (is_u64 (origin s w len x)) as Hu by (destruct Hmv as [_ ? _], Hx; unfold origin; case_decide; split; lia).
  unfold virt. rewrite (translate_page_entry k Hk p' h), (translate_page_entry k Hk p h) by (apply Hi || apply Hi' || done).
  rewrite Hop, Hom, Hex, Heo. simpl. by rewrite (mp_same _ _ _ _ _ Hmp).
Qed.

Lemma moved_tidy ms l' a :
  (∀ a, entry p a ≠ None → ¬ ext a → VMA.mapped (_vmaList ms) a ∨ on_stack k ms a) →
  region_ok s len ms → (∀ a, s <= a < s + len → ¬ ext a) →
  (∀ x b, VMA.maps l' x b ↔ VMA.shifted s (s + len) w (_vmaList ms) x b) →
  entry p' a ≠ None → ¬ ext a → VMA.mapped l' a ∨ on_stack k ms a.
Proof using Hk Hmv Hmp.
  clear Hi Hpool. intros Htd Hrs Hnx Hsh Ha Hx. destruct (entry p' a) as [e|] eqn:He; [|done].
  destruct (moved_some a e He) as (_ & Hn & He'). specialize (Htd (origin s w len a) ltac:(congruence)).
  unfold origin in Htd. case_decide as Hw.
  - destruct (Htd (Hnx (s + (a - w)) ltac:(lia))) as [[b Hb]%VMA.mapped_maps|Hon].
    + left. apply VMA.mapped_maps. exists b. apply Hsh. right. unfold VMA.target. split; [lia|]. by replace (a - w + s) with (s + (a - w)) by lia.
    + pose proof (region_stack s len _ (s + (a - w)) Hrs ltac:(lia)). unfold on_stack in Hon. lia.
  - destruct (Htd Hx) as [[b Hb]%VMA.mapped_maps|Hon]; [left|by right]. apply VMA.mapped_maps. exists b. apply Hsh. left. done.
Qed.

End Moved.

(** What the areas say of an address has moved with them. *)
Lemma lazy_moved ms l' s w len h x :
  moves s w len → VMA.wf (2 ^ k) (_vmaList ms) → VMA.wf (2 ^ k) l' →
  region_ok s len ms → region_ok w len ms → (∀ y, w <= y < w + len → ¬ VMA.mapped (_vmaList ms) y) →
  (∀ y b, VMA.maps l' y b ↔ VMA.shifted s (s + len) w (_vmaList ms) y b) →
  lazy k (set_vmaList l' ms) h x = if decide (s <= x < s + len) then None else lazy k ms h (origin s w len x).
Proof using Hk.
  intros [_ _ Hd] Hwf Hwf' Hrs Hrw Hn Hsh.
  unfold VMA.shifted, VMA.outside, VMA.target in Hsh. replace (s + len - s) with len in Hsh by lia.
  assert (∀ y, w <= y < w + len → ∀ b, ¬ VMA.maps (_vmaList ms) y b) as Hn'.
  { intros y Hy b Hb. apply (Hn y Hy), VMA.mapped_maps. eauto. }
  unfold origin. destruct (decide (s <= x < s + len)) as [Hx|Hx].
  - rewrite lazy_unmapped; [|done|]. { unfold stack_byte. rewrite decide_False; [done|]. pose proof (region_stack s len _ x Hrs Hx). unfold on_stack. simpl. lia. }
    intros b Hb. simpl in Hb. apply Hsh in Hb as [[_ Ho]|[Ht _]]; lia.
  - assert (∀ b, VMA.maps l' x b ↔ VMA.maps (_vmaList ms) (if decide (w <= x < w + len) then s + (x - w) else x) b) as Hiff.
    { intros b. rewrite Hsh. case_decide as Hw.
      - replace (s + (x - w)) with (x - w + s) by lia. split; [intros [[Hb _]|[_ ?]]; [by destruct (Hn' x Hw b)|done]|by right].
      - split; [intros [[? _]|[? _]]; [done|lia]|]. intros ?. left. split; [done|lia]. }
    destruct (mapped_dec (set_vmaList l' ms) x Hwf') as [[b Hb]|Hnb].
    + rewrite (lazy_mapped (set_vmaList l' ms) h x b), (lazy_mapped ms h _ b); try done. by apply Hiff.
    + rewrite (lazy_unmapped (set_vmaList l' ms)), (lazy_unmapped ms); try done.
      * apply decide_ext. unfold on_stack. simpl. case_decide as Hw; [|done].
        pose proof (region_stack w len _ x Hrw Hw). pose proof (region_stack s len _ (s + (x - w)) Hrs ltac:(lia)). lia.
      * intros b Hb. apply Hiff in Hb. by apply (Hnb b).
Qed.

(** The areas after the move, with the files they had. *)
Lemma areas_moved s w len p h al :
  state_ok k first total ext p h al → moves s w len → (∀ x, w <= x < w + len → ¬ VMA.mapped (_vmaList (memState p)) x) →
  ∃ l', VMA.remap_loop (2 * length (_vmaList (memState p))) (AddrRange.plain s (s + len)) w (_vmaList (memState p)) = Ok l' ∧
    VMA.wf (2 ^ k) l' ∧ Forall (readable p h) l' ∧ ∀ x b, VMA.maps l' x b ↔ VMA.shifted s (s + len) w (_vmaList (memState p)) x b.
Proof using Hk.
  clear Hpool. intros Hst [(Hsa & Hwa & Hla) Hr Hd] Hn. pose proof (EmulationPageTable.page_pos k Hk) as Hp.
  destruct (st_areas _ _ _ _ _ _ _ Hst) as [_ Hwf Hfs _ _]. set (l := _vmaList (memState p)) in *.
  destruct (VMA.remap_loop_ok (2 ^ k) ltac:(lia) s (s + len)) with (ns := w) (fuel := (2 * length l)%nat) (l := l) as (l' & Hl & Hwf' & Hsh);
    [done|by unfold VMA.aligned; rewrite <-Zplus_mod_idemp_l, Hsa|lia|done|lia|lia| |apply VMA.all_visits_le|].
  { split; [done|]. intros x Hx. apply Hn. unfold VMA.target in Hx. lia. }
  exists l'. split; [done|]. split; [done|]. split; [|done]. assert (Forall (sliceable p h) l') as Hsl.
  { eapply VMA.remap_loop_Forall; [..|exact Hl]; [apply sliceable_right|apply sliceable_left|apply sliceable_remap|].
    by apply readable_sliceable; [apply Hwf|]. }
  eapply Forall_impl; [exact Hsl|]. by intros v [_ ?].
Qed.

(** Pages and areas together. *)
Lemma moved_state s w len p h al l' p' :
  state_ok k first total ext p h al → moves s w len → region_ok s len (memState p) → region_ok w len (memState p) →
  (∀ x, w <= x < w + len → ¬ VMA.mapped (_vmaList (memState p)) x) → (∀ a, w <= a < w + len → entry p a = None) →
  (∀ a, s <= a < s + len → ¬ ext a) → VMA.wf (2 ^ k) l' → Forall (readable p h) l' → (∀ x b, VMA.maps l' x b ↔ VMA.shifted s (s + len) w (_vmaList (memState p)) x b) →
  moved_pages s w (len / 2 ^ k) (set_memState (set_vmaList l' (memState p)) p) p' →
  state_ok k first total ext p' h al ∧
  ∀ x, is_u64 x → view k p' h x = if decide (s <= x < s + len) then None else view k p h (origin s w len x).
Proof using Hk.
  clear Hpool. intros Hst Hmv Hrs Hrw Hn Hfree Hnx Hwf' Hfs' Hsh Hmp. set (p1 := set_memState _ p) in *.
  assert (inv k first total ext p1 h al) as Hi1 by apply inv_memState, Hst.
  pose proof (moved_inv s w len Hmv p1 p' h al Hmp Hi1 Hfree Hnx) as Hi'. pose proof (mp_same _ _ _ _ _ Hmp) as Hsm.
  destruct Hst as [Hi [Hpb Hwf Hfs Hc Hz] Hsk Hap Htp Htd]. assert (memState p' = set_vmaList l' (memState p)) as Hms by by rewrite Hsm. split.
  - constructor; [done|constructor|..]; rewrite ?Hms; try (by rewrite Hsm); try done.
    + by destruct Hsk.
    + intros x Hx Hx' [b Hb]%VMA.mapped_maps. apply Hsh in Hb as [[Hb _]|[Ht _]]; [apply (Hap x Hx Hx'), VMA.mapped_maps; eauto|].
      unfold VMA.target in Ht. pose proof (region_stack w len _ x Hrw ltac:(lia)). simpl in Hx, Hx'.
      pose proof (sk_min _ _ Hsk) as [? Hma]. pose proof (page_below k Hk x _ Hma). lia.
    + intros x Hx. pose proof (region_top s len _ x Hrs Hsk Hx) as Hns. apply Htp, VMA.mapped_maps in Hx as [b Hb].
      apply VMA.mapped_maps. exists b. apply Hsh. left. split; [done|exact Hns].
    + intros a. by apply (moved_tidy s w len Hmv p1 p' Hmp (memState p)).
  - intros x Hx. destruct (origin_page s w len x Hmv) as [Hop _]. pose proof Hmv as [(Hsa & Hwa & Hla) Hr Hd].
    assert (is_u64 (origin s w len x)) as Hu by (destruct Hx; unfold origin; case_decide; split; lia).
    unfold view. rewrite (decide_True (P := is_u64 x)), (decide_True (P := is_u64 (origin s w len x))) by done. rewrite Hop.
    pose proof (page_below k Hk x s Hsa). pose proof (page_below k Hk x (s + len) ltac:(by rewrite <-Zplus_mod_idemp_l, Hsa)).
    pose proof (moved_entry s w len Hmv p1 p' Hmp (page k x) (page_mod k x)) as He.
    change (entry p1 ?a) with (entry p a) in He. rewrite Hms, (lazy_moved (memState p) l' s w len h x) by done.
    destruct (decide (s <= x < s + len)) as [Hin|Hout].
    + rewrite decide_True in He by lia. by rewrite He.
    + rewrite decide_False in He by lia. rewrite <-He. destruct (entry p' (page k x)) eqn:Hex; [|done].
      apply (moved_virt s w len Hmv p1 p' h al Hmp Hi1); [done|done|congruence].
Qed.

Lemma remapRegion_ok depth s w len p h al :
  state_ok k first total ext p h al → moves s w len → region_ok s len (memState p) → region_ok w len (memState p) →
  len + 2 * 2 ^ k <= 2 ^ 31 * 2 ^ k → w + len + 2 ^ k - 1 < 2 ^ 64 →
  (∀ a, s <= a < s + len → ¬ ext a) → (∀ a, w <= a < w + len → ¬ ext a) →
  ∃ p' h' al', Process.remapRegion depth s w len p h = Ok (p', h') ∧ state_ok k first total ext p' h' al' ∧ vacated w len p al al' ∧ host_same p h p' h' ∧
    (∃ l', memState p' = set_vmaList l' (memState p)) ∧
    (∀ a, a mod 2 ^ k = 0 → ¬ s <= a < s + len → ¬ w <= a < w + len → entry p' a = entry p a) ∧
    ∀ x, is_u64 x → view k p' h' x = if decide (s <= x < s + len) then None else view k p h (origin s w len x).
Proof using Hk Hpool.
  intros Hst Hmv Hrs Hrw Hlen Htop2 Hnx Hpo. pose proof (EmulationPageTable.page_pos k Hk) as Hp.
  destruct (unmapRegion_ok depth w len p h al Hst Hrw Hlen Htop2 Hpo) as (p1 & h1 & al1 & l1 & Hun & Hst1 & Hsub & Hho & Hms & Hen & Hnm & Hv1).
  assert (∀ a, w <= a < w + len → entry p1 a = None) as Hgone by (intros a Ha; by rewrite Hen, decide_True).
  pose proof Hmv as [(Hsa & Hwa & Hla) Hr Hd].
  assert (∀ v n, region_ok v n (memState p) → region_ok v n (memState p1)) as Hreg by (rewrite Hms; intros v n [? ? ? ?]; by constructor).
  destruct (areas_moved s w len p1 h1 al1 Hst1 Hmv) as (l2 & Hl2 & Hwf2 & Hfs2 & Hsh); [by rewrite Hms|].
  unfold Process.remapRegion. rewrite Hun, res_bind_Ok, (u64_small (s + len)), Hl2, res_bind_Ok by (split; lia).
  set (p2 := set_memState _ p1). assert (len / 2 ^ k * 2 ^ k = len) as Hl by (rewrite Z.mul_comm; pose proof (Z.div_mod len (2 ^ k) ltac:(lia)); lia).
  assert (0 < len / 2 ^ k) as Hl0 by (apply (Z.mul_lt_mono_pos_r (2 ^ k)); lia).
  destruct (remap_pages_ok (Z.to_nat (len / 2 ^ k)) s w p2) as (p3 & Hrp & Hmp); rewrite ?Z2Nat.id, ?Hl by lia; try done; try lia.
  { apply Hst1. } { apply (ao_page _ _ _ (st_areas _ _ _ _ _ _ _ Hst1)). }
  rewrite Z2Nat.id in Hrp, Hmp by lia. rewrite Hl in Hrp. change (_pageBytes (memState p1)) with (_pageBytes (memState p2)).
  assert (_pageBytes (memState p1) = 2 ^ k) as Hpb1 by apply (ao_page _ _ _ (st_areas _ _ _ _ _ _ _ Hst1)).
  change (_pageBytes (memState p2)) with (_pageBytes (memState p1)). rewrite Hpb1, Hrp, res_bind_Ok.
  destruct (moved_state s w len p1 h1 al1 l2 p3) as [Hst3 Hv3]; try done; [by apply Hreg|by apply Hreg|by rewrite Hms|].
  exists p3, h1, al1. split; [done|]. split; [done|]. split; [done|]. split; [|split; [|split]].
  - destruct Hho as [Hh ? ?]. constructor; [|done|done]. intros b. rewrite (mp_same _ _ _ _ _ Hmp). apply Hh.
  - exists l2. rewrite (mp_same _ _ _ _ _ Hmp). simpl. by rewrite Hms.
  - intros a Ha Hns Hnw. rewrite (moved_entry s w len Hmv p2 p3 Hmp a Ha), decide_False by done.
    unfold origin. rewrite decide_False by done. change (entry p2 a) with (entry p1 a). by rewrite Hen, decide_False.
  - intros x Hx. rewrite Hv3 by done. case_decide as Hin; [done|]. rewrite Hv1. unfold origin. repeat case_decide; (done || lia).
Qed.

(** ** The operations *)

(** No page of the region is mapped to memory outside the pool. *)
Definition internal (s len : Z) : Prop := ∀ a, s <= a < s + len → ¬ ext a.

Lemma inaccessible p h al x : state_ok k first total ext p h al → ¬ accessible k p h x →
  entry p (page k x) = None ∧ ¬ VMA.mapped (_vmaList (memState p)) x.
Proof using Hk.
  clear Hpool. intros Hst Hn. unfold accessible in Hn. split; [destruct (entry p (page k x)); [|done]; destruct Hn; by left|].
  intros [b Hb]%VMA.mapped_maps. destruct (st_areas _ _ _ _ _ _ _ Hst) as [_ Hwf Hfs _ _]. apply Hn. right.
  pose proof (lazy_mapped (memState p) h x b Hwf Hb) as ->. destruct Hb as (v & Hv & Hx & <-). rewrite Forall_forall in Hfs.
  destruct (initial_some p h v x (Hfs v Hv) (proj1 Hx)) as [y Hy]. unfold initial in Hy. unfold byte_of. congruence.
Qed.

(** A frame that is back in the pool has been cleared. *)
Lemma vacated_zero s len p h al p' h' al' a f i :
  state_ok k first total ext p h al → state_ok k first total ext p' h' al' → vacated s len p al al' → internal s len →
  s <= a < s + len → framed k p a f → 0 <= i < 2 ^ k → f ∈ al ∧ f ∉ al' ∧ guest (mem p') h' (f * 2 ^ k + i) = Some 0.
Proof using Hk.
  clear Hpool. intros Hst Hst' Hv Hx Ha Hfr Hi. pose proof Hfr as (e & He & Hf).
  assert (f ∈ al) as Hal.
  { destruct (iv_frame _ _ _ _ _ _ _ (st_inv _ _ _ _ _ _ _ Hst) a e He) as (g & Hg & [Hg'|[_ ?]]); [|by destruct (Hx a)].
    by rewrite (frame_eq k Hk f g) by congruence. }
  assert (f ∉ al') as Hn by (intros [_ Hno]%Hv; apply Hno; by exists a).
  split; [done|]. split; [done|]. apply (iv_zero _ _ _ _ _ _ _ (st_inv _ _ _ _ _ _ _ Hst')); try done.
  - apply (ao_zero _ _ _ (st_areas _ _ _ _ _ _ _ Hst')).
  - destruct (iv_pool _ _ _ _ _ _ _ (st_inv _ _ _ _ _ _ _ Hst)) as (pool & _ & Hpi). apply (MemPool.inv_parts _ _ _ _ _ Hpi). by right.
Qed.

(** C17: the regions of a process are operations on its memory as a map from addresses
    to bytes.  A region is mapped where there was nothing, and reads as its file and
    as zero behind it; unmapping removes exactly its bytes, from areas it covers,
    cuts or splits, and the frames its pages had, and no others, go back to the pool
    with all their bytes zero; remapping moves its bytes, written pages and parts of
    files alike, to another place, and gives back the frames of what was there.  All
    else that can be read stays, as do the invariants, and the calls succeed. *)
Theorem region_operations depth s len p h al :
  state_ok k first total ext p h al → region_ok s len (memState p) → len + 2 * 2 ^ k <= 2 ^ 31 * 2 ^ k → s + len + 2 ^ k - 1 < 2 ^ 64 →
  (∀ fd off, file_ok p h fd off → (∀ x, s <= x < s + len → ¬ accessible k p h x) →
     ∃ p', Process.mapRegion s len fd off p = Ok p' ∧ state_ok k first total ext p' h al ∧
       ∀ x, view k p' h x = if decide (s <= x < s + len) then region_byte h fd off s x else view k p h x) ∧
  (internal s len →
     ∃ p' h' al', Process.unmapRegion depth s len p h = Ok (p', h') ∧ state_ok k first total ext p' h' al' ∧
       (∀ f, f ∈ al' ↔ f ∈ al ∧ ¬ ∃ a, s <= a < s + len ∧ framed k p a f) ∧
       (∀ a f i, s <= a < s + len → framed k p a f → 0 <= i < 2 ^ k →
          f ∈ al ∧ f ∉ al' ∧ guest (mem p') h' (f * 2 ^ k + i) = Some 0) ∧
       (∀ a, s <= a < s + len → entry p' a = None) ∧
       ∀ x, view k p' h' x = if decide (s <= x < s + len) then None else view k p h x) ∧
  (∀ w, moves w s len → region_ok w len (memState p) → internal w len → internal s len →
     ∃ p' h' al', Process.remapRegion depth w s len p h = Ok (p', h') ∧ state_ok k first total ext p' h' al' ∧
       (∀ f, f ∈ al' ↔ f ∈ al ∧ ¬ ∃ a, s <= a < s + len ∧ framed k p a f) ∧
       ∀ x, is_u64 x → view k p' h' x =
         if decide (w <= x < w + len) then None
         else if decide (s <= x < s + len) then view k p h (w + (x - s)) else view k p h x).
Proof using Hk Hpool.
  intros Hst Hr Hlen Htop. split_and!.
  - intros fd off Hf Hn. destruct (mapRegion_ok s len fd off p h al Hst Hr Hf) as (p' & ? & ? & _ & ?); [| |by exists p'].
    + intros x Hx. by apply (inaccessible p h al x Hst), Hn.
    + intros a Ha Hx. destruct (inaccessible p h al a Hst (Hn a Hx)) as [He _]. by rewrite (page_aligned k a Ha) in He.
  - intros Hpo. destruct (unmapRegion_ok depth s len p h al Hst Hr Hlen Htop Hpo) as (p' & h' & al' & l' & ? & ? & Hva & _ & _ & Hen & _ & ?).
    exists p', h', al'. split; [done|]. split; [done|]. split; [exact Hva|]. split; [intros a f i; by eapply vacated_zero|].
    split; [|done]. intros a Ha. by rewrite Hen, decide_True.
  - intros w Hmv Hrw Hpw Hpo. destruct (remapRegion_ok depth w s len p h al Hst Hmv Hrw Hr Hlen Htop Hpw Hpo) as (p' & h' & al' & ? & ? & ? & _ & _ & _ & Hv).
    exists p', h', al'. split; [done|]. split; [done|]. split; [done|]. intros x Hx. rewrite Hv by done. unfold origin. by repeat case_decide.
Qed.

End Region.
End Region.
