(* ===== verification/MemSyscalls.v ===== *)
(** The system calls that change the address space of a process ([brk], [mmap],
    [munmap] and [mremap] of [sim/syscall_emul.{hh,cc}]) for RISC-V Linux with 64 bits. *)

From S2P Require Import Prelude Bits AddrRange Host PageTable PortProxy FreeList MemPool Vma MemState Process VirtMem ProcessInv Fault View Region.
Import Intmath Host PortProxy.

Module MemSyscalls.
Import Process (pTable, mem, seWorkload, memState, zeroPages, contextIds, set_mem, set_memState, virt, pageSize).
Import MemState (_stackBase, _stackMin, _maxStackSize, _vmaList, _pageBytes, _brkPoint, _mmapEnd, set_vmaList, set_brkPoint, set_mmapEnd).
Import VirtMem ProcessInv Fault View Region.

(** ** The handlers *)

Definition EBADF : Z := 9.
Definition ENOMEM : Z := 12.
Definition EINVAL : Z := 22.

Definition TGT_MAP_SHARED : Z := 0x1.
Definition TGT_MAP_PRIVATE : Z := 0x2.
Definition TGT_MAP_FIXED : Z := 0x10.
Definition TGT_MAP_ANONYMOUS : Z := 0x20.
Definition TGT_MREMAP_MAYMOVE : Z := 0x1.
Definition TGT_MREMAP_FIXED : Z := 0x20.

Definition bit (flags f : Z) : bool := negb (Z.land flags f =? 0).

(** The kinds of entries [mmapFunc] tells apart. *)
Inductive FDEntry := DeviceFDEntry | FileFDEntry (f : VMA.file) | OtherFDEntry.

Definition getFDEntry (fds : list (option FDEntry)) (tgt_fd : Z) : res (option FDEntry) :=
  assert! ((0 <=? tgt_fd) && (tgt_fd <? Z.of_nat (length fds)));
  Ok (mjoin (fds !! Z.to_nat tgt_fd)).

Section MemSyscalls.

Context {G : Type} {HB : BlobProxy G}.

(** The result is the value of the [SyscallReturn], negative for an error. *)
Definition brkFunc (depth : nat) (new_brk : Z) (p : Process.t (G := G)) (h : hmem) : res (Z * Process.t * hmem) :=
  let brk_point := _brkPoint (memState p) in
  if (new_brk =? 0) || (new_brk =? brk_point) then Ok (s64 brk_point, p, h) else
  '(p, h) ← Process.updateBrkRegion depth brk_point new_brk p h;
  Ok (s64 (_brkPoint (memState p)), p, h).

Definition munmapFunc (depth : nat) (start length : Z) (p : Process.t (G := G)) (h : hmem) : res (Z * Process.t * hmem) :=
  if negb (EmulationPageTable.pageOffset (pTable p) start =? 0) then Ok (- EINVAL, p, h) else
  '(p, h) ← Process.unmapRegion depth start (roundUp length (pageSize p)) p h;
  Ok (0, p, h).

(** [mmapFunc], once the file is known. *)
Definition mmap_region (depth fuel : nat) (down : bool) (start length tgt_flags : Z) (fd : option VMA.file) (offset : Z)
    (p : Process.t (G := G)) (h : hmem) : res (Z * Process.t * hmem) :=
  '(start, p) ← (if bit tgt_flags TGT_MAP_FIXED then Ok (start, p) else
                 u ← (if start =? 0 then Ok false else Process.isUnmapped start length p);
                 if u : bool then Ok (start, p) else Process.extendMmap fuel down length p);
  '(p, h) ← (if bit tgt_flags TGT_MAP_FIXED then Process.unmapRegion depth start length p h else Ok (p, h));
  p ← Process.mapRegion start length fd offset p;
  Ok (s64 start, p, h).

(** [emul_driver] is the [mmap] of the driver of a device; the protection only
    matters for a warning, and the symbols of libraries for output. *)
Definition mmapFunc (depth fuel : nat) (down : bool) (fds : list (option FDEntry))
    (emul_driver : Z → Z → Z → Z → Process.t (G := G) → hmem → res (Z * Process.t * hmem))
    (start length tgt_flags tgt_fd offset : Z) (p : Process.t (G := G)) (h : hmem) : res (Z * Process.t * hmem) :=
  let page_bytes := pageSize p in
  if negb (Z.land start (page_bytes - 1) =? 0) || negb (Z.land (u64 offset) (page_bytes - 1) =? 0) ||
     (bit tgt_flags TGT_MAP_PRIVATE && bit tgt_flags TGT_MAP_SHARED) ||
     (negb (bit tgt_flags TGT_MAP_PRIVATE) && negb (bit tgt_flags TGT_MAP_SHARED)) || (length =? 0)
  then Ok (- EINVAL, p, h) else
  let length := roundUp length page_bytes in
  if bit tgt_flags TGT_MAP_ANONYMOUS then mmap_region depth fuel down start length tgt_flags None offset p h else
  e ← getFDEntry fds tgt_fd;
  match e with
  | Some DeviceFDEntry => emul_driver start length tgt_flags offset p h
  | Some (FileFDEntry f) => mmap_region depth fuel down start length tgt_flags (Some f) offset p h
  | _ => Ok (- EBADF, p, h)
  end.

(** [mremapFunc]; the last argument is read with the flag only. *)
Definition mremapFunc (depth : nat) (down : bool) (start old_length new_length flags arg : Z)
    (p : Process.t (G := G)) (h : hmem) : res (Z * Process.t * hmem) :=
  let page_bytes := pageSize p in
  let use_provided_address := bit flags TGT_MREMAP_FIXED in
  let provided_address := if use_provided_address then arg else 0 in
  if negb (start mod page_bytes =? 0) || negb (provided_address mod page_bytes =? 0) then Ok (- EINVAL, p, h) else
  let new_length := roundUp new_length page_bytes in
  if old_length <? new_length then
    let mmap_end := _mmapEnd (memState p) in
    if (u64 (start + old_length) =? mmap_end) && (negb use_provided_address || (provided_address =? start)) then
      let diff := u64 (new_length - old_length) in
      p ← Process.mapRegion mmap_end diff None 0 p;
      Ok (s64 start, set_memState (set_mmapEnd (u64 (mmap_end + diff)) (memState p)) p, h)
    else if negb use_provided_address && negb (bit flags TGT_MREMAP_MAYMOVE) then Ok (- ENOMEM, p, h) else
    let '(new_start, p) :=
      (if use_provided_address then (provided_address, p) else
       let new_start := if down then u64 (mmap_end - new_length) else mmap_end in
       let mmap_end := if down then new_start else u64 (mmap_end + new_length) in
       (new_start, set_memState (set_mmapEnd mmap_end (memState p)) p)) in
    p ← Process.allocateMem (u64 (new_start + old_length)) (u64 (new_length - old_length)) use_provided_address p;
    '(p, h) ← Process.remapRegion depth start new_start old_length p h;
    Ok (s64 new_start, p, h)
  else
    '(p, h) ← (if use_provided_address && negb (provided_address =? start)
               then Process.remapRegion depth start provided_address new_length p h else Ok (p, h));
    '(p, h) ← (if negb (new_length =? old_length)
               then Process.unmapRegion depth (u64 (start + new_length)) (u64 (old_length - new_length)) p h else Ok (p, h));
    Ok (s64 (if use_provided_address then provided_address else start), p, h).

(** ** Free regions *)

Context (k first total : Z) (ext : Z → Prop) (Hk : 0 <= k < 64).

(** Whole pages of the address space. *)
Record whole_pages (s len : Z) : Prop := {
  wp_start : 0 <= s ∧ s mod 2 ^ k = 0;
  wp_len : 0 < len ∧ len mod 2 ^ k = 0;
  wp_top : s + len < 2 ^ 64;
}.

(** No area is in the region. *)
Definition free (p : Process.t (G := G)) (s len : Z) : Prop := ∀ x, s <= x < s + len → ¬ VMA.mapped (_vmaList (memState p)) x.

(** The pages of the region that have frames are in areas. *)
Definition covered (p : Process.t (G := G)) (s len : Z) : Prop :=
  ∀ a, a mod 2 ^ k = 0 → s <= a < s + len → entry p a ≠ None → VMA.mapped (_vmaList (memState p)) a.

Lemma none_intersects_iff s e l :
  Forall (VMA.ok (2 ^ k)) l → s < e →
  ∃ b, Process.none_intersects (AddrRange.plain s e) l = Ok b ∧ (b = true ↔ ∀ x, s <= x < e → ¬ VMA.mapped l x).
Proof.
  intros Hok Hse. induction Hok as [|v l Hv Hok IH].
  { exists true. split; [done|]. split; [|done]. intros _ x _ (? & []%elem_of_nil & _). }
  cbn [Process.none_intersects]. rewrite (VMA.intersects_plain (2 ^ k)), res_bind_Ok by done. pose proof (VMA.ok_bounds _ _ Hv).
  destruct ((s <? VMA.end_ v) && (VMA.start v <? e)) eqn:Hi.
  - exists false. split; [done|]. split; [done|]. intros Hn. exfalso. apply (Hn (Z.max s (VMA.start v))); [lia|].
    apply VMA.mapped_cons. left. unfold VMA.inside. lia.
  - destruct IH as (b & Hb & Hiff). exists b. split; [done|]. rewrite Hiff. split; intros Hn x Hx Hm.
    + apply VMA.mapped_cons in Hm as [Hm|Hm]; [unfold VMA.inside in Hm; lia|by apply (Hn x)].
    + apply (Hn x Hx), VMA.mapped_cons. by right.
Qed.

Lemma isUnmapped_iff s len p h al :
  state_ok k first total ext p h al → whole_pages s len → covered p s len →
  ∃ b, Process.isUnmapped s len p = Ok b ∧ (b = true ↔ free p s len).
Proof using Hk.
  intros Hst [[Hs Hsa] [Hl Hla] Ht] Hc. pose proof (EmulationPageTable.page_pos k Hk) as Hp.
  destruct (st_areas _ _ _ _ _ _ _ Hst) as [Hpb [Hok _] _ _ _].
  destruct (none_intersects_iff s (s + len) _ Hok ltac:(lia)) as (b & Hb & Hiff). exists b. split; [|done].
  unfold Process.isUnmapped. rewrite u64_small by (split; lia). rewrite Hb, res_bind_Ok. destruct b; [|done]. cbn [negb].
  rewrite Hpb. eapply (check_pages_ok k Hk p h); try done; [apply Hst|by rewrite <-Zplus_mod_idemp_l, Hsa| |].
  - pose proof (Z.div_mod len (2 ^ k) ltac:(lia)). pose proof (Z.mod_pos_bound len (2 ^ k) ltac:(lia)).
    pose proof (Z.div_pos len (2 ^ k) ltac:(lia) ltac:(lia)). rewrite Z2Nat.id by lia. lia.
  - intros a Ha Hr. destruct (entry p a) eqn:He; [|done]. exfalso. destruct (proj1 Hiff eq_refl a); [lia|]. apply Hc; (done || lia || congruence).
Qed.

(** The [i]-th place the search of [extendMmap] tries. *)
Definition place (down : bool) (s i : Z) : Z := if down then s - i * 2 ^ k else s + i * 2 ^ k.

(** The search ends at the first place that is free. *)
Lemma find_unmapped_ok down len p h al (n : nat) : ∀ fuel s,
  (n < fuel)%nat → state_ok k first total ext p h al →
  (∀ i, 0 <= i <= Z.of_nat n → whole_pages (place down s i) len ∧ covered p (place down s i) len) →
  free p (place down s (Z.of_nat n)) len →
  ∃ i, 0 <= i <= Z.of_nat n ∧ Process.find_unmapped fuel down s len p = Ok (place down s i) ∧ free p (place down s i) len ∧
    ∀ j, 0 <= j < i → ¬ free p (place down s j) len.
Proof using Hk.
  pose proof (EmulationPageTable.page_pos k Hk) as Hp.
  assert (∀ s, place down s 0 = s) as H0 by (intros s; unfold place; destruct down; lia).
  assert (∀ s i, place down (place down s 1) i = place down s (i + 1)) as H1 by (intros s i; unfold place; destruct down; lia).
  induction n as [|n IH]; intros [|fuel] s Hf Hst Hw Hn; try lia; cbn [Process.find_unmapped];
    (destruct (Hw 0 ltac:(lia)) as [Hw0 Hc0]; rewrite H0 in Hw0, Hc0;
     destruct (isUnmapped_iff s len p h al Hst Hw0 Hc0) as (b & -> & Hb); rewrite res_bind_Ok; destruct b).
  1,3: exists 0; rewrite H0; split; [lia|]; split; [done|]; split; [by apply Hb|lia].
  - exfalso. rewrite H0 in Hn. by apply Hb in Hn.
  - assert (u64 (if down then s - _pageBytes (memState p) else s + _pageBytes (memState p)) = place down s 1) as ->.
    { rewrite (ao_page _ _ _ (st_areas _ _ _ _ _ _ _ Hst)). destruct (Hw 1 ltac:(lia)) as [[[? _] _ ?] _]. unfold place in *.
      destruct down; rewrite u64_small by (split; destruct Hw0; lia); lia. }
    destruct (IH fuel (place down s 1) ltac:(lia) Hst) as (i & Hi & Hr & Hfr & Hfirst).
    + intros i Hi. rewrite H1. apply Hw. lia.
    + rewrite H1. by replace (Z.of_nat n + 1) with (Z.of_nat (S n)) by lia.
    + rewrite H1 in Hr, Hfr. exists (i + 1). split; [lia|]. split; [done|]. split; [done|]. intros j Hj.
      destruct (decide (j = 0)) as [->|]; [rewrite H0; intros Hb'%Hb; done|]. replace j with (j - 1 + 1) by lia. rewrite <-H1. apply Hfirst. lia.
Qed.

(** ** Mapping *)

(** A region the calls can be used for: whole pages away from the stack and from the
    pages outside the pool, small enough that no counter wraps around. *)
Record usable (s len : Z) (ms : MemState.t) : Prop := {
  ub_region : region_ok k s len ms;
  ub_small : len + 2 * 2 ^ k <= 2 ^ 31 * 2 ^ k ∧ s + len + 2 ^ k - 1 < 2 ^ 64;
  ub_internal : internal ext s len;
}.

Lemma usable_pages s len ms : usable s len ms → whole_pages s len.
Proof. intros [[? ? ? ?] _ _]. by constructor. Qed.

Lemma usable_same s len ms ms' :
  usable s len ms → _stackBase ms' = _stackBase ms → _maxStackSize ms' = _maxStackSize ms → usable s len ms'.
Proof. intros [[? ? ? Hs] ? ?] Hb Hm. constructor; [|done|done]. constructor; try done. by rewrite Hb, Hm. Qed.

Lemma usable_covered s len p h al : state_ok k first total ext p h al → usable s len (memState p) → covered p s len.
Proof using Hk.
  intros Hst [Hr _ Hi] a Ha Hx He. destruct (st_tidy _ _ _ _ _ _ _ Hst a He (Hi a Hx)) as [?|Hon]; [done|].
  pose proof (region_stack k Hk s len _ a Hr Hx). unfold on_stack in Hon. lia.
Qed.

Lemma usable_none s len p h al a :
  state_ok k first total ext p h al → usable s len (memState p) → free p s len → a mod 2 ^ k = 0 → s <= a < s + len → entry p a = None.
Proof using Hk.
  intros Hst Hu Hf Ha Hx. destruct (entry p a) eqn:He; [|done]. exfalso. apply (Hf a Hx).
  eapply usable_covered; try done. congruence.
Qed.

(** Where there is no area nothing can be seen. *)
Lemma free_view s len p h al x :
  state_ok k first total ext p h al → usable s len (memState p) → free p s len → s <= x < s + len → view k p h x = None.
Proof using Hk.
  intros Hst Hu Hf Hx. pose proof Hu as [Hr _ _]. pose proof Hr as [[Hs Hsa] _ Ht _]. unfold view. case_decide as Hux; [|done].
  pose proof (page_below k Hk x s Hsa). pose proof (page_range k Hk x Hux).
  rewrite (usable_none s len p h al (page k x)); try done; [|apply page_mod|lia].
  rewrite (lazy_unmapped k); [|apply (st_areas _ _ _ _ _ _ _ Hst)|].
  - unfold stack_byte. rewrite decide_False; [done|]. pose proof (region_stack k Hk s len _ x Hr Hx). unfold on_stack. lia.
  - intros b Hb. apply (Hf x Hx), VMA.mapped_maps. by exists b.
Qed.

(** What [mapRegion] leaves behind. *)
Record mapped_at (s len : Z) (fd : option VMA.file) (off : Z) (p : Process.t) (h : hmem) (p' : Process.t (G := G)) (h' : hmem) : Prop := {
  ma_view x : view k p' h' x = if decide (s <= x < s + len) then region_byte h fd off s x else view k p h x;
  ma_state : ∃ l e, memState p' = set_mmapEnd e (set_vmaList l (memState p));
  ma_host : host_same p h p' h';
}.

Lemma file_ok_same p h p' h' fd off : host_same (G := G) p h p' h' → file_ok p h fd off → file_ok p' h' fd off.
Proof.
  intros [Hh _ Hb]. unfold file_ok. destruct fd as [f|]; [|done]. intros (? & ? & Hin & Hn). split; [done|]. split; [done|].
  by rewrite Hb, Hh.
Qed.

Lemma region_byte_same p h p' h' fd off s x :
  host_same (G := G) p h p' h' → file_ok p h fd off → region_byte h' fd off s x = region_byte h fd off s x.
Proof.
  intros [_ Hp _]. unfold file_ok, region_byte. destruct fd as [f|]; [|done]. intros (_ & _ & _ & Hn).
  destruct (_ <? _); [|done]. simpl. by apply Hp.
Qed.

(** The break point and the end of the mappings mean nothing to the memory. *)
Lemma state_limits ms p h al :
  state_ok k first total ext p h al → same_areas (memState p) ms → _stackMin ms = _stackMin (memState p) →
  state_ok k first total ext (set_memState ms p) h al ∧ ∀ x, view k (set_memState ms p) h x = view k p h x.
Proof using Hk.
  intros Hst Hsa Hmin. pose proof Hst as [Hi Hao [? ? ? ?] Hap Htp Htd]. pose proof Hsa as (Hl & Hb & Hm & _).
  assert (∀ x, lazy k ms h x = lazy k (memState p) h x) as Hlz by (intros x; by apply (lazy_same k p h p h)).
  split.
  - constructor; simpl; unfold on_stack; rewrite ?Hl, ?Hb, ?Hm, ?Hmin; try done; [by apply inv_memState|by apply (areas_same k p h)|].
    constructor; rewrite ?Hb, ?Hm, ?Hmin; done.
  - intros x. unfold view. simpl. change (entry (set_memState ms p) (page k x)) with (entry p (page k x)).
    change (virt (set_memState ms p) h x) with (virt p h x). destruct (decide _); [|done]. destruct (entry p (page k x)); [done|apply Hlz].
Qed.

Lemma map_free s len fd off p h al :
  state_ok k first total ext p h al → usable s len (memState p) → free p s len → file_ok p h fd off →
  ∃ p', Process.mapRegion s len fd off p = Ok p' ∧ state_ok k first total ext p' h al ∧ mapped_at s len fd off p h p' h.
Proof using Hk.
  intros Hst Hu Hf Hfile. destruct (mapRegion_ok k first total ext Hk s len fd off p h al) as (p' & Hmr & Hst' & [l' ->] & Hv); try done.
  { apply Hu. } { intros a Ha Hx. by eapply usable_none. }
  eexists. split; [done|]. split; [done|]. constructor; [done| |by constructor].
  exists l', (_mmapEnd (memState p)). simpl. by destruct (memState p).
Qed.

(** The places [extendMmap] tries up to the [n]-th, where there is room. *)
Record gap (down : bool) (n : nat) (len : Z) (p : Process.t (G := G)) : Prop := {
  gp_first : is_u64 (if down then _mmapEnd (memState p) - len else _mmapEnd (memState p));
  gp_usable i : 0 <= i <= Z.of_nat n →
    usable (place down (if down then _mmapEnd (memState p) - len else _mmapEnd (memState p)) i) len (memState p);
  gp_free : free p (place down (if down then _mmapEnd (memState p) - len else _mmapEnd (memState p)) (Z.of_nat n)) len;
}.

Lemma extendMmap_ok down n fuel len p h al :
  state_ok k first total ext p h al → gap down n len p → (n < fuel)%nat →
  ∃ s e, Process.extendMmap fuel down len p = Ok (s, set_memState (set_mmapEnd e (memState p)) p) ∧
    usable s len (memState p) ∧ free p s len.
Proof using Hk.
  intros Hst [Hf Hu Hg] Hn. unfold Process.extendMmap.
  assert ((if down then u64 (_mmapEnd (memState p) - len) else _mmapEnd (memState p)) = if down then _mmapEnd (memState p) - len else _mmapEnd (memState p)) as ->
    by (destruct down; [by rewrite u64_small|done]).
  destruct (find_unmapped_ok down len p h al n fuel (if down then _mmapEnd (memState p) - len else _mmapEnd (memState p)) Hn Hst)
    as (i & Hi & -> & Hfr & _); [|done|].
  - intros i Hi. specialize (Hu i Hi). split; [by eapply usable_pages|by eapply usable_covered].
  - rewrite res_bind_Ok. eexists _, _. split; [done|]. auto.
Qed.

Lemma mmap_anywhere depth fuel down n start len flags fd off p h al :
  state_ok k first total ext p h al → bit flags TGT_MAP_FIXED = false → start = 0 ∨ usable start len (memState p) →
  gap down n len p → (n < fuel)%nat → file_ok p h fd off →
  ∃ s p', mmap_region depth fuel down start len flags fd off p h = Ok (s64 s, p', h) ∧ state_ok k first total ext p' h al ∧
    usable s len (memState p) ∧ free p s len ∧ mapped_at s len fd off p h p' h ∧ (start ≠ 0 → free p start len → s = start).
Proof using Hk.
  intros Hst Hb Hstart Hgap Hn Hfile. unfold mmap_region. rewrite Hb.
  assert (∃ b, (if start =? 0 then Ok false else Process.isUnmapped start len p) = Ok b ∧
    (b = true → usable start len (memState p) ∧ free p start len) ∧ (b = false → start ≠ 0 → ¬ free p start len)) as (b & -> & Hb1 & Hb2).
  { destruct (Z.eqb_spec start 0) as [->|Hne]; [by exists false|]. destruct Hstart as [?|Hu]; [done|].
    destruct (isUnmapped_iff start len p h al Hst (usable_pages _ _ _ Hu) (usable_covered _ _ _ _ _ Hst Hu)) as (b & ? & Hiff).
    exists b. split; [done|]. rewrite <-Hiff. split; [done|]. by intros -> _. }
  rewrite res_bind_Ok. destruct b.
  - destruct (Hb1 eq_refl) as [Hu Hf]. rewrite !res_bind_Ok.
    destruct (map_free start len fd off p h al Hst Hu Hf Hfile) as (p' & -> & Hst' & Hma). by exists start, p'.
  - destruct (extendMmap_ok down n fuel len p h al Hst Hgap Hn) as (s & e & -> & Hu & Hf). rewrite !res_bind_Ok.
    set (p1 := set_memState _ p). destruct (state_limits (set_mmapEnd e (memState p)) p h al Hst) as [Hst1 Hv1]; [done|done|].
    destruct (map_free s len fd off p1 h al Hst1) as (p' & -> & Hst' & [Hv (l & e' & Hms) Hho]); [by apply (usable_same _ _ (memState p))|done|done|].
    exists s, p'. split; [done|]. split; [done|]. split; [done|]. split; [done|]. split; [|intros Hne Hfs; by destruct (Hb2 eq_refl Hne)].
    constructor; [intros x; rewrite Hv; by rewrite Hv1|exists l, e'; by rewrite Hms|by destruct Hho].
Qed.

Context (Hpool : 0 <= first ∧ 0 < total ∧ (first + total) * 2 ^ k < 2 ^ 64).

Lemma mmap_fixed depth fuel down start len flags fd off p h al :
  state_ok k first total ext p h al → bit flags TGT_MAP_FIXED = true → usable start len (memState p) → file_ok p h fd off →
  ∃ p' h' al', mmap_region depth fuel down start len flags fd off p h = Ok (s64 start, p', h') ∧ state_ok k first total ext p' h' al' ∧
    vacated k start len p al al' ∧ mapped_at start len fd off p h p' h'.
Proof using Hk Hpool.
  intros Hst Hb Hu Hfile. unfold mmap_region. rewrite Hb, res_bind_Ok. pose proof Hu as [Hr [Hs1 Hs2] Hi].
  destruct (unmapRegion_ok k first total ext Hk Hpool depth start len p h al Hst Hr Hs1 Hs2 Hi)
    as (p1 & h1 & al1 & l1 & -> & Hst1 & Hva & Hho1 & Hms1 & _ & Hfr & Hv1). rewrite res_bind_Ok.
  destruct (map_free start len fd off p1 h1 al1 Hst1) as (p' & -> & Hst' & [Hv (l & e & Hms) Hho]).
  { apply (usable_same _ _ (memState p)); [done|by rewrite Hms1..]. } { intros x Hx. rewrite Hms1. by apply Hfr. } { by eapply file_ok_same. }
  exists p', h1, al1. split; [done|]. split; [done|]. split; [done|]. constructor.
  - intros x. rewrite Hv. case_decide; [by apply (region_byte_same p h p1 h1)|]. by rewrite Hv1, decide_False.
  - exists l, e. by rewrite Hms, Hms1.
  - by eapply host_same_trans.
Qed.

(** ** The calls *)

(** The arguments [mmapFunc] accepts. *)
Definition valid_mmap (start length flags offset : Z) : Prop :=
  start mod 2 ^ k = 0 ∧ offset mod 2 ^ k = 0 ∧ bit flags TGT_MAP_PRIVATE = negb (bit flags TGT_MAP_SHARED) ∧ length ≠ 0.

(** The file a call maps. *)
Definition names_file (fds : list (option FDEntry)) (flags tgt_fd : Z) (fd : option VMA.file) : Prop :=
  match fd with
  | None => bit flags TGT_MAP_ANONYMOUS = true
  | Some f => bit flags TGT_MAP_ANONYMOUS = false ∧ 0 <= tgt_fd ∧ fds !! Z.to_nat tgt_fd = Some (Some (FileFDEntry f))
  end.

Lemma land_page x : Z.land x (2 ^ k - 1) = x mod 2 ^ k.
Proof using Hk. rewrite <-Z.land_ones by lia. f_equal. rewrite Z.ones_equiv. lia. Qed.

Lemma u64_page x : u64 x mod 2 ^ k = x mod 2 ^ k.
Proof using Hk.
  unfold u64. replace (2 ^ 64) with (2 ^ k * 2 ^ (64 - k)) by (rewrite <-Z.pow_add_r by lia; f_equal; lia).
  rewrite Z.rem_mul_r by (apply Z.pow_nonzero || apply Z.pow_pos_nonneg; lia). rewrite Z.mul_comm, Z.mod_add by (apply Z.pow_nonzero; lia).
  apply Z.mod_mod. apply Z.pow_nonzero; lia.
Qed.

Lemma state_page p h al : state_ok k first total ext p h al → pageSize p = 2 ^ k.
Proof. intros Hst. eapply mo_page, iv_mapped, st_inv, Hst. Qed.

Lemma mmapFunc_region depth fuel down fds drv start length flags tgt_fd offset fd p h al :
  state_ok k first total ext p h al → valid_mmap start length flags offset → 0 <= length → length + 2 ^ k - 1 < 2 ^ 64 →
  names_file fds flags tgt_fd fd →
  mmapFunc depth fuel down fds drv start length flags tgt_fd offset p h =
    mmap_region depth fuel down start (Process.page_end k length) flags fd offset p h.
Proof using Hk.
  clear Hpool. intros Hst (Hs & Ho & Hps & Hl) Hl0 Hl1 Hfd. unfold mmapFunc. rewrite (state_page p h al Hst), !land_page, u64_page, Hs, Ho, Hps.
  replace (length =? 0) with false by lia. rewrite roundUp_spec by lia. fold (Process.page_end k length).
  destruct (bit flags TGT_MAP_SHARED); simpl; (destruct fd as [f|]; [destruct Hfd as (-> & Hf0 & Hf)|by rewrite Hfd]);
    unfold getFDEntry; pose proof (lookup_lt_Some _ _ _ Hf); (replace ((0 <=? tgt_fd) && (tgt_fd <? _)) with true by lia); cbn [ensure];
    rewrite !res_bind_Ok, Hf; done.
Qed.

Lemma mmapFunc_invalid depth fuel down fds drv start length flags tgt_fd offset p h al :
  state_ok k first total ext p h al → ¬ valid_mmap start length flags offset →
  mmapFunc depth fuel down fds drv start length flags tgt_fd offset p h = Ok (- EINVAL, p, h).
Proof using Hk.
  clear Hpool. intros Hst Hn. unfold mmapFunc. rewrite (state_page p h al Hst), !land_page, u64_page.
  destruct (Z.eqb_spec (start mod 2 ^ k) 0) as [Hs|]; [|done]. destruct (Z.eqb_spec (offset mod 2 ^ k) 0) as [Ho|]; [|done].
  destruct (Z.eqb_spec length 0) as [|Hl]; [by rewrite !orb_true_r|].
  assert (bit flags TGT_MAP_PRIVATE ≠ negb (bit flags TGT_MAP_SHARED)) as Hb by (intros Hb; by apply Hn).
  by destruct (bit flags TGT_MAP_PRIVATE), (bit flags TGT_MAP_SHARED).
Qed.

(** The heap from the end of its last page to that of the new one. *)
Definition brk_view (lo hi : Z) (p : Process.t) (h : hmem) (x : Z) : option Z :=
  if decide (hi <= x < lo) then None else if decide (lo <= x < hi) then Some 0 else view k p h x.

Lemma set_break b p h al :
  state_ok k first total ext p h al →
  state_ok k first total ext (set_memState (set_brkPoint b (memState p)) p) h al ∧
  ∀ x, view k (set_memState (set_brkPoint b (memState p)) p) h x = view k p h x.
Proof using Hk. clear Hpool. intros Hst. by apply state_limits. Qed.

Lemma brk_shrinks depth old nb p h al :
  let lo := Process.page_end k old in let hi := Process.page_end k nb in
  state_ok k first total ext p h al → 0 <= nb < old → old + 2 ^ k - 1 < 2 ^ 64 → (hi < lo → usable hi (lo - hi) (memState p)) →
  ∃ p' h' al', Process.updateBrkRegion depth old nb p h = Ok (p', h') ∧ state_ok k first total ext p' h' al' ∧
    _brkPoint (memState p') = nb ∧ ∀ x, view k p' h' x = brk_view lo hi p h x.
Proof using Hk Hpool.
  intros lo hi Hst Hnb Hold Hu. pose proof (EmulationPageTable.page_pos k Hk) as Hp. unfold Process.updateBrkRegion.
  rewrite (ao_page _ _ _ (st_areas _ _ _ _ _ _ _ Hst)), !roundUp_spec by lia. fold (Process.page_end k nb) (Process.page_end k old). fold lo hi.
  replace (nb <? old) with true by lia.
  assert (0 <= hi <= lo) as Hle.
  { unfold lo, hi, Process.page_end. split; [apply Z.mul_nonneg_nonneg; [lia|apply Z.div_pos; lia]|apply Z.mul_le_mono_nonneg_l; [lia|apply Z.div_le_mono; lia]]. }
  assert (lo < 2 ^ 64).
  { unfold lo, Process.page_end. pose proof (Z.mul_div_le (old + 2 ^ k - 1) (2 ^ k) ltac:(lia)). lia. }
  rewrite u64_small by (split; lia). destruct (Z.ltb_spec 0 (lo - hi)) as [Hlt|Hge].
  - destruct (Hu ltac:(lia)) as [Hr [Hs1 Hs2] Hi].
    destruct (unmapRegion_ok k first total ext Hk Hpool depth hi (lo - hi) p h al Hst Hr Hs1 Hs2 Hi) as (p1 & h1 & al1 & l1 & -> & Hst1 & _ & _ & Hms & _ & _ & Hv1).
    rewrite res_bind_Ok. destruct (set_break nb p1 h1 al1 Hst1) as [Hst2 Hv2]. eexists _, _, _. split; [done|]. split; [done|].
    split; [done|]. intros x. rewrite Hv2, Hv1. unfold brk_view. repeat case_decide; (done || lia).
  - rewrite res_bind_Ok. destruct (set_break nb p h al Hst) as [Hst2 Hv2]. eexists _, _, _. split; [done|]. split; [done|].
    split; [done|]. intros x. rewrite Hv2. unfold brk_view. rewrite !decide_False by lia. done.
Qed.

Lemma brk_grows depth old nb p h al :
  let lo := Process.page_end k old in let hi := Process.page_end k nb in
  state_ok k first total ext p h al → 0 <= old <= nb → nb + 2 ^ k - 1 < 2 ^ 64 → (lo < hi → usable lo (hi - lo) (memState p)) →
  (lo < hi ∧ ¬ free p lo (hi - lo)) ∧ Process.updateBrkRegion depth old nb p h = Ok (p, h) ∨
  (lo < hi → free p lo (hi - lo)) ∧
  ∃ p', Process.updateBrkRegion depth old nb p h = Ok (p', h) ∧ state_ok k first total ext p' h al ∧
    _brkPoint (memState p') = nb ∧ ∀ x, view k p' h x = brk_view lo hi p h x.
Proof using Hk.
  clear Hpool. intros lo hi Hst Hnb Htop Hu. pose proof (EmulationPageTable.page_pos k Hk) as Hp. unfold Process.updateBrkRegion.
  rewrite (ao_page _ _ _ (st_areas _ _ _ _ _ _ _ Hst)), !roundUp_spec by lia. fold (Process.page_end k nb) (Process.page_end k old). fold lo hi.
  replace (nb <? old) with false by lia. destruct (Z.ltb_spec lo hi) as [Hlt|Hge].
  2:{ right. split; [lia|]. destruct (set_break nb p h al Hst) as [Hst2 Hv2]. eexists. split; [done|]. split; [done|]. split; [done|].
      intros x. rewrite Hv2. unfold brk_view. assert (lo = hi) as <-; [|by rewrite !decide_False by lia].
      apply Z.le_antisymm; [|lia]. unfold lo, hi, Process.page_end. apply Z.mul_le_mono_nonneg_l; [lia|apply Z.div_le_mono; lia]. }
  specialize (Hu Hlt). pose proof (usable_pages _ _ _ Hu) as Hw. destruct Hw as [? ? ?].
  rewrite u64_small by (split; lia).
  destruct (isUnmapped_iff lo (hi - lo) p h al Hst (usable_pages _ _ _ Hu) (usable_covered _ _ _ _ _ Hst Hu)) as (b & -> & Hb).
  rewrite res_bind_Ok. destruct b; cbn [negb].
  - right. pose proof (proj1 Hb eq_refl) as Hf. split; [done|].
    destruct (map_free lo (hi - lo) None 0 p h al Hst Hu Hf I) as (p1 & -> & Hst1 & [Hv1 _ _]). rewrite res_bind_Ok.
    destruct (set_break nb p1 h al Hst1) as [Hst2 Hv2]. eexists. split; [done|]. split; [done|]. split; [done|].
    intros x. rewrite Hv2, Hv1. unfold brk_view. simpl. repeat case_decide; (done || lia).
  - left. split; [|done]. split; [done|]. by intros ?%Hb.
Qed.

(** ** Pages outside of areas *)

(** [mremapFunc] allocates the new pages of a region it moves without an area for
    them: they count as pages like those outside the pool. *)
Definition beside (v size a : Z) : Prop := ext a ∨ v <= a < v + size.

Lemma gains_beside v n x fl p p' h al :
  state_ok k first total ext p h al → v mod 2 ^ k = 0 → gains k first total v n x fl p p' al → 0 < n →
  inv k first total ext p' h (al ∪ MemPool.pages x n) →
  state_ok k first total (beside v (n * 2 ^ k)) p' h (al ∪ MemPool.pages x n).
Proof using Hk.
  clear Hpool. intros Hst Hv Hg Hn [Hm Hf Hp Hs Hz]. pose proof (ga_same _ _ _ _ _ _ _ _ _ _ Hg) as Hsm.
  assert (memState p' = memState p) as Hms by by rewrite Hsm.
  assert (host_same p h p' h) as Hho by (constructor; [intros b; by rewrite Hsm|done|done]).
  constructor; rewrite ?Hms; try apply Hst.
  - constructor; try done. intros a e He. destruct (Hf a e He) as (f & ? & [?|[? ?]]); exists f; (split; [done|]); [by left|right].
    split; [done|]. by left.
  - apply (areas_same k p h); try done; [apply Hst|by rewrite Hms|by rewrite Hsm..].
  - intros a Ha Hx. rewrite (ga_entry _ _ _ _ _ _ _ _ _ _ Hg), decide_False in Ha.
    + apply (st_tidy _ _ _ _ _ _ _ Hst a Ha). intros ?. apply Hx. by left.
    + intros [Hr _]. apply Hx. right. lia.
Qed.

Lemma gains_view v n x fl p p' h al y :
  state_ok k first total ext p h al → v mod 2 ^ k = 0 → gains k first total v n x fl p p' al →
  mapped_ok k p' h → 0 <= v → v + n * 2 ^ k <= 2 ^ 64 →
  view k p' h y = if decide (v <= y < v + n * 2 ^ k) then Some 0 else view k p h y.
Proof using Hk Hpool.
  intros Hst Hv Hg Hm H0 Ht. pose proof (ga_same _ _ _ _ _ _ _ _ _ _ Hg) as Hsm. pose proof (EmulationPageTable.page_pos k Hk) as Hp.
  unfold view. destruct (decide (is_u64 y)) as [Hy|Hy]; [|rewrite decide_False; [done|]; intros ?; apply Hy; split; lia].
  assert (EmulationPageTable.page_of k v (n * 2 ^ k) (page k y) ↔ v <= y < v + n * 2 ^ k) as Hpg.
  { pose proof (page_below k Hk y v Hv). pose proof (page_below k Hk y (v + n * 2 ^ k)) as Hb.
    rewrite Z.mod_add in Hb by lia. specialize (Hb Hv). unfold EmulationPageTable.page_of.
    pose proof (page_mod k y) as Hpm. rewrite Zminus_mod, Hpm, Hv. split; [lia|]. intros ?. split; [lia|]. apply Z.mod_0_l. lia. }
  rewrite (ga_entry _ _ _ _ _ _ _ _ _ _ Hg), (decide_ext _ _ _ _ Hpg). case_decide as Hin.
  - apply (gains_zero k first total ext Hk Hpool v n x fl p p' h al); try done; [apply Hst|apply (st_areas _ _ _ _ _ _ _ Hst)].
  - destruct (entry p (page k y)) as [e|] eqn:He.
    + apply (virt_kept k Hk); try done; [apply Hst| |by rewrite Hsm]. rewrite (ga_entry _ _ _ _ _ _ _ _ _ _ Hg), (decide_ext _ _ _ _ Hpg), decide_False; done.
    + by rewrite Hsm.
Qed.

(** The memory after a region has moved from [s] to [ns] and grown from [old] to [new] bytes. *)
Definition moved_view (s ns old new : Z) (p : Process.t) (h : hmem) (x : Z) : option Z :=
  if decide (s <= x < s + old) then None
  else if decide (ns <= x < ns + old) then view k p h (s + (x - ns))
  else if decide (ns + old <= x < ns + new) then Some 0 else view k p h x.

Lemma beside_internal v size s len : internal ext s len → s + len <= v ∨ v + size <= s → internal (beside v size) s len.
Proof. clear Hpool. intros Hi Hd a Ha [Hx|Hx]; [by apply (Hi a)|lia]. Qed.

(** A free range of the pool has [n] frames. *)
Definition has_range (p : Process.t (G := G)) (n : Z) : Prop :=
  ∃ pool r, MemPool.pools (seWorkload p) !! 0%nat = Some pool ∧
    r ∈ FreeList._ranges (MemPool.freePhysPages pool) ∧ n <= FreeList.size r.

Lemma has_range_some p n : has_range p n → ¬ no_range p n.
Proof.
  clear Hpool. intros (pool & r & Hp & Hr & Hn) (pool' & Hp' & Hall). rewrite Hp in Hp'. injection Hp' as <-.
  rewrite Forall_forall in Hall. specialize (Hall r Hr). lia.
Qed.

(** The pages behind a region that is moved, in frames that were free. *)
Lemma allocate_behind clobber v n p h al :
  state_ok k first total ext p h al → usable v (n * 2 ^ k) (memState p) → free p v (n * 2 ^ k) → n * 2 ^ k < 2 ^ 63 → has_range p n →
  ∃ p' x, Process.allocateMem v (n * 2 ^ k) clobber p = Ok p' ∧ MemPool.pages x n ## al ∧
    state_ok k first total (beside v (n * 2 ^ k)) p' h (al ∪ MemPool.pages x n) ∧ memState p' = memState p ∧
    (∀ a, ¬ v <= a < v + n * 2 ^ k → entry p' a = entry p a) ∧
    ∀ y, view k p' h y = if decide (v <= y < v + n * 2 ^ k) then Some 0 else view k p h y.
Proof using Hk Hpool.
  intros Hst Hu Hf Hsz Hrg. pose proof Hu as [[[Hv Hva] [Hl _] Ht _] [Hs1 Hs2] _]. pose proof (EmulationPageTable.page_pos k Hk) as Hp.
  assert (0 < n) as Hn by (apply (Z.mul_lt_mono_pos_r (2 ^ k)); lia).
  assert (npages k (n * 2 ^ k) = n) as Hnp.
  { unfold npages. replace (n * 2 ^ k + 2 ^ k - 1) with (2 ^ k - 1 + n * 2 ^ k) by lia. rewrite Z.div_add, Z.div_small by lia. lia. }
  assert (sized k v (n * 2 ^ k)) as Hsd.
  { constructor; rewrite ?Hnp, ?(page_aligned k v Hva); [split; lia|lia| |lia|lia]. apply (Z.mul_lt_mono_pos_r (2 ^ k)); lia. }
  destruct (allocate_new k first total ext Hk Hpool p h al v (n * 2 ^ k) clobber) as [(x & p' & -> & Hg & Hi)|[_ Hnr]];
    rewrite ?Hnp, ?(page_aligned k v Hva) in *; try done.
  - apply Hst.
  - intros a (Hr & Hd). eapply usable_none; try done. rewrite <-(Z.sub_simpl_r a v), <-Zplus_mod_idemp_l, Hd, Z.add_0_l. done.
  - exists p', x. split; [done|]. split; [intros f Hf1%MemPool.elem_of_pages Hf2; by destruct (ga_free _ _ _ _ _ _ _ _ _ _ Hg f ltac:(lia))|].
    split; [by eapply gains_beside|]. split; [by rewrite (ga_same _ _ _ _ _ _ _ _ _ _ Hg)|]. split.
    + intros a Ha. rewrite (ga_entry _ _ _ _ _ _ _ _ _ _ Hg), decide_False; [done|]. by intros [? _].
    + intros y. eapply gains_view; try done; [apply Hi|lia].
  - by destruct (has_range_some p n Hrg).
Qed.

(** A region that moves to [ns] and grows, where the pages it gains are free. *)
Record movable (start ns old new : Z) (p : Process.t (G := G)) : Prop := {
  mv_from : usable start old (memState p);
  mv_to : is_u64 ns ∧ usable ns old (memState p) ∧ usable (ns + old) (new - old) (memState p) ∧ free p (ns + old) (new - old);
  mv_apart : start + old <= ns ∨ ns + new <= start;
  mv_size : new - old < 2 ^ 63 ∧ (new - old) mod 2 ^ k = 0;
  mv_range : has_range p ((new - old) / 2 ^ k);
}.

(** What a move leaves behind: the bytes at the new place with zeros behind them, and
    the frames of what was there exchanged for those of the pages gained. *)
Record has_moved (start ns old new : Z) (p : Process.t) (h : hmem) (al : gset Z) (p' : Process.t) (h' : hmem) (al' : gset Z) : Prop := {
  hm_state : state_ok k first total (beside (ns + old) (new - old)) p' h' al';
  hm_frames : ∃ x, MemPool.pages x ((new - old) / 2 ^ k) ## al ∧
    ∀ f, f ∈ al' ↔ f ∈ al ∪ MemPool.pages x ((new - old) / 2 ^ k) ∧ ¬ ∃ a, ns <= a < ns + old ∧ framed k p a f;
  hm_view x : is_u64 x → view k p' h' x = moved_view start ns old new p h x;
}.

Lemma mremap_moves depth clobber start ns old new e p h al :
  let p1 := set_memState (set_mmapEnd e (memState p)) p in
  state_ok k first total ext p h al → old < new → movable start ns old new p →
  ∃ p2 p' h' al', Process.allocateMem (ns + old) (new - old) clobber p1 = Ok p2 ∧ Process.remapRegion depth start ns old p2 h = Ok (p', h') ∧
    has_moved start ns old new p h al p' h' al' ∧ _mmapEnd (memState p') = e.
Proof using Hk Hpool.
  intros p1 Hst Hlt [Hfrom (Hns & Hto & Htail & Hf) Hd [Hsz Hal] Hrg]. pose proof (EmulationPageTable.page_pos k Hk) as Hp.
  destruct (state_limits (set_mmapEnd e (memState p)) p h al Hst) as [Hst1 Hv1]; [done|done|]. fold p1 in Hst1, Hv1.
  apply Z.mod_divide in Hal as [n Hn]; [|lia]. rewrite Hn, Z.div_mul in Hrg by lia. rewrite Hn in Hsz, Htail, Hf.
  assert (0 < old) as Hold by apply Hfrom.
  destruct (allocate_behind clobber (ns + old) n p1 h al Hst1) as (p2 & x & Ha & Hx & Hst2 & Hms & Hen & Hv2); [by apply (usable_same _ _ (memState p))|done|lia|done|].
  pose proof Hfrom as [Hr1 [Hs1 Hs2] Hi1]. pose proof Hto as [Hr2 [Hs3 Hs4] Hi2].
  assert (∀ v l, region_ok k v l (memState p) → region_ok k v l (memState p2)) as Hreg by (rewrite Hms; intros v l [? ? ? ?]; by constructor).
  destruct (remapRegion_ok k first total (beside (ns + old) (n * 2 ^ k)) Hk Hpool depth start ns old p2 h (al ∪ MemPool.pages x n))
    as (p' & h' & al' & Hr & Hst' & Hva & _ & [l' Hms'] & _ & Hv'); try done.
  - pose proof Hr1 as [[? ?] [? ?] ? _]. pose proof Hr2 as [[? ?] _ ? _]. constructor; [done|lia|lia].
  - by apply Hreg.
  - by apply Hreg.
  - apply beside_internal; [done|lia].
  - apply beside_internal; [done|lia].
  - exists p2, p', h', al'. rewrite Hn. split; [done|]. split; [done|]. split; [|by rewrite Hms', Hms]. constructor; rewrite ?Hn.
    + done.
    + rewrite Z.div_mul by lia. exists x. split; [done|]. intros f. rewrite (Hva f). unfold framed.
      split; intros [? Hno]; (split; [done|]); intros (a & Har & e' & He & Hpa); apply Hno; exists a; (split; [done|]); exists e'; (split; [|done]);
        rewrite Hen in * by lia; done.
    + intros y Hy. rewrite Hv' by done. unfold moved_view, origin.
      destruct (decide (start <= y < start + old)) as [Hc1|Hc1]; [done|]. rewrite Hv2. destruct (decide (ns <= y < ns + old)) as [Hc2|Hc2].
      * rewrite decide_False by lia. by rewrite Hv1.
      * replace (ns + old + n * 2 ^ k) with (ns + new) by lia. case_decide; [done|]. by rewrite Hv1.
Qed.

(** *** [mremap] *)

(** The arguments of [mremapFunc] that make sense. *)
Record mremap_args (start old new_length flags arg : Z) : Prop := {
  mr_start : 0 <= start ∧ start mod 2 ^ k = 0;
  mr_arg : bit flags TGT_MREMAP_FIXED = true → arg mod 2 ^ k = 0;
  mr_old : 0 < old ∧ start + old < 2 ^ 64;
  mr_new : 0 <= new_length ∧ new_length + 2 ^ k - 1 < 2 ^ 64;
}.

Lemma mremap_refuses depth down start old new_length flags arg p h al :
  state_ok k first total ext p h al → start mod 2 ^ k ≠ 0 ∨ bit flags TGT_MREMAP_FIXED = true ∧ arg mod 2 ^ k ≠ 0 →
  mremapFunc depth down start old new_length flags arg p h = Ok (- EINVAL, p, h).
Proof.
  clear Hpool. intros Hst Hbad. unfold mremapFunc. rewrite (state_page p h al Hst).
  destruct Hbad as [Hs|[-> Ha]]; [by rewrite (proj2 (Z.eqb_neq _ _) Hs)|]. by rewrite (proj2 (Z.eqb_neq _ _) Ha), orb_true_r.
Qed.

(** [mremapFunc] on such arguments, with the address [to] asked for. *)
Lemma mremapFunc_eq depth down start old new_length flags arg p h al :
  let new := Process.page_end k new_length in
  let mmap_end := _mmapEnd (memState p) in
  let fixed := bit flags TGT_MREMAP_FIXED in
  let to := if fixed then arg else 0 in
  state_ok k first total ext p h al → mremap_args start old new_length flags arg →
  0 <= new < 2 ^ 64 ∧
  mremapFunc depth down start old new_length flags arg p h =
    if old <? new then
      if (start + old =? mmap_end) && (negb fixed || (to =? start)) then
        p ← Process.mapRegion mmap_end (new - old) None 0 p;
        Ok (s64 start, set_memState (set_mmapEnd (u64 (mmap_end + (new - old))) (memState p)) p, h)
      else if negb fixed && negb (bit flags TGT_MREMAP_MAYMOVE) then Ok (- ENOMEM, p, h) else
      let ns := if fixed then to else if down then u64 (mmap_end - new) else mmap_end in
      let e := if fixed then mmap_end else if down then ns else u64 (mmap_end + new) in
      p ← Process.allocateMem (u64 (ns + old)) (new - old) fixed (set_memState (set_mmapEnd e (memState p)) p);
      '(p, h) ← Process.remapRegion depth start ns old p h;
      Ok (s64 ns, p, h)
    else
      '(p, h) ← (if fixed && negb (to =? start) then Process.remapRegion depth start to new p h else Ok (p, h));
      '(p, h) ← (if negb (new =? old) then Process.unmapRegion depth (u64 (start + new)) (old - new) p h else Ok (p, h));
      Ok (s64 (if fixed then to else start), p, h).
Proof using Hk.
  clear Hpool. intros new mmap_end fixed to Hst [[Hs0 Hs] Ha [Ho0 Ho1] [Hn0 Hn1]]. pose proof (EmulationPageTable.page_pos k Hk) as Hp.
  assert (0 <= new < 2 ^ 64) as Hnew.
  { unfold new, Process.page_end. pose proof (Z.mul_div_le (new_length + 2 ^ k - 1) (2 ^ k) ltac:(lia)).
    split; [apply Z.mul_nonneg_nonneg; [lia|apply Z.div_pos; lia]|lia]. }
  split; [done|]. unfold mremapFunc. rewrite (state_page p h al Hst), roundUp_spec by lia. fold (Process.page_end k new_length). fold new mmap_end fixed.
  rewrite Hs. assert ((if fixed then arg else 0) mod 2 ^ k = 0) as ->.
  { destruct fixed eqn:Hfx; [by apply Ha|]. by rewrite Z.mod_0_l by lia. }
  fold to. cbn [Z.eqb negb orb]. rewrite (u64_small (start + old)) by (split; lia). destruct (Z.ltb_spec old new).
  - rewrite !(u64_small (new - old)) by (split; lia). destruct (_ && _); [done|]. destruct (_ && _); [done|].
    destruct fixed; [|by destruct down]. unfold mmap_end. cbn zeta. by replace (set_memState (set_mmapEnd (_mmapEnd (memState p)) (memState p)) p) with p by by destruct p as [? ? ? [] ? ?].
  - by rewrite !(u64_small (old - new)) by (split; lia).
Qed.

(** The region keeps its place. *)
Definition stays (flags start arg : Z) : Prop := bit flags TGT_MREMAP_FIXED = false ∨ arg = start.

Lemma stays_eq flags start arg (to := if bit flags TGT_MREMAP_FIXED then arg else 0) :
  stays flags start arg →
  negb (bit flags TGT_MREMAP_FIXED) || (to =? start) = true ∧ bit flags TGT_MREMAP_FIXED && negb (to =? start) = false ∧
  (if bit flags TGT_MREMAP_FIXED then to else start) = start.
Proof.
  clear Hpool. unfold stays, to. destruct (bit flags TGT_MREMAP_FIXED); [|done]. intros [|Ha]; [done|]. by rewrite Ha, Z.eqb_refl.
Qed.

Section Mremap.
Context (depth : nat) (down : bool) (start old new_length flags arg : Z) (p : Process.t (G := G)) (h : hmem) (al : gset Z).
Context (Hst : state_ok k first total ext p h al) (Hargs : mremap_args start old new_length flags arg).
Let new := Process.page_end k new_length.
Let mmap_end := _mmapEnd (memState p).
Let r := mremapFunc depth down start old new_length flags arg p h.

Lemma mremap_same : stays flags start arg → new = old → r = Ok (s64 start, p, h).
Proof using Hk Hst Hargs.
  clear Hpool. intros Hsy Heq. destruct (mremapFunc_eq depth down start old new_length flags arg p h al Hst Hargs) as [_ Hr].
  destruct (stays_eq flags start arg Hsy) as (H1 & H2 & H3). unfold r. rewrite Hr. fold new. cbn zeta. rewrite Heq, Z.ltb_irrefl, Z.eqb_refl, H2, H3. done.
Qed.

Lemma mremap_shrinks :
  stays flags start arg → new < old → usable (start + new) (old - new) (memState p) →
  ∃ p' h' al', r = Ok (s64 start, p', h') ∧ state_ok k first total ext p' h' al' ∧ vacated k (start + new) (old - new) p al al' ∧
    ∀ x, view k p' h' x = if decide (start + new <= x < start + old) then None else view k p h x.
Proof using Hk Hpool Hst Hargs.
  intros Hsy Hlt [Hu [Hs1 Hs2] Hi]. destruct (mremapFunc_eq depth down start old new_length flags arg p h al Hst Hargs) as [Hnew Hr].
  destruct (stays_eq flags start arg Hsy) as (H1 & H2 & H3). unfold r. rewrite Hr. fold new in Hnew |- *. cbn zeta. rewrite H2, H3.
  replace (old <? new) with false by lia. replace (new =? old) with false by lia. cbn [negb]. rewrite res_bind_Ok.
  pose proof (mr_start _ _ _ _ _ Hargs). pose proof (mr_old _ _ _ _ _ Hargs). rewrite u64_small by (split; lia).
  destruct (unmapRegion_ok k first total ext Hk Hpool depth (start + new) (old - new) p h al Hst Hu Hs1 Hs2 Hi) as (p' & h' & al' & l' & -> & ? & ? & _ & _ & _ & _ & Hv).
  exists p', h', al'. split; [done|]. split; [done|]. split; [done|]. intros x. rewrite Hv. by replace (start + new + (old - new)) with (start + old) by lia.
Qed.

Lemma mremap_grows :
  stays flags start arg → old < new → start + old = mmap_end → usable mmap_end (new - old) (memState p) → free p mmap_end (new - old) →
  ∃ p', r = Ok (s64 start, p', h) ∧ state_ok k first total ext p' h al ∧ _mmapEnd (memState p') = start + new ∧
    ∀ x, view k p' h x = if decide (start + old <= x < start + new) then Some 0 else view k p h x.
Proof using Hk Hst Hargs.
  clear Hpool. intros Hsy Hlt Heq Hu Hf. destruct (mremapFunc_eq depth down start old new_length flags arg p h al Hst Hargs) as [Hnew Hr].
  destruct (stays_eq flags start arg Hsy) as (H1 & H2 & H3). unfold r. rewrite Hr. fold new mmap_end in Hnew |- *. cbn zeta. rewrite H1.
  replace (old <? new) with true by lia. rewrite Heq, Z.eqb_refl. cbn [andb]. pose proof Hu as [[? ? ? ?] _ _]. rewrite u64_small by (split; lia).
  destruct (map_free mmap_end (new - old) None 0 p h al Hst Hu Hf I) as (p1 & -> & Hst1 & [Hv1 _ _]). rewrite res_bind_Ok.
  destruct (state_limits (set_mmapEnd (mmap_end + (new - old)) (memState p1)) p1 h al Hst1) as [Hst2 Hv2]; [done|done|].
  eexists. split; [done|]. split; [done|]. split; [simpl; lia|]. intros x. rewrite Hv2, Hv1. by replace (start + new) with (mmap_end + (new - old)) by lia.
Qed.

Lemma mremap_no_room :
  bit flags TGT_MREMAP_FIXED = false → bit flags TGT_MREMAP_MAYMOVE = false → old < new → start + old ≠ mmap_end → r = Ok (- ENOMEM, p, h).
Proof using Hk Hst Hargs.
  clear Hpool. intros Hfx Hmm Hlt Hne. destruct (mremapFunc_eq depth down start old new_length flags arg p h al Hst Hargs) as [_ Hr].
  unfold r. rewrite Hr. fold new mmap_end. cbn zeta. rewrite Hfx, Hmm. replace (old <? new) with true by lia. by replace (start + old =? mmap_end) with false by lia.
Qed.

(** A region that grows moves, to the address asked for or to the end of the mappings. *)
Lemma mremap_goes (ns := if bit flags TGT_MREMAP_FIXED then arg else if down then mmap_end - new else mmap_end) :
  bit flags TGT_MREMAP_FIXED = true ∨ bit flags TGT_MREMAP_MAYMOVE = true ∧ start + old ≠ mmap_end → old < new →
  movable start ns old new p → ∃ p' h' al', r = Ok (s64 ns, p', h') ∧ has_moved start ns old new p h al p' h' al'.
Proof using Hk Hpool Hst Hargs.
  intros Hfx Hlt Hmv. destruct (mremapFunc_eq depth down start old new_length flags arg p h al Hst Hargs) as [Hnew Hr].
  unfold r. rewrite Hr. fold new mmap_end in Hnew |- *. cbn zeta. replace (old <? new) with true by lia.
  destruct (mv_to _ _ _ _ _ Hmv) as (Hns & _ & [[Hta _ Htt _] _ _] & _). pose proof (mv_apart _ _ _ _ _ Hmv) as Hap.
  pose proof (mr_old _ _ _ _ _ Hargs) as [Ho _].
  assert ((start + old =? mmap_end) && (negb (bit flags TGT_MREMAP_FIXED) || ((if bit flags TGT_MREMAP_FIXED then arg else 0) =? start)) = false) as ->.
  { unfold ns in Hap. destruct Hfx as [Hfx|[_ Hne]]; [rewrite Hfx in *; replace (arg =? start) with false by lia; apply andb_false_r|]. by replace (start + old =? mmap_end) with false by lia. }
  assert (negb (bit flags TGT_MREMAP_FIXED) && negb (bit flags TGT_MREMAP_MAYMOVE) = false) as -> by (destruct Hfx as [->|[-> _]]; [done|apply andb_false_r]).
  assert ((if bit flags TGT_MREMAP_FIXED then (if bit flags TGT_MREMAP_FIXED then arg else 0) else if down then u64 (mmap_end - new) else mmap_end) = ns) as ->.
  { unfold ns in *. destruct (bit flags TGT_MREMAP_FIXED); [done|]. destruct down; [by rewrite u64_small|done]. }
  rewrite u64_small by (split; lia). set (e := if bit flags TGT_MREMAP_FIXED then _ else _).
  destruct (mremap_moves depth (bit flags TGT_MREMAP_FIXED) start ns old new e p h al Hst Hlt Hmv) as (p2 & p' & h' & al' & -> & Hrr & Hm & _).
  rewrite res_bind_Ok, Hrr, res_bind_Ok. by exists p', h', al'.
Qed.

(** A region that does not grow moves to the address asked for, without its end. *)
Definition cut_view (x : Z) : option Z :=
  if decide (start <= x < start + old) then None
  else if decide (arg <= x < arg + new) then view k p h (start + (x - arg)) else view k p h x.

(** The frames of what was at the new place and of the end go back. *)
Lemma cut_frames p1 h1 al1 al' :
  state_ok k first total ext p1 h1 al1 →
  (∀ a, a mod 2 ^ k = 0 → ¬ start <= a < start + new → ¬ arg <= a < arg + new → entry p1 a = entry p a) →
  0 < new → start + old <= arg ∨ arg + new <= start →
  vacated k arg new p al al1 → vacated k (start + new) (old - new) p1 al1 al' →
  ∀ f, f ∈ al' ↔ f ∈ al ∧ ¬ ∃ a, (arg <= a < arg + new ∨ start + new <= a < start + old) ∧ framed k p a f.
Proof using Hk Hst.
  clear Hpool. intros Hst1 Hen Hn Hap Hva1 Hva f. rewrite (Hva f), (Hva1 f).
  assert (∀ a, start + new <= a < start + old → framed k p1 a f ↔ framed k p a f) as Hsame.
  { intros a Ha. unfold framed. split; intros (e & He & Hf); exists e; (split; [|done]).
    - rewrite <-Hen; [done| |lia|lia]. by eapply EmulationPageTable.typed_entry; [apply Hst1|].
    - rewrite Hen; [done| |lia|lia]. by eapply EmulationPageTable.typed_entry; [apply Hst|]. }
  replace (start + new + (old - new)) with (start + old) in * by lia. split.
  - intros [[? H1] H2]. split; [done|]. intros (a & [Ha|Ha] & Hf); [by apply H1; exists a|].
    apply H2. exists a. split; [lia|]. by apply Hsame.
  - intros [? Hno]. split; [split; [done|]|]; intros (a & Ha & Hf); apply Hno; exists a; (split; [lia|]); [done|].
    apply Hsame; [lia|done].
Qed.

Lemma mremap_fixed_cut :
  bit flags TGT_MREMAP_FIXED = true → new <= old → start + old <= arg ∨ arg + new <= start →
  usable start new (memState p) → usable arg new (memState p) → (new < old → usable (start + new) (old - new) (memState p)) →
  ∃ p' h' al', r = Ok (s64 arg, p', h') ∧ state_ok k first total ext p' h' al' ∧
    (∀ f, f ∈ al' ↔ f ∈ al ∧ ¬ ∃ a, (arg <= a < arg + new ∨ start + new <= a < start + old) ∧ framed k p a f) ∧
    ∀ x, is_u64 x → view k p' h' x = cut_view x.
Proof using Hk Hpool Hst Hargs.
  intros Hfx Hle Hap Hu1 Hu2 Hu3. destruct (mremapFunc_eq depth down start old new_length flags arg p h al Hst Hargs) as [Hnew Hr].
  pose proof (mr_start _ _ _ _ _ Hargs) as [Hs0 Hsa]. pose proof (mr_old _ _ _ _ _ Hargs) as [Ho0 Ho1].
  unfold r. rewrite Hr. fold new mmap_end in Hnew |- *. cbn zeta. rewrite Hfx. replace (old <? new) with false by lia.
  assert (0 < new) by apply Hu1. replace (arg =? start) with false by lia. cbn [negb andb]. pose proof Hu1 as [Hr1 [Hs1 Hs2] Hi1]. pose proof Hu2 as [Hr2 [Hs3 Hs4] Hi2].
  destruct (remapRegion_ok k first total ext Hk Hpool depth start arg new p h al) as (p1 & h1 & al1 & -> & Hst1 & Hva1 & _ & [l1 Hms] & Hen & Hv1); try done.
  { pose proof Hr1 as [[? ?] [? ?] ? _]. pose proof Hr2 as [[? ?] _ ? _]. constructor; [done|lia|lia]. }
  rewrite res_bind_Ok. destruct (Z.eqb_spec new old) as [Heq|Hne]; cbn [negb].
  - rewrite res_bind_Ok. exists p1, h1, al1. split; [done|]. split; [done|]. split.
    + intros f. rewrite (Hva1 f). split; intros [? Hno]; (split; [done|]); intros (a & Ha & ?); apply Hno; exists a; (split; [|done]); [lia|by left].
    + intros x Hx. rewrite Hv1 by done. unfold cut_view, origin. rewrite Heq. by repeat case_decide.
  - destruct (Hu3 ltac:(lia)) as [Hr3 [Hs5 Hs6] Hi3]. rewrite u64_small by (split; lia).
    destruct (unmapRegion_ok k first total ext Hk Hpool depth (start + new) (old - new) p1 h1 al1) as (p' & h' & al' & l' & -> & Hst' & Hva & _ & _ & _ & _ & Hv); try done.
    { rewrite Hms. by destruct Hr3. }
    exists p', h', al'. split; [done|]. split; [done|]. split; [by apply (cut_frames p1 h1 al1)|].
    intros x Hx. rewrite Hv, Hv1 by done. unfold cut_view, origin. repeat case_decide; (done || lia).
Qed.

End Mremap.

(** ** The theorems *)

(** C20: [brk] moves the end of the heap.  To a lower address it removes the pages that
    are no longer needed and nothing else; to a higher one it adds pages of zeros
    and changes nothing else, unless there is an area in the way: then, as for
    address 0, nothing changes at all and the old end is returned. *)
Theorem brk_call depth nb p h al :
  let old := _brkPoint (memState p) in
  let lo := Process.page_end k old in let hi := Process.page_end k nb in
  state_ok k first total ext p h al → 0 <= old → old + 2 ^ k - 1 < 2 ^ 64 → 0 <= nb → nb + 2 ^ k - 1 < 2 ^ 64 →
  (hi < lo → usable hi (lo - hi) (memState p)) → (lo < hi → usable lo (hi - lo) (memState p)) →
  ((nb = 0 ∨ lo < hi ∧ ¬ free p lo (hi - lo)) ∧ brkFunc depth nb p h = Ok (s64 old, p, h)) ∨
  (nb ≠ 0 ∧ (lo < hi → free p lo (hi - lo)) ∧
   ∃ p' h' al', brkFunc depth nb p h = Ok (s64 nb, p', h') ∧ state_ok k first total ext p' h' al' ∧ _brkPoint (memState p') = nb ∧
     ∀ x, view k p' h' x = if decide (hi <= x < lo) then None else if decide (lo <= x < hi) then Some 0 else view k p h x).
Proof using Hk Hpool.
  intros old lo hi Hst Hold Htop Hnb Htop' Hsh Hgr. unfold brkFunc. fold old. destruct (Z.eqb_spec nb 0) as [->|Hne].
  { left. split; [by left|done]. }
  destruct (Z.eqb_spec nb old) as [Heq|Hneq]; simpl.
  { right. unfold lo, hi. rewrite Heq. split; [lia|]. split; [lia|]. exists p, h, al. split; [done|]. split; [done|]. split; [done|].
    intros x. by rewrite !decide_False by lia. }
  destruct (decide (nb < old)) as [Hlt|Hge].
  - right. assert (hi <= lo).
    { unfold lo, hi, Process.page_end. pose proof (EmulationPageTable.page_pos k Hk). apply Z.mul_le_mono_nonneg_l; [lia|apply Z.div_le_mono; lia]. }
    destruct (brk_shrinks depth old nb p h al Hst ltac:(lia) Htop Hsh) as (p' & h' & al' & -> & Hst' & Hb & Hv).
    split; [done|]. split; [lia|]. exists p', h', al'. rewrite res_bind_Ok, Hb. done.
  - destruct (brk_grows depth old nb p h al Hst ltac:(lia) Htop' Hgr) as [[Hbl ->]|[Hf (p' & -> & Hst' & Hb & Hv)]]; [left|right].
    + split; [by right|]. done.
    + split; [done|]. split; [done|]. exists p', h, al. rewrite res_bind_Ok, Hb. done.
Qed.

(** The entries of the descriptor table that cannot be mapped. *)
Definition not_mappable (fds : list (option FDEntry)) (flags tgt_fd : Z) : Prop :=
  bit flags TGT_MAP_ANONYMOUS = false ∧ 0 <= tgt_fd ∧
  (fds !! Z.to_nat tgt_fd = Some None ∨ fds !! Z.to_nat tgt_fd = Some (Some OtherFDEntry)).

Lemma mmapFunc_bad_fd depth fuel down fds drv start length flags tgt_fd offset p h al :
  state_ok k first total ext p h al → valid_mmap start length flags offset → not_mappable fds flags tgt_fd →
  mmapFunc depth fuel down fds drv start length flags tgt_fd offset p h = Ok (- EBADF, p, h).
Proof using Hk.
  clear Hpool. intros Hst (Hs & Ho & Hps & Hl) (Ha & Hf0 & Hf). unfold mmapFunc.
  rewrite (state_page p h al Hst), !land_page, u64_page, Hs, Ho, Hps, Ha. replace (length =? 0) with false by lia. unfold getFDEntry.
  assert (Z.to_nat tgt_fd < List.length fds)%nat by (destruct Hf as [Hf|Hf]; by apply lookup_lt_Some in Hf).
  replace ((0 <=? tgt_fd) && (tgt_fd <? _)) with true by lia.
  destruct (bit flags TGT_MAP_SHARED); cbn [ensure]; rewrite !res_bind_Ok; by destruct Hf as [-> | ->].
Qed.

(** C11: [mmap] and [munmap] change the address space as they say.  [mmap] refuses an
    unaligned address or offset, a length of zero and flags that are not exactly one
    of shared and private with [EINVAL], and a descriptor of the table that is closed
    or no file with [EBADF]; [munmap] refuses an unaligned address; then nothing
    changes.  Without [MAP_FIXED] [mmap] finds a place where there was nothing, the
    hint if it is one, and otherwise one of those it tries from the end of the
    mappings, if one is free; with it, the region is the one asked for, whatever was
    there.  The region then reads as the file from its offset, and as zeros behind
    the file or when there is none, and nothing else changes.  [munmap] of a length
    that is not zero removes the bytes of its pages and no others; the frames of the
    pages that [munmap] removes and [MAP_FIXED] replaces go back to the pool. *)
Theorem mapping_calls depth fuel down fds drv start length flags tgt_fd offset p h al :
  let len := Process.page_end k length in
  state_ok k first total ext p h al → 0 <= length → length + 2 ^ k - 1 < 2 ^ 64 →
  (¬ valid_mmap start length flags offset →
     mmapFunc depth fuel down fds drv start length flags tgt_fd offset p h = Ok (- EINVAL, p, h)) ∧
  (valid_mmap start length flags offset → not_mappable fds flags tgt_fd →
     mmapFunc depth fuel down fds drv start length flags tgt_fd offset p h = Ok (- EBADF, p, h)) ∧
  (∀ fd, valid_mmap start length flags offset → names_file fds flags tgt_fd fd → file_ok p h fd offset →
     (bit flags TGT_MAP_FIXED = false → start = 0 ∨ usable start len (memState p) → ∀ n, gap down n len p → (n < fuel)%nat →
        ∃ s p', mmapFunc depth fuel down fds drv start length flags tgt_fd offset p h = Ok (s64 s, p', h) ∧
          state_ok k first total ext p' h al ∧ (∀ x, s <= x < s + len → view k p h x = None) ∧
          (start ≠ 0 → free p start len → s = start) ∧
          ∀ x, view k p' h x = if decide (s <= x < s + len) then region_byte h fd offset s x else view k p h x) ∧
     (bit flags TGT_MAP_FIXED = true → usable start len (memState p) →
        ∃ p' h' al', mmapFunc depth fuel down fds drv start length flags tgt_fd offset p h = Ok (s64 start, p', h') ∧
          state_ok k first total ext p' h' al' ∧ (∀ f, f ∈ al' ↔ f ∈ al ∧ ¬ ∃ a, start <= a < start + len ∧ framed k p a f) ∧
          ∀ x, view k p' h' x = if decide (start <= x < start + len) then region_byte h fd offset start x else view k p h x)) ∧
  (start mod 2 ^ k ≠ 0 → munmapFunc depth start length p h = Ok (- EINVAL, p, h)) ∧
  (usable start len (memState p) →
     ∃ p' h' al', munmapFunc depth start length p h = Ok (0, p', h') ∧ state_ok k first total ext p' h' al' ∧
       (∀ f, f ∈ al' ↔ f ∈ al ∧ ¬ ∃ a, start <= a < start + len ∧ framed k p a f) ∧
       ∀ x, view k p' h' x = if decide (start <= x < start + len) then None else view k p h x).
Proof using Hk Hpool.
  intros len Hst Hl0 Hl1. split_and!.
  - intros Hn. by apply (mmapFunc_invalid _ _ _ _ _ _ _ _ _ _ _ _ al).
  - intros Hv Hn. by apply (mmapFunc_bad_fd _ _ _ _ _ _ _ _ _ _ _ _ al).
  - intros fd Hv Hfd Hfile. rewrite (mmapFunc_region _ _ _ _ _ _ _ _ _ _ fd p h al) by done. fold len. split.
    + intros Hb Hs n Hg Hn. destruct (mmap_anywhere depth fuel down n start len flags fd offset p h al) as (s & p' & ? & ? & Hu & Hf & [? _ _] & ?); try done.
      exists s, p'. split; [done|]. split; [done|]. split; [intros x Hx; by eapply free_view|]. done.
    + intros Hb Hu. destruct (mmap_fixed depth fuel down start len flags fd offset p h al) as (p' & h' & al' & ? & ? & ? & [? _ _]); try done.
      by exists p', h', al'.
  - intros Hs. unfold munmapFunc. rewrite (EmulationPageTable.pageOffset_mod k Hk) by (eapply mo_wf, iv_mapped, st_inv, Hst).
    by rewrite (proj2 (Z.eqb_neq _ _) Hs).
  - intros [Hr [Hs1 Hs2] Hi]. unfold munmapFunc. rewrite (EmulationPageTable.pageOffset_mod k Hk) by (eapply mo_wf, iv_mapped, st_inv, Hst).
    rewrite (proj2 (ro_start _ _ _ _ Hr)), (state_page p h al Hst), roundUp_spec by lia. fold (Process.page_end k length). fold len. cbn [Z.eqb negb].
    destruct (unmapRegion_ok k first total ext Hk Hpool depth start len p h al Hst Hr Hs1 Hs2 Hi) as (p' & h' & al' & l' & -> & ? & ? & _ & _ & _ & _ & ?).
    by exists p', h', al'.
Qed.


End MemSyscalls.
End MemSyscalls.
