(* ===== verification/CInt.v ===== *)
(** C as the test programs ([tests/test-progs]) and the system calls use it: signed arithmetic,
    arrays and counting loops, with what the language leaves undefined as a failure. *)

From S2P Require Import Prelude.

Module CInt.

(** [int] and [short]. *)
Definition is_int (x : Z) : Prop := - 2 ^ 31 <= x < 2 ^ 31.
Definition is_short (x : Z) : Prop := - 2 ^ 15 <= x < 2 ^ 15.

Definition to_short (x : Z) : Z := (x + 2 ^ 15) mod 2 ^ 16 - 2 ^ 15.

(** The result of a signed operation. *)
Definition int (x : Z) : res Z :=
  defined! ((- 2 ^ 31 <=? x) && (x <? 2 ^ 31)); Ok x.

(** [x >> n]. *)
Definition sar (x n : Z) : res Z :=
  defined! ((0 <=? n) && (n <? 32)); Ok (Z.shiftr x n).

Definition load (a : list Z) (i : Z) : res Z :=
  defined! (0 <=? i);
  match a !! Z.to_nat i with Some v => Ok v | None => Fail UndefinedBehaviour end.

Definition store (a : list Z) (i v : Z) : res (list Z) :=
  defined! ((0 <=? i) && (i <? Z.of_nat (length a)));
  Ok (<[Z.to_nat i := v]> a).

(** [n] turns of [for (...; i++)] from [i] on, and the loop from [a] to [b]. *)
Fixpoint turns {S} (n : nat) (i : Z) (body : Z → S → res S) (s : S) : res S :=
  match n with
  | O => Ok s
  | Datatypes.S n => s ← body i s; turns n (i + 1) body s
  end.

Definition for_ {S} (a b : Z) (body : Z → S → res S) (s : S) : res S := turns (Z.to_nat (b - a)) a body s.

Lemma int_Ok x : is_int x → int x = Ok x.
Proof.
  intros [? ?]. unfold int. by rewrite (proj2 (Z.leb_le _ _)), (proj2 (Z.ltb_lt _ _)) by done.
Qed.

Lemma sar_Ok x n : 0 <= n < 32 → sar x n = Ok (Z.shiftr x n).
Proof. intros [? ?]. unfold sar. by rewrite (proj2 (Z.leb_le _ _)), (proj2 (Z.ltb_lt _ _)) by done. Qed.

Lemma load_Ok a i v : 0 <= i → a !! Z.to_nat i = Some v → load a i = Ok v.
Proof. intros Hi Hv. unfold load. rewrite (proj2 (Z.leb_le _ _) Hi). simpl. by rewrite Hv. Qed.

Lemma store_Ok a i v : 0 <= i < Z.of_nat (length a) → store a i v = Ok (<[Z.to_nat i := v]> a).
Proof. intros [? ?]. unfold store. by rewrite (proj2 (Z.leb_le _ _)), (proj2 (Z.ltb_lt _ _)) by done. Qed.

(** A loop keeps what each turn keeps. *)
Lemma for_ind {S} (P : Z → S → Prop) a b body (s : S) :
  a <= b → P a s →
  (∀ i s, a <= i < b → P i s → ∃ s', body i s = Ok s' ∧ P (i + 1) s') →
  ∃ s', for_ a b body s = Ok s' ∧ P b s'.
Proof.
  intros Hab Ha Hbody. unfold for_. remember (Z.to_nat (b - a)) as n eqn:Hn.
  revert a s Hab Ha Hn Hbody. induction n as [|n IH]; intros a s Hab Ha Hn Hbody.
  - assert (a = b) as -> by lia. by exists s.
  - destruct (Hbody a s) as (s1 & Hs & H1); [lia|done|]. simpl. rewrite Hs, res_bind_Ok.
    apply IH; [lia|done|lia|]. intros i s' Hi. apply Hbody. lia.
Qed.

(** One turn more, at the front. *)
Lemma for_step {S} a b body (s : S) :
  a < b → for_ a b body s = (s ← body a s; for_ (a + 1) b body s).
Proof.
  intros Hab. unfold for_. replace (Z.to_nat (b - a)) with (Datatypes.S (Z.to_nat (b - (a + 1)))) by lia. done.
Qed.

Lemma for_done {S} a b body (s : S) : b <= a → for_ a b body s = Ok s.
Proof. intros Hab. unfold for_. by replace (Z.to_nat (b - a)) with 0%nat by lia. Qed.

End CInt.
