(* ===== verification/Futex.v ===== *)
(** The futexes of system-call emulation ([sim/futex_map.{hh,cc}]): queues of threads
    that wait at an address until they are woken. *)

From S2P Require Import Prelude.

Module Futex.

(** ** Threads and waiters *)

(** [ThreadContext::Status] of [cpu/thread_context.hh]. *)
Inductive Status := Active | Suspended | Halting | Halted.

#[global] Instance Status_eq_dec : EqDecision Status.
Proof. solve_decision. Defined.

(** A thread context is known by its number; [bitmask] is an [int]. *)
Record WaiterState := mkWaiter { tc : nat; bitmask : Z }.

Definition checkMask (wakeup_bitmask : Z) (w : WaiterState) : bool := negb (Z.land (bitmask w) wakeup_bitmask =? 0).

(** Address and thread group. *)
Notation FutexKey := (Z * Z)%type.

(** [FutexMap], with the states of the threads it suspends and activates. *)
Record t := mk {
  futexes : gmap FutexKey (list WaiterState);
  waitingTcs : gset nat;
  threads : gmap nat Status;
}.

Definition set_futexes (m : gmap FutexKey (list WaiterState)) (s : t) : t := mk m (waitingTcs s) (threads s).

(** [SimpleThread::activate] and [SimpleThread::suspend]. *)
Definition activate (n : nat) (s : t) : t := mk (futexes s) (waitingTcs s) (<[n := Active]> (threads s)).
Definition suspend_thread (n : nat) (s : t) : t := mk (futexes s) (waitingTcs s) (<[n := Suspended]> (threads s)).

Definition erase_waiting (n : nat) (s : t) : t := mk (futexes s) (waitingTcs s ∖ {[n]}) (threads s).
Definition insert_waiting (n : nat) (s : t) : t := mk (futexes s) (waitingTcs s ∪ {[n]}) (threads s).

(** ** Operations *)

Definition suspend_bitset (addr tgid : Z) (n : nat) (bitmask : Z) (s : t) : t :=
  let key := (addr, tgid) in
  let l := match futexes s !! key with None => [mkWaiter n bitmask] | Some l => l ++ [mkWaiter n bitmask] end in
  suspend_thread n (insert_waiting n (set_futexes (<[key := l]> (futexes s)) s)).

(** The mask 0xffffffff as an [int]. *)
Definition suspend (addr tgid : Z) (n : nat) (s : t) : t := suspend_bitset addr tgid n (-1) s.

(** An empty list is erased. *)
Definition put (key : FutexKey) (l : list WaiterState) (s : t) : t :=
  set_futexes (if l then delete key (futexes s) else <[key := l]> (futexes s)) s.

(** The loop of [wakeup]: the list that is left, and how many were woken. The source
    reads the context of a list element after it has been removed. *)
Fixpoint wake_loop (count : Z) (l : list WaiterState) (woken_up : Z) (s : t) : list WaiterState * Z * t :=
  match l with
  | [] => ([], woken_up, s)
  | w :: l' =>
      if woken_up <? count then wake_loop count l' (woken_up + 1) (erase_waiting (tc w) (activate (tc w) s))
      else (l, woken_up, s)
  end.

Definition wakeup (addr tgid count : Z) (s : t) : Z * t :=
  let key := (addr, tgid) in
  match futexes s !! key with
  | None => (0, s)
  | Some l => let '(l, woken_up, s) := wake_loop count l 0 s in (woken_up, put key l s)
  end.

Fixpoint bitset_loop (bitmask : Z) (l : list WaiterState) (woken_up : Z) (s : t) : list WaiterState * Z * t :=
  match l with
  | [] => ([], woken_up, s)
  | w :: l =>
      if checkMask bitmask w then bitset_loop bitmask l (woken_up + 1) (erase_waiting (tc w) (activate (tc w) s))
      else let '(l, woken_up, s) := bitset_loop bitmask l woken_up s in (w :: l, woken_up, s)
  end.

Definition wakeup_bitset (addr tgid bitmask : Z) (s : t) : Z * t :=
  let key := (addr, tgid) in
  match futexes s !! key with
  | None => (0, s)
  | Some l => let '(l, woken_up, s) := bitset_loop bitmask l 0 s in (woken_up, put key l s)
  end.

(** The first loop of [requeue], which leaves [waitingTcs] as it is ... *)
Fixpoint requeue_wake (count : Z) (l : list WaiterState) (woken_up : Z) (s : t) : list WaiterState * Z * t :=
  match l with
  | [] => ([], woken_up, s)
  | w :: l' => if woken_up <? count then requeue_wake count l' (woken_up + 1) (activate (tc w) s) else (l, woken_up, s)
  end.

(** ... and the second: what is left, what moves, and how many. *)
Fixpoint requeue_take (count2 : Z) (l tmpList : list WaiterState) (requeued : Z) : list WaiterState * list WaiterState * Z :=
  match l with
  | [] => ([], tmpList, requeued)
  | w :: l' => if requeued <? count2 then requeue_take count2 l' (tmpList ++ [w]) (requeued + 1) else (l, tmpList, requeued)
  end.

(** The end of [requeue]: those who move are appended to the second list, and the
    first is erased if it is empty. With nothing to move and no second list the code
    goes through the end of the map. *)
Definition splice (key1 key2 : FutexKey) (tmpList : list WaiterState) (requeued : Z) (m : gmap FutexKey (list WaiterState))
    : res (gmap FutexKey (list WaiterState)) :=
  m ← match m !! key2 with
      | None => if 0 <? requeued then Ok (<[key2 := tmpList]> m) else Fail UndefinedBehaviour
      | Some l2 => Ok (<[key2 := l2 ++ tmpList]> m)
      end;
  Ok (match m !! key1 with Some [] => delete key1 m | _ => m end).

Definition requeue (addr1 tgid count count2 addr2 : Z) (s : t) : res (Z * t) :=
  let key1 := (addr1, tgid) in
  match futexes s !! key1 with
  | None => Ok (0, s)
  | Some l =>
      let '(l, woken_up, s) := requeue_wake count l 0 s in
      let '(l, tmpList, requeued) := requeue_take count2 l [] 0 in
      m ← splice (addr1, tgid) (addr2, tgid) tmpList requeued (<[key1 := l]> (futexes s));
      Ok (woken_up + requeued, set_futexes m s)
  end.

Definition is_waiting (n : nat) (s : t) : bool := bool_decide (n ∈ waitingTcs s).

(** ** Queues *)

Definition queue (s : t) (key : FutexKey) : list WaiterState := default [] (futexes s !! key).

(** How many of a list a count reaches. *)
Definition reach (count : Z) (l : list WaiterState) : nat := Nat.min (Z.to_nat count) (length l).

(** Threads that are woken one after the other. *)
Definition activated (l : list WaiterState) (s : t) : t := foldl (λ s w, activate (tc w) s) s l.
Definition woken (l : list WaiterState) (s : t) : t := foldl (λ s w, erase_waiting (tc w) (activate (tc w) s)) s l.

Lemma insert_active (m : gmap nat Status) (w : WaiterState) (l : list WaiterState) n :
  (if decide (n ∈ tc <$> l) then Some Active else <[tc w := Active]> m !! n) = if decide (n ∈ tc <$> w :: l) then Some Active else m !! n.
Proof.
  cbn [fmap list_fmap]. destruct (decide (n ∈ tc <$> l)) as [Hin|Hn]; [by rewrite decide_True by (by right)|].
  destruct (decide (n = tc w)) as [->|Hne]; [rewrite lookup_insert_eq, decide_True; [done|by left]|].
  rewrite lookup_insert_ne, decide_False by (congruence || by intros [?|?]%elem_of_cons). done.
Qed.

Lemma activated_spec l : ∀ s,
  futexes (activated l s) = futexes s ∧ waitingTcs (activated l s) = waitingTcs s ∧
  ∀ n, threads (activated l s) !! n = if decide (n ∈ tc <$> l) then Some Active else threads s !! n.
Proof.
  induction l as [|w l IH]; intros s; [done|]. simpl. destruct (IH (activate (tc w) s)) as (-> & -> & Ht).
  split; [done|]. split; [done|]. intros n. rewrite Ht. apply insert_active.
Qed.

Lemma woken_spec l : ∀ s,
  futexes (woken l s) = futexes s ∧ (∀ n, n ∈ waitingTcs (woken l s) ↔ n ∈ waitingTcs s ∧ n ∉ tc <$> l) ∧
  ∀ n, threads (woken l s) !! n = if decide (n ∈ tc <$> l) then Some Active else threads s !! n.
Proof.
  induction l as [|w l IH]; intros s; [split_and!; [done| |done]; set_solver|].
  cbn [woken foldl fmap list_fmap]. destruct (IH (erase_waiting (tc w) (activate (tc w) s))) as (Hf & Hw & Ht). unfold woken in *.
  split; [done|]. split; [intros n; rewrite Hw; simpl; set_solver|]. intros n. rewrite Ht. simpl.
  apply insert_active.
Qed.

Lemma reach_cons count w l : 0 < count → reach count (w :: l) = S (reach (count - 1) l).
Proof. intros Hc. unfold reach. simpl. replace (Z.to_nat count) with (S (Z.to_nat (count - 1))) by lia. done. Qed.

Lemma reach_none count l : count <= 0 → reach count l = 0%nat.
Proof. intros Hc. unfold reach. lia. Qed.

Lemma wake_loop_spec count l : ∀ k s,
  wake_loop count l k s = (drop (reach (count - k) l) l, k + Z.of_nat (reach (count - k) l), woken (take (reach (count - k) l) l) s).
Proof.
  induction l as [|w l IH]; intros k s; cbn [wake_loop]; [unfold reach; by rewrite Nat.min_0_r, Z.add_0_r|].
  destruct (Z.ltb_spec k count).
  - rewrite IH, reach_cons by lia. replace (count - (k + 1)) with (count - k - 1) by lia. simpl. f_equal. f_equal. lia.
  - rewrite reach_none by lia. by rewrite Z.add_0_r.
Qed.

Lemma bitset_loop_spec mask l : ∀ k s,
  bitset_loop mask l k s =
    (filter (λ w, checkMask mask w = false) l, k + Z.of_nat (length (filter (λ w, checkMask mask w = true) l)),
     woken (filter (λ w, checkMask mask w = true) l) s).
Proof.
  induction l as [|w l IH]; intros k s; cbn [bitset_loop]; [by rewrite Z.add_0_r|]. destruct (checkMask mask w) eqn:Hm.
  - rewrite IH, (filter_cons_False (λ w, checkMask mask w = false)), !(filter_cons_True (λ w, checkMask mask w = true)) by congruence. simpl. f_equal. f_equal. lia.
  - by rewrite IH, (filter_cons_True (λ w, checkMask mask w = false)), !(filter_cons_False (λ w, checkMask mask w = true)) by congruence.
Qed.

Lemma requeue_wake_spec count l : ∀ k s,
  requeue_wake count l k s = (drop (reach (count - k) l) l, k + Z.of_nat (reach (count - k) l), activated (take (reach (count - k) l) l) s).
Proof.
  induction l as [|w l IH]; intros k s; cbn [requeue_wake]; [unfold reach; by rewrite Nat.min_0_r, Z.add_0_r|].
  destruct (Z.ltb_spec k count).
  - rewrite IH, reach_cons by lia. replace (count - (k + 1)) with (count - k - 1) by lia. simpl. f_equal. f_equal. lia.
  - rewrite reach_none by lia. by rewrite Z.add_0_r.
Qed.

Lemma requeue_take_spec count l : ∀ tmp k,
  requeue_take count l tmp k = (drop (reach (count - k) l) l, tmp ++ take (reach (count - k) l) l, k + Z.of_nat (reach (count - k) l)).
Proof.
  induction l as [|w l IH]; intros tmp k; cbn [requeue_take]; [unfold reach; by rewrite Nat.min_0_r, Z.add_0_r, app_nil_r|].
  destruct (Z.ltb_spec k count).
  - rewrite IH, reach_cons by lia. replace (count - (k + 1)) with (count - k - 1) by lia. simpl. rewrite <-app_assoc. f_equal. lia.
  - rewrite reach_none by lia. simpl. by rewrite Z.add_0_r, app_nil_r.
Qed.

Lemma queue_put key l s k : queue (put key l s) k = if decide (k = key) then l else queue s k.
Proof.
  unfold queue, put. destruct l; simpl; case_decide; subst; by simplify_map_eq.
Qed.

(** No empty list is kept. *)
Definition no_empty (s : t) : Prop := ∀ key, futexes s !! key ≠ Some [].

Lemma queue_nil s key : no_empty s → queue s key = [] ↔ futexes s !! key = None.
Proof. intros Hne. specialize (Hne key). unfold queue. destruct (futexes s !! key) as [[|w l]|]; simpl; split; congruence. Qed.

Lemma put_no_empty key l s : no_empty s → no_empty (put key l s).
Proof. intros Hne k. specialize (Hne k). unfold put. destruct l; simpl; destruct (decide (k = key)); subst; by simplify_map_eq. Qed.

Lemma same_queue (s s' : t) : futexes s' = futexes s → ∀ k, queue s' k = queue s k.
Proof. unfold queue. by intros ->. Qed.

Lemma suspend_spec addr tgid n mask s :
  no_empty s → no_empty (suspend_bitset addr tgid n mask s) ∧
  ∀ k, queue (suspend_bitset addr tgid n mask s) k = if decide (k = (addr, tgid)) then queue s k ++ [mkWaiter n mask] else queue s k.
Proof.
  intros Hne. unfold suspend_bitset, queue, no_empty. simpl. split; intros k; destruct (decide (k = (addr, tgid))) as [->|Hk].
  - rewrite lookup_insert_eq. destruct (futexes s !! _) as [[|? ?]|]; done.
  - rewrite lookup_insert_ne by done. apply Hne.
  - rewrite lookup_insert_eq. by destruct (futexes s !! _).
  - by rewrite lookup_insert_ne.
Qed.

Lemma wakeup_spec addr tgid count s :
  no_empty s → let l := queue s (addr, tgid) in let n := reach count l in
  ∃ s', wakeup addr tgid count s = (Z.of_nat n, s') ∧ no_empty s' ∧
    (∀ k, queue s' k = if decide (k = (addr, tgid)) then drop n l else queue s k) ∧
    waitingTcs s' = waitingTcs (woken (take n l) s) ∧ threads s' = threads (woken (take n l) s).
Proof.
  intros Hne l n. unfold wakeup. destruct (futexes s !! (addr, tgid)) as [l'|] eqn:Hl.
  - assert (l = l') as <- by (unfold l, queue; by rewrite ?Hl). rewrite wake_loop_spec, Z.sub_0_r. fold n. eexists. split; [done|].
    destruct (woken_spec (take n l) s) as (Hf & _ & _). split; [|split; [|done]].
    + apply put_no_empty. intros k. rewrite Hf. apply Hne.
    + intros k. rewrite queue_put. case_decide; [done|]. by apply same_queue.
  - assert (l = []) as Hl0 by (unfold l, queue; by rewrite ?Hl). unfold n. rewrite Hl0. unfold reach. rewrite Nat.min_0_r.
    exists s. split; [done|]. split; [done|]. split; [|done]. intros k. case_decide; [|done]. subst k. by fold l; rewrite Hl0.
Qed.

Lemma wakeup_bitset_spec addr tgid mask s :
  no_empty s → let l := queue s (addr, tgid) in let wl := filter (λ w, checkMask mask w = true) l in
  ∃ s', wakeup_bitset addr tgid mask s = (Z.of_nat (length wl), s') ∧ no_empty s' ∧
    (∀ k, queue s' k = if decide (k = (addr, tgid)) then filter (λ w, checkMask mask w = false) l else queue s k) ∧
    waitingTcs s' = waitingTcs (woken wl s) ∧ threads s' = threads (woken wl s).
Proof.
  intros Hne l wl. unfold wakeup_bitset. destruct (futexes s !! (addr, tgid)) as [l'|] eqn:Hl.
  - assert (l = l') as <- by (unfold l, queue; by rewrite ?Hl). rewrite bitset_loop_spec. fold wl. eexists. split; [done|].
    destruct (woken_spec wl s) as (Hf & _ & _). split; [|split; [|done]].
    + apply put_no_empty. intros k. rewrite Hf. apply Hne.
    + intros k. rewrite queue_put. case_decide; [done|]. by apply same_queue.
  - assert (l = []) as Hl0 by (unfold l, queue; by rewrite ?Hl). unfold wl. rewrite Hl0.
    exists s. split; [done|]. split; [done|]. split; [|done]. intros k. case_decide; [|done]. subst k. by fold l; rewrite Hl0.
Qed.

Lemma splice_spec key1 key2 tmp r (s : t) :
  no_empty s →
  if decide (tmp = [] ∧ key2 ≠ key1 ∧ queue s key2 = [])
  then splice key1 key2 tmp (Z.of_nat (length tmp)) (<[key1 := r]> (futexes s)) = Fail UndefinedBehaviour
  else ∃ m, splice key1 key2 tmp (Z.of_nat (length tmp)) (<[key1 := r]> (futexes s)) = Ok m ∧ (∀ k, m !! k ≠ Some []) ∧
    ∀ k, default [] (m !! k) = (if decide (k = key1) then r else queue s k) ++ if decide (k = key2) then tmp else [].
Proof.
  intros Hne. pose proof (queue_nil s key2 Hne) as Hq. unfold splice. destruct (decide (key2 = key1)) as [->|Hk].
  - rewrite decide_False by tauto. rewrite lookup_insert_eq, insert_insert_eq. simpl. rewrite lookup_insert_eq. eexists. split; [done|].
    split; intros k; specialize (Hne k); unfold queue; destruct (decide (k = key1)) as [->|Hk1]; destruct (r ++ tmp) eqn:Hrt; rewrite ?app_nil_r; by simplify_map_eq.
  - rewrite lookup_insert_ne by done. case_decide as Hd.
    { destruct Hd as (-> & _ & ->%Hq). done. }
    destruct (futexes s !! key2) as [l2|] eqn:Hl2.
    + simpl. rewrite lookup_insert_ne, lookup_insert_eq by done. eexists. split; [done|].
      assert (l2 ≠ []) by (intros ->; by apply (Hne key2)).
      split; intros k; specialize (Hne k); unfold queue; destruct (decide (k = key1)) as [Hk1|Hk1], (decide (k = key2)) as [Hk2|Hk2]; subst; try done;
        destruct r; rewrite ?app_nil_r; simplify_map_eq; try done; by destruct l2.
    + assert (0 <? Z.of_nat (length tmp) = true) as ->.
      { destruct tmp; [|done]. exfalso. apply Hd. split; [done|]. split; [done|]. by apply Hq. }
      simpl. rewrite lookup_insert_ne, lookup_insert_eq by done. eexists. split; [done|].
      assert (tmp ≠ []) by (intros ->; apply Hd; split; [done|]; split; [done|]; by apply Hq).
      split; intros k; specialize (Hne k); unfold queue; destruct (decide (k = key1)) as [Hk1|Hk1], (decide (k = key2)) as [Hk2|Hk2]; subst; try done;
        destruct r; rewrite ?app_nil_r; simplify_map_eq; try done; congruence.
Qed.

(** Where [requeue] is defined: somebody moves, or there is a list to go to. *)
Lemma requeue_spec addr1 tgid count count2 addr2 s :
  no_empty s → let key1 := (addr1, tgid) in let key2 := (addr2, tgid) in
  let l := queue s key1 in let n := reach count l in let m := reach count2 (drop n l) in
  if decide (l ≠ [] ∧ m = 0%nat ∧ key2 ≠ key1 ∧ queue s key2 = []) then requeue addr1 tgid count count2 addr2 s = Fail UndefinedBehaviour
  else ∃ s', requeue addr1 tgid count count2 addr2 s = Ok (Z.of_nat (n + m), s') ∧ no_empty s' ∧
    (∀ k, queue s' k = (if decide (k = key1) then drop m (drop n l) else queue s k) ++ if decide (k = key2) then take m (drop n l) else []) ∧
    waitingTcs s' = waitingTcs s ∧ threads s' = threads (activated (take n l) s).
Proof.
  intros Hne key1 key2 l n m. unfold requeue. fold key1 key2. destruct (futexes s !! key1) as [l'|] eqn:Hl.
  2:{ assert (l = []) as Hl0 by (unfold l, queue; by rewrite ?Hl). rewrite decide_False by tauto. exists s.
      assert (n = 0%nat) as Hn by (unfold n; rewrite Hl0; unfold reach; by rewrite Nat.min_0_r).
      assert (m = 0%nat) as Hm by (unfold m; rewrite Hl0, drop_nil; unfold reach; by rewrite Nat.min_0_r).
      rewrite Hn, Hm, Hl0. split; [done|]. split; [done|]. split; [|done]. intros k. rewrite drop_nil, take_nil.
      repeat case_decide; subst; rewrite ?app_nil_r; done. }
  assert (l = l') as <- by (unfold l, queue; by rewrite ?Hl). assert (l ≠ []) as Hl0 by (intros ->; by apply (Hne key1)).
  rewrite requeue_wake_spec, Z.sub_0_r. fold n. rewrite requeue_take_spec, Z.sub_0_r. fold m. rewrite !Z.add_0_l. cbn [app].
  destruct (activated_spec (take n l) s) as (Hf & Hw & _). set (s1 := activated (take n l) s) in *. rewrite Hf.
  assert (length (take m (drop n l)) = m) as Hlen by (rewrite length_take; unfold m, reach; lia).
  pose proof (splice_spec key1 key2 (take m (drop n l)) (drop m (drop n l)) s Hne) as Hsp. rewrite Hlen in Hsp.
  assert (take m (drop n l) = [] ↔ m = 0%nat) as Hm0 by (rewrite <-length_zero_iff_nil, Hlen; done).
  case_decide as Hd; case_decide as Hd'; try tauto; [by rewrite Hsp|]. destruct Hsp as (mp & -> & Hne' & Hq).
  rewrite res_bind_Ok. eexists. split; [f_equal; f_equal; lia|]. done.
Qed.

(** ** Runs *)

Definition sleepers (s : t) (key : FutexKey) : list nat := tc <$> queue s key.

Record inv (s : t) : Prop := {
  iv_no_empty : no_empty s;
  iv_nodup key : NoDup (sleepers s key);
  iv_once k1 k2 n : n ∈ sleepers s k1 → n ∈ sleepers s k2 → k1 = k2;
  iv_asleep key n : n ∈ sleepers s key → threads s !! n = Some Suspended ∧ n ∈ waitingTcs s;
  iv_queued n : threads s !! n = Some Suspended → ∃ key, n ∈ sleepers s key;
}.

(** An active thread waits. *)
Lemma suspend_inv addr tgid n mask s : inv s → threads s !! n = Some Active → inv (suspend_bitset addr tgid n mask s).
Proof.
  intros [Hne Hnd Hon Has Hqu] Hn. destruct (suspend_spec addr tgid n mask s Hne) as [Hne' Hq]. set (s' := suspend_bitset _ _ _ _ _) in *.
  assert (∀ k x, x ∈ sleepers s' k ↔ x ∈ sleepers s k ∨ k = (addr, tgid) ∧ x = n) as Hs.
  { intros k x. unfold sleepers. rewrite Hq. case_decide; [|tauto]. rewrite fmap_app, elem_of_app. simpl. rewrite list_elem_of_singleton. tauto. }
  assert (∀ k, n ∉ sleepers s k) as Hfresh by (intros k Hk; destruct (Has k n Hk); congruence).
  assert (∀ x, threads s' !! x = if decide (x = n) then Some Suspended else threads s !! x) as Ht.
  { intros x. unfold s', suspend_bitset. simpl. case_decide; subst; by simplify_map_eq. }
  constructor; [done|..].
  - intros k. unfold sleepers. rewrite Hq. case_decide; [|apply Hnd]. rewrite fmap_app. apply NoDup_app. split; [apply Hnd|].
    split; [|apply NoDup_singleton]. intros x Hx ->%list_elem_of_singleton. by apply (Hfresh k).
  - intros k1 k2 x [H1|[-> ->]]%Hs [H2|[-> Hx]]%Hs; subst; try done; [by apply (Hon _ _ x)|by destruct (Hfresh k1)|by destruct (Hfresh k2)].
  - intros k x Hx%Hs. rewrite Ht. unfold s', suspend_bitset. simpl. destruct Hx as [Hx|[_ ->]]; [|rewrite decide_True by done; set_solver].
    rewrite decide_False by (intros ->; by apply (Hfresh k)). destruct (Has k x Hx). set_solver.
  - intros x. rewrite Ht. case_decide as Hx; [intros _; exists (addr, tgid); apply Hs; tauto|]. intros [k Hk]%Hqu. exists k. apply Hs. by left.
Qed.

(** Some of a list are woken, and the others stay. *)
Lemma wake_inv key W R s s' :
  inv s → no_empty s' → queue s key ≡ₚ W ++ R → (∀ k, queue s' k = if decide (k = key) then R else queue s k) →
  (∀ n, threads s' !! n = if decide (n ∈ tc <$> W) then Some Active else threads s !! n) →
  (∀ n, n ∈ waitingTcs s → n ∉ tc <$> W → n ∈ waitingTcs s') → inv s'.
Proof.
  intros [Hne Hnd Hon Has Hqu] Hne' Hp Hq Ht Hw.
  assert (sleepers s key ≡ₚ (tc <$> W) ++ (tc <$> R)) as Hpt by (unfold sleepers; by rewrite Hp, fmap_app).
  pose proof (Hnd key) as Hk. rewrite Hpt in Hk. apply NoDup_app in Hk as (_ & Hdis & HR).
  assert (∀ n, n ∈ sleepers s key ↔ n ∈ tc <$> W ∨ n ∈ tc <$> R) as Hk1 by (intros n; by rewrite Hpt, elem_of_app).
  assert (∀ k, sleepers s' k = if decide (k = key) then tc <$> R else sleepers s k) as Hs by (intros k; unfold sleepers; rewrite Hq; by case_decide).
  assert (∀ k n, n ∈ sleepers s' k → n ∈ sleepers s k ∧ n ∉ tc <$> W) as Hsub.
  { intros k n. rewrite Hs. case_decide as Hkk; [subst; intros Hn; split; [apply Hk1; by right|intros ?; by apply (Hdis n)]|].
    intros Hn. split; [done|]. intros HW. apply Hkk, (Hon _ _ n); [done|]. apply Hk1. by left. }
  constructor; [done|..].
  - intros k. rewrite Hs. by case_decide.
  - intros k1 k2 n [H1 _]%Hsub [H2 _]%Hsub. by apply (Hon _ _ n).
  - intros k n [Hn HW]%Hsub. destruct (Has k n Hn). rewrite Ht, decide_False by done. auto.
  - intros n. rewrite Ht. case_decide as HW; [done|]. intros [k Hk]%Hqu. exists k. rewrite Hs. case_decide as Hkk; [|done].
    subst k. by apply Hk1 in Hk as [?|?].
Qed.

(** Some of a list go to another. *)
Lemma move_inv key1 key2 M R s s' :
  inv s → no_empty s' → queue s key1 ≡ₚ M ++ R →
  (∀ k, queue s' k = (if decide (k = key1) then R else queue s k) ++ if decide (k = key2) then M else []) →
  threads s' = threads s → waitingTcs s' = waitingTcs s → inv s'.
Proof.
  intros [Hne Hnd Hon Has Hqu] Hne' Hp Hq Ht Hw.
  assert (sleepers s key1 ≡ₚ (tc <$> M) ++ (tc <$> R)) as Hpt by (unfold sleepers; by rewrite Hp, fmap_app).
  pose proof (Hnd key1) as Hk. rewrite Hpt in Hk. apply NoDup_app in Hk as (HM & Hdis & HR).
  assert (∀ n, n ∈ sleepers s key1 ↔ n ∈ tc <$> M ∨ n ∈ tc <$> R) as Hk1 by (intros n; by rewrite Hpt, elem_of_app).
  assert (∀ k, sleepers s' k = (if decide (k = key1) then tc <$> R else sleepers s k) ++ if decide (k = key2) then tc <$> M else []) as Hs.
  { intros k. unfold sleepers. rewrite Hq, fmap_app. by repeat case_decide. }
  assert (∀ k n, n ∈ sleepers s' k ↔ n ∈ sleepers s k ∧ n ∉ tc <$> M ∨ k = key2 ∧ n ∈ tc <$> M) as Hin.
  { intros k n. rewrite Hs, elem_of_app. specialize (Hdis n).
    assert (k ≠ key1 → n ∈ sleepers s k → n ∉ tc <$> M) as Hno by (intros Hkk H1 H2; apply Hkk, (Hon _ _ n H1), Hk1; by left).
    specialize (Hk1 n). clear Hnd Hon Has Hqu Hq Hs HM HR Hpt Hp. pose proof (not_elem_of_nil n).
    destruct (decide (k = key1)) as [Hd1|Hd1], (decide (k = key2)) as [Hd2|Hd2]; try subst k; tauto. }
  constructor; [done|..].
  - intros k. rewrite Hs. apply NoDup_app. split; [case_decide; [done|apply Hnd]|]. split; [|case_decide; [done|constructor]].
    intros n Hn. destruct (decide (k = key2)); [|by intros ?%elem_of_nil]. intros HMn. destruct (decide (k = key1)) as [|Hkk]; [by apply (Hdis n)|].
    apply Hkk, (Hon _ _ n Hn), Hk1. by left.
  - intros k1 k2 n [[H1 H1']|[-> H1]]%Hin [[H2 H2']|[-> H2]]%Hin; try done. by apply (Hon _ _ n).
  - intros k n Hn%Hin. rewrite Ht, Hw. destruct Hn as [[Hn _]|[_ Hn]]; [by apply (Has k)|]. apply (Has key1), Hk1. by left.
  - intros n. rewrite Ht. intros [k Hk]%Hqu. destruct (decide (n ∈ tc <$> M)); [exists key2|exists k]; apply Hin; tauto.
Qed.

(** The operations a thread may call, and their results. *)
Inductive call :=
  | Wait (addr tgid bits : Z)
  | Wake (addr tgid count : Z)
  | WakeBitset (addr tgid bits : Z)
  | Requeue (addr1 tgid count count2 addr2 : Z).

Definition exec (n : nat) (c : call) (s : t) : res (Z * t) :=
  match c with
  | Wait addr tgid mask => Ok (0, suspend_bitset addr tgid n mask s)
  | Wake addr tgid count => Ok (wakeup addr tgid count s)
  | WakeBitset addr tgid mask => Ok (wakeup_bitset addr tgid mask s)
  | Requeue addr1 tgid count count2 addr2 => requeue addr1 tgid count count2 addr2 s
  end.

(** Active threads call in any order. *)
Inductive run : t → list (nat * call) → t → Prop :=
  | run_nil s : run s [] s
  | run_call s n c r s1 tr s2 : threads s !! n = Some Active → exec n c s = Ok (r, s1) → run s1 tr s2 → run s ((n, c) :: tr) s2.

Lemma wakeup_inv addr tgid count s : inv s → inv (wakeup addr tgid count s).2.
Proof.
  intros Hi. destruct (wakeup_spec addr tgid count s (iv_no_empty _ Hi)) as (s' & -> & Hne & Hq & Hw & Ht). simpl.
  set (l := queue s (addr, tgid)) in *. set (n := reach count l) in *. destruct (woken_spec (take n l) s) as (_ & Hws & Hts).
  eapply (wake_inv (addr, tgid) (take n l) (drop n l)); try done; [by rewrite take_drop|by rewrite Ht|]. intros x. rewrite Hw, Hws. done.
Qed.

Lemma wakeup_bitset_inv addr tgid mask s : inv s → inv (wakeup_bitset addr tgid mask s).2.
Proof.
  intros Hi. destruct (wakeup_bitset_spec addr tgid mask s (iv_no_empty _ Hi)) as (s' & -> & Hne & Hq & Hw & Ht). simpl.
  set (l := queue s (addr, tgid)) in *. set (W := filter (λ w, checkMask mask w = true) l) in *. destruct (woken_spec W s) as (_ & Hws & Hts).
  eapply (wake_inv (addr, tgid) W (filter (λ w, checkMask mask w = false) l)); try done; [|by rewrite Ht|intros x; by rewrite Hw, Hws].
  fold l. unfold W. clear. induction l as [|w l IH]; [done|]. destruct (checkMask mask w) eqn:Hm.
  - rewrite (filter_cons_True (λ w, checkMask mask w = true)), (filter_cons_False (λ w, checkMask mask w = false)) by congruence. simpl. by rewrite IH at 1.
  - rewrite (filter_cons_False (λ w, checkMask mask w = true)), (filter_cons_True (λ w, checkMask mask w = false)) by congruence.
    rewrite IH at 1. apply Permutation_middle.
Qed.

Lemma requeue_inv addr1 tgid count count2 addr2 s r s' : inv s → requeue addr1 tgid count count2 addr2 s = Ok (r, s') → inv s'.
Proof.
  intros Hi Hr. pose proof (requeue_spec addr1 tgid count count2 addr2 s (iv_no_empty _ Hi)) as Hsp. cbv zeta in Hsp.
  set (key1 := (addr1, tgid)) in *. set (key2 := (addr2, tgid)) in *. set (l := queue s key1) in *.
  set (n := reach count l) in *. set (m := reach count2 (drop n l)) in *. case_decide; [congruence|].
  destruct Hsp as (s2 & Hr' & Hne & Hq & Hw & Ht). rewrite Hr in Hr'. injection Hr' as -> <-.
  destruct (activated_spec (take n l) s) as (Hf & Hwa & Hta). set (s1 := put key1 (drop n l) (activated (take n l) s)).
  assert (∀ k, queue s1 k = if decide (k = key1) then drop n l else queue s k) as Hq1.
  { intros k. unfold s1. rewrite queue_put. case_decide; [done|by apply same_queue]. }
  assert (inv s1) as Hi1.
  { eapply (wake_inv key1 (take n l) (drop n l) s); try done; [|by rewrite take_drop|intros x; unfold s1; simpl; by rewrite Hwa].
    apply put_no_empty. intros k. rewrite Hf. apply (iv_no_empty _ Hi). }
  eapply (move_inv key1 key2 (take m (drop n l)) (drop m (drop n l)) s1); try done.
  - rewrite Hq1, decide_True by done. by rewrite take_drop.
  - intros k. rewrite Hq, Hq1. by destruct (decide (k = key1)).
  - by rewrite Hw; symmetry.
Qed.

Lemma exec_inv n c s r s' : inv s → threads s !! n = Some Active → exec n c s = Ok (r, s') → inv s'.
Proof.
  intros Hi Hn He. destruct c; simpl in He.
  - injection He as <- <-. by apply suspend_inv.
  - injection He as He. pose proof (wakeup_inv addr tgid count s Hi) as H. by rewrite He in H.
  - injection He as He. pose proof (wakeup_bitset_inv addr tgid bits s Hi) as H. by rewrite He in H.
  - by eapply requeue_inv.
Qed.

Lemma run_inv s tr s' : run s tr s' → inv s → inv s'.
Proof. induction 1; [done|]. intros Hi. apply IHrun. by eapply exec_inv. Qed.

(** No thread waits yet. *)
Definition fresh (s : t) : Prop := futexes s = ∅ ∧ ∀ n, threads s !! n ≠ Some Suspended.

Lemma fresh_inv s : fresh s → inv s.
Proof.
  intros [Hf Ht]. assert (∀ k, sleepers s k = []) as Hs by (intros k; unfold sleepers, queue; by rewrite Hf, lookup_empty).
  constructor.
  - intros k. by rewrite Hf, lookup_empty.
  - intros k. rewrite Hs. constructor.
  - intros k1 k2 n. rewrite Hs. by intros ?%elem_of_nil.
  - intros k n. rewrite Hs. by intros ?%elem_of_nil.
  - intros n Hn. by destruct (Ht n).
Qed.

(** How many threads of a list a call wakes at least, if they are there. *)
Definition wakes (key : FutexKey) (c : call) : nat :=
  match c with Wake addr tgid count => if decide ((addr, tgid) = key) then Z.to_nat count else 0%nat | _ => 0%nat end.

(** A call that moves threads away from a list. *)
Definition moves_from (key : FutexKey) (c : call) : Prop :=
  match c with Requeue addr1 tgid _ _ _ => (addr1, tgid) = key | _ => False end.

Lemma filter_position {A} (P : A → Prop) `{∀ x, Decision (P x)} (l : list A) i x :
  l !! i = Some x → P x → ∃ j, (j <= i)%nat ∧ filter P l !! j = Some x.
Proof.
  revert i. induction l as [|y l IH]; intros i Hi HP; [done|]. destruct i as [|i]; simpl in Hi.
  - injection Hi as ->. exists 0%nat. by rewrite filter_cons_True.
  - destruct (IH i Hi HP) as (j & Hj & Hf). destruct (decide (P y)).
    + exists (S j). rewrite filter_cons_True by done. split; [lia|done].
    + exists j. rewrite filter_cons_False by done. split; [lia|done].
Qed.

Lemma taken_active l s w n : w ∈ l → tc w = n → threads (woken l s) !! n = Some Active.
Proof.
  intros Hw <-. destruct (woken_spec l s) as (_ & _ & ->). rewrite decide_True; [done|]. by apply list_elem_of_fmap_2.
Qed.

(** A call brings a waiting thread forward by as many as it wakes, or wakes it. *)
Lemma exec_forward m c s r s1 key i w :
  inv s → exec m c s = Ok (r, s1) → ¬ moves_from key c → queue s key !! i = Some w →
  threads s1 !! tc w = Some Active ∨ ∃ j, (j + wakes key c <= i)%nat ∧ queue s1 key !! j = Some w.
Proof.
  intros Hi He Hm Hw. pose proof (iv_no_empty _ Hi) as Hne. destruct c as [addr tgid bits|addr tgid count|addr tgid bits|addr1 tgid count count2 addr2]; simpl in *.
  - injection He as <- <-. right. exists i. split; [lia|]. destruct (suspend_spec addr tgid m bits s Hne) as [_ ->].
    case_decide; [|done]. by apply lookup_app_l_Some.
  - destruct (wakeup_spec addr tgid count s Hne) as (s' & Hr & _ & Hq & _ & Ht). rewrite Hr in He. injection He as <- <-.
    destruct (decide ((addr, tgid) = key)) as [Hk|Hk]; [|right; exists i; rewrite Hq, decide_False by congruence; split; [lia|done]].
    subst key. pose proof (lookup_lt_Some _ _ _ Hw). destruct (decide (i < Z.to_nat count)%nat) as [Hlt|Hge].
    + left. rewrite Ht. eapply taken_active; [|done]. apply (list_elem_of_lookup_2 _ i). rewrite lookup_take_lt; [done|unfold reach; lia].
    + right. exists (i - Z.to_nat count)%nat. split; [lia|]. rewrite Hq, decide_True by done. rewrite lookup_drop.
      unfold reach. rewrite <-Hw. f_equal. lia.
  - destruct (wakeup_bitset_spec addr tgid bits s Hne) as (s' & Hr & _ & Hq & _ & Ht). rewrite Hr in He. injection He as <- <-.
    rewrite Hq. destruct (decide (key = (addr, tgid))) as [->|]; [|right; exists i; split; [lia|done]]. destruct (checkMask bits w) eqn:Hc.
    + left. rewrite Ht. eapply taken_active; [|done]. apply list_elem_of_filter. split; [done|]. by eapply list_elem_of_lookup_2.
    + right. destruct (filter_position (λ w, checkMask bits w = false) _ _ _ Hw Hc) as (j & Hj & Hf). exists j. split; [lia|done].
  - pose proof (requeue_spec addr1 tgid count count2 addr2 s Hne) as Hsp. cbv zeta in Hsp. case_decide; [congruence|].
    destruct Hsp as (s' & Hr & _ & Hq & _). rewrite Hr in He. injection He as <- <-. right. exists i. split; [lia|].
    rewrite Hq, (decide_False (P := key = (addr1, tgid))) by congruence. by apply lookup_app_l_Some.
Qed.

Definition total_wakes (key : FutexKey) (tr : list (nat * call)) : nat := sum_list ((λ e, wakes key e.2) <$> tr).

Lemma run_forward s tr s' key i w :
  run s tr s' → inv s → Forall (λ e, ¬ moves_from key e.2) tr → queue s key !! i = Some w →
  (i < total_wakes key tr)%nat → ∃ tr1 s1 tr2, tr = tr1 ++ tr2 ∧ run s tr1 s1 ∧ run s1 tr2 s' ∧ threads s1 !! tc w = Some Active.
Proof.
  intros Hr. revert i. induction Hr as [s|s m c r s1 tr s2 Hm He Hr IH]; intros i Hi Hmv Hw Hlt; [unfold total_wakes in Hlt; simpl in Hlt; lia|].
  apply Forall_cons in Hmv as [Hmc Hmv]. simpl in Hmc. pose proof (exec_inv _ _ _ _ _ Hi Hm He) as Hi1.
  destruct (exec_forward _ _ _ _ _ key i w Hi He Hmc Hw) as [Ha|(j & Hj & Hw1)].
  - exists [(m, c)], s1, tr. split; [done|]. split; [|done]. econstructor; [done..|constructor].
  - change (total_wakes key ((m, c) :: tr)) with (wakes key c + total_wakes key tr)%nat in Hlt.
    destruct (IH j Hi1 Hmv Hw1) as (tr1 & s3 & tr2 & -> & H1 & H2 & H3); [lia|].
    exists ((m, c) :: tr1), s3, tr2. split; [done|]. split; [|done]. by econstructor.
Qed.

(** C12: The futexes over every sequence of calls by active threads, from a state in
    which nobody waits: a thread is suspended exactly if it is in a list, in one list
    and at one place of it, and [is_waiting] holds of it. A wake-up of [count] threads
    wakes the first [count] of its list, which waited longest, reports how many, and
    leaves everyone else where they were; a wake-up by mask wakes exactly those whose
    mask meets it; a requeue wakes the first [count], appends the next [count2] to the
    second list in their order and reports the sum, and has no defined behaviour
    exactly if threads wait, none is to move and nobody waits at the second address. *)
Theorem futex_runs s0 tr s :
  fresh s0 → run s0 tr s →
  (∀ n, threads s !! n = Some Suspended ↔ ∃ key, n ∈ sleepers s key) ∧
  (∀ n k1 k2 i j, sleepers s k1 !! i = Some n → sleepers s k2 !! j = Some n → k1 = k2 ∧ i = j) ∧
  (∀ n, threads s !! n = Some Suspended → is_waiting n s = true) ∧
  (∀ addr tgid count, ∃ s', let l := queue s (addr, tgid) in let n := Nat.min (Z.to_nat count) (length l) in
     wakeup addr tgid count s = (Z.of_nat n, s') ∧
     (∀ k, queue s' k = if decide (k = (addr, tgid)) then drop n l else queue s k) ∧
     (∀ x, threads s' !! x = if decide (x ∈ take n (sleepers s (addr, tgid))) then Some Active else threads s !! x)) ∧
  (∀ addr tgid mask, ∃ s', let l := queue s (addr, tgid) in let hit := filter (λ w, checkMask mask w = true) l in
     wakeup_bitset addr tgid mask s = (Z.of_nat (length hit), s') ∧
     (∀ k, queue s' k = if decide (k = (addr, tgid)) then filter (λ w, checkMask mask w = false) l else queue s k) ∧
     (∀ x, threads s' !! x = if decide (x ∈ tc <$> hit) then Some Active else threads s !! x)) ∧
  (∀ addr1 tgid count count2 addr2,
     let l := queue s (addr1, tgid) in let n := Nat.min (Z.to_nat count) (length l) in
     let m := Nat.min (Z.to_nat count2) (length l - n) in
     if decide (l ≠ [] ∧ m = 0%nat ∧ addr2 ≠ addr1 ∧ queue s (addr2, tgid) = [])
     then requeue addr1 tgid count count2 addr2 s = Fail UndefinedBehaviour
     else ∃ s', requeue addr1 tgid count count2 addr2 s = Ok (Z.of_nat (n + m), s') ∧
       (∀ k, queue s' k = (if decide (k = (addr1, tgid)) then drop (n + m) l else queue s k) ++
                          if decide (k = (addr2, tgid)) then take m (drop n l) else []) ∧
       (∀ x, threads s' !! x = if decide (x ∈ take n (sleepers s (addr1, tgid))) then Some Active else threads s !! x)).
Proof.
  intros Hf Hr. pose proof (run_inv _ _ _ Hr (fresh_inv _ Hf)) as Hi. pose proof (iv_no_empty _ Hi) as Hne. split_and!.
  - intros n. split; [apply (iv_queued _ Hi)|]. intros [key Hk]. by apply (iv_asleep _ Hi key).
  - intros n k1 k2 i j H1 H2. assert (k1 = k2) as -> by (apply (iv_once _ Hi _ _ n); by eapply list_elem_of_lookup_2).
    split; [done|]. by eapply NoDup_lookup; [apply (iv_nodup _ Hi k2)|..].
  - intros n [key Hk]%(iv_queued _ Hi). apply bool_decide_eq_true. by apply (iv_asleep _ Hi key).
  - intros addr tgid count. destruct (wakeup_spec addr tgid count s Hne) as (s' & Hw & _ & Hq & _ & Ht). exists s'. split; [done|].
    split; [done|]. intros x. rewrite Ht. unfold sleepers. rewrite <-fmap_take. by destruct (woken_spec (take (reach count (queue s (addr, tgid))) (queue s (addr, tgid))) s) as (_ & _ & ->).
  - intros addr tgid mask. destruct (wakeup_bitset_spec addr tgid mask s Hne) as (s' & Hw & _ & Hq & _ & Ht). exists s'. split; [done|].
    split; [done|]. intros x. rewrite Ht. by destruct (woken_spec (filter (λ w, checkMask mask w = true) (queue s (addr, tgid))) s) as (_ & _ & ->).
  - intros addr1 tgid count count2 addr2 l n m. pose proof (requeue_spec addr1 tgid count count2 addr2 s Hne) as Hsp. cbv zeta in Hsp.
    change (reach count (queue s (addr1, tgid))) with n in Hsp. fold l in Hsp. unfold reach in Hsp. rewrite length_drop in Hsp. fold m in Hsp.
    rewrite (decide_ext _ (l ≠ [] ∧ m = 0%nat ∧ addr2 ≠ addr1 ∧ queue s (addr2, tgid) = [])) in Hsp by (split; intros (? & ? & ? & ?); split_and!; congruence).
    case_decide; [done|]. destruct Hsp as (s' & Hw & _ & Hq & _ & Ht). exists s'. split; [done|]. split; [intros k; by rewrite Hq, drop_drop|].
    intros x. rewrite Ht. unfold sleepers. fold l. rewrite <-fmap_take. by destruct (activated_spec (take n l) s) as (_ & _ & ->).
Qed.

(** C13: A waiting thread is woken: in every sequence of calls in which nobody requeues
    threads away from its list, once the counts of the wake-ups of the list exceed its
    place the thread has been active, whatever else is called in between. *)
Theorem waiter_is_woken s0 tr0 s tr s' key i n :
  fresh s0 → run s0 tr0 s → sleepers s key !! i = Some n → run s tr s' →
  Forall (λ e, ¬ moves_from key e.2) tr → (i < total_wakes key tr)%nat →
  ∃ tr1 s1 tr2, tr = tr1 ++ tr2 ∧ run s tr1 s1 ∧ run s1 tr2 s' ∧ threads s1 !! n = Some Active.
Proof.
  intros Hf Hr0 Hn Hr Hm Hlt. unfold sleepers in Hn. rewrite list_lookup_fmap in Hn.
  destruct (queue s key !! i) as [w|] eqn:Hw; [|done]. injection Hn as <-.
  eapply run_forward; try done. eapply run_inv; [done|]. by apply fresh_inv.
Qed.

(** ** A concrete run *)

Fixpoint play (s : t) (tr : list (nat * call)) : option t :=
  match tr with
  | [] => Some s
  | (n, c) :: tr =>
      if bool_decide (threads s !! n = Some Active) then match exec n c s with Ok (_, s) => play s tr | Fail _ => None end else None
  end.

Lemma play_run tr : ∀ s s', play s tr = Some s' → run s tr s'.
Proof.
  induction tr as [|[n c] tr IH]; intros s s' Hp; cbn [play] in Hp; [injection Hp as <-; constructor|].
  destruct (bool_decide (threads s !! n = Some Active)) eqn:Hn; [|done]. apply bool_decide_eq_true in Hn.
  destruct (exec n c s) as [[r s1]|] eqn:He; [|done]. econstructor; eauto.
Qed.

Definition three : t := mk ∅ ∅ (<[0%nat := Active]> (<[1%nat := Active]> (<[2%nat := Active]> ∅))).
Definition two_wait : list (nat * call) := [(0%nat, Wait 64 7 (-1)); (1%nat, Wait 64 7 2)].
Definition asleep : t := default three (play three two_wait).

Lemma three_fresh : fresh three.
Proof.
  split; [done|]. intros n Hn. assert (map_Forall (λ _ st, st ≠ Suspended) (threads three)) as H; [|by apply (H n Suspended)].
  by apply (bool_decide_unpack _); vm_compute.
Qed.

Lemma futex_runs_witness : (∃ s', wakeup 64 7 1 asleep = (1, s') ∧ sleepers s' (64, 7) = [1%nat]) ∧ is_waiting 1 asleep = true.
Proof.
  destruct (futex_runs three two_wait asleep three_fresh (play_run two_wait three asleep eq_refl)) as (_ & _ & Hw & Hwake & _). split; [|by apply Hw].
  destruct (Hwake 64 7 1) as (s' & Hr & Hq & _). exists s'. split; [exact Hr|]. unfold sleepers. rewrite Hq. reflexivity.
Defined.

Lemma waiter_is_woken_witness :
  ∃ tr1 s1 tr2, [(2%nat, Wake 64 7 1); (2%nat, Wait 96 7 (-1)); (0%nat, Wake 64 7 1)] = tr1 ++ tr2 ∧ run asleep tr1 s1 ∧ threads s1 !! 1%nat = Some Active.
Proof.
  pose (s' := default three (play asleep [(2%nat, Wake 64 7 1); (2%nat, Wait 96 7 (-1)); (0%nat, Wake 64 7 1)])).
  destruct (waiter_is_woken three two_wait asleep [(2%nat, Wake 64 7 1); (2%nat, Wait 96 7 (-1)); (0%nat, Wake 64 7 1)] s' (64, 7) 1 1) as (tr1 & s1 & tr2 & H1 & H2 & _ & H4).
  - exact three_fresh.
  - apply play_run. vm_compute. reflexivity.
  - reflexivity.
  - apply play_run. vm_compute. reflexivity.
  - repeat constructor; intros [].
  - vm_compute. lia.
  - exists tr1, s1, tr2. split; [exact H1|]. split; [exact H2|exact H4].
Defined.

(** A requeue that wakes and moves nobody needs a list at the second address, ... *)
Lemma requeue_to_nowhere : requeue 64 7 0 0 96 asleep = Fail UndefinedBehaviour.
Proof. reflexivity. Qed.

(** ... and one that wakes a thread leaves it among the waiting ones. *)
Lemma requeue_still_waiting : ∃ s, requeue 64 7 1 1 96 asleep = Ok (2, s) ∧ threads s !! 0%nat = Some Active ∧ is_waiting 0 s = true.
Proof. eexists. split; [vm_compute; reflexivity|]. done. Qed.

End Futex.
