(* ===== verification/FutexCall.v ===== *)
(** The [futex] system call ([futexFunc] of [sim/syscall_emul.hh]): the word in the
    memory of the process is compared or changed, and threads wait or are woken, in
    one step. *)

From S2P Require Import Prelude Bits AddrRange Host PageTable PortProxy FreeList MemPool Vma MemState Process VirtMem ProcessInv.
From S2P Require Import Fault View CInt Futex.
Import Intmath Host PortProxy.

Module FutexCall.
Import Process (memState, mem, pageSize, virt_readBlob, virt_writeBlob, fixupFault).
Import VirtMem ProcessInv Fault View.

(** [kern/linux/linux.hh]; the constants are [unsigned]. *)
Definition TGT_FUTEX_WAIT := 0.
Definition TGT_FUTEX_WAKE := 1.
Definition TGT_FUTEX_REQUEUE := 3.
Definition TGT_FUTEX_CMP_REQUEUE := 4.
Definition TGT_FUTEX_WAKE_OP := 5.
Definition TGT_FUTEX_WAIT_BITSET := 9.
Definition TGT_FUTEX_WAKE_BITSET := 10.
Definition TGT_EWOULDBLOCK := 11.
Definition TGT_FUTEX_PRIVATE_FLAG := 128.
Definition TGT_FUTEX_CLOCK_REALTIME_FLAG := 256.
Definition TGT_FUTEX_OP_SET := 0.
Definition TGT_FUTEX_OP_ADD := 1.
Definition TGT_FUTEX_OP_OR := 2.
Definition TGT_FUTEX_OP_ANDN := 3.
Definition TGT_FUTEX_OP_XOR := 4.
Definition TGT_FUTEX_OP_ARG_SHIFT := 8.
Definition TGT_FUTEX_OP_CMP_EQ := 0.
Definition TGT_FUTEX_OP_CMP_NE := 1.
Definition TGT_FUTEX_OP_CMP_LT := 2.
Definition TGT_FUTEX_OP_CMP_LE := 3.
Definition TGT_FUTEX_OP_CMP_GT := 4.
Definition TGT_FUTEX_OP_CMP_GE := 5.
Definition ENOSYS := 38.

(** ** The operation encoded in [val3] *)

(** [0xf0000000] is unsigned, so the operation is too. *)
Definition wake_newval (oldval val3 : Z) : res Z :=
  let wake_oparg := Z.shiftr (Z.land val3 0xfff000) 12 in
  let wake_op := Z.shiftr (Z.land (u32 val3) 0xf0000000) 28 in
  wake_oparg ← (if Z.shiftr (Z.land wake_op TGT_FUTEX_OP_ARG_SHIFT) 3 =? 1
                then defined! (wake_oparg <? 32); Ok (AddrRange.s32 (Z.shiftl 1 wake_oparg))
                else Ok wake_oparg);
  let wake_op := Z.ldiff wake_op TGT_FUTEX_OP_ARG_SHIFT in
  if wake_op =? TGT_FUTEX_OP_SET then Ok wake_oparg
  else if wake_op =? TGT_FUTEX_OP_ADD then CInt.int (oldval + wake_oparg)
  else if wake_op =? TGT_FUTEX_OP_OR then Ok (Z.lor oldval wake_oparg)
  else if wake_op =? TGT_FUTEX_OP_ANDN then Ok (Z.ldiff oldval wake_oparg)
  else if wake_op =? TGT_FUTEX_OP_XOR then Ok (Z.lxor oldval wake_oparg)
  else Ok oldval.

Definition is_wake2 (oldval val3 : Z) : bool :=
  let wake_cmparg := Z.land val3 0xfff in
  let wake_cmp := Z.shiftr (Z.land val3 0xf000000) 24 in
  if wake_cmp =? TGT_FUTEX_OP_CMP_EQ then oldval =? wake_cmparg
  else if wake_cmp =? TGT_FUTEX_OP_CMP_NE then negb (oldval =? wake_cmparg)
  else if wake_cmp =? TGT_FUTEX_OP_CMP_LT then oldval <? wake_cmparg
  else if wake_cmp =? TGT_FUTEX_OP_CMP_LE then oldval <=? wake_cmparg
  else if wake_cmp =? TGT_FUTEX_OP_CMP_GT then wake_cmparg <? oldval
  else if wake_cmp =? TGT_FUTEX_OP_CMP_GE then wake_cmparg <=? oldval
  else false.

(** The fields of [val3]. *)
Definition encoded (op oparg cmp cmparg : Z) : Z := AddrRange.s32 (op * 2 ^ 28 + cmp * 2 ^ 24 + oparg * 2 ^ 12 + cmparg).

Record fields (op oparg cmp cmparg : Z) : Prop := {
  fd_op : 0 <= op < 16;
  fd_oparg : 0 <= oparg < 2 ^ 12;
  fd_cmp : 0 <= cmp < 16;
  fd_cmparg : 0 <= cmparg < 2 ^ 12;
}.

Lemma land_field x n i : 0 <= n → 0 <= i → Z.shiftr (Z.land x (Z.shiftl (Z.ones n) i)) i = (x / 2 ^ i) mod 2 ^ n.
Proof. intros Hn Hi. rewrite Z.shiftr_land, Z.shiftr_shiftl_l, Z.sub_diag, Z.shiftl_0_r, Z.land_ones, Z.shiftr_div_pow2 by lia. done. Qed.

Lemma encoded_fields op oparg cmp cmparg :
  fields op oparg cmp cmparg → let v := encoded op oparg cmp cmparg in
  (v / 2 ^ 12) mod 2 ^ 12 = oparg ∧ (v / 2 ^ 24) mod 2 ^ 4 = cmp ∧ v mod 2 ^ 12 = cmparg ∧ (u32 v / 2 ^ 28) mod 2 ^ 4 = op.
Proof.
  intros [Ho Hp Hc Hd]. unfold encoded, AddrRange.s32, u32. set (V := op * 2 ^ 28 + cmp * 2 ^ 24 + oparg * 2 ^ 12 + cmparg). simpl.
  assert (0 <= V < 2 ^ 32) as HV by (unfold V; lia).
  assert ((V + 2 ^ 31) mod 2 ^ 32 - 2 ^ 31 = V ∨ (V + 2 ^ 31) mod 2 ^ 32 - 2 ^ 31 = V - 2 ^ 32) as [-> | ->] by zlia;
    (split; [|split; [|split]]); unfold V in *; zlia.
Qed.

(** What the fields stand for: the operation on the word, and the comparison. *)
Definition operate (op old arg : Z) : res Z :=
  match op with
  | 0 => Ok arg
  | 1 => CInt.int (old + arg)
  | 2 => Ok (Z.lor old arg)
  | 3 => Ok (Z.land old (Z.lnot arg))
  | 4 => Ok (Z.lxor old arg)
  | _ => Ok old
  end.

Definition operand (op oparg : Z) : res Z :=
  if op <? 8 then Ok oparg else if oparg <? 32 then Ok (AddrRange.s32 (2 ^ oparg)) else Fail UndefinedBehaviour.

Definition compare (cmp old arg : Z) : bool :=
  match cmp with
  | 0 => old =? arg
  | 1 => negb (old =? arg)
  | 2 => old <? arg
  | 3 => old <=? arg
  | 4 => arg <? old
  | 5 => arg <=? old
  | _ => false
  end.

Lemma sixteen x : 0 <= x < 16 → x ∈ [0; 1; 2; 3; 4; 5; 6; 7; 8; 9; 10; 11; 12; 13; 14; 15].
Proof. intros Hx. rewrite !elem_of_cons, elem_of_nil. lia. Qed.

Ltac each H := apply sixteen in H; repeat (apply elem_of_cons in H as [-> | H]); [..|by apply elem_of_nil in H].

Lemma wake_newval_encoded op oparg cmp cmparg old :
  fields op oparg cmp cmparg →
  wake_newval old (encoded op oparg cmp cmparg) = (arg ← operand op oparg; operate (op mod 8) old arg).
Proof.
  intros Hf. destruct (encoded_fields _ _ _ _ Hf) as (Hoa & _ & _ & Hop). unfold wake_newval.
  change 0xfff000 with (Z.shiftl (Z.ones 12) 12). change 0xf0000000 with (Z.shiftl (Z.ones 4) 28). rewrite !land_field, Hoa, Hop by lia.
  destruct Hf as [Ho Hp _ _]. unfold operand. rewrite Z.shiftl_1_l. clear Hop Hoa. each Ho; cbn [Z.land Z.ltb Z.compare Pos.compare Pos.compare_cont]; simpl;
    try done; destruct (oparg <? 32); try done; simpl; by rewrite ?Z.ldiff_land.
Qed.

Lemma is_wake2_encoded op oparg cmp cmparg old :
  fields op oparg cmp cmparg → is_wake2 old (encoded op oparg cmp cmparg) = compare cmp old cmparg.
Proof.
  intros Hf. destruct (encoded_fields _ _ _ _ Hf) as (_ & Hcm & Hca & _). unfold is_wake2.
  change 0xf000000 with (Z.shiftl (Z.ones 4) 24). change 0xfff with (Z.ones 12). rewrite land_field, Z.land_ones, Hcm, Hca by lia.
  destruct Hf as [_ _ Hc _]. clear Hcm Hca. by each Hc.
Qed.

Lemma int_sign x : CInt.is_int x ↔ Z.shiftr x 31 = 0 ∨ Z.shiftr x 31 = -1.
Proof. rewrite Z.shiftr_div_pow2 by lia. unfold CInt.is_int. zlia. Qed.

Lemma s32_int x : CInt.is_int (AddrRange.s32 x).
Proof. unfold CInt.is_int, AddrRange.s32. pose proof (Z.mod_pos_bound (x + 2 ^ 31) (2 ^ 32) ltac:(lia)). lia. Qed.

Lemma wake_newval_int old val3 v : CInt.is_int old → wake_newval old val3 = Ok v → CInt.is_int v.
Proof.
  intros Ho. unfold wake_newval. set (oparg := Z.shiftr _ 12). set (op := Z.shiftr _ 28).
  assert (CInt.is_int oparg) as Hp.
  { unfold oparg. change 0xfff000 with (Z.shiftl (Z.ones 12) 12). rewrite land_field by lia. unfold CInt.is_int.
    pose proof (Z.mod_pos_bound (val3 / 2 ^ 12) (2 ^ 12) ltac:(lia)). lia. }
  destruct (if _ =? 1 then _ else _) as [arg|] eqn:Harg; [|done]. rewrite res_bind_Ok.
  assert (CInt.is_int arg) as Ha.
  { destruct (_ =? 1); [|by injection Harg as <-]. destruct (oparg <? 32); [|done]. injection Harg as <-. apply s32_int. }
  destruct (_ =? TGT_FUTEX_OP_SET); [by intros [= <-]|]. destruct (_ =? TGT_FUTEX_OP_ADD).
  { unfold CInt.int. destruct ((_ <=? _) && _) eqn:Hb; [|done]. intros [= <-]. unfold CInt.is_int. lia. }
  rewrite int_sign in Ho, Ha. repeat (destruct (_ =? _)); intros [= <-]; rewrite ?int_sign, ?Z.shiftr_lor, ?Z.shiftr_ldiff, ?Z.shiftr_lxor; try done;
    destruct Ho as [-> | ->], Ha as [-> | ->]; auto.
Qed.

Section FutexCall.

Context {G : Type} {HB : BlobProxy G}.

(** A [BufferArg] of an [int], and [copyIn] with the [int] it brings. *)
Definition copyIn (depth : nat) (addr : Z) (p : Process.t (G := G)) (h : hmem) : res (positive * Z * Process.t (G := G) * hmem) :=
  let '(bufPtr, h) := alloc h 4 in
  h ← store_bytes h (Ptr bufPtr 0) (replicate 4 0);
  '(p, h) ← virt_readBlob (fixupFault depth) Process.NextPage (pageSize p) addr (Ptr bufPtr 0) 4 p h;
  v ← load_int h (Ptr bufPtr 0) 4;
  Ok (bufPtr, AddrRange.s32 v, p, h).

(** The [int] is stored to the buffer, and [copyOut]. *)
Definition copyOut (depth : nat) (addr : Z) (bufPtr : positive) (v : Z) (p : Process.t (G := G)) (h : hmem)
    : res (Process.t (G := G) * hmem) :=
  h ← store_int h (Ptr bufPtr 0) 4 v;
  virt_writeBlob (fixupFault depth) Process.NextPage (pageSize p) addr (Ptr bufPtr 0) 4 p h.

(** The call of thread [n] of thread group [tgid]; buffers are freed when it returns.
    The negated error is an unsigned number when it becomes the 64-bit result; the
    counts of threads, as in the operations, are small integers. *)
Definition futexFunc (depth : nat) (tgid : Z) (n : nat) (uaddr op val timeout uaddr2 val3 : Z)
    (s : Futex.t) (p : Process.t (G := G)) (h : hmem) : res (Z * Futex.t * Process.t (G := G) * hmem) :=
  let op := Z.ldiff op TGT_FUTEX_PRIVATE_FLAG in
  let op := Z.ldiff op TGT_FUTEX_CLOCK_REALTIME_FLAG in
  if (TGT_FUTEX_WAIT =? op) || (TGT_FUTEX_WAIT_BITSET =? op) then
    '(buf, mem_val, p, h) ← copyIn depth uaddr p h;
    let h := delete buf h in
    if negb (val =? mem_val) then Ok (u32 (- TGT_EWOULDBLOCK), s, p, h)
    else if TGT_FUTEX_WAIT =? op then Ok (0, Futex.suspend uaddr tgid n s, p, h)
    else Ok (0, Futex.suspend_bitset uaddr tgid n val3 s, p, h)
  else if TGT_FUTEX_WAKE =? op then
    let '(r, s) := Futex.wakeup uaddr tgid val s in Ok (r, s, p, h)
  else if TGT_FUTEX_WAKE_BITSET =? op then
    let '(r, s) := Futex.wakeup_bitset uaddr tgid val3 s in Ok (r, s, p, h)
  else if (TGT_FUTEX_REQUEUE =? op) || (TGT_FUTEX_CMP_REQUEUE =? op) then
    '(buf, mem_val, p, h) ← copyIn depth uaddr p h;
    let h := delete buf h in
    if negb (TGT_FUTEX_CMP_REQUEUE =? 0) && negb (val3 =? mem_val) then Ok (u32 (- TGT_EWOULDBLOCK), s, p, h)
    else '(r, s) ← Futex.requeue uaddr tgid val timeout uaddr2 s; Ok (r, s, p, h)
  else if TGT_FUTEX_WAKE_OP =? op then
    '(buf, oldval, p, h) ← copyIn depth uaddr2 p h;
    newval ← wake_newval oldval val3;
    '(p, h) ← copyOut depth uaddr2 buf newval p h;
    let '(woken1, s) := Futex.wakeup uaddr tgid val s in
    let '(woken2, s) := if is_wake2 oldval val3 then Futex.wakeup uaddr2 tgid timeout s else (0, s) in
    Ok (woken1 + woken2, s, p, delete buf h)
  else Ok (- ENOSYS, s, p, h).

(** ** Words of the memory of a process *)

Context (k first total : Z) (ext : Z → Prop) (Hk : 0 <= k < 64).
Context (Hpool : 0 <= first ∧ 0 < total ∧ (first + total) * 2 ^ k < 2 ^ 64) (Hk63 : k < 63).

(** The [int] at [a] of a memory. *)
Definition word (m : Z → option Z) (a : Z) : option Z := (λ bs, AddrRange.s32 (le_value bs)) <$> mapM m [a; a + 1; a + 2; a + 3].

(** [a] is the address of a word, and [c] frames are left when it has been accessed. *)
Record word_ok (a c : Z) (p : Process.t (G := G)) (h : hmem) (al : gset Z) : Prop := {
  wo_range : 0 <= a ∧ a + 4 <= 2 ^ 64;
  wo_bytes x : a <= x < a + 4 → view k p h x ≠ None;
  wo_budget : budget k total p al (pages_of k a 4 + c);
  wo_left : 0 <= c;
}.

Lemma word_load m a h b :
  (∀ i, 0 <= i < 4 → peek h b i = m (a + i)) → in_bounds h (Ptr b 0) 4 = true →
  ∃ v, load_int h (Ptr b 0) 4 = Ok v ∧ word m a = Some (AddrRange.s32 v).
Proof.
  intros Hp Hb. destruct (load_bytes_in_bounds h (Ptr b 0) 4 Hb) as [bs Hbs]. exists (le_value bs). unfold load_int. change (Z.of_nat 4) with 4.
  rewrite Hbs. split; [done|]. assert (mapM m [a; a + 1; a + 2; a + 3] = Some bs) as Hm; [|unfold word; by rewrite Hm].
  pose proof (load_bytes_length _ _ _ _ Hbs) as Hlen. apply mapM_Some_2. apply Forall2_same_length_lookup_2; [simpl; lia|].
  intros i x y Hx Hy. pose proof (lookup_lt_Some _ _ _ Hy).
  assert (peek h b (Z.of_nat i) = Some y) as Hpk.
  { rewrite <-Hy. pose proof (load_bytes_peek h (Ptr b 0) 4 bs (Z.of_nat i) Hbs ltac:(lia)) as Hl. by rewrite Nat2Z.id in Hl. }
  rewrite Hp in Hpk by lia. rewrite <-Hpk. f_equal.
  do 4 (destruct i as [|i]; [simpl in Hx; injection Hx as <-; lia|]). done.
Qed.

(** A buffer of the simulator that is neither the guest's nor a file. *)
Record buffer (b : positive) (p : Process.t (G := G)) (h : hmem) : Prop := {
  bf_holds : ¬ holds (mem p) b;
  bf_file : no_file (Ptr b 0) p;
  bf_bounds : in_bounds h (Ptr b 0) 4 = true;
}.

Lemma state_pages p h al : state_ok k first total ext p h al → pageSize p = 2 ^ k.
Proof. intros Hst. eapply mo_page, iv_mapped, st_inv, Hst. Qed.

Lemma copyIn_ok depth a c p h al :
  state_ok k first total ext p h al → word_ok a c p h al →
  ∃ b w p' h' al', copyIn (S depth) a p h = Ok (b, w, p', h') ∧ word (view k p h) a = Some w ∧
    state_ok k first total ext p' h' al' ∧ budget k total p' al' c ∧ (∀ x, view k p' h' x = view k p h x) ∧ buffer b p' h'.
Proof using Hk Hpool Hk63.
  intros Hst [[Ha Htop] Hby Hbud Hc]. unfold copyIn. rewrite (state_pages p h al Hst).
  destruct (alloc_ok h 4 ltac:(lia)) as (b & h1 & -> & Hnone & Hb & Hpk & Hbd).
  pose proof (fresh_block _ _ _ (mo_ok _ _ _ (iv_mapped _ _ _ _ _ _ _ (st_inv _ _ _ _ _ _ _ Hst))) Hnone) as Hnb.
  pose proof (fresh_no_file _ _ _ _ p h al b Hst Hnone) as Hnf.
  destruct (store_bytes_in_bounds h1 (Ptr b 0) (replicate 4 0)) as [h2 Hs2]; [done|]. rewrite Hs2, res_bind_Ok.
  assert (∀ q n, in_bounds h2 q n = in_bounds h1 q n) as Hb2 by (intros; by eapply store_bytes_in_bounds_frame).
  destruct (state_except k first total ext b p h h2 al Hst Hnb Hnf) as [Hst2 Hv2].
  { intros e i He. rewrite (store_bytes_peek _ _ _ _ e i Hs2), decide_False by (by intros [? _]). by apply Hpk. }
  { intros q n Hq. rewrite Hb2. by apply Hbd. }
  destruct (view_read k first total ext Hk Hpool Hk63 depth Process.NextPage c a (Ptr b 0) 4 p h2 al)
    as (p' & h' & al' & Hr & Hst' & Hbl & [Hv Hsa Hh _ Hbo] & Hbuf); try done; try lia.
  { intros x Hx. apply (accessible_view k first total ext Hk p h2 al x Hst2); [split; lia|]. rewrite Hv2. by apply Hby. }
  { by rewrite Hb2. }
  unfold virt_readBlob. rewrite Hr, !res_bind_Ok. cbn [bool_decide]. simpl.
  destruct (word_load (view k p h) a h' b) as (v & -> & Hw); [intros i Hi; rewrite <-Hv2; apply (Hbuf i Hi)|by rewrite Hbo, Hb2|].
  exists b, (AddrRange.s32 v), p', h', al'. split; [done|]. split; [done|]. split; [done|]. split; [done|].
  split; [intros x; by rewrite Hv|]. constructor; [by rewrite Hh| |by rewrite Hbo, Hb2]. by eapply no_file_same.
Qed.

(** The buffer is freed. *)
Lemma buffer_free b p h al :
  state_ok k first total ext p h al → buffer b p h →
  state_ok k first total ext p (delete b h) al ∧ ∀ x, view k p (delete b h) x = view k p h x.
Proof.
  intros Hst [Hh Hf _]. apply (state_except k first total ext b p h); try done.
  - intros c i Hc. by rewrite peek_delete, decide_False.
  - intros q n Hq. by rewrite in_bounds_delete, decide_False.
Qed.

Lemma copyOut_ok depth a b v c p h al :
  state_ok k first total ext p h al → buffer b p h → word_ok a c p h al →
  ∃ p' h' al', copyOut (S depth) a b v p h = Ok (p', h') ∧ state_ok k first total ext p' (delete b h') al' ∧
    ∀ x, view k p' (delete b h') x = if decide (a <= x < a + 4) then Some (byte_of v (x - a)) else view k p h x.
Proof using Hk Hpool Hk63.
  intros Hst [Hnb Hnf Hb] [[Ha Htop] Hby Hbud Hc]. unfold copyOut. rewrite (state_pages p h al Hst). unfold store_int.
  destruct (store_bytes_in_bounds h (Ptr b 0) (le_bytes 4 v)) as [h1 Hs]; [done|]. rewrite Hs, res_bind_Ok.
  assert (∀ q n, in_bounds h1 q n = in_bounds h q n) as Hb1 by (intros; by eapply store_bytes_in_bounds_frame).
  destruct (state_except k first total ext b p h h1 al Hst Hnb Hnf) as [Hst1 Hv1].
  { intros e i He. by rewrite (store_bytes_peek _ _ _ _ e i Hs), decide_False by (by intros [? _]). }
  { intros q n Hq. apply Hb1. }
  destruct (view_write k first total ext Hk Hpool Hk63 depth Process.NextPage c a (Ptr b 0) 4 p h1 al)
    as (p' & h' & al' & Hw & Hst' & _ & Hho & Hsa & Hv); try done; try lia.
  { intros x Hx. apply (accessible_view k first total ext Hk p h1 al x Hst1); [split; lia|]. rewrite Hv1. by apply Hby. }
  { by rewrite Hb1. }
  unfold virt_writeBlob. rewrite Hw, res_bind_Ok. simpl. exists p', h', al'. split; [done|].
  destruct (buffer_free b p' h' al' Hst') as [Hst2 Hv2].
  { constructor; [by rewrite (ho_holds _ _ _ _ Hho)|by eapply no_file_same|by rewrite (ho_bounds _ _ _ _ Hho), Hb1]. }
  split; [done|]. intros x. rewrite Hv2, Hv, Hv1. case_decide as Hx; [|done].
  rewrite (store_bytes_peek _ _ _ _ _ _ Hs). cbn [block offset]. rewrite le_bytes_length, decide_True by lia. rewrite le_bytes_byte_of.
  rewrite list_lookup_fmap, lookup_seq_lt by lia. simpl. do 2 f_equal. lia.
Qed.

Lemma word_stored m a v : CInt.is_int v → (∀ i, 0 <= i < 4 → m (a + i) = Some (byte_of v i)) → word m a = Some v.
Proof.
  intros Hv Hm. unfold word. pose proof (Hm 0 ltac:(lia)) as H0. rewrite Z.add_0_r in H0.
  assert (mapM m [a; a + 1; a + 2; a + 3] = Some (le_bytes 4 v)) as ->
    by (rewrite le_bytes_byte_of; simpl; by rewrite H0, (Hm 1), (Hm 2), (Hm 3) by lia).
  cbn [fmap option_fmap option_map]. f_equal. rewrite le_value_bytes. change (256 ^ Z.of_nat 4) with (2 ^ 32). unfold AddrRange.s32, CInt.is_int in *. zlia.
Qed.

(** ** The call *)

(** The operation, without the flags it ignores. *)
Definition command (op : Z) : Z := Z.ldiff (Z.ldiff op TGT_FUTEX_PRIVATE_FLAG) TGT_FUTEX_CLOCK_REALTIME_FLAG.

(** The state after a call that leaves memory as it was. *)
Definition kept (p : Process.t (G := G)) (h : hmem) (r : res (Z * Futex.t * Process.t (G := G) * hmem)) (x : Z * Futex.t) : Prop :=
  ∃ p' h' al', r = Ok (x.1, x.2, p', h') ∧ state_ok k first total ext p' h' al' ∧ ∀ a, view k p' h' a = view k p h a.

(** What [futexFunc] does on each command.  Where it does not act the result is
    [2 ^ 32 - 11]: the negated error is an unsigned number.  A plain requeue compares
    the word as well. *)
Lemma futexFunc_spec depth tgid n uaddr op val timeout uaddr2 val3 s p h al :
  let r := futexFunc (S depth) tgid n uaddr op val timeout uaddr2 val3 s p h in
  let cmd := command op in
  let refused := 2 ^ 32 - 11 in
  state_ok k first total ext p h al →
  (cmd = 0 ∨ cmd = 9 → word_ok uaddr 0 p h al → ∃ w, word (view k p h) uaddr = Some w ∧
     kept p h r (if w =? val then (0, Futex.suspend_bitset uaddr tgid n (if cmd =? 0 then -1 else val3) s) else (refused, s))) ∧
  (cmd = 1 → r = Ok (Futex.wakeup uaddr tgid val s, p, h)) ∧
  (cmd = 10 → r = Ok (Futex.wakeup_bitset uaddr tgid val3 s, p, h)) ∧
  (cmd = 3 ∨ cmd = 4 → word_ok uaddr 0 p h al → ∃ w, word (view k p h) uaddr = Some w ∧
     if w =? val3 then
       match Futex.requeue uaddr tgid val timeout uaddr2 s with Ok x => kept p h r x | Fail f => r = Fail f end
     else kept p h r (refused, s)) ∧
  (cmd = 5 → word_ok uaddr2 (pages_of k uaddr2 4) p h al →
     ∀ o oparg c cmparg, fields o oparg c cmparg → val3 = encoded o oparg c cmparg → ∃ w, word (view k p h) uaddr2 = Some w ∧
     match (arg ← operand o oparg; operate (o mod 8) w arg) with
     | Ok v =>
         let '(n1, s1) := Futex.wakeup uaddr tgid val s in
         let '(n2, s2) := if compare c w cmparg then Futex.wakeup uaddr2 tgid timeout s1 else (0, s1) in
         ∃ p' h' al', r = Ok (n1 + n2, s2, p', h') ∧ state_ok k first total ext p' h' al' ∧ word (view k p' h') uaddr2 = Some v ∧
           ∀ a, ¬ uaddr2 <= a < uaddr2 + 4 → view k p' h' a = view k p h a
     | Fail f => r = Fail f
     end) ∧
  (cmd ∉ [0; 1; 3; 4; 5; 9; 10] → r = Ok (-38, s, p, h)).
Proof using Hk Hpool Hk63.
  intros r cmd refused Hst. unfold r, futexFunc. fold (command op). fold cmd. clearbody cmd. clear r. split_and!.
  - intros Hc Hw. destruct (copyIn_ok depth uaddr 0 p h al Hst Hw) as (b & w & p' & h' & al' & -> & Hwd & Hst' & _ & Hv & Hbuf).
    destruct (buffer_free b p' h' al' Hst' Hbuf) as [Hst2 Hv2]. exists w. split; [done|]. exists p', (delete b h'), al'.
    split; [|split; [done|intros x; by rewrite Hv2]].
    by destruct Hc as [-> | ->]; simpl; rewrite (Z.eqb_sym val w); destruct (w =? val).
  - intros ->. simpl. by destruct (Futex.wakeup _ _ _ _).
  - intros ->. simpl. by destruct (Futex.wakeup_bitset _ _ _ _).
  - intros Hc Hw. destruct (copyIn_ok depth uaddr 0 p h al Hst Hw) as (b & w & p' & h' & al' & -> & Hwd & Hst' & _ & Hv & Hbuf).
    destruct (buffer_free b p' h' al' Hst' Hbuf) as [Hst2 Hv2]. exists w. split; [done|].
    assert (∀ x, view k p' (delete b h') x = view k p h x) as Hv3 by (intros x; by rewrite Hv2).
    destruct Hc as [-> | ->]; simpl; rewrite (Z.eqb_sym val3 w); (destruct (w =? val3); simpl; [|by exists p', (delete b h'), al']);
      (destruct (Futex.requeue _ _ _ _ _ _) as [[? ?]|]; [by exists p', (delete b h'), al'|done]).
  - intros -> Hw o oparg c cmparg Hf ->.
    destruct (copyIn_ok depth uaddr2 (pages_of k uaddr2 4) p h al Hst Hw) as (b & w & p' & h' & al' & -> & Hwd & Hst' & Hb' & Hv & Hbuf).
    exists w. split; [done|]. cbn [Z.eqb Pos.eqb orb TGT_FUTEX_WAIT TGT_FUTEX_WAIT_BITSET TGT_FUTEX_WAKE TGT_FUTEX_WAKE_BITSET TGT_FUTEX_REQUEUE
      TGT_FUTEX_CMP_REQUEUE TGT_FUTEX_WAKE_OP]. rewrite res_bind_Ok. pose proof (wake_newval_int w (encoded o oparg c cmparg)) as Hint.
    rewrite wake_newval_encoded in Hint |- * by done. rewrite is_wake2_encoded by done.
    destruct (arg ← operand o oparg; operate (o mod 8) w arg) as [v|]; [|done]. rewrite res_bind_Ok.
    assert (word_ok uaddr2 0 p' h' al') as Hw'.
    { destruct Hw as [? Hby _ _]. constructor; [done|intros x; rewrite Hv; apply Hby|by rewrite Z.add_0_r|done]. }
    destruct (copyOut_ok depth uaddr2 b v 0 p' h' al' Hst' Hbuf Hw') as (p2 & h2 & al2 & -> & Hst2 & Hv2). rewrite res_bind_Ok.
    destruct (Futex.wakeup uaddr tgid val s) as [n1 s1].
    destruct (if compare c w cmparg then _ else _) as [n2 s2]. exists p2, (delete b h2), al2. split; [done|]. split; [done|]. split.
    + apply word_stored; [|intros i Hi; rewrite Hv2, decide_True by lia; do 2 f_equal; lia]. apply Hint; [|done].
      unfold word in Hwd. apply fmap_Some in Hwd as (bs & _ & ->). apply s32_int.
    + intros x Hx. by rewrite Hv2, decide_False, Hv.
  - rewrite !not_elem_of_cons. intros (? & ? & ? & ? & ? & ? & ? & _). unfold TGT_FUTEX_WAIT, TGT_FUTEX_WAIT_BITSET, TGT_FUTEX_WAKE,
      TGT_FUTEX_WAKE_BITSET, TGT_FUTEX_REQUEUE, TGT_FUTEX_CMP_REQUEUE, TGT_FUTEX_WAKE_OP. by repeat (rewrite (proj2 (Z.eqb_neq _ _)) by congruence; cbn [orb]).
Qed.

(** C16: [futex] decides and acts in one step on the word as the program sees it, whether
    or not its page has been mapped. A wait suspends the caller exactly if the word
    has the value it expects; otherwise nothing changes and the result is not that of a
    wait. A wake-up needs no memory. A requeue with a comparison moves threads exactly
    if the word has the value given, and changes nothing otherwise; a plain one does
    when it is given the value of the word. A wake-up with an operation, encoded in four
    fields of the last argument, replaces the word at the second address, wakes threads
    at the first, and then at the second if the old word compares as asked; no other
    byte changes, and it has no defined result if the operation has none. Any other
    operation is refused with -38. *)
Theorem futex_call depth tgid n uaddr op val timeout uaddr2 val3 s p h al :
  let r := futexFunc (S depth) tgid n uaddr op val timeout uaddr2 val3 s p h in
  let cmd := command op in
  let moved := match Futex.requeue uaddr tgid val timeout uaddr2 s with Ok x => kept p h r x | Fail f => r = Fail f end in
  state_ok k first total ext p h al →
  (cmd = 0 ∨ cmd = 9 → word_ok uaddr 0 p h al → ∃ w, word (view k p h) uaddr = Some w ∧
     if w =? val then kept p h r (0, Futex.suspend_bitset uaddr tgid n (if cmd =? 0 then -1 else val3) s)
     else ∃ e, e ≠ 0 ∧ kept p h r (e, s)) ∧
  (cmd = 1 → r = Ok (Futex.wakeup uaddr tgid val s, p, h)) ∧
  (cmd = 10 → r = Ok (Futex.wakeup_bitset uaddr tgid val3 s, p, h)) ∧
  (cmd = 4 → word_ok uaddr 0 p h al → ∃ w, word (view k p h) uaddr = Some w ∧
     if w =? val3 then moved else ∃ e, e ≠ 0 ∧ kept p h r (e, s)) ∧
  (cmd = 3 → word_ok uaddr 0 p h al → word (view k p h) uaddr = Some val3 → moved) ∧
  (cmd = 5 → word_ok uaddr2 (pages_of k uaddr2 4) p h al →
     ∀ o oparg c cmparg, fields o oparg c cmparg → val3 = encoded o oparg c cmparg → ∃ w, word (view k p h) uaddr2 = Some w ∧
     match (arg ← operand o oparg; operate (o mod 8) w arg) with
     | Ok v =>
         let '(n1, s1) := Futex.wakeup uaddr tgid val s in
         let '(n2, s2) := if compare c w cmparg then Futex.wakeup uaddr2 tgid timeout s1 else (0, s1) in
         ∃ p' h' al', r = Ok (n1 + n2, s2, p', h') ∧ state_ok k first total ext p' h' al' ∧ word (view k p' h') uaddr2 = Some v ∧
           ∀ a, ¬ uaddr2 <= a < uaddr2 + 4 → view k p' h' a = view k p h a
     | Fail f => r = Fail f
     end) ∧
  (cmd ∉ [0; 1; 3; 4; 5; 9; 10] → r = Ok (-38, s, p, h)).
Proof using Hk Hpool Hk63.
  intros r cmd moved Hst. destruct (futexFunc_spec depth tgid n uaddr op val timeout uaddr2 val3 s p h al Hst)
    as (Hwait & Hwake & Hbits & Hreq & Hop & Hno). fold r cmd in Hwait, Hwake, Hbits, Hreq, Hop, Hno. fold moved in Hreq. split_and!; try done.
  - intros Hc Hw. destruct (Hwait Hc Hw) as (w & Hwd & Hr). exists w. split; [done|]. destruct (w =? val); [done|]. by exists (2 ^ 32 - 11).
  - intros Hc Hw. destruct (Hreq (or_intror Hc) Hw) as (w & Hwd & Hr). exists w. split; [done|]. destruct (w =? val3); [done|]. by exists (2 ^ 32 - 11).
  - intros Hc Hw Heq. destruct (Hreq (or_introl Hc) Hw) as (w & Hwd & Hr). assert (w = val3) as -> by congruence. by rewrite Z.eqb_refl in Hr.
Qed.

End FutexCall.
End FutexCall.
