(* ===== verification/Dma.v ===== *)
(** The DMA engine of [dev/dma_device.{hh,cc}]: [DmaPort] cuts transfers into
    packets, in zero time in atomic mode and one per cycle in timing mode. *)

From S2P Require Import Prelude Bits ChunkGen Host Request MemCmd Packet AbstractMem MemInterface.
From S2P Require Import SimpleMem.
Import Host ChunkGenerator(tiles, tiles_nil, tiles_cons, in_block, in_block_size).

Module DmaPort.

(** Events are known by their identity; stream ids and the task id of the
    requests are left out. *)
Record DmaReqState := mkState {
  completionEvent : option positive;
  abortEvent : option positive;
  aborted : bool;
  totBytes : Z;
  numBytes : Z;
  delay : Z;
  gen : ChunkGenerator.t;
  data : option ptr;
  flags : Z;
  id : Z;
  cmd : MemCmd.Command;
}.

(** [states] holds the live [DmaReqState] objects by their address, and
    [events] the events handed to the event queue with their tick. *)
Record t := mk {
  states : gmap positive DmaReqState;
  transmitList : list positive;
  sendEvent : option Z;
  pendingCount : Z;
  inRetry : option Packet.t;
  retryPending : bool;
  requestorId : Z;
  cacheLineSize : Z;
  events : list (positive * Z);
}.

Definition create (requestorId cacheLineSize : Z) : t :=
  mk ∅ [] None 0 None false requestorId cacheLineSize [].

Definition set_states (m : gmap positive DmaReqState) (s : t) : t :=
  mk m (transmitList s) (sendEvent s) (pendingCount s) (inRetry s) (retryPending s)
     (requestorId s) (cacheLineSize s) (events s).

Definition set_transmitList (l : list positive) (s : t) : t :=
  mk (states s) l (sendEvent s) (pendingCount s) (inRetry s) (retryPending s)
     (requestorId s) (cacheLineSize s) (events s).

Definition set_sendEvent (e : option Z) (s : t) : t :=
  mk (states s) (transmitList s) e (pendingCount s) (inRetry s) (retryPending s)
     (requestorId s) (cacheLineSize s) (events s).

Definition set_pendingCount (n : Z) (s : t) : t :=
  mk (states s) (transmitList s) (sendEvent s) n (inRetry s) (retryPending s)
     (requestorId s) (cacheLineSize s) (events s).

Definition set_retry (p : option Packet.t) (b : bool) (s : t) : t :=
  mk (states s) (transmitList s) (sendEvent s) (pendingCount s) p b
     (requestorId s) (cacheLineSize s) (events s).

Definition set_events (l : list (positive * Z)) (s : t) : t :=
  mk (states s) (transmitList s) (sendEvent s) (pendingCount s) (inRetry s) (retryPending s)
     (requestorId s) (cacheLineSize s) l.

(** [event->scheduled()]. *)
Definition scheduled (e : positive) (s : t) : bool := bool_decide (e ∈ (events s).*1).

(** [device->schedule(event, when)], of an event that may be null: the event
    queue asserts that the event is not scheduled already.  The delays are
    unsigned, so [when] is not in the past; every constructed event is
    initialized. *)
Definition signal (e : option positive) (when : Z) (s : t) : res t :=
  match e with
  | None => Ok s
  | Some e => assert! (negb (scheduled e s)); Ok (set_events (events s ++ [(e, when)]) s)
  end.

Definition set_gen (g : ChunkGenerator.t) (x : DmaReqState) : DmaReqState :=
  mkState (completionEvent x) (abortEvent x) (aborted x) (totBytes x) (numBytes x) (delay x) g
          (data x) (flags x) (id x) (cmd x).

Definition set_numBytes (n : Z) (x : DmaReqState) : DmaReqState :=
  mkState (completionEvent x) (abortEvent x) (aborted x) (totBytes x) n (delay x) (gen x)
          (data x) (flags x) (id x) (cmd x).

Definition set_aborted (x : DmaReqState) : DmaReqState :=
  mkState (completionEvent x) (abortEvent x) true (totBytes x) (numBytes x) (delay x) (gen x)
          (data x) (flags x) (id x) (cmd x).

(** Access through a pointer to a state: undefined once it is deleted. *)
Definition state_at (i : positive) (s : t) : res DmaReqState :=
  match states s !! i with Some x => Ok x | None => Fail UndefinedBehaviour end.

Definition handleResp (now : Z) (i : positive) (size delay_ : Z) (s : t) : res t :=
  assert! (negb (pendingCount s =? 0));
  let s := set_pendingCount (pendingCount s - 1) s in
  x ← state_at i s;
  let x := set_numBytes (u64 (numBytes x + size)) x in
  assert! (numBytes x <=? totBytes x);
  let all_bytes := totBytes x =? numBytes x in
  if aborted x then
    if all_bytes || (pendingCount s =? 0)
    then s ← signal (abortEvent x) now s; Ok (set_states (delete i (states s)) s)
    else Ok (set_states (<[i := x]> (states s)) s)
  else if all_bytes then
    s ← signal (completionEvent x) (now + (delay_ + delay x)) s;
    Ok (set_states (delete i (states s)) s)
  else Ok (set_states (<[i := x]> (states s)) s).

(** [dynamic_cast<DmaReqState*>(pkt->senderState)]. *)
Definition sender (p : Packet.t) : res positive :=
  match Packet.senderState p with i :: _ => Ok i | [] => Fail AssertFailure end.

Definition handleRespPacket (now : Z) (p : Packet.t) (delay : Z) (s : t) : res t :=
  assert! (Packet.isResponse p);
  i ← sender p;
  _ ← Packet.getAddr p;
  n ← Request.getSize (Packet.req p);
  handleResp now i n delay s.

(** [DmaReqState::createPacket] on the state at [i]. *)
Definition createPacket (now : Z) (i : positive) (x : DmaReqState) : res Packet.t :=
  let req := Request.create_phys now (ChunkGenerator.addr (gen x))
               (u32 (ChunkGenerator.size (gen x))) (flags x) (id x) in
  p ← Packet.create req (cmd x);
  p ← (match data x with
       | Some d => Packet.dataStatic (ptr_add d (ChunkGenerator.complete (gen x))) p
       | None => Ok p
       end);
  Ok (Packet.set_senderState [i] p).

Definition recvTimingResp (now : Z) (p : Packet.t) (s : t) : res t :=
  assert! (Request.isUncacheable (Packet.req p) ||
        negb (Packet.cacheResponding p && negb (Packet.hasSharers p)));
  handleRespPacket now p 0 s.

Definition dmaPending (s : t) : bool := 0 <? pendingCount s.

(** [drain()]: whether the port is drained. *)
Definition drain (s : t) : bool := pendingCount s =? 0.

(** [trySendTimingReq()]: [accepted] is the peer's answer to [sendTimingReq], and
    [edge] is [device->clockEdge(Cycles(1))]; returns the packet sent. *)
Definition trySendTimingReq (now edge : Z) (accepted : bool) (s : t) : res (option Packet.t * t) :=
  match transmitList s with
  | [] => Fail UndefinedBehaviour
  | i :: rest =>
      x ← state_at i s;
      p ← (match inRetry s with Some p => Ok p | None => createPacket now i x end);
      let s := set_retry None (retryPending s) s in
      let last := ChunkGenerator.last (gen x) in
      let s := if accepted then set_pendingCount (u32 (pendingCount s + 1)) s
               else set_retry (Some p) true s in
      let sent := if accepted then Some p else None in
      if retryPending s then Ok (sent, s)
      else
        let s := set_states (<[i := set_gen (ChunkGenerator.next (gen x)).1 x]> (states s)) s in
        let s := if last then set_transmitList rest s else s in
        match transmitList s with
        | [] => Ok (sent, s)
        | _ :: _ =>
            assert! (now <=? edge);
            assert! (bool_decide (sendEvent s = None));
            Ok (sent, set_sendEvent (Some edge) s)
        end
  end.

Definition recvReqRetry (now edge : Z) (accepted : bool) (s : t) : res (option Packet.t * t) :=
  let s := set_retry (inRetry s) false s in
  match transmitList s with
  | [] => Ok (None, s)
  | _ :: _ => trySendTimingReq now edge accepted s
  end.

(** The timing branch of [sendDma()]. *)
Definition sendDma_timing (now edge : Z) (accepted : bool) (s : t) : res (option Packet.t * t) :=
  assert! (negb (bool_decide (transmitList s = [])));
  if retryPending s || negb (bool_decide (sendEvent s = None)) then Ok (None, s)
  else trySendTimingReq now edge accepted s.

(** The run of [sendEvent], off the queue when processed. *)
Definition process_sendEvent (now edge : Z) (accepted : bool) (s : t)
    : res (option Packet.t * t) :=
  sendDma_timing now edge accepted (set_sendEvent None s).

(** [transmitList.push_back(new DmaReqState(...))]. *)
Definition push_state (cmd : MemCmd.Command) (addr size : Z) (event : option positive)
    (data : option ptr) (delay flag : Z) (s : t) : res t :=
  g ← ChunkGenerator.create addr (u64 size) (cacheLineSize s);
  let i := fresh (dom (states s)) in
  let x := mkState event None false (u64 size) 0 delay g data flag (requestorId s) cmd in
  Ok (set_transmitList (transmitList s ++ [i]) (set_states (<[i := x]> (states s)) s)).

(** [dmaAction(...)] in timing mode. *)
Definition dmaAction_timing (now edge : Z) (accepted : bool) (cmd : MemCmd.Command)
    (addr size : Z) (event : option positive) (data : option ptr) (delay flag : Z) (s : t)
    : res (option Packet.t * t) :=
  s ← push_state cmd addr size event data delay flag s;
  sendDma_timing now edge accepted s.

(** The loop of [abortPending()] over the requests not started. *)
Fixpoint abort_rest (now : Z) (l : list positive) (s : t) : res t :=
  match l with
  | [] => Ok (set_transmitList [] s)
  | i :: l =>
      x ← state_at i s;
      s ← signal (abortEvent x) now s;
      abort_rest now l (set_states (delete i (states s)) s)
  end.

Definition abortPending (now : Z) (s : t) : res t :=
  let s := set_retry None (retryPending s) s in
  s ← (match transmitList s with
       | i :: rest =>
           if pendingCount s =? 0 then Ok s
           else
             x ← state_at i s;
             if numBytes x =? ChunkGenerator.complete (gen x) then Ok s
             else Ok (set_transmitList rest (set_states (<[i := set_aborted x]> (states s)) s))
       | [] => Ok s
       end);
  s ← abort_rest now (transmitList s) s;
  Ok (set_sendEvent None s).

(** ** Atomic mode *)

Section Atomic.

(** The memory on the other side of the port, and the random part of the
    latency of each access. *)
Context {M : Type} {HM : ByteMemory M} (rng : nat → Z).

Record World := mkWorld {
  port : t;
  mem : M;
  heap : hmem;
  draws : nat;
}.

Definition set_port (s : t) (w : World) : World := mkWorld s (mem w) (heap w) (draws w).

Definition sendAtomicReq (now : Z) (i : positive) (w : World) : res (bool * World) :=
  x ← state_at i (port w);
  p ← createPacket now i x;
  let s := set_pendingCount (u32 (pendingCount (port w) + 1)) (port w) in
  '(p, m, h, lat) ← recvAtomic (rng (draws w)) p (mem w) (heap w);
  let '(g, more) := ChunkGenerator.next (gen x) in
  let s := set_states (<[i := set_gen g x]> (states s)) s in
  s ← handleRespPacket now p lat s;
  Ok (negb more, mkWorld s m h (S (draws w))).

(** [while (!done) done = sendAtomicReq(state)]. *)
Fixpoint send_loop (fuel : nat) (now : Z) (i : positive) (done : bool) (w : World) : res World :=
  if done then Ok w else
  match fuel with
  | O => Fail OutOfFuel
  | S fuel =>
      '(done, w) ← sendAtomicReq now i w;
      send_loop fuel now i done w
  end.

(** The atomic branch of [sendDma()], with caches; the fuel of the inner loop is
    the number of bytes of the transfer. *)
Fixpoint sendDma_loop (now : Z) (l : list positive) (w : World) : res World :=
  match l with
  | [] => Ok w
  | i :: l =>
      let w := set_port (set_transmitList l (port w)) w in
      x ← state_at i (port w);
      w ← send_loop (Z.to_nat (totBytes x)) now i (ChunkGenerator.done (gen x)) w;
      sendDma_loop now l w
  end.

Definition sendDma_atomic (now : Z) (w : World) : res World :=
  assert! (negb (bool_decide (transmitList (port w) = [])));
  sendDma_loop now (transmitList (port w)) w.

Definition dmaAction_atomic (now : Z) (cmd : MemCmd.Command) (addr size : Z)
    (event : option positive) (data : option ptr) (delay flag : Z) (w : World) : res World :=
  s ← push_state cmd addr size event data delay flag (port w);
  sendDma_atomic now (set_port s w).

(** [DmaDevice::dmaRead] and [DmaDevice::dmaWrite]. *)
Definition dmaRead (now addr size : Z) (event : option positive) (data : ptr) (delay : Z)
    (w : World) : res World :=
  dmaAction_atomic now MemCmd.ReadReq addr size event (Some data) delay 0 w.

Definition dmaWrite (now addr size : Z) (event : option positive) (data : ptr) (delay : Z)
    (w : World) : res World :=
  dmaAction_atomic now MemCmd.WriteReq addr size event (Some data) delay 0 w.

End Atomic.

Arguments World M : clear implicits.

(** ** Atomic transfers *)

(** The packet for [n] bytes at [a], with its data at [d]. *)
Definition chunk_packet (now : Z) (i : positive) (c : MemCmd.Command) (rid : Z) (d : ptr) (a n : Z)
    : Packet.t :=
  Packet.mk (Z.lor (Z.lor Packet.VALID_ADDR Packet.VALID_SIZE) Packet.STATIC_DATA) c
    (Request.create_phys now a n 0 rid) (Some d) a false n [] 0 Packet.NO_FAIL 0 0 0 0 [i].

Lemma createPacket_chunk now i x d :
  flags x = 0 → data x = Some d → 0 <= ChunkGenerator.curSize (gen x) < 2 ^ 32 →
  createPacket now i x =
    Ok (chunk_packet now i (cmd x) (id x) (ptr_add d (ChunkGenerator.complete (gen x)))
          (ChunkGenerator.curAddr (gen x)) (ChunkGenerator.curSize (gen x))).
Proof.
  intros Hf Hd Hn. unfold createPacket, ChunkGenerator.addr, ChunkGenerator.size, chunk_packet.
  rewrite Hf, Hd. unfold u32. rewrite Z.mod_small by done. reflexivity.
Qed.

Lemma chunk_packet_buffer now i c rid d a n h :
  in_bounds h d n = true → Packet.has_buffer h (chunk_packet now i c rid d a n) d n.
Proof. intros. by constructor. Qed.

Lemma chunk_packet_unmasked now i c rid d a n :
  Packet.isMaskedWrite (chunk_packet now i c rid d a n) = false.
Proof.
  unfold Packet.isMaskedWrite. simpl. rewrite Request.create_phys_unmasked. apply andb_false_r.
Qed.

Lemma chunk_plain_read now i rid d a n :
  AbstractMemory.plain_read (chunk_packet now i MemCmd.ReadReq rid d a n).
Proof. repeat split. Qed.

Lemma chunk_plain_write now i rid d a n :
  AbstractMemory.plain_write (chunk_packet now i MemCmd.WriteReq rid d a n).
Proof.
  repeat split. unfold Packet.wf_mask. by rewrite chunk_packet_unmasked.
Qed.

(** A DMA transfer reads or writes. *)
Definition dma_command (c : MemCmd.Command) : Prop := c = MemCmd.ReadReq ∨ c = MemCmd.WriteReq.

Lemma chunk_response now i c rid d a n p' :
  dma_command c → Packet.answers (chunk_packet now i c rid d a n) p' →
  Packet.isResponse p' = true ∧ sender p' = Ok i ∧ Packet.getAddr p' = Ok a ∧
  Request.getSize (Packet.req p') = Ok n.
Proof. intros [->| ->] (r & hd & pd & [= <-] & ->); done. Qed.

Lemma handleRespPacket_chunk now tm i c rid d a n p' lat s :
  dma_command c → Packet.answers (chunk_packet tm i c rid d a n) p' →
  handleRespPacket now p' lat s = handleResp now i n lat s.
Proof.
  intros Hc Hr. destruct (chunk_response _ _ _ _ _ _ _ _ Hc Hr) as (H1 & H2 & H3 & H4).
  unfold handleRespPacket. by rewrite H1, H2, H3, H4.
Qed.

(** A transfer of the bytes from [start] to [fin], in blocks of [2^k] bytes,
    whose packets so far have all been answered. *)
Record active (k start fin : Z) (d : ptr) (c : MemCmd.Command) (x : DmaReqState) : Prop := {
  act_gen : ChunkGenerator.wf k fin (gen x);
  act_start : ChunkGenerator.startAddr (gen x) = start;
  act_data : data x = Some d;
  act_flags : flags x = 0;
  act_cmd : cmd x = c;
  act_aborted : aborted x = false;
  act_tot : totBytes x = fin - start;
  act_num : numBytes x = ChunkGenerator.curAddr (gen x) - start;
}.

(** The port once [e], which is not scheduled, is signalled. *)
Definition signalled (e : option positive) (when : Z) (s : t) : t :=
  match e with None => s | Some e => set_events (events s ++ [(e, when)]) s end.

Definition unscheduled (e : option positive) (s : t) : Prop :=
  match e with None => True | Some e => e ∉ (events s).*1 end.

Lemma signal_Ok e when s : unscheduled e s → signal e when s = Ok (signalled e when s).
Proof.
  destruct e as [e|]; [|done]. simpl. intros He. unfold scheduled.
  by rewrite bool_decide_false by done.
Qed.

Lemma signal_inv e when s s' :
  signal e when s = Ok s' → unscheduled e s ∧ s' = signalled e when s.
Proof.
  destruct e as [e|]; simpl; [|by intros [= ->]]. unfold scheduled.
  case_bool_decide; [done|]. by intros [= <-].
Qed.

(** The port once the transfer at [i] is complete. *)
Definition completed (i : positive) (e : option positive) (when : Z) (s : t) : t :=
  set_states (delete i (states s)) (signalled e when s).

Lemma completed_insert i x e when s :
  completed i e when (set_states (<[i := x]> (states s)) s) = completed i e when s.
Proof.
  unfold completed. simpl. rewrite delete_insert_eq. by destruct e.
Qed.

Lemma set_pendingCount_same n s : pendingCount s = n → set_pendingCount n s = s.
Proof. intros <-. by destruct s. Qed.

(** The response to the current packet of a transfer. *)
Lemma handleResp_active k start fin d c i x s now lat :
  0 <= k < 32 → 0 <= start → fin < 2 ^ 64 → active k start fin d c x →
  0 <= pendingCount s < 2 ^ 32 - 1 → 0 < ChunkGenerator.curSize (gen x) →
  states s !! i = Some x → unscheduled (completionEvent x) s →
  let g := ChunkGenerator.next (gen x) in
  handleResp now i (ChunkGenerator.curSize (gen x)) lat
    (set_states (<[i := set_gen g.1 x]> (states s)) (set_pendingCount (u32 (pendingCount s + 1)) s)) =
  Ok (if ChunkGenerator.sizeLeft (gen x) =? 0
      then completed i (completionEvent x) (now + (lat + delay x)) s
      else set_states (<[i := set_numBytes (numBytes x + ChunkGenerator.curSize (gen x))
             (set_gen g.1 x)]> (states s)) s).
Proof.
  intros Hk Hs Hf [Hg Hst Hd Hfl Hc Ha Ht Hn] Hp Hsz Hx Hu g. unfold handleResp. simpl.
  unfold u32. rewrite (Z.mod_small (pendingCount s + 1)) by lia.
  destruct (Z.eqb_spec (pendingCount s + 1) 0); [lia|]. simpl.
  unfold state_at. simpl. rewrite lookup_insert_eq. simpl.
  destruct Hg as [_ Hnx Hfin Hord [_ Hleft] _ _ _].
  rewrite (u64_small (numBytes x + _)) by auto with width.
  destruct (Z.leb_spec (numBytes x + ChunkGenerator.curSize (gen x)) (totBytes x)); [|lia]. simpl.
  rewrite Ha. assert ((totBytes x =? numBytes x + ChunkGenerator.curSize (gen x)) =
    (ChunkGenerator.sizeLeft (gen x) =? 0)) as -> by lia.
  rewrite Z.add_simpl_r. destruct (ChunkGenerator.sizeLeft (gen x) =? 0).
  - rewrite signal_Ok by (by destruct (completionEvent x)). rewrite res_bind_Ok. unfold completed.
    destruct s, (completionEvent x); simpl; by rewrite delete_insert_eq.
  - rewrite insert_insert_eq. by destruct s.
Qed.

Section AtomicProofs.

Context {M : Type} {HM : ByteMemory M} (rng : nat → Z).

(** [I c m h] holds of the memory and the heap once [c] bytes are transferred,
    and each packet of the transfer advances it. *)
Definition advances (now k start fin : Z) (i : positive) (c : MemCmd.Command) (rid : Z) (d : ptr)
    (I : Z → M → hmem → Prop) : Prop :=
  ∀ j z n m h, I z m h → 0 <= z → 0 < n → start + z + n <= fin → in_block (2 ^ k) (start + z, n) →
    let p := chunk_packet now i c rid (ptr_add d z) (start + z) n in
    ∃ p' m' h' lat, recvAtomic j p m h = Ok (p', m', h', lat) ∧
      Packet.answers p p' ∧ I (z + n) m' h'.

Lemma send_loop_spec now k start fin i c rid d e dl I fuel (w : World M) x :
  0 <= k < 32 → 0 <= start → fin < 2 ^ 64 → dma_command c →
  advances now k start fin i c rid d I →
  states (port w) !! i = Some x → active k start fin d c x → id x = rid →
  completionEvent x = e → delay x = dl → 0 < ChunkGenerator.curSize (gen x) →
  0 <= pendingCount (port w) < 2 ^ 32 - 1 → unscheduled e (port w) →
  I (ChunkGenerator.curAddr (gen x) - start) (mem w) (heap w) →
  fin - ChunkGenerator.curAddr (gen x) <= Z.of_nat fuel →
  ∃ m h lat n, send_loop rng fuel now i false w =
      Ok (mkWorld (completed i e (now + (lat + dl)) (port w)) m h n) ∧ I (fin - start) m h.
Proof.
  intros Hk Hs Hfin Hc Hadv. revert w x.
  induction fuel as [|fuel IH]; intros w x Hx Hact Hid He Hdl Hsz Hp Hu HI Hf;
    pose proof Hact as [Hg Hst Hd Hfl Hcm Ha Ht Hn];
    pose proof Hg as [Hck Hnx Hfn Hord [_ Hleft] Hns Hblk _]; [lia|].
  assert (ChunkGenerator.curSize (gen x) <= 2 ^ k) as Hle
    by (eapply in_block_size; [apply Z.pow_pos_nonneg; lia|done|by apply Hblk]).
  assert (2 ^ k < 2 ^ 32) by (apply Z.pow_lt_mono_r; lia).
  set (z := ChunkGenerator.curAddr (gen x) - start) in *.
  destruct (Hadv (rng (draws w)) z (ChunkGenerator.curSize (gen x)) (mem w) (heap w))
    as (p' & m' & h' & lat & Hra & Hresp & HI'); [done|lia|done|lia| |].
  { replace (start + z) with (ChunkGenerator.curAddr (gen x)) by lia. by apply Hblk. }
  replace (start + z) with (ChunkGenerator.curAddr (gen x)) in Hra, Hresp by lia.
  assert (ChunkGenerator.complete (gen x) = z) as Hz.
  { unfold ChunkGenerator.complete. rewrite Hst. apply u64_small. auto with width. }
  simpl. unfold sendAtomicReq, state_at. rewrite Hx, res_bind_Ok.
  rewrite (createPacket_chunk now i x d) by (done || lia). rewrite res_bind_Ok, Hz, Hcm, Hid, Hra.
  rewrite res_bind_Ok. destruct (ChunkGenerator.next (gen x)) as [g more] eqn:Hnext.
  rewrite (handleRespPacket_chunk _ _ _ _ _ _ _ _ _ _ _ Hc Hresp).
  pose proof (handleResp_active k start fin d c i x (port w) now lat Hk Hs Hfin Hact Hp Hsz Hx
    ltac:(by rewrite He)) as Hresp'. rewrite Hnext in Hresp'. cbn zeta in Hresp'. simpl in Hresp' |- *. rewrite Hresp'.
  rewrite res_bind_Ok. unfold ChunkGenerator.next, ChunkGenerator.last in Hnext.
  destruct (Z.eqb_spec (ChunkGenerator.sizeLeft (gen x)) 0) as [Hz0|Hnz].
  - injection Hnext as <- <-. simpl. rewrite He, Hdl. exists m', h', lat, (S (draws w)).
    split; [by destruct fuel|]. by replace (fin - start) with (z + ChunkGenerator.curSize (gen x)) by lia.
  - destruct (ChunkGenerator.next_wf k ltac:(lia) fin (gen x) Hfin Hg Hnz)
      as (Hg' & Hst' & Hmore & Hcur & Hsz').
    assert (ChunkGenerator.next (gen x) = (g, more)) as Hnx'.
    { unfold ChunkGenerator.next, ChunkGenerator.last.
      by destruct (Z.eqb_spec (ChunkGenerator.sizeLeft (gen x)) 0). }
    rewrite Hnx' in Hg', Hst', Hmore, Hcur, Hsz'. simpl in Hg', Hst', Hmore, Hcur, Hsz'. subst more.
    set (y := set_numBytes (numBytes x + ChunkGenerator.curSize (gen x)) (set_gen g x)).
    destruct (IH (mkWorld (set_states (<[i := y]> (states (port w))) (port w)) m' h' (S (draws w))) y)
      as (m2 & h2 & lat2 & n2 & Hrun & HI2); try done; simpl.
    + by rewrite lookup_insert_eq.
    + constructor; simpl; try done; [congruence|lia].
    + by replace (ChunkGenerator.curAddr g - start) with (z + ChunkGenerator.curSize (gen x)) by lia.
    + lia.
    + exists m2, h2, lat2, n2. split; [|done]. rewrite Hrun. cbn [port]. by rewrite completed_insert.
Qed.

(** One transfer on an idle port, in atomic mode: the memory and the heap reach
    the invariant for all its bytes, and the port is idle again with the
    completion event scheduled. *)
Lemma dmaAction_atomic_spec now c a size e d dl k I (w : World M) :
  0 <= k < 32 → cacheLineSize (port w) = 2 ^ k → dma_command c →
  0 <= a → 0 < size < 2 ^ 64 → a + size < 2 ^ 64 - 2 ^ k →
  transmitList (port w) = [] → 0 <= pendingCount (port w) < 2 ^ 32 - 1 → unscheduled e (port w) →
  (∀ i, advances now k a (a + size) i c (requestorId (port w)) d I) → I 0 (mem w) (heap w) →
  ∃ m h lat n, dmaAction_atomic rng now c a size e (Some d) dl 0 w =
      Ok (mkWorld (signalled e (now + (lat + dl)) (port w)) m h n) ∧ I size m h.
Proof.
  intros Hk Hcl Hc Ha Hsz Hov Hidle Hp Hu Hadv HI.
  unfold dmaAction_atomic, push_state. rewrite Hcl, (u64_small size) by auto with width.
  destruct (ChunkGenerator.create_Ok a size k ltac:(lia)) as [g Hg]. rewrite Hg, res_bind_Ok.
  destruct (ChunkGenerator.create_wf k ltac:(lia) a size g) as (Hwf & Hst & Hcur & Hdone);
    [lia|lia|lia|done|].
  pose proof (is_fresh (dom (states (port w)))) as Hfresh.
  set (i := fresh (dom (states (port w)))) in *. set (x := mkState e None false size 0 dl g (Some d) 0
    (requestorId (port w)) c). rewrite res_bind_Ok. unfold sendDma_atomic. simpl. rewrite Hidle. simpl.
  unfold state_at at 1. simpl. rewrite lookup_insert_eq. simpl. assert (ChunkGenerator.done g = false) as ->.
  { destruct (ChunkGenerator.done g); [|done]. lia. }
  destruct (send_loop_spec now k a (a + size) i c (requestorId (port w)) d e dl I (Z.to_nat size)
    (set_port (set_transmitList [] (set_transmitList [i]
       (set_states (<[i := x]> (states (port w))) (port w)))) w) x)
    as (m & h & lat & n & Hrun & HI'); try done || lia; simpl.
  - by rewrite lookup_insert_eq.
  - constructor; simpl; try done; lia.
  - pose proof Hwf as [_ _ _ _ [? _] _ _ _]. unfold ChunkGenerator.done in Hdone.
    destruct (Z.eqb_spec (ChunkGenerator.curSize g) 0); [|lia].
    assert (size = 0) by by apply Hdone. lia.
  - by rewrite Hcur, Z.sub_diag.
  - rewrite Hcur. lia.
  - exists m, h, lat, n. rewrite Z.add_simpl_l in HI'. split; [|done]. unfold set_port, set_transmitList, set_states in Hrun |- *. simpl in Hrun |- *.
    rewrite Hrun. simpl. do 2 f_equal. unfold completed. simpl.
    rewrite delete_insert_id by by apply not_elem_of_dom.
    destruct (port w), e; simpl in *; by subst.
Qed.

Lemma read_advances now k a size i rid d m0 h0 :
  ¬ owns m0 (block d) → in_bounds h0 d size = true → serves m0 k a size →
  advances now k a (a + size) i MemCmd.ReadReq rid d (read_inv m0 h0 d a).
Proof.
  intros Ho Hb Hserv j z n m h HI Hz Hn Hfin Hblk p. pose proof HI as [Hi Hs _ Hbd _ _].
  destruct (memory_read j p m h (ptr_add d z) n)
    as (p' & m' & h' & lat & Hr & Hresp & Hi' & Hs' & Hbuf' & Hc' & Hfr' & Hbd');
    [done|apply chunk_plain_read|done| |done| |eapply serves_same; [done..|lia|done|lia|done]|].
  { apply chunk_packet_buffer. rewrite Hbd. eapply Packet.in_bounds_sub; [done|lia|lia|lia]. }
  { simpl. by rewrite (proj1 Hs). }
  exists p', m', h', lat. split; [done|]. split; [done|]. by apply (read_inv_extend m0 h0 d a z n m h).
Qed.

Lemma write_advances now k a size i rid d m0 h0 :
  ¬ owns m0 (block d) → in_bounds h0 d size = true → serves m0 k a size →
  advances now k a (a + size) i MemCmd.WriteReq rid d (write_inv m0 h0 d a).
Proof.
  intros Ho Hb Hserv j z n m h HI Hz Hn Hfin Hblk p. pose proof HI as [Hi Hs _ Hbd _].
  destruct (memory_write j p m h (ptr_add d z) n)
    as (p' & m' & h' & lat & Hr & Hresp & Hi' & Hs' & Hc' & Hfr' & Hbd');
    [done|apply chunk_plain_write|apply chunk_packet_unmasked|done| |done|
     |eapply serves_same; [done..|lia|done|lia|done]|].
  { apply chunk_packet_buffer. rewrite Hbd. eapply Packet.in_bounds_sub; [done|lia|lia|lia]. }
  { simpl. by rewrite (proj1 Hs). }
  exists p', m', h', lat. split; [done|]. split; [done|]. by apply (write_inv_extend m0 h0 d a z n m h).
Qed.

(** A port that may start a transfer of [size] bytes at [a]. *)
Record ready (k a size : Z) (s : t) : Prop := {
  rdy_k : 0 <= k < 32;
  rdy_line : cacheLineSize s = 2 ^ k;
  rdy_addr : 0 <= a;
  rdy_size : 0 < size;
  rdy_end : a + size < 2 ^ 64 - 2 ^ k;
  rdy_idle : transmitList s = [];
  rdy_pending : 0 <= pendingCount s < 2 ^ 32 - 1;
}.

Lemma dmaRead_ok now a size e d dl k (w : World M) :
  ready k a size (port w) → inv (mem w) (heap w) → ¬ owns (mem w) (block d) →
  in_bounds (heap w) d size = true → serves (mem w) k a size → unscheduled e (port w) →
  ∃ m h lat n, dmaRead rng now a size e d dl w =
      Ok (mkWorld (signalled e (now + (lat + dl)) (port w)) m h n) ∧
    read_inv (mem w) (heap w) d a size m h.
Proof.
  intros [Hk Hl Ha Hs He Hidle Hp] Hi Ho Hb Hserv Hu. unfold dmaRead.
  pose proof (Z.pow_pos_nonneg 2 k ltac:(lia) ltac:(lia)).
  apply (dmaAction_atomic_spec now MemCmd.ReadReq a size e d dl k); try (done || lia); [by left| |].
  - intros i. by apply read_advances.
  - constructor; try (done || apply same_memory_refl). intros. lia.
Qed.

Lemma dmaWrite_ok now a size e d dl k (w : World M) :
  ready k a size (port w) → inv (mem w) (heap w) → ¬ owns (mem w) (block d) →
  in_bounds (heap w) d size = true → serves (mem w) k a size → unscheduled e (port w) →
  ∃ m h lat n, dmaWrite rng now a size e d dl w =
      Ok (mkWorld (signalled e (now + (lat + dl)) (port w)) m h n) ∧
    write_inv (mem w) (heap w) d a size m h.
Proof.
  intros [Hk Hl Ha Hs He Hidle Hp] Hi Ho Hb Hserv Hu. unfold dmaWrite.
  pose proof (Z.pow_pos_nonneg 2 k ltac:(lia) ltac:(lia)).
  apply (dmaAction_atomic_spec now MemCmd.WriteReq a size e d dl k); try (done || lia); [by right| |].
  - intros i. by apply write_advances.
  - constructor; try (done || apply same_memory_refl). intros x. rewrite decide_False by lia. done.
Qed.

Lemma ready_signalled k a size e when s : ready k a size s → ready k a size (signalled e when s).
Proof. intros []. by destruct e. Qed.

End AtomicProofs.

(** C7: on an idle port in atomic mode, a DMA read of a region followed by a DMA
    write of the buffer copies the region, whatever the memory behind the port
    and even if source and destination overlap: each destination byte holds the
    old source byte, every other byte of the memory is unchanged, both completion
    events are scheduled once, and the port is idle again with no request state
    left.  No assertion fails on the way, provided the two completion events are
    different ones and neither is scheduled already. *)
Theorem dma_copy {M} {HM : ByteMemory M} rng now src dst size e1 e2 d dl k (w : World M) :
  ready k src size (port w) → ready k dst size (port w) →
  inv (mem w) (heap w) → ¬ owns (mem w) (block d) → in_bounds (heap w) d size = true →
  serves (mem w) k src size → serves (mem w) k dst size →
  e1 ≠ e2 → e1 ∉ (events (port w)).*1 → e2 ∉ (events (port w)).*1 →
  ∃ w1 w2 t1 t2, dmaRead rng now src size (Some e1) d dl w = Ok w1 ∧
    dmaWrite rng now dst size (Some e2) d dl w1 = Ok w2 ∧
    inv (mem w2) (heap w2) ∧ same_memory (mem w) (mem w2) ∧
    (∀ x, contents (mem w2) (heap w2) x =
       if decide (dst <= x < dst + size)
       then contents (mem w) (heap w) (src + (x - dst)) else contents (mem w) (heap w) x) ∧
    states (port w2) = states (port w) ∧ transmitList (port w2) = [] ∧
    pendingCount (port w2) = pendingCount (port w) ∧
    events (port w2) = events (port w) ++ [(e1, t1); (e2, t2)].
Proof.
  intros Hr1 Hr2 Hi Ho Hb Hs1 Hs2 Hne He1 He2.
  destruct (dmaRead_ok rng now src size (Some e1) d dl k w Hr1 Hi Ho Hb Hs1 He1)
    as (m1 & h1 & lat1 & n1 & Hrd & [Hi1 Hsm1 Hc1 Hb1 Hbuf1 _]).
  set (w1 := mkWorld (signalled (Some e1) (now + (lat1 + dl)) (port w)) m1 h1 n1) in *.
  destruct (dmaWrite_ok rng now dst size (Some e2) d dl k w1) as (m2 & h2 & lat2 & n2 & Hwr & Hw2);
    [by apply ready_signalled|done|by intros ?%(proj1 Hsm1)|by rewrite <-Hb; apply Hb1|
     by eapply serves_same| |].
  { simpl. rewrite fmap_app. set_solver. }
  destruct Hw2 as [Hi2 Hsm2 Hc2 Hb2 _]. eexists w1, _, _, _.
  split; [exact Hrd|]. split; [exact Hwr|]. simpl in *.
  split_and!; try done; [by eapply same_memory_trans| |apply Hr1|by rewrite <-app_assoc].
  intros x. rewrite Hc2. case_decide; [|by apply Hc1]. rewrite Hbuf1 by lia. done.
Qed.

(** A zero-byte transfer in atomic mode is never completed: its state stays
    allocated and its event is not scheduled. *)
Lemma zero_size_never_completes {M} {HM : ByteMemory M} rng now c a e d dl (w : World M) :
  0 <= a < 2 ^ 63 → cacheLineSize (port w) = 2 ^ 6 → transmitList (port w) = [] →
  ∃ w' i x, dmaAction_atomic rng now c a 0 e d dl 0 w = Ok w' ∧
    states (port w) !! i = None ∧ states (port w') = <[i := x]> (states (port w)) ∧
    events (port w') = events (port w).
Proof.
  intros Ha Hc Hl. unfold dmaAction_atomic, push_state. rewrite Hc.
  destruct (ChunkGenerator.create_Ok a 0 6 ltac:(lia)) as [g Hg]. change (u64 0) with 0.
  rewrite Hg, res_bind_Ok.
  destruct (ChunkGenerator.create_wf 6 ltac:(lia) a 0 g) as (_ & _ & _ & Hdone); [lia|lia|lia|done|].
  pose proof (is_fresh (dom (states (port w)))) as Hfresh.
  unfold sendDma_atomic. simpl. rewrite Hl. simpl. unfold state_at. simpl.
  rewrite lookup_insert_eq. simpl. rewrite (proj2 Hdone eq_refl). simpl.
  eexists _, _, _. split; [done|]. simpl. split_and!; [by apply not_elem_of_dom|done|done].
Qed.

(** A 256-byte memory at 0x1000 holding 0, 1, 2, ..., and a DMA buffer. *)
Definition demo_heap : hmem :=
  <[1%positive := Z.of_nat <$> seq 0 256]> (<[4%positive := replicate 128 0]> ∅).

Definition demo : World SimpleMemory.t :=
  mkWorld (create 7 64) (SimpleMemory.create AbstractMemory.demo 30 0) demo_heap 0.

Lemma demo_inv : inv (mem demo) (heap demo).
Proof.
  exists (Ptr 1 0). split; [|done]. constructor; simpl; try done.
  constructor; [discriminate|]. constructor; [discriminate|constructor].
Qed.

Lemma demo_serves a size : 0x1000 <= a → a + size <= 0x1100 → serves (mem demo) 6 a size.
Proof. intros Ha Hs z n ? ? ? _. split; simpl; lia. Qed.

Lemma demo_owns b : owns (mem demo) b → b = 1%positive.
Proof. intros (pm & [= <-] & ->). done. Qed.

(** 100 bytes from 0x1004 to 0x1080, in chunks of at most 64 bytes. *)
Lemma dma_copy_witness :
  ∃ w1 w2 t1 t2, dmaRead (λ _, 0) 5 0x1004 100 (Some 1%positive) (Ptr 4 0) 0 demo = Ok w1 ∧
    dmaWrite (λ _, 0) 5 0x1080 100 (Some 2%positive) (Ptr 4 0) 0 w1 = Ok w2 ∧
    contents (mem w2) (heap w2) 0x1083 = Some 7 ∧
    events (port w2) = [(1%positive, t1); (2%positive, t2)].
Proof.
  destruct (dma_copy (λ _, 0) 5 0x1004 0x1080 100 1%positive 2%positive (Ptr 4 0) 0 6 demo)
    as (w1 & w2 & t1 & t2 & H1 & H2 & _ & _ & Hc & _ & _ & _ & He).
  - constructor; simpl; done || lia.
  - constructor; simpl; done || lia.
  - apply demo_inv.
  - intros Ho%demo_owns. discriminate Ho.
  - vm_compute. reflexivity.
  - apply demo_serves; lia.
  - apply demo_serves; lia.
  - discriminate.
  - apply not_elem_of_nil.
  - apply not_elem_of_nil.
  - exists w1, w2, t1, t2. split; [exact H1|]. split; [exact H2|]. split; [|exact He].
    rewrite Hc. vm_compute. reflexivity.
Defined.

End DmaPort.
