(* ===== verification/DmaTiming.v ===== *)
(** Timing mode of the DMA engine ([DmaPort] of [Dma]): the port in its
    environment as a step relation, and the invariant of its runs. *)

From S2P Require Import Prelude Bits ChunkGen Host Request MemCmd Packet Dma.
Import Host DmaPort ChunkGenerator(in_block, in_block_size).

Module DmaTiming.

(** The port, the packets sent whose response has not come, the completion
    events of the transfers started, and the completion events that have run. *)
Record sys := mkSys {
  now : Z;
  port : t;
  inflight : list Packet.t;
  started : list positive;
  fired : list positive;
}.

Definition option_list {A} (o : option A) : list A := match o with Some x => [x] | None => [] end.

(** A transfer a device may ask for. *)
Record sane_action (k : Z) (c : MemCmd.Command) (a size : Z) : Prop := {
  sa_cmd : dma_command c;
  sa_addr : 0 <= a;
  sa_size : 0 < size;
  sa_end : a + size < 2 ^ 64 - 2 ^ k;
}.

(** Fewer packets are in flight than the counter can hold. *)
Definition room (c : sys) : Prop := Z.of_nat (length (inflight c)) < 2 ^ 32 - 1.

(** The completion events of the transfers that are live. *)
Definition owed (m : gmap positive DmaReqState) : list positive :=
  omap (λ y, completionEvent y.2) (map_to_list m).

(** The completion events in use: those on the event queue and those a live
    transfer will put there.  A device starts a transfer with another one. *)
Definition in_use (s : t) : list positive := (events s).*1 ++ owed (states s).

(** Time passes up to the next event; a transfer is started; [sendEvent] runs; a
    refused packet is sent again; a response comes, in any order; a completion
    event runs and leaves the event queue. *)
Inductive step (k : Z) : sys → sys → Prop :=
  | step_time c n :
      now c <= n → (∀ x, sendEvent (port c) = Some x → n <= x) →
      (∀ e, e ∈ events (port c) → n <= e.2) →
      step k c (mkSys n (port c) (inflight c) (started c) (fired c))
  | step_action c edge accepted cmd a size e d delay o s' :
      sane_action k cmd a size → now c <= edge → room c → e ∉ in_use (port c) →
      dmaAction_timing (now c) edge accepted cmd a size (Some e) (Some d) delay 0 (port c) =
        Ok (o, s') →
      step k c (mkSys (now c) s' (inflight c ++ option_list o) (started c ++ [e]) (fired c))
  | step_send c edge accepted o s' :
      sendEvent (port c) = Some (now c) → now c <= edge → room c →
      process_sendEvent (now c) edge accepted (port c) = Ok (o, s') →
      step k c (mkSys (now c) s' (inflight c ++ option_list o) (started c) (fired c))
  | step_retry c edge accepted o s' :
      retryPending (port c) = true → now c <= edge → room c →
      recvReqRetry (now c) edge accepted (port c) = Ok (o, s') →
      step k c (mkSys (now c) s' (inflight c ++ option_list o) (started c) (fired c))
  | step_response c l1 p l2 p' s' :
      inflight c = l1 ++ p :: l2 → Packet.answers p p' →
      recvTimingResp (now c) p' (port c) = Ok s' →
      step k c (mkSys (now c) s' (l1 ++ l2) (started c) (fired c))
  | step_fire c l1 e l2 :
      events (port c) = l1 ++ (e, now c) :: l2 →
      step k c (mkSys (now c) (set_events (l1 ++ l2) (port c)) (inflight c) (started c)
                  (fired c ++ [e])).

(** ** Bytes in flight *)

Definition sent_by (i : positive) (p : Packet.t) : Z :=
  if decide (Packet.senderState p = [i]) then Packet.size p else 0.

Fixpoint outstanding (i : positive) (fl : list Packet.t) : Z :=
  match fl with [] => 0 | p :: fl => sent_by i p + outstanding i fl end.

Lemma outstanding_app i l1 l2 : outstanding i (l1 ++ l2) = outstanding i l1 + outstanding i l2.
Proof. induction l1; simpl; lia. Qed.

Definition start (x : DmaReqState) : Z := ChunkGenerator.startAddr (gen x).
Definition fin (x : DmaReqState) : Z := start x + totBytes x.

(** The bytes of a transfer not sent yet. *)
Definition remaining (s : t) (i : positive) (x : DmaReqState) : Z :=
  if decide (i ∈ transmitList s) then fin x - ChunkGenerator.curAddr (gen x) else 0.

(** What the updates of a transfer leave alone. *)
Definition same_transfer (x y : DmaReqState) : Prop :=
  data y = data x ∧ cmd y = cmd x ∧ id y = id x ∧ start y = start x ∧ totBytes y = totBytes x ∧
  completionEvent y = completionEvent x ∧ flags y = flags x ∧ aborted y = aborted x.

(** A packet of the transfer [x] for [n] of its bytes at [a], whose data is the
    corresponding part of the transfer's buffer. *)
Definition packet_of (i : positive) (x : DmaReqState) (p : Packet.t) : Prop :=
  ∃ tm d a n, data x = Some d ∧
    p = chunk_packet tm i (cmd x) (id x) (ptr_add d (a - start x)) a n ∧
    0 < n ∧ start x <= a ∧ a + n <= fin x.

Definition flying (s : t) (p : Packet.t) : Prop :=
  ∃ i x, states s !! i = Some x ∧ packet_of i x p.

Lemma packet_of_same i x y p : same_transfer x y → packet_of i x p → packet_of i y p.
Proof.
  intros (Hd & Hc & Hi & Hs & Ht & _) (tm & d & a & n & Hx & -> & ? & ? & ?).
  exists tm, d, a, n. unfold fin in *. rewrite Hd, Hc, Hi, Hs, Ht. done.
Qed.

Lemma packet_of_sent i x p : packet_of i x p → sent_by i p = Packet.size p ∧ 0 < Packet.size p.
Proof.
  intros (tm & d & a & n & _ & -> & ? & _). unfold sent_by. by rewrite decide_True.
Qed.

Lemma packet_of_other i j x p : packet_of i x p → i ≠ j → sent_by j p = 0.
Proof.
  intros (tm & d & a & n & _ & -> & _) Hne. unfold sent_by. rewrite decide_False; [done|].
  simpl. congruence.
Qed.

Lemma outstanding_nonneg i s fl : Forall (flying s) fl → 0 <= outstanding i fl.
Proof.
  induction 1 as [|p fl (j & x & _ & Hp) _ IH]; simpl; [done|].
  destruct (decide (j = i)) as [->|Hne].
  - destruct (packet_of_sent _ _ _ Hp) as [-> ?]. lia.
  - rewrite (packet_of_other _ _ _ _ Hp Hne). lia.
Qed.

(** A transfer without bytes in flight has no packet in flight. *)
Lemma outstanding_zero i s fl p :
  Forall (flying s) fl → outstanding i fl = 0 → p ∈ fl → Packet.senderState p ≠ [i].
Proof.
  induction 1 as [|q fl Hq Hfl IH]; simpl; [by intros _ ?%not_elem_of_nil|].
  intros Hz Hin. pose proof (outstanding_nonneg i s fl Hfl).
  destruct Hq as (j & x & _ & Hq). destruct (decide (j = i)) as [->|Hne].
  - destruct (packet_of_sent _ _ _ Hq) as [Hs ?]. lia.
  - rewrite (packet_of_other _ _ _ _ Hq Hne) in Hz.
    apply elem_of_cons in Hin as [->|Hin]; [|by apply IH].
    destruct Hq as (tm & d & a & n & _ & -> & _). simpl. congruence.
Qed.

(** ** The invariant *)

Record good (k : Z) (s : t) (fl : list Packet.t) (i : positive) (x : DmaReqState) : Prop := {
  g_start : 0 <= start x;
  g_fin : fin x < 2 ^ 64;
  g_data : is_Some (data x);
  g_event : is_Some (completionEvent x);
  g_flags : flags x = 0;
  g_cmd : dma_command (cmd x);
  g_aborted : aborted x = false;
  g_num : 0 <= numBytes x;
  g_balance : totBytes x = numBytes x + outstanding i fl + remaining s i x;
  g_active : i ∈ transmitList s →
    ChunkGenerator.wf k (fin x) (gen x) ∧ 0 < ChunkGenerator.curSize (gen x);
  g_left : 0 < outstanding i fl + remaining s i x;
}.

(** The packet waiting for a retry is the next one of the first transfer. *)
Definition retry_ok (s : t) : Prop :=
  ∀ p, inRetry s = Some p → ∃ i l x tm d, transmitList s = i :: l ∧ states s !! i = Some x ∧
    data x = Some d ∧
    p = chunk_packet tm i (cmd x) (id x) (ptr_add d (ChunkGenerator.complete (gen x)))
          (ChunkGenerator.curAddr (gen x)) (ChunkGenerator.curSize (gen x)).

(** What holds at any time. *)
Record core (k : Z) (c : sys) : Prop := {
  c_k : 0 <= k < 32;
  c_line : cacheLineSize (port c) = 2 ^ k;
  c_count : pendingCount (port c) = Z.of_nat (length (inflight c));
  c_bound : Z.of_nat (length (inflight c)) < 2 ^ 32;
  c_nodup : NoDup (transmitList (port c));
  c_list i : i ∈ transmitList (port c) → is_Some (states (port c) !! i);
  c_state i x : states (port c) !! i = Some x → good k (port c) (inflight c) i x;
  c_flight : Forall (flying (port c)) (inflight c);
  c_retry : retry_ok (port c);
  c_events : started c ≡ₚ fired c ++ in_use (port c);
  c_fresh : NoDup (in_use (port c));
}.

(** What holds between steps: somebody will send the next packet, if any. *)
Definition live (n : Z) (s : t) : Prop :=
  match transmitList s with
  | [] => sendEvent s = None ∧ retryPending s = false
  | _ :: _ =>
      if retryPending s then sendEvent s = None ∧ is_Some (inRetry s)
      else inRetry s = None ∧ ∃ x, sendEvent s = Some x ∧ n <= x
  end.

Definition ok (k : Z) (c : sys) : Prop := core k c ∧ live (now c) (port c).

(** ** Sending *)

Lemma owed_split m i x :
  m !! i = Some x → owed m ≡ₚ option_list (completionEvent x) ++ owed (delete i m).
Proof.
  intros Hx. unfold owed. rewrite <-(insert_delete_id m i x Hx) at 1.
  rewrite map_to_list_insert by apply lookup_delete_eq. simpl. by destruct (completionEvent x).
Qed.

Lemma owed_update m i x y :
  m !! i = Some x → completionEvent y = completionEvent x → owed (<[i := y]> m) ≡ₚ owed m.
Proof.
  intros Hx He. rewrite (owed_split _ i y) by apply lookup_insert_eq.
  rewrite (owed_split m i x Hx), He. by rewrite delete_insert_eq.
Qed.

Lemma flying_update s m i x y p :
  states s !! i = Some x → same_transfer x y → m = <[i := y]> (states s) → flying s p →
  ∀ s', states s' = m → flying s' p.
Proof.
  intros Hx Hsame -> (j & z & Hz & Hp) s' Hs'. unfold flying. rewrite Hs'.
  destruct (decide (i = j)) as [<-|Hne].
  - exists i, y. rewrite lookup_insert_eq. split; [done|]. assert (z = x) as -> by congruence.
    by eapply packet_of_same.
  - exists j, z. by rewrite lookup_insert_ne.
Qed.

(** The packet of the first transfer that is sent next. *)
Lemma next_packet k c i l x :
  core k c → transmitList (port c) = i :: l → states (port c) !! i = Some x →
  ∃ tm d, data x = Some d ∧
    (match inRetry (port c) with Some p => Ok p | None => createPacket (now c) i x end) =
      Ok (chunk_packet tm i (cmd x) (id x)
            (ptr_add d (ChunkGenerator.curAddr (gen x) - start x))
            (ChunkGenerator.curAddr (gen x)) (ChunkGenerator.curSize (gen x))).
Proof.
  intros Hc Hl Hx. destruct (c_state k c Hc i x Hx) as [Hs Hf [d Hd] _ Hfl _ _ _ _ Hact _].
  destruct (Hact ltac:(rewrite Hl; by left)) as [Hwf Hsz].
  pose proof Hwf as [_ Hnx Hfn Hord [_ Hleft] _ Hblk _].
  pose proof (c_k k c Hc) as Hk. assert (2 ^ k < 2 ^ 32) by (apply Z.pow_lt_mono_r; lia).
  assert (ChunkGenerator.curSize (gen x) <= 2 ^ k)
    by (eapply in_block_size; [apply Z.pow_pos_nonneg; lia|done|by apply Hblk]).
  assert (ChunkGenerator.complete (gen x) = ChunkGenerator.curAddr (gen x) - start x) as Hcp.
  { unfold ChunkGenerator.complete, start. apply u64_small. unfold is_u64, fin, start in *. lia. }
  destruct (inRetry (port c)) as [p|] eqn:Hr.
  - destruct (c_retry k c Hc p Hr) as (j & l' & y & tm & d' & Hl' & Hy & Hd' & ->).
    rewrite Hl in Hl'. injection Hl' as <- <-. assert (y = x) as -> by congruence.
    exists tm, d'. by rewrite Hcp.
  - exists (now c), d. split; [done|]. rewrite (createPacket_chunk _ _ _ d) by (done || lia).
    by rewrite Hcp.
Qed.

(** The bytes of the first transfer once its current packet is sent. *)
Lemma next_gen k x :
  0 <= k < 32 → 0 <= start x → fin x < 2 ^ 64 → ChunkGenerator.wf k (fin x) (gen x) →
  0 < ChunkGenerator.curSize (gen x) →
  let g := (ChunkGenerator.next (gen x)).1 in
  same_transfer x (set_gen g x) ∧
  if ChunkGenerator.last (gen x)
  then ChunkGenerator.curAddr (gen x) + ChunkGenerator.curSize (gen x) = fin x
  else ChunkGenerator.wf k (fin x) g ∧ 0 < ChunkGenerator.curSize g ∧
       ChunkGenerator.curAddr g = ChunkGenerator.curAddr (gen x) + ChunkGenerator.curSize (gen x).
Proof.
  intros Hk Hs Hf Hwf Hsz g. pose proof Hwf as [_ Hnx Hfn _ _ _ _ _].
  destruct (ChunkGenerator.last (gen x)) eqn:Hl.
  - assert (ChunkGenerator.startAddr g = ChunkGenerator.startAddr (gen x)) as Hst.
    { unfold g, ChunkGenerator.next. by rewrite Hl. }
    split; [by repeat split|]. unfold ChunkGenerator.last in Hl. lia.
  - destruct (ChunkGenerator.next_wf k ltac:(lia) (fin x) (gen x) Hf Hwf)
      as (Hg & Hst & _ & Hcur & Hsz'); [unfold ChunkGenerator.last in Hl; lia|].
    split; [by repeat split|]. by split_and!.
Qed.

(** A transfer that is not concerned by a change of the lists. *)
Lemma good_other k s s' fl fl' i x :
  (i ∈ transmitList s' ↔ i ∈ transmitList s) → outstanding i fl' = outstanding i fl → good k s fl i x → good k s' fl' i x.
Proof.
  intros Hl Ho [? ? ? ? ? ? ? ? Hb Ha Hlf]. assert (remaining s' i x = remaining s i x) as Hr
    by (unfold remaining; by apply decide_ext).
  constructor; rewrite ?Hr, ?Ho; try done. intros Hi. by apply Ha, Hl.
Qed.

Lemma good_ext k s s' fl i x : transmitList s' = transmitList s → good k s fl i x → good k s' fl i x.
Proof. intros Hl. apply good_other; [by rewrite Hl|done]. Qed.

(** The events of the transfers, when those in use do not change. *)
Lemma events_same k c s' :
  core k c → in_use s' ≡ₚ in_use (port c) → started c ≡ₚ fired c ++ in_use s' ∧ NoDup (in_use s').
Proof. intros Hc Hu. rewrite Hu. split; apply Hc. Qed.

Lemma in_use_update s s' i x y :
  events s' = events s → states s !! i = Some x → states s' = <[i := y]> (states s) →
  completionEvent y = completionEvent x → in_use s' ≡ₚ in_use s.
Proof. intros He Hx Hst Hc. unfold in_use. by rewrite He, Hst, (owed_update _ i x). Qed.

(** A port that differs in its sending side only. *)
Lemma core_frame k c s' n :
  core k c → states s' = states (port c) → transmitList s' = transmitList (port c) →
  pendingCount s' = pendingCount (port c) → cacheLineSize s' = cacheLineSize (port c) →
  events s' = events (port c) → retry_ok s' →
  core k (mkSys n s' (inflight c) (started c) (fired c)).
Proof.
  intros [Hk Hline Hcnt Hbd Hnd Hin Hgood Hfl _ Hevs Hfr] Hst Hl Hp Hc He Hr.
  constructor; simpl; unfold in_use; rewrite ?Hst, ?Hl, ?Hp, ?Hc, ?He; try done.
  - intros i x Hx. eapply good_ext; [exact Hl|]. by apply Hgood.
  - eapply Forall_impl; [exact Hfl|]. intros p (i & x & Hx & Hpx). exists i, x. by rewrite Hst.
Qed.

(** A packet joins those in flight: the bytes move from [remaining] to
    [outstanding]. *)
Lemma send_state k c i l x tm d s' :
  core k c → room c → transmitList (port c) = i :: l → states (port c) !! i = Some x →
  data x = Some d →
  let g := (ChunkGenerator.next (gen x)).1 in
  let p := chunk_packet tm i (cmd x) (id x) (ptr_add d (ChunkGenerator.curAddr (gen x) - start x))
             (ChunkGenerator.curAddr (gen x)) (ChunkGenerator.curSize (gen x)) in
  states s' = <[i := set_gen g x]> (states (port c)) →
  transmitList s' = (if ChunkGenerator.last (gen x) then l else i :: l) →
  pendingCount s' = pendingCount (port c) + 1 → inRetry s' = None →
  cacheLineSize s' = cacheLineSize (port c) → events s' = events (port c) →
  core k (mkSys (now c) s' (inflight c ++ [p]) (started c) (fired c)).
Proof.
  intros Hc Hroom Hl Hx Hd g p Hst Htl Hpc Hir Hcl Hev. pose proof Hc as [Hk Hline Hcnt Hbd Hnd Hin Hgood Hfl Hret _ _].
  destruct (Hgood i x Hx) as [Hs Hf Hdata Hevt Hflags Hcmd Hab Hnum Hbal Hact Hleft].
  destruct (Hact ltac:(rewrite Hl; by left)) as [Hwf Hsz].
  destruct (next_gen k x Hk Hs Hf Hwf Hsz) as [Hsame Hnext]. fold g in Hsame, Hnext.
  pose proof Hwf as [_ Hnx Hfn Hord [_ Hleft'] _ _ _].
  assert (packet_of i x p) as Hp.
  { exists tm, d, (ChunkGenerator.curAddr (gen x)), (ChunkGenerator.curSize (gen x)).
    unfold start in *. split_and!; done || lia. }
  rewrite Hl in Hnd. apply NoDup_cons in Hnd as [Hil Hnd].
  assert (∀ j, j ≠ i → j ∈ transmitList s' ↔ j ∈ transmitList (port c)) as Hmem.
  { intros j Hj. rewrite Htl, Hl, elem_of_cons.
    destruct (ChunkGenerator.last (gen x)); rewrite ?elem_of_cons; tauto. }
  destruct (events_same k c s' Hc) as [Hevs Hfr]; [eapply in_use_update; [..|exact Hst|]; done|].
  constructor; simpl; try done.
  - by rewrite Hcl.
  - rewrite Hpc, Hcnt, length_app. simpl. lia.
  - rewrite length_app. simpl. unfold room in Hroom. lia.
  - rewrite Htl. destruct (ChunkGenerator.last (gen x)); [done|]. by apply NoDup_cons.
  - intros j Hj. rewrite Hst. destruct (decide (i = j)) as [<-|Hne].
    + rewrite lookup_insert_eq. by eexists.
    + rewrite lookup_insert_ne by done. apply Hin. by apply Hmem.
  - intros j y Hy. rewrite Hst in Hy. destruct (decide (i = j)) as [<-|Hne].
    + rewrite lookup_insert_eq in Hy. injection Hy as <-.
      destruct Hsame as (_ & _ & _ & Hstart & Htot & _).
      assert (fin (set_gen g x) = fin x) as Hfin by (unfold fin; by rewrite Hstart).
      assert (remaining s' i (set_gen g x) = remaining (port c) i x - ChunkGenerator.curSize (gen x)
        ∧ (i ∈ transmitList s' → ChunkGenerator.wf k (fin x) g ∧ 0 < ChunkGenerator.curSize g))
        as [Hrem Hact'].
      { unfold remaining. rewrite Hfin, Htl, Hl, (decide_True (P := i ∈ i :: l)) by by left.
        destruct (ChunkGenerator.last (gen x)).
        - rewrite decide_False by done. split; [lia|done].
        - rewrite decide_True by by left. simpl. destruct Hnext as (? & ? & ->). split; [lia|done]. }
      assert (outstanding i (inflight c ++ [p]) = outstanding i (inflight c) +
        ChunkGenerator.curSize (gen x)) as Hout.
      { rewrite outstanding_app. simpl. destruct (packet_of_sent _ _ _ Hp) as [-> _]. simpl. lia. }
      constructor; simpl; rewrite ?Hfin, ?Hstart, ?Hrem, ?Hout; try done || lia.
    + rewrite lookup_insert_ne in Hy by done.
      eapply good_other; [by apply Hmem| |by apply Hgood].
      rewrite outstanding_app. simpl. rewrite (packet_of_other _ _ _ _ Hp Hne). lia.
  - apply Forall_app. split.
    + eapply Forall_impl; [exact Hfl|]. intros q Hq. by eapply flying_update.
    + repeat constructor. exists i, (set_gen g x). rewrite Hst, lookup_insert_eq. split; [done|].
      by eapply packet_of_same.
  - unfold retry_ok. by rewrite Hir.
Qed.

(** [trySendTimingReq] never fails, and leaves somebody to send the rest. *)
Lemma trySend_ok k c edge accepted :
  core k c → room c → transmitList (port c) ≠ [] → retryPending (port c) = false →
  sendEvent (port c) = None → now c <= edge →
  ∃ o s', trySendTimingReq (now c) edge accepted (port c) = Ok (o, s') ∧
    ok k (mkSys (now c) s' (inflight c ++ option_list o) (started c) (fired c)).
Proof.
  intros Hc Hroom Hne Hrp Hse Hedge. unfold trySendTimingReq.
  destruct (transmitList (port c)) as [|i l] eqn:Hl; [done|].
  destruct (c_list k c Hc i) as [x Hx]; [rewrite Hl; by left|].
  unfold state_at. rewrite Hx, res_bind_Ok.
  destruct (next_packet k c i l x Hc Hl Hx) as (tm & d & Hd & ->). rewrite res_bind_Ok.
  set (p := chunk_packet _ _ _ _ _ _ _). destruct accepted; cbn [set_retry set_pendingCount retryPending].
  - rewrite Hrp. pose proof (c_count k c Hc) as Hcnt.
    assert (u32 (pendingCount (port c) + 1) = pendingCount (port c) + 1) as Hu.
    { unfold u32. apply Z.mod_small. unfold room in Hroom. lia. }
    pose proof (send_state k c i l x tm d) as Hsend. cbn zeta in Hsend. fold p in Hsend.
    destruct (ChunkGenerator.last (gen x)) eqn:Hlast.
    + cbn [transmitList set_transmitList]. destruct l as [|j l].
      * eexists _, _. split; [reflexivity|]. split; [|done]. apply Hsend; try done.
      * rewrite (proj2 (Z.leb_le _ _) Hedge). cbn [ensure]. rewrite res_bind_Ok. simpl. rewrite Hse.
        simpl. eexists _, _. split; [reflexivity|]. split; [by apply Hsend|].
        unfold live. simpl. eauto.
    + cbn [transmitList set_states set_pendingCount set_retry]. simpl. rewrite Hl.
      rewrite (proj2 (Z.leb_le _ _) Hedge). cbn [ensure]. rewrite res_bind_Ok, Hse. simpl.
      eexists _, _. split; [reflexivity|]. split; [by apply Hsend|].
      unfold live. simpl. rewrite Hl. eauto.
  - eexists _, _. split; [reflexivity|]. simpl. rewrite app_nil_r.
    destruct (c_state k c Hc i x Hx) as [Hs Hf _ _ _ _ _ _ _ Hact _].
    destruct (Hact ltac:(rewrite Hl; by left)) as [[_ Hnx Hfn Hord [_ Hleft'] _ _ _] Hsz].
    split; [|unfold live; simpl; rewrite Hl; by eauto]. apply core_frame; try done.
    unfold retry_ok. simpl. intros q Hq. apply (inj Some) in Hq as <-. exists i, l, x, tm, d.
    split_and!; try done. unfold p. do 2 f_equal.
    unfold ChunkGenerator.complete, start, fin in *. symmetry. apply u64_small. auto with width.
Qed.

(** ** Starting a transfer *)

Lemma outstanding_fresh i s fl : states s !! i = None → Forall (flying s) fl → outstanding i fl = 0.
Proof.
  intros Hi. induction 1 as [|p fl (j & x & Hx & Hp) _ IH]; simpl; [done|].
  rewrite (packet_of_other _ i _ _ Hp) by congruence. lia.
Qed.

Lemma push_ok k c cmd a size e d dl :
  core k c → sane_action k cmd a size → e ∉ in_use (port c) →
  ∃ s', push_state cmd a size (Some e) (Some d) dl 0 (port c) = Ok s' ∧
    core k (mkSys (now c) s' (inflight c) (started c ++ [e]) (fired c)) ∧ transmitList s' ≠ [] ∧
    sendEvent s' = sendEvent (port c) ∧ retryPending s' = retryPending (port c) ∧
    inRetry s' = inRetry (port c) ∧
    (∀ i l, transmitList (port c) = i :: l → ∃ l', transmitList s' = i :: l').
Proof.
  intros Hc [Hcmd Ha Hsz Hend] Hnew. pose proof Hc as [Hk Hline Hcnt Hbd Hnd Hin Hgood Hfl Hret Hevs Hfr].
  assert (0 < 2 ^ k) by (apply Z.pow_pos_nonneg; lia).
  unfold push_state. rewrite Hline, (u64_small size) by auto with width.
  destruct (ChunkGenerator.create_Ok a size k ltac:(lia)) as [g Hg]. rewrite Hg, res_bind_Ok.
  destruct (ChunkGenerator.create_wf k ltac:(lia) a size g) as (Hwf & Hst & Hcur & Hdone);
    [lia|lia|lia|done|].
  assert (0 < ChunkGenerator.curSize g) as Hcs.
  { pose proof Hwf as [_ _ _ _ [? _] _ _ _]. unfold ChunkGenerator.done in Hdone.
    destruct (Z.eqb_spec (ChunkGenerator.curSize g) 0); [|lia].
    assert (size = 0) by by apply Hdone. lia. }
  pose proof (is_fresh (dom (states (port c)))) as Hfresh. apply not_elem_of_dom in Hfresh.
  set (i := fresh (dom (states (port c)))) in *.
  set (x := mkState (Some e) None false size 0 dl g (Some d) 0 (requestorId (port c)) cmd).
  assert (i ∉ transmitList (port c)) as Hni.
  { intros [y Hy]%Hin. congruence. }
  eexists. split; [reflexivity|]. simpl. split_and!; try done.
  2:{ by intros [_ ?]%app_eq_nil. }
  2:{ intros j l ->. simpl. eauto. }
  assert (∀ s', events s' = events (port c) → states s' = <[i := x]> (states (port c)) →
    in_use s' ≡ₚ in_use (port c) ++ [e]) as Hu.
  { intros s' He Hs'. unfold in_use. rewrite He, Hs'.
    rewrite (owed_split (<[i := x]> _) i x) by apply lookup_insert_eq. simpl.
    rewrite delete_insert_id by done. rewrite <-app_assoc. apply Permutation_app_head.
    by rewrite (Permutation_app_comm _ [e]). }
  constructor; simpl; try done.
  - apply NoDup_app. split_and!; [done| |apply NoDup_singleton].
    intros j Hj ->%list_elem_of_singleton. done.
  - intros j [Hj| ->%list_elem_of_singleton]%elem_of_app.
    + destruct (decide (i = j)) as [<-|]; [done|]. rewrite lookup_insert_ne by done. by apply Hin.
    + rewrite lookup_insert_eq. by eexists.
  - intros j y Hy. destruct (decide (i = j)) as [<-|Hne].
    + rewrite lookup_insert_eq in Hy. injection Hy as <-.
      assert (outstanding i (inflight c) = 0) as Hout by by eapply outstanding_fresh.
      assert (fin x = a + size) as Hfx by (unfold fin, start; simpl; lia).
      constructor; rewrite ?Hfx, ?Hout; unfold start, remaining; simpl; rewrite ?Hfx; try (done || lia).
      * rewrite decide_True by (apply elem_of_app; right; by apply list_elem_of_singleton). lia.
      * rewrite decide_True by (apply elem_of_app; right; by apply list_elem_of_singleton). lia.
    + rewrite lookup_insert_ne in Hy by done.
      eapply good_other; [|done|by apply Hgood]. simpl. rewrite elem_of_app, list_elem_of_singleton. naive_solver.
  - eapply Forall_impl; [exact Hfl|]. intros p (j & y & Hy & Hp). exists j, y. simpl.
    rewrite lookup_insert_ne by congruence. done.
  - intros p Hp. destruct (Hret p Hp) as (j & l & y & tm & d' & Hl & Hy & Hrest).
    exists j, (l ++ [i]), y, tm, d'. simpl. rewrite Hl, lookup_insert_ne by congruence. done.
  - rewrite Hevs, <-(assoc_L (++)). apply Permutation_app_head. symmetry. by apply Hu.
  - match goal with |- NoDup (in_use ?s') => rewrite (Hu s' eq_refl eq_refl) end.
    apply NoDup_app. split_and!; [done| |apply NoDup_singleton].
    by intros j Hj ->%list_elem_of_singleton.
Qed.

(** ** Responses *)

Lemma recvTimingResp_chunk tn now i c rid d a n p' s :
  dma_command c → Packet.answers (chunk_packet tn i c rid d a n) p' →
  recvTimingResp now p' s = handleResp now i n 0 s.
Proof.
  intros Hc Hr. unfold recvTimingResp.
  rewrite (handleRespPacket_chunk now tn i c rid d a n p' 0 s Hc Hr).
  by destruct Hc as [->| ->], Hr as (r & hd & pd & [= <-] & ->).
Qed.

Lemma remaining_pos k s fl i x :
  good k s fl i x → 0 <= remaining s i x ∧ (i ∈ transmitList s → 0 < remaining s i x).
Proof.
  intros [_ _ _ _ _ _ _ _ _ Ha _]. unfold remaining. case_decide as Hi; [|split; [lia|done]].
  destruct (Ha Hi) as [[_ Hnx Hfn _ [_ ?] _ _ _] ?]. split; intros; lia.
Qed.

(** The completion event of a live transfer is not on the event queue. *)
Lemma owed_unscheduled s i x e :
  NoDup (in_use s) → states s !! i = Some x → completionEvent x = Some e → e ∉ (events s).*1.
Proof.
  unfold in_use. intros Hnd Hx He Hin. rewrite (owed_split _ i x Hx), He in Hnd.
  apply NoDup_app in Hnd as (_ & Hd & _). apply (Hd e Hin). by left.
Qed.

(** A response to the last bytes of a transfer completes it. *)
Lemma complete_core k c i x fl s' e :
  core k c → states (port c) !! i = Some x → Forall (flying (port c)) fl →
  outstanding i fl = 0 → i ∉ transmitList (port c) → completionEvent x = Some e →
  (∀ j, j ≠ i → outstanding j fl = outstanding j (inflight c)) →
  Z.of_nat (length fl) = pendingCount (port c) - 1 →
  states s' = delete i (states (port c)) → transmitList s' = transmitList (port c) →
  pendingCount s' = pendingCount (port c) - 1 → cacheLineSize s' = cacheLineSize (port c) →
  inRetry s' = inRetry (port c) → (events s').*1 = (events (port c)).*1 ++ [e] →
  core k (mkSys (now c) s' fl (started c) (fired c)).
Proof.
  intros Hcore Hx Hfl Hout Hni He Hother Hlen Hst Hl Hp Hc Hir Hev.
  pose proof Hcore as [Hk Hline Hcnt Hbd Hnd Hin Hgood _ Hret _ _].
  destruct (events_same k c s' Hcore) as [Hevs Hfr].
  { unfold in_use. rewrite Hev, Hst, (owed_split _ i x Hx), He. simpl. by rewrite <-app_assoc. }
  constructor; simpl; rewrite ?Hl, ?Hp, ?Hc; try done || lia.
  - intros j Hj. rewrite Hst, lookup_delete_ne by (intros <-; done). by apply Hin.
  - intros j y. rewrite Hst. intros [Hne Hy]%lookup_delete_Some.
    destruct (Hgood j y Hy) as [? ? ? ? ? ? ? ? Hb Ha Hlf].
    assert (remaining s' j y = remaining (port c) j y) as Hr by (unfold remaining; by rewrite Hl).
    constructor; rewrite ?Hr, ?Hl, ?Hother by done; done.
  - apply Forall_forall. intros q Hq. pose proof (outstanding_zero _ _ _ _ Hfl Hout Hq) as Hs.
    rewrite Forall_forall in Hfl. destruct (Hfl q Hq) as (j & y & Hy & Hqy). exists j, y.
    rewrite Hst, lookup_delete_ne; [done|]. intros <-. apply Hs.
    by destruct Hqy as (? & ? & ? & ? & _ & -> & _).
  - unfold retry_ok. rewrite Hir. intros q Hq.
    destruct (Hret q Hq) as (j & l & y & tm & d & Hjl & Hy & Hrest).
    exists j, l, y, tm, d. rewrite Hl, Hst, lookup_delete_ne; [done|].
    intros <-. apply Hni. rewrite Hjl. by left.
Qed.

(** A response to some bytes of a transfer. *)
Lemma progress_core k c i x n fl s' :
  core k c → states (port c) !! i = Some x → Forall (flying (port c)) fl → 0 < n →
  outstanding i (inflight c) = n + outstanding i fl →
  0 < outstanding i fl + remaining (port c) i x →
  (∀ j, j ≠ i → outstanding j fl = outstanding j (inflight c)) →
  Z.of_nat (length fl) = pendingCount (port c) - 1 →
  states s' = <[i := set_numBytes (numBytes x + n) x]> (states (port c)) →
  transmitList s' = transmitList (port c) →
  pendingCount s' = pendingCount (port c) - 1 → cacheLineSize s' = cacheLineSize (port c) →
  inRetry s' = inRetry (port c) → events s' = events (port c) →
  core k (mkSys (now c) s' fl (started c) (fired c)).
Proof.
  intros Hcore Hx Hfl Hn Hout Hleft Hother Hlen Hst Hl Hp Hc Hir Hev.
  pose proof Hcore as [Hk Hline Hcnt Hbd Hnd Hin Hgood _ Hret _ _].
  destruct (events_same k c s' Hcore) as [Hevs Hfr]; [by eapply in_use_update|].
  assert (same_transfer x (set_numBytes (numBytes x + n) x)) as Hsame by by repeat split.
  constructor; simpl; rewrite ?Hl, ?Hp, ?Hc; try done || lia.
  - intros j Hj. rewrite Hst. destruct (decide (i = j)) as [<-|Hne].
    + rewrite lookup_insert_eq. by eexists.
    + rewrite lookup_insert_ne by done. by apply Hin.
  - intros j y. rewrite Hst. assert (∀ z, remaining s' j z = remaining (port c) j z) as Hr
      by (intros; unfold remaining; by rewrite Hl).
    destruct (decide (i = j)) as [<-|Hne].
    + rewrite lookup_insert_eq. intros [= <-].
      destruct (Hgood i x Hx) as [? ? ? ? ? ? ? ? Hb Ha Hlf].
      change (remaining (port c) i x) with (remaining (port c) i (set_numBytes (numBytes x + n) x)) in *.
      constructor; rewrite ?Hr, ?Hl; simpl; try done || lia.
    + rewrite lookup_insert_ne by done. intros Hy. destruct (Hgood j y Hy) as [? ? ? ? ? ? ? ? Hb Ha Hlf].
      constructor; rewrite ?Hr, ?Hl, ?Hother by done; done.
  - eapply Forall_impl; [exact Hfl|]. intros q Hq. by eapply flying_update.
  - unfold retry_ok. rewrite Hir. intros q Hq.
    destruct (Hret q Hq) as (j & l & y & tm & d & Hjl & Hy & Hd & ->).
    destruct (decide (i = j)) as [<-|Hne].
    + assert (y = x) as -> by congruence. exists i, l, (set_numBytes (numBytes x + n) x), tm, d.
      rewrite Hl, Hst, lookup_insert_eq. done.
    + exists j, l, y, tm, d. rewrite Hl, Hst, lookup_insert_ne; done.
Qed.

Lemma response_ok k c l1 p l2 p' :
  core k c → inflight c = l1 ++ p :: l2 → Packet.answers p p' →
  ∃ s', recvTimingResp (now c) p' (port c) = Ok s' ∧
    core k (mkSys (now c) s' (l1 ++ l2) (started c) (fired c)) ∧
    transmitList s' = transmitList (port c) ∧ sendEvent s' = sendEvent (port c) ∧
    retryPending s' = retryPending (port c) ∧ inRetry s' = inRetry (port c).
Proof.
  intros Hc Hfly Hresp. pose proof Hc as [Hk Hline Hcnt Hbd _ _ Hgood Hfl _ _ Hfr].
  rewrite Hfly in Hfl. apply Forall_app in Hfl as [Hfl1 Hfl2].
  apply Forall_cons_1 in Hfl2 as [(i & x & Hx & Hpx) Hfl2].
  pose proof (Hgood i x Hx) as Hgx. pose proof (remaining_pos _ _ _ _ _ Hgx) as [Hr0 Hrp].
  destruct Hgx as [Hs Hf _ [e He] _ Hcmd Hab Hnum Hbal _ _].
  destruct (packet_of_sent _ _ _ Hpx) as [Hsent Hpos].
  assert (Forall (flying (port c)) (l1 ++ l2)) as Hfl' by by apply Forall_app.
  pose proof (outstanding_nonneg i _ _ Hfl') as Hout0.
  assert (∀ j, outstanding j (inflight c) = sent_by j p + outstanding j (l1 ++ l2)) as Hout.
  { intros j. rewrite Hfly, !outstanding_app. simpl. lia. }
  assert (∀ j, j ≠ i → outstanding j (l1 ++ l2) = outstanding j (inflight c)) as Hother.
  { intros j Hj. rewrite Hout, (packet_of_other _ _ _ _ Hpx) by congruence. lia. }
  assert (Z.of_nat (length (l1 ++ l2)) = pendingCount (port c) - 1) as Hlen.
  { rewrite Hcnt, Hfly, !length_app. simpl. lia. }
  rewrite (Hout i), Hsent in Hbal. pose proof Hpx as (tm & d & a & n & _ & -> & Hn & _).
  simpl in Hbal, Hpos. rewrite (recvTimingResp_chunk _ _ _ _ _ _ _ _ _ _ Hcmd Hresp).
  unfold handleResp. destruct (Z.eqb_spec (pendingCount (port c)) 0); [lia|]. cbn [negb ensure].
  rewrite res_bind_Ok. unfold state_at. cbn [states set_pendingCount]. rewrite Hx, res_bind_Ok.
  assert (u64 (numBytes x + n) = numBytes x + n) as ->.
  { apply u64_small. unfold is_u64, fin in *. lia. }
  cbn [numBytes totBytes set_numBytes]. destruct (Z.leb_spec (numBytes x + n) (totBytes x)); [|lia].
  cbn [ensure]. rewrite res_bind_Ok. cbn [aborted set_numBytes]. rewrite Hab.
  destruct (Z.eqb_spec (totBytes x) (numBytes x + n)) as [Hall|Hsome].
  - cbn [completionEvent set_numBytes]. rewrite He, signal_Ok by (simpl; by eapply owed_unscheduled).
    eexists. split; [reflexivity|]. split_and!; try done.
    eapply (complete_core k c i x); try done; [lia| |simpl; by rewrite fmap_app].
    intros Hi%Hrp. lia.
  - eexists. split; [reflexivity|]. split_and!; try done.
    eapply (progress_core k c i x n); try done; [|lia]. by rewrite (Hout i), Hsent.
Qed.

(** ** Handlers *)

Lemma action_ok k c edge accepted cmd a size e d dl :
  ok k c → sane_action k cmd a size → now c <= edge → room c → e ∉ in_use (port c) →
  ∃ o s', dmaAction_timing (now c) edge accepted cmd a size (Some e) (Some d) dl 0 (port c) =
      Ok (o, s') ∧
    ok k (mkSys (now c) s' (inflight c ++ option_list o) (started c ++ [e]) (fired c)).
Proof.
  intros [Hc Hlive] Hsa Hedge Hroom Hnew. unfold dmaAction_timing.
  destruct (push_ok k c cmd a size e d dl Hc Hsa Hnew) as (s1 & -> & Hc1 & Hne & Hse & Hrp & Hir & Hfront).
  rewrite res_bind_Ok. unfold sendDma_timing. rewrite (bool_decide_false (transmitList s1 = [])) by done. cbn [negb ensure].
  rewrite res_bind_Ok, Hse, Hrp.
  destruct (retryPending (port c) || negb (bool_decide (sendEvent (port c) = None))) eqn:E.
  - exists None, s1. split; [done|]. simpl. rewrite app_nil_r. split; [done|]. unfold live in *. simpl.
    destruct (transmitList (port c)) as [|i l].
    { destruct Hlive as [Hs Hr]. rewrite Hs, Hr in E. done. }
    destruct (Hfront i l eq_refl) as [l' ->]. by rewrite Hrp, Hse, Hir.
  - apply orb_false_iff in E as [Er Es]. apply negb_false_iff, bool_decide_eq_true_1 in Es.
    apply (trySend_ok k (mkSys (now c) s1 (inflight c) (started c ++ [e]) (fired c))); simpl; congruence || done.
Qed.

Lemma send_ok k c edge accepted :
  ok k c → sendEvent (port c) = Some (now c) → now c <= edge → room c →
  ∃ o s', process_sendEvent (now c) edge accepted (port c) = Ok (o, s') ∧
    ok k (mkSys (now c) s' (inflight c ++ option_list o) (started c) (fired c)).
Proof.
  intros [Hc Hlive] Hse Hedge Hroom. unfold live in Hlive. unfold process_sendEvent, sendDma_timing.
  simpl. destruct (transmitList (port c)) as [|i l] eqn:Hl; [destruct Hlive; congruence|].
  destruct (retryPending (port c)) eqn:Hrp; [destruct Hlive; congruence|]. simpl.
  apply (trySend_ok k (mkSys (now c) (set_sendEvent None (port c)) (inflight c) (started c) (fired c)));
    simpl; try (congruence || done). apply core_frame; try done. apply Hc.
Qed.

Lemma req_retry_ok k c edge accepted :
  ok k c → retryPending (port c) = true → now c <= edge → room c →
  ∃ o s', recvReqRetry (now c) edge accepted (port c) = Ok (o, s') ∧
    ok k (mkSys (now c) s' (inflight c ++ option_list o) (started c) (fired c)).
Proof.
  intros [Hc Hlive] Hrp Hedge Hroom. unfold live in Hlive. unfold recvReqRetry. simpl.
  destruct (transmitList (port c)) as [|i l] eqn:Hl; [destruct Hlive; congruence|].
  rewrite Hrp in Hlive. destruct Hlive as [Hse _].
  apply (trySend_ok k (mkSys (now c) (set_retry (inRetry (port c)) false (port c))
    (inflight c) (started c) (fired c))); simpl; try (congruence || done). apply core_frame; try done. apply Hc.
Qed.

Lemma response_live k c l1 p l2 p' :
  ok k c → inflight c = l1 ++ p :: l2 → Packet.answers p p' →
  ∃ s', recvTimingResp (now c) p' (port c) = Ok s' ∧
    ok k (mkSys (now c) s' (l1 ++ l2) (started c) (fired c)).
Proof.
  intros [Hc Hlive] Hf Hr.
  destruct (response_ok k c l1 p l2 p' Hc Hf Hr) as (s' & Hs & Hc' & Hl & Hse & Hrp & Hir).
  exists s'. split; [done|]. split; [done|]. unfold live in *. simpl. by rewrite Hl, Hse, Hrp, Hir.
Qed.

Lemma fire_ok k c l1 e when l2 :
  ok k c → events (port c) = l1 ++ (e, when) :: l2 →
  ok k (mkSys (now c) (set_events (l1 ++ l2) (port c)) (inflight c) (started c) (fired c ++ [e])).
Proof.
  intros [[Hk Hline Hcnt Hbd Hnd Hin Hgood Hfl Hret Hevs Hfr] Hlive] He. split; [|done].
  assert (in_use (port c) ≡ₚ e :: in_use (set_events (l1 ++ l2) (port c))) as Hu.
  { unfold in_use. rewrite He. simpl. rewrite !fmap_app. simpl. by rewrite <-Permutation_middle. }
  rewrite Hu in Hevs, Hfr. constructor; simpl; try done.
  - intros i x Hx. eapply good_ext; [|by apply Hgood]. done.
  - rewrite Hevs, <-app_assoc. done.
  - by apply NoDup_cons in Hfr as [_ ?].
Qed.

Lemma timing_step_ok k c c' : ok k c → step k c c' → ok k c'.
Proof.
  intros Hok Hstep. destruct Hstep as [c n Hn He _|c edge acc cmd a size e d dl o s' Hsa Hed Hrm Hnew H
    |c edge acc o s' Hse Hed Hrm H|c edge acc o s' Hrp Hed Hrm H|c l1 p l2 p' s' Hf Hr H|c l1 e l2 He].
  - destruct Hok as [Hc Hlive]. split; [apply core_frame; try done; apply Hc|]. unfold live in *. simpl.
    destruct (transmitList (port c)); [done|]. destruct (retryPending (port c)); [done|].
    destruct Hlive as (? & x & Hx & ?). split; [done|]. exists x. split; [done|]. by apply He.
  - destruct (action_ok k c edge acc cmd a size e d dl Hok Hsa Hed Hrm Hnew) as (o' & s2 & H' & Hok').
    rewrite H in H'. by injection H' as -> ->.
  - destruct (send_ok k c edge acc Hok Hse Hed Hrm) as (o' & s2 & H' & Hok').
    rewrite H in H'. by injection H' as -> ->.
  - destruct (req_retry_ok k c edge acc Hok Hrp Hed Hrm) as (o' & s2 & H' & Hok').
    rewrite H in H'. by injection H' as -> ->.
  - destruct (response_live k c l1 p l2 p' Hok Hf Hr) as (s2 & H' & Hok').
    rewrite H in H'. by injection H' as ->.
  - by eapply fire_ok.
Qed.

(** With nothing to send and nothing in flight, every transfer is complete. *)
Lemma quiescent k c :
  core k c → transmitList (port c) = [] → inflight c = [] →
  states (port c) = ∅ ∧ started c ≡ₚ fired c ++ (events (port c)).*1.
Proof.
  intros Hc Hl Hf. assert (states (port c) = ∅) as Hst.
  { apply map_eq. intros i. rewrite lookup_empty. destruct (states (port c) !! i) as [x|] eqn:Hx; [|done].
    destruct (c_state k c Hc i x Hx) as [_ _ _ _ _ _ _ _ _ _ Hleft]. unfold remaining in Hleft.
    rewrite Hl, Hf, decide_False in Hleft by by apply not_elem_of_nil. simpl in Hleft. lia. }
  split; [done|]. rewrite (c_events k c Hc). unfold in_use, owed. rewrite Hst.
  by rewrite map_to_list_empty, app_nil_r.
Qed.

(** C5: in every run of the DMA port in timing mode, whatever the order of
    responses, refusals, completion events and new transfers, each started with a
    completion event that is not in use: no handler fails an assertion or uses a
    deleted request state, and a new transfer can always be started; each packet
    in flight belongs to a live transfer and its data is the matching part of the
    transfer's buffer; the bytes of a transfer are those answered, in flight and
    still to send; a transfer with something to send has its event scheduled or a
    retry to come; the transfers started are those whose completion event ran,
    those whose event is scheduled and those still live, each in one of the three,
    and no event is scheduled twice; and when nothing is left to send or in
    flight, all are complete. *)
Theorem dma_timing_runs k c c' :
  ok k c → rtc (step k) c c' →
  Forall (flying (port c')) (inflight c') ∧ live (now c') (port c') ∧
  (∀ i x, states (port c') !! i = Some x →
     totBytes x = numBytes x + outstanding i (inflight c') + remaining (port c') i x ∧
     0 < outstanding i (inflight c') + remaining (port c') i x) ∧
  started c' ≡ₚ fired c' ++ (events (port c')).*1 ++ owed (states (port c')) ∧
  NoDup ((events (port c')).*1 ++ owed (states (port c'))) ∧
  (transmitList (port c') = [] → inflight c' = [] →
     states (port c') = ∅ ∧ started c' ≡ₚ fired c' ++ (events (port c')).*1) ∧
  (∀ l1 p l2 p', inflight c' = l1 ++ p :: l2 → Packet.answers p p' →
     ∃ s, recvTimingResp (now c') p' (port c') = Ok s) ∧
  (∀ edge acc, now c' <= edge → room c' → sendEvent (port c') = Some (now c') →
     ∃ r, process_sendEvent (now c') edge acc (port c') = Ok r) ∧
  (∀ edge acc, now c' <= edge → room c' → retryPending (port c') = true →
     ∃ r, recvReqRetry (now c') edge acc (port c') = Ok r) ∧
  (∀ edge acc cmd a size e d dl, now c' <= edge → room c' → sane_action k cmd a size →
     e ∉ (events (port c')).*1 ++ owed (states (port c')) →
     ∃ r, dmaAction_timing (now c') edge acc cmd a size (Some e) (Some d) dl 0 (port c') = Ok r).
Proof.
  intros Hok Hrun. assert (ok k c') as Hok' by (induction Hrun; eauto using timing_step_ok).
  pose proof Hok' as [Hc Hlive]. split_and!; try done.
  - apply Hc.
  - intros i x Hx. destruct (c_state k c' Hc i x Hx). done.
  - apply Hc.
  - apply Hc.
  - by apply quiescent with k.
  - intros l1 p l2 p' Hf Hr. destruct (response_live k c' l1 p l2 p' Hok' Hf Hr) as (s & Hs & _). eauto.
  - intros edge acc He Hr Hs. destruct (send_ok k c' edge acc Hok' Hs He Hr) as (o & s & H & _). eauto.
  - intros edge acc He Hr Hs. destruct (req_retry_ok k c' edge acc Hok' Hs He Hr) as (o & s & H & _). eauto.
  - intros edge acc cmd a size e d dl He Hr Hsa Hnew.
    destruct (action_ok k c' edge acc cmd a size e d dl Hok' Hsa He Hr Hnew) as (o & s & H & _). eauto.
Qed.

Definition demo : sys := mkSys 100 (create 7 64) [] [] [].

Lemma demo_dma_ok : ok 6 demo.
Proof.
  split; [|done]. constructor; simpl; try done; try lia; try constructor.
  - by intros i ?%not_elem_of_nil.
Qed.

(** A transfer of 100 bytes at 0x1004: the first packet, of 60 bytes, is sent. *)
Lemma dma_timing_runs_witness :
  ∃ c', rtc (step 6) demo c' ∧ (Packet.size <$> inflight c') = [60] ∧
    started c' ≡ₚ fired c' ++ (events (port c')).*1 ++ owed (states (port c')).
Proof.
  destruct (dmaAction_timing 100 200 true MemCmd.ReadReq 0x1004 100 (Some 1%positive)
    (Some (Ptr 4 0)) 0 0 (port demo)) as [[o s']|f] eqn:H; [|vm_compute in H; discriminate H].
  assert (step 6 demo (mkSys 100 s' ([] ++ option_list o) ([] ++ [1%positive]) [])) as Hstep.
  { apply (step_action 6 demo 200 true MemCmd.ReadReq 0x1004 100 1%positive (Ptr 4 0) 0 o s');
      [constructor; [by left|lia..]|simpl; lia|unfold room; simpl; lia|apply not_elem_of_nil|exact H]. }
  pose proof (rtc_once _ _ Hstep) as Hrun.
  destruct (dma_timing_runs 6 demo _ demo_dma_ok Hrun) as (_ & _ & _ & Hev & _).
  eexists. split; [exact Hrun|]. split; [|exact Hev].
  vm_compute in H. injection H as <- <-. reflexivity.
Defined.

End DmaTiming.
