(* ===== verification/DmaVirt.v ===== *)
(** DMA with virtual addresses: [DmaCallback] of [dev/dma_device.hh] and
    [DmaVirtDevice] of [dev/dma_virt_device.{hh,cc}], in atomic mode. *)

From S2P Require Import Prelude Bits ChunkGen Host Request MemCmd Packet AbstractMem MemInterface.
From S2P Require Import PageTable Dma.
Import Host DmaPort ChunkGenerator(tiles, tiles_nil, tiles_cons, tiles_cons_inv, in_block).

Module DmaVirtDevice.

Import EmulationPageTable (extent, for_ranges, good_range).
Notation Range := TranslationGen.Range.

Section Device.

(** [K] names the functions a callback may run. *)
Context {M : Type} {HM : ByteMemory M} {K : Type} (rng : nat → Z).

Record DmaCallback := mkCallback {
  count : Z;
  process : K;
}.

(** The live callbacks, the chunk events not run yet with the callback each
    belongs to, and the port with its memory. *)
Record t := mk {
  callbacks : gmap positive DmaCallback;
  chunkEvents : gmap positive positive;
  world : World M;
}.

Definition set_world (w : World M) (v : t) : t := mk (callbacks v) (chunkEvents v) w.

(** [new DmaVirtCallback(...)]. *)
Definition newCallback (f : K) (v : t) : positive * t :=
  let cb := fresh (dom (callbacks v)) in
  (cb, mk (<[cb := mkCallback 0 f]> (callbacks v)) (chunkEvents v) (world v)).

(** [getChunkEvent()]. *)
Definition getChunkEvent (cb : positive) (v : t) : res (positive * t) :=
  match callbacks v !! cb with
  | None => Fail UndefinedBehaviour
  | Some c =>
      let e := fresh (dom (chunkEvents v)) in
      Ok (e, mk (<[cb := mkCallback (count c + 1) (process c)]> (callbacks v))
               (<[e := cb]> (chunkEvents v)) (world v))
  end.

(** [chunkComplete()] of the callback of [e], run by the event [e], which then
    deletes itself; the function to run when it was the last chunk. *)
Definition chunkComplete (e : positive) (v : t) : res (option K * t) :=
  match chunkEvents v !! e with
  | None => Fail UndefinedBehaviour
  | Some cb =>
      match callbacks v !! cb with
      | None => Fail UndefinedBehaviour
      | Some c =>
          if count c - 1 =? 0
          then Ok (Some (process c), mk (delete cb (callbacks v)) (delete e (chunkEvents v)) (world v))
          else Ok (None, mk (<[cb := mkCallback (count c - 1) (process c)]> (callbacks v))
                            (delete e (chunkEvents v)) (world v))
      end
  end.

(** [schedule(event, when)] on the device, whose events go with those of its port. *)
Definition schedule (e : positive) (when : Z) (v : t) : res t :=
  s ← signal (Some e) when (port (world v));
  Ok (set_world (set_port s (world v)) v).

(** [DmaFnPtr]: one of [dmaRead] and [dmaWrite]. *)
Definition DmaFn : Type :=
  Z → Z → Z → option positive → ptr → Z → World M → res (World M).

(** The body of the loop of [dmaVirt]; [cb] is not null. *)
Definition dmaVirt_body (dmaFn : DmaFn) (now : Z) (cb : positive) (delay : Z) (r : Range)
    (x : ptr * t) : res (ptr * t) :=
  let '(loc_data, v) := x in
  fatal_unless! (bool_decide (TranslationGen.fault r = None));
  '(e, v) ← getChunkEvent cb v;
  w ← dmaFn now (TranslationGen.paddr r) (TranslationGen.size r) (Some e) loc_data delay (world v);
  Ok (ptr_add loc_data (TranslationGen.size r), set_world w v).

(** [dmaVirt(dmaFn, addr, size, cb, data, delay)]; [pt] is what the device's
    [translate] translates with. *)
Definition dmaVirt (dmaFn : DmaFn) (pt : res EmulationPageTable.t) (now addr size : Z)
    (cb : positive) (data : ptr) (delay : Z) (v : t) : res t :=
  if size =? 0 then
    '(e, v) ← getChunkEvent cb v;
    schedule e (now + delay) v
  else
    pt ← pt;
    '(_, v) ← for_ranges pt addr size (dmaVirt_body dmaFn now cb delay) (data, v);
    Ok v.

Definition dmaReadVirt := dmaVirt (dmaRead rng).
Definition dmaWriteVirt := dmaVirt (dmaWrite rng).

End Device.

Arguments t M K : clear implicits.
Arguments DmaCallback K : clear implicits.

(** ** Transfers *)

Section Proofs.

Context {M : Type} {HM : ByteMemory M} {K : Type} (rng : nat → Z).

(** The byte at a virtual address. *)
Definition vcontents (pt : EmulationPageTable.t) (m : M) (h : hmem) (x : Z) : option Z :=
  match EmulationPageTable.translate pt x with Some pa => contents m h pa | None => None end.

(** Each piece of the region inside a page is mapped to memory that serves it. *)
Definition vserves (pt : EmulationPageTable.t) (m : M) (pk k a n : Z) : Prop :=
  ∀ z l, 0 <= z → 0 < l → z + l <= n → in_block (2 ^ pk) (a + z, l) →
    ∃ pa, EmulationPageTable.translate pt (a + z) = Some pa ∧ pa + l < 2 ^ 64 - 2 ^ k ∧
      serves m k pa l.

(** A port that may start a transfer. *)
Record idle (k : Z) (s : DmaPort.t) : Prop := {
  idle_k : 0 <= k < 32;
  idle_line : cacheLineSize s = 2 ^ k;
  idle_list : transmitList s = [];
  idle_pending : pendingCount s = 0;
}.

Lemma idle_ready k a size s :
  idle k s → 0 <= a → 0 < size → a + size < 2 ^ 64 - 2 ^ k → ready k a size s.
Proof. intros []. constructor; try done; lia. Qed.

Lemma idle_signalled k e when s : idle k s → idle k (signalled e when s).
Proof. intros []. by destruct e. Qed.

(** The chunk events [L] are still to come, all of the one callback [cb], which
    runs [f]. *)
Record tracks (cb : positive) (f : K) (L : list positive) (v : t M K) : Prop := {
  tr_callbacks : callbacks v = {[cb := mkCallback (Z.of_nat (length L)) f]};
  tr_events e : chunkEvents v !! e = if decide (e ∈ L) then Some cb else None;
  tr_nodup : NoDup L;
}.

#[export] Instance tracks_perm cb f : Proper ((≡ₚ) ==> (=) ==> impl) (tracks cb f).
Proof.
  intros L L' HL v ? <- [Hc He Hn]. constructor; [by rewrite <-HL| |by rewrite <-HL].
  intros e. rewrite He. apply decide_ext. by rewrite HL.
Qed.

Lemma tracks_world cb f L w v : tracks cb f L v → tracks cb f L (set_world w v).
Proof. intros []. by constructor. Qed.

Lemma tracks_new cb f v v' :
  callbacks v = ∅ → chunkEvents v = ∅ → newCallback f v = (cb, v') →
  tracks cb f [] v' ∧ world v' = world v.
Proof.
  intros Hc He. unfold newCallback. rewrite Hc. intros [= <- <-]. split; [|done].
  constructor; simpl; [done| |constructor]. intros e. by rewrite He, lookup_empty.
Qed.

Lemma getChunkEvent_tracks cb f L v :
  tracks cb f L v →
  ∃ e v', getChunkEvent cb v = Ok (e, v') ∧ tracks cb f (e :: L) v' ∧ world v' = world v.
Proof.
  intros [Hc He Hn]. unfold getChunkEvent. rewrite Hc, lookup_singleton_eq. simpl.
  pose proof (is_fresh (dom (chunkEvents v))) as Hfresh. apply not_elem_of_dom in Hfresh.
  set (e := fresh (dom (chunkEvents v))) in *. rewrite He in Hfresh. case_decide; [done|].
  do 2 eexists. split; [done|]. split; [|done]. constructor; simpl.
  - rewrite insert_singleton_eq. do 2 f_equal. lia.
  - intros x. destruct (decide (e = x)) as [<-|Hne].
    + rewrite lookup_insert_eq, decide_True; [done|by left].
    + rewrite lookup_insert_ne, He by done. apply decide_ext. rewrite elem_of_cons. naive_solver.
  - by constructor.
Qed.

(** Running one of the chunk events. *)
Lemma chunkComplete_tracks cb f L e L' v :
  tracks cb f L v → L ≡ₚ e :: L' →
  ∃ v', world v' = world v ∧
    match L' with
    | [] => chunkComplete e v = Ok (Some f, v') ∧ callbacks v' = ∅ ∧ chunkEvents v' = ∅
    | _ :: _ => chunkComplete e v = Ok (None, v') ∧ tracks cb f L' v'
    end.
Proof.
  intros Htr HL. rewrite HL in Htr. destruct Htr as [Hc He [Hni Hn]%NoDup_cons].
  unfold chunkComplete. rewrite He, decide_True by by left. rewrite Hc, lookup_singleton_eq. simpl.
  assert (∀ x, delete e (chunkEvents v) !! x = if decide (x ∈ L') then Some cb else None) as Hd.
  { intros x. destruct (decide (e = x)) as [<-|Hne].
    - by rewrite lookup_delete_eq, decide_False.
    - rewrite lookup_delete_ne, He by done. apply decide_ext. rewrite elem_of_cons. naive_solver. }
  destruct L' as [|e' L'].
  - eexists. split; [|split; [done|split; simpl]]; [done|apply delete_singleton_eq|].
    apply map_eq. intros x. rewrite Hd, lookup_empty, decide_False; [done|set_solver].
  - destruct (Z.eqb_spec (Z.of_nat (S (length (e' :: L'))) - 1) 0); [simpl in *; lia|].
    eexists. split; [|split; [done|]]; [done|]. constructor; simpl; [|done|done].
    rewrite insert_singleton_eq. do 2 f_equal. lia.
Qed.

(** [J z w] holds once [z] bytes of the region at [a] are transferred, and each call
    of [dmaFn] for a translated range with a new event advances it and adds the
    event to [evs]. *)
Definition vadvances (evs : World M → list positive) (dmaFn : DmaFn)
    (pt : EmulationPageTable.t) (pk now a n delay : Z) (data : ptr) (J : Z → World M → Prop) : Prop :=
  ∀ z e r w, good_range pk pt r → TranslationGen.vaddr r = a + z → 0 <= z →
    0 < TranslationGen.size r → z + TranslationGen.size r <= n → e ∉ evs w → J z w →
    ∃ w', dmaFn now (TranslationGen.paddr r) (TranslationGen.size r) (Some e)
        (ptr_add data z) delay w = Ok w' ∧
      J (z + TranslationGen.size r) w' ∧ evs w' ≡ₚ e :: evs w.

Lemma virt_loop evs dmaFn pt pk now a n delay data cb f J :
  vadvances evs dmaFn pt pk now a n delay data J →
  ∀ l z (v : t M K), tiles (a + z) (n - z) (extent <$> l) → Forall (good_range pk pt) l → 0 <= z →
    tracks cb f (evs (world v)) v → J z (world v) →
    ∃ v', TranslationGen.run_body (dmaVirt_body dmaFn now cb delay) l (ptr_add data z, v) =
        Ok (ptr_add data n, v') ∧
      tracks cb f (evs (world v')) v' ∧ J n (world v') ∧
      length (evs (world v')) = (length (evs (world v)) + length l)%nat.
Proof.
  intros Hadv l. induction l as [|r l IH]; intros z v Ht Hg Hz Htr HJ.
  - inversion Ht as [x Ha Hn|]. assert (z = n) as -> by lia. exists v. split_and!; [done..|simpl; lia].
  - apply tiles_cons_inv in Ht as (Hva & Hsz & Ht'). apply Forall_cons_1 in Hg as [Hr Hg].
    simpl in Hva, Hsz, Ht'.
    assert (z + TranslationGen.size r <= n) as Hle.
    { apply ChunkGenerator.tiles_nonneg in Ht'. lia. }
    simpl. unfold dmaVirt_body at 1. rewrite bool_decide_true by apply Hr. cbn [ensure].
    rewrite res_bind_Ok. destruct (getChunkEvent_tracks cb f _ v Htr) as (e & v1 & -> & Htr1 & Hw1).
    rewrite res_bind_Ok, Hw1.
    destruct (Hadv z e r (world v)) as (w & -> & HJ' & Hevs); try done.
    { by apply tr_nodup, NoDup_cons in Htr1 as [? _]. }
    rewrite !res_bind_Ok, ptr_add_add. cbn [fst snd].
    destruct (IH (z + TranslationGen.size r) (set_world w v1)) as (v' & Hrun & Htr' & HJ2 & Hlen).
    + rewrite Z.add_assoc. by replace (n - (z + TranslationGen.size r)) with
        (n - z - TranslationGen.size r) by lia.
    + done.
    + lia.
    + apply tracks_world. simpl. by rewrite Hevs.
    + done.
    + exists v'. split_and!; try done. rewrite Hlen. simpl. rewrite Hevs. simpl. lia.
Qed.

(** ** Reads and writes *)

(** The state of memory and heap after [z] bytes of a virtual read into [d]. *)
Record vread_inv (pt : EmulationPageTable.t) (m0 : M) (h0 : hmem) (d : ptr) (a z : Z)
    (m : M) (h : hmem) : Prop := {
  vr_inv : inv m h;
  vr_same : same_memory m0 m;
  vr_contents x : contents m h x = contents m0 h0 x;
  vr_bounds q n : in_bounds h q n = in_bounds h0 q n;
  vr_buffer i : 0 <= i < z → peek h (block d) (offset d + i) = vcontents pt m0 h0 (a + i);
  vr_frame b i : b ≠ block d → peek h b i = peek h0 b i;
}.

(** The state of memory and heap after [z] bytes of a virtual write from [d]. *)
Record vwrite_inv (pt : EmulationPageTable.t) (m0 : M) (h0 : hmem) (d : ptr) (a z : Z)
    (m : M) (h : hmem) : Prop := {
  vw_inv : inv m h;
  vw_same : same_memory m0 m;
  vw_bounds q n : in_bounds h q n = in_bounds h0 q n;
  vw_written i x : 0 <= i < z → EmulationPageTable.translate pt (a + i) = Some x →
    contents m h x = peek h0 (block d) (offset d + i);
  vw_other x : (∀ i, 0 <= i < z → EmulationPageTable.translate pt (a + i) ≠ Some x) →
    contents m h x = contents m0 h0 x;
  vw_frame b i : ¬ owns m0 b → peek h b i = peek h0 b i;
}.

(** No two bytes of the region are mapped to the same physical byte. *)
Definition vinj (pt : EmulationPageTable.t) (a n : Z) : Prop :=
  ∀ i j x, 0 <= i < n → 0 <= j < n → EmulationPageTable.translate pt (a + i) = Some x →
    EmulationPageTable.translate pt (a + j) = Some x → i = j.

(** A range of the region, as the physical memory sees it. *)
Lemma range_serves pt m0 pk k a n z r :
  good_range pk pt r → TranslationGen.vaddr r = a + z → 0 <= z → 0 < TranslationGen.size r →
  z + TranslationGen.size r <= n → vserves pt m0 pk k a n →
  0 <= TranslationGen.paddr r ∧ TranslationGen.paddr r + TranslationGen.size r < 2 ^ 64 - 2 ^ k ∧
  serves m0 k (TranslationGen.paddr r) (TranslationGen.size r) ∧
  ∀ y, 0 <= y < TranslationGen.size r →
    EmulationPageTable.translate pt (a + (z + y)) = Some (TranslationGen.paddr r + y).
Proof.
  intros [_ _ Hpa Hpg Hby] Hva Hz Hsz Hle Hserv. rewrite Hva in Hpg.
  destruct (Hserv z (TranslationGen.size r)) as (pa & Htr & Hend & Hs); [lia..|done|].
  pose proof (Hby 0 ltac:(lia)) as H0. rewrite Hva, !Z.add_0_r, Htr in H0.
  rewrite u64_small in H0 by done. injection H0 as ->. unfold is_u64 in Hpa.
  assert (0 <= 2 ^ k) by (apply Z.pow_nonneg; lia). split_and!; try done || lia.
  intros y Hy. rewrite Z.add_assoc, <-Hva, Hby by done. f_equal. apply u64_small.
  auto with width.
Qed.

(** A further piece that is in one place. *)
Lemma vread_extend pt m0 h0 d a z l pa m h m' h' :
  vread_inv pt m0 h0 d a z m h → read_inv m h (ptr_add d z) pa l m' h' → 0 <= z →
  (∀ y, 0 <= y < l → EmulationPageTable.translate pt (a + (z + y)) = Some (pa + y)) →
  vread_inv pt m0 h0 d a (z + l) m' h'.
Proof.
  intros [Hi Hsm Hc Hbd Hbuf Hfr] [Hi' Hsm' Hc' Hbd' Hbuf' Hfr'] Hz Htr. simpl in Hbuf', Hfr'. constructor; try done.
  - by eapply same_memory_trans.
  - intros x. by rewrite Hc'.
  - intros q' x. by rewrite Hbd'.
  - intros i Hi2. destruct (Z_lt_le_dec i z).
    + rewrite Hfr' by (right; lia). apply Hbuf. lia.
    + replace (offset d + i) with (offset d + z + (i - z)) by lia. rewrite Hbuf', Hc by lia.
      unfold vcontents. replace (a + i) with (a + (z + (i - z))) by lia. by rewrite Htr by lia.
  - intros b i Hne. rewrite Hfr' by by left. by apply Hfr.
Qed.

Lemma vwrite_extend pt m0 h0 d a n z l pa m h m' h' :
  vinj pt a n → ¬ owns m0 (block d) → vwrite_inv pt m0 h0 d a z m h → write_inv m h (ptr_add d z) pa l m' h' →
  0 <= z → 0 < l → z + l <= n → (∀ y, 0 <= y < l → EmulationPageTable.translate pt (a + (z + y)) = Some (pa + y)) →
  vwrite_inv pt m0 h0 d a (z + l) m' h'.
Proof.
  intros Hinj Ho [Hi Hsm Hbd Hwr Hot Hfr] [Hi' Hsm' Hc' Hbd' Hfr'] Hz Hl Hle Htr. simpl in Hc'. constructor; try done.
  - by eapply same_memory_trans.
  - intros q' x. by rewrite Hbd'.
  - intros i x Hi2 Hx. rewrite Hc'. case_decide as Hin.
    + rewrite Hfr by done. f_equal. specialize (Htr (x - pa) ltac:(lia)).
      replace (pa + (x - pa)) with x in Htr by lia.
      assert (i = z + (x - pa)); [|lia]. apply (Hinj _ _ x); try done; lia.
    + apply Hwr; [|done]. destruct (Z_lt_le_dec i z); [lia|]. exfalso. apply Hin.
      specialize (Htr (i - z) ltac:(lia)). replace (z + (i - z)) with i in Htr by lia.
      rewrite Hx in Htr. injection Htr as ->. lia.
  - intros x Hx. rewrite Hc', decide_False.
    + apply Hot. intros i Hi2. apply Hx. lia.
    + intros Hin. apply (Hx (z + (x - pa))); [lia|]. rewrite Htr by lia. f_equal. lia.
  - intros b i Hb'. rewrite Hfr'; [by apply Hfr|]. by intros ?%(proj1 Hsm).
Qed.

(** In atomic mode: the port is ready for the next range, and the events of the
    ranges transferred are scheduled. *)
Definition atomic_events (w : World M) : list positive := (events (port w)).*1.

Definition atomic_inv (k : Z) (I : Z → M → hmem → Prop) (z : Z) (w : World M) : Prop :=
  idle k (port w) ∧ I z (mem w) (heap w).

Lemma atomic_events_signalled e when m h q w :
  atomic_events (mkWorld (signalled (Some e) when (port w)) m h q) ≡ₚ e :: atomic_events w.
Proof. unfold atomic_events. simpl. rewrite fmap_app. simpl. by rewrite Permutation_app_comm. Qed.

Lemma vread_advances pt pk k now a n delay d m0 h0 :
  ¬ owns m0 (block d) → in_bounds h0 d n = true → vserves pt m0 pk k a n →
  vadvances atomic_events (dmaRead rng) pt pk now a n delay d (atomic_inv k (vread_inv pt m0 h0 d a)).
Proof.
  intros Ho Hb Hserv z e r w Hr Hva Hz Hsz Hle Hnew [Hidle Hrd0]. pose proof Hrd0 as [Hi Hsm Hc Hbd Hbuf Hfr].
  destruct (range_serves pt m0 pk k a n z r) as (Hpa & Hend & Hs & Htr); try done.
  destruct (dmaRead_ok rng now (TranslationGen.paddr r) (TranslationGen.size r) (Some e)
    (ptr_add d z) delay k w) as (m & h & lat & q & Hrd & Hpc).
  { by apply idle_ready. }
  { done. }
  { simpl. by intros ?%(proj1 Hsm). }
  { rewrite Hbd. eapply Packet.in_bounds_sub; [done|lia..]. }
  { by eapply serves_same. }
  { done. }
  eexists. split; [exact Hrd|]. split; [|apply atomic_events_signalled].
  split; [by apply idle_signalled|]. by eapply vread_extend.
Qed.

Lemma vwrite_advances pt pk k now a n delay d m0 h0 :
  ¬ owns m0 (block d) → in_bounds h0 d n = true → vserves pt m0 pk k a n → vinj pt a n →
  vadvances atomic_events (dmaWrite rng) pt pk now a n delay d (atomic_inv k (vwrite_inv pt m0 h0 d a)).
Proof.
  intros Ho Hb Hserv Hinj z e r w Hr Hva Hz Hsz Hle Hnew [Hidle Hwr0]. pose proof Hwr0 as [Hi Hsm Hbd Hwr Hot Hfr].
  destruct (range_serves pt m0 pk k a n z r) as (Hpa & Hend & Hs & Htr); try done.
  destruct (dmaWrite_ok rng now (TranslationGen.paddr r) (TranslationGen.size r) (Some e)
    (ptr_add d z) delay k w) as (m & h & lat & q & Hrd & Hpc).
  { by apply idle_ready. }
  { done. }
  { simpl. by intros ?%(proj1 Hsm). }
  { rewrite Hbd. eapply Packet.in_bounds_sub; [done|lia..]. }
  { by eapply serves_same. }
  { done. }
  eexists. split; [exact Hrd|]. split; [|apply atomic_events_signalled].
  split; [by apply idle_signalled|]. by eapply vwrite_extend.
Qed.

Lemma vserves_mapped pt m pk k a n x :
  vserves pt m pk k a n → 0 <= x < n → EmulationPageTable.translate pt (a + x) ≠ None.
Proof.
  intros Hs Hx. destruct (Hs x 1) as (pa & -> & _); [lia..| |done].
  unfold in_block. simpl. f_equal. lia.
Qed.

(** The loop of [dmaVirt] over a region that is mapped. *)
Lemma dmaVirt_loop evs dmaFn pt pk now a n delay d cb f J (v : t M K) :
  0 <= pk < 64 → EmulationPageTable.wf pk pt → is_u64 a → is_u64 n → a + n <= 2 ^ 64 → n ≠ 0 →
  (∀ x, 0 <= x < n → EmulationPageTable.translate pt (a + x) ≠ None) →
  vadvances evs dmaFn pt pk now a n delay d J →
  tracks cb f (evs (world v)) v → J 0 (world v) →
  ∃ v', dmaVirt dmaFn (Ok pt) now a n cb d delay v = Ok v' ∧
    tracks cb f (evs (world v')) v' ∧ evs (world v') ≠ [] ∧ J n (world v').
Proof.
  intros Hpk Hwf Ha Hn Hov Hnz Hmapped Hadv Htr HJ.
  unfold dmaVirt. destruct (Z.eqb_spec n 0); [done|]. rewrite res_bind_Ok.
  destruct (EmulationPageTable.for_ranges_spec pk Hpk pt a n Hwf Ha Hn Hov)
    as (m & l & Ht & Hg & [[-> Hrun]|(Hm & Hno & _)]);
    [|by destruct (Hmapped m Hm)].
  rewrite Hrun. replace (d, v) with (ptr_add d 0, v) by by rewrite ptr_add_0.
  destruct (virt_loop evs dmaFn pt pk now a n delay d cb f J Hadv l 0 v)
    as (v' & -> & Htr' & HJ' & Hlen); try done.
  - by rewrite Z.add_0_r, Z.sub_0_r.
  - rewrite res_bind_Ok. exists v'. split_and!; try done. intros He. rewrite He in Hlen.
    destruct l as [|r l]; [|simpl in Hlen; lia]. apply Hnz. by inversion Ht.
Qed.

Lemma dmaReadVirt_ok pt pk k now a n delay d cb f (v : t M K) :
  0 <= pk < 64 → EmulationPageTable.wf pk pt → is_u64 a → is_u64 n → a + n <= 2 ^ 64 → n ≠ 0 →
  idle k (port (world v)) → tracks cb f (atomic_events (world v)) v →
  inv (mem (world v)) (heap (world v)) →
  ¬ owns (mem (world v)) (block d) → in_bounds (heap (world v)) d n = true →
  vserves pt (mem (world v)) pk k a n →
  ∃ v', dmaReadVirt rng (Ok pt) now a n cb d delay v = Ok v' ∧
    tracks cb f (atomic_events (world v')) v' ∧ atomic_events (world v') ≠ [] ∧
    idle k (port (world v')) ∧
    vread_inv pt (mem (world v)) (heap (world v)) d a n (mem (world v')) (heap (world v')).
Proof.
  intros Hpk Hwf Ha Hn Hov Hnz Hidle Htr Hi Ho Hb Hs.
  destruct (dmaVirt_loop atomic_events (dmaRead rng) pt pk now a n delay d cb f
    (atomic_inv k (vread_inv pt (mem (world v)) (heap (world v)) d a)) v)
    as (v' & ? & ? & ? & [? ?]); try done; [intros x Hx; by eapply vserves_mapped|by apply vread_advances| |by eauto 10].
  split; [done|]. constructor; try (done || apply same_memory_refl). intros. lia.
Qed.

Lemma dmaWriteVirt_ok pt pk k now a n delay d cb f (v : t M K) :
  0 <= pk < 64 → EmulationPageTable.wf pk pt → is_u64 a → is_u64 n → a + n <= 2 ^ 64 → n ≠ 0 →
  idle k (port (world v)) → tracks cb f (atomic_events (world v)) v →
  inv (mem (world v)) (heap (world v)) →
  ¬ owns (mem (world v)) (block d) → in_bounds (heap (world v)) d n = true →
  vserves pt (mem (world v)) pk k a n → vinj pt a n →
  ∃ v', dmaWriteVirt rng (Ok pt) now a n cb d delay v = Ok v' ∧
    tracks cb f (atomic_events (world v')) v' ∧ atomic_events (world v') ≠ [] ∧
    idle k (port (world v')) ∧
    vwrite_inv pt (mem (world v)) (heap (world v)) d a n (mem (world v')) (heap (world v')).
Proof.
  intros Hpk Hwf Ha Hn Hov Hnz Hidle Htr Hi Ho Hb Hs Hinj.
  destruct (dmaVirt_loop atomic_events (dmaWrite rng) pt pk now a n delay d cb f
    (atomic_inv k (vwrite_inv pt (mem (world v)) (heap (world v)) d a)) v)
    as (v' & ? & ? & ? & [? ?]); try done; [intros x Hx; by eapply vserves_mapped|by apply vwrite_advances| |by eauto 10].
  split; [done|]. constructor; try (done || apply same_memory_refl). intros. lia.
Qed.

End Proofs.

End DmaVirtDevice.
