(* ===== verification/AtomicCpu.v ===== *)
(** Loads and stores of the atomic processor ([cpu/simple/atomic.cc]) under system-call
    emulation: an access is split at cache lines, each fragment is translated with the
    page table of the process and sent to the memory system as a packet. *)

From S2P Require Import Prelude Bits AddrRange ChunkGen Host Request MemCmd Packet AbstractMem.
From S2P Require Import MemInterface PageTable Dma DmaVirt.
Import Host ChunkGenerator(in_block) DmaVirtDevice(vread_inv, vwrite_inv, vinj, vcontents, vread_extend, vwrite_extend).

Module AtomicCpu.

(** The request objects of the processor, which it uses again and again, and its
    constants; one thread runs on it. *)
Record t := mk {
  data_read_req : Request.t;
  data_write_req : Request.t;
  cacheLineSize : Z;
  dataRequestorId : Z;
  rv32 : bool;
}.

Definition set_read_req (r : Request.t) (c : t) : t := mk r (data_write_req c) (cacheLineSize c) (dataRequestorId c) (rv32 c).
Definition set_write_req (r : Request.t) (c : t) : t := mk (data_read_req c) r (cacheLineSize c) (dataRequestorId c) (rv32 c).

(** The constructor and [init]. *)
Definition create (cid line id : Z) (rv32 : bool) : t :=
  mk (Request.setContext cid Request.blank) (Request.setContext cid Request.blank) line id rv32.

(** ** Translation *)

Definition getValidAddr (vaddr : Z) (rv32 : bool) : Z := if rv32 then vaddr mod 2 ^ 32 else vaddr.

(** [TLB::translate] under system-call emulation: the fault, if any, and the request. *)
Definition translate (pt : EmulationPageTable.t) (req : Request.t) (rv32 : bool) : res (option Z * Request.t) :=
  size ← Request.getSize req;
  assert! (0 <? size);
  vaddr ← Request.getVaddr req;
  if u64 (vaddr + size - 1) <? vaddr then Ok (Some vaddr, req)
  else match EmulationPageTable.translate pt (getValidAddr vaddr rv32) with
       | None => Ok (Some vaddr, req)
       | Some paddr => Ok (None, Request.setPaddr paddr req)
       end.

(** ** Fragments *)

Definition addrBlockOffset (addr block_size : Z) : Z := Z.land addr (u64 (block_size - 1)).

Definition isAnyActiveElement (l : list bool) : bool := existsb (λ b, b) l.

(** Whether the fragment at [frag_addr] has an active byte, its size, what is left
    after it, and the request. The flags of plain loads and stores are 0. *)
Definition genMemFragmentRequest (now pc frag_addr size : Z) (byte_enable : list bool) (size_left : Z) (req : Request.t) (c : t)
    : res (bool * Z * Z * Request.t) :=
  let frag_size := Z.min (u64 (cacheLineSize c - addrBlockOffset frag_addr (cacheLineSize c))) size_left in
  let size_left := size_left - frag_size in
  let enabled := take (Z.to_nat frag_size) (drop (Z.to_nat (size - (frag_size + size_left))) byte_enable) in
  if isAnyActiveElement enabled then
    req ← Request.setByteEnable enabled (Request.setVirt now frag_addr frag_size 0 (dataRequestorId c) pc None req);
    Ok (true, frag_size, size_left, req)
  else Ok (false, frag_size, size_left, req).

Section Access.

(** The memory system behind the port of the processor. *)
Context {S : Type} (sendAtomic : Packet.t → S → res (Packet.t * S)).

(** One fragment: the packet is sent unless it has no active byte or faults. *)
Definition send_fragment (makeCmd : Request.t → MemCmd.Command) (pt : EmulationPageTable.t) (predicate : bool) (data : ptr)
    (req : Request.t) (c : t) (s : S) : res (option Z * Request.t * S) :=
  if predicate then
    '(fault, req) ← translate pt req (rv32 c);
    match fault with
    | Some v => Ok (Some v, req, s)
    | None =>
        pkt ← Packet.create req (makeCmd req);
        pkt ← Packet.dataStatic data pkt;
        '(pkt, s) ← sendAtomic pkt s;
        panic_unless! (negb (Packet.isError pkt));
        Ok (None, req, s)
    end
  else Ok (None, req, s).

Fixpoint fragments (fuel : nat) (makeCmd : Request.t → MemCmd.Command) (pt : EmulationPageTable.t) (now pc size : Z)
    (byte_enable : list bool) (frag_addr size_left : Z) (data : ptr) (req : Request.t) (c : t) (s : S)
    : res (option Z * Request.t * S) :=
  match fuel with
  | O => Fail OutOfFuel
  | Datatypes.S fuel =>
      '(predicate, frag_size, size_left, req) ← genMemFragmentRequest now pc frag_addr size byte_enable size_left req c;
      '(fault, req, s) ← send_fragment makeCmd pt predicate data req c s;
      match fault with
      | Some v => Ok (Some v, req, s)
      | None =>
          if size_left =? 0 then Ok (None, req, s)
          else fragments fuel makeCmd pt now pc size byte_enable (u64 (frag_addr + frag_size)) size_left
                 (ptr_add data frag_size) req c s
      end
  end.

(** [readMem] and [writeMem]: the address of a page fault, if there is one. A fragment
    has a byte at least, so [size] of them are enough. *)
Definition readMem (pt : EmulationPageTable.t) (now pc addr : Z) (data : ptr) (size : Z) (byte_enable : list bool) (c : t) (s : S)
    : res (option Z * t * S) :=
  '(fault, req, s) ← fragments (Z.to_nat size) Packet.makeReadCmd pt now pc size byte_enable addr size data (data_read_req c) c s;
  Ok (fault, set_read_req req c, s).

Definition writeMem (pt : EmulationPageTable.t) (now pc : Z) (data : ptr) (size addr : Z) (byte_enable : list bool) (c : t) (s : S)
    : res (option Z * t * S) :=
  '(fault, req, s) ← fragments (Z.to_nat size) Packet.makeWriteCmd pt now pc size byte_enable addr size data (data_write_req c) c s;
  Ok (fault, set_write_req req c, s).

(** ** The fragments of an access *)

Context (k : Z) (Hk : 0 <= k < 32).

(** A request of plain accesses. *)
Definition plain_req (r : Request.t) : Prop := Request._flags r = 0.

Record ok (c : t) : Prop := {
  ok_line : cacheLineSize c = 2 ^ k;
  ok_read : plain_req (data_read_req c);
  ok_write : plain_req (data_write_req c);
}.

(** The request of a fragment of [n] bytes at the physical address [pa]. *)
Record frag_req (pa n : Z) (r : Request.t) : Prop := {
  fr_plain : plain_req r;
  fr_flags : Request.privateFlags r = 0x17 ∨ Request.privateFlags r = 0x37;
  fr_addr : Request._paddr r = pa;
  fr_size : Request._size r = n;
  fr_mask : Request._byteEnable r = replicate (Z.to_nat n) true;
}.

(** Its packet, with data that is the packet's own ([DYNAMIC_DATA]) or not, and a sender state. *)
Definition part_packet (cmd : MemCmd.Command) (kind : Z) (ss : list positive) (d : ptr) (r : Request.t) : Packet.t :=
  Packet.mk (Z.lor (Z.lor Packet.VALID_ADDR Packet.VALID_SIZE) kind) cmd r (Some d) (Request._paddr r) false
    (Request._size r) [] 0 Packet.NO_FAIL 0 0 0 0 ss.

Definition data_kind (kind : Z) : Prop := kind = Packet.STATIC_DATA ∨ kind = Packet.DYNAMIC_DATA.


Lemma context_flag x : Z.land x 0x20 = 0 ∨ Z.land x 0x20 = 0x20.
Proof.
  change 0x20 with (Z.shiftl (Z.ones 1) 5). assert (Z.land x (Z.shiftl (Z.ones 1) 5) = Z.shiftl (Z.land (Z.shiftr x 5) (Z.ones 1)) 5) as ->.
  { apply Z.bits_inj'. intros i Hi. rewrite Z.land_spec, !Z.shiftl_spec, Z.land_spec by lia.
    destruct (decide (5 <= i)); [rewrite Z.shiftr_spec by lia; do 2 f_equal; lia|].
    rewrite !(Z.testbit_neg_r _ (i - 5)) by lia. apply andb_false_r. }
  rewrite Z.land_ones, !Z.shiftl_mul_pow2 by lia. change (Z.ones 1) with 1.
  pose proof (Z.mod_pos_bound (Z.shiftr x 5) (2 ^ 1) ltac:(lia)). lia.
Qed.

Lemma block_offset a : 0 <= a → addrBlockOffset a (2 ^ k) = a mod 2 ^ k.
Proof using Hk.
  intros Ha. unfold addrBlockOffset. assert (2 ^ k < 2 ^ 32) by (apply Z.pow_lt_mono_r; lia). assert (0 < 2 ^ k) by (apply Z.pow_pos_nonneg; lia).
  rewrite u64_small, Z.sub_1_r, <-Z.ones_equiv, Z.land_ones by (lia || (split; lia)). done.
Qed.

Lemma any_active n : (0 < n)%nat → isAnyActiveElement (replicate n true) = true.
Proof. destruct n; [lia|done]. Qed.

(** The next fragment of [n] bytes at [a], of which [z] are done. *)
Definition frag_size (a n z : Z) : Z := Z.min (2 ^ k - (a + z) mod 2 ^ k) (n - z).

Lemma frag_size_ok a n z : 0 <= z < n → 0 < frag_size a n z ∧ z + frag_size a n z <= n ∧ in_block (2 ^ k) (a + z, frag_size a n z).
Proof using Hk.
  intros Hz. assert (0 < 2 ^ k) by (apply Z.pow_pos_nonneg; lia). pose proof (Z.mod_pos_bound (a + z) (2 ^ k) ltac:(lia)).
  unfold frag_size. split; [lia|]. split; [lia|]. unfold in_block. simpl. pose proof (Z.div_mod (a + z) (2 ^ k) ltac:(lia)) as Hd.
  set (l := Z.min _ _) in *. apply Z.div_unique with ((a + z) mod 2 ^ k + l - 1); lia.
Qed.

(** A request before its translation. *)
Record virt_req (v n : Z) (r : Request.t) : Prop := {
  vq_plain : plain_req r;
  vq_flags : Request.privateFlags r = 0x15 ∨ Request.privateFlags r = 0x35;
  vq_addr : Request._vaddr r = v;
  vq_size : Request._size r = n;
  vq_mask : Request._byteEnable r = replicate (Z.to_nat n) true;
}.

Lemma fragment_ok now pc a n z r c :
  cacheLineSize c = 2 ^ k → plain_req r → 0 <= a → a + n <= 2 ^ 64 → 0 <= z < n →
  ∃ r', genMemFragmentRequest now pc (a + z) n (replicate (Z.to_nat n) true) (n - z) r c =
      Ok (true, frag_size a n z, n - (z + frag_size a n z), r') ∧ virt_req (a + z) (frag_size a n z) r'.
Proof using Hk.
  intros Hl Hf Ha Htop Hz. pose proof (frag_size_ok a n z Hz) as (Hs0 & Hs1 & _). unfold genMemFragmentRequest. rewrite Hl, block_offset by lia.
  assert (2 ^ k < 2 ^ 32) by (apply Z.pow_lt_mono_r; lia). assert (0 < 2 ^ k) by (apply Z.pow_pos_nonneg; lia).
  pose proof (Z.mod_pos_bound (a + z) (2 ^ k) ltac:(lia)). rewrite u64_small by (split; lia). fold (frag_size a n z). set (l := frag_size a n z) in *.
  replace (n - z - l) with (n - (z + l)) by lia. replace (n - (l + (n - (z + l)))) with z by lia.
  assert (take (Z.to_nat l) (drop (Z.to_nat z) (replicate (Z.to_nat n) true)) = replicate (Z.to_nat l) true) as ->
    by (rewrite drop_replicate, take_replicate; f_equal; lia).
  rewrite any_active by lia. unfold Request.setByteEnable. rewrite length_replicate. simpl. rewrite Z2Nat.id, Z.eqb_refl by lia. simpl.
  eexists. split; [done|]. constructor; try done.
  - unfold plain_req in *. simpl. by rewrite Hf.
  - simpl. change Request.STICKY_PRIVATE_FLAGS with 0x20. destruct (context_flag (Request.privateFlags r)) as [-> | ->]; auto.
Qed.

(** Commands of plain accesses. *)
Definition makes (makeCmd : Request.t → MemCmd.Command) (cmd : MemCmd.Command) : Prop := ∀ r, plain_req r → makeCmd r = cmd.

Lemma makes_read : makes Packet.makeReadCmd MemCmd.ReadReq.
Proof. intros r Hf. unfold Packet.makeReadCmd, Request.isHTMCmd, Request.isHTMAbort, Request.isLLSC, Request.isPrefetchEx, Request.isPrefetch, Request.isLockedRMW. by rewrite Hf. Qed.

Lemma makes_write : makes Packet.makeWriteCmd MemCmd.WriteReq.
Proof.
  intros r Hf. unfold Packet.makeWriteCmd, Request.isLLSC, Request.isSwap, Request.isAtomic, Request.isCacheInvalidate, Request.isCacheClean,
    Request.isLockedRMW. by rewrite Hf.
Qed.

Lemma translated_req v n pa r : virt_req v n r → frag_req pa n (Request.setPaddr pa r).
Proof. intros [Hp Hfl Hv Hn Hm]. constructor; simpl; try done. destruct Hfl as [-> | ->]; auto. Qed.

Lemma translate_request pt v n r rv :
  virt_req v n r → 0 <= v → 0 < n → v + n <= 2 ^ 64 → getValidAddr v rv = v →
  translate pt r rv = Ok (match EmulationPageTable.translate pt v with
                          | None => (Some v, r)
                          | Some pa => (None, Request.setPaddr pa r)
                          end).
Proof.
  intros [Hp Hfl Hv Hn Hm] Hv0 Hn0 Htop Hvalid. unfold translate.
  assert (Request.getSize r = Ok n) as -> by (unfold Request.getSize, Request.hasSize; rewrite Hn; by destruct Hfl as [-> | ->]).
  assert (Request.getVaddr r = Ok v) as -> by (unfold Request.getVaddr, Request.hasVaddr; rewrite Hv; by destruct Hfl as [-> | ->]).
  simpl. rewrite (proj2 (Z.ltb_lt _ _) Hn0). simpl. rewrite u64_small by (split; lia). rewrite (proj2 (Z.ltb_ge _ _)) by lia.
  rewrite Hvalid. by destruct (EmulationPageTable.translate pt v).
Qed.

Definition bare_packet (cmd : MemCmd.Command) (r : Request.t) : Packet.t :=
  Packet.mk (Z.lor Packet.VALID_ADDR Packet.VALID_SIZE) cmd r None (Request._paddr r) false (Request._size r) [] 0 Packet.NO_FAIL 0 0 0 0 [].

Lemma create_part pa n r cmd : frag_req pa n r → Packet.create r cmd = Ok (bare_packet cmd r).
Proof.
  intros [Hp Hfl Ha Hn _]. unfold Packet.create, Request.hasPaddr, Request.getPaddr, Request.hasSize, Request.getSize, Request.isHTMCmd,
    Request.isHTMAbort, Request.isSecure, Request.hasPaddr, Request.hasSize. rewrite Hp. by destruct Hfl as [-> | ->].
Qed.

Lemma static_part cmd d r : Packet.dataStatic d (bare_packet cmd r) = Ok (part_packet cmd Packet.STATIC_DATA [] d r).
Proof. done. Qed.

Lemma dynamic_part cmd d r : Packet.dataDynamic d (bare_packet cmd r) = Ok (part_packet cmd Packet.DYNAMIC_DATA [] d r).
Proof. done. Qed.

(** The packet of a fragment whose page is mapped; one whose page is not is not sent. *)
Lemma send_fragment_ok makeCmd cmd pt d v n pa r c s :
  makes makeCmd cmd → virt_req v n r → 0 <= v → 0 < n → v + n <= 2 ^ 64 → getValidAddr v (rv32 c) = v →
  EmulationPageTable.translate pt v = Some pa →
  ∃ r', frag_req pa n r' ∧ send_fragment makeCmd pt true d r c s =
    ('(p, s') ← sendAtomic (part_packet cmd Packet.STATIC_DATA [] d r') s; panic_unless! (negb (Packet.isError p)); Ok (None, r', s')).
Proof.
  intros Hc Hr Hv0 Hn0 Htop Hvalid Htr. exists (Request.setPaddr pa r). pose proof (translated_req v n pa r Hr) as Hfr. split; [done|].
  unfold send_fragment. rewrite (translate_request pt v n) by done. rewrite Htr. simpl. rewrite (Hc (Request.setPaddr pa r)) by apply Hfr.
  by rewrite (create_part pa n) by done.
Qed.

Lemma send_fragment_fault makeCmd pt d v n r c s :
  virt_req v n r → 0 <= v → 0 < n → v + n <= 2 ^ 64 → getValidAddr v (rv32 c) = v → EmulationPageTable.translate pt v = None →
  send_fragment makeCmd pt true d r c s = Ok (Some v, r, s).
Proof. intros Hr Hv0 Hn0 Htop Hvalid Htr. unfold send_fragment. rewrite (translate_request pt v n) by done. by rewrite Htr. Qed.

(** The first [m] bytes of the region are mapped, and the line after them is not. *)
Record mapped_to (pt : EmulationPageTable.t) (a n m : Z) : Prop := {
  mt_le : 0 <= m <= n;
  mt_mapped z : 0 <= z < m → EmulationPageTable.translate pt (a + z) ≠ None;
  mt_end : m < n → EmulationPageTable.translate pt (a + m) = None ∧ (m = 0 ∨ (a + m) mod 2 ^ k = 0);
}.

Lemma frag_size_to pt a n m z : mapped_to pt a n m → 0 <= z < m → z + frag_size a n z <= m.
Proof using Hk.
  intros [Hm _ He] Hz. destruct (decide (m = n)) as [->|Hne]; [apply frag_size_ok; lia|]. destruct (He ltac:(lia)) as (_ & [|Hal]); [lia|].
  assert (0 < 2 ^ k) by (apply Z.pow_pos_nonneg; lia). unfold frag_size. pose proof (Z.mod_pos_bound (a + z) (2 ^ k) ltac:(lia)).
  pose proof (Z.div_mod (a + z) (2 ^ k) ltac:(lia)). pose proof (Z.div_mod (a + m) (2 ^ k) ltac:(lia)).
  assert ((a + z) / 2 ^ k < (a + m) / 2 ^ k) by nia. assert (2 ^ k * ((a + z) / 2 ^ k + 1) <= 2 ^ k * ((a + m) / 2 ^ k)) by nia. lia.
Qed.

Lemma fragments_ok makeCmd cmd pt now pc a n m d c (I : Z → S → Prop) :
  makes makeCmd cmd → cacheLineSize c = 2 ^ k → 0 <= a → a + n <= 2 ^ 64 → (∀ z, 0 <= z < n → getValidAddr (a + z) (rv32 c) = a + z) →
  mapped_to pt a n m →
  (∀ z l r pa s, I z s → 0 <= z → 0 < l → z + l <= m → in_block (2 ^ k) (a + z, l) → EmulationPageTable.translate pt (a + z) = Some pa →
     frag_req pa l r → ∃ p s', sendAtomic (part_packet cmd Packet.STATIC_DATA [] (ptr_add d z) r) s = Ok (p, s') ∧ Packet.isError p = false ∧ I (z + l) s') →
  ∀ fuel z r s, plain_req r → I z s → 0 <= z <= m → z < n → (Z.to_nat (n - z) <= fuel)%nat →
  ∃ r' s', fragments fuel makeCmd pt now pc n (replicate (Z.to_nat n) true) (a + z) (n - z) (ptr_add d z) r c s =
      Ok (if m =? n then None else Some (a + m), r', s') ∧ plain_req r' ∧ I m s'.
Proof using Hk.
  intros Hc Hl Ha Htop Hva Hmap Hstep fuel. induction fuel as [|fuel IH]; intros z r s Hr Hi Hz Hzn Hfu; [lia|]. cbn [fragments].
  destruct (fragment_ok now pc a n z r c Hl Hr Ha Htop) as (r1 & -> & Hr1); [lia|]. rewrite res_bind_Ok.
  pose proof (frag_size_ok a n z ltac:(lia)) as (Hs0 & Hs1 & Hblk). pose proof (frag_size_to pt a n m z Hmap) as Hsm. pose proof Hmap as [Hmn Hmp Hme].
  set (l := frag_size a n z) in *. destruct (decide (z = m)) as [->|Hzm].
  - rewrite (send_fragment_fault _ _ _ (a + m) l) by (done || lia || (apply Hva; lia) || (apply Hme; lia)). rewrite res_bind_Ok.
    rewrite (proj2 (Z.eqb_neq m n)) by lia. exists r1, s. split; [done|]. by split; [apply Hr1|].
  - specialize (Hsm ltac:(lia)). destruct (EmulationPageTable.translate pt (a + z)) as [pa|] eqn:Htr; [|by destruct (Hmp z ltac:(lia))].
    destruct (send_fragment_ok makeCmd cmd pt (ptr_add d z) (a + z) l pa r1 c s) as (r2 & Hr2 & ->); try done; [lia|lia|apply Hva; lia|].
    destruct (Hstep z l r2 pa s) as (p & s' & -> & He & Hi'); try (done || lia). rewrite res_bind_Ok, He. cbn [negb ensure]. rewrite !res_bind_Ok.
    destruct (Z.eqb_spec (n - (z + l)) 0) as [Hend|Hend].
    + exists r2, s'. replace m with n by lia. rewrite Z.eqb_refl. split; [done|]. split; [apply Hr2|]. by replace n with (z + l) by lia.
    + rewrite u64_small by (split; lia). rewrite <-Z.add_assoc, ptr_add_add. apply IH; [apply Hr2|done|lia..].
Qed.

(** An access inside a line is one packet. *)
Lemma one_fragment makeCmd cmd pt now pc a n pa d r c s :
  makes makeCmd cmd → cacheLineSize c = 2 ^ k → plain_req r → 0 <= a → 0 < n → a + n <= 2 ^ 64 → getValidAddr a (rv32 c) = a →
  in_block (2 ^ k) (a, n) → EmulationPageTable.translate pt a = Some pa →
  ∃ r', frag_req pa n r' ∧ fragments (Z.to_nat n) makeCmd pt now pc n (replicate (Z.to_nat n) true) a n d r c s =
    ('(p, s') ← sendAtomic (part_packet cmd Packet.STATIC_DATA [] d r') s; panic_unless! (negb (Packet.isError p)); Ok (None, r', s')).
Proof using Hk.
  intros Hc Hl Hr Ha Hn Htop Hva Hblk Htr. assert (frag_size a n 0 = n) as Hfs.
  { unfold frag_size, in_block in *. simpl in Hblk. rewrite Z.add_0_r, Z.sub_0_r. assert (0 < 2 ^ k) by (apply Z.pow_pos_nonneg; lia).
    pose proof (Z.div_mod a (2 ^ k) ltac:(lia)). pose proof (Z.div_mod (a + n - 1) (2 ^ k) ltac:(lia)) as Hd. rewrite <-Hblk in Hd.
    pose proof (Z.mod_pos_bound (a + n - 1) (2 ^ k) ltac:(lia)). lia. }
  destruct (Z.to_nat n) as [|fuel] eqn:Hfu; [lia|]. cbn [fragments]. rewrite <-Hfu.
  destruct (fragment_ok now pc a n 0 r c Hl Hr Ha Htop ltac:(lia)) as (r1 & Hgen & Hr1). rewrite Z.add_0_r, Z.sub_0_r, Hfs in *.
  rewrite Hgen, res_bind_Ok. destruct (send_fragment_ok makeCmd cmd pt d a n pa r1 c s) as (r2 & Hr2 & ->); try done.
  exists r2. split; [done|]. destruct (sendAtomic _ s) as [[p s']|f]; [|done]. rewrite !res_bind_Ok.
  destruct (negb (Packet.isError p)); [|done]. cbn [ensure]. rewrite !res_bind_Ok. by rewrite (proj2 (Z.eqb_eq _ _)) by lia.
Qed.

End Access.

(** ** Accesses to a memory *)

Section Parts.
Context (kind : Z) (ss : list positive) (Hkind : data_kind kind).

Lemma frag_unmasked cmd d pa n r : frag_req pa n r → Packet.isMaskedWrite (part_packet cmd kind ss d r) = false.
Proof.
  intros [_ _ _ _ Hm]. unfold Packet.isMaskedWrite, Request.isMasked. simpl. rewrite Hm.
  assert (existsb negb (replicate (Z.to_nat n) true) = false) as ->; [clear Hm; by induction (Z.to_nat n)|]. apply andb_false_r.
Qed.

Lemma frag_buffer cmd d pa n r h : frag_req pa n r → in_bounds h d n = true → Packet.has_buffer h (part_packet cmd kind ss d r) d n.
Proof using Hkind. intros [_ _ _ Hs _] Hb. by destruct Hkind as [-> | ->]. Qed.

Lemma frag_plain_read d r : AbstractMemory.plain_read (part_packet MemCmd.ReadReq kind ss d r).
Proof using Hkind. unfold AbstractMemory.plain_read, Packet.isLLSC. by destruct Hkind as [-> | ->]. Qed.

Lemma frag_plain_write d pa n r : frag_req pa n r → AbstractMemory.plain_write (part_packet MemCmd.WriteReq kind ss d r).
Proof using Hkind.
  intros Hr. pose proof (frag_unmasked MemCmd.WriteReq d _ _ _ Hr) as Hm. destruct Hr as [Hp Hf _ _ _].
  unfold AbstractMemory.plain_write, Packet.wf_mask, Request.hasPaddr, Request.isInstFetch. rewrite Hm. simpl. rewrite Hp.
  destruct Hkind as [-> | ->]; split_and!; try done; by destruct Hf as [-> | ->].
Qed.

Lemma frag_valid cmd d r : Packet.flag (part_packet cmd kind ss d r) Packet.VALID_ADDR = true.
Proof using Hkind. by destruct Hkind as [-> | ->]. Qed.

Lemma answer_no_error cmd d r p : cmd = MemCmd.ReadReq ∨ cmd = MemCmd.WriteReq → Packet.answers (part_packet cmd kind ss d r) p → Packet.isError p = false.
Proof.
  intros Hc (q & hd & pd & Hq & ->). unfold Packet.makeResponse in Hq. destruct Hc as [-> | ->]; simpl in Hq; by injection Hq as <-.
Qed.

End Parts.

Section Memory.

Context {M : Type} {HM : ByteMemory M} (k : Z) (Hk : 0 <= k < 32).

(** Each part of the region inside a line is in one place that the memory serves. *)
Definition reaches (pt : EmulationPageTable.t) (m : M) (a n : Z) : Prop :=
  ∀ z l, 0 <= z → 0 < l → z + l <= n → in_block (2 ^ k) (a + z, l) →
    ∃ pa, (∀ y, 0 <= y < l → EmulationPageTable.translate pt (a + (z + y)) = Some (pa + y)) ∧ accepts m pa l.

(** A fragment is read: the memory and the buffer afterwards. *)
Lemma fragment_read kind ss j d a n z l r pa (m0 : M) h0 m h pt :
  data_kind kind → vread_inv pt m0 h0 d a z m h → reaches pt m0 a n → ¬ owns m0 (block d) → in_bounds h0 d n = true →
  0 <= z → 0 < l → z + l <= n → in_block (2 ^ k) (a + z, l) → EmulationPageTable.translate pt (a + z) = Some pa → frag_req pa l r →
  ∃ p m' h' lat, recvAtomic j (part_packet MemCmd.ReadReq kind ss (ptr_add d z) r) m h = Ok (p, m', h', lat) ∧
    Packet.answers (part_packet MemCmd.ReadReq kind ss (ptr_add d z) r) p ∧ vread_inv pt m0 h0 d a (z + l) m' h'.
Proof.
  intros Hkind Hrd Hre Ho Hb Hz Hl Hle Hblk Htr Hr. pose proof Hrd as [Hi Hsm Hc Hbd Hbuf Hfr].
  destruct (Hre z l Hz Hl Hle Hblk) as (pa' & Hpl & Hacc). pose proof (Hpl 0 ltac:(lia)) as H0. rewrite !Z.add_0_r, Htr in H0. injection H0 as <-.
  destruct (memory_read j (part_packet MemCmd.ReadReq kind ss (ptr_add d z) r) m h (ptr_add d z) l) as (p & m' & h' & lat & Hrv & Hans & Hi' & Hsm' & Hd & Hc' & Hpk & Hbd'); try done.
  - by apply frag_plain_read.
  - by apply frag_valid.
  - apply (frag_buffer _ _ Hkind _ _ pa l); [done|]. rewrite Hbd. apply (in_bounds_part h0 d n); (done || lia).
  - simpl. by intros ?%(proj1 Hsm).
  - simpl. rewrite (fr_addr _ _ _ Hr). by apply Hsm.
  - exists p, m', h', lat. split; [done|]. split; [done|]. simpl in Hd. rewrite (fr_addr _ _ _ Hr) in Hd.
    eapply vread_extend; [done| |done|exact Hpl]. constructor; try done.
Qed.

Lemma fragment_write kind ss j d a n z l r pa (m0 : M) h0 m h pt :
  data_kind kind → vwrite_inv pt m0 h0 d a z m h → reaches pt m0 a n → vinj pt a n → ¬ owns m0 (block d) → in_bounds h0 d n = true →
  0 <= z → 0 < l → z + l <= n → in_block (2 ^ k) (a + z, l) → EmulationPageTable.translate pt (a + z) = Some pa → frag_req pa l r →
  ∃ p m' h' lat, recvAtomic j (part_packet MemCmd.WriteReq kind ss (ptr_add d z) r) m h = Ok (p, m', h', lat) ∧
    Packet.answers (part_packet MemCmd.WriteReq kind ss (ptr_add d z) r) p ∧ vwrite_inv pt m0 h0 d a (z + l) m' h'.
Proof.
  intros Hkind Hwr Hre Hinj Ho Hb Hz Hl Hle Hblk Htr Hr. pose proof Hwr as [Hi Hsm Hbd _ _ Hfr].
  destruct (Hre z l Hz Hl Hle Hblk) as (pa' & Hpl & Hacc). pose proof (Hpl 0 ltac:(lia)) as H0. rewrite !Z.add_0_r, Htr in H0. injection H0 as <-.
  destruct (memory_write j (part_packet MemCmd.WriteReq kind ss (ptr_add d z) r) m h (ptr_add d z) l) as (p & m' & h' & lat & Hrv & Hans & Hi' & Hsm' & Hc' & Hpk & Hbd'); try done.
  - by apply (frag_plain_write _ _ Hkind _ pa l).
  - by apply (frag_unmasked _ _ _ _ pa l).
  - by apply frag_valid.
  - apply (frag_buffer _ _ Hkind _ _ pa l); [done|]. rewrite Hbd. apply (in_bounds_part h0 d n); (done || lia).
  - simpl. by intros ?%(proj1 Hsm).
  - simpl. rewrite (fr_addr _ _ _ Hr). by apply Hsm.
  - exists p, m', h', lat. split; [done|]. split; [done|]. simpl in Hc'. rewrite (fr_addr _ _ _ Hr) in Hc'.
    eapply vwrite_extend; [done|done|done| |done|done|done|exact Hpl]. constructor; try done.
Qed.

Definition memory_port (jitter : Packet.t → Z) (p : Packet.t) (s : M * hmem) : res (Packet.t * (M * hmem)) :=
  '(p, m, h, _) ← recvAtomic (jitter p) p s.1 s.2; Ok (p, (m, h)).

(** An access the processor can make: its addresses are those the translation uses. *)
Record access_ok (pt : EmulationPageTable.t) (c : t) (m : M) (h : hmem) (a : Z) (d : ptr) (n n' : Z) : Prop := {
  ao_cpu : ok k c;
  ao_range : 0 <= a ∧ 0 < n ∧ a + n <= 2 ^ (if rv32 c then 32 else 64);
  ao_inv : inv m h;
  ao_buffer : in_bounds h d n = true;
  ao_own : ¬ owns m (block d);
  ao_mapped : mapped_to k pt a n n';
  ao_reaches : reaches pt m a n';
}.

Lemma access_valid pt c m h a d n n' z : access_ok pt c m h a d n n' → 0 <= z < n → getValidAddr (a + z) (rv32 c) = a + z.
Proof. intros [_ Hr _ _ _ _ _] Hz. unfold getValidAddr. destruct (rv32 c); [|done]. apply Z.mod_small. lia. Qed.

Lemma access_top pt c m h a d n n' : access_ok pt c m h a d n n' → a + n <= 2 ^ 64.
Proof. intros [_ Hr _ _ _ _ _]. destruct (rv32 c); lia. Qed.

(** C15: A load or store of the atomic processor, split at the cache lines and translated fragment by fragment, acts as one access
    to the virtual memory: with [n'] bytes of it mapped, a load fills its buffer with these bytes of the region and changes no memory,
    and a store writes these bytes, in place of what the pages have, and nothing else; there is no fault when all is mapped, and else
    the fault has the first address that is not, with the part of the store before it already written. The processor can make the next
    access afterwards. *)
Theorem cpu_access jitter pt now pc a d n n' c m h :
  access_ok pt c m h a d n n' →
  let fault := if n' =? n then None else Some (a + n') in
  (∃ c' m' h', readMem (memory_port jitter) pt now pc a d n (replicate (Z.to_nat n) true) c (m, h) = Ok (fault, c', (m', h')) ∧
     ok k c' ∧ vread_inv pt m h d a n' m' h') ∧
  (vinj pt a n' →
   ∃ c' m' h', writeMem (memory_port jitter) pt now pc d n a (replicate (Z.to_nat n) true) c (m, h) = Ok (fault, c', (m', h')) ∧
     ok k c' ∧ vwrite_inv pt m h d a n' m' h').
Proof using Hk.
  intros Ha fault. pose proof Ha as [[Hl Hr Hw] (Ha0 & Hn & _) Hi Hb Ho Hm Hre]. pose proof (access_top _ _ _ _ _ _ _ _ Ha) as Htop.
  pose proof (mt_le _ _ _ _ _ Hm) as Hle.
  assert (in_bounds h d n' = true) as Hb'. { rewrite <-(ptr_add_0 d). apply (in_bounds_part h d n); (done || lia). }
  split.
  - destruct (fragments_ok (memory_port jitter) k Hk Packet.makeReadCmd MemCmd.ReadReq pt now pc a n n' d c (λ z s, vread_inv pt m h d a z s.1 s.2)) with (fuel := Z.to_nat n) (z := 0) (r := data_read_req c) (s := (m, h))
      as (r' & [m' h'] & Hrun & Hr' & Hrd); try (done || lia); [exact makes_read|intros; by eapply access_valid| | |].
    + intros z l r pa [m1 h1] Hv Hz Hl0 Hle1 Hblk Htr Hfr. destruct (fragment_read Packet.STATIC_DATA [] (jitter (part_packet MemCmd.ReadReq Packet.STATIC_DATA [] (ptr_add d z) r)) d a n' z l r pa m h m1 h1 pt)
        as (p & m2 & h2 & lat & Hp & He & Hv'); try done; [by left|].
      exists p, (m2, h2). unfold memory_port. simpl. rewrite Hp. split; [done|]. split; [|done]. eapply answer_no_error; [|done]. auto.
    + constructor; try done; lia.
    + unfold readMem. rewrite Z.sub_0_r, Z.add_0_r, ptr_add_0 in Hrun. rewrite Hrun. by eexists _, m', h'.
  - intros Hinj.
    destruct (fragments_ok (memory_port jitter) k Hk Packet.makeWriteCmd MemCmd.WriteReq pt now pc a n n' d c (λ z s, vwrite_inv pt m h d a z s.1 s.2)) with (fuel := Z.to_nat n) (z := 0) (r := data_write_req c) (s := (m, h))
      as (r' & [m' h'] & Hrun & Hr' & Hrd); try (done || lia); [exact makes_write|intros; by eapply access_valid| | |].
    + intros z l r pa [m1 h1] Hv Hz Hl0 Hle1 Hblk Htr Hfr. destruct (fragment_write Packet.STATIC_DATA [] (jitter (part_packet MemCmd.WriteReq Packet.STATIC_DATA [] (ptr_add d z) r)) d a n' z l r pa m h m1 h1 pt)
        as (p & m2 & h2 & lat & Hp & He & Hv'); try done; [by left|].
      exists p, (m2, h2). unfold memory_port. simpl. rewrite Hp. split; [done|]. split; [|done]. eapply answer_no_error; [|done]. auto.
    + constructor; try done; lia.
    + unfold writeMem. rewrite Z.sub_0_r, Z.add_0_r, ptr_add_0 in Hrun. rewrite Hrun. by eexists _, m', h'.
Qed.

End Memory.
End AtomicCpu.
