(* ===== verification/DmaPeer.v ===== *)
(** The DMA port in timing mode together with the memory that serves its packets:
    which bytes have been moved at any point of a transfer. *)

From S2P Require Import Prelude Bits ChunkGen Host Request MemCmd Packet AbstractMem MemInterface.
From S2P Require Import PageTable Dma DmaTiming DmaVirt.
Import Host DmaPort DmaTiming(option_list, start, fin, remaining, owed, room)
  ChunkGenerator(in_block).

Module DmaPeer.

(** What is behind the port: the memory, and the packets it has served whose
    response has not arrived, as they were sent and as they come back. *)
Record peer (M : Type) := mkPeer {
  memory : M;
  inflight : list (Packet.t * Packet.t);
}.
Arguments mkPeer {M} memory inflight.
Arguments memory {M} p.
Arguments inflight {M} p.

Section Port.

(** The random latencies, the answers of the peer to the packets sent while a
    transfer is started, and the next clock edge of the device. *)
Context {M : Type} {HM : ByteMemory M} (rng : nat → Z) (acc : nat → bool) (edge : Z → Z).

(** A packet that is accepted reaches its memory within [sendTimingReq]
    ([NoncoherentXBar::recvTimingReq] forwards it in the same call, and
    [SimpleMemory] and [ScratchpadMemory] serve it when they receive it); the
    response comes later. *)
Definition pass (o : option Packet.t) (s : DmaPort.t) (w : World (peer M)) : res (World (peer M)) :=
  match o with
  | None => Ok (mkWorld s (mem w) (heap w) (S (draws w)))
  | Some p =>
      '(p', m, h, _) ← recvAtomic (rng (draws w)) p (memory (mem w)) (heap w);
      Ok (mkWorld s (mkPeer m (inflight (mem w) ++ [(p, p')])) h (S (draws w)))
  end.

(** [dmaRead] and [dmaWrite] in timing mode. *)
Definition dmaAction (c : MemCmd.Command) : DmaVirtDevice.DmaFn (M := peer M) :=
  λ now addr size event data delay w,
    '(o, s) ← dmaAction_timing now (edge now) (acc (draws w)) c addr size event (Some data) delay 0 (port w);
    pass o s w.

Definition dmaRead := dmaAction MemCmd.ReadReq.
Definition dmaWrite := dmaAction MemCmd.WriteReq.

(** The run of the port's [sendEvent], and the retry of the peer. *)
Definition send (now : Z) (accepted : bool) (w : World (peer M)) : res (World (peer M)) :=
  '(o, s) ← process_sendEvent now (edge now) accepted (port w);
  pass o s w.

Definition retry (now : Z) (accepted : bool) (w : World (peer M)) : res (World (peer M)) :=
  '(o, s) ← recvReqRetry now (edge now) accepted (port w);
  pass o s w.

(** The [j]-th packet in flight comes back, with the delays [hd] and [pd] that it
    has collected on the way. *)
Definition respond (now : Z) (j : nat) (hd pd : Z) (w : World (peer M)) : res (World (peer M)) :=
  match inflight (mem w) !! j with
  | None => Ok w
  | Some (_, p') =>
      s ← recvTimingResp now (Packet.set_delays hd pd p') (port w);
      Ok (mkWorld s (mkPeer (memory (mem w)) (delete j (inflight (mem w)))) (heap w) (draws w))
  end.

End Port.

(** ** What sending does *)

(** The part of the port that a send changes. *)
Definition sends (s s' : DmaPort.t) (o : option Packet.t) : Prop :=
  events s' = events s ∧
  match o with
  | None => states s' = states s ∧ transmitList s' = transmitList s
  | Some p => ∃ i l x tm d, transmitList s = i :: l ∧ states s !! i = Some x ∧ data x = Some d ∧
      p = chunk_packet tm i (cmd x) (id x) (ptr_add d (ChunkGenerator.curAddr (gen x) - start x))
            (ChunkGenerator.curAddr (gen x)) (ChunkGenerator.curSize (gen x)) ∧
      states s' = <[i := set_gen (ChunkGenerator.next (gen x)).1 x]> (states s) ∧
      transmitList s' = (if ChunkGenerator.last (gen x) then l else i :: l)
  end.

Lemma trySend_sends k c edge accepted o s' :
  DmaTiming.core k c → retryPending (DmaTiming.port c) = false →
  trySendTimingReq (DmaTiming.now c) edge accepted (DmaTiming.port c) = Ok (o, s') →
  sends (DmaTiming.port c) s' o ∧ (accepted = true → o ≠ None).
Proof.
  intros Hc Hrp H. unfold trySendTimingReq in H.
  destruct (transmitList (DmaTiming.port c)) as [|i l] eqn:Hl; [done|].
  destruct (DmaTiming.c_list k c Hc i) as [x Hx]; [rewrite Hl; by left|].
  unfold state_at in H. rewrite Hx, res_bind_Ok in H.
  destruct (DmaTiming.next_packet k c i l x Hc Hl Hx) as (tm & d & Hd & Hp). rewrite Hp, res_bind_Ok in H.
  set (p := chunk_packet _ _ _ _ _ _ _) in *. unfold sends.
  destruct accepted; cbn [set_retry set_pendingCount retryPending] in H.
  - rewrite Hrp in H. destruct (ChunkGenerator.last (gen x)) eqn:Hlast; simpl in H; rewrite ?Hl in H;
      [destruct l as [|j l]; [|inv_res H]|inv_res H]; simplify_eq; simpl; (split; [|done]); (split; [done|]).
    all: exists i; eexists; exists x, tm, d; (split; [exact Hl|]); rewrite Hlast; by split_and!.
  - simplify_eq. done.
Qed.

(** Handlers that send. *)
Lemma send_sends k c edge accepted o s' :
  DmaTiming.ok k c → sendEvent (DmaTiming.port c) = Some (DmaTiming.now c) →
  process_sendEvent (DmaTiming.now c) edge accepted (DmaTiming.port c) = Ok (o, s') →
  sends (DmaTiming.port c) s' o ∧ (accepted = true → o ≠ None).
Proof.
  intros [Hc Hlive] Hse H. unfold DmaTiming.live in Hlive.
  destruct (transmitList (DmaTiming.port c)) as [|i l] eqn:Hl; [destruct Hlive; congruence|].
  destruct (retryPending (DmaTiming.port c)) eqn:Hrp; [destruct Hlive; congruence|].
  unfold process_sendEvent, sendDma_timing in H. simpl in H. rewrite Hl, Hrp in H. simpl in H.
  apply (trySend_sends k (DmaTiming.mkSys (DmaTiming.now c) (set_sendEvent None (DmaTiming.port c))
    (DmaTiming.inflight c) (DmaTiming.started c) (DmaTiming.fired c)) edge accepted); [|done|done].
  apply DmaTiming.core_frame; try done. apply Hc.
Qed.

Lemma retry_sends k c edge accepted o s' :
  DmaTiming.ok k c → retryPending (DmaTiming.port c) = true →
  recvReqRetry (DmaTiming.now c) edge accepted (DmaTiming.port c) = Ok (o, s') →
  sends (DmaTiming.port c) s' o ∧ (accepted = true → o ≠ None).
Proof.
  intros [Hc Hlive] Hrp H. unfold DmaTiming.live in Hlive. unfold recvReqRetry in H. simpl in H.
  destruct (transmitList (DmaTiming.port c)) as [|i l] eqn:Hl; [destruct Hlive; congruence|].
  apply (trySend_sends k (DmaTiming.mkSys (DmaTiming.now c)
    (set_retry (inRetry (DmaTiming.port c)) false (DmaTiming.port c))
    (DmaTiming.inflight c) (DmaTiming.started c) (DmaTiming.fired c)) edge accepted); [|done|done].
  apply DmaTiming.core_frame; try done. apply Hc.
Qed.

(** A new transfer. *)
Record pushes (c : MemCmd.Command) (a size dl : Z) (d : ptr) (s s' : DmaPort.t) : Prop := {
  pu_events : events s' = events s;
  pu_state : ∃ i x, states s !! i = None ∧ i ∉ transmitList s ∧
    states s' = <[i := x]> (states s) ∧ transmitList s' = transmitList s ++ [i] ∧
    data x = Some d ∧ cmd x = c ∧ delay x = dl ∧ start x = a ∧ totBytes x = size ∧
    ChunkGenerator.curAddr (gen x) = a;
}.

Lemma action_sends k c edge accepted cmd a size e d dl o s' :
  DmaTiming.ok k c → DmaTiming.sane_action k cmd a size → e ∉ DmaTiming.in_use (DmaTiming.port c) →
  dmaAction_timing (DmaTiming.now c) edge accepted cmd a size (Some e) (Some d) dl 0 (DmaTiming.port c)
    = Ok (o, s') →
  ∃ s1, pushes cmd a size dl d (DmaTiming.port c) s1 ∧ sends s1 s' o ∧
    DmaTiming.core k (DmaTiming.mkSys (DmaTiming.now c) s1 (DmaTiming.inflight c) (DmaTiming.started c ++ [e])
      (DmaTiming.fired c)).
Proof.
  intros [Hc Hlive] Hsa Hnew H. unfold dmaAction_timing in H.
  destruct (DmaTiming.push_ok k c cmd a size e d dl Hc Hsa Hnew) as (s1 & Hp & Hc1 & Hne & Hse & Hrp & Hir & Hfront).
  rewrite Hp, res_bind_Ok in H. exists s1. split; [|split; [|done]].
  - clear H. unfold push_state in Hp. destruct Hsa as [Hcmd Ha Hsz Hend].
    pose proof (DmaTiming.c_k k c Hc) as Hk. assert (0 < 2 ^ k) by (apply Z.pow_pos_nonneg; lia).
    rewrite (DmaTiming.c_line k c Hc), (u64_small size) in Hp by auto with width.
    destruct (ChunkGenerator.create_Ok a size k ltac:(lia)) as [g Hg]. rewrite Hg, res_bind_Ok in Hp.
    destruct (ChunkGenerator.create_wf k ltac:(lia) a size g) as (_ & Hst & Hcur & _); [lia|lia|lia|done|].
    injection Hp as <-. pose proof (is_fresh (dom (states (DmaTiming.port c)))) as Hfresh.
    apply not_elem_of_dom in Hfresh. constructor; [done|]. eexists _, _. split_and!; try done.
    intros [y Hy]%(DmaTiming.c_list k c Hc). congruence.
  - unfold sendDma_timing in H. rewrite (bool_decide_false (transmitList s1 = [])) in H by done.
    cbn [negb ensure] in H. rewrite res_bind_Ok in H.
    destruct (retryPending s1 || negb (bool_decide (sendEvent s1 = None))) eqn:E; [by simplify_eq|].
    apply orb_false_iff in E as [Er _].
    by apply (trySend_sends k (DmaTiming.mkSys (DmaTiming.now c) s1 (DmaTiming.inflight c)
      (DmaTiming.started c ++ [e])
      (DmaTiming.fired c)) edge accepted).
Qed.

(** A response: the transfer of the packet is one answer further, or complete. *)
Definition responds (now : Z) (s s' : DmaPort.t) : Prop :=
  transmitList s' = transmitList s ∧ ∃ i x, states s !! i = Some x ∧
    ((∃ y, states s' = <[i := set_numBytes y x]> (states s) ∧ events s' = events s) ∨
     (i ∉ transmitList s ∧ states s' = delete i (states s) ∧
      ∃ e, events s' = events s ++ [(e, now + delay x)])).

Lemma response_responds k c l1 p l2 p' s' :
  DmaTiming.core k c → DmaTiming.inflight c = l1 ++ p :: l2 → Packet.answers p p' →
  recvTimingResp (DmaTiming.now c) p' (DmaTiming.port c) = Ok s' →
  responds (DmaTiming.now c) (DmaTiming.port c) s'.
Proof.
  intros Hc Hfl Hans H.
  destruct (DmaTiming.response_ok k c l1 p l2 p' Hc Hfl Hans) as (s2 & H2 & Hc2 & Htl & _).
  rewrite H in H2. injection H2 as <-. split; [done|].
  pose proof (DmaTiming.c_flight k c Hc) as Hf. rewrite Hfl in Hf.
  apply Forall_app in Hf as [_ [(i & x & Hx & Hpx) _]%Forall_cons_1].
  pose proof Hpx as (tm & d & a & n & _ & -> & _).
  destruct (DmaTiming.c_state k c Hc i x Hx) as [_ _ _ [e He] _ Hcmd Hab _ _ _ _].
  rewrite (DmaTiming.recvTimingResp_chunk _ _ _ _ _ _ _ _ _ _ Hcmd Hans) in H.
  unfold handleResp, state_at in H. inv_res H. simpl in E0. rewrite Hx in E0. injection E0 as <-.
  simpl in H. rewrite Hab in H. exists i, x. split; [done|].
  destruct (totBytes x =? u64 (numBytes x + n)) eqn:Hall; [|injection H as <-].
  - apply bind_Ok in H as (s2 & H%signal_inv & [= <-]). destruct H as [_ ->].
    right. rewrite He in *. simpl in *. split_and!; [|done|by exists e].
    intros Hi. pose proof (DmaTiming.c_list k _ Hc2 i) as Hl. simpl in Hl. rewrite lookup_delete_eq in Hl.
    by destruct (Hl Hi).
  - left. eexists. by split.
Qed.

(** ** Bytes moved *)

Section Region.

(** A region of [n] bytes at the virtual address [a], transferred with the
    command [c] from or to the buffer at [buf]. *)
Context {M : Type} {HM : ByteMemory M} (rng : nat → Z).
Context (c : MemCmd.Command) (pt : EmulationPageTable.t) (k a n : Z) (buf : ptr) (m0 : M).

(** A live transfer moves a part of the region. *)
Record covers (x : DmaReqState) (z : Z) : Prop := {
  co_cmd : cmd x = c;
  co_delay : delay x = 0;
  co_data : data x = Some (ptr_add buf z);
  co_bounds : 0 <= z ∧ z + totBytes x <= n;
  co_map y : 0 <= y < totBytes x → EmulationPageTable.translate pt (a + (z + y)) = Some (start x + y);
  co_serves : serves m0 k (start x) (totBytes x);
}.

(** The byte [i] of the region is still to be sent. *)
Definition unsent (s : DmaPort.t) (i : Z) : Prop :=
  ∃ j x z, j ∈ transmitList s ∧ states s !! j = Some x ∧ covers x z ∧
    z + (ChunkGenerator.curAddr (gen x) - start x) <= i < z + totBytes x.

(** The bytes not sent yet. *)
Definition left_of (s : DmaPort.t) (j : positive) : Z :=
  match states s !! j with Some x => fin x - ChunkGenerator.curAddr (gen x) | None => 0 end.

Definition backlog (s : DmaPort.t) : Z := foldr (λ j z, left_of s j + z) 0 (transmitList s).

(** [P S m h] says that the bytes of [S] have been moved.  A chunk of the region
    that a memory serves adds its bytes. *)
Definition moves (P : (Z → Prop) → M → hmem → Prop) : Prop :=
  (∀ S S' m h, (∀ i, S' i → S i) → P S m h → P S' m h) ∧
  (∀ S m h j i tm rid pa lo len,
     P S m h → 0 <= lo → 0 < len → lo + len <= n → accepts m0 pa len →
     (∀ y, 0 <= y < len → EmulationPageTable.translate pt (a + (lo + y)) = Some (pa + y)) →
     let p := chunk_packet tm i c rid (ptr_add buf lo) pa len in
     ∃ p' m' h' lat, recvAtomic j p m h = Ok (p', m', h', lat) ∧ Packet.answers p p' ∧
       P (λ i, S i ∨ lo <= i < lo + len) m' h').

(** The events of the transfers started and not completed, or completed and not
    run. *)
Definition evs (w : World (peer M)) : list positive :=
  (events (port w)).*1 ++ owed (states (port w)).

Definition sys_of (now : Z) (w : World (peer M)) : DmaTiming.sys :=
  DmaTiming.mkSys now (port w) (inflight (mem w)).*1 (evs w) [].

Lemma covers_unique x z z' : covers x z → covers x z' → z = z'.
Proof.
  intros [_ _ Hd _ _ _] [_ _ Hd' _ _ _]. rewrite Hd in Hd'. unfold ptr_add in Hd'. injection Hd'. lia.
Qed.

Lemma covers_same x y z : DmaTiming.same_transfer x y → delay y = delay x → covers x z → covers y z.
Proof.
  intros (Hd & Hc & _ & Hs & Ht & _) Hdl [? ? ? ? ? ?].
  constructor; rewrite ?Hd, ?Hc, ?Hs, ?Ht, ?Hdl; done.
Qed.

(** The chunk that is sent next. *)
Lemma next_chunk sys i l x :
  DmaTiming.core k sys → transmitList (DmaTiming.port sys) = i :: l →
  states (DmaTiming.port sys) !! i = Some x →
  let g := (ChunkGenerator.next (gen x)).1 in
  0 < ChunkGenerator.curSize (gen x) ∧ start x <= ChunkGenerator.curAddr (gen x) ∧
  ChunkGenerator.curAddr (gen x) + ChunkGenerator.curSize (gen x) <= fin x ∧
  in_block (2 ^ k) (ChunkGenerator.curAddr (gen x), ChunkGenerator.curSize (gen x)) ∧
  DmaTiming.same_transfer x (set_gen g x) ∧
  if ChunkGenerator.last (gen x)
  then ChunkGenerator.curAddr (gen x) + ChunkGenerator.curSize (gen x) = fin x
  else ChunkGenerator.curAddr g = ChunkGenerator.curAddr (gen x) + ChunkGenerator.curSize (gen x).
Proof.
  intros Hc Hl Hx g. destruct (DmaTiming.c_state k sys Hc i x Hx) as [Hs Hf _ _ _ _ _ _ _ Hact _].
  destruct (Hact ltac:(rewrite Hl; by left)) as [Hwf Hsz].
  destruct (DmaTiming.next_gen k x (DmaTiming.c_k k sys Hc) Hs Hf Hwf Hsz) as [Hsame Hnext].
  pose proof Hwf as [_ Hnx Hfn Hord [_ Hleft] _ Hblk _]. unfold start in *.
  split_and!; try done; [lia|lia|by apply Hblk|]. destruct (ChunkGenerator.last (gen x)); [done|]. apply Hnext.
Qed.

(** Sending does not bring back bytes already sent, but for the chunk sent. *)
Lemma unsent_after sys i l x z p s' j :
  DmaTiming.core k sys → sends (DmaTiming.port sys) s' (Some p) →
  transmitList (DmaTiming.port sys) = i :: l → states (DmaTiming.port sys) !! i = Some x → covers x z →
  unsent (DmaTiming.port sys) j →
  let lo := z + (ChunkGenerator.curAddr (gen x) - start x) in
  lo <= j < lo + ChunkGenerator.curSize (gen x) ∨ unsent s' j.
Proof.
  intros Hc (_ & i' & l' & x' & tm' & d' & Hl' & Hx' & _ & _ & Hst & Htl) Hl Hx Hco (i0 & x0 & z0 & Hi0 & Hx0 & Hco0 & Hj).
  rewrite Hl in Hl'. injection Hl' as <- <-. rewrite Hx in Hx'. injection Hx' as <-. intros lo.
  destruct (next_chunk sys i l x Hc Hl Hx) as (Hsz & Hlo & Hhi & _ & Hsame & Hnext).
  destruct (decide (i0 = i)) as [->|Hne].
  - rewrite Hx in Hx0. injection Hx0 as <-. rewrite (covers_unique x z0 z Hco0 Hco) in Hj.
    destruct (Z_lt_le_dec j (lo + ChunkGenerator.curSize (gen x))); [left; lia|right].
    unfold fin in *. destruct (ChunkGenerator.last (gen x)); [lia|].
    exists i. eexists. exists z. rewrite Hst, lookup_insert_eq, Htl. split; [by left|]. split; [done|].
    split; [by eapply covers_same|]. destruct Hsame as (_ & _ & _ & -> & -> & _). simpl. lia.
  - right. exists i0, x0, z0. rewrite Hst, lookup_insert_ne, Htl by done. split; [|done].
    rewrite Hl in Hi0. apply elem_of_cons in Hi0 as [?|?]; [done|]. destruct (ChunkGenerator.last (gen x)); [done|by right].
Qed.

Lemma left_of_ext s s' l :
  (∀ j, j ∈ l → states s' !! j = states s !! j) →
  foldr (λ j z, left_of s' j + z) 0 l = foldr (λ j z, left_of s j + z) 0 l.
Proof.
  induction l as [|j l IH]; intros H; simpl; [done|]. rewrite IH by (intros; apply H; by right).
  unfold left_of. by rewrite (H j) by by left.
Qed.

Lemma backlog_after sys o s' :
  DmaTiming.core k sys → sends (DmaTiming.port sys) s' o →
  match o with
  | None => backlog s' = backlog (DmaTiming.port sys)
  | Some p => backlog s' = backlog (DmaTiming.port sys) - Packet.size p ∧ 0 < Packet.size p
  end.
Proof.
  intros Hc (_ & Ho). unfold backlog. destruct o as [p|].
  - destruct Ho as (i & l & x & tm & d & Hl & Hx & _ & -> & Hst & Htl). simpl.
    destruct (next_chunk sys i l x Hc Hl Hx) as (Hsz & Hlo & Hhi & _ & Hsame & Hnext). split; [|done].
    pose proof (DmaTiming.c_nodup k sys Hc) as Hnd. rewrite Hl in Hnd. apply NoDup_cons in Hnd as [Hil _].
    assert (∀ j, j ∈ l → states s' !! j = states (DmaTiming.port sys) !! j) as Hrest.
    { intros j Hj. rewrite Hst, lookup_insert_ne; [done|]. by intros <-. }
    assert (left_of (DmaTiming.port sys) i = fin x - ChunkGenerator.curAddr (gen x)) as Hleft
      by (unfold left_of; by rewrite Hx).
    rewrite Htl, Hl. destruct (ChunkGenerator.last (gen x)); simpl; rewrite (left_of_ext _ s' l Hrest), Hleft.
    + lia.
    + unfold left_of at 1. rewrite Hst, lookup_insert_eq. destruct Hsame as (_ & _ & _ & Hs & Ht & _).
      unfold fin in *. rewrite Hs, Ht. simpl. lia.
  - destruct Ho as [Hst Htl]. rewrite Htl. apply left_of_ext. intros. by rewrite Hst.
Qed.

Context (P : (Z → Prop) → M → hmem → Prop) (HP : moves P).

(** What holds of the port [s] and what is behind it while [z] bytes of the region
    have been given to the port. *)
Record moving (z : Z) (s : DmaPort.t) (q : peer M) (h : hmem) : Prop := {
  mo_covers i x : states s !! i = Some x → ∃ z', covers x z';
  mo_answers : Forall (λ e, Packet.answers e.1 e.2) (inflight q);
  mo_bytes : Z.of_nat (length (inflight q)) + backlog s <= z;
  mo_moved : P (λ i, 0 <= i < z ∧ ¬ unsent s i) (memory q) h;
}.

Lemma pass_moving z sys o s' (w : World (peer M)) :
  DmaTiming.core k sys → sends (DmaTiming.port sys) s' o → moving z (DmaTiming.port sys) (mem w) (heap w) →
  ∃ w', pass rng o s' w = Ok w' ∧ port w' = s' ∧
    (inflight (mem w')).*1 = (inflight (mem w)).*1 ++ option_list o ∧
    moving z s' (mem w') (heap w').
Proof using HP.
  intros Hc Hsend [Hco Hans Hby Hmv]. pose proof (backlog_after sys o s' Hc Hsend) as Hback.
  pose proof Hsend as (_ & Ho). destruct o as [p|]; simpl.
  - destruct Ho as (i & l & x & tm & d & Hl & Hx & Hd & Hp & Hst & Htl).
    destruct (Hco i x Hx) as [z0 Hc0]. pose proof Hc0 as [Hcmd Hdl Hd' Hbd Hmap Hsrv].
    destruct (next_chunk sys i l x Hc Hl Hx) as (Hsz & Hlo & Hhi & Hblk & Hsame & _). unfold fin in Hhi.
    rewrite Hd in Hd'. injection Hd' as ->. rewrite ptr_add_add, Hcmd in Hp.
    destruct HP as [Hmono Hserve].
    destruct (Hserve _ (memory (mem w)) (heap w) (rng (draws w)) i tm (id x) (ChunkGenerator.curAddr (gen x))
      (z0 + (ChunkGenerator.curAddr (gen x) - start x)) (ChunkGenerator.curSize (gen x)) Hmv)
      as (p' & m' & h' & lat & Hr & Hap & HP'); [lia..| | |].
    { replace (ChunkGenerator.curAddr (gen x)) with (start x + (ChunkGenerator.curAddr (gen x) - start x)) by lia.
      apply Hsrv; [lia..|]. by replace (start x + _) with (ChunkGenerator.curAddr (gen x)) by lia. }
    { intros y Hy. rewrite <-Z.add_assoc, Hmap by lia. f_equal. lia. }
    rewrite <-Hp in Hr, Hap. rewrite Hr, res_bind_Ok. eexists. split; [done|]. simpl.
    split; [done|]. split; [by rewrite fmap_app|]. constructor; simpl.
    + intros j y Hy. rewrite Hst in Hy. apply lookup_insert_Some in Hy as [[<- <-]|[_ Hy]]; [|by eapply Hco].
      exists z0. by eapply covers_same.
    + apply Forall_app. by repeat constructor.
    + rewrite length_app. simpl. lia.
    + eapply Hmono; [|exact HP']. intros j [Hj Hu]. simpl.
      destruct (decide (z0 + (ChunkGenerator.curAddr (gen x) - start x) <= j <
        z0 + (ChunkGenerator.curAddr (gen x) - start x) + ChunkGenerator.curSize (gen x))) as [?|Hn]; [by right|left].
      split; [done|]. intros Hu0.
      by destruct (unsent_after sys i l x z0 p s' j Hc Hsend Hl Hx Hc0 Hu0).
  - destruct Ho as [Hst Htl]. eexists. split; [done|]. simpl. rewrite app_nil_r.
    split; [done|]. split; [done|]. constructor; simpl; try done.
    + intros j y. rewrite Hst. apply Hco.
    + by rewrite Hback.
    + eapply (proj1 HP); [|exact Hmv]. intros j [Hj Hu]. split; [done|]. intros (i & x & z' & Hi & Hx & Hrest).
      apply Hu. exists i, x, z'. by rewrite Hst, Htl.
Qed.

Lemma push_moving z pa size s s' q h :
  pushes c pa size 0 (ptr_add buf z) s s' → moving z s q h → 0 <= z → 0 < size → z + size <= n →
  (∀ y, 0 <= y < size → EmulationPageTable.translate pt (a + (z + y)) = Some (pa + y)) →
  serves m0 k pa size → moving (z + size) s' q h.
Proof using HP.
  intros [_ (i & x & Hi & Hil & Hst & Htl & Hd & Hcmd & Hdl & Hs & Ht & Hcur)] [Hco Hans Hby Hmv] Hz Hsz Hn Hmap Hsrv.
  assert (covers x z) as Hcx by (constructor; rewrite ?Hs, ?Ht; try done; intros y; rewrite ?Hs, ?Ht; apply Hmap).
  constructor; try done.
  - intros j y. rewrite Hst. intros [[<- <-]|[_ Hy]]%lookup_insert_Some; [by exists z|by eapply Hco].
  - assert (backlog s' = backlog s + size); [|lia]. unfold backlog. rewrite Htl, foldr_app. simpl.
    assert (left_of s' i = size) as -> by (unfold left_of, fin; rewrite Hst, lookup_insert_eq, Hs, Ht, Hcur; lia).
    rewrite Z.add_0_r. assert (∀ l b, foldr (λ j z, left_of s' j + z) b l = foldr (λ j z, left_of s' j + z) 0 l + b)
      as Hfold by (intros l b; induction l; simpl; lia).
    rewrite Hfold, (left_of_ext s s'); [done|]. intros j Hj. rewrite Hst, lookup_insert_ne; [done|]. by intros <-.
  - eapply (proj1 HP); [|exact Hmv]. intros y [Hy Hu]. simpl. split.
    + destruct (Z_lt_le_dec y z); [lia|]. destruct Hu. exists i, x, z.
      rewrite Hst, lookup_insert_eq, Htl, Hcur, Hs, Ht. split; [apply elem_of_app; right; by left|].
      split; [done|]. split; [done|lia].
    + intros (j & x' & z' & Hj & Hx' & Hrest). apply Hu. exists j, x', z'.
      rewrite Hst, lookup_insert_ne, Htl by congruence. split; [apply elem_of_app; by left|done].
Qed.

(** A response leaves what is still to be sent alone. *)
Lemma respond_keeps now s s' i x z :
  responds now s s' → i ∈ transmitList s → states s !! i = Some x → covers x z →
  ∃ y, states s' !! i = Some y ∧ covers y z ∧ gen y = gen x ∧ totBytes y = totBytes x.
Proof.
  intros (_ & j & x0 & Hx0 & Hcase) Hi Hx Hc. destruct Hcase as [(y & Hst & _)|(Hni & Hst & _)]; rewrite Hst.
  - destruct (decide (j = i)) as [<-|Hne]; [|rewrite lookup_insert_ne by done; eauto].
    rewrite lookup_insert_eq. eexists. split; [done|]. assert (x0 = x) as -> by congruence.
    split; [|done]. by apply (covers_same x).
  - rewrite lookup_delete_ne by (intros <-; done). eauto.
Qed.

Lemma respond_backlog z now s s' q h : responds now s s' → moving z s q h → backlog s' = backlog s.
Proof.
  intros Hr [Hco _ _ _]. pose proof Hr as (Htl & j & x & Hx & Hcase). unfold backlog. rewrite Htl.
  assert (∀ l, (∀ y, y ∈ l → y ∈ transmitList s) → foldr (λ y z, left_of s' y + z) 0 l =
    foldr (λ y z, left_of s y + z) 0 l) as Hl; [|by apply Hl].
  induction l as [|y l IH]; intros Hl; simpl; [done|]. rewrite IH by (intros; apply Hl; by right).
  f_equal. unfold left_of. destruct (states s !! y) as [x0|] eqn:Hx0.
  - destruct (Hco y x0 Hx0) as [z0 Hc0].
    destruct (respond_keeps now s s' y x0 z0 Hr) as (x1 & -> & _ & Hg & Ht); [by apply Hl; left|done..|].
    unfold fin, start. by rewrite Hg, Ht.
  - destruct Hcase as [(v & Hst & _)|(_ & Hst & _)]; rewrite Hst.
    + rewrite lookup_insert_ne by congruence. by rewrite Hx0.
    + rewrite lookup_delete_ne by congruence. by rewrite Hx0.
Qed.

Lemma respond_moving z now s s' q h (i : nat) :
  responds now s s' → moving z s q h → is_Some (inflight q !! i) →
  moving z s' (mkPeer (memory q) (delete i (inflight q))) h.
Proof using HP.
  intros Hr Hm Hi. pose proof (respond_backlog _ _ _ _ _ _ Hr Hm) as Hb.
  pose proof Hr as (Htl & j & x & Hx & Hcase). pose proof Hm as [Hco Hans Hby Hmv]. constructor; simpl.
  - intros i0 y. destruct Hcase as [(v & Hst & _)|(_ & Hst & _)]; rewrite Hst.
    + intros [[<- <-]|[_ Hy]]%lookup_insert_Some; [|by eapply Hco]. destruct (Hco j x Hx) as [z0 Hc0].
      exists z0. by apply (covers_same x).
    + intros [_ Hy]%lookup_delete_Some. by eapply Hco.
  - by apply Forall_delete.
  - rewrite Hb, length_delete by done. lia.
  - eapply (proj1 HP); [|exact Hmv]. intros y [Hy Hu]. split; [done|]. intros (i0 & x0 & z0 & Hi0 & Hx0 & Hc0 & Hrest).
    apply Hu. destruct (respond_keeps now s s' i0 x0 z0 Hr Hi0 Hx0 Hc0) as (x1 & Hx1 & Hc1 & Hg & Ht).
    exists i0, x1, z0. rewrite Htl. split_and!; try done; unfold start in *; rewrite ?Hg, ?Ht; lia.
Qed.

(** ** Handlers *)

Context (acc : nat → bool) (edge : Z → Z) (Hedge : ∀ x, x <= edge x) (Hn : n < 2 ^ 32).

Record tinv (z now : Z) (w : World (peer M)) : Prop := {
  ti_ok : DmaTiming.ok k (sys_of now w);
  ti_moving : moving z (port w) (mem w) (heap w);
  ti_ticks : Forall (λ e, e.2 = now) (events (port w));
}.

(** The ghost list of events started is the one of the port. *)
Lemma ok_canon t s fl st :
  DmaTiming.ok k (DmaTiming.mkSys t s fl st []) →
  DmaTiming.ok k (DmaTiming.mkSys t s fl ((events s).*1 ++ owed (states s)) []) ∧
  st ≡ₚ (events s).*1 ++ owed (states s).
Proof. intros [[] ?]. split; [split; [by constructor|done]|done]. Qed.

Lemma left_nonneg sys l :
  DmaTiming.core k sys → (∀ j, j ∈ l → j ∈ transmitList (DmaTiming.port sys)) →
  Z.of_nat (length l) <= foldr (λ j z, left_of (DmaTiming.port sys) j + z) 0 l.
Proof.
  intros Hc. induction l as [|j l IH]; intros Hl; simpl; [done|].
  specialize (IH ltac:(intros; apply Hl; by right)).
  assert (0 < left_of (DmaTiming.port sys) j); [|lia]. unfold left_of.
  destruct (DmaTiming.c_list k sys Hc j) as [x Hx]; [apply Hl; by left|]. rewrite Hx.
  destruct (DmaTiming.c_state k sys Hc j x Hx) as [_ _ _ _ _ _ _ _ _ Hact _].
  destruct (Hact ltac:(apply Hl; by left)) as [[_ Hnx Hfn _ [_ ?] _ _ _] ?]. lia.
Qed.

Lemma backlog_length sys :
  DmaTiming.core k sys → Z.of_nat (length (transmitList (DmaTiming.port sys))) <= backlog (DmaTiming.port sys).
Proof. intros Hc. by apply (left_nonneg sys). Qed.

(** There is room for one more packet while something is left to send. *)
Lemma moving_room z t w :
  tinv z t w → z <= n → (z < n ∨ transmitList (port w) ≠ []) → room (sys_of t w).
Proof using Hn.
  intros [[Hc _] [_ _ Hby _] _] Hz Hne. pose proof (backlog_length _ Hc) as Hb. simpl in Hb.
  unfold room. simpl. rewrite length_fmap.
  destruct Hne as [?|Hne]; [lia|]. destruct (transmitList (port w)); [done|]. simpl in Hb. lia.
Qed.

Lemma pass_tinv z t w sys o s' st :
  DmaTiming.core k sys → sends (DmaTiming.port sys) s' o →
  moving z (DmaTiming.port sys) (mem w) (heap w) →
  DmaTiming.ok k (DmaTiming.mkSys t s' ((inflight (mem w)).*1 ++ option_list o) st []) →
  Forall (λ e, e.2 = t) (events (DmaTiming.port sys)) →
  ∃ w', pass rng o s' w = Ok w' ∧ tinv z t w' ∧ evs w' ≡ₚ st ∧ port w' = s' ∧
    (inflight (mem w')).*1 = (inflight (mem w)).*1 ++ option_list o.
Proof using HP.
  intros Hc Hsend Hmv Hok Htick. pose proof Hsend as [He _].
  destruct (pass_moving z sys o s' w Hc Hsend Hmv) as (w' & Hp & Hport & Hfl & Hmv').
  destruct (ok_canon _ _ _ _ Hok) as [Hok' Hst].
  exists w'. split; [done|]. split; [|by rewrite Hst; unfold evs; rewrite Hport].
  constructor; [|by rewrite Hport|by rewrite Hport, He].
  unfold sys_of, evs. by rewrite Hport, Hfl.
Qed.

(** What a send leaves to do. *)
Definition progress (accepted : bool) (w w' : World (peer M)) : Prop :=
  accepted = true → backlog (port w') < backlog (port w) ∧
    length (inflight (mem w')) = S (length (inflight (mem w))) ∧ events (port w') = events (port w).

Lemma sent_tinv t accepted w o s' :
  tinv n t w → sends (port w) s' o → (accepted = true → o ≠ None) →
  DmaTiming.ok k (DmaTiming.mkSys t s' ((inflight (mem w)).*1 ++ option_list o) (evs w) []) →
  ∃ w', pass rng o s' w = Ok w' ∧ tinv n t w' ∧ evs w' ≡ₚ evs w ∧ progress accepted w w'.
Proof using HP.
  intros [Hok Hmv Ht] Hsend Hacc Hok'.
  destruct (pass_tinv n t w (sys_of t w) o s' _ (proj1 Hok) Hsend Hmv Hok' Ht) as (w' & -> & Hi' & Hev & Hpt & Hfl).
  exists w'. split_and!; try done. intros Ha. specialize (Hacc Ha).
  pose proof (backlog_after (sys_of t w) o s' (proj1 Hok) Hsend) as Hb. destruct o as [p|]; [|done].
  rewrite Hpt. simpl in Hb. apply (f_equal length) in Hfl. rewrite length_app, !length_fmap in Hfl. simpl in Hfl.
  pose proof Hsend as [He _]. split_and!; [lia|lia|done].
Qed.

(** Something is left to send while an event or a retry is to come. *)
Lemma live_room t w :
  tinv n t w → sendEvent (port w) = Some t ∨ retryPending (port w) = true → room (sys_of t w).
Proof using Hn.
  intros Hi Hse. apply (moving_room n); [done|lia|right]. intros Hl. destruct (ti_ok _ _ _ Hi) as [_ Hlive].
  unfold DmaTiming.live in Hlive. simpl in Hlive. rewrite Hl in Hlive. destruct Hlive, Hse; congruence.
Qed.

Lemma send_tinv t accepted w :
  tinv n t w → sendEvent (port w) = Some t →
  ∃ w', send rng edge t accepted w = Ok w' ∧ tinv n t w' ∧ evs w' ≡ₚ evs w ∧ progress accepted w w'.
Proof using HP Hedge Hn.
  intros Hi Hse. pose proof (live_room t w Hi (or_introl Hse)) as Hroom. pose proof Hi as [Hok _ _].
  destruct (DmaTiming.send_ok k (sys_of t w) (edge t) accepted Hok Hse (Hedge t) Hroom) as (o & s' & Hs & Hok').
  destruct (send_sends k (sys_of t w) (edge t) accepted o s' Hok Hse Hs) as [Hsend Hacc].
  unfold send. simpl in Hs. rewrite Hs, res_bind_Ok. by apply sent_tinv.
Qed.

Lemma retry_tinv t accepted w :
  tinv n t w → retryPending (port w) = true →
  ∃ w', retry rng edge t accepted w = Ok w' ∧ tinv n t w' ∧ evs w' ≡ₚ evs w ∧ progress accepted w w'.
Proof using HP Hedge Hn.
  intros Hi Hrp. pose proof (live_room t w Hi (or_intror Hrp)) as Hroom. pose proof Hi as [Hok _ _].
  destruct (DmaTiming.req_retry_ok k (sys_of t w) (edge t) accepted Hok Hrp (Hedge t) Hroom) as (o & s' & Hs & Hok').
  destruct (retry_sends k (sys_of t w) (edge t) accepted o s' Hok Hrp Hs) as [Hsend Hacc].
  unfold retry. simpl in Hs. rewrite Hs, res_bind_Ok. by apply sent_tinv.
Qed.

Lemma respond_tinv t j hd pd w :
  tinv n t w → is_Some (inflight (mem w) !! j) →
  ∃ w', respond t j hd pd w = Ok w' ∧ tinv n t w' ∧ evs w' ≡ₚ evs w ∧
    backlog (port w') = backlog (port w) ∧ S (length (inflight (mem w'))) = length (inflight (mem w)) ∧
    (length (events (port w')) <= S (length (events (port w))))%nat.
Proof using HP.
  intros [Hok Hmv Ht] Hj. pose proof Hj as [[p p'] Hp]. unfold respond. rewrite Hp.
  assert (Packet.answers p (Packet.set_delays hd pd p')) as Hans.
  { apply Packet.answers_delayed. pose proof (mo_answers _ _ _ _ Hmv) as Hf. rewrite Forall_lookup in Hf.
    exact (Hf j (p, p') Hp). }
  pose proof (take_drop_middle _ _ _ Hp) as Hsplit.
  set (l1 := take j (inflight (mem w))) in *. set (l2 := drop (S j) (inflight (mem w))) in *.
  assert (DmaTiming.inflight (sys_of t w) = l1.*1 ++ p :: l2.*1) as Hfl
    by (simpl; by rewrite <-Hsplit, fmap_app).
  destruct (DmaTiming.response_live k (sys_of t w) _ p _ _ Hok Hfl Hans) as (s' & Hs & Hok').
  pose proof (response_responds k (sys_of t w) _ p _ _ s' (proj1 Hok) Hfl Hans Hs) as Hresp.
  simpl in Hs. rewrite Hs, res_bind_Ok. eexists. split; [done|]. destruct (ok_canon _ _ _ _ Hok') as [Hok2 Hev].
  pose proof (respond_moving n t _ s' _ _ j Hresp Hmv Hj) as Hmv'. simpl in Hresp.
  assert (delete j (inflight (mem w)) = l1 ++ l2) as Hdel by apply delete_take_drop.
  split; [constructor; [|done|]|].
  - unfold sys_of, evs. simpl. by rewrite Hdel, fmap_app.
  - simpl. destruct Hresp as (_ & i & x & Hx & [(y & _ & ->)|(_ & _ & e & ->)]); [done|].
    apply Forall_app. split; [done|]. constructor; [|constructor]. simpl.
    destruct (mo_covers _ _ _ _ Hmv i x Hx) as [z' [_ Hd _ _ _ _]]. lia.
  - simpl. unfold evs. simpl. split_and!.
    + by rewrite <-Hev.
    + by eapply respond_backlog.
    + rewrite length_delete by done. apply lookup_lt_Some in Hp. lia.
    + destruct Hresp as (_ & i & x & Hx & [(y & _ & ->)|(_ & _ & e & ->)]); [lia|]. rewrite length_app. simpl. lia.
Qed.

(** A range of the region is given to the port. *)
Lemma action_tinv t z pa size e w :
  tinv z t w → 0 <= z → 0 < size → z + size <= n → 0 <= pa → pa + size < 2 ^ 64 - 2 ^ k →
  dma_command c → e ∉ evs w →
  (∀ y, 0 <= y < size → EmulationPageTable.translate pt (a + (z + y)) = Some (pa + y)) →
  serves m0 k pa size →
  ∃ w', dmaAction rng acc edge c t pa size (Some e) (ptr_add buf z) 0 w = Ok w' ∧
    tinv (z + size) t w' ∧ evs w' ≡ₚ e :: evs w.
Proof using HP Hedge Hn.
  intros Hi Hz Hsz Hle Hpa Hend Hcmd Hnew Hmap Hsrv. pose proof Hi as [Hok Hmv Ht].
  assert (room (sys_of t w)) as Hroom by (apply (moving_room z); [done|lia|left; lia]).
  assert (DmaTiming.sane_action k c pa size) as Hsa by by constructor.
  destruct (DmaTiming.action_ok k (sys_of t w) (edge t) (acc (draws w)) c pa size e (ptr_add buf z) 0
    Hok Hsa (Hedge t) Hroom Hnew) as (o & s' & Hs & Hok').
  destruct (action_sends k (sys_of t w) (edge t) (acc (draws w)) c pa size e (ptr_add buf z) 0 o s' Hok Hsa Hnew Hs)
    as (s1 & Hpush & Hsend & Hc1).
  unfold dmaAction. simpl in Hs. rewrite Hs, res_bind_Ok. simpl in Hpush.
  destruct (pass_tinv (z + size) t w _ o s' (evs w ++ [e]) Hc1 Hsend) as (w' & -> & Hi' & Hev & _).
  - by eapply push_moving.
  - exact Hok'.
  - simpl. by rewrite (pu_events _ _ _ _ _ _ _ Hpush).
  - exists w'. split_and!; try done. rewrite Hev. simpl. by rewrite Permutation_app_comm.
Qed.

(** Time passes when no event is due. *)
Lemma time_tinv t t' w :
  tinv n t w → t <= t' → events (port w) = [] → (∀ x, sendEvent (port w) = Some x → t' <= x) →
  tinv n t' w.
Proof.
  intros [Hok Hmv _] Ht He Hse. constructor; [|done|by rewrite He].
  apply (DmaTiming.timing_step_ok k _ _ Hok), DmaTiming.step_time; [done..|].
  simpl. rewrite He. by intros e ?%not_elem_of_nil.
Qed.

(** When no transfer is left, all bytes have been moved. *)
Lemma tinv_done t w :
  tinv n t w → owed (states (port w)) = [] →
  states (port w) = ∅ ∧ transmitList (port w) = [] ∧ inflight (mem w) = [] ∧
  P (λ i, 0 <= i < n) (memory (mem w)) (heap w).
Proof using HP.
  intros [[Hc _] [_ _ _ Hmv] _] Ho.
  assert (states (port w) = ∅) as Hst.
  { apply map_eq. intros i. rewrite lookup_empty. destruct (states (port w) !! i) as [x|] eqn:Hx; [|done].
    pose proof (DmaTiming.owed_split _ i x Hx) as Hp. rewrite Ho in Hp.
    destruct (DmaTiming.c_state k _ Hc i x Hx) as [_ _ _ [e He] _ _ _ _ _ _ _]. rewrite He in Hp.
    by apply Permutation_nil_cons in Hp. }
  assert (transmitList (port w) = []) as Htl.
  { destruct (transmitList (port w)) as [|i l] eqn:Hl; [done|].
    destruct (DmaTiming.c_list k _ Hc i) as [x Hx]; [simpl; rewrite Hl; by left|]. simpl in Hx. by rewrite Hst in Hx. }
  split_and!; try done.
  - pose proof (DmaTiming.c_flight k _ Hc) as Hf. simpl in Hf.
    destruct (inflight (mem w)) as [|p l]; [done|]. apply Forall_cons_1 in Hf as [(i & x & Hx & _) _].
    simpl in Hx. by rewrite Hst in Hx.
  - eapply (proj1 HP); [|exact Hmv]. intros i Hi. split; [done|]. intros (j & x & z & Hj & _).
    rewrite Htl in Hj. by apply not_elem_of_nil in Hj.
Qed.

(** Nothing has been moved of a region that no transfer has been started for. *)
Lemma tinv_start t w :
  DmaTiming.ok k (sys_of t w) → states (port w) = ∅ → transmitList (port w) = [] →
  inflight (mem w) = [] → events (port w) = [] → P (λ _, False) (memory (mem w)) (heap w) → tinv 0 t w.
Proof using HP.
  intros Hok Hst Htl Hfl Hev HP0. constructor; [done| |by rewrite Hev]. constructor.
  - intros i x. by rewrite Hst, lookup_empty.
  - by rewrite Hfl.
  - unfold backlog. by rewrite Hfl, Htl.
  - eapply (proj1 HP); [|exact HP0]. simpl. lia.
Qed.

End Region.

(** ** Reads and writes *)

Section Parts.

Context {M : Type} {HM : ByteMemory M} (pt : EmulationPageTable.t) (a n : Z) (buf : ptr) (m0 : M) (h0 : hmem).
Context (Hbuf : ¬ owns m0 (block buf)) (Hin : in_bounds h0 buf n = true).

(** The bytes of [S] have been read into the buffer. *)
Record rmoved (S : Z → Prop) (m : M) (h : hmem) : Prop := {
  rm_inv : inv m h;
  rm_same : same_memory m0 m;
  rm_contents x : contents m h x = contents m0 h0 x;
  rm_bounds q l : in_bounds h q l = in_bounds h0 q l;
  rm_buffer i : S i → 0 <= i < n → peek h (block buf) (offset buf + i) = DmaVirtDevice.vcontents pt m0 h0 (a + i);
  rm_frame b i : b ≠ block buf → peek h b i = peek h0 b i;
}.

Lemma rmoved_moves : moves MemCmd.ReadReq pt a n buf m0 rmoved.
Proof using Hbuf Hin.
  split.
  - intros S S' m h HS []. constructor; auto.
  - intros S m h j i tm rid pa lo len [Hi Hsm Hc Hb Hbf Hfr] Hlo Hlen Hle Hacc Hmap p.
    assert (in_bounds h (ptr_add buf lo) len = true) as Hbd
      by (rewrite Hb; eapply Packet.in_bounds_sub; [exact Hin|lia..]).
    destruct (memory_read j p m h (ptr_add buf lo) len) as (p' & m' & h' & lat & Hr & Hans & Hi' & Hsm' & Hd & Hc' & Hpk & Hb');
      try done.
    + simpl. by intros ?%(proj1 Hsm).
    + by apply (proj2 Hsm).
    + exists p', m', h', lat. split; [done|]. split; [done|]. simpl in Hd, Hpk. constructor; try done.
      * by eapply same_memory_trans.
      * intros x. by rewrite Hc'.
      * intros q l. by rewrite Hb'.
      * intros x HS Hx. destruct (decide (lo <= x < lo + len)) as [Hin'|Hout].
        -- replace (offset buf + x) with (offset buf + lo + (x - lo)) by lia. rewrite Hd, Hc by lia.
           unfold DmaVirtDevice.vcontents. replace (a + x) with (a + (lo + (x - lo))) by lia. by rewrite Hmap by lia.
        -- rewrite Hpk by (right; lia). apply Hbf; [|done]. by destruct HS.
      * intros b x Hne. rewrite Hpk by by left. by apply Hfr.
Qed.

(** The bytes of [S] have been written from the buffer. *)
Record wmoved (S : Z → Prop) (m : M) (h : hmem) : Prop := {
  wm_inv : inv m h;
  wm_same : same_memory m0 m;
  wm_bounds q l : in_bounds h q l = in_bounds h0 q l;
  wm_written i x : S i → 0 <= i < n → EmulationPageTable.translate pt (a + i) = Some x →
    contents m h x = peek h0 (block buf) (offset buf + i);
  wm_other x : (∀ i, 0 <= i < n → EmulationPageTable.translate pt (a + i) ≠ Some x) →
    contents m h x = contents m0 h0 x;
  wm_frame b i : ¬ owns m0 b → peek h b i = peek h0 b i;
}.

Lemma wmoved_moves : DmaVirtDevice.vinj pt a n → moves MemCmd.WriteReq pt a n buf m0 wmoved.
Proof using Hbuf Hin.
  intros Hinj. split.
  - intros S S' m h HS []. constructor; eauto.
  - intros S m h j i tm rid pa lo len [Hi Hsm Hb Hwr Hot Hfr] Hlo Hlen Hle Hacc Hmap p.
    assert (in_bounds h (ptr_add buf lo) len = true) as Hbd
      by (rewrite Hb; eapply Packet.in_bounds_sub; [exact Hin|lia..]).
    destruct (memory_write j p m h (ptr_add buf lo) len) as (p' & m' & h' & lat & Hr & Hans & Hi' & Hsm' & Hc & Hpk & Hb');
      try done.
    + apply chunk_plain_write.
    + apply chunk_packet_unmasked.
    + simpl. by intros ?%(proj1 Hsm).
    + by apply (proj2 Hsm).
    + exists p', m', h', lat. split; [done|]. split; [done|]. simpl in Hc. constructor; try done.
      * by eapply same_memory_trans.
      * intros q l. by rewrite Hb'.
      * intros y x HS Hy Hx. rewrite Hc. case_decide as Hin'.
        -- rewrite Hfr by done. f_equal. assert (y = lo + (x - pa)); [|lia].
           apply (Hinj _ _ x); [done|lia|done|]. rewrite Hmap by lia. f_equal. lia.
        -- apply (Hwr y); try done. destruct HS as [?|Hin2]; [done|]. exfalso. apply Hin'.
           specialize (Hmap (y - lo) ltac:(lia)). replace (lo + (y - lo)) with y in Hmap by lia.
           rewrite Hx in Hmap. injection Hmap as ->. lia.
      * intros x Hx. rewrite Hc, decide_False; [by apply Hot|]. intros Hin'.
        apply (Hx (lo + (x - pa))); [lia|]. rewrite Hmap by lia. f_equal. lia.
      * intros b y Hnb. rewrite Hpk by (by intros ?%(proj1 Hsm)). by apply Hfr.
Qed.

End Parts.

End DmaPeer.
