(* ===== verification/TimingCpu.v ===== *)
(** Loads and stores of the timing processor ([cpu/simple/timing.cc]), the processor of
    the hybrid memory configuration: an access that crosses a cache line is split in two
    parts, which are translated, sent, refused and sent again, and answered on their own;
    the instruction completes when the last answer has been processed. *)

From S2P Require Import Prelude Bits AddrRange ChunkGen Host Request MemCmd Packet AbstractMem.
From S2P Require Import MemInterface PageTable PortProxy Dma DmaVirt DmaPeer AtomicCpu.
Import Intmath Host ChunkGenerator(in_block) DmaPeer(peer, mkPeer, memory, inflight).
Import DmaVirtDevice(vread_inv, vwrite_inv, vinj, vcontents).
Import AtomicCpu(part_packet, frag_req, reaches, data_kind).

Module TimingCpu.

(** [BaseSimpleCPU::Status]. *)
Inductive Status :=
  | Idle | Running | Faulting | ITBWaitResponse | IcacheRetry | IcacheWaitResponse | IcacheWaitSwitch
  | DTBWaitResponse | DcacheRetry | DcacheWaitResponse | DcacheWaitSwitch.

#[global] Instance Status_eq_dec : EqDecision Status.
Proof. solve_decision. Defined.

(** What an access of the current instruction ends with: a fault at an address, or the
    data given to [completeAcc] of the instruction. *)
Inductive outcome := Faulted (vaddr : Z) | Completed (data : list Z).

(** The packet of a split access with its [SplitMainSenderState]; the sender state of
    a part, [SplitFragmentSenderState], is its number, 1 or 2. *)
Record Main := mkMain {
  bigPkt : Packet.t;
  outstanding : Z;
  fragment1 : option Packet.t;
  fragment2 : option Packet.t;
}.

Definition set_outstanding (n : Z) (s : Main) : Main := mkMain (bigPkt s) n (fragment1 s) (fragment2 s).

(** [fragments[index] = NULL]. *)
Definition clear_fragment (index : positive) (s : Main) : Main :=
  if Pos.eqb index 1 then mkMain (bigPkt s) (outstanding s) None (fragment2 s)
  else mkMain (bigPkt s) (outstanding s) (fragment1 s) None.

Definition getPendingFragment (s : Main) : Z :=
  match fragment1 s, fragment2 s with
  | Some _, _ => 0
  | None, Some _ => 1
  | None, None => -1
  end.

(** The part of the processor that makes data accesses, with the events of its data
    port, and the outcomes so far; one thread runs on it. *)
Record t := mk {
  _status : Status;
  dcache_pkt : option Packet.t;
  main_send_state : option Main;
  tickEvent : option (Packet.t * Z);
  retryRespEvent : option Z;
  outcomes : list outcome;
  cacheLineSize : Z;
  dataRequestorId : Z;
  contextId : Z;
  rv32 : bool;
}.

Definition set_status (x : Status) (c : t) : t :=
  mk x (dcache_pkt c) (main_send_state c) (tickEvent c) (retryRespEvent c) (outcomes c) (cacheLineSize c) (dataRequestorId c) (contextId c) (rv32 c).
Definition set_pkt (x : option Packet.t) (c : t) : t :=
  mk (_status c) x (main_send_state c) (tickEvent c) (retryRespEvent c) (outcomes c) (cacheLineSize c) (dataRequestorId c) (contextId c) (rv32 c).
Definition set_main (x : option Main) (c : t) : t :=
  mk (_status c) (dcache_pkt c) x (tickEvent c) (retryRespEvent c) (outcomes c) (cacheLineSize c) (dataRequestorId c) (contextId c) (rv32 c).
Definition set_tick (x : option (Packet.t * Z)) (c : t) : t :=
  mk (_status c) (dcache_pkt c) (main_send_state c) x (retryRespEvent c) (outcomes c) (cacheLineSize c) (dataRequestorId c) (contextId c) (rv32 c).
Definition set_retryResp (x : option Z) (c : t) : t :=
  mk (_status c) (dcache_pkt c) (main_send_state c) (tickEvent c) x (outcomes c) (cacheLineSize c) (dataRequestorId c) (contextId c) (rv32 c).
Definition add_outcome (x : outcome) (c : t) : t :=
  mk (_status c) (dcache_pkt c) (main_send_state c) (tickEvent c) (retryRespEvent c) (outcomes c ++ [x]) (cacheLineSize c) (dataRequestorId c) (contextId c) (rv32 c).

Section Device.

(** The memory system, the random part of its latencies, and the clock edges of the
    processor: [clockEdge()] and [clockEdge(Cycles(1))] at a time. *)
Context {M : Type} {HM : ByteMemory M} (jitter : Packet.t → Z) (edge edge1 : Z → Z).

(** The processor, what is behind its data port, and the host memory. *)
Record World := mkWorld {
  cpu : t;
  side : peer M;
  heap : hmem;
}.

Definition on_cpu (f : t → t) (w : World) : World := mkWorld (f (cpu w)) (side w) (heap w).

(** [sendTimingReq]: a packet that is accepted reaches its memory in the same call, and
    the response comes later, as for the DMA port ([DmaPeer.pass]). *)
Definition sendTimingReq (accepted : bool) (p : Packet.t) (w : World) : res (bool * World) :=
  if accepted then
    '(p', m, h, _) ← recvAtomic (jitter p) p (memory (side w)) (heap w);
    Ok (true, mkWorld (cpu w) (mkPeer m (inflight (side w) ++ [(p, p')])) h)
  else Ok (false, w).

(** ** Sending *)

(** [handleReadPacket] and [handleWritePacket] for accesses to memory that are neither
    locked nor transactional. *)
Definition handleReadPacket (accepted : bool) (pkt : Packet.t) (w : World) : res (bool * World) :=
  '(sent, w) ← sendTimingReq accepted pkt w;
  if sent : bool then Ok (true, on_cpu (λ c, set_pkt None (set_status DcacheWaitResponse c)) w)
  else Ok (false, on_cpu (λ c, set_pkt (Some pkt) (set_status DcacheRetry c)) w).

Definition handleWritePacket (accepted : bool) (w : World) : res (bool * World) :=
  match dcache_pkt (cpu w) with
  | None => Fail UndefinedBehaviour
  | Some pkt =>
      '(sent, w) ← sendTimingReq accepted pkt w;
      if sent : bool then Ok (true, on_cpu (λ c, set_pkt None (set_status DcacheWaitResponse c)) w)
      else Ok (false, on_cpu (set_status DcacheRetry) w)
  end.

Definition handlePacket (read accepted : bool) (pkt : Packet.t) (w : World) : res (bool * World) :=
  if read then handleReadPacket accepted pkt w
  else handleWritePacket accepted (on_cpu (set_pkt (Some pkt)) w).

Definition buildPacket (req : Request.t) (read : bool) : res Packet.t :=
  if read then Packet.createRead req else Packet.createWrite req.

Definition sendData (accepted : bool) (req : Request.t) (data : ptr) (read : bool) (w : World) : res World :=
  pkt ← buildPacket req read;
  pkt ← Packet.dataDynamic data pkt;
  '(_, w) ← handlePacket read accepted pkt w;
  Ok w.

Definition buildSplitPacket (req1 req2 req : Request.t) (data : ptr) (read : bool) : res (Packet.t * Packet.t * Main) :=
  pkt1 ← buildPacket req1 read;
  pkt2 ← buildPacket req2 read;
  pkt ← Packet.create req (MemCmd.responseCommand (Packet.cmd pkt1));
  pkt ← Packet.dataDynamic data pkt;
  pkt1 ← Packet.dataStatic data pkt1;
  size1 ← Request.getSize req1;
  pkt2 ← Packet.dataStatic (ptr_add data size1) pkt2;
  let pkt1 := Packet.set_senderState [1%positive] pkt1 in
  let pkt2 := Packet.set_senderState [2%positive] pkt2 in
  Ok (pkt1, pkt2, mkMain pkt 2 (Some pkt1) (Some pkt2)).

Definition clearFromParent (index : positive) (c : t) : t := set_main (clear_fragment index <$> main_send_state c) c.

(** [accepted1] and [accepted2] are the answers of the peer, if it is asked. *)
Definition sendSplitData (accepted1 accepted2 : bool) (req1 req2 req : Request.t) (data : ptr) (read : bool) (w : World)
    : res World :=
  '(pkt1, pkt2, s) ← buildSplitPacket req1 req2 req data read;
  let w := on_cpu (set_main (Some s)) w in
  '(sent, w) ← handlePacket read accepted1 pkt1 w;
  if sent : bool then
    let w := on_cpu (clearFromParent 1) w in
    '(sent, w) ← handlePacket read accepted2 pkt2 w;
    if sent : bool then Ok (on_cpu (clearFromParent 2) w) else Ok w
  else Ok w.

(** ** Translation *)

(** [translationFault] and [advanceInst]: the fault is invoked and the next fetch is
    scheduled. *)
Definition translationFault (v : Z) (c : t) : t := set_status Faulting (add_outcome (Faulted v) c).

(** [finishTranslation] of one request, and of a split one, with [WholeTranslationState]
    as its arguments. *)
Definition finishTranslation (accepted : bool) (fault : option Z) (req : Request.t) (data : ptr) (read : bool) (w : World)
    : res World :=
  let w := on_cpu (set_status Running) w in
  match fault with
  | Some v => Ok (mkWorld (translationFault v (cpu w)) (side w) (delete (block data) (heap w)))
  | None => sendData accepted req data read w
  end.

Definition finishTranslation_split (accepted1 accepted2 : bool) (faults : option Z * option Z) (req1 req2 req : Request.t)
    (data : ptr) (read : bool) (w : World) : res World :=
  req ← (match faults.1 with
         | None => pa ← Request.getPaddr req1; Ok (Request.setPaddr pa req)
         | Some _ => Ok req
         end);
  req ← Request.setFlags (Request._flags req1) req;
  req ← Request.setFlags (Request._flags req2) req;
  let w := on_cpu (set_status Running) w in
  match (match faults.1 with Some v => Some v | None => faults.2 end) with
  | Some v => Ok (mkWorld (translationFault v (cpu w)) (side w) (delete (block data) (heap w)))
  | None => sendSplitData accepted1 accepted2 req1 req2 req data read w
  end.

(** What [initiateMemRead] and [writeMem] have in common. *)
Definition access (now pc : Z) (pt : EmulationPageTable.t) (accepted1 accepted2 : bool) (read : bool) (data : ptr)
    (addr size : Z) (byte_enable : list bool) (w : World) : res World :=
  let c := cpu w in
  let block_size := cacheLineSize c in
  let req := Request.create_virt now addr size 0 (dataRequestorId c) pc (contextId c) None in
  req ← Request.setByteEnable byte_enable req;
  let split_addr := roundDown (u64 (addr + size - 1)) block_size in
  assert! ((split_addr <=? addr) || (u64 (split_addr - addr) <? block_size));
  let w := on_cpu (set_status DTBWaitResponse) w in
  if addr <? split_addr then
    '(req1, req2) ← Request.splitOnVaddr split_addr req;
    '(fault1, req1) ← AtomicCpu.translate pt req1 (rv32 c);
    '(fault2, req2) ← AtomicCpu.translate pt req2 (rv32 c);
    finishTranslation_split accepted1 accepted2 (fault1, fault2) req1 req2 req data read w
  else
    '(fault, req) ← AtomicCpu.translate pt req (rv32 c);
    finishTranslation accepted1 fault req data read w.

(** Loads and stores without flags; the translation is not delayed under system-call
    emulation. *)
Definition initiateMemRead (now pc : Z) (pt : EmulationPageTable.t) (accepted1 accepted2 : bool) (addr size : Z)
    (byte_enable : list bool) (w : World) : res World :=
  let '(b, h) := alloc (heap w) size in
  access now pc pt accepted1 accepted2 true (Ptr b 0) addr size byte_enable (mkWorld (cpu w) (side w) h).

Definition writeMem (now pc : Z) (pt : EmulationPageTable.t) (accepted1 accepted2 : bool) (data : ptr) (size addr : Z)
    (byte_enable : list bool) (w : World) : res World :=
  let '(b, h) := alloc (heap w) size in
  h ← memcpy h (Ptr b 0) data size;
  access now pc pt accepted1 accepted2 false (Ptr b 0) addr size byte_enable (mkWorld (cpu w) (side w) h).

(** ** Responses *)

(** The end of [completeDataAccess]: the instruction takes the data, and the packet is
    deleted. *)
Definition completeAcc (pkt : Packet.t) (w : World) : res World :=
  d ← Packet.getConstPtr pkt;
  n ← Packet.getSize pkt;
  bs ← load_bytes (heap w) d n;
  Ok (mkWorld (add_outcome (Completed bs) (set_status Running (cpu w))) (side w) (Packet.deleteData (heap w) pkt).2).

Definition completeDataAccess (pkt : Packet.t) (w : World) : res World :=
  panic_unless! (negb (Packet.isError pkt));
  assert! (bool_decide (_status (cpu w) = DcacheWaitResponse) || bool_decide (_status (cpu w) = DTBWaitResponse));
  match Packet.senderState pkt with
  | [] => completeAcc pkt w
  | _ :: _ =>
      match main_send_state (cpu w) with
      | None => Fail AssertFailure
      | Some s =>
          assert! (negb (outstanding s =? 0));
          let s := set_outstanding (outstanding s - 1) s in
          if negb (outstanding s =? 0) then Ok (on_cpu (set_main (Some s)) w)
          else completeAcc (bigPkt s) (on_cpu (set_main None) w)
      end
  end.

(** [DcachePort::recvTimingResp]: whether the response is taken. *)
Definition recvTimingResp (now : Z) (pkt : Packet.t) (c : t) : bool * t :=
  match tickEvent c with
  | None => (true, set_tick (Some (pkt, edge now)) c)
  | Some _ =>
      (false, match retryRespEvent c with None => set_retryResp (Some (edge1 now)) c | Some _ => c end)
  end.

(** [DTickEvent::process]. *)
Definition process_tick (w : World) : res World :=
  match tickEvent (cpu w) with
  | None => Fail UndefinedBehaviour
  | Some (pkt, _) => completeDataAccess pkt (on_cpu (set_tick None) w)
  end.

(** [DcachePort::recvReqRetry]. *)
Definition recvReqRetry (accepted1 accepted2 : bool) (w : World) : res World :=
  match dcache_pkt (cpu w) with
  | None => Fail AssertFailure
  | Some tmp =>
      assert! (bool_decide (_status (cpu w) = DcacheRetry));
      match Packet.senderState tmp with
      | [] =>
          '(sent, w) ← sendTimingReq accepted1 tmp w;
          if sent : bool then Ok (on_cpu (λ c, set_pkt None (set_status DcacheWaitResponse c)) w) else Ok w
      | index :: _ =>
          match main_send_state (cpu w) with
          | None => Fail AssertFailure
          | Some _ =>
              '(sent, w) ← sendTimingReq accepted1 tmp w;
              if sent : bool then
                let w := on_cpu (clearFromParent index) w in
                match main_send_state (cpu w) with
                | None => Fail AssertFailure
                | Some s =>
                    if 0 <? getPendingFragment s then
                      match fragment2 s with
                      | None => Fail UndefinedBehaviour
                      | Some tmp =>
                          let w := on_cpu (set_pkt (Some tmp)) w in
                          '(sent, w) ← (if Packet.isRead (bigPkt s) then handleReadPacket accepted2 tmp w else Ok (false, w));
                          '(sent, w) ← (if sent : bool then Ok (true, w)
                                        else if Packet.isWrite (bigPkt s) then handleWritePacket accepted2 w else Ok (false, w));
                          if sent : bool then Ok (on_cpu (clearFromParent 2) w) else Ok w
                      end
                    else Ok (on_cpu (λ c, set_pkt None (set_status DcacheWaitResponse c)) w)
                end
              else Ok w
          end
      end
  end.

(** ** Runs *)

(** The system at a time. *)
Record sys := mkSys {
  now : Z;
  st : World;
}.

(** What happens to the processor while it waits: the peer that refused a packet asks
    for it again, a response arrives with the delays it has collected, and the two events of the port
    run. *)
Inductive action :=
  | Retry (accepted1 accepted2 : bool)
  | Respond (j : nat) (hd pd : Z)
  | Tick
  | RetryResp.

(** A peer answers what it has been sent at any time; one whose response was refused
    waits until it is asked for it. *)
Definition enabled (c : sys) (x : action) : Prop :=
  match x with
  | Retry _ _ => _status (cpu (st c)) = DcacheRetry
  | Respond j _ _ => is_Some (inflight (side (st c)) !! j) ∧ retryRespEvent (cpu (st c)) = None
  | Tick => ∃ p, tickEvent (cpu (st c)) = Some (p, now c)
  | RetryResp => retryRespEvent (cpu (st c)) = Some (now c)
  end.

Definition respond (t : Z) (j : nat) (hd pd : Z) (w : World) : World :=
  match inflight (side w) !! j with
  | None => w
  | Some (_, p') =>
      let '(taken, c) := recvTimingResp t (Packet.set_delays hd pd p') (cpu w) in
      mkWorld c (if taken : bool then mkPeer (memory (side w)) (delete j (inflight (side w))) else side w) (heap w)
  end.

Definition perform (c : sys) (x : action) : res World :=
  match x with
  | Retry a1 a2 => recvReqRetry a1 a2 (st c)
  | Respond j hd pd => Ok (respond (now c) j hd pd (st c))
  | Tick => process_tick (st c)
  | RetryResp => Ok (on_cpu (set_retryResp None) (st c))
  end.

Inductive step : sys → sys → Prop :=
  | step_time c n :
      now c <= n → (∀ p x, tickEvent (cpu (st c)) = Some (p, x) → n <= x) →
      (∀ x, retryRespEvent (cpu (st c)) = Some x → n <= x) → step c (mkSys n (st c))
  | step_action c x w : enabled c x → perform c x = Ok w → step c (mkSys (now c) w).

(** ** An access in parts *)

(** The processor makes no access, and the one it is configured as. *)
Record ready (c : t) : Prop := {
  rd_pkt : dcache_pkt c = None;
  rd_main : main_send_state c = None;
  rd_tick : tickEvent c = None;
  rd_retry : retryRespEvent c = None;
}.

Definition same_config (c c' : t) : Prop :=
  cacheLineSize c' = cacheLineSize c ∧ dataRequestorId c' = dataRequestorId c ∧ contextId c' = contextId c ∧ rv32 c' = rv32 c.

(** The packets [parts] make an access of [n] bytes with the buffer [d]; [big] is the packet
    of a split access, and [I i] what holds of memory and heap when [i] of them have been served. *)
Context (read : bool) (parts : list Packet.t) (big : Packet.t) (d : ptr) (n : Z) (c0 : t) (I : nat → M → hmem → Prop).

(** A packet the instruction can take its data from. *)
Definition final (p : Packet.t) : Prop :=
  Packet.getConstPtr p = Ok d ∧ Packet.getSize p = Ok n ∧ ∀ h, (Packet.deleteData h p).2 = delete (block d) h.

Record plan : Prop := {
  pl_parts : (∃ p, parts = [p] ∧ Packet.senderState p = [] ∧ ∀ q, Packet.answers p q → final q) ∨
    (∃ p1 p2, parts = [p1; p2] ∧ Packet.senderState p1 = [1%positive] ∧ Packet.senderState p2 = [2%positive] ∧
       Packet.isRead big = read ∧ Packet.isWrite big = negb read ∧ final big);
  pl_answer p q : p ∈ parts → Packet.answers p q → Packet.isError q = false ∧ Packet.senderState q = Packet.senderState p;
  pl_send i p m h : parts !! i = Some p → I i m h →
    ∃ p' m' h' lat, recvAtomic (jitter p) p m h = Ok (p', m', h', lat) ∧ Packet.answers p p' ∧ I (S i) m' h';
  pl_data m h : I (length parts) m h → in_bounds h d n = true;
}.

Context (Hplan : plan).

Definition main_of (i : nat) (left : Z) : option Main :=
  match parts with
  | [p1; p2] => Some (mkMain big left (if decide (i = 0%nat) then Some p1 else None) (if decide (i < 2)%nat then Some p2 else None))
  | _ => None
  end.

(** The parts that are not answered yet, or whose answer has not been processed. *)
Definition left_of (i : nat) (w : World) : Z :=
  Z.of_nat (length parts) - Z.of_nat i + Z.of_nat (length (inflight (side w))) + (if tickEvent (cpu w) then 1 else 0).

(** [i] parts have been sent. *)
Record core (i : nat) (c : sys) : Prop := {
  co_le : (i <= length parts)%nat;
  co_main : main_send_state (cpu (st c)) = main_of i (left_of i (st c));
  co_left : 0 < left_of i (st c) <= Z.of_nat (length parts);
  co_flight : Forall (λ e, e.1 ∈ parts ∧ Packet.answers e.1 e.2) (inflight (side (st c)));
  co_tick q x : tickEvent (cpu (st c)) = Some (q, x) → now c <= x ∧ ∃ p, p ∈ parts ∧ Packet.answers p q;
  co_retry x : retryRespEvent (cpu (st c)) = Some x → now c <= x ∧ inflight (side (st c)) ≠ [];
  co_outcomes : outcomes (cpu (st c)) = outcomes c0;
  co_config : same_config c0 (cpu (st c));
  co_moved : I i (memory (side (st c))) (heap (st c));
}.

(** The processor waits: for a retry of the next part, or for answers. *)
Record going (i : nat) (c : sys) : Prop := {
  go_core : core i c;
  go_status : _status (cpu (st c)) = if decide (i = length parts) then DcacheWaitResponse else DcacheRetry;
  go_pkt : dcache_pkt (cpu (st c)) = parts !! i;
}.

(** The instruction has its data. *)
Record done_with (c : sys) : Prop := {
  dn_status : _status (cpu (st c)) = Running;
  dn_ready : ready (cpu (st c));
  dn_flight : inflight (side (st c)) = [];
  dn_config : same_config c0 (cpu (st c));
  dn_data : ∃ h bs, I (length parts) (memory (side (st c))) h ∧ load_bytes h d n = Ok bs ∧ heap (st c) = delete (block d) h ∧
    outcomes (cpu (st c)) = outcomes c0 ++ [Completed bs];
}.

(** ** Sending the parts *)

Lemma parts_cases : (length parts = 1%nat ∧ ∀ i l, main_of i l = None) ∨ (length parts = 2%nat ∧ ∀ i l, main_of i l ≠ None).
Proof using Hplan.
  unfold main_of. destruct (pl_parts Hplan) as [(p & -> & _)|(p1 & p2 & -> & _)]; [by left|by right].
Qed.

(** The part that is sent next is the [i]-th, and leaves its place. *)
Lemma core_sent i p p' m h c :
  core i c → parts !! i = Some p → Packet.answers p p' → I (S i) m h →
  core (S i) (mkSys (now c) (mkWorld (clearFromParent (Pos.of_succ_nat i) (cpu (st c))) (mkPeer m (inflight (side (st c)) ++ [(p, p')])) h)).
Proof using Hplan.
  intros [Hle Hm Hl Hf Ht Hr Ho Hc Hi] Hp Ha HI. assert (i < length parts)%nat as Hlt by (apply lookup_lt_is_Some; eauto).
  assert (left_of (S i) (mkWorld (clearFromParent (Pos.of_succ_nat i) (cpu (st c))) (mkPeer m (inflight (side (st c)) ++ [(p, p')])) h) =
    left_of i (st c)) as Heq. { unfold left_of. simpl. rewrite length_app. simpl. lia. }
  constructor; simpl; try done.
  - rewrite Heq, Hm. unfold main_of. destruct (pl_parts Hplan) as [(q & -> & _)|(p1 & p2 & Hps & _)]; [done|]. rewrite Hps in Hlt |- *.
    destruct i as [|[|i]]; simpl in *; [done|done|lia].
  - by rewrite Heq.
  - apply Forall_app. split; [done|]. constructor; [|constructor]. split; [|done]. by apply list_elem_of_lookup_2 in Hp.
  - intros x Hx. split; [by apply Hr|]. by destruct (inflight (side (st c))).
Qed.

Lemma handle_sent i p t w :
  core i (mkSys t w) → parts !! i = Some p →
  ∃ w', handlePacket read true p w = Ok (true, w') ∧ core (S i) (mkSys t (on_cpu (clearFromParent (Pos.of_succ_nat i)) w')) ∧
    _status (cpu w') = DcacheWaitResponse ∧ dcache_pkt (cpu w') = None.
Proof using Hplan.
  intros Hc Hp. destruct (pl_send Hplan i p _ _ Hp (co_moved _ _ Hc)) as (p' & m & h & lat & Hr & Ha & Hi).
  unfold handlePacket, handleReadPacket, handleWritePacket, sendTimingReq. simpl in *. rewrite Hr. simpl.
  destruct (core_sent i p p' m h _ Hc Hp Ha Hi); destruct read; (eexists; split; [done|]; split; [by constructor|done]).
Qed.

Lemma handle_refused i p t w :
  core i (mkSys t w) →
  ∃ w', handlePacket read false p w = Ok (false, w') ∧ core i (mkSys t w') ∧ _status (cpu w') = DcacheRetry ∧ dcache_pkt (cpu w') = Some p.
Proof.
  intros []. unfold handlePacket, handleReadPacket, handleWritePacket, sendTimingReq. destruct read; simpl; (eexists; split; [done|]; split; [by constructor|done]).
Qed.

Lemma clear_nothing x w : main_send_state (cpu w) = None → on_cpu (clearFromParent x) w = w.
Proof. intros H. destruct w as [[] ? ?]. unfold on_cpu, clearFromParent, set_main. simpl in *. by rewrite H. Qed.

(** The only part of an access that is not split. *)
Lemma single_goes accepted t w p :
  core 0 (mkSys t w) → parts = [p] →
  ∃ i sent w', handlePacket read accepted p w = Ok (sent, w') ∧ going i (mkSys t w').
Proof using Hplan.
  intros Hc Hps. assert (parts !! 0%nat = Some p) as Hp by by rewrite Hps. destruct accepted.
  - destruct (handle_sent 0 p t w Hc Hp) as (w' & Hh & Hc' & Hs & Hd). exists 1%nat, true, w'. split; [done|].
    rewrite clear_nothing in Hc'; [constructor; simpl; try done; rewrite Hps; try done|].
    unfold handlePacket, handleReadPacket, handleWritePacket, sendTimingReq in Hh. pose proof (co_main _ _ Hc) as Hm. simpl in Hm.
    unfold main_of in Hm. rewrite Hps in Hm. destruct read; simpl in Hh; inv_res Hh; by simplify_eq/=.
  - destruct (handle_refused 0 p t w Hc) as (w' & Hh & Hc' & Hs & Hd). exists 0%nat, false, w'. split; [done|].
    constructor; simpl; try done; by rewrite Hps.
Qed.

(** The second part of a split access, the first having been sent. *)
Lemma second_goes accepted t w p1 p2 :
  core 1 (mkSys t w) → parts = [p1; p2] →
  ∃ sent w', handlePacket read accepted p2 w = Ok (sent, w') ∧
    going (if accepted then 2 else 1) (mkSys t (if sent : bool then on_cpu (clearFromParent 2) w' else w')).
Proof using Hplan.
  intros Hc Hps. assert (parts !! 1%nat = Some p2) as Hp by by rewrite Hps. destruct accepted.
  - destruct (handle_sent 1 p2 t w Hc Hp) as (w' & Hh & Hc' & Hs & Hd). exists true, w'. split; [done|].
    constructor; simpl; try done; by rewrite Hps.
  - destruct (handle_refused 1 p2 t w Hc) as (w' & Hh & Hc' & Hs & Hd). exists false, w'. split; [done|].
    constructor; simpl; try done; by rewrite Hps.
Qed.

(** The two parts of a split access, one after the other. *)
Lemma split_goes accepted1 accepted2 t w p1 p2 :
  core 0 (mkSys t w) → parts = [p1; p2] →
  ∃ i w', ('(sent, w) ← handlePacket read accepted1 p1 w;
    if sent : bool then
      let w := on_cpu (clearFromParent 1) w in
      '(sent, w) ← handlePacket read accepted2 p2 w;
      if sent : bool then Ok (on_cpu (clearFromParent 2) w) else Ok w
    else Ok w) = Ok w' ∧ going i (mkSys t w').
Proof using Hplan.
  intros Hc Hps. assert (parts !! 0%nat = Some p1) as Hp by by rewrite Hps. destruct accepted1.
  - destruct (handle_sent 0 p1 t w Hc Hp) as (w' & -> & Hc' & Hs & Hd). rewrite res_bind_Ok.
    destruct (second_goes accepted2 t (on_cpu (clearFromParent 1) w') p1 p2 Hc' Hps) as (sent & w2 & Hh & Hg). cbv zeta. rewrite Hh, res_bind_Ok.
    eexists (if accepted2 then 2%nat else 1%nat), _. split; [|exact Hg]. by destruct sent.
  - destruct (handle_refused 0 p1 t w Hc) as (w' & -> & Hc' & Hs & Hd). rewrite res_bind_Ok. exists 0%nat, w'. split; [done|].
    constructor; simpl; try done; by rewrite Hps.
Qed.

(** ** The handlers *)

Lemma core_waits i x y t w : core i (mkSys t w) → core i (mkSys t (on_cpu (λ c, set_pkt x (set_status y c)) w)).
Proof. by intros []. Qed.

Lemma going_sent t w :
  core (length parts) (mkSys t w) → going (length parts) (mkSys t (on_cpu (λ c, set_pkt None (set_status DcacheWaitResponse c)) w)).
Proof. intros Hc. constructor; simpl; [by apply core_waits|by rewrite decide_True|]. symmetry. by apply lookup_ge_None. Qed.

(** A retry of the part that was refused; all is sent when the peer accepts. *)
Lemma retry_single accepted1 accepted2 p c :
  going 0 c → parts = [p] → Packet.senderState p = [] →
  ∃ j w', recvReqRetry accepted1 accepted2 (st c) = Ok w' ∧ going j (mkSys (now c) w') ∧ (accepted1 = true → accepted2 = true → j = length parts).
Proof using Hplan.
  destruct c as [t w]. intros [Hc Hs Hd] Hps Hss. simpl in *. assert (parts !! 0%nat = Some p) as Hp by by rewrite Hps.
  rewrite decide_False in Hs by by rewrite Hps. unfold recvReqRetry. rewrite Hd, Hp, Hs. simpl. rewrite Hss. destruct accepted1; simpl.
  - destruct (pl_send Hplan 0 p _ _ Hp (co_moved _ _ Hc)) as (p' & m & h & lat & Hr & Ha & Hi).
    pose proof (core_sent 0 p p' m h _ Hc Hp Ha Hi) as Hc'. simpl in Hr, Hc'. rewrite Hr. simpl. exists (length parts). eexists. split; [done|].
    split; [|done]. apply going_sent. rewrite Hps. pose proof (co_main _ _ Hc) as Hm. simpl in Hm. unfold main_of in Hm. rewrite Hps in Hm.
    pose proof (clear_nothing 1 (mkWorld (cpu w) (side w) h) Hm) as Heq. injection Heq as Heq. by rewrite Heq in Hc'.
  - exists 0%nat, w. split; [done|]. split; [|done]. constructor; simpl; try done. by rewrite decide_False by by rewrite Hps.
Qed.

Lemma read_any accepted p x w : handleReadPacket accepted p (on_cpu (set_pkt x) w) = handleReadPacket accepted p w.
Proof. unfold handleReadPacket, sendTimingReq. destruct accepted; [|done]. simpl. by destruct (recvAtomic _ _ _ _) as [[[[] ?] ?]|]. Qed.

Lemma retry_split accepted1 accepted2 i p1 p2 c :
  going i c → (i < 2)%nat → parts = [p1; p2] → Packet.senderState p1 = [1%positive] → Packet.senderState p2 = [2%positive] →
  Packet.isRead big = read → Packet.isWrite big = negb read →
  ∃ j w', recvReqRetry accepted1 accepted2 (st c) = Ok w' ∧ going j (mkSys (now c) w') ∧ (accepted1 = true → accepted2 = true → j = length parts).
Proof using Hplan.
  destruct c as [t w]. intros [Hc Hs Hd] Hlt Hps Hss1 Hss2 Hbr Hbw. simpl in *. assert (∃ p, parts !! i = Some p) as [p Hp].
  { apply lookup_lt_is_Some. by rewrite Hps. }
  rewrite decide_False in Hs by (rewrite Hps; simpl; lia). pose proof (co_main _ _ Hc) as Hm. simpl in Hm. unfold main_of in Hm. rewrite Hps in Hm.
  assert (Packet.senderState p = [Pos.of_succ_nat i]) as Hss. { rewrite Hps in Hp. destruct i as [|[|i]]; [..|lia]; by injection Hp as <-. }
  unfold recvReqRetry. rewrite Hd, Hp, Hs. simpl. rewrite Hss, Hm. destruct accepted1; simpl.
  - destruct (pl_send Hplan i p _ _ Hp (co_moved _ _ Hc)) as (p' & m & h & lat & Hr & Ha & Hi).
    pose proof (core_sent i p p' m h _ Hc Hp Ha Hi) as Hc'. simpl in Hr, Hc'. rewrite Hr. simpl. rewrite Hm. simpl.
    destruct i as [|[|i]]; [| |lia]; simpl.
    + destruct (second_goes accepted2 t _ p1 p2 Hc' Hps) as (sent & w2 & Hh & Hg). rewrite Hbr, Hbw.
      exists (if accepted2 then 2%nat else 1%nat). eexists. split; [|split; [exact Hg|by rewrite Hps; intros _ ->]].
      unfold handlePacket in Hh. destruct read; simpl.
      * rewrite read_any. change (on_cpu (clearFromParent 1) _) with (mkWorld (clearFromParent (Pos.of_succ_nat 0) (cpu w))
          (mkPeer m (inflight (side w) ++ [(p, p')])) h). rewrite Hh, res_bind_Ok. by destruct sent.
      * unfold on_cpu in Hh |- *. simpl in Hh |- *. rewrite Hh, res_bind_Ok. by destruct sent.
    + exists (length parts). eexists. split; [done|]. split; [|done]. apply (going_sent t). by rewrite Hps.
  - exists i, w. split; [done|]. split; [|done]. constructor; simpl; try done. by rewrite decide_False by (rewrite Hps; simpl; lia).
Qed.

Lemma retry_goes accepted1 accepted2 i c :
  going i c → _status (cpu (st c)) = DcacheRetry →
  ∃ j w', recvReqRetry accepted1 accepted2 (st c) = Ok w' ∧ going j (mkSys (now c) w') ∧ (accepted1 = true → accepted2 = true → j = length parts).
Proof using Hplan.
  intros Hg Hs. assert (i < length parts)%nat as Hlt.
  { pose proof (go_status _ _ Hg) as Hs'. pose proof (co_le _ _ (go_core _ _ Hg)). case_decide; [congruence|lia]. }
  destruct (pl_parts Hplan) as [(p & Hps & Hss & _)|(p1 & p2 & Hps & Hss1 & Hss2 & Hbr & Hbw & _)].
  - rewrite Hps in Hlt. simpl in Hlt. destruct i; [|lia]. by apply (retry_single _ _ p).
  - rewrite Hps in Hlt. by apply (retry_split _ _ i p1 p2).
Qed.

Context (Hedge : ∀ x, x <= edge x ∧ x <= edge1 x).

Lemma respond_goes j hd pd i c :
  going i c → enabled c (Respond j hd pd) → going i (mkSys (now c) (respond (now c) j hd pd (st c))).
Proof using Hedge.
  destruct c as [t w]. intros [[Hle Hm Hl Hf Ht Hr Ho Hc Hi] Hs Hp] ([[q p'] Hj] & Hnr). simpl in *. unfold respond. rewrite Hj. unfold recvTimingResp.
  pose proof Hj as Hj'. apply list_elem_of_lookup_2, (proj1 (Forall_forall _ _) Hf) in Hj' as [Hin Ha].
  destruct (tickEvent (cpu w)) as [[q' x]|] eqn:E.
  - constructor; simpl; [|by destruct (retryRespEvent (cpu w))..]. rewrite Hnr. constructor; simpl; try done.
    + intros ? ?. rewrite E. intros [= <- <-]. by apply (Ht q' x).
    + intros ? [= <-]. split; [apply Hedge|]. by destruct (inflight (side w)).
  - pose proof (length_delete (inflight (side w)) j ltac:(eauto)) as Hlen. apply lookup_lt_Some in Hj.
    assert (left_of i (mkWorld (set_tick (Some (Packet.set_delays hd pd p', edge t)) (cpu w))
      (mkPeer (memory (side w)) (delete j (inflight (side w)))) (heap w)) = left_of i w) as Heq.
    { unfold left_of. simpl. rewrite E, Hlen. lia. }
    constructor; simpl; try done. constructor; simpl; rewrite ?Heq; try done.
    + by apply Forall_delete.
    + intros ? ? [= <- <-]. split; [apply Hedge|]. exists q. split; [done|]. by apply Packet.answers_delayed.
    + intros x. by rewrite Hnr.
Qed.

Lemma completeAcc_ok p w :
  final p → I (length parts) (memory (side w)) (heap w) →
  ∃ bs, load_bytes (heap w) d n = Ok bs ∧
    completeAcc p w = Ok (mkWorld (add_outcome (Completed bs) (set_status Running (cpu w))) (side w) (delete (block d) (heap w))).
Proof using Hplan.
  intros (Hd & Hn & Hdel) Hi. destruct (load_bytes_in_bounds _ _ _ (pl_data Hplan _ _ Hi)) as [bs Hb]. exists bs. split; [done|].
  unfold completeAcc. rewrite Hd, res_bind_Ok, Hn, res_bind_Ok, Hb, res_bind_Ok. by rewrite Hdel.
Qed.

(** An answer that is processed while a part has yet to be sent again. *)
Lemma tick_early i c :
  going i c → enabled c Tick → _status (cpu (st c)) = DcacheRetry → process_tick (st c) = Fail AssertFailure.
Proof using Hplan.
  intros [[_ _ _ _ Ht _ _ _ _] _ _] [q Hq] Hs. destruct (Ht q _ Hq) as (_ & p & Hin & Ha). destruct (pl_answer Hplan p q Hin Ha) as [He _].
  unfold process_tick, completeDataAccess. rewrite Hq, He. simpl. by rewrite Hs.
Qed.

(** An answer is processed: the instruction goes on with the last one. *)
Lemma tick_goes i c :
  going i c → enabled c Tick → _status (cpu (st c)) ≠ DcacheRetry →
  ∃ w', process_tick (st c) = Ok w' ∧
    (going i (mkSys (now c) w') ∧ left_of i w' = left_of i (st c) - 1 ∨ done_with (mkSys (now c) w')).
Proof using Hplan.
  destruct c as [t w]. intros [[Hle Hm Hl Hf Ht Hr Ho Hc Hi] Hs Hp] [q Hq] Hnr. simpl in *.
  assert (i = length parts) as -> by (case_decide; congruence). destruct (Ht q t Hq) as (_ & p & Hin & Ha). destruct (pl_answer Hplan p q Hin Ha) as [He Hss]. rewrite decide_True in Hs by done.
  unfold process_tick, completeDataAccess. rewrite Hq, He. simpl. rewrite Hs. simpl. rewrite Hss.
  unfold left_of in Hl. rewrite Hq in Hl. rewrite (lookup_ge_None_2 parts) in Hp by lia.
  destruct (pl_parts Hplan) as [(p0 & Hps & Hss0 & Hfin)|(p1 & p2 & Hps & Hss1 & Hss2 & _ & _ & Hfin)].
  - rewrite Hps in Hin. apply list_elem_of_singleton in Hin as ->. rewrite Hss0.
    destruct (completeAcc_ok q (on_cpu (set_tick None) w) (Hfin _ Ha) Hi) as (bs & Hb & ->). simpl. eexists. split; [done|]. right.
    assert (inflight (side w) = []) as Hnil. { apply nil_length_inv. rewrite Hps in Hl. simpl in Hl. lia. }
    unfold main_of in Hm. rewrite Hps in Hm. constructor; simpl; try done.
    + constructor; simpl; try done. destruct (retryRespEvent (cpu w)) as [x|] eqn:E; [|done]. by destruct (Hr x).
    + exists (heap w), bs. split_and!; try done. by rewrite Ho.
  - assert (∃ x, Packet.senderState p = [x]) as [x ->].
    { rewrite Hps in Hin. apply elem_of_cons in Hin as [->|Hin]; [eauto|]. apply list_elem_of_singleton in Hin as ->. eauto. }
    assert (main_send_state (cpu w) = Some (mkMain big (left_of (length parts) w) None None)) as Hm'.
    { rewrite Hm. unfold main_of. by rewrite Hps. }
    assert (left_of (length parts) w = Z.of_nat (length (inflight (side w))) + 1) as Hlw by (unfold left_of; rewrite Hq; lia).
    rewrite Hm'. simpl. rewrite (proj2 (Z.eqb_neq (left_of (length parts) w) 0)) by lia. simpl. destruct (Z.eqb_spec (left_of (length parts) w - 1) 0) as [Hz|Hz]; simpl.
    + destruct (completeAcc_ok big (on_cpu (set_main None) (on_cpu (set_tick None) w)) Hfin Hi) as (bs & Hb & ->). simpl. eexists. split; [done|].
      right. assert (inflight (side w) = []) as Hnil by (apply nil_length_inv; lia). constructor; simpl; try done.
      * constructor; simpl; try done. destruct (retryRespEvent (cpu w)) as [y|] eqn:E; [|done]. by destruct (Hr y).
      * exists (heap w), bs. split_and!; try done. by rewrite Ho.
    + eexists. split; [done|]. left. set (w' := on_cpu (set_main _) _).
      assert (left_of (length parts) w' = left_of (length parts) w - 1) as Heq by (unfold left_of; simpl; rewrite Hq; lia).
      split; [|done]. constructor; simpl; [|by rewrite decide_True|by rewrite lookup_ge_None_2].
      constructor; simpl; rewrite ?Heq; try done; [|lia]. unfold main_of. by rewrite Hps.
Qed.

Lemma retryResp_goes i c : going i c → going i (mkSys (now c) (on_cpu (set_retryResp None) (st c))).
Proof. by intros [[] ? ?]. Qed.

Lemma time_goes i c n' :
  going i c → now c <= n' → (∀ p x, tickEvent (cpu (st c)) = Some (p, x) → n' <= x) →
  (∀ x, retryRespEvent (cpu (st c)) = Some x → n' <= x) → going i (mkSys n' (st c)).
Proof.
  intros [[? ? ? ? Ht Hr ? ? ?] ? ?] Hn Hx Hy. constructor; try done. constructor; try done.
  - intros q x Hq. destruct (Ht q x Hq) as (_ & ?). eauto.
  - intros x Hq. destruct (Hr x Hq). eauto.
Qed.

Definition phase (c : sys) : Prop := (∃ i, going i c) ∨ done_with c.

(** An answer to one part is due while another has yet to be sent again. *)
Definition too_early (c : sys) (x : action) : Prop := x = Tick ∧ _status (cpu (st c)) = DcacheRetry.

Lemma perform_early c x : phase c → enabled c x → too_early c x → perform c x = Fail AssertFailure.
Proof using Hplan.
  intros [[i Hg]|[Hs _ _ _ _]] Hx [-> Hr]; [by apply (tick_early i)|congruence].
Qed.

Lemma perform_step c x : phase c → enabled c x → ¬ too_early c x → ∃ w, perform c x = Ok w ∧ phase (mkSys (now c) w).
Proof using Hplan Hedge.
  intros [[i Hg]|[Hs [_ _ Ht Hr] Hf _ _]] Hx Hne; destruct x as [a1 a2|j hd pd| |]; simpl.
  - destruct (retry_goes a1 a2 i c Hg Hx) as (j & w & ? & ? & _). exists w. split; [done|]. left. eauto.
  - eexists. split; [done|]. left. exists i. by apply respond_goes.
  - destruct (tick_goes i c Hg Hx) as (w & ? & [[? _]|?]); [by intros ?; apply Hne|..]; exists w; (split; [done|]); [left; eauto|by right].
  - eexists. split; [done|]. left. exists i. by apply retryResp_goes.
  - simpl in Hx. congruence.
  - destruct Hx as ([? Hx] & _). by rewrite Hf in Hx.
  - destruct Hx as [? Hx]. by rewrite Ht in Hx.
  - simpl in Hx. congruence.
Qed.

Lemma phase_kept c c' : step c c' → phase c → phase c'.
Proof using Hplan Hedge.
  intros [c1 n' ? ? ?|c1 x w Hx Hp] Hph.
  - destruct Hph as [[i Hg]|[]]; [|right; by constructor]. left. exists i. by apply time_goes.
  - destruct (perform_step _ _ Hph Hx) as (w' & Hp' & ?); [|congruence].
    intros He. by rewrite (perform_early _ _ Hph Hx He) in Hp.
Qed.

(** ** Progress *)

(** The event that asks for a refused response runs, if it is the next. *)
Lemma retryResp_runs i c r :
  going i c → retryRespEvent (cpu (st c)) = Some r → (∀ p x, tickEvent (cpu (st c)) = Some (p, x) → r <= x) →
  ∃ c', rtc step c c' ∧ going i c' ∧ st c' = on_cpu (set_retryResp None) (st c).
Proof.
  intros Hg Hr Hx. destruct (co_retry _ _ (go_core _ _ Hg) r Hr) as [Hle _].
  exists (mkSys r (on_cpu (set_retryResp None) (st c))). split; [|split; [|done]].
  - eapply rtc_l; [apply (step_time c r); [done|done|intros x; rewrite Hr; by intros [= <-]]|].
    apply rtc_once. by apply (step_action (mkSys r (st c)) RetryResp).
  - apply (retryResp_goes i (mkSys r (st c))). apply time_goes; try done. intros x. rewrite Hr. by intros [= <-].
Qed.

(** The answer that has arrived is processed. *)
Lemma tick_runs i c :
  going i c → tickEvent (cpu (st c)) ≠ None → i = length parts →
  ∃ c', rtc step c c' ∧ (going i c' ∧ left_of i (st c') < left_of i (st c) ∨ done_with c').
Proof using Hplan.
  intros Hg Ht Hi. destruct (tickEvent (cpu (st c))) as [[q x]|] eqn:E; [|done]. clear Ht.
  assert (∀ c1, going i c1 → tickEvent (cpu (st c1)) = Some (q, x) → (∀ r, retryRespEvent (cpu (st c1)) = Some r → x <= r) →
    left_of i (st c1) = left_of i (st c) →
    ∃ c', rtc step c1 c' ∧ (going i c' ∧ left_of i (st c') < left_of i (st c) ∨ done_with c')) as Hrun.
  { intros c1 Hg1 E1 Hr Hl. destruct (co_tick _ _ (go_core _ _ Hg1) q x E1) as (Hle & _).
    assert (step c1 (mkSys x (st c1))) as Hst. { apply step_time; [done| |done]. intros p y. rewrite E1. by intros [= <- <-]. }
    assert (going i (mkSys x (st c1))) as Hgx. { apply time_goes; try done. intros p y. rewrite E1. by intros [= <- <-]. }
    destruct (tick_goes i _ Hgx) as (w' & Hp & Hcase); [by exists q|rewrite (go_status _ _ Hgx); by rewrite decide_True|]. exists (mkSys x w'). split.
    - eapply rtc_l; [exact Hst|]. apply rtc_once. apply (step_action (mkSys x (st c1)) Tick); [by exists q|done].
    - destruct Hcase as [[? Heq]|?]; [left; split; [done|simpl in *; lia]|by right]. }
  destruct (retryRespEvent (cpu (st c))) as [r|] eqn:Er; [|apply Hrun; try done; by rewrite Er].
  destruct (Z_lt_le_dec r x); [|apply Hrun; try done; rewrite Er; by intros ? [= <-]].
  destruct (retryResp_runs i c r Hg Er) as (c1 & H1 & Hg1 & Hst). { intros p y. rewrite E. intros [= <- <-]. lia. }
  destruct (Hrun c1) as (c' & H2 & ?); [done|by rewrite Hst|by rewrite Hst|by rewrite Hst|]. exists c'. split; [by etrans|done].
Qed.

(** An answer arrives. *)
Lemma answer_runs c :
  going (length parts) c → tickEvent (cpu (st c)) = None →
  ∃ c', rtc step c c' ∧ going (length parts) c' ∧ tickEvent (cpu (st c')) ≠ None ∧ left_of (length parts) (st c') = left_of (length parts) (st c).
Proof using Hplan Hedge.
  intros Hg Ht. assert (∀ c1, going (length parts) c1 → tickEvent (cpu (st c1)) = None → retryRespEvent (cpu (st c1)) = None →
    left_of (length parts) (st c1) = left_of (length parts) (st c) →
    ∃ c', rtc step c1 c' ∧ going (length parts) c' ∧ tickEvent (cpu (st c')) ≠ None ∧ left_of (length parts) (st c') = left_of (length parts) (st c)) as Hrun.
  { intros c1 Hg1 Ht1 Hr1 Hl1. pose proof (co_left _ _ (go_core _ _ Hg1)) as Hl. unfold left_of in Hl. rewrite Ht1 in Hl.
    destruct (inflight (side (st c1))) as [|[p p'] l] eqn:E; [simpl in Hl; lia|].
    assert (enabled c1 (Respond 0 0 0)) as Hen.
    { split; [rewrite E; by eexists|done]. }
    exists (mkSys (now c1) (respond (now c1) 0 0 0 (st c1))). split; [by apply rtc_once, (step_action c1 (Respond 0 0 0))|].
    split; [by apply respond_goes|]. simpl. unfold respond, recvTimingResp. rewrite E. simpl. rewrite Ht1. simpl. split; [done|].
    rewrite <-Hl1. unfold left_of. simpl. rewrite E, Ht1. simpl. lia. }
  destruct (retryRespEvent (cpu (st c))) as [r|] eqn:Er; [|by apply Hrun].
  destruct (retryResp_runs _ c r Hg Er) as (c1 & H1 & Hg1 & Hst). { intros p x. by rewrite Ht. }
  destruct (Hrun c1) as (c' & H2 & ?); [done|by rewrite Hst|by rewrite Hst|by rewrite Hst|]. exists c'. split; [by etrans|done].
Qed.

Lemma sent_finishes c : going (length parts) c → ∃ c', rtc step c c' ∧ done_with c'.
Proof using Hplan Hedge.
  remember (Z.to_nat (left_of (length parts) (st c))) as l eqn:El. revert c El. induction (lt_wf l) as [l _ IH]. intros c El Hg.
  assert (∃ c1, rtc step c c1 ∧ going (length parts) c1 ∧ tickEvent (cpu (st c1)) ≠ None ∧ left_of (length parts) (st c1) = left_of (length parts) (st c))
    as (c1 & H1 & Hg1 & Ht1 & Hl1).
  { destruct (tickEvent (cpu (st c))) eqn:E; [by exists c; rewrite E|]. by apply answer_runs. }
  destruct (tick_runs _ c1 Hg1 Ht1 eq_refl) as (c2 & H2 & [[Hg2 Hlt]|Hd]); [|exists c2; split; [by etrans|done]].
  pose proof (co_left _ _ (go_core _ _ Hg2)). destruct (IH (Z.to_nat (left_of (length parts) (st c2)))) with c2 as (c3 & H3 & Hd); [lia|done|done|].
  exists c3. split; [by etrans; [|etrans]|done].
Qed.

Lemma going_finishes c : phase c → ∃ c', rtc step c c' ∧ done_with c'.
Proof using Hplan Hedge.
  intros [[i Hg]|Hd]; [|by exists c]. destruct (decide (_status (cpu (st c)) = DcacheRetry)) as [Hs|Hs].
  - destruct (retry_goes true true i c Hg Hs) as (j & w & Hr & Hg' & Hj). rewrite (Hj eq_refl eq_refl) in Hg'.
    destruct (sent_finishes _ Hg') as (c' & Hc & Hd). exists c'. split; [|done]. eapply rtc_l; [|exact Hc]. by apply (step_action c (Retry true true)).
  - apply sent_finishes. pose proof (go_status _ _ Hg) as Hs'. case_decide as Hi; [by rewrite <-Hi|done].
Qed.

End Device.

Arguments mkWorld {M} cpu side heap.
Arguments cpu {M} w.
Arguments side {M} w.
Arguments heap {M} w.
Arguments mkSys {M} now st.
Arguments now {M} s.
Arguments st {M} s.

(** ** Loads and stores *)

Section Accesses.

Context {M : Type} {HM : ByteMemory M} (jitter : Packet.t → Z) (edge edge1 : Z → Z) (k : Z) (Hk : 0 <= k < 32).
Context (Hedge : ∀ x, x <= edge x ∧ x <= edge1 x).

(** In all runs from [c0], nothing that happens fails but an answer that is due too
    early, the processor waits until the instruction has its data and [post] holds, and
    that can always be reached. *)
Definition completes (c0 : sys) (post : World → Prop) : Prop :=
  ∀ c, rtc (step jitter edge edge1) c0 c →
    (∀ x, enabled c x →
       (too_early c x ∧ perform jitter edge edge1 c x = Fail AssertFailure) ∨
       (¬ too_early c x ∧ ∃ w, perform jitter edge edge1 c x = Ok w)) ∧
    (_status (cpu (st c)) = DcacheRetry ∨ _status (cpu (st c)) = DcacheWaitResponse ∨ _status (cpu (st c)) = Running ∧ post (st c)) ∧
    ∃ c', rtc (step jitter edge edge1) c c' ∧ post (st c').

(** An access of [n] bytes at [a] that the processor can make with its page table. *)
Record can_access (pt : EmulationPageTable.t) (a n : Z) (w : World (M := M)) : Prop := {
  ca_cpu : ready (cpu w) ∧ cacheLineSize (cpu w) = 2 ^ k ∧ inflight (side w) = [];
  ca_range : 0 <= a ∧ 0 < n <= 2 ^ k ∧ a + n < 2 ^ 64 ∧ (rv32 (cpu w) = true → a + n <= 2 ^ 32);
  ca_inv : inv (memory (side w)) (heap w);
  ca_alloc b : owns (memory (side w)) b → is_Some (heap w !! b);
}.

Lemma completes_phase read parts big d n c0 I t w :
  plan jitter read parts big d n I → phase parts big d n c0 I (mkSys t w) →
  completes (mkSys t w) (λ w', ∃ t', done_with parts d n c0 I (mkSys t' w')).
Proof using Hedge.
  intros Hp Hph c Hrun. assert (phase parts big d n c0 I c) as Hc.
  { clear -Hp Hph Hrun Hedge. induction Hrun; [done|]. apply IHHrun. by eapply phase_kept. }
  split; [|split].
  - intros x Hx. assert (too_early c x ∨ ¬ too_early c x) as [He|He].
    { unfold too_early. destruct (decide (_status (cpu (st c)) = DcacheRetry)), x; (by left) || (right; by intros []). }
    + left. split; [done|]. eapply perform_early; [exact Hp|exact Hc|done|done].
    + right. split; [done|]. destruct (perform_step jitter edge edge1 read parts big d n c0 I Hp Hedge c x Hc Hx He) as (w' & ? & _). eauto.
  - destruct Hc as [[i Hg]|Hd].
    + rewrite (go_status _ _ _ _ _ _ Hg). case_decide; auto.
    + right. right. split; [apply Hd|]. exists (now c). by destruct c.
  - destruct (going_finishes jitter edge edge1 read parts big d n c0 I Hp Hedge c Hc) as (c' & Hr & Hd). exists c'. split; [done|].
    exists (now c'). by destruct c'.
Qed.

(** *** The packets of an access *)

Definition cmd_of (read : bool) : MemCmd.Command := if read then MemCmd.ReadReq else MemCmd.WriteReq.

Lemma build_part read pa n r : frag_req pa n r → buildPacket r read = Packet.create r (cmd_of read).
Proof.
  intros Hr. unfold buildPacket, Packet.createRead, Packet.createWrite. destruct read; simpl.
  - by rewrite AtomicCpu.makes_read by apply Hr.
  - by rewrite AtomicCpu.makes_write by apply Hr.
Qed.

Lemma part_answer read kind ss d r q :
  Packet.answers (part_packet (cmd_of read) kind ss d r) q → Packet.isError q = false ∧ Packet.senderState q = ss.
Proof.
  intros Ha. split; [eapply AtomicCpu.answer_no_error; [|exact Ha]; destruct read; auto|].
  destruct Ha as (x & hd & pd & Hx & ->). unfold Packet.makeResponse in Hx. destruct read; simpl in Hx; by injection Hx as <-.
Qed.

(** A packet with its own data, and the answer to it. *)
Lemma final_part c pa d n r : frag_req pa n r → final d n (part_packet c Packet.DYNAMIC_DATA [] d r).
Proof. intros Hr. split; [done|]. split; [|done]. unfold Packet.getSize. simpl. by rewrite (AtomicCpu.fr_size _ _ _ Hr). Qed.

Lemma final_answer read pa d n r q :
  frag_req pa n r → Packet.answers (part_packet (cmd_of read) Packet.DYNAMIC_DATA [] d r) q → final d n q.
Proof.
  intros Hr (x & hd & pd & Hx & ->). unfold Packet.makeResponse in Hx. destruct read; simpl in Hx; injection Hx as <-;
    (split; [done|]; split; [|done]; unfold Packet.getSize; simpl; by rewrite (AtomicCpu.fr_size _ _ _ Hr)).
Qed.

Section Parts.

(** [J z] says that the first [z] bytes have been moved. *)
Context (read : bool) (pt : EmulationPageTable.t) (a n : Z) (d : ptr) (J : Z → M → hmem → Prop).

Record moves : Prop := {
  mv_send z l kind ss r pa m h :
    J z m h → 0 <= z → 0 < l → z + l <= n → in_block (2 ^ k) (a + z, l) → EmulationPageTable.translate pt (a + z) = Some pa →
    frag_req pa l r → data_kind kind →
    let p := part_packet (cmd_of read) kind ss (ptr_add d z) r in
    ∃ p' m' h' lat, recvAtomic (jitter p) p m h = Ok (p', m', h', lat) ∧ Packet.answers p p' ∧ J (z + l) m' h';
  mv_data m h : J n m h → in_bounds h d n = true;
}.

Context (Hmv : moves) (Hn : 0 < n).

Lemma plan_single pa r :
  frag_req pa n r → in_block (2 ^ k) (a, n) → EmulationPageTable.translate pt a = Some pa →
  let p := part_packet (cmd_of read) Packet.DYNAMIC_DATA [] d r in
  plan jitter read [p] p d n (λ i, J (if decide (i = 0%nat) then 0 else n)).
Proof using Hmv Hn.
  intros Hr Hblk Htr p. constructor.
  - left. exists p. split; [done|]. split; [done|]. intros q Hq. by apply (final_answer read pa d n r).
  - intros x q Hx Hq. apply list_elem_of_singleton in Hx as ->. by apply (part_answer read Packet.DYNAMIC_DATA [] d r).
  - intros [|i] x m h Hx HJ; [injection Hx as <-|done]. destruct (mv_send Hmv 0 n Packet.DYNAMIC_DATA [] r pa m h) as (p' & m' & h' & lat & Hs & Ha & HJ');
      rewrite ?Z.add_0_r; try (done || lia); [by right|]. rewrite ptr_add_0 in *. by exists p', m', h', lat.
  - apply (mv_data Hmv).
Qed.

Lemma plan_split l pa1 pa2 r1 r2 rm :
  0 < l < n → frag_req pa1 l r1 → frag_req pa2 (n - l) r2 → frag_req pa1 n rm → in_block (2 ^ k) (a, l) → in_block (2 ^ k) (a + l, n - l) →
  EmulationPageTable.translate pt a = Some pa1 → EmulationPageTable.translate pt (a + l) = Some pa2 →
  let p1 := part_packet (cmd_of read) Packet.STATIC_DATA [1%positive] d r1 in
  let p2 := part_packet (cmd_of read) Packet.STATIC_DATA [2%positive] (ptr_add d l) r2 in
  plan jitter read [p1; p2] (part_packet (MemCmd.responseCommand (cmd_of read)) Packet.DYNAMIC_DATA [] d rm) d n
    (λ i, J (match i with O => 0 | 1%nat => l | _ => n end)).
Proof using Hmv.
  intros Hl Hr1 Hr2 Hrm Hb1 Hb2 Ht1 Ht2 p1 p2. constructor.
  - right. exists p1, p2. split_and!; try done; [by destruct read..|]. by apply (final_part _ pa1).
  - intros x q [->|Hx]%elem_of_cons Hq; [|apply list_elem_of_singleton in Hx as ->]; by apply part_answer in Hq.
  - intros [|[|i]] x m h Hx HJ; [injection Hx as <-..|done].
    + destruct (mv_send Hmv 0 l Packet.STATIC_DATA [1%positive] r1 pa1 m h) as (p' & m' & h' & lat & Hs & Ha & HJ'); rewrite ?Z.add_0_r; try (done || lia); [by left|].
      rewrite ptr_add_0 in *. by exists p', m', h', lat.
    + destruct (mv_send Hmv l (n - l) Packet.STATIC_DATA [2%positive] r2 pa2 m h) as (p' & m' & h' & lat & Hs & Ha & HJ'); try (done || lia); [by left|].
      replace (l + (n - l)) with n in HJ' by lia. by exists p', m', h', lat.
  - apply (mv_data Hmv).
Qed.

End Parts.

(** *** Where an access is split *)

Definition split_at (a n : Z) : Z := a + n - 1 - (a + n - 1) mod 2 ^ k.

Lemma split_at_ok a n :
  0 <= a → 0 < n <= 2 ^ k → let s := split_at a n in
  s <= a ∧ in_block (2 ^ k) (a, n) ∨
  a < s ∧ 0 < s - a < n ∧ s - a < 2 ^ k ∧ in_block (2 ^ k) (a, s - a) ∧ in_block (2 ^ k) (s, n - (s - a)).
Proof using Hk.
  intros Ha Hn s. assert (0 < 2 ^ k) by (apply Z.pow_pos_nonneg; lia). subst s. unfold split_at, in_block. simpl.
  pose proof (Z.mod_pos_bound (a + n - 1) (2 ^ k) ltac:(lia)). pose proof (Z.div_mod (a + n - 1) (2 ^ k) ltac:(lia)) as Hd.
  set (q := (a + n - 1) / 2 ^ k) in *. set (r := (a + n - 1) mod 2 ^ k) in *.
  destruct (Z_lt_le_dec a (a + n - 1 - r)) as [Hlt|Hge]; [right|left].
  - split; [done|]. split; [lia|]. split; [lia|]. split.
    + transitivity (q - 1); [symmetry|]; [apply Z.div_unique with (a - 2 ^ k * (q - 1))|apply Z.div_unique with (2 ^ k - 1)]; lia.
    + transitivity q; [symmetry|]; [apply Z.div_unique with 0|apply Z.div_unique with r]; lia.
  - split; [lia|]. symmetry. apply Z.div_unique with (a - 2 ^ k * q); lia.
Qed.

Lemma round_split a n : 0 <= a → 0 < n → a + n < 2 ^ 64 → roundDown (u64 (a + n - 1)) (2 ^ k) = split_at a n.
Proof using Hk. intros. rewrite u64_small by (split; lia). apply roundDown_spec; [split; lia|lia]. Qed.

(** *** The request *)

Definition request (tick pc a n : Z) (c : t) : Request.t :=
  Request.set_byteEnable (replicate (Z.to_nat n) true) (Request.create_virt tick a n 0 (dataRequestorId c) pc (contextId c) None).

Lemma request_virt t pc a n c : AtomicCpu.virt_req a n (request t pc a n c).
Proof. constructor; try done. by right. Qed.

Lemma request_split t pc a n c s :
  0 <= a → a + n < 2 ^ 64 → n <= 2 ^ k → a < s < a + n →
  ∃ r1 r2, Request.splitOnVaddr s (request t pc a n c) = Ok (r1, r2) ∧ AtomicCpu.virt_req a (s - a) r1 ∧ AtomicCpu.virt_req s (n - (s - a)) r2.
Proof using Hk.
  intros Ha Htop Hnk Hs. assert (2 ^ k < 2 ^ 32) by (apply Z.pow_lt_mono_r; lia).
  destruct (Request.splitOnVaddr_spec (request t pc a n c) s) as (r1 & r2 & -> & W1 & W2 & V1 & V2 & E & S & P1 & P2 & B & _ & F1 & F2 & _ & _ & G1 & G2);
    [constructor; simpl; rewrite ?length_replicate; lia|done|done|done|]. exists r1, r2. split; [done|]. simpl in *.
  assert (Request._size r1 = s - a ∧ Request._size r2 = n - (s - a)) as [S1 S2] by lia.
  assert (Forall (eq true) (Request._byteEnable r1 ++ Request._byteEnable r2)) as [HB1 HB2]%Forall_app by (rewrite B; by apply Forall_replicate).
  split; (constructor; try done; [rewrite ?G1, ?G2; by right|]).
  - symmetry. apply replicate_as_Forall_2; [|done]. pose proof (Request.wf_enable _ W1). lia.
  - symmetry. apply replicate_as_Forall_2; [|done]. pose proof (Request.wf_enable _ W2). lia.
Qed.

(** *** The access *)

Lemma core_start parts big c0 I t (w : World (M := M)) :
  parts ≠ [] → main_send_state (cpu w) = main_of parts big 0 (Z.of_nat (length parts)) → tickEvent (cpu w) = None → retryRespEvent (cpu w) = None →
  inflight (side w) = [] → outcomes (cpu w) = outcomes c0 → same_config c0 (cpu w) → I 0%nat (memory (side w)) (heap w) →
  core parts big c0 I 0 (mkSys t w).
Proof.
  intros Hne Hm Ht Hr Hf Ho Hc Hi. assert (left_of parts 0 w = Z.of_nat (length parts)) as Heq by (unfold left_of; rewrite Ht, Hf; simpl; lia).
  constructor; simpl; rewrite ?Heq; try done.
  - lia.
  - destruct parts; [done|]. simpl. lia.
  - by rewrite Hf.
  - by rewrite Ht.
  - by rewrite Hr.
Qed.

Section Access.

Context (read : bool) (pt : EmulationPageTable.t) (a n : Z) (d : ptr) (J : Z → M → hmem → Prop) (Hmv : moves read pt a n d J).

(** The access has started, its parts being those of some plan. *)
Definition started (c0 : t) (tick : Z) (w : World (M := M)) : Prop :=
  ∃ parts big I, plan jitter read parts big d n I ∧ phase parts big d n c0 I (mkSys tick w) ∧ ∀ m h, I (length parts) m h → J n m h.

Lemma access_eq tick pc accepted1 accepted2 w :
  can_access pt a n w →
  let w1 := on_cpu (set_status DTBWaitResponse) w in
  access jitter tick pc pt accepted1 accepted2 read d a n (replicate (Z.to_nat n) true) w =
    if a <? split_at a n then
      '(req1, req2) ← Request.splitOnVaddr (split_at a n) (request tick pc a n (cpu w));
      '(fault1, req1) ← AtomicCpu.translate pt req1 (rv32 (cpu w));
      '(fault2, req2) ← AtomicCpu.translate pt req2 (rv32 (cpu w));
      finishTranslation_split jitter accepted1 accepted2 (fault1, fault2) req1 req2 (request tick pc a n (cpu w)) d read w1
    else
      '(fault, req) ← AtomicCpu.translate pt (request tick pc a n (cpu w)) (rv32 (cpu w));
      finishTranslation jitter accepted1 fault req d read w1.
Proof using Hk.
  intros [(_ & Hl & _) (Ha & Hn & Htop & _) _ _]. unfold access. rewrite Hl, round_split by lia. unfold Request.setByteEnable.
  rewrite length_replicate. simpl. rewrite Z2Nat.id, Z.eqb_refl by lia. simpl.
  destruct (split_at_ok a n Ha Hn) as [[Hs _]|(Hs & Hsn & Hsk & _ & _)].
  - by rewrite (proj2 (Z.leb_le _ _) Hs).
  - by rewrite (u64_small (split_at a n - a)), (proj2 (Z.ltb_lt _ _) Hsk), orb_true_r by (split; lia).
Qed.

Lemma valid_below w v : can_access pt a n w → 0 <= v < a + n → AtomicCpu.getValidAddr v (rv32 (cpu w)) = v.
Proof.
  intros [_ (_ & _ & _ & Hrv) _ _] Hv. unfold AtomicCpu.getValidAddr. destruct (rv32 (cpu w)); [apply Z.mod_small; lia|done].
Qed.

Lemma access_single tick pc accepted1 accepted2 w :
  can_access pt a n w → split_at a n <= a → J 0 (memory (side w)) (heap w) → EmulationPageTable.translate pt a ≠ None →
  ∃ w1, access jitter tick pc pt accepted1 accepted2 read d a n (replicate (Z.to_nat n) true) w = Ok w1 ∧ started (cpu w) tick w1.
Proof using Hk Hmv.
  intros Hca Hs HJ Htr. pose proof Hca as [([Hp Hm Ht Hr] & _ & Hf) (Ha & Hn & Htop & _) _ _].
  destruct (split_at_ok a n Ha Hn) as [[_ Hblk]|[? _]]; [|lia]. rewrite access_eq by done. rewrite (proj2 (Z.ltb_ge a _)) by lia. simpl.
  rewrite (AtomicCpu.translate_request pt a n) by (apply request_virt || lia || (apply valid_below; [done|lia])).
  destruct (EmulationPageTable.translate pt a) as [pa|] eqn:Htr'; [|done]. clear Htr. rewrite res_bind_Ok. set (r := Request.setPaddr pa _).
  assert (frag_req pa n r) as Hfr by apply (AtomicCpu.translated_req a), request_virt. unfold finishTranslation, sendData.
  rewrite (build_part read pa n), (AtomicCpu.create_part pa n), res_bind_Ok, AtomicCpu.dynamic_part, res_bind_Ok by done.
  pose proof (plan_single read pt a n d J Hmv ltac:(lia) pa r Hfr Hblk Htr') as Hplan. cbv zeta in Hplan |- *.
  destruct (single_goes jitter read _ _ d n (cpu w) _ Hplan accepted1 tick (on_cpu (set_status Running) (on_cpu (set_status DTBWaitResponse) w))
    (part_packet (cmd_of read) Packet.DYNAMIC_DATA [] d r)) as (i & sent & w' & -> & Hg); [by apply core_start|done|].
  rewrite res_bind_Ok. exists w'. split; [done|]. eexists _, _, _. split; [exact Hplan|]. split; [left; eauto|done].
Qed.

Lemma set_no_flags pa l r r' : frag_req pa l r → AtomicCpu.plain_req r' → Request.setFlags (Request._flags r') r = Ok r.
Proof.
  intros [Hp Hfl _ _ _] ->. unfold Request.setFlags, Request.hasPaddr, AtomicCpu.plain_req in *. destruct r as [? ? ? ? f pf ? ? ? ? ? ?]. simpl in *.
  subst f. by destruct Hfl as [-> | ->].
Qed.

Lemma part_paddr pa l r : frag_req pa l r → Request.getPaddr r = Ok pa.
Proof. intros [_ Hfl Ha _ _]. unfold Request.getPaddr, Request.hasPaddr. rewrite Ha. by destruct Hfl as [-> | ->]. Qed.

Lemma part_size pa l r : frag_req pa l r → Request.getSize r = Ok l.
Proof. intros [_ Hfl _ Hs _]. unfold Request.getSize, Request.hasSize. rewrite Hs. by destruct Hfl as [-> | ->]. Qed.

Lemma access_split tick pc accepted1 accepted2 w :
  can_access pt a n w → a < split_at a n → J 0 (memory (side w)) (heap w) →
  EmulationPageTable.translate pt a ≠ None → EmulationPageTable.translate pt (split_at a n) ≠ None →
  ∃ w1, access jitter tick pc pt accepted1 accepted2 read d a n (replicate (Z.to_nat n) true) w = Ok w1 ∧ started (cpu w) tick w1.
Proof using Hk Hmv.
  intros Hca Hs HJ Htr1 Htr2. pose proof Hca as [([Hp Hm Ht Hr] & _ & Hf) (Ha & Hn & Htop & _) _ _].
  destruct (split_at_ok a n Ha Hn) as [[? _]|(_ & Hsn & Hsk & Hb1 & Hb2)]; [lia|]. rewrite access_eq by done. set (s := split_at a n) in *.
  rewrite (proj2 (Z.ltb_lt _ _) Hs). destruct (request_split tick pc a n (cpu w) s) as (r1 & r2 & -> & Hr1 & Hr2); [lia..|]. rewrite res_bind_Ok.
  rewrite (AtomicCpu.translate_request pt a (s - a) r1), (AtomicCpu.translate_request pt s (n - (s - a)) r2) by (done || lia || (apply valid_below; [done|lia])).
  destruct (EmulationPageTable.translate pt a) as [pa1|] eqn:T1; [|done]. destruct (EmulationPageTable.translate pt s) as [pa2|] eqn:T2; [|done].
  rewrite !res_bind_Ok. clear Htr1 Htr2. pose proof (AtomicCpu.translated_req _ _ pa1 _ Hr1) as Hf1. pose proof (AtomicCpu.translated_req _ _ pa2 _ Hr2) as Hf2.
  pose proof (AtomicCpu.translated_req _ _ pa1 _ (request_virt tick pc a n (cpu w))) as Hfm. unfold finishTranslation_split. cbn [fst snd].
  set (q1 := Request.setPaddr pa1 r1) in *. set (q2 := Request.setPaddr pa2 r2) in *. rewrite (part_paddr pa1 (s - a) q1), !res_bind_Ok by done.
  set (qm := Request.setPaddr pa1 (request tick pc a n (cpu w))) in *.
  rewrite (set_no_flags pa1 n qm q1), res_bind_Ok, (set_no_flags pa1 n qm q2), res_bind_Ok by (done || apply Hf1 || apply Hf2).
  unfold sendSplitData, buildSplitPacket. rewrite (build_part read pa1 (s - a) q1), (build_part read pa2 (n - (s - a)) q2) by done.
  rewrite (AtomicCpu.create_part pa1 (s - a) q1), res_bind_Ok, (AtomicCpu.create_part pa2 (n - (s - a)) q2), res_bind_Ok by done.
  rewrite (AtomicCpu.create_part pa1 n qm), res_bind_Ok, AtomicCpu.dynamic_part, res_bind_Ok, AtomicCpu.static_part, res_bind_Ok by done.
  rewrite (part_size pa1 (s - a) q1), res_bind_Ok, AtomicCpu.static_part, !res_bind_Ok by done.
  assert (a + (s - a) = s) as Has by lia. assert (in_block (2 ^ k) (a + (s - a), n - (s - a))) as Hb2' by by rewrite Has.
  assert (EmulationPageTable.translate pt (a + (s - a)) = Some pa2) as T2' by by rewrite Has.
  pose proof (plan_split read pt a n d J Hmv (s - a) pa1 pa2 _ _ _ Hsn Hf1 Hf2 Hfm Hb1 Hb2' T1 T2') as Hplan. cbv zeta in Hplan |- *.
  set (p1 := part_packet _ _ [1%positive] _ _) in *. set (p2 := part_packet _ _ [2%positive] _ _) in *.
  destruct (split_goes jitter read [p1; p2] _ d n (cpu w) _ Hplan accepted1 accepted2 tick (on_cpu (set_main (Some (mkMain
    (part_packet (MemCmd.responseCommand (cmd_of read)) Packet.DYNAMIC_DATA [] d qm) 2 (Some p1) (Some p2))))
    (on_cpu (set_status Running) (on_cpu (set_status DTBWaitResponse) w))) p1 p2) as (i & w' & Hrun & Hg); [by apply core_start|done|].
  exists w'. split; [exact Hrun|]. eexists _, _, _. split; [exact Hplan|]. split; [left; eauto|done].
Qed.

(** The address of the fault of an access, if there is one: that of the first part
    that is not mapped. *)
Definition fault_at : option Z :=
  match EmulationPageTable.translate pt a with
  | None => Some a
  | Some _ =>
      if a <? split_at a n then
        match EmulationPageTable.translate pt (split_at a n) with None => Some (split_at a n) | Some _ => None end
      else None
  end.

Lemma set_no_flags_virt v l r r' : AtomicCpu.virt_req v l r → AtomicCpu.plain_req r' → Request.setFlags (Request._flags r') r = Ok r.
Proof.
  intros [Hp Hfl _ _ _] ->. unfold Request.setFlags, Request.hasPaddr, Request.hasVaddr, AtomicCpu.plain_req in *.
  destruct r as [? ? ? ? f pf ? ? ? ? ? ?]. simpl in *. subst f. by destruct Hfl as [-> | ->].
Qed.

Lemma access_fault tick pc accepted1 accepted2 w v :
  can_access pt a n w → fault_at = Some v →
  access jitter tick pc pt accepted1 accepted2 read d a n (replicate (Z.to_nat n) true) w =
    Ok (mkWorld (translationFault v (cpu w)) (side w) (delete (block d) (heap w))).
Proof using Hk.
  intros Hca Hv. pose proof Hca as [_ (Ha & Hn & Htop & _) _ _]. unfold fault_at in Hv. rewrite access_eq by done.
  pose proof (request_virt tick pc a n (cpu w)) as Hq.
  destruct (split_at_ok a n Ha Hn) as [[Hs _]|(Hs & Hsn & Hsk & _ & _)]; set (s := split_at a n) in *.
  - rewrite (proj2 (Z.ltb_ge a _)) in * by lia. rewrite (AtomicCpu.translate_request pt a n) by (done || lia || (apply valid_below; [done|lia])).
    destruct (EmulationPageTable.translate pt a); [done|]. by injection Hv as <-.
  - rewrite (proj2 (Z.ltb_lt _ _) Hs) in *.
    destruct (request_split tick pc a n (cpu w) s) as (r1 & r2 & -> & Hr1 & Hr2); [lia..|]. rewrite res_bind_Ok.
    rewrite (AtomicCpu.translate_request pt a (s - a) r1), (AtomicCpu.translate_request pt s (n - (s - a)) r2) by (done || lia || (apply valid_below; [done|lia])).
    destruct (EmulationPageTable.translate pt a) as [pa1|]; destruct (EmulationPageTable.translate pt s) as [pa2|]; try done; injection Hv as <-;
      rewrite !res_bind_Ok; unfold finishTranslation_split; cbn [fst snd].
    + rewrite (part_paddr pa1 (s - a)), !res_bind_Ok by by apply (AtomicCpu.translated_req a).
      rewrite !(set_no_flags pa1 n _ _ (AtomicCpu.translated_req _ _ pa1 _ Hq)) by (apply Hr1 || apply Hr2). done.
    + rewrite !res_bind_Ok, !(set_no_flags_virt _ _ _ _ Hq) by (apply Hr1 || apply Hr2). done.
    + rewrite !res_bind_Ok, !(set_no_flags_virt _ _ _ _ Hq) by (apply Hr1 || apply Hr2). done.
Qed.

End Access.

(** *** What an access leaves *)

(** The processor can make the next access, and nothing but guest memory may have changed. *)
Record after (w w' : World (M := M)) : Prop := {
  af_cpu : ready (cpu w') ∧ same_config (cpu w) (cpu w') ∧ inflight (side w') = [];
  af_inv : inv (memory (side w')) (heap w');
  af_same : same_memory (memory (side w)) (memory (side w'));
  af_bounds q l : in_bounds (heap w') q l = in_bounds (heap w) q l;
  af_frame b i : ¬ owns (memory (side w)) b → peek (heap w') b i = peek (heap w) b i;
}.

Definition guest (w : World (M := M)) (x : Z) : option Z := contents (memory (side w)) (heap w) x.

Definition loaded (pt : EmulationPageTable.t) (a n : Z) (w w' : World) : Prop :=
  after w w' ∧ (∀ x, guest w' x = guest w x) ∧ ∃ bs, outcomes (cpu w') = outcomes (cpu w) ++ [Completed bs] ∧
    ∀ i, 0 <= i < n → bs !! Z.to_nat i = vcontents pt (memory (side w)) (heap w) (a + i).

Definition stored (pt : EmulationPageTable.t) (a n : Z) (src : ptr) (w w' : World) : Prop :=
  after w w' ∧ (∃ bs, outcomes (cpu w') = outcomes (cpu w) ++ [Completed bs]) ∧
  (∀ i x, 0 <= i < n → EmulationPageTable.translate pt (a + i) = Some x → guest w' x = peek (heap w) (block src) (offset src + i)) ∧
  (∀ x, (∀ i, 0 <= i < n → EmulationPageTable.translate pt (a + i) ≠ Some x) → guest w' x = guest w x).

Lemma exists_in_bounds (h : hmem) b : is_Some (h !! b) ↔ in_bounds h (Ptr b 0) 0 = true.
Proof.
  rewrite in_bounds_iff. split; [intros [l Hl]; exists l; simpl; split_and!; (done || lia)|intros (l & Hl & _)]. by exists l.
Qed.

(** Accesses follow one another. *)
Lemma after_can_access pt a n a' n' w w' : can_access pt a n w → after w w' →
  0 <= a' → 0 < n' <= 2 ^ k → a' + n' < 2 ^ 64 → (rv32 (cpu w) = true → a' + n' <= 2 ^ 32) → can_access pt a' n' w'.
Proof.
  intros [(_ & Hl & _) _ _ Hal] [(Hrd & (Hcl & _ & _ & Hrv) & Hf) Hi Hs Hb _] ? ? ? ?. constructor; try done.
  - split; [done|]. split; [by rewrite Hcl|done].
  - by rewrite Hrv.
  - intros b Ho%(proj1 Hs). apply exists_in_bounds. rewrite Hb. by apply exists_in_bounds, Hal.
Qed.

(** The buffer of an access. *)
Record buffer (b : positive) (n : Z) (w : World (M := M)) (h : hmem) : Prop := {
  bf_fresh : heap w !! b = None;
  bf_bounds : in_bounds h (Ptr b 0) n = true;
  bf_other c : c ≠ b → h !! c = heap w !! c;
}.

Lemma buffer_facts pt a n b w h :
  can_access pt a n w → buffer b n w h →
  ¬ owns (memory (side w)) b ∧ inv (memory (side w)) h ∧ (∀ x, contents (memory (side w)) h x = guest w x) ∧
  can_access pt a n (mkWorld (cpu w) (side w) h) ∧ delete b h = heap w ∧ (∀ c i, c ≠ b → peek h c i = peek (heap w) c i).
Proof.
  intros [Hc Hr Hi Hal] [Hf Hb Ho]. assert (¬ owns (memory (side w)) b) as Hno. { intros [l Hl]%Hal. congruence. }
  assert (∀ c i, c ≠ b → peek h c i = peek (heap w) c i) as Hpk by (intros c i Hne; unfold peek; by rewrite Ho).
  destruct (memory_frame (memory (side w)) (heap w) h) as [Hi' Hct]; [done| | |].
  { intros c i Hown. apply Hpk. by intros ->. }
  { intros q l Hown. unfold in_bounds. rewrite Ho; [done|]. intros Heq. apply Hno. by rewrite <-Heq. }
  split; [done|]. split; [done|]. split; [done|]. split; [|split; [|done]].
  - constructor; try done. simpl. intros c Hown. rewrite Ho; [by apply Hal|]. by intros ->.
  - apply map_eq. intros c. destruct (decide (c = b)) as [->|Hne]; [by rewrite lookup_delete_eq|]. by rewrite lookup_delete_ne, Ho.
Qed.

Lemma alloc_buffer n w : 0 <= n → ∃ b h, alloc (heap w) n = (b, h) ∧ buffer b n w h.
Proof.
  intros Hn. destruct (PortProxy.alloc_ok (heap w) n Hn) as (b & h & Ha & Hf & Hb & _ & _). exists b, h. split; [done|]. constructor; try done.
  intros c Hc. unfold alloc in Ha. injection Ha as <- <-. by rewrite lookup_insert_ne.
Qed.

Lemma memcpy_buffer n b src w h :
  buffer b n w h → in_bounds (heap w) src n = true →
  ∃ h', memcpy h (Ptr b 0) src n = Ok h' ∧ buffer b n w h' ∧ ∀ i, 0 <= i < n → peek h' b i = peek (heap w) (block src) (offset src + i).
Proof.
  intros [Hf Hb Ho] Hs. assert (block src ≠ b) as Hne. { intros Heq. unfold in_bounds in Hs. by rewrite Heq, Hf in Hs. }
  assert (in_bounds h src n = true) as Hs' by (unfold in_bounds in *; by rewrite Ho).
  destruct (memcpy_Ok h (Ptr b 0) src n Hb Hs') as (bs & h' & Hl & Hst & ->); [left; by simpl|]. exists h'. split; [done|].
  pose proof (load_bytes_length _ _ _ _ Hl) as Hlen. split.
  - constructor; [done|by rewrite (store_bytes_in_bounds_frame _ _ _ _ _ _ Hst)|]. intros c Hc. rewrite <-Ho by done.
    unfold store_bytes in Hst. rewrite Hlen, Hb in Hst. injection Hst as <-. by rewrite lookup_alter_ne.
  - intros i Hi. rewrite (store_bytes_peek _ _ _ _ b i Hst). simpl. rewrite decide_True by (split; [done|lia]).
    rewrite Z.sub_0_r. rewrite (load_bytes_peek _ _ _ _ _ Hl) by lia. unfold peek. by rewrite Ho.
Qed.

(** *** Loads *)

Lemma load_moves pt a n b w h :
  can_access pt a n w → buffer b n w h → reaches k pt (memory (side w)) a n →
  moves true pt a n (Ptr b 0) (vread_inv pt (memory (side w)) h (Ptr b 0) a).
Proof.
  intros Hca Hb Hre. destruct (buffer_facts pt a n b w h Hca Hb) as (Ho & _). constructor.
  - intros z l kind ss r pa m h' HJ Hz Hl Hle Hblk Htr Hr Hkind p.
    destruct (AtomicCpu.fragment_read k kind ss (jitter p) (Ptr b 0) a n z l r pa (memory (side w)) h m h' pt) as (p' & m' & h2 & lat & ? & ? & ?);
      try done; [apply Hb|]. by exists p', m', h2, lat.
  - intros m h' [_ _ _ Hbd _ _]. rewrite Hbd. apply Hb.
Qed.

Lemma store_moves pt a n b w h :
  can_access pt a n w → buffer b n w h → reaches k pt (memory (side w)) a n → vinj pt a n →
  moves false pt a n (Ptr b 0) (vwrite_inv pt (memory (side w)) h (Ptr b 0) a).
Proof.
  intros Hca Hb Hre Hinj. destruct (buffer_facts pt a n b w h Hca Hb) as (Ho & _). constructor.
  - intros z l kind ss r pa m h' HJ Hz Hl Hle Hblk Htr Hr Hkind p.
    destruct (AtomicCpu.fragment_write k kind ss (jitter p) (Ptr b 0) a n z l r pa (memory (side w)) h m h' pt) as (p' & m' & h2 & lat & ? & ? & ?);
      try done; [apply Hb|]. by exists p', m', h2, lat.
  - intros m h' [_ _ Hbd _ _ _]. rewrite Hbd. apply Hb.
Qed.

Lemma reaches_mapped pt (m : M) a n z : 0 <= z < n → reaches k pt m a n → EmulationPageTable.translate pt (a + z) ≠ None.
Proof.
  intros Hz Hr. destruct (Hr z 1) as (pa & Hpa & _); [lia..| |].
  - unfold in_block. simpl. f_equal. lia.
  - specialize (Hpa 0 ltac:(lia)). rewrite !Z.add_0_r in Hpa. by rewrite Hpa.
Qed.

(** All bytes have been moved, the instruction has the data of the buffer [b], and the
    buffer is gone. *)
Definition finished (b : positive) (n : Z) (J : Z → M → hmem → Prop) (w w' : World (M := M)) : Prop :=
  ready (cpu w') ∧ same_config (cpu w) (cpu w') ∧ inflight (side w') = [] ∧
  ∃ h bs, J n (memory (side w')) h ∧ load_bytes h (Ptr b 0) n = Ok bs ∧ heap w' = delete b h ∧
    outcomes (cpu w') = outcomes (cpu w) ++ [Completed bs].

Lemma completes_mono c P Q : (∀ w, P w → Q w) → completes c P → completes c Q.
Proof.
  intros HPQ H c1 Hc1. destruct (H c1 Hc1) as (Hen & Hst & c' & Hr & HP). split; [done|]. split; [|eauto].
  destruct Hst as [?|[?|[? ?]]]; auto.
Qed.

Lemma access_starts read pt a n b J tick pc accepted1 accepted2 w h :
  can_access pt a n w → buffer b n w h → reaches k pt (memory (side w)) a n → moves read pt a n (Ptr b 0) J → J 0 (memory (side w)) h →
  ∃ w1, access jitter tick pc pt accepted1 accepted2 read (Ptr b 0) a n (replicate (Z.to_nat n) true) (mkWorld (cpu w) (side w) h) = Ok w1 ∧
    completes (mkSys tick w1) (finished b n J w).
Proof using Hk Hedge.
  intros Hca Hb Hre Hmv HJ. destruct (buffer_facts pt a n b w h Hca Hb) as (_ & _ & _ & Hca' & _). pose proof Hca as [_ (Ha & Hn & _) _ _].
  pose proof (reaches_mapped pt (memory (side w)) a n 0 ltac:(lia) Hre) as Hm0. rewrite Z.add_0_r in Hm0. set (w0 := mkWorld (cpu w) (side w) h) in *.
  assert (∃ w1, access jitter tick pc pt accepted1 accepted2 read (Ptr b 0) a n (replicate (Z.to_nat n) true) w0 = Ok w1 ∧
    started read n (Ptr b 0) J (cpu w0) tick w1) as (w1 & Hw1 & parts & big & I & Hplan & Hph & HI).
  { destruct (split_at_ok a n Ha Hn) as [[Hs _]|(Hs & Hsn & _)]; [by apply (access_single read pt a n (Ptr b 0) J Hmv)|].
    apply (access_split read pt a n (Ptr b 0) J Hmv); try done. replace (split_at a n) with (a + (split_at a n - a)) by lia.
    apply (reaches_mapped pt (memory (side w)) a n); [lia|done]. }
  exists w1. split; [done|]. eapply completes_mono; [|exact (completes_phase _ _ _ _ _ _ _ _ _ Hplan Hph)].
  intros w' [x [_ Hrd Hf Hcf (h' & bs & HI' & ? & ? & ?)]]. split_and!; try done. exists h', bs. split_and!; try done. by apply HI.
Qed.

(** The buffer is gone and all else is there. *)
Lemma finished_after pt a n b w h w' h' m' :
  can_access pt a n w → buffer b n w h → w' = mkWorld (cpu w') (mkPeer m' []) (delete b h') → ready (cpu w') → same_config (cpu w) (cpu w') →
  inv m' h' → same_memory (memory (side w)) m' → (∀ q l, in_bounds h' q l = in_bounds h q l) →
  (∀ c i, c ≠ b → ¬ owns (memory (side w)) c → peek h' c i = peek h c i) →
  after w w' ∧ ∀ x, guest w' x = contents m' h' x.
Proof.
  intros Hca Hb -> Hrd Hcf Hi Hs Hbd Hpk. destruct (buffer_facts pt a n b w h Hca Hb) as (Ho & _ & _ & _ & Hdel & Hpk').
  destruct (memory_frame m' h' (delete b h')) as [Hi' Hct]; [done| | |].
  { intros c i Hc%(proj1 Hs). rewrite PortProxy.peek_delete. by rewrite decide_False by (by intros ->). }
  { intros q l Hc%(proj1 Hs). rewrite PortProxy.in_bounds_delete. rewrite decide_False; [done|]. intros <-. done. }
  split; [|done]. constructor; try done; simpl.
  - intros q l. rewrite PortProxy.in_bounds_delete, Hbd. case_decide as Hq; [unfold in_bounds; by rewrite Hq, (bf_fresh _ _ _ _ Hb)|].
    unfold in_bounds. by rewrite (bf_other _ _ _ _ Hb).
  - intros c i Hc. rewrite PortProxy.peek_delete. case_decide as Hq; [subst; unfold peek; by rewrite (bf_fresh _ _ _ _ Hb)|]. by rewrite Hpk, Hpk'.
Qed.

Lemma finished_loaded pt a n b w h w' :
  can_access pt a n w → buffer b n w h → finished b n (vread_inv pt (memory (side w)) h (Ptr b 0) a) w w' → loaded pt a n w w'.
Proof.
  intros Hca Hb (Hrd & Hcf & Hf & h' & bs & HJ & Hl & Hh & Ho). destruct (buffer_facts pt a n b w h Hca Hb) as (_ & _ & Hct & _).
  pose proof HJ as [Hi Hs Hc Hbd Hbuf Hfr]. destruct w' as [c' [m' l'] hp]. simpl in *. subst.
  destruct (finished_after pt a n b w h (mkWorld c' (mkPeer m' []) (delete b h')) h' m') as [Haf Hg]; try done; [auto|].
  split; [done|]. split; [intros x; by rewrite Hg, Hc|]. exists bs. split; [done|]. intros i Hx.
  rewrite (load_bytes_peek _ _ _ _ i Hl) by done. simpl. rewrite (Hbuf i Hx). unfold vcontents. by destruct (EmulationPageTable.translate pt (a + i)).
Qed.

Lemma finished_stored pt a n src b w h w' :
  can_access pt a n w → buffer b n w h → (∀ i, 0 <= i < n → peek h b i = peek (heap w) (block src) (offset src + i)) →
  finished b n (vwrite_inv pt (memory (side w)) h (Ptr b 0) a) w w' → stored pt a n src w w'.
Proof.
  intros Hca Hb Hsrc (Hrd & Hcf & Hf & h' & bs & HJ & Hl & Hh & Ho). destruct (buffer_facts pt a n b w h Hca Hb) as (_ & _ & Hct & _).
  pose proof HJ as [Hi Hs Hbd Hwr Hot Hfr]. destruct w' as [c' [m' l'] hp]. simpl in *. subst.
  destruct (finished_after pt a n b w h (mkWorld c' (mkPeer m' []) (delete b h')) h' m') as [Haf Hg]; try done; [auto|].
  split; [done|]. split; [by exists bs|]. split.
  - intros i x Hx Ht. rewrite Hg, (Hwr i x Hx Ht). by apply Hsrc.
  - intros x Hx. by rewrite Hg, Hot.
Qed.

(** C14: Loads and stores of the timing processor act as accesses to virtual memory, whatever the interleaving of refused packets,
    retries, responses in any order and the events of the processor. A load or store whose parts are not all mapped has the fault of
    the first one that is not, and leaves memory and heap as they were. Otherwise it starts, and from then on the handlers succeed with
    exactly one exception: when the answer to the first part of a split access is processed while the refused second part waits for
    its retry, the assertion on the status fails. In every run without that the instruction gets, once and always reachably, for a
    load the bytes the region held, with no memory changed, and for a store all its bytes are in memory and nothing else has
    changed; the processor can make its next access then. *)
Theorem timing_cpu_access tick pc pt a n src accepted1 accepted2 w :
  can_access pt a n w →
  let be := replicate (Z.to_nat n) true in
  (∀ v, fault_at pt a n = Some v →
     initiateMemRead jitter tick pc pt accepted1 accepted2 a n be w = Ok (mkWorld (translationFault v (cpu w)) (side w) (heap w)) ∧
     (in_bounds (heap w) src n = true →
      writeMem jitter tick pc pt accepted1 accepted2 src n a be w = Ok (mkWorld (translationFault v (cpu w)) (side w) (heap w)))) ∧
  (reaches k pt (memory (side w)) a n →
     (∃ w1, initiateMemRead jitter tick pc pt accepted1 accepted2 a n be w = Ok w1 ∧ completes (mkSys tick w1) (loaded pt a n w)) ∧
     (vinj pt a n → in_bounds (heap w) src n = true →
      ∃ w1, writeMem jitter tick pc pt accepted1 accepted2 src n a be w = Ok w1 ∧ completes (mkSys tick w1) (stored pt a n src w))).
Proof using Hk Hedge.
  intros Hca be. subst be. pose proof Hca as [_ (_ & Hn & _) Hi _]. destruct (alloc_buffer n w ltac:(lia)) as (b & h & Ha & Hb).
  unfold initiateMemRead, writeMem. rewrite Ha. destruct (buffer_facts pt a n b w h Hca Hb) as (_ & Hi' & Hct & Hca' & Hdel & _). split.
  - intros v Hv. split.
    + rewrite (access_fault true pt a n (Ptr b 0) tick pc accepted1 accepted2 _ v Hca' Hv). simpl. by rewrite Hdel.
    + intros Hs. destruct (memcpy_buffer n b src w h Hb Hs) as (h2 & -> & Hb2 & _). rewrite res_bind_Ok.
      destruct (buffer_facts pt a n b w h2 Hca Hb2) as (_ & _ & _ & Hca2 & Hdel2 & _).
      rewrite (access_fault false pt a n (Ptr b 0) tick pc accepted1 accepted2 _ v Hca2 Hv). simpl. by rewrite Hdel2.
  - intros Hre. split.
    + destruct (access_starts true pt a n b _ tick pc accepted1 accepted2 w h Hca Hb Hre (load_moves pt a n b w h Hca Hb Hre)) as (w1 & Hw1 & Hc).
      { constructor; try done. lia. }
      exists w1. split; [done|]. eapply completes_mono; [|done]. intros w'. by apply (finished_loaded pt a n b w h).
    + intros Hinj Hs. destruct (memcpy_buffer n b src w h Hb Hs) as (h2 & -> & Hb2 & Hsrc). rewrite res_bind_Ok.
      destruct (buffer_facts pt a n b w h2 Hca Hb2) as (_ & Hi2 & Hct2 & _).
      destruct (access_starts false pt a n b _ tick pc accepted1 accepted2 w h2 Hca Hb2 Hre (store_moves pt a n b w h2 Hca Hb2 Hre Hinj)) as (w1 & Hw1 & Hc).
      { constructor; try done. lia. }
      exists w1. split; [done|]. eapply completes_mono; [|done]. intros w'. by apply (finished_stored pt a n src b w h2).
Qed.

End Accesses.
End TimingCpu.
