(* ===== verification/Idma.v ===== *)
(** The [IDMA] engine of [mem/spm/idma.{hh,cc}]: memory-mapped registers, and a
    copy between two virtual regions through a buffer of the device. *)

From S2P Require Import Prelude Bits AddrRange ChunkGen Host Request MemCmd Packet AbstractMem.
From S2P Require Import MemInterface SimpleMem PageTable Dma DmaVirt.
Import Host DmaPort DmaVirtDevice.

Module IDMA.

Definition IDMA_BUSY : Z := 1.
Definition IDMA_COMPLETE : Z := 2.

Definition REG_SRC_ADDR_OFFSET : Z := 0x00.
Definition REG_DST_ADDR_OFFSET : Z := 0x04.
Definition REG_SIZE_OFFSET : Z := 0x08.
Definition REG_COMMAND_OFFSET : Z := 0x0c.
Definition REG_STATUS_OFFSET : Z := 0x10.

(** The functions given to the callbacks. *)
Inductive Callback := ReadDone | WriteDone.

Section Device.

(** [dmaRead] and [dmaWrite] are the inherited operations of [DmaDevice], in the
    mode the system runs in. *)
Context {M : Type} (dmaRead dmaWrite : DmaFn (M := M)).

(** [fullSystem] is the simulation mode, and [pTable] the page table of the
    process of thread 0. *)
Record t := mk {
  regBase : Z;
  srcAddrReg : Z;
  dstAddrReg : Z;
  sizeReg : Z;
  commandReg : Z;
  statusReg : Z;
  dmaBuffer : ptr;
  fullSystem : bool;
  pTable : EmulationPageTable.t;
  dev : DmaVirtDevice.t M Callback;
}.

Definition set_dev (v : DmaVirtDevice.t M Callback) (s : t) : t :=
  mk (regBase s) (srcAddrReg s) (dstAddrReg s) (sizeReg s) (commandReg s) (statusReg s)
     (dmaBuffer s) (fullSystem s) (pTable s) v.

Definition set_regs (src dst size command status : Z) (s : t) : t :=
  mk (regBase s) src dst size command status (dmaBuffer s) (fullSystem s) (pTable s) (dev s).

Definition set_status (x : Z) (s : t) : t :=
  set_regs (srcAddrReg s) (dstAddrReg s) (sizeReg s) (commandReg s) x s.

Definition heap_of (s : t) : hmem := heap (world (dev s)).

Definition set_heap (h : hmem) (s : t) : t :=
  let w := world (dev s) in
  set_dev (set_world (mkWorld (port w) (mem w) h (draws w)) (dev s)) s.

(** The constructor, with its buffer of one mebibyte. *)
Definition create (fs : bool) (pt : EmulationPageTable.t) (w : World M) : t :=
  let '(b, h) := alloc (heap w) (1024 * 1024) in
  mk 0x80060000 0 0 0 0 0 (Ptr b 0) fs pt
     (DmaVirtDevice.mk ∅ ∅ (mkWorld (port w) (mem w) h (draws w))).

(** The page table [translate(vaddr, size)] uses. *)
Definition translate (s : t) : res EmulationPageTable.t :=
  if fullSystem s then Fail PanicFailure else Ok (pTable s).

Definition getAddrRanges (s : t) : list AddrRange.t := [AddrRange.RangeSize (regBase s) 0x1000].

(** [pkt->setLE<T>(v)] of a value of [n] bytes. *)
Definition put (n : nat) (v : Z) (p : Packet.t) (s : t) : res t :=
  h ← Packet.setLE (heap_of s) n v p; Ok (set_heap h s).

(** [read(pkt)]: the response, and the delay of 10 ticks. *)
Definition read (p : Packet.t) (s : t) : res (Packet.t * t * Z) :=
  addr ← Packet.getAddr p;
  size ← Packet.getSize p;
  let offset := u64 (addr - regBase s) in
  s ← (if offset =? REG_STATUS_OFFSET then
         if size =? 4 then put 4 (statusReg s) p s else Fail PanicFailure
       else if offset =? REG_SRC_ADDR_OFFSET then
         if size =? 8 then put 8 (srcAddrReg s) p s
         else if size =? 4 then put 4 (u32 (srcAddrReg s)) p s else Fail PanicFailure
       else if offset =? REG_DST_ADDR_OFFSET then
         if size =? 8 then put 8 (dstAddrReg s) p s
         else if size =? 4 then put 4 (u32 (dstAddrReg s)) p s else Fail PanicFailure
       else if offset =? REG_SIZE_OFFSET then
         if size =? 4 then put 4 (sizeReg s) p s else Fail PanicFailure
       else if offset =? REG_COMMAND_OFFSET then
         if size =? 4 then put 4 (commandReg s) p s else Fail PanicFailure
       else if size =? 4 then put 4 0 p s
       else if size =? 8 then put 8 0 p s
       else Ok s);
  p ← Packet.makeResponse p;
  Ok (p, s, 10).

Definition idmaTransfer (now : Z) (s : t) : res t :=
  let size := sizeReg s in
  let srcAddr := srcAddrReg s in
  let command := commandReg s in
  if Z.land command 0x1 =? 0 then Ok s
  else if dmaPending (port (world (dev s))) then Ok s
  else
    let s := set_status IDMA_BUSY s in
    let '(readCb, v) := newCallback ReadDone (dev s) in
    v ← dmaVirt dmaRead (translate s) now srcAddr size readCb (dmaBuffer s) 0 v;
    Ok (set_dev v s).

Definition idmaReadDone (now : Z) (s : t) : res t :=
  let '(writeCb, v) := newCallback WriteDone (dev s) in
  v ← dmaVirt dmaWrite (translate s) now (dstAddrReg s) (sizeReg s) writeCb (dmaBuffer s) 0 v;
  Ok (set_dev v s).

Definition idmaWriteDone (s : t) : t := set_status IDMA_COMPLETE s.

(** [write(pkt)] at time [now]. *)
Definition write (now : Z) (p : Packet.t) (s : t) : res (Packet.t * t * Z) :=
  addr ← Packet.getAddr p;
  size ← Packet.getSize p;
  let offset := u64 (addr - regBase s) in
  let get n := Packet.getLE (heap_of s) n p in
  s ← (if offset =? REG_STATUS_OFFSET then
         if size =? 4 then v ← get 4%nat; Ok (set_status v s) else Fail PanicFailure
       else if offset =? REG_SRC_ADDR_OFFSET then
         if size =? 8 then
           v ← get 8%nat;
           Ok (set_regs (u32 v) (dstAddrReg s) (sizeReg s) (commandReg s) (statusReg s) s)
         else if size =? 4 then
           v ← get 4%nat;
           Ok (set_regs (u32 (Z.lor (Z.land (srcAddrReg s) 0xFFFFFFFF00000000) v))
                 (dstAddrReg s) (sizeReg s) (commandReg s) (statusReg s) s)
         else Fail PanicFailure
       else if offset =? REG_DST_ADDR_OFFSET then
         if size =? 8 then
           v ← get 8%nat;
           Ok (set_regs (srcAddrReg s) (u32 v) (sizeReg s) (commandReg s) (statusReg s) s)
         else if size =? 4 then
           v ← get 4%nat;
           Ok (set_regs (srcAddrReg s) (u32 (Z.lor (Z.land (dstAddrReg s) 0xFFFFFFFF00000000) v))
                 (sizeReg s) (commandReg s) (statusReg s) s)
         else Fail PanicFailure
       else if offset =? REG_SIZE_OFFSET then
         if size =? 4 then
           v ← get 4%nat;
           Ok (set_regs (srcAddrReg s) (dstAddrReg s) v (commandReg s) (statusReg s) s)
         else Fail PanicFailure
       else if offset =? REG_COMMAND_OFFSET then
         if size =? 4 then
           v ← get 4%nat;
           let s := set_regs (srcAddrReg s) (dstAddrReg s) (sizeReg s) v (statusReg s) s in
           if Z.land (commandReg s) 0x1 =? 0 then Ok s else idmaTransfer now s
         else Fail PanicFailure
       else Ok s);
  p ← Packet.makeResponse p;
  Ok (p, s, 10).

(** ** The device and its events *)

Definition set_events (l : list (positive * Z)) (w : World M) : World M :=
  let s := port w in
  set_port (DmaPort.mk (states s) (transmitList s) (sendEvent s) (pendingCount s) (inRetry s)
              (retryPending s) (requestorId s) (cacheLineSize s) l) w.

Definition pending_events (s : t) : list (positive * Z) := events (port (world (dev s))).

(** The event queue runs the [i]-th pending event of the device, at its tick. *)
Definition fire (i : nat) (s : t) : res t :=
  match pending_events s !! i with
  | None => Ok s
  | Some (e, now) =>
      let v := set_world (set_events (delete i (pending_events s)) (world (dev s))) (dev s) in
      '(f, v) ← chunkComplete e v;
      let s := set_dev v s in
      match f with
      | None => Ok s
      | Some ReadDone => idmaReadDone now s
      | Some WriteDone => Ok (idmaWriteDone s)
      end
  end.

End Device.

Arguments t M : clear implicits.

(** ** A copy *)

Section Copy.

Context {M : Type} {HM : ByteMemory M} (rng : nat → Z).

(** The copy of [n] bytes from [src] to [dst] that starts with memory [m0] and
    heap [h0], on a device with buffer [buf] and page table [pt]. *)
Context (pk k src dst n : Z) (buf : ptr) (pt : EmulationPageTable.t) (m0 : M) (h0 : hmem).

(** What the copy needs: translated regions, served by the memory, the
    destination without aliases, and a buffer large enough. *)
Record can_copy : Prop := {
  cc_pages : 0 <= pk < 64 ∧ EmulationPageTable.wf pk pt;
  cc_size : 0 < n < 2 ^ 32;
  cc_regs : 0 <= src < 2 ^ 32 ∧ 0 <= dst < 2 ^ 32;
  cc_inv : inv m0 h0;
  cc_buffer : in_bounds h0 buf n = true ∧ ¬ owns m0 (block buf);
  cc_src : vserves pt m0 pk k src n;
  cc_dst : vserves pt m0 pk k dst n ∧ vinj pt dst n;
}.

Context (Hcan : can_copy).

(** The device between the start of the copy and its end. *)
Record configured (s : t M) : Prop := {
  cf_src : srcAddrReg s = src;
  cf_dst : dstAddrReg s = dst;
  cf_size : sizeReg s = n;
  cf_buf : dmaBuffer s = buf;
  cf_fs : fullSystem s = false;
  cf_pt : pTable s = pt;
  cf_idle : idle k (port (world (dev s)));
}.

(** Chunk events are pending, all of the one callback, which runs [f]. *)
Definition waiting (f : Callback) (s : t M) : Prop :=
  (∃ cb, tracks cb f (pending_events s).*1 (dev s)) ∧ pending_events s ≠ [].

(** Nothing is pending. *)
Record quiet (s : t M) : Prop := {
  qu_callbacks : callbacks (dev s) = ∅;
  qu_chunks : chunkEvents (dev s) = ∅;
  qu_events : pending_events s = [];
}.

(** The memory once the copy is complete: the same memory, with the bytes of the source
    at the destination; the buffers of the simulator are still there. *)
Record copied_to (m : M) (h : hmem) : Prop := {
  ct_copy i : 0 <= i < n → vcontents pt m h (dst + i) = vcontents pt m0 h0 (src + i);
  ct_rest x : (∀ i, 0 <= i < n → EmulationPageTable.translate pt (dst + i) ≠ Some x) →
     contents m h x = contents m0 h0 x;
  ct_inv : inv m h;
  ct_same : same_memory m0 m;
  ct_bounds q l : in_bounds h q l = in_bounds h0 q l;
}.

(** The phases of a copy. *)
Definition in_read (s : t M) : Prop :=
  waiting ReadDone s ∧ statusReg s = IDMA_BUSY ∧
  vread_inv pt m0 h0 buf src n (mem (world (dev s))) (heap_of s).

Definition in_write (s : t M) : Prop :=
  waiting WriteDone s ∧ statusReg s = IDMA_BUSY ∧ copied_to (mem (world (dev s))) (heap_of s).

Definition finished (s : t M) : Prop :=
  quiet s ∧ statusReg s = IDMA_COMPLETE ∧ copied_to (mem (world (dev s))) (heap_of s).

Definition phase (s : t M) : Prop := in_read s ∨ in_write s ∨ finished s.

(** A new callback on a quiet device. *)
Lemma quiet_tracks f cb (s : t M) v :
  quiet s → newCallback f (dev s) = (cb, v) →
  tracks cb f (atomic_events (world v)) v ∧ world v = world (dev s).
Proof.
  intros [Hc He Hev] Hnew. destruct (tracks_new cb f (dev s) v Hc He Hnew) as [Htr Hw].
  split; [|done]. unfold atomic_events. rewrite Hw. unfold pending_events in Hev. by rewrite Hev.
Qed.

Lemma tracks_waiting cb f v (s : t M) :
  tracks cb f (atomic_events (world v)) v → atomic_events (world v) ≠ [] → waiting f (set_dev v s).
Proof.
  intros Htr Hne. split; [by exists cb|]. unfold pending_events. simpl. intros He. apply Hne.
  unfold atomic_events. by rewrite He.
Qed.

Lemma reg_ranges x : 0 <= x < 2 ^ 32 → is_u64 x ∧ is_u64 n ∧ x + n <= 2 ^ 64 ∧ n ≠ 0.
Proof using Hcan. destruct Hcan as [_ Hn _ _ _ _ _]. unfold is_u64; lia. Qed.

Lemma copied_to_intro m1 h1 m h :
  vread_inv pt m0 h0 buf src n m1 h1 → vwrite_inv pt m1 h1 buf dst n m h → copied_to m h.
Proof using Hcan.
  intros [_ Hs1 Hc Hb1 Hbuf _] [Hin Hs2 Hb2 Hwr Hot _]. destruct Hcan as [_ _ _ _ _ _ [Hserv _]].
  constructor; [| |done|by eapply same_memory_trans|intros q l; by rewrite Hb2].
  - intros i Hi. unfold vcontents at 1.
    destruct (EmulationPageTable.translate pt (dst + i)) as [x|] eqn:Hx.
    + rewrite (Hwr i x Hi Hx). by apply Hbuf.
    + by destruct (vserves_mapped pt m0 pk k dst n i Hserv Hi).
  - intros x Hx. by rewrite Hot, Hc.
Qed.

(** [idmaReadDone] on a quiet device whose buffer is filled. *)
Lemma idmaReadDone_ok now (s : t M) :
  configured s → quiet s → statusReg s = IDMA_BUSY →
  vread_inv pt m0 h0 buf src n (mem (world (dev s))) (heap_of s) →
  ∃ s', idmaReadDone (dmaWrite rng) now s = Ok s' ∧ configured s' ∧ in_write s'.
Proof using Hcan.
  intros [Hsrc Hdst Hsz Hbf Hfs Hpt Hidle] Hq Hst Hrd. unfold idmaReadDone.
  destruct Hcan as [[Hpk Hwf] Hn [_ Hd] _ [Hb Ho] _ [Hserv Hinj]].
  destruct (reg_ranges dst Hd) as (Hu1 & Hu2 & Hov & Hnz).
  destruct (newCallback WriteDone (dev s)) as [cb v] eqn:Hnew.
  destruct (quiet_tracks WriteDone cb s v Hq Hnew) as [Htr Hw].
  pose proof Hrd as [Hi Hsm _ Hbd _ _]. unfold translate. rewrite Hfs, Hpt, Hdst, Hsz, Hbf.
  fold (dmaWriteVirt (K := Callback) rng).
  destruct (dmaWriteVirt_ok rng pt pk k now dst n 0 buf cb WriteDone v)
    as (v' & -> & Htr' & Hne & Hidle' & Hwr); rewrite ?Hw; try done.
  { by rewrite <-Hw. }
  { by intros ?%(proj1 Hsm). }
  { by rewrite <-Hb; apply Hbd. }
  { intros z l ? ? ? ?. destruct (Hserv z l) as (pa & ? & ? & ?); try done. exists pa.
    split_and!; try done. by eapply serves_same. }
  rewrite res_bind_Ok. eexists. split; [done|]. split; [by constructor|].
  split; [by eapply tracks_waiting|]. split; [done|]. apply (copied_to_intro (mem (world (dev s))) (heap_of s)); [done|].
  unfold heap_of in *. by rewrite Hw in Hwr.
Qed.

Lemma idmaTransfer_ok now (s : t M) :
  configured s → quiet s → mem (world (dev s)) = m0 → heap_of s = h0 →
  Z.land (commandReg s) 1 ≠ 0 →
  ∃ s', idmaTransfer (dmaRead rng) now s = Ok s' ∧ configured s' ∧ in_read s'.
Proof using Hcan.
  intros [Hsrc Hdst Hsz Hbf Hfs Hpt Hidle] Hq Hm Hh Hcmd. unfold idmaTransfer.
  destruct Hcan as [[Hpk Hwf] Hn [Hs _] Hi [Hb Ho] Hserv _].
  destruct (reg_ranges src Hs) as (Hu1 & Hu2 & Hov & Hnz).
  destruct (Z.eqb_spec (Z.land (commandReg s) 1) 0); [done|]. unfold dmaPending. rewrite (idle_pending _ _ Hidle).
  change (0 <? 0) with false. cbv iota zeta. unfold heap_of in Hh.
  destruct (newCallback ReadDone (dev (set_status IDMA_BUSY s))) as [cb v] eqn:Hnew.
  destruct (quiet_tracks ReadDone cb (set_status IDMA_BUSY s) v) as [Htr Hw]; [by destruct Hq|done|].
  unfold translate. simpl in Hw |- *. rewrite Hfs, Hpt, Hsrc, Hsz, Hbf.
  fold (dmaReadVirt (K := Callback) rng).
  destruct (dmaReadVirt_ok rng pt pk k now src n 0 buf cb ReadDone v)
    as (v' & -> & Htr' & Hne & Hidle' & Hrd); rewrite ?Hw, ?Hm, ?Hh; try done.
  { by rewrite <-Hw. }
  rewrite res_bind_Ok. eexists. split; [done|]. split; [by constructor|].
  split; [by eapply tracks_waiting|]. split; [done|]. by rewrite Hw, Hm, Hh in Hrd.
Qed.

(** Taking one of the pending events off the list. *)
Lemma events_delete (i : nat) (e : positive) (now : Z) l :
  l !! i = Some (e, now) → l.*1 ≡ₚ e :: (delete i l).*1.
Proof. intros Hi. exact (fmap_Permutation fst _ _ (delete_Permutation l i (e, now) Hi)). Qed.

(** Running one of the pending chunk events. *)
Lemma chunkComplete_waiting f i e now (s : t M) :
  waiting f s → pending_events s !! i = Some (e, now) →
  let v := set_world (set_events (delete i (pending_events s)) (world (dev s))) (dev s) in
  ∃ v', world v' = world v ∧
    match delete i (pending_events s) with
    | [] => chunkComplete e v = Ok (Some f, v') ∧ quiet (set_dev v' s)
    | _ :: _ => chunkComplete e v = Ok (None, v') ∧ waiting f (set_dev v' s)
    end.
Proof.
  intros [[cb Htr] _] Hi v. pose proof (events_delete i e now _ Hi) as Hp.
  destruct (chunkComplete_tracks cb f _ e _ v (tracks_world _ _ _ _ _ Htr) Hp) as (v' & Hw & Hc).
  exists v'. split; [done|].
  assert (pending_events (set_dev v' s) = delete i (pending_events s)) as Hpe
    by (unfold pending_events at 1; simpl; by rewrite Hw).
  destruct (delete i (pending_events s)) as [|x l]; simpl in Hc.
  - destruct Hc as (? & ? & ?). split; [done|by constructor].
  - destruct Hc as [? Htr']. split; [done|]. unfold waiting. rewrite Hpe. split; [by exists cb|done].
Qed.

Lemma fire_configured i v' (s : t M) :
  configured s → world v' = set_events (delete i (pending_events s)) (world (dev s)) →
  configured (set_dev v' s).
Proof.
  intros [? ? ? ? ? ? [? ? ? ?]] Hw. constructor; try done. simpl. rewrite Hw. by constructor.
Qed.

(** A pending event of the read: the last one starts the write. *)
Lemma fire_reading i e now (s : t M) :
  configured s → in_read s → pending_events s !! i = Some (e, now) →
  ∃ s', fire (dmaWrite rng) i s = Ok s' ∧ configured s' ∧
    match delete i (pending_events s) with
    | [] => in_write s'
    | l => in_read s' ∧ pending_events s' = l
    end.
Proof using Hcan.
  intros Hcf (Hwt & Hst & Hrd) Hi. unfold fire. rewrite Hi.
  destruct (chunkComplete_waiting _ i e now s Hwt Hi) as (v' & Hw & Hcase). simpl in Hw.
  assert (vread_inv pt m0 h0 buf src n (mem (world v')) (heap (world v'))) as Hrd' by by rewrite Hw.
  pose proof (fire_configured i v' s Hcf Hw) as Hcf'.
  destruct (delete i (pending_events s)) as [|x l]; destruct Hcase as [-> Hnext]; rewrite res_bind_Ok.
  - by apply idmaReadDone_ok.
  - eexists. split; [done|]. split; [done|]. split; [by split_and!|].
    unfold pending_events. simpl. by rewrite Hw.
Qed.

(** A pending event of the write: the last one completes the copy. *)
Lemma fire_writing i e now (s : t M) :
  configured s → in_write s → pending_events s !! i = Some (e, now) →
  ∃ s', fire (dmaWrite rng) i s = Ok s' ∧ configured s' ∧
    match delete i (pending_events s) with
    | [] => finished s'
    | l => in_write s' ∧ pending_events s' = l
    end.
Proof using Hcan.
  intros Hcf (Hwt & Hst & Hct) Hi. unfold fire. rewrite Hi.
  destruct (chunkComplete_waiting _ i e now s Hwt Hi) as (v' & Hw & Hcase). simpl in Hw.
  assert (copied_to (mem (world v')) (heap (world v'))) as Hct' by by rewrite Hw.
  pose proof (fire_configured i v' s Hcf Hw) as Hcf'.
  destruct (delete i (pending_events s)) as [|x l]; destruct Hcase as [-> Hnext]; rewrite res_bind_Ok;
    eexists; (split; [done|]).
  - split; [by destruct Hcf'|]. by split; [destruct Hnext|].
  - split; [done|]. split; [by split_and!|]. unfold pending_events. simpl. by rewrite Hw.
Qed.

(** The runs of the pending events, in any order. *)
Definition fires (s s' : t M) : Prop :=
  ∃ i x, pending_events s !! i = Some x ∧ fire (dmaWrite rng) i s = Ok s'.

Lemma fires_phase s s' : configured s ∧ phase s → fires s s' → configured s' ∧ phase s'.
Proof using Hcan.
  intros [Hcf Hph] (i & [e now] & Hi & Hf). destruct Hph as [Hr|[Hw|[[_ _ He] _]]].
  - destruct (fire_reading i e now s Hcf Hr Hi) as (s2 & Hf2 & Hcf2 & Hn).
    assert (s2 = s') as -> by congruence. split; [done|].
    destruct (delete i (pending_events s)); [by right; left|left; apply Hn].
  - destruct (fire_writing i e now s Hcf Hw Hi) as (s2 & Hf2 & Hcf2 & Hn).
    assert (s2 = s') as -> by congruence. split; [done|]. right.
    destruct (delete i (pending_events s)); [by right|left; apply Hn].
  - by rewrite He in Hi.
Qed.

Lemma waiting_first f s : waiting f s → ∃ e now l, pending_events s = (e, now) :: l.
Proof. intros [_ Hne]. destruct (pending_events s) as [|[e now] l]; [done|]. eauto. Qed.

Lemma write_finishes l s :
  pending_events s = l → configured s → in_write s → ∃ s', rtc fires s s' ∧ finished s'.
Proof using Hcan.
  revert s. induction l as [|x l IH]; intros s Hl Hcf Hw;
    destruct (waiting_first _ s (proj1 Hw)) as (e & now & l' & Hl'); [congruence|].
  destruct (fire_writing 0 e now s Hcf Hw ltac:(by rewrite Hl')) as (s1 & Hf & Hcf1 & Hn).
  assert (fires s s1) as Hs by (exists 0%nat, (e, now); by rewrite Hl').
  rewrite Hl in Hn. simpl in Hn. destruct l as [|y l].
  - exists s1. split; [by apply rtc_once|done].
  - destruct Hn as [Hw1 He1]. destruct (IH s1 He1 Hcf1 Hw1) as (s2 & Hr & Hfin).
    exists s2. split; [by eapply rtc_l|done].
Qed.

Lemma read_finishes l s :
  pending_events s = l → configured s → in_read s → ∃ s', rtc fires s s' ∧ finished s'.
Proof using Hcan.
  revert s. induction l as [|x l IH]; intros s Hl Hcf Hw;
    destruct (waiting_first _ s (proj1 Hw)) as (e & now & l' & Hl'); [congruence|].
  destruct (fire_reading 0 e now s Hcf Hw ltac:(by rewrite Hl')) as (s1 & Hf & Hcf1 & Hn).
  assert (fires s s1) as Hs by (exists 0%nat, (e, now); by rewrite Hl').
  rewrite Hl in Hn. simpl in Hn. destruct l as [|y l].
  - destruct (write_finishes _ s1 eq_refl Hcf1 Hn) as (s2 & Hr & Hfin).
    exists s2. split; [by eapply rtc_l|done].
  - destruct Hn as [Hw1 He1]. destruct (IH s1 He1 Hcf1 Hw1) as (s2 & Hr & Hfin).
    exists s2. split; [by eapply rtc_l|done].
Qed.

Lemma phase_finishes s : configured s → phase s → ∃ s', rtc fires s s' ∧ finished s'.
Proof using Hcan.
  intros Hcf [H|[H|H]]; [by eapply read_finishes|by eapply write_finishes|].
  exists s. by split.
Qed.

Lemma phase_status s :
  phase s → (pending_events s = [] → finished s) ∧ (pending_events s ≠ [] → statusReg s = IDMA_BUSY).
Proof.
  intros [([_ Hl] & Hs & _)|[([_ Hl] & Hs & _)|Hf]]; [done|done|].
  split; [done|]. intros He. destruct Hf as [[_ _ ?] _]. done.
Qed.

Lemma fires_total i x s :
  configured s → phase s → pending_events s !! i = Some x → ∃ s', fire (dmaWrite rng) i s = Ok s'.
Proof using Hcan.
  destruct x as [e now]. intros Hcf [H|[H|[[_ _ He] _]]] Hi.
  - destruct (fire_reading i e now s Hcf H Hi) as (s' & ? & _). eauto.
  - destruct (fire_writing i e now s Hcf H Hi) as (s' & ? & _). eauto.
  - by rewrite He in Hi.
Qed.

End Copy.

(** Another heap with the same buffers of the memory and of the device. *)
Record same_buffers {M} {HM : ByteMemory M} (m : M) (buf : ptr) (h h' : hmem) : Prop := {
  sb_owned b i : owns m b → peek h' b i = peek h b i;
  sb_device i : peek h' (block buf) i = peek h (block buf) i;
  sb_bounds q l : in_bounds h' q l = in_bounds h q l;
}.

Lemma same_buffers_frame {M} {HM : ByteMemory M} (m0 m : M) buf h h' :
  same_memory m0 m → same_buffers m0 buf h h' → inv m h → inv m h' ∧ ∀ a, contents m h' a = contents m h a.
Proof. intros Hs [Ho _ Hb] Hi. apply memory_frame; [done| |done]. intros b i Hbo. by apply Ho, Hs. Qed.

Lemma waiting_heap {M} f (s : t M) h : waiting f s → waiting f (set_heap h s).
Proof. intros [[cb Htr] Hne]. split; [|done]. exists cb. by apply tracks_world. Qed.

(** While a copy goes on, other parts of the heap may change: the copy goes on as if
    it had been started with another heap, in which the memory was the same. *)
Lemma phase_heap {M} {HM : ByteMemory M} pk k src dst n buf pt (m0 : M) g s h' :
  can_copy pk k src dst n buf pt m0 g → configured k src dst n buf pt s → phase src dst n buf pt m0 g s →
  same_buffers m0 buf (heap_of s) h' →
  ∃ g', can_copy pk k src dst n buf pt m0 g' ∧ (∀ a, contents m0 g' a = contents m0 g a) ∧
    configured k src dst n buf pt (set_heap h' s) ∧ phase src dst n buf pt m0 g' (set_heap h' s).
Proof.
  intros Hcan Hcf Hph Hsb. pose proof Hsb as [Ho Hd Hb]. pose proof Hcan as [? ? ? Hi [Hbuf Hnb] Hsrc Hdst].
  assert (configured k src dst n buf pt (set_heap h' s)) as Hcf' by (by destruct Hcf).
  assert (copied_to src dst n pt m0 g (mem (world (dev s))) (heap_of s) →
    copied_to src dst n pt m0 g (mem (world (dev s))) h') as Hct.
  { intros [Hc Hr Hi' Hs Hbd]. destruct (same_buffers_frame m0 _ buf _ _ Hs Hsb Hi') as [Hi2 Hco].
    constructor; try done.
    - intros i Hi0. rewrite <-Hc by done. unfold vcontents. by destruct (EmulationPageTable.translate pt (dst + i)).
    - intros x Hx. by rewrite Hco, Hr.
    - intros q l. by rewrite Hb. }
  destruct Hph as [(Hw & Hst & [Hi' Hs Hc Hbd Hbf Hfr])|[(Hw & Hst & Hc)|(Hq & Hst & Hc)]].
  - destruct (same_buffers_frame m0 _ buf _ _ Hs Hsb Hi') as [Hi2 Hco].
    destruct (memory_frame m0 g h' Hi) as [Hig Hcg].
    { intros b i Hbo. rewrite Ho by done. apply Hfr. by intros ->. }
    { intros q l _. by rewrite Hb. }
    exists h'. split; [constructor; try done; split; [by rewrite Hb, Hbd|done]|]. split; [done|]. split; [done|].
    left. split; [by apply waiting_heap|]. split; [done|]. constructor; try done.
    + intros x. simpl. by rewrite Hco, Hc, Hcg.
    + intros i Hi0. unfold heap_of. simpl. rewrite Hd, Hbf by done. unfold vcontents.
      by destruct (EmulationPageTable.translate pt (src + i)).
  - exists g. split_and!; try done. right. left. split; [by apply waiting_heap|]. split; [done|]. by apply Hct.
  - exists g. split_and!; try done. right. right. split; [by destruct Hq|]. split; [done|]. by apply Hct.
Qed.

(** In every phase the memory is the one of the start, in a state of its invariant. *)
Lemma phase_memory {M} {HM : ByteMemory M} src dst n buf pt (m0 : M) g (s : t M) :
  phase src dst n buf pt m0 g s →
  inv (mem (world (dev s))) (heap_of s) ∧ same_memory m0 (mem (world (dev s))) ∧ ∀ q l, in_bounds (heap_of s) q l = in_bounds g q l.
Proof. by intros [(_ & _ & [])|[(_ & _ & [])|(_ & _ & [])]]. Qed.

(** A 4-byte access to the register at [off]. *)
Record reg_access {M : Type} (s : t M) (off : Z) (p : Packet.t) (d : ptr) : Prop := {
  ra_addr : ∃ a, Packet.getAddr p = Ok a ∧ u64 (a - regBase s) = off;
  ra_buffer : Packet.has_buffer (heap_of s) p d 4;
  ra_request : Packet.needsResponse p = true;
}.

(** From [s1] on, whatever the order in which the pending events run, none fails,
    the status register reads busy as long as one is pending, and once none is,
    which is always reached, it reads complete and [post] holds. *)
Definition runs_to {M} {HM : ByteMemory M} (rng : nat → Z) (s1 : t M) (post : t M → Prop) : Prop :=
  ∀ s2, rtc (fires rng) s1 s2 →
    (∀ i x, pending_events s2 !! i = Some x → ∃ s3, fire (dmaWrite rng) i s2 = Ok s3) ∧
    (pending_events s2 ≠ [] → statusReg s2 = IDMA_BUSY) ∧
    (pending_events s2 = [] → statusReg s2 = IDMA_COMPLETE ∧ post s2) ∧
    ∃ s3, rtc (fires rng) s2 s3 ∧ pending_events s3 = [].

(** A command written to a device at rest. *)
Record command {M : Type} (k : Z) (p : Packet.t) (d : ptr) (v : Z) (s : t M) : Prop := {
  co_quiet : quiet s;
  co_mode : fullSystem s = false;
  co_idle : idle k (port (world (dev s)));
  co_access : reg_access s REG_COMMAND_OFFSET p d;
  co_value : Packet.getLE (heap_of s) 4 p = Ok v;
  co_start : Z.land v 1 ≠ 0;
}.

Lemma command_starts {M} {HM : ByteMemory M} rng pk k now p d v (s : t M) :
  let m0 := mem (world (dev s)) in
  command k p d v s →
  can_copy pk k (srcAddrReg s) (dstAddrReg s) (sizeReg s) (dmaBuffer s) (pTable s) m0 (heap_of s) →
  ∃ p' s1, write (dmaRead rng) now p s = Ok (p', s1, 10) ∧
    configured k (srcAddrReg s) (dstAddrReg s) (sizeReg s) (dmaBuffer s) (pTable s) s1 ∧
    in_read (srcAddrReg s) (sizeReg s) (dmaBuffer s) (pTable s) m0 (heap_of s) s1.
Proof.
  intros m0 [Hq Hfs Hidle [(a & Ha & Hoff) Hbuf Hreq] Hv Hbit] Hcan.
  set (s0 := set_regs (srcAddrReg s) (dstAddrReg s) (sizeReg s) v (statusReg s) s).
  destruct (idmaTransfer_ok rng pk k _ _ _ _ _ _ _ Hcan now s0) as (s1 & Hrun & Hcf & Hph);
    [by constructor|by destruct Hq|done|done|done|].
  unfold write. rewrite Ha, res_bind_Ok, (Packet.getSize_buffer _ _ _ _ Hbuf), res_bind_Ok, Hoff.
  simpl. rewrite Hv, res_bind_Ok. fold s0. destruct (Z.eqb_spec (Z.land v 1) 0); [done|].
  simpl in Hrun. rewrite Hrun, res_bind_Ok, (AbstractMemory.makeResponse_Ok p Hreq), res_bind_Ok. eauto.
Qed.

Lemma command_copies {M} {HM : ByteMemory M} rng pk k now p d v (s : t M) :
  let m0 := mem (world (dev s)) in
  command k p d v s →
  can_copy pk k (srcAddrReg s) (dstAddrReg s) (sizeReg s) (dmaBuffer s) (pTable s) m0 (heap_of s) →
  ∃ p' s1, write (dmaRead rng) now p s = Ok (p', s1, 10) ∧ statusReg s1 = IDMA_BUSY ∧
    runs_to rng s1 (λ s2,
      copied_to (srcAddrReg s) (dstAddrReg s) (sizeReg s) (pTable s) m0 (heap_of s)
        (mem (world (dev s2))) (heap_of s2)).
Proof.
  intros m0 Hc Hcan. destruct (command_starts rng pk k now p d v s Hc Hcan) as (p' & s1 & Hw & Hcf & Hph).
  exists p', s1. split; [done|]. split; [apply Hph|]. intros s2 Hrtc.
  assert (configured k (srcAddrReg s) (dstAddrReg s) (sizeReg s) (dmaBuffer s) (pTable s) s2 ∧
    phase (srcAddrReg s) (dstAddrReg s) (sizeReg s) (dmaBuffer s) (pTable s) m0 (heap_of s) s2)
    as [Hcf2 Hph2].
  { assert (phase (srcAddrReg s) (dstAddrReg s) (sizeReg s) (dmaBuffer s) (pTable s) m0 (heap_of s) s1)
      as Hph1 by by left. clear Hph Hw. revert Hcf Hph1.
    induction Hrtc as [|s1 s2 s3 Hst Hrtc IH]; [done|]. intros Hcf Hph1.
    destruct (fires_phase rng pk k _ _ _ _ _ _ _ Hcan s1 s2 (conj Hcf Hph1) Hst). by apply IH. }
  destruct (phase_status _ _ _ _ _ _ _ s2 Hph2) as [Hdone Hbusy]. split_and!; try done.
  - intros i x Hi. by eapply (fires_total rng pk k).
  - intros He. destruct (Hdone He) as (_ & ? & ?). done.
  - destruct (phase_finishes rng pk k _ _ _ _ _ _ _ Hcan s2 Hcf2 Hph2) as (s3 & Hr & [[_ _ ?] _]).
    eauto.
Qed.

(** C4: writing a command with its low bit set starts the copy programmed in the
    registers.  It goes through the device's buffer, page by page and block by
    block, whatever the order in which the completion events run: none of them
    fails, the status register reads busy as long as one is pending, and once
    none is pending, which is always reached, it reads complete and each byte of
    the destination holds the byte the source held when the copy was started,
    while all other physical memory is unchanged. *)
Theorem idma_copy {M} {HM : ByteMemory M} rng pk k now p d v (s : t M) :
  let m0 := mem (world (dev s)) in
  command k p d v s →
  can_copy pk k (srcAddrReg s) (dstAddrReg s) (sizeReg s) (dmaBuffer s) (pTable s) m0 (heap_of s) →
  ∃ p' s1, write (dmaRead rng) now p s = Ok (p', s1, 10) ∧ statusReg s1 = IDMA_BUSY ∧
    runs_to rng s1 (λ s2,
      copied_to (srcAddrReg s) (dstAddrReg s) (sizeReg s) (pTable s) m0 (heap_of s)
        (mem (world (dev s2))) (heap_of s2)).
Proof. intros. by apply (command_copies rng pk k now p d v). Qed.

(** The registers stay where they are. *)
Lemma transfer_base {M} (dmaRead : DmaFn (M := M)) now (s s' : t M) : idmaTransfer dmaRead now s = Ok s' → regBase s' = regBase s.
Proof.
  unfold idmaTransfer. destruct (_ =? 0); [by intros [= <-]|]. destruct (dmaPending _); [by intros [= <-]|].
  destruct (newCallback _ _) as [cb v]. intros H. by inv_res H.
Qed.

Lemma write_base {M} (dmaRead : DmaFn (M := M)) now p (s : t M) p' s' d :
  write dmaRead now p s = Ok (p', s', d) → regBase s' = regBase s.
Proof.
  unfold write. intros H. do 2 (apply bind_Ok in H as (? & _ & H)). apply bind_Ok in H as (s1 & H1 & H). inv_res H.
  repeat match type of H1 with (if ?b then _ else _) = _ => destruct b end; inv_res H1; try done.
  destruct (_ =? 0); [by inv_res H1|]. by apply transfer_base in H1.
Qed.

Lemma fire_base {M} (dmaWrite : DmaFn (M := M)) i (s s' : t M) : fire dmaWrite i s = Ok s' → regBase s' = regBase s.
Proof.
  unfold fire. destruct (pending_events s !! i) as [[e now]|]; [|by intros [= <-]]. intros H. apply bind_Ok in H as ([f v] & _ & H).
  destruct f as [[]|]; [|by inv_res H..]. unfold idmaReadDone in H. destruct (newCallback _ _) as [cb v1]. by inv_res H.
Qed.

(** Both accesses answer their packet. *)
Lemma read_response {M} p (s : t M) p' s' d : read p s = Ok (p', s', d) → Packet.makeResponse p = Ok p'.
Proof. unfold read. intros H. do 3 (apply bind_Ok in H as (? & _ & H)). by inv_res H. Qed.

Lemma write_response {M} dmaRead now p (s : t M) p' s' d : write dmaRead now p s = Ok (p', s', d) → Packet.makeResponse p = Ok p'.
Proof. unfold write. intros H. do 3 (apply bind_Ok in H as (? & _ & H)). by inv_res H. Qed.

(** ** A small system: the memory of [DmaPort.demo], mapped at 0x2000 with pages
    of 64 bytes, a DMA buffer and the data of a command packet. *)

Definition demo_pt : EmulationPageTable.t :=
  match EmulationPageTable.map 0x2000 0x1000 256 0 (EmulationPageTable.mk ∅ 64 63) with
  | Ok pt => pt
  | Fail _ => EmulationPageTable.mk ∅ 64 63
  end.

Lemma demo_pt_spec :
  EmulationPageTable.wf 6 demo_pt ∧
  ∀ x, 0 <= x < 256 → EmulationPageTable.translate demo_pt (0x2000 + x) = Some (0x1000 + x).
Proof.
  assert (EmulationPageTable.wf 6 (EmulationPageTable.mk ∅ 64 63)) as Hwf by by constructor.
  destruct (EmulationPageTable.map_region 6 0x2000 0x1000 256 0 (EmulationPageTable.mk ∅ 64 63))
    as (pt & Hm & Hwf' & Ht & _); [lia|done|done|lia|lia|auto with width| |].
  { right. intros x Hx. rewrite (EmulationPageTable.translate_eq 6 ltac:(lia))
      by (done || auto with width). done. }
  assert (demo_pt = pt) as ->.
  { unfold demo_pt. by rewrite Hm. }
  split; [done|]. intros x Hx. rewrite Ht by done. f_equal. apply u64_small. auto with width.
Qed.

Definition demo_heap : hmem := <[5%positive := [1; 0; 0; 0]]> DmaPort.demo_heap.

(** A copy of 100 bytes from 0x2004 to 0x2080 is programmed. *)
Definition demo : t SimpleMemory.t :=
  mk 0x80060000 0x2004 0x2080 100 0 0 (Ptr 4 0) false demo_pt
     (DmaVirtDevice.mk ∅ ∅ (mkWorld (DmaPort.create 7 64) (mem DmaPort.demo) demo_heap 0)).

Definition demo_command : Packet.t :=
  Packet.mk (Z.lor (Z.lor Packet.VALID_ADDR Packet.VALID_SIZE) Packet.STATIC_DATA) MemCmd.WriteReq
    (Request.create_phys 0 0x8006000c 4 0 1) (Some (Ptr 5 0)) 0x8006000c false 4 []
    0 Packet.NO_FAIL 0 0 0 0 [].

Lemma demo_vserves a n :
  0x2000 <= a → a + n <= 0x2100 → vserves demo_pt (mem DmaPort.demo) 6 6 a n.
Proof.
  intros Ha Hn z l Hz Hl Hle _. exists (0x1000 + (a + z - 0x2000)).
  replace (a + z) with (0x2000 + (a + z - 0x2000)) at 1 by lia.
  split; [apply demo_pt_spec; lia|]. split; [lia|]. apply DmaPort.demo_serves; lia.
Qed.

Lemma demo_can_copy :
  can_copy 6 6 0x2004 0x2080 100 (Ptr 4 0) demo_pt (mem DmaPort.demo) demo_heap.
Proof.
  constructor; [split; [lia|apply demo_pt_spec]|lia|lia| | |apply demo_vserves; lia|split].
  - exists (Ptr 1 0). split; [|done]. constructor; simpl; try done.
    constructor; [discriminate|]. constructor; [discriminate|constructor].
  - split; [vm_compute; reflexivity|]. intros Ho%DmaPort.demo_owns. discriminate Ho.
  - apply demo_vserves; lia.
  - intros i j x Hi Hj. replace (0x2080 + i) with (0x2000 + (0x80 + i)) by lia.
    replace (0x2080 + j) with (0x2000 + (0x80 + j)) by lia.
    rewrite !(proj2 demo_pt_spec) by lia. intros [= <-] [= Heq]. lia.
Qed.

Lemma demo_starts : command 6 demo_command (Ptr 5 0) 1 demo.
Proof.
  constructor; [by constructor|done|constructor; simpl; done || lia| |done|done].
  constructor; [exists 0x8006000c; split; reflexivity|constructor; reflexivity|reflexivity].
Qed.

Lemma idma_copy_witness :
  ∃ p' s1 s3, write (dmaRead (λ _, 0)) 5 demo_command demo = Ok (p', s1, 10) ∧ rtc (fires (λ _, 0)) s1 s3 ∧
    statusReg s3 = IDMA_COMPLETE ∧
    vcontents demo_pt (mem (world (dev s3))) (heap_of s3) 0x2083 = Some 7.
Proof.
  destruct (idma_copy (λ _, 0) 6 6 5 demo_command (Ptr 5 0) 1 demo)
    as (p' & s1 & Hw & _ & Hrun).
  - exact demo_starts.
  - exact demo_can_copy.
  - destruct (Hrun s1 (rtc_refl _ _)) as (_ & _ & _ & s3 & Hr & He).
    destruct (Hrun s3 Hr) as (_ & _ & Hfin & _). destruct (Hfin He) as [Hst [Hc _]].
    exists p', s1, s3. split; [exact Hw|]. split; [exact Hr|]. split; [exact Hst|].
    specialize (Hc 3 ltac:(simpl; lia)). etransitivity; [exact Hc|]. vm_compute. reflexivity.
Defined.

(** ** Registers *)

Lemma keep_low_half x v :
  0 <= x < 2 ^ 32 → 0 <= v < 2 ^ 32 → u32 (Z.lor (Z.land x 0xFFFFFFFF00000000) v) = v.
Proof.
  intros Hx Hv. assert (Z.land x 0xFFFFFFFF00000000 = 0) as ->.
  { apply Z.bits_inj'. intros i Hi. rewrite Z.land_spec, Z.bits_0.
    destruct (Z_lt_le_dec i 32); [|by rewrite (testbit_high x 32)].
    change 0xFFFFFFFF00000000 with (Z.shiftl 0xFFFFFFFF 32).
    rewrite Z.shiftl_spec_low by lia. apply andb_false_r. }
  rewrite Z.lor_0_l. unfold u32. by apply Z.mod_small.
Qed.

Lemma put_get {M : Type} v p d (s : t M) :
  Packet.has_buffer (heap_of s) p d 4 → 0 <= v < 2 ^ 32 →
  ∃ s', put 4 v p s = Ok s' ∧ Packet.getLE (heap_of s') 4 p = Ok v.
Proof.
  intros Hb Hv. unfold put, Packet.setLE.
  destruct (Packet.set_value_Ok (heap_of s) 4 v little p d Hb) as [h Hh]. rewrite Hh, res_bind_Ok.
  eexists. split; [done|]. by eapply Packet.set_value_get; [exact Hb|do 2 right; left|done|exact Hh].
Qed.

(** A 32-bit value written to the status, source, destination or size
    register is read back from it. *)
Theorem register_roundtrip {M} {HM : ByteMemory M} rng now off p d q dq v (s : t M) :
  off ∈ [REG_STATUS_OFFSET; REG_SRC_ADDR_OFFSET; REG_DST_ADDR_OFFSET; REG_SIZE_OFFSET] →
  0 <= srcAddrReg s < 2 ^ 32 → 0 <= dstAddrReg s < 2 ^ 32 → 0 <= v < 2 ^ 32 →
  reg_access s off p d → Packet.getLE (heap_of s) 4 p = Ok v → reg_access s off q dq →
  ∃ p' s1 q' s2, write (dmaRead rng) now p s = Ok (p', s1, 10) ∧ read q s1 = Ok (q', s2, 10) ∧
    Packet.getLE (heap_of s2) 4 q = Ok v.
Proof.
  intros Hoff Hsrc Hdst Hv [(a & Ha & Hao) Hbp Hrp] Hget [(b & Hb & Hbo) Hbq Hrq].
  unfold write. rewrite Ha, res_bind_Ok, (Packet.getSize_buffer _ _ _ _ Hbp), res_bind_Ok, Hao.
  rewrite (AbstractMemory.makeResponse_Ok p Hrp).
  assert (∀ s1 : t M, heap_of s1 = heap_of s → regBase s1 = regBase s →
    (if off =? REG_STATUS_OFFSET then statusReg s1 else
     if off =? REG_SRC_ADDR_OFFSET then srcAddrReg s1 else
     if off =? REG_DST_ADDR_OFFSET then dstAddrReg s1 else sizeReg s1) = v →
    ∃ q' (s2 : t M), read q s1 = Ok (q', s2, 10) ∧ Packet.getLE (heap_of s2) 4 q = Ok v) as Hread.
  { intros s1 Hh Hr Hreg. rewrite <-Hh in Hbq.
    destruct (put_get v q dq s1 Hbq Hv) as (s2 & Hput & Hg).
    unfold read. rewrite Hb, res_bind_Ok, (Packet.getSize_buffer _ _ _ _ Hbq), res_bind_Ok, Hr, Hbo.
    rewrite (AbstractMemory.makeResponse_Ok q Hrq).
    assert (u32 v = v) as Hu by by apply Z.mod_small. rewrite !elem_of_cons in Hoff.
    destruct Hoff as [->|[->|[->|[->|Hnil%not_elem_of_nil]]]]; [..|done];
      simpl in Hreg |- *; rewrite Hreg, ?Hu, Hput; simpl; eauto. }
  rewrite !elem_of_cons in Hoff.
  destruct Hoff as [->|[->|[->|[->|Hnil%not_elem_of_nil]]]]; [..|done];
    simpl; rewrite Hget; simpl; eexists _, _;
    (edestruct Hread as (q' & s2 & Hrd & Hg); [| | |exists q', s2; split_and!; [done|exact Hrd|done]]);
    try done; simpl; by apply keep_low_half.
Qed.

(** A status read: 4 bytes at offset 0x10, into the data of the command. *)
Definition demo_status (c : MemCmd.Command) : Packet.t :=
  Packet.mk (Z.lor (Z.lor Packet.VALID_ADDR Packet.VALID_SIZE) Packet.STATIC_DATA) c
    (Request.create_phys 0 0x80060010 4 0 1) (Some (Ptr 5 0)) 0x80060010 false 4 []
    0 Packet.NO_FAIL 0 0 0 0 [].

Lemma register_roundtrip_witness :
  ∃ p' s1 q' s2, write (dmaRead (λ _, 0)) 5 (demo_status MemCmd.WriteReq) demo = Ok (p', s1, 10) ∧
    read (demo_status MemCmd.ReadReq) s1 = Ok (q', s2, 10) ∧
    Packet.getLE (heap_of s2) 4 (demo_status MemCmd.ReadReq) = Ok 1.
Proof.
  apply (register_roundtrip (λ _, 0) 5 REG_STATUS_OFFSET (demo_status MemCmd.WriteReq) (Ptr 5 0)
    (demo_status MemCmd.ReadReq) (Ptr 5 0) 1 demo); [by left|simpl; lia|simpl; lia|lia| |reflexivity|].
  - constructor; [exists 0x80060010; split; reflexivity| |reflexivity]. constructor; reflexivity.
  - constructor; [exists 0x80060010; split; reflexivity| |reflexivity]. constructor; reflexivity.
Defined.

(** Running the first pending event [n] times. *)
Fixpoint fire_first {M} {HM : ByteMemory M} (rng : nat → Z) (n : nat) (s : t M) : res (t M) :=
  match n with O => Ok s | S n => s ← fire (dmaWrite rng) 0 s; fire_first rng n s end.

(** A second command given while the events of the first copy are pending is
    accepted ([dmaPending()] is false in atomic mode as soon as the packets are
    answered), overwrites the buffer and the registers, and the first copy is
    lost: the status reads complete and byte 0x2083 still holds 0x83. *)
Lemma second_command_loses_copy :
  ('(_, s, _) ← write (dmaRead (λ _, 0)) 5 demo_command demo;
   '(_, s, _) ← write (dmaRead (λ _, 0)) 6 demo_command
      (set_regs 0x2000 0x20f0 8 (commandReg s) (statusReg s) s);
   s ← fire_first (λ _, 0) 20 s;
   Ok (statusReg s, pending_events s,
       vcontents demo_pt (mem (world (dev s))) (heap_of s) 0x2083)) =
  Ok (IDMA_COMPLETE, [], Some 0x83).
Proof. vm_compute. reflexivity. Qed.

(** A 64-bit write to the source register keeps the low half only. *)
Lemma source_register_truncates {M} {HM : ByteMemory M} rng now p d a v (s : t M) :
  Packet.getAddr p = Ok a → u64 (a - regBase s) = REG_SRC_ADDR_OFFSET →
  Packet.has_buffer (heap_of s) p d 8 → Packet.needsResponse p = true →
  Packet.getLE (heap_of s) 8 p = Ok v →
  ∃ p' s1, write (dmaRead rng) now p s = Ok (p', s1, 10) ∧ srcAddrReg s1 = u32 v.
Proof.
  intros Ha Ho Hb Hr Hv. unfold write.
  rewrite Ha, res_bind_Ok, (Packet.getSize_buffer _ _ _ _ Hb), res_bind_Ok, Ho. simpl.
  rewrite Hv. simpl. rewrite (AbstractMemory.makeResponse_Ok p Hr). simpl. eauto.
Qed.

End IDMA.
