(* ===== verification/IdmaTiming.v ===== *)
(** The iDMA device in timing mode, the mode of the hybrid memory configuration:
    its port sends one packet per cycle, the memories answer when they want to,
    and a copy runs through all of this interleaved with the passing of time. *)

From S2P Require Import Prelude Bits ChunkGen Host Request MemCmd Packet AbstractMem MemInterface.
From S2P Require Import PageTable Dma DmaTiming DmaVirt DmaPeer Idma.
Import Host DmaPort DmaVirtDevice DmaPeer IDMA.
Import DmaTiming(owed).

Module IdmaTiming.

Section Runs.

Context {M : Type} {HM : ByteMemory M} (rng : nat → Z) (acc : nat → bool) (edge : Z → Z).

(** The device, its port and what is behind it, at a time. *)
Record sys := mkSys {
  now : Z;
  st : IDMA.t (peer M);
}.

Definition wof (s : IDMA.t (peer M)) : World (peer M) := world (dev s).

Definition set_w (w : World (peer M)) (s : IDMA.t (peer M)) : IDMA.t (peer M) :=
  set_dev (set_world w (dev s)) s.

(** What happens to the device: its port sends a packet, which the peer accepts or
    not, or sends again when the peer asks for it; a response arrives; or one of
    its completion events runs. *)
Inductive action :=
  | Send (accepted : bool)
  | Retry (accepted : bool)
  | Respond (j : nat) (hd pd : Z)
  | Fire (i : nat).

Definition enabled (c : sys) (x : action) : Prop :=
  match x with
  | Send _ => sendEvent (port (wof (st c))) = Some (now c)
  | Retry _ => retryPending (port (wof (st c))) = true
  | Respond j _ _ => is_Some (inflight (mem (wof (st c))) !! j)
  | Fire i => ∃ e, pending_events (st c) !! i = Some (e, now c)
  end.

Definition perform (c : sys) (x : action) : res (IDMA.t (peer M)) :=
  match x with
  | Send accepted => w ← send rng edge (now c) accepted (wof (st c)); Ok (set_w w (st c))
  | Retry accepted => w ← retry rng edge (now c) accepted (wof (st c)); Ok (set_w w (st c))
  | Respond j hd pd => w ← respond (now c) j hd pd (wof (st c)); Ok (set_w w (st c))
  | Fire i => fire (dmaWrite rng acc edge) i (st c)
  end.

Inductive step : sys → sys → Prop :=
  | step_time c n :
      now c <= n → (∀ x, sendEvent (port (wof (st c))) = Some x → n <= x) →
      (∀ e, e ∈ pending_events (st c) → n <= e.2) →
      step c (mkSys n (st c))
  | step_action c x s' :
      enabled c x → perform c x = Ok s' → step c (mkSys (now c) s').

(** The device and its port have nothing left to do. *)
Record resting (s : IDMA.t (peer M)) : Prop := {
  rs_quiet : quiet s;
  rs_states : states (port (wof s)) = ∅;
  rs_list : transmitList (port (wof s)) = [];
  rs_flight : inflight (mem (wof s)) = [];
  rs_send : sendEvent (port (wof s)) = None;
  rs_retry : retryPending (port (wof s)) = false ∧ inRetry (port (wof s)) = None;
}.

(** In all runs from [c0], nothing that happens fails, the status register reads
    busy until it reads complete, the device is at rest and [post] holds when it
    does, and that can always be reached. *)
Definition completes (c0 : sys) (post : IDMA.t (peer M) → Prop) : Prop :=
  ∀ c, rtc step c0 c →
    (∀ x, enabled c x → ∃ s', perform c x = Ok s') ∧
    (statusReg (st c) = IDMA_BUSY ∨ statusReg (st c) = IDMA_COMPLETE ∧ resting (st c) ∧ post (st c)) ∧
    ∃ c', rtc step c c' ∧ statusReg (st c') = IDMA_COMPLETE.

(** ** A copy *)

Context (Hedge : ∀ x, x <= edge x).
Context (pk k src dst n : Z) (buf : ptr) (pt : EmulationPageTable.t) (m0 : M) (h0 : hmem).
Context (Hcan : can_copy pk k src dst n buf pt m0 h0).

Record configured (s : IDMA.t (peer M)) : Prop := {
  cf_src : srcAddrReg s = src;
  cf_dst : dstAddrReg s = dst;
  cf_size : sizeReg s = n;
  cf_buf : dmaBuffer s = buf;
  cf_fs : fullSystem s = false;
  cf_pt : pTable s = pt;
}.

(** Some transfer of the phase has not been reported to its callback. *)
Definition waiting (f : Callback) (s : IDMA.t (peer M)) : Prop :=
  (∃ cb, tracks cb f (evs (wof s)) (dev s)) ∧ evs (wof s) ≠ [] ∧ statusReg s = IDMA_BUSY.

Definition reading (c : sys) : Prop :=
  waiting ReadDone (st c) ∧
  tinv MemCmd.ReadReq pt k src n buf m0 (rmoved pt src n buf m0 h0) n (now c) (wof (st c)).

Definition writing (c : sys) : Prop :=
  waiting WriteDone (st c) ∧
  ∃ m1 h1, rmoved pt src n buf m0 h0 (λ i, 0 <= i < n) m1 h1 ∧
    tinv MemCmd.WriteReq pt k dst n buf m1 (wmoved pt dst n buf m1 h1) n (now c) (wof (st c)).

(** The port has nothing left to do. *)
Record at_rest (w : World (peer M)) : Prop := {
  ar_states : states (port w) = ∅;
  ar_list : transmitList (port w) = [];
  ar_flight : inflight (mem w) = [];
  ar_events : events (port w) = [];
}.

Definition copied (s : IDMA.t (peer M)) : Prop :=
  copied_to src dst n pt m0 h0 (memory (mem (wof s))) (heap_of s).

Definition finished (c : sys) : Prop :=
  DmaTiming.ok k (sys_of (now c) (wof (st c))) ∧ at_rest (wof (st c)) ∧
  (callbacks (dev (st c)) = ∅ ∧ chunkEvents (dev (st c)) = ∅) ∧
  statusReg (st c) = IDMA_COMPLETE ∧ copied (st c).

Definition phase (c : sys) : Prop := configured (st c) ∧ (reading c ∨ writing c ∨ finished c).

Lemma copy_size : 0 < n < 2 ^ 32.
Proof using Hcan. apply Hcan. Qed.

Lemma copy_regs x : 0 <= x < 2 ^ 32 → is_u64 x ∧ is_u64 n ∧ x + n <= 2 ^ 64 ∧ n ≠ 0.
Proof using Hcan. pose proof copy_size. unfold is_u64. lia. Qed.

(** Giving the ranges of a region to the port. *)
Lemma region_advances c a m1 (P : (Z → Prop) → M → hmem → Prop) t :
  moves c pt a n buf m1 P → dma_command c → vserves pt m1 pk k a n →
  vadvances evs (dmaAction rng acc edge c) pt pk t a n 0 buf (λ z w, tinv c pt k a n buf m1 P z t w).
Proof using Hcan Hedge.
  intros HP Hc Hserv z e r w Hr Hva Hz Hsz Hle Hnew Hi.
  destruct (range_serves pt m1 pk k a n z r) as (Hpa & Hend & Hs & Htr); try done.
  apply (action_tinv rng c pt k a n buf m1 P HP acc edge Hedge (proj2 copy_size)); try done.
Qed.

Lemma start_region c a m1 P t f (s : IDMA.t (peer M)) cb v :
  moves c pt a n buf m1 P → dma_command c → vserves pt m1 pk k a n → 0 <= a < 2 ^ 32 →
  callbacks (dev s) = ∅ → chunkEvents (dev s) = ∅ → newCallback f (dev s) = (cb, v) →
  DmaTiming.ok k (sys_of t (wof s)) → at_rest (wof s) → P (λ _, False) (memory (mem (wof s))) (heap_of s) →
  ∃ v', dmaVirt (dmaAction rng acc edge c) (Ok pt) t a n cb buf 0 v = Ok v' ∧
    tracks cb f (evs (world v')) v' ∧ evs (world v') ≠ [] ∧ tinv c pt k a n buf m1 P n t (world v').
Proof using Hcan Hedge.
  intros HP Hc Hserv Ha Hcb Hce Hnew Hok [Hst Htl Hfl Hev] HP0.
  destruct (tracks_new cb f (dev s) v Hcb Hce Hnew) as [Htr Hw].
  destruct (copy_regs a Ha) as (Hu1 & Hu2 & Hov & Hnz).
  destruct (cc_pages _ _ _ _ _ _ _ _ _ Hcan) as [Hpk Hwf].
  apply (dmaVirt_loop evs (dmaAction rng acc edge c) pt pk t a n 0 buf cb f
    (λ z w, tinv c pt k a n buf m1 P z t w) v); try done.
  - intros x Hx. by eapply vserves_mapped.
  - by apply region_advances.
  - assert (evs (world v) = []) as ->; [|done]. rewrite Hw. unfold evs. unfold wof in *.
    rewrite Hev, Hst. unfold owed. by rewrite map_to_list_empty.
  - rewrite Hw. by apply (tinv_start c pt k a n buf m1 P HP).
Qed.

(** [idmaReadDone] once all bytes are in the buffer. *)
Lemma readDone_ok t (s : IDMA.t (peer M)) :
  configured s → callbacks (dev s) = ∅ → chunkEvents (dev s) = ∅ → statusReg s = IDMA_BUSY →
  DmaTiming.ok k (sys_of t (wof s)) → at_rest (wof s) →
  rmoved pt src n buf m0 h0 (λ i, 0 <= i < n) (memory (mem (wof s))) (heap_of s) →
  ∃ s', idmaReadDone (dmaWrite rng acc edge) t s = Ok s' ∧ configured s' ∧ writing (mkSys t s').
Proof using Hcan Hedge.
  intros [Hsrc Hdst Hsz Hbf Hfs Hpt] Hcb Hce Hbusy Hok Hrest Hrd. unfold idmaReadDone.
  destruct (newCallback WriteDone (dev s)) as [cb v] eqn:Hnew.
  unfold translate. rewrite Hfs, Hpt, Hdst, Hsz, Hbf.
  pose proof Hcan as [_ _ [_ Hd] _ [Hb Ho] _ [Hserv Hinj]]. pose proof Hrd as [Hi Hsm _ Hbd _ _].
  destruct (start_region MemCmd.WriteReq dst (memory (mem (wof s)))
    (wmoved pt dst n buf (memory (mem (wof s))) (heap_of s)) t WriteDone s cb v)
    as (v' & Hrun & Htr & Hne & Hti); try done.
  - apply wmoved_moves; [by intros ?%(proj1 Hsm)|by rewrite Hbd|done].
  - by right.
  - intros z l ? ? ? ?. destruct (Hserv z l) as (pa & ? & ? & ?); try done. exists pa.
    split_and!; try done. by eapply serves_same.
  - unfold dmaWrite. rewrite Hrun, res_bind_Ok. eexists. split; [done|]. split; [by constructor|].
    split; [by split_and!; [exists cb| |]|]. exists (memory (mem (wof s))), (heap_of s). done.
Qed.

(** ** Steps *)

(** A completion event is run. *)
Lemma fire_tracks f i e t (s : IDMA.t (peer M)) :
  waiting f s → pending_events s !! i = Some (e, t) →
  let w := set_events (delete i (pending_events s)) (wof s) in
  ∃ v, world v = w ∧
    match evs w with
    | [] => chunkComplete e (set_world w (dev s)) = Ok (Some f, v) ∧ callbacks v = ∅ ∧ chunkEvents v = ∅
    | _ :: _ => chunkComplete e (set_world w (dev s)) = Ok (None, v) ∧ waiting f (set_dev v s)
    end.
Proof.
  intros ([cb Htr] & _ & Hbusy) Hi w.
  assert (evs (wof s) ≡ₚ e :: evs w) as Hp.
  { unfold evs. unfold pending_events in *. fold (wof s) in *. unfold w. simpl.
    by rewrite (events_delete i e t _ Hi). }
  destruct (chunkComplete_tracks cb f _ e _ _ (tracks_world _ _ _ w _ Htr) Hp) as (v & Hw & Hc).
  exists v. split; [done|]. destruct (evs w) as [|x l] eqn:Hev; [done|]. destruct Hc as [Hc Htr'].
  split; [done|]. unfold waiting, wof in *. simpl. rewrite Hw. simpl. fold w. rewrite Hev.
  split_and!; [by exists cb|done|done].
Qed.

Lemma tinv_events c a m1 P t i s :
  tinv c pt k a n buf m1 P n t (wof s) →
  tinv c pt k a n buf m1 P n t (set_events (delete i (pending_events s)) (wof s)).
Proof.
  intros [[[? ? ? ? ? ? Hst ? ? ? Hfr] ?] [? ? ? ?] Ht]. constructor.
  - split; [|done]. constructor; try done.
    + intros j x Hx. eapply DmaTiming.good_ext; [|by apply Hst]. done.
    + eapply sublist_NoDup; [exact Hfr|]. apply sublist_app; [|done].
      apply fmap_sublist, sublist_delete.
  - by constructor.
  - simpl. by apply Forall_delete.
Qed.

Lemma evs_nil w : evs (M := M) w = [] → events (port w) = [] ∧ owed (states (port w)) = [].
Proof. intros [He Ho]%app_eq_nil. split; [|done]. by apply fmap_nil_inv in He. Qed.

(** When the last event has run, the phase is over. *)
Lemma phase_over c a m1 P t w :
  moves c pt a n buf m1 P → tinv c pt k a n buf m1 P n t w → evs w = [] →
  at_rest w ∧ P (λ i, 0 <= i < n) (memory (mem w)) (heap w).
Proof.
  intros HP Hi [He Ho]%evs_nil. destruct (tinv_done c pt k a n buf m1 P HP t w Hi Ho) as (? & ? & ? & ?).
  split; [by constructor|done].
Qed.

Lemma read_moves : moves MemCmd.ReadReq pt src n buf m0 (rmoved pt src n buf m0 h0).
Proof using Hcan. destruct Hcan as [_ _ _ _ [Hb Ho] _ _]. by apply rmoved_moves. Qed.

Lemma write_moves m1 h1 :
  rmoved pt src n buf m0 h0 (λ i, 0 <= i < n) m1 h1 →
  moves MemCmd.WriteReq pt dst n buf m1 (wmoved pt dst n buf m1 h1).
Proof using Hcan.
  intros [_ Hsm _ Hbd _ _]. destruct Hcan as [_ _ _ _ [Hb Ho] _ [_ Hinj]].
  apply wmoved_moves; [by intros ?%(proj1 Hsm)|by rewrite Hbd|done].
Qed.

Lemma set_dev_configured v s : configured s → configured (set_dev v s).
Proof. intros []. by constructor. Qed.

Lemma fire_in_read t i e s :
  configured s → reading (mkSys t s) → pending_events s !! i = Some (e, t) →
  ∃ s', fire (dmaWrite rng acc edge) i s = Ok s' ∧ configured s' ∧
    (writing (mkSys t s') ∨
     reading (mkSys t s') ∧ wof s' = set_events (delete i (pending_events s)) (wof s)).
Proof using Hcan Hedge.
  intros Hcf [Hwt Hti] Hi. simpl in Hwt, Hti. unfold fire. rewrite Hi.
  destruct (fire_tracks ReadDone i e t s Hwt Hi) as (v & Hw & Hcase). fold (wof s).
  pose proof (tinv_events _ _ _ _ _ i s Hti) as Hti'.
  destruct (evs (set_events (delete i (pending_events s)) (wof s))) as [|x l] eqn:Hev.
  - destruct Hcase as (-> & Hcb & Hce). rewrite res_bind_Ok.
    destruct (phase_over _ _ _ _ _ _ read_moves Hti' Hev) as [Hrest Hmv].
    destruct (readDone_ok t (set_dev v s)) as (s' & Hs & Hcf' & Hwr); try done.
    + by apply set_dev_configured.
    + apply Hwt.
    + unfold wof. simpl. rewrite Hw. apply Hti'.
    + unfold wof. simpl. by rewrite Hw.
    + unfold wof, heap_of. simpl. by rewrite Hw.
    + eauto.
  - destruct Hcase as (-> & Hwt'). rewrite res_bind_Ok. eexists. split; [done|].
    split; [by apply set_dev_configured|]. right. split; [|done]. split; [done|].
    unfold wof. simpl. by rewrite Hw.
Qed.

Lemma copied_intro m1 h1 (s : IDMA.t (peer M)) :
  rmoved pt src n buf m0 h0 (λ i, 0 <= i < n) m1 h1 →
  wmoved pt dst n buf m1 h1 (λ i, 0 <= i < n) (memory (mem (wof s))) (heap_of s) → copied s.
Proof using Hcan.
  intros [Hi Hsm Hc Hb Hbf Hfr] [Hi' Hsm' Hb' Hwr Hot Hfr'].
  apply (copied_to_intro pk k src dst n buf pt m0 h0 Hcan m1 h1).
  - constructor; auto.
  - constructor; auto.
Qed.

Lemma fire_in_write t i e s :
  configured s → writing (mkSys t s) → pending_events s !! i = Some (e, t) →
  ∃ s', fire (dmaWrite rng acc edge) i s = Ok s' ∧ configured s' ∧
    (finished (mkSys t s') ∨
     writing (mkSys t s') ∧ wof s' = set_events (delete i (pending_events s)) (wof s)).
Proof using Hcan.
  intros Hcf (Hwt & m1 & h1 & Hrd & Hti) Hi. simpl in Hwt, Hti. unfold fire. rewrite Hi.
  destruct (fire_tracks WriteDone i e t s Hwt Hi) as (v & Hw & Hcase). fold (wof s).
  pose proof (tinv_events _ _ _ _ _ i s Hti) as Hti'.
  destruct (evs (set_events (delete i (pending_events s)) (wof s))) as [|x l] eqn:Hev.
  - destruct Hcase as (-> & Hcb & Hce). rewrite res_bind_Ok. eexists. split; [done|].
    destruct (phase_over _ _ _ _ _ _ (write_moves m1 h1 Hrd) Hti' Hev) as [Hrest Hmv].
    split; [by destruct Hcf|]. left.
    split; [unfold wof; simpl; rewrite Hw; apply Hti'|].
    split; [unfold wof; simpl; by rewrite Hw|]. split; [done|]. split; [done|].
    apply (copied_intro m1 h1); [done|]. unfold wof, heap_of. simpl. by rewrite Hw.
  - destruct Hcase as (-> & Hwt'). rewrite res_bind_Ok. eexists. split; [done|].
    split; [by apply set_dev_configured|]. right. split; [|done]. split; [done|]. exists m1, h1. split; [done|].
    unfold wof. simpl. by rewrite Hw.
Qed.

Lemma set_w_waiting f w s : waiting f s → evs w ≡ₚ evs (wof s) → waiting f (set_w w s).
Proof.
  intros ([cb Htr] & Hne & Hb) Hp. unfold waiting, wof. simpl. split_and!; [|by intros He; rewrite He in Hp; apply Permutation_nil_l in Hp|done].
  exists cb. apply tracks_world. by rewrite Hp.
Qed.

Lemma set_w_configured w s : configured s → configured (set_w w s).
Proof. intros []. by constructor. Qed.

(** What the port and its peer do. *)
Lemma port_step c a m1 P t s x :
  moves c pt a n buf m1 P → tinv c pt k a n buf m1 P n t (wof s) → enabled (mkSys t s) x →
  (∀ i, x ≠ Fire i) →
  ∃ w, perform (mkSys t s) x = Ok (set_w w s) ∧ tinv c pt k a n buf m1 P n t w ∧ evs w ≡ₚ evs (wof s).
Proof using Hcan Hedge.
  intros HP Hi Hen Hx. pose proof (proj2 copy_size) as Hn. destruct x as [ac|ac|j hd pd|i]; simpl in *.
  - destruct (send_tinv rng c pt k a n buf m1 P HP edge Hedge Hn t ac (wof s) Hi Hen) as (w & -> & ? & ? & _).
    exists w. by split_and!.
  - destruct (retry_tinv rng c pt k a n buf m1 P HP edge Hedge Hn t ac (wof s) Hi Hen) as (w & -> & ? & ? & _).
    exists w. by split_and!.
  - destruct (respond_tinv c pt k a n buf m1 P HP t j hd pd (wof s) Hi Hen) as (w & -> & ? & ? & _).
    exists w. by split_and!.
  - by destruct (Hx i).
Qed.

Lemma finished_rests c x : finished c → ¬ enabled c x.
Proof.
  intros ([_ Hlive] & [_ Htl Hfl Hev] & _). unfold DmaTiming.live in Hlive. simpl in Hlive.
  rewrite Htl in Hlive. destruct Hlive as [Hse Hrp].
  destruct x as [ac|ac|j hd pd|i]; simpl; [congruence|congruence| |].
  - rewrite Hfl. by intros [? ?].
  - unfold pending_events. fold (wof (st c)). rewrite Hev. by intros [? ?].
Qed.

Lemma is_fire x : (∃ i, x = Fire i) ∨ ∀ i, x ≠ Fire i.
Proof. destruct x; [by right..|by left; eexists]. Qed.

Lemma perform_phase c x :
  phase c → enabled c x → ∃ s', perform c x = Ok s' ∧ phase (mkSys (now c) s').
Proof using Hcan Hedge.
  destruct c as [t s]. intros [Hcf Hph] Hen. simpl in Hcf. destruct Hph as [Hr|[Hw|Hf]];
    [| |by apply (finished_rests _ x) in Hf].
  - destruct (is_fire x) as [[i ->]|Hx].
    + destruct Hen as [e Hi]. destruct (fire_in_read t i e s Hcf Hr Hi) as (s' & Hs & Hcf' & Hcase).
      exists s'. split; [done|]. split; [done|]. destruct Hcase as [?|[? _]]; [by right; left|by left].
    + destruct Hr as [Hwt Hti]. destruct (port_step _ _ _ _ t s x read_moves Hti Hen Hx) as (w & Hp & Hti' & Hev).
      eexists. split; [done|]. split; [by apply set_w_configured|]. left. split; [by apply set_w_waiting|done].
  - destruct (is_fire x) as [[i ->]|Hx].
    + destruct Hen as [e Hi]. destruct (fire_in_write t i e s Hcf Hw Hi) as (s' & Hs & Hcf' & Hcase).
      exists s'. split; [done|]. split; [done|]. destruct Hcase as [?|[? _]]; [by right; right|by right; left].
    + destruct Hw as (Hwt & m1 & h1 & Hrd & Hti).
      destruct (port_step _ _ _ _ t s x (write_moves m1 h1 Hrd) Hti Hen Hx) as (w & Hp & Hti' & Hev).
      eexists. split; [done|]. split; [by apply set_w_configured|]. right. left.
      split; [by apply set_w_waiting|]. by exists m1, h1.
Qed.

(** With an event pending, which is due now, time does not pass. *)
Lemma tinv_time c a m1 P t t' s :
  tinv c pt k a n buf m1 P n t (wof s) → t <= t' →
  (∀ x, sendEvent (port (wof s)) = Some x → t' <= x) → (∀ e, e ∈ pending_events s → t' <= e.2) →
  tinv c pt k a n buf m1 P n t' (wof s).
Proof.
  intros Hi Ht Hse Hev. destruct (events (port (wof s))) as [|e l] eqn:He.
  - by apply (time_tinv c pt k a n buf m1 P t).
  - assert (t' = t) as ->; [|done]. pose proof (ti_ticks _ _ _ _ _ _ _ _ _ _ _ Hi) as Hticks. rewrite He in Hticks.
    apply Forall_cons_1 in Hticks as [Hte _]. specialize (Hev e). unfold pending_events in Hev.
    fold (wof s) in Hev. rewrite He in Hev. specialize (Hev ltac:(by left)). lia.
Qed.

Lemma step_phase c c' : phase c → step c c' → phase c'.
Proof using Hcan Hedge.
  intros Hph Hst. destruct Hst as [c t Ht Hse Hev|c x s' Hen Hp].
  - destruct Hph as [Hcf Hph]. split; [done|]. destruct Hph as [[Hwt Hti]|[(Hwt & m1 & h1 & Hrd & Hti)|Hf]].
    + left. split; [done|]. by eapply tinv_time.
    + right. left. split; [done|]. exists m1, h1. split; [done|]. by eapply tinv_time.
    + right. right. destruct Hf as (Hok & Hrest & Hdone). split; [|done].
      by apply (DmaTiming.timing_step_ok k _ _ Hok), DmaTiming.step_time.
  - destruct (perform_phase c x Hph Hen) as (s2 & Hp2 & Hph'). rewrite Hp in Hp2. by injection Hp2 as <-.
Qed.

(** ** Every copy can be completed *)

(** What is left of a phase: bytes to send, responses to come, events to run. *)
Definition work (w : World (peer M)) : Z :=
  3 * backlog (port w) + 2 * Z.of_nat (length (inflight (mem w))) + Z.of_nat (length (events (port w))).

Lemma work_nonneg c a m1 P z t w : tinv c pt k a n buf m1 P z t w → 0 <= work w.
Proof. intros [[Hc _] _ _]. pose proof (backlog_length k _ Hc) as Hb. simpl in Hb. unfold work. lia. Qed.

(** With no event to run, a response, the port or a retry of the peer is next. *)
Lemma port_works c a m1 P t s :
  moves c pt a n buf m1 P → tinv c pt k a n buf m1 P n t (wof s) →
  evs (wof s) ≠ [] → events (port (wof s)) = [] →
  ∃ t' w, rtc step (mkSys t s) (mkSys t' (set_w w s)) ∧
    tinv c pt k a n buf m1 P n t' w ∧ evs w ≡ₚ evs (wof s) ∧ work w < work (wof s).
Proof using Hcan Hedge.
  intros HP Hi Hne He. pose proof (proj2 copy_size) as Hn. unfold work.
  destruct (inflight (mem (wof s))) as [|q l] eqn:Hfl.
  - destruct (ti_ok _ _ _ _ _ _ _ _ _ _ _ Hi) as [Hc Hlive].
    destruct (transmitList (port (wof s))) as [|i l] eqn:Htl.
    { destruct Hne. destruct (DmaTiming.quiescent k _ Hc) as [_ Hp]; [done|simpl; by rewrite Hfl|].
      simpl in Hp. rewrite He in Hp. by apply Permutation_nil_r in Hp. }
    unfold DmaTiming.live in Hlive. simpl in Hlive. rewrite Htl in Hlive.
    destruct (retryPending (port (wof s))) eqn:Hrp.
    + destruct (retry_tinv rng c pt k a n buf m1 P HP edge Hedge Hn t true (wof s) Hi Hrp)
        as (w & Hw & ? & ? & Hpr). destruct (Hpr eq_refl) as (? & Hl & Hev).
      exists t, w. split_and!; [|done..|rewrite Hl, Hev, Hfl; simpl; lia].
      apply rtc_once, (step_action (mkSys t s) (Retry true)); [done|]. simpl. by rewrite Hw.
    + destruct Hlive as (_ & t' & Hse & Ht).
      assert (tinv c pt k a n buf m1 P n t' (wof s)) as Hi'.
      { apply (time_tinv c pt k a n buf m1 P t); try done. intros x. rewrite Hse. intros [= ->]. lia. }
      destruct (send_tinv rng c pt k a n buf m1 P HP edge Hedge Hn t' true (wof s) Hi' Hse)
        as (w & Hw & ? & ? & Hpr). destruct (Hpr eq_refl) as (? & Hl & Hev).
      exists t', w. split_and!; [|done..|rewrite Hl, Hev, Hfl; simpl; lia].
      eapply rtc_l; [apply (step_time (mkSys t s) t'); simpl; [done| |]|].
      * intros x. rewrite Hse. intros [= ->]. lia.
      * unfold pending_events. fold (wof s). rewrite He. by intros e ?%not_elem_of_nil.
      * apply rtc_once, (step_action (mkSys t' s) (Send true)); [done|]. simpl. by rewrite Hw.
  - assert (is_Some (inflight (mem (wof s)) !! 0%nat)) as H0 by (rewrite Hfl; by eexists).
    destruct (respond_tinv c pt k a n buf m1 P HP t 0 0 0 (wof s) Hi H0) as (w & Hw & ? & ? & Hb & Hl & Hev).
    exists t, w. split_and!; [|done..|rewrite Hb, Hfl in *; simpl in *; lia].
    apply rtc_once, (step_action (mkSys t s) (Respond 0 0 0)); [done|]. simpl. by rewrite Hw.
Qed.

(** The first pending event can run. *)
Lemma first_event c a m1 P t s :
  tinv c pt k a n buf m1 P n t (wof s) → events (port (wof s)) ≠ [] →
  ∃ e, pending_events s !! 0%nat = Some (e, t) ∧
    work (set_events (delete 0%nat (pending_events s)) (wof s)) < work (wof s).
Proof.
  intros Hi. pose proof (ti_ticks _ _ _ _ _ _ _ _ _ _ _ Hi) as Ht. unfold pending_events, work. fold (wof s).
  destruct (events (port (wof s))) as [|[e te] l] eqn:He; [done|]. intros _.
  apply Forall_cons_1 in Ht as [Hte _]. simpl in Hte. subst te. exists e. split; [done|].
  change (backlog (port (set_events (delete 0%nat ((e, t) :: l)) (wof s)))) with (backlog (port (wof s))).
  simpl. lia.
Qed.

(** From a state of [R], [Q] is reached if each state of [R] leads to one of [Q]
    or to one of [R] with less work. *)
Lemma drains (R Q : sys → Prop) :
  (∀ c, R c → 0 <= work (wof (st c))) →
  (∀ c, R c → ∃ c', rtc step c c' ∧ (Q c' ∨ R c' ∧ work (wof (st c')) < work (wof (st c)))) →
  ∀ c, R c → ∃ c', rtc step c c' ∧ Q c'.
Proof.
  intros Hpos Hadv c. remember (Z.to_nat (work (wof (st c)))) as w eqn:Hw.
  revert c Hw. induction (lt_wf w) as [w _ IH]. intros c -> Hc.
  destruct (Hadv c Hc) as (c' & Hr & [HQ|[HR Hlt]]); [eauto|].
  pose proof (Hpos c' HR). destruct (IH (Z.to_nat (work (wof (st c')))) ltac:(lia) c' eq_refl HR) as (c2 & ? & ?).
  exists c2. split; [by etrans|done].
Qed.

Lemma reading_advances c :
  configured (st c) ∧ reading c →
  ∃ c', rtc step c c' ∧
    ((configured (st c') ∧ writing c') ∨
     (configured (st c') ∧ reading c') ∧ work (wof (st c')) < work (wof (st c))).
Proof using Hcan Hedge.
  destruct c as [t s]. intros [Hcf Hr]. pose proof Hr as [Hwt Hti]. simpl in Hwt, Hti.
  destruct (decide (events (port (wof s)) = [])) as [He|He].
  - destruct (port_works _ _ _ _ t s read_moves Hti (proj1 (proj2 Hwt)) He) as (t' & w & Hst & Hti' & Hev & Hlt).
    eexists. split; [done|]. right. split; [|done]. split; [by apply set_w_configured|].
    split; [by apply set_w_waiting|done].
  - destruct (first_event _ _ _ _ _ _ Hti He) as (e & Hi & Hlt).
    destruct (fire_in_read t 0 e s Hcf Hr Hi) as (s' & Hs & Hcf' & Hcase). exists (mkSys t s'). split.
    { apply rtc_once, (step_action (mkSys t s) (Fire 0)); [by exists e|done]. }
    destruct Hcase as [?|[? Hw]]; [by left|]. right. split; [done|]. simpl. by rewrite Hw.
Qed.

Lemma writing_advances c :
  configured (st c) ∧ writing c →
  ∃ c', rtc step c c' ∧
    ((configured (st c') ∧ finished c') ∨
     (configured (st c') ∧ writing c') ∧ work (wof (st c')) < work (wof (st c))).
Proof using Hcan Hedge.
  destruct c as [t s]. intros [Hcf Hr]. pose proof Hr as (Hwt & m1 & h1 & Hrd & Hti). simpl in Hwt, Hti.
  destruct (decide (events (port (wof s)) = [])) as [He|He].
  - destruct (port_works _ _ _ _ t s (write_moves m1 h1 Hrd) Hti (proj1 (proj2 Hwt)) He)
      as (t' & w & Hst & Hti' & Hev & Hlt).
    eexists. split; [done|]. right. split; [|done]. split; [by apply set_w_configured|].
    split; [by apply set_w_waiting|]. by exists m1, h1.
  - destruct (first_event _ _ _ _ _ _ Hti He) as (e & Hi & Hlt).
    destruct (fire_in_write t 0 e s Hcf Hr Hi) as (s' & Hs & Hcf' & Hcase). exists (mkSys t s'). split.
    { apply rtc_once, (step_action (mkSys t s) (Fire 0)); [by exists e|done]. }
    destruct Hcase as [?|[? Hw]]; [by left|]. right. split; [done|]. simpl. by rewrite Hw.
Qed.

Lemma phase_finishes_t c : phase c → ∃ c', rtc step c c' ∧ finished c'.
Proof using Hcan Hedge.
  assert (∀ c, configured (st c) ∧ writing c → ∃ c', rtc step c c' ∧ configured (st c') ∧ finished c') as Hwr.
  { apply drains; [|exact writing_advances]. intros ? (_ & _ & ? & ? & _ & Hti). by eapply work_nonneg. }
  assert (∀ c, configured (st c) ∧ reading c → ∃ c', rtc step c c' ∧ configured (st c') ∧ writing c') as Hrd.
  { apply drains; [|exact reading_advances]. intros ? (_ & _ & Hti). by eapply work_nonneg. }
  intros [Hcf [Hr|[Hw|Hf]]]; [| |by exists c].
  - destruct (Hrd c (conj Hcf Hr)) as (c1 & H1 & Hc1). destruct (Hwr c1 Hc1) as (c2 & H2 & _ & ?).
    exists c2. split; [by etrans|done].
  - destruct (Hwr c (conj Hcf Hw)) as (c2 & H2 & _ & ?). eauto.
Qed.

(** ** From the command to the end *)

Lemma resting_ok t (s : IDMA.t (peer M)) :
  resting s → idle k (port (wof s)) → DmaTiming.ok k (sys_of t (wof s)).
Proof.
  intros [Hq Hst Htl Hfl Hse [Hrp Hir]] [Hk Hl _ Hpc]. split; [constructor; simpl|].
  - done.
  - done.
  - by rewrite Hpc, Hfl.
  - by rewrite Hfl.
  - rewrite Htl. constructor.
  - rewrite Htl. by intros i ?%not_elem_of_nil.
  - intros i x. by rewrite Hst.
  - rewrite Hfl. constructor.
  - intros p. by rewrite Hir.
  - done.
  - pose proof (qu_events _ Hq) as He. unfold pending_events in He. fold (wof s) in He.
    unfold DmaTiming.in_use, owed. simpl. rewrite He, Hst. by rewrite map_to_list_empty; constructor.
  - unfold DmaTiming.live. simpl. by rewrite Htl.
Qed.

Lemma resting_at_rest (s : IDMA.t (peer M)) : resting s → at_rest (wof s).
Proof. intros [[_ _ He] ? ? ? _ _]. by constructor. Qed.

Lemma transfer_reads t (s : IDMA.t (peer M)) :
  configured s → resting s → idle k (port (wof s)) →
  Z.land (commandReg s) 1 ≠ 0 → memory (mem (wof s)) = m0 → heap_of s = h0 →
  ∃ s', idmaTransfer (dmaRead rng acc edge) t s = Ok s' ∧ phase (mkSys t s') ∧ statusReg s' = IDMA_BUSY.
Proof using Hcan Hedge.
  intros [Hsrc Hdst Hsz Hbf Hfs Hpt] Hrs Hid Hcmd Hm Hh. unfold idmaTransfer.
  destruct (Z.eqb_spec (Z.land (commandReg s) 1) 0); [done|]. unfold dmaPending, wof in *. rewrite (idle_pending _ _ Hid).
  change (0 <? 0) with false. cbv iota zeta.
  destruct (newCallback ReadDone (dev (set_status IDMA_BUSY s))) as [cb v] eqn:Hnew.
  unfold translate. simpl. rewrite Hfs, Hpt, Hsrc, Hsz, Hbf.
  pose proof Hcan as [_ _ [Hs _] Hi [Hb Ho] Hserv _].
  destruct (start_region MemCmd.ReadReq src m0 (rmoved pt src n buf m0 h0) t ReadDone
    (set_status IDMA_BUSY s) cb v) as (v' & Hrun & Htr & Hne & Hti); try done.
  - exact read_moves.
  - by left.
  - apply (rs_quiet _ Hrs).
  - apply (rs_quiet _ Hrs).
  - by apply (resting_ok t s).
  - by apply (resting_at_rest s).
  - unfold wof. simpl. rewrite Hm. change (heap_of (set_status IDMA_BUSY s)) with (heap_of s). rewrite Hh.
    by constructor.
  - unfold dmaRead. rewrite Hrun, res_bind_Ok. eexists. split; [done|]. split; [|done].
    split; [by constructor|]. left. split; [|done]. by split_and!; [exists cb| |].
Qed.

Lemma finished_resting c : finished c → resting (st c).
Proof.
  intros ([Hc Hlive] & [Hst Htl Hfl Hev] & [? ?] & _). unfold DmaTiming.live in Hlive. simpl in Hlive.
  rewrite Htl in Hlive. destruct Hlive as [Hse Hrp]. constructor; try done. split; [done|].
  destruct (inRetry (port (wof (st c)))) as [p|] eqn:Hir; [|done].
  destruct (DmaTiming.c_retry _ _ Hc p Hir) as (i & l & x & tm & d & Hl & _). simpl in Hl. by rewrite Htl in Hl.
Qed.

Lemma phase_completes c0 : phase c0 → completes c0 copied.
Proof using Hcan Hedge.
  intros Hph c Hrun. assert (phase c) as Hphc by (clear -Hph Hrun Hcan Hedge; induction Hrun; eauto using step_phase).
  split; [|split].
  - intros x Hx. destruct (perform_phase c x Hphc Hx) as (s' & ? & _). eauto.
  - destruct Hphc as [_ [[(_ & _ & ?) _]|[[(_ & _ & ?) _]|Hf]]]; [by left..|right].
    split_and!; [apply Hf|by apply finished_resting|apply Hf].
  - destruct (phase_finishes_t c Hphc) as (c' & Hr & Hf). exists c'. split; [done|apply Hf].
Qed.

End Runs.

Lemma command_completes {M} {HM : ByteMemory M} rng acc edge pk k t p d v (s : IDMA.t (peer M)) :
  (∀ x, x <= edge x) → command k p d v s → resting s →
  can_copy pk k (srcAddrReg s) (dstAddrReg s) (sizeReg s) (dmaBuffer s) (pTable s)
    (memory (mem (wof s))) (heap_of s) →
  ∃ p' s1, write (dmaRead rng acc edge) t p s = Ok (p', s1, 10) ∧ statusReg s1 = IDMA_BUSY ∧
    completes rng acc edge (mkSys t s1) (λ s2,
      copied_to (srcAddrReg s) (dstAddrReg s) (sizeReg s) (pTable s) (memory (mem (wof s))) (heap_of s)
        (memory (mem (wof s2))) (heap_of s2)).
Proof.
  intros Hedge [Hq Hfs Hidle [(a & Ha & Hoff) Hbuf Hreq] Hv Hbit] Hrs Hcan.
  set (s0 := set_regs (srcAddrReg s) (dstAddrReg s) (sizeReg s) v (statusReg s) s).
  assert (resting s0) as Hrs0 by by destruct Hrs as [[] ? ? ? ?].
  destruct (transfer_reads rng acc edge Hedge pk k _ _ _ _ _ _ _ Hcan t s0) as (s1 & Hrun & Hph & Hb);
    [by constructor|done..|].
  unfold write. rewrite Ha, res_bind_Ok, (Packet.getSize_buffer _ _ _ _ Hbuf), res_bind_Ok, Hoff.
  simpl. rewrite Hv, res_bind_Ok. fold s0. destruct (Z.eqb_spec (Z.land v 1) 0); [done|].
  simpl in Hrun. rewrite Hrun, res_bind_Ok, (AbstractMemory.makeResponse_Ok p Hreq), res_bind_Ok.
  eexists _, s1. split; [done|]. split; [done|].
  exact (phase_completes rng acc edge Hedge pk k _ _ _ _ _ _ _ Hcan _ Hph).
Qed.

End IdmaTiming.
