(* ===== verification/MiniLibc.v ===== *)
(** The C library of the test programs ([tests/test-progs/spm_test/include/mini_libc.h]):
    strings, copying and formatted output. *)

From S2P Require Import Prelude Host CInt.
Import Host.

Module MiniLibc.

(** ** Strings and memory *)

(** The loop of [strlen]; a string ends within its block. *)
Fixpoint strlen_loop (fuel : nat) (h : hmem) (s p : ptr) : res Z :=
  match fuel with
  | O => Fail OutOfFuel
  | S fuel =>
      c ← byte h p;
      if c =? 0 then Ok (offset p - offset s) else strlen_loop fuel h s (ptr_add p 1)
  end.

Definition strlen (h : hmem) (s : ptr) : res Z :=
  strlen_loop (S (length (default [] (h !! block s)))) h s s.

(** [while (n--) *d++ = *s++]. *)
Fixpoint memcpy (n : nat) (h : hmem) (d s : ptr) : res hmem :=
  match n with
  | O => Ok h
  | S n =>
      c ← byte h s;
      h ← store_int h d 1 c;
      memcpy n h (ptr_add d 1) (ptr_add s 1)
  end.

Fixpoint memset (n : nat) (h : hmem) (p : ptr) (c : Z) : res hmem :=
  match n with
  | O => Ok h
  | S n =>
      h ← store_int h p 1 (u8 c);
      memset n h (ptr_add p 1) c
  end.

(** ** Output *)

(** The bytes written to file descriptor 1. *)
Definition puts (h : hmem) (s : ptr) : res (list Z) :=
  n ← strlen h s; load_bytes h s n.

Definition hex_digit (d : Z) : Z := if d <? 10 then d + 48 else d - 10 + 97.
Definition dec_digit (d : Z) : Z := d + 48.

(** The loop that fills [buffer], of [cap] elements, with the digits of [n], the
    last digit first. *)
Fixpoint digits (fuel : nat) (base : Z) (digit : Z → Z) (cap : nat) (n : Z) (buffer : list Z) : res (list Z) :=
  match fuel with
  | O => Fail OutOfFuel
  | S fuel =>
      if 0 <? n then
        defined! (length buffer <? cap)%nat;
        digits fuel base digit cap (n / base) (buffer ++ [digit (n mod base)])
      else Ok buffer
  end.

Definition put_hex (n : Z) : res (list Z) :=
  if n =? 0 then Ok [48]
  else buffer ← digits 65 16 hex_digit 17 n []; Ok (rev buffer).

(** [n] is a [long] of [w] bits, whose smallest value has no negation. *)
Definition put_dec (w n : Z) : res (list Z) :=
  let sign := n <? 0 in
  n ← (if n <? 0 then defined! (- n <? 2 ^ (w - 1)); Ok (- n) else Ok n);
  if n =? 0 then Ok [48]
  else
    buffer ← digits 65 10 dec_digit 21 n [];
    Ok ((if sign then [45] else []) ++ rev buffer).

(** The arguments after the format, as they were passed. *)
Inductive arg :=
  | AInt (n : Z)
  | AUInt (n : Z)
  | ALong (n : Z)
  | AULong (n : Z)
  | AString (s : ptr).

(** [va_arg(args, T)]: the next argument has the type, or is of the other
    signedness and representable in it. *)
Definition va_string (l : list arg) : res (ptr * list arg) :=
  match l with AString s :: l => Ok (s, l) | _ => Fail UndefinedBehaviour end.

Definition va_int (l : list arg) : res (Z * list arg) :=
  match l with
  | AInt n :: l => Ok (n, l)
  | AUInt n :: l => defined! (n <? 2 ^ 31); Ok (n, l)
  | _ => Fail UndefinedBehaviour
  end.

Definition va_uint (l : list arg) : res (Z * list arg) :=
  match l with
  | AUInt n :: l => Ok (n, l)
  | AInt n :: l => defined! (0 <=? n); Ok (n, l)
  | _ => Fail UndefinedBehaviour
  end.

Definition va_long (w : Z) (l : list arg) : res (Z * list arg) :=
  match l with
  | ALong n :: l => Ok (n, l)
  | AULong n :: l => defined! (n <? 2 ^ (w - 1)); Ok (n, l)
  | _ => Fail UndefinedBehaviour
  end.

Definition va_ulong (l : list arg) : res (Z * list arg) :=
  match l with
  | AULong n :: l => Ok (n, l)
  | ALong n :: l => defined! (0 <=? n); Ok (n, l)
  | _ => Fail UndefinedBehaviour
  end.

(** The [switch] on the character [c] at [fmt], after a percent sign: the output,
    the arguments that are left and where the directive ends. *)
Definition directive (w : Z) (h : hmem) (c : Z) (fmt : ptr) (args : list arg)
    : res (list Z * list arg * ptr) :=
  if c =? 115 then '(s, args) ← va_string args; o ← puts h s; Ok (o, args, fmt)
  else if c =? 100 then '(n, args) ← va_int args; o ← put_dec w n; Ok (o, args, fmt)
  else if c =? 120 then '(n, args) ← va_uint args; o ← put_hex n; Ok (o, args, fmt)
  else if c =? 108 then
    c1 ← byte h (ptr_add fmt 1);
    if c1 =? 100 then '(n, args) ← va_long w args; o ← put_dec w n; Ok (o, args, ptr_add fmt 1)
    else if c1 =? 120 then '(n, args) ← va_ulong args; o ← put_hex n; Ok (o, args, ptr_add fmt 1)
    else Ok ([], args, fmt)
  else if c =? 37 then Ok ([37], args, fmt)
  else Ok ([37; c], args, fmt).

Fixpoint printf_loop (fuel : nat) (w : Z) (h : hmem) (fmt : ptr) (args : list arg) : res (list Z) :=
  match fuel with
  | O => Fail OutOfFuel
  | S fuel =>
      c ← byte h fmt;
      if c =? 0 then Ok []
      else
        '(o, args, fmt) ← (if c =? 37 then
                             let fmt := ptr_add fmt 1 in
                             c ← byte h fmt; directive w h c fmt args
                           else Ok ([c], args, fmt));
        rest ← printf_loop fuel w h (ptr_add fmt 1) args;
        Ok (o ++ rest)
  end.

Definition printf (w : Z) (h : hmem) (fmt : ptr) (args : list arg) : res (list Z) :=
  printf_loop (S (length (default [] (h !! block fmt)))) w h fmt args.

(** ** Strings *)

Lemma strlen_loop_ok fuel h s p l :
  cstring h p l → (length l < fuel)%nat →
  strlen_loop fuel h s p = Ok (offset p - offset s + Z.of_nat (length l)).
Proof.
  revert fuel p. induction l as [|c l IH]; intros [|fuel] p Hs Hf; simpl in Hf; [lia| |lia|].
  - simpl. rewrite (cstring_nil h p Hs), res_bind_Ok. simpl. f_equal. lia.
  - destruct (cstring_cons h p c l Hs) as (Hc & Hb & Hs'). cbn [strlen_loop]. rewrite Hb, res_bind_Ok.
    destruct (Z.eqb_spec c 0); [done|]. rewrite IH by (done || lia). simpl. f_equal. lia.
Qed.

Lemma strlen_ok h s l : cstring h s l → strlen h s = Ok (Z.of_nat (length l)).
Proof.
  intros Hs. unfold strlen. rewrite (strlen_loop_ok _ _ _ _ l Hs) by by apply cstring_fuel.
  f_equal. lia.
Qed.

Lemma puts_ok h s l : cstring h s l → puts h s = Ok l.
Proof.
  intros Hs. unfold puts. rewrite (strlen_ok h s l Hs), res_bind_Ok.
  pose proof (cstring_size h s l Hs) as (b & Hb & Ho & _ & Hle)%in_bounds_iff.
  assert (in_bounds h s (Z.of_nat (length l)) = true) as Hin.
  { apply in_bounds_iff. exists b. split_and!; [done|lia..]. }
  destruct (load_bytes_in_bounds h s (Z.of_nat (length l)) Hin) as [bs Hbs]. rewrite Hbs. f_equal.
  pose proof (load_bytes_length _ _ _ _ Hbs) as Hlen. apply list_eq_same_length with (length l); [lia|lia|].
  intros i x y Hi Hx Hy. pose proof (load_bytes_peek _ _ _ _ (Z.of_nat i) Hbs ltac:(lia)) as Hp.
  rewrite Nat2Z.id, Hx in Hp. destruct Hs as [_ Hs]. specialize (Hs i y (lookup_app_l_Some _ _ _ _ Hy)). congruence.
Qed.

(** ** Copying *)

(** A copy upwards in the same block would read bytes it has written. *)
Definition copies_forward (d s : ptr) (n : Z) : Prop :=
  block d ≠ block s ∨ offset d <= offset s ∨ offset s + n <= offset d.

(** [memcpy] of disjoint ranges, of a range to a lower address and of a range to
    itself moves the bytes and changes nothing else, and does not fail. *)
Theorem memcpy_spec n h d s :
  in_bounds h d (Z.of_nat n) = true → in_bounds h s (Z.of_nat n) = true →
  (∀ i, 0 <= i < Z.of_nat n → ∃ c, peek h (block s) (offset s + i) = Some c ∧ 0 <= c < 256) →
  copies_forward d s (Z.of_nat n) →
  ∃ h', memcpy n h d s = Ok h' ∧ (∀ q l, in_bounds h' q l = in_bounds h q l) ∧
    ∀ b i, peek h' b i =
      if decide (b = block d ∧ offset d <= i < offset d + Z.of_nat n)
      then peek h (block s) (offset s + (i - offset d)) else peek h b i.
Proof.
  revert h d s. induction n as [|n IH]; intros h d s Hd Hs Hbytes Hf.
  - exists h. split; [done|]. split; [done|]. intros b i. by case_decide; [lia|].
  - destruct (Hbytes 0 ltac:(lia)) as (c & Hc & Hr). rewrite Z.add_0_r in Hc. cbn [memcpy].
    rewrite (byte_peek h s c Hc), res_bind_Ok.
    assert (in_bounds h d 1 = true) as Hd1.
    { pose proof (in_bounds_part h d _ 0 1 Hd ltac:(lia) ltac:(lia) ltac:(lia)) as H.
      unfold ptr_add in H. rewrite Z.add_0_r in H. by destruct d. }
    destruct (store_byte_ok h d c Hd1 Hr) as (h1 & -> & Hb1 & Hp1). rewrite res_bind_Ok.
    destruct (IH h1 (ptr_add d 1) (ptr_add s 1)) as (h' & -> & Hb' & Hp').
    + rewrite Hb1. eapply in_bounds_part; [exact Hd|lia..].
    + rewrite Hb1. eapply in_bounds_part; [exact Hs|lia..].
    + intros i Hi. simpl. rewrite Hp1. destruct (Hbytes (i + 1) ltac:(lia)) as (c1 & Hc1 & ?).
      exists c1. case_decide; [unfold copies_forward in Hf; lia|].
      rewrite <-Hc1. split; [f_equal; lia|done].
    + unfold copies_forward in *. simpl. lia.
    + exists h'. split; [done|]. split; [intros q l; by rewrite Hb', Hb1|]. intros b i. rewrite Hp', !Hp1. simpl.
      unfold copies_forward in Hf. repeat case_decide; try lia; try done.
      * f_equal. lia.
      * rewrite <-Hc. f_equal. lia.
Qed.

(** A copy to a lower address that overlaps its source. *)
Lemma memcpy_spec_witness :
  ∃ h', memcpy 3 (<[1%positive := [1; 2; 3; 4]]> ∅) (Ptr 1 0) (Ptr 1 1) = Ok h' ∧
    peek h' 1 0 = Some 2 ∧ peek h' 1 2 = Some 4 ∧ peek h' 1 3 = Some 4.
Proof.
  destruct (memcpy_spec 3 (<[1%positive := [1; 2; 3; 4]]> ∅) (Ptr 1 0) (Ptr 1 1)) as (h' & Hh & _ & Hp).
  - reflexivity.
  - reflexivity.
  - intros i Hi. simpl in *. assert (i = 0 ∨ i = 1 ∨ i = 2) as [->|[->| ->]] by lia; eexists; (split; [reflexivity|lia]).
  - right. left. simpl. lia.
  - exists h'. split; [exact Hh|]. rewrite !Hp. split_and!; reflexivity.
Defined.

(** ** Digits *)

(** The number a sequence of digits stands for. *)
Definition value (base : Z) (val : Z → Z) (l : list Z) : Z := foldl (λ a c, a * base + val c) 0 l.

Definition dec_val (c : Z) : Z := c - 48.
Definition hex_val (c : Z) : Z := if c <? 58 then c - 48 else c - 87.

Section Digits.

Context (base : Z) (digit val : Z → Z) (cap : nat).
Context (Hbase : 2 <= base) (Hval : ∀ d, 0 <= d < base → val (digit d) = d).

(** The value of the digits in the buffer, which holds the last digit first. *)
Definition low (buffer : list Z) : Z := foldr (λ c a, a * base + val c) 0 buffer.

Lemma low_snoc l d : low (l ++ [d]) = low l + base ^ Z.of_nat (length l) * val d.
Proof using Hbase.
  unfold low. rewrite foldr_app. simpl. induction l as [|c l IH]; simpl; [lia|].
  rewrite IH, Nat2Z.inj_succ, Z.pow_succ_r by lia. ring.
Qed.

Lemma value_rev l : value base val (rev l) = low l.
Proof. unfold value, low. induction l as [|c l IH]; [done|]. simpl. rewrite foldl_app. simpl. by rewrite IH. Qed.

Lemma digits_ok fuel n l m :
  0 <= n → n < 2 ^ Z.of_nat fuel → m < base ^ Z.of_nat cap →
  m = n * base ^ Z.of_nat (length l) + low l → 0 <= low l →
  ∃ l', digits (S fuel) base digit cap n l = Ok l' ∧ low l' = m ∧ Forall (λ c, c ∈ l ∨ ∃ d, 0 <= d < base ∧ c = digit d) l' ∧
    (n = 0 → l' = l) ∧ (0 < n → ∃ c, last l' = Some c ∧ 0 < val c).
Proof using Hbase Hval.
  revert n l. induction fuel as [|fuel IH]; intros n l Hn Hf Hm Heq Hl.
  - assert (n = 0) as -> by (simpl in Hf; lia). exists l. split; [done|]. split; [lia|]. split; [|split; [done|lia]].
    apply Forall_forall. by left.
  - cbn [digits]. destruct (Z.ltb_spec 0 n) as [Hpos|Hz].
    + assert (length l < cap)%nat as Hlt.
      { apply Nat2Z.inj_lt. apply (Z.pow_lt_mono_r_iff base); [lia|lia|]. nia. }
      rewrite (proj2 (Nat.ltb_lt _ _) Hlt). simpl ensure. rewrite res_bind_Ok.
      pose proof (Z.div_mod n base ltac:(lia)) as Hdm. pose proof (Z.mod_pos_bound n base ltac:(lia)) as Hmod.
      assert (0 <= n / base < 2 ^ Z.of_nat fuel) as Hq.
      { split; [apply Z.div_pos; lia|]. apply Z.div_lt_upper_bound; [lia|]. rewrite Nat2Z.inj_succ, Z.pow_succ_r in Hf by lia. nia. }
      assert (0 < base ^ Z.of_nat (length l)) by (apply Z.pow_pos_nonneg; lia).
      destruct (IH (n / base) (l ++ [digit (n mod base)])) as (l' & Hrun & Hlow & Hin & Hz' & Hp'); [lia..| | |].
      * rewrite low_snoc, length_app, Hval by lia. simpl. rewrite Nat2Z.inj_add. change (Z.of_nat 1) with 1.
        rewrite Z.pow_add_r, Z.pow_1_r by lia. nia.
      * rewrite low_snoc, Hval by lia. nia.
      * exists l'. split; [done|]. split; [done|]. split; [|split; [lia|]].
        -- eapply Forall_impl; [exact Hin|]. simpl. intros c [[?| ->%list_elem_of_singleton]%elem_of_app|?]; eauto.
        -- intros _. destruct (decide (n / base = 0)) as [H0|]; [|apply Hp'; lia].
           rewrite (Hz' H0). exists (digit (n mod base)). rewrite last_snoc, Hval by lia. split; [done|]. lia.
    + exists l. split; [done|]. assert (n = 0) as -> by lia. split; [lia|]. split; [|split; [done|lia]].
      apply Forall_forall. by left.
Qed.

End Digits.

(** [out] is the usual notation of [n]: a minus sign for a negative number, then
    its digits without leading zeros. *)
Definition notation (base : Z) (val : Z → Z) (good : Z → Prop) (n : Z) (out : list Z) : Prop :=
  ∃ ds, out = (if n <? 0 then [45] else []) ++ ds ∧ value base val ds = Z.abs n ∧ Forall good ds ∧
    (n = 0 ∧ ds = [48] ∨ ∃ c, head ds = Some c ∧ 0 < val c).

Definition is_dec (c : Z) : Prop := 48 <= c <= 57.
Definition is_hex (c : Z) : Prop := 48 <= c <= 57 ∨ 97 <= c <= 102.

Lemma dec_digit_val d : 0 <= d < 10 → dec_val (dec_digit d) = d.
Proof. unfold dec_val, dec_digit. lia. Qed.

Lemma hex_digit_val d : 0 <= d < 16 → hex_val (hex_digit d) = d.
Proof.
  unfold hex_val, hex_digit. intros H. destruct (Z.ltb_spec d 10);
    [destruct (Z.ltb_spec (d + 48) 58)|destruct (Z.ltb_spec (d - 10 + 97) 58)]; lia.
Qed.

Lemma digits_notation base digit val cap (good : Z → Prop) n :
  2 <= base → (∀ d, 0 <= d < base → val (digit d) = d ∧ good (digit d)) →
  0 < n < 2 ^ 64 → n < base ^ Z.of_nat cap →
  ∃ l, digits 65 base digit cap n [] = Ok l ∧ value base val (rev l) = n ∧ Forall good (rev l) ∧
    ∃ c, head (rev l) = Some c ∧ 0 < val c.
Proof.
  intros Hb Hd Hn Hc.
  destruct (digits_ok base digit val cap Hb (λ d H, proj1 (Hd d H)) 64 n [] n) as (l & Hl & Hlow & Hin & _ & Hlast);
    [lia|simpl; lia|done|unfold low; simpl; lia|done|].
  exists l. split; [done|]. split; [by rewrite value_rev|]. split.
  - apply Forall_rev. eapply Forall_impl; [exact Hin|]. simpl. intros c [[]%elem_of_nil|(d & Hd' & ->)]. by apply Hd.
  - destruct (Hlast ltac:(lia)) as (c & Hc' & Hpos). exists c. split; [|done].
    apply last_Some in Hc' as [l' ->]. by rewrite rev_unit.
Qed.

Lemma put_hex_notation n :
  0 <= n < 2 ^ 64 → ∃ out, put_hex n = Ok out ∧ notation 16 hex_val is_hex n out.
Proof.
  intros Hn. unfold put_hex. destruct (Z.eqb_spec n 0) as [->|Hz].
  - exists [48]. split; [done|]. exists [48]. split_and!; [done|done| |by left].
    constructor; [left; lia|constructor].
  - destruct (digits_notation 16 hex_digit hex_val 17 is_hex n) as (l & Hl & Hv & Hg & Hh); [lia| |lia|lia|].
    { intros d Hd. split; [by apply hex_digit_val|]. unfold is_hex, hex_digit. destruct (Z.ltb_spec d 10); lia. }
    rewrite Hl, res_bind_Ok. eexists. split; [done|]. exists (rev l).
    destruct (Z.ltb_spec n 0); [lia|]. split_and!; [done|lia|done|by right].
Qed.

Lemma put_dec_notation w n :
  2 <= w <= 64 → - 2 ^ (w - 1) < n < 2 ^ (w - 1) →
  ∃ out, put_dec w n = Ok out ∧ notation 10 dec_val is_dec n out.
Proof.
  intros Hw Hn. assert (2 ^ (w - 1) <= 2 ^ 63) by (apply Z.pow_le_mono_r; lia). unfold put_dec.
  assert ((if n <? 0 then defined! (- n <? 2 ^ (w - 1)); Ok (- n) else Ok n) = Ok (Z.abs n)) as ->.
  { destruct (Z.ltb_spec n 0); [|by rewrite Z.abs_eq by lia].
    rewrite (proj2 (Z.ltb_lt _ _)) by lia. simpl. f_equal. lia. }
  rewrite res_bind_Ok. destruct (Z.eqb_spec (Z.abs n) 0) as [Hz|Hz].
  - exists [48]. split; [done|]. assert (n = 0) as -> by lia. exists [48]. split_and!; [done|done| |by left].
    constructor; [unfold is_dec; lia|constructor].
  - destruct (digits_notation 10 dec_digit dec_val 21 is_dec (Z.abs n)) as (l & Hl & Hv & Hg & Hh); [lia| |lia|lia|].
    { intros d Hd. split; [by apply dec_digit_val|]. unfold is_dec, dec_digit. lia. }
    rewrite Hl, res_bind_Ok. eexists. split; [done|]. exists (rev l). split_and!; [done|lia|done|by right].
Qed.

(** The smallest [long] has no negation: printing it is undefined. *)
Lemma put_dec_smallest w : 2 <= w → put_dec w (- 2 ^ (w - 1)) = Fail UndefinedBehaviour.
Proof.
  intros Hw. assert (0 < 2 ^ (w - 1)) by (apply Z.pow_pos_nonneg; lia). unfold put_dec.
  rewrite (proj2 (Z.ltb_lt (- 2 ^ (w - 1)) 0)) by lia. by rewrite (proj2 (Z.ltb_ge _ _)) by lia.
Qed.

(** ** Formats *)

(** The parts of a format. *)
Inductive piece :=
  | Text (c : Z)
  | PercentS
  | PercentD
  | PercentX
  | PercentLD
  | PercentLX
  | PercentPercent.

Definition render (p : piece) : list Z :=
  match p with
  | Text c => [c]
  | PercentS => [37; 115]
  | PercentD => [37; 100]
  | PercentX => [37; 120]
  | PercentLD => [37; 108; 100]
  | PercentLX => [37; 108; 120]
  | PercentPercent => [37; 37]
  end.

Definition is_text (p : piece) : Prop := match p with Text c => c ≠ 0 ∧ c ≠ 37 | _ => True end.

(** What a part prints, and the arguments it leaves. *)
Definition piece_out (w : Z) (h : hmem) (p : piece) (args : list arg) : res (list Z * list arg) :=
  match p with
  | Text c => Ok ([c], args)
  | PercentS => '(s, args) ← va_string args; o ← puts h s; Ok (o, args)
  | PercentD => '(n, args) ← va_int args; o ← put_dec w n; Ok (o, args)
  | PercentX => '(n, args) ← va_uint args; o ← put_hex n; Ok (o, args)
  | PercentLD => '(n, args) ← va_long w args; o ← put_dec w n; Ok (o, args)
  | PercentLX => '(n, args) ← va_ulong args; o ← put_hex n; Ok (o, args)
  | PercentPercent => Ok ([37], args)
  end.

Fixpoint format (w : Z) (h : hmem) (ps : list piece) (args : list arg) : res (list Z) :=
  match ps with
  | [] => Ok []
  | p :: ps =>
      '(o, args) ← piece_out w h p args;
      rest ← format w h ps args;
      Ok (o ++ rest)
  end.

(** One turn of the loop handles one part. *)
Ltac turn Hb Hb1 :=
  intros fuel args; cbn [printf_loop]; rewrite Hb, res_bind_Ok; simpl; rewrite Hb1, res_bind_Ok;
  unfold directive; simpl.

Lemma printf_turn w h p q l :
  is_text q → cstring h p (render q ++ l) →
  ∃ r, cstring h r l ∧ ∀ fuel args,
    printf_loop (S fuel) w h p args =
      ('(o, args) ← piece_out w h q args; rest ← printf_loop fuel w h r args; Ok (o ++ rest)).
Proof.
  intros Ht Hs. destruct q as [c| | | | | |]; simpl in Ht, Hs;
    apply cstring_cons in Hs as (Hc & Hb & Hs1); try (apply cstring_cons in Hs1 as (_ & Hb1 & Hs1));
    try (apply cstring_cons in Hs1 as (_ & Hb2 & Hs1)); (eexists; split; [exact Hs1|]).
  - intros fuel args. cbn [printf_loop]. rewrite Hb, res_bind_Ok.
    destruct (Z.eqb_spec c 0); [done|]. by destruct (Z.eqb_spec c 37); [destruct Ht|].
  - turn Hb Hb1. destruct (va_string args) as [[x y]|]; [|done]. simpl. by destruct (puts h x).
  - turn Hb Hb1. destruct (va_int args) as [[x y]|]; [|done]. simpl. by destruct (put_dec w x).
  - turn Hb Hb1. destruct (va_uint args) as [[x y]|]; [|done]. simpl. by destruct (put_hex x).
  - turn Hb Hb1. rewrite Hb2, res_bind_Ok. simpl.
    destruct (va_long w args) as [[x y]|]; [|done]. simpl. by destruct (put_dec w x).
  - turn Hb Hb1. rewrite Hb2, res_bind_Ok. simpl.
    destruct (va_ulong args) as [[x y]|]; [|done]. simpl. by destruct (put_hex x).
  - by turn Hb Hb1.
Qed.

Lemma printf_loop_format fuel w h p ps args :
  Forall is_text ps → cstring h p (concat (render <$> ps)) →
  (length (concat (render <$> ps)) < fuel)%nat →
  printf_loop fuel w h p args = format w h ps args.
Proof.
  revert fuel p args. induction ps as [|q ps IH]; intros [|fuel] p args Ht Hs Hf; [lia| |lia|].
  - simpl. by rewrite (cstring_nil h p Hs).
  - apply Forall_cons_1 in Ht as [Hq Ht]. rewrite fmap_cons in Hs, Hf. cbn [concat] in Hs, Hf. rewrite length_app in Hf.
    destruct (printf_turn w h p q _ Hq Hs) as (r & Hr & ->). simpl.
    assert (1 <= length (render q))%nat by (destruct q; simpl; lia).
    destruct (piece_out w h q args) as [[o args']|]; [|done]. simpl. rewrite (IH fuel r args'); [done|done|done|lia].
Qed.

(** C39: [printf] prints a format part by part, each directive with its argument in
    turn, and fails exactly when one of the parts does. *)
Theorem printf_spec w h fmt ps args :
  Forall is_text ps → cstring h fmt (concat (render <$> ps)) →
  printf w h fmt args = format w h ps args.
Proof. intros Ht Hs. apply printf_loop_format; [done|done|]. by apply cstring_fuel. Qed.

(** A number is printed in its usual notation, in decimal (all [long]s but the
    smallest, whose output is undefined) and in hexadecimal, within the buffers of
    the routines. *)
Theorem put_number_spec w n :
  2 <= w <= 64 →
  (- 2 ^ (w - 1) < n < 2 ^ (w - 1) → ∃ out, put_dec w n = Ok out ∧ notation 10 dec_val is_dec n out) ∧
  (n = - 2 ^ (w - 1) → put_dec w n = Fail UndefinedBehaviour) ∧
  (0 <= n < 2 ^ w → ∃ out, put_hex n = Ok out ∧ notation 16 hex_val is_hex n out).
Proof.
  intros Hw. split; [by apply put_dec_notation|]. split; [intros ->; apply put_dec_smallest; lia|].
  intros Hn. apply put_hex_notation. assert (2 ^ w <= 2 ^ 64) by (apply Z.pow_le_mono_r; lia). lia.
Qed.

(** A format that ends in a percent sign is read past its end. *)
Lemma printf_trailing_percent w h fmt args :
  h !! block fmt = Some [37; 0] → offset fmt = 0 → printf w h fmt args = Fail UndefinedBehaviour.
Proof.
  intros Hb Ho. destruct fmt as [b o]. simpl in *. subst o. unfold printf, printf_loop, byte, load_int, load_bytes, in_bounds. simpl.
  by rewrite Hb; simpl; rewrite ?Hb; simpl; rewrite ?Hb.
Qed.

Lemma cstring_block h b l : h !! b = Some (l ++ [0]) → Forall (λ c, c ≠ 0) l → cstring h (Ptr b 0) l.
Proof.
  intros Hb Hl. split; [done|]. intros i c Hc. unfold peek. simpl. rewrite Hb. simpl.
  rewrite (proj2 (Z.leb_le _ _)) by lia. by replace (Z.to_nat (0 + Z.of_nat i)) with i by lia.
Qed.

(** The output of [dma_wait] before its loop: status: %d, with the status 2. *)
Definition status_fmt : list piece :=
  (Text <$> [115; 116; 97; 116; 117; 115; 58; 32]) ++ [PercentD; Text 10].

Definition status_heap : hmem := <[1%positive := concat (render <$> status_fmt) ++ [0]]> ∅.

Lemma printf_spec_witness :
  printf 32 status_heap (Ptr 1 0) [AUInt 2] = Ok [115; 116; 97; 116; 117; 115; 58; 32; 50; 10].
Proof.
  etransitivity; [apply (printf_spec 32 status_heap (Ptr 1 0) status_fmt [AUInt 2])|reflexivity].
  - repeat constructor; discriminate.
  - apply cstring_block; [reflexivity|]. repeat constructor; discriminate.
Defined.

Lemma put_number_witness :
  (∃ out, put_dec 32 (-2147483647) = Ok out ∧ notation 10 dec_val is_dec (-2147483647) out) ∧
  put_dec 32 (-2147483648) = Fail UndefinedBehaviour ∧
  ∃ out, put_hex 0x80010000 = Ok out ∧ notation 16 hex_val is_hex 0x80010000 out.
Proof.
  split; [|split].
  - apply (put_number_spec 32 (-2147483647)); lia.
  - apply (put_number_spec 32 (-2147483648)); lia.
  - apply (put_number_spec 32 0x80010000); lia.
Defined.

End MiniLibc.
