(* ===== verification/MatMul.v ===== *)
(** The matrix multiplication of the many-core test program
    ([tests/test-progs/matmul]): the kernel of the DSP library, sequential and by
    range of rows, and the program that shares the rows out to threads. *)

From S2P Require Import Prelude CInt.
Import CInt.

Module MatMul.

(** ** The kernel *)

Section Kernel.

(** The matrices, and the conversion to the type of the elements of the result. *)
Context (conv : Z → Z) (x : list Z) (c1r2 : Z) (y : list Z) (c2 qs : Z).

(** The loop over [k]. *)
Definition product (i j : Z) : res Z :=
  for_ 0 c1r2 (λ k sum,
    m ← int (i * c1r2); xi ← int (k + m);
    m ← int (k * c2); yi ← int (j + m);
    a ← load x xi; b ← load y yi;
    p ← int (a * b); int (sum + p)) 0.

(** The body of the loop over [j]. *)
Definition assign (i j : Z) (r : list Z) : res (list Z) :=
  sum ← product i j;
  m ← int (i * c2); ri ← int (j + m);
  v ← sar sum qs;
  store r ri (conv v).

End Kernel.

Definition DSP_mat_mul_cn (x : list Z) (r1 c1r2 : Z) (y : list Z) (c2 : Z) (r : list Z) (qs : Z)
    : res (list Z) :=
  for_ 0 r1 (λ i, for_ 0 c2 (assign id x c1r2 y c2 qs i)) r.

Definition DSP_mat_mul_cn_range (x : list Z) (r1 c1r2 : Z) (y : list Z) (c2 : Z) (r : list Z) (qs : Z)
    (start_row end_row : Z) : res (list Z) :=
  for_ start_row end_row (λ i, for_ 0 c2 (assign to_short x c1r2 y c2 qs i)) r.

(** ** What the kernel computes *)

Section Spec.

Context (conv : Z → Z) (x : list Z) (r1 c1r2 : Z) (y : list Z) (c2 qs : Z).

Definition at_ (l : list Z) (i : Z) : Z := default 0 (l !! Z.to_nat i).

(** The first [n] terms of the product of row [i] and column [j]. *)
Fixpoint dot (n : nat) (i j : Z) : Z :=
  match n with
  | O => 0
  | S n => dot n i j + at_ x (Z.of_nat n + i * c1r2) * at_ y (j + Z.of_nat n * c2)
  end.

Definition value (i j : Z) : Z := conv (Z.shiftr (dot (Z.to_nat c1r2) i j) qs).

(** What the kernel asks for: its assumptions on the sizes, matrices of that size,
    and sums that fit. *)
Record fits : Prop := {
  fit_r1 : 1 <= r1 <= 32767;
  fit_c1r2 : 1 <= c1r2 <= 32767;
  fit_c2 : 1 <= c2 <= 32767;
  fit_x : r1 * c1r2 <= Z.of_nat (length x) ∧ Forall is_short x;
  fit_y : c1r2 * c2 <= Z.of_nat (length y) ∧ Forall is_short y;
  fit_qs : 0 <= qs < 32;
  fit_sum n i j : 0 <= i < r1 → 0 <= j < c2 → (n <= Z.to_nat c1r2)%nat → is_int (dot n i j);
}.

Context (Hfit : fits).

Lemma short_at l i :
  0 <= i < Z.of_nat (length l) → Forall is_short l → load l i = Ok (at_ l i) ∧ is_short (at_ l i).
Proof.
  intros Hi Hl. destruct (lookup_lt_is_Some_2 l (Z.to_nat i)) as [v Hv]; [lia|].
  unfold at_. rewrite Hv. split; [apply load_Ok; [lia|done]|]. simpl. by eapply Forall_lookup_1.
Qed.

Lemma index_range i n m j : 0 <= i < n → 0 <= j < m → n <= 32767 → m <= 32767 →
  0 <= i * m ∧ 0 <= j + i * m < n * m ∧ n * m < 2 ^ 31.
Proof. intros. nia. Qed.

Lemma is_int_small z : 0 <= z < 2 ^ 31 → is_int z.
Proof. unfold is_int. lia. Qed.

Lemma product_ok i j :
  0 <= i < r1 → 0 <= j < c2 → product x c1r2 y c2 i j = Ok (dot (Z.to_nat c1r2) i j).
Proof using Hfit.
  intros Hi Hj. destruct Hfit as [Hr Hc Hc2 [Hx Hxs] [Hy Hys] _ Hs]. unfold product.
  match goal with |- for_ _ _ ?b _ = _ => destruct (for_ind (λ k s, s = dot (Z.to_nat k) i j) 0 c1r2 b 0)
    as (s & -> & ->) end; [lia|done| |done].
  intros k s Hk ->. destruct (index_range i r1 c1r2 k) as (? & ? & ?); [lia..|].
  destruct (index_range k c1r2 c2 j) as (? & ? & ?); [lia..|].
  rewrite (int_Ok (i * c1r2)), res_bind_Ok, (int_Ok (k + i * c1r2)), res_bind_Ok, (int_Ok (k * c2)),
    res_bind_Ok, (int_Ok (j + k * c2)), res_bind_Ok by (apply is_int_small; lia).
  destruct (short_at x (k + i * c1r2)) as [-> Ha]; [lia|done|]. rewrite res_bind_Ok.
  destruct (short_at y (j + k * c2)) as [-> Hb]; [lia|done|]. rewrite res_bind_Ok.
  rewrite (int_Ok (_ * _)) by (unfold is_short, is_int in *; nia). rewrite res_bind_Ok.
  assert (dot (Z.to_nat (k + 1)) i j =
    dot (Z.to_nat k) i j + at_ x (k + i * c1r2) * at_ y (j + k * c2)) as Hd.
  { replace (Z.to_nat (k + 1)) with (S (Z.to_nat k)) by lia. simpl. by rewrite Z2Nat.id by lia. }
  rewrite <-Hd, int_Ok by (apply Hs; lia). eauto.
Qed.

Definition idx (i j : Z) : nat := Z.to_nat (j + i * c2).

Lemma assign_ok i j r :
  0 <= i < r1 → 0 <= j < c2 → r1 * c2 <= Z.of_nat (length r) →
  assign conv x c1r2 y c2 qs i j r = Ok (<[idx i j := value i j]> r).
Proof using Hfit.
  intros Hi Hj Hr. unfold assign. rewrite product_ok, res_bind_Ok by done. destruct Hfit as [? ? ? _ _ Hq _].
  destruct (index_range i r1 c2 j) as (? & ? & ?); [lia..|].
  rewrite (int_Ok (i * c2)), res_bind_Ok, (int_Ok (j + i * c2)), res_bind_Ok by (apply is_int_small; lia).
  rewrite sar_Ok, res_bind_Ok by done. by apply store_Ok; lia.
Qed.

(** [r'] is [r] with the elements selected by [W] computed. *)
Record wrote (W : Z → Z → bool) (r r' : list Z) : Prop := {
  wr_length : length r' = length r;
  wr_in i j : 0 <= i < r1 → 0 <= j < c2 →
    r' !! idx i j = if W i j then Some (value i j) else r !! idx i j;
  wr_out m : r1 * c2 <= Z.of_nat m → r' !! m = r !! m;
}.

Lemma idx_inj i j i' j' : 0 <= i → 0 <= i' → 0 <= j < c2 → 0 <= j' < c2 → idx i j = idx i' j' → i = i' ∧ j = j'.
Proof. unfold idx. intros. assert (i * c2 + j = i' * c2 + j') by nia. assert (i = i') by nia. nia. Qed.

Lemma wrote_unique W W' r r' r'' :
  wrote W r r' → wrote W' r r'' → (∀ i j, 0 <= i < r1 → 0 <= j < c2 → W i j = W' i j) → r' = r''.
Proof using Hfit.
  intros [_ Hi Ho] [_ Hi' Ho'] HW. apply list_eq. intros m.
  destruct (Z_lt_le_dec (Z.of_nat m) (r1 * c2)) as [Hm|Hm]; [|by rewrite Ho, Ho'].
  pose proof (fit_c2 Hfit). pose proof (Z.div_mod (Z.of_nat m) c2 ltac:(lia)) as Hdm.
  pose proof (Z.mod_pos_bound (Z.of_nat m) c2 ltac:(lia)).
  assert (0 <= Z.of_nat m / c2 < r1) by (split; [apply Z.div_pos; lia|apply Z.div_lt_upper_bound; lia]).
  assert (m = idx (Z.of_nat m / c2) (Z.of_nat m mod c2)) as -> by (unfold idx; lia).
  rewrite Hi, Hi', HW; done.
Qed.

Lemma wrote_ext W W' r r' :
  wrote W r r' → (∀ i j, 0 <= i < r1 → 0 <= j < c2 → W i j = W' i j) → wrote W' r r'.
Proof. intros [Hl Hi Ho] HW. constructor; [done| |done]. intros i j ? ?. by rewrite <-HW, Hi. Qed.

Lemma wrote_assign W r r' i j :
  wrote W r r' → 0 <= i < r1 → 0 <= j < c2 → r1 * c2 <= Z.of_nat (length r) →
  ∃ r'', assign conv x c1r2 y c2 qs i j r' = Ok r'' ∧
    wrote (λ i' j', W i' j' || (i' =? i) && (j' =? j)) r r''.
Proof using Hfit.
  intros [Hl Hin Hout] Hi Hj Hr. eexists. split; [apply assign_ok; [done|done|lia]|]. constructor.
  - by rewrite length_insert.
  - intros i' j' Hi' Hj'. pose proof (fit_c2 Hfit).
    destruct (Z.eqb_spec i' i), (Z.eqb_spec j' j); subst; rewrite ?orb_true_r, ?orb_false_r; simpl;
      [apply list_lookup_insert_eq; unfold idx; nia|..];
      (rewrite list_lookup_insert_ne; [by rewrite ?orb_false_r, Hin|]; intros ?%idx_inj; lia).
  - intros m Hm. rewrite list_lookup_insert_ne; [by apply Hout|]. unfold idx. nia.
Qed.

(** The elements of the rows before [b], and those of row [i] before column [j]. *)
Definition rows_in (a b i j : Z) : bool := (a <=? i) && (i <? b).
Definition cells_before (a i j i' j' : Z) : bool := rows_in a i i' j' || (i' =? i) && (j' <? j).

Lemma row_writes a i r r' :
  0 <= i < r1 → a <= i → r1 * c2 <= Z.of_nat (length r) → wrote (rows_in a i) r r' →
  ∃ r'', for_ 0 c2 (assign conv x c1r2 y c2 qs i) r' = Ok r'' ∧ wrote (rows_in a (i + 1)) r r''.
Proof using Hfit.
  intros Hi Ha Hr Hw. pose proof (fit_c2 Hfit).
  destruct (for_ind (λ j s, wrote (cells_before a i j) r s) 0 c2 (assign conv x c1r2 y c2 qs i) r')
    as (r'' & Hrun & Hw'); [lia| | |].
  - eapply wrote_ext; [exact Hw|]. intros i' j' ? ?. unfold cells_before.
    destruct (Z.ltb_spec j' 0); [lia|]. by rewrite andb_false_r, orb_false_r.
  - intros j s Hj Hs. destruct (wrote_assign _ r s i j Hs Hi Hj Hr) as (s' & -> & Hs').
    exists s'. split; [done|]. eapply wrote_ext; [exact Hs'|]. intros i' j' ? ?. unfold cells_before.
    rewrite <-orb_assoc. f_equal. destruct (Z.eqb_spec i' i); [|done]. simpl. lia.
  - exists r''. split; [done|]. eapply wrote_ext; [exact Hw'|]. intros i' j' ? ?.
    unfold cells_before, rows_in. lia.
Qed.

Lemma range_writes a b r :
  0 <= a <= b → b <= r1 → r1 * c2 <= Z.of_nat (length r) →
  ∃ r', for_ a b (λ i, for_ 0 c2 (assign conv x c1r2 y c2 qs i)) r = Ok r' ∧ wrote (rows_in a b) r r'.
Proof using Hfit.
  intros Ha Hb Hr. apply (for_ind (λ i s, wrote (rows_in a i) r s)); [lia| |].
  - constructor; try done. intros i j ? ?. unfold rows_in. by replace ((a <=? i) && (i <? a)) with false by lia.
  - intros i s Hi Hs. by apply row_writes; [lia..|].
Qed.

End Spec.

(** For matrices of the assumed sizes whose sums fit an [int], the kernel computes
    the product: element [(i, j)] of the result is the product of row [i] and
    column [j], shifted, no operation is undefined, and nothing beyond the result
    is written. *)
Theorem mat_mul_cn_spec x r1 c1r2 y c2 r qs :
  fits x r1 c1r2 y c2 qs → r1 * c2 <= Z.of_nat (length r) →
  ∃ r', DSP_mat_mul_cn x r1 c1r2 y c2 r qs = Ok r' ∧ length r' = length r ∧
    (∀ i j, 0 <= i < r1 → 0 <= j < c2 →
       r' !! Z.to_nat (j + i * c2) = Some (Z.shiftr (dot x c1r2 y c2 (Z.to_nat c1r2) i j) qs)) ∧
    (∀ m, r1 * c2 <= Z.of_nat m → r' !! m = r !! m).
Proof.
  intros Hfit Hr. pose proof (fit_r1 _ _ _ _ _ _ Hfit).
  destruct (range_writes id x r1 c1r2 y c2 qs Hfit 0 r1 r) as (r' & Hrun & [Hl Hin Hout]); [lia..|].
  exists r'. split; [done|]. split; [done|]. split; [|done]. intros i j Hi Hj.
  specialize (Hin i j Hi Hj). unfold rows_in in Hin. by replace ((0 <=? i) && (i <? r1)) with true in Hin by lia.
Qed.

(** ** The program *)

Section Threads.

(** [mat_n] and the number of threads asked for. *)
Context (mat_n num : Z) (mat_a mat_b : list Z).

(** A thread: its rows, and where it is. *)
Record thread := mkThread {
  start_row : Z;
  end_row : Z;
  row : Z;
  col : Z;
  exited : bool;
}.

(** One step of [thread_worker]: an element of the result, the end of a row, or the
    end of the work, where it sets its flag. *)
Definition thread_step (th : thread) (c : list Z) : res (thread * list Z) :=
  if row th <? end_row th then
    if col th <? mat_n then
      c ← assign to_short mat_a mat_n mat_b mat_n 0 (row th) (col th) c;
      Ok (mkThread (start_row th) (end_row th) (row th) (col th + 1) false, c)
    else Ok (mkThread (start_row th) (end_row th) (row th + 1) 0 false, c)
  else Ok (mkThread (start_row th) (end_row th) (row th) (col th) true, c).

(** What a thread still has to do, as the rest of the kernel's loops. *)
Definition rest (th : thread) (c : list Z) : res (list Z) :=
  let body i := for_ 0 mat_n (assign to_short mat_a mat_n mat_b mat_n 0 i) in
  if row th <? end_row th then
    c ← for_ (col th) mat_n (assign to_short mat_a mat_n mat_b mat_n 0 (row th)) c;
    for_ (row th + 1) (end_row th) body c
  else Ok c.

(** The worker started on its rows does what the kernel does on them. *)
Lemma rest_start a b c :
  rest (mkThread a b a 0 false) c = DSP_mat_mul_cn_range mat_a mat_n mat_n mat_b mat_n c 0 a b.
Proof.
  unfold rest, DSP_mat_mul_cn_range. simpl. destruct (Z.ltb_spec a b).
  - by rewrite (for_step a b).
  - by rewrite for_done.
Qed.

Lemma rest_step th c :
  rest th c = ('(th', c') ← thread_step th c; rest th' c').
Proof.
  unfold thread_step. destruct (Z.ltb_spec (row th) (end_row th)) as [Hr|Hr].
  - destruct (Z.ltb_spec (col th) mat_n) as [Hc|Hc].
    + unfold rest. rewrite (proj2 (Z.ltb_lt _ _) Hr), (for_step (col th)) by done. simpl.
      destruct (assign _ _ _ _ _ _ _ _ c) as [c'|f]; [|done]. simpl.
      by rewrite (proj2 (Z.ltb_lt _ _) Hr).
    + unfold rest. simpl. rewrite (proj2 (Z.ltb_lt _ _) Hr), for_done, res_bind_Ok by done.
      destruct (Z.ltb_spec (row th + 1) (end_row th)); [by rewrite for_step|by rewrite for_done].
  - unfold rest. simpl. by destruct (Z.ltb_spec (row th) (end_row th)); [lia|].
Qed.

(** The main thread: creating thread [t], whose rows begin at [current_row]; in the
    waiting loop, having seen the flags before [t]; or at its end. *)
Inductive main_pc :=
  | Creating (t current_row : Z)
  | Waiting (t : Z)
  | Returned.

Record sys := mkSys {
  mat_c : list Z;
  threads : list thread;
  thread_done : list bool;
  num_threads : Z;
  pc : main_pc;
}.

Definition rows_per_thread : Z := Z.quot mat_n num.
Definition extra_rows : Z := Z.rem mat_n num.
Definition rows (t : Z) : Z := rows_per_thread + (if t <? extra_rows then 1 else 0).

(** The call of [clone_syscall] succeeds or fails as the system decides. *)
Inductive step : sys → sys → Prop :=
  | step_create s t r :
      pc s = Creating t r → t < num_threads s →
      step s (mkSys (mat_c s) (threads s ++ [mkThread r (r + rows t) r 0 false]) (thread_done s)
                (num_threads s) (Creating (t + 1) (r + rows t)))
  | step_create_failed s t r :
      pc s = Creating t r → t < num_threads s →
      step s (mkSys (mat_c s) (threads s) (thread_done s) t (Waiting 0))
  | step_created s t r :
      pc s = Creating t r → num_threads s <= t →
      step s (mkSys (mat_c s) (threads s) (thread_done s) (num_threads s) (Waiting 0))
  | step_wait s t (b : bool) :
      pc s = Waiting t → t < num_threads s → thread_done s !! Z.to_nat t = Some b →
      step s (mkSys (mat_c s) (threads s) (thread_done s) (num_threads s) (Waiting (if b then t + 1 else 0)))
  | step_return s t :
      pc s = Waiting t → num_threads s <= t →
      step s (mkSys (mat_c s) (threads s) (thread_done s) (num_threads s) Returned)
  | step_work s i th th' c :
      threads s !! i = Some th → exited th = false → thread_step th (mat_c s) = Ok (th', c) →
      step s (mkSys c (<[i := th']> (threads s))
                (if exited th' then <[i := true]> (thread_done s) else thread_done s)
                (num_threads s) (pc s)).

(** [main] once the matrices and the flags are initialised. *)
Definition start (c : list Z) (flags : nat) : sys := mkSys c [] (replicate flags false) num (Creating 0 0).

(** ** Runs *)

Context (Hnum : 0 < num) (Hfit : fits mat_a mat_n mat_n mat_b mat_n 0).

(** The first row of thread [t]. *)
Definition first (t : Z) : Z := t * (mat_n / num) + Z.min t (mat_n mod num).

Lemma size_pos : 1 <= mat_n <= 32767.
Proof using Hfit. apply Hfit. Qed.

Lemma rows_first t : first (t + 1) = first t + rows t.
Proof using Hnum Hfit.
  pose proof size_pos. unfold rows, rows_per_thread, extra_rows, first.
  rewrite Z.quot_div_nonneg, Z.rem_mod_nonneg by lia. destruct (Z.ltb_spec t (mat_n mod num)); lia.
Qed.

Lemma first_0 : first 0 = 0.
Proof using Hnum. unfold first. pose proof (Z.mod_pos_bound mat_n num Hnum). lia. Qed.

Lemma first_end : first num = mat_n.
Proof using Hnum.
  unfold first. pose proof (Z.mod_pos_bound mat_n num Hnum). pose proof (Z.div_mod mat_n num ltac:(lia)). lia.
Qed.

Lemma first_mono t t' : 0 <= t <= t' → 0 <= first t <= first t'.
Proof using Hnum Hfit.
  intros Ht. pose proof size_pos. unfold first. pose proof (Z.mod_pos_bound mat_n num Hnum).
  assert (0 <= mat_n / num) by (apply Z.div_pos; lia). nia.
Qed.

(** The elements a thread has written. *)
Definition covered (th : thread) (i j : Z) : bool :=
  (start_row th <=? i) && ((i <? row th) || (i =? row th) && (row th <? end_row th) && (j <? col th)).

Record placed (i : nat) (th : thread) : Prop := {
  pl_start : start_row th = first (Z.of_nat i);
  pl_end : end_row th = first (Z.of_nat i + 1);
  pl_row : start_row th <= row th <= end_row th;
  pl_col : 0 <= col th <= mat_n;
  pl_exited : exited th = true → row th = end_row th;
}.

Definition all_exited (l : list thread) : Prop := Forall (λ th, exited th = true) l.

(** What is known of the main thread. *)
Definition main_ok (s : sys) : Prop :=
  let n := Z.of_nat (length (threads s)) in
  match pc s with
  | Creating t r => t = n ∧ r = first t ∧ num_threads s = num
  | Waiting t => num_threads s = n ∧ 0 <= t <= n ∧ all_exited (take (Z.to_nat t) (threads s))
  | Returned => num_threads s = n ∧ all_exited (threads s)
  end.

Record inv (c0 : list Z) (s : sys) : Prop := {
  inv_count : Z.of_nat (length (threads s)) <= num;
  inv_placed i th : threads s !! i = Some th → placed i th;
  inv_flags i th : threads s !! i = Some th → thread_done s !! i = Some (exited th);
  inv_unset i : (length (threads s) <= i)%nat → Z.of_nat i < num → thread_done s !! i = Some false;
  inv_main : main_ok s;
  inv_cells : wrote to_short mat_a mat_n mat_n mat_b mat_n 0
    (λ i j, existsb (λ th, covered th i j) (threads s)) c0 (mat_c s);
}.

Lemma existsb_insert {A} (f : A → bool) l k a b e :
  l !! k = Some a → f b = f a || e → existsb f (<[k := b]> l) = existsb f l || e.
Proof.
  revert k. induction l as [|x l IH]; intros [|k] Hk Hf; simplify_eq/=.
  - rewrite Hf. by rewrite <-!orb_assoc, (orb_comm e).
  - by rewrite (IH k) by done; rewrite orb_assoc.
Qed.

Lemma thread_works c0 k s th :
  inv c0 s → threads s !! k = Some th → mat_n * mat_n <= Z.of_nat (length c0) →
  ∃ th' c, thread_step th (mat_c s) = Ok (th', c) ∧ placed k th' ∧
    wrote to_short mat_a mat_n mat_n mat_b mat_n 0
      (λ i j, existsb (λ th, covered th i j) (<[k := th']> (threads s))) c0 c.
Proof using Hfit Hnum.
  intros [Hcnt Hpl _ _ _ Hw] Hk Hlen. pose proof (Hpl k th Hk) as [Hs He Hr Hc Hx].
  pose proof (lookup_lt_Some _ _ _ Hk) as Hlt.
  pose proof (first_mono (Z.of_nat k) (Z.of_nat k) ltac:(lia)).
  pose proof (first_mono (Z.of_nat k + 1) num ltac:(lia)) as Hend. rewrite first_end in Hend.
  unfold thread_step. destruct (Z.ltb_spec (row th) (end_row th)) as [Hlr|Hlr].
  - destruct (Z.ltb_spec (col th) mat_n) as [Hlc|Hlc].
    + destruct (wrote_assign to_short mat_a mat_n mat_n mat_b mat_n 0 Hfit _ c0 (mat_c s) (row th) (col th) Hw)
        as (c & -> & Hw'); [lia..|]. rewrite res_bind_Ok.
      eexists _, c. split; [done|]. split; [by constructor; simpl; [..|done]; lia|].
      eapply wrote_ext; [exact Hw'|]. intros i j Hi Hj. symmetry. apply (existsb_insert _ _ _ th); [done|].
      unfold covered. simpl. lia.
    + eexists _, (mat_c s). split; [done|]. split; [by constructor; simpl; [..|done]; lia|].
      eapply wrote_ext; [exact Hw|]. intros i j Hi Hj. rewrite (existsb_insert _ _ _ th _ false); [by rewrite orb_false_r|done|].
      unfold covered. simpl. lia.
  - eexists _, (mat_c s). split; [done|]. split; [by constructor; simpl; [..|lia]; lia|].
    eapply wrote_ext; [exact Hw|]. intros i j Hi Hj. rewrite (existsb_insert _ _ _ th _ false); [by rewrite orb_false_r|done|].
    unfold covered. simpl. lia.
Qed.

Lemma work_main s k th th' c d :
  main_ok s → threads s !! k = Some th → exited th = false →
  main_ok (mkSys c (<[k := th']> (threads s)) d (num_threads s) (pc s)).
Proof.
  unfold main_ok. simpl. rewrite length_insert. intros Hm Hk Hx. destruct (pc s) as [t r|t|]; [done| |].
  - destruct Hm as (? & ? & Hex). split; [done|]. split; [done|].
    rewrite take_insert_ge; [done|]. destruct (decide (Z.to_nat t <= k)%nat) as [|Hlt]; [done|].
    assert (take (Z.to_nat t) (threads s) !! k = Some th) as Hk' by (rewrite lookup_take_lt by lia; done).
    pose proof (Forall_lookup_1 _ _ _ _ Hex Hk') as Hbad. simpl in Hbad. congruence.
  - destruct Hm as [? Hex]. pose proof (Forall_lookup_1 _ _ _ _ Hex Hk) as Hbad. simpl in Hbad. congruence.
Qed.

Lemma create_inv c0 s t r :
  inv c0 s → pc s = Creating t r → t < num_threads s →
  inv c0 (mkSys (mat_c s) (threads s ++ [mkThread r (r + rows t) r 0 false]) (thread_done s)
            (num_threads s) (Creating (t + 1) (r + rows t))).
Proof using Hfit Hnum.
  intros [Hcnt Hpl Hfl Hun Hmain Hw] Hpc Ht. unfold main_ok in Hmain. rewrite Hpc in Hmain.
  destruct Hmain as (Hlen & Hr & Hnt). pose proof size_pos.
  pose proof (first_mono t (t + 1) ltac:(lia)) as Hf. rewrite rows_first in Hf. constructor; simpl.
  - rewrite length_app. simpl. lia.
  - intros i th [Hi|[Hge Hi]]%lookup_app_Some; [by apply Hpl|].
    destruct (i - length (threads s))%nat as [|m] eqn:Hm; [|done]. simpl in Hi. injection Hi as <-.
    assert (Z.of_nat i = t) as Hit by lia. constructor; simpl; rewrite ?Hit, ?rows_first; try done; lia.
  - intros i th [Hi|[Hge Hi]]%lookup_app_Some; [by apply Hfl|].
    destruct (i - length (threads s))%nat as [|m] eqn:Hm; [|done]. simpl in Hi. injection Hi as <-.
    apply Hun; lia.
  - intros i. rewrite length_app. simpl. intros. apply Hun; lia.
  - unfold main_ok. simpl. rewrite length_app, rows_first. simpl. split; [lia|]. split; [lia|done].
  - eapply wrote_ext; [exact Hw|]. intros i j Hi Hj. rewrite existsb_app. simpl. unfold covered at 3. simpl.
    assert ((r <=? i) && ((i <? r) || (i =? r) && (r <? r + rows t) && (j <? 0)) = false) as -> by lia.
    by rewrite !orb_false_r.
Qed.

Lemma thread_step_inv c0 s s' :
  mat_n * mat_n <= Z.of_nat (length c0) → inv c0 s → step s s' → inv c0 s'.
Proof using Hfit Hnum.
  intros Hlen Hi Hst. destruct Hst as [s t r Hpc Ht|s t r Hpc Ht|s t r Hpc Ht|s t b Hpc Ht Hb|s t Hpc Ht|s k th th' c Hk Hx Hs].
  - by apply create_inv.
  - destruct Hi as [Hcnt Hpl Hfl Hun Hmain Hw]. constructor; try done. unfold main_ok in *. rewrite Hpc in Hmain. simpl.
    destruct Hmain as (? & ? & ?). split; [lia|]. split; [lia|constructor].
  - destruct Hi as [Hcnt Hpl Hfl Hun Hmain Hw]. constructor; try done. unfold main_ok in *. rewrite Hpc in Hmain. simpl.
    destruct Hmain as (? & ? & ?). split; [lia|]. split; [lia|constructor].
  - destruct Hi as [Hcnt Hpl Hfl Hun Hmain Hw]. constructor; try done. unfold main_ok in *. rewrite Hpc in Hmain. simpl.
    destruct Hmain as (? & ? & Hex). split; [done|]. destruct b; [|split; [lia|constructor]]. split; [lia|].
    destruct (lookup_lt_is_Some_2 (threads s) (Z.to_nat t)) as [th Hth]; [lia|].
    replace (Z.to_nat (t + 1)) with (S (Z.to_nat t)) by lia. rewrite (take_S_r _ _ th) by done.
    apply Forall_app. split; [done|]. constructor; [|constructor]. pose proof (Hfl _ _ Hth). congruence.
  - destruct Hi as [Hcnt Hpl Hfl Hun Hmain Hw]. constructor; try done. unfold main_ok in *. rewrite Hpc in Hmain. simpl.
    destruct Hmain as (? & ? & Hex). split; [done|]. by rewrite take_ge in Hex by lia.
  - destruct (thread_works c0 k s th Hi Hk Hlen) as (th2 & c2 & Hs2 & Hpl' & Hw'). rewrite Hs in Hs2.
    injection Hs2 as <- <-. destruct Hi as [Hcnt Hpl Hfl Hun Hmain Hw].
    pose proof (lookup_lt_Some _ _ _ Hk) as Hlt. pose proof (Hfl _ _ Hk) as Hflk. constructor; simpl; try done.
    + by rewrite length_insert.
    + intros i th0. rewrite list_lookup_insert_Some. intros [(<- & -> & _)|[Hne Hi]]; [done|by apply Hpl].
    + intros i th0. rewrite list_lookup_insert_Some. intros [(<- & -> & _)|[Hne Hi]].
      * destruct (exited th0); [|congruence]. apply list_lookup_insert_eq. by eapply lookup_lt_Some.
      * destruct (exited th'); [rewrite list_lookup_insert_ne by done|]; by apply Hfl.
    + intros i. rewrite length_insert. intros Hi ?.
      destruct (exited th'); [rewrite list_lookup_insert_ne by lia|]; by apply Hun.
    + by eapply work_main.
Qed.

Lemma start_inv c0 flags :
  mat_n * mat_n <= Z.of_nat (length c0) → num <= Z.of_nat flags → inv c0 (start c0 flags).
Proof using Hnum Hfit.
  intros Hlen Hfl. pose proof size_pos. constructor; simpl; try done.
  - lia.
  - intros i _ Hi. apply lookup_replicate. split; [done|lia].
  - unfold main_ok. simpl. by rewrite first_0.
Qed.

(** Once all threads have exited, the rows they were given are computed. *)
Lemma exited_rows l :
  (∀ k th, l !! k = Some th → placed k th ∧ exited th = true) →
  ∀ i j, 0 <= i → existsb (λ th, covered th i j) l = rows_in 0 (first (Z.of_nat (length l))) i j.
Proof using Hnum Hfit.
  induction l as [|th l IH] using rev_ind; intros Hl i j Hi.
  - unfold rows_in. change (Z.of_nat (length [])) with 0. rewrite first_0. simpl. lia.
  - rewrite existsb_app, (IH (λ k th' H, Hl k th' (lookup_app_l_Some _ _ _ _ H)) i j Hi). simpl.
    destruct (Hl (length l) th) as [[Hs He Hr _ Hx] Hex]; [by rewrite list_lookup_middle|].
    specialize (Hx Hex). rewrite length_app. simpl. rewrite Nat2Z.inj_add. simpl. change (Z.of_nat 1) with 1.
    pose proof (first_mono (Z.of_nat (length l)) (Z.of_nat (length l) + 1) ltac:(lia)).
    unfold rows_in, covered. rewrite <-He in *. lia.
Qed.

Lemma runs_inv c0 s s' :
  mat_n * mat_n <= Z.of_nat (length c0) → inv c0 s → rtc step s s' → inv c0 s'.
Proof using Hfit Hnum. intros Hlen Hi Hr. induction Hr; eauto using thread_step_inv. Qed.

Lemma returned_rows c0 s :
  mat_n * mat_n <= Z.of_nat (length c0) → inv c0 s → pc s = Returned →
  0 <= first (num_threads s) <= mat_n ∧
  DSP_mat_mul_cn_range mat_a mat_n mat_n mat_b mat_n c0 0 0 (first (num_threads s)) = Ok (mat_c s).
Proof using Hfit Hnum.
  intros Hlen [Hcnt Hpl _ _ Hmain Hw] Hpc. unfold main_ok in Hmain. rewrite Hpc in Hmain.
  destruct Hmain as [-> Hex].
  pose proof (first_mono (Z.of_nat (length (threads s))) num ltac:(lia)) as Hf. rewrite first_end in Hf.
  split; [done|]. unfold DSP_mat_mul_cn_range.
  destruct (range_writes to_short mat_a mat_n mat_n mat_b mat_n 0 Hfit 0
    (first (Z.of_nat (length (threads s)))) c0) as (c & -> & Hc); [lia..|]. f_equal.
  eapply wrote_unique; [exact Hfit|exact Hc|exact Hw|]. intros i j Hi Hj. symmetry.
  apply exited_rows; [|lia]. intros k th Hk. split; [by apply Hpl|]. by apply (Forall_lookup_1 _ _ _ _ Hex Hk).
Qed.

(** ** The program can always end *)

(** The steps a thread has to make. *)
Definition work (th : thread) : nat :=
  if exited th then 0 else
  S (Z.to_nat ((end_row th - row th) * (mat_n + 1) + (if row th <? end_row th then - col th else 0))).

Definition works (l : list thread) : nat := sum_list_with work l.

Lemma works_insert l k th th' :
  l !! k = Some th → (works (<[k := th']> l) + work th = works l + work th')%nat.
Proof.
  revert k. induction l as [|x l IH]; intros [|k] Hk; simplify_eq/=; unfold works in *; simpl; [lia|].
  specialize (IH k Hk). lia.
Qed.

Lemma work_less k th c th' c' :
  placed k th → exited th = false → thread_step th c = Ok (th', c') → (work th' < work th)%nat.
Proof using Hfit.
  intros [Hs He Hr Hc _] Hx. pose proof size_pos. unfold thread_step, work. rewrite Hx.
  destruct (Z.ltb_spec (row th) (end_row th)); [destruct (Z.ltb_spec (col th) mat_n)|].
  - intros (c2 & _ & [= <- <-])%bind_Ok. simpl. rewrite (proj2 (Z.ltb_lt _ _)) by done. nia.
  - intros [= <- <-]. simpl. destruct (Z.ltb_spec (row th + 1) (end_row th)); nia.
  - intros [= <- <-]. simpl. lia.
Qed.

(** All threads run to their end. *)
Lemma threads_end c0 s :
  mat_n * mat_n <= Z.of_nat (length c0) → inv c0 s →
  ∃ s', rtc step s s' ∧ all_exited (threads s') ∧ pc s' = pc s ∧
    num_threads s' = num_threads s ∧ length (threads s') = length (threads s).
Proof using Hfit Hnum.
  intros Hlen. remember (works (threads s)) as w eqn:Hw. revert s Hw.
  induction (lt_wf w) as [w _ IH]. intros s -> Hi.
  destruct (decide (all_exited (threads s))) as [|Hex]; [by exists s|].
  apply not_Forall_Exists, Exists_exists in Hex as (th & [k Hk]%list_elem_of_lookup & Hx); [|intros; apply _].
  apply not_true_is_false in Hx.
  destruct (thread_works c0 k s th Hi Hk Hlen) as (th' & c & Hs & _ & _).
  pose proof (step_work s k th th' c Hk Hx Hs) as Hst.
  pose proof (work_less k th _ th' c (inv_placed _ _ Hi _ _ Hk) Hx Hs).
  pose proof (works_insert (threads s) k th th' Hk).
  pose proof (thread_step_inv _ _ _ Hlen Hi Hst) as Hi'.
  destruct (λ H, IH _ H _ eq_refl Hi')
    as (s' & Hr & ? & Hpc & Hnt & Hl); [simpl; lia|]. simpl in *. rewrite length_insert in Hl.
  exists s'. split; [by eapply rtc_l|done].
Qed.

(** With all threads at their end, the waiting loop ends. *)
Lemma waiting_ends c0 s t :
  mat_n * mat_n <= Z.of_nat (length c0) → inv c0 s → pc s = Waiting t → all_exited (threads s) →
  ∃ s', rtc step s s' ∧ pc s' = Returned.
Proof using Hfit Hnum.
  intros Hlen. remember (Z.to_nat (num_threads s - t)) as w eqn:Hw. revert s t Hw.
  induction w as [|w IH]; intros s t Hw Hi Hpc Hex.
  - eexists. split; [apply rtc_once, (step_return s t); [done|lia]|done].
  - pose proof (inv_main _ _ Hi) as Hmain. unfold main_ok in Hmain. rewrite Hpc in Hmain. destruct Hmain as (Hn & Ht & _).
    destruct (lookup_lt_is_Some_2 (threads s) (Z.to_nat t)) as [th Hth]; [lia|].
    pose proof (inv_flags _ _ Hi _ _ Hth) as Hf. rewrite (Forall_lookup_1 _ _ _ _ Hex Hth) in Hf.
    pose proof (step_wait s t true Hpc ltac:(lia) Hf) as Hst.
    destruct (λ H, IH _ (t + 1) H (thread_step_inv _ _ _ Hlen Hi Hst) eq_refl Hex) as (s' & ? & ?); [simpl; lia|].
    exists s'. split; [by eapply rtc_l|done].
Qed.

(** All threads are created, if the system lets them be. *)
Lemma creating_ends c0 s t r0 :
  mat_n * mat_n <= Z.of_nat (length c0) → inv c0 s → pc s = Creating t r0 →
  ∃ s', rtc step s s' ∧ pc s' = Waiting 0.
Proof using Hfit Hnum.
  intros Hlen. remember (Z.to_nat (num_threads s - t)) as w eqn:Hw. revert s t r0 Hw.
  induction w as [|w IH]; intros s t r0 Hw Hi Hpc.
  - eexists. split; [apply rtc_once, (step_created s t r0); [done|lia]|done].
  - pose proof (step_create s t r0 Hpc ltac:(lia)) as Hst.
    destruct (λ H, IH _ (t + 1) (r0 + rows t) H (thread_step_inv _ _ _ Hlen Hi Hst) eq_refl) as (s' & ? & ?); [simpl; lia|].
    exists s'. split; [by eapply rtc_l|done].
Qed.

Lemma program_ends c0 s :
  mat_n * mat_n <= Z.of_nat (length c0) → inv c0 s → ∃ s', rtc step s s' ∧ pc s' = Returned.
Proof using Hfit Hnum.
  intros Hlen Hi.
  assert (∀ s t, inv c0 s → pc s = Waiting t → ∃ s', rtc step s s' ∧ pc s' = Returned) as Hwait.
  { clear s Hi. intros s t Hi Hpc. destruct (threads_end c0 s Hlen Hi) as (s1 & H1 & Hex & Hpc1 & _).
    rewrite Hpc in Hpc1. destruct (waiting_ends c0 s1 t Hlen (runs_inv _ _ _ Hlen Hi H1) Hpc1 Hex) as (s2 & ? & ?).
    exists s2. split; [by etrans|done]. }
  destruct (pc s) as [t r|t|] eqn:Hpc; [|by eapply Hwait|by exists s].
  destruct (creating_ends c0 s t r Hlen Hi Hpc) as (s1 & H1 & Hpc1).
  destruct (Hwait s1 0 (runs_inv _ _ _ Hlen Hi H1) Hpc1) as (s2 & ? & ?). exists s2. split; [by etrans|done].
Qed.

End Threads.

(** C21: the threads of the program, however their steps and those of the main thread
    are interleaved, never do anything undefined, and when [main] returns the
    result is that of the sequential kernel on the rows of the threads that were
    created, all rows if no [clone] failed; the program can always be brought to
    that point. *)
Theorem matmul_threads mat_n num mat_a mat_b c0 flags s :
  0 < num → fits mat_a mat_n mat_n mat_b mat_n 0 →
  mat_n * mat_n <= Z.of_nat (length c0) → num <= Z.of_nat flags →
  rtc (step mat_n num mat_a mat_b) (start num c0 flags) s →
  (∀ i th, threads s !! i = Some th → ∃ r, thread_step mat_n mat_a mat_b th (mat_c s) = Ok r) ∧
  (pc s = Returned →
     DSP_mat_mul_cn_range mat_a mat_n mat_n mat_b mat_n c0 0 0 (first mat_n num (num_threads s)) = Ok (mat_c s) ∧
     (num_threads s = num → first mat_n num (num_threads s) = mat_n)) ∧
  ∃ s', rtc (step mat_n num mat_a mat_b) s s' ∧ pc s' = Returned.
Proof.
  intros Hnum Hfit Hlen Hfl Hr.
  assert (inv mat_n num mat_a mat_b c0 s) as Hi.
  { apply (runs_inv mat_n num mat_a mat_b Hnum Hfit c0 (start num c0 flags)); [done| |done].
    by apply start_inv. }
  split; [|split].
  - intros i th Hth. destruct (thread_works mat_n num mat_a mat_b Hnum Hfit c0 i s th Hi Hth Hlen)
      as (? & ? & -> & _). eauto.
  - intros Hpc. split; [by apply (returned_rows mat_n num mat_a mat_b Hnum Hfit)|].
    intros ->. by apply first_end.
  - by apply (program_ends mat_n num mat_a mat_b Hnum Hfit c0).
Qed.

(** ** The matrices of the program *)

Lemma at_bounded B l i : 0 <= B → Forall (λ v, - B <= v <= B) l → - B <= at_ l i <= B.
Proof.
  intros HB Hl. unfold at_. destruct (l !! Z.to_nat i) as [v|] eqn:Hv; simpl; [|lia].
  exact (Forall_lookup_1 _ _ _ _ Hl Hv).
Qed.

Lemma dot_bounded B x c1r2 y c2 n i j :
  0 <= B → Forall (λ v, - B <= v <= B) x → Forall (λ v, - B <= v <= B) y →
  - (Z.of_nat n * (B * B)) <= dot x c1r2 y c2 n i j <= Z.of_nat n * (B * B).
Proof.
  intros HB Hx Hy. induction n as [|n IH]; [simpl; lia|]. cbn [dot].
  pose proof (at_bounded B x (Z.of_nat n + i * c1r2) HB Hx).
  pose proof (at_bounded B y (j + Z.of_nat n * c2) HB Hy). nia.
Qed.

(** Elements small enough that no sum can overflow. *)
Lemma fits_bounded B x r1 c1r2 y c2 qs :
  1 <= r1 <= 32767 → 1 <= c1r2 <= 32767 → 1 <= c2 <= 32767 → 0 <= qs < 32 →
  0 <= B < 2 ^ 15 → c1r2 * (B * B) < 2 ^ 31 →
  r1 * c1r2 <= Z.of_nat (length x) → Forall (λ v, - B <= v <= B) x →
  c1r2 * c2 <= Z.of_nat (length y) → Forall (λ v, - B <= v <= B) y → fits x r1 c1r2 y c2 qs.
Proof.
  intros ? ? ? ? HB HBB Hx Hxs Hy Hys. constructor; try done.
  - split; [done|]. eapply Forall_impl; [exact Hxs|]. unfold is_short. simpl. lia.
  - split; [done|]. eapply Forall_impl; [exact Hys|]. unfold is_short. simpl. lia.
  - intros n i j _ _ Hn. pose proof (dot_bounded B x c1r2 y c2 n i j ltac:(lia) Hxs Hys). unfold is_int. nia.
Qed.

(** The matrices of [main]: all elements are 10. *)
Definition mat_10 : list Z := replicate 4096 10.

Lemma mat_10_fits qs : 0 <= qs < 32 → fits mat_10 64 64 mat_10 64 qs.
Proof.
  intros Hq. assert (Forall (λ v, - 10 <= v <= 10) mat_10) by (apply Forall_replicate; lia).
  assert (length mat_10 = 4096%nat) as Hl by apply length_replicate.
  apply (fits_bounded 10); rewrite ?Hl; try done; lia.
Qed.

(** Element [(1, 2)] of a product of 64 by 64 matrices of tens. *)
Lemma mat_mul_cn_witness :
  ∃ r', DSP_mat_mul_cn mat_10 64 64 mat_10 64 (replicate 4096 0) 0 = Ok r' ∧ r' !! 66%nat = Some 6400.
Proof.
  destruct (mat_mul_cn_spec mat_10 64 64 mat_10 64 (replicate 4096 0) 0) as (r' & Hr & _ & Hin & _).
  - apply mat_10_fits. lia.
  - rewrite length_replicate. lia.
  - exists r'. split; [exact Hr|]. etransitivity; [exact (Hin 1 2 ltac:(lia) ltac:(lia))|]. vm_compute. reflexivity.
Defined.

(** The program as it is, with 31 threads, returns. *)
Lemma matmul_threads_witness :
  ∃ s, rtc (step 64 31 mat_10 mat_10) (start 31 (replicate 4096 0) 32) s ∧ pc s = Returned.
Proof.
  destruct (matmul_threads 64 31 mat_10 mat_10 (replicate 4096 0) 32 (start 31 (replicate 4096 0) 32))
    as (_ & _ & Hend).
  - lia.
  - apply mat_10_fits. lia.
  - rewrite length_replicate. lia.
  - lia.
  - constructor.
  - exact Hend.
Defined.

(** When a [clone] fails, [main] goes on with the threads it has, but the rows of the
    others belong to nobody and are never computed; with 30 of the 31 threads,
    these are the rows 62 and 63. *)
Lemma failed_clone_loses_rows mat_n num mat_a mat_b c0 flags s i j :
  0 < num → fits mat_a mat_n mat_n mat_b mat_n 0 →
  mat_n * mat_n <= Z.of_nat (length c0) → num <= Z.of_nat flags →
  rtc (step mat_n num mat_a mat_b) (start num c0 flags) s → pc s = Returned →
  first mat_n num (num_threads s) <= i < mat_n → 0 <= j < mat_n →
  mat_c s !! idx mat_n i j = c0 !! idx mat_n i j.
Proof.
  intros Hnum Hfit Hlen Hfl Hr Hpc Hi Hj.
  assert (inv mat_n num mat_a mat_b c0 s) as Hinv.
  { apply (runs_inv mat_n num mat_a mat_b Hnum Hfit c0 (start num c0 flags)); [done| |done]. by apply start_inv. }
  destruct (returned_rows mat_n num mat_a mat_b Hnum Hfit c0 s Hlen Hinv Hpc) as [Hf Hrun].
  destruct (range_writes to_short mat_a mat_n mat_n mat_b mat_n 0 Hfit 0 (first mat_n num (num_threads s)) c0)
    as (c & Hc & Hw); [lia..|]. unfold DSP_mat_mul_cn_range in Hrun. rewrite Hrun in Hc. injection Hc as <-.
  rewrite (wr_in _ _ _ _ _ _ _ _ _ _ Hw) by lia. unfold rows_in.
  by replace ((0 <=? i) && (i <? first mat_n num (num_threads s))) with false by lia.
Qed.

End MatMul.
