(* ===== verification/Driver.v ===== *)
(** The driver of the iDMA device in the test program ([spm_test.c]): [dma_start]
    programs the registers and writes the command, [dma_wait] polls the status
    register. *)

From S2P Require Import Prelude Host Request MemCmd Packet AbstractMem MemInterface.
From S2P Require Import PageTable Dma DmaVirt DmaPeer Idma IdmaTiming.
Import Host DmaPort DmaVirtDevice IDMA.

Module Driver.

Section Program.

Context {M : Type} (dmaRead : DmaFn (M := M)).

(** The four stores of [dma_start], each a packet that arrives at its time. *)
Record stores := mkStores {
  src_reg : Z * Packet.t;
  dst_reg : Z * Packet.t;
  size_reg : Z * Packet.t;
  cmd_reg : Z * Packet.t;
}.

Definition store (x : Z * Packet.t) (s : IDMA.t M) : res (IDMA.t M) :=
  '(_, s, _) ← write dmaRead x.1 x.2 s; Ok s.

Definition dma_start (x : stores) (s : IDMA.t M) : res (IDMA.t M) :=
  s ← store (src_reg x) s;
  s ← store (dst_reg x) s;
  s ← store (size_reg x) s;
  store (cmd_reg x) s.

(** The load of the status register in the loop of [dma_wait], and its test. *)
Definition poll (q : Packet.t) (s : IDMA.t M) : res (Z * IDMA.t M) :=
  '(_, s, _) ← read q s;
  v ← Packet.getLE (heap_of s) 4 q;
  Ok (v, s).

Definition dma_done (v : Z) : bool := v =? 2.

(** A store of [v] to the register at [off]. *)
Definition stores_to (s : IDMA.t M) (off v : Z) (p : Packet.t) : Prop :=
  0 <= v < 2 ^ 32 ∧ (∃ d, reg_access s off p d) ∧ Packet.getLE (heap_of s) 4 p = Ok v.

(** The packets of [dma_start(src, dst, size)]. *)
Record start_args (s : IDMA.t M) (src dst size : Z) (x : stores) : Prop := {
  sa_src : stores_to s REG_SRC_ADDR_OFFSET src (src_reg x).2;
  sa_dst : stores_to s REG_DST_ADDR_OFFSET dst (dst_reg x).2;
  sa_size : stores_to s REG_SIZE_OFFSET size (size_reg x).2;
  sa_cmd : stores_to s REG_COMMAND_OFFSET 1 (cmd_reg x).2;
}.

(** Register stores do not change what a store needs. *)
Lemma stores_to_regs a b n c st s off v p :
  stores_to s off v p → stores_to (set_regs a b n c st s) off v p.
Proof. intros (? & (d & [? ? ?]) & ?). split; [done|]. split; [|done]. exists d. by constructor. Qed.

Lemma store_src t v p s :
  0 <= srcAddrReg s < 2 ^ 32 → stores_to s REG_SRC_ADDR_OFFSET v p →
  store (t, p) s = Ok (set_regs v (dstAddrReg s) (sizeReg s) (commandReg s) (statusReg s) s).
Proof.
  intros Hs (Hv & (d & [(a & Ha & Ho) Hb Hr]) & Hg). unfold store, write. simpl.
  rewrite Ha, res_bind_Ok, (Packet.getSize_buffer _ _ _ _ Hb), res_bind_Ok, Ho. simpl.
  by rewrite Hg, !res_bind_Ok, keep_low_half, (AbstractMemory.makeResponse_Ok p Hr).
Qed.

Lemma store_dst t v p s :
  0 <= dstAddrReg s < 2 ^ 32 → stores_to s REG_DST_ADDR_OFFSET v p →
  store (t, p) s = Ok (set_regs (srcAddrReg s) v (sizeReg s) (commandReg s) (statusReg s) s).
Proof.
  intros Hs (Hv & (d & [(a & Ha & Ho) Hb Hr]) & Hg). unfold store, write. simpl.
  rewrite Ha, res_bind_Ok, (Packet.getSize_buffer _ _ _ _ Hb), res_bind_Ok, Ho. simpl.
  by rewrite Hg, !res_bind_Ok, keep_low_half, (AbstractMemory.makeResponse_Ok p Hr).
Qed.

Lemma store_size t v p s :
  stores_to s REG_SIZE_OFFSET v p →
  store (t, p) s = Ok (set_regs (srcAddrReg s) (dstAddrReg s) v (commandReg s) (statusReg s) s).
Proof.
  intros (Hv & (d & [(a & Ha & Ho) Hb Hr]) & Hg). unfold store, write. simpl.
  rewrite Ha, res_bind_Ok, (Packet.getSize_buffer _ _ _ _ Hb), res_bind_Ok, Ho. simpl.
  by rewrite Hg, !res_bind_Ok, (AbstractMemory.makeResponse_Ok p Hr).
Qed.

Lemma store_write x s s' : store x s = Ok s' → ∃ p' l, write dmaRead x.1 x.2 s = Ok (p', s', l).
Proof. unfold store. intros H. apply bind_Ok in H as ([[p' s1] l] & Hw & [= <-]). eauto. Qed.

(** The state in which the command arrives. *)
Definition programmed (src dst size : Z) (s : IDMA.t M) : IDMA.t M :=
  set_regs src dst size (commandReg s) (statusReg s) s.

Lemma dma_start_command src dst size x s :
  0 <= srcAddrReg s < 2 ^ 32 → 0 <= dstAddrReg s < 2 ^ 32 → start_args s src dst size x →
  dma_start x s = store (cmd_reg x) (programmed src dst size s).
Proof.
  intros Hs Hd [H1 H2 H3 H4]. unfold dma_start.
  destruct (src_reg x) as [t1 p1], (dst_reg x) as [t2 p2], (size_reg x) as [t3 p3]. simpl in *.
  rewrite (store_src t1 src p1 s Hs H1), res_bind_Ok.
  rewrite (store_dst t2 dst p2) by (done || by apply stores_to_regs). rewrite res_bind_Ok.
  rewrite (store_size t3 size p3) by by do 2 apply stores_to_regs. by rewrite res_bind_Ok.
Qed.

(** A poll delivers the status. *)
Lemma poll_status q d s :
  reg_access s REG_STATUS_OFFSET q d → 0 <= statusReg s < 2 ^ 32 →
  ∃ s', poll q s = Ok (statusReg s, s').
Proof.
  intros [(a & Ha & Ho) Hb Hr] Hst. unfold poll, read.
  rewrite Ha, res_bind_Ok, (Packet.getSize_buffer _ _ _ _ Hb), res_bind_Ok, Ho. simpl.
  destruct (put_get (statusReg s) q d s Hb Hst) as (s' & -> & Hg).
  rewrite res_bind_Ok, (AbstractMemory.makeResponse_Ok q Hr), !res_bind_Ok, Hg. by exists s'.
Qed.

End Program.

End Driver.
