(* ===== verification/System.v ===== *)
(** The memory system of the processor: a DRAM ([SimpleMemory]) and a scratchpad
    ([ScratchpadMemory]) behind a crossbar, the iDMA device that copies between
    them, in atomic and in timing mode, and the driver that starts it. *)

From S2P Require Import Prelude ChunkGen AddrRange AddrRangeMap Host Request MemCmd Packet AbstractMem.
From S2P Require Import MemInterface XBar XBarMemory SimpleMem Spm PageTable Dma DmaTiming DmaVirt DmaPeer Idma.
From S2P Require Import AtomicCpu TimingCpu IdmaTiming Driver Functional PortProxy MemoryImage.
Import Host DmaPort DmaVirtDevice IDMA.

Module System.

Definition memories : Type := XBarMemory.t (SimpleMemory.t + Spm.t).

(** The range of a memory. *)
Definition range_of (m : SimpleMemory.t + Spm.t) : AddrRange.t :=
  AbstractMemory.range (SimpleMemory.mem (match m with inl d => d | inr s => Spm.base s end)).

(** [n] bytes of a memory from the physical address [pa] on, mapped at the virtual
    address [va]: the crossbar routes the range of the memory to its port. *)
Record region (pt : EmulationPageTable.t) (m : memories) (id : Z) (x : SimpleMemory.t + Spm.t)
    (va pa n : Z) : Prop := {
  rg_memory : XBarMemory.mems m !! Z.to_nat id = Some x;
  rg_route : (range_of x, id) ∈ AddrRangeMap.tree (XBar.portMap (XBarMemory.xbar m));
  rg_bounds : AddrRange._start (range_of x) <= pa ∧ pa + n <= AddrRange._end (range_of x);
  rg_high : pa + n < 2 ^ 63;
  rg_mapped z : 0 <= z < n → EmulationPageTable.translate pt (va + z) = Some (pa + z);
}.

Lemma range_accepts (x : SimpleMemory.t + Spm.t) a n :
  AddrRange._start (range_of x) <= a → a + n <= AddrRange._end (range_of x) → MemInterface.accepts x a n.
Proof. destruct x; by split. Qed.

Lemma region_serves pt m id x va pa n pk k :
  region pt m id x va pa n → 0 <= k < 32 → vserves pt m pk k va n.
Proof.
  intros [Hm Hr [Hs He] Hh Hmap] Hk z l Hz Hl Hle _. exists (pa + z).
  assert (2 ^ k < 2 ^ 32) by (apply Z.pow_lt_mono_r; lia).
  split; [apply Hmap; lia|]. split; [lia|]. intros z' l' Hz' Hl' Hle' _.
  exists (range_of x), id, x. split_and!; try done; [lia..|]. apply range_accepts; lia.
Qed.

Lemma region_reaches pt m id x va pa n k : region pt m id x va pa n → AtomicCpu.reaches k pt m va n.
Proof.
  intros [Hm Hr [Hs He] _ Hmap] z l Hz Hl Hle _. exists (pa + z). split; [intros y Hy; rewrite Hmap by lia; f_equal; lia|].
  exists (range_of x), id, x. split_and!; try done; [lia..|]. apply range_accepts; lia.
Qed.

Lemma region_inj pt m id x va pa n : region pt m id x va pa n → vinj pt va n.
Proof.
  intros [_ _ _ _ Hmap] i j y Hi Hj. rewrite !Hmap by done. intros [= <-] [= ?]. lia.
Qed.

Lemma region_contents pt (m : memories) h id x va pa n z :
  MemInterface.inv m h → region pt m id x va pa n → 0 <= z < n →
  vcontents pt m h (va + z) = MemInterface.contents x h (pa + z).
Proof.
  intros Hi [Hm Hr Hb _ Hmap] Hz. unfold vcontents. rewrite Hmap by done. simpl. unfold XBarMemory.contents.
  rewrite (XBarMemory.route_at m (range_of x) id); [by rewrite Hm| |done|lia].
  apply (XBar.dec_map _ (XBarMemory.inv_decoder _ _ Hi)).
Qed.

(** [n] bytes at [vs] are a region of one memory and those at [vd] one of another,
    and the buffer of the device is large enough and not part of a memory. *)
Record placed (pk : Z) (i j : Z) (src dst : SimpleMemory.t + Spm.t) (sp dp vs vd n : Z)
    (buf : ptr) (pt : EmulationPageTable.t) (m : memories) (h : hmem) : Prop := {
  pl_pages : 0 <= pk < 64 ∧ EmulationPageTable.wf pk pt;
  pl_size : 0 < n < 2 ^ 32;
  pl_regs : 0 <= vs < 2 ^ 32 ∧ 0 <= vd < 2 ^ 32;
  pl_inv : MemInterface.inv m h;
  pl_buffer : in_bounds h buf n = true ∧ ¬ MemInterface.owns m (block buf);
  pl_src : region pt m i src vs sp n;
  pl_dst : region pt m j dst vd dp n;
}.

Lemma placed_can_copy pk k i j src dst sp dp vs vd n buf pt m h :
  placed pk i j src dst sp dp vs vd n buf pt m h → 0 <= k < 32 → can_copy pk k vs vd n buf pt m h.
Proof.
  intros [? ? ? ? ? Hs Hd] Hk. constructor; try done; [by eapply region_serves|].
  split; [by eapply region_serves|by eapply region_inj].
Qed.

(** What a copy leaves in the memories. *)
Definition moved (src : SimpleMemory.t + Spm.t) (sp dp n : Z) (m0 : memories) (h0 : hmem)
    (m : memories) (h : hmem) : Prop :=
  ∀ a, MemInterface.contents m h a =
    if decide (dp <= a < dp + n) then MemInterface.contents src h0 (sp + (a - dp))
    else MemInterface.contents m0 h0 a.

Lemma copied_moved pk i j src dst sp dp vs vd n buf pt (m0 : memories) h0 m h :
  placed pk i j src dst sp dp vs vd n buf pt m0 h0 → copied_to vs vd n pt m0 h0 m h →
  moved src sp dp n m0 h0 m h.
Proof.
  intros Hp [Hcopy Hrest _ _ _] a. pose proof (rg_mapped _ _ _ _ _ _ _ (pl_dst _ _ _ _ _ _ _ _ _ _ _ _ _ _ Hp)) as Hmap.
  case_decide as Ha.
  - specialize (Hcopy (a - dp) ltac:(lia)). unfold vcontents at 1 in Hcopy. rewrite Hmap in Hcopy by lia.
    replace (dp + (a - dp)) with a in Hcopy by lia. rewrite Hcopy.
    eapply region_contents; [apply Hp|apply Hp|lia].
  - apply Hrest. intros z Hz. rewrite Hmap by done. intros [= <-]. lia.
Qed.

(** In a system whose memories sit behind a crossbar, writing a start command to
    the iDMA device copies a region of one memory, for instance the DRAM, to a
    region of another, for instance the scratchpad: whatever the order in which
    the completion events run, none fails, and once all have, which is always
    reached, the status reads complete, the bytes of the destination are those
    the source memory held, and no other byte of any memory has changed. *)
Theorem hybrid_copy rng pk k now p d v i j src dst sp dp (s : IDMA.t memories) :
  let m0 := mem (world (dev s)) in
  command k p d v s →
  placed pk i j src dst sp dp (srcAddrReg s) (dstAddrReg s) (sizeReg s) (dmaBuffer s) (pTable s) m0 (heap_of s) →
  ∃ p' s1, write (dmaRead rng) now p s = Ok (p', s1, 10) ∧ statusReg s1 = IDMA_BUSY ∧
    runs_to rng s1 (λ s2, moved src sp dp (sizeReg s) m0 (heap_of s) (mem (world (dev s2))) (heap_of s2)).
Proof.
  intros m0 Hc Hp. assert (0 <= k < 32) as Hk by apply (co_idle _ _ _ _ _ Hc).
  destruct (command_copies rng pk k now p d v s Hc (placed_can_copy _ k _ _ _ _ _ _ _ _ _ _ _ _ _ Hp Hk))
    as (p' & s1 & Hw & Hb & Hrun).
  exists p', s1. split; [done|]. split; [done|]. intros s2 Hr.
  destruct (Hrun s2 Hr) as (Hen & Hbusy & Hdone & Hfin). split; [done|]. split; [done|]. split; [|done].
  intros He. destruct (Hdone He). split; [done|]. by eapply copied_moved.
Qed.

(** ** The driver in timing mode *)

(** The device before [dma_start]: at rest, with a port of line size [2 ^ k]. *)
Record startable {M : Type} (k : Z) (s : IDMA.t (DmaPeer.peer M)) : Prop := {
  sb_rest : IdmaTiming.resting s;
  sb_mode : fullSystem s = false;
  sb_port : idle k (port (world (dev s)));
  sb_regs : 0 <= srcAddrReg s < 2 ^ 32 ∧ 0 <= dstAddrReg s < 2 ^ 32;
}.

Lemma programmed_resting {M : Type} vs vd n (s : IDMA.t (DmaPeer.peer M)) :
  IdmaTiming.resting s → IdmaTiming.resting (Driver.programmed vs vd n s).
Proof. by intros [[] ? ? ? ?]. Qed.

Lemma programmed_command {M : Type} k vs vd n x (s : IDMA.t (DmaPeer.peer M)) :
  startable k s → Driver.start_args s vs vd n x →
  ∃ d, command k (Driver.cmd_reg x).2 d 1 (Driver.programmed vs vd n s).
Proof.
  intros [Hr Hm Hi _] Hargs.
  destruct (Driver.stores_to_regs vs vd n (commandReg s) (statusReg s) s _ _ _
    (Driver.sa_cmd _ _ _ _ _ Hargs)) as (_ & (d & Hacc) & Hv).
  exists d. constructor; try done. apply (IdmaTiming.rs_quiet _ (programmed_resting vs vd n s Hr)).
Qed.

(** C1: the driver of the test program, in timing mode.  [dma_start] on a device at
    rest starts a copy between two memories behind the crossbar.  From then on,
    whatever the order of time, packets refused and sent again, responses and
    completion events: nothing fails; a poll of [dma_wait] reads busy until it
    reads 2, and when it does the device is at rest again, the destination holds
    what the source held at the start and no other byte of any memory has
    changed; and that state can always be reached. *)
Theorem driver_copy rng acc edge pk k x i j src dst sp dp vs vd n (s : IDMA.t (DmaPeer.peer memories)) :
  let m0 := DmaPeer.memory (mem (world (dev s))) in
  (∀ t, t <= edge t) → startable k s → Driver.start_args s vs vd n x →
  placed pk i j src dst sp dp vs vd n (dmaBuffer s) (pTable s) m0 (heap_of s) →
  ∃ s1, Driver.dma_start (DmaPeer.dmaRead rng acc edge) x s = Ok s1 ∧
    ∀ c, rtc (IdmaTiming.step rng acc edge) (IdmaTiming.mkSys (Driver.cmd_reg x).1 s1) c →
    let s2 := IdmaTiming.st c in
    (∀ y, IdmaTiming.enabled c y → ∃ s', IdmaTiming.perform rng acc edge c y = Ok s') ∧
    (∀ q d, reg_access s2 REG_STATUS_OFFSET q d → ∃ s3, Driver.poll q s2 = Ok (statusReg s2, s3)) ∧
    (if Driver.dma_done (statusReg s2)
     then IdmaTiming.resting s2 ∧
       moved src sp dp n m0 (heap_of s) (DmaPeer.memory (mem (world (dev s2)))) (heap_of s2)
     else statusReg s2 = IDMA_BUSY) ∧
    ∃ c', rtc (IdmaTiming.step rng acc edge) c c' ∧ Driver.dma_done (statusReg (IdmaTiming.st c')) = true.
Proof.
  intros m0 Hedge Hsb Hargs Hp. pose proof Hsb as [Hr _ Hi [Hs Hd]].
  destruct (programmed_command k vs vd n x s Hsb Hargs) as [d Hcmd].
  destruct (IdmaTiming.command_completes rng acc edge pk k (Driver.cmd_reg x).1 _ d 1 _ Hedge Hcmd
    (programmed_resting vs vd n s Hr)) as (p' & s1 & Hw & Hb & Hrun).
  { apply (placed_can_copy pk k i j src dst sp dp); [done|apply Hi]. }
  exists s1. rewrite (Driver.dma_start_command _ vs vd n x s Hs Hd Hargs). unfold Driver.store.
  rewrite Hw, res_bind_Ok. split; [done|]. intros c Hc. destruct (Hrun c Hc) as (Hen & Hst & c' & Hc' & Hfin).
  split; [done|]. split; [|split].
  - intros q dq Hq. eapply Driver.poll_status; [done|]. by destruct Hst as [->|[-> _]].
  - destruct Hst as [->|(-> & Hrest & Hpost)]; [done|]. split; [done|].
    by apply (copied_moved pk i j src dst sp dp vs vd n (dmaBuffer s) (pTable s)).
  - exists c'. by rewrite Hfin.
Qed.

(** ** A small system *)

(** A DRAM of 256 bytes at 0x1000 holding 0, 1, 2, ..., and a scratchpad of 256
    bytes at 0x8000, behind the ports 0 and 1 of the crossbar [XBar.demo]. *)
Definition demo_dram : SimpleMemory.t := SimpleMemory.create AbstractMemory.demo 30 0.

Definition demo_spm : Spm.t :=
  Spm.create (AbstractMemory.mk (AddrRange.plain 0x8000 0x8100) (Some (Ptr 2 0)) (Some (Ptr 2 0))
    true true [] AbstractMemory.no_stats []) 5 0.

Definition demo_memories : memories := XBarMemory.mk XBar.demo [inl demo_dram; inr demo_spm].

Definition demo_heap : hmem :=
  <[1%positive := Z.of_nat <$> seq 0 256]> (<[2%positive := replicate 256 0]>
    (<[4%positive := replicate 128 0]> (<[5%positive := [1; 0; 0; 0]]>
      (<[6%positive := [1; 2; 3; 4; 5; 6; 7; 8]]> (<[7%positive := le_bytes 4 0x2004]>
        (<[8%positive := le_bytes 4 0x3080]> (<[9%positive := le_bytes 4 100]> ∅))))))).

(** The DRAM is mapped at 0x2000 and the scratchpad at 0x3000. *)
Definition demo_pt : EmulationPageTable.t :=
  match (pt ← EmulationPageTable.map 0x2000 0x1000 256 0 (EmulationPageTable.mk ∅ 64 63);
         EmulationPageTable.map 0x3000 0x8000 256 0 pt) with
  | Ok pt => pt
  | Fail _ => EmulationPageTable.mk ∅ 64 63
  end.

(** A copy of 100 bytes from 0x2004 to 0x3080 is programmed. *)
Definition demo : IDMA.t memories :=
  IDMA.mk 0x80060000 0x2004 0x3080 100 0 0 (Ptr 4 0) false demo_pt
    (DmaVirtDevice.mk ∅ ∅ (mkWorld (DmaPort.create 7 64) demo_memories demo_heap 0)).

Lemma system_pt_spec :
  EmulationPageTable.wf 6 demo_pt ∧
  (∀ z, 0 <= z < 256 → EmulationPageTable.translate demo_pt (0x2000 + z) = Some (0x1000 + z)) ∧
  (∀ z, 0 <= z < 256 → EmulationPageTable.translate demo_pt (0x3000 + z) = Some (0x8000 + z)).
Proof.
  assert (EmulationPageTable.wf 6 (EmulationPageTable.mk ∅ 64 63)) as Hwf by by constructor.
  assert (∀ a, is_u64 a → EmulationPageTable.translate (EmulationPageTable.mk ∅ 64 63) a = None) as H0
    by (intros a Ha; by rewrite (EmulationPageTable.translate_eq 6 ltac:(lia))).
  destruct (EmulationPageTable.map_region 6 0x2000 0x1000 256 0 (EmulationPageTable.mk ∅ 64 63))
    as (pt & Hm & Hwf' & Ht & Hkeep); [lia|done|done|lia|lia|auto with width| |].
  { right. intros x Hx. apply H0. auto with width. }
  change (2 ^ 6 * ((256 + 2 ^ 6 - 1) / 2 ^ 6)) with 256 in Hkeep.
  destruct (EmulationPageTable.map_region 6 0x3000 0x8000 256 0 pt)
    as (pt' & Hm' & Hwf2 & Ht' & Hkeep'); [lia|done|done|lia|lia|auto with width| |].
  { right. intros x Hx. rewrite Hkeep by (unfold is_u64; lia).
    apply H0. auto with width. }
  change (2 ^ 6 * ((256 + 2 ^ 6 - 1) / 2 ^ 6)) with 256 in Hkeep'.
  assert (demo_pt = pt') as -> by (unfold demo_pt; by rewrite Hm, res_bind_Ok, Hm').
  split; [done|]. split; intros z Hz.
  - rewrite Hkeep' by (unfold is_u64; lia). rewrite Ht by done.
    f_equal. apply u64_small. auto with width.
  - rewrite Ht' by done. f_equal. apply u64_small. auto with width.
Qed.

Lemma demo_ranges_announced :
  XBar.demo_ranges 0 = [AbstractMemory.range (SimpleMemory.mem demo_dram)] ∧
  XBar.demo_ranges 1 = Spm.getAddrRanges demo_spm.
Proof. done. Qed.

Lemma system_tree :
  AddrRangeMap.tree (XBar.portMap (XBarMemory.xbar demo_memories)) =
  [(AddrRange.plain 0x1000 0x1100, 0); (AddrRange.plain 0x8000 0x8100, 1)].
Proof. exact XBar.demo_tree. Qed.

Lemma demo_memories_inv : XBarMemory.inv demo_memories demo_heap.
Proof.
  constructor.
  - exact XBar.demo_decoder.
  - vm_compute. reflexivity.
  - rewrite system_tree. intros e [->|[->|[]%elem_of_nil]%elem_of_cons]%elem_of_cons; simpl; lia.
  - intros [|[|i]] m Hm; simpl in Hm; [injection Hm as <-..|done].
    + exists (Ptr 1 0). split; [|done]. constructor; simpl; try done.
      constructor; [discriminate|]. constructor; [discriminate|constructor].
    + exists (Ptr 2 0). split; [|done]. constructor; simpl; try done.
  - intros [|[|i]] [|[|j]] m m' b Hm Hm'; simpl in Hm, Hm'; try done; injection Hm as <-; injection Hm' as <-;
      intros (? & [= <-] & ->) (? & [= <-] & [= ?]).
Qed.

Lemma demo_region_dram a n : 0 <= a → a + n <= 256 → region demo_pt demo_memories 0 (inl demo_dram) (0x2000 + a) (0x1000 + a) n.
Proof.
  intros Ha Hb. constructor; [done|rewrite system_tree; by left|simpl; lia|lia|].
  intros z Hz. rewrite <-!Z.add_assoc. apply system_pt_spec. lia.
Qed.

Lemma demo_region_spm a : 0 <= a → a + 100 <= 256 → region demo_pt demo_memories 1 (inr demo_spm) (0x3000 + a) (0x8000 + a) 100.
Proof.
  intros Ha Hb. constructor; [done|rewrite system_tree; right; by left|simpl; lia|lia|].
  intros z Hz. rewrite <-!Z.add_assoc. apply system_pt_spec. lia.
Qed.

Lemma demo_owned b : XBarMemory.owns demo_memories b → b = 1%positive ∨ b = 2%positive.
Proof.
  intros (i & m & Hm & Ho).
  destruct i as [|[|i]]; simpl in Hm; [injection Hm as <-..|done]; destruct Ho as (? & [= <-] & ->); auto.
Qed.

Lemma demo_placed :
  placed 6 0 1 (inl demo_dram) (inr demo_spm) 0x1004 0x8080 0x2004 0x3080 100 (Ptr 4 0) demo_pt
    demo_memories demo_heap.
Proof.
  constructor.
  - split; [lia|apply system_pt_spec].
  - simpl. lia.
  - simpl. lia.
  - exact demo_memories_inv.
  - split; [vm_compute; reflexivity|]. intros Ho. by destruct (demo_owned _ Ho).
  - apply (demo_region_dram 4 100); lia.
  - apply (demo_region_spm 0x80); lia.
Qed.

Lemma system_starts : command 6 IDMA.demo_command (Ptr 5 0) 1 demo.
Proof.
  constructor; [by constructor|done|constructor; simpl; done || lia| |done|done].
  constructor; [exists 0x8006000c; split; reflexivity|constructor; reflexivity|reflexivity].
Qed.

Lemma hybrid_copy_witness :
  ∃ p' s1 s3, write (dmaRead (λ _, 0)) 5 IDMA.demo_command demo = Ok (p', s1, 10) ∧ rtc (fires (λ _, 0)) s1 s3 ∧
    statusReg s3 = IDMA_COMPLETE ∧
    MemInterface.contents (mem (world (dev s3))) (heap_of s3) 0x8083 = Some 7.
Proof.
  destruct (hybrid_copy (λ _, 0) 6 6 5 IDMA.demo_command (Ptr 5 0) 1 0 1 (inl demo_dram) (inr demo_spm)
    0x1004 0x8080 demo system_starts demo_placed) as (p' & s1 & Hw & _ & Hrun).
  destruct (Hrun s1 (rtc_refl _ _)) as (_ & _ & _ & s3 & Hr & He).
  destruct (Hrun s3 Hr) as (_ & _ & Hfin & _). destruct (Hfin He) as [Hst Hc].
  exists p', s1, s3. split; [exact Hw|]. split; [exact Hr|]. split; [exact Hst|].
  etransitivity; [exact (Hc 0x8083)|]. vm_compute. reflexivity.
Defined.

(** The same system in timing mode, with the registers not programmed yet, and the
    stores of [dma_start(0x2004, 0x3080, 100)]. *)
Definition demo_timing : IDMA.t (DmaPeer.peer memories) :=
  IDMA.mk 0x80060000 0 0 0 0 0 (Ptr 4 0) false demo_pt
    (DmaVirtDevice.mk ∅ ∅ (mkWorld (DmaPort.create 7 64) (DmaPeer.mkPeer demo_memories []) demo_heap 0)).

Definition demo_store (off : Z) (b : positive) : Packet.t :=
  Packet.mk (Z.lor (Z.lor Packet.VALID_ADDR Packet.VALID_SIZE) Packet.STATIC_DATA) MemCmd.WriteReq
    (Request.create_phys 0 (0x80060000 + off) 4 0 1) (Some (Ptr b 0)) (0x80060000 + off) false 4 []
    0 Packet.NO_FAIL 0 0 0 0 [].

Definition demo_stores : Driver.stores :=
  Driver.mkStores (1, demo_store 0 7) (2, demo_store 4 8) (3, demo_store 8 9) (4, demo_store 12 5).

Lemma demo_start_args : Driver.start_args demo_timing 0x2004 0x3080 100 demo_stores.
Proof.
  constructor; (split; [lia|]; split; [|reflexivity]);
    [exists (Ptr 7 0)|exists (Ptr 8 0)|exists (Ptr 9 0)|exists (Ptr 5 0)];
    (constructor; [eexists; split; reflexivity|constructor; reflexivity|reflexivity]).
Qed.

Lemma demo_startable : startable 6 demo_timing.
Proof. constructor; [by constructor|done|constructor; simpl; done || lia|simpl; lia]. Qed.

Lemma driver_copy_witness :
  ∃ s1 c, Driver.dma_start (DmaPeer.dmaRead (λ _, 0) (λ _, true) (λ t, t)) demo_stores demo_timing = Ok s1 ∧
    rtc (IdmaTiming.step (λ _, 0) (λ _, true) (λ t, t)) (IdmaTiming.mkSys 4 s1) c ∧
    Driver.dma_done (statusReg (IdmaTiming.st c)) = true ∧
    MemInterface.contents (DmaPeer.memory (mem (world (dev (IdmaTiming.st c))))) (heap_of (IdmaTiming.st c))
      0x8083 = Some 7.
Proof.
  destruct (driver_copy (λ _, 0) (λ _, true) (λ t, t) 6 6 demo_stores 0 1 (inl demo_dram) (inr demo_spm) 0x1004 0x8080
    0x2004 0x3080 100 demo_timing ltac:(intros t; apply Z.le_refl) demo_startable demo_start_args demo_placed)
    as (s1 & Hs & Hrun).
  destruct (Hrun _ (rtc_refl _ _)) as (_ & _ & _ & c & Hc & Hd).
  destruct (Hrun c Hc) as (_ & _ & Hfin & _). rewrite Hd in Hfin. destruct Hfin as [_ Hm].
  exists s1, c. split; [exact Hs|]. split; [exact Hc|]. split; [exact Hd|].
  etransitivity; [exact (Hm 0x8083)|]. vm_compute. reflexivity.
Defined.

(** Eight bytes are written to the scratchpad and read back with an offset. *)
Lemma crossbar_write_read_witness :
  ∃ p' s1 h1 lat q' s2 h2 lat',
    XBarMemory.recvAtomic 0 (AbstractMemory.demo_pkt MemCmd.WriteReq 0x8010 6) demo_memories demo_heap
      = Ok (p', s1, h1, lat) ∧
    XBarMemory.recvAtomic 0 (AbstractMemory.demo_pkt MemCmd.ReadReq 0x800c 4) s1 h1 = Ok (q', s2, h2, lat') ∧
    peek h2 4 3 = Some 0 ∧ peek h2 4 4 = Some 1.
Proof.
  destruct (XBarMemory.crossbar_write_read 0 0
    (AbstractMemory.demo_pkt MemCmd.WriteReq 0x8010 6) (Ptr 6 0) 8
    (AbstractMemory.demo_pkt MemCmd.ReadReq 0x800c 4) (Ptr 4 0) 8 demo_memories demo_heap)
    as (p' & s1 & h1 & lat & q' & s2 & h2 & lat' & Hw & Hr & _ & _ & _ & Hb).
  - exact demo_memories_inv.
  - by intros [?|?]%demo_owned.
  - by intros [?|?]%demo_owned.
  - exists (AddrRange.plain 0x8000 0x8100), 1, (inr demo_spm). rewrite system_tree.
    split_and!; [right; left|reflexivity|simpl; lia|simpl; lia|]. apply range_accepts; simpl; lia.
  - exists (AddrRange.plain 0x8000 0x8100), 1, (inr demo_spm). rewrite system_tree.
    split_and!; [right; left|reflexivity|simpl; lia|simpl; lia|]. apply range_accepts; simpl; lia.
  - lia.
  - lia.
  - by constructor.
  - reflexivity.
  - reflexivity.
  - by constructor.
  - by constructor.
  - reflexivity.
  - by constructor.
  - exists p', s1, h1, lat, q', s2, h2, lat'. split; [exact Hw|]. split; [exact Hr|]. split.
    + etransitivity; [exact (Hb 3 ltac:(lia))|]. vm_compute. reflexivity.
    + etransitivity; [exact (Hb 4 ltac:(lia))|]. vm_compute. reflexivity.
Defined.

(** ** The processor *)

Definition demo_cpu : AtomicCpu.t := AtomicCpu.create 0 64 3 false.

Lemma demo_access_ok : AtomicCpu.access_ok 6 demo_pt demo_cpu demo_memories demo_heap 0x20fc (Ptr 6 0) 8 4.
Proof.
  constructor; [by constructor|simpl; lia|exact demo_memories_inv|reflexivity|intros Ho; by destruct (demo_owned _ Ho)| |].
  - constructor; [lia| |].
    + intros z Hz. replace (0x20fc + z) with (0x2000 + (0xfc + z)) by lia. by rewrite (proj1 (proj2 system_pt_spec)) by lia.
    + intros _. split; [vm_compute; reflexivity|by right].
  - apply (region_reaches _ _ 0 (inl demo_dram) _ 0x10fc), (demo_region_dram 0xfc); lia.
Qed.

(** A store of eight bytes of which only four are mapped. *)
Lemma cpu_access_witness :
  ∃ c' m' h', AtomicCpu.writeMem (AtomicCpu.memory_port (λ _, 0)) demo_pt 0 0 (Ptr 6 0) 8 0x20fc (replicate 8 true) demo_cpu
      (demo_memories, demo_heap) = Ok (Some 0x2100, c', (m', h')) ∧ MemInterface.contents m' h' 0x10ff = Some 4.
Proof.
  destruct (AtomicCpu.cpu_access 6 ltac:(lia) (λ _, 0) demo_pt 0 0 0x20fc (Ptr 6 0) 8 4 demo_cpu demo_memories demo_heap demo_access_ok)
    as (_ & Hw).
  destruct Hw as (c' & m' & h' & Hw & _ & Hv).
  - apply (region_inj _ demo_memories 0 (inl demo_dram) _ 0x10fc), (demo_region_dram 0xfc); lia.
  - exists c', m', h'. split; [exact Hw|]. refine (vw_written _ _ _ _ _ _ _ _ Hv 3 0x10ff ltac:(lia) _). vm_compute. reflexivity.
Defined.

(** The timing processor, with a line of 64 bytes. *)
Definition demo_tcpu : TimingCpu.t := TimingCpu.mk TimingCpu.Running None None None None [] 64 3 0 true.

Definition demo_world : TimingCpu.World := TimingCpu.mkWorld demo_tcpu (DmaPeer.mkPeer demo_memories []) demo_heap.

Lemma demo_can_access : TimingCpu.can_access 6 demo_pt 0x203e 4 demo_world.
Proof.
  constructor; [by repeat constructor|simpl; lia|exact demo_memories_inv|]. intros b Ho. destruct (demo_owned b Ho) as [->| ->]; by eexists.
Qed.

(** A load across a line, the second part of which is refused at first. *)
Lemma timing_cpu_access_witness :
  ∃ w1 c bs, TimingCpu.initiateMemRead (M := memories) (λ _, 0) 5 0 demo_pt true false 0x203e 4 [true; true; true; true] demo_world = Ok w1 ∧
    rtc (TimingCpu.step (λ _, 0) (λ t, t) (λ t, t + 1)) (TimingCpu.mkSys 5 w1) c ∧
    TimingCpu.outcomes (TimingCpu.cpu (TimingCpu.st c)) = [TimingCpu.Completed bs] ∧ bs !! 3%nat = Some 0x41.
Proof.
  destruct (TimingCpu.timing_cpu_access (M := memories) (λ _, 0) (λ t, t) (λ t, t + 1) 6 ltac:(lia) ltac:(intros x; split; lia) 5 0 demo_pt 0x203e 4 (Ptr 6 0) true false
    demo_world demo_can_access) as (_ & Hok).
  destruct Hok as ((w1 & Hw1 & Hc) & _).
  - apply (region_reaches _ _ 0 (inl demo_dram) _ 0x103e), (demo_region_dram 0x3e); lia.
  - destruct (Hc _ (rtc_refl _ _)) as (_ & _ & c & Hr & _ & _ & bs & Ho & Hb). exists w1, c, bs.
    split; [exact Hw1|]. split; [exact Hr|]. split; [exact Ho|]. etransitivity; [exact (Hb 3 ltac:(lia))|]. vm_compute. reflexivity.
Defined.

(** A peer that answers the first part before it asks for the second one again makes
    the processor fail. *)
Lemma early_response_fails :
  (w ← TimingCpu.initiateMemRead (λ _, 0) 5 0 demo_pt true false 0x203e 4 [true; true; true; true] demo_world;
   TimingCpu.process_tick (TimingCpu.respond (λ t, t) (λ t, t + 1) 6 0 0 0 w)) = Fail AssertFailure.
Proof. vm_compute. reflexivity. Qed.

(** ** The proxy of the system *)

(** The system's own accesses to its memories, in lines of 64 bytes. *)
Definition demo_proxy : BlobProxy memories := PortProxy.phys_proxy 100 64 6 ltac:(lia) eq_refl.

Definition demo_memset : BlobMemset memories := PortProxy.phys_memset 100 64 6 ltac:(lia) eq_refl.

Lemma demo_proxy_ok : @ok _ demo_proxy demo_memories demo_heap.
Proof.
  split; [exact demo_memories_inv|]. split.
  - split; [vm_compute; by repeat constructor|]. by repeat constructor.
  - intros b Ho. destruct (demo_owned b Ho) as [->| ->]; by eexists.
Qed.

Lemma demo_proxy_spans a n :
  0x8000 <= a → a + n <= 0x8100 → @spans _ demo_proxy demo_memories a n.
Proof.
  intros Ha Hn. split; [lia|]. split; [lia|]. intros z l Hz Hl Hle _.
  exists (AddrRange.plain 0x8000 0x8100), 1, (inr demo_spm). rewrite system_tree.
  split_and!; [right; left|reflexivity|simpl; lia|simpl; lia|]. apply range_accepts; simpl; lia.
Qed.

Lemma demo_unowned b : (2 < b)%positive → ¬ @holds _ demo_proxy demo_memories b.
Proof. intros Hb Ho. destruct (demo_owned b Ho) as [->| ->]; lia. Qed.

(** A value is written to the scratchpad across a line and read back. *)
Lemma value_roundtrip_witness :
  ∃ s1 h1 s2 h2,
    PortProxy.write_order (HB := demo_proxy) 8 0x803c 0x1122334455667788 big demo_memories demo_heap = Ok (s1, h1) ∧
    PortProxy.read_order (HB := demo_proxy) 8 0x803c big s1 h1 = Ok (0x1122334455667788, s2, h2).
Proof.
  destruct (PortProxy.value_roundtrip (HB := demo_proxy) 8 0x803c 0x1122334455667788 big demo_memories demo_heap)
    as (s1 & h1 & s2 & h2 & Hw & Hr & _).
  - do 3 right. left.
  - vm_compute. split; congruence.
  - exact demo_proxy_ok.
  - apply demo_proxy_spans; lia.
  - exists s1, h1, s2, h2. split; [exact Hw|exact Hr].
Defined.

(** A string of one character, read back in full and into a buffer of two bytes. *)
Lemma string_roundtrip_witness :
  ∃ s1 h1 s2 h2 s3 h3,
    PortProxy.writeString (HB := demo_proxy) 0x8000 (Ptr 5 0) demo_memories demo_heap = Ok (s1, h1) ∧
    PortProxy.readString (HB := demo_proxy) 2 [] 0x8000 s1 h1 = Ok ([1], s2, h2) ∧
    PortProxy.readString_buf (HB := demo_proxy) (Ptr 4 0) 0x8000 1 s1 h1 = Ok (s3, h3) ∧ peek h3 4 0 = Some 0.
Proof.
  destruct (PortProxy.string_roundtrip (HB := demo_proxy) [1] 0x8000 (Ptr 5 0) (Ptr 4 0) 1 demo_memories demo_heap)
    as (s1 & h1 & Hw & _ & Hr & s3 & h3 & Hb & [_ Hc] & _).
  - exact demo_proxy_ok.
  - split; [repeat constructor; discriminate|]. intros [|[|i]] c Hc; simpl in Hc; [injection Hc as <-; reflexivity..|done].
  - apply demo_unowned. reflexivity.
  - apply demo_proxy_spans; simpl; lia.
  - lia.
  - apply demo_unowned. reflexivity.
  - reflexivity.
  - destruct (Hr 2%nat) as (s2 & h2 & Hr' & _); [simpl; lia|].
    exists s1, h1, s2, h2, s3, h3. split; [exact Hw|]. split; [exact Hr'|]. split; [exact Hb|].
    exact (Hc 0%nat 0 eq_refl).
Defined.

(** An image of initialised data and zeros, loaded into the scratchpad. *)
Definition demo_image : list MemoryImage.Segment :=
  [MemoryImage.mkSegment 0x8008 (Some (Ptr 6 0)) 8; MemoryImage.mkSegment 0x800c None 16].

Lemma image_write_witness :
  ∃ s' h', MemoryImage.write (HB := demo_proxy) (HS := demo_memset) demo_image demo_memories demo_heap = Ok (true, s', h') ∧
    @guest _ demo_proxy s' h' 0x800a = Some 3 ∧ @guest _ demo_proxy s' h' 0x800d = Some 0.
Proof.
  destruct (MemoryImage.image_write_spec (HB := demo_proxy) (HS := demo_memset) demo_image demo_memories demo_heap)
    as (s' & h' & Hw & Hg & _).
  - exact demo_proxy_ok.
  - apply Forall_cons_2; [|apply Forall_cons_2; [|constructor]]; (constructor; simpl; [lia|apply demo_proxy_spans; lia|]).
    + intros p [= <-]. split; [reflexivity|]. exact (demo_unowned 6 eq_refl).
    + discriminate.
  - apply Forall_cons_2; [|apply Forall_cons_2; [|constructor]]; split_and!; simpl; lia.
  - exists s', h'. split; [exact Hw|]. split; etransitivity; [exact (Hg _)|vm_compute; reflexivity|exact (Hg _)|vm_compute; reflexivity].
Defined.

End System.
