(* ===== verification/Soc.v ===== *)
(** The chip in atomic mode: the crossbar of the processor, with the memories and the
    registers of the iDMA device behind it, and the crossbar through which the device
    reaches the same memories; loads and stores of the processor on it. *)

From S2P Require Import Prelude AddrRange AddrRangeMap ChunkGen Host Request MemCmd Packet AbstractMem MemInterface.
From S2P Require Import XBar XBarMemory PageTable Dma DmaVirt Idma AtomicCpu Driver.
Import Host DmaPort DmaVirtDevice IDMA AddrRangeMap(tree) ChunkGenerator(in_block).

Module Soc.

Section Chip.
Context {M : Type} {HM : ByteMemory M}.

(** [xbar1] is the crossbar of the processor, behind whose port [pio_port] the device
    is; the memories, and the crossbar of the device, are those of the device's world. *)
Record t := mk {
  xbar1 : XBar.t;
  pio_port : Z;
  idma : IDMA.t (XBarMemory.t M);
}.

Definition memory_view (s : t) : XBarMemory.t M := mem (world (dev (idma s))).
Definition heap (s : t) : hmem := heap_of (idma s).

(** The memories as the processor reaches them. *)
Definition cpu_view (s : t) : XBarMemory.t M := XBarMemory.mk (xbar1 s) (XBarMemory.mems (memory_view s)).

Definition set_mems (l : list M) (h : hmem) (d : IDMA.t (XBarMemory.t M)) : IDMA.t (XBarMemory.t M) :=
  let w := world (dev d) in
  set_dev (set_world (mkWorld (port w) (XBarMemory.mk (XBarMemory.xbar (mem w)) l) h (draws w)) (dev d)) d.

Definition set_heap (h : hmem) (s : t) : t := mk (xbar1 s) (pio_port s) (IDMA.set_heap h (idma s)).

(** [PioPort<IDMA>::recvAtomic]. *)
Definition pio_recvAtomic (rng : nat → Z) (now : Z) (p : Packet.t) (d : IDMA.t (XBarMemory.t M))
    : res (Packet.t * IDMA.t (XBarMemory.t M) * Z) :=
  let receive_delay := u32 (Packet.headerDelay p + Packet.payloadDelay p) in
  let p := Packet.set_delays 0 0 p in
  '(p, d, delay) ← (if Packet.isRead p then IDMA.read p d else IDMA.write (dmaRead rng) now p d);
  assert! (Packet.isResponse p || Packet.isError p);
  Ok (p, d, u64 (delay + receive_delay)).

(** [recvAtomicBackdoor(pkt, src, nullptr)] of the crossbar of the processor. *)
Definition recvAtomic (rng : nat → Z) (jitter : Packet.t → Z) (now : Z) (p : Packet.t) (s : t) : res (Packet.t * t) :=
  '(id, x) ← XBar.findPort_pkt p (xbar1 s);
  if id =? pio_port s then
    '(p, d, response_latency) ← pio_recvAtomic rng now p (idma s);
    Ok (Packet.set_delays (Packet.headerDelay p) (u32 response_latency) p, mk x (pio_port s) d)
  else
    m ← XBar.at_port (XBarMemory.mems (memory_view s)) id;
    '(p, m, h, response_latency) ← MemInterface.recvAtomic (jitter p) p m (heap s);
    Ok (Packet.set_delays (Packet.headerDelay p) (u32 response_latency) p,
        mk x (pio_port s) (set_mems (XBar.put_at id m (XBarMemory.mems (memory_view s))) h (idma s))).

(** ** The two views of the memories *)

(** The crossbar of the processor knows the ranges of the other one and that of the
    registers, behind whose port there is no memory. *)
Record ok (s : t) : Prop := {
  ok_mem : XBarMemory.inv (memory_view s) (heap s);
  ok_decoder : XBar.decoder (xbar1 s);
  ok_all : XBar.gotAllAddrRanges (xbar1 s) = true;
  ok_ports e : e ∈ tree (XBar.portMap (xbar1 s)) ↔
    e ∈ tree (XBar.portMap (XBarMemory.xbar (memory_view s))) ∨ e = (AddrRange.RangeSize (regBase (idma s)) 0x1000, pio_port s);
  ok_pio : 0 <= pio_port s ∧ XBarMemory.mems (memory_view s) !! Z.to_nat (pio_port s) = None;
  ok_base : 0 <= regBase (idma s) ∧ regBase (idma s) + 0x1000 <= 2 ^ 32;
}.

Lemma ok_cpu s : ok s → XBarMemory.inv (cpu_view s) (heap s).
Proof.
  intros [[Hd Ha Hids Hm Hap] Hd1 Ha1 Hp [Hpio _] _]. constructor; try done.
  intros e [He| ->]%Hp; [by apply Hids|done].
Qed.

(** Both views have the same bytes and serve the same accesses. *)
Lemma views_route s a id : ok s → XBarMemory.route (memory_view s) a = Some id → XBarMemory.route (cpu_view s) a = Some id.
Proof.
  intros Hok. unfold XBarMemory.route at 1. destruct (list_find _ _) as [[i [r id']]|] eqn:Hf; [|done]. intros [= ->].
  apply list_find_Some in Hf as (Hi & Hc & _). apply list_elem_of_lookup_2 in Hi.
  pose proof (XBar.dec_map _ (XBarMemory.inv_decoder _ _ (ok_mem _ Hok))) as [Hpl _ _].
  destruct (proj1 (Forall_forall _ _) Hpl _ Hi) as (Hco & _). simpl in *.
  apply (XBarMemory.route_at (cpu_view s) r id); [apply (ok_decoder _ Hok)|apply (ok_ports _ Hok); by left|].
  by apply AddrRange.contains_contiguous.
Qed.

Lemma views_contents s h a : ok s → XBarMemory.contents (cpu_view s) h a = XBarMemory.contents (memory_view s) h a.
Proof.
  intros Hok. unfold XBarMemory.contents. destruct (XBarMemory.route (memory_view s) a) as [id|] eqn:Hr.
  { by rewrite (views_route s a id Hok Hr). }
  destruct (XBarMemory.route (cpu_view s) a) as [id|] eqn:Hr1; [|done].
  unfold XBarMemory.route in Hr1. destruct (list_find _ _) as [[i e]|] eqn:Hf; [|done]. injection Hr1 as <-.
  apply list_find_Some in Hf as (Hi & Hc & _). apply list_elem_of_lookup_2, (ok_ports _ Hok) in Hi as [Hi| ->].
  - unfold XBarMemory.route in Hr. destruct (list_find _ _) as [|] eqn:Hf2; [done|].
    apply list_find_None in Hf2. rewrite Forall_forall in Hf2. by destruct (Hf2 _ Hi).
  - simpl. by rewrite (proj2 (ok_pio _ Hok)).
Qed.

Lemma views_accepts s a n : ok s → XBarMemory.accepts (cpu_view s) a n ↔ XBarMemory.accepts (memory_view s) a n.
Proof.
  intros Hok. split; intros (r & id & m & Hin & Hm & H); exists r, id, m; (split; [|done]).
  - apply (ok_ports _ Hok) in Hin as [Hin|[= -> ->]]; [done|]. simpl in Hm.
    by rewrite (proj2 (ok_pio _ Hok)) in Hm.
  - apply (ok_ports _ Hok). by left.
Qed.

(** ** Accesses of the processor to the memories *)

Lemma ok_after s s' :
  ok s → XBar.same_decoder (xbar1 s) (xbar1 s') → pio_port s' = pio_port s → regBase (idma s') = regBase (idma s) →
  same_memory (memory_view s) (memory_view s') → XBarMemory.inv (memory_view s') (heap s') → ok s'.
Proof.
  intros [_ Hd Ha Hp [Hpio Hnone] Hb] (Hd' & Ht & mp & Heq) Hpp Hrb (_ & _ & [= Hl1 Hl2]) Hinv. constructor; try done.
  - by rewrite Heq.
  - intros e. by rewrite Ht, Hl1, Hpp, Hrb.
  - rewrite Hpp. split; [done|]. apply lookup_ge_None. apply lookup_ge_None in Hnone.
    apply (f_equal length) in Hl2. rewrite !length_fmap in Hl2. lia.
  - by rewrite Hrb.
Qed.

(** What an access to the memories leaves alone: the device, the decoders, and the
    heap outside of the blocks of [B]. *)
Record touched (B : positive → Prop) (s s' : t) : Prop := {
  to_xbar : XBar.same_decoder (xbar1 s) (xbar1 s');
  to_pio : pio_port s' = pio_port s;
  to_dev : ∃ l h, idma s' = set_mems l h (idma s);
  to_mem : same_memory (memory_view s) (memory_view s');
  to_ok : ok s';
  to_bounds q l : in_bounds (heap s') q l = in_bounds (heap s) q l;
  to_heap b i : ¬ B b → peek (heap s') b i = peek (heap s) b i;
}.

(** An access served by a memory goes through the view of the processor. *)
Lemma memory_path rng jitter now p d n s :
  ok s → Packet.flag p Packet.VALID_ADDR = true → Packet.has_buffer (heap s) p d n → 0 < n →
  XBarMemory.accepts (memory_view s) (Packet.addr p) n →
  recvAtomic rng jitter now p s =
    ('(p', v, h, _) ← XBarMemory.recvAtomic (jitter p) p (cpu_view s) (heap s);
     Ok (p', mk (XBarMemory.xbar v) (pio_port s) (set_mems (XBarMemory.mems v) h (idma s)))) ∧
  ∀ p' v h lat, XBarMemory.recvAtomic (jitter p) p (cpu_view s) (heap s) = Ok (p', v, h, lat) →
    XBar.same_decoder (xbar1 s) (XBarMemory.xbar v).
Proof.
  intros Hok Hva Hb Hn Hacc. apply (views_accepts s _ _ Hok) in Hacc.
  destruct (XBarMemory.access_find _ _ _ _ _ (ok_cpu s Hok) Hva Hb Hn Hacc) as (id & m & x & Hf & Hx & Hid & Hm & _).
  simpl in Hf, Hm. unfold recvAtomic, XBarMemory.recvAtomic. simpl. rewrite Hf, !res_bind_Ok.
  assert ((id =? pio_port s) = false) as ->.
  { apply Z.eqb_neq. intros ->. by rewrite (proj2 (ok_pio _ Hok)) in Hm. }
  rewrite (XBar.at_port_Some _ _ m) by done. rewrite !res_bind_Ok.
  destruct (MemInterface.recvAtomic (jitter p) p m (heap s)) as [[[[p' m'] h] lat]|f]; [|by split].
  rewrite !res_bind_Ok. split; [done|]. by intros p2 v h2 lat2 [= <- <- <- <-].
Qed.

(** The state after an access, from what the memories did. *)
Lemma touched_intro (B : positive → Prop) s v h :
  ok s → XBar.same_decoder (xbar1 s) (XBarMemory.xbar v) → XBarMemory.inv v h → same_memory (cpu_view s) v →
  (∀ q l, in_bounds h q l = in_bounds (heap s) q l) → (∀ b i, ¬ B b → peek h b i = peek (heap s) b i) →
  let s' := mk (XBarMemory.xbar v) (pio_port s) (set_mems (XBarMemory.mems v) h (idma s)) in
  touched B s s' ∧ ∀ a, XBarMemory.contents (memory_view s') h a = XBarMemory.contents v h a.
Proof.
  intros Hok Hx Hinv Hsame Hb Hp s'. pose proof Hok as [[Hd Ha Hids _ _] _ _ Hports [Hpio Hnone] Hbase].
  pose proof Hsame as (Ho & Hacc & [= Hl1 Hl2]). destruct Hinv as [Hd1 Ha1 Hids1 Hm1 Hap1].
  assert (length (XBarMemory.mems v) = length (XBarMemory.mems (memory_view s))) as Hlen.
  { apply (f_equal length) in Hl2. by rewrite !length_fmap in Hl2. }
  assert (ok s') as Hok'.
  { constructor; try done.
    - simpl. intros e. rewrite Hl1. apply Hports.
    - split; [done|]. apply lookup_ge_None. apply lookup_ge_None in Hnone. simpl. lia. }
  assert (cpu_view s' = v) as Hv by (unfold cpu_view, s'; by destruct v).
  split; [|intros a; rewrite <-(views_contents s' h a Hok'); by rewrite Hv].
  constructor; try done; [eauto|]. split_and!.
  - exact Ho.
  - intros a n. etransitivity; [symmetry; apply (views_accepts s' a n Hok')|].
    etransitivity; [|apply (views_accepts s a n Hok)]. rewrite Hv. exact (Hacc a n).
  - simpl. by rewrite Hl2.
Qed.

(** An access to the registers. *)
Lemma pio_path rng jitter now p a s :
  ok s → Packet.getAddr p = Ok a → Packet.getSize p = Ok 4 → regBase (idma s) <= a → a + 4 <= regBase (idma s) + 0x1000 →
  ∃ x, XBar.same_decoder (xbar1 s) x ∧
    recvAtomic rng jitter now p s =
      ('(p', d, lat) ← pio_recvAtomic rng now p (idma s);
       Ok (Packet.set_delays (Packet.headerDelay p') (u32 lat) p', mk x (pio_port s) d)).
Proof.
  intros [_ Hd Ha Hp _ Hb] Hpa Hn H0 H1.
  destruct (XBar.findPort_pkt_ok p a 4 (xbar1 s) Hd Ha Hpa Hn) as [Hf _]; [lia..|].
  destruct (Hf (AddrRange.RangeSize (regBase (idma s)) 0x1000) (pio_port s)) as (x & Hx & Hsame).
  { apply Hp. by right. } { simpl. lia. } { simpl. rewrite u64_small; [lia|]. split; lia. }
  exists x. split; [done|]. unfold recvAtomic. by rewrite Hx, res_bind_Ok, Z.eqb_refl.
Qed.

(** The byte at a physical address. *)
Definition byte_at (s : t) (a : Z) : option Z := XBarMemory.contents (memory_view s) (heap s) a.

Lemma chip_read rng jitter now p d n s :
  ok s → AbstractMemory.plain_read p → Packet.flag p Packet.VALID_ADDR = true → Packet.has_buffer (heap s) p d n → 0 < n →
  ¬ XBarMemory.owns (memory_view s) (block d) → XBarMemory.accepts (memory_view s) (Packet.addr p) n →
  ∃ p' s', recvAtomic rng jitter now p s = Ok (p', s') ∧ Packet.answers p p' ∧ touched (λ b, b = block d) s s' ∧
    (∀ i, 0 <= i < n → peek (heap s') (block d) (offset d + i) = byte_at s (Packet.addr p + i)) ∧
    (∀ a, byte_at s' a = byte_at s a).
Proof.
  intros Hok Hpl Hva Hb Hn Ho Hacc. destruct (memory_path rng jitter now p d n s Hok Hva Hb Hn Hacc) as [-> Hx].
  apply (views_accepts s _ _ Hok) in Hacc.
  destruct (memory_read (jitter p) p (cpu_view s) (heap s) d n) as (p' & v & h & lat & Hr & Hans & Hi & Hsame & Hd & Hc & Hpk & Hbd);
    try done; [by apply ok_cpu|].
  change (MemInterface.recvAtomic (jitter p) p (cpu_view s) (heap s)) with (XBarMemory.recvAtomic (jitter p) p (cpu_view s) (heap s)) in Hr.
  rewrite Hr, res_bind_Ok. destruct (touched_intro (λ b, b = block d) s v h Hok (Hx _ _ _ _ Hr) Hi Hsame Hbd) as [Ht Hcv].
  { intros b i Hne. apply Hpk. by left. }
  exists p', (mk (XBarMemory.xbar v) (pio_port s) (set_mems (XBarMemory.mems v) h (idma s))). split; [done|]. split; [done|].
  split; [exact Ht|]. split.
  - intros i Hir. etransitivity; [exact (Hd i Hir)|]. by apply views_contents.
  - intros a. etransitivity; [apply Hcv|]. etransitivity; [exact (Hc a)|]. by apply views_contents.
Qed.

Lemma chip_write rng jitter now p d n s :
  ok s → AbstractMemory.plain_write p → Packet.isMaskedWrite p = false → Packet.flag p Packet.VALID_ADDR = true →
  Packet.has_buffer (heap s) p d n → 0 < n →
  ¬ XBarMemory.owns (memory_view s) (block d) → XBarMemory.accepts (memory_view s) (Packet.addr p) n →
  ∃ p' s', recvAtomic rng jitter now p s = Ok (p', s') ∧ Packet.answers p p' ∧ touched (XBarMemory.owns (memory_view s)) s s' ∧
    (∀ a, byte_at s' a = if decide (Packet.addr p <= a < Packet.addr p + n)
       then peek (heap s) (block d) (offset d + (a - Packet.addr p)) else byte_at s a).
Proof.
  intros Hok Hpl Hmw Hva Hb Hn Ho Hacc. destruct (memory_path rng jitter now p d n s Hok Hva Hb Hn Hacc) as [-> Hx].
  apply (views_accepts s _ _ Hok) in Hacc.
  destruct (memory_write (jitter p) p (cpu_view s) (heap s) d n) as (p' & v & h & lat & Hr & Hans & Hi & Hsame & Hc & Hpk & Hbd);
    try done; [by apply ok_cpu|].
  change (MemInterface.recvAtomic (jitter p) p (cpu_view s) (heap s)) with (XBarMemory.recvAtomic (jitter p) p (cpu_view s) (heap s)) in Hr.
  rewrite Hr, res_bind_Ok.
  destruct (touched_intro (XBarMemory.owns (memory_view s)) s v h Hok (Hx _ _ _ _ Hr) Hi Hsame Hbd Hpk) as [Ht Hcv].
  exists p', (mk (XBarMemory.xbar v) (pio_port s) (set_mems (XBarMemory.mems v) h (idma s))). split; [done|]. split; [done|].
  split; [exact Ht|].
  intros a. etransitivity; [apply Hcv|]. etransitivity; [exact (Hc a)|]. case_decide; [done|]. by apply views_contents.
Qed.

Lemma touched_trans (B1 B2 : positive → Prop) s1 s2 s3 :
  touched B1 s1 s2 → touched B2 s2 s3 → touched (λ b, B1 b ∨ B2 b) s1 s3.
Proof.
  intros [(_ & Ht & mp & Hx) Hp (l & h & Hd) Hm _ Hb Hh] [(Hd' & Ht' & mp' & Hx') Hp' (l' & h' & Hd2) Hm' Ho Hb' Hh'].
  constructor; [|congruence| |by eapply same_memory_trans|done|intros; by rewrite Hb'|].
  - split; [done|]. split; [congruence|]. exists mp'. by rewrite Hx', Hx.
  - exists l', h'. by rewrite Hd2, Hd.
  - intros b i Hn. rewrite Hh', Hh; [done|tauto..].
Qed.

Lemma touched_mono (B B' : positive → Prop) s s' : (∀ b, B b → B' b) → touched B s s' → touched B' s s'.
Proof. intros HB [? ? ? ? ? ? Hh]. constructor; try done. intros b i Hn. apply Hh. auto. Qed.

(** A look-up of the decoder. *)
Lemma touched_lookup (B : positive → Prop) s s' x :
  touched B s s' → XBar.same_decoder (xbar1 s') x → touched B s (mk x (pio_port s') (idma s')).
Proof.
  intros [(_ & Ht & mp & Hx) Hp Hd Hm Ho Hb Hh] Hx'. pose proof Hx' as (Hd' & Ht' & mp' & Hx2). constructor; try done.
  - split; [done|]. split; [simpl; congruence|]. exists mp'. simpl. by rewrite Hx2, Hx.
  - by apply (ok_after s'); try apply Ho.
Qed.

(** Writing a block of the simulator that no memory is backed by. *)
Lemma set_heap_touched (B : positive → Prop) s h :
  ok s → (∀ b, B b → ¬ XBarMemory.owns (memory_view s) b) →
  (∀ q l, in_bounds h q l = in_bounds (heap s) q l) → (∀ b i, ¬ B b → peek h b i = peek (heap s) b i) →
  touched B s (set_heap h s) ∧ ∀ a, byte_at (set_heap h s) a = byte_at s a.
Proof.
  intros Hok HB Hb Hh. destruct (memory_frame (memory_view s) (heap s) h) as [Hi Hc]; [apply (ok_mem _ Hok)| |done|].
  { intros b i Ho. apply Hh. intros Hbb. by apply (HB b Hbb). }
  split; [|exact Hc]. pose proof Hok as [_ Hd _ _ _ _].
  assert (XBar.same_decoder (xbar1 s) (xbar1 s)) as Hx.
  { split; [done|]. split; [done|]. exists (XBar.portMap (xbar1 s)). by destruct (xbar1 s). }
  constructor; try done.
  - exists (XBarMemory.mems (memory_view s)), h. unfold set_heap, IDMA.set_heap, set_mems, memory_view. simpl. do 3 f_equal.
    by destruct (mem (world (dev (idma s)))).
  - by apply (ok_after s).
Qed.

End Chip.
Arguments t M : clear implicits.

(** ** The processor on the chip *)

(** [accesses] counts the accesses made. *)
Record machine (M : Type) := mkMachine {
  cpu : AtomicCpu.t;
  chip : t M;
  accesses : nat;
}.
Arguments mkMachine {M} cpu chip accesses.
Arguments cpu {M} m.
Arguments chip {M} m.
Arguments accesses {M} m.

Section Machine.
Context {M : Type} {HM : ByteMemory M}.

(** The random parts of latencies, the tick and the program counter of each access,
    and the variable of the instruction that holds the word ([Mem]). *)
Context (rng : nat → Z) (jitter : Packet.t → Z) (tick pc : nat → Z) (local : ptr).

(** The page table of the process, that of the processor and of the device. *)
Definition table (m : machine M) : EmulationPageTable.t := pTable (idma (chip m)).

Definition send (m : machine M) : Packet.t → t M → res (Packet.t * t M) := recvAtomic rng jitter (tick (accesses m)).

(** [readMemAtomic]: the fault, if any, and the value. *)
Definition readMemAtomic (addr : Z) (size : nat) (m : machine M) : res (option Z * Z * machine M) :=
  let n := accesses m in
  h ← store_bytes (heap (chip m)) local (replicate size 0);
  '(fault, c, s) ← AtomicCpu.readMem (send m) (table m) (tick n) (pc n) addr local (Z.of_nat size) (replicate size true)
    (cpu m) (set_heap h (chip m));
  v ← load_int (heap s) local size;
  Ok (fault, match fault with None => gtoh size v little | Some _ => v end, mkMachine c s (S n)).

(** [writeMemAtomic], for stores that take no result. *)
Definition writeMemAtomic (mem addr : Z) (size : nat) (m : machine M) : res (option Z * machine M) :=
  let n := accesses m in
  h ← store_int (heap (chip m)) local size (htog size mem little);
  '(fault, c, s) ← AtomicCpu.writeMem (send m) (table m) (tick n) (pc n) local (Z.of_nat size) addr (replicate size true)
    (cpu m) (set_heap h (chip m));
  Ok (fault, mkMachine c s (S n)).

(** Loads and stores of words; no area of the process could fix a page fault. *)
Definition load_word (a : Z) (m : machine M) : res (Z * machine M) :=
  '(fault, v, m) ← readMemAtomic a 4 m;
  match fault with None => Ok (v, m) | Some _ => Fail PanicFailure end.

Definition store_word (a v : Z) (m : machine M) : res (machine M) :=
  '(fault, m) ← writeMemAtomic v a 4 m;
  match fault with None => Ok m | Some _ => Fail PanicFailure end.

(** ** Words *)

Context (k : Z) (Hk : 2 <= k < 32).

Definition is_local (b : positive) : Prop := b = block local.

(** The machine between instructions; the registers are mapped where they are. *)
Record mok (m : machine M) : Prop := {
  mk_chip : ok (chip m);
  mk_cpu : AtomicCpu.ok k (cpu m);
  mk_local : in_bounds (heap (chip m)) local 4 = true;
  mk_own : ¬ XBarMemory.owns (memory_view (chip m)) (block local);
  mk_apart : block local ≠ block (dmaBuffer (idma (chip m)));
  mk_regs z : 0 <= z < 0x1000 → EmulationPageTable.translate (table m) (regBase (idma (chip m)) + z) = Some (regBase (idma (chip m)) + z);
}.

Lemma mok_after B m s c n : mok m → touched B (chip m) s → AtomicCpu.ok k c → mok (mkMachine c s n).
Proof.
  intros [Hok Hc Hl Ho Ha Hr] [Hx Hp (l & h & Hd) Hm Hok' Hb Hh] Hc'. unfold table in *. constructor; simpl; try done.
  - by rewrite Hb.
  - by intros ?%(proj1 Hm).
  - by rewrite Hd.
  - unfold table. simpl. by rewrite Hd.
Qed.

(** An aligned word, mapped to the physical address [pa]. *)
Record word_at (m : machine M) (va pa : Z) : Prop := {
  wd_range : 0 <= va ∧ va + 4 <= 2 ^ 32;
  wd_aligned : va mod 4 = 0;
  wd_mapped : EmulationPageTable.translate (table m) va = Some pa;
}.

Lemma word_block m va pa : word_at m va pa → in_block (2 ^ k) (va, 4).
Proof using Hk.
  intros [[H0 _] Ha _]. unfold in_block. simpl. replace k with (2 + (k - 2)) by lia. rewrite Z.pow_add_r by lia.
  change (2 ^ 2) with 4. assert (0 < 2 ^ (k - 2)) by (apply Z.pow_pos_nonneg; lia).
  rewrite <-!Z.div_div by lia. f_equal. pose proof (Z.div_mod va 4 ltac:(lia)). apply Z.div_unique with 3; lia.
Qed.

Lemma word_valid m va pa rv : word_at m va pa → AtomicCpu.getValidAddr va rv = va.
Proof. intros [H0 _ _]. unfold AtomicCpu.getValidAddr. destruct rv; [|done]. apply Z.mod_small. lia. Qed.

(** The packet of a load or a store of a word, and what its answer leads to. *)
Definition packet (cmd : MemCmd.Command) (r : Request.t) : Packet.t := AtomicCpu.part_packet cmd Packet.STATIC_DATA [] local r.

Lemma read_word n m va pa s :
  word_at m va pa → AtomicCpu.ok k (cpu m) →
  ∃ r, AtomicCpu.frag_req pa 4 r ∧
    ∀ p' s', send m (packet MemCmd.ReadReq r) s = Ok (p', s') → Packet.isError p' = false →
    ∃ c', AtomicCpu.readMem (send m) (table m) (tick n) (pc n) va local 4 (replicate 4 true) (cpu m) s = Ok (None, c', s') ∧ AtomicCpu.ok k c'.
Proof using Hk.
  intros Hw [Hl Hr Hwr]. pose proof Hw as [Hra Hal Hmap].
  destruct (AtomicCpu.one_fragment (send m) k ltac:(lia) Packet.makeReadCmd MemCmd.ReadReq (table m) (tick n) (pc n) va 4 pa local
    (AtomicCpu.data_read_req (cpu m)) (cpu m) s) as (r & Hf & Hrun); try (done || lia).
  { exact AtomicCpu.makes_read. } { by eapply word_valid. } { by eapply word_block. }
  exists r. split; [done|]. intros p' s' Hs He. unfold AtomicCpu.readMem. change (replicate 4 true) with (replicate (Z.to_nat 4) true).
  fold (packet MemCmd.ReadReq r) in Hrun. rewrite Hrun, Hs, res_bind_Ok, He. simpl. eexists. split; [done|]. constructor; try done. apply Hf.
Qed.

Lemma write_word n m va pa s :
  word_at m va pa → AtomicCpu.ok k (cpu m) →
  ∃ r, AtomicCpu.frag_req pa 4 r ∧
    ∀ p' s', send m (packet MemCmd.WriteReq r) s = Ok (p', s') → Packet.isError p' = false →
    ∃ c', AtomicCpu.writeMem (send m) (table m) (tick n) (pc n) local 4 va (replicate 4 true) (cpu m) s = Ok (None, c', s') ∧ AtomicCpu.ok k c'.
Proof using Hk.
  intros Hw [Hl Hr Hwr]. pose proof Hw as [Hra Hal Hmap].
  destruct (AtomicCpu.one_fragment (send m) k ltac:(lia) Packet.makeWriteCmd MemCmd.WriteReq (table m) (tick n) (pc n) va 4 pa local
    (AtomicCpu.data_write_req (cpu m)) (cpu m) s) as (r & Hf & Hrun); try (done || lia).
  { exact AtomicCpu.makes_write. } { by eapply word_valid. } { by eapply word_block. }
  exists r. split; [done|]. intros p' s' Hs He. unfold AtomicCpu.writeMem. change (replicate 4 true) with (replicate (Z.to_nat 4) true).
  fold (packet MemCmd.WriteReq r) in Hrun. rewrite Hrun, Hs, res_bind_Ok, He. simpl. eexists. split; [done|]. constructor; try done. apply Hf.
Qed.

(** Giving the variable a value. *)
Lemma set_local m bs :
  mok m → length bs = 4%nat →
  ∃ h, store_bytes (heap (chip m)) local bs = Ok h ∧ touched is_local (chip m) (set_heap h (chip m)) ∧
    (∀ a, byte_at (set_heap h (chip m)) a = byte_at (chip m) a) ∧ load_bytes h local 4 = Ok bs.
Proof.
  intros [Hok Hc Hl Ho Ha Hr] Hlen. destruct (store_bytes_in_bounds (heap (chip m)) local bs) as [h Hs]; [by rewrite Hlen|].
  exists h. split; [done|]. destruct (set_heap_touched is_local (chip m) h) as [Ht Hb]; try done.
  - by intros b ->.
  - intros q l. by eapply store_bytes_in_bounds_frame.
  - intros b i Hb. rewrite (store_bytes_peek _ _ _ _ b i Hs), decide_False; [done|]. by intros [? _].
  - split; [done|]. split; [done|]. apply load_store_same in Hs. by rewrite Hlen in Hs.
Qed.

(** The value of the four bytes at [pa]. *)
Definition word_of (s : t M) (pa v : Z) : Prop :=
  ∃ bs, length bs = 4%nat ∧ v = le_value bs ∧ ∀ i, 0 <= i < 4 → byte_at s (pa + i) = bs !! Z.to_nat i.

Lemma static_kind : AtomicCpu.data_kind Packet.STATIC_DATA.
Proof. by left. Qed.

Lemma load_memory m va pa :
  mok m → word_at m va pa → XBarMemory.accepts (memory_view (chip m)) pa 4 →
  ∃ v m', load_word va m = Ok (v, m') ∧ word_of (chip m) pa v ∧ touched is_local (chip m) (chip m') ∧ mok m' ∧
    ∀ a, byte_at (chip m') a = byte_at (chip m) a.
Proof using Hk.
  intros Hm Hw Hacc. destruct (set_local m (replicate 4 0) Hm eq_refl) as (h & Hs & Ht & Hb & _). set (s1 := set_heap h (chip m)) in *.
  destruct (read_word (accesses m) m va pa s1 Hw (mk_cpu _ Hm)) as (r & Hr & Hrun). pose proof (AtomicCpu.fr_addr _ _ _ Hr) as Hpa.
  destruct (chip_read rng jitter (tick (accesses m)) (packet MemCmd.ReadReq r) local 4 s1) as (p' & s' & Hrcv & Hans & Ht2 & Hd & Hb2); try done.
  { apply Ht. }
  { apply (AtomicCpu.frag_buffer _ _ static_kind _ _ pa 4); [done|]. rewrite (to_bounds _ _ _ Ht). apply (mk_local _ Hm). }
  { intros Ho. apply (mk_own _ Hm). by apply (to_mem _ _ _ Ht). }
  { simpl. rewrite Hpa. by apply (to_mem _ _ _ Ht). }
  destruct (Hrun p' s' Hrcv) as (c' & Hread & Hc'). { eapply AtomicCpu.answer_no_error; [|exact Hans]. auto. }
  assert (touched is_local (chip m) s') as Htt by (eapply touched_mono, (touched_trans _ _ _ _ _ Ht Ht2); by intros b [?|?]).
  assert (in_bounds (heap s') local 4 = true) as Hbd by (rewrite (to_bounds _ _ _ Htt); apply (mk_local _ Hm)).
  destruct (load_bytes_in_bounds _ _ _ Hbd) as [bs Hbs]. exists (le_value bs), (mkMachine c' s' (S (accesses m))).
  unfold load_word, readMemAtomic. rewrite Hs, res_bind_Ok. fold s1. change (Z.of_nat 4) with 4. rewrite Hread, res_bind_Ok.
  unfold load_int. change (Z.of_nat 4) with 4. rewrite Hbs. split; [done|]. split; [|split; [done|]; split; [by eapply mok_after|]].
  - exists bs. pose proof (load_bytes_length _ _ _ _ Hbs). split; [lia|]. split; [done|]. intros i Hi.
    rewrite (load_bytes_peek _ _ _ _ _ Hbs Hi), (Hd i Hi). simpl. by rewrite Hpa, Hb.
  - intros a. simpl. by rewrite Hb2, Hb.
Qed.

Lemma store_memory m va pa v :
  mok m → word_at m va pa → XBarMemory.accepts (memory_view (chip m)) pa 4 →
  ∃ m', store_word va v m = Ok m' ∧
    touched (λ b, is_local b ∨ XBarMemory.owns (memory_view (chip m)) b) (chip m) (chip m') ∧ mok m' ∧
    ∀ a, byte_at (chip m') a = if decide (pa <= a < pa + 4) then le_bytes 4 v !! Z.to_nat (a - pa) else byte_at (chip m) a.
Proof using Hk.
  intros Hm Hw Hacc. destruct (set_local m (le_bytes 4 v) Hm (le_bytes_length 4 v)) as (h & Hs & Ht & Hb & Hld). set (s1 := set_heap h (chip m)) in *.
  destruct (write_word (accesses m) m va pa s1 Hw (mk_cpu _ Hm)) as (r & Hr & Hrun). pose proof (AtomicCpu.fr_addr _ _ _ Hr) as Hpa.
  destruct (chip_write rng jitter (tick (accesses m)) (packet MemCmd.WriteReq r) local 4 s1) as (p' & s' & Hrcv & Hans & Ht2 & Hd); try done.
  { apply Ht. } { by apply (AtomicCpu.frag_plain_write _ _ static_kind _ pa 4). } { by apply (AtomicCpu.frag_unmasked _ _ _ _ pa 4). }
  { apply (AtomicCpu.frag_buffer _ _ static_kind _ _ pa 4); [done|]. rewrite (to_bounds _ _ _ Ht). apply (mk_local _ Hm). }
  { intros Ho. apply (mk_own _ Hm). by apply (to_mem _ _ _ Ht). }
  { simpl. rewrite Hpa. by apply (to_mem _ _ _ Ht). }
  destruct (Hrun p' s' Hrcv) as (c' & Hwrite & Hc'). { eapply AtomicCpu.answer_no_error; [|exact Hans]. auto. }
  exists (mkMachine c' s' (S (accesses m))). unfold store_word, writeMemAtomic, store_int. simpl htog. rewrite Hs, res_bind_Ok. fold s1.
  change (Z.of_nat 4) with 4. rewrite Hwrite, !res_bind_Ok. split; [done|].
  assert (touched (λ b, is_local b ∨ XBarMemory.owns (memory_view (chip m)) b) (chip m) s') as Htt by exact (touched_trans _ _ _ _ _ Ht Ht2).
  split; [done|]. split; [by eapply mok_after|]. intros a. simpl. rewrite Hd. simpl. rewrite Hpa. case_decide as Ha; [|by rewrite Hb].
  by rewrite <-(load_bytes_peek _ _ _ _ _ Hld) by lia.
Qed.

(** ** Registers *)

Lemma reg_word m off :
  mok m → 0 <= off → off + 4 <= 0x1000 → (regBase (idma (chip m)) + off) mod 4 = 0 →
  word_at m (regBase (idma (chip m)) + off) (regBase (idma (chip m)) + off).
Proof.
  intros Hm H0 H1 Ha. pose proof (ok_base _ (mk_chip _ Hm)). constructor; [lia|done|]. apply (mk_regs _ Hm). lia.
Qed.

(** The packet of an access to the register at [off], with a variable that is ready for it. *)
Lemma reg_packet cmd off r d :
  cmd = MemCmd.ReadReq ∨ cmd = MemCmd.WriteReq →
  AtomicCpu.frag_req (regBase d + off) 4 r → in_bounds (heap_of d) local 4 = true →
  0 <= off < 0x1000 → reg_access (M := XBarMemory.t M) d off (packet cmd r) local.
Proof.
  intros Hcmd Hr Hb Ho. constructor.
  - exists (regBase d + off). split; [by rewrite <-(AtomicCpu.fr_addr _ _ _ Hr)|].
    replace (regBase d + off - regBase d) with off by lia. apply u64_small. split; lia.
  - by apply (AtomicCpu.frag_buffer _ _ static_kind _ _ (regBase d + off) 4).
  - by destruct Hcmd as [-> | ->].
Qed.

Lemma store_device m off v :
  mok m → 0 <= off → off + 4 <= 0x1000 → (regBase (idma (chip m)) + off) mod 4 = 0 → 0 <= v < 2 ^ 32 →
  ∃ h p x, touched is_local (chip m) (set_heap h (chip m)) ∧ (∀ a, byte_at (set_heap h (chip m)) a = byte_at (chip m) a) ∧
    XBar.same_decoder (xbar1 (chip m)) x ∧ Driver.stores_to (idma (set_heap h (chip m))) off v p ∧
    ∀ d', Driver.store (dmaRead rng) (tick (accesses m), p) (idma (set_heap h (chip m))) = Ok d' →
    ∃ c', AtomicCpu.ok k c' ∧
      store_word (regBase (idma (chip m)) + off) v m = Ok (mkMachine c' (mk x (pio_port (chip m)) d') (S (accesses m))).
Proof using Hk.
  intros Hm H0 H1 Hal Hv. pose proof (reg_word m off Hm H0 H1 Hal) as Hw.
  destruct (set_local m (le_bytes 4 v) Hm (le_bytes_length 4 v)) as (h & Hs & Ht & Hb & Hld). set (s1 := set_heap h (chip m)) in *.
  destruct (write_word (accesses m) m _ _ s1 Hw (mk_cpu _ Hm)) as (r & Hr & Hrun).
  assert (in_bounds (heap s1) local 4 = true) as Hbd by (rewrite (to_bounds _ _ _ Ht); apply (mk_local _ Hm)).
  pose proof (reg_packet MemCmd.WriteReq off r (idma s1) (or_intror eq_refl) Hr Hbd ltac:(lia)) as Hra.
  destruct (pio_path rng jitter (tick (accesses m)) (packet MemCmd.WriteReq r) (regBase (idma (chip m)) + off) s1) as (x & Hx & Hpath).
  { apply Ht. } { by rewrite <-(AtomicCpu.fr_addr _ _ _ Hr). } { by rewrite <-(AtomicCpu.fr_size _ _ _ Hr). } { simpl. lia. } { simpl. lia. }
  exists h, (packet MemCmd.WriteReq r), x. split; [done|]. split; [done|]. split; [done|]. split.
  { split; [done|]. split; [by exists local|]. unfold Packet.getLE, Packet.get, Packet.getRaw. simpl. rewrite (AtomicCpu.fr_size _ _ _ Hr).
    simpl. unfold load_int. change (heap_of (IDMA.set_heap h (idma (chip m)))) with h. change (Z.of_nat 4) with 4. rewrite Hld, !res_bind_Ok.
    f_equal. rewrite le_value_bytes. change (256 ^ Z.of_nat 4) with (2 ^ 32). by apply Z.mod_small. }
  intros d' (p' & l & Hwr)%Driver.store_write. simpl in Hwr. pose proof (write_response _ _ _ _ _ _ _ Hwr) as Hresp.
  injection Hresp as Hresp.
  destruct (Hrun (Packet.set_delays (Packet.headerDelay p') (u32 (u64 (l + u32 0))) p') (mk x (pio_port (chip m)) d')) as (c' & Hwm & Hc').
  - unfold send. rewrite Hpath. unfold pio_recvAtomic. change (Packet.set_delays 0 0 (packet MemCmd.WriteReq r)) with (packet MemCmd.WriteReq r).
    change (Packet.isRead (packet MemCmd.WriteReq r)) with false. cbv iota. change (idma s1) with (IDMA.set_heap h (idma (chip m))). rewrite Hwr, res_bind_Ok. by rewrite <-Hresp.
  - by rewrite <-Hresp.
  - exists c'. split; [done|]. unfold store_word, writeMemAtomic, store_int. simpl htog. rewrite Hs, res_bind_Ok. fold s1.
    change (Z.of_nat 4) with 4. by rewrite Hwm.
Qed.

Lemma status_read (d : IDMA.t (XBarMemory.t M)) p h :
  reg_access d REG_STATUS_OFFSET p local → store_bytes (heap_of d) local (le_bytes 4 (statusReg d)) = Ok h →
  ∃ p', read p d = Ok (p', IDMA.set_heap h d, 10).
Proof.
  intros [(a & Ha & Ho) Hbuf Hreq] Hs. unfold read. rewrite Ha, res_bind_Ok, (Packet.getSize_buffer _ _ _ _ Hbuf), res_bind_Ok, Ho.
  simpl. destruct Hbuf as [Hd Hf Hsz _ _]. unfold put, Packet.setLE, Packet.set_value, Packet.setRaw, Packet.data_ptr.
  rewrite Hf, Hd, Hsz. simpl. unfold store_int. rewrite Hs, res_bind_Ok, (AbstractMemory.makeResponse_Ok p Hreq). eauto.
Qed.

Lemma load_status m :
  mok m → regBase (idma (chip m)) mod 4 = 0 → 0 <= statusReg (idma (chip m)) < 2 ^ 32 →
  ∃ c' x h, let s' := mk x (pio_port (chip m)) (IDMA.set_heap h (idma (chip m))) in
    load_word (regBase (idma (chip m)) + REG_STATUS_OFFSET) m =
      Ok (statusReg (idma (chip m)), mkMachine c' s' (S (accesses m))) ∧
    AtomicCpu.ok k c' ∧ touched is_local (chip m) s' ∧ ∀ a, byte_at s' a = byte_at (chip m) a.
Proof using Hk.
  intros Hm Hal Hst. pose proof (reg_word m REG_STATUS_OFFSET Hm ltac:(done) ltac:(done)) as Hw.
  rewrite Z.add_mod, Hal in Hw by done. specialize (Hw eq_refl).
  destruct (set_local m (replicate 4 0) Hm eq_refl) as (h1 & Hs1 & Ht1 & Hb1 & _). set (s1 := set_heap h1 (chip m)) in *.
  destruct (read_word (accesses m) m _ _ s1 Hw (mk_cpu _ Hm)) as (r & Hr & Hrun).
  destruct (set_local (mkMachine (cpu m) s1 0) (le_bytes 4 (statusReg (idma (chip m))))) as (h2 & Hs2 & Ht2 & Hb2 & Hld).
  { eapply mok_after; [exact Hm|exact Ht1|apply (mk_cpu _ Hm)]. } { apply le_bytes_length. }
  assert (in_bounds (heap s1) local 4 = true) as Hbd by (rewrite (to_bounds _ _ _ Ht1); apply (mk_local _ Hm)).
  pose proof (reg_packet MemCmd.ReadReq REG_STATUS_OFFSET r (idma s1) (or_introl eq_refl) Hr Hbd ltac:(done)) as Hra.
  destruct (pio_path rng jitter (tick (accesses m)) (packet MemCmd.ReadReq r) (regBase (idma (chip m)) + REG_STATUS_OFFSET) s1) as (x & Hx & Hpath).
  { apply Ht1. } { by rewrite <-(AtomicCpu.fr_addr _ _ _ Hr). } { by rewrite <-(AtomicCpu.fr_size _ _ _ Hr). }
  { simpl. unfold REG_STATUS_OFFSET. lia. } { simpl. unfold REG_STATUS_OFFSET. lia. }
  assert (touched is_local (chip m) (set_heap h2 (chip m))) as Ht.
  { eapply touched_mono, (touched_trans _ _ _ _ _ Ht1 Ht2). by intros b [?|?]. }
  destruct (status_read (idma s1) _ h2 Hra Hs2) as [p' Hrd]. pose proof (read_response _ _ _ _ _ Hrd) as Hresp. injection Hresp as Hresp.
  destruct (Hrun (Packet.set_delays (Packet.headerDelay p') (u32 (u64 (10 + u32 0))) p') (mk x (pio_port (chip m)) (IDMA.set_heap h2 (idma (chip m)))))
    as (c' & Hrm & Hc').
  { unfold send. rewrite Hpath. unfold pio_recvAtomic. change (Packet.set_delays 0 0 (packet MemCmd.ReadReq r)) with (packet MemCmd.ReadReq r).
    change (Packet.isRead (packet MemCmd.ReadReq r)) with true. cbv iota. rewrite Hrd, res_bind_Ok. by rewrite <-Hresp. }
  { by rewrite <-Hresp. }
  exists c', x, h2. split; [|split; [done|]; split; [exact (touched_lookup _ _ _ x Ht Hx)|]].
  - unfold load_word, readMemAtomic. rewrite Hs1, res_bind_Ok. fold s1. change (Z.of_nat 4) with 4. rewrite Hrm, res_bind_Ok.
    unfold load_int. change (Z.of_nat 4) with 4. change (load_bytes (heap _) local 4) with (load_bytes h2 local 4). rewrite Hld, !res_bind_Ok.
    rewrite le_value_bytes, Z.mod_small; done.
  - intros a. etransitivity; [exact (Hb2 a)|exact (Hb1 a)].
Qed.

End Machine.
End Soc.
