(* ===== verification/SpmTest.v ===== *)
(** The tests of [spm_test.c] on the chip in atomic mode: the processor fills a buffer,
    programs the iDMA device, polls its status while the events of the copy run, and
    reads the copy back. *)

From S2P Require Import Prelude AddrRange AddrRangeMap ChunkGen Host Request MemCmd Packet AbstractMem MemInterface.
From S2P Require Import XBar XBarMemory PageTable Dma DmaVirt Idma AtomicCpu CInt Driver Soc.
Import Host DmaPort DmaVirtDevice IDMA Soc.

Module SpmTest.

Definition L1I_SPM_BASE : Z := 0x80000000.
Definition L1D_SPM_DATA : Z := 0x80010000.
Definition L2_SPM_BASE : Z := 0x80020000.
Definition IDMA_BASE : Z := 0x80060000.

Definition DMA_SRC_ADDR : Z := IDMA_BASE + 0x00.
Definition DMA_DST_ADDR : Z := IDMA_BASE + 0x04.
Definition DMA_SIZE : Z := IDMA_BASE + 0x08.
Definition DMA_CMD : Z := IDMA_BASE + 0x0C.
Definition DMA_STATUS : Z := IDMA_BASE + 0x10.

Section Test.
Context {M : Type} {HM : ByteMemory M}.
Context (rng : nat → Z) (jitter : Packet.t → Z) (tick pc : nat → Z) (local : ptr).

#[local] Notation load_word := (load_word rng jitter tick pc local).
#[local] Notation store_word := (store_word rng jitter tick pc local).

Definition dma_start (src dst size : Z) (m : machine M) : res (machine M) :=
  m ← store_word DMA_SRC_ADDR src m;
  m ← store_word DMA_DST_ADDR dst m;
  m ← store_word DMA_SIZE size m;
  store_word DMA_CMD 1 m.

(** What happens while [dma_wait] polls: the device's events run, and the status is loaded. *)
Definition with_device (d : IDMA.t (XBarMemory.t M)) (m : machine M) : machine M :=
  mkMachine (cpu m) (mk (xbar1 (chip m)) (pio_port (chip m)) d) (accesses m).

Inductive wait_step : machine M → machine M → Prop :=
  | wait_event m d : fires rng (idma (chip m)) d → wait_step m (with_device d m)
  | wait_poll m v m' : load_word DMA_STATUS m = Ok (v, m') → wait_step m m'.

(** ** [test_l1i_to_l1d] *)

Definition l1i_data : Z := L1I_SPM_BASE + 0x8000.
Definition test_size : Z := 1024.

(** The test up to [dma_wait]. *)
Definition l1i_begin (m : machine M) : res (machine M) :=
  m ← CInt.for_ 0 (test_size / 4) (λ i m, store_word (l1i_data + 4 * i) (u32 (0xDEAD0000 + i)) m) m;
  dma_start (u32 l1i_data) L1D_SPM_DATA test_size m.

(** The loop that verifies the data, [n] turns from [i] on; the message about an error uses
    the word that was loaded. *)
Fixpoint l1i_check (n : nat) (i errors : Z) (m : machine M) : res (Z * machine M) :=
  match n with
  | O => Ok (errors, m)
  | S n =>
      '(v, m) ← load_word (L1D_SPM_DATA + 4 * i) m;
      if v =? u32 (0xDEAD0000 + i) then l1i_check n (i + 1) errors m
      else if 10 <=? errors + 1 then Ok (errors + 1, m)
      else l1i_check n (i + 1) (errors + 1) m
  end.

(** The test after [dma_wait], and its result. *)
Definition l1i_end (m : machine M) : res (Z * machine M) :=
  '(errors, m) ← l1i_check (Z.to_nat (test_size / 4)) 0 0 m;
  Ok (if errors =? 0 then 0 else 1, m).

(** ** [test_l2_to_l1] *)

(** The words that a loop of [test_l2_to_l1] loads and prints, [n] of them from [i] on. *)
Fixpoint l1_words (n : nat) (i : Z) (m : machine M) : res (list Z * machine M) :=
  match n with
  | O => Ok ([], m)
  | S n =>
      '(v, m) ← load_word (L1D_SPM_DATA + 4 * i) m;
      '(l, m) ← l1_words n (i + 1) m;
      Ok (v :: l, m)
  end.

Definition l2_begin (m : machine M) : res (list Z * machine M) :=
  '(before, m) ← l1_words 16 0 m;
  m ← dma_start L2_SPM_BASE L1D_SPM_DATA 256 m;
  Ok (before, m).

Definition l2_end (m : machine M) : res (list Z * Z * machine M) :=
  '(after, m) ← l1_words 16 0 m;
  Ok (after, 1, m).

(** ** Copies *)

Context (k pk : Z) (Hk : 2 <= k < 32).

#[local] Notation mok := (mok local k).

(** The machine with the device at rest. *)
Record rest (m : machine M) : Prop := {
  rt_ok : mok m;
  rt_base : regBase (idma (chip m)) = IDMA_BASE;
  rt_quiet : quiet (idma (chip m));
  rt_mode : fullSystem (idma (chip m)) = false;
  rt_idle : idle k (port (world (dev (idma (chip m)))));
  rt_regs : 0 <= srcAddrReg (idma (chip m)) < 2 ^ 32 ∧ 0 <= dstAddrReg (idma (chip m)) < 2 ^ 32;
  rt_buffer : in_bounds (heap (chip m)) (dmaBuffer (idma (chip m))) (2 ^ 20) = true ∧
    ¬ XBarMemory.owns (memory_view (chip m)) (block (dmaBuffer (idma (chip m))));
  rt_pages : 0 <= pk < 64 ∧ EmulationPageTable.wf pk (table m);
}.

Lemma rest_touched B m c s n : rest m → touched B (chip m) s → AtomicCpu.ok k c → rest (mkMachine c s n).
Proof.
  intros [Hok Hb Hq Hf Hi Hr [Hbu Hno] Hp] Ht Hc. pose proof Ht as [_ _ (l & h & Hd) Hm _ Hbd _].
  constructor; simpl; rewrite ?Hd; try done.
  - by eapply mok_after.
  - by destruct Hq.
  - simpl. rewrite Hbd. split; [done|]. by intros ?%(proj1 Hm).
  - unfold table. simpl. by rewrite Hd.
Qed.

(** A store to a register. *)
Lemma rest_regs m h x c n a b size cmd st :
  rest m → touched (is_local local) (chip m) (set_heap h (chip m)) → XBar.same_decoder (xbar1 (chip m)) x → AtomicCpu.ok k c →
  0 <= a < 2 ^ 32 → 0 <= b < 2 ^ 32 →
  rest (mkMachine c (mk x (pio_port (chip m)) (set_regs a b size cmd st (idma (set_heap h (chip m))))) n).
Proof.
  intros Hr Ht Hx Hc Ha Hb. pose proof (rest_touched _ _ c _ n Hr Ht Hc) as [[Hok Hcp Hl Ho Hap Hrg] Hba Hq Hf Hi _ Hbu Hp].
  constructor; try done; [|by destruct Hq]. constructor; try done. apply (ok_after (set_heap h (chip m))); try done; apply Hok.
Qed.

(** The memories, as before. *)
Record same_state (m m' : machine M) : Prop := {
  ss_memory : same_memory (memory_view (chip m)) (memory_view (chip m'));
  ss_bytes a : byte_at (chip m') a = byte_at (chip m) a;
  ss_buffer : dmaBuffer (idma (chip m')) = dmaBuffer (idma (chip m));
  ss_table : table m' = table m;
}.

Lemma same_state_trans m1 m2 m3 : same_state m1 m2 → same_state m2 m3 → same_state m1 m3.
Proof.
  intros [H1 H2 H3 H4] [H5 H6 H7 H8]. constructor; [by eapply same_memory_trans|intros a; by rewrite H6, H2|congruence..].
Qed.

Lemma store_reg m off v a b size :
  rest m → 0 <= off → off + 4 <= 0x1000 → off mod 4 = 0 → 0 <= v < 2 ^ 32 → 0 <= a < 2 ^ 32 → 0 <= b < 2 ^ 32 →
  (∀ h p, let d := IDMA.set_heap h (idma (chip m)) in Driver.stores_to d off v p →
     Driver.store (dmaRead rng) (tick (accesses m), p) d = Ok (set_regs a b size (commandReg d) (statusReg d) d)) →
  ∃ m', store_word (IDMA_BASE + off) v m = Ok m' ∧ rest m' ∧ same_state m m' ∧
    srcAddrReg (idma (chip m')) = a ∧ dstAddrReg (idma (chip m')) = b ∧ sizeReg (idma (chip m')) = size.
Proof using Hk.
  intros Hr H0 H1 H4 Hv Ha Hb Hst. pose proof (rt_base _ Hr) as Hbase.
  destruct (store_device rng jitter tick pc local k Hk m off v (rt_ok _ Hr) H0 H1) as (h & p & x & Ht & Hby & Hx & Hsto & Hrun); [|done|].
  { rewrite Hbase, Z.add_mod, H4 by done. done. }
  destruct (Hrun _ (Hst h p Hsto)) as (c' & Hc' & Hsw). rewrite Hbase in Hsw. rewrite Hsw.
  eexists. split; [done|]. split; [by apply rest_regs|]. split; [|done]. by constructor; try apply Ht.
Qed.

(** The registers are programmed, and the command is next. *)
Lemma dma_start_programs src dst size m :
  rest m → 0 <= src < 2 ^ 32 → 0 <= dst < 2 ^ 32 → 0 <= size < 2 ^ 32 →
  ∃ m', dma_start src dst size m = store_word DMA_CMD 1 m' ∧ rest m' ∧ same_state m m' ∧
    srcAddrReg (idma (chip m')) = src ∧ dstAddrReg (idma (chip m')) = dst ∧ sizeReg (idma (chip m')) = size.
Proof using Hk.
  intros Hr Hs Hd Hn. unfold dma_start.
  destruct (store_reg m 0 src src (dstAddrReg (idma (chip m))) (sizeReg (idma (chip m))) Hr) as (m1 & H1 & Hr1 & Hs1 & Ha1 & _); try (done || lia).
  { apply (rt_regs _ Hr). } { intros h p d Hsto. exact (Driver.store_src (dmaRead rng) _ src p d (proj1 (rt_regs _ Hr)) Hsto). }
  destruct (store_reg m1 4 dst src dst (sizeReg (idma (chip m1))) Hr1) as (m2 & H2 & Hr2 & Hs2 & Ha2 & Hb2 & _); try (done || lia).
  { intros h p d Hsto. rewrite <-Ha1. exact (Driver.store_dst (dmaRead rng) _ dst p d (proj2 (rt_regs _ Hr1)) Hsto). }
  destruct (store_reg m2 8 size src dst size Hr2) as (m3 & H3 & Hr3 & Hs3 & Hregs); try (done || lia).
  { intros h p d Hsto. rewrite <-Ha2, <-Hb2. exact (Driver.store_size (dmaRead rng) _ size p d Hsto). }
  exists m3. unfold DMA_SRC_ADDR, DMA_DST_ADDR, DMA_SIZE. rewrite H1, res_bind_Ok, H2, res_bind_Ok, H3, res_bind_Ok. split; [done|]. split; [done|].
  split; [|done]. eapply same_state_trans; [done|]. by eapply same_state_trans.
Qed.

(** [n] bytes at the virtual address [va], at [pa] of the memories. *)
Record data_region (pt : EmulationPageTable.t) (v : XBarMemory.t M) (va pa n : Z) : Prop := {
  dr_range : 0 <= va ∧ va + n <= 2 ^ 32;
  dr_high : pa + n < 2 ^ 63;
  dr_mapped z : 0 <= z < n → EmulationPageTable.translate pt (va + z) = Some (pa + z);
  dr_serves z l : 0 <= z → 0 < l → z + l <= n → XBarMemory.accepts v (pa + z) l;
}.

Lemma region_same pt v v' va pa n : same_memory v v' → data_region pt v va pa n → data_region pt v' va pa n.
Proof. intros (_ & Ha & _) [? ? ? Hs]. constructor; try done. intros z l ? ? ?. by apply Ha, Hs. Qed.

Lemma region_vserves pt v va pa n : data_region pt v va pa n → vserves pt v pk k va n.
Proof using Hk.
  intros [Hr Hh Hm Hs] z l Hz Hl Hle _. exists (pa + z). assert (2 ^ k < 2 ^ 32) by (apply Z.pow_lt_mono_r; lia).
  split; [apply Hm; lia|]. split; [lia|]. intros z' l' ? ? ? _. rewrite <-Z.add_assoc. apply Hs; lia.
Qed.

Lemma region_vinj pt v va pa n : data_region pt v va pa n → vinj pt va n.
Proof. intros [_ _ Hm _] i j y Hi Hj. rewrite !Hm by done. intros [= <-] [= ?]. lia. Qed.

Lemma region_word m va pa n i :
  data_region (table m) (memory_view (chip m)) va pa n → va mod 4 = 0 → 0 <= i → 4 * i + 4 <= n →
  word_at m (va + 4 * i) (pa + 4 * i) ∧ XBarMemory.accepts (memory_view (chip m)) (pa + 4 * i) 4.
Proof.
  intros [Hr Hh Hm Hs] Ha Hi Hle. split; [|by apply Hs; lia]. constructor; [lia| |apply Hm; lia].
  rewrite Z.mul_comm, Z.mod_add by lia. done.
Qed.

(** The device has done a step. *)
Lemma mok_device m d x c n :
  mok m → AtomicCpu.ok k c → XBar.same_decoder (xbar1 (chip m)) x → regBase d = regBase (idma (chip m)) →
  dmaBuffer d = dmaBuffer (idma (chip m)) → pTable d = table m →
  same_memory (memory_view (chip m)) (mem (world (dev d))) → XBarMemory.inv (mem (world (dev d))) (heap_of d) →
  (∀ q l, in_bounds (heap_of d) q l = in_bounds (heap (chip m)) q l) → mok (mkMachine c (mk x (pio_port (chip m)) d) n).
Proof.
  intros [Hok Hcp Hl Ho Hap Hrg] Hc Hx Hb Hbuf Hpt Hs Hi Hbd. constructor; try done.
  - by apply (ok_after (chip m)).
  - by rewrite <-Hl.
  - by intros ?%(proj1 Hs).
  - simpl. by rewrite Hbuf.
  - unfold table. simpl. rewrite Hb, Hpt. apply Hrg.
Qed.

(** A copy of [n] bytes from [src] to [dst], started when the memories were [v0] with
    the bytes [C0]. *)
Record going (v0 : XBarMemory.t M) (C0 : Z → option Z) (src dst n : Z) (m : machine M) : Prop := {
  go_ok : mok m;
  go_base : regBase (idma (chip m)) = IDMA_BASE;
  go_buffer : in_bounds (heap (chip m)) (dmaBuffer (idma (chip m))) (2 ^ 20) = true;
  go_copy : ∃ m0 g, same_memory v0 m0 ∧ can_copy pk k src dst n (dmaBuffer (idma (chip m))) (table m) m0 g ∧
    (∀ a, contents m0 g a = C0 a) ∧
    configured k src dst n (dmaBuffer (idma (chip m))) (table m) (idma (chip m)) ∧
    phase src dst n (dmaBuffer (idma (chip m))) (table m) m0 g (idma (chip m));
}.

Lemma rest_can_copy m h src dst sp dp n :
  rest m → 0 < n <= 2 ^ 20 → data_region (table m) (memory_view (chip m)) src sp n → data_region (table m) (memory_view (chip m)) dst dp n →
  touched (is_local local) (chip m) (set_heap h (chip m)) →
  can_copy pk k src dst n (dmaBuffer (idma (chip m))) (table m) (memory_view (chip m)) h.
Proof using Hk.
  intros [_ _ _ _ _ _ [Hib Hnb] Hp] Hn Hs Hd Ht. pose proof (dr_range _ _ _ _ _ Hs). pose proof (dr_range _ _ _ _ _ Hd).
  constructor; try (done || lia).
  - apply (ok_mem _ (to_ok _ _ _ Ht)).
  - split; [|done]. rewrite <-(ptr_add_0 (dmaBuffer _)). apply (in_bounds_part _ _ (2 ^ 20)); [|lia..].
    etransitivity; [apply (to_bounds _ _ _ Ht)|done].
  - by eapply region_vserves.
  - split; [by eapply region_vserves|by eapply region_vinj].
Qed.

Lemma dma_start_ok src dst sp dp n m :
  rest m → 0 < n <= 2 ^ 20 → data_region (table m) (memory_view (chip m)) src sp n → data_region (table m) (memory_view (chip m)) dst dp n →
  ∃ m', dma_start src dst n m = Ok m' ∧ going (memory_view (chip m)) (byte_at (chip m)) src dst n m' ∧ table m' = table m.
Proof using Hk.
  intros Hr Hn Hs Hd. pose proof (dr_range _ _ _ _ _ Hs). pose proof (dr_range _ _ _ _ _ Hd).
  destruct (dma_start_programs src dst n m Hr) as (m1 & -> & Hr1 & [Hm1 Hb1 Hbuf1 Hpt1] & Ha1 & Hd1 & Hn1); [lia..|].
  pose proof (rt_base _ Hr1) as Hbase. destruct (rt_buffer _ Hr1) as [Hib Hnb].
  destruct (store_device rng jitter tick pc local k Hk m1 0xc 1 (rt_ok _ Hr1)) as (h & p & x & Ht & Hby & Hx & Hsto & Hrun); try done.
  { by rewrite Hbase. }
  set (d := idma (set_heap h (chip m1))) in *. destruct Hsto as (_ & (e & Hacc) & Hget).
  rewrite <-Hpt1 in Hs, Hd. pose proof (rest_can_copy m1 h src dst sp dp n Hr1 Hn (region_same _ _ _ _ _ _ Hm1 Hs) (region_same _ _ _ _ _ _ Hm1 Hd) Ht) as Hcan.
  destruct (command_starts rng pk k (tick (accesses m1)) p e 1 d) as (p' & d1 & Hw & Hcf & Hrd).
  { destruct Hr1 as [_ _ [] ? ? _ _ _]. by constructor. }
  { by rewrite <-Ha1, <-Hd1, <-Hn1 in Hcan. }
  change (srcAddrReg d) with (srcAddrReg (idma (chip m1))) in *. change (dstAddrReg d) with (dstAddrReg (idma (chip m1))) in *.
  change (sizeReg d) with (sizeReg (idma (chip m1))) in *. rewrite Ha1, Hd1, Hn1 in *.
  destruct (Hrun d1) as (c' & Hc' & Hsw). { unfold Driver.store. simpl. by rewrite Hw. }
  rewrite Hbase in Hsw. unfold DMA_CMD. rewrite Hsw. eexists. split; [done|].
  assert (phase src dst n (dmaBuffer d) (pTable d) (mem (world (dev d))) (heap_of d) d1) as Hph by by left.
  destruct (phase_memory _ _ _ _ _ _ _ _ Hph) as (Hinv & Hsame & Hbd).
  assert (mok (mkMachine c' (mk x (pio_port (chip m1)) d1) (S (accesses m1)))) as Hmok.
  { apply (mok_device (mkMachine (cpu m1) (set_heap h (chip m1)) 0)); try done.
    - eapply mok_after; [apply Hr1|exact Ht|apply (rt_ok _ Hr1)].
    - by apply write_base in Hw.
    - apply Hcf.
    - apply Hcf. }
  split; [|unfold table at 1; simpl; rewrite (cf_pt _ _ _ _ _ _ _ Hcf); done].
  constructor; [done| | |].
  - etransitivity; [exact (write_base _ _ _ _ _ _ _ Hw)|done].
  - simpl. rewrite (cf_buf _ _ _ _ _ _ _ Hcf). etransitivity; [apply Hbd|]. etransitivity; [apply (to_bounds _ _ _ Ht)|done].
  - unfold table. simpl. rewrite (cf_buf _ _ _ _ _ _ _ Hcf), (cf_pt _ _ _ _ _ _ _ Hcf).
    exists (mem (world (dev d))), (heap_of d). split; [done|]. split; [done|]. split; [|done]. intros a. etransitivity; [apply Hby|apply Hb1].
Qed.

Lemma going_event v0 C0 src dst n m d :
  going v0 C0 src dst n m → fires rng (idma (chip m)) d → going v0 C0 src dst n (with_device d m) ∧ table (with_device d m) = table m.
Proof using Hk.
  intros [Hok Hb Hbuf (m0 & g & Hs0 & Hcan & HC & Hcf & Hph)] Hf.
  destruct (fires_phase rng pk k _ _ _ _ _ _ _ Hcan _ _ (conj Hcf Hph) Hf) as [Hcf' Hph'].
  destruct (phase_memory _ _ _ _ _ _ _ _ Hph) as (_ & Hsame & Hbd). destruct (phase_memory _ _ _ _ _ _ _ _ Hph') as (Hi' & Hsame' & Hbd').
  assert (regBase d = regBase (idma (chip m))) as Hrb by (destruct Hf as (i & y & _ & Hf); by eapply fire_base).
  pose proof (cf_buf _ _ _ _ _ _ _ Hcf') as Hdb. pose proof (cf_pt _ _ _ _ _ _ _ Hcf') as Hpt.
  split; [|done]. unfold with_device. constructor.
  - apply (mok_device m); try done.
    + apply Hok.
    + pose proof (ok_decoder _ (mk_chip _ _ _ Hok)). split; [done|]. split; [done|]. exists (XBar.portMap (xbar1 (chip m))). by destruct (xbar1 (chip m)).
    + eapply same_memory_trans; [by apply same_memory_sym|done].
    + intros q l. rewrite Hbd'. symmetry. apply Hbd.
  - by rewrite <-Hb.
  - simpl. rewrite Hdb. etransitivity; [apply Hbd'|]. etransitivity; [symmetry; apply Hbd|done].
  - unfold table. simpl. rewrite Hdb, Hpt. eauto 10.
Qed.

(** A poll reads the status; nothing else can see it. *)
Lemma going_poll v0 C0 src dst n m :
  going v0 C0 src dst n m →
  ∃ m', load_word DMA_STATUS m = Ok (statusReg (idma (chip m)), m') ∧ going v0 C0 src dst n m' ∧ table m' = table m ∧
    statusReg (idma (chip m')) = statusReg (idma (chip m)).
Proof using Hk.
  intros [Hok Hb Hbuf (m0 & g & Hs0 & Hcan & HC & Hcf & Hph)].
  destruct (load_status rng jitter tick pc local k Hk m Hok) as (c' & x & h & Hld & Hc' & Ht & Hby); [by rewrite Hb| |].
  { destruct (phase_status _ _ _ _ _ _ _ _ Hph) as [Hd Hbz]. destruct (decide (pending_events (idma (chip m)) = [])) as [He|He].
    - destruct (Hd He) as (_ & -> & _). done.
    - by rewrite (Hbz He). }
  rewrite Hb in Hld. eexists. split; [exact Hld|]. split; [|done].
  destruct (phase_memory _ _ _ _ _ _ _ _ Hph) as (_ & Hsame & _).
  destruct (phase_heap pk k src dst n _ _ m0 g (idma (chip m)) h Hcan Hcf Hph) as (g' & Hcan' & HC' & Hcf' & Hph').
  { constructor.
    - intros b i Hbo. apply (to_heap _ _ _ Ht). intros ->. apply (mk_own _ _ _ Hok). by apply Hsame.
    - intros i. apply (to_heap _ _ _ Ht). intros Heq. by apply (mk_apart _ _ _ Hok).
    - apply (to_bounds _ _ _ Ht). }
  constructor; [by eapply mok_after|done| |].
  - etransitivity; [apply (to_bounds _ _ _ Ht)|done].
  - exists m0, g'. split; [done|]. split; [done|]. split; [|done]. intros a. by rewrite HC'.
Qed.

(** The copy is done: the device is at rest, and the bytes are there. *)
Record landed (pt : EmulationPageTable.t) (v0 : XBarMemory.t M) (C0 : Z → option Z) (sp dp n : Z) (m : machine M) : Prop := {
  la_rest : rest m;
  la_table : table m = pt;
  la_same : same_memory v0 (memory_view (chip m));
  la_bytes a : byte_at (chip m) a = if decide (dp <= a < dp + n) then C0 (sp + (a - dp)) else C0 a;
}.

Lemma going_done v0 C0 src dst sp dp n m :
  data_region (table m) v0 src sp n → data_region (table m) v0 dst dp n → going v0 C0 src dst n m →
  (statusReg (idma (chip m)) = IDMA_BUSY ∧ pending_events (idma (chip m)) ≠ []) ∨
  (statusReg (idma (chip m)) = IDMA_COMPLETE ∧ pending_events (idma (chip m)) = [] ∧ landed (table m) v0 C0 sp dp n m).
Proof using Hk.
  intros Hsr Hdr [Hok Hb Hbuf (m0 & g & Hs0 & Hcan & HC & Hcf & Hph)]. destruct (phase_status _ _ _ _ _ _ _ _ Hph) as [Hd Hbz].
  destruct (decide (pending_events (idma (chip m)) = [])) as [He|He]; [right|left; by split; [apply Hbz|]].
  destruct (Hd He) as (Hq & Hst & [Hco Hre Hinv Hsa _]). split; [done|]. split; [done|].
  pose proof Hcan as [Hp _ Hrg _ [_ Hnb] _ _]. pose proof Hcf as [Hcs Hcd _ _ Hfs _ Hidle]. constructor.
  - constructor; try done; [by rewrite Hcs, Hcd|]. split; [done|]. by intros ?%(proj1 Hsa).
  - done.
  - by eapply same_memory_trans.
  - intros a. case_decide as Ha.
    + specialize (Hco (a - dp) ltac:(lia)). unfold vcontents in Hco. rewrite (dr_mapped _ _ _ _ _ Hdr), (dr_mapped _ _ _ _ _ Hsr) in Hco by lia.
      replace (dp + (a - dp)) with a in Hco by lia. etransitivity; [exact Hco|apply HC].
    + etransitivity; [refine (Hre a _)|apply HC]. intros i Hi. rewrite (dr_mapped _ _ _ _ _ Hdr) by done. intros [= <-]. lia.
Qed.

(** From [m] on, whatever the order of events and polls, no event fails, and a poll reads
    busy or, once [post] holds, complete; that can always be reached. *)
Definition waits_for (post : machine M → Prop) (m : machine M) : Prop :=
  ∀ m1, rtc wait_step m m1 →
    (∀ i x, pending_events (idma (chip m1)) !! i = Some x → ∃ d, fire (dmaWrite rng) i (idma (chip m1)) = Ok d) ∧
    (∃ v m2, load_word DMA_STATUS m1 = Ok (v, m2) ∧ (v = 1 ∨ v = 2 ∧ post m2)) ∧
    ∃ m2 m3, rtc wait_step m1 m2 ∧ load_word DMA_STATUS m2 = Ok (2, m3).

Lemma going_steps v0 C0 src dst n m m1 :
  rtc wait_step m m1 → going v0 C0 src dst n m → going v0 C0 src dst n m1 ∧ table m1 = table m.
Proof using Hk.
  induction 1 as [|m m2 m3 Hst _ IH]; [done|]. intros Hg. assert (going v0 C0 src dst n m2 ∧ table m2 = table m) as [Hg2 Ht2].
  { destruct Hst as [m d Hf|m v m' Hl]; [by eapply going_event|]. destruct (going_poll _ _ _ _ _ _ Hg) as (m4 & Hl4 & Hg4 & Ht4 & _).
    rewrite Hl in Hl4. by injection Hl4 as -> ->. }
  destruct (IH Hg2) as [? ?]. split; [done|congruence].
Qed.

(** All pending events run. *)
Lemma fires_steps m d : rtc (fires rng) (idma (chip m)) d → rtc wait_step m (with_device d m).
Proof.
  intros Hr. remember (idma (chip m)) as d0 eqn:Hd0. revert m Hd0. induction Hr as [d|d0 d1 d2 Hf _ IH]; intros m Hd0.
  - subst d. by destruct m as [c [x p d] n].
  - eapply rtc_l; [apply wait_event; by rewrite <-Hd0|]. apply (IH (with_device d1 m)). done.
Qed.

Lemma going_waits v0 C0 src dst sp dp n m :
  data_region (table m) v0 src sp n → data_region (table m) v0 dst dp n → going v0 C0 src dst n m →
  waits_for (landed (table m) v0 C0 sp dp n) m.
Proof using Hk.
  intros Hsr Hdr Hg m1 Hr. destruct (going_steps _ _ _ _ _ _ _ Hr Hg) as [Hg1 Ht1]. rewrite <-Ht1 in Hsr, Hdr. split; [|split].
  - intros i y Hi. destruct Hg1 as [_ _ _ (m0 & g & _ & Hcan & _ & Hcf & Hph)]. by eapply (fires_total rng pk k).
  - destruct (going_poll _ _ _ _ _ _ Hg1) as (m2 & Hl & Hg2 & Ht2 & Hst). do 2 eexists. split; [exact Hl|]. rewrite <-Ht2 in Hsr, Hdr.
    destruct (going_done _ _ _ _ _ _ _ _ Hsr Hdr Hg2) as [[Hs _]|(Hs & _ & Hla)]; rewrite <-Hst, Hs; [by left|right]. split; [done|].
    by rewrite <-Ht1, <-Ht2.
  - pose proof Hg1 as [_ _ _ (m0 & g & _ & Hcan & _ & Hcf & Hph)].
    destruct (phase_finishes rng pk k _ _ _ _ _ _ _ Hcan _ Hcf Hph) as (d & Hfs & _ & Hst & _). pose proof (fires_steps m1 d Hfs) as Hsteps.
    destruct (going_steps _ _ _ _ _ _ _ Hsteps Hg1) as [Hg2 _]. destruct (going_poll _ _ _ _ _ _ Hg2) as (m3 & Hl & _).
    simpl in Hl. rewrite Hst in Hl. eauto.
Qed.

(** ** Words of a region *)

Lemma touched_state B m m' : touched B (chip m) (chip m') → (∀ a, byte_at (chip m') a = byte_at (chip m) a) → same_state m m'.
Proof. intros [_ _ (l & h & Hd) Hm _ _ _] Hb. unfold table. constructor; try done; unfold table; by rewrite Hd. Qed.

Lemma word_same m m' pa v : (∀ a, byte_at (chip m') a = byte_at (chip m) a) → word_of (chip m') pa v → word_of (chip m) pa v.
Proof. intros Hb (bs & Hl & Hv & Hbs). exists bs. split_and!; try done. intros i Hi. by rewrite <-Hb, Hbs. Qed.

Lemma load_region m va pa n i :
  rest m → data_region (table m) (memory_view (chip m)) va pa n → va mod 4 = 0 → 0 <= i → 4 * i + 4 <= n →
  ∃ v m', load_word (va + 4 * i) m = Ok (v, m') ∧ word_of (chip m) (pa + 4 * i) v ∧ rest m' ∧ same_state m m'.
Proof using Hk.
  intros Hr Hreg Ha Hi Hle. destruct (region_word m va pa n i Hreg Ha Hi Hle) as [Hw Hacc].
  destruct (load_memory rng jitter tick pc local k Hk m _ _ (rt_ok _ Hr) Hw Hacc) as (v & [c s l] & Hld & Hv & Ht & Hok & Hb).
  eexists v, _. split; [exact Hld|]. split; [done|]. split; [eapply rest_touched; [done|exact Ht|apply Hok]|by eapply touched_state].
Qed.

(** A word that was stored. *)
Lemma stored_word m pa v w :
  word_of (chip m) pa v → (∀ b, 0 <= b < 4 → byte_at (chip m) (pa + b) = le_bytes 4 w !! Z.to_nat b) → v = u32 w.
Proof.
  intros (bs & Hl & -> & Hbs) Hw. assert (bs = le_bytes 4 w) as ->.
  { apply list_eq. intros b. destruct (decide (b < 4)%nat).
    - rewrite <-(Nat2Z.id b), <-Hbs, Hw by lia. done.
    - by rewrite !lookup_ge_None_2 by (rewrite ?le_bytes_length; lia). }
  rewrite le_value_bytes. done.
Qed.

(** The byte at offset [z] of the test data. *)
Definition pattern (z : Z) : option Z := le_bytes 4 (u32 (0xDEAD0000 + z / 4)) !! Z.to_nat (z mod 4).

(** The memory with the first [n] bytes at [pa] being test data. *)
Definition filled (pa n : Z) (C : Z → option Z) (a : Z) : option Z :=
  if decide (pa <= a < pa + n) then pattern (a - pa) else C a.

Lemma filled_next pa i C a :
  0 <= i → filled pa (4 * (i + 1)) C a =
    if decide (pa + 4 * i <= a < pa + 4 * i + 4) then le_bytes 4 (u32 (0xDEAD0000 + i)) !! Z.to_nat (a - (pa + 4 * i)) else filled pa (4 * i) C a.
Proof.
  intros Hi. unfold filled. destruct (decide (pa + 4 * i <= a < pa + 4 * i + 4)) as [Ha|Ha].
  - rewrite decide_True by lia. unfold pattern. assert ((a - pa) / 4 = i) as -> by (symmetry; apply Z.div_unique with (a - (pa + 4 * i)); lia).
    assert ((a - pa) mod 4 = a - (pa + 4 * i)) as -> by (symmetry; apply Z.mod_unique with i; lia). done.
  - destruct (decide (pa <= a < pa + 4 * i)); [by rewrite decide_True by lia|by rewrite decide_False by lia].
Qed.

Lemma l1i_fill m va pa n :
  rest m → data_region (table m) (memory_view (chip m)) va pa (4 * n) → va mod 4 = 0 → 0 <= n →
  ∃ m', CInt.for_ 0 n (λ i m, store_word (va + 4 * i) (u32 (0xDEAD0000 + i)) m) m = Ok m' ∧
    rest m' ∧ same_memory (memory_view (chip m)) (memory_view (chip m')) ∧ table m' = table m ∧
    ∀ a, byte_at (chip m') a = filled pa (4 * n) (byte_at (chip m)) a.
Proof using Hk.
  intros Hr Hreg Hal Hn. apply (CInt.for_ind (λ i m', rest m' ∧ same_memory (memory_view (chip m)) (memory_view (chip m')) ∧ table m' = table m ∧
    ∀ a, byte_at (chip m') a = filled pa (4 * i) (byte_at (chip m)) a)); [done| |].
  { split; [done|]. split; [apply same_memory_refl|]. split; [done|]. intros a. unfold filled. by rewrite decide_False by lia. }
  intros i m1 Hi (Hr1 & Hs1 & Ht1 & Hb1). apply (region_same _ _ _ _ _ _ Hs1) in Hreg. rewrite <-Ht1 in Hreg.
  destruct (region_word m1 va pa (4 * n) i Hreg Hal ltac:(lia) ltac:(lia)) as [Hw Hacc].
  destruct (store_memory rng jitter tick pc local k Hk m1 _ _ (u32 (0xDEAD0000 + i)) (rt_ok _ Hr1) Hw Hacc) as ([c s l] & Hst & Ht & Hok & Hb).
  eexists. split; [exact Hst|]. pose proof Ht as [_ _ (l' & h & Hd) Hm _ _ _]. split; [eapply rest_touched; [done|exact Ht|apply Hok]|].
  split; [by eapply same_memory_trans|]. split; [rewrite <-Ht1; unfold table; simpl in Hd |- *; by rewrite Hd|].
  intros a. rewrite Hb, filled_next by lia. case_decide; [done|]. apply Hb1.
Qed.

Lemma pattern_word j b : 0 <= b < 4 → pattern (4 * j + b) = le_bytes 4 (u32 (0xDEAD0000 + j)) !! Z.to_nat b.
Proof.
  intros Hb. unfold pattern. assert ((4 * j + b) / 4 = j) as -> by (symmetry; apply Z.div_unique with b; lia).
  by assert ((4 * j + b) mod 4 = b) as -> by (symmetry; apply Z.mod_unique with j; lia).
Qed.

Lemma l1i_check_ok dp size n i m :
  rest m → data_region (table m) (memory_view (chip m)) L1D_SPM_DATA dp size → 0 <= i → 4 * (i + Z.of_nat n) <= size →
  (∀ z, 0 <= z < size → byte_at (chip m) (dp + z) = pattern z) →
  ∃ m', l1i_check n i 0 m = Ok (0, m') ∧ rest m' ∧ same_state m m'.
Proof using Hk.
  revert i m. induction n as [|n IH]; intros i m Hr Hreg Hi Hle Hp.
  { exists m. split; [done|]. split; [done|]. by constructor. }
  cbn [l1i_check]. destruct (load_region m L1D_SPM_DATA dp size i Hr Hreg eq_refl Hi ltac:(lia)) as (v & m1 & -> & Hv & Hr1 & Hs1).
  rewrite res_bind_Ok. rewrite (stored_word m _ v (u32 (0xDEAD0000 + i)) Hv).
  2: { intros b Hb. by rewrite <-Z.add_assoc, Hp, pattern_word by lia. }
  assert (u32 (u32 (0xDEAD0000 + i)) = u32 (0xDEAD0000 + i)) as -> by (unfold u32; by rewrite Z.mod_mod). rewrite Z.eqb_refl.
  pose proof Hs1 as [Hm1 Hb1 _ Ht1]. destruct (IH (i + 1) m1) as (m2 & Hc & Hr2 & Hs2); try (done || lia).
  - rewrite Ht1. by eapply region_same.
  - intros z Hz. by rewrite Hb1, Hp.
  - exists m2. split; [done|]. split; [done|]. by eapply same_state_trans.
Qed.

Lemma waits_mono (P Q : machine M → Prop) m : (∀ m', P m' → Q m') → waits_for P m → waits_for Q m.
Proof.
  intros HPQ Hw m1 Hr. destruct (Hw m1 Hr) as (Hen & (v & m2 & Hl & Hv) & Hfin). split; [done|]. split; [|done].
  exists v, m2. split; [done|]. destruct Hv as [?|[? ?]]; auto.
Qed.

(** C3: test_l1i_to_l1d on the chip with an atomic processor: with the device at rest and the two buffers mapped to memories, the
    processor fills the source buffer and starts the copy; while it polls, whatever the order of polls and of the events of the copy,
    nothing fails and a poll reads busy or complete; once it reads complete, which can always be reached, the verification finds no
    error, the test returns 0, exactly the two buffers hold the test data, and the device is at rest again. *)
Theorem l1i_test_passes sp dp m :
  rest m → data_region (table m) (memory_view (chip m)) l1i_data sp test_size →
  data_region (table m) (memory_view (chip m)) L1D_SPM_DATA dp test_size →
  ∃ m1, l1i_begin m = Ok m1 ∧
    waits_for (λ m2, ∃ m3, l1i_end m2 = Ok (0, m3) ∧ rest m3 ∧
      ∀ a, byte_at (chip m3) a = filled dp test_size (filled sp test_size (byte_at (chip m))) a) m1.
Proof using Hk.
  intros Hr Hs Hd. destruct (l1i_fill m l1i_data sp 256 Hr Hs eq_refl ltac:(lia)) as (m1 & Hf & Hr1 & Hm1 & Ht1 & Hb1).
  rewrite <-Ht1 in Hs, Hd. apply (region_same _ _ _ _ _ _ Hm1) in Hs, Hd.
  destruct (dma_start_ok l1i_data L1D_SPM_DATA sp dp test_size m1 Hr1 ltac:(done) Hs Hd) as (m2 & Hst & Hg & Ht2).
  exists m2. unfold l1i_begin. change (test_size / 4) with 256. rewrite Hf, res_bind_Ok. split; [done|]. rewrite <-Ht2 in Hs, Hd.
  eapply waits_mono; [|exact (going_waits _ _ _ _ _ _ _ _ Hs Hd Hg)]. intros m3 [Hr3 Ht3 Hm3 Hb3].
  assert (∀ a, byte_at (chip m3) a = filled dp test_size (filled sp test_size (byte_at (chip m))) a) as Hb.
  { intros a. rewrite Hb3. unfold filled at 1. case_decide; [|apply Hb1]. rewrite Hb1. unfold filled. change (4 * 256) with test_size.
    rewrite decide_True by (unfold test_size in *; lia). f_equal. lia. }
  destruct (l1i_check_ok dp test_size 256 0 m3 Hr3) as (m4 & Hc & Hr4 & Hs4); try done.
  - rewrite Ht3. by eapply region_same.
  - intros z Hz. rewrite Hb. unfold filled at 1. rewrite decide_True by lia. f_equal. lia.
  - exists m4. unfold l1i_end. change (Z.to_nat (test_size / 4)) with 256%nat. rewrite Hc. split; [done|]. split; [done|]. intros a.
    by rewrite (ss_bytes _ _ Hs4), Hb.
Qed.

(** The words at [pa], [n] of them from the [i]-th on. *)
Definition words_at (s : Soc.t M) (pa i : Z) (n : nat) (l : list Z) : Prop :=
  length l = n ∧ ∀ j v, l !! j = Some v → word_of s (pa + 4 * (i + Z.of_nat j)) v.

Lemma l1_words_ok dp size n i m :
  rest m → data_region (table m) (memory_view (chip m)) L1D_SPM_DATA dp size → 0 <= i → 4 * (i + Z.of_nat n) <= size →
  ∃ l m', l1_words n i m = Ok (l, m') ∧ words_at (chip m) dp i n l ∧ rest m' ∧ same_state m m'.
Proof using Hk.
  revert i m. induction n as [|n IH]; intros i m Hr Hreg Hi Hle.
  { exists [], m. split; [done|]. split; [done|]. split; [done|]. by constructor. }
  cbn [l1_words]. destruct (load_region m L1D_SPM_DATA dp size i Hr Hreg eq_refl Hi ltac:(lia)) as (v & m1 & -> & Hv & Hr1 & Hs1).
  pose proof Hs1 as [Hm1 Hb1 _ Ht1]. destruct (IH (i + 1) m1 Hr1) as (l & m2 & Hl & [Hlen Hw] & Hr2 & Hs2); try lia.
  { rewrite Ht1. by eapply region_same. }
  rewrite res_bind_Ok, Hl, res_bind_Ok. exists (v :: l), m2. split; [done|]. split; [|split; [done|by eapply same_state_trans]].
  split; [simpl; lia|]. intros [|j] w; simpl; [intros [= <-]; by rewrite Z.add_0_r|].
  intros Hj. apply (word_same m m1); [done|]. replace (i + Z.of_nat (S j)) with (i + 1 + Z.of_nat j) by lia. by apply Hw.
Qed.

(** The words of a region that was copied. *)
Lemma words_copied s s' sp dp n l :
  words_at s' dp 0 n l → (∀ z, 0 <= z < 4 * Z.of_nat n → byte_at s' (dp + z) = byte_at s (sp + z)) → words_at s sp 0 n l.
Proof.
  intros [Hlen Hw] Hb. split; [done|]. intros j v Hj. destruct (Hw j v Hj) as (bs & Hl & Hv & Hbs). exists bs. split_and!; try done.
  apply lookup_lt_Some in Hj. intros b Hbb. rewrite <-Z.add_assoc, <-Hb, Z.add_assoc by lia. by apply Hbs.
Qed.

(** C2: test_l2_to_l1, the test that main runs, on the chip with an atomic processor: the words it prints before the transfer are those
    of the level-1 buffer; while it polls, whatever the order of polls and events, nothing fails, and a poll reads busy or complete;
    once it reads complete, which can always be reached, the words it prints are those the level-2 buffer held at the start, it
    returns 1, the 256 bytes have been copied and nothing else has changed, and the device is at rest again. *)
Theorem l2_test_copies sp dp m :
  rest m → data_region (table m) (memory_view (chip m)) L2_SPM_BASE sp 256 →
  data_region (table m) (memory_view (chip m)) L1D_SPM_DATA dp 256 →
  ∃ before m1, l2_begin m = Ok (before, m1) ∧ words_at (chip m) dp 0 16 before ∧
    waits_for (λ m2, ∃ after m3, l2_end m2 = Ok (after, 1, m3) ∧ words_at (chip m) sp 0 16 after ∧ rest m3 ∧
      ∀ a, byte_at (chip m3) a = if decide (dp <= a < dp + 256) then byte_at (chip m) (sp + (a - dp)) else byte_at (chip m) a) m1.
Proof using Hk.
  intros Hr Hs Hd. destruct (l1_words_ok dp 256 16 0 m Hr Hd ltac:(done) ltac:(done)) as (before & m1 & Hbf & Hwb & Hr1 & [Hm1 Hb1 _ Ht1]).
  rewrite <-Ht1 in Hs, Hd. apply (region_same _ _ _ _ _ _ Hm1) in Hs, Hd.
  destruct (dma_start_ok L2_SPM_BASE L1D_SPM_DATA sp dp 256 m1 Hr1 ltac:(done) Hs Hd) as (m2 & Hst & Hg & Ht2).
  exists before, m2. unfold l2_begin. rewrite Hbf, res_bind_Ok, Hst, res_bind_Ok. split; [done|]. split; [done|]. rewrite <-Ht2 in Hs, Hd.
  eapply waits_mono; [|exact (going_waits _ _ _ _ _ _ _ _ Hs Hd Hg)]. intros m3 [Hr3 Ht3 Hm3 Hb3].
  assert (∀ a, byte_at (chip m3) a = if decide (dp <= a < dp + 256) then byte_at (chip m) (sp + (a - dp)) else byte_at (chip m) a) as Hb.
  { intros a. rewrite Hb3. by case_decide; rewrite Hb1. }
  destruct (l1_words_ok dp 256 16 0 m3 Hr3) as (after & m4 & Haf & Hwa & Hr4 & [_ Hb4 _ _]); try done.
  { rewrite Ht3. by eapply region_same. }
  exists after, m4. unfold l2_end. rewrite Haf. split; [done|]. split; [|split; [done|intros a; by rewrite Hb4, Hb]].
  eapply words_copied; [exact Hwa|]. intros z Hz. rewrite Hb, decide_True by lia. f_equal. lia.
Qed.

End Test.
End SpmTest.
