(* ===== verification/HybridMemory.v ===== *)
(** The hybrid memory configuration ([configs/tutorial/part1/hybrid_memory.py]) in atomic
    mode: three scratchpads, the two crossbars, the iDMA device and the mappings of the
    process, and the tests of [spm_test.c] on it. *)

From S2P Require Import Prelude AddrRange AddrRangeMap ChunkGen Host Request MemCmd Packet AbstractMem MemInterface.
From S2P Require Import XBar XBarMemory SimpleMem Spm PageTable Dma DmaVirt Idma AtomicCpu CInt Driver Soc SpmTest.
Import Host DmaPort DmaVirtDevice IDMA Soc SpmTest.

Module HybridMemory.

(** A scratchpad with a latency of 2 ns, backed by the block [b]. *)
Definition scratchpad (start size : Z) (b : positive) : Spm.t :=
  Spm.create (AbstractMemory.mk (AddrRange.RangeSize start size) (Some (Ptr b 0)) (Some (Ptr b 0)) true true [] AbstractMemory.no_stats [])
    2000 0.

Definition l1i_spm : Spm.t := scratchpad 0x80000000 0x10000 1.
Definition l1d_spm : Spm.t := scratchpad 0x80010000 0x10000 2.
Definition l2_spm : Spm.t := scratchpad 0x80020000 0x40000 3.

(** Crossbars without latencies whose memory-side peers announce their ranges. *)
Fixpoint announce_all (id : Z) (l : list (list AddrRange.t)) (x : XBar.t) : res XBar.t :=
  match l with
  | [] => Ok x
  | r :: l => x ← XBar.recvRangeChange id r x; announce_all (id + 1) l x
  end.

Definition crossbar (peers : list (list AddrRange.t)) (cpus : nat) : res XBar.t :=
  announce_all 0 peers (XBar.create 0 0 0 16 false 1000 1000000 (length peers) false cpus).

Definition spm_ranges : list (list AddrRange.t) := Spm.getAddrRanges <$> [l1i_spm; l1d_spm; l2_spm].
Definition idma_range : AddrRange.t := AddrRange.RangeSize 0x80060000 0x1000.

Definition xbar1 : res XBar.t := crossbar (spm_ranges ++ [[idma_range]]) 2.
Definition xbar2 : res XBar.t := crossbar spm_ranges 1.

(** The calls of [process.map], on the page table. *)
Definition map_all (pt : EmulationPageTable.t) : res EmulationPageTable.t :=
  pt ← EmulationPageTable.map 0x80000000 0x80000000 0x10000 0 pt;
  pt ← EmulationPageTable.map 0x80010000 0x80010000 0x10000 0 pt;
  pt ← EmulationPageTable.map 0x80020000 0x80020000 0x40000 EmulationPageTable.Clobber pt;
  EmulationPageTable.map 0x80060000 0x80060000 0x1000 0 pt.

(** The system, with scratchpads full of zeros, the buffer of the device in block 4 and the
    variable of the processor in block 5. *)
Definition heap0 : hmem :=
  <[1%positive := replicate (Z.to_nat 0x10000) 0]> (<[2%positive := replicate (Z.to_nat 0x10000) 0]>
    (<[3%positive := replicate (Z.to_nat 0x40000) 0]> (<[4%positive := replicate (Z.to_nat 0x100000) 0]>
      (<[5%positive := replicate 4 0]> ∅)))).

Definition system : res (machine Spm.t) :=
  x1 ← xbar1;
  x2 ← xbar2;
  pt ← map_all (EmulationPageTable.mk ∅ 4096 4095);
  let w := mkWorld (DmaPort.create 2 64) (XBarMemory.mk x2 [l1i_spm; l1d_spm; l2_spm]) heap0 0 in
  Ok (mkMachine (AtomicCpu.create 0 64 1 true)
        (Soc.mk x1 3 (IDMA.mk 0x80060000 0 0 0 0 0 (Ptr 4 0) false pt (DmaVirtDevice.mk ∅ ∅ w))) 0).

(** ** Its parts *)

Definition spm_tree : list (AddrRange.t * Z) :=
  [(AddrRange.plain 0x80000000 0x80010000, 0); (AddrRange.plain 0x80010000 0x80020000, 1); (AddrRange.plain 0x80020000 0x80060000, 2)].

Definition idma_entry : AddrRange.t * Z := (AddrRange.plain 0x80060000 0x80061000, 3).

Lemma xbar2_ok :
  ∃ x, xbar2 = Ok x ∧ AddrRangeMap.tree (XBar.portMap x) = spm_tree ∧ XBar.decoder x ∧ XBar.gotAllAddrRanges x = true.
Proof.
  eexists. split; [vm_compute; reflexivity|]. split; [reflexivity|]. split; [|reflexivity]. constructor; [|reflexivity..]. constructor.
  - constructor; [|constructor; [|constructor; [|constructor]]]; (split; [done|simpl; lia]).
  - change (StronglySorted AddrRangeMap.precedes spm_tree).
    repeat (constructor; [|repeat constructor; unfold AddrRangeMap.precedes; simpl; lia]). constructor.
  - constructor.
Qed.

Lemma xbar1_ok :
  ∃ x, xbar1 = Ok x ∧ AddrRangeMap.tree (XBar.portMap x) = spm_tree ++ [idma_entry] ∧ XBar.decoder x ∧ XBar.gotAllAddrRanges x = true.
Proof.
  eexists. split; [vm_compute; reflexivity|]. split; [reflexivity|]. split; [|reflexivity]. constructor; [|reflexivity..]. constructor.
  - constructor; [|constructor; [|constructor; [|constructor; [|constructor]]]]; (split; [done|simpl; lia]).
  - change (StronglySorted AddrRangeMap.precedes (spm_tree ++ [idma_entry])).
    repeat (constructor; [|repeat constructor; unfold AddrRangeMap.precedes; simpl; lia]). constructor.
  - constructor.
Qed.

(** One call of [process.map] extends the identity mapping from [v] to [v + n]. *)
Definition maps_to (a b : Z) (pt : EmulationPageTable.t) : Prop :=
  EmulationPageTable.wf 12 pt ∧ (∀ x, a <= x < b → EmulationPageTable.translate pt x = Some x) ∧
  ∀ x, is_u64 x → ¬ a <= x < b → EmulationPageTable.translate pt x = None.

Lemma map_extends a v n b fl pt :
  maps_to a v pt → b = v + n → 0 <= a → a <= v → v mod 4096 = 0 → 0 < n → n mod 4096 = 0 → v + n <= 2 ^ 64 →
  ∃ pt', EmulationPageTable.map v v n fl pt = Ok pt' ∧ maps_to a b pt'.
Proof.
  intros (Hwf & Hin & Hout) -> Ha Hav Hal Hn Hnal Htop.
  destruct (EmulationPageTable.map_region 12 v v n fl pt) as (pt' & Hm & Hwf' & Ht & Hkeep);
    [lia|exact Hwf|exact Hal|lia|exact Htop|split; lia| |].
  { right. intros x Hx. apply Hout; [split; lia|lia]. }
  assert (2 ^ 12 * ((n + 2 ^ 12 - 1) / 2 ^ 12) = n) as Hround.
  { change (2 ^ 12) with 4096. pose proof (Z.div_mod n 4096 ltac:(lia)). assert ((n + 4096 - 1) / 4096 = n / 4096) as ->; [|lia].
    symmetry. apply Z.div_unique with 4095; lia. }
  rewrite Hround in Hkeep. exists pt'. split; [done|]. split; [done|]. split.
  - intros x Hx. destruct (decide (v <= x)).
    + replace x with (v + (x - v)) by lia. rewrite Ht by lia. f_equal. rewrite u64_small; [lia|split; lia].
    + rewrite Hkeep; [apply Hin; lia|split; lia|lia].
  - intros x Hx Hno. rewrite Hkeep; [|done|lia]. apply Hout; [done|lia].
Qed.

Lemma map_all_ok : ∃ pt, map_all (EmulationPageTable.mk ∅ 4096 4095) = Ok pt ∧ maps_to 0x80000000 0x80061000 pt.
Proof.
  assert (maps_to 0x80000000 0x80000000 (EmulationPageTable.mk ∅ 4096 4095)) as H0.
  { assert (EmulationPageTable.wf 12 (EmulationPageTable.mk ∅ 4096 4095)) as Hwf by by constructor. split; [done|]. split; [lia|].
    intros x Hx _. by rewrite (EmulationPageTable.translate_eq 12 ltac:(lia)). }
  destruct (map_extends _ 0x80000000 0x10000 0x80010000 0 _ H0 eq_refl) as (pt1 & H1 & Hm1); [lia|lia|reflexivity|lia|reflexivity|lia|].
  destruct (map_extends _ 0x80010000 0x10000 0x80020000 0 _ Hm1 eq_refl) as (pt2 & H2 & Hm2); [lia|lia|reflexivity|lia|reflexivity|lia|].
  destruct (map_extends _ 0x80020000 0x40000 0x80060000 EmulationPageTable.Clobber _ Hm2 eq_refl) as (pt3 & H3 & Hm3); [lia|lia|reflexivity|lia|reflexivity|lia|].
  destruct (map_extends _ 0x80060000 0x1000 0x80061000 0 _ Hm3 eq_refl) as (pt4 & H4 & Hm4); [lia|lia|reflexivity|lia|reflexivity|lia|].
  exists pt4. split; [|done]. unfold map_all. by rewrite H1, res_bind_Ok, H2, res_bind_Ok, H3, res_bind_Ok.
Qed.

Lemma heap0_bounds b l n :
  heap0 !! b = Some l → 0 <= n <= Z.of_nat (length l) → in_bounds heap0 (Ptr b 0) n = true.
Proof. intros Hl Hn. apply in_bounds_iff. exists l. simpl. split; [done|lia]. Qed.

Lemma scratchpad_inv start size b :
  0 <= start → 0 < size → start + size <= 2 ^ 32 → in_bounds heap0 (Ptr b 0) size = true → MemInterface.inv (scratchpad start size b) heap0.
Proof.
  intros H0 H1 H2 Hb. exists (Ptr b 0). split; [|done]. assert (u64 (start + size) = start + size) as Hu by (apply u64_small; split; lia).
  constructor; simpl; rewrite ?Hu; try (done || lia). rewrite <-Hb. f_equal. lia.
Qed.

Lemma scratchpad_owns start size b c : MemInterface.owns (scratchpad start size b) c → c = b.
Proof. by intros (? & [= <-] & ->). Qed.

Definition spms (x : XBar.t) : XBarMemory.t Spm.t := XBarMemory.mk x [l1i_spm; l1d_spm; l2_spm].

Lemma spms_inv x :
  AddrRangeMap.tree (XBar.portMap x) = spm_tree → XBar.decoder x → XBar.gotAllAddrRanges x = true → XBarMemory.inv (spms x) heap0.
Proof.
  intros Ht Hd Ha. constructor; try done.
  - simpl. rewrite Ht. intros e [->|[->|[->|[]%elem_of_nil]%elem_of_cons]%elem_of_cons]%elem_of_cons; simpl; lia.
  - intros [|[|[|i]]] m Hm; simpl in Hm; [injection Hm as <-..|done];
      (apply scratchpad_inv; [lia..|]; eapply heap0_bounds; [reflexivity|rewrite length_replicate; lia]).
  - intros [|[|[|i]]] [|[|[|j]]] m m' b Hm Hm'; simpl in Hm, Hm'; try done; injection Hm as <-; injection Hm' as <-;
      intros ->%scratchpad_owns [=]%scratchpad_owns.
Qed.

Lemma spms_owned x b : XBarMemory.owns (spms x) b → b = 1%positive ∨ b = 2%positive ∨ b = 3%positive.
Proof.
  intros (i & m & Hm & Ho). destruct i as [|[|[|i]]]; simpl in Hm; [injection Hm as <-..|done]; apply scratchpad_owns in Ho; auto.
Qed.

Lemma heap0_device : in_bounds heap0 (Ptr 4 0) (2 ^ 20) = true.
Proof. eapply heap0_bounds; [reflexivity|]. rewrite length_replicate. lia. Qed.

Lemma heap0_local : in_bounds heap0 (Ptr 5 0) 4 = true.
Proof. eapply heap0_bounds; [reflexivity|]. simpl. lia. Qed.

#[local] Opaque heap0.

Lemma spms_region pt x i start size b va n :
  maps_to 0x80000000 0x80061000 pt → AddrRangeMap.tree (XBar.portMap x) = spm_tree →
  (AddrRange.plain start (start + size), Z.of_nat i) ∈ spm_tree → [l1i_spm; l1d_spm; l2_spm] !! i = Some (scratchpad start size b) →
  0x80000000 <= start → start + size <= 0x80060000 → start <= va → va + n <= start + size → data_region pt (spms x) va va n.
Proof.
  intros (_ & Hm & _) Ht Hin Hi Hs He Hv Hn. constructor; [lia|lia|intros z Hz; apply Hm; lia|].
  intros z l Hz Hl Hle. exists (AddrRange.plain start (start + size)), (Z.of_nat i), (scratchpad start size b).
  split; [by rewrite <-Ht in Hin|]. split; [by rewrite Nat2Z.id|]. split; [simpl; lia|]. split; [simpl; lia|].
  split; simpl; [lia|]. rewrite u64_small; [lia|split; lia].
Qed.

(** The system is one the tests run on. *)
Lemma system_ok :
  ∃ m, system = Ok m ∧ rest (Ptr 5 0) 6 12 m ∧
    data_region (table m) (memory_view (chip m)) l1i_data l1i_data test_size ∧
    data_region (table m) (memory_view (chip m)) L1D_SPM_DATA L1D_SPM_DATA test_size ∧
    data_region (table m) (memory_view (chip m)) L2_SPM_BASE L2_SPM_BASE 256 ∧
    data_region (table m) (memory_view (chip m)) L1D_SPM_DATA L1D_SPM_DATA 256.
Proof.
  destruct xbar1_ok as (x1 & H1 & Ht1 & Hd1 & Ha1). destruct xbar2_ok as (x2 & H2 & Ht2 & Hd2 & Ha2).
  destruct map_all_ok as (pt & Hpt & Hm). pose proof Hm as (Hwf & Hid & _). unfold system. rewrite H1, res_bind_Ok, H2, res_bind_Ok, Hpt, res_bind_Ok.
  eexists. split; [reflexivity|]. split; [|split_and!].
  - constructor; [|reflexivity|constructor; reflexivity|reflexivity|constructor; [lia|reflexivity..]|split; simpl; lia| |split; [lia|exact Hwf]].
    + constructor; [|by constructor|exact heap0_local| |discriminate|intros z Hz; apply Hid; simpl in *; lia].
      * constructor; [by apply spms_inv|exact Hd1|exact Ha1| |split; [simpl; lia|reflexivity]|simpl; lia].
        intros e. simpl. rewrite Ht1, Ht2. unfold idma_entry.
        change (AddrRange.RangeSize 2147876864 4096) with (AddrRange.plain 0x80060000 0x80061000).
        by rewrite elem_of_app, list_elem_of_singleton.
      * intros Ho. destruct (spms_owned _ _ Ho) as [[=]|[[=]|[=]]].
    + split; [exact heap0_device|]. intros Ho. destruct (spms_owned _ _ Ho) as [[=]|[[=]|[=]]].
  - apply (spms_region pt x2 0 0x80000000 0x10000 1); [done|done|left|reflexivity|unfold l1i_data, test_size, L1I_SPM_BASE; lia..].
  - apply (spms_region pt x2 1 0x80010000 0x10000 2); [done|done|right; left|reflexivity|unfold L1D_SPM_DATA, test_size; lia..].
  - apply (spms_region pt x2 2 0x80020000 0x40000 3); [done|done|right; right; left|reflexivity|unfold L2_SPM_BASE; lia..].
  - apply (spms_region pt x2 1 0x80010000 0x10000 2); [done|done|right; left|reflexivity|unfold L1D_SPM_DATA; lia..].
Qed.

(** The tests on it, without random latencies. *)
Definition zero {A} (_ : A) : Z := 0.

Lemma waits_reach (post : machine Spm.t → Prop) m :
  waits_for zero zero zero zero (Ptr 5 0) post m →
  ∃ m1 m2, rtc (wait_step zero zero zero zero (Ptr 5 0)) m m1 ∧ load_word zero zero zero zero (Ptr 5 0) DMA_STATUS m1 = Ok (2, m2) ∧ post m2.
Proof.
  intros Hw. destruct (Hw m (rtc_refl _ _)) as (_ & _ & m1 & m2 & Hr & Hl). exists m1, m2. split; [done|]. split; [done|].
  destruct (Hw m1 Hr) as (_ & (v & m3 & Hl3 & Hv) & _). rewrite Hl in Hl3. injection Hl3 as <- <-. by destruct Hv as [[=]|[_ ?]].
Qed.

Lemma l1i_test_passes_witness :
  ∃ m m1 m2 m3 m4, system = Ok m ∧ l1i_begin zero zero zero zero (Ptr 5 0) m = Ok m1 ∧
    rtc (wait_step zero zero zero zero (Ptr 5 0)) m1 m2 ∧ load_word zero zero zero zero (Ptr 5 0) DMA_STATUS m2 = Ok (2, m3) ∧
    l1i_end zero zero zero zero (Ptr 5 0) m3 = Ok (0, m4) ∧ byte_at (chip m4) 0x80010004 = Some 1.
Proof.
  destruct system_ok as (m & Hm & Hr & Hs & Hd & _).
  destruct (l1i_test_passes zero zero zero zero (Ptr 5 0) 6 12 ltac:(lia) l1i_data L1D_SPM_DATA m Hr Hs Hd) as (m1 & Hb & Hw).
  destruct (waits_reach _ m1 Hw) as (m2 & m3 & Hst & Hl & m4 & He & _ & Hby).
  exists m, m1, m2, m3, m4. split; [exact Hm|]. split; [exact Hb|]. split; [exact Hst|]. split; [exact Hl|]. split; [exact He|].
  rewrite Hby. vm_compute. reflexivity.
Defined.

Lemma l2_test_copies_witness :
  ∃ m before m1 m2 m3 after m4, system = Ok m ∧ l2_begin zero zero zero zero (Ptr 5 0) m = Ok (before, m1) ∧
    rtc (wait_step zero zero zero zero (Ptr 5 0)) m1 m2 ∧ load_word zero zero zero zero (Ptr 5 0) DMA_STATUS m2 = Ok (2, m3) ∧
    l2_end zero zero zero zero (Ptr 5 0) m3 = Ok (after, 1, m4) ∧ words_at (chip m) L2_SPM_BASE 0 16 after.
Proof.
  destruct system_ok as (m & Hm & Hr & _ & _ & Hs & Hd).
  destruct (l2_test_copies zero zero zero zero (Ptr 5 0) 6 12 ltac:(lia) L2_SPM_BASE L1D_SPM_DATA m Hr Hs Hd) as (before & m1 & Hb & _ & Hw).
  destruct (waits_reach _ m1 Hw) as (m2 & m3 & Hst & Hl & after & m4 & He & Haf & _).
  exists m, before, m1, m2, m3, after, m4. split; [exact Hm|]. split; [exact Hb|]. split; [exact Hst|]. split; [exact Hl|]. by split.
Defined.

End HybridMemory.
