(* ===== verification/ProcessSystem.v ===== *)
(** A process over the memories of the system: the theorems about processes at a
    concrete state, with frames in the scratchpad. *)

From S2P Require Import Prelude Bits AddrRange Host PageTable PortProxy FreeList MemPool Vma MemState Process VirtMem ProcessInv.
From S2P Require Import Fault View Region MemSyscalls Futex FutexCall System.
Import Host.

Module ProcessSystem.
Import System (memories, demo_memories, demo_heap, demo_proxy, demo_proxy_ok, demo_proxy_spans, demo_unowned).

#[local] Existing Instance demo_proxy.

(** ** A process with an area of a file and a stack, and no page mapped *)

Definition demo_pool : MemPool.t :=
  match MemPool.create 6 0x8000 0x8100 with Ok s => s | Fail _ => MemPool.mk 0 0 0 FreeList.empty end.

(** Two pages; the file has 8 bytes. *)
Definition demo_area : VMA.t :=
  VMA.mk (AddrRange.plain 0x1000 0x1080) 64 (Some (VMA.mkBuffer (Ptr 6 0) 8 0)) (Some (Ptr 6 0)) 8.

(** The first page of the stack, whose base is the last byte of the page. *)
Definition demo_stack : VMA.t := VMA.mk (AddrRange.plain 0x3fc0 0x4000) 64 None None 0.

Definition demo_state : MemState.t := MemState.mk 64 0 0x3fff 128 128 0x3fc0 0 0x10000 [demo_area; demo_stack].

Lemma demo_mapped_areas x : VMA.mapped [demo_area; demo_stack] x ↔ 0x1000 <= x < 0x1080 ∨ 0x3fc0 <= x < 0x4000.
Proof.
  rewrite !VMA.mapped_cons. unfold VMA.inside. simpl.
  split; [intros [?|[?|(? & []%elem_of_nil & _)]]; [by left|by right]|intros [?|?]; [by left|by right; left]].
Qed.

Definition demo_process : Process.t (G := memories) :=
  Process.mk (EmulationPageTable.mk ∅ 64 63) (MemPool.mkPools 6 [demo_pool]) demo_memories demo_state true 1.

Lemma demo_zero x : 0x8000 <= x < 0x8100 → @guest _ demo_proxy demo_memories demo_heap x = Some 0.
Proof.
  assert (forallb (λ x, bool_decide (@guest _ demo_proxy demo_memories demo_heap x = Some 0)) (seqZ 0x8000 256) = true) as Hall
    by (vm_compute; reflexivity).
  rewrite forallb_forall in Hall. intros Hx. apply (bool_decide_unpack _). specialize (Hall x).
  rewrite Hall; [done|]. apply list_elem_of_In, elem_of_seqZ. lia.
Qed.

(** All pages have frames of the pool. *)
Definition demo_ext (v : Z) : Prop := False.

Lemma demo_bounds : 0 <= 512 ∧ 0 < 4 ∧ (512 + 4) * 2 ^ 6 < 2 ^ 64.
Proof. lia. Qed.

Lemma demo_process_inv : ProcessInv.inv 6 512 4 demo_ext demo_process demo_heap ∅.
Proof.
  constructor.
  - constructor; [constructor; [by constructor|]|..]; try (intros v e He; simpl in He; by rewrite lookup_empty in He).
    + intros v v' e e' He. simpl in He. by rewrite lookup_empty in He.
    + exact demo_proxy_ok.
  - intros v e He. unfold ProcessInv.entry in He. simpl in He. by rewrite lookup_empty in He.
  - exists demo_pool. split; [done|].
    destruct (MemPool.pool_create_inv 6 0x8000 0x8100) as (_ & s & Hs & Hi); [lia..|].
    unfold demo_pool. rewrite Hs. exact Hi.
  - apply demo_proxy_spans; lia.
  - intros _ f i [? ?] _ Hi. apply demo_zero. simpl in *. lia.
Qed.

Lemma demo_state_ok : View.state_ok 6 512 4 demo_ext demo_process demo_heap ∅.
Proof.
  constructor.
  - exact demo_process_inv.
  - constructor; simpl; [done| | |lia|done].
    + split; [repeat constructor; done|]. split; [|split; [|done]].
      * intros x Hx [Hx'|(? & []%elem_of_nil & _)]%VMA.mapped_cons. unfold VMA.inside, VMA.start, VMA.end_ in *. simpl in *. lia.
      * intros x _ (? & []%elem_of_nil & _).
    + constructor; [|constructor; [done|constructor]]. intros _. simpl. split; [done|]. exact (demo_unowned 6 eq_refl).
  - constructor; simpl; (lia || (split; [lia|reflexivity])).
  - intros x Hx Hx' Hm%demo_mapped_areas. unfold ProcessInv.page in Hx. change (2 ^ 6) with 64 in Hx. simpl in Hx, Hx', Hm. pose proof (Z.mod_pos_bound x 64 ltac:(lia)). lia.
  - intros x Hx. apply demo_mapped_areas. unfold ProcessInv.page in Hx. change (2 ^ 6) with 64 in Hx. simpl in Hx. pose proof (Z.div_mod x 64 ltac:(lia)).
    pose proof (Z.mod_pos_bound x 64 ltac:(lia)). lia.
  - intros a Ha. by destruct Ha.
Qed.

(** The third byte of the file is faulted in. *)
Lemma page_fault_unseen_witness :
  ∃ p' h', Process.fixupFault 1 0x1002 demo_process demo_heap = Ok (true, p', h') ∧ View.view 6 p' h' 0x1002 = Some 3 ∧
    ProcessInv.entry p' 0x1000 ≠ None.
Proof.
  pose proof (View.page_fault_unseen 6 512 4 demo_ext ltac:(lia) demo_bounds ltac:(lia) 0 0x1002 demo_process demo_heap ∅ 1
    demo_state_ok ltac:(split; lia) eq_refl ltac:(vm_compute; discriminate) ltac:(lia)) as H.
  assert (View.view 6 demo_process demo_heap 0x1002 = Some 3) as Hv by (vm_compute; reflexivity). rewrite Hv in H.
  destruct H as (p' & h' & al' & Hf & _ & Hview & _ & _ & He & _). exists p', h'. split; [exact Hf|].
  split; [rewrite Hview; exact Hv|exact He].
Defined.

(** 32 bytes are written across the pages of the area, and read. *)
Lemma virtual_access_witness :
  (∃ p' h', Process.tryWriteBlob (Process.fixupFault 1) Process.Never 64 0x1030 (Ptr 4 0) 32 demo_process demo_heap = Ok (true, p', h') ∧
     View.view 6 p' h' 0x1047 = Some 0 ∧ View.view 6 p' h' 0x1002 = Some 3) ∧
  (∃ p' h', Process.tryReadBlob (Process.fixupFault 1) Process.Never 64 0x1030 (Ptr 4 0) 32 demo_process demo_heap = Ok (true, p', h') ∧
     peek h' 4 0 = Some 0).
Proof.
  destruct (View.virtual_access 6 512 4 demo_ext ltac:(lia) demo_bounds ltac:(lia) 0 Process.Never 0 0x1030 (Ptr 4 0) 32 demo_process demo_heap ∅)
    as [(p1 & h1 & al1 & Hw & _ & _ & _ & _ & Hv) Hr].
  - exact demo_state_ok.
  - lia.
  - lia.
  - lia.
  - intros x Hx. right. unfold View.lazy. simpl. unfold VMA.contains, AddrRange.contains. simpl.
    replace ((0x1000 <=? x) && (x <? 0x1080)) with true by lia. unfold Fault.initial, VMA.backing. simpl.
    change (VMA.start demo_area) with 0x1000. replace (x - 0x1000 <? 8) with false by lia. discriminate.
  - vm_compute. discriminate.
  - lia.
  - reflexivity.
  - exact (demo_unowned 4 eq_refl).
  - split.
    + exists p1, h1. split; [exact Hw|]. split; [rewrite Hv; reflexivity|]. rewrite Hv. vm_compute. reflexivity.
    + destruct Hr as (p2 & h2 & al2 & Hr & _ & _ & _ & Hb & _); [constructor; [intros _ b [= <-]; discriminate|by constructor]|].
      exists p2, h2. split; [exact Hr|]. etransitivity; [exact (Hb 0 ltac:(lia))|]. vm_compute. reflexivity.
Defined.

(** The second page of the area is unmapped, and a region of zeros mapped elsewhere. *)
Lemma region_operations_witness :
  (∃ p' h', Process.unmapRegion 0 0x1040 64 demo_process demo_heap = Ok (p', h') ∧
     View.view 6 p' h' 0x1050 = None ∧ View.view 6 p' h' 0x1002 = Some 3) ∧
  ∃ p', Process.mapRegion 0x2000 64 None 0 demo_process = Ok p' ∧ View.view 6 p' demo_heap 0x2030 = Some 0.
Proof.
  split.
  - destruct (Region.region_operations 6 512 4 demo_ext ltac:(lia) demo_bounds 0 0x1040 64 demo_process demo_heap ∅ demo_state_ok)
      as (_ & Hu & _); [constructor; simpl; [split; [lia|reflexivity]|split; [lia|reflexivity]|lia|left; lia]|lia|lia|].
    destruct Hu as (p' & h' & al' & Hu & _ & _ & _ & _ & Hv); [by intros a _ []|].
    exists p', h'. split; [exact Hu|]. split; rewrite Hv; vm_compute; reflexivity.
  - destruct (Region.region_operations 6 512 4 demo_ext ltac:(lia) demo_bounds 0 0x2000 64 demo_process demo_heap ∅ demo_state_ok)
      as (Hm & _); [constructor; simpl; [split; [lia|reflexivity]|split; [lia|reflexivity]|lia|left; lia]|lia|lia|].
    destruct (Hm None 0 I) as (p' & Hp & _ & Hv); [|exists p'; split; [exact Hp|rewrite Hv; vm_compute; reflexivity]].
    intros x Hx [He|Hl]; [by destruct He|]. apply Hl. unfold View.lazy. simpl. unfold VMA.contains, AddrRange.contains. simpl.
    replace ((0x1000 <=? x) && (x <? 0x1080)) with false by lia. replace ((0x3fc0 <=? x) && (x <? 0x4000)) with false by lia.
    rewrite decide_False; [reflexivity|]. unfold View.on_stack, ProcessInv.page. change (2 ^ 6) with 64. simpl. pose proof (Z.mod_pos_bound x 64 ltac:(lia)). lia.
Defined.

(** ** System calls *)

Lemma demo_usable s len :
  0 <= s → s mod 64 = 0 → 0 < len → len mod 64 = 0 → s + len < 0x1000000 → s + len <= 0x3f7f ∨ 0x3fff <= s →
  MemSyscalls.usable 6 demo_ext s len demo_state.
Proof. intros ? ? ? ? ? ?. constructor; [constructor; simpl; (done || lia)|change (2 ^ 6) with 64; lia|by intros a _ []]. Qed.

Lemma demo_range_free s len : s + len <= 0x1000 ∨ 0x4000 <= s → MemSyscalls.free demo_process s len.
Proof. intros Hd x Hx Hm%demo_mapped_areas. lia. Qed.

(** The heap grows by three pages. *)
Lemma brk_call_witness :
  ∃ p' h', MemSyscalls.brkFunc 0 0x90 demo_process demo_heap = Ok (0x90, p', h') ∧ View.view 6 p' h' 0xa0 = Some 0 ∧ View.view 6 p' h' 0x1002 = Some 3.
Proof.
  destruct (MemSyscalls.brk_call 6 512 4 demo_ext ltac:(lia) demo_bounds 0 0x90 demo_process demo_heap ∅ demo_state_ok)
    as [[[?|[_ Hn]] _]|(_ & _ & p' & h' & al' & Hb & _ & _ & Hv)].
  - simpl. lia.
  - simpl. lia.
  - lia.
  - lia.
  - intros Hlt. vm_compute in Hlt. discriminate.
  - intros _. apply (demo_usable 0 0xc0); (lia || reflexivity).
  - discriminate.
  - destruct Hn. apply (demo_range_free 0 0xc0). lia.
  - exists p', h'. split; [exact Hb|]. split; rewrite Hv; vm_compute; reflexivity.
Defined.

Definition demo_driver (start length flags offset : Z) (p : Process.t (G := memories)) (h : hmem) : res (Z * Process.t (G := memories) * hmem) :=
  Ok (- MemSyscalls.EINVAL, p, h).

(** One page of zeros is mapped at the end of the mappings, and the second page of
    the area is unmapped. *)
Lemma mapping_calls_witness :
  (∃ s p' h', MemSyscalls.mmapFunc 0 1 false [] demo_driver 0 64 0x22 (-1) 0 demo_process demo_heap = Ok (Intmath.s64 s, p', h') ∧
     View.view 6 p' h' s = Some 0 ∧ View.view 6 demo_process demo_heap s = None) ∧
  (∃ p' h', MemSyscalls.munmapFunc 0 0x1040 40 demo_process demo_heap = Ok (0, p', h') ∧
     View.view 6 p' h' 0x1050 = None ∧ View.view 6 p' h' 0x1002 = Some 3).
Proof.
  split.
  - destruct (MemSyscalls.mapping_calls 6 512 4 demo_ext ltac:(lia) demo_bounds 0 1 false [] demo_driver 0 64 0x22 (-1) 0 demo_process demo_heap ∅ demo_state_ok)
      as (_ & _ & Hm & _); [lia|lia|]. specialize (Hm None).
    destruct Hm as [Hm _]; [by split_and!|reflexivity|exact I|].
    destruct (Hm eq_refl (or_introl eq_refl) 0%nat) as (s & p' & Hr & _ & Hn & _ & Hv); [|lia|].
    + constructor; [split; simpl; lia| |].
      * intros i Hi. replace i with 0 by lia. apply (demo_usable 0x10000 64); (lia || reflexivity).
      * apply (demo_range_free 0x10000 64). lia.
    + change (Process.page_end 6 64) with 64 in Hn, Hv. exists s, p', demo_heap. split; [exact Hr|]. split; [|apply Hn; lia].
      rewrite Hv, decide_True by lia. reflexivity.
  - destruct (MemSyscalls.mapping_calls 6 512 4 demo_ext ltac:(lia) demo_bounds 0 0 false [] demo_driver 0x1040 40 0 0 0 demo_process demo_heap ∅ demo_state_ok)
      as (_ & _ & _ & _ & Hu); [lia|lia|]. destruct Hu as (p' & h' & al' & Hr & _ & _ & Hv); [apply (demo_usable 0x1040 64); (lia || reflexivity)|].
    exists p', h'. split; [exact Hr|]. split; rewrite Hv; vm_compute; reflexivity.
Defined.

Lemma demo_mremap_args old nl flags arg :
  0 < old <= 128 → 0 <= nl <= 192 → arg mod 64 = 0 → MemSyscalls.mremap_args 6 0x1000 old nl flags arg.
Proof. intros ? ? ?. constructor; [split; [lia|reflexivity]|done|lia|change (2 ^ 6) with 64; lia]. Qed.

Lemma demo_movable ns :
  ns mod 64 = 0 → 0x4000 <= ns < 0x800000 → MemSyscalls.movable 6 demo_ext 0x1000 ns 128 192 demo_process.
Proof.
  intros Hal Hns. assert ((ns + 128) mod 64 = 0) by (rewrite <-Zplus_mod_idemp_l, Hal; reflexivity).
  constructor; [apply (demo_usable 0x1000 128); (lia || reflexivity)| |left; lia|split; [vm_compute; reflexivity|reflexivity]|].
  - split; [split; lia|]. split; [apply (demo_usable ns 128); (done || lia || reflexivity)|].
    split; [apply (demo_usable (ns + 128) 64); (done || lia || reflexivity)|apply (demo_range_free (ns + 128) 64); lia].
  - exists demo_pool, (FreeList.mkRange 512 4). split; [reflexivity|]. split; [by left|vm_compute; discriminate].
Qed.


(** Unmapping no bytes removes every area from the address on. *)
Lemma munmap_zero_destroys :
  ('(_, p, _) ← MemSyscalls.munmapFunc 0 0 0 demo_process demo_heap; Ok (MemState._vmaList (Process.memState p))) = Ok [].
Proof. vm_compute. reflexivity. Qed.

(** The simulator stops when a program maps a file descriptor that does not exist. *)
Lemma mmap_bad_descriptor :
  MemSyscalls.mmapFunc 0 1 false [] demo_driver 0 64 2 5 0 demo_process demo_heap = Fail AssertFailure.
Proof. vm_compute. reflexivity. Qed.

(** ... or when the old size it gives is not one of whole pages. *)
Lemma mremap_unaligned :
  MemSyscalls.mremapFunc 0 false 0x1000 100 192 1 0 demo_process demo_heap = Fail AssertFailure.
Proof. vm_compute. reflexivity. Qed.

(** The pages a moved region has grown by are in no area: to look whether they are
    free stops the simulator. *)
Lemma mremap_no_area :
  ('(_, p, _) ← MemSyscalls.mremapFunc 0 false 0x1000 128 192 1 0 demo_process demo_heap; Process.isUnmapped 0x10080 64 p) = Fail PanicFailure.
Proof. vm_compute. reflexivity. Qed.

(** The flags Linux defines for a fixed address are taken for another request: the
    region goes to the end of the mappings and not to the address given. *)
Lemma mremap_fixed_ignored :
  ('(s, _, _) ← MemSyscalls.mremapFunc 0 false 0x1000 128 192 3 0x2000 demo_process demo_heap; Ok s) = Ok 0x10000.
Proof. vm_compute. reflexivity. Qed.

Lemma demo_word a c : 0x1000 <= a → a + 4 <= 0x1080 → 0 <= c → (4 + a mod 64 + 63) / 64 + c <= 3 → FutexCall.word_ok 6 4 a c demo_process demo_heap ∅.
Proof.
  intros Ha Ha' Hc Hp. constructor; [lia| | |done].
  - intros x Hx. apply (View.accessible_view 6 512 4 demo_ext ltac:(lia) demo_process demo_heap ∅ x demo_state_ok); [split; lia|]. right.
    unfold View.lazy. simpl. unfold VMA.contains, AddrRange.contains. simpl. replace ((0x1000 <=? x) && (x <? 0x1080)) with true by lia.
    destruct (View.initial_some demo_process demo_heap demo_area x) as [y Hy]; [|change (VMA.start demo_area) with 0x1000; lia|by rewrite Hy].
    intros _. simpl. split; [done|]. exact (demo_unowned 6 eq_refl).
  - unfold View.budget, View.pages_of. change (2 ^ 6) with 64. change (View.room 6 (Process.memState demo_process)) with 1.
    change (Z.of_nat (size ∅)) with 0. replace (4 + a mod 64 + 64 - 1) with (4 + a mod 64 + 63) by lia. lia.
Qed.

(** A third thread waits for the first word of the file, and is refused for another
    value; a wake-up adds 5 to a word of zeros and wakes a thread elsewhere. *)
Lemma futex_call_witness :
  (∃ s p' h', FutexCall.futexFunc 1 7 2 0x1000 128 0x04030201 0 0 0 Futex.asleep demo_process demo_heap = Ok (0, s, p', h') ∧ Futex.sleepers s (0x1000, 7) = [2%nat]) ∧
  (∃ e p' h', FutexCall.futexFunc 1 7 2 0x1000 0 5 0 0 0 Futex.asleep demo_process demo_heap = Ok (e, Futex.asleep, p', h') ∧ e ≠ 0) ∧
  ∃ s p' h', FutexCall.futexFunc 1 7 2 64 5 1 1 0x1040 (FutexCall.encoded 1 5 0 0) Futex.asleep demo_process demo_heap = Ok (1, s, p', h') ∧
    FutexCall.word (View.view 6 p' h') 0x1040 = Some 5 ∧ View.view 6 p' h' 0x1002 = Some 3.
Proof.
  split_and!.
  - destruct (FutexCall.futex_call 6 512 4 demo_ext ltac:(lia) demo_bounds ltac:(lia) 0 7 2 0x1000 128 0x04030201 0 0 0 Futex.asleep demo_process demo_heap ∅ demo_state_ok) as (Hw & _).
    destruct Hw as (w & Hw & Hk); [left; reflexivity|apply demo_word; (lia || discriminate)|].
    assert (w = 0x04030201) as -> by (vm_compute in Hw; congruence). destruct Hk as (p' & h' & al' & Hr & _). eexists _, p', h'. split; [exact Hr|reflexivity].
  - destruct (FutexCall.futex_call 6 512 4 demo_ext ltac:(lia) demo_bounds ltac:(lia) 0 7 2 0x1000 0 5 0 0 0 Futex.asleep demo_process demo_heap ∅ demo_state_ok) as (Hw & _).
    destruct Hw as (w & Hw & Hk); [left; reflexivity|apply demo_word; (lia || discriminate)|].
    assert (w = 0x04030201) as -> by (vm_compute in Hw; congruence). destruct Hk as (e & He & p' & h' & al' & Hr & _). exists e, p', h'. split; [exact Hr|exact He].
  - destruct (FutexCall.futex_call 6 512 4 demo_ext ltac:(lia) demo_bounds ltac:(lia) 0 7 2 64 5 1 1 0x1040 (FutexCall.encoded 1 5 0 0) Futex.asleep demo_process demo_heap ∅ demo_state_ok)
      as (_ & _ & _ & _ & _ & Ho & _).
    destruct (Ho eq_refl) with (o := 1) (oparg := 5) (c := 0) (cmparg := 0) as (w & Hw & H); [apply demo_word; (lia || discriminate)|constructor; lia|reflexivity|].
    assert (w = 0) as -> by (vm_compute in Hw; congruence). destruct H as (p' & h' & al' & Hr & _ & Hwd & Hv).
    eexists _, p', h'. split; [exact Hr|]. split; [exact Hwd|]. rewrite Hv by lia. vm_compute. reflexivity.
Defined.

(** The error of a wait that finds another value is a positive number to the program,
    and a plain requeue is refused by a comparison it does not ask for. *)
Lemma futex_error_positive :
  ('(r, _, _, _) ← FutexCall.futexFunc 1 7 2 0x1000 0 5 0 0 0 Futex.asleep demo_process demo_heap; Ok r) = Ok (2 ^ 32 - 11) ∧
  ('(r, s, _, _) ← FutexCall.futexFunc 1 7 2 0x1000 3 1 1 0x1040 0 (Futex.suspend 0x1000 7 0 Futex.asleep) demo_process demo_heap;
   Ok (r, Futex.sleepers s (0x1000, 7))) = Ok (2 ^ 32 - 11, [0%nat]).
Proof. split; vm_compute; reflexivity. Qed.

(** ** Two pages that move *)

Definition demo_table (v w : Z) : EmulationPageTable.t :=
  EmulationPageTable.mk (<[0x2000 := EmulationPageTable.mkEntry v 0]> (<[0x2040 := EmulationPageTable.mkEntry w 0]> ∅)) 64 63.

Definition demo_mapped (v w : Z) : Process.t (G := memories) :=
  Process.mk (demo_table v w) (MemPool.mkPools 6 [demo_pool]) demo_memories demo_state true 1.

Lemma demo_table_typed v w : is_u64 v → is_u64 w → EmulationPageTable.typed 6 (demo_table v w).
Proof.
  intros Hv Hw. refine (EmulationPageTable.typed_insert 6 (EmulationPageTable.mk (<[0x2040 := EmulationPageTable.mkEntry w 0]> ∅) 64 63) _ _ _ _ _ _);
    [|split; lia|reflexivity|done].
  refine (EmulationPageTable.typed_insert 6 (EmulationPageTable.mk ∅ 64 63) _ _ _ _ _ _); [|split; lia|reflexivity|done].
  exact (VirtMem.mo_typed _ _ _ (ProcessInv.iv_mapped _ _ _ _ _ _ _ demo_process_inv)).
Qed.

Lemma demo_translate v w z :
  is_u64 v → is_u64 w → 0 <= z < 128 →
  EmulationPageTable.translate (demo_table v w) (0x2000 + z) = Some (u64 (if decide (z < 64) then v + z else w + (z - 64))).
Proof.
  intros Hv Hw Hz. pose proof (demo_table_typed v w Hv Hw) as Ht. case_decide.
  - rewrite (Process.translated_page 6 ltac:(lia) _ Ht 0x2000 z); [done|split; lia|reflexivity|simpl; lia].
  - replace (0x2000 + z) with (0x2040 + (z - 64)) by lia.
    rewrite (Process.translated_page 6 ltac:(lia) _ Ht 0x2040 (z - 64)); [done|split; lia|reflexivity|simpl; lia].
Qed.

(** 100 bytes at 0x2000 go from 0x8000 to 0x8080. *)
Lemma map_moves_witness :
  ∃ p' h', Process.map 0x2000 0x8080 100 true true (demo_mapped 0x8000 0x8040) demo_heap = Ok (p', h') ∧
    EmulationPageTable.translate (Process.pTable p') 0x2050 = Some 0x80d0 ∧
    Process.virt p' h' 0x2050 = Process.virt (demo_mapped 0x8000 0x8040) demo_heap 0x2050.
Proof.
  destruct (Process.map_moves 6 0x2000 0x8080 100 true (demo_mapped 0x8000 0x8040) demo_heap) as (p' & h' & Hm & _ & _ & Ht & Hv & _).
  - lia.
  - lia.
  - apply demo_table_typed; split; lia.
  - exact demo_proxy_ok.
  - constructor.
    + reflexivity.
    + lia.
    + lia.
    + apply demo_proxy_spans; lia.
    + intros d e Hd Hmod He. assert (d = 0 ∨ d = 64) as [->| ->] by (change (2 ^ 6) with 64 in Hmod; zlia);
        vm_compute in He; injection He as <-; apply demo_proxy_spans; simpl; lia.
    + intros z q Hz Hq. pose proof (demo_translate 0x8000 0x8040 z ltac:(split; lia) ltac:(split; lia) ltac:(lia)) as Htr.
      change (Process.pTable (demo_mapped 0x8000 0x8040)) with (demo_table 0x8000 0x8040) in Hq. rewrite Htr in Hq. injection Hq as <-.
      case_decide; rewrite u64_small by (split; lia); lia.
  - exists p', h'. split; [exact Hm|]. split.
    + apply (Ht 0x50). vm_compute. split; congruence.
    + apply (Hv 0x50); [lia|]. vm_compute. discriminate.
Defined.

(** The order of the copies matters: the second page is lost when the first goes to
    its frame, as the loop of [Process::map] copies each page as it reaches it. *)
Definition demo_bytes : hmem := <[2%positive := Z.of_nat <$> seq 0 256]> demo_heap.

Example map_overlap_loses :
  Process.virt (demo_mapped 0x80c0 0x8080) demo_bytes 0x2041 = Some 0x81 ∧
  match Process.map 0x2000 0x8080 128 true true (demo_mapped 0x80c0 0x8080) demo_bytes with
  | Ok (p', h') => Process.virt p' h' 0x2001 = Some 0xc1 ∧ Process.virt p' h' 0x2041 = Some 0xc1
  | Fail _ => False
  end.
Proof. vm_compute. done. Qed.

(** The end of the last page is mapped with the region, but not copied. *)
Example map_loses_tail :
  Process.virt (demo_mapped 0x8000 0x8040) demo_bytes 0x207f = Some 0x7f ∧
  match Process.map 0x2000 0x8080 100 true true (demo_mapped 0x8000 0x8040) demo_bytes with
  | Ok (p', h') => Process.virt p' h' 0x2063 = Some 0x63 ∧ Process.virt p' h' 0x207f = Some 0xff
  | Fail _ => False
  end.
Proof. vm_compute. done. Qed.

(** [allocateMem] counts pages from the size alone: two bytes across a page boundary get one page. *)
Example allocate_partial :
  match Process.allocateMem 0x3f 2 false demo_process with
  | Ok p' => ProcessInv.entry p' 0 ≠ None ∧ ProcessInv.entry p' 0x40 = None
  | Fail _ => False
  end.
Proof. vm_compute. done. Qed.

(** A page that was mapped outside the pool is given to the pool when it is unmapped. *)
Example deallocate_foreign :
  match Process.deallocateMem 0 0x2000 64 (demo_mapped 0x1000 0x8040) demo_bytes with
  | Ok (p', _) =>
      match MemPool.pools (Process.seWorkload p') !! 0%nat with
      | Some pool => MemPool.freePages pool = 5 ∧ MemPool.totalPages pool = 4
      | None => False
      end
  | Fail _ => False
  end.
Proof. vm_compute. done. Qed.

End ProcessSystem.
